(* ===== verification/_CoqProject ===== *)
-Q . S2P
Prelude.v
MachineInt.v
Types.v
Operators.v
Reader.v
Value.v
Time32.v
Chrono.v
MemComparable.v
StableHash.v
FloatArith.v
Text.v
Like.v
Evaluators.v
Casts.v
Expr.v
Serdes.v
Ranges.v
Detach.v
TableCodec.v
Row.v
Collections.v
Exec.v
Sorting.v
SortExec.v
Aggregate.v
HashJoin.v
NestedLoop.v
Apply.v
Recursive.v
Window.v
Spill.v
ExternalSort.v
Optimizer.v
Transaction.v
Memory.v
Storage.v
Catalog.v
IndexScan.v
CompositeRanges.v
Dml.v
DmlSpec.v
DmlNodes.v
Slices.v
TopN.v
ValueHash.v
CmSketch.v
Kll.v
F64.v
Hll.v
Histogram.v
HistogramCount.v
ConstantFold.v
Simplify.v
SimplifySound.v
Columns.v
FilterRules.v
