(* ===== verification/Prelude.v ===== *)
(** KiteSQL: the storage engine and the query engine, verified.

    KiteSQL (src/) is an embedded SQL database. A query is parsed and bound to
    a plan, the optimizer turns predicates into index ranges, executors pull
    rows from the storage layer, and the storage layer keeps everything (rows,
    index entries, catalog objects, statistics) in one ordered key-value map.
    Whether a query returns the right rows rests on a chain of byte formats and
    iterators, and on the operators over them:

      column predicates  --range_detacher-->  index ranges
      index ranges       --IndexIter------->  byte ranges of the key space
      byte ranges        --Transaction----->  entries in byte order
      entries            --TableCodec, Row->  tuples
      tuples             --executors------->  filtered, joined, sorted,
                                              grouped tuples
      expressions        --evaluators------>  values of their types

    * Files

    - Prelude.v: Rust's [Result] with its notation, byte strings and their
      lexicographic order, tactics, hints and list lemmas.
    - MachineInt.v: fixed-width integers, [to_be_bytes] and the like.
    - Types.v: [LogicalType], [DataValue], the errors; common types of two
      types (src/src/types/mod.rs, src/src/errors.rs).
    - Reader.v: [std::io::Read] and [Write] on byte strings.
    - Value.v: equality, comparison and length checks of values
      (src/src/types/value.rs). The crate ordered_float is the class
      [OrderedFloat] with its documented laws.
    - Time32.v: packed times and their arithmetic ([pack_time], [unpack_time],
      src/src/types/evaluator/time32.rs).
    - Chrono.v: timestamps and the text formats; the crate chrono is the class
      [Chrono].
    - MemComparable.v: the order-preserving key encoding
      ([memcomparable_encode], [memcomparable_decode], [encode_string] of
      src/src/types/value.rs).
    - StableHash.v: the hash that names tables in keys
      (src/src/serdes/stable_hash.rs).
    - FloatArith.v, Text.v: IEEE arithmetic on bit patterns, and Rust's
      [to_string] and [from_str] of numbers and booleans.
    - Operators.v, Evaluators.v, Like.v: the evaluators behind the unary and
      binary operators, their dispatch by position, and LIKE
      (src/src/types/evaluator).
    - Casts.v: the casts between types (src/src/types/evaluator/cast.rs and
      the cast evaluators of each type).
    - Expr.v: scalar expressions, the choice of their evaluators
      ([BindEvaluator]) and their evaluation (src/src/expression/mod.rs,
      src/src/expression/evaluator.rs); user functions are the class
      [ScalarFunctions].
    - Serdes.v: the reference serialization (src/src/serdes); [Serializer] is
      its trait with the round trip every implementation owes.
    - Ranges.v, Detach.v, CompositeRanges.v: ranges of values, their AND and OR
      merges, detaching them from predicates, their combination over several
      columns (src/src/expression/range_detacher.rs).
    - TableCodec.v: the layout of the key space
      (src/src/storage/table_codec.rs).
    - Row.v: rows and their null bitmap (src/src/types/serialize.rs,
      src/src/types/tuple.rs).
    - Transaction.v: the key-value interface, the class [Transaction], and
      [remove_range] (src/src/storage/mod.rs).
    - Memory.v: the in-memory store as an instance of that class
      (src/src/storage/memory.rs).
    - Storage.v: rows, index entries, names, views, DROP TABLE
      (src/src/storage/mod.rs).
    - Catalog.v: columns, tables and indexes as the catalog keeps them
      (src/src/catalog).
    - IndexScan.v: table scans and index scans, every kind of index, offset
      and limit (src/src/storage/mod.rs).
    - Collections.v: hash maps keyed up to [Eq], and counting of rows.
    - Exec.v: the polling protocol of the executors (class [Executor], relation
      [runs]); filter, projection, limit, union, EXCEPT and INTERSECT, values,
      streaming DISTINCT (src/src/execution).
    - Sorting.v, SortExec.v: sort and top-k (src/src/execution/dql/sort.rs,
      top_k.rs).
    - Aggregate.v: accumulators, and simple, hash and streaming aggregation
      (src/src/execution/dql/aggregate); the order in which a hash map yields
      its entries is the class [HashOrder].
    - HashJoin.v, NestedLoop.v: the two joins (src/src/execution/dql/join).
    - Apply.v: subqueries (mark_apply.rs, scalar_apply.rs, scalar_subquery.rs of
      src/src/execution/dql).
    - Recursive.v: recursive queries (src/src/execution/dql/recursive_cte.rs).
    - Window.v: window functions (src/src/execution/dql/window.rs).
    - Spill.v, ExternalSort.v: buffers that spill to files and the merge sort
      over them (src/src/execution/spill, src/src/execution/dql/external_sort.rs;
      feature [spill]).
    - Dml.v, DmlSpec.v, DmlNodes.v: INSERT, UPDATE and DELETE
      (src/src/execution/dml), what they promise of a table and its indexes, and
      the proofs.
    - ConstantFold.v, Simplify.v, SimplifySound.v: constant folding and the
      simplifier of filters (src/src/expression/simplify.rs, with the walks of
      visitor_mut.rs), and the rules it is sound for.
    - Slices.v, TopN.v, CmSketch.v, Kll.v, F64.v, Hll.v, Histogram.v,
      HistogramCount.v, ValueHash.v: the statistics (src/src/optimizer/core):
      the table of frequent values, the count-min, quantile and HyperLogLog
      sketches, histograms and the estimate of a range's rows, and the hashing
      of values they use. The floating-point functions without a bit-level
      model are parameters.
    - Optimizer.v: plans, and four rewriting rules with the meaning of a plan
      given by the executors (src/src/optimizer/rule/normalization).
    - Columns.v, FilterRules.v: the columns an expression refers to and moving
      their positions (src/src/expression/mod.rs, visitor_mut.rs), and moving
      filters below joins ([PushPredicateThroughJoin] of
      src/src/optimizer/rule/normalization/pushdown_predicates.rs). Expressions
      are trees: that the code shifts shared references more than once is
      outside this model.

    * How the code is rendered

    [&mut self] is state passing; [Result] is [result], with [let?] for the
    operator [?]. A panic (a failed [assert!], an arithmetic overflow, an index
    out of range, an arm the code declares unreachable) is the error value
    [Panic], so a theorem with an [Ok] result also says that nothing panics.
    Integers are [Z] inside the range of their Rust type, floats their IEEE bit
    patterns, strings their UTF-8 bytes. Buffers that a call clears and reuses
    start empty. An executor is its state with a polling function; its input is
    a [Stream], the rows an input node will give and the error it ends with if
    any, and [runs next s out] says that polling [s] ends after exactly the
    rows of [out]. Node trees compose by these streams. A plan that is built
    again and again (the right side of an apply, the step of a recursion) is a
    function from what it is built over to its stream. The features are the
    default ones, [time] on and [decimal] off, but for Spill.v and
    ExternalSort.v, which exist with [spill] only.

    * What the theorems show

    - Keys: byte order of encoded keys is the order of the values
      ([memcomparable_order]), decoding inverts encoding
      ([memcomparable_roundtrip]), row and index keys keep that order and stay
      inside the ranges scanned for them ([tuple_key_order],
      [index_key_order]), and a key-type range holds the keys of one table and
      one type only ([type_bound_exact]).
    - Rows: a row is read back as written ([row_roundtrip]); a projected read
      keeps the wanted columns ([row_projection], [create_deserializers_spec]).
    - Storage: the in-memory store refines a finite map
      ([memory_refines_map]); inserts, index entries, names, views, range
      removal and DROP TABLE do what they promise and touch nothing else
      ([append_then_get], [add_index_spec] and, in terms of rows,
      [add_index_rows], [check_name_hash_spec],
      [view_lifecycle], [remove_range_spec], [drop_table_spec]). These are
      proved for any instance of [Transaction].
    - Scans: a range of values is turned into the byte range of exactly its
      entries ([index_scope_exact], [index_eq_exact]), and an iterator called
      to its end yields the rows in order, windowed by offset and limit, up to
      the first error, or the first key of a primary or unique index that is
      not found ([index_scan_spec], [table_scan_spec], [covered_lookup_spec]).
    - Ranges: a comparison's range selects the rows for which the comparison is
      true ([new_range_exact]); AND is the intersection, OR the union
      ([and_merge_exact], [or_merge_exact], [combining_eqs_exact]); and the
      range detached from a predicate whose constants have the column's type,
      with its residual, selects the rows of the predicate
      ([detach_conjunction_exact], [detach_disjunction_exact]).
    - Catalog: every catalog the operations build is well formed
      ([catalog_invariant]) and is rebuilt from what is stored of it
      ([catalog_reload_roundtrip]).
    - Writing: INSERT, UPDATE and DELETE implement adding, replacing and
      removing rows of a list, with every index in step and nothing else
      touched ([insert_refines], [update_refines], [delete_refines]).
    - Values: comparison is an order that agrees with equality
      ([data_value_order_laws]); packed times and reference encodings round
      trip; the common type of two types is symmetric.
    - Expressions: what the binder types an expression as is what it evaluates
      to, but for the exclusions the statements name (unary operators on
      unsigned operands, arithmetic on and casts to times of day)
      ([eval_type_sound], [binary_eval_sound], [unary_eval_sound],
      [cast_sound]); integer casts and integer text are exact
      ([integer_cast_exact], [integer_text_roundtrip]); AND, OR and NOT are
      three-valued logic ([boolean_kleene]); LIKE decides whether a string is
      an instance of a pattern, as a relation on characters defines it
      ([string_like_spec]).
    - Executors: each node, polled to its end, gives the rows SQL asks for:
      [limit_window], [set_membership_counts], [stream_distinct_once],
      [sort_stable_order], [hash_agg_groups], [count_counts], [sum_exact],
      [min_max_extreme], [hash_inner_join], [hash_right_join],
      [hash_left_join], [nested_loop_join_spec], [mark_apply_markers],
      [apply_join_spec], [scalar_apply_spec], [window_spec],
      [recursive_cte_spec] with [recursive_cte_live] for recursions that do not
      end; and optimised nodes agree with plain ones ([top_k_is_sort_limit],
      [external_sort_is_sort] over [spill_roundtrip], [stream_agg_is_hash_agg],
      [nested_loop_hash_agree], [filter_project_pipeline]).
    - Optimizer: a rewritten plan produces the rows of the plan
      ([limit_project_transpose_sound], [top_k_rule_sound],
      [min_max_to_top_k_sound], [push_predicate_sound]); a folded expression
      evaluates to what the expression does ([constant_folding_sound]), and the
      simplifier applies rules that keep the value of a predicate
      ([simplifier_sound]).
    - Statistics: a histogram describes its column ([histogram_build_spec]), its
      quantiles are within the error of the sketch ([kll_quantiles]), counts are
      bracketed ([top_n_guarantee], [sketch_brackets]), sketches survive storage
      ([sketch_storage_roundtrip]) and an estimate is always a number, the one
      of exact counters, unless it does not fit a [usize]
      ([collect_count_total]).
    - Deviations, each proved with the smallest hypotheses that show it:
      [and_merge_keeps_disjoint], [or_merge_fills_gap], [or_merge_drops_null],
      [unique_prefix_lookup_misses], [index_scan_stops_at_miss],
      [drop_view_releases_table_name], [row_projection_skipped_null],
      [memcomparable_nan], [time32_packed_order_differs],
      [memory_dirty_read], [float_cast_rejects_zero],
      [timestamp_cast_relabels], [unary_type_unsigned],
      [avg_double_truncates], [outer_join_spurious_rows],
      [push_limit_offset_twice], [detach_truncates_constant],
      [nested_loop_joins_null_keys], [update_assigns_in_sequence],
      [update_stores_null], [overwrite_leaves_old_entries],
      [delete_leaves_padded_entry], [scalar_subquery_returns_rejected],
      [add_falls_short], [cut_bucket_counts_nulls], [boolean_estimate_fails],
      [folded_timestamp_incomparable]; of the simplifier
      [constant_on_the_left_is_kept], [negative_factor_keeps_the_comparison],
      [terms_leak_out_of_arguments], [a_column_disappears],
      [moved_term_overflows], [boolean_between_unsupported],
      [in_and_between_depend_on_the_place], [parameter_is_folded].

    * Fuel

    Loops that are not structural carry fuel. [encode_string] has the number of
    groups the code itself computes. [decode_string] and
    [decode_reference_value] have the length of the reader, of which every
    iteration consumes bytes. [remove_range] has one more than the entries in
    its range: a full batch removes some. [IndexIter::next_tuple_into] has
    [ii_fuel], two iterations per remaining range and a constant.
    [extract_merge_ranges] has [extract_fuel], the size of its arguments: an
    iteration moves on or removes a range. [time_plus] and [time_minus] have
    five, since a [u32] holds fewer than five seconds of nanoseconds.
    [string_like] has [like_fuel], a bound on its backtracking; the theorem
    shows that it always answers. Printing a float tries up to seventeen
    digits, enough for any [f64]. A poll of a recursive query passes at most
    three phases. [window_next] has the rows of the input and four more, for the
    pending row, the end and the answer. [merge_loop] has the length of the file
    it reads, of which every row takes bytes; [merge_passes] the number of runs,
    which every pass lowers; [spilled_next] two, since no segment is empty.
    [prune_loop] has the length of the table, [search_loop] the slice it halves,
    [compact_if_needed] the levels, [collect_loop] the buckets and the
    ranges. The visitor of the simplifier calls itself on what it has built, so
    its theorem gives a fuel from which on the result is the same.
    Except for the decoders, where an exhausted reader is the error the code
    gives, running out is a value of its own ([Err Panic], [None] for
    [extract_merge_ranges]), and the theorems prove results other than that.

    * What is not modelled

    RocksDB and LMDB are third-party stores behind [Transaction]. The parser
    builds syntax trees, and of the binder only the typing of operators is
    here. The encodings of catalog objects (table metadata, views, statistics)
    are opaque byte strings. Decimals are off by default. The operating
    system's errors on spill files are not modelled. The nodes that run DDL,
    COPY, ANALYZE, SHOW, DESCRIBE and EXPLAIN, the sessions of db.rs, the ORM
    and the bindings are glue over what is here or over files.

    * Plan

    Next, in this order: the other rewriting rules (filters into scans and
    join conditions, projections, columns); ALTER TABLE and the loading of catalog objects; the binder. *)

From stdpp Require Import base list list_numbers numbers option sorting.
From Stdlib Require Import ZArith Lia.

Local Open Scope Z_scope.

(** * Results: Rust's [Result<T, E>] as a value *)

Inductive result (E A : Type) : Type :=
| Ok (a : A)
| Err (e : E).
Arguments Ok {E A} a.
Arguments Err {E A} e.

Declare Scope result_scope.
Delimit Scope result_scope with result.

Definition rbind {E A B : Type} (m : result E A) (k : A -> result E B) : result E B :=
  match m with
  | Ok a => k a
  | Err e => Err e
  end.

(** The [?] operator of Rust. *)
Notation "'let?' p := m 'in' k" := (rbind m (fun p => k))
  (at level 10, p as pattern, m at level 100, k at level 200,
   format "'[v' 'let?'  p  :=  m  'in' '/' k ']'") : result_scope.

#[global] Open Scope result_scope.

(** [injection] without reducing the two sides. *)
Lemma Ok_inj {E A : Type} (a b : A) : @Ok E A a = Ok b -> a = b.
Proof. by intros [=]. Qed.

Lemma rbind_ok {E A B : Type} (m : result E A) (k : A -> result E B) (b : B) :
  rbind m k = Ok b <-> exists a, m = Ok a /\ k a = Ok b.
Proof.
  destruct m as [a|e]; simpl; split.
  - eauto.
  - intros (a' & Ha & Hk). by simplify_eq.
  - discriminate.
  - intros (a' & Ha & _). discriminate.
Qed.

Lemma rbind_err {E A B : Type} (m : result E A) (k : A -> result E B) (e : E) :
  rbind m k = Err e <-> m = Err e \/ exists a, m = Ok a /\ k a = Err e.
Proof.
  destruct m as [a|e']; simpl; split.
  - eauto.
  - intros [H|(a' & Ha & Hk)]; [discriminate|]. by simplify_eq.
  - intros H. left. by simplify_eq.
  - intros [H|(a' & Ha & Hk)]; [|discriminate]. by simplify_eq.
Qed.

Lemma rbind_assoc {E A B C : Type} (m : result E A) (f : A -> result E B) (g : B -> result E C) :
  rbind (rbind m f) g = rbind m (fun a => rbind (f a) g).
Proof. by destruct m. Qed.

(** Sequential [for] loop over a list with early return on error. *)
Fixpoint rfold {E A B : Type} (f : B -> A -> result E B) (acc : B) (l : list A) : result E B :=
  match l with
  | [] => Ok acc
  | x :: l' => let? acc' := f acc x in rfold f acc' l'
  end.

Lemma rfold_app {E A B : Type} (f : B -> A -> result E B) (acc : B) (l1 l2 : list A) :
  rfold f acc (l1 ++ l2) = rbind (rfold f acc l1) (fun acc' => rfold f acc' l2).
Proof.
  revert acc. induction l1 as [|x l1 IH]; intros acc; simpl; [done|].
  destruct (f acc x); simpl; auto.
Qed.

(** [iter().map(f).collect::<Result<Vec<_>, _>>()]: stop at the first error. *)
Fixpoint rmap {E A B : Type} (f : A -> result E B) (l : list A) : result E (list B) :=
  match l with
  | [] => Ok []
  | x :: l' => let? y := f x in let? ys := rmap f l' in Ok (y :: ys)
  end.

Lemma rmap_Ok {E A B : Type} (f : A -> result E B) (l : list A) (ys : list B) :
  rmap f l = Ok ys <-> Forall2 (fun x y => f x = Ok y) l ys.
Proof.
  revert ys. induction l as [|x l IH]; intros ys; simpl.
  - split; [by intros [= <-]|by inversion 1].
  - destruct (f x) as [y|] eqn:E1; simpl.
    + destruct (rmap f l) as [zs|] eqn:E2; simpl.
      * split; [intros [= <-]; constructor; [done|by apply IH]|].
        inversion 1 as [|? y' ? ys' Hy Hys]; subst. apply IH in Hys. congruence.
      * split; [done|]. inversion 1 as [|? y' ? ys' Hy Hys]; subst. apply IH in Hys. done.
    + split; [done|]. inversion 1; congruence.
Qed.

(** [Forall] as a recursive function, for predicates on nested inductives. *)
Fixpoint all_of {A : Type} (P : A -> Prop) (l : list A) : Prop :=
  match l with
  | [] => True
  | x :: l' => P x /\ all_of P l'
  end.

Lemma all_of_Forall {A : Type} (P : A -> Prop) (l : list A) : all_of P l <-> Forall P l.
Proof. induction l as [|x l IH]; simpl; [by rewrite Forall_nil|]. by rewrite Forall_cons, IH. Qed.

(** * Tactics and hint databases of the development *)

Create HintDb kite.

(** Case on the discriminant of the first [match] or [if] found. *)
Ltac case_match_any :=
  match goal with
  | |- context [match ?x with _ => _ end] => destruct x eqn:?
  | H : context [match ?x with _ => _ end] |- _ => destruct x eqn:?
  end.

(** Decompose a hypothesis of the form [let? .. in .. = Ok _]. *)
Ltac inv_ok :=
  repeat match goal with
  | H : rbind _ _ = Ok _ |- _ =>
      apply rbind_ok in H; let a := fresh "a" in let Ha := fresh "Ha" in
      destruct H as (a & Ha & H)
  | H : Ok _ = Ok _ |- _ => injection H as H
  | H : Err _ = Ok _ |- _ => discriminate H
  | H : Ok _ = Err _ |- _ => discriminate H
  end.

(** Boolean comparisons on [Z] as propositions, everywhere. *)
Ltac z_bool :=
  repeat match goal with
  | H : (_ && _) = true |- _ => apply andb_true_iff in H; destruct H
  | H : (_ <? _) = true |- _ => apply Z.ltb_lt in H
  | H : (_ <? _) = false |- _ => apply Z.ltb_ge in H
  | H : (_ <=? _) = true |- _ => apply Z.leb_le in H
  | H : (_ <=? _) = false |- _ => apply Z.leb_gt in H
  | H : (_ =? _) = true |- _ => apply Z.eqb_eq in H
  | H : (_ =? _) = false |- _ => apply Z.eqb_neq in H
  end.

(** * Comparisons *)

(** [a.cmp(b).then(c)]. *)
Definition cmp_then (c d : comparison) : comparison :=
  match c with
  | Eq => d
  | _ => c
  end.

Lemma cmp_then_Eq_r (c : comparison) : cmp_then c Eq = c.
Proof. by destruct c. Qed.

Lemma cmp_then_assoc (a b c : comparison) :
  cmp_then (cmp_then a b) c = cmp_then a (cmp_then b c).
Proof. by destruct a. Qed.

Lemma Zcompare_mono (f : Z -> Z) (P : Z -> Prop) (a b : Z) :
  (forall x y, P x -> P y -> x < y -> f x < f y) ->
  P a -> P b -> (f a ?= f b) = (a ?= b).
Proof.
  intros Hf Ha Hb. destruct (Z.compare_spec a b) as [->|Hlt|Hgt].
  - apply Z.compare_refl.
  - apply Z.compare_lt_iff; auto.
  - apply Z.compare_gt_iff; auto.
Qed.

Lemma Zcompare_add_l (a b c : Z) : (c + a ?= c + b) = (a ?= b).
Proof. destruct (Z.compare_spec a b), (Z.compare_spec (c + a) (c + b)); lia || done. Qed.

(** Two outcomes that determine the comparison of the outer operands. *)
Definition cmp_compat (o1 o2 : comparison) : Prop := o1 = Eq \/ o2 = Eq \/ o1 = o2.

Definition cmp_transitive {A : Type} (cmp : A -> A -> comparison) : Prop :=
  forall a b c o1 o2, cmp a b = o1 -> cmp b c = o2 -> cmp_compat o1 o2 ->
    cmp a c = cmp_then o1 o2.

Lemma Zcompare_transitive : cmp_transitive Z.compare.
Proof.
  intros a b c o1 o2 <- <-. unfold cmp_compat.
  destruct (Z.compare_spec a b), (Z.compare_spec b c), (Z.compare_spec a c); simpl;
    intros [|[|]]; done || lia.
Qed.

(** * Bytes *)

Definition byte_ok (b : Z) : Prop := 0 <= b < 256.
Definition bytes_ok (bs : list Z) : Prop := Forall byte_ok bs.

(** Lexicographic order of byte strings: [Ord for [u8]]. *)
Fixpoint lex_cmp (a b : list Z) : comparison :=
  match a, b with
  | [], [] => Eq
  | [], _ :: _ => Lt
  | _ :: _, [] => Gt
  | x :: a', y :: b' => cmp_then (x ?= y) (lex_cmp a' b')
  end.

Definition lex_le (a b : list Z) : Prop := lex_cmp a b <> Gt.
Definition lex_lt (a b : list Z) : Prop := lex_cmp a b = Lt.

Lemma lex_cmp_refl (a : list Z) : lex_cmp a a = Eq.
Proof. induction a as [|x a IH]; simpl; [done|]. by rewrite Z.compare_refl. Qed.

Lemma lex_cmp_eq (a b : list Z) : lex_cmp a b = Eq <-> a = b.
Proof.
  split; [|intros ->; apply lex_cmp_refl].
  revert b. induction a as [|x a IH]; intros [|y b]; simpl; try done.
  destruct (Z.compare_spec x y) as [->|?|?]; simpl; try done.
  intros H. f_equal. auto.
Qed.

Lemma lex_cmp_antisym (a b : list Z) : lex_cmp b a = CompOpp (lex_cmp a b).
Proof.
  revert b. induction a as [|x a IH]; intros [|y b]; simpl; try done.
  rewrite (Z.compare_antisym x y), IH. by destruct (x ?= y).
Qed.

Lemma lex_cmp_app_l (p a b : list Z) : lex_cmp (p ++ a) (p ++ b) = lex_cmp a b.
Proof. induction p as [|x p IH]; simpl; [done|]. by rewrite Z.compare_refl. Qed.

Lemma lex_cmp_app_len (a b r1 r2 : list Z) :
  length a = length b ->
  lex_cmp (a ++ r1) (b ++ r2) = cmp_then (lex_cmp a b) (lex_cmp r1 r2).
Proof.
  revert b. induction a as [|x a IH]; intros [|y b] Hlen; simplify_eq/=; [done|].
  rewrite IH by done. by rewrite cmp_then_assoc.
Qed.

Lemma lex_lt_trans (a b c : list Z) : lex_lt a b -> lex_lt b c -> lex_lt a c.
Proof.
  unfold lex_lt. revert b c.
  induction a as [|x a IH]; intros [|y b] [|z c]; simpl; try done.
  destruct (Z.compare_spec x y) as [->|Hxy|Hxy]; simpl; try done.
  - destruct (Z.compare_spec y z) as [->|?|?]; simpl; try done. apply IH.
  - intros _. destruct (Z.compare_spec y z) as [->|Hyz|Hyz]; simpl; try done; intros _.
    + destruct (Z.compare_spec x z); simpl; lia || done.
    + destruct (Z.compare_spec x z); simpl; lia || done.
Qed.

Lemma lex_cmp_transitive : cmp_transitive lex_cmp.
Proof.
  intros a b c o1 o2 <- <-. unfold cmp_compat.
  destruct (lex_cmp a b) eqn:Hab; simpl.
  - apply lex_cmp_eq in Hab. by subst.
  - destruct (lex_cmp b c) eqn:Hbc; intros [|[|]]; try done.
    + apply lex_cmp_eq in Hbc. by subst.
    + by eapply lex_lt_trans.
  - destruct (lex_cmp b c) eqn:Hbc; intros [|[|]]; try done.
    + apply lex_cmp_eq in Hbc. by subst.
    + rewrite (lex_cmp_antisym c a). rewrite (lex_cmp_antisym b a) in Hab.
      rewrite (lex_cmp_antisym c b) in Hbc.
      rewrite (lex_lt_trans c b a); [done|..]; unfold lex_lt.
      * by destruct (lex_cmp c b).
      * by destruct (lex_cmp b a).
Qed.

Lemma lex_le_lt_or_eq (a b : list Z) : lex_le a b <-> lex_lt a b \/ a = b.
Proof.
  unfold lex_le, lex_lt. rewrite <- (lex_cmp_eq a b).
  destruct (lex_cmp a b); intuition congruence.
Qed.

Lemma lex_le_trans (a b c : list Z) : lex_le a b -> lex_le b c -> lex_le a c.
Proof.
  rewrite !lex_le_lt_or_eq. intros [H1| ->] [H2| ->]; eauto using lex_lt_trans.
Qed.

Lemma lex_le_nil (a : list Z) : lex_le [] a.
Proof. by destruct a. Qed.

(** A prefix is never greater than its extension. *)
Lemma lex_le_prefix (p s : list Z) : lex_le p (p ++ s).
Proof.
  unfold lex_le. rewrite <- (app_nil_r p) at 1. rewrite lex_cmp_app_l. apply lex_le_nil.
Qed.

#[global] Instance lex_le_dec : RelDecision lex_le.
Proof. intros a b. unfold lex_le. destruct (lex_cmp a b); [left|left|right]; naive_solver. Defined.
#[global] Instance lex_lt_dec : RelDecision lex_lt.
Proof. intros a b. unfold lex_lt. apply _. Defined.
#[global] Instance lex_le_total : Total lex_le.
Proof. intros a b. unfold lex_le. rewrite (lex_cmp_antisym a b). destruct (lex_cmp a b); naive_solver. Qed.
#[global] Instance lex_le_transitive : Transitive lex_le.
Proof. intros a b c. apply lex_le_trans. Qed.
#[global] Instance lex_le_antisymm : AntiSymm (=) lex_le.
Proof.
  intros a b H1 H2. apply lex_cmp_eq. unfold lex_le in *.
  rewrite (lex_cmp_antisym a b) in H2. destruct (lex_cmp a b); naive_solver.
Qed.

(** [e] maps the order [cmp] to byte order, also under any continuation: the
    encodings of two values are equal when the values compare equal, and otherwise
    differ before either ends. It composes under concatenation. *)
Definition lex_embed (e1 e2 : list Z) (c : comparison) : Prop :=
  forall r1 r2, lex_cmp (e1 ++ r1) (e2 ++ r2) = cmp_then c (lex_cmp r1 r2).

Lemma lex_embed_cmp (e1 e2 : list Z) (c : comparison) :
  lex_embed e1 e2 c -> lex_cmp e1 e2 = c.
Proof.
  intros H. specialize (H [] []). rewrite !app_nil_r in H. simpl in H.
  by rewrite cmp_then_Eq_r in H.
Qed.

Lemma lex_embed_nil : lex_embed [] [] Eq.
Proof. by intros r1 r2. Qed.

Lemma lex_embed_app (a1 a2 b1 b2 : list Z) (c d : comparison) :
  lex_embed a1 a2 c -> lex_embed b1 b2 d -> lex_embed (a1 ++ b1) (a2 ++ b2) (cmp_then c d).
Proof.
  intros Ha Hb r1 r2. rewrite <- !(assoc_L app), Ha, Hb. by rewrite cmp_then_assoc.
Qed.

(** Once the first parts differ, what follows is irrelevant. *)
Lemma lex_embed_app_ne (a1 a2 b1 b2 : list Z) (c : comparison) :
  lex_embed a1 a2 c -> c <> Eq -> lex_embed (a1 ++ b1) (a2 ++ b2) c.
Proof. intros Ha Hc r1 r2. rewrite <- !(assoc_L app), Ha. by destruct c. Qed.

Lemma lex_embed_same (p : list Z) : lex_embed p p Eq.
Proof. intros r1 r2. apply lex_cmp_app_l. Qed.

Lemma lex_embed_byte (x y : Z) : lex_embed [x] [y] (x ?= y).
Proof. by intros r1 r2. Qed.

Lemma lex_embed_len (a b : list Z) :
  length a = length b -> lex_embed a b (lex_cmp a b).
Proof. intros H r1 r2. by apply lex_cmp_app_len. Qed.

#[export] Hint Resolve lex_embed_nil lex_embed_same lex_embed_byte lex_le_prefix : kite.
