(* ===== verification/MachineInt.v ===== *)
(** Machine integers and their byte images.

    Rust's fixed-width integers are [Z] values kept inside their range; the
    operations the sources use on them ([as] casts, [wrapping_mul],
    [rotate_left], [^], [!], [to_be_bytes], [to_le_bytes] and the inverse
    [from_*_bytes]) are written out here with their wrap-around, together with
    the lemmas on big-endian order and round trips that the codecs share. *)

From S2P Require Import Prelude.
From stdpp Require Import base list list_numbers numbers.
From Stdlib Require Import ZArith Lia.
Local Open Scope Z_scope.

(** * Ranges and casts *)

Definition in_u (w v : Z) : Prop := 0 <= v < 2 ^ w.
Definition in_s (w v : Z) : Prop := - 2 ^ (w - 1) <= v < 2 ^ (w - 1).

(** [v as uN]: keep the low [w] bits. *)
Definition as_u (w v : Z) : Z := v mod 2 ^ w.

(** [u as iN] for a [w]-bit pattern [u]. *)
Definition as_s (w u : Z) : Z :=
  let u' := u mod 2 ^ w in
  if u' <? 2 ^ (w - 1) then u' else u' - 2 ^ w.

(** [!u] on a [w]-bit unsigned integer. *)
Definition not_u (w u : Z) : Z := 2 ^ w - 1 - u.

Definition wrapping_add_u (w a b : Z) : Z := as_u w (a + b).
Definition wrapping_mul_u (w a b : Z) : Z := as_u w (a * b).

Definition rotate_left_u (w u n : Z) : Z :=
  Z.lor (as_u w (Z.shiftl u n)) (Z.shiftr u (w - n)).
Definition rotate_right_u (w u n : Z) : Z :=
  Z.lor (Z.shiftr u n) (as_u w (Z.shiftl u (w - n))).

(** Checked arithmetic: [None] on overflow. *)
Definition checked_s (w v : Z) : option Z :=
  if (- 2 ^ (w - 1) <=? v) && (v <? 2 ^ (w - 1)) then Some v else None.
Definition checked_u (w v : Z) : option Z :=
  if (0 <=? v) && (v <? 2 ^ w) then Some v else None.

Lemma pow2_pos (w : Z) : 0 <= w -> 0 < 2 ^ w.
Proof. intros. apply Z.pow_pos_nonneg; lia. Qed.

Lemma pow2_half (w : Z) : 0 < w -> 2 ^ w = 2 ^ (w - 1) + 2 ^ (w - 1).
Proof.
  intros. replace w with (Z.succ (w - 1)) at 1 by lia. rewrite Z.pow_succ_r by lia. lia.
Qed.

Lemma as_u_range (w v : Z) : 0 <= w -> in_u w (as_u w v).
Proof. intros. apply Z.mod_pos_bound. by apply pow2_pos. Qed.

Lemma as_u_id (w v : Z) : in_u w v -> as_u w v = v.
Proof. intros. by apply Z.mod_small. Qed.

Lemma as_u_signed (w v : Z) :
  0 < w -> in_s w v -> as_u w v = if v <? 0 then v + 2 ^ w else v.
Proof.
  unfold in_s, as_u. intros Hw Hv. pose proof (pow2_half w Hw).
  pose proof (pow2_pos (w - 1) ltac:(lia)).
  destruct (Z.ltb_spec v 0).
  - symmetry. apply Z.mod_unique with (q := -1); lia.
  - apply Z.mod_small; lia.
Qed.

Lemma as_s_as_u (w v : Z) : 0 < w -> in_s w v -> as_s w (as_u w v) = v.
Proof.
  intros Hw Hv. pose proof (pow2_half w Hw). pose proof (pow2_pos (w - 1) ltac:(lia)).
  unfold as_s. change ((as_u w v) mod 2 ^ w) with (as_u w (as_u w v)).
  rewrite (as_u_id w (as_u w v)) by (apply as_u_range; lia).
  rewrite as_u_signed by done. unfold in_s in Hv.
  destruct (Z.ltb_spec v 0); [rewrite (proj2 (Z.ltb_ge _ _)) by lia|rewrite (proj2 (Z.ltb_lt _ _)) by lia]; lia.
Qed.

Lemma as_s_range (w u : Z) : 0 < w -> in_s w (as_s w u).
Proof.
  intros Hw. pose proof (pow2_half w Hw). pose proof (pow2_pos (w - 1) ltac:(lia)).
  unfold as_s, in_s. pose proof (Z.mod_pos_bound u (2 ^ w) ltac:(lia)).
  destruct (Z.ltb_spec (u mod 2 ^ w) (2 ^ (w - 1))); lia.
Qed.

Lemma checked_s_Some (w v r : Z) : checked_s w v = Some r <-> r = v /\ in_s w v.
Proof.
  unfold checked_s, in_s. case_match eqn:E.
  - z_bool. split; [intros [= <-]; lia | by intros [-> _]].
  - apply andb_false_iff in E. split; [done|]. destruct E; z_bool; lia.
Qed.

Lemma checked_u_Some (w v r : Z) : checked_u w v = Some r <-> r = v /\ in_u w v.
Proof.
  unfold checked_u, in_u. case_match eqn:E.
  - z_bool. split; [intros [= <-]; lia | by intros [-> _]].
  - apply andb_false_iff in E. split; [done|]. destruct E; z_bool; lia.
Qed.

Lemma checked_s_None (w v : Z) : checked_s w v = None <-> ~ in_s w v.
Proof.
  pose proof (checked_s_Some w v v) as H.
  destruct (checked_s w v) as [r|] eqn:E; [|naive_solver].
  apply checked_s_Some in E. naive_solver.
Qed.

Lemma checked_u_None (w v : Z) : checked_u w v = None <-> ~ in_u w v.
Proof.
  pose proof (checked_u_Some w v v) as H.
  destruct (checked_u w v) as [r|] eqn:E; [|naive_solver].
  apply checked_u_Some in E. naive_solver.
Qed.

(** * Bits: the operations on the top bit *)

Lemma land_pow2_small (u n : Z) : 0 <= n -> 0 <= u < 2 ^ n -> Z.land u (2 ^ n) = 0.
Proof.
  intros Hn Hu. apply Z.bits_inj'. intros i Hi.
  rewrite Z.land_spec, Z.pow2_bits_eqb, Z.bits_0 by lia.
  destruct (Z.eqb_spec n i) as [->|]; [|by rewrite andb_false_r].
  destruct (Z.eq_dec u 0) as [->|]; [by rewrite Z.bits_0|].
  rewrite Z.bits_above_log2; [done|lia|]. apply Z.log2_lt_pow2; lia.
Qed.

Lemma lxor_pow2_small (u n : Z) : 0 <= n -> 0 <= u < 2 ^ n -> Z.lxor u (2 ^ n) = u + 2 ^ n.
Proof. intros. symmetry. apply Z.add_nocarry_lxor. by apply land_pow2_small. Qed.

Lemma lxor_pow2_big (u n : Z) :
  0 <= n -> 2 ^ n <= u < 2 ^ (n + 1) -> Z.lxor u (2 ^ n) = u - 2 ^ n.
Proof.
  intros Hn Hu. rewrite Z.pow_add_r in Hu by lia.
  replace u with ((u - 2 ^ n) + 2 ^ n) at 1 by lia.
  rewrite <- lxor_pow2_small by lia.
  rewrite Z.lxor_assoc, Z.lxor_nilpotent, Z.lxor_0_r. done.
Qed.

Lemma lor_pow2_small (u n : Z) : 0 <= n -> 0 <= u < 2 ^ n -> Z.lor u (2 ^ n) = u + 2 ^ n.
Proof.
  intros. rewrite Z.add_nocarry_lxor by (by apply land_pow2_small).
  by rewrite Z.lxor_lor by (by apply land_pow2_small).
Qed.

Lemma lor_pow2_big (u n : Z) : 0 <= n -> 2 ^ n <= u < 2 ^ (n + 1) -> Z.lor u (2 ^ n) = u.
Proof.
  intros Hn Hu. rewrite Z.pow_add_r in Hu by lia.
  replace u with ((u - 2 ^ n) + 2 ^ n) by lia.
  rewrite <- (lor_pow2_small (u - 2 ^ n)) by lia.
  by rewrite <- Z.lor_assoc, Z.lor_diag.
Qed.

Lemma land_pow2_big (u n : Z) :
  0 <= n -> 2 ^ n <= u < 2 ^ (n + 1) -> Z.land u (2 ^ n) = 2 ^ n.
Proof.
  intros Hn Hu. rewrite Z.pow_add_r in Hu by lia.
  replace u with ((u - 2 ^ n) + 2 ^ n) by lia.
  rewrite <- (lor_pow2_small (u - 2 ^ n)) by lia.
  by rewrite Z.land_lor_distr_l, land_pow2_small, Z.land_diag, Z.lor_0_l by lia.
Qed.

(** [u & !(1 << n)] clears bit [n]. *)
Lemma ldiff_pow2_big (u n : Z) :
  0 <= n -> 2 ^ n <= u < 2 ^ (n + 1) -> Z.ldiff u (2 ^ n) = u - 2 ^ n.
Proof.
  intros Hn Hu. rewrite <- lxor_pow2_big by done.
  apply Z.bits_inj'. intros i Hi.
  rewrite Z.ldiff_spec, Z.lxor_spec, Z.pow2_bits_eqb by lia.
  destruct (Z.eqb_spec n i) as [<-|]; simpl.
  - assert (Z.testbit u n = true) as ->; [|done].
    pose proof (f_equal (fun z => Z.testbit z n) (land_pow2_big u n Hn Hu)) as E. simpl in E.
    rewrite Z.land_spec, Z.pow2_bits_true, andb_true_r in E by lia. done.
  - by rewrite andb_true_r, xorb_false_r.
Qed.

(** [(v as uN) ^ (1 << (N-1))] maps the signed order to the unsigned one: it adds [2^(N-1)]. *)
Lemma flip_sign (w v : Z) :
  0 < w -> in_s w v -> Z.lxor (as_u w v) (2 ^ (w - 1)) = v + 2 ^ (w - 1).
Proof.
  intros Hw Hv. rewrite as_u_signed by done. unfold in_s in Hv.
  pose proof (pow2_half w Hw). destruct (Z.ltb_spec v 0).
  - rewrite lxor_pow2_big; [lia|lia|]. replace (w - 1 + 1) with w by lia. lia.
  - apply lxor_pow2_small; lia.
Qed.

Lemma flip_sign_range (w v : Z) :
  0 < w -> in_s w v -> in_u w (Z.lxor (as_u w v) (2 ^ (w - 1))).
Proof.
  intros Hw Hv. rewrite flip_sign by done. pose proof (pow2_half w Hw).
  unfold in_s, in_u in *. lia.
Qed.

Lemma unflip_sign (w v : Z) :
  0 < w -> in_s w v -> as_s w (Z.lxor (Z.lxor (as_u w v) (2 ^ (w - 1))) (2 ^ (w - 1))) = v.
Proof.
  intros Hw Hv. rewrite Z.lxor_assoc, Z.lxor_nilpotent, Z.lxor_0_r. by apply as_s_as_u.
Qed.

(** * Byte images *)

(** [uN::to_be_bytes] of the low [n] bytes. *)
Fixpoint to_be_bytes (n : nat) (v : Z) : list Z :=
  match n with
  | O => []
  | S n' => (v / 256 ^ Z.of_nat n') mod 256 :: to_be_bytes n' v
  end.

Definition from_be_bytes (bs : list Z) : Z := foldl (fun acc b => acc * 256 + b) 0 bs.

(** [uN::to_le_bytes] of the low [n] bytes; for a signed integer, of its
    two's complement pattern, which is what [Z]'s [mod] and [/] give. *)
Fixpoint to_le_bytes (n : nat) (v : Z) : list Z :=
  match n with
  | O => []
  | S n' => v mod 256 :: to_le_bytes n' (v / 256)
  end.

Fixpoint from_le_bytes (bs : list Z) : Z :=
  match bs with
  | [] => 0
  | b :: bs' => b + 256 * from_le_bytes bs'
  end.

Lemma length_to_be_bytes (n : nat) (v : Z) : length (to_be_bytes n v) = n.
Proof. induction n; simpl; auto. Qed.

Lemma length_to_le_bytes (n : nat) (v : Z) : length (to_le_bytes n v) = n.
Proof. revert v. induction n; intros v; simpl; auto. Qed.

Lemma to_be_bytes_ok (n : nat) (v : Z) : bytes_ok (to_be_bytes n v).
Proof.
  induction n; simpl; constructor; auto. apply Z.mod_pos_bound. lia.
Qed.

Lemma to_le_bytes_ok (n : nat) (v : Z) : bytes_ok (to_le_bytes n v).
Proof.
  revert v. induction n as [|n IH]; intros v; simpl; constructor; [|apply IH].
  apply Z.mod_pos_bound. lia.
Qed.

Lemma pow256_succ (n : nat) : 256 ^ Z.of_nat (S n) = 256 * 256 ^ Z.of_nat n.
Proof. rewrite Nat2Z.inj_succ, Z.pow_succ_r by lia. done. Qed.

Lemma pow256_pos (n : nat) : 0 < 256 ^ Z.of_nat n.
Proof. apply Z.pow_pos_nonneg; lia. Qed.

Lemma to_be_bytes_mod (n : nat) (v : Z) :
  to_be_bytes n (v mod 256 ^ Z.of_nat n) = to_be_bytes n v.
Proof.
  enough (forall m, (n <= m)%nat -> to_be_bytes n (v mod 256 ^ Z.of_nat m) = to_be_bytes n v) as H
    by (apply H; lia).
  induction n as [|n IH]; intros m Hm; simpl; [done|].
  f_equal; [|apply IH; lia].
  pose proof (pow256_pos n). pose proof (pow256_pos (m - n)).
  replace (Z.of_nat m) with (Z.of_nat n + Z.of_nat (m - n)) by lia.
  rewrite Z.pow_add_r by lia.
  rewrite Z.rem_mul_r, (Z.mul_comm (256 ^ Z.of_nat n)), Z.div_add by lia.
  rewrite Z.div_small by (apply Z.mod_pos_bound; lia). rewrite Z.add_0_l.
  replace (m - n)%nat with (S (m - n - 1)) by lia. rewrite pow256_succ.
  rewrite <- Znumtheory.Zmod_div_mod; [done|lia|pose proof (pow256_pos (m - n - 1)); lia|].
  by apply Z.divide_factor_l.
Qed.

Lemma from_to_be_bytes_acc (n : nat) (v acc : Z) :
  foldl (fun acc b => acc * 256 + b) acc (to_be_bytes n v) =
  acc * 256 ^ Z.of_nat n + v mod 256 ^ Z.of_nat n.
Proof.
  revert acc. induction n as [|n IH]; intros acc; simpl.
  - rewrite Z.mod_1_r. lia.
  - rewrite IH, pow256_succ. pose proof (pow256_pos n).
    rewrite (Z.mul_comm 256 (256 ^ _)), (Z.rem_mul_r v) by lia. lia.
Qed.

Lemma from_to_be_bytes (n : nat) (v : Z) :
  0 <= v < 256 ^ Z.of_nat n -> from_be_bytes (to_be_bytes n v) = v.
Proof.
  intros Hv. unfold from_be_bytes. rewrite from_to_be_bytes_acc, Z.mod_small by done. lia.
Qed.

Lemma from_to_le_bytes (n : nat) (v : Z) :
  from_le_bytes (to_le_bytes n v) = v mod 256 ^ Z.of_nat n.
Proof.
  revert v. induction n as [|n IH]; intros v; simpl.
  - by rewrite Z.mod_1_r.
  - rewrite IH, pow256_succ. pose proof (pow256_pos n).
    rewrite (Z.rem_mul_r v) by lia. lia.
Qed.

Lemma from_to_le_bytes_id (n : nat) (v : Z) :
  0 <= v < 256 ^ Z.of_nat n -> from_le_bytes (to_le_bytes n v) = v.
Proof. intros. by rewrite from_to_le_bytes, Z.mod_small. Qed.

Lemma to_le_bytes_inj (n : nat) (v v' : Z) :
  0 <= v < 256 ^ Z.of_nat n -> 0 <= v' < 256 ^ Z.of_nat n ->
  to_le_bytes n v = to_le_bytes n v' -> v = v'.
Proof.
  intros Hv Hv' H. rewrite <- (from_to_le_bytes_id n v), <- (from_to_le_bytes_id n v') by done.
  by rewrite H.
Qed.

(** Big-endian images have the numeric order. *)
Lemma lex_cmp_be_bytes (n : nat) (v v' : Z) :
  0 <= v < 256 ^ Z.of_nat n -> 0 <= v' < 256 ^ Z.of_nat n ->
  lex_cmp (to_be_bytes n v) (to_be_bytes n v') = (v ?= v').
Proof.
  revert v v'. induction n as [|n IH]; intros v v' Hv Hv'; simpl.
  - assert (v = 0) as -> by (simpl in *; lia). assert (v' = 0) as -> by (simpl in *; lia). done.
  - pose proof (pow256_pos n). rewrite pow256_succ in Hv, Hv'.
    set (M := 256 ^ Z.of_nat n) in *.
    rewrite (Z.mod_small (v / M)), (Z.mod_small (v' / M))
      by (split; [apply Z.div_pos; lia|apply Z.div_lt_upper_bound; lia]).
    rewrite <- (to_be_bytes_mod n v), <- (to_be_bytes_mod n v'). fold M.
    rewrite IH by (unfold M; apply Z.mod_pos_bound; lia).
    pose proof (Z.div_mod v M ltac:(lia)). pose proof (Z.div_mod v' M ltac:(lia)).
    pose proof (Z.mod_pos_bound v M ltac:(lia)). pose proof (Z.mod_pos_bound v' M ltac:(lia)).
    destruct (Z.compare_spec (v / M) (v' / M)) as [E|E|E]; simpl.
    + rewrite E in *. rewrite <- (Zcompare_add_l _ _ (M * (v' / M))). f_equal; lia.
    + symmetry. apply Z.compare_lt_iff. nia.
    + symmetry. apply Z.compare_gt_iff. nia.
Qed.

Lemma lex_embed_be_bytes (n : nat) (v v' : Z) :
  0 <= v < 256 ^ Z.of_nat n -> 0 <= v' < 256 ^ Z.of_nat n ->
  lex_embed (to_be_bytes n v) (to_be_bytes n v') (v ?= v').
Proof.
  intros. rewrite <- (lex_cmp_be_bytes n) by done.
  apply lex_embed_len. by rewrite !length_to_be_bytes.
Qed.
