(* ===== verification/Types.v ===== *)
(** The type language and the values of the engine
    (src/src/types/mod.rs, the data part of src/src/types/value.rs and the
    error values of src/src/errors.rs that the modelled code returns).

    [LogicalType] and [DataValue] have the constructors of the sources, for the
    default feature set ([time] on, [decimal] off, so [DataValue] has no
    [Decimal] constructor while [LogicalType] keeps its own). Integers are [Z]
    inside the range of their Rust type, floats are their IEEE bit patterns,
    strings are UTF-8 byte strings; [dv_ok] states those ranges. *)

From S2P Require Import Prelude MachineInt.
From stdpp Require Import base list list_numbers numbers option.
From Stdlib Require Import ZArith Lia.
Local Open Scope Z_scope.

Inductive CharLengthUnits :=
| Characters
| Octets.

#[global] Instance CharLengthUnits_eq_dec : EqDecision CharLengthUnits.
Proof. solve_decision. Defined.

Module LogicalType.
Inductive LogicalType :=
| SqlNull
| Boolean
| Tinyint
| UTinyint
| Smallint
| USmallint
| Integer
| UInteger
| Bigint
| UBigint
| Float
| Double
| Char (len : Z) (unit : CharLengthUnits)
| Varchar (len : option Z) (unit : CharLengthUnits)
| Date
| DateTime
| Time (precision : option Z)
| TimeStamp (precision : option Z) (zone : bool)
| Decimal (precision : option Z) (scale : option Z)
| Tuple (types : list LogicalType).
End LogicalType.
Notation LogicalType := LogicalType.LogicalType.

#[global] Instance LogicalType_eq_dec : EqDecision LogicalType.
Proof.
  refine (fix go t1 t2 : Decision (t1 = t2) :=
    let _ : EqDecision LogicalType := @go in
    match t1, t2 with
    | LogicalType.SqlNull, LogicalType.SqlNull => left eq_refl
    | LogicalType.Boolean, LogicalType.Boolean => left eq_refl
    | LogicalType.Tinyint, LogicalType.Tinyint => left eq_refl
    | LogicalType.UTinyint, LogicalType.UTinyint => left eq_refl
    | LogicalType.Smallint, LogicalType.Smallint => left eq_refl
    | LogicalType.USmallint, LogicalType.USmallint => left eq_refl
    | LogicalType.Integer, LogicalType.Integer => left eq_refl
    | LogicalType.UInteger, LogicalType.UInteger => left eq_refl
    | LogicalType.Bigint, LogicalType.Bigint => left eq_refl
    | LogicalType.UBigint, LogicalType.UBigint => left eq_refl
    | LogicalType.Float, LogicalType.Float => left eq_refl
    | LogicalType.Double, LogicalType.Double => left eq_refl
    | LogicalType.Char l1 u1, LogicalType.Char l2 u2 =>
        cast_if_and (decide (l1 = l2)) (decide (u1 = u2))
    | LogicalType.Varchar l1 u1, LogicalType.Varchar l2 u2 =>
        cast_if_and (decide (l1 = l2)) (decide (u1 = u2))
    | LogicalType.Date, LogicalType.Date => left eq_refl
    | LogicalType.DateTime, LogicalType.DateTime => left eq_refl
    | LogicalType.Time p1, LogicalType.Time p2 => cast_if (decide (p1 = p2))
    | LogicalType.TimeStamp p1 z1, LogicalType.TimeStamp p2 z2 =>
        cast_if_and (decide (p1 = p2)) (decide (z1 = z2))
    | LogicalType.Decimal p1 s1, LogicalType.Decimal p2 s2 =>
        cast_if_and (decide (p1 = p2)) (decide (s1 = s2))
    | LogicalType.Tuple ts1, LogicalType.Tuple ts2 => cast_if (decide (ts1 = ts2))
    | _, _ => right _
    end); abstract congruence.
Defined.

(** Induction with a hypothesis for every field of a tuple type. *)
Lemma LogicalType_ind' (P : LogicalType -> Prop) :
  (forall t, (forall ts, t <> LogicalType.Tuple ts) -> P t) ->
  (forall ts, Forall P ts -> P (LogicalType.Tuple ts)) ->
  forall t, P t.
Proof.
  intros Hbase Htuple. fix go 1. intros t.
  destruct t as [ | | | | | | | | | | | | | | | | | | |ts]; try (apply Hbase; congruence).
  apply Htuple. induction ts as [|t ts IH]; constructor; [apply go|exact IH].
Qed.

Inductive Utf8Type :=
| Variable_ (len : option Z)
| Fixed (len : Z).

#[global] Instance Utf8Type_eq_dec : EqDecision Utf8Type.
Proof. solve_decision. Defined.

Module DataValue.
Inductive DataValue :=
| Parameter_ (id : Z) (ty : LogicalType)
| Null
| Boolean (b : bool)
| Float32 (bits : Z)
| Float64 (bits : Z)
| Int8 (v : Z)
| Int16 (v : Z)
| Int32 (v : Z)
| Int64 (v : Z)
| UInt8 (v : Z)
| UInt16 (v : Z)
| UInt32 (v : Z)
| UInt64 (v : Z)
| Utf8 (value : list Z) (ty : Utf8Type) (unit : CharLengthUnits)
| Date32 (v : Z)
| Date64 (v : Z)
| Time32 (v : Z) (precision : Z)
| Time64 (v : Z) (precision : Z) (zone : bool)
| Tuple (values : list DataValue).
End DataValue.
Notation DataValue := DataValue.DataValue.

Lemma DataValue_ind' (P : DataValue -> Prop) :
  (forall v, (forall vs, v <> DataValue.Tuple vs) -> P v) ->
  (forall vs, Forall P vs -> P (DataValue.Tuple vs)) ->
  forall v, P v.
Proof.
  intros Hbase Htuple. fix go 1. intros v.
  destruct v as [ | | | | | | | | | | | | | | | | | |vs]; try (apply Hbase; congruence).
  apply Htuple. induction vs as [|v vs IH]; constructor; [apply go|exact IH].
Qed.

#[global] Instance DataValue_eq_dec : EqDecision DataValue.
Proof.
  refine (fix go v1 v2 : Decision (v1 = v2) :=
    let _ : EqDecision DataValue := @go in
    match v1, v2 with
    | DataValue.Parameter_ i1 t1, DataValue.Parameter_ i2 t2 =>
        cast_if_and (decide (i1 = i2)) (decide (t1 = t2))
    | DataValue.Null, DataValue.Null => left eq_refl
    | DataValue.Boolean x, DataValue.Boolean y => cast_if (decide (x = y))
    | DataValue.Float32 x, DataValue.Float32 y => cast_if (decide (x = y))
    | DataValue.Float64 x, DataValue.Float64 y => cast_if (decide (x = y))
    | DataValue.Int8 x, DataValue.Int8 y => cast_if (decide (x = y))
    | DataValue.Int16 x, DataValue.Int16 y => cast_if (decide (x = y))
    | DataValue.Int32 x, DataValue.Int32 y => cast_if (decide (x = y))
    | DataValue.Int64 x, DataValue.Int64 y => cast_if (decide (x = y))
    | DataValue.UInt8 x, DataValue.UInt8 y => cast_if (decide (x = y))
    | DataValue.UInt16 x, DataValue.UInt16 y => cast_if (decide (x = y))
    | DataValue.UInt32 x, DataValue.UInt32 y => cast_if (decide (x = y))
    | DataValue.UInt64 x, DataValue.UInt64 y => cast_if (decide (x = y))
    | DataValue.Utf8 x tx ux, DataValue.Utf8 y ty uy =>
        cast_if_and3 (decide (x = y)) (decide (tx = ty)) (decide (ux = uy))
    | DataValue.Date32 x, DataValue.Date32 y => cast_if (decide (x = y))
    | DataValue.Date64 x, DataValue.Date64 y => cast_if (decide (x = y))
    | DataValue.Time32 x p, DataValue.Time32 y q =>
        cast_if_and (decide (x = y)) (decide (p = q))
    | DataValue.Time64 x p z, DataValue.Time64 y q w =>
        cast_if_and3 (decide (x = y)) (decide (p = q)) (decide (z = w))
    | DataValue.Tuple xs, DataValue.Tuple ys => cast_if (decide (xs = ys))
    | _, _ => right _
    end); abstract congruence.
Defined.

(** The error values of the modelled paths; the message strings are dropped. *)
Inductive DatabaseError :=
| CastFail (from to_ : LogicalType)
| ChronoParse
| ColumnNotFound
| ColumnsEmpty
| DuplicateColumn
| DuplicateIndex
| DuplicatePrimaryKey
| DuplicateSourceHash
| DuplicateUniqueValue
| EvaluatorNotFound
| FromUtf8Error
| Incomparable (left right : LogicalType)
| InvalidColumn
| InvalidIndex
| InvalidType
| InvalidValue
| IO_UnexpectedEof
| IO_InvalidData
| NeedNullAbleOrDefault
| NotNull
| OverFlow
| ParameterNotFound
| ParseBool
| ParseFloat
| ParseInt
| PrimaryKeyNotFound
| PrimaryKeyTooManyLayers
| TableExists
| TableNotFound
| TooLong
| TooManyBuckets (buckets values_len : Z)
| TryFromInt
| TupleIdNotFound (id : DataValue)
| UnsupportedBinaryOperator
| UnsupportedStmt
| UnsupportedUnaryOperator
| ViewExists
| ViewNotFound
| Panic.

Abbreviation res := (result DatabaseError).

(** * Helpers on logical types *)

Section Helpers.
Implicit Types t left right from : LogicalType.

Definition is_numeric t : bool :=
  match t with
  | LogicalType.Tinyint | LogicalType.UTinyint | LogicalType.Smallint
  | LogicalType.USmallint | LogicalType.Integer | LogicalType.UInteger
  | LogicalType.Bigint | LogicalType.UBigint | LogicalType.Float
  | LogicalType.Double | LogicalType.Decimal _ _ => true
  | _ => false
  end.

Definition is_signed_numeric t : bool :=
  match t with
  | LogicalType.Tinyint | LogicalType.Smallint
  | LogicalType.Integer | LogicalType.Bigint => true
  | _ => false
  end.

Definition is_unsigned_numeric t : bool :=
  match t with
  | LogicalType.UTinyint | LogicalType.USmallint
  | LogicalType.UInteger | LogicalType.UBigint => true
  | _ => false
  end.

Definition is_floating_point_numeric t : bool :=
  match t with
  | LogicalType.Float | LogicalType.Double => true
  | _ => false
  end.

(** [LogicalType::raw_len]; [Err Panic] is the [unreachable!()] of the tuple arm. *)
Definition raw_len t : res (option Z) :=
  match t with
  | LogicalType.SqlNull => Ok (Some 0)
  | LogicalType.Boolean | LogicalType.Tinyint | LogicalType.UTinyint => Ok (Some 1)
  | LogicalType.Smallint | LogicalType.USmallint => Ok (Some 2)
  | LogicalType.Integer | LogicalType.UInteger => Ok (Some 4)
  | LogicalType.Bigint | LogicalType.UBigint => Ok (Some 8)
  | LogicalType.Float => Ok (Some 4)
  | LogicalType.Double => Ok (Some 8)
  | LogicalType.Varchar _ _ => Ok None
  | LogicalType.Char len unit =>
      match unit with
      | Characters => Ok None
      | Octets => Ok (Some len)
      end
  | LogicalType.Decimal _ _ => Ok (Some 16)
  | LogicalType.Date => Ok (Some 4)
  | LogicalType.DateTime => Ok (Some 8)
  | LogicalType.Time _ => Ok (Some 4)
  | LogicalType.TimeStamp _ _ => Ok (Some 8)
  | LogicalType.Tuple _ => Err Panic
  end.

Definition can_implicit_cast from (to_ : LogicalType) : bool :=
  if decide (from = to_) then true else
  match from with
  | LogicalType.SqlNull => true
  | LogicalType.Boolean => false
  | LogicalType.Tinyint =>
      match to_ with
      | LogicalType.Smallint | LogicalType.Integer | LogicalType.Bigint
      | LogicalType.Float | LogicalType.Double | LogicalType.Decimal _ _ => true
      | _ => false
      end
  | LogicalType.UTinyint =>
      match to_ with
      | LogicalType.USmallint | LogicalType.UInteger | LogicalType.UBigint
      | LogicalType.Smallint | LogicalType.Integer | LogicalType.Bigint
      | LogicalType.Float | LogicalType.Double | LogicalType.Decimal _ _ => true
      | _ => false
      end
  | LogicalType.Smallint =>
      match to_ with
      | LogicalType.Integer | LogicalType.Bigint
      | LogicalType.Float | LogicalType.Double | LogicalType.Decimal _ _ => true
      | _ => false
      end
  | LogicalType.USmallint =>
      match to_ with
      | LogicalType.UInteger | LogicalType.UBigint | LogicalType.Integer | LogicalType.Bigint
      | LogicalType.Float | LogicalType.Double | LogicalType.Decimal _ _ => true
      | _ => false
      end
  | LogicalType.Integer =>
      match to_ with
      | LogicalType.Bigint | LogicalType.Float | LogicalType.Double | LogicalType.Decimal _ _ => true
      | _ => false
      end
  | LogicalType.UInteger =>
      match to_ with
      | LogicalType.UBigint | LogicalType.Bigint
      | LogicalType.Float | LogicalType.Double | LogicalType.Decimal _ _ => true
      | _ => false
      end
  | LogicalType.Bigint | LogicalType.UBigint =>
      match to_ with
      | LogicalType.Float | LogicalType.Double | LogicalType.Decimal _ _ => true
      | _ => false
      end
  | LogicalType.Float =>
      match to_ with
      | LogicalType.Double | LogicalType.Decimal _ _ => true
      | _ => false
      end
  | LogicalType.Double =>
      match to_ with
      | LogicalType.Decimal _ _ => true
      | _ => false
      end
  | LogicalType.Char _ _ | LogicalType.Varchar _ _ => false
  | LogicalType.Date =>
      match to_ with
      | LogicalType.DateTime | LogicalType.Varchar _ _ | LogicalType.Char _ _ => true
      | _ => false
      end
  | LogicalType.DateTime | LogicalType.TimeStamp _ _ =>
      match to_ with
      | LogicalType.Date | LogicalType.Time _ | LogicalType.Varchar _ _ | LogicalType.Char _ _ => true
      | _ => false
      end
  | LogicalType.Time _ =>
      match to_ with
      | LogicalType.Varchar _ _ | LogicalType.Char _ _ => true
      | _ => false
      end
  | LogicalType.Decimal _ _ | LogicalType.Tuple _ => false
  end.

(** [fn_option] of [combine_numeric_types]: the larger of two optional bounds. *)
Definition fn_option (a b : option Z) : option Z :=
  match a, b with
  | Some x, Some y => Some (Z.max x y)
  | Some x, None | None, Some x => Some x
  | None, None => None
  end.

(** The code calls itself once with the operands swapped; [fuel] bounds those
    calls and [combine_numeric_types_fuel_2] shows that two are enough. *)
Fixpoint combine_numeric_types_fuel (fuel : nat) left right : res LogicalType :=
  match fuel with
  | O => Err Panic
  | S fuel' =>
      if decide (left = right) then Ok left
      else if is_signed_numeric left && is_unsigned_numeric right then
        combine_numeric_types_fuel fuel' right left
      else if can_implicit_cast left right then Ok right
      else if can_implicit_cast right left then Ok left
      else
        match left, right with
        | LogicalType.Bigint, _ | _, LogicalType.UBigint => Ok LogicalType.Double
        | LogicalType.Integer, _ | _, LogicalType.UInteger => Ok LogicalType.Bigint
        | LogicalType.Smallint, _ | _, LogicalType.USmallint => Ok LogicalType.Integer
        | LogicalType.Tinyint, _ | _, LogicalType.UTinyint => Ok LogicalType.Smallint
        | LogicalType.Decimal p0 s0, LogicalType.Decimal p1 s1 =>
            Ok (LogicalType.Decimal (fn_option p0 p1) (fn_option s0 s1))
        | _, _ => Err (Incomparable left right)
        end
  end.

Definition combine_numeric_types left right : res LogicalType :=
  combine_numeric_types_fuel 2 left right.

Definition is_varchar t : bool :=
  match t with LogicalType.Varchar _ _ => true | _ => false end.
Definition is_char_or_varchar t : bool :=
  match t with LogicalType.Varchar _ _ | LogicalType.Char _ _ => true | _ => false end.
Definition is_date t : bool :=
  match t with LogicalType.Date => true | _ => false end.
Definition is_datetime t : bool :=
  match t with LogicalType.DateTime => true | _ => false end.

(** [matches!((left, right), (A, B) | (B, A))]. *)
Definition either_way (a b : LogicalType -> bool) left right : bool :=
  (a left && b right) || (b left && a right).

Definition max_logical_type left right : res LogicalType :=
  if decide (left = right) then Ok left else
  match left, right with
  | LogicalType.SqlNull, _ => Ok right
  | _, LogicalType.SqlNull => Ok left
  | LogicalType.Tuple types_0, LogicalType.Tuple types_1 =>
      if (length types_1 <? length types_0)%nat then Ok left else Ok right
  | _, _ =>
      if is_numeric left && is_numeric right then combine_numeric_types left right
      else if either_way is_date is_varchar left right then Ok LogicalType.Date
      else if either_way is_date is_datetime left right then Ok LogicalType.DateTime
      else if either_way is_datetime is_varchar left right then Ok LogicalType.DateTime
      else if is_char_or_varchar left && is_char_or_varchar right then
        Ok (LogicalType.Varchar None Characters)
      else Err (Incomparable left right)
  end.
End Helpers.


(** * The join of two types *)

Lemma is_signed_not_unsigned (t : LogicalType) : is_signed_numeric t && is_unsigned_numeric t = false.
Proof. by destruct t. Qed.

(** Two levels of recursion are all the code ever uses. *)
Lemma combine_numeric_types_fuel_2 (n : nat) (left right : LogicalType) :
  combine_numeric_types_fuel (2 + n) left right = combine_numeric_types left right.
Proof.
  unfold combine_numeric_types. cbn [combine_numeric_types_fuel Nat.add].
  pose proof (is_signed_not_unsigned left). pose proof (is_signed_not_unsigned right).
  destruct (decide (left = right)); [done|].
  destruct (is_signed_numeric left && is_unsigned_numeric right) eqn:E; [|done].
  apply andb_true_iff in E as [E1 E2].
  assert (is_signed_numeric right && is_unsigned_numeric left = false) as ->; [|done].
  rewrite E1 in H. rewrite E2, andb_true_r in H0. by rewrite H0.
Qed.

Definition is_decimal (t : LogicalType) : bool :=
  match t with LogicalType.Decimal _ _ => true | _ => false end.
Definition is_tuple (t : LogicalType) : bool :=
  match t with LogicalType.Tuple _ => true | _ => false end.

Lemma fn_option_comm (a b : option Z) : fn_option a b = fn_option b a.
Proof. destruct a, b; simpl; try done. by rewrite Z.max_comm. Qed.

Lemma can_implicit_cast_refl (t : LogicalType) : can_implicit_cast t t = true.
Proof. unfold can_implicit_cast. by rewrite decide_True. Qed.

(** Replace every call of [max_logical_type] by its value. *)
Ltac eval_max_logical_type :=
  repeat match goal with
  | |- context [max_logical_type ?x ?y] =>
      let r := eval vm_compute in (max_logical_type x y) in
      change (max_logical_type x y) with r; cbv beta iota
  end.

(** The common type of two numeric types. The result does not depend on
    the order of the operands; a type that is found is one of the two and both
    cast to it implicitly; the only failure is a signed and an unsigned
    integer type neither of which casts to the other. *)
Theorem max_logical_type_numeric (a b : LogicalType) :
  is_numeric a = true -> is_numeric b = true -> is_decimal a && is_decimal b = false ->
  max_logical_type b a = max_logical_type a b /\
  match max_logical_type a b with
  | Ok t => (t = a \/ t = b) /\ can_implicit_cast a t = true /\ can_implicit_cast b t = true
  | Err e => either_way is_signed_numeric is_unsigned_numeric a b = true /\
      can_implicit_cast a b = false /\ can_implicit_cast b a = false /\
      (e = Incomparable a b \/ e = Incomparable b a)
  end.
Proof.
  intros Ha Hb Hd. destruct a; try discriminate Ha; destruct b; try discriminate Hb;
    try discriminate Hd; eval_max_logical_type; rewrite ?can_implicit_cast_refl;
    repeat split; auto.
Qed.

Lemma max_logical_type_numeric_witness :
  max_logical_type LogicalType.Smallint LogicalType.UTinyint = Ok LogicalType.Smallint /\
  max_logical_type LogicalType.UTinyint LogicalType.Smallint = Ok LogicalType.Smallint.
Proof.
  destruct (max_logical_type_numeric LogicalType.UTinyint LogicalType.Smallint
    eq_refl eq_refl eq_refl) as [E _].
  rewrite E. split; reflexivity.
Defined.

(** The arms of [combine_numeric_types] that upcast a mixed pair (such as
    INTEGER and UINTEGER to BIGINT) are never reached: the operands have been
    swapped before them, so every mixed pair of equal width is incomparable. *)
Theorem combine_numeric_types_no_upcast :
  max_logical_type LogicalType.Tinyint LogicalType.UTinyint =
    Err (Incomparable LogicalType.UTinyint LogicalType.Tinyint) /\
  max_logical_type LogicalType.Smallint LogicalType.USmallint =
    Err (Incomparable LogicalType.USmallint LogicalType.Smallint) /\
  max_logical_type LogicalType.Integer LogicalType.UInteger =
    Err (Incomparable LogicalType.UInteger LogicalType.Integer) /\
  max_logical_type LogicalType.Bigint LogicalType.UBigint =
    Err (Incomparable LogicalType.UBigint LogicalType.Bigint).
Proof. by vm_compute. Qed.

(** The common type is symmetric on every pair of types that are not both
    tuples: both orders find the same type or neither finds one. *)
Theorem max_logical_type_symmetric (a b t : LogicalType) :
  is_tuple a && is_tuple b = false ->
  max_logical_type a b = Ok t <-> max_logical_type b a = Ok t.
Proof.
  intros Ht. destruct (is_numeric a && is_numeric b) eqn:En.
  - apply andb_true_iff in En as [Ha Hb].
    destruct (is_decimal a && is_decimal b) eqn:Hd.
    + destruct a; try discriminate; destruct b; try discriminate.
      unfold max_logical_type, combine_numeric_types. cbn -[decide].
      destruct (decide _) as [E|E], (decide _) as [E'|E']; try congruence; [by rewrite E|].
      unfold can_implicit_cast. rewrite !decide_False by done.
      by rewrite (fn_option_comm precision), (fn_option_comm scale).
    + destruct a; try discriminate Ha; destruct b; try discriminate Hb;
        try discriminate Hd; vm_compute; done.
  - unfold max_logical_type. destruct (decide (a = b)) as [->|Hne]; [by rewrite decide_True|].
    rewrite (decide_False (P := b = a)) by congruence.
    destruct a; try discriminate; destruct b; try discriminate; simpl; try done; split; done.
Qed.

Lemma max_logical_type_symmetric_witness :
  max_logical_type (LogicalType.Varchar None Characters) LogicalType.Date = Ok LogicalType.Date.
Proof.
  apply (max_logical_type_symmetric LogicalType.Date (LogicalType.Varchar None Characters)
    LogicalType.Date); reflexivity.
Defined.
