(* ===== verification/Operators.v ===== *)
(** The operators of scalar expressions (src/src/expression/mod.rs). *)

From stdpp Require Import base option numbers.
From Stdlib Require Import ZArith.
Local Open Scope Z_scope.

Module BinaryOperator.
Inductive BinaryOperator :=
| Plus | Minus | Multiply | Divide | Modulo | StringConcat
| Gt | Lt | GtEq | LtEq | Spaceship | Eq | NotEq
| Like (escape : option Z) | NotLike (escape : option Z)
| And | Or.
End BinaryOperator.
Notation BinaryOperator := BinaryOperator.BinaryOperator.

#[global] Instance BinaryOperator_eq_dec : EqDecision BinaryOperator.
Proof. solve_decision. Defined.

Module UnaryOperator.
Inductive UnaryOperator := Plus | Minus | Not.
End UnaryOperator.
Notation UnaryOperator := UnaryOperator.UnaryOperator.

#[global] Instance UnaryOperator_eq_dec : EqDecision UnaryOperator.
Proof. solve_decision. Defined.
