(* ===== verification/Reader.v ===== *)
(** Byte readers and writers ([std::io::Read], [std::io::Write] on memory).

    A writer is the list of the bytes it appends; a reader is the list of the
    bytes it has left, and [read_exact] fails on a short one. *)

From S2P Require Import Prelude MachineInt Types.
From stdpp Require Import base list numbers.
From Stdlib Require Import ZArith Lia.
Local Open Scope Z_scope.

(** [Read::read_exact] on a byte cursor. *)
Definition read_exact (n : nat) (reader : list Z) : res (list Z * list Z) :=
  if (length reader <? n)%nat then Err IO_UnexpectedEof
  else Ok (take n reader, drop n reader).

Definition read_u8 (reader : list Z) : res (Z * list Z) :=
  match reader with
  | [] => Err IO_UnexpectedEof
  | b :: reader' => Ok (b, reader')
  end.

(** [<$ty>::from_le_bytes] of the next [n] bytes, unsigned and signed. *)
Definition read_le_u (n : nat) (reader : list Z) : res (Z * list Z) :=
  let? (bytes, reader) := read_exact n reader in Ok (from_le_bytes bytes, reader).

Definition read_le_s (n : nat) (w : Z) (reader : list Z) : res (Z * list Z) :=
  let? (u, reader) := read_le_u n reader in Ok (as_s w u, reader).

Lemma read_exact_app (n : nat) (a r : list Z) :
  length a = n -> read_exact n (a ++ r) = Ok (a, r).
Proof.
  intros <-. unfold read_exact. rewrite length_app, (proj2 (Nat.ltb_ge _ _)) by lia.
  by rewrite take_app_length, drop_app_length.
Qed.

Lemma read_le_u_app (n : nat) (w u : Z) (r : list Z) :
  2 ^ w = 256 ^ Z.of_nat n -> in_u w u -> read_le_u n (to_le_bytes n u ++ r) = Ok (u, r).
Proof.
  unfold in_u, read_le_u. intros -> Hu. rewrite read_exact_app by apply length_to_le_bytes.
  cbn [rbind]. by rewrite from_to_le_bytes_id.
Qed.

Lemma read_le_s_app (n : nat) (w v : Z) (r : list Z) :
  0 < w -> 2 ^ w = 256 ^ Z.of_nat n -> in_s w v ->
  read_le_s n w (to_le_bytes n (as_u w v) ++ r) = Ok (v, r).
Proof.
  intros Hw Hn Hv. unfold read_le_s.
  rewrite (read_le_u_app n w) by (done || by apply as_u_range; lia).
  cbn [rbind]. by rewrite as_s_as_u.
Qed.

Lemma read_exact_length (n : nat) (r a r' : list Z) :
  read_exact n r = Ok (a, r') -> r = a ++ r' /\ length a = n.
Proof.
  unfold read_exact. destruct (Nat.ltb_spec (length r) n); [done|]. intros [= <- <-].
  split; [by rewrite take_drop|]. rewrite length_take. lia.
Qed.

(** Read the integers at the head of the reader. *)
Ltac read_nums :=
  repeat (first
    [ rewrite (read_le_u_app 1 8) | rewrite (read_le_u_app 2 16)
    | rewrite (read_le_u_app 4 32) | rewrite (read_le_u_app 8 64)
    | rewrite (read_le_s_app 1 8) | rewrite (read_le_s_app 2 16)
    | rewrite (read_le_s_app 4 32) | rewrite (read_le_s_app 8 64) ];
    [cbn [rbind]|done || lia || tauto ..]).
