(* ===== verification/Value.v ===== *)
(** Values: comparison, equality, typing, length checks and the packed time
    format (src/src/types/value.rs).

    [OrderedFloat] is the interface of the third-party crate [ordered_float]:
    the comparison it puts on floats is a parameter, with its documented laws
    (numeric order on numbers, every NaN equal to itself and above every
    number). [ieee_ordered_float] is the instance the witnesses run. *)

From S2P Require Import Prelude MachineInt Types.
From stdpp Require Import base list list_numbers numbers option.
From Stdlib Require Import ZArith Lia.
Local Open Scope Z_scope.

(** * UTF-8 strings *)

Module Utf8.
Definition is_cont (b : Z) : bool := (0x80 <=? b) && (b <=? 0xBF).
Definition between (lo b hi : Z) : bool := (lo <=? b) && (b <=? hi).

(** [str::from_utf8]'s acceptance (Unicode table 3-7). *)
Fixpoint utf8_valid (bs : list Z) : bool :=
  match bs with
  | [] => true
  | b :: r1 =>
      if between 0 b 0x7F then utf8_valid r1
      else
        match r1 with
        | [] => false
        | c1 :: r2 =>
            if between 0xC2 b 0xDF then is_cont c1 && utf8_valid r2
            else
              match r2 with
              | [] => false
              | c2 :: r3 =>
                  if between 0xE0 b 0xE0 then between 0xA0 c1 0xBF && is_cont c2 && utf8_valid r3
                  else if between 0xE1 b 0xEC then is_cont c1 && is_cont c2 && utf8_valid r3
                  else if between 0xED b 0xED then between 0x80 c1 0x9F && is_cont c2 && utf8_valid r3
                  else if between 0xEE b 0xEF then is_cont c1 && is_cont c2 && utf8_valid r3
                  else
                    match r3 with
                    | [] => false
                    | c3 :: r4 =>
                        if between 0xF0 b 0xF0 then
                          between 0x90 c1 0xBF && is_cont c2 && is_cont c3 && utf8_valid r4
                        else if between 0xF1 b 0xF3 then
                          is_cont c1 && is_cont c2 && is_cont c3 && utf8_valid r4
                        else if between 0xF4 b 0xF4 then
                          between 0x80 c1 0x8F && is_cont c2 && is_cont c3 && utf8_valid r4
                        else false
                    end
              end
        end
  end.

(** [String::from_utf8]. *)
Definition from_utf8 (bs : list Z) : res (list Z) :=
  if utf8_valid bs then Ok bs else Err FromUtf8Error.

(** [s.chars().count()] on a valid string: one per non-continuation byte. *)
Definition chars_count (bs : list Z) : Z :=
  Z.of_nat (length (List.filter (fun b => negb (is_cont b)) bs)).
End Utf8.
Export Utf8.

(** * Floats *)

(** A float of width [w] whose infinity has the bit pattern [inf]. *)
Definition is_nan_bits (w inf bits : Z) : bool := inf <? bits mod 2 ^ (w - 1).

(** The position of a number on the real line, as an integer: IEEE numbers of one
    format are ordered like their magnitude patterns, mirrored for negatives. *)
Definition float_key (w bits : Z) : Z :=
  if bits <? 2 ^ (w - 1) then bits else - (bits - 2 ^ (w - 1)).

Definition f32_inf : Z := 0x7F800000.
Definition f64_inf : Z := 0x7FF0000000000000.

(** [f >= 0.0]. *)
Definition float_ge0 (w inf bits : Z) : bool :=
  negb (is_nan_bits w inf bits) && (0 <=? float_key w bits).

(** The documented order of [ordered_float::OrderedFloat]. *)
Class OrderedFloat := {
  of_cmp : forall w inf : Z, Z -> Z -> comparison;
  of_cmp_num : forall w inf a b,
    is_nan_bits w inf a = false -> is_nan_bits w inf b = false ->
    of_cmp w inf a b = (float_key w a ?= float_key w b);
  of_cmp_nan_nan : forall w inf a b,
    is_nan_bits w inf a = true -> is_nan_bits w inf b = true -> of_cmp w inf a b = Eq;
  of_cmp_nan_num : forall w inf a b,
    is_nan_bits w inf a = true -> is_nan_bits w inf b = false -> of_cmp w inf a b = Gt;
  of_cmp_num_nan : forall w inf a b,
    is_nan_bits w inf a = false -> is_nan_bits w inf b = true -> of_cmp w inf a b = Lt;
}.

#[global] Program Instance ieee_ordered_float : OrderedFloat := {|
  of_cmp := fun w inf a b =>
    match is_nan_bits w inf a, is_nan_bits w inf b with
    | true, true => Eq
    | true, false => Gt
    | false, true => Lt
    | false, false => float_key w a ?= float_key w b
    end
|}.
Solve Obligations with (simpl; intros w inf a b -> ->; reflexivity).

Definition is_null (v : DataValue) : bool :=
  match v with
  | DataValue.Null => true
  | _ => false
  end.

Definition cmp_bool (a b : bool) : comparison :=
  match a, b with
  | false, true => Lt
  | true, false => Gt
  | _, _ => Eq
  end.

(** * Ordering: [PartialOrd for DataValue] and the tuple comparisons *)

Section Order.
Context {OF : OrderedFloat}.

(** The loop of [tuple_partial_cmp], over the element comparison it calls. *)
Fixpoint tuple_partial_cmp_with (elem : DataValue -> DataValue -> option comparison)
    (left right : list DataValue) (left_is_upper right_is_upper : bool) : option comparison :=
  match left, right with
  | l :: left', r :: right' =>
      match elem l r with
      | None => None
      | Some Eq => tuple_partial_cmp_with elem left' right' left_is_upper right_is_upper
      | Some c => Some c
      end
  | _ :: _, [] => if right_is_upper then Some Lt else Some Gt
  | [], _ :: _ => if left_is_upper then Some Gt else Some Lt
  | [], [] => Some Eq
  end.

Fixpoint partial_cmp (self other : DataValue) : option comparison :=
  match self, other with
  | DataValue.Boolean v1, DataValue.Boolean v2 => Some (cmp_bool v1 v2)
  | DataValue.Float32 v1, DataValue.Float32 v2 => Some (of_cmp 32 f32_inf v1 v2)
  | DataValue.Float64 v1, DataValue.Float64 v2 => Some (of_cmp 64 f64_inf v1 v2)
  | DataValue.Int8 v1, DataValue.Int8 v2 => Some (v1 ?= v2)
  | DataValue.Int16 v1, DataValue.Int16 v2 => Some (v1 ?= v2)
  | DataValue.Int32 v1, DataValue.Int32 v2 => Some (v1 ?= v2)
  | DataValue.Int64 v1, DataValue.Int64 v2 => Some (v1 ?= v2)
  | DataValue.UInt8 v1, DataValue.UInt8 v2 => Some (v1 ?= v2)
  | DataValue.UInt16 v1, DataValue.UInt16 v2 => Some (v1 ?= v2)
  | DataValue.UInt32 v1, DataValue.UInt32 v2 => Some (v1 ?= v2)
  | DataValue.UInt64 v1, DataValue.UInt64 v2 => Some (v1 ?= v2)
  | DataValue.Utf8 v1 _ _, DataValue.Utf8 v2 _ _ => Some (lex_cmp v1 v2)
  | DataValue.Null, DataValue.Null => Some Eq
  | DataValue.Date32 v1, DataValue.Date32 v2 => Some (v1 ?= v2)
  | DataValue.Date64 v1, DataValue.Date64 v2 => Some (v1 ?= v2)
  | DataValue.Time32 v1 _, DataValue.Time32 v2 _ => Some (v1 ?= v2)
  | DataValue.Time64 v1 _ _, DataValue.Time64 v2 _ _ => Some (v1 ?= v2)
  | DataValue.Tuple v1, DataValue.Tuple v2 =>
      tuple_partial_cmp_with
        (fun l r =>
           match l, r with
           | DataValue.Null, DataValue.Null => Some Eq
           | DataValue.Null, _ => Some Gt
           | _, DataValue.Null => Some Lt
           | _, _ => partial_cmp l r
           end) v1 v2 false false
  | _, _ => None
  end.

Definition tuple_element_partial_cmp (left right : DataValue) : option comparison :=
  match left, right with
  | DataValue.Null, DataValue.Null => Some Eq
  | DataValue.Null, _ => Some Gt
  | _, DataValue.Null => Some Lt
  | _, _ => partial_cmp left right
  end.

Definition tuple_partial_cmp (left right : list DataValue)
    (left_is_upper right_is_upper : bool) : option comparison :=
  tuple_partial_cmp_with tuple_element_partial_cmp left right left_is_upper right_is_upper.

Lemma partial_cmp_tuple (v1 v2 : list DataValue) :
  partial_cmp (DataValue.Tuple v1) (DataValue.Tuple v2) = tuple_partial_cmp v1 v2 false false.
Proof. done. Qed.

(** [DataValueRef::partial_cmp_with_bounds] on owned values. *)
Definition partial_cmp_with_bounds (self other : DataValue)
    (left_is_upper right_is_upper : bool) : option comparison :=
  match self, other with
  | DataValue.Tuple l, DataValue.Tuple r => tuple_partial_cmp l r left_is_upper right_is_upper
  | _, _ => partial_cmp self other
  end.

(** [PartialEq for DataValue]. *)
Definition of_eqb (w inf a b : Z) : bool :=
  match of_cmp w inf a b with Eq => true | _ => false end.

Fixpoint dv_eq (self other : DataValue) : bool :=
  match self, other with
  | DataValue.Null, DataValue.Null => true
  | DataValue.Parameter_ i1 t1, DataValue.Parameter_ i2 t2 => (i1 =? i2) && bool_decide (t1 = t2)
  | DataValue.Boolean v1, DataValue.Boolean v2 => eqb v1 v2
  | DataValue.Float32 v1, DataValue.Float32 v2 => of_eqb 32 f32_inf v1 v2
  | DataValue.Float64 v1, DataValue.Float64 v2 => of_eqb 64 f64_inf v1 v2
  | DataValue.Int8 v1, DataValue.Int8 v2 => v1 =? v2
  | DataValue.Int16 v1, DataValue.Int16 v2 => v1 =? v2
  | DataValue.Int32 v1, DataValue.Int32 v2 => v1 =? v2
  | DataValue.Int64 v1, DataValue.Int64 v2 => v1 =? v2
  | DataValue.UInt8 v1, DataValue.UInt8 v2 => v1 =? v2
  | DataValue.UInt16 v1, DataValue.UInt16 v2 => v1 =? v2
  | DataValue.UInt32 v1, DataValue.UInt32 v2 => v1 =? v2
  | DataValue.UInt64 v1, DataValue.UInt64 v2 => v1 =? v2
  | DataValue.Utf8 v1 _ _, DataValue.Utf8 v2 _ _ => bool_decide (v1 = v2)
  | DataValue.Date32 v1, DataValue.Date32 v2 => v1 =? v2
  | DataValue.Date64 v1, DataValue.Date64 v2 => v1 =? v2
  | DataValue.Time32 v1 _, DataValue.Time32 v2 _ => v1 =? v2
  | DataValue.Time64 v1 _ _, DataValue.Time64 v2 _ _ => v1 =? v2
  | DataValue.Tuple l1, DataValue.Tuple l2 =>
      (fix go (l1 l2 : list DataValue) : bool :=
         match l1, l2 with
         | [], [] => true
         | x :: l1', y :: l2' => dv_eq x y && go l1' l2'
         | _, _ => false
         end) l1 l2
  | _, _ => false
  end.
End Order.

(** * Typing, lengths *)

Fixpoint logical_type (v : DataValue) : LogicalType :=
  match v with
  | DataValue.Parameter_ _ ty => ty
  | DataValue.Null => LogicalType.SqlNull
  | DataValue.Boolean _ => LogicalType.Boolean
  | DataValue.Float32 _ => LogicalType.Float
  | DataValue.Float64 _ => LogicalType.Double
  | DataValue.Int8 _ => LogicalType.Tinyint
  | DataValue.Int16 _ => LogicalType.Smallint
  | DataValue.Int32 _ => LogicalType.Integer
  | DataValue.Int64 _ => LogicalType.Bigint
  | DataValue.UInt8 _ => LogicalType.UTinyint
  | DataValue.UInt16 _ => LogicalType.USmallint
  | DataValue.UInt32 _ => LogicalType.UInteger
  | DataValue.UInt64 _ => LogicalType.UBigint
  | DataValue.Utf8 _ (Variable_ len) unit => LogicalType.Varchar len unit
  | DataValue.Utf8 _ (Fixed len) unit => LogicalType.Char len unit
  | DataValue.Date32 _ => LogicalType.Date
  | DataValue.Date64 _ => LogicalType.DateTime
  | DataValue.Time32 _ _ => LogicalType.Time None
  | DataValue.Time64 _ _ _ => LogicalType.TimeStamp None false
  | DataValue.Tuple vs => LogicalType.Tuple (map logical_type vs)
  end.

Fixpoint has_parameter (v : DataValue) : bool :=
  match v with
  | DataValue.Parameter_ _ _ => true
  | DataValue.Tuple vs => existsb has_parameter vs
  | _ => false
  end.

Definition is_true (v : DataValue) : res bool :=
  if is_null v then Ok false
  else
    match v with
    | DataValue.Boolean b => Ok b
    | _ => Err InvalidType
    end.

Definition byte_len (s : list Z) : Z := Z.of_nat (length s).

(** [true] when the string is too long. *)
Definition check_string_len (s : list Z) (len : Z) (unit : CharLengthUnits) : bool :=
  match unit with
  | Characters => len <? chars_count s
  | Octets => len <? byte_len s
  end.

Definition check_len (self : DataValue) (logic_type : LogicalType) : res unit :=
  let is_over_len :=
    match logic_type, self with
    | LogicalType.Varchar None _, _ => false
    | LogicalType.Varchar (Some len) Characters, DataValue.Utf8 val (Variable_ _) Characters
    | LogicalType.Char len Characters, DataValue.Utf8 val (Fixed _) Characters =>
        check_string_len val len Characters
    | LogicalType.Varchar (Some len) Octets, DataValue.Utf8 val (Variable_ _) Octets
    | LogicalType.Char len Octets, DataValue.Utf8 val (Fixed _) Octets =>
        check_string_len val len Octets
    | _, _ => false
    end in
  if is_over_len then Err TooLong else Ok tt.

(** [serialized_len_hint]: bytes the row format needs for the value. *)
Fixpoint serialized_len_hint (v : DataValue) : Z :=
  match v with
  | DataValue.Parameter_ _ _ | DataValue.Null => 0
  | DataValue.Boolean _ | DataValue.Int8 _ | DataValue.UInt8 _ => 1
  | DataValue.Int16 _ | DataValue.UInt16 _ => 2
  | DataValue.Int32 _ | DataValue.UInt32 _ | DataValue.Float32 _
  | DataValue.Date32 _ | DataValue.Time32 _ _ => 4
  | DataValue.Int64 _ | DataValue.UInt64 _ | DataValue.Float64 _
  | DataValue.Date64 _ | DataValue.Time64 _ _ _ => 8
  | DataValue.Utf8 value ty unit =>
      match ty, unit with
      | Variable_ _, _ => 4 + byte_len value
      | Fixed len, Characters =>
          let spaces_len := Z.max 0 (len - chars_count value) in
          4 + byte_len value + spaces_len
      | Fixed len, Octets => len
      end
  | DataValue.Tuple values => foldr Z.add 0 (map serialized_len_hint values)
  end.

(** * Well-formed values: each payload inside the range of its Rust type *)

Fixpoint dv_ok (v : DataValue) : Prop :=
  match v with
  | DataValue.Parameter_ id _ => in_u 64 id
  | DataValue.Null | DataValue.Boolean _ => True
  | DataValue.Float32 b => in_u 32 b
  | DataValue.Float64 b => in_u 64 b
  | DataValue.Int8 x => in_s 8 x
  | DataValue.Int16 x => in_s 16 x
  | DataValue.Int32 x => in_s 32 x
  | DataValue.Int64 x => in_s 64 x
  | DataValue.UInt8 x => in_u 8 x
  | DataValue.UInt16 x => in_u 16 x
  | DataValue.UInt32 x => in_u 32 x
  | DataValue.UInt64 x => in_u 64 x
  | DataValue.Utf8 s ty _ =>
      bytes_ok s /\ utf8_valid s = true /\
      match ty with
      | Fixed len => in_u 32 len
      | Variable_ (Some len) => in_u 32 len
      | Variable_ None => True
      end
  | DataValue.Date32 x => in_s 32 x
  | DataValue.Date64 x => in_s 64 x
  | DataValue.Time32 x p => in_u 32 x /\ in_u 64 p
  | DataValue.Time64 x p _ => in_s 64 x /\ in_u 64 p
  | DataValue.Tuple vs => all_of dv_ok vs
  end.

(** * The comparison is a lawful partial order *)

Section OrderLaws.
Context {OF : OrderedFloat}.

Lemma cmp_bool_antisym (a b : bool) : cmp_bool b a = CompOpp (cmp_bool a b).
Proof. by destruct a, b. Qed.

Lemma of_cmp_antisym (w inf a b : Z) : of_cmp w inf b a = CompOpp (of_cmp w inf a b).
Proof.
  destruct (is_nan_bits w inf a) eqn:Ha, (is_nan_bits w inf b) eqn:Hb.
  - by rewrite !of_cmp_nan_nan.
  - by rewrite (of_cmp_num_nan w inf b a), (of_cmp_nan_num w inf a b).
  - by rewrite (of_cmp_num_nan w inf a b), (of_cmp_nan_num w inf b a).
  - rewrite !of_cmp_num by done. apply Z.compare_antisym.
Qed.

Lemma tuple_partial_cmp_with_antisym (e : DataValue -> DataValue -> option comparison)
    (left right : list DataValue) (lu ru : bool) :
  Forall (fun l => forall r, e r l = CompOpp <$> e l r) left ->
  tuple_partial_cmp_with e right left ru lu =
  CompOpp <$> tuple_partial_cmp_with e left right lu ru.
Proof.
  intros H. revert right. induction H as [|l left Hl Hleft IH]; intros [|r right]; simpl.
  - done.
  - by destruct lu.
  - by destruct ru.
  - rewrite Hl. destruct (e l r) as [[]|]; simpl; auto.
Qed.

Lemma tuple_element_antisym (l : DataValue) :
  (forall r, partial_cmp r l = CompOpp <$> partial_cmp l r) ->
  forall r, tuple_element_partial_cmp r l = CompOpp <$> tuple_element_partial_cmp l r.
Proof. intros H r. specialize (H r). by destruct l, r. Qed.

Lemma partial_cmp_flip (v w : DataValue) : partial_cmp w v = CompOpp <$> partial_cmp v w.
Proof.
  revert w. induction v as [v Hv|vs IH] using DataValue_ind'; intros w.
  - destruct v; try (exfalso; by eapply Hv); destruct w; simpl; try done;
      f_equal; auto using cmp_bool_antisym, of_cmp_antisym, Z.compare_antisym, lex_cmp_antisym.
  - destruct w; try done. rewrite !partial_cmp_tuple. apply tuple_partial_cmp_with_antisym.
    eapply Forall_impl; [|exact IH]. intros l Hl. by apply tuple_element_antisym.
Qed.

Lemma of_cmp_trans (w inf : Z) : cmp_transitive (of_cmp w inf).
Proof.
  intros a b c o1 o2.
  destruct (is_nan_bits w inf a) eqn:Ha, (is_nan_bits w inf b) eqn:Hb,
    (is_nan_bits w inf c) eqn:Hc; intros H1 H2 Ho;
  rewrite ?of_cmp_nan_nan, ?of_cmp_nan_num, ?of_cmp_num_nan, ?of_cmp_num in H1 by done;
  rewrite ?of_cmp_nan_nan, ?of_cmp_nan_num, ?of_cmp_num_nan, ?of_cmp_num in H2 by done;
  rewrite ?of_cmp_nan_nan, ?of_cmp_nan_num, ?of_cmp_num_nan, ?of_cmp_num by done;
  try (subst; by destruct Ho as [|[|]]); try (subst; by destruct (_ ?= _), Ho as [|[|]]).
  eapply Zcompare_transitive; eauto.
Qed.

Lemma cmp_bool_trans : cmp_transitive cmp_bool.
Proof. intros [] [] [] o1 o2 <- <-; by intros [|[|]]. Qed.

(** The same law for a partial comparison, at one left operand. *)
Definition pcmp_transitive_at (e : DataValue -> DataValue -> option comparison) (a : DataValue) : Prop :=
  forall b c o1 o2, e a b = Some o1 -> e b c = Some o2 -> cmp_compat o1 o2 ->
    e a c = Some (cmp_then o1 o2).

Lemma tuple_partial_cmp_with_trans (e : DataValue -> DataValue -> option comparison)
    (x y z : list DataValue) (o1 o2 : comparison) :
  Forall (pcmp_transitive_at e) x ->
  tuple_partial_cmp_with e x y false false = Some o1 ->
  tuple_partial_cmp_with e y z false false = Some o2 ->
  cmp_compat o1 o2 ->
  tuple_partial_cmp_with e x z false false = Some (cmp_then o1 o2).
Proof.
  intros H. revert y z. induction H as [|a x Ha Hx IH]; intros [|b y] [|c z]; simpl;
    intros H1 H2 Ho; simplify_eq; try done;
    try (by destruct Ho as [|[|]]).
  - by destruct o1, Ho as [|[|]].
  - destruct (e a b) as [oab|] eqn:Hab; [|done]. destruct (e b c) as [obc|] eqn:Hbc; [|done].
    destruct oab, obc; simplify_eq;
      try (by destruct Ho as [|[|]]);
      rewrite (Ha _ _ _ _ Hab Hbc) by (unfold cmp_compat; auto); simpl; try done;
      [by eapply IH|by destruct o1, Ho as [|[|]]..].
Qed.

Lemma tuple_element_by_null (a b : DataValue) :
  tuple_element_partial_cmp a b =
  match is_null a, is_null b with
  | true, true => Some Eq
  | true, false => Some Gt
  | false, true => Some Lt
  | false, false => partial_cmp a b
  end.
Proof. by destruct a, b. Qed.

Lemma tuple_element_trans (a : DataValue) :
  pcmp_transitive_at partial_cmp a -> pcmp_transitive_at tuple_element_partial_cmp a.
Proof.
  intros H b c o1 o2. rewrite !tuple_element_by_null.
  destruct (is_null a) eqn:Ea, (is_null b) eqn:Eb, (is_null c) eqn:Ec;
    intros H1 H2 Ho; simplify_eq; try done; try (by destruct Ho as [|[|]]).
  - by destruct o1, Ho as [|[|]].
  - by eapply H.
Qed.

Lemma partial_cmp_transitive (a : DataValue) : pcmp_transitive_at partial_cmp a.
Proof.
  induction a as [a Ha|vs IH] using DataValue_ind'; intros b c o1 o2.
  - intros H1 H2 Ho.
    destruct a; try (exfalso; eapply Ha; reflexivity); destruct b; try discriminate H1;
      destruct c; try discriminate H2; simpl in *; simplify_eq; try done; f_equal;
      (first [eapply cmp_bool_trans|eapply of_cmp_trans|eapply Zcompare_transitive
             |eapply lex_cmp_transitive]; [reflexivity|reflexivity|exact Ho]).
  - destruct b; try discriminate; destruct c; try discriminate. rewrite !partial_cmp_tuple.
    apply tuple_partial_cmp_with_trans. eapply Forall_impl; [|exact IH]. apply tuple_element_trans.
Qed.

Lemma of_eqb_iff (w inf a b : Z) : of_eqb w inf a b = true <-> of_cmp w inf a b = Eq.
Proof. unfold of_eqb. by destruct (of_cmp w inf a b). Qed.

Lemma tuple_element_eq (v w : DataValue) :
  (dv_eq v w = true <-> partial_cmp v w = Some Eq) ->
  dv_eq v w = true <-> tuple_element_partial_cmp v w = Some Eq.
Proof. intros ->. rewrite tuple_element_by_null. by destruct v, w. Qed.

Lemma some_eq_iff (c : comparison) : Some c = Some Eq <-> c = Eq.
Proof. split; [by intros [= ->]|by intros ->]. Qed.

Lemma dv_eq_partial_cmp (v w : DataValue) :
  has_parameter v = false -> dv_eq v w = true <-> partial_cmp v w = Some Eq.
Proof.
  revert w. induction v as [v Hv|vs IH] using DataValue_ind'; intros w Hp.
  - destruct v; try (exfalso; exact (Hv _ eq_refl)); try done;
      destruct w; try (split; discriminate); simpl; try done; rewrite some_eq_iff;
      rewrite ?of_eqb_iff, ?Z.eqb_eq, ?Z.compare_eq_iff, ?bool_decide_eq_true, ?lex_cmp_eq; try done.
    by destruct b, b0.
  - destruct w as [ | | | | | | | | | | | | | | | | | |ws]; try (split; discriminate).
    rewrite partial_cmp_tuple. unfold tuple_partial_cmp. simpl in Hp. revert ws.
    induction IH as [|v vs Hv Hvs IHl]; intros [|w ws]; simpl; try (split; discriminate || done).
    simpl in Hp. apply orb_false_iff in Hp as [Hpv Hpvs].
    specialize (IHl Hpvs ws). simpl in IHl. rewrite andb_true_iff, IHl.
    rewrite (tuple_element_eq v w (Hv w Hpv)).
    destruct (tuple_element_partial_cmp v w) as [[]|]; split; try done; intros [? ?]; done.
Qed.

Lemma of_cmp_refl (w inf a : Z) : of_cmp w inf a a = Eq.
Proof. pose proof (of_cmp_antisym w inf a a). by destruct (of_cmp w inf a a). Qed.

Lemma partial_cmp_refl (v : DataValue) : has_parameter v = false -> partial_cmp v v = Some Eq.
Proof.
  induction v as [v Hn|vs IH] using DataValue_ind'; intros Hv.
  - destruct v; try (exfalso; exact (Hn _ eq_refl)); simpl in *; try done;
      rewrite ?Z.compare_refl, ?lex_cmp_refl, ?of_cmp_refl; try done. by destruct b.
  - rewrite partial_cmp_tuple. unfold tuple_partial_cmp. simpl in Hv.
    induction IH as [|v vs IHv _ IHl]; [done|]. simpl in *. apply orb_false_iff in Hv as [H1 H2].
    rewrite tuple_element_by_null. destruct (is_null v) eqn:En; [by apply IHl|].
    rewrite IHv by done. by apply IHl.
Qed.

Lemma tuple_partial_cmp_prefix (vs ws ws' : list DataValue) (lu ru : bool) :
  Forall (fun v => has_parameter v = false) vs ->
  tuple_partial_cmp (vs ++ ws) (vs ++ ws') lu ru = tuple_partial_cmp ws ws' lu ru.
Proof.
  induction 1 as [|v vs Hv Hvs IH]; [done|]. unfold tuple_partial_cmp in *. simpl.
  rewrite tuple_element_by_null. destruct (is_null v); [done|]. by rewrite partial_cmp_refl.
Qed.

(** [PartialOrd for DataValue] is a lawful order that agrees with
    [PartialEq]: swapping the operands reverses the result, comparisons chain
    ([Lt] then [Lt] or [Eq] gives [Lt], and so on), and on values without
    parameters [==] holds exactly when the comparison is [Equal]. *)
Theorem data_value_order_laws (a b c : DataValue) :
  partial_cmp b a = CompOpp <$> partial_cmp a b /\
  (forall o1 o2, partial_cmp a b = Some o1 -> partial_cmp b c = Some o2 -> cmp_compat o1 o2 ->
    partial_cmp a c = Some (cmp_then o1 o2)) /\
  (has_parameter a = false -> dv_eq a b = true <-> partial_cmp a b = Some Eq).
Proof.
  split; [apply partial_cmp_flip|]. split; [|apply dv_eq_partial_cmp].
  intros o1 o2. apply partial_cmp_transitive.
Qed.

(** As a range bound, a tuple that is a proper prefix of a key is above
    every key it starts (as an upper bound) or below it (as a lower bound),
    on whichever side of the comparison it stands. *)
Theorem prefix_bound (vs rest : list DataValue) (w : DataValue) (is_upper other : bool) :
  Forall (fun v => has_parameter v = false) vs ->
  partial_cmp_with_bounds (DataValue.Tuple vs) (DataValue.Tuple (vs ++ w :: rest)) is_upper other =
    Some (if is_upper then Gt else Lt) /\
  partial_cmp_with_bounds (DataValue.Tuple (vs ++ w :: rest)) (DataValue.Tuple vs) other is_upper =
    Some (if is_upper then Lt else Gt).
Proof.
  intros H. unfold partial_cmp_with_bounds. rewrite <- (app_nil_r vs) at 1 4.
  rewrite !tuple_partial_cmp_prefix by done. by destruct is_upper.
Qed.
End OrderLaws.

Lemma prefix_bound_witness :
  partial_cmp_with_bounds (DataValue.Tuple [DataValue.Int32 1])
    (DataValue.Tuple ([DataValue.Int32 1] ++ [DataValue.Null])) true false = Some Gt /\
  partial_cmp_with_bounds (DataValue.Tuple ([DataValue.Int32 1] ++ [DataValue.Null]))
    (DataValue.Tuple [DataValue.Int32 1]) false true = Some Lt.
Proof.
  apply (prefix_bound [DataValue.Int32 1] [] DataValue.Null true false). by repeat constructor.
Defined.

Lemma data_value_order_laws_witness :
  partial_cmp (DataValue.Int32 1) (DataValue.Int32 3) = Some (cmp_then Lt Lt).
Proof.
  destruct (data_value_order_laws (DataValue.Int32 1) (DataValue.Int32 2) (DataValue.Int32 3))
    as (_ & H & _).
  apply (H Lt Lt); [reflexivity|reflexivity|unfold cmp_compat; auto].
Defined.
