(* ===== verification/Time32.v ===== *)
(** The packed [TIME] format and its arithmetic: [pack_time] and [unpack_time]
    of src/src/types/value.rs and the evaluators of
    src/src/types/evaluator/time32.rs.

    A [Time32] value packs the fraction of a second above the seconds of the
    day in one [u32]. A failed [assert!] and an arithmetic overflow of a [u32]
    are [Err Panic]. *)

From S2P Require Import Prelude MachineInt Types Value.
From stdpp Require Import base list list_numbers numbers option.
From Stdlib Require Import ZArith Lia.
Local Open Scope Z_scope.

Definition ONE_SEC_TO_NANO : Z := 1000000000.
Definition ONE_DAY_TO_SEC : Z := 86400.

(** [10_u32.pow(precision as u32)]. *)
Definition pow10_u32 (precision : Z) : res Z :=
  match checked_u 32 (10 ^ (as_u 32 precision)) with
  | Some v => Ok v
  | None => Err Panic
  end.

(** The shift both functions derive from the precision. *)
Definition time_shift (precision : Z) : Z :=
  if precision =? 1 then 28
  else if precision =? 2 then 25
  else if precision =? 3 then 22
  else if precision =? 4 then 18
  else 31.

Definition pack_time (secs nanos precision : Z) : res Z :=
  if negb (nanos <=? ONE_SEC_TO_NANO) then Err Panic
  else if negb (secs <=? ONE_DAY_TO_SEC) then Err Panic
  else
    let? e := pow10_u32 precision in
    let scaled_nanos := nanos / (1000000000 / e) in
    let p := time_shift precision in
    Ok (Z.lor (as_u 32 (Z.shiftl scaled_nanos p)) secs).

Definition unpack_time (combined precision : Z) : res (Z * Z) :=
  let p := time_shift precision in
  let scaled_nanos := Z.shiftr combined p in
  let secs := Z.land combined (2 ^ p - 1) in
  let? e := pow10_u32 precision in
  match checked_u 32 (scaled_nanos * (1000000000 / e)) with
  | Some n => Ok (secs, n)
  | None => Err Panic
  end.

Definition u32_op (v : Z) : res Z :=
  match checked_u 32 v with
  | Some r => Ok r
  | None => Err Panic
  end.

(** [while n > ONE_SEC_TO_NANO { v += 1; n -= ONE_SEC_TO_NANO }]; [n] is below
    [2^32 < 5 * ONE_SEC_TO_NANO], so five iterations always suffice. *)
Fixpoint carry_nanos (fuel : nat) (v n : Z) : res (Z * Z) :=
  match fuel with
  | O => Err Panic
  | S fuel' =>
      if ONE_SEC_TO_NANO <? n then
        let? v' := u32_op (v + 1) in
        carry_nanos fuel' v' (n - ONE_SEC_TO_NANO)
      else Ok (v, n)
  end.

(** [while n1 < n2 { v1 -= 1; n1 += ONE_SEC_TO_NANO }]. *)
Fixpoint borrow_nanos (fuel : nat) (v1 n1 n2 : Z) : res (Z * Z) :=
  match fuel with
  | O => Err Panic
  | S fuel' =>
      if n1 <? n2 then
        let? v1' := u32_op (v1 - 1) in
        let? n1' := u32_op (n1 + ONE_SEC_TO_NANO) in
        borrow_nanos fuel' v1' n1' n2
      else Ok (v1, n1)
  end.

(** [unreachable_unchecked] arms (operands of other types) are [Err Panic]. *)
Definition time_plus_binary_eval (left right : DataValue) : res DataValue :=
  match left, right with
  | DataValue.Time32 v1 p1, DataValue.Time32 v2 p2 =>
      let? (v1, n1) := unpack_time v1 p1 in
      let? (v2, n2) := unpack_time v2 p2 in
      let? n := u32_op (n1 + n2) in
      let? (v1, n) := carry_nanos 5 v1 n in
      let p := if p1 <? p2 then p2 else p1 in
      let? v := u32_op (v1 + v2) in
      if ONE_DAY_TO_SEC <? v then Ok DataValue.Null
      else
        let? packed := pack_time v n p in
        Ok (DataValue.Time32 packed p)
  | DataValue.Time32 _ _, DataValue.Null
  | DataValue.Null, DataValue.Time32 _ _
  | DataValue.Null, DataValue.Null => Ok DataValue.Null
  | _, _ => Err Panic
  end.

Definition time_minus_binary_eval (left right : DataValue) : res DataValue :=
  match left, right with
  | DataValue.Time32 v1 p1, DataValue.Time32 v2 p2 =>
      let? (v1, n1) := unpack_time v1 p1 in
      let? (v2, n2) := unpack_time v2 p2 in
      let? (v1, n1) := borrow_nanos 5 v1 n1 n2 in
      if v1 <? v2 then Ok DataValue.Null
      else
        let p := if p1 <? p2 then p2 else p1 in
        let? packed := pack_time (v1 - v2) (n1 - n2) p in
        Ok (DataValue.Time32 packed p)
  | DataValue.Time32 _ _, DataValue.Null
  | DataValue.Null, DataValue.Time32 _ _
  | DataValue.Null, DataValue.Null => Ok DataValue.Null
  | _, _ => Err Panic
  end.

(** [time32_order_binary!]: [is_order] is [is_gt] or [is_ge]. *)
Definition time_order_binary (is_order : comparison -> bool) (left right : DataValue) : res DataValue :=
  match left, right with
  | DataValue.Time32 v1 p1, DataValue.Time32 v2 p2 =>
      let? (v1, n1) := unpack_time v1 p1 in
      let? (v2, n2) := unpack_time v2 p2 in
      Ok (DataValue.Boolean (is_order (cmp_then (v1 ?= v2) (n1 ?= n2))))
  | DataValue.Time32 _ _, DataValue.Null
  | DataValue.Null, DataValue.Time32 _ _
  | DataValue.Null, DataValue.Null => Ok DataValue.Null
  | _, _ => Err Panic
  end.

Definition is_gt (c : comparison) : bool := match c with Gt => true | _ => false end.
Definition is_ge (c : comparison) : bool := match c with Lt => false | _ => true end.

Definition time_gt_binary_eval := time_order_binary is_gt.
Definition time_gt_eq_binary_eval := time_order_binary is_ge.

(** * Round trip *)

(** The precisions the packed layout is designed for. *)
Definition packed_precision (precision : Z) : Prop := 0 <= precision <= 4.

Definition time_unit (precision : Z) : Z := 10 ^ (9 - precision).

Lemma packed_precision_cases (p : Z) :
  packed_precision p -> p = 0 \/ p = 1 \/ p = 2 \/ p = 3 \/ p = 4.
Proof. unfold packed_precision. lia. Qed.

Ltac case_precision H :=
  apply packed_precision_cases in H; destruct H as [->|[->|[->|[->| ->]]]].

Lemma pow10_u32_ok (precision : Z) :
  packed_precision precision -> pow10_u32 precision = Ok (10 ^ precision).
Proof. intros H. case_precision H; reflexivity. Qed.

Lemma scaled_nanos_bound (nanos precision : Z) :
  packed_precision precision -> 0 <= nanos <= ONE_SEC_TO_NANO ->
  0 <= nanos / time_unit precision <= 10 ^ precision.
Proof.
  intros Hp Hn. unfold ONE_SEC_TO_NANO in Hn. pose proof (Z.div_pos nanos (time_unit precision)).
  assert (0 < time_unit precision) by (unfold time_unit; case_precision Hp; simpl; lia).
  split; [apply Z.div_pos; lia|].
  apply Z.div_le_upper_bound; [done|]. unfold time_unit. case_precision Hp; simpl; lia.
Qed.

Lemma lor_shift_disjoint (hi lo p : Z) :
  0 <= p -> 0 <= lo < 2 ^ p -> 0 <= hi ->
  Z.lor (Z.shiftl hi p) lo = hi * 2 ^ p + lo.
Proof.
  intros Hp Hlo Hhi. rewrite Z.shiftl_mul_pow2 by done.
  symmetry. rewrite Z.add_nocarry_lxor; [rewrite Z.lxor_lor; [done|]|].
  all: apply Z.bits_inj'; intros i Hi; rewrite Z.land_spec, Z.bits_0;
    destruct (Z.lt_ge_cases i p).
  all: try (rewrite Z.mul_pow2_bits_low by lia; done).
  all: rewrite andb_comm; destruct (Z.eq_dec lo 0) as [->|]; [by rewrite Z.bits_0|];
    rewrite Z.bits_above_log2; [done|lia|apply Z.log2_lt_pow2; [lia|]];
    apply Z.lt_le_trans with (2 ^ p); [lia|apply Z.pow_le_mono_r; lia].
Qed.

Lemma nano_unit (precision : Z) :
  packed_precision precision -> 1000000000 / 10 ^ precision = time_unit precision.
Proof. intros H. case_precision H; reflexivity. Qed.

(** The layout leaves room for the scaled fraction and for the seconds. *)
Lemma time_layout (precision q : Z) :
  packed_precision precision -> 0 <= q <= 10 ^ precision ->
  0 <= time_shift precision /\ ONE_DAY_TO_SEC < 2 ^ time_shift precision /\
  0 <= q * 2 ^ time_shift precision < 2 ^ 32.
Proof.
  unfold ONE_DAY_TO_SEC. intros H Hq.
  case_precision H; unfold time_shift; simpl Z.eqb; cbv iota; simpl in Hq |- *; lia.
Qed.

Lemma pack_time_value (secs nanos precision : Z) :
  packed_precision precision ->
  0 <= secs <= ONE_DAY_TO_SEC -> 0 <= nanos <= ONE_SEC_TO_NANO ->
  pack_time secs nanos precision =
  Ok (nanos / time_unit precision * 2 ^ time_shift precision + secs).
Proof.
  intros Hp Hs Hn. unfold pack_time.
  rewrite (proj2 (Z.leb_le nanos _)), (proj2 (Z.leb_le secs _)) by lia. simpl.
  rewrite pow10_u32_ok by done. simpl. rewrite nano_unit by done.
  pose proof (scaled_nanos_bound nanos precision Hp Hn) as Hb.
  destruct (time_layout precision _ Hp Hb) as (Hsh & Hday & Hq).
  rewrite as_u_id by (unfold in_u; rewrite Z.shiftl_mul_pow2 by done; done).
  by rewrite lor_shift_disjoint by lia.
Qed.

Lemma unpack_time_value (q secs precision : Z) :
  packed_precision precision -> 0 <= q <= 10 ^ precision -> 0 <= secs <= ONE_DAY_TO_SEC ->
  unpack_time (q * 2 ^ time_shift precision + secs) precision = Ok (secs, q * time_unit precision).
Proof.
  intros Hp Hq Hs. destruct (time_layout precision q Hp Hq) as (Hsh & Hday & Hr).
  unfold unpack_time. rewrite pow10_u32_ok by done. simpl. rewrite nano_unit by done.
  rewrite Z.shiftr_div_pow2, Z.div_add_l, Z.div_small by lia.
  replace (2 ^ time_shift precision - 1) with (Z.ones (time_shift precision))
    by (rewrite Z.ones_equiv; lia).
  rewrite Z.land_ones, (Z.add_comm (_ * _) secs), Z.mod_add, Z.mod_small by lia.
  rewrite Z.add_0_r.
  assert (checked_u 32 (q * time_unit precision) = Some (q * time_unit precision)) as ->; [|done].
  apply checked_u_Some. split; [done|]. unfold in_u, time_unit.
  case_precision Hp; simpl in *; lia.
Qed.

(** Unpacking a packed time gives back the seconds and the nanoseconds truncated
    to the precision, for every precision the layout supports (0 to 4) and the whole
    domain the assertions of [pack_time] admit. *)
Theorem unpack_pack_time (secs nanos precision : Z)
    (Hp : packed_precision precision)
    (Hs : 0 <= secs <= ONE_DAY_TO_SEC) (Hn : 0 <= nanos <= ONE_SEC_TO_NANO) :
  exists packed, pack_time secs nanos precision = Ok packed /\
    unpack_time packed precision = Ok (secs, nanos - nanos mod time_unit precision).
Proof.
  eexists. split; [by apply pack_time_value|].
  rewrite unpack_time_value by eauto using scaled_nanos_bound.
  assert (0 < time_unit precision) by (unfold time_unit; case_precision Hp; simpl; lia).
  pose proof (Z.div_mod nanos (time_unit precision) ltac:(lia)).
  do 2 f_equal. lia.
Qed.

Lemma unpack_pack_time_witness :
  exists packed, pack_time 3661 123456789 3 = Ok packed /\
    unpack_time packed 3 = Ok (3661, 123456789 - 123456789 mod time_unit 3).
Proof.
  apply unpack_pack_time; unfold packed_precision, ONE_DAY_TO_SEC, ONE_SEC_TO_NANO; lia.
Defined.

(** * Order *)

(** The packed representation does not carry the order of times: for every precision
    with a fraction there are times [t1 > t2] (as [time_gt_binary_eval] compares them, which
    unpacks) whose packed values, the ones [PartialOrd] and the key encoding compare, are in
    the opposite order. *)
Theorem time32_packed_order_differs {OF : OrderedFloat} (precision : Z)
    (Hp : 1 <= precision <= 4) :
  exists v1 v2,
    pack_time 1 0 precision = Ok v1 /\ pack_time 0 500000000 precision = Ok v2 /\
    time_gt_binary_eval (DataValue.Time32 v1 precision) (DataValue.Time32 v2 precision)
      = Ok (DataValue.Boolean true) /\
    partial_cmp (DataValue.Time32 v1 precision) (DataValue.Time32 v2 precision) = Some Lt.
Proof.
  assert (packed_precision precision) as H by (unfold packed_precision; lia).
  case_precision H; [lia|..]; repeat eexists.
Qed.

Lemma time32_packed_order_differs_witness :
  exists v1 v2,
    pack_time 1 0 3 = Ok v1 /\ pack_time 0 500000000 3 = Ok v2 /\
    time_gt_binary_eval (DataValue.Time32 v1 3) (DataValue.Time32 v2 3)
      = Ok (DataValue.Boolean true) /\
    partial_cmp (DataValue.Time32 v1 3) (DataValue.Time32 v2 3) = Some Lt.
Proof. apply (time32_packed_order_differs 3). lia. Defined.

(** * Arithmetic *)

Lemma u32_op_ok (v : Z) : in_u 32 v -> u32_op v = Ok v.
Proof. intros H. unfold u32_op. by rewrite (proj2 (checked_u_Some 32 v v)). Qed.

Lemma u32_op_panic (v : Z) : ~ in_u 32 v -> u32_op v = Err Panic.
Proof. intros H. unfold u32_op. by rewrite (proj2 (checked_u_None 32 v)). Qed.

(** A time of day representable at a precision: a whole number of units. *)
Definition time_at (precision secs nanos : Z) : Prop :=
  0 <= secs <= ONE_DAY_TO_SEC /\ 0 <= nanos < ONE_SEC_TO_NANO /\ nanos mod time_unit precision = 0.

Definition nanos_of (secs nanos : Z) : Z := secs * ONE_SEC_TO_NANO + nanos.

Lemma unpack_packed (precision secs nanos v : Z) :
  packed_precision precision -> 0 <= secs <= ONE_DAY_TO_SEC -> 0 <= nanos <= ONE_SEC_TO_NANO ->
  nanos mod time_unit precision = 0 ->
  pack_time secs nanos precision = Ok v -> unpack_time v precision = Ok (secs, nanos).
Proof.
  intros Hp Hs Hn Hm Hv. rewrite pack_time_value in Hv by done. simplify_eq.
  rewrite unpack_time_value by eauto using scaled_nanos_bound.
  assert (0 < time_unit precision) by (unfold time_unit; case_precision Hp; simpl; lia).
  do 2 f_equal. pose proof (Z.div_mod nanos (time_unit precision) ltac:(lia)). lia.
Qed.

(** A representable result packs, and unpacks to itself. *)
Lemma pack_representable (precision secs nanos : Z) :
  packed_precision precision -> 0 <= secs <= ONE_DAY_TO_SEC -> 0 <= nanos <= ONE_SEC_TO_NANO ->
  nanos mod time_unit precision = 0 ->
  exists v, pack_time secs nanos precision = Ok v /\ unpack_time v precision = Ok (secs, nanos).
Proof.
  intros Hp Hs Hn Hm. eexists. split; [by apply pack_time_value|].
  eapply unpack_packed; eauto. by apply pack_time_value.
Qed.

Lemma carry_nanos_once (v n : Z) :
  0 <= v < 2 ^ 31 -> 0 <= n < 2 * ONE_SEC_TO_NANO ->
  carry_nanos 5 v n =
  Ok (if ONE_SEC_TO_NANO <? n then (v + 1, n - ONE_SEC_TO_NANO) else (v, n)).
Proof.
  unfold ONE_SEC_TO_NANO. intros Hv Hn. simpl. unfold ONE_SEC_TO_NANO.
  destruct (Z.ltb_spec 1000000000 n); [|done].
  rewrite u32_op_ok by (unfold in_u; lia). simpl.
  by rewrite (proj2 (Z.ltb_ge 1000000000 (n - 1000000000))) by lia.
Qed.

Lemma unit_divides_sec (precision : Z) :
  packed_precision precision -> ONE_SEC_TO_NANO mod time_unit precision = 0.
Proof. intros H. case_precision H; reflexivity. Qed.

Lemma mod_add_0 (a b m : Z) : m <> 0 -> a mod m = 0 -> b mod m = 0 -> (a + b) mod m = 0.
Proof. intros Hm Ha Hb. by rewrite Z.add_mod, Ha, Hb, Z.add_0_l, Z.mod_0_l by done. Qed.

Lemma mod_sub_0 (a b m : Z) : m <> 0 -> a mod m = 0 -> b mod m = 0 -> (a - b) mod m = 0.
Proof. intros Hm Ha Hb. by rewrite Zminus_mod, Ha, Hb, Z.sub_0_r, Z.mod_0_l by done. Qed.

Lemma time_unit_pos (precision : Z) : packed_precision precision -> 0 < time_unit precision.
Proof. intros H. unfold time_unit. case_precision H; simpl; lia. Qed.

(** Adding two times of the same precision gives [Null] past one day and otherwise a
    packed time whose seconds and nanoseconds add up to the exact sum; the nanoseconds may
    be a whole second. *)
Theorem time_plus_exact (precision s1 n1 s2 n2 v1 v2 : Z)
    (Hp : packed_precision precision)
    (H1 : time_at precision s1 n1) (H2 : time_at precision s2 n2)
    (Hv1 : pack_time s1 n1 precision = Ok v1) (Hv2 : pack_time s2 n2 precision = Ok v2) :
  exists s n,
    nanos_of s n = nanos_of s1 n1 + nanos_of s2 n2 /\ 0 <= n <= ONE_SEC_TO_NANO /\
    (ONE_DAY_TO_SEC < s ->
      time_plus_binary_eval (DataValue.Time32 v1 precision) (DataValue.Time32 v2 precision)
        = Ok DataValue.Null) /\
    (s <= ONE_DAY_TO_SEC -> exists v,
      time_plus_binary_eval (DataValue.Time32 v1 precision) (DataValue.Time32 v2 precision)
        = Ok (DataValue.Time32 v precision) /\
      unpack_time v precision = Ok (s, n)).
Proof.
  destruct H1 as (Hs1 & Hn1 & Hm1), H2 as (Hs2 & Hn2 & Hm2).
  pose proof (time_unit_pos precision Hp). pose proof (unit_divides_sec precision Hp) as Hsec.
  assert (0 <= n1 + n2 < 2 * ONE_SEC_TO_NANO) as Hn by lia.
  assert (0 <= s1 < 2 ^ 31) as Hs1' by (unfold ONE_DAY_TO_SEC in *; lia).
  pose proof (carry_nanos_once s1 (n1 + n2) Hs1' Hn) as Hc.
  exists (if ONE_SEC_TO_NANO <? n1 + n2 then s1 + 1 + s2 else s1 + s2),
    (if ONE_SEC_TO_NANO <? n1 + n2 then n1 + n2 - ONE_SEC_TO_NANO else n1 + n2).
  unfold time_plus_binary_eval.
  rewrite (unpack_packed precision s1 n1 v1), (unpack_packed precision s2 n2 v2)
    by (done || lia).
  cbn [rbind]. rewrite (u32_op_ok (n1 + n2)) by (unfold in_u, ONE_SEC_TO_NANO in *; lia).
  cbn [rbind]. rewrite Hc. rewrite Z.ltb_irrefl. unfold nanos_of.
  destruct (Z.ltb_spec ONE_SEC_TO_NANO (n1 + n2)); cbn [rbind];
    (rewrite u32_op_ok by (unfold in_u, ONE_DAY_TO_SEC in *; lia); cbn [rbind];
     split; [lia|]; split; [lia|]; split; intros Hd;
     [by rewrite (proj2 (Z.ltb_lt _ _)) by lia|
      rewrite (proj2 (Z.ltb_ge _ _)) by lia]).
  all: edestruct (pack_representable precision) as (v & -> & Hu);
    [done| | | |exists v; split; [done|exact Hu]]; try lia.
  all: repeat (apply mod_sub_0 || apply mod_add_0); done || lia.
Qed.

Lemma time_plus_exact_witness :
  exists s n,
    nanos_of s n = nanos_of 3600 500000000 + nanos_of 7200 700000000 /\ 0 <= n <= ONE_SEC_TO_NANO /\
    (ONE_DAY_TO_SEC < s ->
      time_plus_binary_eval (DataValue.Time32 1342180880 1) (DataValue.Time32 1879055392 1)
        = Ok DataValue.Null) /\
    (s <= ONE_DAY_TO_SEC -> exists v,
      time_plus_binary_eval (DataValue.Time32 1342180880 1) (DataValue.Time32 1879055392 1)
        = Ok (DataValue.Time32 v 1) /\
      unpack_time v 1 = Ok (s, n)).
Proof.
  apply time_plus_exact; try reflexivity; unfold packed_precision, time_at, ONE_DAY_TO_SEC, ONE_SEC_TO_NANO;
    repeat split; lia || reflexivity.
Defined.

(** Half a second plus half a second is not normalised to one second: the loop of
    [time_plus_binary_eval] carries only above a second, so the sum unpacks to zero seconds
    and a whole second of nanoseconds and is ordered below one second. *)
Theorem time_plus_half_not_normalised :
  exists half one sum,
    pack_time 0 500000000 1 = Ok half /\ pack_time 1 0 1 = Ok one /\
    time_plus_binary_eval (DataValue.Time32 half 1) (DataValue.Time32 half 1)
      = Ok (DataValue.Time32 sum 1) /\
    unpack_time sum 1 = Ok (0, 1000000000) /\
    time_gt_binary_eval (DataValue.Time32 one 1) (DataValue.Time32 sum 1)
      = Ok (DataValue.Boolean true).
Proof. exists 1342177280, 1, 2684354560. by repeat split. Qed.

(** Subtraction of times at the same precision: exact when the result is not negative,
    [Null] when it is negative and the minuend has a second to borrow from, and an arithmetic
    overflow of the [u32] seconds when it has not. *)
Theorem time_minus_cases (precision s1 n1 s2 n2 v1 v2 : Z)
    (Hp : packed_precision precision)
    (H1 : time_at precision s1 n1) (H2 : time_at precision s2 n2)
    (Hv1 : pack_time s1 n1 precision = Ok v1) (Hv2 : pack_time s2 n2 precision = Ok v2) :
  let r := time_minus_binary_eval (DataValue.Time32 v1 precision) (DataValue.Time32 v2 precision) in
  (nanos_of s2 n2 <= nanos_of s1 n1 -> exists v s n,
     r = Ok (DataValue.Time32 v precision) /\ unpack_time v precision = Ok (s, n) /\
     nanos_of s n = nanos_of s1 n1 - nanos_of s2 n2 /\ 0 <= n < ONE_SEC_TO_NANO) /\
  (nanos_of s1 n1 < nanos_of s2 n2 ->
     r = if (s1 =? 0) && (n1 <? n2) then Err Panic else Ok DataValue.Null).
Proof.
  destruct H1 as (Hs1 & Hn1 & Hm1), H2 as (Hs2 & Hn2 & Hm2).
  pose proof (time_unit_pos precision Hp). pose proof (unit_divides_sec precision Hp) as Hsec.
  intros r. subst r. unfold time_minus_binary_eval.
  rewrite (unpack_packed precision s1 n1 v1), (unpack_packed precision s2 n2 v2)
    by (done || lia).
  cbn [rbind]. rewrite Z.ltb_irrefl. cbn [borrow_nanos]. unfold nanos_of, ONE_SEC_TO_NANO, ONE_DAY_TO_SEC in *.
  destruct (Z.ltb_spec n1 n2) as [Hlt|Hge].
  - destruct (Z.eqb_spec s1 0) as [->|Hs0].
    + rewrite u32_op_panic by (unfold in_u; lia). simpl. split; [lia|done].
    + rewrite u32_op_ok by (unfold in_u; lia). cbn [rbind].
      rewrite u32_op_ok by (unfold in_u; lia). cbn [rbind].
      rewrite (proj2 (Z.ltb_ge _ n2)) by lia. cbn [rbind]. simpl andb.
      split; intros Hd; [rewrite (proj2 (Z.ltb_ge _ _)) by lia|by rewrite (proj2 (Z.ltb_lt _ _)) by lia].
      destruct (pack_representable precision (s1 - 1 - s2) (n1 + 1000000000 - n2)) as (v & -> & Hu);
        [done|unfold ONE_DAY_TO_SEC; lia|unfold ONE_SEC_TO_NANO; lia| |].
      { repeat (apply mod_sub_0 || apply mod_add_0); done || lia. }
      eexists v, _, _. split; [done|]. split; [exact Hu|lia].
  - cbn [rbind]. rewrite andb_false_r.
    split; intros Hd; [rewrite (proj2 (Z.ltb_ge _ _)) by lia|by rewrite (proj2 (Z.ltb_lt _ _)) by lia].
    destruct (pack_representable precision (s1 - s2) (n1 - n2)) as (v & -> & Hu);
      [done|unfold ONE_DAY_TO_SEC; lia|unfold ONE_SEC_TO_NANO; lia|by apply mod_sub_0; [lia|..]|].
    eexists v, _, _. split; [done|]. split; [exact Hu|lia].
Qed.

Lemma time_minus_cases_witness :
  let r := time_minus_binary_eval (DataValue.Time32 0 1) (DataValue.Time32 1342177280 1) in
  (nanos_of 0 500000000 <= nanos_of 0 0 -> exists v s n,
     r = Ok (DataValue.Time32 v 1) /\ unpack_time v 1 = Ok (s, n) /\
     nanos_of s n = nanos_of 0 0 - nanos_of 0 500000000 /\ 0 <= n < ONE_SEC_TO_NANO) /\
  (nanos_of 0 0 < nanos_of 0 500000000 -> r = Err Panic).
Proof.
  apply (time_minus_cases 1 0 0 0 500000000); try reflexivity;
    unfold packed_precision, time_at, ONE_DAY_TO_SEC, ONE_SEC_TO_NANO;
    repeat split; lia || reflexivity.
Defined.
