(* ===== verification/Chrono.v ===== *)
(** Timestamps (the [time] part of src/src/types/value.rs).

    The calendar is the third-party crate [chrono]: the class [Chrono] has the
    calls the sources make, with the ranges its documentation gives for their
    results. [unix_chrono] is an instance that counts seconds and nanoseconds
    since 1970; it formats and parses nothing. *)

From S2P Require Import Prelude MachineInt Types Value Time32.
From stdpp Require Import base tactics list numbers option.
From Stdlib Require Import ZArith Lia.
Local Open Scope Z_scope.

(** The format strings of src/src/types/value.rs. *)
Inductive TimeFormat :=
| DATE_FMT
| DATE_TIME_FMT
| TIME_STAMP_FMT_WITHOUT_ZONE
| TIME_STAMP_FMT_WITH_ZONE
| TIME_STAMP_FMT_WITHOUT_PRECISION
| TIME_FMT
| TIME_FMT_WITHOUT_ZONE.

Class Chrono := {
  (** [DateTime<Utc>] *)
  DateTime : Type;
  (** [DateTime::from_timestamp], [from_timestamp_millis], [from_timestamp_micros] *)
  from_timestamp : Z -> Z -> option DateTime;
  from_timestamp_millis : Z -> option DateTime;
  from_timestamp_micros : Z -> option DateTime;
  (** [timestamp], [timestamp_millis], [timestamp_micros], [timestamp_nanos_opt] *)
  timestamp : DateTime -> Z;
  timestamp_millis : DateTime -> Z;
  timestamp_micros : DateTime -> Z;
  timestamp_nanos_opt : DateTime -> option Z;
  (** [naive_utc().date().num_days_from_ce()] *)
  num_days_from_ce : DateTime -> Z;
  (** [time().num_seconds_from_midnight()], [time().nanosecond()] *)
  num_seconds_from_midnight : DateTime -> Z;
  nanosecond : DateTime -> Z;
  (** [NaiveDate::from_num_days_from_ce_opt(d)] at midnight UTC *)
  from_num_days_from_ce_opt : Z -> option DateTime;
  (** [format] of a date or time, [NaiveTime::from_num_seconds_from_midnight_opt] included *)
  format_datetime_with : TimeFormat -> DateTime -> list Z;
  format_time_with : TimeFormat -> Z -> Z -> option (list Z);
  (** [parse_from_str] of [NaiveDate], [NaiveDateTime], [DateTime] and [NaiveTime] *)
  parse_date : TimeFormat -> list Z -> option DateTime;
  parse_datetime : TimeFormat -> list Z -> option DateTime;
  parse_datetime_zone : TimeFormat -> list Z -> option DateTime;
  parse_time : TimeFormat -> list Z -> option (Z * Z);
  timestamp_range : forall d, in_s 64 (timestamp d);
  timestamp_millis_range : forall d, in_s 64 (timestamp_millis d);
  timestamp_micros_range : forall d, in_s 64 (timestamp_micros d);
  timestamp_nanos_range : forall d n, timestamp_nanos_opt d = Some n -> in_s 64 n;
  num_days_range : forall d, in_s 32 (num_days_from_ce d);
  num_seconds_range : forall d, 0 <= num_seconds_from_midnight d < ONE_DAY_TO_SEC;
  nanosecond_range : forall d, 0 <= nanosecond d < 2 * ONE_SEC_TO_NANO;
  parse_time_range : forall f s secs nanos, parse_time f s = Some (secs, nanos) ->
    0 <= secs < ONE_DAY_TO_SEC /\ 0 <= nanos < 2 * ONE_SEC_TO_NANO;
  format_datetime_utf8 : forall f d,
    bytes_ok (format_datetime_with f d) /\ utf8_valid (format_datetime_with f d) = true;
  format_time_utf8 : forall f s n text, format_time_with f s n = Some text ->
    bytes_ok text /\ utf8_valid text = true;
}.

Section Timestamps.
Context {CH : Chrono}.

(** [unreachable!()] for other precisions is [Err Panic]. *)
Definition from_timestamp_precision (v precision : Z) : res (option DateTime) :=
  if precision =? 0 then Ok (from_timestamp v 0)
  else if precision =? 3 then Ok (from_timestamp_millis v)
  else if precision =? 6 then Ok (from_timestamp_micros v)
  else if precision =? 9 then
    Ok (from_timestamp (v / ONE_SEC_TO_NANO) (v mod ONE_SEC_TO_NANO))
  else Err Panic.

Definition timestamp_precision (v : DateTime) (precision : Z) : res Z :=
  if precision =? 3 then Ok (timestamp_millis v)
  else if precision =? 6 then Ok (timestamp_micros v)
  else if precision =? 9 then Ok (default 0 (timestamp_nanos_opt v))
  else if precision =? 0 then Ok (timestamp v)
  else Err Panic.

Definition format_date (value : Z) : option (list Z) :=
  format_datetime_with DATE_FMT <$> from_num_days_from_ce_opt value.

Definition format_datetime (value : Z) : option (list Z) :=
  format_datetime_with DATE_TIME_FMT <$> from_timestamp value 0.

Definition format_time (value precision : Z) : res (option (list Z)) :=
  let? (v, n) := unpack_time value precision in
  Ok (format_time_with TIME_FMT_WITHOUT_ZONE v n).

Definition format_timestamp (value precision : Z) : res (option (list Z)) :=
  let? d := from_timestamp_precision value precision in
  Ok (format_datetime_with TIME_STAMP_FMT_WITHOUT_ZONE <$> d).

(** The precisions a timestamp can have. *)
Definition timestamp_precision_ok (precision : Z) : bool :=
  (precision =? 0) || (precision =? 3) || (precision =? 6) || (precision =? 9).

Lemma from_timestamp_precision_ok (v p : Z) :
  timestamp_precision_ok p = true -> exists d, from_timestamp_precision v p = Ok d.
Proof.
  unfold timestamp_precision_ok, from_timestamp_precision. intros H.
  repeat (case_match; [by eauto|]). simpl in *; lia.
Qed.

Lemma timestamp_precision_total (d : DateTime) (p : Z) :
  timestamp_precision_ok p = true -> exists v, timestamp_precision d p = Ok v.
Proof.
  unfold timestamp_precision_ok, timestamp_precision. intros H.
  repeat (case_match; [by eauto|]). simpl in *; lia.
Qed.
End Timestamps.

(** [chrono] keeps dates of the years -262143 to 262142. *)
Definition MIN_UTC : Z := -8334601228800.
Definition MAX_UTC : Z := 8210266876799.

Definition in_chrono (s : Z) : bool := (MIN_UTC <=? s) && (s <=? MAX_UTC).

(** An instant of [unix_chrono]: seconds inside the calendar and nanoseconds. *)
Record unix_time := {
  ut_secs : Z;
  ut_nanos : Z;
  ut_ok : in_chrono ut_secs && ((0 <=? ut_nanos) && (ut_nanos <? ONE_SEC_TO_NANO)) = true;
}.

Definition mk_unix (s n : Z) : option unix_time :=
  match decide (in_chrono s && ((0 <=? n) && (n <? ONE_SEC_TO_NANO)) = true) with
  | left H => Some {| ut_secs := s; ut_nanos := n; ut_ok := H |}
  | right _ => None
  end.

Lemma unix_bounds (d : unix_time) :
  MIN_UTC <= ut_secs d <= MAX_UTC /\ 0 <= ut_nanos d < ONE_SEC_TO_NANO.
Proof. destruct d as [s n H]. unfold in_chrono in H. simpl. lia. Qed.

#[global] Program Instance unix_chrono : Chrono := {|
  DateTime := unix_time;
  from_timestamp := mk_unix;
  from_timestamp_millis := fun v => mk_unix (v / 1000) (v mod 1000 * 1000000);
  from_timestamp_micros := fun v => mk_unix (v / 1000000) (v mod 1000000 * 1000);
  timestamp := ut_secs;
  timestamp_millis := fun d => ut_secs d * 1000 + ut_nanos d / 1000000;
  timestamp_micros := fun d => ut_secs d * 1000000 + ut_nanos d / 1000;
  timestamp_nanos_opt := fun d => checked_s 64 (ut_secs d * ONE_SEC_TO_NANO + ut_nanos d);
  num_days_from_ce := fun d => ut_secs d / ONE_DAY_TO_SEC + 719163;
  num_seconds_from_midnight := fun d => ut_secs d mod ONE_DAY_TO_SEC;
  nanosecond := ut_nanos;
  from_num_days_from_ce_opt := fun d => mk_unix ((d - 719163) * ONE_DAY_TO_SEC) 0;
  format_datetime_with := fun _ _ => [];
  format_time_with := fun _ _ _ => None;
  parse_date := fun _ _ => None;
  parse_datetime := fun _ _ => None;
  parse_datetime_zone := fun _ _ => None;
  parse_time := fun _ _ => None;
|}.
Solve All Obligations with
  (simpl; intros; try done; try (by split; [constructor|]);
   try match goal with d : unix_time |- _ => pose proof (unix_bounds d) end;
   unfold in_s, MIN_UTC, MAX_UTC, ONE_SEC_TO_NANO, ONE_DAY_TO_SEC in *;
   try (change (2 ^ (64 - 1)) with 9223372036854775808);
   try (change (2 ^ (32 - 1)) with 2147483648); try (Z.div_mod_to_equations; lia)).
Next Obligation. simpl. by intros d n [-> ?]%checked_s_Some. Qed.
