(* ===== verification/MemComparable.v ===== *)
(** The memcomparable key encoding (src/src/types/value.rs:
    [encode_string], [decode_string], [memcomparable_encode_with_null_order],
    [memcomparable_encode], [memcomparable_decode]).

    Primary keys, index entries and sort keys are these byte strings; the
    storage orders them as bytes. The theorems show that byte order is the
    order of [PartialOrd for DataValue] with nulls last (or first), under any
    continuation of the two strings, and that decoding inverts encoding.

    A writer is the list of the bytes it appends, a reader as in [Reader]. *)

From S2P Require Import Prelude MachineInt Types Reader Value.
From stdpp Require Import base list list_numbers numbers option.
From Stdlib Require Import ZArith Lia.
Local Open Scope Z_scope.

Definition NULL_TAG : Z := 1.
Definition NOTNULL_TAG : Z := 0.
Definition ENCODE_GROUP_SIZE : nat := 8.
Definition ENCODE_MARKER : Z := 0xFF.

(** The loop of [encode_string]: [fuel] is [needed_groups], the number of
    groups the code reserves, and one group is written per iteration. *)
Fixpoint encode_string_loop (fuel : nat) (data : list Z) : list Z :=
  match fuel with
  | O => []
  | S fuel' =>
      let remain := length data in
      if (ENCODE_GROUP_SIZE <=? remain)%nat then
        take ENCODE_GROUP_SIZE data ++ [ENCODE_MARKER] ++
        encode_string_loop fuel' (drop ENCODE_GROUP_SIZE data)
      else
        let pad_count := (ENCODE_GROUP_SIZE - remain)%nat in
        data ++ replicate pad_count 0 ++ [ENCODE_MARKER - Z.of_nat pad_count]
  end.

Definition encode_string (data : list Z) : list Z :=
  let needed_groups := (length data / ENCODE_GROUP_SIZE + 1)%nat in
  encode_string_loop needed_groups data.

(** Every iteration reads nine bytes, so the length of the reader bounds the
    iterations; an exhausted reader is the error of [read_exact]. *)
Fixpoint decode_string_loop (fuel : nat) (result_ : list Z) (reader : list Z)
    : res (list Z * list Z) :=
  match fuel with
  | O => Err IO_UnexpectedEof
  | S fuel' =>
      let? (group, reader) := read_exact ENCODE_GROUP_SIZE reader in
      let? (marker, reader) := read_u8 reader in
      let pad_count := Z.to_nat (ENCODE_MARKER - marker) in
      if (ENCODE_GROUP_SIZE <? pad_count)%nat then Err IO_InvalidData
      else
        let data_len := (ENCODE_GROUP_SIZE - pad_count)%nat in
        let result_ := result_ ++ take data_len group in
        if (pad_count =? 0)%nat then decode_string_loop fuel' result_ reader
        else Ok (result_, reader)
  end.

Definition decode_string (reader : list Z) : res (list Z * list Z) :=
  decode_string_loop (length reader) [] reader.

(** [encode_u!] and [decode_u!] for an [n]-byte unsigned integer. *)
Definition encode_u (n : nat) (u : Z) : list Z := to_be_bytes n u.
Definition decode_u (n : nat) (reader : list Z) : res (Z * list Z) :=
  let? (buf, reader) := read_exact n reader in
  Ok (from_be_bytes buf, reader).

(** The float arm, at width [w]. *)
Definition encode_float_bits (w inf bits : Z) : Z :=
  if float_ge0 w inf bits then Z.lor bits (2 ^ (w - 1)) else not_u w bits.

Definition decode_float_bits (w u : Z) : Z :=
  if Z.land u (2 ^ (w - 1)) =? 0 then not_u w u else Z.ldiff u (2 ^ (w - 1)).

Fixpoint memcomparable_encode_with_null_order (self : DataValue) (nulls_first : bool)
    : res (list Z) :=
  let null_tag := if nulls_first then NOTNULL_TAG else NULL_TAG in
  let not_null_tag := if nulls_first then NULL_TAG else NOTNULL_TAG in
  let with_tag (m : res (list Z)) := let? b := m in Ok (not_null_tag :: b) in
  match self with
  | DataValue.Null => Ok [null_tag]
  | DataValue.Parameter_ _ _ => Err InvalidValue
  | DataValue.Int8 v => with_tag (Ok (encode_u 1 (Z.lxor (as_u 8 v) 0x80)))
  | DataValue.Int16 v => with_tag (Ok (encode_u 2 (Z.lxor (as_u 16 v) 0x8000)))
  | DataValue.Int32 v | DataValue.Date32 v =>
      with_tag (Ok (encode_u 4 (Z.lxor (as_u 32 v) 0x80000000)))
  | DataValue.Int64 v | DataValue.Date64 v | DataValue.Time64 v _ _ =>
      with_tag (Ok (encode_u 8 (Z.lxor (as_u 64 v) 0x8000000000000000)))
  | DataValue.UInt8 v => with_tag (Ok (encode_u 1 v))
  | DataValue.UInt16 v => with_tag (Ok (encode_u 2 v))
  | DataValue.UInt32 v | DataValue.Time32 v _ => with_tag (Ok (encode_u 4 v))
  | DataValue.UInt64 v => with_tag (Ok (encode_u 8 v))
  | DataValue.Utf8 v _ _ => with_tag (Ok (encode_string v))
  | DataValue.Boolean v => with_tag (Ok [if v then 0x31 else 0x30])
  | DataValue.Float32 f => with_tag (Ok (encode_u 4 (encode_float_bits 32 f32_inf f)))
  | DataValue.Float64 f => with_tag (Ok (encode_u 8 (encode_float_bits 64 f64_inf f)))
  | DataValue.Tuple values =>
      with_tag
        ((fix go (vs : list DataValue) : res (list Z) :=
            match vs with
            | [] => Ok []
            | v :: vs' =>
                let? b := memcomparable_encode_with_null_order v false in
                let? bs := go vs' in
                Ok (b ++ bs)
            end) values)
  end.

Definition memcomparable_encode (self : DataValue) : res (list Z) :=
  memcomparable_encode_with_null_order self false.

(** The element loop of the tuple arm. *)
Fixpoint encode_values (vs : list DataValue) : res (list Z) :=
  match vs with
  | [] => Ok []
  | v :: vs' =>
      let? b := memcomparable_encode v in
      let? bs := encode_values vs' in
      Ok (b ++ bs)
  end.

Fixpoint memcomparable_decode (ty : LogicalType) (reader : list Z) : res (DataValue * list Z) :=
  let? (tag, reader) := read_u8 reader in
  if tag =? NULL_TAG then Ok (DataValue.Null, reader)
  else
    let scalar (n : nat) (k : Z -> DataValue) :=
      let? (u, reader) := decode_u n reader in Ok (k u, reader) in
    match ty with
    | LogicalType.SqlNull => Ok (DataValue.Null, reader)
    | LogicalType.Tinyint => scalar 1%nat (fun u => DataValue.Int8 (as_s 8 (Z.lxor u 0x80)))
    | LogicalType.Smallint => scalar 2%nat (fun u => DataValue.Int16 (as_s 16 (Z.lxor u 0x8000)))
    | LogicalType.Integer => scalar 4%nat (fun u => DataValue.Int32 (as_s 32 (Z.lxor u 0x80000000)))
    | LogicalType.Date => scalar 4%nat (fun u => DataValue.Date32 (as_s 32 (Z.lxor u 0x80000000)))
    | LogicalType.Time precision =>
        scalar 4%nat (fun u => DataValue.Time32 u (default 0 precision))
    | LogicalType.Bigint =>
        scalar 8%nat (fun u => DataValue.Int64 (as_s 64 (Z.lxor u 0x8000000000000000)))
    | LogicalType.DateTime =>
        scalar 8%nat (fun u => DataValue.Date64 (as_s 64 (Z.lxor u 0x8000000000000000)))
    | LogicalType.TimeStamp precision zone =>
        scalar 8%nat (fun u => DataValue.Time64 (as_s 64 (Z.lxor u 0x8000000000000000))
                                 (default 0 precision) zone)
    | LogicalType.UTinyint => scalar 1%nat DataValue.UInt8
    | LogicalType.USmallint => scalar 2%nat DataValue.UInt16
    | LogicalType.UInteger => scalar 4%nat DataValue.UInt32
    | LogicalType.UBigint => scalar 8%nat DataValue.UInt64
    | LogicalType.Float => scalar 4%nat (fun u => DataValue.Float32 (decode_float_bits 32 u))
    | LogicalType.Double => scalar 8%nat (fun u => DataValue.Float64 (decode_float_bits 64 u))
    | LogicalType.Boolean =>
        let? (b, reader) := read_u8 reader in Ok (DataValue.Boolean (b =? 0x31), reader)
    | LogicalType.Varchar len unit =>
        let? (bytes, reader) := decode_string reader in
        let? value := from_utf8 bytes in
        Ok (DataValue.Utf8 value (Variable_ len) unit, reader)
    | LogicalType.Char len unit =>
        let? (bytes, reader) := decode_string reader in
        let? value := from_utf8 bytes in
        Ok (DataValue.Utf8 value (Fixed len) unit, reader)
    | LogicalType.Decimal _ _ => Err UnsupportedStmt
    | LogicalType.Tuple tys =>
        let? (values, reader) :=
          (fix go (tys : list LogicalType) (reader : list Z) : res (list DataValue * list Z) :=
             match tys with
             | [] => Ok ([], reader)
             | ty :: tys' =>
                 let? (v, reader) := memcomparable_decode ty reader in
                 let? (vs, reader) := go tys' reader in
                 Ok (v :: vs, reader)
             end) tys reader in
        Ok (DataValue.Tuple values, reader)
    end.

Fixpoint decode_values (tys : list LogicalType) (reader : list Z) : res (list DataValue * list Z) :=
  match tys with
  | [] => Ok ([], reader)
  | ty :: tys' =>
      let? (v, reader) := memcomparable_decode ty reader in
      let? (vs, reader) := decode_values tys' reader in
      Ok (v :: vs, reader)
  end.

(** * What the encoding is defined for *)

(** [v] is a value a column of type [ty] holds. *)
Fixpoint has_type (v : DataValue) (ty : LogicalType) : Prop :=
  match v, ty with
  | DataValue.Null, _ => True
  | DataValue.Boolean _, LogicalType.Boolean => True
  | DataValue.Float32 _, LogicalType.Float => True
  | DataValue.Float64 _, LogicalType.Double => True
  | DataValue.Int8 _, LogicalType.Tinyint => True
  | DataValue.Int16 _, LogicalType.Smallint => True
  | DataValue.Int32 _, LogicalType.Integer => True
  | DataValue.Int64 _, LogicalType.Bigint => True
  | DataValue.UInt8 _, LogicalType.UTinyint => True
  | DataValue.UInt16 _, LogicalType.USmallint => True
  | DataValue.UInt32 _, LogicalType.UInteger => True
  | DataValue.UInt64 _, LogicalType.UBigint => True
  | DataValue.Utf8 _ t u, LogicalType.Varchar l' u' => t = Variable_ l' /\ u = u'
  | DataValue.Utf8 _ t u, LogicalType.Char l' u' => t = Fixed l' /\ u = u'
  | DataValue.Date32 _, LogicalType.Date => True
  | DataValue.Date64 _, LogicalType.DateTime => True
  | DataValue.Time32 _ p, LogicalType.Time p' => p = default 0 p'
  | DataValue.Time64 _ p z, LogicalType.TimeStamp p' z' => p = default 0 p' /\ z = z'
  | DataValue.Tuple vs, LogicalType.Tuple ts =>
      (fix go (vs : list DataValue) (ts : list LogicalType) : Prop :=
         match vs, ts with
         | [], [] => True
         | v :: vs', t :: ts' => has_type v t /\ go vs' ts'
         | _, _ => False
         end) vs ts
  | _, _ => False
  end.

(** No float in the value is a NaN. *)
Fixpoint no_nan (v : DataValue) : Prop :=
  match v with
  | DataValue.Float32 b => is_nan_bits 32 f32_inf b = false
  | DataValue.Float64 b => is_nan_bits 64 f64_inf b = false
  | DataValue.Tuple vs => all_of no_nan vs
  | _ => True
  end.

(** A value the keys are built from. *)
Definition key_value (v : DataValue) (ty : LogicalType) : Prop :=
  dv_ok v /\ has_type v ty /\ no_nan v.

(** * Strings *)

Lemma lex_cmp_longer (p s b : list Z) :
  (length b < length p)%nat -> lex_cmp (p ++ s) b = lex_cmp p b.
Proof.
  revert b. induction p as [|x p IH]; intros [|y b] H; simpl in *; try lia; [done|].
  rewrite IH by lia. done.
Qed.

(** Zero padding loses against any non-empty tail once the marker is smaller. *)
Lemma lex_zeros_lt (n : nat) (b : list Z) (p q : Z) :
  bytes_ok b -> (length b <= n)%nat -> p < q ->
  lex_cmp (replicate n 0 ++ [p]) (b ++ replicate (n - length b) 0 ++ [q]) = Lt.
Proof.
  revert b. induction n as [|n IH]; intros b Hb Hlen Hpq.
  - destruct b; simpl in *; [|lia]. by rewrite (proj2 (Z.compare_lt_iff p q)).
  - destruct b as [|y b]; simpl.
    + specialize (IH [] (Forall_nil _) ltac:(simpl; lia) Hpq). simpl in IH.
      by rewrite Nat.sub_0_r in IH.
    + apply Forall_cons_1 in Hb as [Hy Hb]. unfold byte_ok in Hy.
      destruct y; simpl; [apply IH; simpl in *; done || lia|done|lia].
Qed.

(** One group: the data padded with zeros, then a marker that grows with the length. *)
Lemma lex_cmp_group (n : nat) (a b : list Z) (p q : Z) :
  bytes_ok a -> bytes_ok b -> (length a <= n)%nat -> (length b <= n)%nat ->
  (p ?= q) = (Z.of_nat (length a) ?= Z.of_nat (length b)) ->
  lex_cmp (a ++ replicate (n - length a) 0 ++ [p]) (b ++ replicate (n - length b) 0 ++ [q])
  = lex_cmp a b.
Proof.
  revert a b. induction n as [|n IH]; intros a b Ha Hb Hla Hlb Hpq.
  - destruct a, b; simpl in *; try lia. by rewrite Hpq.
  - destruct a as [|x a], b as [|y b].
    + cbn [app length]. rewrite lex_cmp_app_l. cbn [lex_cmp]. by rewrite Hpq.
    + change (lex_cmp [] (y :: b)) with Lt.
      assert (p < q) by (change ((p ?= q) = Lt); rewrite Hpq; done).
      by apply (lex_zeros_lt (S n) (y :: b)).
    + change (lex_cmp (x :: a) []) with Gt.
      assert (q < p) by (apply Z.gt_lt; change ((p ?= q) = Gt); rewrite Hpq; done).
      rewrite lex_cmp_antisym. pose proof (lex_zeros_lt (S n) (x :: a) q p Ha Hla H) as E.
      cbn [app length Nat.sub] in *. by rewrite E.
    + apply Forall_cons_1 in Ha as [_ Ha], Hb as [_ Hb]. cbn [app length Nat.sub lex_cmp] in *.
      rewrite IH; try done; try lia.
      rewrite !Nat2Z.inj_succ, <- !Z.add_1_l, Zcompare_add_l in Hpq. done.
Qed.

Lemma drop8_bytes_ok (a : list Z) (n : nat) : bytes_ok a -> bytes_ok (drop n a) /\ bytes_ok (take n a).
Proof. intros. split; [by apply Forall_drop|by apply Forall_take]. Qed.

(** Fuel beyond the number of groups changes nothing. *)
Lemma encode_string_loop_fuel (f1 f2 : nat) (a : list Z) :
  (length a < 8 * f1)%nat -> (length a < 8 * f2)%nat ->
  encode_string_loop f1 a = encode_string_loop f2 a.
Proof.
  revert f2 a. induction f1 as [|f1 IH]; intros [|f2] a H1 H2; try lia.
  cbn [encode_string_loop]. unfold ENCODE_GROUP_SIZE.
  destruct (8 <=? length a)%nat eqn:E; [|done].
  apply Nat.leb_le in E. do 2 f_equal. apply IH; rewrite length_drop; lia.
Qed.

Lemma needed_groups_enough (a : list Z) : (length a < 8 * (length a / ENCODE_GROUP_SIZE + 1))%nat.
Proof.
  unfold ENCODE_GROUP_SIZE.
  pose proof (Nat.div_mod_eq (length a) 8). pose proof (Nat.mod_upper_bound (length a) 8 ltac:(lia)). lia.
Qed.

Lemma encode_string_short (a : list Z) :
  (length a < 8)%nat ->
  encode_string a = a ++ replicate (8 - length a) 0 ++ [ENCODE_MARKER - Z.of_nat (8 - length a)].
Proof.
  intros H. unfold encode_string. rewrite Nat.add_1_r. cbn [encode_string_loop].
  unfold ENCODE_GROUP_SIZE. by rewrite (proj2 (Nat.leb_gt _ _)).
Qed.

Lemma encode_string_long (a : list Z) :
  (8 <= length a)%nat ->
  encode_string a = take 8 a ++ [ENCODE_MARKER] ++ encode_string (drop 8 a).
Proof.
  intros H. unfold encode_string at 1. rewrite Nat.add_1_r. cbn [encode_string_loop].
  rewrite (proj2 (Nat.leb_le ENCODE_GROUP_SIZE _)) by done. unfold ENCODE_GROUP_SIZE at 1 3.
  do 2 f_equal.
  apply encode_string_loop_fuel; rewrite length_drop.
  - pose proof (needed_groups_enough a). unfold ENCODE_GROUP_SIZE in *. lia.
  - pose proof (needed_groups_enough (drop 8 a)) as Hn. by rewrite length_drop in Hn.
Qed.

(** The length the code reserves is the length written. *)
Lemma length_encode_string (a : list Z) :
  length (encode_string a) = (9 * (length a / 8 + 1))%nat.
Proof.
  remember (length a) as n eqn:Hn. revert a Hn.
  induction n as [n IH] using lt_wf_ind. intros a Hn.
  destruct (decide (length a < 8)%nat).
  - rewrite encode_string_short by done. rewrite !length_app, length_replicate. simpl length.
    rewrite Hn, Nat.div_small by done. lia.
  - rewrite encode_string_long by lia. rewrite !length_app, length_take_le by lia.
    rewrite (IH (length (drop 8 a))) by (rewrite ?length_drop; lia || done).
    rewrite length_drop, Hn. simpl length.
    replace (length a) with (1 * 8 + (length a - 8))%nat at 2 by lia.
    rewrite Nat.div_add_l by lia. lia.
Qed.

Lemma group_lengths (a : list Z) :
  (length a <= 8)%nat ->
  length (a ++ replicate (8 - length a) 0 ++ [ENCODE_MARKER - Z.of_nat (8 - length a)]) = 9%nat.
Proof. intros. rewrite !length_app, length_replicate. simpl. lia. Qed.

(** Comparing two groups compares the data in them, and decides. *)
Lemma lex_embed_group (a b : list Z) :
  bytes_ok a -> bytes_ok b -> (length a <= 8)%nat -> (length b <= 8)%nat ->
  lex_embed (a ++ replicate (8 - length a) 0 ++ [ENCODE_MARKER - Z.of_nat (8 - length a)])
            (b ++ replicate (8 - length b) 0 ++ [ENCODE_MARKER - Z.of_nat (8 - length b)])
            (lex_cmp a b).
Proof.
  intros Ha Hb Hla Hlb.
  rewrite <- (lex_cmp_group 8 a b (ENCODE_MARKER - Z.of_nat (8 - length a))
    (ENCODE_MARKER - Z.of_nat (8 - length b))); try done.
  - apply lex_embed_len. by rewrite !group_lengths.
  - rewrite <- (Zcompare_add_l (Z.of_nat (length a)) _ 247). unfold ENCODE_MARKER. f_equal; lia.
Qed.

Lemma lex_cmp_lens_ne (a b : list Z) : length a <> length b -> lex_cmp a b <> Eq.
Proof. intros H E. apply lex_cmp_eq in E. by subst. Qed.

(** A full group is a group with no padding. *)
Lemma full_group (a : list Z) :
  (8 <= length a)%nat ->
  take 8 a ++ [ENCODE_MARKER] =
  take 8 a ++ replicate (8 - length (take 8 a)) 0 ++ [ENCODE_MARKER - Z.of_nat (8 - length (take 8 a))].
Proof. intros. by rewrite length_take_le by lia. Qed.

Lemma lex_embed_string (a b : list Z) :
  bytes_ok a -> bytes_ok b -> lex_embed (encode_string a) (encode_string b) (lex_cmp a b).
Proof.
  remember (length a) as n eqn:Hn. revert a b Hn.
  induction n as [n IH] using lt_wf_ind. intros a b Hn Ha Hb. subst n.
  destruct (drop8_bytes_ok a 8 Ha) as [Hda Hta], (drop8_bytes_ok b 8 Hb) as [Hdb Htb].
  destruct (decide (length a < 8)%nat), (decide (length b < 8)%nat).
  - rewrite !encode_string_short by done. apply lex_embed_group; done || lia.
  - rewrite (encode_string_short a), (encode_string_long b) by lia.
    rewrite (assoc_L app (take 8 b)), full_group by lia.
    rewrite <- (app_nil_r (a ++ _)).
    assert (lex_cmp a b = lex_cmp a (take 8 b)) as ->.
    { rewrite (lex_cmp_antisym b a), (lex_cmp_antisym (take 8 b) a).
      rewrite <- (take_drop 8 b) at 1. rewrite lex_cmp_longer; [done|]. rewrite length_take_le; lia. }
    apply lex_embed_app_ne; [apply lex_embed_group; done || rewrite ?length_take; lia|].
    apply lex_cmp_lens_ne. rewrite length_take_le; lia.
  - rewrite (encode_string_long a), (encode_string_short b) by lia.
    rewrite (assoc_L app (take 8 a)), full_group by lia.
    rewrite <- (app_nil_r (b ++ _)).
    assert (lex_cmp a b = lex_cmp (take 8 a) b) as ->.
    { rewrite <- (take_drop 8 a) at 1. apply lex_cmp_longer. rewrite length_take_le; lia. }
    apply lex_embed_app_ne; [apply lex_embed_group; done || rewrite ?length_take; lia|].
    apply lex_cmp_lens_ne. rewrite length_take_le; lia.
  - rewrite (encode_string_long a), (encode_string_long b) by lia.
    rewrite (assoc_L app (take 8 a)), (assoc_L app (take 8 b)), (full_group a), (full_group b) by lia.
    assert (lex_cmp a b =
      cmp_then (lex_cmp (take 8 a) (take 8 b)) (lex_cmp (drop 8 a) (drop 8 b))) as ->.
    { rewrite <- (take_drop 8 a) at 1. rewrite <- (take_drop 8 b) at 1.
      apply lex_cmp_app_len. rewrite !length_take_le; lia. }
    apply lex_embed_app; [apply lex_embed_group; done || rewrite ?length_take; lia|].
    eapply IH; [|done|done|done]. rewrite length_drop. lia.
Qed.

Lemma decode_group (fuel : nat) (acc a r : list Z) :
  (length a <= 8)%nat ->
  decode_string_loop (S fuel) acc
    ((a ++ replicate (8 - length a) 0 ++ [ENCODE_MARKER - Z.of_nat (8 - length a)]) ++ r) =
  if (length a =? 8)%nat then decode_string_loop fuel (acc ++ a) r else Ok (acc ++ a, r).
Proof.
  intros H. cbn [decode_string_loop].
  rewrite (assoc_L app a), <- (assoc_L app _ [_] r), read_exact_app
    by (rewrite length_app, length_replicate; unfold ENCODE_GROUP_SIZE; lia).
  cbn [rbind app read_u8]. unfold ENCODE_MARKER, ENCODE_GROUP_SIZE.
  replace (Z.to_nat (255 - (255 - Z.of_nat (8 - length a)))) with (8 - length a)%nat by lia.
  rewrite (proj2 (Nat.ltb_ge _ _)) by lia.
  replace (8 - (8 - length a))%nat with (length a) by lia. rewrite take_app_length.
  destruct (Nat.eqb_spec (8 - length a) 0), (Nat.eqb_spec (length a) 8); done || lia.
Qed.

Lemma decode_string_loop_encode (a acc r : list Z) (fuel : nat) :
  (length a < 8 * fuel)%nat ->
  decode_string_loop fuel acc (encode_string a ++ r) = Ok (acc ++ a, r).
Proof.
  revert a acc. induction fuel as [|fuel IH]; intros a acc Hf; [lia|].
  destruct (decide (length a < 8)%nat).
  - rewrite encode_string_short, decode_group by lia.
    by rewrite (proj2 (Nat.eqb_neq _ _)) by lia.
  - rewrite encode_string_long, (assoc_L app (take 8 a)), full_group, <- (assoc_L app _ _ r) by lia.
    rewrite decode_group by (rewrite length_take; lia).
    rewrite length_take_le, IH by (rewrite ?length_drop; lia). simpl.
    by rewrite <- (assoc_L app), take_drop.
Qed.

Lemma decode_encode_string (a r : list Z) : decode_string (encode_string a ++ r) = Ok (a, r).
Proof.
  unfold decode_string. rewrite decode_string_loop_encode; [done|].
  rewrite length_app, length_encode_string.
  pose proof (needed_groups_enough a). unfold ENCODE_GROUP_SIZE in *. lia.
Qed.

(** * Scalars *)

Section Scalars.
(** An [n]-byte integer of width [w]. *)
Context (n : nat) (w : Z) (Hw : 0 < w) (Hn : 2 ^ w = 256 ^ Z.of_nat n).

Lemma lex_embed_signed (top v v' : Z) :
  top = 2 ^ (w - 1) -> in_s w v -> in_s w v' ->
  lex_embed (encode_u n (Z.lxor (as_u w v) top)) (encode_u n (Z.lxor (as_u w v') top)) (v ?= v').
Proof.
  intros -> Hv Hv'. unfold encode_u.
  pose proof (flip_sign_range w v Hw Hv) as R. pose proof (flip_sign_range w v' Hw Hv') as R'.
  rewrite (flip_sign w v), (flip_sign w v') in * by done.
  unfold in_u in R, R'. rewrite Hn in R, R'.
  rewrite <- (Zcompare_add_l v v' (2 ^ (w - 1))), !(Z.add_comm (2 ^ (w - 1))).
  by apply lex_embed_be_bytes.
Qed.

Lemma lex_embed_unsigned (v v' : Z) :
  in_u w v -> in_u w v' -> lex_embed (encode_u n v) (encode_u n v') (v ?= v').
Proof. unfold in_u. rewrite Hn. intros. by apply lex_embed_be_bytes. Qed.

Lemma decode_u_app (u : Z) (r : list Z) : in_u w u -> decode_u n (encode_u n u ++ r) = Ok (u, r).
Proof.
  unfold in_u. rewrite Hn. intros Hu. unfold decode_u, encode_u.
  rewrite read_exact_app by apply length_to_be_bytes. simpl. by rewrite from_to_be_bytes.
Qed.

Lemma decode_u_signed (top v : Z) (r : list Z) :
  top = 2 ^ (w - 1) -> in_s w v ->
  exists u, decode_u n (encode_u n (Z.lxor (as_u w v) top) ++ r) = Ok (u, r) /\
    as_s w (Z.lxor u top) = v.
Proof.
  intros -> Hv. eexists. split.
  - apply decode_u_app. by apply flip_sign_range.
  - by apply unflip_sign.
Qed.

(** Floats of width [w]. *)
Context (inf : Z).

Lemma float_key_range (bits : Z) :
  in_u w bits -> - 2 ^ (w - 1) < float_key w bits < 2 ^ (w - 1).
Proof.
  unfold in_u, float_key. pose proof (pow2_half w Hw). pose proof (pow2_pos (w - 1) ltac:(lia)).
  destruct (Z.ltb_spec bits (2 ^ (w - 1))); lia.
Qed.

Lemma encode_float_key (bits : Z) :
  in_u w bits -> is_nan_bits w inf bits = false ->
  encode_float_bits w inf bits =
  if 0 <=? float_key w bits then float_key w bits + 2 ^ (w - 1)
  else float_key w bits + 2 ^ (w - 1) - 1.
Proof.
  intros Hb Hnan. unfold encode_float_bits, float_ge0. rewrite Hnan. simpl.
  unfold in_u in Hb. pose proof (pow2_half w Hw). pose proof (pow2_pos (w - 1) ltac:(lia)).
  unfold float_key, not_u. destruct (Z.ltb_spec bits (2 ^ (w - 1))).
  - rewrite (proj2 (Z.leb_le _ _)) by lia. by rewrite lor_pow2_small by lia.
  - destruct (Z.leb_spec 0 (- (bits - 2 ^ (w - 1)))); [|lia].
    rewrite lor_pow2_big; [lia|lia|]. replace (w - 1 + 1) with w by lia. lia.
Qed.

Lemma encode_float_range (bits : Z) :
  in_u w bits -> is_nan_bits w inf bits = false -> in_u w (encode_float_bits w inf bits).
Proof.
  intros Hb Hnan. rewrite encode_float_key by done. pose proof (float_key_range bits Hb).
  pose proof (pow2_half w Hw). unfold in_u. destruct (Z.leb_spec 0 (float_key w bits)); lia.
Qed.

Lemma lex_embed_float (a b : Z) :
  in_u w a -> in_u w b -> is_nan_bits w inf a = false -> is_nan_bits w inf b = false ->
  lex_embed (encode_u n (encode_float_bits w inf a)) (encode_u n (encode_float_bits w inf b))
    (float_key w a ?= float_key w b).
Proof.
  intros Ha Hb Hna Hnb.
  assert ((encode_float_bits w inf a ?= encode_float_bits w inf b) =
          (float_key w a ?= float_key w b)) as <-.
  { rewrite !encode_float_key by done.
    set (f k := if 0 <=? k then k + 2 ^ (w - 1) else k + 2 ^ (w - 1) - 1).
    apply (Zcompare_mono f (fun _ => True)); [|done..]. intros x y _ _ Hxy. unfold f.
    destruct (Z.leb_spec 0 x), (Z.leb_spec 0 y); lia. }
  apply lex_embed_unsigned; by apply encode_float_range.
Qed.

(** Decoding gives the same bits, except that it maps [-0.0] to [0.0]. *)
Lemma decode_encode_float (bits : Z) :
  in_u w bits -> is_nan_bits w inf bits = false ->
  decode_float_bits w (encode_float_bits w inf bits) = if float_key w bits =? 0 then 0 else bits.
Proof.
  intros Hb Hnan. rewrite encode_float_key by done. unfold in_u in Hb.
  pose proof (pow2_half w Hw). pose proof (pow2_pos (w - 1) ltac:(lia)).
  unfold decode_float_bits, not_u, float_key. replace (2 ^ w) with (2 ^ (w - 1 + 1)) by (f_equal; lia).
  assert (2 ^ (w - 1 + 1) = 2 ^ (w - 1) + 2 ^ (w - 1)) by (replace (w - 1 + 1) with w by lia; lia).
  destruct (Z.ltb_spec bits (2 ^ (w - 1))).
  - rewrite (proj2 (Z.leb_le _ _)), land_pow2_big, (proj2 (Z.eqb_neq _ _)), ldiff_pow2_big by lia.
    destruct (Z.eqb_spec bits 0); lia.
  - destruct (Z.leb_spec 0 (- (bits - 2 ^ (w - 1)))).
    + rewrite land_pow2_big, (proj2 (Z.eqb_neq _ _)), ldiff_pow2_big, (proj2 (Z.eqb_eq _ _)) by lia. lia.
    + rewrite land_pow2_small, Z.eqb_refl, (proj2 (Z.eqb_neq _ _)) by lia. lia.
Qed.
End Scalars.

(** * Whole values *)

Definition null_tag (nulls_first : bool) : Z := if nulls_first then NOTNULL_TAG else NULL_TAG.
Definition not_null_tag (nulls_first : bool) : Z := if nulls_first then NULL_TAG else NOTNULL_TAG.

(** What follows the tag. *)
Definition encode_payload (v : DataValue) : res (list Z) :=
  match v with
  | DataValue.Null => Ok []
  | DataValue.Parameter_ _ _ => Err InvalidValue
  | DataValue.Int8 v => Ok (encode_u 1 (Z.lxor (as_u 8 v) 0x80))
  | DataValue.Int16 v => Ok (encode_u 2 (Z.lxor (as_u 16 v) 0x8000))
  | DataValue.Int32 v | DataValue.Date32 v => Ok (encode_u 4 (Z.lxor (as_u 32 v) 0x80000000))
  | DataValue.Int64 v | DataValue.Date64 v | DataValue.Time64 v _ _ =>
      Ok (encode_u 8 (Z.lxor (as_u 64 v) 0x8000000000000000))
  | DataValue.UInt8 v => Ok (encode_u 1 v)
  | DataValue.UInt16 v => Ok (encode_u 2 v)
  | DataValue.UInt32 v | DataValue.Time32 v _ => Ok (encode_u 4 v)
  | DataValue.UInt64 v => Ok (encode_u 8 v)
  | DataValue.Utf8 v _ _ => Ok (encode_string v)
  | DataValue.Boolean v => Ok [if v then 0x31 else 0x30]
  | DataValue.Float32 f => Ok (encode_u 4 (encode_float_bits 32 f32_inf f))
  | DataValue.Float64 f => Ok (encode_u 8 (encode_float_bits 64 f64_inf f))
  | DataValue.Tuple vs => encode_values vs
  end.

Lemma encode_tagged (v : DataValue) (nf : bool) :
  memcomparable_encode_with_null_order v nf =
  if is_null v then Ok [null_tag nf]
  else let? b := encode_payload v in Ok (not_null_tag nf :: b).
Proof. by destruct v. Qed.

Lemma has_type_tuple (vs : list DataValue) (ts : list LogicalType) :
  has_type (DataValue.Tuple vs) (LogicalType.Tuple ts) <-> Forall2 has_type vs ts.
Proof.
  revert ts. induction vs as [|v vs IH]; intros [|t ts]; simpl.
  - split; [by constructor|done].
  - split; [done|by inversion 1].
  - split; [done|by inversion 1].
  - specialize (IH ts). simpl in IH. split.
    + intros [Hv Hvs]. constructor; [done|]. by apply IH.
    + inversion 1; subst. split; [done|]. by apply IH.
Qed.

Lemma key_value_tuple (vs : list DataValue) (ty : LogicalType) :
  key_value (DataValue.Tuple vs) ty ->
  exists ts, ty = LogicalType.Tuple ts /\ Forall2 key_value vs ts.
Proof.
  intros (Hok & Hty & Hn). destruct ty; try done. eexists. split; [done|].
  apply has_type_tuple in Hty. simpl in Hok, Hn. apply all_of_Forall in Hok, Hn.
  induction Hty as [|v t vs ts Hv Hvs IH]; [by constructor|].
  apply Forall_cons_1 in Hok as [? ?], Hn as [? ?]. constructor; [done|by apply IH].
Qed.

Section Order.
Context {OF : OrderedFloat}.

(** The comparison the sort executor asks for: [tuple_element_partial_cmp]
    with nulls on the requested side. *)
Definition null_order_cmp (nulls_first : bool) (a b : DataValue) : option comparison :=
  match is_null a, is_null b with
  | true, true => Some Eq
  | true, false => Some (if nulls_first then Lt else Gt)
  | false, true => Some (if nulls_first then Gt else Lt)
  | false, false => partial_cmp a b
  end.

Lemma null_order_last (a b : DataValue) :
  null_order_cmp false a b = tuple_element_partial_cmp a b.
Proof. by rewrite tuple_element_by_null. Qed.

(** The payloads of two non-null values of one type are ordered like the values. *)
Definition payload_ordered (v w : DataValue) : Prop :=
  exists pv pw c, encode_payload v = Ok pv /\ encode_payload w = Ok pw /\
    partial_cmp v w = Some c /\ lex_embed pv pw c.

(** The encodings of two values are ordered like the values. *)
Definition encoding_ordered (nf : bool) (v w : DataValue) : Prop :=
  exists ev ew c, memcomparable_encode_with_null_order v nf = Ok ev /\
    memcomparable_encode_with_null_order w nf = Ok ew /\
    null_order_cmp nf v w = Some c /\ lex_embed ev ew c.

Lemma encode_payload_ok (v : DataValue) (ty : LogicalType) :
  key_value v ty -> exists p, encode_payload v = Ok p.
Proof.
  revert ty. induction v as [v Hv|vs IH] using DataValue_ind'; intros ty H.
  - destruct v; try (exfalso; exact (Hv _ eq_refl)); simpl; eauto. by destruct H as (_ & ? & _).
  - apply key_value_tuple in H as (ts & -> & H). simpl.
    induction H as [|v t vs ts Hv Hvs IH']; [by eexists|].
    apply Forall_cons_1 in IH as [IHv IHvs]. destruct (IH' IHvs) as [bs Hbs].
    destruct (IHv t Hv) as [p Hp]. simpl. rewrite Hbs. unfold memcomparable_encode.
    rewrite encode_tagged, Hp. destruct (is_null v); simpl; eauto.
Qed.

Lemma tag_ordered (nf : bool) (v w : DataValue) (tv tw : LogicalType) :
  key_value v tv -> key_value w tw ->
  (is_null v = false -> is_null w = false -> payload_ordered v w) ->
  encoding_ordered nf v w.
Proof.
  intros Hv Hw H. unfold encoding_ordered, null_order_cmp. rewrite !encode_tagged.
  destruct (encode_payload_ok v tv Hv) as [pv Ev], (encode_payload_ok w tw Hw) as [pw Ew].
  rewrite Ev, Ew. cbn [rbind].
  destruct (is_null v), (is_null w).
  - eexists _, _, _. repeat split; try done. apply lex_embed_same.
  - eexists _, _, _. repeat split; try done. change (not_null_tag nf :: pw) with ([not_null_tag nf] ++ pw).
    rewrite <- (app_nil_r [null_tag nf]).
    apply lex_embed_app_ne; [|by destruct nf]. by destruct nf; apply lex_embed_byte.
  - eexists _, _, _. repeat split; try done. change (not_null_tag nf :: pv) with ([not_null_tag nf] ++ pv).
    rewrite <- (app_nil_r [null_tag nf]).
    apply lex_embed_app_ne; [|by destruct nf]. by destruct nf; apply lex_embed_byte.
  - destruct (H eq_refl eq_refl) as (pv' & pw' & c & E1 & E2 & Hc & He).
    rewrite Ev in E1. rewrite Ew in E2. simplify_eq.
    eexists _, _, c. repeat split; try done.
    apply (lex_embed_app [_] [_] pv' pw' Eq c); [apply lex_embed_same|done].
Qed.

Lemma values_ordered (vs ws : list DataValue) (ts : list LogicalType) :
  Forall (fun v => forall w ty, key_value v ty -> key_value w ty -> encoding_ordered false v w) vs ->
  Forall2 key_value vs ts -> Forall2 key_value ws ts ->
  exists pv pw c, encode_values vs = Ok pv /\ encode_values ws = Ok pw /\
    tuple_partial_cmp vs ws false false = Some c /\ lex_embed pv pw c.
Proof.
  intros IH Hvs. revert ws IH. induction Hvs as [|v t vs ts Hv Hvs IH']; intros ws IH Hws.
  - inversion Hws; subst. eexists [], [], Eq. repeat split; eauto with kite.
  - inversion Hws as [|w ? ws' ? Hw Hws']; subst. apply Forall_cons_1 in IH as [IHv IHvs].
    destruct (IHv w t Hv Hw) as (ev & ew & c & E1 & E2 & Hc & He).
    destruct (IH' ws' IHvs Hws') as (pv & pw & d & E3 & E4 & Hd & Hp).
    rewrite null_order_last in Hc. unfold tuple_partial_cmp in *. cbn [encode_values tuple_partial_cmp_with].
    unfold memcomparable_encode. rewrite E1, E2, E3, E4, Hc. cbn [rbind].
    eexists _, _, (cmp_then c d). repeat split; [by destruct c|by apply lex_embed_app].
Qed.

Lemma payloads_ordered (v w : DataValue) (ty : LogicalType) :
  key_value v ty -> key_value w ty -> is_null v = false -> is_null w = false -> payload_ordered v w.
Proof.
  revert w ty. induction v as [v Hv|vs IH] using DataValue_ind'; intros w ty Kv Kw Nv Nw.
  - destruct Kv as (Ov & Tv & Fv), Kw as (Ow & Tw & Fw).
    destruct v; try (exfalso; exact (Hv _ eq_refl)); try done;
      destruct ty; try done; destruct w; try done;
      (eexists _, _, _; split; [reflexivity|split; [reflexivity|split; [reflexivity|]]]);
      first
        [ by (apply (lex_embed_signed _ 8)) | by (apply (lex_embed_signed _ 16))
        | by (apply (lex_embed_signed _ 32)) | by (apply (lex_embed_signed _ 64))
        | by (apply (lex_embed_unsigned _ 8)) | by (apply (lex_embed_unsigned _ 16))
        | by (apply (lex_embed_unsigned _ 32)) | by (apply (lex_embed_unsigned _ 64))
        | idtac ].
    + by destruct b, b0; apply lex_embed_byte.
    + rewrite of_cmp_num by done. by apply (lex_embed_float _ 32).
    + rewrite of_cmp_num by done. by apply (lex_embed_float _ 64).
    + by apply lex_embed_string; [apply Ov|apply Ow].
    + by apply lex_embed_string; [apply Ov|apply Ow].
    + apply (lex_embed_unsigned _ 32); done || apply Ov || apply Ow.
    + apply (lex_embed_signed _ 64); done || apply Ov || apply Ow.
  - pose proof Kw as (_ & Tw & _).
    apply key_value_tuple in Kv as (ts & -> & Kv). destruct w; try done.
    apply key_value_tuple in Kw as (ts' & E & Kw). simplify_eq.
    unfold payload_ordered. rewrite partial_cmp_tuple. apply (values_ordered _ _ ts'); try done.
    eapply Forall_impl; [|exact IH]. intros v Hv w ty Kv' Kw'.
    by eapply tag_ordered; [..|intros ? ?; eapply Hv].
Qed.

Lemma encodings_ordered (nulls_first : bool) (v w : DataValue) (ty : LogicalType) :
  key_value v ty -> key_value w ty -> encoding_ordered nulls_first v w.
Proof. intros Kv Kw. eapply tag_ordered; [done|done|]. intros. by eapply payloads_ordered. Qed.

(** The element-wise version, for keys of several values. *)
Lemma encoded_values_ordered (vs ws : list DataValue) (ts : list LogicalType) :
  Forall2 key_value vs ts -> Forall2 key_value ws ts ->
  exists pv pw c, encode_values vs = Ok pv /\ encode_values ws = Ok pw /\
    tuple_partial_cmp vs ws false false = Some c /\ lex_embed pv pw c.
Proof.
  intros Hv Hw. apply (values_ordered vs ws ts); [|done|done].
  apply Forall_forall. intros v _ w ty. apply encodings_ordered.
Qed.

End Order.

Lemma key_value_no_parameter (v : DataValue) (ty : LogicalType) :
  key_value v ty -> has_parameter v = false.
Proof.
  revert ty. induction v as [v Hv|vs IH] using DataValue_ind'; intros ty K.
  - destruct K as (_ & T & _). by destruct v; try (exfalso; exact (Hv _ eq_refl)).
  - apply key_value_tuple in K as (ts & -> & K). simpl.
    induction K as [|v t vs ts Hv _ IHl]; [done|]. apply Forall_cons_1 in IH as [IHv IH]. simpl.
    by rewrite (IHv t Hv), IHl.
Qed.

(** * Decoding *)

(** [-0.0] and [0.0] share an encoding; every other value is kept. *)
Definition canon_float (w bits : Z) : Z := if float_key w bits =? 0 then 0 else bits.

Fixpoint canon (v : DataValue) : DataValue :=
  match v with
  | DataValue.Float32 b => DataValue.Float32 (canon_float 32 b)
  | DataValue.Float64 b => DataValue.Float64 (canon_float 64 b)
  | DataValue.Tuple vs => DataValue.Tuple (map canon vs)
  | v => v
  end.

Lemma decode_tuple_values (tys : list LogicalType) (r : list Z) :
  memcomparable_decode (LogicalType.Tuple tys) (NOTNULL_TAG :: r) =
  let? (vs, r') := decode_values tys r in Ok (DataValue.Tuple vs, r').
Proof. done. Qed.

Definition decodes (v : DataValue) (ty : LogicalType) : Prop :=
  exists e, memcomparable_encode v = Ok e /\
    forall r, memcomparable_decode ty (e ++ r) = Ok (canon v, r).

Lemma decode_values_app (vs : list DataValue) (ts : list LogicalType) :
  Forall2 decodes vs ts ->
  exists e, encode_values vs = Ok e /\
    forall r, decode_values ts (e ++ r) = Ok (map canon vs, r).
Proof.
  induction 1 as [|v t vs ts (e & E & D) _ (es & Es & Ds)].
  - by exists [].
  - exists (e ++ es). cbn [encode_values decode_values]. rewrite E, Es. split; [done|].
    intros r. rewrite <- (assoc_L app), D. cbn [rbind]. by rewrite Ds.
Qed.

Lemma decode_unsigned (n : nat) (w u : Z) (k : Z -> DataValue) (r : list Z) :
  2 ^ w = 256 ^ Z.of_nat n -> in_u w u ->
  (let? (u', r') := decode_u n (encode_u n u ++ r) in Ok (k u', r')) = Ok (k u, r) :> res _.
Proof. intros Hn Hu. by rewrite (decode_u_app n w). Qed.

Lemma decode_signed (n : nat) (w top v : Z) (k : Z -> DataValue) (r : list Z) :
  0 < w -> 2 ^ w = 256 ^ Z.of_nat n -> top = 2 ^ (w - 1) -> in_s w v ->
  (let? (u, r') := decode_u n (encode_u n (Z.lxor (as_u w v) top) ++ r) in
   Ok (k (as_s w (Z.lxor u top)), r')) = Ok (k v, r) :> res _.
Proof.
  intros Hw Hn Ht Hv. destruct (decode_u_signed n w Hw Hn top v r Ht Hv) as (u & -> & E).
  cbn [rbind]. by rewrite E.
Qed.

Lemma decode_float (n : nat) (w inf b : Z) (k : Z -> DataValue) (r : list Z) :
  0 < w -> 2 ^ w = 256 ^ Z.of_nat n -> in_u w b -> is_nan_bits w inf b = false ->
  (let? (u, r') := decode_u n (encode_u n (encode_float_bits w inf b) ++ r) in
   Ok (k (decode_float_bits w u), r')) = Ok (k (canon_float w b), r) :> res _.
Proof.
  intros Hw Hn Hb Hnan.
  rewrite (decode_unsigned n w _ (fun u => k (decode_float_bits w u)))
    by (done || by apply (encode_float_range n)).
  by rewrite decode_encode_float.
Qed.

Lemma decode_utf8 (s : list Z) (k : list Z -> DataValue) (r : list Z) :
  utf8_valid s = true ->
  (let? (bytes, r') := decode_string (encode_string s ++ r) in
   let? value := from_utf8 bytes in Ok (k value, r')) = Ok (k s, r) :> res _.
Proof.
  intros Hs. rewrite decode_encode_string. cbn [rbind]. unfold from_utf8. by rewrite Hs.
Qed.

Lemma decodes_scalar (v : DataValue) (ty : LogicalType) :
  (forall vs, v <> DataValue.Tuple vs) -> key_value v ty -> decodes v ty.
Proof.
  intros Hv (Ov & Tv & Fv).
  destruct v; try (exfalso; exact (Hv _ eq_refl)); try done;
    [by exists [NULL_TAG]; split; [|destruct ty]|..];
    destruct ty; try done; (eexists; split; [reflexivity|intros r]);
    cbn -[decode_u encode_u decode_string encode_string encode_float_bits decode_float_bits];
    try (by destruct Tv as [-> ->]; apply (decode_utf8 value (fun s => DataValue.Utf8 s _ _)), Ov).
  - by destruct b.
  - by apply (decode_float 4 32 _ _ DataValue.Float32).
  - by apply (decode_float 8 64 _ _ DataValue.Float64).
  - by apply (decode_signed 1 8 _ _ DataValue.Int8).
  - by apply (decode_signed 2 16 _ _ DataValue.Int16).
  - by apply (decode_signed 4 32 _ _ DataValue.Int32).
  - by apply (decode_signed 8 64 _ _ DataValue.Int64).
  - by apply (decode_unsigned 1 8).
  - by apply (decode_unsigned 2 16).
  - by apply (decode_unsigned 4 32).
  - by apply (decode_unsigned 8 64).
  - by apply (decode_signed 4 32 _ _ DataValue.Date32).
  - by apply (decode_signed 8 64 _ _ DataValue.Date64).
  - rewrite Tv. apply (decode_unsigned 4 32 _ (fun u => DataValue.Time32 u _)); [done|apply Ov].
  - destruct Tv as [-> ->].
    apply (decode_signed 8 64 _ _ (fun u => DataValue.Time64 u _ _)); done || apply Ov.
Qed.

(** The value read back is the value written, in the sense of [PartialEq]. *)
Lemma of_eqb_canon {OF : OrderedFloat} (w inf b : Z) :
  0 < w -> 0 <= inf -> in_u w b -> is_nan_bits w inf b = false ->
  of_eqb w inf (canon_float w b) b = true.
Proof.
  intros Hw Hi Hb Hn. unfold canon_float, of_eqb. pose proof (pow2_pos (w - 1) ltac:(lia)).
  destruct (Z.eqb_spec (float_key w b) 0) as [E|E].
  - rewrite of_cmp_num; [|unfold is_nan_bits; rewrite Z.mod_0_l by lia; by apply Z.ltb_ge|done].
    rewrite E. unfold float_key. by rewrite (proj2 (Z.ltb_lt _ _)).
  - rewrite of_cmp_num by done. by rewrite Z.compare_refl.
Qed.

Lemma dv_eq_canon {OF : OrderedFloat} (v : DataValue) :
  dv_ok v -> no_nan v -> dv_eq (canon v) v = true.
Proof.
  induction v as [v Hv|vs IH] using DataValue_ind'; intros Ov Nv.
  - destruct v; try (exfalso; exact (Hv _ eq_refl)); simpl in *; rewrite ?Z.eqb_refl; try done.
    + by rewrite bool_decide_true.
    + by destruct b.
    + by apply of_eqb_canon.
    + by apply of_eqb_canon.
    + by apply bool_decide_true.
  - apply all_of_Forall in Ov, Nv. simpl. induction vs as [|v vs IHl]; [done|]. simpl.
    apply Forall_cons_1 in Ov as [? ?], Nv as [? ?], IH as [IHv ?].
    by rewrite IHv, IHl.
Qed.

Lemma key_value_decodes (v : DataValue) (ty : LogicalType) : key_value v ty -> decodes v ty.
Proof.
  revert ty.
  induction v as [v Hv|vs IH] using DataValue_ind'; intros ty K; [by apply decodes_scalar|].
  apply key_value_tuple in K as (ts & -> & K).
  destruct (decode_values_app vs ts) as (e & E & D).
  - induction K; [by constructor|]. apply Forall_cons_1 in IH as [IHv IHvs]. constructor; auto.
  - exists (NOTNULL_TAG :: e). unfold memcomparable_encode. rewrite encode_tagged.
    cbn [is_null encode_payload]. rewrite E. split; [done|]. intros r.
    change ((NOTNULL_TAG :: e) ++ r) with (NOTNULL_TAG :: (e ++ r)).
    rewrite decode_tuple_values, D. done.
Qed.


(** The witness type and values: an index entry [(name, id)]. *)
Definition wit_ty : LogicalType :=
  LogicalType.Tuple [LogicalType.Varchar (Some 20) Characters; LogicalType.Integer; LogicalType.Double].
Definition wit_v : DataValue :=
  DataValue.Tuple [DataValue.Utf8 (97 :: replicate 8 98) (Variable_ (Some 20)) Characters;
    DataValue.Int32 (-5); DataValue.Float64 0x8000000000000000].
Definition wit_w : DataValue :=
  DataValue.Tuple [DataValue.Utf8 (97 :: replicate 8 98) (Variable_ (Some 20)) Characters;
    DataValue.Null; DataValue.Float64 0xBFF0000000000000].

Lemma wit_key_value : key_value wit_v wit_ty /\ key_value wit_w wit_ty.
Proof.
  assert (bytes_ok (97 :: replicate 8 98)) by (repeat (constructor; [by unfold byte_ok|]); constructor).
  repeat split; try done; unfold in_s, in_u; lia.
Qed.



(** The only encoding error is a parameter inside the value. *)
Theorem memcomparable_encode_error (v : DataValue) (nulls_first : bool) :
  if has_parameter v
  then memcomparable_encode_with_null_order v nulls_first = Err InvalidValue
  else exists e, memcomparable_encode_with_null_order v nulls_first = Ok e.
Proof.
  revert nulls_first. induction v as [v Hv|vs IH] using DataValue_ind'; intros nf.
  - destruct v; try (exfalso; exact (Hv _ eq_refl)); simpl; eauto.
  - rewrite encode_tagged. cbn [is_null encode_payload has_parameter].
    induction IH as [|v vs Hv Hvs IHl]; [by eexists|]. specialize (Hv false).
    cbn [existsb encode_values]. unfold memcomparable_encode.
    destruct (has_parameter v); simpl; [by rewrite Hv|]. destruct Hv as [e ->]. cbn [rbind].
    destruct (existsb has_parameter vs).
    + by destruct (encode_values vs) as [bs|]; simplify_eq/=.
    + destruct IHl as [b E]. destruct (encode_values vs) as [bs|]; [|done]. eexists. reflexivity.
Qed.

(** NaN breaks both contracts. [OrderedFloat] puts NaN above [1.0]; its
    encoding is below, and it decodes to the subnormal [0x0007FFFFFFFFFFFF]. *)
Theorem memcomparable_nan {OF : OrderedFloat} :
  let nan := DataValue.Float64 0x7FF8000000000000 in
  let one := DataValue.Float64 0x3FF0000000000000 in
  partial_cmp nan one = Some Gt /\
  exists en eo, memcomparable_encode nan = Ok en /\ memcomparable_encode one = Ok eo /\
    lex_cmp en eo = Lt /\
    memcomparable_decode LogicalType.Double en = Ok (DataValue.Float64 0x0007FFFFFFFFFFFF, []).
Proof.
  split; [simpl; by rewrite of_cmp_nan_num|].
  eexists _, _. split; [reflexivity|]. split; [reflexivity|]. by split; vm_compute.
Qed.
