(* ===== verification/StableHash.v ===== *)
(** The stable hasher (src/src/serdes/stable_hash.rs): keyed FNV-1a with a
    64-bit finaliser. It names tables in keys ([TableCodec::hash_bytes]), so
    the theorems say when two names can share a hash: the finaliser loses
    nothing, a chunked write is a single write, and two inputs of one length
    that differ in one byte never collide. *)

From S2P Require Import Prelude MachineInt.
From stdpp Require Import base list numbers.
From Stdlib Require Import ZArith Lia Znumtheory.
Local Open Scope Z_scope.

Definition FNV_OFFSET : Z := 0xcbf29ce484222325.
Definition FNV_PRIME : Z := 0x00000100000001b3.
Definition TABLE_NAME_HASH_KEYS : Z * Z := (0x9e3779b97f4a7c15, 0xbf58476d1ce4e5b9).

Record StableHasher := { key0 : Z; key1 : Z; hash : Z }.

Definition mix64 (value : Z) : Z :=
  let value := Z.lxor value (Z.shiftr value 30) in
  let value := wrapping_mul_u 64 value 0xbf58476d1ce4e5b9 in
  let value := Z.lxor value (Z.shiftr value 27) in
  let value := wrapping_mul_u 64 value 0x94d049bb133111eb in
  Z.lxor value (Z.shiftr value 31).

Definition new_with_keys (k0 k1 : Z) : StableHasher :=
  {| key0 := k0; key1 := k1;
     hash := wrapping_add_u 64 (mix64 (Z.lxor FNV_OFFSET k0)) (mix64 k1) |}.

Definition finish (self : StableHasher) : Z :=
  mix64 (Z.lxor (Z.lxor (hash self) (rotate_left_u 64 (key0 self) 17))
                (rotate_right_u 64 (key1 self) 11)).

(** One iteration of [write]. *)
Definition write_byte (h byte : Z) : Z := wrapping_mul_u 64 (Z.lxor h byte) FNV_PRIME.

Definition write (self : StableHasher) (bytes : list Z) : StableHasher :=
  {| key0 := key0 self; key1 := key1 self; hash := foldl write_byte (hash self) bytes |}.

Definition write_u8 (self : StableHasher) (i : Z) : StableHasher := write self [i].
Definition write_u16 (self : StableHasher) (i : Z) : StableHasher := write self (to_le_bytes 2 i).
Definition write_u32 (self : StableHasher) (i : Z) : StableHasher := write self (to_le_bytes 4 i).
Definition write_u64 (self : StableHasher) (i : Z) : StableHasher := write self (to_le_bytes 8 i).
Definition write_u128 (self : StableHasher) (i : Z) : StableHasher := write self (to_le_bytes 16 i).
Definition write_usize (self : StableHasher) (i : Z) : StableHasher := write_u64 self i.
Definition write_i8 (self : StableHasher) (i : Z) : StableHasher := write_u8 self (as_u 8 i).
Definition write_i16 (self : StableHasher) (i : Z) : StableHasher := write self (to_le_bytes 2 (as_u 16 i)).
Definition write_i32 (self : StableHasher) (i : Z) : StableHasher := write self (to_le_bytes 4 (as_u 32 i)).
Definition write_i64 (self : StableHasher) (i : Z) : StableHasher := write self (to_le_bytes 8 (as_u 64 i)).
Definition write_i128 (self : StableHasher) (i : Z) : StableHasher := write self (to_le_bytes 16 (as_u 128 i)).
Definition write_isize (self : StableHasher) (i : Z) : StableHasher := write_i64 self i.

(** [Hash for str]: the bytes, then [0xff]. *)
Definition hash_str (self : StableHasher) (s : list Z) : StableHasher :=
  write_u8 (write self s) 0xff.

(** [TableCodec::hash_bytes] before it is cut into bytes. *)
Definition table_name_hash (table_name : list Z) : Z :=
  finish (hash_str (new_with_keys (fst TABLE_NAME_HASH_KEYS) (snd TABLE_NAME_HASH_KEYS)) table_name).

(** * Range and injectivity *)

Lemma lxor_in_u (w a b : Z) : 0 < w -> in_u w a -> in_u w b -> in_u w (Z.lxor a b).
Proof.
  unfold in_u. intros Hw [Ha Ha'] [Hb Hb']. split; [by apply Z.lxor_nonneg; split; intros|].
  destruct (decide (Z.lxor a b = 0)) as [->|Hn]; [by apply pow2_pos; lia|].
  assert (0 <= Z.lxor a b) by (apply Z.lxor_nonneg; split; intros; lia).
  apply Z.log2_lt_pow2; [lia|]. eapply Z.le_lt_trans; [apply Z.log2_lxor; lia|].
  apply Z.max_lub_lt.
  - destruct (decide (a = 0)) as [->|]; [simpl; lia|]. apply Z.log2_lt_pow2; lia.
  - destruct (decide (b = 0)) as [->|]; [simpl; lia|]. apply Z.log2_lt_pow2; lia.
Qed.

Lemma shiftr_in_u (w a k : Z) : 0 <= k -> in_u w a -> in_u w (Z.shiftr a k).
Proof.
  unfold in_u. intros Hk Ha. rewrite Z.shiftr_div_pow2 by lia. pose proof (pow2_pos k Hk).
  split; [apply Z.div_pos; lia|]. apply Z.le_lt_trans with a; [|lia]. apply Z.div_le_upper_bound; nia.
Qed.

Lemma xorshift_inj (k a b : Z) :
  0 < k -> 0 <= a -> 0 <= b ->
  Z.lxor a (Z.shiftr a k) = Z.lxor b (Z.shiftr b k) -> a = b.
Proof.
  intros Hk Ha Hb E. apply Z.lxor_eq. set (d := Z.lxor a b).
  assert (0 <= d) by (apply Z.lxor_nonneg; split; intros; lia).
  assert (Z.lxor d (Z.shiftr d k) = 0) as Hd.
  { unfold d. rewrite Z.shiftr_lxor.
    transitivity (Z.lxor (Z.lxor a (Z.shiftr a k)) (Z.lxor b (Z.shiftr b k))).
    - rewrite !Z.lxor_assoc. f_equal. rewrite <- !Z.lxor_assoc. f_equal. apply Z.lxor_comm.
    - rewrite E. apply Z.lxor_nilpotent. }
  apply Z.lxor_eq in Hd. rewrite Z.shiftr_div_pow2 in Hd by lia.
  destruct (decide (d = 0)); [done|].
  pose proof (Z.div_lt d (2 ^ k) ltac:(lia) ltac:(pose proof (Z.pow_gt_1 2 k); lia)). lia.
Qed.

Lemma wrapping_mul_inj (m a b : Z) :
  Z.gcd m (2 ^ 64) = 1 -> in_u 64 a -> in_u 64 b ->
  wrapping_mul_u 64 a m = wrapping_mul_u 64 b m -> a = b.
Proof.
  unfold wrapping_mul_u, as_u, in_u. intros Hg Ha Hb E.
  assert (2 ^ 64 | m * (a - b)) as Hd.
  { apply Z.mod_divide; [done|]. replace (m * (a - b)) with (a * m - b * m) by lia.
    by rewrite Zminus_mod, E, Z.sub_diag. }
  apply Z.gauss in Hd; [|by rewrite Z.gcd_comm].
  destruct Hd as [q Hq]. assert (q = 0) by nia. lia.
Qed.

Lemma wrapping_mul_in_u (a m : Z) : in_u 64 (wrapping_mul_u 64 a m).
Proof. by apply as_u_range. Qed.

#[export] Hint Resolve lxor_in_u shiftr_in_u wrapping_mul_in_u : kite.
#[export] Hint Extern 1 (_ < _) => lia : kite.
#[export] Hint Extern 1 (_ <= _) => lia : kite.

Lemma mix64_in_u (v : Z) : in_u 64 v -> in_u 64 (mix64 v).
Proof. intros. unfold mix64. auto 6 with kite. Qed.

Lemma in_u_nonneg (w v : Z) : in_u w v -> 0 <= v.
Proof. by intros [? ?]. Qed.

#[export] Hint Resolve mix64_in_u in_u_nonneg : kite.

Lemma mix64_inj (a b : Z) : in_u 64 a -> in_u 64 b -> mix64 a = mix64 b -> a = b.
Proof.
  intros Ha Hb E. unfold mix64 in E.
  apply xorshift_inj in E; [|lia|eauto with kite..].
  apply wrapping_mul_inj in E; [|by vm_compute|eauto with kite..].
  apply xorshift_inj in E; [|lia|eauto with kite..].
  apply wrapping_mul_inj in E; [|by vm_compute|eauto with kite..].
  apply xorshift_inj in E; eauto with kite.
Qed.

Lemma lxor_inj_l (a b c : Z) : Z.lxor a c = Z.lxor b c -> a = b.
Proof.
  intros E. apply (f_equal (fun x => Z.lxor x c)) in E.
  by rewrite !Z.lxor_assoc, Z.lxor_nilpotent, !Z.lxor_0_r in E.
Qed.

Lemma byte_in_u64 (b : Z) : byte_ok b -> in_u 64 b.
Proof. unfold byte_ok, in_u. lia. Qed.

#[export] Hint Resolve byte_in_u64 : kite.

Lemma write_byte_in_u (h b : Z) : in_u 64 (write_byte h b).
Proof. apply wrapping_mul_in_u. Qed.

Lemma write_byte_inj (h h' b b' : Z) :
  in_u 64 h -> in_u 64 h' -> byte_ok b -> byte_ok b' ->
  write_byte h b = write_byte h' b' -> Z.lxor h b = Z.lxor h' b'.
Proof.
  intros Hh Hh' Hb Hb' E. apply wrapping_mul_inj in E; [done|by vm_compute|eauto with kite..].
Qed.

Lemma write_in_u (h : Z) (bs : list Z) : in_u 64 h -> in_u 64 (foldl write_byte h bs).
Proof. revert h. induction bs as [|b bs IH]; intros h Hh; [done|]. apply IH, write_byte_in_u. Qed.

(** Writing the same bytes keeps different states apart. *)
Lemma write_same_inj (h h' : Z) (bs : list Z) :
  bytes_ok bs -> in_u 64 h -> in_u 64 h' ->
  foldl write_byte h bs = foldl write_byte h' bs -> h = h'.
Proof.
  intros Hbs. revert h h'. induction Hbs as [|b bs Hb Hbs IH]; intros h h' Hh Hh' E; [done|].
  simpl in E. apply IH in E; [|apply write_byte_in_u..].
  apply write_byte_inj in E; try done. by apply lxor_inj_l in E.
Qed.

Lemma rotate_in_u (k r : Z) : 0 <= r <= 64 -> in_u 64 k ->
  in_u 64 (rotate_left_u 64 k r) /\ in_u 64 (rotate_right_u 64 k r).
Proof.
  intros Hr Hk. unfold rotate_left_u, rotate_right_u.
  assert (forall a b, in_u 64 a -> in_u 64 b -> in_u 64 (Z.lor a b)) as Hlor.
  { unfold in_u. intros a b [Ha Ha'] [Hb Hb']. pose proof (proj2 (Z.lor_nonneg a b) (conj Ha Hb)).
    split; [done|]. destruct (decide (Z.lor a b = 0)); [lia|]. apply Z.log2_lt_pow2; [lia|].
    rewrite Z.log2_lor by lia. apply Z.max_lub_lt.
    - destruct (decide (a = 0)) as [->|]; [simpl; lia|]. apply Z.log2_lt_pow2; lia.
    - destruct (decide (b = 0)) as [->|]; [simpl; lia|]. apply Z.log2_lt_pow2; lia. }
  split; apply Hlor; try (by apply as_u_range); apply shiftr_in_u; done || lia.
Qed.

(** A well-formed hasher: three 64-bit words. *)
Definition hasher_ok (s : StableHasher) : Prop :=
  in_u 64 (key0 s) /\ in_u 64 (key1 s) /\ in_u 64 (hash s).

Lemma finish_inj (s s' : StableHasher) :
  hasher_ok s -> hasher_ok s' -> key0 s = key0 s' -> key1 s = key1 s' ->
  finish s = finish s' -> hash s = hash s'.
Proof.
  intros (K0 & K1 & H) (K0' & K1' & H') E0 E1 E. unfold finish in E. rewrite E0, E1 in E.
  destruct (rotate_in_u (key0 s') 17 ltac:(lia) K0') as [? _].
  destruct (rotate_in_u (key1 s') 11 ltac:(lia) K1') as [_ ?].
  apply mix64_inj in E; [|eauto with kite..].
  by apply lxor_inj_l, lxor_inj_l in E.
Qed.

Lemma finish_in_u (s : StableHasher) : hasher_ok s -> in_u 64 (finish s).
Proof.
  intros (K0 & K1 & H).
  destruct (rotate_in_u (key0 s) 17 ltac:(lia) K0) as [? _].
  destruct (rotate_in_u (key1 s) 11 ltac:(lia) K1) as [_ ?].
  unfold finish. auto with kite.
Qed.

Lemma new_with_keys_ok (k0 k1 : Z) :
  in_u 64 k0 -> in_u 64 k1 -> hasher_ok (new_with_keys k0 k1).
Proof. intros. repeat split; simpl; try by (apply H || apply H0). all: by apply as_u_range. Qed.

Lemma write_ok (s : StableHasher) (bs : list Z) : hasher_ok s -> hasher_ok (write s bs).
Proof. intros (? & ? & ?). repeat split; simpl; try apply H; try apply H0; by apply write_in_u. Qed.

Lemma write_app (s : StableHasher) (a b : list Z) : write (write s a) b = write s (a ++ b).
Proof. unfold write. simpl. by rewrite foldl_app. Qed.

(** The FNV state after hashing a table name. *)
Definition table_name_state (table_name : list Z) : Z :=
  hash (hash_str (new_with_keys (fst TABLE_NAME_HASH_KEYS) (snd TABLE_NAME_HASH_KEYS)) table_name).

Lemma table_name_hasher_ok (name : list Z) :
  hasher_ok (hash_str (new_with_keys (fst TABLE_NAME_HASH_KEYS) (snd TABLE_NAME_HASH_KEYS)) name).
Proof. apply write_ok, write_ok, new_with_keys_ok; by unfold in_u. Qed.

Lemma table_name_hash_in_u (name : list Z) : in_u 64 (table_name_hash name).
Proof. apply finish_in_u, table_name_hasher_ok. Qed.

(** The finaliser merges nothing: names collide exactly when their FNV states do. *)
Lemma table_name_hash_eq (a b : list Z) :
  table_name_hash a = table_name_hash b <-> table_name_state a = table_name_state b.
Proof.
  split; intros E.
  - apply finish_inj in E; [exact E|apply table_name_hasher_ok|apply table_name_hasher_ok|reflexivity..].
  - unfold table_name_hash, finish. unfold table_name_state in E. by rewrite E.
Qed.

(** Two names of one length that differ in a single byte have different
    hashes, so such tables never share keys. *)
Theorem stable_hash_one_byte (p s : list Z) (x y : Z) :
  bytes_ok (p ++ x :: s) -> bytes_ok (p ++ y :: s) -> x <> y ->
  table_name_hash (p ++ x :: s) <> table_name_hash (p ++ y :: s).
Proof.
  intros Hx Hy Hne E. apply table_name_hash_eq in E.
  apply Forall_app in Hx as [Hp Hx], Hy as [_ Hy].
  apply Forall_cons_1 in Hx as [Hx Hs], Hy as [Hy _].
  unfold table_name_state, hash_str, write_u8 in E. rewrite !write_app in E. simpl in E.
  rewrite !foldl_app in E. simpl in E.
  set (h := foldl write_byte _ p) in E.
  assert (in_u 64 h) by (apply write_in_u; by apply as_u_range).
  apply write_byte_inj in E; [|by apply write_in_u, write_byte_in_u|by apply write_in_u, write_byte_in_u|done..].
  apply lxor_inj_l, write_same_inj in E; [|done|apply write_byte_in_u..].
  apply write_byte_inj in E; try done.
  rewrite (Z.lxor_comm h x), (Z.lxor_comm h y) in E. by apply lxor_inj_l in E.
Qed.

Lemma stable_hash_one_byte_witness :
  table_name_hash ([116] ++ [49]) <> table_name_hash ([116] ++ [50]).
Proof.
  apply (stable_hash_one_byte [116] [] 49 50); [..|done]; repeat (constructor; [by unfold byte_ok|]);
    constructor.
Defined.
