(* ===== verification/FloatArith.v ===== *)
(** IEEE 754 arithmetic on bit patterns: what Rust's [f32] and [f64] operators,
    [as] casts between numbers and [%] compute, for the evaluators of
    src/src/types/evaluator.

    A float is its bit pattern, as in [DataValue]. The operations unpack it into
    the Standard Library's [spec_float], round to nearest even there, and pack
    the result; every NaN result is the quiet NaN with an empty payload. *)

From S2P Require Import Prelude MachineInt Value.
From stdpp Require Import base tactics list numbers option.
From Stdlib Require Import ZArith Lia.
From Stdlib Require Import Floats.SpecFloat.
Local Open Scope Z_scope.

(** A format: width of the pattern, of its mantissa field, and the [prec] and
    [emax] of [SpecFloat]. *)
Record FloatFormat := {
  fw : Z;
  fm : Z;
  fprec : Z;
  femax : Z;
}.

Definition f32 : FloatFormat := {| fw := 32; fm := 23; fprec := 24; femax := 128 |}.
Definition f64 : FloatFormat := {| fw := 64; fm := 52; fprec := 53; femax := 1024 |}.

(** The exponent of the smallest subnormal. *)
Definition femin (F : FloatFormat) : Z := 3 - femax F - fprec F.

Definition unpack (F : FloatFormat) (bits : Z) : spec_float :=
  let s := 2 ^ (fw F - 1) <=? bits in
  let magnitude := bits mod 2 ^ (fw F - 1) in
  let e := magnitude / 2 ^ fm F in
  let m := magnitude mod 2 ^ fm F in
  if e =? 2 * femax F - 1 then (if m =? 0 then S754_infinity s else S754_nan)
  else
    match (if e =? 0 then m else m + 2 ^ fm F) with
    | Zpos p => S754_finite s p (femin F + Z.max 0 (e - 1))
    | _ => S754_zero s
    end.

Definition pack (F : FloatFormat) (x : spec_float) : Z :=
  let sign (s : bool) := if s then 2 ^ (fw F - 1) else 0 in
  let inf := (2 * femax F - 1) * 2 ^ fm F in
  as_u (fw F)
    match x with
    | S754_zero s => sign s
    | S754_infinity s => sign s + inf
    | S754_nan => inf + 2 ^ (fm F - 1)
    | S754_finite s m e => sign s + (e - femin F) * 2 ^ fm F + Zpos m
    end.

Definition lift2 (F : FloatFormat) (op : Z -> Z -> spec_float -> spec_float -> spec_float) (a b : Z) : Z :=
  pack F (op (fprec F) (femax F) (unpack F a) (unpack F b)).

Definition float_add (F : FloatFormat) : Z -> Z -> Z := lift2 F SFadd.
Definition float_sub (F : FloatFormat) : Z -> Z -> Z := lift2 F SFsub.
Definition float_mul (F : FloatFormat) : Z -> Z -> Z := lift2 F SFmul.
Definition float_div (F : FloatFormat) : Z -> Z -> Z := lift2 F SFdiv.

(** [-x] flips the sign bit. *)
Definition float_neg (F : FloatFormat) (a : Z) : Z := Z.lxor a (2 ^ (fw F - 1)).

(** [%]: the remainder of the division truncated towards zero, which is exact. *)
Definition SFrem (prec emax : Z) (x y : spec_float) : spec_float :=
  match x, y with
  | S754_nan, _ | _, S754_nan | S754_infinity _, _ | _, S754_zero _ => S754_nan
  | S754_zero s, _ => S754_zero s
  | S754_finite _ _ _, S754_infinity _ => x
  | S754_finite s m e, S754_finite _ m' e' =>
      let e0 := Z.min e e' in
      let r := (Zpos m * 2 ^ (e - e0)) mod (Zpos m' * 2 ^ (e' - e0)) in
      binary_normalize prec emax (if s then - r else r) e0 s
  end.
Definition float_rem (F : FloatFormat) : Z -> Z -> Z := lift2 F SFrem.

(** [v as f64] of an integer. *)
Definition float_of_int (F : FloatFormat) (v : Z) : Z :=
  pack F (binary_normalize (fprec F) (femax F) v 0 false).

(** [x as f64] or [x as f32] of a float of the other format. *)
Definition float_convert (F G : FloatFormat) (a : Z) : Z :=
  pack G
    match unpack F a with
    | S754_finite s m e => binary_normalize (fprec G) (femax G) (if s then Zneg m else Zpos m) e s
    | x => x
    end.

(** The integer part of a finite number. *)
Definition float_trunc (F : FloatFormat) (a : Z) : Z :=
  match unpack F a with
  | S754_finite s m e =>
      let n := if 0 <=? e then Zpos m * 2 ^ e else Zpos m / 2 ^ (- e) in
      if s then - n else n
  | _ => 0
  end.

Lemma pack_range (F : FloatFormat) (x : spec_float) : 0 <= fw F -> in_u (fw F) (pack F x).
Proof. intros H. by apply as_u_range. Qed.

Lemma float_neg_range (F : FloatFormat) (a : Z) : 0 < fw F -> in_u (fw F) a -> in_u (fw F) (float_neg F a).
Proof.
  unfold in_u, float_neg. intros Hw Ha. pose proof (pow2_half (fw F) Hw).
  destruct (Z_lt_ge_dec a (2 ^ (fw F - 1))).
  - rewrite lxor_pow2_small; lia.
  - rewrite lxor_pow2_big; [lia|lia|]. replace (fw F - 1 + 1) with (fw F) by lia. lia.
Qed.

Example float_third : float_div f64 (float_of_int f64 1) (float_of_int f64 3) = 0x3FD5555555555555.
Proof. vm_compute. reflexivity. Qed.

Example float_narrow : float_convert f64 f32 0x3FD5555555555555 = 0x3EAAAAAB.
Proof. vm_compute. reflexivity. Qed.

Example float_remainder :
  float_rem f64 (float_neg f64 0x401E000000000000) (float_of_int f64 2) = 0xBFF8000000000000.
Proof. vm_compute. reflexivity. Qed.

Example float_subnormal : float_div f64 1 (float_of_int f64 1) = 1 /\ float_add f64 1 1 = 2.
Proof. vm_compute. split; reflexivity. Qed.
