(* ===== verification/Text.v ===== *)
(** Numbers as text: the parts of Rust's [to_string] and [from_str] the casts
    use. Strings are lists of UTF-8 bytes.

    A float prints as the shortest decimal that reads back as the same float
    (the closest one when several are equally short), without an exponent. *)

From S2P Require Import Prelude MachineInt Types Value FloatArith.
From stdpp Require Import base tactics list list_numbers numbers option.
From Stdlib Require Import ZArith Lia.
From Stdlib Require Import SpecFloat.
Local Open Scope Z_scope.

(** * Integers *)

Definition digit (d : Z) : Z := 48 + d.
Definition is_digit (b : Z) : bool := (48 <=? b) && (b <=? 57).

(** Digits of [n], most significant first, before [acc]. *)
Fixpoint digits_loop (fuel : nat) (n : Z) (acc : list Z) : list Z :=
  match fuel with
  | O => acc
  | S fuel =>
      let acc := digit (n mod 10) :: acc in
      if n <? 10 then acc else digits_loop fuel (n / 10) acc
  end.

Definition digits (n : Z) : list Z := digits_loop (S (Z.to_nat (Z.log2 n))) n [].

Definition int_to_string (v : Z) : list Z :=
  if v <? 0 then 45 :: digits (- v) else digits v.

(** The digits' value; [None] on anything but digits, or nothing at all. *)
Fixpoint digits_value (acc : Z) (s : list Z) : option Z :=
  match s with
  | [] => Some acc
  | b :: s => if is_digit b then digits_value (10 * acc + (b - 48)) s else None
  end.

Definition read_digits (s : list Z) : option Z :=
  match s with [] => None | _ => digits_value 0 s end.

(** [from_str] of an integer type: a sign ([-] for signed types only), digits,
    and the value in range. *)
Definition int_from_str (signed : bool) (w : Z) (s : list Z) : res Z :=
  let magnitude (s : list Z) (f : Z -> Z) :=
    match read_digits s with
    | Some n =>
        match (if signed then checked_s w (f n) else checked_u w (f n)) with
        | Some v => Ok v
        | None => Err ParseInt
        end
    | None => Err ParseInt
    end in
  match s with
  | [] => Err ParseInt
  | b :: s' =>
      if b =? 43 then magnitude s' (fun n => n)
      else if b =? 45 then (if signed then magnitude s' Z.opp else Err ParseInt)
      else magnitude s (fun n => n)
  end.

(** * Booleans *)

Definition true_text : list Z := [116; 114; 117; 101].
Definition false_text : list Z := [102; 97; 108; 115; 101].

Definition bool_to_string (b : bool) : list Z := if b then true_text else false_text.
Definition bool_from_str (s : list Z) : res bool :=
  if decide (s = true_text) then Ok true
  else if decide (s = false_text) then Ok false
  else Err ParseBool.

(** * Floats *)

(** The float nearest to [m * 10 ^ e], ties to even. *)
Definition of_decimal (F : FloatFormat) (s : bool) (m e : Z) : Z :=
  pack F
    match m with
    | Zpos p =>
        if 0 <=? e then binary_normalize (fprec F) (femax F) ((if s then Zneg p else Zpos p) * 10 ^ e) 0 s
        else
          match 10 ^ (- e) with
          | Zpos q => SFdiv (fprec F) (femax F) (S754_finite s p 0) (S754_finite false q 0)
          | _ => S754_nan
          end
    | _ => S754_zero s
    end.

(** [digits[.digits][(e|E)[sign]digits]], the digits before or after the point
    possibly missing but not both. *)
Fixpoint span_digits (s : list Z) : list Z * list Z :=
  match s with
  | b :: s' => if is_digit b then let (d, r) := span_digits s' in (b :: d, r) else ([], s)
  | [] => ([], [])
  end.

Definition lower (b : Z) : Z := if (65 <=? b) && (b <=? 90) then b + 32 else b.

(** An optional sign. *)
Definition read_sign (s : list Z) : bool * list Z :=
  match s with
  | b :: r => if b =? 43 then (false, r) else if b =? 45 then (true, r) else (false, s)
  | [] => (false, s)
  end.

Definition read_exponent (s : list Z) : option Z :=
  match s with
  | [] => Some 0
  | c :: s' =>
      if lower c =? 101 then
        let (neg, r) := read_sign s' in
        (if neg : bool then Z.opp else id) <$> read_digits r
      else None
  end.

Definition inf_text : list Z := [105; 110; 102].
Definition infinity_text : list Z := [105; 110; 102; 105; 110; 105; 116; 121].
Definition nan_text : list Z := [110; 97; 110].

Definition float_from_str (F : FloatFormat) (s : list Z) : res Z :=
  let (neg, body) := read_sign s in
  let word := map lower body in
  if bool_decide (word = inf_text) || bool_decide (word = infinity_text) then Ok (pack F (S754_infinity neg))
  else if bool_decide (word = nan_text) then Ok (pack F S754_nan)
  else
    let (int, rest) := span_digits body in
    let (frac, rest) :=
      match rest with
      | b :: r => if b =? 46 then span_digits r else ([], rest)
      | [] => ([], [])
      end in
    match read_digits (int ++ frac), read_exponent rest with
    | Some m, Some e => Ok (of_decimal F neg m (e - Z.of_nat (length frac)))
    | _, _ => Err ParseFloat
    end.

(** The number of digits before the point of [m * 2 ^ e], at least for numbers
    of the two formats: the least [k] with [m * 2 ^ e < 10 ^ k]. *)
Definition num_lt_pow10 (m e k : Z) : bool :=
  m * 2 ^ Z.max 0 e * 10 ^ Z.max 0 (- k) <? 10 ^ Z.max 0 k * 2 ^ Z.max 0 (- e).

Fixpoint find_scale (fuel : nat) (m e k : Z) : Z :=
  match fuel with
  | O => k
  | S fuel => if num_lt_pow10 m e k then k else find_scale fuel m e (k + 1)
  end.

(** [n] significant digits of [m * 2 ^ e], rounded down: the integer and the
    power of ten it is scaled by. *)
Definition decimal_floor (m e k n : Z) : Z * Z :=
  let p := k - n in
  (m * 2 ^ Z.max 0 e * 10 ^ Z.max 0 (- p) / (10 ^ Z.max 0 p * 2 ^ Z.max 0 (- e)), p).

(** The candidates with [n] digits that read back as the float, closest first. *)
Definition decimal_candidate (F : FloatFormat) (bits m e k n : Z) : option (Z * Z) :=
  let (d, p) := decimal_floor m e k n in
  let ok (d : Z) := of_decimal F false d p =? bits in
  let twice_error (d : Z) :=
    Z.abs (m * 2 ^ Z.max 0 e * 10 ^ Z.max 0 (- p) - d * 10 ^ Z.max 0 p * 2 ^ Z.max 0 (- e)) in
  match ok d, ok (d + 1) with
  | true, true => Some (if twice_error (d + 1) <? twice_error d then d + 1 else d, p)
  | true, false => Some (d, p)
  | false, true => Some (d + 1, p)
  | false, false => None
  end.

Fixpoint shortest (fuel : nat) (F : FloatFormat) (bits m e k n : Z) : Z * Z :=
  match fuel with
  | O => decimal_floor m e k n
  | S fuel =>
      match decimal_candidate F bits m e k n with
      | Some c => c
      | None => shortest fuel F bits m e k (n + 1)
      end
  end.

(** Digits [d * 10 ^ p] without an exponent. *)
Fixpoint strip_zeros (fuel : nat) (d p : Z) : Z * Z :=
  match fuel with
  | O => (d, p)
  | S fuel => if (p <? 0) && (d mod 10 =? 0) then strip_zeros fuel (d / 10) (p + 1) else (d, p)
  end.

Definition print_decimal (d p : Z) : list Z :=
  let (d, p) := strip_zeros 20 d p in
  if 0 <=? p then digits (d * 10 ^ p)
  else
    let unit := 10 ^ (- p) in
    let frac := digits (d mod unit) in
    digits (d / unit) ++ 46 :: replicate (Z.to_nat (- p) - length frac) 48 ++ frac.

Definition float_to_string (F : FloatFormat) (bits : Z) : list Z :=
  let sign (s : bool) := if s then [45] else [] in
  match unpack F bits with
  | S754_nan => [78; 97; 78]
  | S754_infinity s => sign s ++ inf_text
  | S754_zero s => sign s ++ [48]
  | S754_finite s m e =>
      let magnitude := bits mod 2 ^ (fw F - 1) in
      let k := find_scale 4 (Zpos m) e ((Z.log2 (Zpos m) + e) * 30103 / 100000 - 1) in
      let (d, p) := shortest 17 F magnitude (Zpos m) e k 1 in
      sign s ++ print_decimal d p
  end.

Example print_tenth : float_to_string f64 0x3FB999999999999A = [48; 46; 49].
Proof. vm_compute. reflexivity. Qed.

Example print_float_tenth : float_to_string f32 0x3DCCCCCD = [48; 46; 49].
Proof. vm_compute. reflexivity. Qed.

Example print_third : float_to_string f64 (float_div f64 (float_of_int f64 (-1)) (float_of_int f64 3)) =
  45 :: 48 :: 46 :: replicate 16 51.
Proof. vm_compute. reflexivity. Qed.

Example print_big : float_to_string f64 (float_of_int f64 (10 ^ 21)) = 49 :: replicate 21 48.
Proof. vm_compute. reflexivity. Qed.

Example read_back : float_from_str f64 [45; 49; 46; 53; 101; 43; 49] = Ok (float_of_int f64 (-15)).
Proof. vm_compute. reflexivity. Qed.

(** * The text of a number is text *)

Definition ascii (s : list Z) : Prop := Forall (fun b => 0 <= b <= 127) s.

Lemma ascii_utf8 s : ascii s -> bytes_ok s /\ utf8_valid s = true.
Proof.
  intros H. split; [eapply Forall_impl; [|exact H]; unfold byte_ok; simpl; lia|].
  induction H as [|b s Hb Hs IH]; [done|]. cbn [utf8_valid].
  unfold Utf8.between. by rewrite (proj2 (Z.leb_le 0 b)), (proj2 (Z.leb_le b 0x7F)) by lia.
Qed.

Lemma digits_loop_digits fuel n acc :
  0 <= n -> Forall (fun b => is_digit b = true) acc ->
  Forall (fun b => is_digit b = true) (digits_loop fuel n acc).
Proof.
  revert n acc. induction fuel as [|fuel IH]; intros n acc Hn Ha; [done|]. cbn [digits_loop].
  pose proof (Z.mod_pos_bound n 10 ltac:(lia)).
  assert (is_digit (digit (n mod 10)) = true) by (unfold is_digit, digit; lia).
  case_match; [by constructor|]. apply IH; [apply Z.div_pos; lia|by constructor].
Qed.

Lemma digits_digits n : 0 <= n -> Forall (fun b => is_digit b = true) (digits n).
Proof. intros. by apply digits_loop_digits. Qed.

Lemma digits_loop_value fuel n acc :
  0 <= n < 2 ^ Z.of_nat (S fuel) ->
  digits_value 0 (digits_loop (S fuel) n acc) = digits_value n acc.
Proof.
  revert n acc. induction fuel as [|fuel IH]; intros n acc Hn;
    pose proof (Z.mod_pos_bound n 10 ltac:(lia)) as Hm;
    assert (is_digit (digit (n mod 10)) = true) as Hd by (unfold is_digit, digit; lia).
  - cbn [digits_loop]. rewrite (proj2 (Z.ltb_lt n 10)) by (simpl in Hn; lia).
    cbn [digits_value]. rewrite Hd, Z.mod_small by (simpl in Hn; lia). f_equal. unfold digit. lia.
  - remember (S fuel) as fu. cbn [digits_loop]. destruct (Z.ltb_spec n 10).
    + cbn [digits_value]. rewrite Hd, Z.mod_small by lia. f_equal. unfold digit. lia.
    + subst fu. rewrite IH.
      * cbn [digits_value]. rewrite Hd. f_equal. unfold digit. pose proof (Z.div_mod n 10). lia.
      * rewrite Nat2Z.inj_succ, Z.pow_succ_r in Hn by lia. Z.div_mod_to_equations. lia.
Qed.

Lemma digits_read n : 0 <= n -> read_digits (digits n) = Some n.
Proof.
  intros Hn. unfold digits, read_digits.
  assert (forall fuel m acc, digits_loop (S fuel) m acc <> []) as Hne.
  { induction fuel as [|fuel IH]; intros m acc; [simpl; by case_match|].
    remember (S fuel) as fu. cbn [digits_loop]. case_match; [done|]. subst. apply IH. }
  pose proof (Hne (Z.to_nat (Z.log2 n)) n []).
  assert (0 <= n < 2 ^ Z.of_nat (S (Z.to_nat (Z.log2 n)))) as Hb.
  { destruct (Z.eq_dec n 0) as [->|]; [done|].
    pose proof (Z.log2_spec n ltac:(lia)). rewrite Nat2Z.inj_succ, Z2Nat.id by apply Z.log2_nonneg. lia. }
  pose proof (digits_loop_value _ n [] Hb) as Hv. by destruct (digits_loop _ n []).
Qed.

Lemma is_digit_spec b : is_digit b = true -> 48 <= b <= 57.
Proof. unfold is_digit. lia. Qed.

Lemma int_to_string_ascii v : ascii (int_to_string v).
Proof.
  assert (forall n, 0 <= n -> ascii (digits n)) as H.
  { intros n Hn. eapply Forall_impl; [|by apply digits_digits]. intros b ?%is_digit_spec. simpl. lia. }
  unfold int_to_string. destruct (Z.ltb_spec v 0); [constructor; [lia|]|]; apply H; lia.
Qed.

Lemma bool_to_string_ascii (b : bool) : ascii (bool_to_string b).
Proof. destruct b; repeat constructor; lia. Qed.

(** An integer that fits the type reads back from its text. *)
Lemma int_from_to_string (signed : bool) (w v : Z) :
  (if signed then in_s w v else in_u w v) -> int_from_str signed w (int_to_string v) = Ok v.
Proof.
  intros Hv. unfold int_to_string.
  assert ((if signed then checked_s w v else checked_u w v) = Some v) as Hc.
  { destruct signed; [by apply checked_s_Some|by apply checked_u_Some]. }
  destruct (Z.ltb_spec v 0) as [Hn|Hn].
  - unfold int_from_str. destruct signed; [|unfold in_u in Hv; lia].
    by rewrite digits_read, Z.opp_involutive, Hc by lia.
  - pose proof (digits_digits v Hn) as Hd. pose proof (digits_read v Hn) as Hr. unfold int_from_str.
    destruct (digits v) as [|b s]; [done|]. apply Forall_cons_1 in Hd as [Hd%is_digit_spec _].
    rewrite (proj2 (Z.eqb_neq b 43)), (proj2 (Z.eqb_neq b 45)) by lia. by rewrite Hr, Hc.
Qed.

Lemma bool_from_to_string (b : bool) : bool_from_str (bool_to_string b) = Ok b.
Proof. by destruct b. Qed.

Lemma print_decimal_ascii d p : 0 <= d -> ascii (print_decimal d p).
Proof.
  intros Hd. unfold print_decimal.
  assert (forall fuel d p, 0 <= d -> 0 <= (strip_zeros fuel d p).1) as Hs.
  { induction fuel as [|fuel IH]; intros d' p' H; [done|]. simpl. case_match; [|done].
    apply IH. apply Z.div_pos; lia. }
  specialize (Hs 20%nat d p Hd). destruct (strip_zeros 20 d p) as [d' p']. simpl in Hs.
  assert (forall n, 0 <= n -> ascii (digits n)) as H.
  { intros n Hn. eapply Forall_impl; [|by apply digits_digits]. intros b ?%is_digit_spec. simpl. lia. }
  case_match; [apply H; apply Z.mul_nonneg_nonneg; [done|apply Z.pow_nonneg; lia]|].
  assert (0 < 10 ^ (- p')) by (apply Z.pow_pos_nonneg; lia).
  apply Forall_app. split; [apply H; apply Z.div_pos; lia|]. constructor; [lia|].
  apply Forall_app. split; [|apply H; apply Z.mod_pos_bound; lia].
  apply Forall_replicate. lia.
Qed.

Lemma shortest_nonneg fuel F bits m e k n : 0 <= m -> 0 <= (shortest fuel F bits m e k n).1.
Proof.
  intros Hm.
  assert (forall n, 0 <= (decimal_floor m e k n).1) as Hd.
  { intros n'. unfold decimal_floor. cbn [fst]. apply Z.div_pos.
    - apply Z.mul_nonneg_nonneg; [apply Z.mul_nonneg_nonneg; [done|]|]; apply Z.pow_nonneg; lia.
    - apply Z.mul_pos_pos; apply Z.pow_pos_nonneg; lia. }
  revert n. induction fuel as [|fuel IH]; intros n; [apply Hd|]. cbn [shortest].
  destruct (decimal_candidate F bits m e k n) as [c|] eqn:E; [|apply IH].
  revert E. unfold decimal_candidate. pose proof (Hd n) as H. destruct (decimal_floor m e k n) as [d p].
  cbn [fst] in H. intros E. repeat case_match; simplify_eq; cbn [fst]; lia.
Qed.

Lemma float_to_string_ascii F bits : ascii (float_to_string F bits).
Proof.
  assert (forall s : bool, ascii (if s then [45] else [])) as Hs by (intros []; repeat constructor; lia).
  unfold float_to_string. destruct (unpack F bits) as [s|s| |s m e].
  - apply Forall_app. split; [apply Hs|repeat constructor; lia].
  - apply Forall_app. split; [apply Hs|repeat constructor; lia].
  - repeat constructor; lia.
  - set (k := find_scale _ _ _ _). pose proof (shortest_nonneg 17 F (bits mod 2 ^ (fw F - 1)) (Zpos m) e k 1) as H.
    destruct (shortest _ _ _ _ _ _ _) as [d p]. cbn [fst] in H.
    apply Forall_app. split; [apply Hs|]. apply print_decimal_ascii. lia.
Qed.

(** What the readers return: a value of the type, or their own error. *)
Lemma float_from_str_outcome F s :
  0 <= fw F -> match float_from_str F s with Ok bits => in_u (fw F) bits | Err e => e = ParseFloat end.
Proof.
  intros Hw. unfold float_from_str. destruct (read_sign s) as [neg body].
  destruct (_ || _); [by apply pack_range|]. case_bool_decide; [by apply pack_range|].
  destruct (span_digits body) as [int rest].
  destruct (match rest with [] => _ | _ => _ end) as [frac rest'].
  destruct (read_digits _); [|done]. destruct (read_exponent _); [|done]. by apply pack_range.
Qed.

Lemma int_from_str_outcome (signed : bool) (w : Z) s :
  match int_from_str signed w s with
  | Ok v => if signed then in_s w v else in_u w v
  | Err e => e = ParseInt
  end.
Proof.
  unfold int_from_str. destruct s as [|b s]; [done|].
  assert (forall n, match (if signed then checked_s w n else checked_u w n) with
    | Some v => if signed then in_s w v else in_u w v | None => True end) as H.
  { intros n. destruct signed.
    - destruct (checked_s w n) eqn:E; [|done]. by apply checked_s_Some in E as [-> ?].
    - destruct (checked_u w n) eqn:E; [|done]. by apply checked_u_Some in E as [-> ?]. }
  assert (forall r f, match match read_digits r with
      | Some n => match (if signed then checked_s w (f n) else checked_u w (f n)) with
                  | Some v => Ok v | None => Err ParseInt end
      | None => Err ParseInt end : res Z with
    | Ok v => if signed then in_s w v else in_u w v
    | Err e => e = ParseInt end) as Hm.
  { intros r f. destruct (read_digits r) as [n|]; [|done]. specialize (H (f n)).
    by destruct (if signed then _ else _). }
  destruct (b =? 43); [apply (Hm s (fun n => n))|]. destruct (b =? 45); [|apply (Hm (b :: s) (fun n => n))].
  destruct signed; [|done]. apply (Hm s Z.opp).
Qed.
