(* ===== verification/Like.v ===== *)
(** SQL [LIKE] (src/src/types/evaluator/utf8.rs: [string_like],
    [next_like_pattern_token], [next_char_at]).

    The matcher walks two byte indices through UTF-8 strings and backtracks to
    the last [%]. The theorem compares it with the definition of matching: when
    the code points of a string are an instance of the code points of a
    pattern ([like], [code_points]), defined without the matcher's functions. *)

From S2P Require Import Prelude MachineInt Types Value.
From stdpp Require Import base tactics list list_numbers numbers option.
From Stdlib Require Import ZArith Lia.
Local Open Scope Z_scope.

(** * Characters *)

(** [ch.len_utf8()] from the leading byte. *)
Definition lead_len (b : Z) : nat :=
  if b <? 0x80 then 1 else if b <? 0xE0 then 2 else if b <? 0xF0 then 3 else 4.

(** [s.chars().next()] with its width, on a valid string. *)
Definition first_char (s : list Z) : option (Z * nat) :=
  match s with
  | [] => None
  | b :: r =>
      let n := lead_len b in
      let lead := match n with 1%nat => b | 2%nat => b mod 0x20 | 3%nat => b mod 0x10 | _ => b mod 8 end in
      Some (foldl (fun acc c => acc * 64 + c mod 64) lead (take (n - 1) r), n)
  end.

(** [input.get(index..)]: none past the end or inside a character. *)
Definition get_from (input : list Z) (index : nat) : option (list Z) :=
  if (index <=? length input)%nat then
    match drop index input with
    | b :: _ => if is_cont b then None else Some (drop index input)
    | [] => Some []
    end
  else None.

Definition next_char_at (input : list Z) (index : nat) : option (Z * nat) :=
  match get_from input index with
  | None => None
  | Some rest =>
      match first_char rest with
      | None => None
      | Some (ch, n) => Some (ch, (index + n)%nat)
      end
  end.

(** * The matcher *)

Module LikePatternToken.
Inductive LikePatternToken :=
| Literal (ch : Z)
| AnyOne
| AnyMany.
End LikePatternToken.
Notation LikePatternToken := LikePatternToken.LikePatternToken.
Import LikePatternToken.

Definition PERCENT : Z := 37.
Definition UNDERSCORE : Z := 95.

Definition next_like_pattern_token (pattern : list Z) (index : nat) (escape_char : option Z)
    : option (LikePatternToken * nat) :=
  match next_char_at pattern index with
  | None => None
  | Some (ch, next_index) =>
      if match escape_char with Some escape_ch => escape_ch =? ch | None => false end then
        match next_char_at pattern next_index with
        | Some (escaped_ch, escaped_next_index) => Some (Literal escaped_ch, escaped_next_index)
        | None => Some (Literal ch, next_index)
        end
      else if ch =? PERCENT then Some (AnyMany, next_index)
      else if ch =? UNDERSCORE then Some (AnyOne, next_index)
      else Some (Literal ch, next_index)
  end.

(** The loop after the value is used up: only [%] may remain. *)
Fixpoint trailing_many (fuel : nat) (pattern : list Z) (pattern_idx : nat) (escape_char : option Z) : option bool :=
  match fuel with
  | O => None
  | S fuel' =>
      match next_like_pattern_token pattern pattern_idx escape_char with
      | None => Some true
      | Some (AnyMany, next_pattern_idx) => trailing_many fuel' pattern next_pattern_idx escape_char
      | Some (_, _) => Some false
      end
  end.

(** One iteration of the first loop: the indices the [continue]s leave, or none
    when the code falls through to the backtracking step. *)
Definition like_step (value pattern : list Z) (escape_char : option Z) (value_idx pattern_idx : nat)
    (last_many : option (nat * nat)) : option (nat * nat * option (nat * nat)) :=
  match next_like_pattern_token pattern pattern_idx escape_char with
  | Some (Literal pattern_ch, next_pattern_idx) =>
      match next_char_at value value_idx with
      | Some (value_ch, next_value_idx) =>
          if value_ch =? pattern_ch then Some (next_value_idx, next_pattern_idx, last_many) else None
      | None => None
      end
  | Some (AnyOne, next_pattern_idx) =>
      match next_char_at value value_idx with
      | Some (_, next_value_idx) => Some (next_value_idx, next_pattern_idx, last_many)
      | None => None
      end
  | Some (AnyMany, next_pattern_idx) =>
      Some (value_idx, next_pattern_idx, Some (next_pattern_idx, value_idx))
  | None => None
  end.

Fixpoint string_like_loop (fuel : nat) (value pattern : list Z) (escape_char : option Z)
    (value_idx pattern_idx : nat) (last_many : option (nat * nat)) : option bool :=
  match fuel with
  | O => None
  | S fuel' =>
      if (value_idx <? length value)%nat then
        match like_step value pattern escape_char value_idx pattern_idx last_many with
        | Some (value_idx', pattern_idx', last_many') =>
            string_like_loop fuel' value pattern escape_char value_idx' pattern_idx' last_many'
        | None =>
            match last_many with
            | None => Some false
            | Some (after_many_pattern_idx, many_value_idx) =>
                match next_char_at value many_value_idx with
                | None => Some false
                | Some (_, next_many_value_idx) =>
                    string_like_loop fuel' value pattern escape_char
                      next_many_value_idx after_many_pattern_idx
                      (Some (after_many_pattern_idx, next_many_value_idx))
                end
            end
        end
      else trailing_many (S (length pattern)) pattern pattern_idx escape_char
  end.

(** Each backtrack moves the remembered position forward, and between two of
    them every iteration moves forward in the pattern ([string_like_spec]). *)
Definition like_fuel (value pattern : list Z) : nat := (length value + 2) * (length pattern + 2).

Definition string_like (value pattern : list Z) (escape_char : option Z) : option bool :=
  string_like_loop (like_fuel value pattern) value pattern escape_char 0 0 None.

(** * What matching means *)

Inductive like_matches : list LikePatternToken -> list Z -> Prop :=
| like_nil : like_matches [] []
| like_literal c ts cs : like_matches ts cs -> like_matches (Literal c :: ts) (c :: cs)
| like_one c ts cs : like_matches ts cs -> like_matches (AnyOne :: ts) (c :: cs)
| like_many cs' ts cs : like_matches ts cs -> like_matches (AnyMany :: ts) (cs' ++ cs).

(** ** The specification *)

(** The code points a valid UTF-8 string encodes. *)
Fixpoint code_points (s : list Z) : list Z :=
  match s with
  | [] => []
  | b :: r =>
      if b <? 0x80 then b :: code_points r
      else
        match r with
        | [] => []
        | c1 :: r1 =>
            if b <? 0xE0 then (b - 0xC0) * 64 + (c1 - 0x80) :: code_points r1
            else
              match r1 with
              | [] => []
              | c2 :: r2 =>
                  if b <? 0xF0 then ((b - 0xE0) * 64 + (c1 - 0x80)) * 64 + (c2 - 0x80) :: code_points r2
                  else
                    match r2 with
                    | [] => []
                    | c3 :: r3 =>
                        (((b - 0xF0) * 64 + (c1 - 0x80)) * 64 + (c2 - 0x80)) * 64 + (c3 - 0x80) :: code_points r3
                    end
              end
        end
  end.

(** When characters are an instance of a pattern: the escape character makes
    the next one literal and stands for itself at the end, [_] is any one
    character, [%] any run of characters, and any other character itself. *)
Inductive like (escape : option Z) : list Z -> list Z -> Prop :=
| like_empty : like escape [] []
| like_escaped e c p cs : escape = Some e -> like escape p cs -> like escape (e :: c :: p) (c :: cs)
| like_escape_last e : escape = Some e -> like escape [e] [e]
| like_underscore c p cs : escape <> Some 95 -> like escape p cs -> like escape (95 :: p) (c :: cs)
| like_percent run p cs : escape <> Some 37 -> like escape p cs -> like escape (37 :: p) (run ++ cs)
| like_char c p cs : escape <> Some c -> c <> 95 -> c <> 37 -> like escape p cs -> like escape (c :: p) (c :: cs).

(** The pattern as the tokens of the matcher. *)
Fixpoint tokens (escape : option Z) (p : list Z) : list LikePatternToken :=
  match p with
  | [] => []
  | c :: p' =>
      if bool_decide (escape = Some c) then
        match p' with
        | c' :: p'' => Literal c' :: tokens escape p''
        | [] => [Literal c]
        end
      else (if c =? PERCENT then AnyMany else if c =? UNDERSCORE then AnyOne else Literal c) :: tokens escape p'
  end.

Example like_runs :
  string_like [97; 98; 99; 98; 100] [97; 37; 98; 95] None = Some true /\
  string_like [97; 98] [37; 92; 37] (Some 92) = Some false.
Proof. vm_compute. split; reflexivity. Qed.

(** * Walking a valid string *)

Definition at_char (s : list Z) (i : nat) : Prop := (i <= length s)%nat /\ utf8_valid (drop i s) = true.

Ltac split_andb :=
  repeat match goal with H : _ && _ = true |- _ => apply andb_prop in H as [? H] end.

Lemma between_lt (lo b hi : Z) : Utf8.between lo b hi = true -> lo <= b <= hi.
Proof. unfold Utf8.between. intros. split_andb. lia. Qed.

(** A valid string starts with a whole character. *)
Lemma utf8_valid_step (b : Z) (r : list Z) :
  utf8_valid (b :: r) = true ->
  is_cont b = false /\ (1 <= lead_len b <= S (length r))%nat /\
  utf8_valid (drop (lead_len b) (b :: r)) = true.
Proof.
  unfold is_cont, lead_len. cbn [utf8_valid]. intros H.
  repeat match type of H with
  | (if Utf8.between ?lo ?b ?hi then _ else _) = true => destruct (Utf8.between lo b hi) eqn:?
  | match ?l with [] => _ | _ => _ end = true => destruct l as [|? ?]; [done|]
  end; try done;
  repeat match goal with
  | H : Utf8.between _ _ _ = true |- _ => apply between_lt in H
  | H : Utf8.between _ _ _ = false |- _ => clear H
  end;
  repeat match goal with |- context [?x <? ?y] => destruct (Z.ltb_spec x y); try lia end;
  split_andb; cbn [length drop]; repeat split; try lia; done.
Qed.

Lemma next_char_at_step (s : list Z) (i : nat) :
  at_char s i -> (i < length s)%nat ->
  exists c j, next_char_at s i = Some (c, j) /\ (i < j)%nat /\ at_char s j.
Proof.
  intros [Hi Hv] Hlt. unfold next_char_at, get_from.
  rewrite (proj2 (Nat.leb_le _ _) Hi).
  destruct (drop i s) as [|b r] eqn:E; [apply (f_equal length) in E; rewrite length_drop in E; simpl in E; lia|].
  destruct (utf8_valid_step b r Hv) as (-> & Hn & Hv').
  assert (length s = i + S (length r))%nat as Hl
    by (apply (f_equal length) in E; rewrite length_drop in E; simpl in E; lia).
  simpl first_char. cbv beta iota. eexists _, _. split; [reflexivity|]. split; [lia|].
  split; [lia|]. by rewrite <- drop_drop, E.
Qed.

Lemma next_char_at_end (s : list Z) : next_char_at s (length s) = None.
Proof. unfold next_char_at, get_from. by rewrite Nat.leb_refl, drop_all. Qed.

(** A stepping function on the positions satisfying [Q], which ends at [N]. *)
Definition steps {X : Type} (Q : nat -> Prop) (N : nat) (next : nat -> option (X * nat)) : Prop :=
  forall i, Q i -> (i <= N)%nat /\
    match next i with
    | Some (_, j) => (i < j)%nat /\ Q j
    | None => i = N
    end.

Lemma chars_step (s : list Z) : steps (at_char s) (length s) (next_char_at s).
Proof.
  intros i Hi. split; [apply Hi|]. destruct (decide (i < length s)%nat) as [Hlt|].
  - by destruct (next_char_at_step s i Hi Hlt) as (c & j & -> & ?).
  - destruct Hi as [Hi _]. replace i with (length s) by lia. by rewrite next_char_at_end.
Qed.

Lemma tokens_step (p : list Z) (esc : option Z) :
  steps (at_char p) (length p) (fun i => next_like_pattern_token p i esc).
Proof.
  intros i Hi. split; [apply Hi|]. unfold next_like_pattern_token.
  destruct (chars_step p i Hi) as [_ H]. destruct (next_char_at p i) as [[c j]|]; [|done].
  destruct H as [Hij Hj]. destruct (chars_step p j Hj) as [_ H'].
  repeat case_match; simplify_eq; try done. split; [lia|tauto].
Qed.

(** The list a stepping function yields from an index. *)
Inductive walk {X : Type} (next : nat -> option (X * nat)) : nat -> list X -> Prop :=
| walk_nil i : next i = None -> walk next i []
| walk_cons i x j l : next i = Some (x, j) -> walk next j l -> walk next i (x :: l).

Lemma walk_functional {X : Type} (next : nat -> option (X * nat)) (i : nat) (l l' : list X) :
  walk next i l -> walk next i l' -> l = l'.
Proof.
  intros H. revert l'. induction H as [i E|i x j l E _ IH]; intros l' H'; inversion H' as [? E'|? y k m E' Hm]; subst; try congruence.
  rewrite E in E'. injection E' as <- <-. f_equal. by apply IH.
Qed.

Lemma is_cont_range (c : Z) : is_cont c = true -> 0x80 <= c <= 0xBF.
Proof. unfold is_cont. intros H. split_andb. lia. Qed.

(** The first character of a valid string is its first code point. *)
Lemma first_char_code_points (b : Z) (r : list Z) :
  utf8_valid (b :: r) = true ->
  exists c, first_char (b :: r) = Some (c, lead_len b) /\ code_points (b :: r) = c :: code_points (drop (lead_len b) (b :: r)).
Proof.
  unfold first_char, lead_len. cbn [utf8_valid code_points]. intros H.
  repeat match type of H with
  | (if Utf8.between ?lo ?b ?hi then _ else _) = true => destruct (Utf8.between lo b hi) eqn:?
  | match ?l with [] => _ | _ => _ end = true => destruct l as [|? ?]; [done|]
  end; try done;
  repeat match goal with
  | H : Utf8.between _ _ _ = true |- _ => apply between_lt in H
  | H : Utf8.between _ _ _ = false |- _ => clear H
  end;
  repeat match goal with |- context [?x <? ?y] => destruct (Z.ltb_spec x y); try lia end;
  split_andb;
  repeat match goal with
  | H : is_cont _ = true |- _ => apply is_cont_range in H
  | H : Utf8.between _ _ _ = true |- _ => apply between_lt in H
  end;
  cbn [take drop Nat.sub foldl]; (eexists; split; [reflexivity|]); rewrite ?drop_0; f_equal; rewrite ?take_0; cbn [foldl];
  Z.div_mod_to_equations; lia.
Qed.

Lemma code_points_walk (s : list Z) (n i : nat) :
  (length s - i <= n)%nat -> at_char s i -> walk (next_char_at s) i (code_points (drop i s)).
Proof.
  revert i. induction n as [|n IH]; intros i Hn Hi.
  - destruct (decide (i = length s)) as [->|]; [|destruct Hi; lia]. rewrite drop_all. apply walk_nil, next_char_at_end.
  - destruct (decide (i < length s)%nat) as [Hlt|]; [|apply IH; [lia|done]].
    destruct (next_char_at_step s i Hi Hlt) as (c & j & E & Hij & Hj).
    assert (code_points (drop i s) = c :: code_points (drop j s)) as ->.
    { destruct Hi as [Hi Hv]. unfold next_char_at, get_from in E. rewrite (proj2 (Nat.leb_le _ _) Hi) in E.
      destruct (drop i s) as [|b r] eqn:Ed; [done|]. destruct (utf8_valid_step b r Hv) as (Hb & _). rewrite Hb in E.
      destruct (first_char_code_points b r Hv) as (c' & Ec & ->). rewrite Ec in E. injection E as -> <-.
      by rewrite <- Ed, drop_drop. }
    eapply walk_cons; [exact E|]. apply IH; [lia|done].
Qed.

(** The tokens the code reads are those of the code points. *)
Lemma tokens_walk (p : list Z) (esc : option Z) (n : nat) : forall i,
  (length p - i <= n)%nat -> at_char p i ->
  walk (fun i => next_like_pattern_token p i esc) i (tokens esc (code_points (drop i p))).
Proof.
  induction n as [n IH] using lt_wf_ind. intros i Hn Hi. pose proof (code_points_walk p n i Hn Hi) as Hw.
  destruct (chars_step p i Hi) as [_ Hs]. inversion Hw as [? E Hc|? c j cs E Hcs Hc].
  { apply walk_nil. unfold next_like_pattern_token. by rewrite E. }
  rewrite E in Hs. destruct Hs as [Hij Hj]. pose proof (proj1 Hj) as Hjl.
  assert (cs = code_points (drop j p)) as Ecs.
  { by apply (walk_functional (next_char_at p) j); [|apply (code_points_walk p n j ltac:(lia))]. }
  cbn [tokens]. case_bool_decide as He.
  - destruct (chars_step p j Hj) as [_ Hs']. rewrite Ecs. pose proof (code_points_walk p n j ltac:(lia) Hj) as Hw'.
    inversion Hw' as [? E' Hc'|? c' k cs' E' Hcs' Hc'].
    + eapply walk_cons; [unfold next_like_pattern_token; rewrite E, He, Z.eqb_refl, E'; reflexivity|].
      apply walk_nil. unfold next_like_pattern_token. by rewrite E'.
    + rewrite E' in Hs'. destruct Hs' as [Hjk Hk]. pose proof (proj1 Hk) as Hkl.
      eapply walk_cons; [unfold next_like_pattern_token; rewrite E, He, Z.eqb_refl, E'; reflexivity|].
      assert (cs' = code_points (drop k p)) as ->; [|apply (IH (length p - k)%nat); [lia|lia|done]].
      by apply (walk_functional (next_char_at p) k); [|apply (code_points_walk p n k ltac:(lia))].
  - eapply walk_cons; [|rewrite Ecs; apply (IH (length p - j)%nat); [lia|lia|done]].
    unfold next_like_pattern_token. rewrite E.
    replace (match esc with Some escape_ch => escape_ch =? c | None => false end) with false.
    + by destruct (c =? PERCENT), (c =? UNDERSCORE).
    + destruct esc as [e|]; [|done]. symmetry. apply Z.eqb_neq. congruence.
Qed.

(** * Matching *)

(** Tokens other than [%] against the characters they consumed. *)
Definition token_takes (t : LikePatternToken) (c : Z) : Prop :=
  match t with
  | Literal c' => c' = c
  | AnyOne => True
  | AnyMany => False
  end.
Definition aligned : list LikePatternToken -> list Z -> Prop := Forall2 token_takes.

Lemma like_takes (t : LikePatternToken) (c : Z) ts cs :
  token_takes t c -> like_matches (t :: ts) (c :: cs) <-> like_matches ts cs.
Proof.
  destruct t; simpl; intros H; simplify_eq; split; intros Hm; try (by constructor);
    by inversion Hm.
Qed.

Lemma aligned_matches seg cs ts vs :
  aligned seg cs -> like_matches (seg ++ ts) (cs ++ vs) <-> like_matches ts vs.
Proof. induction 1 as [|t c seg cs Ht Hseg IH]; [done|]. simpl. by rewrite like_takes. Qed.

Lemma like_many_iff ts cs :
  like_matches (AnyMany :: ts) cs <-> exists n, (n <= length cs)%nat /\ like_matches ts (drop n cs).
Proof.
  split.
  - inversion 1 as [| | |cs' ? cs0 Hm]; subst. exists (length cs').
    rewrite length_app, drop_app_length. split; [lia|done].
  - intros (n & Hn & Hm). rewrite <- (take_drop n cs). by constructor.
Qed.

Lemma like_many_drop ts n cs :
  (n <= length cs)%nat -> like_matches (AnyMany :: ts) (drop n cs) -> like_matches (AnyMany :: ts) cs.
Proof.
  rewrite !like_many_iff. intros Hn (m & Hm & H). rewrite length_drop in Hm.
  exists (n + m)%nat. split; [lia|]. by rewrite <- drop_drop.
Qed.

Lemma like_app_inv seg ts xs :
  Forall (fun t => t <> AnyMany) seg -> like_matches (seg ++ ts) xs ->
  exists cs vs, xs = cs ++ vs /\ length cs = length seg /\ like_matches ts vs.
Proof.
  intros Hs. revert xs. induction Hs as [|t seg Ht _ IH]; intros xs Hm; [by exists [], xs|].
  inversion Hm as [|c ts' cs H|c ts' cs H|]; subst; try done;
    destruct (IH _ H) as (cs1 & vs & -> & Hl & Hts); exists (c :: cs1), vs; simpl; auto.
Qed.

Lemma aligned_not_many seg cs : aligned seg cs -> Forall (fun t => t <> AnyMany) seg.
Proof. induction 1 as [|[] ?]; constructor; auto; by simpl in *. Qed.

(** At a further [%] the segment before it is settled where it was found. *)
Lemma like_commit seg cs ts vs :
  aligned seg cs ->
  like_matches (AnyMany :: seg ++ AnyMany :: ts) (cs ++ vs) <-> like_matches (AnyMany :: ts) vs.
Proof.
  intros Ha. split.
  - intros (n & Hn & Hm)%like_many_iff.
    apply (like_app_inv seg) in Hm as (cs1 & vs1 & Heq & Hl & Hm); [|by eapply aligned_not_many].
    pose proof Ha as Hla; apply Forall2_length in Hla. rewrite length_app in Hn.
    assert (vs1 = drop n vs) as ->.
    { apply (f_equal (drop (length cs1))) in Heq. rewrite drop_drop, drop_app_length in Heq.
      rewrite <- Heq, (Nat.add_comm n), <- drop_drop. f_equal. by rewrite Hl, Hla, drop_app_length. }
    apply (f_equal length) in Heq. rewrite length_drop, !length_app, length_drop in Heq.
    eapply like_many_drop; [|done]. lia.
  - intros Hm. apply like_many_iff. exists 0%nat. split; [lia|]. by apply aligned_matches.
Qed.

(** When the segment cannot be continued here, the match starts further on. *)
Lemma like_retry seg cs ts vs c mvs :
  aligned seg cs -> ~ like_matches ts vs -> cs ++ vs = c :: mvs ->
  like_matches (AnyMany :: seg ++ ts) (cs ++ vs) <-> like_matches (AnyMany :: seg ++ ts) mvs.
Proof.
  intros Ha Hno Heq. rewrite Heq. split.
  - intros (n & Hn & Hm)%like_many_iff. simpl in Hn. destruct n as [|n].
    + rewrite drop_0, <- Heq, aligned_matches in Hm by done. done.
    + apply like_many_iff. exists n. split; [lia|done].
  - apply (like_many_drop _ 1 (c :: mvs)). simpl. lia.
Qed.

(** At the end of the value the segment has no room to move. *)
Lemma like_finish seg cs ts :
  aligned seg cs -> like_matches (AnyMany :: seg ++ ts) cs <-> like_matches ts [].
Proof.
  intros Ha. split.
  - intros (n & Hn & Hm)%like_many_iff. pose proof Hm as Hm'.
    apply (like_app_inv seg) in Hm' as (cs1 & vs1 & Heq & Hl & _); [|by eapply aligned_not_many].
    apply (f_equal length) in Heq. rewrite length_drop, length_app in Heq.
    pose proof Ha as Hla; apply Forall2_length in Hla. assert (n = 0%nat) as -> by lia. rewrite drop_0 in Hm.
    rewrite <- (app_nil_r cs) in Hm. by apply aligned_matches in Hm.
  - intros Hm. apply like_many_iff. exists 0%nat. rewrite drop_0. split; [lia|].
    rewrite <- (app_nil_r cs). by apply aligned_matches.
Qed.

Lemma trailing_many_spec (fuel : nat) p esc i ps :
  at_char p i -> walk (fun i => next_like_pattern_token p i esc) i ps -> (length p - i < fuel)%nat ->
  exists b, trailing_many fuel p i esc = Some b /\ (b = true <-> like_matches ps []).
Proof.
  revert i ps. induction fuel as [|fuel IH]; intros i ps Hi Hw Hf; [lia|]. simpl.
  destruct (tokens_step p esc i Hi) as [HN H]. inversion Hw as [? E|? t j l E Hl]; subst; rewrite E in *.
  - exists true. split; [done|]. split; [constructor|done].
  - destruct H as [Hij Hj]. pose proof (proj1 Hj) as Hj'. destruct t.
    + exists false. split; [done|]. split; [done|inversion 1].
    + exists false. split; [done|]. split; [done|inversion 1].
    + destruct (IH j l Hj Hl) as (b & -> & Hb); [lia|]. exists b. split; [done|].
      rewrite Hb. split; [by apply (like_many [])|].
      intros (n & _ & Hm)%like_many_iff. by rewrite drop_nil in Hm.
Qed.

(** * The loop *)

Section Loop.
Context (value pattern : list Z) (esc : option Z).
Let nextv := next_char_at value.
Let nextp := fun i => next_like_pattern_token pattern i esc.

(** What is left to decide: at the current position, or anywhere from the last
    [%] on, whose segment so far is aligned with the characters after it. *)
Definition like_goal (last_many : option (nat * nat)) (vi : nat) (ps : list LikePatternToken) (vs : list Z)
    (goal : Prop) : Prop :=
  match last_many with
  | None => goal = like_matches ps vs
  | Some (mp, mv) =>
      (mv <= vi)%nat /\ at_char pattern mp /\ at_char value mv /\
      exists seg cs, walk nextp mp (seg ++ ps) /\ walk nextv mv (cs ++ vs) /\ aligned seg cs /\
        goal = like_matches (AnyMany :: seg ++ ps) (cs ++ vs)
  end.

Definition like_measure (pi : nat) (last_many : option (nat * nat)) : nat :=
  (length pattern + 1) * match last_many with None => length value + 1 | Some (_, mv) => length value - mv end
  + (length pattern - pi).

(** One token and one character are consumed. *)
Lemma like_goal_take lm vi vi' t c ps vs goal :
  (vi <= vi')%nat -> token_takes t c -> like_goal lm vi (t :: ps) (c :: vs) goal ->
  exists goal', (goal <-> goal') /\ like_goal lm vi' ps vs goal'.
Proof.
  intros Hv Ht. destruct lm as [[mp mv]|]; simpl.
  - intros (Hle & Hp & Hmv & seg & cs & Hwp & Hwv & Ha & ->). eexists. split; [reflexivity|].
    split; [lia|]. do 2 (split; [done|]). exists (seg ++ [t]), (cs ++ [c]). rewrite <- !(assoc_L app). simpl.
    do 2 (split; [done|]). split; [|done]. apply Forall2_app; [done|]. by repeat constructor.
  - intros ->. exists (like_matches ps vs). split; [by apply like_takes|done].
Qed.

(** A [%] becomes the position to come back to. *)
Lemma like_goal_many lm vi pi ps vs goal :
  at_char value vi -> at_char pattern pi -> walk nextp pi ps -> walk nextv vi vs ->
  like_goal lm vi (AnyMany :: ps) vs goal ->
  exists goal', (goal <-> goal') /\ like_goal (Some (pi, vi)) vi ps vs goal'.
Proof.
  intros Hv Hp Hwp Hwv H. exists (like_matches (AnyMany :: ps) vs). split.
  - destruct lm as [[mp mv]|]; simpl in H; [|by subst].
    destruct H as (_ & _ & _ & seg & cs & _ & _ & Ha & ->). by apply like_commit.
  - simpl. split; [lia|]. do 2 (split; [done|]). exists [], []. repeat split; try done. constructor.
Qed.

Lemma like_step_none vi pi lm ps vs :
  (vi < length value)%nat -> at_char value vi -> walk nextp pi ps -> walk nextv vi vs ->
  like_step value pattern esc vi pi lm = None -> ~ like_matches ps vs.
Proof.
  intros Hlt Hv Hwp Hwv. destruct (next_char_at_step value vi Hv Hlt) as (c & j & E & _ & _).
  unfold like_step. inversion Hwv as [? E'|? c' j' vs' E' Hvs]; subst; unfold nextv in E'; [congruence|].
  rewrite E'. inversion Hwp as [? Ep|? t i ps' Ep Hps]; subst; unfold nextp in Ep; rewrite Ep; intros H Hm.
  - inversion Hm.
  - destruct t; try done. case_match; [done|]. inversion Hm; subst. lia.
Qed.

(** An iteration that moves forward keeps the goal and lowers the measure. *)
Lemma like_step_some vi pi lm ps vs goal vi' pi' lm' :
  at_char value vi -> at_char pattern pi -> walk nextp pi ps -> walk nextv vi vs ->
  like_goal lm vi ps vs goal ->
  like_step value pattern esc vi pi lm = Some (vi', pi', lm') ->
  exists ps' vs' goal', (goal <-> goal') /\ at_char value vi' /\ at_char pattern pi' /\
    walk nextp pi' ps' /\ walk nextv vi' vs' /\ like_goal lm' vi' ps' vs' goal' /\
    (like_measure pi' lm' < like_measure pi lm)%nat.
Proof.
  intros Hv Hp Hwp Hwv Hg. unfold like_step, like_measure.
  destruct (tokens_step pattern esc pi Hp) as [Hpl H]. destruct (chars_step value vi Hv) as [Hvl H'].
  inversion Hwp as [? Ep|? t i ps' Ep Hps]; subst; unfold nextp in Ep; rewrite Ep in *; [done|].
  destruct H as [Hpi Hi]. pose proof (proj1 Hi) as Hil.
  assert (forall c j, next_char_at value vi = Some (c, j) -> token_takes t c ->
    exists vs' goal', (goal <-> goal') /\ at_char value j /\ walk nextv j vs' /\ like_goal lm j ps' vs' goal')
    as Htake.
  { intros c j Ev Ht. rewrite Ev in H'. destruct H' as [Hj Hj'].
    inversion Hwv as [? E'|? c' j' vs' E' Hvs]; subst; unfold nextv in E';
      rewrite Ev in E'; [done|]. injection E' as <- <-.
    destruct (like_goal_take lm vi j t c ps' vs' goal) as (goal' & ? & ?); [lia|done|done|].
    by exists vs', goal'. }
  destruct t as [pc| |].
  - destruct (next_char_at value vi) as [[vc j]|] eqn:Ev; [|done]. case_match eqn:Ec; [|done].
    intros [= <- <- <-]. destruct (Htake vc j) as (vs' & goal' & ? & ? & ? & ?); [done|simpl; lia|].
    exists ps', vs', goal'. repeat (split; [done|]). lia.
  - destruct (next_char_at value vi) as [[vc j]|] eqn:Ev; [|done].
    intros [= <- <- <-]. destruct (Htake vc j) as (vs' & goal' & ? & ? & ? & ?); [done|done|].
    exists ps', vs', goal'. repeat (split; [done|]). lia.
  - intros [= <- <- <-]. destruct (like_goal_many lm vi i ps' vs goal) as (goal' & ? & ?); [done..|].
    exists ps', vs, goal'. repeat (split; [done|]).
    destruct lm as [[mp mv]|]; [destruct Hg as [Hmv _]|]; nia.
Qed.

Lemma string_like_loop_spec (fuel : nat) : forall vi pi lm ps vs goal,
  at_char value vi -> at_char pattern pi -> walk nextp pi ps -> walk nextv vi vs ->
  like_goal lm vi ps vs goal -> (like_measure pi lm < fuel)%nat ->
  exists b, string_like_loop fuel value pattern esc vi pi lm = Some b /\ (b = true <-> goal).
Proof.
  induction fuel as [|fuel IH]; intros vi pi lm ps vs goal Hv Hp Hwp Hwv Hg Hf; [lia|].
  cbn [string_like_loop]. destruct (Nat.ltb_spec vi (length value)) as [Hlt|Hge].
  - destruct (like_step value pattern esc vi pi lm) as [[[vi' pi'] lm']|] eqn:E.
    + destruct (like_step_some vi pi lm ps vs goal vi' pi' lm')
        as (ps' & vs' & goal' & Hgg & ? & ? & ? & ? & ? & ?); [done..|].
      destruct (IH vi' pi' lm' ps' vs' goal') as (b & -> & Hb); [done..|lia|].
      exists b. by rewrite Hb, Hgg.
    + pose proof (like_step_none vi pi lm ps vs Hlt Hv Hwp Hwv E) as Hno.
      destruct lm as [[mp mv]|]; simpl in Hg; [|exists false; subst; split; [done|split; done]].
      destruct Hg as (Hmv & Hmp & Hmva & seg & cs & Hwmp & Hwmv & Ha & ->).
      destruct (next_char_at_step value mv Hmva) as (c & j & Ej & Hj & Hja); [lia|]. rewrite Ej.
      pose proof (proj1 Hja) as Hjl. pose proof (proj1 Hmp) as Hmpl.
      inversion Hwmv as [? E' Hnil|? c' j' mvs E' Hmvs Hcons]; unfold nextv in E'; rewrite Ej in E'; simplify_eq.
      destruct (IH j' mp (Some (mp, j')) (seg ++ ps) mvs (like_matches (AnyMany :: seg ++ ps) mvs))
        as (b & -> & Hb); try done.
      * simpl. split; [lia|]. do 2 (split; [done|]). exists [], []. repeat split; try done. constructor.
      * unfold like_measure in *. nia.
      * exists b. split; [done|]. rewrite Hb. symmetry.
        match goal with H : c' :: mvs = cs ++ vs |- _ => rewrite H; by eapply (like_retry seg cs ps vs c' mvs) end.
  - destruct Hv as [Hvl Hv]. assert (vi = length value) as -> by lia.
    inversion Hwv as [? E'|? c' j' mvs E' Hmvs]; subst; unfold nextv in E'; [|by rewrite next_char_at_end in E'].
    destruct (trailing_many_spec (S (length pattern)) pattern esc pi ps) as (b & -> & Hb); [done..|lia|].
    exists b. split; [done|]. rewrite Hb. destruct lm as [[mp mv]|]; simpl in Hg; [|by subst].
    destruct Hg as (_ & _ & _ & seg & cs & _ & _ & Ha & ->). rewrite app_nil_r. symmetry. by apply like_finish.
Qed.
End Loop.

(** ** The tokens mean what the pattern means *)

Lemma tokens_like (esc : option Z) (p cs : list Z) : like_matches (tokens esc p) cs <-> like esc p cs.
Proof.
  split.
  - revert cs. induction p as [p IH] using (well_founded_induction (Wf_nat.well_founded_ltof _ (@length Z))).
    unfold Wf_nat.ltof in IH. destruct p as [|c p]; intros cs H; [inversion H; constructor|]. cbn [tokens] in H.
    case_bool_decide as He.
    + destruct p as [|c' p]; inversion H as [|? ? cs' Hm| |]; subst.
      * inversion Hm; subst. by apply like_escape_last.
      * apply like_escaped; [done|]. apply IH; [simpl; lia|done].
    + unfold PERCENT, UNDERSCORE in H.
      destruct (Z.eqb_spec c 37) as [->|]; [|destruct (Z.eqb_spec c 95) as [->|]]; inversion H as [|? ? cs' Hm|? ? cs' Hm|? ? cs' Hm]; subst.
      * apply like_percent; [done|]. apply IH; [simpl; lia|done].
      * apply like_underscore; [done|]. apply IH; [simpl; lia|done].
      * apply like_char; [done..|]. apply IH; [simpl; lia|done].
  - induction 1 as [|e c p cs He _ IH|e He|c p cs He _ IH|run p cs He _ IH|c p cs He H1 H2 _ IH]; cbn [tokens];
      first [rewrite bool_decide_true by done|rewrite bool_decide_false by done|idtac];
      unfold PERCENT, UNDERSCORE; rewrite ?(proj2 (Z.eqb_neq c 37)), ?(proj2 (Z.eqb_neq c 95)) by done;
      repeat (constructor; try done).
Qed.

Lemma string_like_decides (value pattern : list Z) (escape_char : option Z) :
  utf8_valid value = true -> utf8_valid pattern = true ->
  exists b, string_like value pattern escape_char = Some b /\
    (b = true <-> like escape_char (code_points pattern) (code_points value)).
Proof.
  intros Hv Hp. unfold string_like. setoid_rewrite <- tokens_like.
  assert (at_char value 0) as Hv0 by (split; [lia|by rewrite drop_0]).
  assert (at_char pattern 0) as Hp0 by (split; [lia|by rewrite drop_0]).
  eapply string_like_loop_spec; try done.
  - pose proof (tokens_walk pattern escape_char (length pattern) 0 ltac:(lia) Hp0) as Hw. rewrite drop_0 in Hw. exact Hw.
  - pose proof (code_points_walk value (length value) 0 ltac:(lia) Hv0) as Hw. rewrite drop_0 in Hw. exact Hw.
  - unfold like_measure, like_fuel. nia.
Qed.

(** C29: [LIKE]. On valid strings the matcher always finishes, and its answer is
    whether the code points of the value are an instance of those of the
    pattern: [_] (95) is any one character, [%] (37) any run of characters,
    the escape character makes the next one literal, and every other character
    is itself. *)
Theorem string_like_spec (value pattern : list Z) (escape_char : option Z) :
  utf8_valid value = true -> utf8_valid pattern = true ->
  exists b, string_like value pattern escape_char = Some b /\
    (b = true <-> like escape_char (code_points pattern) (code_points value)).
Proof. apply string_like_decides. Qed.

(** [é5%] against [_5\%%]. *)
Lemma string_like_spec_witness :
  exists b, string_like [195; 169; 53; 37] [95; 53; 92; 37; 37] (Some 92) = Some b /\
    (b = true <-> like (Some 92) [95; 53; 92; 37; 37] [233; 53; 37]) /\ b = true.
Proof.
  destruct (string_like_spec [195; 169; 53; 37] [95; 53; 92; 37; 37] (Some 92) eq_refl eq_refl) as (b & E & H).
  exists b. split; [exact E|]. split; [exact H|]. vm_compute in E. by injection E.
Defined.
