(* ===== verification/Evaluators.v ===== *)
(** The operator evaluators (src/src/types/evaluator: binary.rs, unary.rs,
    boolean.rs, tuple.rs, null.rs, utf8.rs, time64.rs, float32.rs, float64.rs
    and the integer files, which instantiate the macros of binary.rs and
    unary.rs).

    The binder asks [binary_create] for the evaluator of an operator at a type
    and stores the position it gets; [eval_binary] finds the evaluator behind a
    position. An arm the code declares unreachable is [Err Panic]. *)

From S2P Require Import Prelude MachineInt Types Operators Value Time32 Chrono FloatArith Like.
From stdpp Require Import base tactics list list_numbers numbers option.
From Stdlib Require Import ZArith Lia.
Local Open Scope Z_scope.

Section Evaluators.
Context {OF : OrderedFloat} {CH : Chrono}.
Implicit Types left right value : DataValue.

(** The four ways the evaluators meet their operands: two values of the type,
    one or two nulls, or something the binder never builds. *)
Definition with_operands {A : Type} (get : DataValue -> option A) (f : A -> A -> res DataValue)
    left right : res DataValue :=
  match get left, get right with
  | Some v1, Some v2 => f v1 v2
  | Some _, None => if is_null right then Ok DataValue.Null else Err Panic
  | None, Some _ => if is_null left then Ok DataValue.Null else Err Panic
  | None, None => if is_null left && is_null right then Ok DataValue.Null else Err Panic
  end.

Definition of_bool (b : bool) : res DataValue := Ok (DataValue.Boolean b).

(** [is_gt] and the like on an [Ordering]. *)
Definition c_gt (c : comparison) : bool := match c with Gt => true | _ => false end.
Definition c_ge (c : comparison) : bool := match c with Lt => false | _ => true end.
Definition c_lt (c : comparison) : bool := match c with Lt => true | _ => false end.
Definition c_le (c : comparison) : bool := match c with Gt => false | _ => true end.
Definition c_eq (c : comparison) : bool := match c with Eq => true | _ => false end.
Definition c_ne (c : comparison) : bool := match c with Eq => false | _ => true end.

(** * Numbers *)

(** An instance of [numeric_binary_evaluator_definition!]. *)
Record Numeric := {
  num_make : Z -> DataValue;
  num_get : DataValue -> option Z;
  num_signed : bool;
  num_width : Z;
}.

Definition num_checked (N : Numeric) (v : Z) : option Z :=
  if num_signed N then checked_s (num_width N) v else checked_u (num_width N) v.

Definition num_result (N : Numeric) (v : Z) : res DataValue :=
  match num_checked N v with
  | Some r => Ok (num_make N r)
  | None => Err OverFlow
  end.

Definition Int8_num := {| num_make := DataValue.Int8; num_signed := true; num_width := 8;
  num_get := fun v => match v with DataValue.Int8 x => Some x | _ => None end |}.
Definition Int16_num := {| num_make := DataValue.Int16; num_signed := true; num_width := 16;
  num_get := fun v => match v with DataValue.Int16 x => Some x | _ => None end |}.
Definition Int32_num := {| num_make := DataValue.Int32; num_signed := true; num_width := 32;
  num_get := fun v => match v with DataValue.Int32 x => Some x | _ => None end |}.
Definition Int64_num := {| num_make := DataValue.Int64; num_signed := true; num_width := 64;
  num_get := fun v => match v with DataValue.Int64 x => Some x | _ => None end |}.
Definition UInt8_num := {| num_make := DataValue.UInt8; num_signed := false; num_width := 8;
  num_get := fun v => match v with DataValue.UInt8 x => Some x | _ => None end |}.
Definition UInt16_num := {| num_make := DataValue.UInt16; num_signed := false; num_width := 16;
  num_get := fun v => match v with DataValue.UInt16 x => Some x | _ => None end |}.
Definition UInt32_num := {| num_make := DataValue.UInt32; num_signed := false; num_width := 32;
  num_get := fun v => match v with DataValue.UInt32 x => Some x | _ => None end |}.
Definition UInt64_num := {| num_make := DataValue.UInt64; num_signed := false; num_width := 64;
  num_get := fun v => match v with DataValue.UInt64 x => Some x | _ => None end |}.
Definition Date_num := {| num_make := DataValue.Date32; num_signed := true; num_width := 32;
  num_get := fun v => match v with DataValue.Date32 x => Some x | _ => None end |}.
Definition DateTime_num := {| num_make := DataValue.Date64; num_signed := true; num_width := 64;
  num_get := fun v => match v with DataValue.Date64 x => Some x | _ => None end |}.

Definition numeric_plus_binary_eval (N : Numeric) : DataValue -> DataValue -> res DataValue :=
  with_operands (num_get N) (fun v1 v2 => num_result N (v1 + v2)).
Definition numeric_minus_binary_eval (N : Numeric) : DataValue -> DataValue -> res DataValue :=
  with_operands (num_get N) (fun v1 v2 => num_result N (v1 - v2)).
Definition numeric_multiply_binary_eval (N : Numeric) : DataValue -> DataValue -> res DataValue :=
  with_operands (num_get N) (fun v1 v2 => num_result N (v1 * v2)).
Definition numeric_divide_binary_eval (N : Numeric) : DataValue -> DataValue -> res DataValue :=
  with_operands (num_get N) (fun v1 v2 =>
    Ok (DataValue.Float64 (float_div f64 (float_of_int f64 v1) (float_of_int f64 v2)))).
Definition numeric_cmp_binary_eval (test : comparison -> bool) (N : Numeric)
    : DataValue -> DataValue -> res DataValue :=
  with_operands (num_get N) (fun v1 v2 => of_bool (test (v1 ?= v2))).

(** [*v1 % *v2] panics on [MIN % -1]. *)
Definition numeric_mod_binary_eval (N : Numeric) : DataValue -> DataValue -> res DataValue :=
  with_operands (num_get N) (fun v1 v2 =>
    if v2 =? 0 then Ok DataValue.Null
    else if num_signed N && (v1 =? - 2 ^ (num_width N - 1)) && (v2 =? -1) then Err Panic
    else Ok (num_make N (Z.rem v1 v2))).

(** * Floats *)

Record Floating := {
  fl_format : FloatFormat;
  fl_inf : Z;
  fl_make : Z -> DataValue;
  fl_get : DataValue -> option Z;
}.

Definition Float32_num := {| fl_format := f32; fl_inf := f32_inf; fl_make := DataValue.Float32;
  fl_get := fun v => match v with DataValue.Float32 x => Some x | _ => None end |}.
Definition Float64_num := {| fl_format := f64; fl_inf := f64_inf; fl_make := DataValue.Float64;
  fl_get := fun v => match v with DataValue.Float64 x => Some x | _ => None end |}.

Definition float_arith_binary_eval (op : FloatFormat -> Z -> Z -> Z) (F : Floating)
    : DataValue -> DataValue -> res DataValue :=
  with_operands (fl_get F) (fun v1 v2 => Ok (fl_make F (op (fl_format F) v1 v2))).

(** [v1.0 as f64 / v2.0 as f64]; the conversion of an [f64] is itself. *)
Definition float32_divide_binary_eval : DataValue -> DataValue -> res DataValue :=
  with_operands (fl_get Float32_num) (fun v1 v2 =>
    Ok (DataValue.Float64 (float_div f64 (float_convert f32 f64 v1) (float_convert f32 f64 v2)))).
Definition float64_divide_binary_eval : DataValue -> DataValue -> res DataValue :=
  with_operands (fl_get Float64_num) (fun v1 v2 => Ok (DataValue.Float64 (float_div f64 v1 v2))).

Definition float_cmp_binary_eval (test : comparison -> bool) (F : Floating)
    : DataValue -> DataValue -> res DataValue :=
  with_operands (fl_get F) (fun v1 v2 => of_bool (test (of_cmp (fw (fl_format F)) (fl_inf F) v1 v2))).

(** * Booleans, tuples, null *)

Definition boolean_not_unary_eval value : res DataValue :=
  match value with
  | DataValue.Boolean value => of_bool (negb value)
  | DataValue.Null => Ok DataValue.Null
  | _ => Err Panic
  end.

Definition boolean_and_binary_eval left right : res DataValue :=
  match left, right with
  | DataValue.Boolean v1, DataValue.Boolean v2 => of_bool (v1 && v2)
  | DataValue.Boolean false, DataValue.Null | DataValue.Null, DataValue.Boolean false => of_bool false
  | DataValue.Null, DataValue.Null
  | DataValue.Boolean true, DataValue.Null
  | DataValue.Null, DataValue.Boolean true => Ok DataValue.Null
  | _, _ => Err Panic
  end.

Definition boolean_or_binary_eval left right : res DataValue :=
  match left, right with
  | DataValue.Boolean v1, DataValue.Boolean v2 => of_bool (v1 || v2)
  | DataValue.Boolean true, DataValue.Null | DataValue.Null, DataValue.Boolean true => of_bool true
  | DataValue.Null, DataValue.Null
  | DataValue.Boolean false, DataValue.Null
  | DataValue.Null, DataValue.Boolean false => Ok DataValue.Null
  | _, _ => Err Panic
  end.

Definition boolean_get (v : DataValue) : option bool :=
  match v with DataValue.Boolean b => Some b | _ => None end.

Definition boolean_eq_binary_eval : DataValue -> DataValue -> res DataValue :=
  with_operands boolean_get (fun v1 v2 => of_bool (eqb v1 v2)).
Definition boolean_not_eq_binary_eval : DataValue -> DataValue -> res DataValue :=
  with_operands boolean_get (fun v1 v2 => of_bool (negb (eqb v1 v2))).

(** Beside two tuples and two nulls, the tuple evaluators expect a null with a
    boolean; a tuple with a null is an unreachable arm. *)
Definition tuple_binary (f : list DataValue -> list DataValue -> DataValue) left right : res DataValue :=
  match left, right with
  | DataValue.Tuple v1, DataValue.Tuple v2 => Ok (f v1 v2)
  | DataValue.Null, DataValue.Boolean _ | DataValue.Boolean _, DataValue.Null
  | DataValue.Null, DataValue.Null => Ok DataValue.Null
  | _, _ => Err Panic
  end.

(** The loop of [tuple_cmp]; elements are compared by [PartialOrd]. *)
Fixpoint tuple_cmp (v1 v2 : list DataValue) : option comparison :=
  match v1, v2 with
  | x :: v1', y :: v2' =>
      match partial_cmp x y with
      | None => None
      | Some Eq => tuple_cmp v1' v2'
      | Some c => Some c
      end
  | _ :: _, [] => Some Gt
  | [], _ :: _ => Some Lt
  | [], [] => Some Eq
  end.

Definition tuple_eq_binary_eval : DataValue -> DataValue -> res DataValue :=
  tuple_binary (fun v1 v2 => DataValue.Boolean (dv_eq (DataValue.Tuple v1) (DataValue.Tuple v2))).
Definition tuple_not_eq_binary_eval : DataValue -> DataValue -> res DataValue :=
  tuple_binary (fun v1 v2 => DataValue.Boolean (negb (dv_eq (DataValue.Tuple v1) (DataValue.Tuple v2)))).

(** [tuple_order_binary!]: incomparable tuples give null. *)
Definition tuple_order_binary (is_order : comparison -> bool) : DataValue -> DataValue -> res DataValue :=
  tuple_binary (fun v1 v2 =>
    match tuple_cmp v1 v2 with
    | Some order => DataValue.Boolean (is_order order)
    | None => DataValue.Null
    end).

Definition null_binary_eval (_ _ : DataValue) : res DataValue := Ok DataValue.Null.

(** * Strings *)

Definition utf8_get (v : DataValue) : option (list Z) :=
  match v with DataValue.Utf8 s _ _ => Some s | _ => None end.

Definition utf8_cmp_binary_eval (test : comparison -> bool) : DataValue -> DataValue -> res DataValue :=
  with_operands utf8_get (fun v1 v2 => of_bool (test (lex_cmp v1 v2))).

Definition utf8_string_concat_binary_eval : DataValue -> DataValue -> res DataValue :=
  with_operands utf8_get (fun v1 v2 => Ok (DataValue.Utf8 (v1 ++ v2) (Variable_ None) Characters)).

(** [string_like] ends on every pair of strings ([string_like_spec]). *)
Definition utf8_like (negated : bool) (escape_char : option Z) : DataValue -> DataValue -> res DataValue :=
  with_operands utf8_get (fun s pattern =>
    match string_like s pattern escape_char with
    | Some b => of_bool (xorb negated b)
    | None => Err Panic
    end).
Definition utf8_like_binary_eval : option Z -> DataValue -> DataValue -> res DataValue := utf8_like false.
Definition utf8_not_like_binary_eval : option Z -> DataValue -> DataValue -> res DataValue := utf8_like true.

(** * Times *)

Definition time_lt_binary_eval := time_order_binary c_lt.
Definition time_lt_eq_binary_eval := time_order_binary c_le.
Definition time_eq_binary_eval := time_order_binary c_eq.
Definition time_not_eq_binary_eval left right : res DataValue :=
  let? r := time_eq_binary_eval left right in
  Ok match r with
     | DataValue.Boolean value => DataValue.Boolean (negb value)
     | value => value
     end.

Definition time64_get (v : DataValue) : option (Z * Z) :=
  match v with DataValue.Time64 x p _ => Some (x, p) | _ => None end.

(** [time64_binary!]: both timestamps at the larger precision. *)
Definition time64_binary (test : comparison -> bool) : DataValue -> DataValue -> res DataValue :=
  with_operands time64_get (fun '(v1, p1) '(v2, p2) =>
    let? d1 := from_timestamp_precision v1 p1 in
    let? d2 := from_timestamp_precision v2 p2 in
    match d1, d2 with
    | Some d1, Some d2 =>
        let p := if p1 <? p2 then p2 else p1 in
        let? t1 := timestamp_precision d1 p in
        let? t2 := timestamp_precision d2 p in
        of_bool (test (t1 ?= t2))
    | _, _ => Ok DataValue.Null
    end).

(** * Unary operators *)

Definition numeric_plus_unary_eval value : DataValue := value.

(** [-value] overflows on [MIN]. *)
Definition numeric_minus_unary_eval (N : Numeric) value : res DataValue :=
  match num_get N value with
  | Some v => match num_checked N (- v) with Some r => Ok (num_make N r) | None => Err Panic end
  | None => if is_null value then Ok DataValue.Null else Err Panic
  end.

Definition float_minus_unary_eval (F : Floating) value : res DataValue :=
  match fl_get F value with
  | Some v => Ok (fl_make F (float_neg (fl_format F) v))
  | None => if is_null value then Ok DataValue.Null else Err Panic
  end.

(** * Positions *)

Definition NUMERIC_PLUS_OFFSET : Z := 0.
Definition NUMERIC_MINUS_OFFSET : Z := 1.
Definition NUMERIC_MULTIPLY_OFFSET : Z := 2.
Definition NUMERIC_DIVIDE_OFFSET : Z := 3.
Definition NUMERIC_GT_OFFSET : Z := 4.
Definition NUMERIC_GT_EQ_OFFSET : Z := 5.
Definition NUMERIC_LT_OFFSET : Z := 6.
Definition NUMERIC_LT_EQ_OFFSET : Z := 7.
Definition NUMERIC_EQ_OFFSET : Z := 8.
Definition NUMERIC_NOT_EQ_OFFSET : Z := 9.
Definition NUMERIC_MODULO_OFFSET : Z := 10.
Definition NUMERIC_OPS_LEN : Z := NUMERIC_MODULO_OFFSET + 1.
Definition TIME_OPS_LEN : Z := 8.
Definition TIMESTAMP_OPS_LEN : Z := 6.
Definition BOOLEAN_OPS_LEN : Z := 4.
Definition UTF8_OPS_LEN : Z := 9.
Definition SQL_NULL_OPS_LEN : Z := 1.

Definition BINARY_INT8_BASE : Z := 0.
Definition BINARY_INT16_BASE : Z := BINARY_INT8_BASE + NUMERIC_OPS_LEN.
Definition BINARY_INT32_BASE : Z := BINARY_INT16_BASE + NUMERIC_OPS_LEN.
Definition BINARY_INT64_BASE : Z := BINARY_INT32_BASE + NUMERIC_OPS_LEN.
Definition BINARY_UINT8_BASE : Z := BINARY_INT64_BASE + NUMERIC_OPS_LEN.
Definition BINARY_UINT16_BASE : Z := BINARY_UINT8_BASE + NUMERIC_OPS_LEN.
Definition BINARY_UINT32_BASE : Z := BINARY_UINT16_BASE + NUMERIC_OPS_LEN.
Definition BINARY_UINT64_BASE : Z := BINARY_UINT32_BASE + NUMERIC_OPS_LEN.
Definition BINARY_FLOAT32_BASE : Z := BINARY_UINT64_BASE + NUMERIC_OPS_LEN.
Definition BINARY_FLOAT64_BASE : Z := BINARY_FLOAT32_BASE + NUMERIC_OPS_LEN.
Definition BINARY_DATE_BASE : Z := BINARY_FLOAT64_BASE + NUMERIC_OPS_LEN.
Definition BINARY_DATETIME_BASE : Z := BINARY_DATE_BASE + NUMERIC_OPS_LEN.
Definition BINARY_DECIMAL_BASE : Z := BINARY_DATETIME_BASE + NUMERIC_OPS_LEN.
Definition BINARY_TIME_BASE : Z := BINARY_DECIMAL_BASE + NUMERIC_OPS_LEN.
Definition BINARY_TIME64_BASE : Z := BINARY_TIME_BASE + TIME_OPS_LEN.
Definition BINARY_BOOLEAN_BASE : Z := BINARY_TIME64_BASE + TIMESTAMP_OPS_LEN.
Definition BINARY_UTF8_BASE : Z := BINARY_BOOLEAN_BASE + BOOLEAN_OPS_LEN.
Definition BINARY_SQL_NULL : Z := BINARY_UTF8_BASE + UTF8_OPS_LEN.
Definition BINARY_TUPLE_BASE : Z := BINARY_SQL_NULL + SQL_NULL_OPS_LEN.

Inductive BinaryEvaluatorParams :=
| Unit
| Like (escape_char : option Z).

Record BinaryEvaluatorRef := { pos : Z; params : BinaryEvaluatorParams }.

Definition unit_binary_ref (pos : Z) : res BinaryEvaluatorRef := Ok {| pos := pos; params := Unit |}.

Definition numeric_binary_pos (base : Z) (op : BinaryOperator) : res Z :=
  let at_ (offset : Z) := Ok (base + offset) in
  match op with
  | BinaryOperator.Plus => at_ NUMERIC_PLUS_OFFSET
  | BinaryOperator.Minus => at_ NUMERIC_MINUS_OFFSET
  | BinaryOperator.Multiply => at_ NUMERIC_MULTIPLY_OFFSET
  | BinaryOperator.Divide => at_ NUMERIC_DIVIDE_OFFSET
  | BinaryOperator.Gt => at_ NUMERIC_GT_OFFSET
  | BinaryOperator.GtEq => at_ NUMERIC_GT_EQ_OFFSET
  | BinaryOperator.Lt => at_ NUMERIC_LT_OFFSET
  | BinaryOperator.LtEq => at_ NUMERIC_LT_EQ_OFFSET
  | BinaryOperator.Eq => at_ NUMERIC_EQ_OFFSET
  | BinaryOperator.NotEq => at_ NUMERIC_NOT_EQ_OFFSET
  | BinaryOperator.Modulo => at_ NUMERIC_MODULO_OFFSET
  | _ => Err UnsupportedBinaryOperator
  end.

Definition numeric_binary_ref (base : Z) (op : BinaryOperator) : res BinaryEvaluatorRef :=
  let? pos := numeric_binary_pos base op in unit_binary_ref pos.

(** Offsets of the operators of the types with a table of their own. *)
Definition time_offset (op : BinaryOperator) : option Z :=
  match op with
  | BinaryOperator.Plus => Some 0 | BinaryOperator.Minus => Some 1
  | BinaryOperator.Gt => Some 2 | BinaryOperator.GtEq => Some 3
  | BinaryOperator.Lt => Some 4 | BinaryOperator.LtEq => Some 5
  | BinaryOperator.Eq => Some 6 | BinaryOperator.NotEq => Some 7
  | _ => None
  end.
Definition timestamp_offset (op : BinaryOperator) : option Z :=
  match op with
  | BinaryOperator.Gt => Some 0 | BinaryOperator.GtEq => Some 1
  | BinaryOperator.Lt => Some 2 | BinaryOperator.LtEq => Some 3
  | BinaryOperator.Eq => Some 4 | BinaryOperator.NotEq => Some 5
  | _ => None
  end.
Definition boolean_offset (op : BinaryOperator) : option Z :=
  match op with
  | BinaryOperator.And => Some 0 | BinaryOperator.Or => Some 1
  | BinaryOperator.Eq => Some 2 | BinaryOperator.NotEq => Some 3
  | _ => None
  end.
Definition utf8_offset (op : BinaryOperator) : option Z :=
  match op with
  | BinaryOperator.Gt => Some 0 | BinaryOperator.Lt => Some 1
  | BinaryOperator.GtEq => Some 2 | BinaryOperator.LtEq => Some 3
  | BinaryOperator.Eq => Some 4 | BinaryOperator.NotEq => Some 5
  | BinaryOperator.StringConcat => Some 6
  | BinaryOperator.Like _ => Some 7 | BinaryOperator.NotLike _ => Some 8
  | _ => None
  end.
Definition tuple_offset (op : BinaryOperator) : option Z :=
  match op with
  | BinaryOperator.Eq => Some 0 | BinaryOperator.NotEq => Some 1
  | BinaryOperator.Gt => Some 2 | BinaryOperator.GtEq => Some 3
  | BinaryOperator.Lt => Some 4 | BinaryOperator.LtEq => Some 5
  | _ => None
  end.

Definition offset_ref (base : Z) (offset : option Z) (params : BinaryEvaluatorParams) : res BinaryEvaluatorRef :=
  match offset with
  | Some offset => Ok {| pos := base + offset; params := params |}
  | None => Err UnsupportedBinaryOperator
  end.

Definition binary_create (ty : LogicalType) (op : BinaryOperator) : res BinaryEvaluatorRef :=
  match ty with
  | LogicalType.Tinyint => numeric_binary_ref BINARY_INT8_BASE op
  | LogicalType.Smallint => numeric_binary_ref BINARY_INT16_BASE op
  | LogicalType.Integer => numeric_binary_ref BINARY_INT32_BASE op
  | LogicalType.Bigint => numeric_binary_ref BINARY_INT64_BASE op
  | LogicalType.UTinyint => numeric_binary_ref BINARY_UINT8_BASE op
  | LogicalType.USmallint => numeric_binary_ref BINARY_UINT16_BASE op
  | LogicalType.UInteger => numeric_binary_ref BINARY_UINT32_BASE op
  | LogicalType.UBigint => numeric_binary_ref BINARY_UINT64_BASE op
  | LogicalType.Float => numeric_binary_ref BINARY_FLOAT32_BASE op
  | LogicalType.Double => numeric_binary_ref BINARY_FLOAT64_BASE op
  | LogicalType.Date => numeric_binary_ref BINARY_DATE_BASE op
  | LogicalType.DateTime => numeric_binary_ref BINARY_DATETIME_BASE op
  | LogicalType.Time _ => offset_ref BINARY_TIME_BASE (time_offset op) Unit
  | LogicalType.TimeStamp _ _ => offset_ref BINARY_TIME64_BASE (timestamp_offset op) Unit
  | LogicalType.Decimal _ _ => Err UnsupportedBinaryOperator
  | LogicalType.Boolean => offset_ref BINARY_BOOLEAN_BASE (boolean_offset op) Unit
  | LogicalType.Varchar _ _ | LogicalType.Char _ _ =>
      offset_ref BINARY_UTF8_BASE (utf8_offset op)
        match op with
        | BinaryOperator.Like escape_char | BinaryOperator.NotLike escape_char => Like escape_char
        | _ => Unit
        end
  | LogicalType.SqlNull => unit_binary_ref BINARY_SQL_NULL
  | LogicalType.Tuple _ => offset_ref BINARY_TUPLE_BASE (tuple_offset op) Unit
  end.

(** [eval_numeric_binary!] on the integer types and on the floats. *)
Definition eval_numeric_binary (N : Numeric) (offset : Z) left right : res DataValue :=
  if offset =? NUMERIC_PLUS_OFFSET then numeric_plus_binary_eval N left right
  else if offset =? NUMERIC_MINUS_OFFSET then numeric_minus_binary_eval N left right
  else if offset =? NUMERIC_MULTIPLY_OFFSET then numeric_multiply_binary_eval N left right
  else if offset =? NUMERIC_DIVIDE_OFFSET then numeric_divide_binary_eval N left right
  else if offset =? NUMERIC_GT_OFFSET then numeric_cmp_binary_eval c_gt N left right
  else if offset =? NUMERIC_GT_EQ_OFFSET then numeric_cmp_binary_eval c_ge N left right
  else if offset =? NUMERIC_LT_OFFSET then numeric_cmp_binary_eval c_lt N left right
  else if offset =? NUMERIC_LT_EQ_OFFSET then numeric_cmp_binary_eval c_le N left right
  else if offset =? NUMERIC_EQ_OFFSET then numeric_cmp_binary_eval c_eq N left right
  else if offset =? NUMERIC_NOT_EQ_OFFSET then numeric_cmp_binary_eval c_ne N left right
  else if offset =? NUMERIC_MODULO_OFFSET then numeric_mod_binary_eval N left right
  else Err Panic.

Definition eval_float_binary (F : Floating) (divide : DataValue -> DataValue -> res DataValue)
    (offset : Z) left right : res DataValue :=
  if offset =? NUMERIC_PLUS_OFFSET then float_arith_binary_eval float_add F left right
  else if offset =? NUMERIC_MINUS_OFFSET then float_arith_binary_eval float_sub F left right
  else if offset =? NUMERIC_MULTIPLY_OFFSET then float_arith_binary_eval float_mul F left right
  else if offset =? NUMERIC_DIVIDE_OFFSET then divide left right
  else if offset =? NUMERIC_GT_OFFSET then float_cmp_binary_eval c_gt F left right
  else if offset =? NUMERIC_GT_EQ_OFFSET then float_cmp_binary_eval c_ge F left right
  else if offset =? NUMERIC_LT_OFFSET then float_cmp_binary_eval c_lt F left right
  else if offset =? NUMERIC_LT_EQ_OFFSET then float_cmp_binary_eval c_le F left right
  else if offset =? NUMERIC_EQ_OFFSET then float_cmp_binary_eval c_eq F left right
  else if offset =? NUMERIC_NOT_EQ_OFFSET then float_cmp_binary_eval c_ne F left right
  else if offset =? NUMERIC_MODULO_OFFSET then float_arith_binary_eval float_rem F left right
  else Err Panic.

Definition in_block (lo pos hi : Z) : bool := (lo <=? pos) && (pos <? hi).

Definition eval_binary (pos : Z) (params : BinaryEvaluatorParams) left right : res DataValue :=
  if in_block BINARY_INT8_BASE pos BINARY_INT16_BASE then
    eval_numeric_binary Int8_num (pos - BINARY_INT8_BASE) left right
  else if in_block BINARY_INT16_BASE pos BINARY_INT32_BASE then
    eval_numeric_binary Int16_num (pos - BINARY_INT16_BASE) left right
  else if in_block BINARY_INT32_BASE pos BINARY_INT64_BASE then
    eval_numeric_binary Int32_num (pos - BINARY_INT32_BASE) left right
  else if in_block BINARY_INT64_BASE pos BINARY_UINT8_BASE then
    eval_numeric_binary Int64_num (pos - BINARY_INT64_BASE) left right
  else if in_block BINARY_UINT8_BASE pos BINARY_UINT16_BASE then
    eval_numeric_binary UInt8_num (pos - BINARY_UINT8_BASE) left right
  else if in_block BINARY_UINT16_BASE pos BINARY_UINT32_BASE then
    eval_numeric_binary UInt16_num (pos - BINARY_UINT16_BASE) left right
  else if in_block BINARY_UINT32_BASE pos BINARY_UINT64_BASE then
    eval_numeric_binary UInt32_num (pos - BINARY_UINT32_BASE) left right
  else if in_block BINARY_UINT64_BASE pos BINARY_FLOAT32_BASE then
    eval_numeric_binary UInt64_num (pos - BINARY_UINT64_BASE) left right
  else if in_block BINARY_FLOAT32_BASE pos BINARY_FLOAT64_BASE then
    eval_float_binary Float32_num float32_divide_binary_eval (pos - BINARY_FLOAT32_BASE) left right
  else if in_block BINARY_FLOAT64_BASE pos BINARY_DATE_BASE then
    eval_float_binary Float64_num float64_divide_binary_eval (pos - BINARY_FLOAT64_BASE) left right
  else if in_block BINARY_DATE_BASE pos BINARY_DATETIME_BASE then
    eval_numeric_binary Date_num (pos - BINARY_DATE_BASE) left right
  else if in_block BINARY_DATETIME_BASE pos BINARY_DECIMAL_BASE then
    eval_numeric_binary DateTime_num (pos - BINARY_DATETIME_BASE) left right
  else if in_block BINARY_DECIMAL_BASE pos BINARY_TIME_BASE then Err UnsupportedStmt
  else if pos =? BINARY_TIME_BASE then time_plus_binary_eval left right
  else if pos =? BINARY_TIME_BASE + 1 then time_minus_binary_eval left right
  else if pos =? BINARY_TIME_BASE + 2 then time_gt_binary_eval left right
  else if pos =? BINARY_TIME_BASE + 3 then time_gt_eq_binary_eval left right
  else if pos =? BINARY_TIME_BASE + 4 then time_lt_binary_eval left right
  else if pos =? BINARY_TIME_BASE + 5 then time_lt_eq_binary_eval left right
  else if pos =? BINARY_TIME_BASE + 6 then time_eq_binary_eval left right
  else if pos =? BINARY_TIME_BASE + 7 then time_not_eq_binary_eval left right
  else if pos =? BINARY_TIME64_BASE then time64_binary c_gt left right
  else if pos =? BINARY_TIME64_BASE + 1 then time64_binary c_ge left right
  else if pos =? BINARY_TIME64_BASE + 2 then time64_binary c_lt left right
  else if pos =? BINARY_TIME64_BASE + 3 then time64_binary c_le left right
  else if pos =? BINARY_TIME64_BASE + 4 then time64_binary c_eq left right
  else if pos =? BINARY_TIME64_BASE + 5 then time64_binary c_ne left right
  else if pos =? BINARY_BOOLEAN_BASE then boolean_and_binary_eval left right
  else if pos =? BINARY_BOOLEAN_BASE + 1 then boolean_or_binary_eval left right
  else if pos =? BINARY_BOOLEAN_BASE + 2 then boolean_eq_binary_eval left right
  else if pos =? BINARY_BOOLEAN_BASE + 3 then boolean_not_eq_binary_eval left right
  else if pos =? BINARY_UTF8_BASE then utf8_cmp_binary_eval c_gt left right
  else if pos =? BINARY_UTF8_BASE + 1 then utf8_cmp_binary_eval c_lt left right
  else if pos =? BINARY_UTF8_BASE + 2 then utf8_cmp_binary_eval c_ge left right
  else if pos =? BINARY_UTF8_BASE + 3 then utf8_cmp_binary_eval c_le left right
  else if pos =? BINARY_UTF8_BASE + 4 then utf8_cmp_binary_eval c_eq left right
  else if pos =? BINARY_UTF8_BASE + 5 then utf8_cmp_binary_eval c_ne left right
  else if pos =? BINARY_UTF8_BASE + 6 then utf8_string_concat_binary_eval left right
  else if pos =? BINARY_UTF8_BASE + 7 then
    match params with Like escape_char => utf8_like_binary_eval escape_char left right | Unit => Err Panic end
  else if pos =? BINARY_UTF8_BASE + 8 then
    match params with Like escape_char => utf8_not_like_binary_eval escape_char left right | Unit => Err Panic end
  else if pos =? BINARY_SQL_NULL then null_binary_eval left right
  else if pos =? BINARY_TUPLE_BASE then tuple_eq_binary_eval left right
  else if pos =? BINARY_TUPLE_BASE + 1 then tuple_not_eq_binary_eval left right
  else if pos =? BINARY_TUPLE_BASE + 2 then tuple_order_binary c_gt left right
  else if pos =? BINARY_TUPLE_BASE + 3 then tuple_order_binary c_ge left right
  else if pos =? BINARY_TUPLE_BASE + 4 then tuple_order_binary c_lt left right
  else if pos =? BINARY_TUPLE_BASE + 5 then tuple_order_binary c_le left right
  else Err Panic.

Definition binary_eval (self : BinaryEvaluatorRef) left right : res DataValue :=
  eval_binary (pos self) (params self) left right.

(** [unary_create] and [eval_unary]. *)
Definition numeric_unary_ref (plus minus : Z) (op : UnaryOperator) : res Z :=
  match op with
  | UnaryOperator.Plus => Ok plus
  | UnaryOperator.Minus => Ok minus
  | UnaryOperator.Not => Err UnsupportedUnaryOperator
  end.

Definition unary_create (ty : LogicalType) (op : UnaryOperator) : res Z :=
  match ty with
  | LogicalType.Tinyint => numeric_unary_ref 0 1 op
  | LogicalType.Smallint => numeric_unary_ref 2 3 op
  | LogicalType.Integer => numeric_unary_ref 4 5 op
  | LogicalType.Bigint => numeric_unary_ref 6 7 op
  | LogicalType.Boolean =>
      match op with UnaryOperator.Not => Ok 8 | _ => Err UnsupportedUnaryOperator end
  | LogicalType.Float => numeric_unary_ref 9 10 op
  | LogicalType.Double => numeric_unary_ref 11 12 op
  | _ => Err UnsupportedUnaryOperator
  end.

Definition eval_unary (pos : Z) value : res DataValue :=
  match pos with
  | 0 | 2 | 4 | 6 | 9 | 11 => Ok (numeric_plus_unary_eval value)
  | 1 => numeric_minus_unary_eval Int8_num value
  | 3 => numeric_minus_unary_eval Int16_num value
  | 5 => numeric_minus_unary_eval Int32_num value
  | 7 => numeric_minus_unary_eval Int64_num value
  | 8 => boolean_not_unary_eval value
  | 10 => float_minus_unary_eval Float32_num value
  | 12 => float_minus_unary_eval Float64_num value
  | _ => Err Panic
  end.
End Evaluators.

(** * Values of a type, and what an operator makes of them *)

Section Sound.
Context {OF : OrderedFloat} {CH : Chrono}.

(** A value an expression of the type can have. Strings of any declared length
    meet in one evaluator; a packed time must be readable. *)
Definition operand (ty : LogicalType) (v : DataValue) : Prop :=
  dv_ok v /\
  match v, ty with
  | DataValue.Null, _ => True
  | DataValue.Boolean _, LogicalType.Boolean => True
  | DataValue.Float32 _, LogicalType.Float => True
  | DataValue.Float64 _, LogicalType.Double => True
  | DataValue.Int8 _, LogicalType.Tinyint => True
  | DataValue.Int16 _, LogicalType.Smallint => True
  | DataValue.Int32 _, LogicalType.Integer => True
  | DataValue.Int64 _, LogicalType.Bigint => True
  | DataValue.UInt8 _, LogicalType.UTinyint => True
  | DataValue.UInt16 _, LogicalType.USmallint => True
  | DataValue.UInt32 _, LogicalType.UInteger => True
  | DataValue.UInt64 _, LogicalType.UBigint => True
  | DataValue.Utf8 _ _ _, LogicalType.Varchar _ _ | DataValue.Utf8 _ _ _, LogicalType.Char _ _ => True
  | DataValue.Date32 _, LogicalType.Date => True
  | DataValue.Date64 _, LogicalType.DateTime => True
  | DataValue.Time32 x p, LogicalType.Time _ => exists t, unpack_time x p = Ok t
  | DataValue.Time64 _ p _, LogicalType.TimeStamp _ _ => timestamp_precision_ok p = true
  | DataValue.Tuple _, LogicalType.Tuple _ => True
  | _, _ => False
  end.

Definition numeric_of (ty : LogicalType) : option Numeric :=
  match ty with
  | LogicalType.Tinyint => Some Int8_num
  | LogicalType.Smallint => Some Int16_num
  | LogicalType.Integer => Some Int32_num
  | LogicalType.Bigint => Some Int64_num
  | LogicalType.UTinyint => Some UInt8_num
  | LogicalType.USmallint => Some UInt16_num
  | LogicalType.UInteger => Some UInt32_num
  | LogicalType.UBigint => Some UInt64_num
  | LogicalType.Date => Some Date_num
  | LogicalType.DateTime => Some DateTime_num
  | _ => None
  end.

Definition floating_of (ty : LogicalType) : option Floating :=
  match ty with
  | LogicalType.Float => Some Float32_num
  | LogicalType.Double => Some Float64_num
  | _ => None
  end.

(** The test a comparison operator makes. *)
Definition comparison_test (op : BinaryOperator) : option (comparison -> bool) :=
  match op with
  | BinaryOperator.Gt => Some c_gt
  | BinaryOperator.GtEq => Some c_ge
  | BinaryOperator.Lt => Some c_lt
  | BinaryOperator.LtEq => Some c_le
  | BinaryOperator.Eq => Some c_eq
  | BinaryOperator.NotEq => Some c_ne
  | _ => None
  end.

Definition binary_result_type (ty : LogicalType) (op : BinaryOperator) : LogicalType :=
  match ty with
  | LogicalType.SqlNull => LogicalType.SqlNull
  | _ =>
      match op with
      | BinaryOperator.Plus | BinaryOperator.Minus | BinaryOperator.Multiply | BinaryOperator.Modulo => ty
      | BinaryOperator.Divide => LogicalType.Double
      | BinaryOperator.StringConcat => LogicalType.Varchar None Characters
      | _ => LogicalType.Boolean
      end
  end.

(** The exact result of an integer operator. *)
Definition integer_op (op : BinaryOperator) : option (Z -> Z -> Z) :=
  match op with
  | BinaryOperator.Plus => Some Z.add
  | BinaryOperator.Minus => Some Z.sub
  | BinaryOperator.Multiply => Some Z.mul
  | _ => None
  end.

Definition binary_overflows (ty : LogicalType) (op : BinaryOperator) (l r : DataValue) : bool :=
  match numeric_of ty, integer_op op with
  | Some N, Some f =>
      match num_get N l, num_get N r with
      | Some v1, Some v2 => match num_checked N (f v1 v2) with None => true | Some _ => false end
      | _, _ => false
      end
  | _, _ => false
  end.

(** The panics: the remainder of [MIN] and [-1], and a tuple beside a null. *)
Definition binary_panics (ty : LogicalType) (op : BinaryOperator) (l r : DataValue) : bool :=
  match ty, l, r with
  | LogicalType.Tuple _, DataValue.Tuple _, DataValue.Null
  | LogicalType.Tuple _, DataValue.Null, DataValue.Tuple _ => true
  | _, _, _ =>
      match op, numeric_of ty with
      | BinaryOperator.Modulo, Some N =>
          match num_get N l, num_get N r with
          | Some v1, Some v2 => num_signed N && (v1 =? - 2 ^ (num_width N - 1)) && (v2 =? -1)
          | _, _ => false
          end
      | _, _ => false
      end
  end.

Definition time_arithmetic (ty : LogicalType) (op : BinaryOperator) : bool :=
  match ty, op with
  | LogicalType.Time _, BinaryOperator.Plus | LogicalType.Time _, BinaryOperator.Minus => true
  | _, _ => false
  end.

Definition binary_outcome (ty : LogicalType) (op : BinaryOperator) (l r : DataValue) (m : res DataValue) : Prop :=
  if binary_panics ty op l r then m = Err Panic
  else if binary_overflows ty op l r then m = Err OverFlow
  else exists v, m = Ok v /\ operand (binary_result_type ty op) v.

(** ** The evaluator behind each position *)

Definition numeric_evaluator (N : Numeric) (op : BinaryOperator) : DataValue -> DataValue -> res DataValue :=
  match op with
  | BinaryOperator.Plus => numeric_plus_binary_eval N
  | BinaryOperator.Minus => numeric_minus_binary_eval N
  | BinaryOperator.Multiply => numeric_multiply_binary_eval N
  | BinaryOperator.Divide => numeric_divide_binary_eval N
  | BinaryOperator.Modulo => numeric_mod_binary_eval N
  | _ => match comparison_test op with
         | Some t => numeric_cmp_binary_eval t N
         | None => fun _ _ => Err Panic
         end
  end.

Lemma numeric_dispatch ty N op ev l r :
  numeric_of ty = Some N -> binary_create ty op = Ok ev ->
  binary_eval ev l r = numeric_evaluator N op l r.
Proof.
  intros HN. destruct ty; simplify_eq/=; unfold numeric_binary_ref, unit_binary_ref;
    destruct op; cbn [numeric_binary_pos rbind]; intros H; try done; apply Ok_inj in H; subst ev; reflexivity.
Qed.

(** ** Integers and dates *)

Definition num_range (N : Numeric) (x : Z) : Prop :=
  if num_signed N then in_s (num_width N) x else in_u (num_width N) x.

Lemma num_checked_range N x r : num_checked N x = Some r <-> r = x /\ num_range N x.
Proof. unfold num_checked, num_range. destruct (num_signed N); [apply checked_s_Some|apply checked_u_Some]. Qed.

(** What the instances of the macro have in common. *)
Record numeric_ok (ty : LogicalType) (N : Numeric) : Prop := {
  no_operand : forall v, operand ty v -> v = DataValue.Null \/ exists x, v = num_make N x /\ num_range N x;
  no_make : forall x, num_range N x -> operand ty (num_make N x);
  no_get : forall x, num_get N (num_make N x) = Some x;
  no_null : num_get N DataValue.Null = None;
  no_width : 0 < num_width N;
}.

Lemma numeric_of_ok ty N : numeric_of ty = Some N -> numeric_ok ty N.
Proof.
  destruct ty; intros H; simplify_eq/=; constructor; try done;
    unfold num_range; cbn; intros v; try (by split);
    intros [Hok Hk]; destruct v; try done; eauto.
Qed.

Lemma double_operand x : operand LogicalType.Double (DataValue.Float64 (pack f64 x)).
Proof. split; [|done]. by apply (pack_range f64). Qed.

Lemma bool_operand b : operand LogicalType.Boolean (DataValue.Boolean b).
Proof. by split. Qed.

Lemma null_operand ty : operand ty DataValue.Null.
Proof. by split. Qed.

Lemma rem_range N v1 v2 : num_range N v1 -> num_range N v2 -> v2 <> 0 -> num_range N (Z.rem v1 v2).
Proof.
  unfold num_range, in_s, in_u. intros H1 H2 Hz. pose proof (Z.rem_bound_abs v1 v2 Hz) as Hb.
  pose proof (Z.rem_sign_mul v1 v2 Hz) as Hs.
  destruct (num_signed N); split; try nia.
  destruct (Z_le_gt_dec 0 v1); [pose proof (Z.rem_nonneg v1 v2 Hz ltac:(done)); lia|lia].
Qed.

Lemma numeric_outcome ty N op ev l r :
  numeric_of ty = Some N -> binary_create ty op = Ok ev -> operand ty l -> operand ty r ->
  binary_outcome ty op l r (binary_eval ev l r).
Proof.
  intros HN Hev Hl Hr. rewrite (numeric_dispatch ty N op ev l r HN Hev).
  pose proof (numeric_of_ok ty N HN) as [Hop Hmk Hget Hnull Hw].
  assert (binary_panics ty op l r =
    match op with
    | BinaryOperator.Modulo =>
        match num_get N l, num_get N r with
        | Some v1, Some v2 => num_signed N && (v1 =? - 2 ^ (num_width N - 1)) && (v2 =? -1)
        | _, _ => false
        end
    | _ => false
    end) as Hp.
  { unfold binary_panics. rewrite HN. destruct ty; try done; by destruct op. }
  unfold binary_outcome. rewrite Hp. unfold binary_overflows. rewrite HN. clear Hp.
  assert (binary_result_type ty op =
    match op with
    | BinaryOperator.Plus | BinaryOperator.Minus | BinaryOperator.Multiply | BinaryOperator.Modulo => ty
    | BinaryOperator.Divide => LogicalType.Double
    | BinaryOperator.StringConcat => LogicalType.Varchar None Characters
    | _ => LogicalType.Boolean
    end) as -> by (by destruct ty).
  assert (forall f, (l = DataValue.Null \/ r = DataValue.Null) ->
    with_operands (num_get N) f l r = Ok DataValue.Null) as Hwn.
  { intros f H. unfold with_operands.
    destruct (Hop l Hl) as [->|(v1 & -> & H1)], (Hop r Hr) as [->|(v2 & -> & H2)];
      rewrite ?Hget, ?Hnull; try done. destruct H as [H|H]; rewrite <- H in Hnull; rewrite Hget in Hnull; done. }
  destruct (Hop l Hl) as [->|(v1 & -> & H1)]; [|destruct (Hop r Hr) as [->|(v2 & -> & H2)]];
    rewrite ?Hget, ?Hnull.
  3: { unfold numeric_evaluator, numeric_plus_binary_eval, numeric_minus_binary_eval,
         numeric_multiply_binary_eval, numeric_divide_binary_eval, numeric_mod_binary_eval,
         numeric_cmp_binary_eval, with_operands, num_result, of_bool, float_div, lift2.
       destruct op; try (by destruct ty); cbn [comparison_test integer_op]; rewrite ?Hget;
         try (eexists; split; [reflexivity|]; first [apply bool_operand|apply double_operand]).
       1-3: destruct (num_checked N _) as [x|] eqn:E; [|done];
            apply num_checked_range in E as [-> ?]; eexists; split; [reflexivity|by apply Hmk].
       destruct (v2 =? 0) eqn:E0; [z_bool; subst; rewrite !andb_false_r|case_match; [done|]].
       - eexists. split; [reflexivity|apply null_operand].
       - z_bool. eexists. split; [reflexivity|]. by apply Hmk, rem_range. }
  1: destruct (num_get N r).
  all: destruct op; try (by destruct ty); cbn [integer_op];
    exists DataValue.Null; (split; [apply Hwn; tauto|apply null_operand]).
Qed.

(** ** The other types *)

Lemma utf8_valid_app (a b : list Z) : utf8_valid a = true -> utf8_valid b = true -> utf8_valid (a ++ b) = true.
Proof.
  intros Ha Hb. remember (length a) as n eqn:Hn. revert a Hn Ha.
  induction (lt_wf n) as [n _ IH]; intros a -> Ha.
  destruct a as [|x a]; [done|]. cbn [utf8_valid app] in *.
  repeat match type of Ha with
  | (if Utf8.between ?lo ?x ?hi then _ else _) = true => destruct (Utf8.between lo x hi) eqn:?
  | match ?l with [] => _ | _ => _ end = true => destruct l as [|? ?]; [done|]; cbn [app]
  end; try done;
  repeat match goal with H : Utf8.between _ x _ = _ |- _ => rewrite ?H in *; clear H end;
  split_andb; repeat match goal with H : ?b = true |- context [?b && _] => rewrite H end; cbn [andb];
  (eapply IH; [|reflexivity|done]); cbn [length]; lia.
Qed.

(** Two values, or a null: the shape of most evaluators. *)
Lemma with_operands_cases {A : Type} (get : DataValue -> option A) f l r :
  (is_null l = true \/ is_Some (get l)) -> (is_null r = true \/ is_Some (get r)) ->
  get DataValue.Null = None ->
  with_operands get f l r = Ok DataValue.Null \/
  exists v1 v2, get l = Some v1 /\ get r = Some v2 /\ with_operands get f l r = f v1 v2.
Proof.
  intros Hl Hr Hn. unfold with_operands.
  destruct Hl as [Hl|[v1 Hl]], Hr as [Hr|[v2 Hr]];
    repeat match goal with H : is_null ?v = true |- _ => destruct v; try done; clear H end;
    rewrite ?Hl, ?Hr, ?Hn; eauto 10.
Qed.

Ltac operand_get := match goal with
  | H : operand _ ?v |- is_null ?v = true \/ _ => destruct H as [_ H]; destruct v; try done; eauto
  end.

(** The outcome when nothing can go wrong. *)
Definition evaluates (ty : LogicalType) (m : res DataValue) : Prop := exists v, m = Ok v /\ operand ty v.

Lemma evaluates_null ty : evaluates ty (Ok DataValue.Null).
Proof. eexists. split; [done|apply null_operand]. Qed.
Lemma evaluates_bool b : evaluates LogicalType.Boolean (of_bool b).
Proof. eexists. split; [done|apply bool_operand]. Qed.
#[local] Hint Resolve evaluates_null evaluates_bool : core.

Lemma with_operands_evaluates {A : Type} (get : DataValue -> option A) f ty ty' l r :
  (forall v, operand ty v -> is_null v = true \/ is_Some (get v)) -> get DataValue.Null = None ->
  operand ty l -> operand ty r ->
  (forall v1 v2, get l = Some v1 -> get r = Some v2 -> evaluates ty' (f v1 v2)) ->
  evaluates ty' (with_operands get f l r).
Proof.
  intros Hget Hn Hl Hr Hf.
  destruct (with_operands_cases get f l r (Hget l Hl) (Hget r Hr) Hn) as [-> |(v1 & v2 & E1 & E2 & ->)]; auto.
Qed.

Lemma float_outcome ty F op ev l r :
  floating_of ty = Some F -> binary_create ty op = Ok ev -> operand ty l -> operand ty r ->
  evaluates (binary_result_type ty op) (binary_eval ev l r).
Proof.
  intros HF Hev Hl Hr.
  assert (forall v, operand ty v -> is_null v = true \/ is_Some (fl_get F v)) as Hget
    by (intros v [_ Hk]; destruct ty; simplify_eq/=; destruct v; try done; eauto).
  assert (fl_get F DataValue.Null = None) as Hn by (by destruct ty; simplify_eq/=).
  assert (forall x, evaluates ty (Ok (fl_make F (pack (fl_format F) x)))) as Hmk.
  { intros x. eexists. split; [reflexivity|]. destruct ty; simplify_eq/=; (split; [|done]);
      [by apply (pack_range f32)|by apply (pack_range f64)]. }
  assert (forall f, (forall a b, exists x, f (fl_format F) a b = pack (fl_format F) x) ->
    evaluates ty (float_arith_binary_eval f F l r)) as Ha.
  { intros f Hf. eapply with_operands_evaluates; [done..|]. intros v1 v2 _ _.
    destruct (Hf v1 v2) as [x ->]. apply Hmk. }
  assert (forall t, evaluates LogicalType.Boolean (float_cmp_binary_eval t F l r)) as Hc
    by (intros t; eapply with_operands_evaluates; [done..|]; auto).
  destruct ty; simplify_eq/=; unfold numeric_binary_ref, unit_binary_ref in Hev; destruct op;
    cbn [numeric_binary_pos rbind] in Hev; try done; apply Ok_inj in Hev; subst ev; cbn [binary_result_type];
    try (apply Hc); try (apply Ha; intros; unfold float_add, float_sub, float_mul, float_rem, lift2; by eauto).
  all: eapply with_operands_evaluates; [done..|]; intros; eexists; (split; [reflexivity|apply double_operand]).
Qed.

Lemma boolean_outcome op ev l r :
  binary_create LogicalType.Boolean op = Ok ev -> operand LogicalType.Boolean l -> operand LogicalType.Boolean r ->
  evaluates (binary_result_type LogicalType.Boolean op) (binary_eval ev l r).
Proof.
  intros Hev [_ Hl] [_ Hr]. cbn [binary_create] in Hev. unfold offset_ref in Hev.
  destruct op; cbn [boolean_offset] in Hev; try done; apply Ok_inj in Hev; subst ev;
    destruct l as [| |[]| | | | | | | | | | | | | | | |]; try done;
    destruct r as [| |[]| | | | | | | | | | | | | | | |]; try done;
    (eexists; split; [reflexivity|by split]).
Qed.

Lemma utf8_outcome ty op ev l r :
  match ty with LogicalType.Varchar _ _ | LogicalType.Char _ _ => True | _ => False end ->
  binary_create ty op = Ok ev -> operand ty l -> operand ty r ->
  evaluates (binary_result_type ty op) (binary_eval ev l r).
Proof.
  intros Hty Hev Hl Hr.
  assert (forall v, operand ty v -> is_null v = true \/ is_Some (utf8_get v)) as Hget
    by (intros v [_ Hk]; destruct ty; try done; destruct v; try done; eauto).
  assert (forall v s, operand ty v -> utf8_get v = Some s -> bytes_ok s /\ utf8_valid s = true) as Hs
    by (intros v s [Hok _] E; destruct v; simplify_eq/=; tauto).
  assert (forall t, evaluates LogicalType.Boolean (utf8_cmp_binary_eval t l r)) as Hc
    by (intros t; eapply with_operands_evaluates; [done..|]; auto).
  assert (forall n e, evaluates LogicalType.Boolean (utf8_like n e l r)) as Hlike.
  { intros n e. eapply with_operands_evaluates; [done..|]. intros v1 v2 E1 E2.
    destruct (Hs _ _ Hl E1) as [_ H1], (Hs _ _ Hr E2) as [_ H2].
    destruct (string_like_decides v1 v2 e H1 H2) as (b & -> & _). auto. }
  assert (evaluates (LogicalType.Varchar None Characters) (utf8_string_concat_binary_eval l r)) as Hcat.
  { eapply with_operands_evaluates; [done..|]. intros v1 v2 E1 E2.
    destruct (Hs _ _ Hl E1), (Hs _ _ Hr E2). eexists. split; [reflexivity|].
    split; [|done]. cbn. split; [by apply Forall_app|]. split; [by apply utf8_valid_app|done]. }
  destruct ty; try done; unfold binary_create, offset_ref in Hev; destruct op;
    cbn [utf8_offset] in Hev; try done; apply Ok_inj in Hev; subst ev; cbn [binary_result_type]; try apply Hc; try apply Hcat; apply Hlike.
Qed.

Lemma time_outcome p op ev l r :
  binary_create (LogicalType.Time p) op = Ok ev -> time_arithmetic (LogicalType.Time p) op = false ->
  operand (LogicalType.Time p) l -> operand (LogicalType.Time p) r ->
  evaluates (binary_result_type (LogicalType.Time p) op) (binary_eval ev l r).
Proof.
  intros Hev Hta [_ Hl] [_ Hr].
  assert (forall t, exists v, time_order_binary t l r = Ok v /\
    (v = DataValue.Null \/ exists b, v = DataValue.Boolean b)) as Ht.
  { intros t. destruct l; try done; destruct r; try done; cbn; eauto.
    destruct Hl as [[s1 n1] ->], Hr as [[s2 n2] ->]. cbn. eauto. }
  assert (forall t, evaluates LogicalType.Boolean (time_order_binary t l r)) as Hev'.
  { intros t. destruct (Ht t) as (v & -> & [->|[b ->]]); [auto|apply evaluates_bool]. }
  unfold binary_create, offset_ref in Hev. destruct op; cbn [time_offset] in Hev; try done;
    apply Ok_inj in Hev; subst ev; cbn [binary_result_type]; try apply Hev'.
  destruct (Ht c_eq) as (v & E & Hv).
  change (evaluates LogicalType.Boolean (time_not_eq_binary_eval l r)).
  unfold time_not_eq_binary_eval, time_eq_binary_eval. rewrite E.
  destruct Hv as [->|[b ->]]; [auto|apply evaluates_bool].
Qed.

Lemma time64_outcome p z op ev l r :
  binary_create (LogicalType.TimeStamp p z) op = Ok ev ->
  operand (LogicalType.TimeStamp p z) l -> operand (LogicalType.TimeStamp p z) r ->
  evaluates (binary_result_type (LogicalType.TimeStamp p z) op) (binary_eval ev l r).
Proof.
  intros Hev Hl Hr.
  assert (forall t, evaluates LogicalType.Boolean (time64_binary t l r)) as Ht.
  { intros t. eapply (with_operands_evaluates _ _ (LogicalType.TimeStamp p z)); [intros v [_ Hk]; destruct v; try done; eauto|done..|].
    intros [v1 p1] [v2 p2] E1 E2.
    assert (timestamp_precision_ok p1 = true /\ timestamp_precision_ok p2 = true) as [H1 H2]
      by (destruct Hl as [_ Hl], Hr as [_ Hr]; destruct l; try done; destruct r; try done; simplify_eq/=; done).
    destruct (from_timestamp_precision_ok v1 p1 H1) as [[d1|] ->],
      (from_timestamp_precision_ok v2 p2 H2) as [[d2|] ->]; cbn [rbind]; auto.
    assert (timestamp_precision_ok (if p1 <? p2 then p2 else p1) = true) as Hp by (by destruct (p1 <? p2)).
    destruct (timestamp_precision_total d1 _ Hp) as [t1 ->], (timestamp_precision_total d2 _ Hp) as [t2 ->].
    cbn [rbind]. auto. }
  unfold binary_create, offset_ref in Hev. destruct op; cbn [timestamp_offset] in Hev; try done;
    apply Ok_inj in Hev; subst ev; apply Ht.
Qed.

Lemma tuple_outcome tys op ev l r :
  binary_create (LogicalType.Tuple tys) op = Ok ev ->
  operand (LogicalType.Tuple tys) l -> operand (LogicalType.Tuple tys) r ->
  binary_outcome (LogicalType.Tuple tys) op l r (binary_eval ev l r).
Proof.
  intros Hev [_ Hl] [_ Hr].
  unfold binary_create, offset_ref in Hev. destruct op; cbn [tuple_offset] in Hev; try done;
    apply Ok_inj in Hev; subst ev;
    destruct l; try done; destruct r; try done; try (eexists; split; [reflexivity|by split]);
    unfold binary_outcome; cbn [binary_panics binary_overflows numeric_of];
    (eexists; split; [reflexivity|]); repeat case_match; by split.
Qed.

Lemma binary_eval_outcome ty op ev l r :
  binary_create ty op = Ok ev -> operand ty l -> operand ty r -> time_arithmetic ty op = false ->
  binary_outcome ty op l r (binary_eval ev l r).
Proof.
  intros Hev Hl Hr Hta.
  assert (forall P : Prop, (numeric_of ty = None -> evaluates (binary_result_type ty op) (binary_eval ev l r)) ->
    numeric_of ty = None -> (match ty with LogicalType.Tuple _ => False | _ => True end) ->
    binary_outcome ty op l r (binary_eval ev l r)) as Hsimple.
  { intros _ He Hn Ht. unfold binary_outcome, binary_panics, binary_overflows. rewrite Hn.
    destruct (He Hn) as (v & Ev & Hv). destruct ty; try done; destruct op; eauto. }
  destruct (numeric_of ty) as [N|] eqn:EN; [by eapply numeric_outcome|].
  destruct ty eqn:Ety; try done;
    try (eapply (Hsimple True); [intros _|done..]);
    try (eapply tuple_outcome; by eauto); try (eapply time_outcome; by eauto);
    try (eapply time64_outcome; by eauto); try (eapply boolean_outcome; by eauto);
    try (eapply utf8_outcome; by eauto); try (eapply float_outcome; by eauto).
  cbn in Hev. apply Ok_inj in Hev. subst ev. apply evaluates_null.
Qed.

(** C24: The types of binary expressions are sound, for every type and operator
    the binder accepts but [+] and [-] on times of day ([time_arithmetic], which
    Time32.v covers, panics included). The evaluator of the operator applied to
    two values of the type - nulls included - gives a value of the type the
    binder computes for the expression: the operand type for arithmetic, double
    for a division, varchar for a concatenation, boolean for the rest. The only
    other outcomes are the overflow error of an integer [+], [-] or [*] whose
    exact result does not fit, and the panics of [binary_panics]: the remainder
    of the least integer by -1, and a tuple compared with a null. *)
Theorem binary_eval_sound ty op ev l r :
  binary_create ty op = Ok ev -> operand ty l -> operand ty r -> time_arithmetic ty op = false ->
  binary_outcome ty op l r (binary_eval ev l r).
Proof. apply binary_eval_outcome. Qed.

(** ** Three-valued logic *)

(** A boolean or unknown, as a number: false 0, unknown 1, true 2. *)
Definition truth (v : DataValue) : option Z :=
  match v with
  | DataValue.Boolean b => Some (if b then 2 else 0)
  | DataValue.Null => Some 1
  | _ => None
  end.

Definition truth_result (m : res DataValue) : option Z :=
  match m with Ok v => truth v | Err _ => None end.

(** [AND], [OR] and [NOT] are Kleene's three-valued connectives: with
    unknown between false and true, conjunction is the minimum, disjunction the
    maximum, and negation swaps the ends - for the evaluators the binder stores
    for booleans. *)
Theorem boolean_kleene l r x y :
  truth l = Some x -> truth r = Some y ->
  truth_result (let? ev := binary_create LogicalType.Boolean BinaryOperator.And in binary_eval ev l r)
    = Some (Z.min x y) /\
  truth_result (let? ev := binary_create LogicalType.Boolean BinaryOperator.Or in binary_eval ev l r)
    = Some (Z.max x y) /\
  truth_result (let? pos := unary_create LogicalType.Boolean UnaryOperator.Not in eval_unary pos l)
    = Some (2 - x).
Proof.
  intros Hl Hr.
  destruct l as [| |[]| | | | | | | | | | | | | | | |]; simplify_eq/=;
    destruct r as [| |[]| | | | | | | | | | | | | | | |]; simplify_eq/=; done.
Qed.

(** ** Unary operators *)

(** [-MIN]: the negation the integer evaluators cannot represent. *)
Definition unary_panics (ty : LogicalType) (op : UnaryOperator) (v : DataValue) : bool :=
  match op, numeric_of ty with
  | UnaryOperator.Minus, Some N =>
      match num_get N v with
      | Some x => num_signed N && (x =? - 2 ^ (num_width N - 1))
      | None => false
      end
  | _, _ => false
  end.

Lemma numeric_minus_outcome ty N v :
  numeric_of ty = Some N -> num_signed N = true -> operand ty v ->
  if unary_panics ty UnaryOperator.Minus v then numeric_minus_unary_eval N v = Err Panic
  else evaluates ty (numeric_minus_unary_eval N v).
Proof.
  intros HN Hs Hv. pose proof (numeric_of_ok ty N HN) as [Hop Hmk Hget Hnull Hw].
  unfold unary_panics, numeric_minus_unary_eval. rewrite HN, Hs. cbn [andb].
  destruct (Hop v Hv) as [->|(x & -> & Hx)]; [rewrite Hnull; apply evaluates_null|].
  rewrite Hget. destruct (num_checked N (- x)) as [y|] eqn:E.
  - apply num_checked_range in E as [-> Hy]. unfold num_range, in_s in Hx, Hy. rewrite Hs in *.
    case_match; z_bool; [lia|]. eexists. split; [reflexivity|]. apply Hmk. unfold num_range. by rewrite Hs.
  - unfold num_range, in_s in Hx. rewrite Hs in Hx.
    assert (~ num_range N (- x)) as Hn by (by intros H; rewrite (proj2 (num_checked_range N (- x) (- x)) (conj eq_refl H)) in E).
    unfold num_range, in_s in Hn. rewrite Hs in Hn. case_match; z_bool; [done|lia].
Qed.

Lemma unary_eval_outcome ty op pos v :
  unary_create ty op = Ok pos -> operand ty v ->
  if unary_panics ty op v then eval_unary pos v = Err Panic else evaluates ty (eval_unary pos v).
Proof.
  intros Hc Hv.
  assert (forall F, floating_of ty = Some F -> evaluates ty (float_minus_unary_eval F v)) as Hf.
  { intros F HF. destruct Hv as [Hok Hk]. destruct ty; simplify_eq/=; destruct v; try done;
      try apply evaluates_null; (eexists; split; [reflexivity|split; [|done]]);
      [by apply (float_neg_range f32)|by apply (float_neg_range f64)]. }
  destruct ty; try done; destruct op; cbn in Hc; try done; apply Ok_inj in Hc; subst pos;
    try (by eapply numeric_minus_outcome); try (by apply Hf);
    cbn [unary_panics numeric_of]; try (by exists v).
  destruct Hv as [_ Hk]. destruct v; try done; first [apply evaluates_null|apply evaluates_bool].
Qed.

(** The unary operators keep the type: applied to a value of the type the
    binder accepted them at, they give a value of that type, and the one way to
    fail is to negate the smallest integer of a signed type. *)
Theorem unary_eval_sound ty op pos v :
  unary_create ty op = Ok pos -> operand ty v ->
  if unary_panics ty op v then eval_unary pos v = Err Panic else evaluates ty (eval_unary pos v).
Proof. apply unary_eval_outcome. Qed.

(** ** Comparisons *)

(** A comparison operator on two values of a type that orders them by
    [PartialOrd] tests that order; with a null it is unknown. *)
Lemma comparison_eval ty op test ev l r :
  comparison_test op = Some test -> binary_create ty op = Ok ev ->
  operand ty l -> operand ty r -> is_null l = false -> is_null r = false ->
  match ty with
  | LogicalType.Time _ | LogicalType.TimeStamp _ _ | LogicalType.Tuple _ | LogicalType.SqlNull => False
  | _ => True
  end ->
  exists c, partial_cmp l r = Some c /\ binary_eval ev l r = Ok (DataValue.Boolean (test c)).
Proof.
  intros Ht Hc [Hl Hlk] [Hr Hrk] Hln Hrn Hty.
  destruct l; try done; destruct ty; try done; destruct r; try done;
    destruct op; try done; apply (inj Some) in Ht; subst test; cbn in Hc; try done;
    apply Ok_inj in Hc; subst ev; (eexists; split; [reflexivity|try reflexivity]).
  all: destruct b, b0; reflexivity.
Qed.
End Sound.

Lemma binary_eval_sound_witness :
  exists ev, binary_create LogicalType.Tinyint BinaryOperator.Plus = Ok ev /\
    binary_eval ev (DataValue.Int8 100) (DataValue.Int8 27) = Ok (DataValue.Int8 127) /\
    binary_eval ev (DataValue.Int8 100) (DataValue.Int8 28) = Err OverFlow /\
    binary_outcome LogicalType.Tinyint BinaryOperator.Plus (DataValue.Int8 100) (DataValue.Int8 28)
      (binary_eval ev (DataValue.Int8 100) (DataValue.Int8 28)).
Proof.
  eexists. split; [reflexivity|]. split; [reflexivity|]. split; [reflexivity|].
  apply binary_eval_sound; [reflexivity|split; [vm_compute; done|done]..|reflexivity].
Defined.

Lemma boolean_kleene_witness :
  truth DataValue.Null = Some 1 /\ truth (DataValue.Boolean false) = Some 0 /\
  truth_result (let? ev := binary_create LogicalType.Boolean BinaryOperator.And in
    binary_eval ev DataValue.Null (DataValue.Boolean false)) = Some (Z.min 1 0).
Proof. split; [done|]. split; [done|]. by apply (boolean_kleene DataValue.Null (DataValue.Boolean false) 1 0). Defined.

Lemma unary_eval_sound_witness :
  unary_create LogicalType.Tinyint UnaryOperator.Minus = Ok 1 /\
  unary_panics LogicalType.Tinyint UnaryOperator.Minus (DataValue.Int8 (-128)) = true /\
  eval_unary 1 (DataValue.Int8 (-128)) = Err Panic.
Proof.
  split; [reflexivity|]. split; [reflexivity|].
  apply (unary_eval_sound LogicalType.Tinyint UnaryOperator.Minus 1 (DataValue.Int8 (-128)));
    [reflexivity|split; [vm_compute; done|done]].
Defined.
