(* ===== verification/Casts.v ===== *)
(** Casts (src/src/types/evaluator/cast.rs, the cast evaluators of its sibling
    files, and [DataValue::cast]).

    [cast_create] chooses an evaluator for a pair of types and stores its
    position, the pair of type codes; [cast_eval] decodes the position. The
    model has no decimals: they are behind a feature of the crate, and without
    it [cast_type_code] panics on the type. *)

From S2P Require Import Prelude MachineInt Types Value Time32 Chrono FloatArith Text Like Evaluators.
From stdpp Require Import base tactics list list_numbers numbers option.
From Stdlib Require Import ZArith Lia.
Local Open Scope Z_scope.

(** * Positions *)

Definition CAST_TYPE_STRIDE : Z := 32.
Definition CAST_SQL_NULL : Z := 0.
Definition CAST_BOOLEAN : Z := 1.
Definition CAST_TINYINT : Z := 2.
Definition CAST_UTINYINT : Z := 3.
Definition CAST_SMALLINT : Z := 4.
Definition CAST_USMALLINT : Z := 5.
Definition CAST_INTEGER : Z := 6.
Definition CAST_UINTEGER : Z := 7.
Definition CAST_BIGINT : Z := 8.
Definition CAST_UBIGINT : Z := 9.
Definition CAST_FLOAT : Z := 10.
Definition CAST_DOUBLE : Z := 11.
Definition CAST_CHAR : Z := 12.
Definition CAST_VARCHAR : Z := 13.
Definition CAST_DATE : Z := 14.
Definition CAST_DATETIME : Z := 15.
Definition CAST_TIME : Z := 16.
Definition CAST_TIMESTAMP : Z := 17.
Definition CAST_TUPLE : Z := 19.

Definition cast_type_code (ty : LogicalType) : res Z :=
  match ty with
  | LogicalType.SqlNull => Ok CAST_SQL_NULL
  | LogicalType.Boolean => Ok CAST_BOOLEAN
  | LogicalType.Tinyint => Ok CAST_TINYINT
  | LogicalType.UTinyint => Ok CAST_UTINYINT
  | LogicalType.Smallint => Ok CAST_SMALLINT
  | LogicalType.USmallint => Ok CAST_USMALLINT
  | LogicalType.Integer => Ok CAST_INTEGER
  | LogicalType.UInteger => Ok CAST_UINTEGER
  | LogicalType.Bigint => Ok CAST_BIGINT
  | LogicalType.UBigint => Ok CAST_UBIGINT
  | LogicalType.Float => Ok CAST_FLOAT
  | LogicalType.Double => Ok CAST_DOUBLE
  | LogicalType.Char _ _ => Ok CAST_CHAR
  | LogicalType.Varchar _ _ => Ok CAST_VARCHAR
  | LogicalType.Date => Ok CAST_DATE
  | LogicalType.DateTime => Ok CAST_DATETIME
  | LogicalType.Time _ => Ok CAST_TIME
  | LogicalType.TimeStamp _ _ => Ok CAST_TIMESTAMP
  | LogicalType.Decimal _ _ => Err Panic
  | LogicalType.Tuple _ => Ok CAST_TUPLE
  end.

Definition cast_pos (from to_ : LogicalType) : res Z :=
  let? f := cast_type_code from in
  let? t := cast_type_code to_ in
  Ok (f * CAST_TYPE_STRIDE + t).

Inductive CastEvaluatorRef :=
| mk_cast_ref (pos : Z) (params : CastEvaluatorParams)
with CastEvaluatorParams :=
| Identity
| CastUnit
| CastString (len : option Z) (unit : CharLengthUnits)
| Precision (precision : option Z)
| Timestamp (precision : option Z) (zone : bool)
| CastTuple (evaluators : list CastEvaluatorRef).

(** * [cast_create] *)

Definition cast_ref (from to_ : LogicalType) (params : CastEvaluatorParams) : res CastEvaluatorRef :=
  let? pos := cast_pos from to_ in
  Ok (mk_cast_ref pos params).

(** The targets [build_integer_cast!] lists beside strings. *)
Definition numeric_target (to_ : LogicalType) : bool :=
  match to_ with
  | LogicalType.Tinyint | LogicalType.UTinyint | LogicalType.Smallint | LogicalType.USmallint
  | LogicalType.Integer | LogicalType.UInteger | LogicalType.Bigint | LogicalType.UBigint
  | LogicalType.Float | LogicalType.Double => true
  | _ => false
  end.

Definition string_target (to_ : LogicalType) : option CastEvaluatorParams :=
  match to_ with
  | LogicalType.Char len unit => Some (CastString (Some len) unit)
  | LogicalType.Varchar len unit => Some (CastString len unit)
  | _ => None
  end.

(** The parameters of the evaluator for a pair of different scalar types. *)
Definition scalar_params (from to_ : LogicalType) : option CastEvaluatorParams :=
  match from, to_ with
  | LogicalType.SqlNull, _ | _, LogicalType.SqlNull => Some CastUnit
  | LogicalType.Boolean, _ => if numeric_target to_ then Some CastUnit else string_target to_
  | LogicalType.Tinyint, _ | LogicalType.Smallint, _ | LogicalType.Integer, _ | LogicalType.Bigint, _
  | LogicalType.UTinyint, _ | LogicalType.USmallint, _ | LogicalType.UInteger, _ | LogicalType.UBigint, _ =>
      match to_ with
      | LogicalType.Boolean => Some CastUnit
      | _ => if numeric_target to_ then Some CastUnit else string_target to_
      end
  | LogicalType.Float, LogicalType.Float | LogicalType.Double, LogicalType.Double => None
  | LogicalType.Float, _ | LogicalType.Double, _ =>
      if numeric_target to_ then Some CastUnit else string_target to_
  | LogicalType.Char _ _, _ | LogicalType.Varchar _ _, _ =>
      match to_ with
      | LogicalType.Boolean | LogicalType.Date | LogicalType.DateTime => Some CastUnit
      | LogicalType.Time precision => Some (Precision precision)
      | LogicalType.TimeStamp precision zone => Some (Timestamp precision zone)
      | _ => if numeric_target to_ then Some CastUnit else string_target to_
      end
  | LogicalType.Date, LogicalType.DateTime => Some CastUnit
  | LogicalType.Date, _ => string_target to_
  | LogicalType.DateTime, LogicalType.Date => Some CastUnit
  | LogicalType.DateTime, LogicalType.Time precision => Some (Precision precision)
  | LogicalType.DateTime, LogicalType.TimeStamp precision zone => Some (Timestamp precision zone)
  | LogicalType.DateTime, _ => string_target to_
  | LogicalType.Time _, LogicalType.Time precision => Some (Precision precision)
  | LogicalType.Time _, _ => string_target to_
  | LogicalType.TimeStamp _ _, LogicalType.Date
  | LogicalType.TimeStamp _ _, LogicalType.DateTime => Some CastUnit
  | LogicalType.TimeStamp _ _, LogicalType.Time precision => Some (Precision precision)
  | LogicalType.TimeStamp _ _, LogicalType.TimeStamp precision zone => Some (Timestamp precision zone)
  | LogicalType.TimeStamp _ _, _ => string_target to_
  | _, _ => None
  end.

Fixpoint cast_create (from to_ : LogicalType) : res CastEvaluatorRef :=
  if decide (from = to_) then cast_ref from to_ Identity
  else
    match from, to_ with
    | LogicalType.Tuple from_types, LogicalType.Tuple to_types =>
        let? evaluators :=
          (fix go (fs ts : list LogicalType) : res (list CastEvaluatorRef) :=
            match fs, ts with
            | f :: fs', t :: ts' =>
                let? e := cast_create f t in
                let? es := go fs' ts' in
                Ok (e :: es)
            | _, _ => Ok []
            end) from_types to_types in
        cast_ref from to_ (CastTuple evaluators)
    | _, _ =>
        match scalar_params from to_ with
        | Some params => cast_ref from to_ params
        | None => Err (CastFail from to_)
        end
    end.

(** The element loop of the tuple arm. *)
Fixpoint cast_create_all (fs ts : list LogicalType) : res (list CastEvaluatorRef) :=
  match fs, ts with
  | f :: fs', t :: ts' =>
      let? e := cast_create f t in
      let? es := cast_create_all fs' ts' in
      Ok (e :: es)
  | _, _ => Ok []
  end.

(** * The evaluators *)

Section CastEval.
Context {CH : Chrono}.

Definition to_char (value : list Z) (len : Z) (unit : CharLengthUnits) : res DataValue :=
  if check_string_len value len unit then Err TooLong
  else Ok (DataValue.Utf8 value (Fixed len) unit).

Definition to_varchar (value : list Z) (len : option Z) (unit : CharLengthUnits) : res DataValue :=
  match len with
  | Some l =>
      if check_string_len value l unit then Err TooLong
      else Ok (DataValue.Utf8 value (Variable_ len) unit)
  | None => Ok (DataValue.Utf8 value (Variable_ len) unit)
  end.

(** [define_cast_evaluator!]: null to null, the expected variant to the body. *)
Definition cast_evaluator {A : Type} (get : DataValue -> option A) (body : A -> res DataValue)
    (value : DataValue) : res DataValue :=
  if is_null value then Ok DataValue.Null
  else match get value with Some v => body v | None => Err Panic end.

(** [string_param] with the target code: the text as a [CHAR] or a [VARCHAR]. *)
Definition string_cast (to_code : Z) (params : CastEvaluatorParams) (text : list Z) : res DataValue :=
  match params with
  | CastString len unit =>
      if to_code =? CAST_CHAR then
        match len with Some len => to_char text len unit | None => Err Panic end
      else to_varchar text len unit
  | _ => Err Panic
  end.

(** The integer type behind a target code. *)
Definition code_numeric (to_code : Z) : option Numeric :=
  match to_code with
  | 2 => Some Int8_num
  | 3 => Some UInt8_num
  | 4 => Some Int16_num
  | 5 => Some UInt16_num
  | 6 => Some Int32_num
  | 7 => Some UInt32_num
  | 8 => Some Int64_num
  | 9 => Some UInt64_num
  | _ => None
  end.

Definition is_string_code (code : Z) : bool := (code =? CAST_CHAR) || (code =? CAST_VARCHAR).

Definition numeric_to_boolean_cast (from : LogicalType) (value : Z) : res DataValue :=
  if value =? 0 then Ok (DataValue.Boolean false)
  else if value =? 1 then Ok (DataValue.Boolean true)
  else Err (CastFail from LogicalType.Boolean).

(** [try_from] between integer types. *)
Definition integer_try_from (N : Numeric) (value : Z) : res DataValue :=
  match num_checked N value with
  | Some r => Ok (num_make N r)
  | None => Err TryFromInt
  end.

(** [define_integer_cast_evaluators!] and [eval_integer_cast_by_pos!]. *)
Definition integer_cast_eval (N : Numeric) (from : LogicalType) (to_code : Z)
    (params : CastEvaluatorParams) : DataValue -> res DataValue :=
  cast_evaluator (num_get N) (fun value =>
    if to_code =? CAST_BOOLEAN then numeric_to_boolean_cast from value
    else
      match code_numeric to_code with
      | Some M => integer_try_from M value
      | None =>
          if to_code =? CAST_FLOAT then Ok (DataValue.Float32 (float_of_int f32 value))
          else if to_code =? CAST_DOUBLE then Ok (DataValue.Float64 (float_of_int f64 value))
          else if is_string_code to_code then string_cast to_code params (int_to_string value)
          else Err Panic
      end).

(** The largest value of the type. *)
Definition num_max (N : Numeric) : Z :=
  if num_signed N then 2 ^ (num_width N - 1) - 1 else 2 ^ num_width N - 1.

(** [float_to_int_cast!]; the final [as] saturates. *)
Definition float_to_int_cast (F : Floating) (N : Numeric) (bits : Z) : res Z :=
  let w := fw (fl_format F) in
  if is_nan_bits w (fl_inf F) bits then Ok 0
  else if (float_key w bits <=? 0) || (float_key w (float_of_int (fl_format F) (num_max N)) <? float_key w bits)
  then Err OverFlow
  else Ok (Z.min (float_trunc (fl_format F) bits) (num_max N)).

(** [define_float_cast_evaluators!] for [f32], and float64.rs; [G] is the other
    float type. *)
Definition float_cast_eval (F G : Floating) (G_code to_code : Z) (params : CastEvaluatorParams)
    : DataValue -> res DataValue :=
  cast_evaluator (fl_get F) (fun bits =>
    match code_numeric to_code with
    | Some N => let? v := float_to_int_cast F N bits in Ok (num_make N v)
    | None =>
        if to_code =? G_code then Ok (fl_make G (float_convert (fl_format F) (fl_format G) bits))
        else if is_string_code to_code then string_cast to_code params (float_to_string (fl_format F) bits)
        else Err Panic
    end).

Definition boolean_cast_eval (to_code : Z) (params : CastEvaluatorParams) : DataValue -> res DataValue :=
  cast_evaluator boolean_get (fun value =>
    match code_numeric to_code with
    | Some N => Ok (num_make N (if value then 1 else 0))
    | None =>
        if to_code =? CAST_FLOAT then Ok (DataValue.Float32 (float_of_int f32 (if value then 1 else 0)))
        else if to_code =? CAST_DOUBLE then Ok (DataValue.Float64 (float_of_int f64 (if value then 1 else 0)))
        else if is_string_code to_code then string_cast to_code params (bool_to_string value)
        else Err Panic
    end).

(** ** Times *)

Definition parsed {A : Type} (o : option A) : res A :=
  match o with Some a => Ok a | None => Err ChronoParse end.
Definition or_cast_fail {A : Type} (o : option A) (from to_ : LogicalType) : res A :=
  match o with Some a => Ok a | None => Err (CastFail from to_) end.

Definition utf8_to_datetime (value : list Z) : res DataValue :=
  let? d := parsed match parse_datetime DATE_TIME_FMT value with
                   | Some d => Some d
                   | None => parse_date DATE_FMT value
                   end in
  Ok (DataValue.Date64 (timestamp d)).

Definition utf8_to_time (precision : option Z) (value : list Z) : res DataValue :=
  let precision := default 0 precision in
  let fmt := if precision =? 0 then TIME_FMT else TIME_FMT_WITHOUT_ZONE in
  let? (secs, nano) := parsed (parse_time fmt value) in
  let nano := if precision =? 0 then 0 else nano in
  let? packed := pack_time secs nano precision in
  Ok (DataValue.Time32 packed precision).

Definition utf8_to_timestamp (precision : option Z) (zone : bool) (value : list Z) : res DataValue :=
  let target := LogicalType.TimeStamp precision zone in
  let precision := default 0 precision in
  let subsecond := (precision =? 3) || (precision =? 6) || (precision =? 9) in
  let fmt :=
    if (precision =? 0) && negb zone then DATE_TIME_FMT
    else if (precision =? 0) && zone then TIME_STAMP_FMT_WITHOUT_PRECISION
    else if subsecond && negb zone then TIME_STAMP_FMT_WITHOUT_ZONE
    else TIME_STAMP_FMT_WITH_ZONE in
  let complete_value :=
    if zone then
      if bool_decide (43 ∈ value) then value else value ++ [43; 48; 48; 58; 48; 48]
    else value in
  let? d := parsed ((if zone then parse_datetime_zone else parse_datetime) fmt complete_value) in
  let? v :=
    if precision =? 3 then Ok (timestamp_millis d)
    else if precision =? 6 then Ok (timestamp_micros d)
    else if precision =? 9 then or_cast_fail (timestamp_nanos_opt d) target target
    else if precision =? 0 then Ok (timestamp d)
    else Err Panic in
  Ok (DataValue.Time64 v precision zone).

Definition utf8_cast_eval (to_code : Z) (params : CastEvaluatorParams) : DataValue -> res DataValue :=
  cast_evaluator utf8_get (fun value =>
    match code_numeric to_code with
    | Some N => let? v := int_from_str (num_signed N) (num_width N) value in Ok (num_make N v)
    | None =>
        if to_code =? CAST_BOOLEAN then let? b := bool_from_str value in Ok (DataValue.Boolean b)
        else if to_code =? CAST_FLOAT then let? v := float_from_str f32 value in Ok (DataValue.Float32 v)
        else if to_code =? CAST_DOUBLE then let? v := float_from_str f64 value in Ok (DataValue.Float64 v)
        else if is_string_code to_code then string_cast to_code params value
        else if to_code =? CAST_DATE then
          let? d := parsed (parse_date DATE_FMT value) in Ok (DataValue.Date32 (num_days_from_ce d))
        else if to_code =? CAST_DATETIME then utf8_to_datetime value
        else
          match params with
          | Precision precision => if to_code =? CAST_TIME then utf8_to_time precision value else Err Panic
          | Timestamp precision zone =>
              if to_code =? CAST_TIMESTAMP then utf8_to_timestamp precision zone value else Err Panic
          | _ => Err Panic
          end
    end).

(** The type a failed cast to a string names. *)
Definition string_type (to_code : Z) (params : CastEvaluatorParams) : LogicalType :=
  match params with
  | CastString len unit =>
      if to_code =? CAST_CHAR then LogicalType.Char (default 0 len) unit else LogicalType.Varchar len unit
  | _ => LogicalType.SqlNull
  end.

Definition date_get (v : DataValue) : option Z :=
  match v with DataValue.Date32 x => Some x | _ => None end.

Definition date_cast_eval (to_code : Z) (params : CastEvaluatorParams) : DataValue -> res DataValue :=
  cast_evaluator date_get (fun value =>
    if is_string_code to_code then
      let? text := or_cast_fail (format_date value) LogicalType.Date (string_type to_code params) in
      string_cast to_code params text
    else if to_code =? CAST_DATETIME then
      let? d := or_cast_fail (from_num_days_from_ce_opt value) LogicalType.Date LogicalType.DateTime in
      Ok (DataValue.Date64 (timestamp d))
    else Err Panic).

Definition datetime_get (v : DataValue) : option Z :=
  match v with DataValue.Date64 x => Some x | _ => None end.

Definition datetime_cast_eval (to_code : Z) (params : CastEvaluatorParams) : DataValue -> res DataValue :=
  cast_evaluator datetime_get (fun value =>
    if is_string_code to_code then
      let? text := or_cast_fail (format_datetime value) LogicalType.DateTime (string_type to_code params) in
      string_cast to_code params text
    else if to_code =? CAST_DATE then
      let? d := or_cast_fail (from_timestamp value 0) LogicalType.DateTime LogicalType.Date in
      Ok (DataValue.Date32 (num_days_from_ce d))
    else
      match params with
      | Precision precision =>
          if negb (to_code =? CAST_TIME) then Err Panic
          else
            let? d := or_cast_fail (from_timestamp value 0) LogicalType.DateTime (LogicalType.Time precision) in
            let? packed := pack_time (num_seconds_from_midnight d) 0 0 in
            Ok (DataValue.Time32 packed (default 0 precision))
      | Timestamp precision zone =>
          if negb (to_code =? CAST_TIMESTAMP) then Err Panic
          else Ok (DataValue.Time64 value (default 0 precision) zone)
      | _ => Err Panic
      end).

Definition time_get (v : DataValue) : option (Z * Z) :=
  match v with DataValue.Time32 x p => Some (x, p) | _ => None end.

(** The cast to another precision keeps the packed value. *)
Definition time32_cast_eval (to_code : Z) (params : CastEvaluatorParams) : DataValue -> res DataValue :=
  cast_evaluator time_get (fun '(value, precision) =>
    if is_string_code to_code then
      let? text := format_time value precision in
      let? text := or_cast_fail text (LogicalType.Time (Some precision)) (string_type to_code params) in
      string_cast to_code params text
    else
      match params with
      | Precision target =>
          if negb (to_code =? CAST_TIME) then Err Panic else Ok (DataValue.Time32 value (default 0 target))
      | _ => Err Panic
      end).

Definition timestamp_get (v : DataValue) : option (Z * Z * bool) :=
  match v with DataValue.Time64 x p z => Some (x, p, z) | _ => None end.

Definition timestamp_cast_eval (to_code : Z) (params : CastEvaluatorParams) : DataValue -> res DataValue :=
  cast_evaluator timestamp_get (fun '(value, precision, zone) =>
    let from := LogicalType.TimeStamp (Some precision) zone in
    if is_string_code to_code then
      let? text := format_timestamp value precision in
      let? text := or_cast_fail text from (string_type to_code params) in
      string_cast to_code params text
    else if to_code =? CAST_DATE then
      let? d := from_timestamp_precision value precision in
      let? d := or_cast_fail d from LogicalType.Date in
      Ok (DataValue.Date32 (num_days_from_ce d))
    else if to_code =? CAST_DATETIME then
      let? d := from_timestamp_precision value precision in
      let? d := or_cast_fail d from LogicalType.DateTime in
      Ok (DataValue.Date64 (timestamp d))
    else
      match params with
      | Precision target =>
          if negb (to_code =? CAST_TIME) then Err Panic
          else
            let? d := from_timestamp_precision value precision in
            let? d := or_cast_fail d from (LogicalType.Time target) in
            let? packed := pack_time (num_seconds_from_midnight d) (nanosecond d) (default 0 target) in
            Ok (DataValue.Time32 packed (default 0 target))
      | Timestamp target zone =>
          if negb (to_code =? CAST_TIMESTAMP) then Err Panic
          else Ok (DataValue.Time64 value (default 0 target) zone)
      | _ => Err Panic
      end).

(** ** [CastEvaluatorRef::eval] *)

(** The evaluator of a scalar source, by its code. *)
Definition scalar_cast_eval (from_code to_code : Z) (params : CastEvaluatorParams)
    : DataValue -> res DataValue :=
  match from_code with
  | 1 => boolean_cast_eval to_code params
  | 2 => integer_cast_eval Int8_num LogicalType.Tinyint to_code params
  | 3 => integer_cast_eval UInt8_num LogicalType.UTinyint to_code params
  | 4 => integer_cast_eval Int16_num LogicalType.Smallint to_code params
  | 5 => integer_cast_eval UInt16_num LogicalType.USmallint to_code params
  | 6 => integer_cast_eval Int32_num LogicalType.Integer to_code params
  | 7 => integer_cast_eval UInt32_num LogicalType.UInteger to_code params
  | 8 => integer_cast_eval Int64_num LogicalType.Bigint to_code params
  | 9 => integer_cast_eval UInt64_num LogicalType.UBigint to_code params
  | 10 => float_cast_eval Float32_num Float64_num CAST_DOUBLE to_code params
  | 11 => float_cast_eval Float64_num Float32_num CAST_FLOAT to_code params
  | 12 | 13 => utf8_cast_eval to_code params
  | 14 => date_cast_eval to_code params
  | 15 => datetime_cast_eval to_code params
  | 16 => time32_cast_eval to_code params
  | 17 => timestamp_cast_eval to_code params
  | _ => fun _ => Err Panic
  end.

Fixpoint cast_eval (self : CastEvaluatorRef) (value : DataValue) : res DataValue :=
  let '(mk_cast_ref pos params) := self in
  let from_code := pos / CAST_TYPE_STRIDE in
  let to_code := pos mod CAST_TYPE_STRIDE in
  match params with
  | Identity => Ok value
  | params =>
      if (from_code =? CAST_SQL_NULL) || (to_code =? CAST_SQL_NULL) then Ok DataValue.Null
      else if (from_code =? CAST_TUPLE) && (to_code =? CAST_TUPLE) then
        match params with
        | CastTuple evaluators =>
            match value with
            | DataValue.Null => Ok DataValue.Null
            | DataValue.Tuple values =>
                let? casted :=
                  (fix go (es : list CastEvaluatorRef) (vs : list DataValue) : res (list DataValue) :=
                    match es, vs with
                    | e :: es', v :: vs' =>
                        let? c := cast_eval e v in
                        let? cs := go es' vs' in
                        Ok (c :: cs)
                    | _, _ => Ok []
                    end) evaluators values in
                Ok (DataValue.Tuple casted)
            | _ => Err Panic
            end
        | _ => Err Panic
        end
      else scalar_cast_eval from_code to_code params value
  end.

(** The element loop of [eval_tuple_cast]. *)
Fixpoint cast_eval_all (es : list CastEvaluatorRef) (vs : list DataValue) : res (list DataValue) :=
  match es, vs with
  | e :: es', v :: vs' =>
      let? c := cast_eval e v in
      let? cs := cast_eval_all es' vs' in
      Ok (c :: cs)
  | _, _ => Ok []
  end.

(** [DataValue::cast]. *)
Definition cast (self : DataValue) (to_ : LogicalType) : res DataValue :=
  let from := logical_type self in
  if decide (from = to_) then Ok self
  else
    match self, to_ with
    | DataValue.Parameter_ id _, _ => Ok (DataValue.Parameter_ id to_)
    | DataValue.Null, _ => Ok DataValue.Null
    | DataValue.Utf8 value _ _, LogicalType.Char len unit => to_char value len unit
    | DataValue.Utf8 value _ _, LogicalType.Varchar len unit => to_varchar value len unit
    | _, _ => let? evaluator := cast_create from to_ in cast_eval evaluator self
    end.
End CastEval.

(** * What a cast gives *)

Section CastSound.
Context {CH : Chrono}.

(** A value of a type, down to the elements of tuples. *)
Fixpoint deep (ty : LogicalType) (v : DataValue) : Prop :=
  match ty, v with
  | _, DataValue.Null => True
  | LogicalType.Tuple tys, DataValue.Tuple vs =>
      (fix go (ts : list LogicalType) (vs : list DataValue) : Prop :=
        match ts, vs with
        | [], [] => True
        | t :: ts', v :: vs' => deep t v /\ go ts' vs'
        | _, _ => False
        end) tys vs
  | LogicalType.Tuple _, _ => False
  | _, _ => operand ty v
  end.

(** The casts the theorem covers: lengths and precisions a type can have, tuples
    of one length, and no cast to a time of day, which can panic on the leap
    second of the calendar. *)
Definition target_ok (to_ : LogicalType) : Prop :=
  match to_ with
  | LogicalType.Char len _ | LogicalType.Varchar (Some len) _ => in_u 32 len
  | LogicalType.TimeStamp p _ => timestamp_precision_ok (default 0 p) = true
  | LogicalType.Time _ => False
  | _ => True
  end.

Fixpoint castable (from to_ : LogicalType) : Prop :=
  match from, to_ with
  | LogicalType.Tuple fs, LogicalType.Tuple ts =>
      (fix go (fs ts : list LogicalType) : Prop :=
        match fs, ts with
        | [], [] => True
        | f :: fs', t :: ts' => castable f t /\ go fs' ts'
        | _, _ => False
        end) fs ts
  | _, _ => target_ok to_
  end.

Definition cast_outcome (to_ : LogicalType) (m : res DataValue) : Prop :=
  match m with
  | Ok v => deep to_ v
  | Err e => e <> Panic
  end.

Lemma null_outcome to_ : cast_outcome to_ (Ok DataValue.Null).
Proof. by destruct to_. Qed.
#[local] Hint Resolve null_outcome : core.

Definition scalar (ty : LogicalType) : bool := match ty with LogicalType.Tuple _ => false | _ => true end.

Lemma deep_operand ty v : scalar ty = true -> deep ty v -> operand ty v.
Proof. destruct ty; try done; destruct v; try done; by split. Qed.

Lemma operand_deep ty v : scalar ty = true -> operand ty v -> deep ty v.
Proof. destruct ty; try done; by destruct v. Qed.

Lemma cast_evaluator_outcome {A : Type} (get : DataValue -> option A) body from to_ v :
  operand from v ->
  (is_null v = false -> exists a, get v = Some a /\ cast_outcome to_ (body a)) ->
  cast_outcome to_ (cast_evaluator get body v).
Proof.
  intros Hv H. unfold cast_evaluator. destruct (is_null v) eqn:E; [done|].
  destruct H as (a & -> & H); done.
Qed.

(** ** Strings *)

Lemma utf8_deep to_ s ty unit :
  match to_, ty with
  | LogicalType.Char len u, Fixed len' => len' = len /\ u = unit
  | LogicalType.Varchar len u, Variable_ len' => len' = len /\ u = unit
  | _, _ => False
  end ->
  target_ok to_ -> bytes_ok s -> utf8_valid s = true -> deep to_ (DataValue.Utf8 s ty unit).
Proof.
  intros Ht Hc Hs Hv. destruct to_ as [| | | | | | | | | | | |l u|l u| | | | | |]; try done; destruct ty as [l'|l']; try done;
    destruct Ht as [-> ->]; (split; [|done]); cbn; (split; [done|split; [done|]]); try done.
Qed.

Lemma string_cast_outcome to_ code params s :
  string_target to_ = Some params -> cast_type_code to_ = Ok code -> target_ok to_ ->
  bytes_ok s -> utf8_valid s = true -> cast_outcome to_ (string_cast code params s).
Proof.
  intros Ht Hc Hs Hb Hv. destruct to_; simplify_eq/=; unfold string_cast; simpl.
  - unfold to_char. case_match; [done|]. by apply utf8_deep.
  - unfold to_varchar. destruct len as [l|]; [case_match; [done|]|]; by apply utf8_deep.
Qed.

Lemma text_cast_outcome to_ code params s :
  string_target to_ = Some params -> cast_type_code to_ = Ok code -> target_ok to_ ->
  ascii s -> cast_outcome to_ (string_cast code params s).
Proof. intros Ht Hc Hs [Hb Hv]%ascii_utf8. by apply string_cast_outcome. Qed.

(** ** Numbers and booleans *)

(** The integer type of a code is the one of the type with the code. *)
Lemma code_numeric_of to_ code :
  cast_type_code to_ = Ok code -> code_numeric code =
    match to_ with LogicalType.Date | LogicalType.DateTime => None | _ => numeric_of to_ end.
Proof. destruct to_; intros H; try done; by apply Ok_inj in H; subst code. Qed.

Lemma num_make_deep to_ N v : numeric_of to_ = Some N -> num_range N v -> deep to_ (num_make N v).
Proof.
  intros HN Hv. apply operand_deep; [by destruct to_|]. by apply (no_make _ _ (numeric_of_ok to_ N HN)).
Qed.

Lemma f32_deep x : deep LogicalType.Float (DataValue.Float32 (pack f32 x)).
Proof. split; [|done]. by apply (pack_range f32). Qed.
Lemma f64_deep x : deep LogicalType.Double (DataValue.Float64 (pack f64 x)).
Proof. split; [|done]. by apply (pack_range f64). Qed.

(** The shape the evaluators of numbers, booleans and strings share: an integer
    target, a float, a boolean or text. *)
Lemma numeric_cast_outcome to_ code N (m : res Z) :
  cast_type_code to_ = Ok code -> code_numeric code = Some N ->
  match m with Ok v => num_range N v | Err e => e <> Panic end ->
  cast_outcome to_ (let? v := m in Ok (num_make N v)).
Proof.
  intros Hc HN Hm. rewrite (code_numeric_of _ _ Hc) in HN.
  assert (numeric_of to_ = Some N) by (by destruct to_). destruct m; [|done]. by apply num_make_deep.
Qed.

(** Floats and the text of a number. *)
Ltac cast_leaf := try first
  [ apply f32_deep | apply f64_deep
  | by apply text_cast_outcome; [..|first [apply int_to_string_ascii|apply bool_to_string_ascii|apply float_to_string_ascii]] ].

Lemma integer_cast_outcome N from to_ code params v :
  numeric_of from = Some N -> from <> LogicalType.Date -> from <> LogicalType.DateTime ->
  to_ <> LogicalType.SqlNull ->
  scalar_params from to_ = Some params -> cast_type_code to_ = Ok code -> target_ok to_ -> operand from v ->
  cast_outcome to_ (integer_cast_eval N from code params v).
Proof.
  intros HN Hd Hdt Hnull Hp Hc Hto Hv. apply (cast_evaluator_outcome _ _ from); [done|]. intros Hnn.
  destruct (numeric_of_ok from N HN) as [Hop _ Hget _ _].
  destruct (Hop v Hv) as [->|(x & -> & Hx)]; [done|]. exists x. split; [apply Hget|].
  assert (scalar_params from to_ =
    match to_ with
    | LogicalType.Boolean => Some CastUnit
    | _ => if numeric_target to_ then Some CastUnit else string_target to_
    end) as Hsp by (destruct from; try done; by destruct to_).
  rewrite Hsp in Hp. clear Hsp.
  destruct (code_numeric code) as [M|] eqn:EM.
  - assert (code =? CAST_BOOLEAN = false) as -> by (by destruct to_; try done; apply Ok_inj in Hc; subst code).
    unfold integer_try_from. destruct (num_checked M x) as [r|] eqn:E; [|done].
    apply num_checked_range in E as [-> Hr]. by apply (numeric_cast_outcome to_ code M (Ok x)).
  - destruct to_; try done; apply Ok_inj in Hc; subst code; try done; cast_leaf.
    cbn. unfold numeric_to_boolean_cast. repeat (case_match; [by split|]). done.
Qed.

Lemma num_max_range N v : num_range N v -> v <= num_max N.
Proof. unfold num_range, num_max, in_s, in_u. destruct (num_signed N); lia. Qed.

Lemma float_trunc_nonneg F bits :
  0 < fw F -> in_u (fw F) bits -> 0 < float_key (fw F) bits -> 0 <= float_trunc F bits.
Proof.
  intros Hw Hb Hk. unfold float_trunc.
  assert (bits < 2 ^ (fw F - 1)) as Hs.
  { revert Hk. unfold float_key, in_u in *. pose proof (pow2_pos (fw F - 1) ltac:(lia)).
    destruct (Z.ltb_spec bits (2 ^ (fw F - 1))); [done|]. pose proof (Z.mod_pos_bound bits (2 ^ (fw F - 1))). lia. }
  unfold unpack. rewrite (proj2 (Z.leb_gt (2 ^ (fw F - 1)) bits)) by done.
  repeat case_match; simplify_eq; z_bool; try lia; apply Z.div_pos || apply Z.mul_nonneg_nonneg; try lia;
    apply Z.pow_nonneg || apply Z.pow_pos_nonneg; lia.
Qed.

(** A float in the range of the check is a value of the type. *)
Lemma float_to_int_outcome F N bits :
  0 < fw (fl_format F) -> 0 < num_width N -> in_u (fw (fl_format F)) bits ->
  match float_to_int_cast F N bits with Ok v => num_range N v | Err e => e <> Panic end.
Proof.
  intros Hw HN Hb. unfold float_to_int_cast. pose proof (pow2_pos (num_width N - 1) ltac:(lia)).
  pose proof (pow2_half (num_width N) HN).
  assert (0 <= num_max N /\ forall v, 0 <= v <= num_max N -> num_range N v) as [Hmax Hr].
  { unfold num_range, num_max, in_s, in_u. destruct (num_signed N); split; intros; lia. }
  destruct (is_nan_bits _ _ _); [apply Hr; lia|]. destruct (_ || _) eqn:E; [done|].
  apply orb_false_iff in E as [E _]. z_bool. apply Hr.
  pose proof (float_trunc_nonneg (fl_format F) bits Hw Hb). lia.
Qed.

Lemma float_get_operand ty F v :
  floating_of ty = Some F -> operand ty v -> is_null v = false ->
  exists bits, fl_get F v = Some bits /\ in_u (fw (fl_format F)) bits.
Proof. intros HF [Hok Hk] Hn. destruct ty; simplify_eq/=; destruct v; try done; eauto. Qed.

Lemma float_cast_outcome F G G_code from to_ code params v :
  floating_of from = Some F -> 0 < fw (fl_format F) ->
  (G, G_code, to_) = (Float64_num, CAST_DOUBLE, to_) /\ from = LogicalType.Float \/
  (G, G_code, to_) = (Float32_num, CAST_FLOAT, to_) /\ from = LogicalType.Double ->
  to_ <> LogicalType.SqlNull ->
  scalar_params from to_ = Some params -> cast_type_code to_ = Ok code -> target_ok to_ -> operand from v ->
  cast_outcome to_ (float_cast_eval F G G_code code params v).
Proof.
  intros HF Hw HG Hnull Hp Hc Hto Hv. apply (cast_evaluator_outcome _ _ from); [done|]. intros Hnn.
  destruct (float_get_operand from F v HF Hv Hnn) as (bits & -> & Hb). exists bits. split; [done|].
  destruct (code_numeric code) as [N|] eqn:EN.
  - eapply numeric_cast_outcome; [done..|]. apply float_to_int_outcome; [done| |done].
    rewrite (code_numeric_of _ _ Hc) in EN. destruct to_; simplify_eq/=; done.
  - destruct HG as [[E ->]|[E ->]]; simplify_eq; destruct to_; try done; apply Ok_inj in Hc; subst code;
      try done; cast_leaf.
Qed.

Lemma boolean_cast_outcome to_ code params v :
  to_ <> LogicalType.SqlNull -> to_ <> LogicalType.Boolean ->
  scalar_params LogicalType.Boolean to_ = Some params -> cast_type_code to_ = Ok code -> target_ok to_ ->
  operand LogicalType.Boolean v -> cast_outcome to_ (boolean_cast_eval code params v).
Proof.
  intros Hnull Hb Hp Hc Hto Hv. apply (cast_evaluator_outcome _ _ LogicalType.Boolean); [done|]. intros Hnn.
  destruct Hv as [_ Hv]. destruct v as [| |b| | | | | | | | | | | | | | | |]; try done. exists b. split; [done|].
  destruct (code_numeric code) as [N|] eqn:EN.
  - eapply (numeric_cast_outcome _ _ N (Ok (if b then 1 else 0))); [done..|].
    rewrite (code_numeric_of _ _ Hc) in EN.
    destruct to_; simplify_eq/=; destruct b; unfold num_range, in_s, in_u; simpl; lia.
  - destruct to_; try done; apply Ok_inj in Hc; subst code; try done; cast_leaf.
Qed.

(** ** Strings and times *)

Lemma date_deep x : in_s 32 x -> deep LogicalType.Date (DataValue.Date32 x).
Proof. by split. Qed.
Lemma datetime_deep x : in_s 64 x -> deep LogicalType.DateTime (DataValue.Date64 x).
Proof. by split. Qed.

Lemma timestamp_deep p zone v q z :
  in_s 64 v -> timestamp_precision_ok q = true -> deep (LogicalType.TimeStamp p zone) (DataValue.Time64 v q z).
Proof.
  intros Hv Hq. split; [|done]. split; [done|]. revert Hq. unfold timestamp_precision_ok, in_u.
  intros Hq. lia.
Qed.

Lemma utf8_to_timestamp_outcome p zone s :
  timestamp_precision_ok (default 0 p) = true ->
  cast_outcome (LogicalType.TimeStamp p zone) (utf8_to_timestamp p zone s).
Proof.
  intros Hp. unfold utf8_to_timestamp. cbv zeta.
  match goal with |- context [parsed ?o] => destruct o as [d|]; [|done] end. cbn [parsed rbind].
  revert Hp. generalize (default 0 p). intros q Hq.
  repeat (case_match; [z_bool; subst q; cbn [rbind];
    try (apply timestamp_deep; [|done];
      apply timestamp_millis_range || apply timestamp_micros_range || apply timestamp_range)|]).
  all: try (destruct (timestamp_nanos_opt d) as [n|] eqn:E; [|done]; cbn [or_cast_fail rbind];
    apply timestamp_deep; [by apply timestamp_nanos_range in E|done]).
  unfold timestamp_precision_ok in Hq. lia.
Qed.

Definition is_utf8_type (ty : LogicalType) : bool :=
  match ty with LogicalType.Char _ _ | LogicalType.Varchar _ _ => true | _ => false end.

Lemma utf8_cast_outcome from to_ code params v :
  is_utf8_type from = true -> to_ <> LogicalType.SqlNull ->
  scalar_params from to_ = Some params -> cast_type_code to_ = Ok code -> target_ok to_ ->
  operand from v -> cast_outcome to_ (utf8_cast_eval code params v).
Proof.
  intros Hf Hnull Hp Hc Hto Hv. apply (cast_evaluator_outcome _ _ from); [done|]. intros Hnn.
  assert (exists s, utf8_get v = Some s /\ bytes_ok s /\ utf8_valid s = true) as (s & -> & Hb & Hs).
  { destruct Hv as [Hok Hk]. destruct from; try done; destruct v; try done; cbn in Hok; naive_solver. }
  exists s. split; [done|].
  assert (scalar_params from to_ = scalar_params (LogicalType.Char 0 Characters) to_) as E by (by destruct from).
  rewrite E in Hp. clear E.
  destruct (code_numeric code) as [N|] eqn:EN.
  - eapply numeric_cast_outcome; [done..|].
    pose proof (int_from_str_outcome (num_signed N) (num_width N) s) as H.
    destruct (int_from_str _ _ s) as [x|e]; [done|by subst].
  - destruct to_; try done; apply Ok_inj in Hc; subst code; try done; try (by apply string_cast_outcome).
    + cbn. unfold bool_from_str. repeat (case_match; [by split|]). done.
    + pose proof (float_from_str_outcome f32 s ltac:(done)) as H. cbn -[float_from_str] in *.
      destruct (float_from_str f32 s) as [x|e]; [by split|by subst].
    + pose proof (float_from_str_outcome f64 s ltac:(done)) as H. cbn -[float_from_str] in *.
      destruct (float_from_str f64 s) as [x|e]; [by split|by subst].
    + cbn. destruct (parse_date DATE_FMT s); [|done]. apply date_deep, num_days_range.
    + cbn. unfold utf8_to_datetime.
      match goal with |- context [parsed ?o] => destruct o as [d|]; [|done] end. apply datetime_deep, timestamp_range.
    + apply (inj Some) in Hp. subst params. by apply utf8_to_timestamp_outcome.
Qed.

(** Text the calendar may refuse to give. *)
Lemma format_cast_outcome from to_ code params (o : option (list Z)) :
  string_target to_ = Some params -> cast_type_code to_ = Ok code -> target_ok to_ ->
  (forall s, o = Some s -> bytes_ok s /\ utf8_valid s = true) ->
  cast_outcome to_ (let? text := or_cast_fail o from (string_type code params) in string_cast code params text).
Proof.
  intros Ht Hc Hto Ho. destruct o as [s|]; [|done]. destruct (Ho s eq_refl). by apply string_cast_outcome.
Qed.

Lemma format_fmap_utf8 f (d : option DateTime) s :
  format_datetime_with f <$> d = Some s -> bytes_ok s /\ utf8_valid s = true.
Proof. destruct d; intros H; simplify_eq/=. apply format_datetime_utf8. Qed.

Lemma date_cast_outcome to_ code params v :
  to_ <> LogicalType.SqlNull -> scalar_params LogicalType.Date to_ = Some params ->
  cast_type_code to_ = Ok code -> target_ok to_ -> operand LogicalType.Date v ->
  cast_outcome to_ (date_cast_eval code params v).
Proof.
  intros Hnull Hp Hc Hto Hv. apply (cast_evaluator_outcome _ _ LogicalType.Date); [done|]. intros Hnn.
  destruct Hv as [_ Hv]. destruct v; try done. eexists. split; [reflexivity|].
  destruct to_; try done; apply Ok_inj in Hc; subst code; try done;
    try (apply format_cast_outcome; [done..|apply format_fmap_utf8]).
  cbn. destruct (from_num_days_from_ce_opt _); [|done]. apply datetime_deep, timestamp_range.
Qed.

Lemma datetime_cast_outcome to_ code params v :
  to_ <> LogicalType.SqlNull -> scalar_params LogicalType.DateTime to_ = Some params ->
  cast_type_code to_ = Ok code -> target_ok to_ -> operand LogicalType.DateTime v ->
  cast_outcome to_ (datetime_cast_eval code params v).
Proof.
  intros Hnull Hp Hc Hto Hv. apply (cast_evaluator_outcome _ _ LogicalType.DateTime); [done|]. intros Hnn.
  destruct Hv as [Hok Hv]. destruct v; try done. eexists. split; [reflexivity|].
  destruct to_; try done; apply Ok_inj in Hc; subst code; try done;
    try (apply format_cast_outcome; [done..|apply format_fmap_utf8]).
  - cbn. destruct (from_timestamp _ 0); [|done]. apply date_deep, num_days_range.
  - apply (inj Some) in Hp. subst params. by apply timestamp_deep.
Qed.

Lemma time32_cast_outcome p to_ code params v :
  to_ <> LogicalType.SqlNull -> scalar_params (LogicalType.Time p) to_ = Some params ->
  cast_type_code to_ = Ok code -> target_ok to_ -> operand (LogicalType.Time p) v ->
  cast_outcome to_ (time32_cast_eval code params v).
Proof.
  intros Hnull Hp Hc Hto Hv. apply (cast_evaluator_outcome _ _ (LogicalType.Time p)); [done|]. intros Hnn.
  destruct Hv as [_ Hv]. destruct v; try done. destruct Hv as [[s n] Hu]. eexists. split; [reflexivity|].
  destruct to_; try done; apply Ok_inj in Hc; subst code; try done;
    unfold format_time; rewrite Hu; (apply format_cast_outcome; [done..|]); intros t; apply format_time_utf8.
Qed.

Lemma timestamp_cast_outcome p z to_ code params v :
  to_ <> LogicalType.SqlNull -> scalar_params (LogicalType.TimeStamp p z) to_ = Some params ->
  cast_type_code to_ = Ok code -> target_ok to_ -> operand (LogicalType.TimeStamp p z) v ->
  cast_outcome to_ (timestamp_cast_eval code params v).
Proof.
  intros Hnull Hp Hc Hto Hv. apply (cast_evaluator_outcome _ _ (LogicalType.TimeStamp p z)); [done|]. intros Hnn.
  destruct Hv as [Hok Hv]. destruct v; try done. eexists. split; [reflexivity|].
  cbn in Hv. unfold format_timestamp.
  match type of Hv with timestamp_precision_ok ?q = true =>
    match type of Hok with dv_ok (DataValue.Time64 ?x _ _) =>
      destruct (from_timestamp_precision_ok x q Hv) as [d Hd] end end.
  destruct to_; try done; apply Ok_inj in Hc; subst code; try done; cbn -[string_cast string_type] ;
    rewrite ?Hd; cbn [rbind];
    try (apply format_cast_outcome; [done..|apply format_fmap_utf8]).
  - destruct d; [|done]. apply date_deep, num_days_range.
  - destruct d; [|done]. apply datetime_deep, timestamp_range.
  - apply (inj Some) in Hp. subst params. apply timestamp_deep; [apply Hok|done].
Qed.

(** ** Any cast *)

Lemma cast_type_code_range ty code : cast_type_code ty = Ok code -> 0 <= code < CAST_TYPE_STRIDE.
Proof. unfold CAST_TYPE_STRIDE. destruct ty; intros H; try done; apply Ok_inj in H; subst code; done. Qed.

Lemma cast_eval_scalar f t params v :
  0 <= t < CAST_TYPE_STRIDE -> params <> Identity -> t <> CAST_SQL_NULL -> f <> CAST_SQL_NULL -> f <> CAST_TUPLE ->
  cast_eval (mk_cast_ref (f * CAST_TYPE_STRIDE + t) params) v = scalar_cast_eval f t params v.
Proof.
  intros Ht Hp Ht0 Hf0 Hft. cbn [cast_eval].
  rewrite Z.div_add_l, Z.div_small, Z.add_0_r, (Z.add_comm (f * _)), Z.mod_add, Z.mod_small by done.
  rewrite (proj2 (Z.eqb_neq f CAST_SQL_NULL)), (proj2 (Z.eqb_neq t CAST_SQL_NULL)),
    (proj2 (Z.eqb_neq f CAST_TUPLE)) by done.
  by destruct params.
Qed.

Lemma cast_eval_null f t params v :
  0 <= t < CAST_TYPE_STRIDE -> params <> Identity -> t = CAST_SQL_NULL \/ f = CAST_SQL_NULL ->
  cast_eval (mk_cast_ref (f * CAST_TYPE_STRIDE + t) params) v = Ok DataValue.Null.
Proof.
  intros Ht Hp H. cbn [cast_eval].
  rewrite Z.div_add_l, Z.div_small, Z.add_0_r, (Z.add_comm (f * _)), Z.mod_add, Z.mod_small by done.
  assert ((f =? CAST_SQL_NULL) || (t =? CAST_SQL_NULL) = true) as -> by (unfold CAST_SQL_NULL in *; lia).
  by destruct params.
Qed.

Lemma scalar_params_not_identity from to_ params : scalar_params from to_ = Some params -> params <> Identity.
Proof. destruct from, to_; intros H; simplify_eq/=; done. Qed.

Lemma scalar_cast_outcome from to_ f t params v :
  from <> to_ -> scalar_params from to_ = Some params ->
  cast_type_code from = Ok f -> cast_type_code to_ = Ok t -> target_ok to_ -> deep from v ->
  cast_outcome to_ (cast_eval (mk_cast_ref (f * CAST_TYPE_STRIDE + t) params) v).
Proof.
  intros Hne Hp Hf Ht Hto Hv.
  pose proof (cast_type_code_range _ _ Ht) as Hr. pose proof (scalar_params_not_identity _ _ _ Hp) as Hi.
  destruct (decide (to_ = LogicalType.SqlNull \/ from = LogicalType.SqlNull)) as [Hn|Hn].
  { rewrite cast_eval_null; [apply null_outcome|done|done|].
    destruct Hn as [-> | ->]; [left; by apply Ok_inj in Ht|right; by apply Ok_inj in Hf]. }
  assert (to_ <> LogicalType.SqlNull /\ from <> LogicalType.SqlNull) as [Hn1 Hn2] by tauto. clear Hn.
  assert (scalar from = true) as Hs by (destruct from; try done; by destruct to_).
  apply deep_operand in Hv; [|done].
  rewrite cast_eval_scalar; [|done|done|..].
  - destruct from; try done; apply Ok_inj in Hf; subst f; cbn [scalar_cast_eval];
      try (by eapply integer_cast_outcome);
      try (match goal with H : operand ?from v |- _ => by apply (utf8_cast_outcome from) end).
    + apply boolean_cast_outcome; done || by intros ->.
    + eapply (float_cast_outcome _ _ _ LogicalType.Float); try done. by left.
    + eapply (float_cast_outcome _ _ _ LogicalType.Double); try done. by right.
    + by apply date_cast_outcome.
    + by apply datetime_cast_outcome.
    + by eapply time32_cast_outcome.
    + by eapply timestamp_cast_outcome.
  - intros ->. destruct to_; try done; by apply Ok_inj in Ht.
  - intros ->. destruct from; try done; by apply Ok_inj in Hf.
  - intros ->. destruct from; try done; by apply Ok_inj in Hf.
Qed.

Lemma cast_create_tuple fs ts :
  LogicalType.Tuple fs <> LogicalType.Tuple ts ->
  cast_create (LogicalType.Tuple fs) (LogicalType.Tuple ts) =
  let? evaluators := cast_create_all fs ts in
  cast_ref (LogicalType.Tuple fs) (LogicalType.Tuple ts) (CastTuple evaluators).
Proof. intros H. cbn [cast_create]. rewrite decide_False by done. reflexivity. Qed.

Lemma cast_eval_tuple es vs :
  cast_eval (mk_cast_ref (CAST_TUPLE * CAST_TYPE_STRIDE + CAST_TUPLE) (CastTuple es)) (DataValue.Tuple vs) =
  let? casted := cast_eval_all es vs in Ok (DataValue.Tuple casted).
Proof. reflexivity. Qed.

Lemma cast_all_outcome fs ts es vs :
  Forall (fun f => forall t ev v, castable f t -> cast_create f t = Ok ev -> deep f v ->
    cast_outcome t (cast_eval ev v)) fs ->
  castable (LogicalType.Tuple fs) (LogicalType.Tuple ts) -> cast_create_all fs ts = Ok es ->
  deep (LogicalType.Tuple fs) (DataValue.Tuple vs) ->
  match cast_eval_all es vs with
  | Ok cs => deep (LogicalType.Tuple ts) (DataValue.Tuple cs)
  | Err e => e <> Panic
  end.
Proof.
  revert ts es vs. induction fs as [|f fs IH]; intros [|t ts] es [|v vs] Hf Hc He Hd; try done;
    [by apply Ok_inj in He; subst es|].
  apply Forall_cons_1 in Hf as [Hf Hfs]. destruct Hc as [Hc Hcs], Hd as [Hd Hds].
  cbn [cast_create_all] in He. apply rbind_ok in He as (e & He & Hes). apply rbind_ok in Hes as (es' & Hes & E).
  apply Ok_inj in E. subst es. cbn [cast_eval_all]. specialize (Hf t e v Hc He Hd).
  destruct (cast_eval e v) as [c|]; [|done]. cbn [rbind].
  specialize (IH ts es' vs Hfs Hcs Hes Hds). by destruct (cast_eval_all es' vs).
Qed.

Lemma cast_eval_outcome from to_ ev v :
  castable from to_ -> cast_create from to_ = Ok ev -> deep from v -> cast_outcome to_ (cast_eval ev v).
Proof.
  revert to_ ev v. induction from as [from Hnt|fs IH] using LogicalType_ind'; intros to_ ev v Hc He Hd.
  all: match type of Hd with deep ?f _ => destruct (decide (f = to_)) as [<-|Hne] end.
  - assert (exists pos, ev = mk_cast_ref pos Identity) as [pos ->]; [|exact Hd].
    destruct from; cbn [cast_create] in He; rewrite decide_True in He by done;
      apply rbind_ok in He as (pos & _ & E); apply Ok_inj in E; subst ev; eauto.
  - assert (exists params, scalar_params from to_ = Some params /\ cast_ref from to_ params = Ok ev) as (ps & Hp & Hr).
    { destruct from; try (exfalso; exact (Hnt _ eq_refl)); cbn [cast_create] in He;
        rewrite decide_False in He by done; destruct (scalar_params _ to_); try done; eauto. }
    apply rbind_ok in Hr as (pos & Hpos & E). apply Ok_inj in E. subst ev.
    apply rbind_ok in Hpos as (f & Hf & Hpos). apply rbind_ok in Hpos as (t & Ht & E). apply Ok_inj in E. subst pos.
    apply (scalar_cast_outcome from); try done. by destruct from; try (exfalso; exact (Hnt _ eq_refl)).
  - assert (exists pos, ev = mk_cast_ref pos Identity) as [pos ->]; [|exact Hd].
    cbn [cast_create] in He. rewrite decide_True in He by done.
    apply rbind_ok in He as (pos & _ & E). apply Ok_inj in E. subst ev. eauto.
  - destruct to_; try (cbn [cast_create] in He; rewrite decide_False in He by done; cbn in He; done).
    + cbn [cast_create] in He. rewrite decide_False in He by done. apply Ok_inj in He. subst ev. done.
    + rewrite cast_create_tuple in He by done. apply rbind_ok in He as (es & Hes & E).
      apply Ok_inj in E. subst ev. destruct v as [| | | | | | | | | | | | | | | | | |vs]; try done.
      change (cast_outcome (LogicalType.Tuple types)
        (cast_eval (mk_cast_ref (CAST_TUPLE * CAST_TYPE_STRIDE + CAST_TUPLE) (CastTuple es)) (DataValue.Tuple vs))).
      rewrite cast_eval_tuple. pose proof (cast_all_outcome fs types es vs IH Hc Hes Hd) as H.
      by destruct (cast_eval_all es vs).
Qed.

(** A cast that [cast_create] accepts, of any two types, takes null to null. *)
Lemma cast_create_null from to_ ev : cast_create from to_ = Ok ev -> cast_eval ev DataValue.Null = Ok DataValue.Null.
Proof.
  intros He. destruct (decide (from = to_)) as [<-|Hne].
  { destruct from; cbn [cast_create] in He; rewrite decide_True in He by done; cbn in He; try done;
      apply Ok_inj in He; by subst ev. }
  destruct from, to_; cbn [cast_create] in He; rewrite decide_False in He by done; cbn in He; try done;
    repeat (apply rbind_ok in He as (? & _ & He); cbn in He); try done; apply Ok_inj in He; by subst ev.
Qed.

(** C23: Casts keep the promise of their target type. Take a cast the binder
    accepts whose target lengths and precisions are in the range of the
    language, that is not to a time of day and, between tuples, whose tuples
    have the same number of elements ([castable]). Applied to a value of the
    source type it gives a value of the target type, or one of the error
    values; it never panics, and a null gives a null. Tuples are covered element
    by element. The excluded casts differ: to a time of day a cast can panic on
    a leap second, and between tuples of different lengths the longer one is
    cut to the shorter. *)
Theorem cast_sound from to_ ev v :
  castable from to_ -> cast_create from to_ = Ok ev -> deep from v ->
  cast_outcome to_ (cast_eval ev v) /\ (v = DataValue.Null -> cast_eval ev v = Ok DataValue.Null).
Proof.
  intros Hc He Hd. split; [by eapply cast_eval_outcome|]. intros ->. by eapply cast_create_null.
Qed.

(** ** The evaluator of a pair of types *)

Lemma cast_create_scalar from to_ params ev :
  from <> to_ -> scalar_params from to_ = Some params -> cast_create from to_ = Ok ev ->
  exists f t, cast_type_code from = Ok f /\ cast_type_code to_ = Ok t /\
    ev = mk_cast_ref (f * CAST_TYPE_STRIDE + t) params.
Proof.
  intros Hne Hp He.
  assert (cast_create from to_ = cast_ref from to_ params) as E.
  { destruct from; cbn [cast_create]; rewrite decide_False by done; rewrite ?Hp; try done. by destruct to_. }
  rewrite E in He. apply rbind_ok in He as (pos & Hpos & Ee). apply Ok_inj in Ee. subst ev.
  apply rbind_ok in Hpos as (f & Hf & Hpos). apply rbind_ok in Hpos as (t & Ht & Ee). apply Ok_inj in Ee. subst pos.
  eauto 10.
Qed.

(** Neither end is the null type, and the source is not a tuple. *)
Lemma cast_eval_create from to_ params ev v :
  from <> to_ -> scalar_params from to_ = Some params -> cast_create from to_ = Ok ev ->
  from <> LogicalType.SqlNull -> to_ <> LogicalType.SqlNull -> scalar from = true ->
  exists f t, cast_type_code from = Ok f /\ cast_type_code to_ = Ok t /\
    cast_eval ev v = scalar_cast_eval f t params v.
Proof.
  intros Hne Hp He Hf0 Ht0 Hs. destruct (cast_create_scalar from to_ params ev Hne Hp He) as (f & t & Hf & Ht & ->).
  exists f, t. split; [done|]. split; [done|]. apply cast_eval_scalar.
  - by eapply cast_type_code_range.
  - by eapply scalar_params_not_identity.
  - intros ->. by destruct to_.
  - intros ->. by destruct from.
  - intros ->. by destruct from.
Qed.

(** The integer types: the numeric types without the dates. *)
Definition integer_of (ty : LogicalType) : option Numeric :=
  match ty with LogicalType.Date | LogicalType.DateTime => None | _ => numeric_of ty end.

Lemma integer_of_numeric ty N : integer_of ty = Some N -> numeric_of ty = Some N.
Proof. by destruct ty. Qed.

Lemma scalar_cast_eval_integer from N f t params :
  integer_of from = Some N -> cast_type_code from = Ok f ->
  scalar_cast_eval f t params = integer_cast_eval N from t params.
Proof. intros HN Hf. destruct from; try done; apply Ok_inj in Hf; apply (inj Some) in HN; by subst f N. Qed.

Lemma code_integer to_ M t : integer_of to_ = Some M -> cast_type_code to_ = Ok t ->
  code_numeric t = Some M /\ (t =? CAST_BOOLEAN) = false.
Proof.
  intros HM Ht. rewrite (code_numeric_of _ _ Ht). split; [by destruct to_|].
  destruct to_; try done; apply Ok_inj in Ht; by subst t.
Qed.

Lemma integer_value ty N x : integer_of ty = Some N ->
  is_null (num_make N x) = false /\ num_get N (num_make N x) = Some x.
Proof. intros H. destruct ty; try done; apply (inj Some) in H; by subst N. Qed.

#[global] Instance num_range_dec N x : Decision (num_range N x).
Proof. unfold num_range, in_s, in_u. destruct (num_signed N); apply _. Defined.

(** ** Integers *)

(** Integer casts are exact. Between any two integer types a cast keeps the
    value when the target can hold it, and is the conversion error otherwise:
    no value is wrapped, saturated or truncated. *)
Theorem integer_cast_exact from to_ N M ev x :
  integer_of from = Some N -> integer_of to_ = Some M ->
  cast_create from to_ = Ok ev -> num_range N x ->
  cast_eval ev (num_make N x) =
    if bool_decide (num_range M x) then Ok (num_make M x) else Err TryFromInt.
Proof.
  intros HN HM He Hx. destruct (integer_value _ _ x HN) as [Hnn Hget].
  destruct (decide (from = to_)) as [<-|Hne].
  - assert (M = N) as -> by congruence. rewrite bool_decide_true by done.
    destruct from; try done; apply (inj Some) in HN; subst N; apply Ok_inj in He; by subst ev.
  - assert (scalar_params from to_ = Some CastUnit) as Hp by (destruct from; try done; by destruct to_).
    destruct (cast_eval_create from to_ CastUnit ev (num_make N x)) as (f & t & Hf & Ht & ->); try done;
      [by destruct from|by destruct to_|by destruct from|].
    rewrite (scalar_cast_eval_integer from N) by done. destruct (code_integer to_ M t HM Ht) as [Hc Hb].
    unfold integer_cast_eval, cast_evaluator. rewrite Hnn, Hget, Hb, Hc. unfold integer_try_from.
    case_bool_decide as Hr.
    + by rewrite (proj2 (num_checked_range M x x) (conj eq_refl Hr)).
    + destruct (num_checked M x) as [r|] eqn:E; [|done]. by apply num_checked_range in E as [_ ?].
Qed.

(** ** Text *)

Lemma integer_to_varchar from N ev unit x :
  integer_of from = Some N -> cast_create from (LogicalType.Varchar None unit) = Ok ev ->
  cast_eval ev (num_make N x) = Ok (DataValue.Utf8 (int_to_string x) (Variable_ None) unit).
Proof.
  intros HN He. destruct (integer_value _ _ x HN) as [Hnn Hget].
  destruct (cast_eval_create from (LogicalType.Varchar None unit) (CastString None unit) ev (num_make N x))
    as (f & t & Hf & Ht & ->); try done; [by intros ->|by destruct from..|].
  apply Ok_inj in Ht. subst t. rewrite (scalar_cast_eval_integer from N) by done.
  unfold integer_cast_eval, cast_evaluator. by rewrite Hnn, Hget.
Qed.

(** Text round trip. The text of an integer, cast back to any integer type
    that can hold it, is the integer; the texts of the booleans likewise. *)
Theorem integer_text_roundtrip from to_ N M ev ev' x unit :
  integer_of from = Some N -> integer_of to_ = Some M ->
  cast_create from (LogicalType.Varchar None unit) = Ok ev ->
  cast_create (LogicalType.Varchar None unit) to_ = Ok ev' ->
  num_range M x ->
  (let? s := cast_eval ev (num_make N x) in cast_eval ev' s) = Ok (num_make M x) /\
  (let? ev := cast_create LogicalType.Boolean (LogicalType.Varchar None unit) in
   let? ev' := cast_create (LogicalType.Varchar None unit) LogicalType.Boolean in
   let? s := cast_eval ev (DataValue.Boolean (x =? 0)) in cast_eval ev' s) = Ok (DataValue.Boolean (x =? 0)).
Proof.
  intros HN HM He He' Hy. split; [|by destruct (x =? 0)].
  rewrite (integer_to_varchar from N ev unit x HN He). cbn [rbind].
  destruct (cast_eval_create (LogicalType.Varchar None unit) to_ CastUnit ev'
    (DataValue.Utf8 (int_to_string x) (Variable_ None) unit)) as (f & t & Hf & Ht & ->); try done;
    [by intros <-|by destruct to_..|].
  apply Ok_inj in Hf. subst f. destruct (code_integer to_ M t HM Ht) as [Hc _].
  change (utf8_cast_eval t CastUnit (DataValue.Utf8 (int_to_string x) (Variable_ None) unit) = Ok (num_make M x)).
  unfold utf8_cast_eval, cast_evaluator. cbn [is_null utf8_get]. by rewrite Hc, int_from_to_string.
Qed.

(** ** Lengths *)

Lemma string_cast_fits_target to_ code params s w :
  cast_type_code to_ = Ok code -> string_target to_ = Some params -> string_cast code params s = Ok w ->
  logical_type w = to_ /\ check_len w to_ = Ok tt.
Proof.
  intros Hc Hp. destruct to_; try done; apply Ok_inj in Hc; apply (inj Some) in Hp; subst code params;
    unfold string_cast; simpl.
  - unfold to_char. destruct (check_string_len s len unit) eqn:E; [done|]. intros <-%Ok_inj. split; [done|].
    unfold check_len. destruct unit; by rewrite E.
  - unfold to_varchar. destruct len as [l|]; [|by intros <-%Ok_inj].
    destruct (check_string_len s l unit) eqn:E; [done|]. intros <-%Ok_inj. split; [done|].
    unfold check_len. destruct unit; by rewrite E.
Qed.

Lemma cast_evaluator_ok {A : Type} (get : DataValue -> option A) body v w :
  cast_evaluator get body v = Ok w -> is_null w = false -> exists a, body a = Ok w.
Proof.
  unfold cast_evaluator. destruct (is_null v); [by intros <-%Ok_inj|]. destruct (get v); [eauto|done].
Qed.

(** Every evaluator ends in [string_cast] for a string target. *)
Lemma scalar_cast_string f t params v w :
  is_string_code t = true -> scalar_cast_eval f t params v = Ok w -> is_null w = false ->
  exists s, string_cast t params s = Ok w.
Proof.
  intros Ht Hw Hn.
  assert (code_numeric t = None /\ (t =? CAST_BOOLEAN) = false /\ (t =? CAST_FLOAT) = false /\
    (t =? CAST_DOUBLE) = false) as (E1 & E2 & E3 & E4).
  { unfold is_string_code in Ht. apply orb_true_iff in Ht as [Ht|Ht]; z_bool; by subst t. }
  revert Hw. unfold scalar_cast_eval.
  repeat match goal with |- match ?x with _ => _ end v = _ -> _ => destruct x; try done end;
    intros Hw; apply cast_evaluator_ok in Hw as (a & Ha); try done; revert Ha; rewrite ?E1, ?E2, ?E3, ?E4, ?Ht; eauto;
    repeat match goal with a : _ * _ |- _ => destruct a end; rewrite ?Ht;
    intros Ha; repeat (apply rbind_ok in Ha as (? & ? & Ha)); eauto.
Qed.

(** A cast to [CHAR(n)] or [VARCHAR(n)] never yields a string the column
    could not hold: a result other than null has exactly the declared type and
    passes the length check of the insert path ([check_len]). *)
Theorem string_cast_fits from to_ ev v w :
  from <> to_ -> is_utf8_type to_ = true -> cast_create from to_ = Ok ev ->
  cast_eval ev v = Ok w -> is_null w = false ->
  logical_type w = to_ /\ check_len w to_ = Ok tt.
Proof.
  intros Hne Hto He Hw Hn.
  destruct (scalar_params from to_) as [ps|] eqn:Hp.
  2: { exfalso. destruct from; cbn [cast_create] in He; rewrite decide_False in He by done;
         rewrite ?Hp in He; try done; by destruct to_. }
  destruct (decide (from = LogicalType.SqlNull)) as [->|Hsn].
  { destruct (cast_create_scalar _ _ _ _ Hne Hp He) as (f & t & Hf & Ht & ->).
    rewrite cast_eval_null in Hw; [by apply Ok_inj in Hw; subst w|by eapply cast_type_code_range| |].
    - by eapply scalar_params_not_identity.
    - right. by apply Ok_inj in Hf. }
  assert (string_target to_ = Some ps) as Hst by (destruct to_; try done; by destruct from).
  destruct (cast_eval_create from to_ ps ev v) as (f & t & Hf & Ht & E); try done;
    [by destruct to_|destruct from; try done; by destruct to_|].
  rewrite E in Hw. apply scalar_cast_string in Hw as [s Hs]; [|destruct to_; try done; apply Ok_inj in Ht; by subst t|done].
  by eapply string_cast_fits_target.
Qed.
End CastSound.

(** * Deviations *)

(** A cast of a float that is zero or negative to any integer type is an
    overflow: [0.0] and [-1.0] do not convert, although the types hold 0 and the
    signed types hold -1. *)
Theorem float_cast_rejects_zero {CH : Chrono} to_ N ev bits :
  integer_of to_ = Some N -> cast_create LogicalType.Double to_ = Ok ev ->
  is_nan_bits 64 f64_inf bits = false -> float_key 64 bits <= 0 ->
  cast_eval ev (DataValue.Float64 bits) = Err OverFlow.
Proof.
  intros HN He Hnan Hk.
  destruct (cast_eval_create LogicalType.Double to_ CastUnit ev (DataValue.Float64 bits)) as (f & t & Hf & Ht & ->);
    try done; [by intros <-|by destruct to_..|].
  apply Ok_inj in Hf. subst f. destruct (code_integer to_ N t HN Ht) as [Hc _].
  change (float_cast_eval Float64_num Float32_num CAST_FLOAT t CastUnit (DataValue.Float64 bits) = Err OverFlow).
  unfold float_cast_eval, cast_evaluator. cbn [is_null fl_get Float64_num]. rewrite Hc.
  unfold float_to_int_cast. cbn [fl_format fl_inf Float64_num fw f64]. rewrite Hnan.
  by rewrite (proj2 (Z.leb_le _ 0) Hk).
Qed.

(** A cast between timestamp precisions relabels the number and keeps its
    value, so it moves the instant: one second in milliseconds becomes a
    thousand seconds. *)
Theorem timestamp_cast_relabels :
  (let? ev := cast_create (LogicalType.TimeStamp (Some 3) false) (LogicalType.TimeStamp (Some 0) false) in
   cast_eval ev (DataValue.Time64 1000 3 false)) = Ok (DataValue.Time64 1000 0 false) /\
  (let? d := from_timestamp_precision 1000 3 in Ok (timestamp <$> d)) = Ok (Some 1) /\
  (let? d := from_timestamp_precision 1000 0 in Ok (timestamp <$> d)) = Ok (Some 1000).
Proof. done. Qed.

(** * Witnesses *)

Definition wit_from : LogicalType := LogicalType.Tuple [LogicalType.Integer; LogicalType.Varchar None Characters].
Definition wit_to : LogicalType :=
  LogicalType.Tuple [LogicalType.Varchar (Some 2) Characters; LogicalType.Tinyint].
Definition wit_value : DataValue :=
  DataValue.Tuple [DataValue.Int32 (-7); DataValue.Utf8 [49; 50; 51] (Variable_ None) Characters].

Lemma cast_sound_witness : exists ev, cast_create wit_from wit_to = Ok ev /\
  cast_eval ev wit_value = Ok (DataValue.Tuple
    [DataValue.Utf8 [45; 55] (Variable_ (Some 2)) Characters; DataValue.Int8 123]) /\
  cast_outcome wit_to (cast_eval ev wit_value) /\ cast_eval ev DataValue.Null = Ok DataValue.Null.
Proof.
  eexists. split; [vm_compute; reflexivity|]. split; [vm_compute; reflexivity|]. split.
  - apply (cast_sound wit_from wit_to _ wit_value); [vm_compute; intuition congruence|reflexivity|].
    cbn. repeat split; try (vm_compute; intuition congruence). repeat constructor; unfold byte_ok; lia.
  - eapply (cast_sound wit_from wit_to _ DataValue.Null); [vm_compute; intuition congruence|reflexivity|done|done].
Defined.

Lemma integer_cast_exact_witness : exists ev, cast_create LogicalType.Integer LogicalType.UTinyint = Ok ev /\
  cast_eval ev (DataValue.Int32 255) = Ok (DataValue.UInt8 255) /\
  cast_eval ev (DataValue.Int32 256) = Err TryFromInt.
Proof.
  eexists. split; [vm_compute; reflexivity|].
  split; apply (integer_cast_exact LogicalType.Integer LogicalType.UTinyint Int32_num UInt8_num);
    first [reflexivity|vm_compute; intuition congruence].
Defined.

Lemma integer_text_roundtrip_witness : exists ev ev',
  cast_create LogicalType.Bigint (LogicalType.Varchar None Characters) = Ok ev /\
  cast_create (LogicalType.Varchar None Characters) LogicalType.Smallint = Ok ev' /\
  (let? s := cast_eval ev (DataValue.Int64 (-32768)) in cast_eval ev' s) = Ok (DataValue.Int16 (-32768)).
Proof.
  eexists _, _. split; [vm_compute; reflexivity|]. split; [vm_compute; reflexivity|].
  refine (proj1 (integer_text_roundtrip LogicalType.Bigint LogicalType.Smallint Int64_num Int16_num _ _
    (-32768) Characters _ _ _ _ _)); first [reflexivity|vm_compute; intuition congruence].
Defined.

Lemma string_cast_fits_witness : exists ev w,
  cast_create LogicalType.Boolean (LogicalType.Char 4 Octets) = Ok ev /\
  cast_eval ev (DataValue.Boolean true) = Ok w /\
  logical_type w = LogicalType.Char 4 Octets /\ check_len w (LogicalType.Char 4 Octets) = Ok tt /\
  cast_eval ev (DataValue.Boolean false) = Err TooLong.
Proof.
  eexists _, _. split; [vm_compute; reflexivity|]. split; [vm_compute; reflexivity|].
  assert (forall A B C : Prop, A /\ B -> C -> A /\ B /\ C) as H by tauto. apply H; [|reflexivity].
  eapply (string_cast_fits LogicalType.Boolean _ _ (DataValue.Boolean true)); [done|reflexivity..].
Defined.

Lemma float_cast_rejects_zero_witness :
  exists ev, cast_create LogicalType.Double LogicalType.Integer = Ok ev /\
    cast_eval ev (DataValue.Float64 0) = Err OverFlow.
Proof.
  eexists. split; [vm_compute; reflexivity|].
  apply (float_cast_rejects_zero LogicalType.Integer Int32_num); first [reflexivity|vm_compute; congruence].
Defined.
