(* ===== verification/Expr.v ===== *)
(** Scalar expressions: their evaluation (src/src/expression/evaluator.rs),
    their types and the binding of evaluators (src/src/expression/mod.rs, with
    the walk of visitor_mut.rs and the operator types of binder/expr.rs).

    The arena of the code gives each expression a reference; here an expression
    holds its subexpressions, that is, a reference stands for what it refers
    to. User functions are trait objects: [ScalarFunctions] is their interface,
    a function from the evaluators of the arguments. *)

From S2P Require Import Prelude MachineInt Types Operators Value Time32 Chrono FloatArith Text Like Evaluators Casts.
From stdpp Require Import base tactics list list_numbers numbers option.
From Stdlib Require Import ZArith Lia.
Local Open Scope Z_scope.

Inductive TrimWhereField := Both | Leading | Trailing.

(** A row: [None] where the code evaluates without a tuple. *)
Definition tuple_values : Type := option (list DataValue).

(** [ScalarFunctionImpl]: a function evaluates its arguments itself. *)
Class ScalarFunctions := {
  Function : Type;
  function_eval : Function -> list (tuple_values -> res DataValue) -> tuple_values -> res DataValue;
  function_type : Function -> LogicalType;
}.

Module ScalarExpression.
Section Expression.
Context {SF : ScalarFunctions}.

(** Aggregates, window and table calls are placeholders the executors replace:
    evaluating one is a bug ([AggCall], [Empty], [TableFunction]) or an error
    ([WindowCall]). *)
Inductive ScalarExpression :=
| Constant (value : DataValue)
| ColumnRef (datatype : LogicalType) (position : nat)
| Alias (expr : ScalarExpression) (alias : option ScalarExpression)
| TypeCast (expr : ScalarExpression) (ty : LogicalType) (evaluator : option CastEvaluatorRef)
| IsNull (negated : bool) (expr : ScalarExpression)
| Unary (op : UnaryOperator) (expr : ScalarExpression) (evaluator : option Z) (ty : LogicalType)
| Binary (op : BinaryOperator) (left_expr right_expr : ScalarExpression)
    (evaluator : option BinaryEvaluatorRef) (ty : LogicalType)
| AggCall (args : list ScalarExpression) (ty : LogicalType)
| In (negated : bool) (expr : ScalarExpression) (args : list ScalarExpression)
| Between (negated : bool) (expr left_expr right_expr : ScalarExpression)
| SubString (expr : ScalarExpression) (for_expr from_expr : option ScalarExpression)
| Position (expr in_expr : ScalarExpression)
| Trim (expr : ScalarExpression) (trim_what_expr : option ScalarExpression) (trim_where : option TrimWhereField)
| Empty
| Tuple (exprs : list ScalarExpression)
| ScalaFunction (inner : Function) (args : list ScalarExpression)
| TableFunction
| If (condition left_expr right_expr : ScalarExpression) (ty : LogicalType)
| IfNull (left_expr right_expr : ScalarExpression) (ty : LogicalType)
| NullIf (left_expr right_expr : ScalarExpression) (ty : LogicalType)
| Coalesce (exprs : list ScalarExpression) (ty : LogicalType)
| CaseWhen (operand_expr : option ScalarExpression) (expr_pairs : list (ScalarExpression * ScalarExpression))
    (else_expr : option ScalarExpression) (ty : LogicalType)
| WindowCall (ty : LogicalType).
End Expression.
End ScalarExpression.
Notation ScalarExpression := ScalarExpression.ScalarExpression.

Section Eval.
Context {OF : OrderedFloat} {CH : Chrono} {SF : ScalarFunctions}.

Definition cast_cow (value : DataValue) (ty : LogicalType) : res DataValue :=
  if decide (logical_type value = ty) then Ok value else cast value ty.

Definition utf8 (v : DataValue) : option (list Z) := utf8_get v.
Definition i32 (v : DataValue) : option Z :=
  match v with DataValue.Int32 x => Some x | _ => None end.

Definition varchar : LogicalType := LogicalType.Varchar None Characters.
Definition variable_text (s : list Z) : DataValue := DataValue.Utf8 s (Variable_ None) Characters.

(** ** String functions *)

(** [String::split_off] panics between the bytes of a character. *)
Definition is_char_boundary (s : list Z) (i : nat) : bool :=
  match s !! i with
  | Some b => negb (is_cont b)
  | None => (i =? length s)%nat
  end.
Definition split_off (s : list Z) (i : nat) : res (list Z * list Z) :=
  if is_char_boundary s i then Ok (take i s, drop i s) else Err Panic.

(** [while from < 0 { from += len_i + 1 }]: the representative of [from] modulo
    [len_i + 1]. *)
Definition wrap_from (from len_i : Z) : Z := if from <? 0 then from mod (len_i + 1) else from.

(** The [from] part: [None] is the early return of null. *)
Definition substring_from (s : list Z) (from : Z) : res (option (list Z)) :=
  let from := Z.max (from - 1) (- 2 ^ 31) in
  let len_i := as_s 32 (byte_len s) in
  let from := wrap_from from len_i in
  if len_i <? from then Ok None
  else let? (_, tail) := split_off s (Z.to_nat from) in Ok (Some tail).

(** The [for] part; a negative count is a huge [usize]. *)
Definition substring_for (s : list Z) (count : Z) : res (list Z) :=
  let for_i := Z.min (as_u 64 count) (byte_len s) in
  let? (head, _) := split_off s (Z.to_nat for_i) in Ok head.

(** [str::find]. *)
Fixpoint find_from (s pattern : list Z) (pos : Z) : option Z :=
  if bool_decide (pattern `prefix_of` s) then Some pos
  else match s with [] => None | _ :: s' => find_from s' pattern (pos + 1) end.

(** [pos as i32 + 1]. *)
Definition position (s pattern : list Z) : res Z :=
  match find_from s pattern 0 with
  | Some pos => match checked_s 32 (as_s 32 pos + 1) with Some p => Ok p | None => Err Panic end
  | None => Ok 0
  end.

(** The two loops of [trim_string], which remove at least one byte per turn. *)
Fixpoint strip_prefixes (fuel : nat) (s what : list Z) : list Z :=
  match fuel with
  | O => s
  | S fuel =>
      if bool_decide (what `prefix_of` s) then strip_prefixes fuel (drop (length what) s) what else s
  end.
Fixpoint strip_suffixes (fuel : nat) (s what : list Z) : list Z :=
  match fuel with
  | O => s
  | S fuel =>
      if bool_decide (what `suffix_of` s)
      then strip_suffixes fuel (take (length s - length what) s) what else s
  end.

Definition trim_string (value trim_what : list Z) (trim_where : option TrimWhereField) : list Z :=
  match trim_what with
  | [] => value
  | _ =>
      let leading := match trim_where with Some Trailing => false | _ => true end in
      let trailing := match trim_where with Some Leading => false | _ => true end in
      let trimmed := if leading then strip_prefixes (S (length value)) value trim_what else value in
      if trailing then strip_suffixes (S (length trimmed)) trimmed trim_what else trimmed
  end.

(** ** Loops over values already evaluated *)

(** The verdict of [IN] on a value that is not null. *)
Definition in_verdict (negated matched saw_null : bool) : DataValue :=
  if matched then DataValue.Boolean (negb negated)
  else if saw_null then DataValue.Null
  else DataValue.Boolean negated.

Definition between (value left right : DataValue) (negated : bool) : DataValue :=
  match c_ge <$> partial_cmp value left, c_le <$> partial_cmp value right with
  | Some true, Some true => DataValue.Boolean (xorb negated true)
  | None, _ | _, None => DataValue.Null
  | _, _ => DataValue.Boolean (xorb negated false)
  end.

(** The test of one [WHEN] arm. *)
Definition when_matches (operand_value : option DataValue) (when_value : DataValue) : res bool :=
  match operand_value with
  | Some operand_value =>
      let ty := logical_type operand_value in
      let? when_value := cast_cow when_value ty in
      let? evaluator := binary_create ty BinaryOperator.Eq in
      let? r := binary_eval evaluator operand_value when_value in
      is_true r
  | None => is_true when_value
  end.

(** [ScalarExpression::eval]. *)
Fixpoint eval (self : ScalarExpression) (tuple : tuple_values) {struct self} : res DataValue :=
  match self with
  | ScalarExpression.Constant (DataValue.Parameter_ _ _) => Err ParameterNotFound
  | ScalarExpression.Constant val => Ok val
  | ScalarExpression.ColumnRef _ position =>
      match tuple with
      | None => Ok DataValue.Null
      | Some values => match values !! position with Some v => Ok v | None => Err Panic end
      end
  | ScalarExpression.Alias expr alias =>
      match tuple with
      | None => Ok DataValue.Null
      | Some _ => match alias with Some inner_expr => eval inner_expr tuple | None => eval expr tuple end
      end
  | ScalarExpression.TypeCast expr _ evaluator =>
      let? value := eval expr tuple in
      match evaluator with Some evaluator => cast_eval evaluator value | None => Ok value end
  | ScalarExpression.Binary _ left_expr right_expr evaluator _ =>
      let? l := eval left_expr tuple in
      let? r := eval right_expr tuple in
      match evaluator with
      | Some evaluator => binary_eval evaluator l r
      | None => Err EvaluatorNotFound
      end
  | ScalarExpression.IsNull negated expr =>
      let? value := eval expr tuple in
      Ok (DataValue.Boolean (xorb negated (is_null value)))
  | ScalarExpression.In negated expr args =>
      let? value := eval expr tuple in
      if is_null value then Ok DataValue.Null
      else
        (fix go (args : list ScalarExpression) (saw_null : bool) : res DataValue :=
          match args with
          | [] => Ok (in_verdict negated false saw_null)
          | arg :: args' =>
              let? arg_value := eval arg tuple in
              if is_null arg_value then go args' true
              else if dv_eq arg_value value then Ok (in_verdict negated true saw_null)
              else go args' saw_null
          end) args false
  | ScalarExpression.Unary _ expr evaluator _ =>
      let? value := eval expr tuple in
      match evaluator with
      | Some evaluator => eval_unary evaluator value
      | None => Err EvaluatorNotFound
      end
  | ScalarExpression.AggCall _ _ => Err Panic
  | ScalarExpression.Between negated expr left_expr right_expr =>
      let? value := eval expr tuple in
      let? l := eval left_expr tuple in
      let? r := eval right_expr tuple in
      Ok (between value l r negated)
  | ScalarExpression.SubString expr for_expr from_expr =>
      let? value := (let? v := eval expr tuple in cast_cow v varchar) in
      match utf8 value with
      | None => Ok DataValue.Null
      | Some string =>
          let? string :=
            match from_expr with
            | None => Ok (Some string)
            | Some from_expr =>
                let? from := (let? v := eval from_expr tuple in cast_cow v LogicalType.Integer) in
                match i32 from with Some from => substring_from string from | None => Ok None end
            end in
          match string with
          | None => Ok DataValue.Null
          | Some string =>
              match for_expr with
              | None => Ok (variable_text string)
              | Some for_expr =>
                  let? count := (let? v := eval for_expr tuple in cast_cow v LogicalType.Integer) in
                  match i32 count with
                  | Some count => let? s := substring_for string count in Ok (variable_text s)
                  | None => Ok DataValue.Null
                  end
              end
          end
      end
  | ScalarExpression.Position expr in_expr =>
      let? pattern := (let? v := eval expr tuple in cast_cow v varchar) in
      let? string := (let? v := eval in_expr tuple in cast_cow v varchar) in
      let? p := position (default [] (utf8 string)) (default [] (utf8 pattern)) in
      Ok (DataValue.Int32 p)
  | ScalarExpression.Trim expr trim_what_expr trim_where =>
      let? value := (let? v := eval expr tuple in cast_cow v varchar) in
      match utf8 value with
      | None => Ok DataValue.Null
      | Some string =>
          let? trim_what :=
            match trim_what_expr with
            | None => Ok [32]
            | Some trim_what_expr =>
                let? value := (let? v := eval trim_what_expr tuple in cast_cow v varchar) in
                Ok (default [] (utf8 value))
            end in
          Ok (variable_text (trim_string string trim_what trim_where))
      end
  | ScalarExpression.Tuple exprs =>
      let? values :=
        (fix go (exprs : list ScalarExpression) : res (list DataValue) :=
          match exprs with
          | [] => Ok []
          | e :: exprs' =>
              let? v := eval e tuple in
              let? vs := go exprs' in
              Ok (v :: vs)
          end) exprs in
      Ok (DataValue.Tuple values)
  | ScalarExpression.ScalaFunction inner args =>
      let? value := function_eval inner (map (fun e => eval e) args) tuple in
      cast value (function_type inner)
  | ScalarExpression.Empty => Err Panic
  | ScalarExpression.If condition left_expr right_expr ty =>
      let? c := (let? v := eval condition tuple in is_true v) in
      let? value := if c : bool then eval left_expr tuple else eval right_expr tuple in
      cast_cow value ty
  | ScalarExpression.IfNull left_expr right_expr ty =>
      let? value := eval left_expr tuple in
      let? value := if is_null value then eval right_expr tuple else Ok value in
      cast_cow value ty
  | ScalarExpression.NullIf left_expr right_expr ty =>
      let? value := eval left_expr tuple in
      let? other := eval right_expr tuple in
      cast_cow (if dv_eq other value then DataValue.Null else value) ty
  | ScalarExpression.Coalesce exprs ty =>
      let? value :=
        (fix go (exprs : list ScalarExpression) : res DataValue :=
          match exprs with
          | [] => Ok DataValue.Null
          | e :: exprs' =>
              let? temp := eval e tuple in
              if is_null temp then go exprs' else Ok temp
          end) exprs in
      cast_cow value ty
  | ScalarExpression.CaseWhen operand_expr expr_pairs else_expr ty =>
      let? operand_value :=
        match operand_expr with
        | Some expr => let? v := eval expr tuple in Ok (Some v)
        | None => Ok None
        end in
      let? result :=
        (fix go (pairs : list (ScalarExpression * ScalarExpression)) : res DataValue :=
          match pairs with
          | [] => match else_expr with Some expr => eval expr tuple | None => Ok DataValue.Null end
          | (when_expr, result_expr) :: pairs' =>
              let? when_value := eval when_expr tuple in
              let? hit := when_matches operand_value when_value in
              if hit : bool then eval result_expr tuple else go pairs'
          end) expr_pairs in
      cast_cow result ty
  | ScalarExpression.TableFunction => Err Panic
  | ScalarExpression.WindowCall _ => Err UnsupportedStmt
  end.
End Eval.

(** * Types and binding *)

Section Bind.
Context {OF : OrderedFloat} {CH : Chrono} {SF : ScalarFunctions}.

Fixpoint return_type (self : ScalarExpression) : res LogicalType :=
  match self with
  | ScalarExpression.Constant value => Ok (logical_type value)
  | ScalarExpression.ColumnRef datatype _ => Ok datatype
  | ScalarExpression.Binary _ _ _ _ ty
  | ScalarExpression.Unary _ _ _ ty
  | ScalarExpression.TypeCast _ ty _
  | ScalarExpression.AggCall _ ty
  | ScalarExpression.If _ _ _ ty
  | ScalarExpression.IfNull _ _ ty
  | ScalarExpression.NullIf _ _ ty
  | ScalarExpression.Coalesce _ ty
  | ScalarExpression.CaseWhen _ _ _ ty
  | ScalarExpression.WindowCall ty => Ok ty
  | ScalarExpression.IsNull _ _ | ScalarExpression.In _ _ _ | ScalarExpression.Between _ _ _ _ =>
      Ok LogicalType.Boolean
  | ScalarExpression.SubString _ _ _ | ScalarExpression.Trim _ _ _ => Ok varchar
  | ScalarExpression.Position _ _ => Ok LogicalType.Integer
  | ScalarExpression.Alias expr _ => return_type expr
  | ScalarExpression.Empty | ScalarExpression.TableFunction => Err Panic
  | ScalarExpression.Tuple exprs =>
      let? tys :=
        (fix go (exprs : list ScalarExpression) : res (list LogicalType) :=
          match exprs with
          | [] => Ok []
          | e :: exprs' => let? t := return_type e in let? ts := go exprs' in Ok (t :: ts)
          end) exprs in
      Ok (LogicalType.Tuple tys)
  | ScalarExpression.ScalaFunction inner _ => Ok (function_type inner)
  end.

Definition type_cast (self : ScalarExpression) (ty : LogicalType) : res ScalarExpression :=
  let? from := return_type self in
  if decide (from = ty) then Ok self
  else
    let? evaluator := cast_create from ty in
    Ok (ScalarExpression.TypeCast self ty (Some evaluator)).

(** [bind_binary_op_expr]: the type of an operator's result. *)
Definition bind_binary_type (op : BinaryOperator) (left_ty right_ty : LogicalType) : res LogicalType :=
  match op with
  | BinaryOperator.Plus | BinaryOperator.Minus | BinaryOperator.Multiply | BinaryOperator.Modulo =>
      max_logical_type left_ty right_ty
  | BinaryOperator.Divide =>
      let? ty := max_logical_type left_ty right_ty in
      Ok match ty with LogicalType.Decimal precision scale => LogicalType.Decimal precision scale
         | _ => LogicalType.Double end
  | BinaryOperator.Gt | BinaryOperator.Lt | BinaryOperator.GtEq | BinaryOperator.LtEq
  | BinaryOperator.Eq | BinaryOperator.NotEq | BinaryOperator.Like _ | BinaryOperator.NotLike _
  | BinaryOperator.And | BinaryOperator.Or => Ok LogicalType.Boolean
  | BinaryOperator.StringConcat => Ok varchar
  | _ => Err UnsupportedStmt
  end.

Definition bind_binary_op_expr (left_expr right_expr : ScalarExpression) (op : BinaryOperator)
    : res ScalarExpression :=
  let? left_ty := return_type left_expr in
  let? right_ty := return_type right_expr in
  let? ty := bind_binary_type op left_ty right_ty in
  Ok (ScalarExpression.Binary op left_expr right_expr None ty).

Definition bind_unary_op_expr (expr : ScalarExpression) (op : UnaryOperator) : res ScalarExpression :=
  let? ty := match op with UnaryOperator.Not => Ok LogicalType.Boolean | _ => return_type expr end in
  Ok (ScalarExpression.Unary op expr None ty).

(** [BindEvaluator::visit_unary], [visit_binary] and [visit_type_cast] on
    operands already visited. *)
Definition signed_of (ty : LogicalType) : LogicalType :=
  match ty with
  | LogicalType.UTinyint => LogicalType.Tinyint
  | LogicalType.USmallint => LogicalType.Smallint
  | LogicalType.UInteger => LogicalType.Integer
  | LogicalType.UBigint => LogicalType.Bigint
  | ty => ty
  end.

Definition bind_unary (op : UnaryOperator) (expr : ScalarExpression) (ty : LogicalType) : res ScalarExpression :=
  let? expr_ty := return_type expr in
  let? expr := if is_unsigned_numeric expr_ty then type_cast expr (signed_of expr_ty) else Ok expr in
  let? expr_ty := return_type expr in
  let? evaluator := unary_create expr_ty op in
  Ok (ScalarExpression.Unary op expr (Some evaluator) ty).

Definition bind_binary (op : BinaryOperator) (left_expr right_expr : ScalarExpression) (ty : LogicalType)
    : res ScalarExpression :=
  let? left_ty := return_type left_expr in
  let? right_ty := return_type right_expr in
  let? max_ty := max_logical_type left_ty right_ty in
  let? left_expr := type_cast left_expr max_ty in
  let? right_expr := type_cast right_expr max_ty in
  let? evaluator := binary_create max_ty op in
  Ok (ScalarExpression.Binary op left_expr right_expr (Some evaluator) ty).

Definition bind_type_cast (expr : ScalarExpression) (ty : LogicalType) : res ScalarExpression :=
  let? from := return_type expr in
  if decide (from = ty) then Ok (ScalarExpression.TypeCast expr ty None)
  else
    let? evaluator := cast_create from ty in
    Ok (ScalarExpression.TypeCast expr ty (Some evaluator)).

(** [BindEvaluator] and the default visits of [ExprVisitorMut]. *)
Fixpoint bind_evaluator (self : ScalarExpression) : res ScalarExpression :=
  let all := fix go (exprs : list ScalarExpression) : res (list ScalarExpression) :=
    match exprs with
    | [] => Ok []
    | e :: exprs' => let? e := bind_evaluator e in let? es := go exprs' in Ok (e :: es)
    end in
  let opt (o : option ScalarExpression) : res (option ScalarExpression) :=
    match o with
    | Some e => let? e := bind_evaluator e in Ok (Some e)
    | None => Ok None
    end in
  match self with
  | ScalarExpression.Alias expr alias =>
      let? alias := opt alias in
      let? expr := bind_evaluator expr in
      Ok (ScalarExpression.Alias expr alias)
  | ScalarExpression.TypeCast expr ty _ =>
      let? expr := bind_evaluator expr in bind_type_cast expr ty
  | ScalarExpression.IsNull negated expr =>
      let? expr := bind_evaluator expr in Ok (ScalarExpression.IsNull negated expr)
  | ScalarExpression.Unary op expr _ ty => let? expr := bind_evaluator expr in bind_unary op expr ty
  | ScalarExpression.Binary op left_expr right_expr _ ty =>
      let? left_expr := bind_evaluator left_expr in
      let? right_expr := bind_evaluator right_expr in
      bind_binary op left_expr right_expr ty
  | ScalarExpression.AggCall args ty => let? args := all args in Ok (ScalarExpression.AggCall args ty)
  | ScalarExpression.In negated expr args =>
      let? expr := bind_evaluator expr in
      let? args := all args in
      Ok (ScalarExpression.In negated expr args)
  | ScalarExpression.Between negated expr left_expr right_expr =>
      let? expr := bind_evaluator expr in
      let? left_expr := bind_evaluator left_expr in
      let? right_expr := bind_evaluator right_expr in
      Ok (ScalarExpression.Between negated expr left_expr right_expr)
  | ScalarExpression.SubString expr for_expr from_expr =>
      let? expr := bind_evaluator expr in
      let? for_expr := opt for_expr in
      let? from_expr := opt from_expr in
      Ok (ScalarExpression.SubString expr for_expr from_expr)
  | ScalarExpression.Position expr in_expr =>
      let? expr := bind_evaluator expr in
      let? in_expr := bind_evaluator in_expr in
      Ok (ScalarExpression.Position expr in_expr)
  | ScalarExpression.Trim expr trim_what_expr trim_where =>
      let? expr := bind_evaluator expr in
      let? trim_what_expr := opt trim_what_expr in
      Ok (ScalarExpression.Trim expr trim_what_expr trim_where)
  | ScalarExpression.Tuple exprs => let? exprs := all exprs in Ok (ScalarExpression.Tuple exprs)
  | ScalarExpression.ScalaFunction inner args =>
      let? args := all args in Ok (ScalarExpression.ScalaFunction inner args)
  | ScalarExpression.If condition left_expr right_expr ty =>
      let? condition := bind_evaluator condition in
      let? left_expr := bind_evaluator left_expr in
      let? right_expr := bind_evaluator right_expr in
      Ok (ScalarExpression.If condition left_expr right_expr ty)
  | ScalarExpression.IfNull left_expr right_expr ty =>
      let? left_expr := bind_evaluator left_expr in
      let? right_expr := bind_evaluator right_expr in
      Ok (ScalarExpression.IfNull left_expr right_expr ty)
  | ScalarExpression.NullIf left_expr right_expr ty =>
      let? left_expr := bind_evaluator left_expr in
      let? right_expr := bind_evaluator right_expr in
      Ok (ScalarExpression.NullIf left_expr right_expr ty)
  | ScalarExpression.Coalesce exprs ty => let? exprs := all exprs in Ok (ScalarExpression.Coalesce exprs ty)
  | ScalarExpression.CaseWhen operand_expr expr_pairs else_expr ty =>
      let? operand_expr := opt operand_expr in
      let? expr_pairs :=
        (fix go (pairs : list (ScalarExpression * ScalarExpression))
            : res (list (ScalarExpression * ScalarExpression)) :=
          match pairs with
          | [] => Ok []
          | (w, t) :: pairs' =>
              let? w := bind_evaluator w in
              let? t := bind_evaluator t in
              let? ps := go pairs' in
              Ok ((w, t) :: ps)
          end) expr_pairs in
      let? else_expr := opt else_expr in
      Ok (ScalarExpression.CaseWhen operand_expr expr_pairs else_expr ty)
  | e => Ok e
  end.
End Bind.

(** * Types are sound *)

Section Sound.
Context {OF : OrderedFloat} {CH : Chrono} {SF : ScalarFunctions}.

(** ** Subexpressions and induction *)

Definition children (e : ScalarExpression) : list ScalarExpression :=
  match e with
  | ScalarExpression.Alias expr alias => expr :: option_list alias
  | ScalarExpression.TypeCast expr _ _ | ScalarExpression.IsNull _ expr | ScalarExpression.Unary _ expr _ _ => [expr]
  | ScalarExpression.Binary _ l r _ _ | ScalarExpression.Position l r
  | ScalarExpression.IfNull l r _ | ScalarExpression.NullIf l r _ => [l; r]
  | ScalarExpression.AggCall args _ | ScalarExpression.Tuple args | ScalarExpression.ScalaFunction _ args
  | ScalarExpression.Coalesce args _ => args
  | ScalarExpression.In _ expr args => expr :: args
  | ScalarExpression.Between _ expr l r | ScalarExpression.If expr l r _ => [expr; l; r]
  | ScalarExpression.SubString expr f g => expr :: option_list f ++ option_list g
  | ScalarExpression.Trim expr w _ => expr :: option_list w
  | ScalarExpression.CaseWhen operand pairs else_ _ =>
      option_list operand ++ concat (map (fun '(w, t) => [w; t]) pairs) ++ option_list else_
  | _ => []
  end.

Lemma expression_ind (P : ScalarExpression -> Prop) :
  (forall e, Forall P (children e) -> P e) -> forall e, P e.
Proof.
  intros H. fix IH 1. intros e. apply H.
  assert (forall o, Forall P (option_list o)) as Ho.
  { intros [x|]; [constructor; [apply IH|constructor]|constructor]. }
  assert (forall l, Forall P l) as Hl.
  { fix go 1. intros [|x l]; constructor; [apply IH|apply go]. }
  assert (forall l, Forall P (concat (map (fun '(w, t) => [w; t]) l))) as Hp.
  { fix go 1. intros [|[w t] l]; [constructor|]. simpl. constructor; [apply IH|]. constructor; [apply IH|apply go]. }
  destruct e; simpl.
  11: { constructor; [apply IH|]. apply Forall_app. split; apply Ho. }
  21: { apply Forall_app. split; [apply Ho|]. apply Forall_app. split; [apply Hp|apply Ho]. }
  all: repeat first [apply Ho|match goal with |- Forall _ ?l => is_var l; apply Hl end|constructor; [apply IH|]|constructor].
Qed.

(** ** Typed values *)

Lemma deep_operand_all ty v : deep ty v -> operand ty v.
Proof.
  revert v. induction ty as [ty Hnt|ts IH] using LogicalType_ind'; intros v Hd.
  - apply deep_operand; [|done]. by destruct ty; try (exfalso; exact (Hnt _ eq_refl)).
  - destruct v as [| | | | | | | | | | | | | | | | | |vs]; try done.
    split; [|done]. cbn. revert vs Hd. induction IH as [|t ts Ht _ IHts]; intros [|v vs] Hd; try done.
    destruct Hd as [Hd Hds]. split; [by apply Ht|by apply IHts].
Qed.

(** A value of a type is a value of its own scalar type. *)
Lemma deep_logical_type ty v :
  deep ty v -> scalar (logical_type v) = true -> deep (logical_type v) v.
Proof.
  intros Hd Hs. apply deep_operand_all in Hd as [Hok Hk].
  destruct v; try done; cbn; try (by split); try (by destruct ty). by destruct ty0; split.
Qed.

Lemma to_char_deep s len unit w :
  in_u 32 len -> bytes_ok s -> utf8_valid s = true -> to_char s len unit = Ok w ->
  deep (LogicalType.Char len unit) w.
Proof.
  intros Hl Hb Hv. unfold to_char. case_match; [done|]. intros <-%Ok_inj. by apply utf8_deep.
Qed.

Lemma to_varchar_deep s len unit w :
  target_ok (LogicalType.Varchar len unit) -> bytes_ok s -> utf8_valid s = true -> to_varchar s len unit = Ok w ->
  deep (LogicalType.Varchar len unit) w.
Proof.
  intros Hl Hb Hv. unfold to_varchar.
  destruct len; [case_match; [done|]|]; intros <-%Ok_inj; by apply utf8_deep.
Qed.

(** [cast_cow] to a scalar type gives a value of the type. *)
Lemma cast_cow_deep from ty v w :
  deep from v -> scalar ty = true -> target_ok ty -> cast_cow v ty = Ok w -> deep ty w.
Proof.
  intros Hd Hs Ht. unfold cast_cow. destruct (decide (logical_type v = ty)) as [<-|Hne].
  { intros <-%Ok_inj. by eapply deep_logical_type. }
  unfold cast. rewrite decide_False by done.
  assert (forall ev, cast_create (logical_type v) ty = Ok ev -> deep (logical_type v) v ->
    cast_eval ev v = Ok w -> deep ty w) as Hc.
  { intros ev Hev Hdv Hw. pose proof (cast_eval_outcome (logical_type v) ty ev v) as H. rewrite Hw in H.
    apply H; try done. destruct ty; try done; by destruct (logical_type v). }
  destruct (scalar (logical_type v)) eqn:E.
  - pose proof (deep_logical_type from v Hd E) as Hself. pose proof (deep_operand_all _ _ Hd) as [Hok Hk].
    destruct v; try done; try (intros (ev & Hev & Hw)%rbind_ok; by eapply Hc).
    + intros <-%Ok_inj. by destruct ty.
    + cbn in Hok. destruct Hok as (Hb & Hu & _).
      destruct ty; try (intros (ev & Hev & Hw)%rbind_ok; by eapply Hc); try done.
      * by apply to_char_deep.
      * by apply to_varchar_deep.
  - destruct v as [| | | | | | | | | | | | |s [] u| | | | |vs]; try done; [by apply deep_operand_all in Hd as [_ ?]|].
    intros (ev & Hev & Hw)%rbind_ok. cbn [logical_type cast_create] in Hev. rewrite decide_False in Hev by done.
    destruct ty; try done. apply Ok_inj in Hev. subst ev. by apply Ok_inj in Hw; subst w.
Qed.

(** ** Cutting strings between characters *)

(** A valid string that is not empty starts with a whole character. *)
Lemma utf8_uncons (s : list Z) :
  utf8_valid s = true -> s <> [] ->
  exists b c r, s = b :: c ++ r /\ is_cont b = false /\ Forall (fun x => is_cont x = true) c /\
    forall r', utf8_valid (b :: c ++ r') = utf8_valid r'.
Proof.
  intros Hv Hne. destruct s as [|b s]; [done|]. cbn [utf8_valid] in Hv.
  assert (forall lo hi x, Utf8.between lo x hi = true -> lo <= x <= hi) as Hb by (unfold Utf8.between; lia).
  assert (forall lo hi x, 0x80 <= lo -> hi <= 0xBF -> Utf8.between lo x hi = true -> is_cont x = true) as Hcont
    by (unfold Utf8.between, is_cont; lia).
  assert (forall lo hi, Utf8.between lo b hi = true -> hi < 0x80 \/ 0xBF < lo -> is_cont b = false) as Hstart
    by (unfold Utf8.between, is_cont; lia).
  repeat match type of Hv with
  | (if Utf8.between ?lo ?x ?hi then _ else _) = true => destruct (Utf8.between lo x hi) eqn:?
  | match ?l with [] => _ | _ => _ end = true => destruct l as [|? ?]; [done|]
  end; try done; split_andb.
  all: match goal with
    | H : utf8_valid ?r = true |- exists _ _ _, _ :: ?r = _ /\ _ => exists b, [], r
    | H : utf8_valid ?r = true |- exists _ _ _, _ :: ?x :: ?r = _ /\ _ => exists b, [x], r
    | H : utf8_valid ?r = true |- exists _ _ _, _ :: ?x :: ?y :: ?r = _ /\ _ => exists b, [x; y], r
    | H : utf8_valid ?r = true |- exists _ _ _, _ :: ?x :: ?y :: ?z :: ?r = _ /\ _ => exists b, [x; y; z], r
    end; (split; [done|]); (split; [eapply Hstart; [eassumption|lia]|]);
    (split; [repeat (constructor; [first [assumption|eapply Hcont; [..|eassumption]; lia]|]); constructor|]);
    intros r'; cbn [app utf8_valid];
    repeat match goal with
    | H : ?x = true |- context [?x] => rewrite H
    | H : ?x = false |- context [?x] => rewrite H
    end; reflexivity.
Qed.

Lemma utf8_split (s : list Z) (i : nat) :
  utf8_valid s = true -> is_char_boundary s i = true ->
  utf8_valid (take i s) = true /\ utf8_valid (drop i s) = true.
Proof.
  remember (length s) as n eqn:Hn. revert s i Hn. induction (lt_wf n) as [n _ IH]. intros s i -> Hv Hi.
  destruct i as [|i]; [by rewrite take_0, drop_0|].
  destruct (decide (s = [])) as [->|Hne]; [by destruct i|].
  destruct (utf8_uncons s Hv Hne) as (b & c & r & -> & Hb & Hc & Hr). rewrite Hr in Hv.
  destruct (decide (i < length c)%nat) as [Hlt|Hge].
  - exfalso. revert Hi. unfold is_char_boundary. change ((b :: c ++ r) !! S i) with ((c ++ r) !! i).
    rewrite lookup_app_l by done. destruct (lookup_lt_is_Some_2 c i Hlt) as [x Hx]. rewrite Hx.
    rewrite Forall_lookup in Hc. by rewrite (Hc i x Hx).
  - cbn [take drop]. rewrite take_app_ge, drop_app_ge, Hr by lia.
    apply (IH (length r)); [simpl; rewrite length_app; lia|done|done|].
    revert Hi. unfold is_char_boundary. change ((b :: c ++ r) !! S i) with ((c ++ r) !! i).
    rewrite lookup_app_r by lia.
    destruct (r !! (i - length c)%nat); [done|]. cbn [length]. rewrite length_app.
    intros H%Nat.eqb_eq. apply Nat.eqb_eq. lia.
Qed.

(** The end of a valid prefix, and the start of a valid suffix, are between characters. *)
Lemma utf8_prefix_rest (a b : list Z) : utf8_valid a = true -> utf8_valid (a ++ b) = utf8_valid b.
Proof.
  remember (length a) as n eqn:Hn. revert a Hn. induction (lt_wf n) as [n _ IH]. intros a -> Ha.
  destruct (decide (a = [])) as [->|Hne]; [done|].
  destruct (utf8_uncons a Ha Hne) as (x & c & r & -> & _ & _ & Hr).
  change ((x :: c ++ r) ++ b) with (x :: (c ++ r) ++ b). rewrite <- (assoc_L app), Hr.
  apply (IH (length r)); [simpl; rewrite length_app; lia|done|]. by rewrite <- Hr.
Qed.

Lemma utf8_suffix_rest (a b : list Z) :
  b <> [] -> utf8_valid b = true -> utf8_valid (a ++ b) = true -> utf8_valid a = true.
Proof.
  intros Hne Hb Hab. destruct (utf8_split (a ++ b) (length a) Hab) as [H _].
  - unfold is_char_boundary. rewrite lookup_app_r, Nat.sub_diag by lia.
    destruct (utf8_uncons b Hb Hne) as (x & c & r & -> & Hx & _). simpl. by rewrite Hx.
  - by rewrite take_app_length in H.
Qed.

Definition string_ok (s : list Z) : Prop := bytes_ok s /\ utf8_valid s = true.

Lemma strip_prefixes_ok fuel s what :
  string_ok s -> string_ok what -> string_ok (strip_prefixes fuel s what).
Proof.
  revert s. induction fuel as [|fuel IH]; intros s Hs Hw; [done|]. cbn [strip_prefixes].
  case_bool_decide as Hp; [|done]. apply IH; [|done]. destruct Hp as [r ->]. rewrite drop_app_length.
  destruct Hs as [Hb Hv], Hw as [_ Hw]. apply Forall_app in Hb as [_ Hb].
  by rewrite utf8_prefix_rest in Hv.
Qed.

Lemma strip_suffixes_ok fuel s what :
  what <> [] -> string_ok s -> string_ok what -> string_ok (strip_suffixes fuel s what).
Proof.
  intros Hne. revert s. induction fuel as [|fuel IH]; intros s Hs Hw; [done|]. cbn [strip_suffixes].
  case_bool_decide as Hp; [|done]. apply IH; [|done]. destruct Hp as [r ->].
  rewrite length_app, Nat.add_sub, take_app_length.
  destruct Hs as [Hb Hv], Hw as [_ Hw]. apply Forall_app in Hb as [Hb _].
  split; [done|]. by eapply utf8_suffix_rest.
Qed.

Lemma trim_string_ok s what where_ : string_ok s -> string_ok what -> string_ok (trim_string s what where_).
Proof.
  intros Hs Hw. unfold trim_string. destruct what as [|x what]; [done|].
  assert (string_ok (if match where_ with Some Trailing => false | _ => true end
    then strip_prefixes (S (length s)) s (x :: what) else s)) as Hl by (case_match; [by apply strip_prefixes_ok|done]).
  destruct where_ as [[]|]; try done; by apply strip_suffixes_ok.
Qed.

Lemma split_off_ok s i a b : string_ok s -> split_off s i = Ok (a, b) -> string_ok a /\ string_ok b.
Proof.
  intros [Hb Hv]. unfold split_off. destruct (is_char_boundary s i) eqn:E; [|done].
  intros [= <- <-]%Ok_inj. destruct (utf8_split s i Hv E).
  split; split; try done; [by apply Forall_take|by apply Forall_drop].
Qed.

Lemma substring_from_ok s from r : string_ok s -> substring_from s from = Ok (Some r) -> string_ok r.
Proof.
  intros Hs. unfold substring_from. case_match; [done|]. intros ([a b] & Hsp & E)%rbind_ok.
  apply Ok_inj in E. simplify_eq. by apply (split_off_ok _ _ _ _ Hs) in Hsp as [_ ?].
Qed.

Lemma substring_for_ok s n r : string_ok s -> substring_for s n = Ok r -> string_ok r.
Proof.
  intros Hs. unfold substring_for. intros ([a b] & Hsp & E)%rbind_ok. apply Ok_inj in E. subst.
  by apply (split_off_ok _ _ _ _ Hs) in Hsp as [? _].
Qed.

Lemma variable_text_deep s : string_ok s -> deep varchar (variable_text s).
Proof. intros [Hb Hv]. by apply utf8_deep. Qed.

Lemma utf8_string_ok ty v s : deep ty v -> utf8 v = Some s -> string_ok s.
Proof.
  intros [Hok _]%deep_operand_all H. destruct v; try done. cbn in H. simplify_eq. cbn in Hok. split; tauto.
Qed.

(** ** Admissible expressions *)

(** A cast the binder inserts: none, or one [cast_eval_outcome] covers. *)
Definition cast_or_same (from to_ : LogicalType) : Prop := from = to_ \/ castable from to_.

(** The types of an expression as the binder built it, over the columns of a
    row: constants and columns have values of their type, operators the type
    the binder gives them, and every cast target is one of [target_ok]. The
    unary operators are on signed operands: see [unary_type_unsigned]. *)
Definition node_ok (row : tuple_values) (e : ScalarExpression) : Prop :=
  match e with
  | ScalarExpression.Constant (DataValue.Parameter_ _ _) => True
  | ScalarExpression.Constant v => deep (logical_type v) v
  | ScalarExpression.ColumnRef datatype position =>
      forall values v, row = Some values -> values !! position = Some v -> deep datatype v
  | ScalarExpression.Alias expr alias =>
      exists ty, return_type expr = Ok ty /\ Forall (fun a => return_type a = Ok ty) (option_list alias)
  | ScalarExpression.TypeCast expr ty _ =>
      forall from, return_type expr = Ok from -> cast_or_same from ty
  | ScalarExpression.Unary op expr _ ty =>
      exists from, return_type expr = Ok from /\ is_unsigned_numeric from = false /\
        ty = match op with UnaryOperator.Not => LogicalType.Boolean | _ => from end
  | ScalarExpression.Binary op l r _ ty =>
      exists lt rt m, return_type l = Ok lt /\ return_type r = Ok rt /\ max_logical_type lt rt = Ok m /\
        bind_binary_type op lt rt = Ok ty /\ cast_or_same lt m /\ cast_or_same rt m /\
        time_arithmetic m op = false
  | ScalarExpression.ScalaFunction inner _ =>
      (forall args v, function_eval inner args row = Ok v -> exists ty, deep ty v) /\
      scalar (function_type inner) = true /\ target_ok (function_type inner)
  | ScalarExpression.If _ _ _ ty | ScalarExpression.IfNull _ _ ty | ScalarExpression.NullIf _ _ ty
  | ScalarExpression.Coalesce _ ty | ScalarExpression.CaseWhen _ _ _ ty => scalar ty = true /\ target_ok ty
  | _ => True
  end.

Inductive admissible (row : tuple_values) : ScalarExpression -> Prop :=
| admissible_node e : Forall (admissible row) (children e) -> node_ok row e -> admissible row e.

(** A value is typed by the type of its expression. *)
Definition value_typed (row : tuple_values) (e : ScalarExpression) : Prop :=
  forall v, eval e row = Ok v -> exists ty, return_type e = Ok ty /\ deep ty v.

Fixpoint bind_all (exprs : list ScalarExpression) : res (list ScalarExpression) :=
  match exprs with
  | [] => Ok []
  | e :: exprs' => let? e := bind_evaluator e in let? es := bind_all exprs' in Ok (e :: es)
  end.

Fixpoint bind_pairs (pairs : list (ScalarExpression * ScalarExpression))
    : res (list (ScalarExpression * ScalarExpression)) :=
  match pairs with
  | [] => Ok []
  | (w, t) :: pairs' =>
      let? w := bind_evaluator w in
      let? t := bind_evaluator t in
      let? ps := bind_pairs pairs' in
      Ok ((w, t) :: ps)
  end.

Definition bind_opt (o : option ScalarExpression) : res (option ScalarExpression) :=
  match o with
  | Some e => let? e := bind_evaluator e in Ok (Some e)
  | None => Ok None
  end.

(** What the induction shows of an expression: binding keeps its type, and the
    bound expression evaluates to values of the type. *)
Definition binds_well (row : tuple_values) (e : ScalarExpression) : Prop :=
  forall e', bind_evaluator e = Ok e' -> return_type e' = return_type e /\ value_typed row e'.

Lemma bind_all_well row es es' :
  Forall (binds_well row) es -> bind_all es = Ok es' ->
  Forall (value_typed row) es' /\ Forall2 (fun e e' => return_type e' = return_type e) es es'.
Proof.
  intros H. revert es'. induction H as [|e es He _ IH]; intros es' E; cbn [bind_all] in E.
  - apply Ok_inj in E. by subst.
  - apply rbind_ok in E as (e1 & E1 & E). apply rbind_ok in E as (es1 & E2 & E). apply Ok_inj in E. subst.
    destruct (He e1 E1), (IH es1 E2). by split; constructor.
Qed.

Lemma bind_opt_well row o o' :
  Forall (binds_well row) (option_list o) -> bind_opt o = Ok o' ->
  Forall (value_typed row) (option_list o') /\
  Forall2 (fun e e' => return_type e' = return_type e) (option_list o) (option_list o').
Proof.
  intros H E. destruct o as [e|]; cbn in E; [|by apply Ok_inj in E; subst].
  apply rbind_ok in E as (e1 & E1 & E). apply Ok_inj in E. subst. apply Forall_cons_1 in H as [H _].
  destruct (H e1 E1). by repeat constructor.
Qed.

Lemma bind_pairs_well row ps ps' :
  Forall (binds_well row) (concat (map (fun '(w, t) => [w; t]) ps)) -> bind_pairs ps = Ok ps' ->
  Forall (fun '(w, t) => value_typed row t) ps'.
Proof.
  revert ps'. induction ps as [|[w t] ps IH]; intros ps' H E; cbn [bind_pairs] in E.
  - apply Ok_inj in E. by subst.
  - apply rbind_ok in E as (w1 & E1 & E). apply rbind_ok in E as (t1 & E2 & E).
    apply rbind_ok in E as (ps1 & E3 & E). apply Ok_inj in E. subst. simpl in H.
    apply Forall_cons_1 in H as [_ H]. apply Forall_cons_1 in H as [Ht H].
    constructor; [by apply (Ht t1)|by apply IH].
Qed.

(** ** The nodes *)

Lemma type_cast_well row e ty from e' :
  return_type e = Ok from -> cast_or_same from ty -> value_typed row e -> type_cast e ty = Ok e' ->
  return_type e' = Ok ty /\ forall v, eval e' row = Ok v -> deep ty v.
Proof.
  intros Hf Hc Hv E. unfold type_cast in E. rewrite Hf in E. cbn [rbind] in E.
  destruct (decide (from = ty)) as [<-|Hne].
  - apply Ok_inj in E. subst e'. split; [done|]. intros v Hev. destruct (Hv v Hev) as (t & Ht & Hd). congruence.
  - apply rbind_ok in E as (ev & Hev & E). apply Ok_inj in E. subst e'. split; [done|].
    intros v H. cbn [eval] in H. apply rbind_ok in H as (x & Hx & H).
    destruct (Hv x Hx) as (t & Ht & Hd). assert (t = from) as -> by congruence.
    destruct Hc as [?|Hc]; [done|]. pose proof (cast_eval_outcome from ty ev x Hc Hev Hd) as Ho.
    by rewrite H in Ho.
Qed.

Lemma bind_binary_result op lt rt m ty :
  max_logical_type lt rt = Ok m -> bind_binary_type op lt rt = Ok ty -> binary_create m op <> Err UnsupportedBinaryOperator ->
  m <> LogicalType.SqlNull -> binary_result_type m op = ty.
Proof.
  intros Hm Hb Hc Hn. unfold bind_binary_type in Hb. rewrite Hm in Hb. cbn [rbind] in Hb.
  destruct op; try done; try (apply Ok_inj in Hb; subst ty); by destruct m.
Qed.

Lemma bind_binary_well row op l r ty lt rt m e' :
  return_type l = Ok lt -> return_type r = Ok rt -> max_logical_type lt rt = Ok m ->
  bind_binary_type op lt rt = Ok ty -> cast_or_same lt m -> cast_or_same rt m -> time_arithmetic m op = false ->
  value_typed row l -> value_typed row r -> bind_binary op l r ty = Ok e' ->
  return_type e' = Ok ty /\ value_typed row e'.
Proof.
  intros Hl Hr Hm Hb Hcl Hcr Ht Vl Vr E. unfold bind_binary in E. rewrite Hl, Hr in E. cbn [rbind] in E.
  rewrite Hm in E. cbn [rbind] in E.
  apply rbind_ok in E as (l' & El & E). apply rbind_ok in E as (r' & Er & E).
  apply rbind_ok in E as (ev & Eev & E). apply Ok_inj in E. subst e'. split; [done|].
  destruct (type_cast_well row l m lt l') as [_ Dl]; try done.
  destruct (type_cast_well row r m rt r') as [_ Dr]; try done.
  intros v Hv. cbn [eval] in Hv. apply rbind_ok in Hv as (x & Hx & Hv). apply rbind_ok in Hv as (y & Hy & Hv).
  exists ty. split; [done|].
  pose proof (binary_eval_outcome m op ev x y Eev (deep_operand_all _ _ (Dl x Hx)) (deep_operand_all _ _ (Dr y Hy)) Ht) as Ho.
  rewrite Hv in Ho. unfold binary_outcome in Ho.
  destruct (binary_panics m op x y); [done|]. destruct (binary_overflows m op x y); [done|].
  destruct Ho as (w & Ew & Ho). apply Ok_inj in Ew. subst w.
  destruct (decide (m = LogicalType.SqlNull)) as [->|Hn].
  - cbn in Ho. destruct Ho as [_ Ho]. destruct v; try done. by destruct ty.
  - assert (scalar (binary_result_type m op) = true) as Hs by (destruct m; try done; by destruct op).
    pose proof (bind_binary_result op lt rt m ty Hm Hb ltac:(by rewrite Eev) Hn) as E. rewrite E in Ho, Hs.
    by apply operand_deep.
Qed.

Lemma bind_unary_well row op e from ty e' :
  return_type e = Ok from -> is_unsigned_numeric from = false ->
  ty = match op with UnaryOperator.Not => LogicalType.Boolean | _ => from end ->
  value_typed row e -> bind_unary op e ty = Ok e' -> return_type e' = Ok ty /\ value_typed row e'.
Proof.
  intros Hf Hu -> Hv E. unfold bind_unary in E. rewrite Hf in E. cbn [rbind] in E. rewrite Hu in E.
  cbn [rbind] in E. rewrite Hf in E. cbn [rbind] in E. apply rbind_ok in E as (ev & Eev & E).
  apply Ok_inj in E. subst e'. split; [done|]. intros v H. cbn [eval] in H. apply rbind_ok in H as (x & Hx & H).
  destruct (Hv x Hx) as (t & Ht & Hd). assert (t = from) as -> by congruence. eexists. split; [done|].
  pose proof (unary_eval_outcome from op ev x Eev (deep_operand_all _ _ Hd)) as Ho. rewrite H in Ho.
  destruct (unary_panics from op x); [done|]. destruct Ho as (w & Ew & Ho). apply Ok_inj in Ew. subst w.
  assert (match op with UnaryOperator.Not => LogicalType.Boolean | _ => from end = from) as ->.
  { destruct op; try done. by destruct from. }
  apply operand_deep; [|done]. destruct from; try done; by destruct op.
Qed.

Lemma bind_type_cast_well row e from ty e' :
  return_type e = Ok from -> cast_or_same from ty -> value_typed row e -> bind_type_cast e ty = Ok e' ->
  return_type e' = Ok ty /\ value_typed row e'.
Proof.
  intros Hf Hc Hv E. unfold bind_type_cast in E. rewrite Hf in E. cbn [rbind] in E.
  destruct (decide (from = ty)) as [<-|Hne].
  - apply Ok_inj in E. subst e'. split; [done|]. intros v H. cbn [eval] in H. apply rbind_ok in H as (x & Hx & H).
    apply Ok_inj in H. subst x. destruct (Hv v Hx) as (t & Ht & Hd). exists from. split; [done|]. congruence.
  - destruct (type_cast_well row e ty from e') as [H1 H2]; try done.
    { unfold type_cast. rewrite Hf. cbn [rbind]. by rewrite decide_False. }
    split; [done|]. intros v H. eauto.
Qed.

Lemma cast_cow_typed row e ty v w :
  value_typed row e -> eval e row = Ok v -> scalar ty = true -> target_ok ty -> cast_cow v ty = Ok w -> deep ty w.
Proof. intros He Hv Hs Ht Hw. destruct (He v Hv) as (t & _ & Hd). by eapply cast_cow_deep. Qed.

(** A value the row's expressions can produce. *)
Definition some_typed (v : DataValue) : Prop := exists ty, deep ty v.

Lemma value_typed_some row e v : value_typed row e -> eval e row = Ok v -> some_typed v.
Proof. intros He Hv. destruct (He v Hv) as (t & _ & Hd). by exists t. Qed.

Lemma null_typed : some_typed DataValue.Null.
Proof. by exists LogicalType.SqlNull. Qed.

Lemma cast_cow_some ty v w : some_typed v -> scalar ty = true -> target_ok ty -> cast_cow v ty = Ok w -> deep ty w.
Proof. intros (t & Hd) Hs Ht Hw. by eapply cast_cow_deep. Qed.

Lemma coalesce_typed row exprs v :
  Forall (value_typed row) exprs ->
  (fix go (exprs : list ScalarExpression) : res DataValue :=
    match exprs with
    | [] => Ok DataValue.Null
    | e :: exprs' =>
        let? temp := eval e row in
        if is_null temp then go exprs' else Ok temp
    end) exprs = Ok v -> some_typed v.
Proof.
  intros H. induction H as [|e es He _ IH]; intros E; [apply Ok_inj in E; subst; apply null_typed|].
  apply rbind_ok in E as (x & Hx & E). destruct (is_null x); [by apply IH|].
  apply Ok_inj in E. subst. by eapply value_typed_some.
Qed.

Lemma case_typed row operand_value pairs else_ v :
  Forall (fun '(w, t) => value_typed row t) pairs -> Forall (value_typed row) (option_list else_) ->
  (fix go (pairs : list (ScalarExpression * ScalarExpression)) : res DataValue :=
    match pairs with
    | [] => match else_ with Some expr => eval expr row | None => Ok DataValue.Null end
    | (when_expr, result_expr) :: pairs' =>
        let? when_value := eval when_expr row in
        let? hit := when_matches operand_value when_value in
        if hit : bool then eval result_expr row else go pairs'
    end) pairs = Ok v -> some_typed v.
Proof.
  intros H He. induction H as [|[w t] ps Ht _ IH]; intros E.
  - destruct else_ as [e|]; [|apply Ok_inj in E; subst; apply null_typed].
    apply Forall_cons_1 in He as [He _]. by eapply value_typed_some.
  - apply rbind_ok in E as (x & Hx & E). apply rbind_ok in E as (hit & Hh & E).
    destruct hit; [by eapply value_typed_some|by apply IH].
Qed.

Lemma tuple_typed row exprs vs :
  Forall (value_typed row) exprs ->
  (fix go (exprs : list ScalarExpression) : res (list DataValue) :=
    match exprs with
    | [] => Ok []
    | e :: exprs' => let? v := eval e row in let? vs := go exprs' in Ok (v :: vs)
    end) exprs = Ok vs ->
  exists ty, return_type (ScalarExpression.Tuple exprs) = Ok ty /\ deep ty (DataValue.Tuple vs).
Proof.
  intros H. revert vs. induction H as [|e es He _ IH]; intros vs E.
  - apply Ok_inj in E. subst. by exists (LogicalType.Tuple []).
  - apply rbind_ok in E as (x & Hx & E). apply rbind_ok in E as (xs & Hxs & E). apply Ok_inj in E. subst.
    destruct (He x Hx) as (t & Ht & Hd), (IH xs Hxs) as (ty & Hty & Hds).
    cbn [return_type] in Hty |- *. rewrite Ht. cbn [rbind].
    apply rbind_ok in Hty as (ts & -> & Ets). apply Ok_inj in Ets. subst ty.
    by exists (LogicalType.Tuple (t :: ts)).
Qed.

Lemma in_typed negated row value exprs saw_null v :
  (fix go (args : list ScalarExpression) (saw_null : bool) : res DataValue :=
    match args with
    | [] => Ok (in_verdict negated false saw_null)
    | arg :: args' =>
        let? arg_value := eval arg row in
        if is_null arg_value then go args' true
        else if dv_eq arg_value value then Ok (in_verdict negated true saw_null)
        else go args' saw_null
    end) exprs saw_null = Ok v -> deep LogicalType.Boolean v.
Proof.
  assert (forall m s, deep LogicalType.Boolean (in_verdict negated m s)) as Hi by (intros [] []; by split).
  revert saw_null. induction exprs as [|e es IH]; intros s E; [apply Ok_inj in E; subst; apply Hi|].
  apply rbind_ok in E as (x & Hx & E). destruct (is_null x); [by eapply IH|].
  destruct (dv_eq x value); [apply Ok_inj in E; subst; apply Hi|by eapply IH].
Qed.

(** ** The theorem *)

Ltac bind_inv := repeat match goal with
  | H : rbind _ _ = Ok _ |- _ => apply rbind_ok in H as (? & ? & H)
  | H : Ok _ = Ok _ |- _ => apply Ok_inj in H; subst
  end.

Lemma boolean_typed e b : return_type e = Ok LogicalType.Boolean -> b = DataValue.Null \/ (exists x, b = DataValue.Boolean x) ->
  exists ty, return_type e = Ok ty /\ deep ty b.
Proof. intros He [->|[x ->]]; exists LogicalType.Boolean; by split. Qed.

(** An expression binds well when its subexpressions do. *)
Definition node_binds_well (row : tuple_values) (e : ScalarExpression) : Prop :=
  Forall (binds_well row) (children e) -> node_ok row e -> binds_well row e.

Lemma columnref_binds_well row datatype position : node_binds_well row (ScalarExpression.ColumnRef datatype position).
Proof.
  intros Hch Hn e' E. cbn [children] in Hch.
  cbn in E. bind_inv. split; [done|]. intros v Hv. cbn in Hv. eexists. split; [reflexivity|].
  destruct row as [values|]; [|bind_inv; by destruct datatype].
  destruct (values !! _) eqn:El; [|done]. bind_inv. by eapply Hn.
Qed.

Lemma alias_binds_well row e alias : node_binds_well row (ScalarExpression.Alias e alias).
Proof.
  intros Hch Hn e' E. cbn [children] in Hch.
  apply Forall_cons_1 in Hch as [He Ha]. destruct Hn as (ty & Hty & Hal).
  change (bind_evaluator (ScalarExpression.Alias e alias)) with
    (let? alias := bind_opt alias in let? expr := bind_evaluator e in Ok (ScalarExpression.Alias expr alias)) in E.
  apply rbind_ok in E as (a' & Ea & E). apply rbind_ok in E as (x & Ex & E). apply Ok_inj in E. subst e'.
  destruct (He x Ex) as [Ht Hv], (bind_opt_well row alias a' Ha Ea) as [Hva Hta].
  split; [done|]. intros v Hev. cbn [return_type]. rewrite Ht, Hty. exists ty. split; [done|].
  cbn [eval] in Hev. destruct row as [values|]; [|bind_inv; by destruct ty].
  destruct a' as [a'|].
  + apply Forall_cons_1 in Hva as [Hva _]. destruct (Hva v Hev) as (t & Et & Hd).
    destruct alias as [a|]; [|by inversion Hta].
    apply Forall2_cons_1 in Hta as [Hta _]. apply Forall_cons_1 in Hal as [Hal _]. congruence.
  + destruct (Hv v Hev) as (t & Et & Hd). congruence.
Qed.

Lemma typecast_binds_well row e ty ev : node_binds_well row (ScalarExpression.TypeCast e ty ev).
Proof.
  intros Hch Hn e' E. cbn [children] in Hch.
  apply Forall_cons_1 in Hch as [He _]. cbn [bind_evaluator] in E. apply rbind_ok in E as (x & Ex & E).
  destruct (He x Ex) as [Ht Hv].
  pose proof E as E2. unfold bind_type_cast in E2. apply rbind_ok in E2 as (from & Hf & _).
  apply (bind_type_cast_well row x from); try done. apply Hn. congruence.
Qed.

Lemma unary_binds_well row op e ev ty : node_binds_well row (ScalarExpression.Unary op e ev ty).
Proof.
  intros Hch Hn e' E. cbn [children] in Hch.
  apply Forall_cons_1 in Hch as [He _]. cbn [bind_evaluator] in E. apply rbind_ok in E as (x & Ex & E).
  destruct (He x Ex) as [Ht Hv], Hn as (from & Hf & Hu & Hty).
  apply (bind_unary_well row op x from); try done. congruence.
Qed.

Lemma binary_binds_well row op e1 e2 ev ty : node_binds_well row (ScalarExpression.Binary op e1 e2 ev ty).
Proof.
  intros Hch Hn e' E. cbn [children] in Hch.
  apply Forall_cons_1 in Hch as [He1 Hch]. apply Forall_cons_1 in Hch as [He2 _].
  cbn [bind_evaluator] in E. apply rbind_ok in E as (x & Ex & E). apply rbind_ok in E as (y & Ey & E).
  destruct (He1 x Ex) as [Ht1 Hv1], (He2 y Ey) as [Ht2 Hv2], Hn as (lt & rt & m & Hl & Hr & Hm & Hb & Hcl & Hcr & Hta).
  apply (bind_binary_well row op x y ty lt rt m); try done; congruence.
Qed.

Lemma in_binds_well row negated e args : node_binds_well row (ScalarExpression.In negated e args).
Proof.
  intros Hch Hn e' E. cbn [children] in Hch.
  cbn [bind_evaluator] in E. apply rbind_ok in E as (x & Ex & E). apply rbind_ok in E as (args' & _ & E).
  apply Ok_inj in E. subst e'. split; [done|]. intros v Hv. exists LogicalType.Boolean. split; [done|].
  cbn [eval] in Hv. apply rbind_ok in Hv as (val & _ & Hv). destruct (is_null val); [by bind_inv|].
  by apply in_typed in Hv.
Qed.

Lemma between_binds_well row negated e1 e2 e3 : node_binds_well row (ScalarExpression.Between negated e1 e2 e3).
Proof.
  intros Hch Hn e' E. cbn [children] in Hch.
  cbn [bind_evaluator] in E. bind_inv. split; [done|]. intros v Hv. cbn [eval] in Hv. bind_inv.
  apply boolean_typed; [done|]. unfold between. repeat case_match; eauto.
Qed.

Lemma substring_binds_well row e for_expr from_expr : node_binds_well row (ScalarExpression.SubString e for_expr from_expr).
Proof.
  intros Hch Hn e' E. cbn [children] in Hch.
  apply Forall_cons_1 in Hch as [He _]. cbn [bind_evaluator] in E. apply rbind_ok in E as (x & Ex & E).
  apply rbind_ok in E as (f & _ & E). apply rbind_ok in E as (g & _ & E). apply Ok_inj in E. subst e'.
  destruct (He x Ex) as [_ Hv]. split; [done|]. intros v Hev. exists varchar. split; [done|].
  cbn [eval] in Hev. apply rbind_ok in Hev as (val & Hval & Hev). apply rbind_ok in Hval as (w & Hw & Hval).
  assert (deep varchar val) as Hd by (by eapply cast_cow_typed).
  destruct (utf8 val) as [s|] eqn:Es; [|by bind_inv]. pose proof (utf8_string_ok _ _ _ Hd Es) as Hs.
  apply rbind_ok in Hev as (o & Ho & Hev). destruct o as [s'|]; [|by bind_inv].
  assert (string_ok s') as Hs'.
  { destruct g as [g|]; [|by apply Ok_inj in Ho; simplify_eq]. apply rbind_ok in Ho as (n & _ & Ho).
    destruct (i32 n); [|done]. by eapply substring_from_ok. }
  destruct f as [f|]; [|bind_inv; by apply variable_text_deep].
  apply rbind_ok in Hev as (n & _ & Hev). destruct (i32 n); [|by bind_inv].
  apply rbind_ok in Hev as (t & Ht & Hev). bind_inv. by apply variable_text_deep; eapply substring_for_ok.
Qed.

Lemma position_binds_well row e1 e2 : node_binds_well row (ScalarExpression.Position e1 e2).
Proof.
  intros Hch Hn e' E. cbn [children] in Hch.
  cbn [bind_evaluator] in E. bind_inv. split; [done|]. intros v Hv. cbn [eval] in Hv. exists LogicalType.Integer.
  split; [done|]. apply rbind_ok in Hv as (p & _ & Hv). apply rbind_ok in Hv as (q & _ & Hv).
  apply rbind_ok in Hv as (n & Hp & Hv). apply Ok_inj in Hv. subst v. split; [|done].
  revert Hp. unfold position. case_match; [|by intros <-%Ok_inj].
  destruct (checked_s 32 _) as [m|] eqn:Ec; [|done]. intros <-%Ok_inj. by apply checked_s_Some in Ec as [-> ?].
Qed.

Lemma trim_binds_well row e trim_what_expr trim_where : node_binds_well row (ScalarExpression.Trim e trim_what_expr trim_where).
Proof.
  intros Hch Hn e' E. cbn [children] in Hch.
  apply Forall_cons_1 in Hch as [He Hw].
  change (bind_evaluator (ScalarExpression.Trim e trim_what_expr trim_where)) with
    (let? expr := bind_evaluator e in let? what := bind_opt trim_what_expr in
     Ok (ScalarExpression.Trim expr what trim_where)) in E.
  apply rbind_ok in E as (x & Ex & E). apply rbind_ok in E as (o & Eo & E). apply Ok_inj in E. subst e'.
  destruct (He x Ex) as [_ Hv], (bind_opt_well row _ _ Hw Eo) as [Hvo _].
  split; [done|]. intros v Hev. exists varchar. split; [done|]. cbn [eval] in Hev.
  apply rbind_ok in Hev as (val & Hval & Hev). apply rbind_ok in Hval as (w & Hw' & Hval).
  assert (deep varchar val) as Hd by (by eapply cast_cow_typed).
  destruct (utf8 val) as [s|] eqn:Es; [|by bind_inv]. pose proof (utf8_string_ok _ _ _ Hd Es) as Hs.
  apply rbind_ok in Hev as (what & Hwhat & Hev). apply Ok_inj in Hev. subst v.
  apply variable_text_deep, trim_string_ok; [done|].
  destruct o as [o|]; [|apply Ok_inj in Hwhat; subst; split; [repeat constructor; done|done]].
  apply Forall_cons_1 in Hvo as [Hvo _]. apply rbind_ok in Hwhat as (z & Hz & Hwhat).
  apply rbind_ok in Hz as (z0 & Hz0 & Hz). apply Ok_inj in Hwhat. subst what.
  assert (deep varchar z) as Hdz by (by eapply cast_cow_typed).
  destruct (utf8 z) eqn:Ez; [by eapply utf8_string_ok|]. by split; [constructor|].
Qed.

Lemma tuple_binds_well row exprs : node_binds_well row (ScalarExpression.Tuple exprs).
Proof.
  intros Hch Hn e' E. cbn [children] in Hch.
  change (bind_evaluator (ScalarExpression.Tuple exprs)) with
    (let? exprs := bind_all exprs in Ok (ScalarExpression.Tuple exprs)) in E.
  apply rbind_ok in E as (es & Ees & E). apply Ok_inj in E. subst e'.
  destruct (bind_all_well row exprs es Hch Ees) as [Hv Ht]. split.
  + cbn [return_type]. f_equal. clear -Ht.
    induction Ht as [|e e' es es' He _ IH]; [done|]. by rewrite He, IH.
  + intros v Hev. cbn [eval] in Hev. apply rbind_ok in Hev as (vs & Hvs & Hev). apply Ok_inj in Hev. subst v.
    by eapply tuple_typed.
Qed.

Lemma scalafunction_binds_well row inner args : node_binds_well row (ScalarExpression.ScalaFunction inner args).
Proof.
  intros Hch Hn e' E. cbn [children] in Hch.
  cbn [bind_evaluator] in E. apply rbind_ok in E as (args' & _ & E). apply Ok_inj in E. subst e'. split; [done|].
  destruct Hn as (Hf & Hs & Ht). intros v Hev. cbn [eval] in Hev. apply rbind_ok in Hev as (x & Hx & Hev).
  eexists. split; [done|]. destruct (Hf _ _ Hx) as (t & Hd). eapply (cast_cow_deep t); try done.
  unfold cast_cow. destruct (decide _) as [El|El]; [|done]. unfold cast in Hev. by rewrite decide_True in Hev.
Qed.

Lemma if_binds_well row e1 e2 e3 ty : node_binds_well row (ScalarExpression.If e1 e2 e3 ty).
Proof.
  intros Hch Hn e' E. cbn [children] in Hch.
  apply Forall_cons_1 in Hch as [_ Hch]. apply Forall_cons_1 in Hch as [He1 Hch]. apply Forall_cons_1 in Hch as [He2 _].
  cbn [bind_evaluator] in E. apply rbind_ok in E as (c & _ & E). apply rbind_ok in E as (x & Ex & E).
  apply rbind_ok in E as (y & Ey & E). apply Ok_inj in E. subst e'.
  destruct (He1 x Ex) as [_ Hv1], (He2 y Ey) as [_ Hv2], Hn as [Hs Ht]. split; [done|]. intros v Hev.
  exists ty. split; [done|]. cbn [eval] in Hev. apply rbind_ok in Hev as (b & _ & Hev).
  apply rbind_ok in Hev as (w & Hw & Hev). eapply cast_cow_some; [|done..].
  destruct b; [exact (value_typed_some _ _ _ Hv1 Hw)|exact (value_typed_some _ _ _ Hv2 Hw)].
Qed.

Lemma ifnull_binds_well row e1 e2 ty : node_binds_well row (ScalarExpression.IfNull e1 e2 ty).
Proof.
  intros Hch Hn e' E. cbn [children] in Hch.
  apply Forall_cons_1 in Hch as [He1 Hch]. apply Forall_cons_1 in Hch as [He2 _].
  cbn [bind_evaluator] in E. apply rbind_ok in E as (x & Ex & E). apply rbind_ok in E as (y & Ey & E).
  apply Ok_inj in E. subst e'. destruct (He1 x Ex) as [_ Hv1], (He2 y Ey) as [_ Hv2], Hn as [Hs Ht]. split; [done|].
  intros v Hev. exists ty. split; [done|]. cbn [eval] in Hev. apply rbind_ok in Hev as (a & Ha & Hev).
  apply rbind_ok in Hev as (w & Hw & Hev). eapply cast_cow_some; [|done..].
  destruct (is_null a); [exact (value_typed_some _ _ _ Hv2 Hw)|].
  apply Ok_inj in Hw. subst. exact (value_typed_some _ _ _ Hv1 Ha).
Qed.

Lemma nullif_binds_well row e1 e2 ty : node_binds_well row (ScalarExpression.NullIf e1 e2 ty).
Proof.
  intros Hch Hn e' E. cbn [children] in Hch.
  apply Forall_cons_1 in Hch as [He1 Hch].
  cbn [bind_evaluator] in E. apply rbind_ok in E as (x & Ex & E). apply rbind_ok in E as (y & Ey & E).
  apply Ok_inj in E. subst e'. destruct (He1 x Ex) as [_ Hv1], Hn as [Hs Ht]. split; [done|].
  intros v Hev. exists ty. split; [done|]. cbn [eval] in Hev. apply rbind_ok in Hev as (a & Ha & Hev).
  apply rbind_ok in Hev as (w & Hw & Hev). eapply cast_cow_some; [|done..].
  destruct (dv_eq w a); [apply null_typed|exact (value_typed_some _ _ _ Hv1 Ha)].
Qed.

Lemma coalesce_binds_well row exprs ty : node_binds_well row (ScalarExpression.Coalesce exprs ty).
Proof.
  intros Hch Hn e' E. cbn [children] in Hch.
  change (bind_evaluator (ScalarExpression.Coalesce exprs ty)) with
    (let? exprs := bind_all exprs in Ok (ScalarExpression.Coalesce exprs ty)) in E.
  apply rbind_ok in E as (es & Ees & E). apply Ok_inj in E. subst e'. destruct Hn as [Hs Ht].
  destruct (bind_all_well row exprs es Hch Ees) as [Hv _]. split; [done|]. intros v Hev. exists ty. split; [done|].
  cbn [eval] in Hev. apply rbind_ok in Hev as (w & Hw & Hev). eapply cast_cow_some; [|done..]. by eapply coalesce_typed.
Qed.

Lemma casewhen_binds_well row operand_expr expr_pairs else_expr ty : node_binds_well row (ScalarExpression.CaseWhen operand_expr expr_pairs else_expr ty).
Proof.
  intros Hch Hn e' E. cbn [children] in Hch.
  apply Forall_app in Hch as [_ Hch]. apply Forall_app in Hch as [Hp He].
  change (bind_evaluator (ScalarExpression.CaseWhen operand_expr expr_pairs else_expr ty)) with
    (let? operand_expr := bind_opt operand_expr in let? pairs := bind_pairs expr_pairs in
     let? else_expr := bind_opt else_expr in
     Ok (ScalarExpression.CaseWhen operand_expr pairs else_expr ty)) in E.
  apply rbind_ok in E as (o & _ & E). apply rbind_ok in E as (ps & Eps & E). apply rbind_ok in E as (el & Eel & E).
  apply Ok_inj in E. subst e'. destruct Hn as [Hs Ht].
  pose proof (bind_pairs_well row _ _ Hp Eps) as Hvp. destruct (bind_opt_well row _ _ He Eel) as [Hve _].
  split; [done|]. intros v Hev. exists ty. split; [done|]. cbn [eval] in Hev. apply rbind_ok in Hev as (ov & _ & Hev).
  apply rbind_ok in Hev as (w & Hw & Hev). eapply cast_cow_some; [|done..]. by eapply case_typed.
Qed.

Lemma binds_well_node row e : node_binds_well row e.
Proof.
  destruct e;
    first [ apply columnref_binds_well | apply alias_binds_well | apply typecast_binds_well | apply unary_binds_well
          | apply binary_binds_well | apply in_binds_well | apply between_binds_well | apply substring_binds_well
          | apply position_binds_well | apply trim_binds_well | apply tuple_binds_well | apply scalafunction_binds_well
          | apply if_binds_well | apply ifnull_binds_well | apply nullif_binds_well | apply coalesce_binds_well
          | apply casewhen_binds_well | intros Hch Hn e' E; cbn [bind_evaluator] in E ]; try (bind_inv; by split).
  - bind_inv. split; [done|]. intros v Hv. destruct value; cbn in Hv; try done;
      bind_inv; eexists; (split; [reflexivity|exact Hn]).
  - bind_inv. split; [done|]. intros v Hv. cbn [eval] in Hv. bind_inv. apply boolean_typed; eauto.
Qed.

Lemma admissible_binds_well row e : admissible row e -> binds_well row e.
Proof.
  induction e as [e IH] using expression_ind. intros Ha. inversion_clear Ha as [? Hc Hn].
  apply binds_well_node; [|done]. rewrite List.Forall_forall in *. intros x Hx. apply IH; auto.
Qed.

(** C2: Expressions keep their type and evaluate to values of it. Take an
    expression with the types the binder gives, over a row that matches its
    columns, within [admissible]: the unary operators are on signed operands
    (on unsigned ones it fails: [unary_type_unsigned]), casts and function
    results are within [castable] (not to a time of day, tuples of equal
    lengths), there is no [+] or [-] on times of day, and [IF], [IFNULL],
    [NULLIF], [COALESCE] and [CASE] give no tuples. When [BindEvaluator] has
    chosen the operators' and casts' evaluators, the bound expression has the
    type of the expression, and whenever its evaluation gives a value, nested
    operators, casts, [CASE], string functions and tuples included, the value
    is one of that type. *)
Theorem eval_type_sound row e e' :
  admissible row e -> bind_evaluator e = Ok e' ->
  return_type e' = return_type e /\
  forall v, eval e' row = Ok v -> exists ty, return_type e = Ok ty /\ deep ty v.
Proof.
  intros Ha He. destruct (admissible_binds_well row e Ha e' He) as [Ht H]. split; [done|].
  intros v Hv. destruct (H v Hv) as (ty & Hty & Hd). exists ty. split; [congruence|done].
Qed.
End Sound.

(** * Deviations *)

(** The unary operators on unsigned operands: the binder records the unsigned
    type, [BindEvaluator] casts the operand to the signed one, and the value is
    not of the recorded type. *)
Theorem unary_type_unsigned {OF : OrderedFloat} {CH : Chrono} {SF : ScalarFunctions} :
  let row := Some [DataValue.UInt8 5] in
  exists e e', bind_unary_op_expr (ScalarExpression.ColumnRef LogicalType.UTinyint 0) UnaryOperator.Minus = Ok e /\
    bind_evaluator e = Ok e' /\ return_type e' = Ok LogicalType.UTinyint /\
    eval e' row = Ok (DataValue.Int8 (-5)) /\ ~ deep LogicalType.UTinyint (DataValue.Int8 (-5)).
Proof.
  eexists _, _. split; [reflexivity|]. split; [reflexivity|]. split; [reflexivity|].
  split; [reflexivity|]. by intros [_ ?].
Qed.

(** * Witness *)

#[global] Instance no_functions : ScalarFunctions := {|
  Function := Empty_set;
  function_eval := fun f => match f with end;
  function_type := fun f => match f with end;
|}.

(** [CASE WHEN c < 300 THEN c || 'x' ELSE NULL END] over a small integer. *)
Definition wit_row : tuple_values := Some [DataValue.Int8 7].
Definition wit_column : ScalarExpression := ScalarExpression.ColumnRef LogicalType.Tinyint 0.
Definition wit_text : DataValue := DataValue.Utf8 [120] (Variable_ None) Characters.
Definition wit_expr : ScalarExpression :=
  ScalarExpression.CaseWhen None
    [(ScalarExpression.Binary BinaryOperator.Lt wit_column
        (ScalarExpression.Constant (DataValue.Int32 300)) None LogicalType.Boolean,
      ScalarExpression.Binary BinaryOperator.StringConcat
        (ScalarExpression.TypeCast wit_column varchar None)
        (ScalarExpression.Constant wit_text) None varchar)]
    None (LogicalType.Varchar (Some 10) Characters).

Ltac children_of := cbn; repeat (apply Forall_cons_2); [..|apply Forall_nil_2]; try done.

Lemma wit_admissible : admissible wit_row wit_expr.
Proof.
  assert (admissible wit_row wit_column).
  { apply admissible_node; [constructor|]. intros values v [= <-] [= <-]. split; [vm_compute; intuition congruence|done]. }
  assert (forall v, deep (logical_type v) v -> admissible wit_row (ScalarExpression.Constant v)) as Hc.
  { intros v Hv. apply admissible_node; [constructor|]. by destruct v. }
  apply admissible_node; [|split; [done|vm_compute; intuition congruence]].
  children_of.
  - apply admissible_node.
    + by children_of; apply Hc.
    + eexists _, _, _. repeat (split; [reflexivity|]). split; [by right|]. split; [by left|done].
  - apply admissible_node.
    + children_of.
      * apply admissible_node; [by children_of|]. intros from [= <-]. by right.
      * apply Hc. apply utf8_deep; try done. repeat constructor; done.
    + eexists _, _, _. repeat (split; [reflexivity|]). split; [by left|]. split; [by left|done].
Qed.

Lemma eval_type_sound_witness : exists e' v,
  bind_evaluator wit_expr = Ok e' /\ eval e' wit_row = Ok v /\
  v = DataValue.Utf8 [55; 120] (Variable_ (Some 10)) Characters /\
  return_type e' = return_type wit_expr /\
  exists ty, return_type wit_expr = Ok ty /\ deep ty v.
Proof.
  eexists _, _. split; [vm_compute; reflexivity|]. split; [vm_compute; reflexivity|]. split; [reflexivity|].
  split; [eapply (eval_type_sound wit_row wit_expr); [apply wit_admissible|vm_compute; reflexivity]|].
  eapply (eval_type_sound wit_row wit_expr); [apply wit_admissible|vm_compute; reflexivity|vm_compute; reflexivity].
Defined.
