(* ===== verification/Serdes.v ===== *)
(** Reference serialization (src/src/serdes): the byte format of catalog
    objects and of the values stored behind index keys.

    [Serializer] is the interface of the trait [ReferenceSerialization]: the
    two operations with the law every implementation owes, so that a container
    is proved once against the interface of its elements. The types here ignore
    the [is_direct] flag, the reference tables and the arena the trait threads
    through. [ReferenceTables] is the list of table names a view refers to. *)

From S2P Require Import Prelude MachineInt Types Reader Value.
From stdpp Require Import base list numbers option.
From Stdlib Require Import ZArith Lia.
Local Open Scope Z_scope.

(** [valid x]: [x] is inside the range of its Rust type and of the format. *)
Record Serializer (A : Type) := {
  encode : A -> res (list Z);
  decode : list Z -> res (A * list Z);
  valid : A -> Prop;
  round_trip : forall x, valid x ->
    exists bs, encode x = Ok bs /\ forall r, decode (bs ++ r) = Ok (x, r);
}.
Arguments encode {A} _ _.
Arguments decode {A} _ _.
Arguments valid {A} _ _.
Arguments round_trip {A} _ _ _.

(** * Numbers (num.rs, boolean.rs, char_length_units.rs) *)

(** [implement_num_serialization!] at an [n]-byte unsigned (or float) type. *)
Definition num_u_encode (n : nat) (x : Z) : res (list Z) := Ok (to_le_bytes n x).
Definition num_u_decode (n : nat) (reader : list Z) : res (Z * list Z) := read_le_u n reader.

(** At an [n]-byte signed type. *)
Definition num_s_encode (n : nat) (x : Z) : res (list Z) :=
  Ok (to_le_bytes n (as_u (8 * Z.of_nat n) x)).
Definition num_s_decode (n : nat) (reader : list Z) : res (Z * list Z) :=
  read_le_s n (8 * Z.of_nat n) reader.

(** [usize] is written as [u32]. *)
Definition usize_encode (x : Z) : res (list Z) := num_u_encode 4 (as_u 32 x).
Definition usize_decode (reader : list Z) : res (Z * list Z) := num_u_decode 4 reader.

Definition bool_encode (b : bool) : res (list Z) := num_u_encode 1 (if b then 1 else 0).
Definition bool_decode (reader : list Z) : res (bool * list Z) :=
  let? (x, reader) := num_u_decode 1 reader in Ok (x =? 1, reader).

Definition char_length_units_encode (u : CharLengthUnits) : res (list Z) :=
  num_u_encode 1 (match u with Characters => 0 | Octets => 1 end).
Definition char_length_units_decode (reader : list Z) : res (CharLengthUnits * list Z) :=
  let? (b, reader) := read_u8 reader in
  match b with
  | 0 => Ok (Characters, reader)
  | 1 => Ok (Octets, reader)
  | _ => Err Panic
  end.

(** * Containers (option.rs, pair.rs, slice.rs, vec.rs, bound.rs, string.rs, btree_map.rs) *)

Inductive Bound (A : Type) :=
| Included (v : A)
| Excluded (v : A)
| Unbounded.
Arguments Included {A} _.
Arguments Excluded {A} _.
Arguments Unbounded {A}.

#[global] Instance Bound_eq_dec {A : Type} `{EqDecision A} : EqDecision (Bound A).
Proof. solve_decision. Defined.

Section Containers.
Context {A B : Type} (SA : Serializer A) (SB : Serializer B).

Definition option_encode (x : option A) : res (list Z) :=
  match x with
  | None => num_u_encode 1 0
  | Some v =>
      let? tag := num_u_encode 1 1 in
      let? bs := encode SA v in
      Ok (tag ++ bs)
  end.

Definition option_decode (reader : list Z) : res (option A * list Z) :=
  let? (tag, reader) := num_u_decode 1 reader in
  match tag with
  | 0 => Ok (None, reader)
  | 1 => let? (v, reader) := decode SA reader in Ok (Some v, reader)
  | _ => Err Panic
  end.

Definition pair_encode (x : A * B) : res (list Z) :=
  let? b1 := encode SA (fst x) in
  let? b2 := encode SB (snd x) in
  Ok (b1 ++ b2).

Definition pair_decode (reader : list Z) : res ((A * B) * list Z) :=
  let? (v1, reader) := decode SA reader in
  let? (v2, reader) := decode SB reader in
  Ok ((v1, v2), reader).

Fixpoint encode_all (xs : list A) : res (list Z) :=
  match xs with
  | [] => Ok []
  | x :: xs' =>
      let? b := encode SA x in
      let? bs := encode_all xs' in
      Ok (b ++ bs)
  end.

Fixpoint decode_all (len : nat) (reader : list Z) : res (list A * list Z) :=
  match len with
  | O => Ok ([], reader)
  | S len' =>
      let? (x, reader) := decode SA reader in
      let? (xs, reader) := decode_all len' reader in
      Ok (x :: xs, reader)
  end.

Definition vec_encode (xs : list A) : res (list Z) :=
  let? len := usize_encode (Z.of_nat (length xs)) in
  let? bs := encode_all xs in
  Ok (len ++ bs).

Definition vec_decode (reader : list Z) : res (list A * list Z) :=
  let? (len, reader) := usize_decode reader in
  decode_all (Z.to_nat len) reader.

Definition bound_encode (x : Bound A) : res (list Z) :=
  match x with
  | Included v => let? bs := encode SA v in Ok (0 :: bs)
  | Excluded v => let? bs := encode SA v in Ok (1 :: bs)
  | Unbounded => Ok [2]
  end.

Definition bound_decode (reader : list Z) : res (Bound A * list Z) :=
  let? (tag, reader) := read_u8 reader in
  match tag with
  | 0 => let? (v, reader) := decode SA reader in Ok (Included v, reader)
  | 1 => let? (v, reader) := decode SA reader in Ok (Excluded v, reader)
  | 2 => Ok (Unbounded, reader)
  | _ => Err Panic
  end.
End Containers.

Definition string_encode (s : list Z) : res (list Z) :=
  let? len := usize_encode (byte_len s) in
  Ok (len ++ s).

Definition string_decode (reader : list Z) : res (list Z * list Z) :=
  let? (len, reader) := usize_decode reader in
  let? (bytes, reader) := read_exact (Z.to_nat len) reader in
  let? s := from_utf8 bytes in
  Ok (s, reader).

(** * The instances *)

Lemma pow_bytes (n : nat) : 2 ^ (8 * Z.of_nat n) = 256 ^ Z.of_nat n.
Proof. rewrite Z.pow_mul_r by lia. done. Qed.

Program Definition num_u (n : nat) : Serializer Z :=
  {| encode := num_u_encode n; decode := num_u_decode n; valid := in_u (8 * Z.of_nat n) |}.
Next Obligation.
  intros n x Hx. eexists. split; [done|]. intros r. apply (read_le_u_app n (8 * Z.of_nat n)); [|done].
  apply pow_bytes.
Qed.

Program Definition num_s (n : nat) (Hn : (0 < n)%nat) : Serializer Z :=
  {| encode := num_s_encode n; decode := num_s_decode n; valid := in_s (8 * Z.of_nat n) |}.
Next Obligation.
  intros n Hn x Hx. eexists. split; [done|]. intros r.
  apply read_le_s_app; [lia|apply pow_bytes|done].
Qed.

Program Definition usize : Serializer Z :=
  {| encode := usize_encode; decode := usize_decode; valid := in_u 32 |}.
Next Obligation.
  intros x Hx. eexists. split; [done|]. intros r. rewrite as_u_id by done.
  by apply (read_le_u_app 4 32).
Qed.

Program Definition bool_ser : Serializer bool :=
  {| encode := bool_encode; decode := bool_decode; valid := fun _ => True |}.
Next Obligation. intros [] _; by eexists. Qed.

Program Definition char_length_units : Serializer CharLengthUnits :=
  {| encode := char_length_units_encode; decode := char_length_units_decode;
     valid := fun _ => True |}.
Next Obligation. intros [] _; by eexists. Qed.

Lemma tag_decode (t : Z) (r : list Z) : num_u_decode 1 (t :: r) = Ok (t, r).
Proof.
  unfold num_u_decode, read_le_u. change (t :: r) with ([t] ++ r). rewrite read_exact_app by done.
  cbn [rbind from_le_bytes]. by rewrite Z.mul_0_r, Z.add_0_r.
Qed.

Definition option_valid {A : Type} (SA : Serializer A) (x : option A) : Prop :=
  match x with Some v => valid SA v | None => True end.

Program Definition option_ser {A : Type} (SA : Serializer A) : Serializer (option A) :=
  {| encode := option_encode SA; decode := option_decode SA; valid := option_valid SA |}.
Next Obligation.
  intros A SA [v|] Hv; unfold option_encode, option_decode.
  - destruct (round_trip SA v Hv) as (bs & E & D). rewrite E. eexists. split; [done|]. intros r.
    change ((to_le_bytes 1 1 ++ bs) ++ r) with (1 :: (bs ++ r)). rewrite tag_decode. cbn [rbind].
    by rewrite D.
  - eexists. split; [done|]. intros r. change (to_le_bytes 1 0 ++ r) with (0 :: r).
    by rewrite tag_decode.
Qed.

Program Definition pair_ser {A B : Type} (SA : Serializer A) (SB : Serializer B) : Serializer (A * B) :=
  {| encode := pair_encode SA SB; decode := pair_decode SA SB;
     valid := fun x => valid SA (fst x) /\ valid SB (snd x) |}.
Next Obligation.
  intros A B SA SB [v1 v2] [H1 H2]. destruct (round_trip SA v1 H1) as (b1 & E1 & D1).
  destruct (round_trip SB v2 H2) as (b2 & E2 & D2). unfold pair_encode, pair_decode. simpl.
  rewrite E1, E2. eexists. split; [done|]. intros r. rewrite <- (assoc_L app), D1. cbn [rbind].
  by rewrite D2.
Qed.

Lemma decode_all_app {A : Type} (SA : Serializer A) (xs : list A) :
  Forall (valid SA) xs ->
  exists bs, encode_all SA xs = Ok bs /\
    forall r, decode_all SA (length xs) (bs ++ r) = Ok (xs, r).
Proof.
  induction 1 as [|x xs Hx _ (bs & E & D)]; [by exists []|].
  destruct (round_trip SA x Hx) as (b & Ex & Dx). simpl. rewrite Ex, E. eexists. split; [done|].
  intros r. rewrite <- (assoc_L app), Dx. cbn [rbind]. by rewrite D.
Qed.

Program Definition vec {A : Type} (SA : Serializer A) : Serializer (list A) :=
  {| encode := vec_encode SA; decode := vec_decode SA;
     valid := fun xs => in_u 32 (Z.of_nat (length xs)) /\ Forall (valid SA) xs |}.
Next Obligation.
  intros A SA xs [Hl Hxs]. destruct (decode_all_app SA xs Hxs) as (bs & E & D).
  destruct (round_trip usize _ Hl) as (bl & El & Dl). unfold vec_encode, vec_decode.
  cbn [encode usize] in El. rewrite El, E. eexists. split; [done|]. intros r.
  cbn [decode usize] in Dl. rewrite <- (assoc_L app), Dl. cbn [rbind]. by rewrite Nat2Z.id.
Qed.

Definition bound_valid {A : Type} (SA : Serializer A) (x : Bound A) : Prop :=
  match x with Included v | Excluded v => valid SA v | Unbounded => True end.

Program Definition bound_ser {A : Type} (SA : Serializer A) : Serializer (Bound A) :=
  {| encode := bound_encode SA; decode := bound_decode SA; valid := bound_valid SA |}.
Next Obligation.
  intros A SA [v|v|] Hv; [..|by eexists]; destruct (round_trip SA v Hv) as (bs & E & D); simpl;
    rewrite E; (eexists; split; [done|]); intros r; unfold bound_decode; cbn [app read_u8 rbind];
    by rewrite D.
Qed.

Definition string_valid (s : list Z) : Prop :=
  utf8_valid s = true /\ byte_len s < 2 ^ 32.

Program Definition string_ser : Serializer (list Z) :=
  {| encode := string_encode; decode := string_decode; valid := string_valid |}.
Next Obligation.
  intros s [Hu Hl]. assert (in_u 32 (byte_len s)) as Hb by (unfold in_u, byte_len in *; lia).
  destruct (round_trip usize _ Hb) as (bl & El & Dl). unfold string_encode, string_decode.
  cbn [encode usize] in El. rewrite El. eexists. split; [done|]. intros r.
  cbn [decode usize] in Dl. rewrite <- (assoc_L app), Dl. cbn [rbind].
  rewrite read_exact_app by (unfold byte_len; lia). cbn [rbind]. unfold from_utf8. by rewrite Hu.
Qed.

(** * Values (data_value.rs) *)

Definition TAG_NULL : Z := 0.
Definition TAG_BOOLEAN : Z := 1.
Definition TAG_FLOAT32 : Z := 2.
Definition TAG_FLOAT64 : Z := 3.
Definition TAG_INT8 : Z := 4.
Definition TAG_INT16 : Z := 5.
Definition TAG_INT32 : Z := 6.
Definition TAG_INT64 : Z := 7.
Definition TAG_UINT8 : Z := 8.
Definition TAG_UINT16 : Z := 9.
Definition TAG_UINT32 : Z := 10.
Definition TAG_UINT64 : Z := 11.
Definition TAG_UTF8 : Z := 12.
Definition TAG_DATE32 : Z := 13.
Definition TAG_DATE64 : Z := 14.
Definition TAG_TIME32 : Z := 15.
Definition TAG_TIME64 : Z := 16.
Definition TAG_DECIMAL : Z := 17.
Definition TAG_TUPLE : Z := 18.

Definition read_bool (reader : list Z) : res (bool * list Z) :=
  let? (b, reader) := read_u8 reader in
  match b with
  | 0 => Ok (false, reader)
  | 1 => Ok (true, reader)
  | _ => Err InvalidValue
  end.

Definition write_bool (b : bool) : list Z := [if b then 1 else 0].

(** [len.try_into()?] to [u32]. *)
Definition write_len (len : nat) : res (list Z) :=
  match checked_u 32 (Z.of_nat len) with
  | Some l => Ok (to_le_bytes 4 l)
  | None => Err TryFromInt
  end.

Definition read_len (reader : list Z) : res (nat * list Z) :=
  let? (len, reader) := read_le_u 4 reader in Ok (Z.to_nat len, reader).

Definition write_string (value : list Z) : res (list Z) :=
  let? len := write_len (length value) in Ok (len ++ value).

Definition read_string (reader : list Z) : res (list Z * list Z) :=
  let? (len, reader) := read_len reader in
  let? (bytes, reader) := read_exact len reader in
  let? s := from_utf8 bytes in
  Ok (s, reader).

Definition write_utf8_type (ty : Utf8Type) : list Z :=
  match ty with
  | Variable_ None => [0; 0]
  | Variable_ (Some len) => 0 :: 1 :: to_le_bytes 4 len
  | Fixed len => 1 :: to_le_bytes 4 len
  end.

Definition read_utf8_type (reader : list Z) : res (Utf8Type * list Z) :=
  let? (tag, reader) := read_u8 reader in
  match tag with
  | 0 =>
      let? (opt, reader) := read_u8 reader in
      match opt with
      | 0 => Ok (Variable_ None, reader)
      | 1 => let? (len, reader) := read_le_u 4 reader in Ok (Variable_ (Some len), reader)
      | _ => Err InvalidValue
      end
  | 1 => let? (len, reader) := read_le_u 4 reader in Ok (Fixed len, reader)
  | _ => Err InvalidValue
  end.

Definition write_char_length_units (unit : CharLengthUnits) : list Z :=
  [match unit with Characters => 0 | Octets => 1 end].

Definition read_char_length_units (reader : list Z) : res (CharLengthUnits * list Z) :=
  let? (tag, reader) := read_u8 reader in
  match tag with
  | 0 => Ok (Characters, reader)
  | 1 => Ok (Octets, reader)
  | _ => Err InvalidValue
  end.

Fixpoint encode_reference_value (self : DataValue) : res (list Z) :=
  match self with
  | DataValue.Parameter_ _ _ => Err InvalidValue
  | DataValue.Null => Ok [TAG_NULL]
  | DataValue.Boolean value => Ok (TAG_BOOLEAN :: write_bool value)
  | DataValue.Float32 bits => Ok (TAG_FLOAT32 :: to_le_bytes 4 bits)
  | DataValue.Float64 bits => Ok (TAG_FLOAT64 :: to_le_bytes 8 bits)
  | DataValue.Int8 v => Ok (TAG_INT8 :: to_le_bytes 1 (as_u 8 v))
  | DataValue.Int16 v => Ok (TAG_INT16 :: to_le_bytes 2 (as_u 16 v))
  | DataValue.Int32 v => Ok (TAG_INT32 :: to_le_bytes 4 (as_u 32 v))
  | DataValue.Int64 v => Ok (TAG_INT64 :: to_le_bytes 8 (as_u 64 v))
  | DataValue.UInt8 v => Ok (TAG_UINT8 :: to_le_bytes 1 v)
  | DataValue.UInt16 v => Ok (TAG_UINT16 :: to_le_bytes 2 v)
  | DataValue.UInt32 v => Ok (TAG_UINT32 :: to_le_bytes 4 v)
  | DataValue.UInt64 v => Ok (TAG_UINT64 :: to_le_bytes 8 v)
  | DataValue.Utf8 value ty unit =>
      let? s := write_string value in
      Ok (TAG_UTF8 :: s ++ write_utf8_type ty ++ write_char_length_units unit)
  | DataValue.Date32 v => Ok (TAG_DATE32 :: to_le_bytes 4 (as_u 32 v))
  | DataValue.Date64 v => Ok (TAG_DATE64 :: to_le_bytes 8 (as_u 64 v))
  | DataValue.Time32 v precision => Ok (TAG_TIME32 :: to_le_bytes 4 v ++ to_le_bytes 8 precision)
  | DataValue.Time64 v precision with_tz =>
      Ok (TAG_TIME64 :: to_le_bytes 8 (as_u 64 v) ++ to_le_bytes 8 precision ++ write_bool with_tz)
  | DataValue.Tuple values =>
      let? len := write_len (length values) in
      let? bs :=
        (fix go (vs : list DataValue) : res (list Z) :=
           match vs with
           | [] => Ok []
           | v :: vs' =>
               let? b := encode_reference_value v in
               let? bs := go vs' in
               Ok (b ++ bs)
           end) values in
      Ok (TAG_TUPLE :: len ++ bs)
  end.

(** The element loop of a tuple, over the decoder of its elements. *)
Fixpoint decode_elements (dec : list Z -> res (DataValue * list Z)) (len : nat) (reader : list Z)
    : res (list DataValue * list Z) :=
  match len with
  | O => Ok ([], reader)
  | S len' =>
      let? (v, reader) := dec reader in
      let? (vs, reader) := decode_elements dec len' reader in
      Ok (v :: vs, reader)
  end.

(** Every nested call has read a tag, so the length of the reader bounds the
    nesting; an exhausted reader is the error of [read_u8]. *)
Fixpoint decode_reference_value_fuel (fuel : nat) (reader : list Z) : res (DataValue * list Z) :=
  match fuel with
  | O => Err IO_UnexpectedEof
  | S fuel' =>
      let? (tag, reader) := read_u8 reader in
      let num (n : nat) (k : Z -> DataValue) :=
        let? (u, reader) := read_le_u n reader in Ok (k u, reader) in
      let snum (n : nat) (w : Z) (k : Z -> DataValue) :=
        let? (v, reader) := read_le_s n w reader in Ok (k v, reader) in
      match tag with
      | 0 => Ok (DataValue.Null, reader)
      | 1 => let? (b, reader) := read_bool reader in Ok (DataValue.Boolean b, reader)
      | 2 => num 4%nat DataValue.Float32
      | 3 => num 8%nat DataValue.Float64
      | 4 => snum 1%nat 8 DataValue.Int8
      | 5 => snum 2%nat 16 DataValue.Int16
      | 6 => snum 4%nat 32 DataValue.Int32
      | 7 => snum 8%nat 64 DataValue.Int64
      | 8 => num 1%nat DataValue.UInt8
      | 9 => num 2%nat DataValue.UInt16
      | 10 => num 4%nat DataValue.UInt32
      | 11 => num 8%nat DataValue.UInt64
      | 12 =>
          let? (value, reader) := read_string reader in
          let? (ty, reader) := read_utf8_type reader in
          let? (unit, reader) := read_char_length_units reader in
          Ok (DataValue.Utf8 value ty unit, reader)
      | 13 => snum 4%nat 32 DataValue.Date32
      | 14 => snum 8%nat 64 DataValue.Date64
      | 15 =>
          let? (v, reader) := read_le_u 4 reader in
          let? (precision, reader) := read_le_u 8 reader in
          Ok (DataValue.Time32 v precision, reader)
      | 16 =>
          let? (v, reader) := read_le_s 8 64 reader in
          let? (precision, reader) := read_le_u 8 reader in
          let? (with_tz, reader) := read_bool reader in
          Ok (DataValue.Time64 v precision with_tz, reader)
      | 17 => let? (_, _) := read_exact 16 reader in Err UnsupportedStmt
      | 18 =>
          let? (len, reader) := read_len reader in
          let? (values, reader) := decode_elements (decode_reference_value_fuel fuel') len reader in
          Ok (DataValue.Tuple values, reader)
      | _ => Err InvalidValue
      end
  end.

Definition decode_reference_value (reader : list Z) : res (DataValue * list Z) :=
  decode_reference_value_fuel (S (length reader)) reader.

Fixpoint encode_elements (vs : list DataValue) : res (list Z) :=
  match vs with
  | [] => Ok []
  | v :: vs' =>
      let? b := encode_reference_value v in
      let? bs := encode_elements vs' in
      Ok (b ++ bs)
  end.

Lemma encode_tuple_elements (vs : list DataValue) :
  encode_reference_value (DataValue.Tuple vs) =
  let? len := write_len (length vs) in
  let? bs := encode_elements vs in
  Ok (TAG_TUPLE :: len ++ bs).
Proof. done. Qed.

(** Every string and tuple in the value is shorter than [2^32]. *)
Fixpoint lens_fit (v : DataValue) : Prop :=
  match v with
  | DataValue.Utf8 s _ _ => byte_len s < 2 ^ 32
  | DataValue.Tuple vs => Z.of_nat (length vs) < 2 ^ 32 /\ all_of lens_fit vs
  | _ => True
  end.

Lemma write_len_ok (n : nat) :
  Z.of_nat n < 2 ^ 32 -> write_len n = Ok (to_le_bytes 4 (Z.of_nat n)).
Proof.
  intros H. unfold write_len.
  assert (checked_u 32 (Z.of_nat n) = Some (Z.of_nat n)) as ->; [|done].
  apply checked_u_Some. unfold in_u. split; [done|lia].
Qed.

Lemma read_len_app (n : nat) (r : list Z) :
  Z.of_nat n < 2 ^ 32 -> read_len (to_le_bytes 4 (Z.of_nat n) ++ r) = Ok (n, r).
Proof.
  intros H. unfold read_len. rewrite (read_le_u_app 4 32); [|done|unfold in_u; lia].
  cbn [rbind]. by rewrite Nat2Z.id.
Qed.

Lemma read_string_app (s : list Z) :
  utf8_valid s = true -> byte_len s < 2 ^ 32 ->
  exists bs, write_string s = Ok bs /\ forall r, read_string (bs ++ r) = Ok (s, r).
Proof.
  intros Hu Hl. unfold write_string, read_string. rewrite write_len_ok by done. cbn [rbind].
  eexists. split; [done|]. intros r. rewrite <- (assoc_L app), read_len_app by done. cbn [rbind].
  rewrite read_exact_app by done. cbn [rbind]. unfold from_utf8. by rewrite Hu.
Qed.

Definition utf8_type_ok (ty : Utf8Type) : Prop :=
  match ty with
  | Fixed len => in_u 32 len
  | Variable_ (Some len) => in_u 32 len
  | Variable_ None => True
  end.

Lemma read_utf8_type_app (ty : Utf8Type) (r : list Z) :
  utf8_type_ok ty -> read_utf8_type (write_utf8_type ty ++ r) = Ok (ty, r).
Proof.
  intros H. unfold read_utf8_type.
  destruct ty as [[len|]|len]; cbn [write_utf8_type app read_u8 rbind]; try done;
    by rewrite (read_le_u_app 4 32).
Qed.

Lemma read_units_app (u : CharLengthUnits) (r : list Z) :
  read_char_length_units (write_char_length_units u ++ r) = Ok (u, r).
Proof. by destruct u. Qed.

Lemma read_bool_app (b : bool) (r : list Z) : read_bool (write_bool b ++ r) = Ok (b, r).
Proof. by destruct b. Qed.

(** [bs] is the encoding of [v] and decodes to it with any fuel above its length. *)
Definition reads_back (v : DataValue) : Prop :=
  exists bs, encode_reference_value v = Ok bs /\
    forall f r, (length bs < f)%nat -> decode_reference_value_fuel f (bs ++ r) = Ok (v, r).

Lemma reads_back_elements (vs : list DataValue) :
  Forall reads_back vs ->
  exists bs, encode_elements vs = Ok bs /\ forall f r, (length bs < f)%nat ->
    decode_elements (decode_reference_value_fuel f) (length vs) (bs ++ r) = Ok (vs, r).
Proof.
  induction 1 as [|v vs (b & E & D) _ (bs & Es & Ds)]; [by exists []|].
  cbn [encode_elements decode_elements length]. rewrite E, Es. eexists. split; [done|].
  intros f r Hf. rewrite length_app in Hf. rewrite <- (assoc_L app), D by lia. cbn [rbind].
  by rewrite Ds by lia.
Qed.

(** Select the branch of the tag. *)
Ltac read_tag :=
  cbn [app read_u8 rbind];
  cbv beta iota delta [TAG_NULL TAG_BOOLEAN TAG_FLOAT32 TAG_FLOAT64 TAG_INT8 TAG_INT16 TAG_INT32
    TAG_INT64 TAG_UINT8 TAG_UINT16 TAG_UINT32 TAG_UINT64 TAG_UTF8 TAG_DATE32
    TAG_DATE64 TAG_TIME32 TAG_TIME64 TAG_DECIMAL TAG_TUPLE].

(** Step over the tag, then read the fields. *)
Ltac read_fields :=
  read_tag; rewrite <- ?(assoc_L app);
  read_nums; rewrite ?read_bool_app;
  done.

Lemma reads_back_scalar (v : DataValue) :
  (forall vs, v <> DataValue.Tuple vs) ->
  dv_ok v -> has_parameter v = false -> lens_fit v -> reads_back v.
Proof.
  intros Hv Ho Hp Hl. unfold reads_back.
  destruct v; try (exfalso; exact (Hv _ eq_refl)); try discriminate Hp;
    try (eexists; split; [reflexivity|]; intros [|f] r Hf; [by apply Nat.nlt_0_r in Hf|];
      cbn [decode_reference_value_fuel]; simpl in Ho; read_fields).
  destruct Ho as (Hb & Hu & Ht). destruct (read_string_app value Hu Hl) as (bs & E & D).
  simpl. rewrite E. eexists. split; [done|]. intros [|f] r Hf; [by apply Nat.nlt_0_r in Hf|].
  cbn [decode_reference_value_fuel]. read_tag. rewrite <- !(assoc_L app).
  rewrite D. cbn [rbind].
  rewrite read_utf8_type_app by done. cbn [rbind]. by rewrite read_units_app.
Qed.

Lemma reference_value_reads_back (v : DataValue) :
  dv_ok v -> has_parameter v = false -> lens_fit v -> reads_back v.
Proof.
  induction v as [v Hv|vs IH] using DataValue_ind'; intros Ho Hp Hl; [by apply reads_back_scalar|].
  simpl in Ho, Hp. destruct Hl as [Hn Hl]. fold lens_fit in Hl.
  assert (Forall reads_back vs) as H.
  { clear Hn. induction IH as [|v vs IHv _ IHvs]; [constructor|]. simpl in Ho, Hp, Hl.
    apply orb_false_iff in Hp as [? ?]. destruct Ho, Hl. constructor; auto. }
  destruct (reads_back_elements vs H) as (bs & E & D).
  unfold reads_back. rewrite encode_tuple_elements, write_len_ok, E by done. cbn [rbind].
  eexists. split; [done|]. intros [|f] r Hf; [by apply Nat.nlt_0_r in Hf|].
  cbn [decode_reference_value_fuel]. read_tag. rewrite <- (assoc_L app).
  rewrite read_len_app by done. cbn [rbind]. rewrite D; [done|].
  cbn [length] in Hf. rewrite length_app in Hf. lia.
Qed.

Program Definition data_value : Serializer DataValue :=
  {| encode := encode_reference_value; decode := decode_reference_value;
     valid := fun v => dv_ok v /\ has_parameter v = false /\ lens_fit v |}.
Next Obligation.
  intros v (Ho & Hp & Hl). destruct (reference_value_reads_back v Ho Hp Hl) as (bs & E & D).
  exists bs. split; [done|]. intros r. apply D. rewrite length_app. lia.
Qed.

(** ** The decoder is total: its fuel is never what stops it *)

(** A reader function that consumes at least [k] bytes. *)
Definition consumes {A : Type} (k : nat) (f : list Z -> res (A * list Z)) : Prop :=
  forall r x r', f r = Ok (x, r') -> (length r' + k <= length r)%nat.

Lemma consumes_bind {A B : Type} (k l : nat) (f : list Z -> res (A * list Z))
    (g : A -> list Z -> res (B * list Z)) :
  consumes k f -> (forall x, consumes l (g x)) ->
  consumes (k + l) (fun r => let? (x, r') := f r in g x r').
Proof.
  intros Hf Hg r y r'. destruct (f r) as [[x r1]|] eqn:E; [|done]. cbn [rbind]. intros H.
  apply Hf in E. apply Hg in H. lia.
Qed.

Lemma consumes_ret {A : Type} (x : A) : consumes 0 (fun r => Ok (x, r)).
Proof. intros r y r' [= <- <-]. lia. Qed.

Lemma consumes_err {A : Type} (k : nat) (e : DatabaseError) :
  consumes (A := A) k (fun _ => Err e).
Proof. by intros r y r'. Qed.

Lemma consumes_weaken {A : Type} (k l : nat) (f : list Z -> res (A * list Z)) :
  (l <= k)%nat -> consumes k f -> consumes l f.
Proof. intros Hl Hf r x r' E. apply Hf in E. lia. Qed.

Lemma consumes_u8 : consumes 1 read_u8.
Proof. intros [|b r] x r' H; simplify_eq/=. lia. Qed.

Lemma consumes_exact (n : nat) : consumes 0 (read_exact n).
Proof. intros r x r' E. apply read_exact_length in E as [-> _]. rewrite length_app. lia. Qed.

Create HintDb consumes.
#[export] Hint Resolve consumes_ret consumes_err consumes_u8 consumes_exact : consumes.

(** Compose the facts above along a chain of reads. *)
Ltac consume :=
  repeat first
    [ progress intros
    | solve [eauto with consumes]
    | apply (consumes_bind 0 0)
    | apply (consumes_weaken 1 0); [lia|solve [eauto with consumes]]
    | case_match_any ].

Lemma consumes_le_u (n : nat) : consumes 0 (read_le_u n).
Proof. unfold read_le_u. consume. Qed.
Lemma consumes_le_s (n : nat) (w : Z) : consumes 0 (read_le_s n w).
Proof. unfold read_le_s. pose proof consumes_le_u. consume. Qed.
#[export] Hint Resolve consumes_le_u consumes_le_s : consumes.

Lemma consumes_bool : consumes 0 read_bool.
Proof. unfold read_bool. consume. Qed.
Lemma consumes_string : consumes 0 read_string.
Proof.
  unfold read_string, read_len. apply (consumes_bind 0 0); [consume|]. intros n.
  apply (consumes_bind 0 0); [consume|]. intros bs r x r'. destruct (from_utf8 bs); [|done].
  by intros [= <- <-]; lia.
Qed.
Lemma consumes_utf8_type : consumes 0 read_utf8_type.
Proof. unfold read_utf8_type. consume. Qed.
Lemma consumes_units : consumes 0 read_char_length_units.
Proof. unfold read_char_length_units. consume. Qed.
#[export] Hint Resolve consumes_bool consumes_string consumes_utf8_type consumes_units : consumes.

Lemma consumes_elements (dec : list Z -> res (DataValue * list Z)) (len : nat) :
  consumes 0 dec -> consumes 0 (decode_elements dec len).
Proof. intros H. induction len; cbn [decode_elements]; consume. Qed.
#[export] Hint Resolve consumes_elements : consumes.

(** The part of the decoder after the tag. *)
Lemma decode_unfold (f : nat) (r : list Z) :
  decode_reference_value_fuel (S f) r =
  let? (tag, r) := read_u8 r in
  if decide (tag = TAG_TUPLE) then
    let? (len, r) := read_len r in
    let? (values, r) := decode_elements (decode_reference_value_fuel f) len r in
    Ok (DataValue.Tuple values, r)
  else decode_reference_value_fuel 1 (tag :: r).
Proof.
  cbn [decode_reference_value_fuel]. destruct r as [|tag r]; [done|]. cbn [read_u8 rbind].
  destruct (decide (tag = TAG_TUPLE)) as [->|Hne]; [done|].
  destruct tag as [|p|p]; [done| |done].
  do 5 (destruct p as [p|p|]; try done).
Qed.

Lemma consumes_scalar (tag : Z) :
  tag <> TAG_TUPLE -> consumes 0 (fun r => decode_reference_value_fuel 1 (tag :: r)).
Proof.
  intros Hne. cbn [decode_reference_value_fuel read_u8 rbind].
  destruct tag as [|p|p]; [consume| |consume].
  do 5 (destruct p as [p|p|]; try (solve [consume])).
Qed.

Lemma consumes_decode (f : nat) : consumes 1 (decode_reference_value_fuel f).
Proof.
  induction f as [|f IH]; [by intros r x r'|]. intros r x r'. rewrite decode_unfold. revert r x r'.
  apply (consumes_bind 1 0); [consume|]. intros tag. destruct (decide (tag = TAG_TUPLE)).
  - unfold read_len.
    assert (consumes 0 (decode_reference_value_fuel f)) by (eapply consumes_weaken; [|exact IH]; lia).
    consume.
  - by apply consumes_scalar.
Qed.

Lemma decode_elements_ext (dec dec' : list Z -> res (DataValue * list Z)) (len n : nat) (r : list Z) :
  consumes 0 dec -> (forall r, (length r <= n)%nat -> dec r = dec' r) -> (length r <= n)%nat ->
  decode_elements dec len r = decode_elements dec' len r.
Proof.
  intros Hc He. revert r. induction len as [|len IH]; intros r Hr; [done|].
  cbn [decode_elements]. rewrite <- He by done. destruct (dec r) as [[v r']|] eqn:E; [|done].
  cbn [rbind]. apply Hc in E. rewrite IH by lia. done.
Qed.

Lemma decode_fuel_irrelevant (f1 f2 : nat) (r : list Z) :
  (length r < f1)%nat -> (length r < f2)%nat ->
  decode_reference_value_fuel f1 r = decode_reference_value_fuel f2 r.
Proof.
  revert f2 r. induction f1 as [|f1 IH]; intros [|f2] r H1 H2; try lia.
  rewrite !decode_unfold. destruct r as [|tag r]; [done|]. cbn [read_u8 rbind length] in *.
  destruct (decide (tag = TAG_TUPLE)); [|done].
  destruct (read_len r) as [[len r1]|] eqn:E; [|done]. cbn [rbind].
  assert (length r1 <= length r)%nat.
  { unfold read_len in E. destruct (read_le_u 4 r) as [[u r2]|] eqn:E'; simplify_eq/=.
    apply consumes_le_u in E'. lia. }
  rewrite (decode_elements_ext _ (decode_reference_value_fuel f2) len (length r)); [done| |auto..].
  - eapply consumes_weaken; [|apply consumes_decode]. lia.
  - intros r2 Hr2. apply IH; lia.
Qed.

(** Values behind index keys read back exactly. A parameter-free value
    whose strings and tuples are shorter than [2^32] encodes, and whatever
    follows it the decoder returns it bit for bit, NaN and [-0.0] included;
    more fuel than the bytes to read changes no result, so the recursion the
    code runs is the one modelled. *)
Theorem reference_value_roundtrip (v : DataValue) :
  dv_ok v -> has_parameter v = false -> lens_fit v ->
  exists bs, encode_reference_value v = Ok bs /\
    forall r fuel, decode_reference_value (bs ++ r) = Ok (v, r) /\
      decode_reference_value_fuel (S (length (bs ++ r)) + fuel) (bs ++ r) = Ok (v, r).
Proof.
  intros Ho Hp Hl. destruct (round_trip data_value v) as (bs & E & D); [done|].
  exists bs. split; [done|]. intros r fuel. split; [apply D|]. rewrite <- (D r).
  apply decode_fuel_irrelevant; lia.
Qed.

Lemma reference_value_roundtrip_witness :
  exists bs, encode_reference_value (DataValue.Tuple [DataValue.Int32 (-7); DataValue.Null;
      DataValue.Float64 0x7FF8000000000000]) = Ok bs /\
    forall r fuel, decode_reference_value (bs ++ r) = Ok (DataValue.Tuple [DataValue.Int32 (-7);
        DataValue.Null; DataValue.Float64 0x7FF8000000000000], r) /\
      decode_reference_value_fuel (S (length (bs ++ r)) + fuel) (bs ++ r) =
        Ok (DataValue.Tuple [DataValue.Int32 (-7); DataValue.Null;
          DataValue.Float64 0x7FF8000000000000], r).
Proof.
  apply (reference_value_roundtrip (DataValue.Tuple [DataValue.Int32 (-7); DataValue.Null;
      DataValue.Float64 0x7FF8000000000000])); [|reflexivity|repeat split; lia].
  repeat split; unfold in_s, in_u; lia.
Defined.

(** * Reference tables (serdes/mod.rs) *)

Module ReferenceTables.
(** [tables : Vec<TableName>]; a name is its bytes. *)
Definition t := list (list Z).

Definition new : t := [].

(** [&self.tables[i]]: out of range panics. *)
Definition get (self : t) (i : nat) : res (list Z) :=
  match self !! i with Some name => Ok name | None => Err Panic end.

(** The search loop, from position [i]. *)
Fixpoint find_from (i : nat) (tables : t) (table_name : list Z) : option nat :=
  match tables with
  | [] => None
  | item :: tables' =>
      if decide (item = table_name) then Some i else find_from (S i) tables' table_name
  end.

Definition push_or_replace (self : t) (table_name : list Z) : t * nat :=
  match find_from 0 self table_name with
  | Some i => (self, i)
  | None => (self ++ [table_name], (length (self ++ [table_name]) - 1)%nat)
  end.

(** Lengths are cast to [u32]. *)
Fixpoint to_raw_names (names : t) : list Z :=
  match names with
  | [] => []
  | name :: names' => to_le_bytes 4 (as_u 32 (byte_len name)) ++ name ++ to_raw_names names'
  end.

Definition to_raw (self : t) : list Z :=
  to_le_bytes 4 (as_u 32 (Z.of_nat (length self))) ++ to_raw_names self.

(** [String::from_utf8(bytes).unwrap()] panics on invalid UTF-8. *)
Fixpoint from_raw_names (n : nat) (reader : list Z) : res (t * list Z) :=
  match n with
  | O => Ok ([], reader)
  | S n' =>
      let? (len, reader) := read_le_u 4 reader in
      let? (bytes, reader) := read_exact (Z.to_nat len) reader in
      if utf8_valid bytes then
        let? (names, reader) := from_raw_names n' reader in
        Ok (bytes :: names, reader)
      else Err Panic
  end.

Definition from_raw (reader : list Z) : res (t * list Z) :=
  let? (tables_len, reader) := read_le_u 4 reader in
  from_raw_names (Z.to_nat tables_len) reader.

Lemma find_from_spec (i : nat) (tables : t) (name : list Z) :
  match find_from i tables name with
  | Some k => (i <= k)%nat /\ tables !! (k - i)%nat = Some name
  | None => name ∉ tables
  end.
Proof.
  revert i. induction tables as [|item tables IH]; intros i; simpl; [apply not_elem_of_nil|].
  destruct (decide (item = name)) as [->|Hne].
  - split; [lia|]. by rewrite Nat.sub_diag.
  - specialize (IH (S i)). destruct (find_from (S i) tables name) as [k|].
    + destruct IH as [Hk E]. split; [lia|]. by replace (k - i)%nat with (S (k - S i)) by lia.
    + apply not_elem_of_cons. split; [congruence|done].
Qed.

(** Interning a table name. The index returned is where the name is, every
    index given out before stays valid, no name is stored twice, and the table
    grows only for a name it did not have. *)
Theorem push_or_replace_spec (self : t) (name : list Z) :
  NoDup self ->
  let '(self', i) := push_or_replace self name in
  get self' i = Ok name /\ NoDup self' /\
  (forall j x, get self j = Ok x -> get self' j = Ok x) /\
  (self' = self <-> name ∈ self).
Proof.
  intros Hnd. unfold push_or_replace. pose proof (find_from_spec 0 self name) as H.
  destruct (find_from 0 self name) as [i|].
  - destruct H as [_ E]. rewrite Nat.sub_0_r in E. unfold get. rewrite E.
    split; [done|]. split; [done|]. split; [done|]. split; [|done]. intros _.
    by eapply list_elem_of_lookup_2.
  - unfold get. rewrite length_app. cbn [length].
    replace (length self + 1 - 1)%nat with (length self) by lia.
    rewrite (lookup_app_r self), Nat.sub_diag by lia. split; [done|]. split; [|split].
    + apply list.NoDup_app. split; [done|]. split; [|apply NoDup_singleton].
      intros x Hx Hx'. apply list_elem_of_singleton in Hx'. by subst.
    + intros j x. destruct (self !! j) as [y|] eqn:E; [|done].
      by rewrite (lookup_app_l_Some _ _ _ _ E).
    + split; [|done]. intros E. apply (f_equal length) in E. rewrite length_app in E. simpl in E. lia.
Qed.

Lemma push_or_replace_spec_witness :
  let '(self', i) := push_or_replace [[116; 49]; [116; 50]] [116; 50] in
  get self' i = Ok [116; 50] /\ NoDup self' /\
  (forall j x, get [[116; 49]; [116; 50]] j = Ok x -> get self' j = Ok x) /\
  (self' = [[116; 49]; [116; 50]] <-> [116; 50] ∈ [[116; 49]; [116; 50]]).
Proof.
  apply (push_or_replace_spec [[116; 49]; [116; 50]] [116; 50]).
  apply (bool_decide_unpack _). by vm_compute.
Defined.

Lemma from_raw_names_app (names : t) (r : list Z) :
  Forall string_valid names ->
  from_raw_names (length names) (to_raw_names names ++ r) = Ok (names, r).
Proof.
  induction 1 as [|name names [Hu Hl] _ IH]; [done|]. cbn [from_raw_names to_raw_names length].
  assert (in_u 32 (byte_len name)) by (unfold in_u, byte_len in *; lia).
  rewrite as_u_id, <- !(assoc_L app), (read_le_u_app 4 32) by done. cbn [rbind].
  rewrite read_exact_app by (unfold byte_len; lia). cbn [rbind]. by rewrite Hu, IH.
Qed.

(** The reference tables stored with a view read back. *)
Theorem reference_tables_roundtrip (self : t) (r : list Z) :
  Forall string_valid self -> Z.of_nat (length self) < 2 ^ 32 ->
  from_raw (to_raw self ++ r) = Ok (self, r).
Proof.
  intros Hs Hl. unfold from_raw, to_raw. assert (in_u 32 (Z.of_nat (length self))) by (unfold in_u; lia).
  rewrite as_u_id, <- (assoc_L app), (read_le_u_app 4 32) by done. cbn [rbind].
  rewrite Nat2Z.id. by apply from_raw_names_app.
Qed.

Lemma reference_tables_roundtrip_witness :
  from_raw (to_raw [[116; 49]; [116; 50]] ++ [7]) = Ok ([[116; 49]; [116; 50]], [7]).
Proof. apply (reference_tables_roundtrip [[116; 49]; [116; 50]] [7]); [by repeat constructor|done]. Defined.
End ReferenceTables.
