(* ===== verification/Ranges.v ===== *)
(** Ranges of column values (src/src/expression/range_detacher.rs): how two
    ranges are compared and merged under AND and OR when predicates are turned
    into index ranges.

    [merge_binary] calls itself only to swap its operands, and through
    [extract_merge_ranges] only on ranges that are not lists; so the flat cases
    are [merge_flat], which both use, and the mutual recursion of the code is
    gone. [extract_merge_ranges] has fuel for its loop.

    A value [x] satisfies a range by [range_sat], in the order of the index:
    the order of the values with nulls last. *)

From S2P Require Import Prelude MachineInt Types Reader Value MemComparable Serdes Operators.
From stdpp Require Import base list numbers option sets sorting.
From Stdlib Require Import ZArith Lia.
Local Open Scope Z_scope.

Module Range.
Inductive Range :=
| Scope (min max : Bound DataValue)
| Eq (v : DataValue)
| Dummy
| SortedRanges (ranges : list Range).
End Range.
Notation Range := Range.Range.

Import BinaryOperator(And, Or).

Definition is_or (op : BinaryOperator) : bool :=
  match op with BinaryOperator.Or => true | _ => false end.

(** [BinaryOperator::And | BinaryOperator::Or]. *)
Definition is_and_or (op : BinaryOperator) : bool :=
  match op with BinaryOperator.And | BinaryOperator.Or => true | _ => false end.

Definition bound_has_parameter (b : Bound DataValue) : bool :=
  match b with
  | Included value | Excluded value => has_parameter value
  | Unbounded => false
  end.

Definition bounds_have_parameter (bounds : list (Bound DataValue)) : bool :=
  existsb bound_has_parameter bounds.

Fixpoint range_has_parameter (self : Range) : bool :=
  match self with
  | Range.Scope min max => existsb bound_has_parameter [min; max]
  | Range.Eq value => has_parameter value
  | Range.SortedRanges ranges => existsb range_has_parameter ranges
  | Range.Dummy => false
  end.

Fixpoint only_eq (self : Range) : bool :=
  match self with
  | Range.Eq _ => true
  | Range.SortedRanges ranges => forallb only_eq ranges
  | _ => false
  end.

Section Merge.
Context {OF : OrderedFloat}.

(** * Comparing bounds *)

Definition range_value_cmp (left right : DataValue) (left_is_upper right_is_upper : bool)
    : option comparison :=
  match left, right with
  | DataValue.Null, DataValue.Null => Some Eq
  | DataValue.Null, _ => Some Gt
  | _, DataValue.Null => Some Lt
  | _, _ => partial_cmp_with_bounds left right left_is_upper right_is_upper
  end.

Definition is_min_then_reverse (is_min : bool) (order : comparison) : comparison :=
  if is_min then order else CompOpp order.

Definition bound_compared (left_bound right_bound : Bound DataValue)
    (left_is_upper right_is_upper : bool) : option comparison :=
  let is_min := negb left_is_upper && negb right_is_upper in
  match left_bound, right_bound with
  | Unbounded, Unbounded => Some Eq
  | Unbounded, _ => Some (is_min_then_reverse (negb left_is_upper) Lt)
  | _, Unbounded => Some (is_min_then_reverse (negb right_is_upper) Gt)
  | Included l, Included r => range_value_cmp l r left_is_upper right_is_upper
  | Included l, Excluded r =>
      (fun order => cmp_then order (is_min_then_reverse is_min Lt)) <$>
      range_value_cmp l r left_is_upper (negb right_is_upper)
  | Excluded l, Excluded r =>
      range_value_cmp l r (negb left_is_upper) (negb right_is_upper)
  | Excluded l, Included r =>
      (fun order => cmp_then order (is_min_then_reverse is_min Gt)) <$>
      range_value_cmp l r (negb left_is_upper) right_is_upper
  end.

Definition is_lt_ (c : option comparison) : bool := match c with Some Lt => true | _ => false end.
Definition is_gt_ (c : option comparison) : bool := match c with Some Gt => true | _ => false end.

(** * Merging two scopes *)

Definition or_scope_merge (left_min left_max right_min right_max : Bound DataValue) : Range :=
  if is_lt_ (bound_compared left_max right_min true false) ||
     is_lt_ (bound_compared right_max left_min true false)
  then
    if is_lt_ (bound_compared left_min right_min false false)
    then Range.SortedRanges [Range.Scope left_min left_max; Range.Scope right_min right_max]
    else Range.SortedRanges [Range.Scope right_min right_max; Range.Scope left_min left_max]
  else
    let min := if is_lt_ (bound_compared left_min right_min false false) then left_min else right_min in
    let max := if is_gt_ (bound_compared left_max right_max true true) then left_max else right_max in
    match bound_compared min max false true with
    | Some Eq =>
        match min with
        | Included val => Range.Eq val
        | Excluded _ => Range.Dummy
        | Unbounded => Range.Scope Unbounded Unbounded
        end
    | _ => Range.Scope min max
    end.

Definition and_scope_merge (left_min left_max right_min right_max : Bound DataValue)
    : result (Range * Range) Range :=
  match bound_compared left_min right_min false false, bound_compared left_max right_max true true with
  | Some min_order, Some max_order =>
      let min := match min_order with Gt => left_min | Lt | Eq => right_min end in
      let max := match max_order with Lt => left_max | Gt | Eq => right_max end in
      Ok match bound_compared min max false true with
         | Some Gt => Range.Dummy
         | Some Eq =>
             match min with
             | Included val => Range.Eq val
             | Excluded _ => Range.Dummy
             | Unbounded => Range.Scope Unbounded Unbounded
             end
         | _ => Range.Scope min max
         end
  | _, _ => Err (Range.Scope left_min left_max, Range.Scope right_min right_max)
  end.

(** * Merging two ranges *)

Definition process_exclude_bound_with_eq (bound : Bound DataValue) (eq : DataValue) (op : BinaryOperator)
    : Bound DataValue :=
  match bound with
  | Excluded bound_val =>
      if dv_eq bound_val eq && is_or op then Included bound_val else Excluded bound_val
  | bound => bound
  end.

(** The arm [(Range::Scope { min, max }, Range::Eq(eq))]. *)
Definition merge_scope_eq (op : BinaryOperator) (min max : Bound DataValue) (eq : DataValue)
    : result (Range * Range) Range :=
  if bounds_have_parameter [min; max] || has_parameter eq then Err (Range.Scope min max, Range.Eq eq)
  else
    match op with
    | BinaryOperator.And =>
        let bound_eq := Included eq in
        let is_less :=
          match bound_compared bound_eq min false false with
          | Some c => is_lt_ (Some c)
          | None => match min with Unbounded => false | _ => true end
          end in
        if is_less || is_gt_ (bound_compared bound_eq max true true) then Ok Range.Dummy
        else Ok (Range.Eq eq)
    | BinaryOperator.Or =>
        if is_null eq then
          Ok (match min with
              | Excluded _ => Range.SortedRanges [Range.Eq eq; Range.Scope min max]
              | _ => Range.Scope min max
              end)
        else
          let bound_eq := Excluded eq in
          Ok (match bound_compared bound_eq min false false with
              | Some Lt => Range.SortedRanges [Range.Eq eq; Range.Scope min max]
              | Some Eq => Range.Scope (process_exclude_bound_with_eq min eq op) max
              | _ =>
                  match bound_compared bound_eq max true true with
                  | Some Gt => Range.SortedRanges [Range.Scope min max; Range.Eq eq]
                  | Some Eq => Range.Scope min (process_exclude_bound_with_eq max eq op)
                  | _ => Range.Scope min max
                  end
              end)
    | _ => Err (Range.Scope min max, Range.Eq eq)
    end.

Definition merge_eq_eq (op : BinaryOperator) (left_val right_val : DataValue) : result (Range * Range) Range :=
  if dv_eq left_val right_val && is_and_or op then Ok (Range.Eq left_val)
  else if has_parameter left_val || has_parameter right_val then Err (Range.Eq left_val, Range.Eq right_val)
  else
    match op with
    | BinaryOperator.And => Ok Range.Dummy
    | BinaryOperator.Or =>
        Ok (if is_gt_ (partial_cmp left_val right_val)
            then Range.SortedRanges [Range.Eq right_val; Range.Eq left_val]
            else Range.SortedRanges [Range.Eq left_val; Range.Eq right_val])
    | _ => Err (Range.Eq left_val, Range.Eq right_val)
    end.

(** [map_err(|(right, left)| (left, right))]. *)
Definition swap_err {A : Type} (r : result (Range * Range) A) : result (Range * Range) A :=
  match r with Ok a => Ok a | Err (r, l) => Err (l, r) end.

(** [merge_binary] on ranges that are not lists; [None] on a list. *)
Definition merge_flat (op : BinaryOperator) (left_binary right_binary : Range)
    : option (result (Range * Range) Range) :=
  match left_binary, right_binary with
  | Range.Dummy, binary =>
      Some (match op with
            | BinaryOperator.And => Ok Range.Dummy
            | BinaryOperator.Or => Ok binary
            | _ => Err (Range.Dummy, binary)
            end)
  | binary, Range.Dummy =>
      Some (match op with
            | BinaryOperator.And => Ok Range.Dummy
            | BinaryOperator.Or => Ok binary
            | _ => Err (binary, Range.Dummy)
            end)
  | Range.Scope left_min left_max, Range.Scope right_min right_max =>
      Some (match op with
            | BinaryOperator.And => and_scope_merge left_min left_max right_min right_max
            | BinaryOperator.Or =>
                if bounds_have_parameter [left_min; left_max; right_min; right_max]
                then Err (Range.Scope left_min left_max, Range.Scope right_min right_max)
                else Ok (or_scope_merge left_min left_max right_min right_max)
            | _ => Err (Range.Scope left_min left_max, Range.Scope right_min right_max)
            end)
  | Range.Scope min max, Range.Eq eq => Some (merge_scope_eq op min max eq)
  | Range.Eq eq, Range.Scope min max => Some (swap_err (merge_scope_eq op min max eq))
  | Range.Eq left_val, Range.Eq right_val => Some (merge_eq_eq op left_val right_val)
  | _, _ => None
  end.

(** [Result::ok] of a merge whose operands are not lists. *)
Definition merged (op : BinaryOperator) (l r : Range) : option Range :=
  match merge_flat op l r with Some (Ok range) => Some range | _ => None end.

Definition ranges2range (merged_ranges : list Range) : Range :=
  match merged_ranges with
  | [] => Range.Dummy
  | [range] => range
  | _ => Range.SortedRanges merged_ranges
  end.

(** [Vec::insert] and [Vec::remove] at an index in range. *)
Definition insert_at {A : Type} (i : nat) (x : A) (l : list A) : list A := take i l ++ x :: drop i l.
Definition remove_at {A : Type} (i : nat) (l : list A) : list A := take i l ++ drop (S i) l.

(** The loop of [extract_merge_ranges], with the position it leaves in [idx];
    [None] is fuel exhausted. An arm that is [unreachable!] in a debug build
    returns an empty list in release, as here. *)
Fixpoint extract_merge_ranges (fuel : nat) (op : BinaryOperator) (binary : option Range)
    (ranges : list Range) (idx : nat) : option (list Range * nat) :=
  match fuel with
  | O => None
  | S fuel' =>
      match ranges !! idx with
      | None => Some (match binary with Some range => ranges ++ [range] | None => ranges end, idx)
      | Some at_idx =>
          let insert := Some (match binary with Some b => insert_at idx b ranges | None => ranges end, idx) in
          let next := extract_merge_ranges fuel' op binary ranges (S idx) in
          let merge (b : Range) :=
            extract_merge_ranges fuel' op (merged op b at_idx) (remove_at idx ranges) idx in
          match binary, at_idx with
          | Some (Range.Scope l_min l_max as b), Range.Scope r_min r_max =>
              if is_lt_ (bound_compared l_max r_min true false) then insert
              else if is_gt_ (bound_compared l_min r_max false true) then next
              else merge b
          | Some (Range.Scope l_min l_max as b), Range.Eq r_val =>
              if is_lt_ (bound_compared l_max (Included r_val) true false) then insert
              else if (match bound_compared l_min (Included r_val) false true with
                       | Some c => is_gt_ (Some c)
                       | None => is_or op
                       end) then next
              else if is_null r_val then extract_merge_ranges fuel' op binary (remove_at idx ranges) idx
              else merge b
          | Some (Range.Eq l_val as b), Range.Eq r_val =>
              if is_lt_ (partial_cmp l_val r_val) then insert
              else if is_gt_ (partial_cmp l_val r_val) then next
              else merge b
          | Some (Range.Eq l_val as b), Range.Scope r_min r_max =>
              if (match bound_compared (Included l_val) r_min true false with
                  | Some c => is_lt_ (Some c)
                  | None => is_or op
                  end) then insert
              else if is_gt_ (bound_compared (Included l_val) r_max false true) then next
              else if is_null l_val then
                extract_merge_ranges fuel' op (Some at_idx) (remove_at idx ranges) idx
              else merge b
          | Some Range.Dummy, _ =>
              match op with
              | BinaryOperator.And => Some ([], idx)
              | BinaryOperator.Or => extract_merge_ranges fuel' op (Some at_idx) (remove_at idx ranges) idx
              | _ => extract_merge_ranges fuel' op None ranges idx
              end
          | Some (Range.SortedRanges l_ranges), r_range =>
              match extract_merge_ranges fuel' op (Some r_range) l_ranges 0 with
              | Some (rs, _) => Some (rs, idx)
              | None => None
              end
          | None, _ => Some (ranges, idx)
          | _, _ => Some ([], idx)
          end
      end
  end.

Fixpoint range_size (r : Range) : nat :=
  match r with
  | Range.SortedRanges rs => S (sum_list (map range_size rs))
  | _ => 1
  end.

(** More than the iterations of the loop ([extract_or], [extract_and_flat]). *)
Definition extract_fuel (binary : Range) (ranges : list Range) : nat :=
  S (range_size binary + sum_list (map range_size ranges)).

(** [extract_merge_ranges(op, Some(binary), ranges, &mut 0)] and [ranges2range]. *)
Definition extract_from_start (op : BinaryOperator) (binary : Range) (ranges : list Range)
    : option (result (Range * Range) Range) :=
  match extract_merge_ranges (extract_fuel binary ranges) op (Some binary) ranges 0 with
  | Some (merged_ranges, _) => Some (Ok (ranges2range merged_ranges))
  | None => None
  end.

(** [for left_range in left_ranges]: the position is kept across ranges. *)
Fixpoint extract_all (op : BinaryOperator) (left_ranges right_ranges : list Range) (idx : nat)
    : option (list Range) :=
  match left_ranges with
  | [] => Some right_ranges
  | left_range :: rest =>
      match extract_merge_ranges (extract_fuel left_range right_ranges) op (Some left_range) right_ranges idx with
      | Some (right_ranges, idx) => extract_all op rest right_ranges idx
      | None => None
      end
  end.

Definition merge_binary (op : BinaryOperator) (left_binary right_binary : Range)
    : option (result (Range * Range) Range) :=
  match left_binary, right_binary with
  | Range.Dummy, _ | _, Range.Dummy => merge_flat op left_binary right_binary
  | Range.Scope min max, Range.SortedRanges ranges =>
      if bounds_have_parameter [min; max] || existsb range_has_parameter ranges
      then Some (Err (left_binary, right_binary))
      else extract_from_start op left_binary ranges
  | Range.SortedRanges ranges, Range.Scope min max =>
      if bounds_have_parameter [min; max] || existsb range_has_parameter ranges
      then Some (Err (left_binary, right_binary))
      else extract_from_start op right_binary ranges
  | Range.Eq eq, Range.SortedRanges ranges =>
      if has_parameter eq || existsb range_has_parameter ranges
      then Some (Err (left_binary, right_binary))
      else extract_from_start op left_binary ranges
  | Range.SortedRanges ranges, Range.Eq eq =>
      if has_parameter eq || existsb range_has_parameter ranges
      then Some (Err (left_binary, right_binary))
      else extract_from_start op right_binary ranges
  | Range.SortedRanges left_ranges, Range.SortedRanges right_ranges =>
      if existsb range_has_parameter left_ranges || existsb range_has_parameter right_ranges
      then Some (Err (left_binary, right_binary))
      else
        match extract_all op left_ranges right_ranges 0 with
        | Some ranges => Some (Ok (ranges2range ranges))
        | None => None
        end
  | _, _ => merge_flat op left_binary right_binary
  end.
End Merge.

(** * The range of one comparison *)

(** [new_range] on a column that the detacher looks for ([matches_column]);
    [cast] is [DataValue::cast] to the type of the column. *)
Definition new_range (matches_column nullable : bool) (cast : DataValue -> res DataValue)
    (op : BinaryOperator) (val : DataValue) (is_flip : bool) : res (option Range) :=
  if negb matches_column then Ok None
  else if is_null val then
    Ok (match op with
        | BinaryOperator.Spaceship => Some (Range.Eq DataValue.Null)
        | BinaryOperator.Eq | BinaryOperator.NotEq | BinaryOperator.Gt | BinaryOperator.Lt
        | BinaryOperator.GtEq | BinaryOperator.LtEq => Some Range.Dummy
        | _ => None
        end)
  else
    let? val := cast val in
    let op :=
      if is_flip then
        match op with
        | BinaryOperator.Gt => BinaryOperator.Lt
        | BinaryOperator.Lt => BinaryOperator.Gt
        | BinaryOperator.GtEq => BinaryOperator.LtEq
        | BinaryOperator.LtEq => BinaryOperator.GtEq
        | source_op => source_op
        end
      else op in
    let max := if nullable then Excluded DataValue.Null else Unbounded in
    Ok (match op with
        | BinaryOperator.Gt => Some (Range.Scope (Excluded val) max)
        | BinaryOperator.Lt => Some (Range.Scope Unbounded (Excluded val))
        | BinaryOperator.GtEq => Some (Range.Scope (Included val) max)
        | BinaryOperator.LtEq => Some (Range.Scope Unbounded (Included val))
        | BinaryOperator.Eq | BinaryOperator.Spaceship => Some (Range.Eq val)
        | _ => None
        end).

(** * Equalities on the leading columns of an index *)

Inductive TreeNode := tree_node (value : option DataValue) (children : list TreeNode).

(** [build_tree] from the level of the first range given, with the value
    list of [EqRangeInput::get]; [None] where the code returns [None]. *)
Definition eq_value (child : Range) : option DataValue :=
  match child with Range.Eq value => Some value | _ => None end.

Definition eq_item (range : Range) : option (list DataValue) :=
  match range with
  | Range.Eq value => Some [value]
  | Range.SortedRanges children => mapM eq_value children
  | _ => None
  end.

Definition children_of (node : TreeNode) : list TreeNode :=
  match node with tree_node _ children => children end.

Fixpoint build_tree (ranges : list Range) : option TreeNode :=
  match ranges with
  | [] => Some (tree_node None [])
  | range :: rest =>
      match eq_item range with
      | None => None
      | Some vals =>
          let build_subtree (val : DataValue) : option TreeNode :=
            match build_tree rest with
            | None => None
            | Some subtree =>
                let is_last := match rest with [] => true | _ => false end in
                Some (tree_node (Some val)
                  (if negb (match children_of subtree with [] => true | _ => false end) || is_last
                   then [subtree] else []))
            end in
          match mapM build_subtree vals with
          | Some children => Some (tree_node None children)
          | None => None
          end
      end
  end.

(** [TreeNode::enumeration] of a node whose value has been taken, as it is in
    every call: the root has none, and a child's is moved to the path first. *)
Fixpoint enumeration (self : TreeNode) (path : list DataValue) : list (list DataValue) :=
  match self with
  | tree_node _ [] => [path]
  | tree_node _ children =>
      (fix go (children : list TreeNode) : list (list DataValue) :=
         match children with
         | [] => []
         | child :: rest =>
             enumeration child
               (match child with
                | tree_node (Some val) _ => path ++ [val]
                | tree_node None _ => path
                end) ++ go rest
         end) children
  end.

Definition merge_value (tuple : list DataValue) (value : DataValue) : DataValue :=
  DataValue.Tuple (tuple ++ [value]).

Definition merge_value_on_bound (tuple : list DataValue) (bound : Bound DataValue) : Bound DataValue :=
  match bound with
  | Included v => Included (merge_value tuple v)
  | Excluded v => Excluded (merge_value tuple v)
  | Unbounded =>
      match tuple with
      | [] => Unbounded
      | values => Included (DataValue.Tuple values)
      end
  end.

Fixpoint collect_tuple_range (tuple : list DataValue) (range : Range) : list Range :=
  match range with
  | Range.Scope min max => [Range.Scope (merge_value_on_bound tuple min) (merge_value_on_bound tuple max)]
  | Range.Eq v => [Range.Eq (merge_value tuple v)]
  | Range.Dummy => [Range.Dummy]
  | Range.SortedRanges ranges => concat (map (collect_tuple_range tuple) ranges)
  end.

Definition combining_eqs (self : Range) (eqs : list Range) : option Range :=
  match build_tree eqs with
  | None => None
  | Some node =>
      let combinations := enumeration node [] in
      Some (ranges2range (concat (map (fun tuple => collect_tuple_range tuple self) combinations)))
  end.

(** * What a range stands for *)

Section Sat.
Context {OF : OrderedFloat}.

Definition value_cmp (x v : DataValue) : option comparison := range_value_cmp x v false false.

Definition above_bound (b : Bound DataValue) (x : DataValue) : Prop :=
  match b with
  | Included v => value_cmp x v = Some Eq \/ value_cmp x v = Some Gt
  | Excluded v => value_cmp x v = Some Gt
  | Unbounded => True
  end.

Definition below_bound (b : Bound DataValue) (x : DataValue) : Prop :=
  match b with
  | Included v => value_cmp x v = Some Eq \/ value_cmp x v = Some Lt
  | Excluded v => value_cmp x v = Some Lt
  | Unbounded => True
  end.

Fixpoint range_sat (r : Range) (x : DataValue) : Prop :=
  match r with
  | Range.Scope min max => above_bound min x /\ below_bound max x
  | Range.Eq v => value_cmp x v = Some Eq
  | Range.Dummy => False
  | Range.SortedRanges rs =>
      (fix any (rs : list Range) : Prop :=
         match rs with [] => False | r :: rs' => range_sat r x \/ any rs' end) rs
  end.

Definition any_sat (rs : list Range) (x : DataValue) : Prop := Exists (fun r => range_sat r x) rs.

Lemma range_sat_sorted (rs : list Range) (x : DataValue) :
  range_sat (Range.SortedRanges rs) x <-> any_sat rs x.
Proof.
  unfold any_sat. cbn [range_sat]. induction rs as [|r rs IH].
  - by rewrite Exists_nil.
  - by rewrite Exists_cons, IH.
Qed.

Lemma ranges2range_sat (rs : list Range) (x : DataValue) : range_sat (ranges2range rs) x <-> any_sat rs x.
Proof.
  destruct rs as [|r [|r' rs]]; cbn [ranges2range].
  - unfold any_sat. by rewrite Exists_nil.
  - unfold any_sat. rewrite Exists_cons, Exists_nil. naive_solver.
  - apply range_sat_sorted.
Qed.

(** Values of one column: of one scalar type, without parameters and NaN. *)
Definition cell (ty : LogicalType) (v : DataValue) : Prop :=
  key_value v ty /\ forall vs, v <> DataValue.Tuple vs.

Lemma cell_cmp (ty : LogicalType) (v w : DataValue) (lu ru : bool) :
  cell ty v -> cell ty w ->
  exists ev ew, memcomparable_encode v = Ok ev /\ memcomparable_encode w = Ok ew /\
    range_value_cmp v w lu ru = Some (lex_cmp ev ew).
Proof.
  intros [Kv Sv] [Kw Sw]. destruct (encodings_ordered false v w ty Kv Kw) as (ev & ew & c & E1 & E2 & Hc & He).
  exists ev, ew. split; [done|]. split; [done|]. rewrite (lex_embed_cmp _ _ _ He), <- Hc.
  unfold null_order_cmp, tuple_element_partial_cmp, range_value_cmp, partial_cmp_with_bounds.
  destruct v; try done; try (destruct w; done). by destruct (Sv values).
Qed.
End Sat.

(** * Ranks

    A comparison of finitely many values is the comparison of their ranks, so
    facts about bounds become linear arithmetic. *)

Definition lex_rank (l : list (list Z)) (x : list Z) : Z :=
  Z.of_nat (length (filter (fun y => lex_lt y x) l)).

Lemma filter_length_mono {A : Type} (P Q : A -> Prop) `{!forall x, Decision (P x)} `{!forall x, Decision (Q x)}
    (l : list A) :
  (forall x, P x -> Q x) ->
  (length (filter P l) <= length (filter Q l))%nat /\
  ((exists x, x ∈ l /\ Q x /\ ~ P x) -> (length (filter P l) < length (filter Q l))%nat).
Proof.
  intros HPQ. induction l as [|a l [IH1 IH2]]; [split; [done|intros (x & Hx & _); by apply not_elem_of_nil in Hx]|].
  rewrite !filter_cons. destruct (decide (P a)) as [Ha|Ha].
  - rewrite decide_True by auto. simpl. split; [lia|]. intros (x & Hx & Hq & Hp).
    apply elem_of_cons in Hx as [->|Hx]; [done|]. apply le_n_S, IH2. eauto.
  - destruct (decide (Q a)); simpl; split; try lia. intros (x & Hx & Hq & Hp).
    apply elem_of_cons in Hx as [->|Hx]; [done|]. apply IH2. eauto.
Qed.

Lemma lex_rank_lt (l : list (list Z)) (a b : list Z) :
  a ∈ l -> lex_lt a b -> lex_rank l a < lex_rank l b.
Proof.
  intros Ha Hab. unfold lex_rank. apply Nat2Z.inj_lt, filter_length_mono.
  - intros y Hy. by eapply lex_lt_trans.
  - exists a. split; [done|]. split; [done|]. unfold lex_lt. by rewrite lex_cmp_refl.
Qed.

Lemma lex_rank_cmp (l : list (list Z)) (a b : list Z) :
  a ∈ l -> b ∈ l -> lex_cmp a b = (lex_rank l a ?= lex_rank l b).
Proof.
  intros Ha Hb. destruct (lex_cmp a b) eqn:E; symmetry.
  - apply lex_cmp_eq in E as ->. apply Z.compare_refl.
  - by apply Z.compare_lt_iff, lex_rank_lt.
  - apply Z.compare_gt_iff, lex_rank_lt; [done|]. unfold lex_lt. by rewrite lex_cmp_antisym, E.
Qed.

Lemma lex_rank_bound (l : list (list Z)) (a : list Z) : 0 <= lex_rank l a <= Z.of_nat (length l).
Proof.
  unfold lex_rank. split; [lia|]. apply Nat2Z.inj_le. apply length_filter.
Qed.

(** ** Positions in a list *)

Lemma insert_at_perm {A : Type} (i : nat) (x : A) (l : list A) : insert_at i x l ≡ₚ x :: l.
Proof. unfold insert_at. rewrite <- (take_drop i l) at 3. by rewrite Permutation_middle. Qed.

Lemma remove_at_perm {A : Type} (i : nat) (x : A) (l : list A) :
  l !! i = Some x -> l ≡ₚ x :: remove_at i l.
Proof.
  intros H. unfold remove_at. rewrite <- (take_drop_middle l i x H) at 1. by rewrite Permutation_middle.
Qed.

Lemma any_sat_perm {OF : OrderedFloat} (l k : list Range) (x : DataValue) :
  l ≡ₚ k -> any_sat l x <-> any_sat k x.
Proof. intros H. unfold any_sat. by rewrite H. Qed.

Lemma any_sat_cons {OF : OrderedFloat} (b : Range) (l : list Range) (x : DataValue) :
  any_sat (b :: l) x <-> range_sat b x \/ any_sat l x.
Proof. apply Exists_cons. Qed.

Section Ranked.
Context {OF : OrderedFloat} (r : DataValue -> Z) (top : Z) (L : list DataValue).

(** [r] ranks the values of [L]. *)
Definition ranked : Prop :=
  0 <= top /\
  (forall v, v ∈ L -> 0 <= r v < top /\ has_parameter v = false) /\
  forall v w, v ∈ L -> w ∈ L ->
    (forall lu ru, range_value_cmp v w lu ru = Some (r v ?= r w)) /\
    (dv_eq v w = true <-> r v = r w) /\
    (is_null v = false -> is_null w = false -> partial_cmp v w = Some (r v ?= r w)).

Definition bound_in (b : Bound DataValue) : Prop :=
  match b with Included v | Excluded v => v ∈ L | Unbounded => True end.

(** The position of a value, and the cut a bound makes between positions. *)
Definition pos (x : DataValue) : Z := 3 * r x + 1.

Definition lower_cut (b : Bound DataValue) : Z :=
  match b with Included v => 3 * r v | Excluded v => 3 * r v + 2 | Unbounded => -1 end.

Definition upper_cut (b : Bound DataValue) : Z :=
  match b with Included v => 3 * r v + 2 | Excluded v => 3 * r v | Unbounded => 3 * top + 3 end.

Context (HR : ranked).

Lemma ranked_cmp (v w : DataValue) (lu ru : bool) :
  v ∈ L -> w ∈ L -> range_value_cmp v w lu ru = Some (r v ?= r w).
Proof. intros Hv Hw. destruct HR as (_ & _ & H). by apply H. Qed.

Lemma ranked_range (v : DataValue) : v ∈ L -> 0 <= r v < top.
Proof. intros Hv. destruct HR as (_ & H & _). by apply H. Qed.

Lemma ranked_no_parameter (v : DataValue) : v ∈ L -> has_parameter v = false.
Proof. intros Hv. destruct HR as (_ & H & _). by apply H. Qed.

Lemma ranked_eq (v w : DataValue) : v ∈ L -> w ∈ L -> dv_eq v w = true <-> r v = r w.
Proof. intros Hv Hw. destruct HR as (_ & _ & H). by apply H. Qed.

Lemma ranked_bound (b : Bound DataValue) : bound_in b -> bound_has_parameter b = false.
Proof. intros Hb. destruct b; cbn [bound_in bound_has_parameter] in *; by auto using ranked_no_parameter. Qed.

Lemma above_cut (b : Bound DataValue) (x : DataValue) :
  bound_in b -> x ∈ L -> above_bound b x <-> lower_cut b < pos x.
Proof.
  intros Hb Hx. pose proof (ranked_range x Hx). unfold pos.
  destruct b as [v|v|]; cbn [above_bound lower_cut bound_in] in *; unfold value_cmp; [..|lia];
    rewrite ranked_cmp by done; destruct (Z.compare_spec (r x) (r v)); split; intros; try lia;
      intuition (discriminate || auto).
Qed.

Lemma below_cut (b : Bound DataValue) (x : DataValue) :
  bound_in b -> x ∈ L -> below_bound b x <-> pos x < upper_cut b.
Proof.
  intros Hb Hx. pose proof (ranked_range x Hx). unfold pos.
  destruct b as [v|v|]; cbn [below_bound upper_cut bound_in] in *; unfold value_cmp; [..|lia];
    rewrite ranked_cmp by done; destruct (Z.compare_spec (r x) (r v)); split; intros; try lia;
      intuition (discriminate || auto).
Qed.

Lemma eq_cut (v x : DataValue) : v ∈ L -> x ∈ L -> value_cmp x v = Some Eq <-> r x = r v.
Proof.
  intros Hv Hx. unfold value_cmp. rewrite ranked_cmp by done. rewrite <- Z.compare_eq_iff.
  split; [by intros [= ->]|by intros ->].
Qed.

Ltac by_ranks :=
  repeat match goal with
  | |- context [range_value_cmp ?v ?w ?a ?b] => rewrite (ranked_cmp v w a b) by done
  end;
  repeat match goal with
  | H : ?v ∈ L |- _ => pose proof (ranked_range v H); clear H
  end;
  cbn [negb andb is_min_then_reverse fmap option_fmap option_map cmp_then CompOpp] in *;
  repeat match goal with |- context [?x ?= ?y] => destruct (Z.compare_spec x y) end;
  cbn [cmp_then] in *; try reflexivity; try lia.

Lemma lower_compared (a b : Bound DataValue) :
  bound_in a -> bound_in b -> bound_compared a b false false = Some (lower_cut a ?= lower_cut b).
Proof. intros Ha Hb. destruct a, b; cbn [bound_compared bound_in lower_cut] in *; by_ranks. Qed.

Lemma upper_compared (a b : Bound DataValue) :
  bound_in a -> bound_in b -> bound_compared a b true true = Some (upper_cut a ?= upper_cut b).
Proof. intros Ha Hb. destruct a, b; cbn [bound_compared bound_in upper_cut] in *; by_ranks. Qed.

(** ** AND of two scopes *)

Ltac cut_sat :=
  cbn [range_sat] in *;
  repeat match goal with
  | |- context [above_bound ?b ?x] => rewrite (above_cut b x) by done
  | |- context [below_bound ?b ?x] => rewrite (below_cut b x) by done
  | |- context [value_cmp ?x ?v] => rewrite (eq_cut v x) by done
  end.

(** The last step of both merges: a scope whose bounds meet is a point or empty. *)
Lemma close_scope (dummy_if_gt : bool) (min max : Bound DataValue) (x : DataValue) :
  bound_in min -> bound_in max -> x ∈ L ->
  range_sat
    (match bound_compared min max false true with
     | Some Gt => if dummy_if_gt then Range.Dummy else Range.Scope min max
     | Some Eq =>
         match min with
         | Included val => Range.Eq val
         | Excluded _ => Range.Dummy
         | Unbounded => Range.Scope Unbounded Unbounded
         end
     | _ => Range.Scope min max
     end) x <->
  lower_cut min < pos x /\ pos x < upper_cut max.
Proof.
  intros Hmin Hmax Hx. pose proof (ranked_range x Hx).
  destruct min as [v|v|], max as [w|w|]; cbn [bound_compared bound_in] in *;
    repeat match goal with
    | |- context [range_value_cmp ?v ?w ?a ?b] => rewrite (ranked_cmp v w a b) by done
    end;
    cbn [negb andb is_min_then_reverse fmap option_fmap option_map CompOpp];
    try (destruct (Z.compare_spec (r v) (r w)); cbn [cmp_then]);
    try destruct dummy_if_gt; cut_sat; cbn [lower_cut upper_cut]; unfold pos; lia.
Qed.

Lemma and_scope_sat (lmin lmax rmin rmax : Bound DataValue) (x : DataValue) :
  bound_in lmin -> bound_in lmax -> bound_in rmin -> bound_in rmax -> x ∈ L ->
  exists range, and_scope_merge lmin lmax rmin rmax = Ok range /\
    (range_sat range x <->
     range_sat (Range.Scope lmin lmax) x /\ range_sat (Range.Scope rmin rmax) x).
Proof.
  intros H1 H2 H3 H4 Hx. unfold and_scope_merge. rewrite lower_compared, upper_compared by done.
  eexists. split; [reflexivity|]. cut_sat.
  set (min := match lower_cut lmin ?= lower_cut rmin with Gt => lmin | Lt | Eq => rmin end).
  set (max := match upper_cut lmax ?= upper_cut rmax with Lt => lmax | Gt | Eq => rmax end).
  assert (bound_in min /\ lower_cut min = Z.max (lower_cut lmin) (lower_cut rmin)) as [Hmin Emin].
  { unfold min. destruct (Z.compare_spec (lower_cut lmin) (lower_cut rmin)); split; try done; lia. }
  assert (bound_in max /\ upper_cut max = Z.min (upper_cut lmax) (upper_cut rmax)) as [Hmax Emax].
  { unfold max. destruct (Z.compare_spec (upper_cut lmax) (upper_cut rmax)); split; try done; lia. }
  rewrite (close_scope true min max x Hmin Hmax Hx), Emin, Emax. lia.
Qed.

(** ** OR of two scopes *)

(** The upper bound and the lower bound exclude the same value. *)
Definition leaves_gap (upper lower : Bound DataValue) : Prop :=
  match upper, lower with
  | Excluded v, Excluded w => value_cmp v w = Some Eq
  | _, _ => False
  end.

Lemma cuts_ne_pos (b : Bound DataValue) (x : DataValue) :
  bound_in b -> x ∈ L -> lower_cut b <> pos x /\ upper_cut b <> pos x.
Proof.
  intros Hb Hx. pose proof (ranked_range x Hx). unfold pos. destruct b; cbn [lower_cut upper_cut]; lia.
Qed.

Lemma upper_lower_compared (a b : Bound DataValue) :
  bound_in a -> bound_in b -> ~ leaves_gap a b ->
  if is_lt_ (bound_compared a b true false) then upper_cut a <= lower_cut b else lower_cut b <= upper_cut a.
Proof.
  intros Ha Hb. pose proof (proj1 HR). destruct a as [v|v|], b as [w|w|];
    cbn [bound_compared bound_in leaves_gap] in *;
    unfold value_cmp;
    repeat match goal with
    | |- context [range_value_cmp ?v ?w ?a ?b] => rewrite (ranked_cmp v w a b) by done
    | H : ?v ∈ L |- _ => pose proof (ranked_range v H); clear H
    end;
    cbn [negb andb is_min_then_reverse fmap option_fmap option_map CompOpp];
    try (destruct (Z.compare_spec (r v) (r w)); cbn [cmp_then]); cbn [is_lt_ lower_cut upper_cut];
    intros Hg; try lia; by destruct Hg.
Qed.

Lemma or_scope_sat (lmin lmax rmin rmax : Bound DataValue) (x : DataValue) :
  bound_in lmin -> bound_in lmax -> bound_in rmin -> bound_in rmax -> x ∈ L ->
  ~ leaves_gap lmax rmin -> ~ leaves_gap rmax lmin ->
  range_sat (or_scope_merge lmin lmax rmin rmax) x <->
  range_sat (Range.Scope lmin lmax) x \/ range_sat (Range.Scope rmin rmax) x.
Proof.
  intros H1 H2 H3 H4 Hx G1 G2. unfold or_scope_merge.
  pose proof (upper_lower_compared lmax rmin H2 H3 G1) as C1.
  pose proof (upper_lower_compared rmax lmin H4 H1 G2) as C2.
  destruct (is_lt_ (bound_compared lmax rmin true false)); cbn [orb];
    [destruct (is_lt_ (bound_compared lmin rmin false false)); cbn [range_sat]; tauto|].
  destruct (is_lt_ (bound_compared rmax lmin true false));
    [destruct (is_lt_ (bound_compared lmin rmin false false)); cbn [range_sat]; tauto|].
  rewrite lower_compared, upper_compared by done.
  set (min := if is_lt_ (Some (lower_cut lmin ?= lower_cut rmin)) then lmin else rmin).
  set (max := if is_gt_ (Some (upper_cut lmax ?= upper_cut rmax)) then lmax else rmax).
  assert (bound_in min /\ lower_cut min = Z.min (lower_cut lmin) (lower_cut rmin)) as [Hmin Emin].
  { unfold min. destruct (Z.compare_spec (lower_cut lmin) (lower_cut rmin)); cbn [is_lt_]; split; try done; lia. }
  assert (bound_in max /\ upper_cut max = Z.max (upper_cut lmax) (upper_cut rmax)) as [Hmax Emax].
  { unfold max. destruct (Z.compare_spec (upper_cut lmax) (upper_cut rmax)); cbn [is_gt_]; split; try done; lia. }
  pose proof (close_scope false min max x Hmin Hmax Hx) as Hclose.
  assert (forall c a b, (match c with Some Gt => if false then Range.Dummy else a | Some Eq => b | _ => a end)
    = match c with Some Eq => b | _ => a end) as Hm by (by intros [[]|]).
  rewrite Hm in Hclose. rewrite Hclose, Emin, Emax. cut_sat.
  pose proof (cuts_ne_pos lmin x H1 Hx). pose proof (cuts_ne_pos lmax x H2 Hx).
  pose proof (cuts_ne_pos rmin x H3 Hx). pose proof (cuts_ne_pos rmax x H4 Hx). lia.
Qed.

(** ** Flat ranges *)

Definition flat_in (range : Range) : Prop :=
  match range with
  | Range.Scope min max => bound_in min /\ bound_in max
  | Range.Eq v => v ∈ L
  | Range.Dummy => True
  | Range.SortedRanges _ => False
  end.

Lemma no_parameters (min max : Bound DataValue) (eq : DataValue) :
  bound_in min -> bound_in max -> eq ∈ L -> bounds_have_parameter [min; max] || has_parameter eq = false.
Proof.
  intros H1 H2 H3. unfold bounds_have_parameter. cbn [existsb].
  by rewrite !ranked_bound, ranked_no_parameter.
Qed.

(** A point against a scope, under AND. *)
Lemma and_scope_eq_sat (min max : Bound DataValue) (eq x : DataValue) :
  bound_in min -> bound_in max -> eq ∈ L -> x ∈ L ->
  exists range, merge_scope_eq And min max eq = Ok range /\ flat_in range /\
    (range_sat range x <-> range_sat (Range.Scope min max) x /\ range_sat (Range.Eq eq) x).
Proof.
  intros H1 H2 H3 Hx. unfold merge_scope_eq. rewrite no_parameters by done.
  rewrite lower_compared, upper_compared by done.
  assert (is_lt_ (Some (lower_cut (Included eq) ?= lower_cut min)) ||
    is_gt_ (Some (upper_cut (Included eq) ?= upper_cut max)) = true <->
    ~ (lower_cut min < pos eq /\ pos eq < upper_cut max)) as Hout.
  { pose proof (ranked_range eq H3). unfold pos. cbn [lower_cut upper_cut].
    destruct (Z.compare_spec (3 * r eq) (lower_cut min)), (Z.compare_spec (3 * r eq + 2) (upper_cut max));
      cbn [is_lt_ is_gt_ orb]; destruct min, max; cbn [lower_cut upper_cut] in *; split; try done; lia. }
  destruct (is_lt_ _ || is_gt_ _); eexists; (split; [reflexivity|]); split; try done; cut_sat.
  - assert (~ (lower_cut min < pos eq /\ pos eq < upper_cut max)) as Hn by (by apply Hout).
    split; [done|]. intros [Hs He]. apply Hn. unfold pos in *. by rewrite <- He.
  - assert (lower_cut min < pos eq /\ pos eq < upper_cut max) as Hy by (destruct Hout; lia || tauto).
    unfold pos in *. split; [intros ->; tauto|tauto].
Qed.

(** ** OR, where nothing is excluded twice

    [XL] and [XU] are the values lower and upper bounds may exclude; they do
    not meet. Scopes are in order, and nulls are not selected by equality. *)

Context (XL XU : DataValue -> Prop).
Context (HX : forall v w, v ∈ L -> w ∈ L -> XL v -> XU w -> r v <> r w).

Definition lower_fits (b : Bound DataValue) : Prop :=
  match b with
  | Included v => v ∈ L /\ is_null v = false
  | Excluded v => v ∈ L /\ XL v
  | Unbounded => True
  end.

Definition upper_fits (b : Bound DataValue) : Prop :=
  match b with
  | Included v => v ∈ L /\ is_null v = false
  | Excluded v => v ∈ L /\ XU v
  | Unbounded => True
  end.

Definition fits (range : Range) : Prop :=
  match range with
  | Range.Scope min max => lower_fits min /\ upper_fits max /\ lower_cut min <= upper_cut max
  | Range.Eq v => v ∈ L /\ is_null v = false
  | _ => False
  end.

Lemma lower_fits_in (b : Bound DataValue) : lower_fits b -> bound_in b.
Proof. destruct b; cbn; tauto. Qed.
Lemma upper_fits_in (b : Bound DataValue) : upper_fits b -> bound_in b.
Proof. destruct b; cbn; tauto. Qed.

Hint Resolve lower_fits_in upper_fits_in : core.

Lemma fits_no_gap (upper lower : Bound DataValue) :
  upper_fits upper -> lower_fits lower -> ~ leaves_gap upper lower.
Proof.
  destruct upper as [v|v|], lower as [w|w|]; cbn [upper_fits lower_fits leaves_gap]; try tauto.
  intros [Hv Xv] [Hw Xw]. rewrite (eq_cut w v Hw Hv). intros E. by apply (HX w v).
Qed.

(** The two ways the code asks whether a scope is after another agree. *)
Lemma lower_upper_compared (lower upper : Bound DataValue) :
  bound_in lower -> bound_in upper ->
  is_gt_ (bound_compared lower upper false true) = is_lt_ (bound_compared upper lower true false).
Proof.
  intros H1 H2. destruct lower as [v|v|], upper as [w|w|]; cbn [bound_compared bound_in] in *;
    repeat match goal with
    | |- context [range_value_cmp ?v ?w ?a ?b] => rewrite (ranked_cmp v w a b) by done
    end;
    cbn [negb andb is_min_then_reverse fmap option_fmap option_map CompOpp]; try done;
    rewrite (Z.compare_antisym (r v) (r w)); by destruct (r v ?= r w).
Qed.

(** Two scopes that touch merge into their hull. *)
Lemma or_scope_fits (lmin lmax rmin rmax : Bound DataValue) :
  fits (Range.Scope lmin lmax) -> fits (Range.Scope rmin rmax) ->
  is_lt_ (bound_compared lmax rmin true false) = false ->
  is_gt_ (bound_compared lmin rmax false true) = false ->
  fits (or_scope_merge lmin lmax rmin rmax).
Proof.
  intros (F1 & F2 & O1) (F3 & F4 & O2) E1 E2. unfold or_scope_merge.
  rewrite lower_upper_compared in E2 by auto. rewrite E1, E2. cbn [orb].
  rewrite lower_compared, upper_compared by auto.
  set (min := if is_lt_ (Some (lower_cut lmin ?= lower_cut rmin)) then lmin else rmin).
  set (max := if is_gt_ (Some (upper_cut lmax ?= upper_cut rmax)) then lmax else rmax).
  assert (lower_fits min /\ upper_fits max /\ lower_cut min <= upper_cut max) as (Fmin & Fmax & Omin).
  { unfold min, max. destruct (Z.compare_spec (lower_cut lmin) (lower_cut rmin)),
      (Z.compare_spec (upper_cut lmax) (upper_cut rmax)); cbn [is_lt_ is_gt_]; repeat split; try done; lia. }
  clearbody min max. clear -HR Fmin Fmax Omin HX.
  destruct (bound_compared min max false true) as [[]|] eqn:Eb; try done.
  destruct min as [v|v|]; cbn [fits]; [apply Fmin| |cbn; split; [done|split; [done|]]].
  - destruct max as [w|w|]; cbn [bound_compared lower_fits upper_fits lower_cut upper_cut] in *; try done;
      rewrite ranked_cmp in Eb by tauto; cbn in Eb; destruct (Z.compare_spec (r v) (r w)); try done; lia.
  - destruct HR. lia.
Qed.

Lemma fits_flat (range : Range) : fits range -> flat_in range.
Proof. destruct range; cbn; intuition auto. Qed.

Lemma fits_no_parameter (range : Range) : fits range -> range_has_parameter range = false.
Proof.
  destruct range as [min max|v| |]; cbn [fits range_has_parameter existsb]; try done.
  - intros (F1 & F2 & _). by rewrite !ranked_bound by auto.
  - intros [Hv _]. by apply ranked_no_parameter.
Qed.

(** A point that a bound excludes is included by the merge. *)
Lemma process_exclude (b : Bound DataValue) (eq : DataValue) (v : DataValue) :
  b = Excluded v -> v ∈ L -> eq ∈ L -> r v = r eq -> process_exclude_bound_with_eq b eq Or = Included v.
Proof.
  intros -> Hv He E. unfold process_exclude_bound_with_eq.
  by rewrite (proj2 (ranked_eq v eq Hv He) E).
Qed.

Lemma ranked_null (v w : DataValue) : v ∈ L -> w ∈ L -> r v = r w -> is_null w = false -> is_null v = false.
Proof.
  intros Hv Hw E Hn. pose proof (ranked_cmp v w false false Hv Hw) as Hc.
  rewrite E, Z.compare_refl in Hc. destruct v; try done. by destruct w.
Qed.

(** A point that is not strictly outside a scope, under OR. *)
Lemma or_scope_eq_fits (min max : Bound DataValue) (eq : DataValue) :
  fits (Range.Scope min max) -> fits (Range.Eq eq) ->
  lower_cut min <= 3 * r eq + 2 -> 3 * r eq <= upper_cut max ->
  exists min' max', merge_scope_eq Or min max eq = Ok (Range.Scope min' max') /\
    fits (Range.Scope min' max') /\
    forall x, x ∈ L ->
      range_sat (Range.Scope min' max') x <-> range_sat (Range.Scope min max) x \/ range_sat (Range.Eq eq) x.
Proof.
  intros (F1 & F2 & Ho) (He & Hn) Hlo Hhi. unfold merge_scope_eq.
  rewrite no_parameters by auto. cbn [is_or]. rewrite Hn.
  rewrite lower_compared, upper_compared by auto. cbn [lower_cut upper_cut].
  destruct (Z.compare_spec (3 * r eq + 2) (lower_cut min)) as [E|E|E]; [|lia|].
  - destruct min as [v|v|]; cbn [lower_cut lower_fits] in *; [lia| |pose proof (ranked_range eq He); lia].
    destruct F1 as [Hv Xv]. assert (r v = r eq) as Ev by lia. rewrite (process_exclude _ _ v) by done.
    pose proof (ranked_null v eq Hv He Ev Hn). eexists _, _. split; [reflexivity|]. split.
    + split; [done|]. split; [done|]. cbn [lower_cut]. lia.
    + intros x Hx. pose proof (cuts_ne_pos max x (upper_fits_in _ F2) Hx). cbn [range_sat].
      rewrite !above_cut, !below_cut, eq_cut by (done || auto). cbn [lower_cut]. unfold pos in *. lia.
  - destruct (Z.compare_spec (3 * r eq) (upper_cut max)) as [E'|E'|E']; [| |lia].
    + destruct max as [w|w|]; cbn [upper_cut upper_fits] in *; [lia| |pose proof (ranked_range eq He); lia].
      destruct F2 as [Hw Xw]. assert (r w = r eq) as Ew by lia. rewrite (process_exclude _ _ w) by done.
      pose proof (ranked_null w eq Hw He Ew Hn). eexists _, _. split; [reflexivity|]. split.
      * split; [done|]. split; [done|]. cbn [upper_cut]. lia.
      * intros x Hx. pose proof (cuts_ne_pos min x (lower_fits_in _ F1) Hx). cbn [range_sat].
        rewrite !above_cut, !below_cut, eq_cut by (done || auto). cbn [upper_cut]. unfold pos in *. lia.
    + eexists _, _. split; [reflexivity|]. split; [done|]. intros x Hx. cbn [range_sat].
      pose proof (cuts_ne_pos min eq (lower_fits_in _ F1) He). pose proof (cuts_ne_pos max eq (upper_fits_in _ F2) He).
      rewrite !above_cut, !below_cut, eq_cut by (done || auto). unfold pos in *. split; [tauto|].
      intros [?|E'']; [done|]. rewrite E''. destruct min, max; cbn [lower_cut upper_cut] in *; lia.
Qed.

(** [b] and [a] merge under OR into one range that fits. *)
Definition or_merges (b a : Range) : Prop :=
  exists m, merged Or b a = Some m /\ fits m /\
    forall x, x ∈ L -> range_sat m x <-> range_sat b x \/ range_sat a x.

Lemma or_scope_merges (lmin lmax rmin rmax : Bound DataValue) :
  fits (Range.Scope lmin lmax) -> fits (Range.Scope rmin rmax) ->
  is_lt_ (bound_compared lmax rmin true false) = false ->
  is_gt_ (bound_compared lmin rmax false true) = false ->
  or_merges (Range.Scope lmin lmax) (Range.Scope rmin rmax).
Proof.
  intros Fl Fr E1 E2. pose proof Fl as (F1 & F2 & _). pose proof Fr as (F3 & F4 & _).
  exists (or_scope_merge lmin lmax rmin rmax). split; [|split].
  - unfold merged. cbn [merge_flat]. unfold bounds_have_parameter. cbn [existsb].
    by rewrite !ranked_bound by auto.
  - by apply or_scope_fits.
  - intros x Hx. apply or_scope_sat; auto; by apply fits_no_gap.
Qed.

(** What the code's tests on a point say about cuts. *)
Lemma point_compared (b : Bound DataValue) (e : DataValue) :
  bound_in b -> e ∈ L ->
  (is_lt_ (bound_compared b (Included e) true false) = false -> 3 * r e <= upper_cut b) /\
  (is_gt_ (bound_compared b (Included e) false true) = false -> lower_cut b <= 3 * r e + 2) /\
  (is_lt_ (bound_compared (Included e) b true false) = false -> lower_cut b <= 3 * r e + 2) /\
  (is_gt_ (bound_compared (Included e) b false true) = false -> 3 * r e <= upper_cut b).
Proof.
  intros Hb He. pose proof (ranked_range e He). destruct HR as (Htop & _).
  destruct b as [v|v|]; cbn [bound_compared bound_in] in *;
    repeat match goal with
    | |- context [range_value_cmp ?v ?w ?a ?b] => rewrite (ranked_cmp v w a b) by done
    end;
    cbn [negb andb is_min_then_reverse fmap option_fmap option_map CompOpp lower_cut upper_cut];
    [..|cbn; repeat split; intros; lia];
    rewrite (Z.compare_antisym (r v) (r e)); destruct (Z.compare_spec (r v) (r e));
    cbn [cmp_then is_lt_ is_gt_ CompOpp]; repeat split; intros; try done; lia.
Qed.

Lemma or_scope_eq_merges (min max : Bound DataValue) (eq : DataValue) :
  fits (Range.Scope min max) -> fits (Range.Eq eq) ->
  lower_cut min <= 3 * r eq + 2 -> 3 * r eq <= upper_cut max ->
  or_merges (Range.Scope min max) (Range.Eq eq) /\ or_merges (Range.Eq eq) (Range.Scope min max).
Proof.
  intros F1 F2 H1 H2. destruct (or_scope_eq_fits min max eq F1 F2 H1 H2) as (min' & max' & E & F & S).
  split; exists (Range.Scope min' max'); unfold merged; cbn [merge_flat]; rewrite E;
    (split; [done|split; [done|]]); intros x Hx; rewrite S by done; tauto.
Qed.

Lemma or_eq_merges (v w : DataValue) :
  fits (Range.Eq v) -> fits (Range.Eq w) -> is_lt_ (partial_cmp v w) = false ->
  is_gt_ (partial_cmp v w) = false -> or_merges (Range.Eq v) (Range.Eq w).
Proof.
  intros [Hv Nv] [Hw Nw]. destruct HR as (_ & _ & H). destruct (H v w Hv Hw) as (_ & Heq & Hc).
  rewrite (Hc Nv Nw). destruct (Z.compare_spec (r v) (r w)) as [E| |]; try done. intros _ _.
  exists (Range.Eq v). unfold merged. cbn [merge_flat merge_eq_eq is_and_or].
  unfold merge_eq_eq. rewrite (proj2 Heq E). cbn [andb is_and_or]. split; [done|]. split; [done|].
  intros x Hx. cbn [range_sat]. rewrite !eq_cut by done. rewrite E. tauto.
Qed.

Lemma bound_compared_some (a b : Bound DataValue) (au bu : bool) :
  bound_in a -> bound_in b -> exists c, bound_compared a b au bu = Some c.
Proof.
  intros Ha Hb. destruct a, b; cbn [bound_compared bound_in] in *; rewrite ?ranked_cmp by done; by eexists.
Qed.

(** The loop under OR: it ends, and what it returns is the union. *)
Lemma extract_or (fuel : nat) (b : Range) (ranges : list Range) (idx : nat) :
  fits b -> Forall fits ranges -> (length ranges - idx < fuel)%nat ->
  exists rs idx', extract_merge_ranges fuel Or (Some b) ranges idx = Some (rs, idx') /\ Forall fits rs /\
    forall x, x ∈ L -> any_sat rs x <-> range_sat b x \/ any_sat ranges x.
Proof.
  revert b ranges idx. induction fuel as [|fuel IH]; intros b ranges idx Fb Fr Hf; [lia|].
  cbn [extract_merge_ranges]. destruct (ranges !! idx) as [a|] eqn:Ea.
  2: { eexists _, _. split; [reflexivity|]. split; [by apply Forall_app; split; [|constructor]|].
       intros x _. unfold any_sat. rewrite Exists_app, Exists_cons, Exists_nil. tauto. }
  apply lookup_lt_Some in Ea as Hlt. pose proof (remove_at_perm idx a ranges Ea) as Hperm.
  assert (fits a /\ Forall fits (remove_at idx ranges)) as [Fa Fr'] by (rewrite Hperm in Fr; by apply Forall_cons_1 in Fr).
  assert (length (remove_at idx ranges) = Nat.pred (length ranges)) as Hlen by (by rewrite (Permutation_length Hperm)).
  assert (exists rs idx', Some (insert_at idx b ranges, idx) = Some (rs, idx') /\ Forall fits rs /\
    forall x, x ∈ L -> any_sat rs x <-> range_sat b x \/ any_sat ranges x) as Hins.
  { eexists _, _. split; [reflexivity|]. split; [rewrite insert_at_perm; by constructor|].
    intros x _. by rewrite (any_sat_perm _ _ x (insert_at_perm idx b ranges)), any_sat_cons. }
  assert (exists rs idx', extract_merge_ranges fuel Or (Some b) ranges (S idx) = Some (rs, idx') /\ Forall fits rs /\
    forall x, x ∈ L -> any_sat rs x <-> range_sat b x \/ any_sat ranges x) as Hnext by (apply IH; done || lia).
  assert (or_merges b a -> exists rs idx',
    extract_merge_ranges fuel Or (merged Or b a) (remove_at idx ranges) idx = Some (rs, idx') /\ Forall fits rs /\
    forall x, x ∈ L -> any_sat rs x <-> range_sat b x \/ any_sat ranges x) as Hmerge.
  { intros (m & -> & Fm & Sm). destruct (IH m (remove_at idx ranges) idx Fm Fr' ltac:(lia)) as (rs & i & E & F & S).
    exists rs, i. split; [done|]. split; [done|]. intros x Hx.
    rewrite S, Sm, (any_sat_perm _ _ x Hperm), any_sat_cons by done. tauto. }
  destruct b as [lmin lmax|l| |], a as [rmin rmax|w| |]; try done.
  - destruct (is_lt_ (bound_compared lmax rmin true false)) eqn:E1; [done|].
    destruct (is_gt_ (bound_compared lmin rmax false true)) eqn:E2; [done|]. apply Hmerge. by apply or_scope_merges.
  - destruct Fb as (F1 & F2 & Ho), Fa as (Hw & Nw).
    destruct (point_compared lmax w (upper_fits_in _ F2) Hw) as (P1 & _).
    destruct (point_compared lmin w (lower_fits_in _ F1) Hw) as (_ & P2 & _).
    destruct (bound_compared_some lmin (Included w) false true) as [c Ec]; [by auto|done|].
    rewrite Ec in P2 |- *.
    destruct (is_lt_ (bound_compared lmax (Included w) true false)); [done|].
    destruct (is_gt_ (Some c)); [done|]. rewrite Nw. apply Hmerge. apply or_scope_eq_merges; [done|done|by auto|by auto].
  - destruct Fb as (Hl & Nl), Fa as (F1 & F2 & Ho).
    destruct (point_compared rmin l (lower_fits_in _ F1) Hl) as (_ & _ & P1 & _).
    destruct (point_compared rmax l (upper_fits_in _ F2) Hl) as (_ & _ & _ & P2).
    destruct (bound_compared_some (Included l) rmin true false) as [c Ec]; [done|by auto|].
    rewrite Ec in P1 |- *. destruct (is_lt_ (Some c)); [done|].
    destruct (is_gt_ (bound_compared (Included l) rmax false true)); [done|]. rewrite Nl.
    apply Hmerge. apply or_scope_eq_merges; [done|done|by auto|by auto].
  - destruct (is_lt_ (partial_cmp l w)) eqn:E1; [done|]. destruct (is_gt_ (partial_cmp l w)) eqn:E2; [done|].
    apply Hmerge. by apply or_eq_merges.
Qed.

(** A range the planner builds: empty, flat, or a list of flat ranges. *)
Definition top_fits (range : Range) : Prop :=
  match range with
  | Range.Dummy => True
  | Range.SortedRanges rs => Forall fits rs
  | range => fits range
  end.

Lemma fits_top (range : Range) : fits range -> top_fits range.
Proof. by destruct range. Qed.

Lemma fits_pair (a b : Range) : fits a -> fits b -> top_fits (Range.SortedRanges [a; b]).
Proof. intros. by repeat constructor. Qed.

Lemma ranges2range_fits (rs : list Range) : Forall fits rs -> top_fits (ranges2range rs).
Proof.
  intros H. unfold ranges2range. destruct H as [|a rs Ha H]; [done|]. destruct H; [by apply fits_top|].
  by repeat constructor.
Qed.

Hint Resolve fits_top fits_pair : core.

Lemma or_scope_top (lmin lmax rmin rmax : Bound DataValue) :
  fits (Range.Scope lmin lmax) -> fits (Range.Scope rmin rmax) -> top_fits (or_scope_merge lmin lmax rmin rmax).
Proof.
  intros Fl Fr. pose proof Fl as (F1 & F2 & _). pose proof Fr as (F3 & F4 & _).
  destruct (is_lt_ (bound_compared lmax rmin true false)) eqn:E1;
    [|destruct (is_lt_ (bound_compared rmax lmin true false)) eqn:E2].
  3: { apply fits_top, or_scope_fits; try done. by rewrite lower_upper_compared by auto. }
  all: unfold or_scope_merge; rewrite E1, ?E2; cbn [orb]; destruct (is_lt_ (bound_compared lmin rmin false false)); by apply fits_pair.
Qed.

(** Flat operands under OR: a union in every case. *)
Lemma or_flat (b a : Range) :
  fits b -> fits a ->
  exists m, merge_binary Or b a = Some (Ok m) /\ top_fits m /\
    forall x, x ∈ L -> range_sat m x <-> range_sat b x \/ range_sat a x.
Proof.
  assert (forall min max eq, fits (Range.Scope min max) -> fits (Range.Eq eq) ->
    exists m, merge_scope_eq Or min max eq = Ok m /\ top_fits m /\
      forall x, x ∈ L -> range_sat m x <-> range_sat (Range.Scope min max) x \/ range_sat (Range.Eq eq) x) as Hse.
  { intros min max eq Fs Fe. pose proof Fs as (F1 & F2 & _). pose proof Fe as (He & Hn).
    destruct (decide (lower_cut min <= 3 * r eq + 2)), (decide (3 * r eq <= upper_cut max)).
    { destruct (or_scope_eq_fits min max eq Fs Fe) as (min' & max' & E & F & S); [done|done|]. eauto. }
    all: unfold merge_scope_eq; rewrite no_parameters by auto; cbn [is_or]; rewrite Hn;
      rewrite lower_compared, upper_compared by auto; cbn [lower_cut upper_cut];
      destruct (Z.compare_spec (3 * r eq + 2) (lower_cut min)); try lia;
      try (destruct (Z.compare_spec (3 * r eq) (upper_cut max)); try lia);
      try (exfalso; destruct Fs as (_ & _ & Ho); lia);
      eexists; (split; [reflexivity|]); (split; [by apply fits_pair|]); intros x Hx; cbn [range_sat]; tauto. }
  intros Fb Fa. destruct b as [lmin lmax|l| |], a as [rmin rmax|w| |]; try done; cbn [merge_binary merge_flat].
  - pose proof Fb as (F1 & F2 & _). pose proof Fa as (F3 & F4 & _).
    unfold bounds_have_parameter. cbn [existsb]. rewrite !ranked_bound by auto. eexists. split; [reflexivity|].
    split; [by apply or_scope_top|]. intros x Hx. apply or_scope_sat; auto; by apply fits_no_gap.
  - destruct (Hse lmin lmax w Fb Fa) as (m & -> & F & S). eauto.
  - destruct (Hse rmin rmax l Fa Fb) as (m & -> & F & S). exists m. split; [done|]. split; [done|].
    intros x Hx. rewrite S by done. tauto.
  - destruct Fb as [Hl Nl], Fa as [Hw Nw]. unfold merge_eq_eq.
    pose proof (ranked_eq l w Hl Hw) as Heq. rewrite !ranked_no_parameter by done. cbn [is_and_or].
    destruct (dv_eq l w); cbn [andb orb].
    + eexists. split; [reflexivity|]. split; [done|]. intros x Hx. cbn [range_sat]. rewrite !eq_cut by done.
      destruct Heq as [Heq _]. rewrite (Heq eq_refl). tauto.
    + eexists. split; [reflexivity|]. split; [by destruct (is_gt_ (partial_cmp l w)); apply fits_pair|].
      intros x Hx. destruct (is_gt_ (partial_cmp l w)); cbn [range_sat]; tauto.
Qed.

Lemma size_pos (range : Range) : (0 < range_size range)%nat.
Proof. destruct range; cbn; lia. Qed.

Lemma sizes_length (ranges : list Range) : (length ranges <= sum_list (map range_size ranges))%nat.
Proof.
  induction ranges as [|a ranges IH]; [done|]. cbn. pose proof (size_pos a). lia.
Qed.

Lemma extract_fuel_enough (b : Range) (ranges : list Range) (idx : nat) :
  (length ranges - idx < extract_fuel b ranges)%nat.
Proof. unfold extract_fuel. pose proof (sizes_length ranges). pose proof (size_pos b). lia. Qed.

Lemma extract_start_or (b : Range) (ranges : list Range) :
  fits b -> Forall fits ranges ->
  exists m, extract_from_start Or b ranges = Some (Ok m) /\ top_fits m /\
    forall x, x ∈ L -> range_sat m x <-> range_sat b x \/ range_sat (Range.SortedRanges ranges) x.
Proof.
  intros Fb Fr. unfold extract_from_start.
  destruct (extract_or (extract_fuel b ranges) b ranges 0 Fb Fr (extract_fuel_enough _ _ _)) as (rs & i & -> & F & S).
  eexists. split; [reflexivity|]. split; [by apply ranges2range_fits|]. intros x Hx. by rewrite ranges2range_sat, range_sat_sorted, S.
Qed.

Lemma extract_all_or (ls rs : list Range) (idx : nat) :
  Forall fits ls -> Forall fits rs ->
  exists ms, extract_all Or ls rs idx = Some ms /\ Forall fits ms /\
    forall x, x ∈ L -> any_sat ms x <-> any_sat ls x \/ any_sat rs x.
Proof.
  intros Fl. revert rs idx. induction Fl as [|l ls Hl Fl IH]; intros rs idx Fr; cbn [extract_all].
  - exists rs. split; [done|]. split; [done|]. intros x _. unfold any_sat. rewrite Exists_nil. tauto.
  - destruct (extract_or (extract_fuel l rs) l rs idx Hl Fr (extract_fuel_enough _ _ _)) as (rs' & i & -> & F & S).
    destruct (IH rs' i F) as (ms & -> & Fm & Sm). exists ms. split; [done|]. split; [done|]. intros x Hx.
    rewrite Sm, S, any_sat_cons by done. tauto.
Qed.

Lemma sorted_no_parameter (rs : list Range) : Forall fits rs -> existsb range_has_parameter rs = false.
Proof. induction 1 as [|a rs Ha _ IH]; [done|]. cbn [existsb]. by rewrite fits_no_parameter, IH. Qed.

Lemma merge_or_sat (l a : Range) :
  top_fits l -> top_fits a ->
  exists m, merge_binary Or l a = Some (Ok m) /\ top_fits m /\
    forall x, x ∈ L -> range_sat m x <-> range_sat l x \/ range_sat a x.
Proof.
  intros Fl Fa.
  assert (forall min max, fits (Range.Scope min max) -> bounds_have_parameter [min; max] = false) as Hbp.
  { intros min max F. by apply (fits_no_parameter (Range.Scope min max)). }
  assert (forall v, fits (Range.Eq v) -> has_parameter v = false) as Hep.
  { intros v F. by apply (fits_no_parameter (Range.Eq v)). }
  destruct l as [lmin lmax|v| |ls], a as [rmin rmax|w| |rs];
    try (by apply or_flat); cbn [merge_binary merge_flat top_fits] in *;
    try (eexists; split; [reflexivity|]; split; [done|]; intros x _; cbn [range_sat]; tauto);
    rewrite ?Hbp, ?Hep, ?sorted_no_parameter by done; cbn [orb];
    try (by apply extract_start_or).
  - destruct (extract_start_or (Range.Scope rmin rmax) ls Fa Fl) as (m & -> & F & S).
    exists m. split; [done|]. split; [done|]. intros x Hx. rewrite S by done. tauto.
  - destruct (extract_start_or (Range.Eq w) ls Fa Fl) as (m & -> & F & S).
    exists m. split; [done|]. split; [done|]. intros x Hx. rewrite S by done. tauto.
  - destruct (extract_all_or ls rs 0 Fl Fa) as (ms & -> & F & S). eexists. split; [reflexivity|].
    split; [by apply ranges2range_fits|]. intros x Hx. by rewrite ranges2range_sat, !range_sat_sorted, S.
Qed.

(** ** AND of fitting flat ranges fits, or is empty *)

Definition flat_fits (range : Range) : Prop := range = Range.Dummy \/ fits range.

Lemma flat_fits_top (range : Range) : flat_fits range -> top_fits range.
Proof. intros [->|H]; [done|by apply fits_top]. Qed.

Lemma close_fits (min max : Bound DataValue) :
  lower_fits min -> upper_fits max ->
  flat_fits
    (match bound_compared min max false true with
     | Some Gt => Range.Dummy
     | Some Eq =>
         match min with
         | Included val => Range.Eq val
         | Excluded _ => Range.Dummy
         | Unbounded => Range.Scope Unbounded Unbounded
         end
     | _ => Range.Scope min max
     end).
Proof.
  intros Hmin Hmax. pose proof (proj1 HR) as Ht.
  assert (bound_in min /\ bound_in max) as [Imin Imax] by auto.
  destruct min as [v|v|], max as [w|w|]; cbn [bound_compared bound_in] in *;
    repeat match goal with
    | |- context [range_value_cmp ?v ?w ?a ?b] => rewrite (ranked_cmp v w a b) by done
    end;
    repeat match goal with H : ?v ∈ L |- _ => pose proof (ranked_range v H); clear H end;
    cbn [negb andb is_min_then_reverse fmap option_fmap option_map CompOpp];
    try (destruct (Z.compare_spec (r v) (r w)); cbn [cmp_then]);
    first [by left | right; split; [done|split; [done|cbn [lower_cut upper_cut]; lia]] | right; done].
Qed.

Lemma and_scope_fits (lmin lmax rmin rmax : Bound DataValue) range :
  fits (Range.Scope lmin lmax) -> fits (Range.Scope rmin rmax) ->
  and_scope_merge lmin lmax rmin rmax = Ok range -> flat_fits range.
Proof.
  intros (F1 & F2 & _) (F3 & F4 & _). unfold and_scope_merge. rewrite lower_compared, upper_compared by auto.
  intros E. apply Ok_inj in E. subst range. apply close_fits.
  - by destruct (lower_cut lmin ?= lower_cut rmin).
  - by destruct (upper_cut lmax ?= upper_cut rmax).
Qed.

Lemma and_scope_eq_fits (min max : Bound DataValue) (eq : DataValue) range :
  fits (Range.Scope min max) -> fits (Range.Eq eq) ->
  merge_scope_eq And min max eq = Ok range -> flat_fits range.
Proof.
  intros (F1 & F2 & _) [He Hn]. unfold merge_scope_eq. rewrite no_parameters by auto. cbn [is_or].
  intros E. match type of E with (if ?c then _ else _) = _ => destruct c end; apply Ok_inj in E; subst range; [by left|by right].
Qed.

Lemma and_flat_fits (b a : Range) :
  flat_fits b -> flat_fits a ->
  exists m, merge_binary And b a = Some (Ok m) /\ flat_fits m /\
    forall x, x ∈ L -> range_sat m x <-> range_sat b x /\ range_sat a x.
Proof.
  assert (forall min max eq, fits (Range.Scope min max) -> fits (Range.Eq eq) ->
    exists m, merge_scope_eq And min max eq = Ok m /\ flat_fits m /\
      forall x, x ∈ L -> range_sat m x <-> range_sat (Range.Scope min max) x /\ range_sat (Range.Eq eq) x) as Hse.
  { intros min max eq Fs Fe. pose proof Fs as (F1 & F2 & _). pose proof Fe as (He & _).
    destruct (and_scope_eq_sat min max eq eq) as (m & E & _ & _); auto.
    exists m. split; [done|]. split; [by apply (and_scope_eq_fits min max eq)|]. intros x Hx.
    destruct (and_scope_eq_sat min max eq x) as (m' & E' & _ & S); auto. rewrite E in E'. by simplify_eq. }
  intros [->|Fb] Fa.
  { exists Range.Dummy. split; [by destruct a|]. split; [by left|]. cbn. tauto. }
  destruct Fa as [->|Fa].
  { exists Range.Dummy. split; [by destruct b|]. split; [by left|]. cbn. tauto. }
  destruct b as [lmin lmax|l| |], a as [rmin rmax|w| |]; try done; cbn [merge_binary merge_flat].
  - pose proof Fb as (F1 & F2 & _). pose proof Fa as (F3 & F4 & _).
    destruct (bound_compared_some lmin rmin false false) as [c1 C1]; auto.
    destruct (bound_compared_some lmax rmax true true) as [c2 C2]; auto.
    destruct (and_scope_merge lmin lmax rmin rmax) as [m|e] eqn:E.
    2: { unfold and_scope_merge in E. by rewrite C1, C2 in E. }
    exists m. split; [done|]. split; [by apply (and_scope_fits lmin lmax rmin rmax)|]. intros x Hx.
    destruct (and_scope_sat lmin lmax rmin rmax x) as (m' & E' & S); auto. rewrite E in E'. by simplify_eq.
  - destruct (Hse lmin lmax w Fb Fa) as (m & -> & F & S). eauto.
  - destruct (Hse rmin rmax l Fa Fb) as (m & -> & F & S). exists m. split; [done|]. split; [done|].
    intros x Hx. rewrite S by done. tauto.
  - destruct Fb as [Hl Nl], Fa as [Hw Nw]. unfold merge_eq_eq.
    pose proof (ranked_eq l w Hl Hw) as Heq. rewrite !ranked_no_parameter by done. cbn [is_and_or].
    destruct (dv_eq l w); cbn [andb orb].
    + eexists. split; [reflexivity|]. split; [by right|]. intros x Hx. cbn [range_sat]. rewrite !eq_cut by done.
      destruct Heq as [Heq _]. rewrite (Heq eq_refl). tauto.
    + eexists. split; [reflexivity|]. split; [by left|]. intros x Hx. cbn [range_sat]. rewrite !eq_cut by done.
      split; [done|]. intros [E1 E2]. assert (false = true); [|done]. apply Heq. lia.
Qed.
End Ranked.

(** * The merges, on column values *)

Section Columns.
Context {OF : OrderedFloat} (ty : LogicalType).

Definition key_of (v : DataValue) : list Z :=
  match memcomparable_encode v with Ok e => e | Err _ => [] end.

Lemma cells_ranked (vs : list DataValue) :
  Forall (cell ty) vs -> exists r top, ranked r top vs.
Proof.
  intros Hc. rewrite Forall_forall in Hc.
  exists (fun v => lex_rank (map key_of vs) (key_of v)), (Z.of_nat (length vs) + 1).
  split; [lia|]. split.
  - intros v Hv. pose proof (lex_rank_bound (map key_of vs) (key_of v)) as Hb. rewrite length_map in Hb.
    split; [lia|]. destruct (Hc v Hv) as [K _]. by eapply key_value_no_parameter.
  - intros v w Hv Hw. destruct (Hc v Hv) as [Kv Sv], (Hc w Hw) as [Kw Sw].
    assert (forall lu ru, range_value_cmp v w lu ru =
      Some (lex_rank (map key_of vs) (key_of v) ?= lex_rank (map key_of vs) (key_of w))) as Hcmp.
    { intros lu ru. destruct (cell_cmp ty v w lu ru) as (ev & ew & E1 & E2 & ->); [by split|by split|].
      unfold key_of. rewrite E1, E2. f_equal.
      apply lex_rank_cmp; apply list_elem_of_fmap; [exists v|exists w]; unfold key_of; by rewrite ?E1, ?E2. }
    split; [done|]. pose proof (Hcmp false false) as H0.
    assert (range_value_cmp v w false false = tuple_element_partial_cmp v w) as Ht.
    { unfold range_value_cmp, tuple_element_partial_cmp, partial_cmp_with_bounds.
      destruct v; try done; destruct w; done. }
    split.
    + rewrite (tuple_element_eq v w (dv_eq_partial_cmp v w (key_value_no_parameter v ty Kv))), <- Ht, H0.
      rewrite some_eq_iff, Z.compare_eq_iff. done.
    + intros Nv Nw. rewrite <- H0, Ht. by destruct v, w.
Qed.

Definition bound_values (b : Bound DataValue) : list DataValue :=
  match b with Included v | Excluded v => [v] | Unbounded => [] end.

Fixpoint range_values (range : Range) : list DataValue :=
  match range with
  | Range.Scope min max => bound_values min ++ bound_values max
  | Range.Eq v => [v]
  | Range.Dummy => []
  | Range.SortedRanges rs => concat (map range_values rs)
  end.

Definition is_flat (range : Range) : bool :=
  match range with Range.SortedRanges _ => false | _ => true end.

Lemma bound_values_in (vs : list DataValue) (b : Bound DataValue) :
  bound_values b ⊆ vs -> bound_in vs b.
Proof. destruct b; cbn; [intros H; apply H; left..|done]. Qed.

Lemma null_cell : cell ty DataValue.Null.
Proof. by repeat split. Qed.

Lemma and_merge_sat (l a : Range) :
  is_flat l = true -> is_flat a = true -> Forall (cell ty) (range_values l ++ range_values a) ->
  exists m, merge_binary And l a = Some (Ok m) /\
    forall x, cell ty x -> range_sat m x <-> range_sat l x /\ range_sat a x.
Proof.
  intros Fl Fa Hc.
  assert (forall x, cell ty x -> exists m, merge_binary And l a = Some (Ok m) /\
    (range_sat m x <-> range_sat l x /\ range_sat a x)) as Hx.
  { intros x Kx. destruct (cells_ranked (x :: range_values l ++ range_values a)) as (r & top & HR); [by constructor|].
    set (vs := x :: range_values l ++ range_values a) in *.
    assert (x ∈ vs) as Hxin by (apply list_elem_of_here).
    assert (range_values l ⊆ vs /\ range_values a ⊆ vs) as [Il Ia].
    { split; intros v Hv; apply list_elem_of_further, elem_of_app; auto. }
    destruct l as [lmin lmax|v| |], a as [rmin rmax|w| |]; try done; cbn [merge_binary merge_flat range_values] in *;
      try (eexists; split; [reflexivity|]; cbn [range_sat]; tauto);
      try (assert (bound_in vs lmin /\ bound_in vs lmax) as [? ?]
        by (split; apply bound_values_in; intros ? ?; apply Il, elem_of_app; auto));
      try (assert (bound_in vs rmin /\ bound_in vs rmax) as [? ?]
        by (split; apply bound_values_in; intros ? ?; apply Ia, elem_of_app; auto));
      try (assert (v ∈ vs) by (apply Il; left)); try (assert (w ∈ vs) by (apply Ia; left)).
    - destruct (and_scope_sat r top vs HR lmin lmax rmin rmax x) as (m & -> & S); try done. eauto.
    - destruct (and_scope_eq_sat r top vs HR lmin lmax w x) as (m & -> & _ & S); try done. eauto.
    - destruct (and_scope_eq_sat r top vs HR rmin rmax v x) as (m & -> & _ & S); try done.
      exists m. split; [done|]. rewrite S. tauto.
    - unfold merge_eq_eq. pose proof (ranked_eq r top vs HR v w) as He. cbn [is_and_or].
      rewrite !(ranked_no_parameter r top vs HR) by done. destruct (dv_eq v w); cbn [andb orb];
        eexists; (split; [reflexivity|]); cbn [range_sat]; rewrite ?(eq_cut r top vs HR) by done.
      + destruct He as [He _]; [done|done|]. rewrite (He eq_refl). tauto.
      + destruct He as [_ He]; [done|done|]. split; [done|]. intros [E1 E2]. by assert (false = true) by (apply He; lia). }
  destruct (merge_binary And l a) as [[m|]|] eqn:E.
  - exists m. split; [done|]. intros x Kx. destruct (Hx x Kx) as (m' & [= <-] & S). exact S.
  - by destruct (Hx DataValue.Null null_cell) as (m' & [=] & _).
  - by destruct (Hx DataValue.Null null_cell) as (m' & [=] & _).
Qed.

(** The merge builds no new bound. *)
Lemma and_merge_flat (l a m : Range) :
  is_flat l = true -> is_flat a = true -> merge_binary And l a = Some (Ok m) ->
  is_flat m = true /\ range_values m ⊆ range_values l ++ range_values a.
Proof.
  assert (forall min max eq m, merge_scope_eq And min max eq = Ok m -> m = Range.Dummy \/ m = Range.Eq eq) as Hse.
  { intros min max eq m' E. unfold merge_scope_eq in E. destruct (_ || has_parameter eq); [done|].
    match type of E with (if ?c then _ else _) = _ => destruct c end; apply Ok_inj in E; auto. }
  assert (forall w rs ls, range_values (Range.Eq w) ⊆ ls ++ w :: rs) as Hw by (intros; set_solver).
  intros Hl Ha E. destruct l as [lmin lmax|v| |], a as [rmin rmax|w| |]; try done; cbn [merge_binary merge_flat] in E;
    apply (inj Some) in E.
  all: try (apply Ok_inj in E; subst m; split; [done|]; cbn [range_values]; set_solver).
  - unfold and_scope_merge in E.
    destruct (bound_compared lmin rmin false false) as [c1|]; [|done].
    destruct (bound_compared lmax rmax true true) as [c2|]; [|done]. apply Ok_inj in E. subst m.
    set (min := match c1 with Gt => lmin | _ => rmin end). set (max := match c2 with Lt => lmax | _ => rmax end).
    assert (bound_values min ⊆ bound_values lmin ++ bound_values rmin) by (unfold min; destruct c1; set_solver).
    assert (bound_values max ⊆ bound_values lmax ++ bound_values rmax) by (unfold max; destruct c2; set_solver).
    clearbody min max. destruct (bound_compared min max false true) as [[]|];
      [destruct min as [u|u|]| | |]; (split; [done|]); cbn [range_values bound_values] in *; set_solver.
  - apply Hse in E as [-> | ->]; (split; [done|]); cbn [range_values]; set_solver.
  - destruct (merge_scope_eq And rmin rmax v) as [m'|[]] eqn:E'; [|done]. apply Ok_inj in E. subst m'.
    apply Hse in E' as [-> | ->]; (split; [done|]); cbn [range_values]; set_solver.
  - unfold merge_eq_eq in E. destruct (dv_eq v w && _); [|destruct (has_parameter v || _); [done|]];
      apply Ok_inj in E; subst m; (split; [done|]); cbn [range_values]; set_solver.
Qed.

(** C27: AND of two flat ranges is their intersection, whatever the bounds:
    the merge never fails, a contradiction is [Range::Dummy], and a column
    value is in the result exactly when it is in both ranges. *)
Theorem and_merge_exact (l a : Range) :
  is_flat l = true -> is_flat a = true -> Forall (cell ty) (range_values l ++ range_values a) ->
  exists m, merge_binary And l a = Some (Ok m) /\
    forall x, cell ty x -> range_sat m x <-> range_sat l x /\ range_sat a x.
Proof. apply and_merge_sat. Qed.

(** ** OR *)

(** The bounds of a scope do not cross. *)
Definition scope_ordered (min max : Bound DataValue) : Prop :=
  match bound_compared min max false true with
  | Some Gt => False
  | Some Eq => match min with Excluded _ => False | _ => True end
  | _ => True
  end.

Context (XL XU : DataValue -> Prop).

(** [XL] and [XU] have the values that lower and upper bounds may exclude. *)
Definition lower_clean (b : Bound DataValue) : Prop :=
  match b with
  | Included v => cell ty v /\ is_null v = false
  | Excluded v => cell ty v /\ XL v
  | Unbounded => True
  end.

Definition upper_clean (b : Bound DataValue) : Prop :=
  match b with
  | Included v => cell ty v /\ is_null v = false
  | Excluded v => cell ty v /\ XU v
  | Unbounded => True
  end.

Definition clean (range : Range) : Prop :=
  match range with
  | Range.Scope min max => lower_clean min /\ upper_clean max /\ scope_ordered min max
  | Range.Eq v => cell ty v /\ is_null v = false
  | _ => False
  end.

Definition top_clean (range : Range) : Prop :=
  match range with
  | Range.Dummy => True
  | Range.SortedRanges rs => Forall clean rs
  | range => clean range
  end.

Lemma scope_ordered_cuts (r : DataValue -> Z) (top : Z) (vs : list DataValue) (min max : Bound DataValue) :
  ranked r top vs -> bound_in vs min -> bound_in vs max -> scope_ordered min max ->
  lower_cut r min <= upper_cut r top max.
Proof.
  intros HR Hmin Hmax. unfold scope_ordered. pose proof (proj1 HR).
  destruct min as [v|v|], max as [w|w|]; cbn [bound_compared bound_in lower_cut upper_cut] in *;
    repeat match goal with
    | |- context [range_value_cmp ?v ?w ?a ?b] => rewrite (ranked_cmp r top vs HR v w a b) by done
    end;
    repeat match goal with
    | H : ?v ∈ vs |- _ => pose proof (ranked_range r top vs HR v H); clear H
    end;
    cbn [negb andb is_min_then_reverse fmap option_fmap option_map CompOpp];
    try (destruct (Z.compare_spec (r v) (r w)); cbn [cmp_then]); intros; try done; lia.
Qed.

Lemma clean_values (range : Range) : top_clean range -> Forall (cell ty) (range_values range).
Proof.
  assert (forall range, clean range -> Forall (cell ty) (range_values range)) as Hflat.
  { intros [min max|v| |rs]; cbn [clean range_values]; try done.
    - intros (H1 & H2 & _). apply Forall_app. destruct min, max; cbn in *; rewrite ?Forall_singleton, ?Forall_nil; tauto.
    - intros [H _]. by rewrite Forall_singleton. }
  destruct range as [min max|v| |rs]; cbn [top_clean]; try (by apply Hflat); [done|].
  cbn [range_values]. induction 1 as [|a rs Ha _ IH]; [done|]. cbn [map concat].
  apply Forall_app. split; [by apply Hflat|done].
Qed.

Lemma clean_fits (r : DataValue -> Z) (top : Z) (vs : list DataValue) (range : Range) :
  ranked r top vs -> clean range -> range_values range ⊆ vs -> fits r top vs XL XU range.
Proof.
  intros HR Hc Hin. destruct range as [min max|v| |]; cbn [clean range_values fits] in *; try done.
  - destruct Hc as (H1 & H2 & H3).
    assert (bound_in vs min /\ bound_in vs max) as [Imin Imax].
    { split; apply bound_values_in; intros v Hv; apply Hin, elem_of_app; auto. }
    split; [destruct min; cbn in *; tauto|]. split; [destruct max; cbn in *; tauto|].
    by eapply scope_ordered_cuts.
  - split; [apply Hin; left|tauto].
Qed.

Lemma top_clean_fits (r : DataValue -> Z) (top : Z) (vs : list DataValue) (range : Range) :
  ranked r top vs -> top_clean range -> range_values range ⊆ vs -> top_fits r top vs XL XU range.
Proof.
  intros HR Hc Hin. destruct range as [min max|v| |rs]; cbn [top_clean top_fits] in *; try done;
    try (by apply clean_fits).
  cbn [range_values] in Hin. induction Hc as [|a rs Ha _ IH]; [done|]. cbn [map concat] in Hin. constructor.
  - apply clean_fits; [done|done|]. intros v Hv. apply Hin, elem_of_app. auto.
  - apply IH. intros v Hv. apply Hin, elem_of_app. auto.
Qed.

(** C28: OR of two ranges is their union, for lists of ranges too, when no value
    is excluded both by an upper and by a lower bound, scopes do not cross, and
    no null is selected by equality: the merge succeeds, its loop ends, and a
    column value is in the result exactly when it is in one of the ranges. *)
Theorem or_merge_exact (l a : Range) :
  (forall v w, XL v -> XU w -> value_cmp v w <> Some Eq) -> top_clean l -> top_clean a ->
  exists m, merge_binary Or l a = Some (Ok m) /\
    forall x, cell ty x -> range_sat m x <-> range_sat l x \/ range_sat a x.
Proof.
  intros HX Cl Ca.
  assert (forall x, cell ty x -> exists m, merge_binary Or l a = Some (Ok m) /\
    (range_sat m x <-> range_sat l x \/ range_sat a x)) as Hx.
  { intros x Kx. destruct (cells_ranked (x :: range_values l ++ range_values a)) as (r & top & HR).
    { constructor; [done|]. apply Forall_app. split; by apply clean_values. }
    set (vs := x :: range_values l ++ range_values a) in *.
    destruct (merge_or_sat r top vs HR XL XU) with (l := l) (a := a) as (m & E & _ & S).
    - intros v w Hv Hw Xv Xw E. apply (HX v w Xv Xw). by rewrite (eq_cut r top vs HR).
    - apply top_clean_fits; [done|done|]. intros v Hv. apply list_elem_of_further, elem_of_app. auto.
    - apply top_clean_fits; [done|done|]. intros v Hv. apply list_elem_of_further, elem_of_app. auto.
    - exists m. split; [done|]. apply S. apply list_elem_of_here. }
  destruct (merge_binary Or l a) as [[m|]|] eqn:E.
  - exists m. split; [done|]. intros x Kx. destruct (Hx x Kx) as (m' & [= <-] & S). exact S.
  - by destruct (Hx DataValue.Null null_cell) as (m' & [=] & _).
  - by destruct (Hx DataValue.Null null_cell) as (m' & [=] & _).
Qed.
End Columns.

(** * Where the merges are not exact *)

Section Findings.
Context {OF : OrderedFloat}.

(** [c < v OR c > v] becomes the range of all values. Both scopes exclude
    [v], [bound_compared] calls two excluded bounds of one value equal, and the
    hull that replaces the scopes holds [v], which satisfies neither. *)
Theorem or_merge_fills_gap (ty : LogicalType) (v : DataValue) :
  cell ty v ->
  let l := Range.Scope Unbounded (Excluded v) in
  let a := Range.Scope (Excluded v) Unbounded in
  merge_binary Or l a = Some (Ok (Range.Scope Unbounded Unbounded)) /\
  range_sat (Range.Scope Unbounded Unbounded) v /\ ~ range_sat l v /\ ~ range_sat a v.
Proof.
  intros Hv l a. destruct (cells_ranked ty [v]) as (r & top & HR); [by constructor|].
  assert (v ∈ [v]) as Hin by apply list_elem_of_here.
  assert (forall lu ru, range_value_cmp v v lu ru = Some Eq) as Hc.
  { intros. by rewrite (ranked_cmp r top [v] HR), Z.compare_refl by done. }
  split; [|split; [done|]].
  - unfold l, a. cbn [merge_binary merge_flat]. unfold bounds_have_parameter, or_scope_merge. cbn [existsb bound_has_parameter].
    rewrite !(ranked_no_parameter r top [v] HR) by done. cbn [orb bound_compared negb]. by rewrite Hc.
  - unfold l, a. cbn [range_sat above_bound below_bound]. unfold value_cmp. rewrite Hc. split; naive_solver.
Qed.

(** [c < v OR c IS NULL] loses the nulls. The merge of a scope and an
    equality with null returns the scope alone unless its lower bound excludes
    a value, but nulls are last in the order, above every such scope. *)
Theorem or_merge_drops_null (ty : LogicalType) (v : DataValue) :
  cell ty v -> is_null v = false ->
  let l := Range.Scope Unbounded (Excluded v) in
  merge_binary Or l (Range.Eq DataValue.Null) = Some (Ok l) /\
  range_sat (Range.Eq DataValue.Null) DataValue.Null /\ ~ range_sat l DataValue.Null.
Proof.
  intros Hv Hn l. split; [|split; [done|]].
  - unfold l. cbn [merge_binary merge_flat]. unfold merge_scope_eq, bounds_have_parameter.
    cbn [existsb bound_has_parameter has_parameter].
    by rewrite (key_value_no_parameter v ty (proj1 Hv)).
  - unfold l. cbn [range_sat below_bound]. unfold value_cmp. by destruct v; try (intros [_ [=]]).
Qed.

(** AND of a scope and a list of equalities keeps the equalities that lie
    before the scope. [c > j AND (c = i OR c = k)] with [i < j < k] is turned into
    the ranges [i] and [k]: the loop steps over a range it does not overlap,
    whatever the operator, instead of dropping it. *)
Theorem and_merge_keeps_disjoint (i j k : Z) :
  i < j < k ->
  let l := Range.Scope (Excluded (DataValue.Int32 j)) Unbounded in
  let a := Range.SortedRanges [Range.Eq (DataValue.Int32 i); Range.Eq (DataValue.Int32 k)] in
  merge_binary And l a = Some (Ok a) /\ range_sat a (DataValue.Int32 i) /\
  ~ range_sat l (DataValue.Int32 i).
Proof.
  intros H l a. unfold l, a. split; [|split].
  - cbn -[Z.compare]. unfold extract_from_start, extract_fuel. cbn -[Z.compare].
    rewrite (proj2 (Z.compare_gt_iff j i)) by lia. cbn -[Z.compare].
    rewrite (proj2 (Z.compare_lt_iff j k)) by lia. cbn -[Z.compare].
    unfold merged. cbn -[Z.compare]. rewrite (proj2 (Z.compare_gt_iff k j)) by lia. done.
  - cbn -[Z.compare]. left. unfold value_cmp. cbn -[Z.compare]. by rewrite Z.compare_refl.
  - cbn -[Z.compare]. unfold value_cmp. cbn -[Z.compare]. rewrite (proj2 (Z.compare_lt_iff i j)) by lia. by intros [[=] _].
Qed.
End Findings.

(** * Witnesses *)

Lemma int_cell (n : Z) : in_s 32 n -> cell LogicalType.Integer (DataValue.Int32 n).
Proof. intros Hn. split; [split; [exact Hn|done]|done]. Qed.

Lemma int_range (n : Z) : -1000 <= n <= 1000 -> in_s 32 n.
Proof. unfold in_s. lia. Qed.

Lemma and_merge_exact_witness :
  exists m, merge_binary And (Range.Scope (Excluded (DataValue.Int32 1)) Unbounded)
      (Range.Scope Unbounded (Included (DataValue.Int32 9))) = Some (Ok m) /\
    forall x, cell LogicalType.Integer x -> range_sat m x <->
      range_sat (Range.Scope (Excluded (DataValue.Int32 1)) Unbounded) x /\
      range_sat (Range.Scope Unbounded (Included (DataValue.Int32 9))) x.
Proof.
  apply (and_merge_exact LogicalType.Integer); [reflexivity|reflexivity|].
  cbn. repeat (apply Forall_cons_2; [by apply int_cell, int_range|]). apply Forall_nil_2.
Defined.

Lemma or_merge_exact_witness :
  exists m, merge_binary Or
      (Range.SortedRanges [Range.Eq (DataValue.Int32 1); Range.Scope (Excluded (DataValue.Int32 3)) (Included (DataValue.Int32 5))])
      (Range.Eq (DataValue.Int32 3)) = Some (Ok m) /\
    forall x, cell LogicalType.Integer x -> range_sat m x <->
      range_sat (Range.SortedRanges [Range.Eq (DataValue.Int32 1);
        Range.Scope (Excluded (DataValue.Int32 3)) (Included (DataValue.Int32 5))]) x \/
      range_sat (Range.Eq (DataValue.Int32 3)) x.
Proof.
  apply (or_merge_exact LogicalType.Integer (fun _ => True) (fun _ => False)); [done| |].
  - apply Forall_cons_2; [|apply Forall_cons_2; [|apply Forall_nil_2]].
    + split; [by apply int_cell, int_range|reflexivity].
    + split; [split; [by apply int_cell, int_range|exact I]|]. split; [|exact I].
      split; [by apply int_cell, int_range|reflexivity].
  - split; [by apply int_cell, int_range|reflexivity].
Defined.

Lemma or_merge_fills_gap_witness :
  merge_binary Or (Range.Scope Unbounded (Excluded (DataValue.Int32 2)))
    (Range.Scope (Excluded (DataValue.Int32 2)) Unbounded) = Some (Ok (Range.Scope Unbounded Unbounded)).
Proof.
  destruct (or_merge_fills_gap LogicalType.Integer (DataValue.Int32 2)) as [E _]; [|exact E].
  by apply int_cell, int_range.
Defined.

Lemma or_merge_drops_null_witness :
  merge_binary Or (Range.Scope Unbounded (Excluded (DataValue.Int32 2))) (Range.Eq DataValue.Null) =
  Some (Ok (Range.Scope Unbounded (Excluded (DataValue.Int32 2)))).
Proof.
  destruct (or_merge_drops_null LogicalType.Integer (DataValue.Int32 2)) as [E _]; [|reflexivity|exact E].
  by apply int_cell, int_range.
Defined.

Lemma and_merge_keeps_disjoint_witness :
  range_sat (Range.SortedRanges [Range.Eq (DataValue.Int32 1); Range.Eq (DataValue.Int32 10)]) (DataValue.Int32 1) /\
  ~ range_sat (Range.Scope (Excluded (DataValue.Int32 5)) Unbounded) (DataValue.Int32 1).
Proof. apply (and_merge_keeps_disjoint 1 5 10). lia. Defined.

(** * Combinations of equalities *)

(** Every choice of one value per level, in the order of the levels. *)
Fixpoint product (choices : list (list DataValue)) : list (list DataValue) :=
  match choices with
  | [] => [[]]
  | vs :: rest => concat (map (fun v => map (cons v) (product rest)) vs)
  end.

Lemma enumeration_children (v : option DataValue) (children : list TreeNode) (path : list DataValue) :
  children <> [] ->
  enumeration (tree_node v children) path =
  concat (map (fun child => enumeration child
    (match child with tree_node (Some val) _ => path ++ [val] | tree_node None _ => path end)) children).
Proof.
  intros Hne. destruct children as [|c cs]; [done|]. cbn [enumeration]. cbn [map concat]. f_equal.
  clear c Hne. induction cs as [|c cs IH]; [done|]. cbn [map concat]. by rewrite IH.
Qed.

Lemma mapM_always {A B : Type} (f : A -> B) (l : list A) : mapM (fun x => Some (f x)) l = Some (map f l).
Proof. induction l as [|x l IH]; [done|]. simpl. by rewrite IH. Qed.

Lemma build_tree_product (ranges : list Range) (choices : list (list DataValue)) :
  mapM eq_item ranges = Some choices -> Forall (fun vs => vs <> []) choices ->
  exists children, build_tree ranges = Some (tree_node None children) /\ (children = [] <-> ranges = []) /\
    forall path, enumeration (tree_node None children) path = map (app path) (product choices).
Proof.
  revert choices. induction ranges as [|range rest IH]; intros choices E Hne.
  - injection E as <-. exists []. split; [done|]. split; [done|]. intros path. cbn. by rewrite app_nil_r.
  - cbn [mapM] in E. destruct (eq_item range) as [vs|] eqn:Ei; [|done].
    cbn [mbind option_bind mret option_ret] in E. destruct (mapM eq_item rest) as [cs|] eqn:Er; [|done]. injection E as <-.
    apply Forall_cons_1 in Hne as [Hvs Hcs]. destruct (IH cs eq_refl Hcs) as (children & Eb & Hc & Hen).
    set (child v := tree_node (Some v) [tree_node None children]).
    exists (map child vs). split; [|split].
    + cbn [build_tree]. rewrite Ei, Eb. cbn [children_of].
      assert (negb (match children with [] => true | _ => false end) ||
        match rest with [] => true | _ => false end = true) as ->.
      { destruct children; [|done]. by rewrite (proj1 Hc eq_refl). }
      by rewrite (mapM_always child).
    + by destruct vs.
    + intros path. rewrite enumeration_children by (by destruct vs). cbn [product].
      clear Ei Hvs. induction vs as [|v vs IHv]; [done|]. cbn [map concat]. rewrite map_app, <- IHv. f_equal.
      unfold child. rewrite enumeration_children by done. cbn [map concat]. rewrite app_nil_r, Hen, map_map.
      apply map_ext. intros p. by rewrite <- (assoc_L app).
Qed.

(** * The range of a comparison *)

Section NewRange.
Context {OF : OrderedFloat} (ty : LogicalType).

(** The comparison is true in SQL: the operand is not null, except for [<=>]. *)
Definition sql_true (op : BinaryOperator) (x v : DataValue) : Prop :=
  let known (c : comparison -> bool) :=
    is_null x = false /\ is_null v = false /\
    match partial_cmp x v with Some o => c o = true | None => False end in
  match op with
  | BinaryOperator.Gt => known (fun o => match o with Gt => true | _ => false end)
  | BinaryOperator.Lt => known (fun o => match o with Lt => true | _ => false end)
  | BinaryOperator.GtEq => known (fun o => match o with Lt => false | _ => true end)
  | BinaryOperator.LtEq => known (fun o => match o with Gt => false | _ => true end)
  | BinaryOperator.Eq => known (fun o => match o with Eq => true | _ => false end)
  | BinaryOperator.NotEq => known (fun o => match o with Eq => false | _ => true end)
  | BinaryOperator.Spaceship => dv_eq x v = true
  | _ => False
  end.

(** The operator seen from the other side. *)
Definition flip_op (op : BinaryOperator) : BinaryOperator :=
  match op with
  | BinaryOperator.Gt => BinaryOperator.Lt
  | BinaryOperator.Lt => BinaryOperator.Gt
  | BinaryOperator.GtEq => BinaryOperator.LtEq
  | BinaryOperator.LtEq => BinaryOperator.GtEq
  | op => op
  end.

Lemma new_range_sql (nullable is_flip : bool) (cast : DataValue -> res DataValue) (op : BinaryOperator)
    (val v x : DataValue) (range : Range) :
  cast val = Ok v -> is_null v = is_null val -> cell ty v -> cell ty x ->
  (nullable = false -> is_null x = false) ->
  new_range true nullable cast op val is_flip = Ok (Some range) ->
  range_sat range x <-> sql_true (if is_flip then flip_op op else op) x v.
Proof.
  intros Ec Hnull Kv Kx Hn E. unfold new_range in E. cbn [negb] in E. rewrite Ec in E. cbn [rbind] in E.
  destruct (cells_ranked ty [x; v]) as (r & top & HR); [by apply Forall_cons; rewrite Forall_singleton|].
  assert (x ∈ [x; v] /\ v ∈ [x; v]) as [Hx Hv] by (split; [left|right; left]).
  destruct HR as (_ & _ & HR). destruct (HR x v Hx Hv) as (Hc & Heq & Hp).
  destruct (is_null val) eqn:Nval.
  { destruct v; try done. destruct op; inversion E; subst; clear E; destruct is_flip; cbn [flip_op sql_true range_sat];
      try (split; [done|intros (_ & [=] & _)]); rewrite Heq; unfold value_cmp; rewrite Hc, some_eq_iff;
      apply Z.compare_eq_iff. }
  assert (below_bound (if nullable then Excluded DataValue.Null else Unbounded) x <-> is_null x = false) as Hmax.
  { destruct nullable; cbn [below_bound]; [|by intuition]. unfold value_cmp. by destruct x. }
  assert (is_null x = true -> value_cmp x v = Some Gt) as Hxn by (destruct x, v; done).
  unfold value_cmp in Hxn. rewrite Hc in Hxn.
  destruct op, is_flip; inversion E; subst; clear E; cbn [flip_op sql_true range_sat];
    rewrite ?Hmax; cbn [above_bound below_bound]; unfold value_cmp; rewrite ?Hc, ?Hnull, ?Heq, <- ?Z.compare_eq_iff;
    destruct (is_null x) eqn:Nx;
    try (rewrite (Hp eq_refl) by done); try (specialize (Hxn eq_refl); rewrite Hxn);
    destruct (r x ?= r v); intuition (discriminate || congruence || auto).
Qed.

(** The range built for a comparison of the column with a constant (on
    either side) selects exactly the column values for which it is true, nulls
    included: a null operand or constant makes it false, and [<=>] compares
    nulls. A column that is not nullable holds no null. *)
Theorem new_range_exact (nullable is_flip : bool) (cast : DataValue -> res DataValue) (op : BinaryOperator)
    (val v x : DataValue) (range : Range) :
  cast val = Ok v -> is_null v = is_null val -> cell ty v -> cell ty x ->
  (nullable = false -> is_null x = false) ->
  new_range true nullable cast op val is_flip = Ok (Some range) ->
  range_sat range x <-> sql_true (if is_flip then flip_op op else op) x v.
Proof. apply new_range_sql. Qed.
End NewRange.

Lemma new_range_exact_witness :
  range_sat (Range.Scope (Excluded (DataValue.Int32 5)) (Excluded DataValue.Null)) (DataValue.Int32 7) <->
  sql_true BinaryOperator.Gt (DataValue.Int32 7) (DataValue.Int32 5).
Proof.
  apply (new_range_exact LogicalType.Integer true true Ok BinaryOperator.Lt (DataValue.Int32 5)
    (DataValue.Int32 5) (DataValue.Int32 7)); try reflexivity; try done; by apply int_cell, int_range.
Defined.
