(* ===== verification/Detach.v ===== *)
(** Turning a predicate into an index range (src/src/expression/range_detacher.rs,
    [RangeDetacher::detach], and the helpers of src/src/expression/simplify.rs
    it calls).

    [detach] looks for one column of one index. The column reference of the
    code names a column of the arena; here it is the type and the position of
    [ScalarExpression.ColumnRef], and [matches_column] and [nullable] are what
    the arena says of it. Constant folding that panics is [Err Panic]. *)

From S2P Require Import Prelude MachineInt Types Operators Reader Value Chrono MemComparable Evaluators Casts Expr.
From S2P Require Import Text Serdes Ranges.
From stdpp Require Import base tactics list numbers option sets.
From Stdlib Require Import ZArith Lia.
Local Open Scope Z_scope.

Section Unpack.
Context {OF : OrderedFloat} {CH : Chrono} {SF : ScalarFunctions}.

(** [Result::ok]; a panic is not a result. *)
Definition ok {A : Type} (m : res A) : res (option A) :=
  match m with
  | Ok a => Ok (Some a)
  | Err Panic => Err Panic
  | Err _ => Ok None
  end.

(** [?] on an [Option]. *)
Definition on_some {A B : Type} (m : res (option A)) (k : A -> res (option B)) : res (option B) :=
  let? o := m in match o with Some a => k a | None => Ok None end.

Fixpoint unpack_val (self : ScalarExpression) : res (option DataValue) :=
  match self with
  | ScalarExpression.Constant val => Ok (Some val)
  | ScalarExpression.Alias expr _ => unpack_val expr
  | ScalarExpression.TypeCast expr ty _ => on_some (unpack_val expr) (fun val => ok (cast val ty))
  | ScalarExpression.IsNull negated expr =>
      on_some (unpack_val expr) (fun value =>
        Ok (if has_parameter value then None
            else Some (DataValue.Boolean (xorb (is_null value) negated))))
  | ScalarExpression.Unary op expr evaluator ty =>
      on_some (unpack_val expr) (fun value =>
        if has_parameter value then Ok None
        else
          on_some (match evaluator with Some evaluator => Ok (Some evaluator) | None => ok (unary_create ty op) end)
            (fun evaluator => let? v := eval_unary evaluator value in Ok (Some v)))
  | ScalarExpression.Binary op left_expr right_expr evaluator ty =>
      on_some (unpack_val left_expr) (fun l =>
      on_some (ok (cast l ty)) (fun l =>
      on_some (unpack_val right_expr) (fun r =>
      on_some (ok (cast r ty)) (fun r =>
        if has_parameter l || has_parameter r then Ok None
        else
          on_some (match evaluator with Some evaluator => Ok (Some evaluator) | None => ok (binary_create ty op) end)
            (fun evaluator => ok (binary_eval evaluator l r))))))
  | _ => Ok None
  end.

Fixpoint unpack_bound_col (self : ScalarExpression) (is_deep : bool) : option (LogicalType * nat) :=
  match self with
  | ScalarExpression.ColumnRef column position => Some (column, position)
  | ScalarExpression.Alias expr _ => unpack_bound_col expr is_deep
  | ScalarExpression.Unary _ expr _ _ => unpack_bound_col expr is_deep
  | ScalarExpression.Binary _ left_expr right_expr _ _ =>
      if negb is_deep then None
      else
        match unpack_bound_col left_expr true with
        | Some column => Some column
        | None => unpack_bound_col right_expr true
        end
  | _ => None
  end.
End Unpack.

Record DetachedPredicate {SF : ScalarFunctions} := mk_detached {
  range : Range;
  residual : option ScalarExpression;
}.

Section Detach.
Context {OF : OrderedFloat} {CH : Chrono} {SF : ScalarFunctions}.
Context (matches_column nullable : LogicalType -> nat -> bool).

Definition consumed (range : Range) : DetachedPredicate := mk_detached _ range None.

Definition combine_residuals (l r : option ScalarExpression) : option ScalarExpression :=
  match l, r with
  | Some l, Some r => Some (ScalarExpression.Binary BinaryOperator.And l r None LogicalType.Boolean)
  | Some expr, None | None, Some expr => Some expr
  | None, None => None
  end.

(** [new_range] on a column reference. *)
Definition column_range (op : BinaryOperator) (col : LogicalType * nat) (val : DataValue) (is_flip : bool)
    : res (option DetachedPredicate) :=
  let? range := new_range (matches_column col.1 col.2) (nullable col.1 col.2) (fun v => cast v col.1) op val is_flip in
  Ok (consumed <$> range).

(** The outcome of [merge_binary], whose loop never runs out of fuel. *)
Definition merge (op : BinaryOperator) (l r : Range) : res (result (Range * Range) Range) :=
  match merge_binary op l r with Some m => Ok m | None => Err Panic end.

Fixpoint detach (expr : ScalarExpression) : res (option DetachedPredicate) :=
  match expr with
  | ScalarExpression.Binary op left_expr right_expr _ _ =>
      let? right_val := unpack_val right_expr in
      match unpack_bound_col left_expr false, right_val with
      | Some col, Some val => column_range op col val false
      | _, _ =>
          let? left_val := unpack_val left_expr in
          match left_val, unpack_bound_col right_expr false with
          | Some val, Some col => column_range op col val true
          | _, _ =>
              match op with
              | BinaryOperator.And =>
                  let? l := detach left_expr in
                  let? r := detach right_expr in
                  match l, r with
                  | Some l, Some r =>
                      let? m := merge op (range l) (range r) in
                      Ok (Some match m with
                               | Ok range => mk_detached _ range (combine_residuals (residual l) (residual r))
                               | Err (left_range, _) => mk_detached _ left_range (Some expr)
                               end)
                  | Some detached, None =>
                      Ok (Some (mk_detached _ (range detached) (combine_residuals (residual detached) (Some right_expr))))
                  | None, Some detached =>
                      Ok (Some (mk_detached _ (range detached) (combine_residuals (Some left_expr) (residual detached))))
                  | None, None => Ok None
                  end
              | BinaryOperator.Or =>
                  let? l := detach left_expr in
                  let? r := detach right_expr in
                  match l, r with
                  | Some (mk_detached _ left_range None), Some (mk_detached _ right_range None) =>
                      let? m := merge op left_range right_range in
                      Ok (match m with Ok range => Some (consumed range) | Err _ => None end)
                  | _, _ => Ok None
                  end
              | _ => Ok None
              end
          end
      end
  | ScalarExpression.Alias expr _ | ScalarExpression.TypeCast expr _ _ => detach expr
  | ScalarExpression.IsNull negated expr =>
      match expr with
      | ScalarExpression.ColumnRef column position =>
          Ok (if matches_column column position then
                Some (consumed (if negated then Range.Scope Unbounded (Excluded DataValue.Null)
                                else Range.Eq DataValue.Null))
              else None)
      | ScalarExpression.Tuple _ | ScalarExpression.TableFunction | ScalarExpression.Empty => Err Panic
      | _ => Ok None
      end
  | ScalarExpression.TableFunction | ScalarExpression.Empty => Err Panic
  | _ => Ok None
  end.
End Detach.

(** * What a predicate selects *)

Section Holds.
Context {OF : OrderedFloat} {CH : Chrono} {SF : ScalarFunctions}.

(** The predicate, once its evaluators are bound, is true on the row. *)
Definition holds (row : list DataValue) (e : ScalarExpression) : Prop :=
  exists e', bind_evaluator e = Ok e' /\ eval e' (Some row) = Ok (DataValue.Boolean true).

Definition residual_holds (row : list DataValue) (o : option ScalarExpression) : Prop :=
  match o with Some e => holds row e | None => True end.

Lemma bind_return_type e e' : bind_evaluator e = Ok e' -> return_type e' = return_type e.
Proof.
  revert e'. induction e as [e IH] using expression_ind. intros e' E.
  destruct e; cbn [bind_evaluator] in E; try (apply Ok_inj in E; by subst); cbn [children] in IH.
  all: try (inv_ok; by subst).
  - apply rbind_ok in E as (a & _ & E). apply rbind_ok in E as (x & Ex & E). apply Ok_inj in E. subst.
    cbn. apply Forall_cons_1 in IH as [IH _]. by apply IH.
  - apply rbind_ok in E as (x & Ex & E). unfold bind_type_cast in E. apply rbind_ok in E as (from & _ & E).
    destruct (decide (from = ty)); [apply Ok_inj in E; by subst|]. apply rbind_ok in E as (ev & _ & E).
    apply Ok_inj in E. by subst.
  - apply rbind_ok in E as (x & Ex & E). unfold bind_unary in E. inv_ok. by subst.
  - apply rbind_ok in E as (l & El & E). apply rbind_ok in E as (r & Er & E). unfold bind_binary in E. inv_ok. by subst.
  - apply rbind_ok in E as (es & Ees & E). apply Ok_inj in E. subst. cbn. do 1 f_equal.
    fold (bind_all exprs) in Ees.
    revert es Ees. induction IH as [|e l He _ IHl]; intros es Ees; [apply Ok_inj in Ees; by subst|].
    cbn in Ees. apply rbind_ok in Ees as (x & Ex & Ees). apply rbind_ok in Ees as (xs & Exs & Ees).
    apply Ok_inj in Ees. subst. by rewrite (He x Ex), (IHl xs Exs).
Qed.

Lemma eval_and_true l r : boolean_and_binary_eval l r = Ok (DataValue.Boolean true) <->
  l = DataValue.Boolean true /\ r = DataValue.Boolean true.
Proof.
  split; [|by intros [-> ->]]. intros H.
  destruct l, r; try discriminate H; repeat match goal with b : bool |- _ => destruct b end; try discriminate H; done.
Qed.

Lemma type_cast_same e ty : return_type e = Ok ty -> type_cast e ty = Ok e.
Proof. intros H. unfold type_cast. rewrite H. cbn. by rewrite decide_True. Qed.

(** A conjunction holds when both sides do. *)
Lemma holds_and row l r ev ty :
  return_type l = Ok LogicalType.Boolean -> return_type r = Ok LogicalType.Boolean ->
  holds row (ScalarExpression.Binary BinaryOperator.And l r ev ty) <-> holds row l /\ holds row r.
Proof.
  intros Hl Hr.
  assert (forall l' r', bind_evaluator l = Ok l' -> bind_evaluator r = Ok r' ->
    bind_evaluator (ScalarExpression.Binary BinaryOperator.And l r ev ty) =
      Ok (ScalarExpression.Binary BinaryOperator.And l' r'
            (Some {| Evaluators.pos := BINARY_BOOLEAN_BASE + 0; Evaluators.params := Unit |}) ty)) as Hb.
  { intros l' r' El Er. cbn [bind_evaluator]. rewrite El, Er. cbn [rbind]. unfold bind_binary.
    rewrite (bind_return_type l l' El), (bind_return_type r r' Er), Hl, Hr. cbn [rbind max_logical_type].
    unfold max_logical_type. rewrite decide_True by done. cbn [rbind].
    rewrite !type_cast_same by (rewrite ?(bind_return_type l l' El), ?(bind_return_type r r' Er); done). done. }
  assert (forall l' r', eval (ScalarExpression.Binary BinaryOperator.And l' r'
      (Some {| Evaluators.pos := BINARY_BOOLEAN_BASE + 0; Evaluators.params := Unit |}) ty) (Some row) =
    let? lv := eval l' (Some row) in let? rv := eval r' (Some row) in boolean_and_binary_eval lv rv) as He.
  { intros l' r'. cbn [eval]. by destruct (eval l' (Some row)), (eval r' (Some row)). }
  split.
  - intros (e' & E & H). pose proof E as E0. cbn [bind_evaluator] in E. apply rbind_ok in E as (l' & El & E).
    apply rbind_ok in E as (r' & Er & _). rewrite (Hb l' r' El Er) in E0. apply Ok_inj in E0. subst e'.
    rewrite He in H. apply rbind_ok in H as (lv & Elv & H). apply rbind_ok in H as (rv & Erv & H).
    apply eval_and_true in H as [-> ->]. split; [by exists l'|by exists r'].
  - intros [(l' & El & Hl') (r' & Er & Hr')]. eexists. split; [by apply Hb|]. by rewrite He, Hl', Hr'.
Qed.

Lemma holds_combined row l r :
  Forall (fun e => return_type e = Ok LogicalType.Boolean) (option_list l ++ option_list r) ->
  residual_holds row (combine_residuals l r) <-> residual_holds row l /\ residual_holds row r.
Proof.
  intros H. destruct l as [l|], r as [r|]; cbn; [|tauto..].
  apply Forall_cons_1 in H as [Hl H]. apply Forall_cons_1 in H as [Hr _]. by apply holds_and.
Qed.

(** ** Comparisons of a column with a constant *)

(** The types whose comparison operators test [PartialOrd]. *)
Definition simple_type (ty : LogicalType) : Prop :=
  match ty with
  | LogicalType.Time _ | LogicalType.TimeStamp _ _ | LogicalType.Tuple _ | LogicalType.SqlNull => False
  | _ => True
  end.

Lemma cell_operand ty v : simple_type ty -> cell ty v -> operand ty v.
Proof. intros Hs [(Ho & Ht & _) _]. split; [done|]. destruct v, ty; done. Qed.

Lemma cell_logical_type ty v : simple_type ty -> cell ty v -> is_null v = false -> logical_type v = ty.
Proof.
  intros Hs [(_ & Ht & _) _] Hn. destruct v, ty; try done; cbn in Ht; destruct Ht; by subst.
Qed.

Lemma cell_constant ty v : cell ty v -> eval (ScalarExpression.Constant v) = fun _ => Ok v.
Proof. intros [(_ & Ht & _) _]. destruct v; try done; destruct ty; done. Qed.

Lemma comparison_null ty op test ev l r :
  comparison_test op = Some test -> binary_create ty op = Ok ev -> simple_type ty ->
  operand ty l -> operand ty r -> is_null l || is_null r = true -> binary_eval ev l r = Ok DataValue.Null.
Proof.
  intros Ht Hc Hs [_ Hl] [_ Hr] Hn.
  destruct ty; try done; destruct op; try done; cbn in Hc; try done; apply Ok_inj in Hc; subst ev;
    destruct l; try done; destruct r; done.
Qed.

Lemma sql_true_test op test x v c :
  comparison_test op = Some test -> is_null x = false -> is_null v = false -> partial_cmp x v = Some c ->
  sql_true op x v <-> test c = true.
Proof.
  intros Ht Hx Hv Hc. destruct op; try done; apply (inj Some) in Ht; subst test; cbn; rewrite Hx, Hv, Hc;
    (split; [by intros (_ & _ & H)|by intros H]).
Qed.

Lemma sql_true_null op x v :
  comparison_test op <> None -> is_null x || is_null v = true -> ~ sql_true op x v.
Proof. intros Ht Hn. destruct op; try done; cbn; intros (Hx & Hv & _); by rewrite Hx, Hv in Hn. Qed.

Section Leaf.
Context (ty : LogicalType) (position : nat) (row : list DataValue) (x : DataValue).
Context (Hty : simple_type ty) (Hrow : row !! position = Some x) (Hx : cell ty x).

Notation column := (ScalarExpression.ColumnRef ty position).

Lemma bind_leaf op l r ev t ev' :
  return_type l = Ok ty -> return_type r = Ok ty -> bind_evaluator l = Ok l -> bind_evaluator r = Ok r ->
  binary_create ty op = Ok ev' ->
  bind_evaluator (ScalarExpression.Binary op l r ev t) = Ok (ScalarExpression.Binary op l r (Some ev') t).
Proof.
  intros Hl Hr Bl Br Hc. cbn [bind_evaluator]. rewrite Bl, Br. cbn [rbind]. unfold bind_binary. rewrite Hl, Hr.
  cbn [rbind]. unfold max_logical_type. rewrite decide_True by done. cbn [rbind].
  rewrite !type_cast_same by done. cbn [rbind]. by rewrite Hc.
Qed.

(** The comparison is true exactly in the sense of SQL. *)
Lemma compare_holds op test v ev t ev' (is_flip : bool) :
  comparison_test op = Some test -> binary_create ty op = Ok ev' -> cell ty v -> is_null v = false ->
  holds row (if is_flip then ScalarExpression.Binary op (ScalarExpression.Constant v) column ev t
             else ScalarExpression.Binary op column (ScalarExpression.Constant v) ev t) <->
  sql_true (if is_flip then flip_op op else op) x v.
Proof.
  intros Ht Hc Hv Hn.
  pose proof (cell_logical_type ty v Hty Hv Hn) as Hlt.
  pose proof (cell_operand ty v Hty Hv) as Ov. pose proof (cell_operand ty x Hty Hx) as Ox.
  assert (eval column (Some row) = Ok x) as Ex by (cbn; by rewrite Hrow).
  assert (eval (ScalarExpression.Constant v) (Some row) = Ok v) as Ev by (by rewrite (cell_constant ty v Hv)).
  assert (holds row (if is_flip then ScalarExpression.Binary op (ScalarExpression.Constant v) column ev t
             else ScalarExpression.Binary op column (ScalarExpression.Constant v) ev t) <->
    binary_eval ev' (if is_flip then v else x) (if is_flip then x else v) = Ok (DataValue.Boolean true)) as ->.
  { assert (forall l r, eval (ScalarExpression.Binary op l r (Some ev') t) (Some row) =
      (let? a := eval l (Some row) in let? b := eval r (Some row) in binary_eval ev' a b)) as He by done.
    unfold holds. destruct is_flip;
      [rewrite (bind_leaf op (ScalarExpression.Constant v) column ev t ev') by (done || cbn; by rewrite Hlt)
      |rewrite (bind_leaf op column (ScalarExpression.Constant v) ev t ev') by (done || cbn; by rewrite Hlt)].
    all: split; [intros (e' & E & H); apply Ok_inj in E; subst e'; by rewrite He, Ex, Ev in H|].
    all: intros H; eexists; split; [reflexivity|]; by rewrite He, Ex, Ev. }
  destruct (is_null x) eqn:Nx.
  - rewrite (comparison_null ty op test ev') by (done || by destruct is_flip; rewrite ?Nx, ?Hn).
    split; [done|]. intros H. exfalso. destruct is_flip.
    + revert H. apply sql_true_null; [by destruct op|by rewrite Nx].
    + revert H. apply sql_true_null; [by rewrite Ht|by rewrite Nx].
  - destruct is_flip.
    + destruct (comparison_eval ty op test ev' v x) as (c & Hcmp & ->); try done.
      rewrite partial_cmp_flip in Hcmp. destruct (partial_cmp x v) as [c'|] eqn:Ec; [|done].
      cbn in Hcmp. apply (inj Some) in Hcmp. subst c.
      destruct op; try done; apply (inj Some) in Ht; subst test; cbn; rewrite Nx, Hn, Ec;
        destruct c'; cbn; (split; [intros H; try discriminate H; by repeat split|by intros (_ & _ & H)]).
    + destruct (comparison_eval ty op test ev' x v) as (c & Hcmp & ->); try done.
      rewrite (sql_true_test op test x v c) by done. split; [by intros [= ->]|by intros ->].
Qed.

(** A comparison with NULL is never true. *)
Lemma compare_null_holds op test ev t (is_flip : bool) :
  comparison_test op = Some test ->
  ~ holds row (if is_flip then ScalarExpression.Binary op (ScalarExpression.Constant DataValue.Null) column ev t
               else ScalarExpression.Binary op column (ScalarExpression.Constant DataValue.Null) ev t).
Proof.
  intros Ht (e' & E & H). pose proof (cell_operand ty x Hty Hx) as Ox.
  assert (forall e, type_cast (ScalarExpression.Constant DataValue.Null) ty = Ok e -> eval e (Some row) = Ok DataValue.Null) as Hn.
  { intros e Ee. unfold type_cast in Ee. cbn [return_type logical_type rbind] in Ee. destruct (decide (LogicalType.SqlNull = ty)); [by subst ty|].
    apply rbind_ok in Ee as (c & Hc & Ee). apply Ok_inj in Ee. subst e. cbn [eval rbind].
    apply (cast_create_scalar _ _ CastUnit) in Hc as (f & to_ & Hf & Hto & ->); [|done|by destruct ty].
    apply Ok_inj in Hf. subst f. apply cast_eval_null; [by eapply cast_type_code_range|done|by right]. }
  destruct is_flip; cbn [bind_evaluator rbind] in E; unfold bind_binary in E; cbn [return_type rbind logical_type] in E.
  all: assert (max_logical_type LogicalType.SqlNull ty = Ok ty) as M1 by (destruct ty; done).
  all: assert (max_logical_type ty LogicalType.SqlNull = Ok ty) as M2 by (destruct ty; done).
  all: rewrite ?M1, ?M2 in E; cbn [rbind] in E.
  all: rewrite (type_cast_same column ty eq_refl) in E; cbn [rbind] in E.
  all: apply rbind_ok in E as (c & Hc & E); apply rbind_ok in E as (ev' & Hev & E); apply Ok_inj in E; subst e'.
  all: cbn [eval] in H; rewrite (Hn c Hc), Hrow in H; cbn [rbind] in H.
  all: rewrite (comparison_null ty op test ev') in H; try done; rewrite ?orb_true_r; try done; by split.
Qed.

Lemma is_null_holds negated :
  holds row (ScalarExpression.IsNull negated column) <-> is_null x = negb negated.
Proof.
  unfold holds. cbn [bind_evaluator rbind]. split.
  - intros (e' & E & H). apply Ok_inj in E. subst e'. cbn in H. rewrite Hrow in H. cbn in H.
    apply Ok_inj in H. destruct negated, (is_null x); done.
  - intros H. eexists. split; [reflexivity|]. cbn. rewrite Hrow. cbn. by rewrite H, xorb_comm; destruct negated.
Qed.
End Leaf.
End Holds.

(** A list of facts at hand. *)
Ltac forall_list := repeat first [done | apply List.Forall_nil | apply List.Forall_cons; [assumption|]].

(** * Conjunctions *)

Section Exact.
Context {OF : OrderedFloat} {CH : Chrono} {SF : ScalarFunctions}.
Context (matches_column nullable : LogicalType -> nat -> bool).
Context (ty : LogicalType) (position : nat).

Notation column := (ScalarExpression.ColumnRef ty position).
Notation detach_on := (detach matches_column nullable).

Definition comparison_with (op : BinaryOperator) (v : DataValue) (ev : option BinaryEvaluatorRef) (is_flip : bool)
    : ScalarExpression :=
  if is_flip then ScalarExpression.Binary op (ScalarExpression.Constant v) column ev LogicalType.Boolean
  else ScalarExpression.Binary op column (ScalarExpression.Constant v) ev LogicalType.Boolean.

(** Predicates as SimplifyFilter leaves them: conjunctions of comparisons of
    the column with constants of its type or NULL, of IS NULL tests of the
    column, and of other boolean expressions that give no range. *)
Inductive conjunctive : ScalarExpression -> Prop :=
| conj_compare op test v ev ev' is_flip :
    comparison_test op = Some test -> binary_create ty op = Ok ev' -> cell ty v -> is_null v = false ->
    conjunctive (comparison_with op v ev is_flip)
| conj_compare_null op test ev is_flip :
    comparison_test op = Some test -> conjunctive (comparison_with op DataValue.Null ev is_flip)
| conj_is_null negated : conjunctive (ScalarExpression.IsNull negated column)
| conj_other e :
    return_type e = Ok LogicalType.Boolean -> unpack_val e = Ok None -> detach_on e = Ok None -> conjunctive e
| conj_and l r ev :
    conjunctive l -> conjunctive r ->
    conjunctive (ScalarExpression.Binary BinaryOperator.And l r ev LogicalType.Boolean).

Context (Hty : simple_type ty) (Hmatch : matches_column ty position = true).

(** Nothing in a comparison can be folded to a constant. *)
Lemma cast_boolean_ok v : cell ty v -> exists o, ok (cast v LogicalType.Boolean) = Ok o.
Proof.
  intros Hv. destruct (is_null v) eqn:Hn; [destruct v; try done; by eexists|].
  assert (cast v LogicalType.Boolean <> Err Panic) as H.
  { unfold cast. rewrite (cell_logical_type ty v Hty Hv Hn). destruct (decide (ty = LogicalType.Boolean)); [done|].
    destruct (cast_create ty LogicalType.Boolean) as [ev|e] eqn:Ec.
    - pose proof (cast_eval_outcome ty LogicalType.Boolean ev v) as Ho.
      assert (cast_outcome LogicalType.Boolean (cast_eval ev v)) as Ho'.
      { apply Ho; [by destruct ty|done|]. apply operand_deep; [by destruct ty|by apply cell_operand]. }
      destruct v; try done; cbn [rbind]; destruct (cast_eval ev _) as [|[]]; done.
    - assert (e <> Panic) as Hp by (destruct ty; try done; cbn in Ec; by injection Ec as <-).
      destruct v; try done; cbn [rbind]; congruence. }
  destruct (cast v LogicalType.Boolean) as [u|[]]; try done; by eexists.
Qed.

Lemma conjunctive_unpack e : conjunctive e -> unpack_val e = Ok None /\ return_type e = Ok LogicalType.Boolean.
Proof.
  induction 1 as [op test v ev ev' is_flip Ht Hc Hv Hn|op test ev is_flip Ht|negated|e Hr Hu Hd|l r ev Hl [IHl _] Hr [IHr _]];
    try done.
  - split; [|by destruct is_flip]. destruct is_flip; [|done]. cbn. unfold on_some at 1. cbn.
    destruct (cast_boolean_ok v Hv) as [[o|] ->]; done.
  - by destruct is_flip.
  - split; [|done]. cbn. unfold on_some at 1. by rewrite IHl.
Qed.

(** What the induction keeps of a detached predicate. *)
Record detached_ok (d : DetachedPredicate) : Prop := {
  detached_flat : is_flat (range d) = true;
  detached_cells : Forall (cell ty) (range_values (range d));
  detached_residual : Forall (fun e => return_type e = Ok LogicalType.Boolean) (option_list (residual d));
}.

Lemma combined_boolean l r :
  Forall (fun e => return_type e = Ok LogicalType.Boolean) (option_list l) ->
  Forall (fun e => return_type e = Ok LogicalType.Boolean) (option_list r) ->
  Forall (fun e => return_type e = Ok LogicalType.Boolean) (option_list (combine_residuals l r)).
Proof. destruct l, r; intros Hl Hr; try done. by repeat constructor. Qed.

Section Row.
Context (row : list DataValue) (x : DataValue).
Context (Hrow : row !! position = Some x) (Hx : cell ty x) (Hnull : nullable ty position = false -> is_null x = false).

Definition detached_exact (e : ScalarExpression) (d : DetachedPredicate) : Prop :=
  detached_ok d /\ (holds row e <-> range_sat (range d) x /\ residual_holds row (residual d)).

Lemma detach_comparison op v ev is_flip :
  detach_on (comparison_with op v ev is_flip) = column_range matches_column nullable op (ty, position) v is_flip.
Proof. by destruct is_flip. Qed.

Lemma cast_cell v : cell ty v -> is_null v = false -> cast v ty = Ok v.
Proof. intros Hv Hn. unfold cast. by rewrite (cell_logical_type ty v Hty Hv Hn), decide_True. Qed.

Lemma new_range_values op v is_flip rg :
  cell ty v -> is_null v = false ->
  new_range true (nullable ty position) (fun v => cast v ty) op v is_flip = Ok (Some rg) ->
  is_flat rg = true /\ Forall (cell ty) (range_values rg).
Proof.
  intros Hv Hn. unfold new_range. cbn [negb]. rewrite Hn, (cast_cell v Hv Hn). cbn [rbind]. intros E.
  pose proof (null_cell ty) as Hc. apply Ok_inj in E.
  destruct is_flip, op; try done; apply (inj Some) in E; subst rg; cbn [is_flat range_values bound_values];
    (split; [done|]); try destruct (nullable ty position); cbn [bound_values app]; forall_list.
Qed.

(** The detached range and residual of a conjunction select its rows. *)
Lemma detach_conjunctive e :
  conjunctive e -> exists o, detach_on e = Ok o /\ forall d, o = Some d -> detached_exact e d.
Proof.
  induction 1 as [op test v ev ev' is_flip Ht Hc Hv Hn|op test ev is_flip Ht|negated|e Hr Hu Hd
    |l r ev Hl (ol & El & IHl) Hr (or_ & Er & IHr)].
  - rewrite detach_comparison. unfold column_range. cbn [fst snd]. rewrite Hmatch.
    destruct (new_range _ _ _ _ _ _) as [[rg|]|] eqn:E; cbn [rbind fmap option_fmap option_map];
      [| eexists; split; [done|]; intros d [=] |].
    + eexists. split; [done|]. intros d Hd. apply (inj Some) in Hd. subst d. destruct (new_range_values op v is_flip rg Hv Hn E) as [Hf Hvs].
      split; [by constructor|]. cbn [range residual consumed residual_holds].
      rewrite (new_range_sql ty (nullable ty position) is_flip (fun v => cast v ty) op v v x rg); try done; [|by apply cast_cell].
      unfold comparison_with. rewrite (compare_holds ty position row x Hty Hrow Hx op test v ev _ ev' is_flip) by done. tauto.
    + exfalso. revert E. unfold new_range. cbn [negb]. rewrite Hn, (cast_cell v Hv Hn). cbn [rbind]. done.
  - rewrite detach_comparison. unfold column_range. cbn [fst snd]. rewrite Hmatch.
    exists (Some (consumed Range.Dummy)). split; [by destruct op|]. intros d Hd. apply (inj Some) in Hd. subst d.
    split; [by repeat constructor|]. cbn [range residual consumed residual_holds range_sat].
    pose proof (compare_null_holds ty position row x Hty Hrow Hx op test ev LogicalType.Boolean is_flip Ht) as H.
    unfold comparison_with. tauto.
  - cbn [detach]. rewrite Hmatch. eexists. split; [done|]. intros d Hd. apply (inj Some) in Hd. subst d.
    assert (detached_ok (consumed (if negated then Range.Scope Unbounded (Excluded DataValue.Null) else Range.Eq DataValue.Null)))
      as Hok by (pose proof (null_cell ty); destruct negated; constructor; cbn; forall_list).
    split; [done|]. cbn [range residual consumed residual_holds].
    rewrite (is_null_holds ty position row x Hrow negated). destruct negated; cbn [range_sat above_bound below_bound];
      unfold value_cmp, range_value_cmp; destruct x; cbn; intuition congruence.
  - exists None. split; [done|]. by intros.
  - destruct (conjunctive_unpack l Hl) as [Ul Tl], (conjunctive_unpack r Hr) as [Ur Tr].
    assert (detach_on (ScalarExpression.Binary BinaryOperator.And l r ev LogicalType.Boolean) =
      match ol, or_ with
      | Some dl, Some dr =>
          let? m := merge BinaryOperator.And (range dl) (range dr) in
          Ok (Some match m with
                   | Ok range => mk_detached _ range (combine_residuals (residual dl) (residual dr))
                   | Err (left_range, _) => mk_detached _ left_range
                       (Some (ScalarExpression.Binary BinaryOperator.And l r ev LogicalType.Boolean))
                   end)
      | Some d, None => Ok (Some (mk_detached _ (range d) (combine_residuals (residual d) (Some r))))
      | None, Some d => Ok (Some (mk_detached _ (range d) (combine_residuals (Some l) (residual d))))
      | None, None => Ok None
      end) as ->.
    { cbn [detach]. rewrite Ur, Ul, El, Er. cbn [rbind].
      by destruct (unpack_bound_col l false), (unpack_bound_col r false), ol, or_. }
    assert (holds row (ScalarExpression.Binary BinaryOperator.And l r ev LogicalType.Boolean) <-> holds row l /\ holds row r)
      as Hand by (by apply holds_and).
    destruct ol as [dl|], or_ as [dr|]; [| | |eexists; by split].
    + destruct (IHl dl eq_refl) as [[Fl Cl Rl] Hl'], (IHr dr eq_refl) as [[Fr Cr Rr] Hr'].
      destruct (and_merge_sat ty (range dl) (range dr) Fl Fr) as (m & Em & Hm); [by apply Forall_app|].
      unfold merge. rewrite Em. cbn [rbind]. eexists. split; [done|]. intros d Hd. apply (inj Some) in Hd. subst d.
      destruct (and_merge_flat _ _ _ Fl Fr Em) as [Fm Vm]. split.
      * constructor; [done| |by apply combined_boolean]. cbn [range].
        apply List.Forall_forall. intros v Hv. apply list_elem_of_In, Vm in Hv.
        eapply List.Forall_forall; [|by apply list_elem_of_In]. by apply Forall_app.
      * cbn [range residual]. rewrite Hand, Hl', Hr', (Hm x Hx), holds_combined by (by apply Forall_app). tauto.
    + destruct (IHl dl eq_refl) as [[Fl Cl Rl] Hl']. eexists. split; [done|]. intros d Hd. apply (inj Some) in Hd. subst d. split.
      * constructor; [done|done|]. apply (combined_boolean (residual dl) (Some r)); [done|cbn; forall_list].
      * cbn [range residual]. rewrite Hand, Hl', holds_combined by (apply Forall_app; split; cbn; forall_list). cbn. tauto.
    + destruct (IHr dr eq_refl) as [[Fr Cr Rr] Hr']. eexists. split; [done|]. intros d Hd. apply (inj Some) in Hd. subst d. split.
      * constructor; [done|done|]. apply (combined_boolean (Some l) (residual dr)); [cbn; forall_list|done].
      * cbn [range residual]. rewrite Hand, Hr', holds_combined by (apply Forall_app; split; cbn; forall_list). cbn. tauto.
Qed.
End Row.

(** * Disjunctions *)

(** The predicate evaluates to a boolean or unknown. *)
Definition decides (row : list DataValue) (e : ScalarExpression) : Prop :=
  return_type e = Ok LogicalType.Boolean /\
  exists e' v, bind_evaluator e = Ok e' /\ eval e' (Some row) = Ok v /\
    (v = DataValue.Null \/ exists b, v = DataValue.Boolean b).

Lemma bind_connective op l r l' r' ev :
  op = BinaryOperator.And \/ op = BinaryOperator.Or ->
  return_type l = Ok LogicalType.Boolean -> return_type r = Ok LogicalType.Boolean ->
  bind_evaluator l = Ok l' -> bind_evaluator r = Ok r' ->
  exists ev', binary_create LogicalType.Boolean op = Ok ev' /\
    bind_evaluator (ScalarExpression.Binary op l r ev LogicalType.Boolean) =
      Ok (ScalarExpression.Binary op l' r' (Some ev') LogicalType.Boolean).
Proof.
  intros Hop Hl Hr El Er.
  assert (exists ev', binary_create LogicalType.Boolean op = Ok ev') as [ev' Hev] by (destruct Hop as [-> | ->]; by eexists).
  exists ev'. split; [done|]. cbn [bind_evaluator]. rewrite El, Er. cbn [rbind]. unfold bind_binary.
  rewrite (bind_return_type l l' El), (bind_return_type r r' Er), Hl, Hr. cbn [rbind].
  unfold max_logical_type. rewrite decide_True by done. cbn [rbind].
  rewrite !type_cast_same by (rewrite ?(bind_return_type l l' El), ?(bind_return_type r r' Er); done).
  cbn [rbind]. by rewrite Hev.
Qed.

(** Both connectives on predicates that evaluate. *)
Lemma decides_connective row op l r ev :
  op = BinaryOperator.And \/ op = BinaryOperator.Or -> decides row l -> decides row r ->
  let e := ScalarExpression.Binary op l r ev LogicalType.Boolean in
  decides row e /\
  (holds row e <-> if decide (op = BinaryOperator.And) then holds row l /\ holds row r else holds row l \/ holds row r).
Proof.
  intros Hop [Tl (l' & lv & Bl & El & Vl)] [Tr (r' & rv & Br & Er & Vr)] e.
  destruct (bind_connective op l r l' r' ev Hop Tl Tr Bl Br) as (ev' & Hev & Be).
  assert (eval (ScalarExpression.Binary op l' r' (Some ev') LogicalType.Boolean) (Some row) = binary_eval ev' lv rv) as Ee.
  { cbn [eval]. by rewrite El, Er. }
  assert (forall a a' v, bind_evaluator a = Ok a' -> eval a' (Some row) = Ok v ->
    holds row a <-> v = DataValue.Boolean true) as Hh.
  { intros a a' v Ba Ea. split; [intros (b & Bb & H)|intros ->; by exists a'].
    rewrite Ba in Bb. apply Ok_inj in Bb. subst b. rewrite Ea in H. by apply Ok_inj in H. }
  assert (exists v, binary_eval ev' lv rv = Ok v /\ (v = DataValue.Null \/ exists b, v = DataValue.Boolean b) /\
    (v = DataValue.Boolean true <->
     if decide (op = BinaryOperator.And) then lv = DataValue.Boolean true /\ rv = DataValue.Boolean true
     else lv = DataValue.Boolean true \/ rv = DataValue.Boolean true)) as (v & Ev & Vv & Hv).
  { destruct Hop as [-> | ->]; apply Ok_inj in Hev; subst ev'; destruct (decide _); try done;
      destruct Vl as [-> | [[] ->]], Vr as [-> | [[] ->]];
      (eexists; split; [reflexivity|split; [eauto|]]); intuition congruence. }
  rewrite Ev in Ee. split.
  - split; [done|]. by exists (ScalarExpression.Binary op l' r' (Some ev') LogicalType.Boolean), v.
  - destruct (decide (op = BinaryOperator.And)); by rewrite (Hh e _ v Be Ee), Hv, (Hh l l' lv Bl El), (Hh r r' rv Br Er).
Qed.


(** The comparison as one of the column, whichever side it is on. *)
Definition column_op (op : BinaryOperator) (is_flip : bool) : BinaryOperator := if is_flip then flip_op op else op.

(** Predicates about the column alone, with constants from [vs]: disjunctions
    of conjunctions of comparisons and of IS NOT NULL. [XL] and [XU] have the
    constants of [>] and of [<]; [true] marks a conjunction. *)
Inductive selective (vs : list DataValue) (XL XU : DataValue -> Prop) : bool -> ScalarExpression -> Prop :=
| sel_compare op test v ev ev' is_flip :
    comparison_test op = Some test -> op <> BinaryOperator.NotEq -> binary_create ty op = Ok ev' ->
    v ∈ vs -> is_null v = false ->
    (column_op op is_flip = BinaryOperator.Gt -> XL v) -> (column_op op is_flip = BinaryOperator.Lt -> XU v) ->
    selective vs XL XU true (comparison_with op v ev is_flip)
| sel_not_null : selective vs XL XU true (ScalarExpression.IsNull true column)
| sel_and l r ev :
    selective vs XL XU true l -> selective vs XL XU true r ->
    selective vs XL XU true (ScalarExpression.Binary BinaryOperator.And l r ev LogicalType.Boolean)
| sel_conjunction e : selective vs XL XU true e -> selective vs XL XU false e
| sel_or l r ev :
    selective vs XL XU false l -> selective vs XL XU false r ->
    selective vs XL XU false (ScalarExpression.Binary BinaryOperator.Or l r ev LogicalType.Boolean).

Section Disjunction.
Context (vs : list DataValue) (XL XU : DataValue -> Prop).
Context (Hvs : Forall (cell ty) vs) (HXU : XU DataValue.Null).
Context (row : list DataValue) (x : DataValue).
Context (Hrow : row !! position = Some x) (Hx : cell ty x) (Hnull : nullable ty position = false -> is_null x = false).

Lemma vs_cell v : v ∈ vs -> cell ty v.
Proof. intros H. eapply List.Forall_forall; [exact Hvs|by apply list_elem_of_In]. Qed.

Lemma selective_unpack flat e : selective vs XL XU flat e -> unpack_val e = Ok None.
Proof.
  induction 1 as [op test v ev ev' is_flip Ht Hne Hc Hin Hn HL HU| |l r ev Hl IHl Hr IHr|e He IH|l r ev Hl IHl Hr IHr];
    try done.
  - destruct is_flip; [|done]. cbn. unfold on_some at 1. cbn.
    destruct (cast_boolean_ok v (vs_cell v Hin)) as [[o|] ->]; done.
  - cbn. unfold on_some at 1. by rewrite IHl.
  - cbn. unfold on_some at 1. by rewrite IHl.
Qed.

Lemma selective_decides flat e : selective vs XL XU flat e -> decides row e.
Proof.
  induction 1 as [op test v ev ev' is_flip Ht Hne Hc Hin Hn HL HU| |l r ev Hl IHl Hr IHr|e He IH|l r ev Hl IHl Hr IHr];
    try done.
  - pose proof (vs_cell v Hin) as Hv. pose proof (cell_logical_type ty v Hty Hv Hn) as Hlt.
    split; [by destruct is_flip|].
    assert (exists w, binary_eval ev' (if is_flip then v else x) (if is_flip then x else v) = Ok w /\
      (w = DataValue.Null \/ exists b, w = DataValue.Boolean b)) as (w & Ew & Vw).
    { assert (operand ty (if is_flip then v else x) /\ operand ty (if is_flip then x else v)) as [O1 O2]
        by (destruct is_flip; split; by apply cell_operand).
      destruct (is_null x) eqn:Nx.
      - exists DataValue.Null. split; [|by left]. apply (comparison_null ty op test); try done.
        by destruct is_flip; rewrite ?Nx, ?Hn.
      - destruct (comparison_eval ty op test ev' (if is_flip then v else x) (if is_flip then x else v)) as (c & _ & E);
          try done; [by destruct is_flip..|]. eexists. split; [exact E|]. eauto. }
    exists (comparison_with op v (Some ev') is_flip), w.
    split; [|split; [|done]].
    + destruct is_flip; unfold comparison_with; apply (bind_leaf ty); try done; cbn; by rewrite Hlt.
    + rewrite <- Ew. destruct is_flip; unfold comparison_with.
      all: change (eval (ScalarExpression.Binary op ?a ?b (Some ev') LogicalType.Boolean) (Some row)) with
        (let? p := eval a (Some row) in let? q := eval b (Some row) in binary_eval ev' p q).
      all: rewrite (cell_constant ty v Hv); cbn [eval]; rewrite Hrow; done.
  - split; [done|]. eexists _, _. split; [done|]. cbn. rewrite Hrow. cbn. split; [done|]. eauto.
  - by apply decides_connective; [left|..].
  - by apply decides_connective; [right|..].
Qed.

Section Ranked.
Context (rk : DataValue -> Z) (top : Z) (HR : ranked rk top (x :: DataValue.Null :: vs)).
Context (HX : forall v w, v ∈ x :: DataValue.Null :: vs -> w ∈ x :: DataValue.Null :: vs -> XL v -> XU w -> rk v <> rk w).

Notation L := (x :: DataValue.Null :: vs).

Lemma null_below v : v ∈ L -> is_null v = false -> rk v < rk DataValue.Null.
Proof.
  intros Hin Hn. pose proof (ranked_cmp rk top L HR v DataValue.Null false false Hin ltac:(right; left)) as H.
  destruct v; try done; cbn in H; injection H as H; symmetry in H; by apply Z.compare_lt_iff.
Qed.

Lemma selective_fits e flat :
  selective vs XL XU flat e ->
  exists rg, detach_on e = Ok (Some (consumed rg)) /\
    (if flat then flat_fits rk top L XL XU rg else top_fits rk top L XL XU rg) /\
    (holds row e <-> range_sat rg x).
Proof.
  intros H. induction H as [op test v ev ev' is_flip Ht Hne Hc Hin Hn HL HU| |l r ev Hl IHl Hr IHr|e He IH|l r ev Hl IHl Hr IHr].
  - pose proof (vs_cell v Hin) as Hv. assert (v ∈ L) as HinL by (right; by right).
    pose proof (null_below v HinL Hn) as Hb. pose proof (ranked_range rk top L HR v HinL) as Hrg.
    assert (DataValue.Null ∈ L) as HnL by (right; left).
    assert (upper_fits L XU (if nullable ty position then Excluded DataValue.Null else Unbounded) /\
      3 * rk v + 2 <= upper_cut rk top (if nullable ty position then Excluded DataValue.Null else Unbounded)) as [Hu Hcut].
    { destruct (nullable ty position); cbn; [split; [done|lia]|split; [done|lia]]. }
    assert (exists rg, new_range true (nullable ty position) (fun v => cast v ty) op v is_flip = Ok (Some rg) /\
      fits rk top L XL XU rg) as (rg & Erg & Frg).
    { unfold new_range. cbn [negb]. rewrite Hn, (cast_cell v Hv Hn). cbn [rbind].
      destruct is_flip, op; try done; (eexists; split; [reflexivity|]); cbn [fits lower_fits upper_fits lower_cut] in *;
        cbn in HL, HU; intuition (cbn [upper_cut] in *; try lia). }
    exists rg. rewrite detach_comparison. unfold column_range. cbn [fst snd]. rewrite Hmatch, Erg.
    split; [done|]. split; [by right|].
    rewrite (new_range_sql ty (nullable ty position) is_flip (fun v => cast v ty) op v v x rg); try done; [|by apply cast_cell].
    unfold comparison_with. by apply (compare_holds ty position row x Hty Hrow Hx op test v ev _ ev' is_flip).
  - exists (Range.Scope Unbounded (Excluded DataValue.Null)). cbn [detach]. rewrite Hmatch.
    assert (DataValue.Null ∈ L) as HnL by (right; left). pose proof (ranked_range rk top L HR _ HnL) as Hrg.
    split; [done|]. split; [right; cbn; split; [done|split; [done|lia]]|].
    rewrite (is_null_holds ty position row x Hrow true). cbn [range_sat above_bound below_bound].
    unfold value_cmp, range_value_cmp. destruct x; cbn; intuition congruence.
  - destruct IHl as (rl & El & Fl & Sl), IHr as (rr & Er & Fr & Sr).
    destruct (and_flat_fits rk top L HR XL XU rl rr Fl Fr) as (m & Em & Fm & Sm).
    exists m. pose proof (selective_unpack true l Hl) as Ul. pose proof (selective_unpack true r Hr) as Ur.
    split; [|split; [done|]].
    + cbn [detach]. rewrite Ur, Ul, El, Er. cbn [rbind range residual consumed].
      unfold merge. rewrite Em. by destruct (unpack_bound_col l false), (unpack_bound_col r false).
    + rewrite (Sm x) by left.
      destruct (decides_connective row BinaryOperator.And l r ev) as [_ ->]; [by left|by eapply selective_decides..|].
      rewrite decide_True by done. by rewrite Sl, Sr.
  - destruct IH as (rg & E & F & S). exists rg. split; [done|]. split; [by apply flat_fits_top|done].
  - destruct IHl as (rl & El & Fl & Sl), IHr as (rr & Er & Fr & Sr).
    destruct (merge_or_sat rk top L HR XL XU HX rl rr Fl Fr) as (m & Em & Fm & Sm).
    exists m. pose proof (selective_unpack false l Hl) as Ul. pose proof (selective_unpack false r Hr) as Ur.
    split; [|split; [done|]].
    + cbn [detach]. rewrite Ur, Ul, El, Er. cbn [rbind range residual consumed].
      unfold merge. rewrite Em. by destruct (unpack_bound_col l false), (unpack_bound_col r false).
    + rewrite (Sm x) by left.
      destruct (decides_connective row BinaryOperator.Or l r ev) as [_ ->]; [by right|by eapply selective_decides..|].
      rewrite decide_False by done. by rewrite Sl, Sr.
Qed.
End Ranked.

Lemma selective_exact flat e :
  (forall v w, v ∈ vs -> w ∈ vs -> XL v -> XU w -> value_cmp v w <> Some Eq) ->
  (forall v, XL v -> v ∈ vs) -> (forall w, XU w -> w = DataValue.Null \/ w ∈ vs) ->
  Forall (fun v => is_null v = false) vs ->
  selective vs XL XU flat e ->
  exists rg, detach_on e = Ok (Some (consumed rg)) /\ (holds row e <-> range_sat rg x).
Proof.
  intros Hne HL HU Hnn He.
  destruct (cells_ranked ty (x :: DataValue.Null :: vs)) as (rk & top & HR).
  { constructor; [done|]. constructor; [apply null_cell|done]. }
  assert (forall v w, v ∈ x :: DataValue.Null :: vs -> w ∈ x :: DataValue.Null :: vs ->
    XL v -> XU w -> rk v <> rk w) as HX.
  { intros v w Hv Hw Lv Uw E. rewrite List.Forall_forall in Hnn.
    pose proof (Hnn v (proj1 (list_elem_of_In _ _) (HL v Lv))) as Nv.
    destruct (HU w Uw) as [-> | Uw'].
    - pose proof (null_below rk top HR v Hv Nv). lia.
    - apply (Hne v w (HL v Lv) Uw' Lv Uw).
      pose proof (ranked_cmp rk top _ HR v w false false Hv Hw) as Hc. unfold value_cmp. rewrite Hc. f_equal. by apply Z.compare_eq_iff. }
  destruct (selective_fits rk top HR HX e flat He) as (rg & E & _ & S). eauto.
Qed.
End Disjunction.
End Exact.

(** * The detached range is exact *)

Section Claims.
Context {OF : OrderedFloat} {CH : Chrono} {SF : ScalarFunctions}.
Context (matches_column nullable : LogicalType -> nat -> bool).

(** C12: Take a conjunction, nested in any way, of comparisons of one column with
    constants of exactly the column's type or NULL, IS [NOT] NULL tests of it,
    and other Boolean predicates from which no range is detached. The column is
    of a scalar type other than TIME and TIMESTAMP ([simple_type]) and holds a
    value of it, or a null where it is nullable. Detaching a range from the
    conjunction never fails. When it gives a range and a residual predicate, the
    rows on which the conjunction evaluates to true are exactly those whose
    column lies in the range and on which the residual evaluates to true.
    Constants of another type are outside: detaching casts them to the column's
    type and can lose rows ([detach_truncates_constant]). *)
Theorem detach_conjunction_exact (ty : LogicalType) (position : nat) (row : list DataValue) (x : DataValue)
    (e : ScalarExpression) :
  simple_type ty -> matches_column ty position = true ->
  row !! position = Some x -> cell ty x -> (nullable ty position = false -> is_null x = false) ->
  conjunctive matches_column nullable ty position e ->
  exists o, detach matches_column nullable e = Ok o /\
    forall d, o = Some d -> (holds row e <-> range_sat (range d) x /\ residual_holds row (residual d)).
Proof.
  intros Hty Hm Hrow Hx Hn He.
  destruct (detach_conjunctive matches_column nullable ty position Hty Hm row x Hrow Hx Hn e He) as (o & E & H).
  exists o. split; [done|]. intros d Hd. by apply H.
Qed.

(** Detaching a disjunction of conjunctions of comparisons of one column
    with constants of its type - what an IN list or a list of intervals
    becomes - consumes the whole predicate, and the column values in the range
    are exactly those of the rows on which it evaluates to true, when no
    constant is an excluded bound from both sides. *)
Theorem detach_disjunction_exact (ty : LogicalType) (position : nat) (lows highs points : list DataValue)
    (row : list DataValue) (x : DataValue) (e : ScalarExpression) :
  simple_type ty -> matches_column ty position = true ->
  row !! position = Some x -> cell ty x -> (nullable ty position = false -> is_null x = false) ->
  Forall (fun v => cell ty v /\ is_null v = false) (lows ++ highs ++ points) ->
  (forall v w, v ∈ lows -> w ∈ highs -> value_cmp v w <> Some Eq) ->
  selective ty position (lows ++ highs ++ points) (fun v => v ∈ lows) (fun w => w ∈ DataValue.Null :: highs) false e ->
  exists rg, detach matches_column nullable e = Ok (Some (consumed rg)) /\ (holds row e <-> range_sat rg x).
Proof.
  intros Hty Hm Hrow Hx Hnx Hc Hne He.
  assert (Forall (cell ty) (lows ++ highs ++ points)) as Hc1 by (eapply Forall_impl; [exact Hc|]; by intros v []).
  assert (Forall (fun v => is_null v = false) (lows ++ highs ++ points)) as Hn by (eapply Forall_impl; [exact Hc|]; by intros v []).
  eapply (selective_exact matches_column nullable ty position Hty Hm _ _ _ Hc1); try done; [left| | |].
  - intros v w Hv Hw Lv Uw. apply elem_of_cons in Uw as [-> |Uw]; [|by apply Hne].
    exfalso. rewrite List.Forall_forall in Hn. by specialize (Hn _ (proj1 (list_elem_of_In _ _) Hw)).
  - intros v Hv. apply elem_of_app. by left.
  - intros w Hw. apply elem_of_cons in Hw as [-> |Hw]; [by left|right]. apply elem_of_app. right. apply elem_of_app. by left.
Qed.
End Claims.

(** [c > 1 AND 9 >= c AND c IS NOT NULL AND b] on (5, true). *)
Lemma detach_conjunction_exact_witness :
  let c v op := comparison_with LogicalType.Integer 0 op (DataValue.Int32 v) None in
  let land l r := ScalarExpression.Binary BinaryOperator.And l r None LogicalType.Boolean in
  let e := land (land (c 1 BinaryOperator.Gt false) (c 9 BinaryOperator.GtEq true))
    (land (ScalarExpression.IsNull true (ScalarExpression.ColumnRef LogicalType.Integer 0))
          (ScalarExpression.ColumnRef LogicalType.Boolean 1)) in
  let row := [DataValue.Int32 5; DataValue.Boolean true] in
  exists d, detach (fun ty _ => bool_decide (ty = LogicalType.Integer)) (fun _ _ => true) e = Ok (Some d) /\
    range d = Range.Scope (Excluded (DataValue.Int32 1)) (Included (DataValue.Int32 9)) /\
    residual d = Some (ScalarExpression.ColumnRef LogicalType.Boolean 1) /\
    (holds row e <-> range_sat (range d) (DataValue.Int32 5) /\ residual_holds row (residual d)).
Proof.
  intros c land e row.
  destruct (detach_conjunction_exact (fun ty _ => bool_decide (ty = LogicalType.Integer)) (fun _ _ => true)
    LogicalType.Integer 0 row (DataValue.Int32 5) e) as (o & E & H);
    [exact I|reflexivity|reflexivity|by apply int_cell, int_range|done| |].
  - apply conj_and; [apply conj_and|apply conj_and].
    + by eapply conj_compare; [reflexivity|reflexivity|apply int_cell, int_range|].
    + by eapply conj_compare; [reflexivity|reflexivity|apply int_cell, int_range|].
    + apply conj_is_null.
    + by apply conj_other.
  - assert (o = Some (mk_detached _ (Range.Scope (Excluded (DataValue.Int32 1)) (Included (DataValue.Int32 9)))
      (Some (ScalarExpression.ColumnRef LogicalType.Boolean 1)))) as ->
      by (apply (Ok_inj (E := DatabaseError)); rewrite <- E; vm_compute; reflexivity).
    eexists. split; [exact E|]. split; [reflexivity|]. split; [reflexivity|]. by apply H.
Defined.

(** [c = 3 OR c = 1 OR (c > 5 AND c <= 8)] on (7). *)
Lemma detach_disjunction_exact_witness :
  let c v op := comparison_with LogicalType.Integer 0 op (DataValue.Int32 v) None false in
  let lor l r := ScalarExpression.Binary BinaryOperator.Or l r None LogicalType.Boolean in
  let land l r := ScalarExpression.Binary BinaryOperator.And l r None LogicalType.Boolean in
  let e := lor (lor (c 3 BinaryOperator.Eq) (c 1 BinaryOperator.Eq))
    (land (c 5 BinaryOperator.Gt) (c 8 BinaryOperator.LtEq)) in
  let rg := Range.SortedRanges [Range.Eq (DataValue.Int32 1); Range.Eq (DataValue.Int32 3);
    Range.Scope (Excluded (DataValue.Int32 5)) (Included (DataValue.Int32 8))] in
  detach (fun ty _ => bool_decide (ty = LogicalType.Integer)) (fun _ _ => false) e = Ok (Some (consumed rg)) /\
  (holds [DataValue.Int32 7] e <-> range_sat rg (DataValue.Int32 7)).
Proof.
  intros c lor land e rg.
  destruct (detach_disjunction_exact (fun ty _ => bool_decide (ty = LogicalType.Integer)) (fun _ _ => false)
    LogicalType.Integer 0 [DataValue.Int32 5] [] [DataValue.Int32 1; DataValue.Int32 3; DataValue.Int32 8]
    [DataValue.Int32 7] (DataValue.Int32 7) e) as (o & E & H);
    [exact I|reflexivity|reflexivity|by apply int_cell, int_range|done| | | |].
  - repeat (apply Forall_cons_2; [split; [by apply int_cell, int_range|reflexivity]|]). apply Forall_nil_2.
  - intros v w _ Hw. by apply elem_of_nil in Hw.
  - apply sel_or; [apply sel_or; apply sel_conjunction|apply sel_conjunction, sel_and].
    all: eapply sel_compare; [reflexivity|done|reflexivity|cbn; set_solver|reflexivity|cbn; set_solver|cbn; set_solver].
  - assert (Ok (E := DatabaseError) (Some (consumed o)) = Ok (Some (consumed rg))) as Eo
      by (rewrite <- E; vm_compute; reflexivity).
    assert (o = rg) as -> by (apply Ok_inj in Eo; by injection Eo). by split.
Defined.

(** ** Constants of another type *)

(** The constant is cast to the column's type before the range is built: on an
    INTEGER column [c < 2.5] detaches to [c < 2], with no residual, and the row
    2, on which the predicate evaluates to true, is outside the range. *)
Theorem detach_truncates_constant :
  let e := ScalarExpression.Binary BinaryOperator.Lt (ScalarExpression.ColumnRef LogicalType.Integer 0)
    (ScalarExpression.Constant (DataValue.Float64 0x4004000000000000)) None LogicalType.Boolean in
  exists rg, detach (fun _ _ => true) (fun _ _ => false) e = Ok (Some (consumed rg)) /\
    rg = Range.Scope Unbounded (Excluded (DataValue.Int32 2)) /\
    holds [DataValue.Int32 2] e /\ ~ range_sat rg (DataValue.Int32 2).
Proof.
  intros e. eexists. split; [vm_compute; reflexivity|]. split; [reflexivity|]. split.
  - eexists. split; [reflexivity|]. lazy. reflexivity.
  - cbn. by intros [_ H].
Qed.
