(* ===== verification/TableCodec.v ===== *)
(** The key codec (src/src/storage/table_codec.rs, the key mappings of
    src/src/types/value.rs and the index descriptors of
    src/src/types/index.rs): how rows, index entries, catalog objects and
    statistics are laid out in one ordered key space.

    Every [with_*] operation clears the codec's two buffers, builds a key (or
    two bounds) and a value in them, and hands them to a continuation [f]; the
    buffers start from [[]] here. A stored object whose own format is not part
    of the key ([TableMeta], [View], statistics) is the option of its encoding,
    the result of the [encode_*_into] call. *)

From S2P Require Import Prelude MachineInt Types Reader Value MemComparable StableHash Serdes.
From stdpp Require Import base list list_numbers numbers option.
From Stdlib Require Import ZArith Lia.
Local Open Scope Z_scope.

Definition BOUND_MIN_TAG : Z := 0.
Definition BOUND_MAX_TAG : Z := 255.
Definition TABLE_NAME_HASH_LEN : nat := 8.
Definition KEY_TYPE_TAG_LEN : nat := 1.
Definition KEY_BOUND_LEN : nat := 1.
Definition TUPLE_KEY_PREFIX_LEN : nat := TABLE_NAME_HASH_LEN + KEY_TYPE_TAG_LEN + KEY_BOUND_LEN.
Definition STATISTICS_BUCKET_ORD_LEN : nat := 4.
Definition INDEX_ID_LEN : nat := 4.

(** [b"Root"], [b"View"], [b"Hash"]. *)
Definition ROOT_BYTES : list Z := [82; 111; 111; 116].
Definition VIEW_BYTES : list Z := [86; 105; 101; 119].
Definition HASH_BYTES : list Z := [72; 97; 115; 104].

(** * Index descriptors (index.rs) *)

Inductive IndexType :=
| PrimaryKey (is_multiple : bool)
| Unique
| Normal
| Composite.

Record Index := mk_index { idx_id : Z; idx_values : list DataValue; idx_ty : IndexType }.

(** * Key prefixes *)

Module CodecType.
Inductive CodecType := Column | IndexMeta | Index | Statistics | View | Tuple | Root | Hash.
End CodecType.
Notation CodecType := CodecType.CodecType.

Module StatisticsCodecType.
Inductive StatisticsCodecType := Root | SketchMeta | SketchPage | Bucket | TopN.

Definition tag (t : StatisticsCodecType) : Z :=
  match t with
  | Root => 48
  | SketchMeta => 49
  | SketchPage => 50
  | Bucket => 51
  | TopN => 52
  end.

Definition from_tag (tag : Z) : res StatisticsCodecType :=
  match tag with
  | 48 => Ok Root
  | 49 => Ok SketchMeta
  | 50 => Ok SketchPage
  | 51 => Ok Bucket
  | 52 => Ok TopN
  | _ => Err InvalidValue
  end.
End StatisticsCodecType.
Notation StatisticsCodecType := StatisticsCodecType.StatisticsCodecType.

Definition hash_bytes (table_name : list Z) : list Z := to_le_bytes 8 (table_name_hash table_name).

Definition check_primary_key_type (ty : LogicalType) : res unit :=
  match ty with
  | LogicalType.Tinyint | LogicalType.Smallint | LogicalType.Integer | LogicalType.Bigint
  | LogicalType.UTinyint | LogicalType.USmallint | LogicalType.UInteger | LogicalType.UBigint
  | LogicalType.Char _ _ | LogicalType.Varchar _ _ | LogicalType.Date | LogicalType.DateTime
  | LogicalType.Time _ | LogicalType.TimeStamp _ _ => Ok tt
  | _ => Err InvalidType
  end.

Fixpoint check_primary_key (value : DataValue) (indentation : nat) : res unit :=
  if (1 <? indentation)%nat then Err PrimaryKeyTooManyLayers
  else if is_null value then Err NotNull
  else
    match value with
    | DataValue.Tuple values =>
        (fix go (vs : list DataValue) : res unit :=
           match vs with
           | [] => Ok tt
           | v :: vs' =>
               let? _ := check_primary_key v (S indentation) in
               go vs'
           end) values
    | _ => check_primary_key_type (logical_type value)
    end.

Definition write_key_prefix (out : list Z) (ty : CodecType) (table_hash : list Z) : list Z :=
  match ty with
  | CodecType.Column => out ++ table_hash ++ [48]
  | CodecType.IndexMeta => out ++ table_hash ++ [49]
  | CodecType.Statistics => out ++ table_hash ++ [51]
  | CodecType.Index => out ++ table_hash ++ [55]
  | CodecType.Tuple => out ++ table_hash ++ [56]
  | CodecType.Root => out ++ ROOT_BYTES ++ [BOUND_MIN_TAG] ++ table_hash
  | CodecType.View => out ++ VIEW_BYTES ++ [BOUND_MIN_TAG] ++ table_hash
  | CodecType.Hash => out ++ HASH_BYTES ++ [BOUND_MIN_TAG] ++ table_hash
  end.

Definition write_global_bound_prefix (out prefix : list Z) (bound : Z) : list Z :=
  out ++ prefix ++ [bound].

(** * Keys *)

Section Keys.
Context {R : Type}.
Implicit Types (table_name : list Z) (f : list Z -> list Z -> res R)
  (encoded : option (res (list Z))).

(** [if let Some(x) = x { encode_into(x, value)? }]. *)
Definition encode_opt encoded : res (list Z) :=
  match encoded with Some m => m | None => Ok [] end.

Definition with_tuple_unchecked table_name (tuple_id : DataValue) encoded f : res R :=
  let table_hash := hash_bytes table_name in
  let lower := write_key_prefix [] CodecType.Tuple table_hash in
  let lower := lower ++ [BOUND_MIN_TAG] in
  let? id := memcomparable_encode tuple_id in
  let lower := lower ++ id in
  let? value := encode_opt encoded in
  f lower value.

Definition with_tuple table_name (tuple_id : DataValue) encoded f : res R :=
  let? _ := check_primary_key tuple_id 0 in
  with_tuple_unchecked table_name tuple_id encoded f.

(** The pattern of the bound operations that cover one key type of a table. *)
Definition type_bound (lower_ty upper_ty : CodecType) table_name f : res R :=
  let table_hash := hash_bytes table_name in
  let lower := write_key_prefix [] lower_ty table_hash ++ [BOUND_MIN_TAG] in
  let upper := write_key_prefix [] upper_ty table_hash ++ [BOUND_MAX_TAG] in
  f lower upper.

Definition with_tuple_bound table_name f : res R :=
  type_bound CodecType.Tuple CodecType.Tuple table_name f.

Definition with_index_meta table_name (index_id : Z) encoded f : res R :=
  let table_hash := hash_bytes table_name in
  let lower := write_key_prefix [] CodecType.IndexMeta table_hash in
  let lower := lower ++ [BOUND_MIN_TAG] ++ to_le_bytes 4 index_id in
  let? value := encode_opt encoded in
  f lower value.

Definition with_index_meta_bound table_name f : res R :=
  type_bound CodecType.IndexMeta CodecType.IndexMeta table_name f.

Definition with_index_bound table_name (index_id : Z) f : res R :=
  let table_hash := hash_bytes table_name in
  let prefix := write_key_prefix [] CodecType.Index table_hash in
  let lower := prefix ++ [BOUND_MIN_TAG] ++ to_le_bytes 4 index_id ++ [BOUND_MIN_TAG] in
  let upper := prefix ++ [BOUND_MIN_TAG] ++ to_le_bytes 4 index_id ++ [BOUND_MAX_TAG] in
  f lower upper.

Definition with_all_index_bound table_name f : res R :=
  type_bound CodecType.Index CodecType.Index table_name f.

(** [matches!(index.ty, IndexType::Normal | IndexType::Composite)]. *)
Definition appends_tuple_id (ty : IndexType) : bool :=
  match ty with Normal | Composite => true | _ => false end.

Definition with_index table_name (index : Index) (tuple_id : option DataValue) f : res R :=
  let table_hash := hash_bytes table_name in
  let lower := write_key_prefix [] CodecType.Index table_hash in
  let lower := lower ++ [BOUND_MIN_TAG] ++ to_le_bytes 4 (idx_id index) ++ [BOUND_MIN_TAG] in
  let? values := encode_values (idx_values index) in
  let lower := lower ++ values in
  let? lower :=
    match tuple_id with
    | Some tuple_id =>
        if appends_tuple_id (idx_ty index) then
          let? id := memcomparable_encode tuple_id in Ok (lower ++ id)
        else Ok lower
    | None => Ok lower
    end in
  let? value :=
    match tuple_id with
    | Some tuple_id => encode_reference_value tuple_id
    | None => Ok []
    end in
  f lower value.

(** [ColumnRelation] of src/src/catalog/column.rs; a column id is a [u64]. *)
Inductive ColumnRelation :=
| NoRelation
| TableRelation (column_id : Z) (table_name : list Z) (is_temp : bool).

Definition with_column (relation : ColumnRelation) encoded f : res R :=
  match relation with
  | TableRelation column_id table_name false =>
      let table_hash := hash_bytes table_name in
      let lower := write_key_prefix [] CodecType.Column table_hash in
      let lower := lower ++ [BOUND_MIN_TAG] ++ to_be_bytes 8 column_id in
      let? value := encode_opt encoded in
      f lower value
  | _ => Err InvalidColumn
  end.

Definition with_columns_bound table_name f : res R :=
  type_bound CodecType.Column CodecType.Column table_name f.

Definition with_table_bound table_name f : res R :=
  type_bound CodecType.Column CodecType.IndexMeta table_name f.

Definition with_statistics_bound table_name f : res R :=
  type_bound CodecType.Statistics CodecType.Statistics table_name f.

Definition statistics_prefix table_name (index_id : Z) : list Z :=
  write_key_prefix [] CodecType.Statistics (hash_bytes table_name) ++
  [BOUND_MIN_TAG] ++ to_le_bytes 4 index_id.

Definition with_statistics_index_bound table_name (index_id : Z) f : res R :=
  let lower := statistics_prefix table_name index_id in
  let upper := lower ++ [BOUND_MAX_TAG] in
  f lower upper.

Definition with_statistics_meta table_name (index_id : Z) encoded f : res R :=
  let lower := statistics_prefix table_name index_id ++
    [StatisticsCodecType.tag StatisticsCodecType.Root] in
  let? value := encode_opt encoded in
  f lower value.

Definition with_statistics_sketch_meta table_name (index_id : Z) encoded f : res R :=
  let lower := statistics_prefix table_name index_id ++
    [StatisticsCodecType.tag StatisticsCodecType.SketchMeta] in
  let? value := encode_opt encoded in
  f lower value.

Definition with_statistics_sketch_page table_name (index_id row_idx page_idx : Z) encoded f : res R :=
  let lower := statistics_prefix table_name index_id ++
    [StatisticsCodecType.tag StatisticsCodecType.SketchPage] ++
    [BOUND_MIN_TAG] ++ to_be_bytes 4 (as_u 32 row_idx) ++
    [BOUND_MIN_TAG] ++ to_be_bytes 4 (as_u 32 page_idx) in
  let? value := encode_opt encoded in
  f lower value.

Definition with_statistics_bucket table_name (index_id ordinal : Z) encoded f : res R :=
  let lower := statistics_prefix table_name index_id ++
    [StatisticsCodecType.tag StatisticsCodecType.Bucket] ++
    [BOUND_MIN_TAG] ++ to_be_bytes 4 ordinal in
  let? value := encode_opt encoded in
  f lower value.

Definition with_statistics_top_n table_name (index_id : Z) encoded f : res R :=
  let lower := statistics_prefix table_name index_id ++
    [StatisticsCodecType.tag StatisticsCodecType.TopN] in
  let? value := encode_opt encoded in
  f lower value.

Definition with_view view_name f : res R :=
  f (write_key_prefix [] CodecType.View (hash_bytes view_name)) [].

Definition with_view_value view_name (encoded : res (list Z)) f : res R :=
  let lower := write_key_prefix [] CodecType.View (hash_bytes view_name) in
  let? value := encoded in
  f lower value.

Definition with_view_bound f : res R :=
  f (write_global_bound_prefix [] VIEW_BYTES BOUND_MIN_TAG)
    (write_global_bound_prefix [] VIEW_BYTES BOUND_MAX_TAG).

Definition with_root_table table_name encoded f : res R :=
  let lower := write_key_prefix [] CodecType.Root (hash_bytes table_name) in
  let? value := encode_opt encoded in
  f lower value.

Definition with_root_table_bound f : res R :=
  f (write_global_bound_prefix [] ROOT_BYTES BOUND_MIN_TAG)
    (write_global_bound_prefix [] ROOT_BYTES BOUND_MAX_TAG).

Definition with_table_hash table_name f : res R :=
  f (write_key_prefix [] CodecType.Hash (hash_bytes table_name)) [].
End Keys.

(** * Decoding keys *)

(** [&bytes[start..]]: panics past the end. *)
Definition slice_from (bytes : list Z) (start : nat) : res (list Z) :=
  if (length bytes <? start)%nat then Err Panic else Ok (drop start bytes).

Definition decode_tuple_key (bytes : list Z) (pk_ty : LogicalType) : res DataValue :=
  let? reader := slice_from bytes TUPLE_KEY_PREFIX_LEN in
  let? (v, _) := memcomparable_decode pk_ty reader in
  Ok v.

(** [trait IndexKeyMapping]. *)
Record IndexKeyMapping := { target_len : nat -> nat; scan_index : nat -> option nat }.

Definition OrderedMapping : IndexKeyMapping :=
  {| target_len := fun fields_len => fields_len; scan_index := Some |}.

Definition USIZE_MAX : Z := 2 ^ 64 - 1.

Definition TupleMappingRef (index_to_scan : list Z) (len : nat) : IndexKeyMapping :=
  {| target_len := fun _ => len;
     scan_index := fun index_pos =>
       match index_to_scan !! index_pos with
       | Some slot => if slot =? USIZE_MAX then None else Some (Z.to_nat slot)
       | None => None
       end |}.

(** The loop of [decode_index_key]; a slot out of range panics. *)
Fixpoint decode_index_loop (mapping : IndexKeyMapping) (index_pos : nat) (types : list LogicalType)
    (reader : list Z) (values : list DataValue) : res (list DataValue) :=
  match types with
  | [] => Ok values
  | ty :: types' =>
      let? (value, reader) := memcomparable_decode ty reader in
      let? values :=
        match scan_index mapping index_pos with
        | Some scan_pos =>
            if (scan_pos <? length values)%nat then Ok (<[scan_pos := value]> values) else Err Panic
        | None => Ok values
        end in
      decode_index_loop mapping (S index_pos) types' reader values
  end.

Definition index_types (ty : LogicalType) : list LogicalType :=
  match ty with
  | LogicalType.Tuple types => types
  | ty => [ty]
  end.

Definition decode_index_key (bytes : list Z) (ty : LogicalType) (mapping : IndexKeyMapping)
    : res (list DataValue) :=
  let start := (TUPLE_KEY_PREFIX_LEN + INDEX_ID_LEN + KEY_BOUND_LEN)%nat in
  let? reader := slice_from bytes start in
  let types := index_types ty in
  decode_index_loop mapping 0 types reader
    (replicate (target_len mapping (length types)) DataValue.Null).

Definition decode_index (bytes : list Z) : res DataValue :=
  let? (v, _) := decode_reference_value bytes in Ok v.

Definition decode_statistics_codec_type (key : list Z) : res StatisticsCodecType :=
  let prefix_len := (TUPLE_KEY_PREFIX_LEN + INDEX_ID_LEN)%nat in
  match key !! prefix_len with
  | None => Err InvalidValue
  | Some tag => StatisticsCodecType.from_tag tag
  end.

(** [len - 4] overflows on a shorter key. *)
Definition decode_statistics_bucket_ordinal (bytes : list Z) : res Z :=
  let len := length bytes in
  if (len <? STATISTICS_BUCKET_ORD_LEN)%nat then Err Panic
  else Ok (from_be_bytes (drop (len - STATISTICS_BUCKET_ORD_LEN) bytes)).

(** * Layout lemmas *)

(** Keep what a continuation is called with. *)
Definition capture (key value : list Z) : res (list Z * list Z) := Ok (key, value).

Lemma captured (k v key value : list Z) :
  capture k v = Ok (key, value) -> k = key /\ v = value.
Proof. by intros [= -> ->]. Qed.

(** [k] is inside the closed range of two keys. *)
Definition in_bounds (lower upper k : list Z) : Prop := lex_le lower k /\ lex_le k upper.

Lemma length_hash_bytes (name : list Z) : length (hash_bytes name) = 8%nat.
Proof. apply length_to_le_bytes. Qed.

(** The key types that live under a table's hash. *)
Definition table_type (ty : CodecType) : bool :=
  match ty with
  | CodecType.View | CodecType.Root | CodecType.Hash => false
  | _ => true
  end.

Lemma length_table_prefix (ty : CodecType) (h : list Z) :
  table_type ty = true -> length h = 8%nat -> length (write_key_prefix [] ty h) = 9%nat.
Proof. intros Ht Hh. destruct ty; try discriminate; simpl; rewrite length_app, Hh; done. Qed.

Lemma table_prefix_inj (ty ty' : CodecType) (h h' : list Z) :
  table_type ty = true -> table_type ty' = true ->
  write_key_prefix [] ty h = write_key_prefix [] ty' h' -> ty = ty' /\ h = h'.
Proof.
  intros Ht Ht'. destruct ty, ty'; try discriminate; simpl; intros E;
    by apply app_inj_tail in E as [-> ?].
Qed.

(** A range [[p'.0, p'.255]] holds a key [p.x] with a prefix of that length
    only when the prefixes agree. *)
Lemma bounds_prefix (p p' a b x : list Z) :
  length p = length p' -> in_bounds (p' ++ a) (p' ++ b) (p ++ x) -> p = p'.
Proof.
  intros Hl [H1 H2]. unfold lex_le in *.
  rewrite lex_cmp_app_len in H1, H2 by done. rewrite (lex_cmp_antisym p p') in H1.
  destruct (lex_cmp p p') eqn:E; simpl in *; try done. by apply lex_cmp_eq.
Qed.

Lemma bounds_inside (p x : list Z) (b : Z) :
  0 <= b < 255 -> in_bounds (p ++ [BOUND_MIN_TAG]) (p ++ [BOUND_MAX_TAG]) (p ++ b :: x).
Proof.
  intros Hb. unfold in_bounds, lex_le. rewrite !lex_cmp_app_l. cbn [lex_cmp].
  unfold BOUND_MIN_TAG, BOUND_MAX_TAG. rewrite (proj2 (Z.compare_lt_iff b 255)) by lia.
  split; [|done]. destruct (Z.compare_spec 0 b); try done; lia || by destruct x.
Qed.

Lemma type_range_exact (ty ty' : CodecType) (name name' x : list Z) :
  table_type ty = true -> table_type ty' = true ->
  in_bounds (write_key_prefix [] ty (hash_bytes name) ++ [BOUND_MIN_TAG])
    (write_key_prefix [] ty (hash_bytes name) ++ [BOUND_MAX_TAG])
    (write_key_prefix [] ty' (hash_bytes name') ++ [BOUND_MIN_TAG] ++ x) <->
  ty = ty' /\ hash_bytes name = hash_bytes name'.
Proof.
  intros Ht Ht'. split.
  - intros H. apply bounds_prefix in H.
    + symmetry in H. by apply table_prefix_inj in H.
    + by rewrite !length_table_prefix by (done || apply length_hash_bytes).
  - intros [<- <-]. by apply bounds_inside.
Qed.

(** The bounds of one key type of one table. The range the codec scans for
    a table and a key type (columns, index metadata, statistics, index entries
    or rows) contains exactly the keys written under that type and a name
    with the same hash. *)
Theorem type_bound_exact (ty ty' : CodecType) (name name' x lower upper : list Z) :
  table_type ty = true -> table_type ty' = true ->
  type_bound ty ty name capture = Ok (lower, upper) ->
  in_bounds lower upper (write_key_prefix [] ty' (hash_bytes name') ++ [BOUND_MIN_TAG] ++ x) <->
  ty = ty' /\ hash_bytes name = hash_bytes name'.
Proof. intros Ht Ht' E. apply captured in E as [<- <-]. by apply type_range_exact. Qed.

Lemma type_bound_exact_witness :
  in_bounds (hash_bytes [116] ++ [56] ++ [0]) (hash_bytes [116] ++ [56] ++ [255])
    (write_key_prefix [] CodecType.Tuple (hash_bytes [116]) ++ [BOUND_MIN_TAG] ++ [1; 2]).
Proof.
  apply (type_bound_exact CodecType.Tuple CodecType.Tuple [116] [116] [1; 2]);
    [reflexivity|reflexivity|by vm_compute|by split].
Defined.

(** [with_table_bound] spans column and index metadata, and nothing else of
    the table. *)
Lemma table_bound_exact (ty : CodecType) (name x lower upper : list Z) :
  table_type ty = true -> with_table_bound name capture = Ok (lower, upper) ->
  in_bounds lower upper (write_key_prefix [] ty (hash_bytes name) ++ [BOUND_MIN_TAG] ++ x) <->
  ty = CodecType.Column \/ ty = CodecType.IndexMeta.
Proof.
  intros Ht E. apply captured in E as [<- <-]. unfold in_bounds, lex_le, write_key_prefix.
  destruct ty; try discriminate; cbn [app]; rewrite <- !(assoc_L app), !lex_cmp_app_l;
    (split; [intros [H1 H2]; first [by auto|by destruct H2|by destruct H1]
             |intros [?|?]; try discriminate; split; by destruct x]).
Qed.

(** * Rows *)

Definition tuple_prefix (name : list Z) : list Z :=
  write_key_prefix [] CodecType.Tuple (hash_bytes name) ++ [BOUND_MIN_TAG].

Lemma length_tuple_prefix (name : list Z) : length (tuple_prefix name) = TUPLE_KEY_PREFIX_LEN.
Proof.
  unfold tuple_prefix. rewrite length_app, length_table_prefix by (done || apply length_hash_bytes).
  done.
Qed.

Lemma with_tuple_unchecked_key (name e : list Z) (id : DataValue) (encoded : option (res (list Z))) :
  memcomparable_encode id = Ok e ->
  with_tuple_unchecked name id encoded capture =
  let? value := encode_opt encoded in capture (tuple_prefix name ++ e) value.
Proof. intros E. unfold with_tuple_unchecked. by rewrite E. Qed.

Lemma slice_from_app (p s : list Z) (n : nat) : length p = n -> slice_from (p ++ s) n = Ok s.
Proof.
  intros <-. unfold slice_from. rewrite length_app, (proj2 (Nat.ltb_ge _ _)) by lia.
  by rewrite drop_app_length.
Qed.

(** Row keys are ordered like primary keys. For two primary keys of one
    type, the row keys of a table compare as [PartialOrd] compares the keys,
    and both lie inside the range of [with_tuple_bound]. *)
Theorem tuple_key_order {OF : OrderedFloat} (name : list Z) (v w : DataValue) (ty : LogicalType) :
  key_value v ty -> key_value w ty ->
  exists kv kw c lower upper,
    with_tuple_unchecked name v None capture = Ok (kv, []) /\
    with_tuple_unchecked name w None capture = Ok (kw, []) /\
    tuple_element_partial_cmp v w = Some c /\ lex_cmp kv kw = c /\
    with_tuple_bound name capture = Ok (lower, upper) /\
    in_bounds lower upper kv /\ in_bounds lower upper kw.
Proof.
  intros Kv Kw. destruct (encodings_ordered false v w ty Kv Kw) as (ev & ew & c & E1 & E2 & Hc & He).
  rewrite null_order_last in Hc.
  rewrite (with_tuple_unchecked_key name ev v None E1), (with_tuple_unchecked_key name ew w None E2).
  eexists _, _, c, _, _. split; [reflexivity|]. split; [reflexivity|]. split; [done|].
  split; [rewrite lex_cmp_app_l; by apply lex_embed_cmp|]. split; [reflexivity|].
  unfold tuple_prefix. rewrite <- !(assoc_L app). by split; apply bounds_inside.
Qed.

Lemma tuple_key_order_witness :
  exists kv kw c lower upper,
    with_tuple_unchecked [116; 49] wit_v None capture = Ok (kv, []) /\
    with_tuple_unchecked [116; 49] wit_w None capture = Ok (kw, []) /\
    tuple_element_partial_cmp wit_v wit_w = Some c /\ lex_cmp kv kw = c /\
    with_tuple_bound [116; 49] capture = Ok (lower, upper) /\
    in_bounds lower upper kv /\ in_bounds lower upper kw.
Proof. apply (tuple_key_order [116; 49] wit_v wit_w wit_ty); apply wit_key_value. Defined.

(** The primary key is read back from a row key. *)
Theorem tuple_key_roundtrip {OF : OrderedFloat} (name : list Z) (v : DataValue) (ty : LogicalType) :
  key_value v ty ->
  exists key, with_tuple_unchecked name v None capture = Ok (key, []) /\
    decode_tuple_key key ty = Ok (canon v) /\ dv_eq (canon v) v = true.
Proof.
  intros K. destruct (key_value_decodes v ty K) as (e & E & D).
  rewrite (with_tuple_unchecked_key name e v None E). eexists. split; [reflexivity|].
  split; [|apply dv_eq_canon; apply K].
  unfold decode_tuple_key. rewrite slice_from_app by apply length_tuple_prefix. cbn [rbind].
  specialize (D []). rewrite app_nil_r in D. by rewrite D.
Qed.

Lemma tuple_key_roundtrip_witness :
  exists key, with_tuple_unchecked [116; 49] wit_v None capture = Ok (key, []) /\
    decode_tuple_key key wit_ty = Ok (canon wit_v) /\ dv_eq (canon wit_v) wit_v = true.
Proof. apply (tuple_key_roundtrip [116; 49] wit_v wit_ty). apply wit_key_value. Defined.

(** A type [check_primary_key_type] accepts. *)
Definition pk_type (ty : LogicalType) : bool :=
  match check_primary_key_type ty with Ok _ => true | Err _ => false end.

(** A column of a primary key: not null, not a tuple, of an accepted type. *)
Definition pk_field (v : DataValue) : Prop :=
  is_null v = false /\ (forall vs, v <> DataValue.Tuple vs) /\ pk_type (logical_type v) = true.

Lemma check_primary_key_field (v : DataValue) (n : nat) :
  (n <= 1)%nat -> (forall vs, v <> DataValue.Tuple vs) ->
  check_primary_key v n = Ok tt <-> pk_field v.
Proof.
  intros Hn Hv. unfold pk_field, pk_type.
  assert (check_primary_key v n =
    if is_null v then Err NotNull else check_primary_key_type (logical_type v)) as ->.
  { assert ((1 <? n)%nat = false) as Hn' by (apply Nat.ltb_ge; lia).
    destruct v; try (exfalso; exact (Hv _ eq_refl)); cbn [check_primary_key]; by rewrite Hn'. }
  destruct (is_null v); [split; [done|by intros [? _]]|].
  destruct (check_primary_key_type (logical_type v)) as [[]|]; split; try done; by intros (_ & _ & ?).
Qed.

Lemma DataValue_tuple_or (v : DataValue) :
  (exists vs, v = DataValue.Tuple vs) \/ (forall vs, v <> DataValue.Tuple vs).
Proof. destruct v; try (right; congruence). left. by eexists. Qed.

(** The loop over the columns of a composite key. *)
Fixpoint check_fields (vs : list DataValue) : res unit :=
  match vs with
  | [] => Ok tt
  | v :: vs' => let? _ := check_primary_key v 1 in check_fields vs'
  end.

(** Inside a composite key, a tuple passes only when it is empty: its columns
    would be a third layer. *)
Lemma check_primary_key_inner (vs : list DataValue) :
  check_primary_key (DataValue.Tuple vs) 1 = Ok tt <-> vs = [].
Proof. destruct vs as [|v vs]; [done|]. by destruct v. Qed.

Lemma check_fields_spec (vs : list DataValue) :
  check_fields vs = Ok tt <-> Forall (fun v => pk_field v \/ v = DataValue.Tuple []) vs.
Proof.
  induction vs as [|v vs IH]; [by split; [constructor|]|]. cbn [check_fields].
  rewrite list.Forall_cons, <- IH.
  assert (check_primary_key v 1 = Ok tt <-> pk_field v \/ v = DataValue.Tuple []) as <-.
  { destruct (DataValue_tuple_or v) as [[ws ->]|Hv].
    - rewrite check_primary_key_inner. split; [by intros ->; right|].
      intros [(_ & H & _)|[= ->]]; [by destruct (H ws)|done].
    - rewrite check_primary_key_field by (lia || done). split; [by left|].
      intros [?| ->]; [done|by destruct (Hv [])]. }
  destruct (check_primary_key v 1) as [[]|]; cbn [rbind]; naive_solver.
Qed.

(** The primary keys the storage accepts are a non-null scalar of an
    integer, string or time type, or a tuple of such scalars (in which an empty
    tuple also passes); floats, booleans, nulls and further nesting are
    refused. *)
Theorem check_primary_key_spec (v : DataValue) :
  check_primary_key v 0 = Ok tt <->
  pk_field v \/
  exists vs, v = DataValue.Tuple vs /\ Forall (fun f => pk_field f \/ f = DataValue.Tuple []) vs.
Proof.
  destruct (DataValue_tuple_or v) as [[vs ->]|Hv].
  - change (check_primary_key (DataValue.Tuple vs) 0) with (check_fields vs).
    rewrite check_fields_spec. split; [by eauto|].
    intros [(_ & H & _)|(vs' & [= ->] & H)]; [by destruct (H vs)|done].
  - rewrite check_primary_key_field by (lia || done). split; [by left|].
    intros [H|(vs & -> & _)]; [done|by destruct (Hv vs)].
Qed.

(** * Index entries *)

Definition index_prefix (name : list Z) (id : Z) : list Z :=
  write_key_prefix [] CodecType.Index (hash_bytes name) ++ [BOUND_MIN_TAG] ++ to_le_bytes 4 id ++
  [BOUND_MIN_TAG].

(** The values an entry of an index type is ordered by. *)
Definition entry_fields (ty : IndexType) (vs : list DataValue) (tuple_id : DataValue) : list DataValue :=
  if appends_tuple_id ty then vs ++ [tuple_id] else vs.

Lemma encode_values_snoc (vs : list DataValue) (v : DataValue) :
  encode_values (vs ++ [v]) =
  let? p := encode_values vs in let? e := memcomparable_encode v in Ok (p ++ e).
Proof.
  induction vs as [|w vs IH]; cbn [encode_values app].
  - destruct (memcomparable_encode v); [|done]. cbn [rbind]. by rewrite app_nil_r.
  - rewrite IH. destruct (memcomparable_encode w); [|done]. cbn [rbind].
    destruct (encode_values vs); [|done]. cbn [rbind]. destruct (memcomparable_encode v); [|done].
    cbn [rbind]. by rewrite (assoc_L app).
Qed.

Lemma with_index_key (name p b : list Z) (index : Index) (tuple_id : DataValue) :
  encode_values (entry_fields (idx_ty index) (idx_values index) tuple_id) = Ok p ->
  encode_reference_value tuple_id = Ok b ->
  with_index name index (Some tuple_id) capture = Ok (index_prefix name (idx_id index) ++ p, b).
Proof.
  intros Hp Hb. unfold with_index, entry_fields, index_prefix in *. rewrite Hb.
  destruct (appends_tuple_id (idx_ty index)).
  - rewrite encode_values_snoc in Hp. destruct (encode_values _) as [q|]; [|done].
    cbn [rbind] in *. destruct (memcomparable_encode tuple_id); [|done]. injection Hp as <-.
    cbn [rbind]. unfold capture. by rewrite <- !(assoc_L app).
  - by rewrite Hp.
Qed.

(** A tuple id of the primary key type, small enough for the value format. *)
Definition tuple_id_value (id : DataValue) (pk_ty : LogicalType) : Prop :=
  key_value id pk_ty /\ lens_fit id.

Lemma tuple_id_encodes (id : DataValue) (pk_ty : LogicalType) :
  tuple_id_value id pk_ty -> exists b, encode_reference_value id = Ok b /\ decode_index b = Ok id.
Proof.
  intros [K L]. destruct (round_trip data_value id) as (b & E & D).
  { split; [apply K|]. split; [by eapply key_value_no_parameter|done]. }
  exists b. split; [done|]. specialize (D []). rewrite app_nil_r in D.
  unfold decode_index. cbn [decode data_value] in D. by rewrite D.
Qed.

Lemma entry_fields_key_values (ty : IndexType) (vs : list DataValue) (id : DataValue)
    (ts : list LogicalType) (pk_ty : LogicalType) :
  Forall2 key_value vs ts -> key_value id pk_ty ->
  Forall2 key_value (entry_fields ty vs id) (if appends_tuple_id ty then ts ++ [pk_ty] else ts).
Proof.
  intros Hv Hi. unfold entry_fields. destruct (appends_tuple_id ty); [|done].
  apply Forall2_app; [done|by constructor].
Qed.

Lemma index_prefix_bounds (name e : list Z) (id : Z) :
  exists lower upper lower' upper',
    with_index_bound name id capture = Ok (lower, upper) /\
    with_all_index_bound name capture = Ok (lower', upper') /\
    in_bounds lower upper (index_prefix name id ++ e) /\
    in_bounds lower' upper' (index_prefix name id ++ e).
Proof.
  eexists _, _, _, _. split; [reflexivity|]. split; [reflexivity|]. unfold index_prefix. split.
  - set (p := write_key_prefix [] CodecType.Index (hash_bytes name) ++ [BOUND_MIN_TAG] ++ to_le_bytes 4 id).
    pose proof (bounds_inside p e 0 ltac:(lia)) as H. unfold p in H.
    rewrite <- !(assoc_L app) in H. rewrite <- !(assoc_L app). exact H.
  - rewrite <- !(assoc_L app). by apply bounds_inside.
Qed.

(** Index entries are ordered by their values, then (in a non-unique index)
    by the row they point to, they lie in the range of their index and of the
    table's indexes, and the stored value is the tuple id. *)
Theorem index_key_order {OF : OrderedFloat} (name : list Z) (id : Z) (ty : IndexType)
    (vs ws : list DataValue) (tv tw : DataValue) (ts : list LogicalType) (pk_ty : LogicalType) :
  Forall2 key_value vs ts -> Forall2 key_value ws ts ->
  tuple_id_value tv pk_ty -> tuple_id_value tw pk_ty ->
  exists kv kw bv bw c lower upper lower' upper',
    with_index name (mk_index id vs ty) (Some tv) capture = Ok (kv, bv) /\
    with_index name (mk_index id ws ty) (Some tw) capture = Ok (kw, bw) /\
    tuple_partial_cmp (entry_fields ty vs tv) (entry_fields ty ws tw) false false = Some c /\
    lex_cmp kv kw = c /\ decode_index bv = Ok tv /\
    with_index_bound name id capture = Ok (lower, upper) /\
    with_all_index_bound name capture = Ok (lower', upper') /\
    in_bounds lower upper kv /\ in_bounds lower' upper' kv.
Proof.
  intros Hv Hw Tv Tw.
  destruct (tuple_id_encodes tv pk_ty Tv) as (bv & Ev & Dv), (tuple_id_encodes tw pk_ty Tw) as (bw & Ew & _).
  destruct (encoded_values_ordered _ _ _ (entry_fields_key_values ty vs tv ts pk_ty Hv (proj1 Tv))
    (entry_fields_key_values ty ws tw ts pk_ty Hw (proj1 Tw))) as (pv & pw & c & E1 & E2 & Hc & He).
  destruct (index_prefix_bounds name pv id) as (lo & hi & lo' & hi' & B & B' & I & I').
  rewrite (with_index_key name pv bv (mk_index id vs ty) tv E1 Ev).
  rewrite (with_index_key name pw bw (mk_index id ws ty) tw E2 Ew).
  eexists _, _, bv, bw, c, lo, hi, lo', hi'.
  split; [reflexivity|]. split; [reflexivity|]. split; [done|].
  split; [cbn [idx_id]; rewrite lex_cmp_app_l; by apply lex_embed_cmp|]. split; [done|].
  split; [exact B|]. split; [exact B'|]. split; [exact I|exact I'].
Qed.

Lemma index_key_order_witness :
  exists kv kw bv bw c lower upper lower' upper',
    with_index [116] (mk_index 3 [DataValue.Int32 7] Normal) (Some (DataValue.Int64 2)) capture = Ok (kv, bv) /\
    with_index [116] (mk_index 3 [DataValue.Int32 7] Normal) (Some (DataValue.Int64 (-1))) capture = Ok (kw, bw) /\
    tuple_partial_cmp (entry_fields Normal [DataValue.Int32 7] (DataValue.Int64 2))
      (entry_fields Normal [DataValue.Int32 7] (DataValue.Int64 (-1))) false false = Some c /\
    lex_cmp kv kw = c /\ decode_index bv = Ok (DataValue.Int64 2) /\
    with_index_bound [116] 3 capture = Ok (lower, upper) /\
    with_all_index_bound [116] capture = Ok (lower', upper') /\
    in_bounds lower upper kv /\ in_bounds lower' upper' kv.
Proof.
  apply (index_key_order [116] 3 Normal [DataValue.Int32 7] [DataValue.Int32 7] (DataValue.Int64 2)
    (DataValue.Int64 (-1)) [LogicalType.Integer] LogicalType.Bigint);
    repeat constructor; unfold in_s; simpl; lia.
Defined.

(** The range scanned for one index holds the entries of that index of that
    table and no other. *)
Theorem index_bound_exact (name name' x lower upper : list Z) (id id' : Z) :
  in_u 32 id -> in_u 32 id' ->
  with_index_bound name id capture = Ok (lower, upper) ->
  in_bounds lower upper (index_prefix name' id' ++ x) <->
  hash_bytes name = hash_bytes name' /\ id = id'.
Proof.
  intros Hi Hi' E. apply captured in E as [<- <-]. split.
  - set (p n i := write_key_prefix [] CodecType.Index (hash_bytes n) ++ [BOUND_MIN_TAG] ++ to_le_bytes 4 i).
    intros H. assert (in_bounds (p name id ++ [BOUND_MIN_TAG]) (p name id ++ [BOUND_MAX_TAG])
      (p name' id' ++ [BOUND_MIN_TAG] ++ x)) as H'.
    { unfold p. unfold index_prefix in H. rewrite <- !(assoc_L app) in H. rewrite <- !(assoc_L app). exact H. }
    assert (forall n, length (write_key_prefix [] CodecType.Index (hash_bytes n)) = 9%nat) as Hl
      by (intros; apply length_table_prefix; [done|apply length_hash_bytes]).
    apply bounds_prefix in H'.
    + unfold p in H'. apply app_inj_1 in H' as [H1 H2]; [|by rewrite !Hl].
      apply table_prefix_inj in H1 as [_ H1]; [|done|done]. apply app_inj_1 in H2 as [_ H2]; [|done].
      split; [done|]. symmetry. by apply (to_le_bytes_inj 4).
    + unfold p. rewrite !length_app, !Hl, !length_to_le_bytes. done.
  - intros [Hh <-]. destruct (index_prefix_bounds name x id) as (lo & hi & _ & _ & B & _ & I & _).
    apply captured in B as [<- <-]. unfold index_prefix in *. by rewrite <- Hh.
Qed.

Lemma index_bound_exact_witness :
  in_bounds (index_prefix [116] 5) (write_key_prefix [] CodecType.Index (hash_bytes [116]) ++
    [BOUND_MIN_TAG] ++ to_le_bytes 4 5 ++ [BOUND_MAX_TAG]) (index_prefix [116] 5 ++ [1]).
Proof.
  apply (index_bound_exact [116] [116] [1] _ _ 5 5); [by unfold in_u|by unfold in_u|reflexivity|by split].
Defined.

(** ** Reading the values of an entry back *)

(** What the loop does with values already decoded. *)
Fixpoint place (m : IndexKeyMapping) (pos : nat) (vs acc : list DataValue) : list DataValue :=
  match vs with
  | [] => acc
  | v :: vs' =>
      place m (S pos) vs'
        (match scan_index m pos with Some p => <[p := v]> acc | None => acc end)
  end.

(** Every slot the mapping names for these positions is inside the target. *)
Definition slots_fit (m : IndexKeyMapping) (pos n len : nat) : Prop :=
  forall i p, (pos <= i < pos + n)%nat -> scan_index m i = Some p -> (p < len)%nat.

Lemma decode_index_loop_place (m : IndexKeyMapping) (pos : nat) (vs : list DataValue)
    (ts : list LogicalType) (e r : list Z) (acc : list DataValue) :
  Forall2 decodes vs ts -> encode_values vs = Ok e -> slots_fit m pos (length vs) (length acc) ->
  decode_index_loop m pos ts (e ++ r) acc = Ok (place m pos (map canon vs) acc).
Proof.
  intros H. revert pos e acc. induction H as [|v t vs ts (b & E & D) _ IH]; intros pos e acc Hv Hs.
  - by injection Hv as <-.
  - cbn [encode_values] in Hv. rewrite E in Hv. cbn [rbind] in Hv.
    destruct (encode_values vs) as [bs|] eqn:Es; [|done]. injection Hv as <-.
    cbn [decode_index_loop map place]. rewrite <- (assoc_L app), D. cbn [rbind].
    destruct (scan_index m pos) as [p|] eqn:Ep.
    + assert (p < length acc)%nat as Hp by (apply (Hs pos); [simpl; lia|done]).
      rewrite (proj2 (Nat.ltb_lt _ _) Hp). cbn [rbind]. apply IH; [done|].
      rewrite length_insert. intros i q Hi. apply Hs. simpl. lia.
    + cbn [rbind]. apply IH; [done|]. intros i q Hi. apply Hs. simpl. lia.
Qed.

Lemma place_length (m : IndexKeyMapping) (pos : nat) (vs acc : list DataValue) :
  length (place m pos vs acc) = length acc.
Proof.
  revert pos acc. induction vs as [|v vs IH]; intros pos acc; [done|]. simpl. rewrite IH.
  destruct (scan_index m pos); [by rewrite length_insert|done].
Qed.

(** Slots no position maps to keep what they had. *)
Lemma place_other (m : IndexKeyMapping) (pos : nat) (vs acc : list DataValue) (p : nat) :
  (forall i, (pos <= i < pos + length vs)%nat -> scan_index m i <> Some p) ->
  place m pos vs acc !! p = acc !! p.
Proof.
  revert pos acc. induction vs as [|v vs IH]; intros pos acc H; [done|]. cbn [place].
  rewrite IH by (intros i Hi; apply H; simpl; lia).
  destruct (scan_index m pos) as [q|] eqn:E; [|done].
  apply list_lookup_insert_ne. intros ->. apply (H pos); [simpl; lia|done].
Qed.

(** No two positions share a slot. *)
Definition mapping_inj (m : IndexKeyMapping) : Prop :=
  forall i j p, scan_index m i = Some p -> scan_index m j = Some p -> i = j.

Lemma place_at (m : IndexKeyMapping) (pos : nat) (vs acc : list DataValue) (i p : nat) (v : DataValue) :
  mapping_inj m -> slots_fit m pos (length vs) (length acc) ->
  vs !! i = Some v -> scan_index m (pos + i)%nat = Some p ->
  place m pos vs acc !! p = Some v.
Proof.
  intros Hinj. revert pos acc i. induction vs as [|w vs IH]; intros pos acc i Hs Hi Hp; [done|].
  destruct i as [|i]; simpl in Hi.
  - injection Hi as ->. rewrite Nat.add_0_r in Hp. cbn [place]. rewrite Hp.
    rewrite place_other.
    + apply list_lookup_insert_eq. apply (Hs pos); [simpl; lia|done].
    + intros j Hj Ej. pose proof (Hinj _ _ _ Hp Ej). lia.
  - cbn [place]. apply (IH _ _ i); [|done|by rewrite <- Nat.add_succ_comm in Hp].
    intros j q Hj Eq. assert (q < length acc)%nat by (apply (Hs j); [simpl; lia|done]).
    destruct (scan_index m pos); [by rewrite length_insert|done].
Qed.

(** Decoding an entry's key through a mapping. *)
Lemma index_key_decodes {OF : OrderedFloat} (name : list Z) (id : Z) (ity : IndexType)
    (vs : list DataValue) (tuple_id : DataValue) (ty pk_ty : LogicalType) (m : IndexKeyMapping) :
  Forall2 key_value vs (index_types ty) -> tuple_id_value tuple_id pk_ty ->
  mapping_inj m -> slots_fit m 0 (length vs) (target_len m (length vs)) ->
  exists key b row,
    with_index name (mk_index id vs ity) (Some tuple_id) capture = Ok (key, b) /\
    decode_index_key key ty m = Ok row /\
    length row = target_len m (length vs) /\
    (forall i p v, vs !! i = Some v -> scan_index m i = Some p -> row !! p = Some (canon v)) /\
    (forall p, (p < target_len m (length vs))%nat ->
      (forall i, (i < length vs)%nat -> scan_index m i <> Some p) -> row !! p = Some DataValue.Null).
Proof.
  intros Hv Ht Hinj Hs. destruct (tuple_id_encodes tuple_id pk_ty Ht) as (b & Eb & _).
  assert (Forall2 decodes vs (index_types ty)) as Hd.
  { eapply Forall2_impl; [|exact Hv]. intros. by apply key_value_decodes. }
  assert (length (index_types ty) = length vs) as Hlen by (symmetry; by eapply Forall2_length).
  destruct (decode_values_app vs _ Hd) as (e & Ee & _).
  destruct (key_value_decodes tuple_id pk_ty (proj1 Ht)) as (et & Et & _).
  set (tail := if appends_tuple_id ity then et else []).
  assert (encode_values (entry_fields ity vs tuple_id) = Ok (e ++ tail)) as Ep.
  { unfold entry_fields, tail. destruct (appends_tuple_id ity); [|by rewrite app_nil_r].
    rewrite encode_values_snoc, Ee. cbn [rbind]. by rewrite Et. }
  exists (index_prefix name id ++ e ++ tail), b, (place m 0 (map canon vs) (replicate (target_len m (length vs)) DataValue.Null)).
  split; [by rewrite (with_index_key name (e ++ tail) b (mk_index id vs ity) tuple_id)|].
  split; [|split; [by rewrite place_length, length_replicate|split]].
  - unfold decode_index_key. rewrite slice_from_app, Hlen.
    + cbn [rbind]. apply decode_index_loop_place; [done|done|]. by rewrite length_replicate.
    + unfold index_prefix. rewrite !length_app, length_table_prefix, length_to_le_bytes
        by (done || apply length_hash_bytes). done.
  - intros i p v Hi Hp. apply (place_at m 0 _ _ i); [done| | |done].
    + by rewrite length_map, length_replicate.
    + rewrite list_lookup_fmap, Hi. done.
  - intros p Hp Hn. rewrite place_other; [by apply lookup_replicate|].
    intros i Hi. apply Hn. rewrite length_map in Hi. lia.
Qed.

(** A covering scan reads the indexed values from the key. For any mapping
    that sends key positions to distinct slots of the output row, decoding an
    entry fills exactly those slots with the indexed values (up to the sign of
    a float zero) and leaves null in the others. *)
Theorem index_key_roundtrip {OF : OrderedFloat} (name : list Z) (id : Z) (ity : IndexType)
    (vs : list DataValue) (tuple_id : DataValue) (ty pk_ty : LogicalType) (m : IndexKeyMapping) :
  Forall2 key_value vs (index_types ty) -> tuple_id_value tuple_id pk_ty ->
  mapping_inj m -> slots_fit m 0 (length vs) (target_len m (length vs)) ->
  exists key b row,
    with_index name (mk_index id vs ity) (Some tuple_id) capture = Ok (key, b) /\
    decode_index_key key ty m = Ok row /\
    length row = target_len m (length vs) /\
    (forall i p v, vs !! i = Some v -> scan_index m i = Some p -> row !! p = Some (canon v)) /\
    (forall p, (p < target_len m (length vs))%nat ->
      (forall i, (i < length vs)%nat -> scan_index m i <> Some p) -> row !! p = Some DataValue.Null).
Proof. apply index_key_decodes. Qed.

Lemma index_key_roundtrip_witness :
  exists key b row,
    with_index [116] (mk_index 3 [DataValue.Int32 7; DataValue.Int32 8] Normal)
      (Some (DataValue.Int64 2)) capture = Ok (key, b) /\
    decode_index_key key (LogicalType.Tuple [LogicalType.Integer; LogicalType.Integer])
      OrderedMapping = Ok row /\
    length row = 2%nat /\
    (forall i p v, [DataValue.Int32 7; DataValue.Int32 8] !! i = Some v ->
      scan_index OrderedMapping i = Some p -> row !! p = Some (canon v)) /\
    (forall p, (p < 2)%nat ->
      (forall i, (i < 2)%nat -> scan_index OrderedMapping i <> Some p) -> row !! p = Some DataValue.Null).
Proof.
  apply (index_key_roundtrip [116] 3 Normal [DataValue.Int32 7; DataValue.Int32 8] (DataValue.Int64 2)
    (LogicalType.Tuple [LogicalType.Integer; LogicalType.Integer]) LogicalType.Bigint OrderedMapping).
  - repeat constructor; unfold in_s; simpl; lia.
  - repeat constructor; unfold in_s; simpl; lia.
  - intros i j p [= ->] [= ->]. done.
  - intros i p Hi [= ->]. simpl in *. lia.
Defined.

(** * Statistics *)

Lemma length_statistics_prefix (name : list Z) (id : Z) :
  length (statistics_prefix name id) = (TUPLE_KEY_PREFIX_LEN + INDEX_ID_LEN)%nat.
Proof.
  unfold statistics_prefix. rewrite !length_app, length_table_prefix, length_to_le_bytes
    by (done || apply length_hash_bytes). done.
Qed.

Lemma from_tag_tag (t : StatisticsCodecType) :
  StatisticsCodecType.from_tag (StatisticsCodecType.tag t) = Ok t.
Proof. by destruct t. Qed.

Lemma decode_statistics_tag (name s : list Z) (id : Z) (t : StatisticsCodecType) :
  decode_statistics_codec_type (statistics_prefix name id ++ StatisticsCodecType.tag t :: s) = Ok t.
Proof.
  unfold decode_statistics_codec_type. rewrite lookup_app_r by (by rewrite length_statistics_prefix).
  rewrite length_statistics_prefix, Nat.sub_diag. apply from_tag_tag.
Qed.

Lemma statistics_index_inside (name s : list Z) (id : Z) (t : StatisticsCodecType) :
  in_bounds (statistics_prefix name id) (statistics_prefix name id ++ [BOUND_MAX_TAG])
    (statistics_prefix name id ++ [StatisticsCodecType.tag t] ++ s).
Proof.
  split; [apply lex_le_prefix|]. unfold lex_le. rewrite lex_cmp_app_l. by destruct t.
Qed.

Lemma bucket_ordinal_app (p : list Z) (o : Z) :
  in_u 32 o -> decode_statistics_bucket_ordinal (p ++ to_be_bytes 4 o) = Ok o.
Proof.
  intros Ho. unfold decode_statistics_bucket_ordinal, STATISTICS_BUCKET_ORD_LEN.
  rewrite length_app, length_to_be_bytes, (proj2 (Nat.ltb_ge _ _)) by lia.
  rewrite drop_app_length' by lia. by rewrite from_to_be_bytes.
Qed.

(** A scan of an index's statistics tells the parts apart. Each of the five
    statistics keys of an index lies in the range scanned for it and decodes to
    its own part; a bucket key gives back its ordinal, and bucket keys are
    ordered by ordinal. *)
Theorem statistics_keys (name : list Z) (id row page o1 o2 : Z) :
  in_u 32 o1 -> in_u 32 o2 ->
  exists lower upper root meta pg b1 b2 top,
    with_statistics_index_bound name id capture = Ok (lower, upper) /\
    with_statistics_meta name id None capture = Ok (root, []) /\
    with_statistics_sketch_meta name id None capture = Ok (meta, []) /\
    with_statistics_sketch_page name id row page None capture = Ok (pg, []) /\
    with_statistics_bucket name id o1 None capture = Ok (b1, []) /\
    with_statistics_bucket name id o2 None capture = Ok (b2, []) /\
    with_statistics_top_n name id None capture = Ok (top, []) /\
    Forall (in_bounds lower upper) [root; meta; pg; b1; b2; top] /\
    map decode_statistics_codec_type [root; meta; pg; b1; b2; top] =
      [Ok StatisticsCodecType.Root; Ok StatisticsCodecType.SketchMeta;
       Ok StatisticsCodecType.SketchPage; Ok StatisticsCodecType.Bucket;
       Ok StatisticsCodecType.Bucket; Ok StatisticsCodecType.TopN] /\
    decode_statistics_bucket_ordinal b1 = Ok o1 /\ lex_cmp b1 b2 = (o1 ?= o2).
Proof.
  intros H1 H2. do 8 eexists. do 7 (split; [reflexivity|]). split; [|split; [|split]].
  - rewrite !list.Forall_cons. pose proof (statistics_index_inside name) as Hin.
    split_and!; try apply Hin; [apply (Hin [])..|constructor].
  - cbn [map app]. by rewrite !decode_statistics_tag.
  - rewrite !(assoc_L app). by apply bucket_ordinal_app.
  - rewrite lex_cmp_app_l. cbn [app lex_cmp]. rewrite !Z.compare_refl. cbn [cmp_then].
    by apply lex_embed_cmp, lex_embed_be_bytes.
Qed.

Lemma statistics_keys_witness :
  exists b1, with_statistics_bucket [116] 3 258 None capture = Ok (b1, []) /\
    decode_statistics_bucket_ordinal b1 = Ok 258.
Proof.
  destruct (statistics_keys [116] 3 0 0 258 1) as (lo & hi & r & m & p & b1 & b2 & t &
    _ & _ & _ & _ & E & _ & _ & _ & _ & D & _); [by unfold in_u|by unfold in_u|].
  exists b1. split; [exact E|exact D].
Defined.
