(* ===== verification/Row.v ===== *)
(** The row format (src/src/types/serialize.rs, src/src/types/tuple.rs): a null
    bitmap, then the non-null columns one after another.

    [to_raw] and [from_raw] are per column type; [SkipFixed] and [SkipVariable]
    stand for the columns a projected scan does not read. A cursor is the list
    of the bytes after its position; a seek past the end leaves none. A mismatch
    of serializer and value, which the code declares unreachable
    ([unreachable_unchecked]), is [Err Panic] here. *)

From S2P Require Import Prelude MachineInt Types Reader Value MemComparable.
From stdpp Require Import base list list_numbers numbers option.
From Stdlib Require Import ZArith Lia.
Local Open Scope Z_scope.

Module TupleValueSerializableImpl.
Inductive TupleValueSerializableImpl :=
| Boolean
| Int8
| Int16
| Int32
| Int64
| UInt8
| UInt16
| UInt32
| UInt64
| Float32
| Float64
| Char (len : Z) (unit : CharLengthUnits)
| Varchar (len : option Z) (unit : CharLengthUnits)
| Date
| DateTime
| Time (precision : option Z)
| Timestamp (precision : option Z) (zone : bool)
| Decimal
| SkipFixed (len : Z)
| SkipVariable.
End TupleValueSerializableImpl.
Notation TupleValueSerializableImpl := TupleValueSerializableImpl.TupleValueSerializableImpl.
Module Impl := TupleValueSerializableImpl.

Definition SPACE : Z := 32.

(** Blocks of 64 spaces, then the rest; [fuel] bounds the iterations. *)
Fixpoint write_spaces_loop (fuel : nat) (len : nat) : list Z :=
  match fuel with
  | O => []
  | S fuel' =>
      if (64 <=? len)%nat then replicate 64 SPACE ++ write_spaces_loop fuel' (len - 64)
      else replicate len SPACE
  end.

Definition write_spaces (len : nat) : list Z := write_spaces_loop (S len) len.

Definition write_u32_le (v : Z) : list Z := to_le_bytes 4 (as_u 32 v).

(** [saturating_sub]. *)
Definition saturating_sub (a b : Z) : Z := Z.max 0 (a - b).

Definition to_raw (self : TupleValueSerializableImpl) (value : DataValue) : res (list Z) :=
  match self, value with
  | Impl.Boolean, DataValue.Boolean v => Ok [if v then 1 else 0]
  | Impl.Int8, DataValue.Int8 v => Ok (to_le_bytes 1 (as_u 8 v))
  | Impl.Int16, DataValue.Int16 v => Ok (to_le_bytes 2 (as_u 16 v))
  | Impl.Int32, DataValue.Int32 v => Ok (to_le_bytes 4 (as_u 32 v))
  | Impl.Int64, DataValue.Int64 v => Ok (to_le_bytes 8 (as_u 64 v))
  | Impl.UInt8, DataValue.UInt8 v => Ok (to_le_bytes 1 v)
  | Impl.UInt16, DataValue.UInt16 v => Ok (to_le_bytes 2 v)
  | Impl.UInt32, DataValue.UInt32 v => Ok (to_le_bytes 4 v)
  | Impl.UInt64, DataValue.UInt64 v => Ok (to_le_bytes 8 v)
  | Impl.Float32, DataValue.Float32 v => Ok (to_le_bytes 4 v)
  | Impl.Float64, DataValue.Float64 v => Ok (to_le_bytes 8 v)
  | Impl.Char _ _, DataValue.Utf8 value (Fixed len) unit =>
      match unit with
      | Characters =>
          let spaces_len := saturating_sub len (chars_count value) in
          Ok (write_u32_le (byte_len value + spaces_len) ++ value ++ write_spaces (Z.to_nat spaces_len))
      | Octets =>
          if len <? byte_len value then Err Panic
          else Ok (value ++ write_spaces (Z.to_nat (len - byte_len value)))
      end
  | Impl.Varchar _ _, DataValue.Utf8 value (Variable_ _) _ =>
      Ok (write_u32_le (byte_len value) ++ value)
  | Impl.Date, DataValue.Date32 v => Ok (to_le_bytes 4 (as_u 32 v))
  | Impl.DateTime, DataValue.Date64 v => Ok (to_le_bytes 8 (as_u 64 v))
  | Impl.Time _, DataValue.Time32 v _ => Ok (to_le_bytes 4 v)
  | Impl.Timestamp _ _, DataValue.Time64 v _ _ => Ok (to_le_bytes 8 (as_u 64 v))
  | Impl.Decimal, _ => Err UnsupportedStmt
  | _, _ => Err Panic
  end.

(** [bytes.truncate] after the last byte that is not a space. *)
Fixpoint trim_spaces (bytes : list Z) : list Z :=
  match bytes with
  | [] => []
  | b :: bytes' =>
      match trim_spaces bytes' with
      | [] => if b =? SPACE then [] else [b]
      | t => b :: t
      end
  end.

(** [reader.seek(SeekFrom::Current(n))]. *)
Definition seek (n : Z) (reader : list Z) : list Z := drop (Z.to_nat n) reader.

Definition from_raw (self : TupleValueSerializableImpl) (reader : list Z) : res (DataValue * list Z) :=
  let num (n : nat) (k : Z -> DataValue) :=
    let? (u, reader) := read_le_u n reader in Ok (k u, reader) in
  let snum (n : nat) (w : Z) (k : Z -> DataValue) :=
    let? (v, reader) := read_le_s n w reader in Ok (k v, reader) in
  match self with
  | Impl.Boolean => num 1%nat (fun v => DataValue.Boolean (negb (v =? 0)))
  | Impl.Int8 => snum 1%nat 8 DataValue.Int8
  | Impl.Int16 => snum 2%nat 16 DataValue.Int16
  | Impl.Int32 => snum 4%nat 32 DataValue.Int32
  | Impl.Int64 => snum 8%nat 64 DataValue.Int64
  | Impl.UInt8 => num 1%nat DataValue.UInt8
  | Impl.UInt16 => num 2%nat DataValue.UInt16
  | Impl.UInt32 => num 4%nat DataValue.UInt32
  | Impl.UInt64 => num 8%nat DataValue.UInt64
  | Impl.Float32 => num 4%nat DataValue.Float32
  | Impl.Float64 => num 8%nat DataValue.Float64
  | Impl.Char len unit =>
      let? (n, reader) :=
        match unit with
        | Characters => read_le_u 4 reader
        | Octets => Ok (len, reader)
        end in
      let? (bytes, reader) := read_exact (Z.to_nat n) reader in
      let? value := from_utf8 (trim_spaces bytes) in
      Ok (DataValue.Utf8 value (Fixed len) unit, reader)
  | Impl.Varchar len unit =>
      let? (n, reader) := read_le_u 4 reader in
      let? (bytes, reader) := read_exact (Z.to_nat n) reader in
      let? value := from_utf8 bytes in
      Ok (DataValue.Utf8 value (Variable_ len) unit, reader)
  | Impl.Date => snum 4%nat 32 DataValue.Date32
  | Impl.DateTime => snum 8%nat 64 DataValue.Date64
  | Impl.Time precision => num 4%nat (fun v => DataValue.Time32 v (default 0 precision))
  | Impl.Timestamp precision zone =>
      snum 8%nat 64 (fun v => DataValue.Time64 v (default 0 precision) zone)
  | Impl.Decimal => Err UnsupportedStmt
  | Impl.SkipFixed n => Ok (DataValue.Null, seek n reader)
  | Impl.SkipVariable =>
      let? (n, reader) := read_le_u 4 reader in
      Ok (DataValue.Null, seek n reader)
  end.

Definition is_skip (self : TupleValueSerializableImpl) : bool :=
  match self with Impl.SkipFixed _ | Impl.SkipVariable => true | _ => false end.

(** [filling_value]: the skipping serializers push nothing. *)
Definition filling_value (self : TupleValueSerializableImpl) (reader : list Z)
    (values : list DataValue) : res (list DataValue * list Z) :=
  let? (v, reader) := from_raw self reader in
  Ok (if is_skip self then values else values ++ [v], reader).

Definition serializable (ty : LogicalType) : res TupleValueSerializableImpl :=
  match ty with
  | LogicalType.Boolean => Ok Impl.Boolean
  | LogicalType.Tinyint => Ok Impl.Int8
  | LogicalType.UTinyint => Ok Impl.UInt8
  | LogicalType.Smallint => Ok Impl.Int16
  | LogicalType.USmallint => Ok Impl.UInt16
  | LogicalType.Integer => Ok Impl.Int32
  | LogicalType.UInteger => Ok Impl.UInt32
  | LogicalType.Bigint => Ok Impl.Int64
  | LogicalType.UBigint => Ok Impl.UInt64
  | LogicalType.Float => Ok Impl.Float32
  | LogicalType.Double => Ok Impl.Float64
  | LogicalType.Char len unit => Ok (Impl.Char len unit)
  | LogicalType.Varchar len unit => Ok (Impl.Varchar len unit)
  | LogicalType.Date => Ok Impl.Date
  | LogicalType.DateTime => Ok Impl.DateTime
  | LogicalType.Time precision => Ok (Impl.Time precision)
  | LogicalType.TimeStamp precision zone => Ok (Impl.Timestamp precision zone)
  | LogicalType.Decimal _ _ => Ok Impl.Decimal
  | LogicalType.SqlNull | LogicalType.Tuple _ => Err Panic
  end.

Definition skip_serializable (ty : LogicalType) : res TupleValueSerializableImpl :=
  let? len := raw_len ty in
  Ok (match len with Some n => Impl.SkipFixed n | None => Impl.SkipVariable end).

(** * Rows *)

Definition BITS_MAX_INDEX : nat := 8.

Record Tuple := mk_tuple { pk : option DataValue; values : list DataValue }.

(** [bits & (1 << (7 - i)) > 0]. *)
Definition is_null_bit (bits : Z) (i : nat) : bool :=
  0 <? Z.land bits (Z.shiftl 1 (7 - Z.of_nat i)).

(** [bits | (1 << (7 - i))]. *)
Definition flip_bit (bits : Z) (i : nat) : Z :=
  Z.lor bits (Z.shiftl 1 (7 - Z.of_nat i)).

Fixpoint deserialize_loop (i : nat) (deserializers : list TupleValueSerializableImpl)
    (bytes cursor : list Z) (vals : list DataValue) : res (list DataValue) :=
  match deserializers with
  | [] => Ok vals
  | d :: deserializers' =>
      match bytes !! (i / BITS_MAX_INDEX)%nat with
      | None => Err Panic
      | Some bits =>
          if is_null_bit bits (i mod BITS_MAX_INDEX)%nat then
            deserialize_loop (S i) deserializers' bytes cursor (vals ++ [DataValue.Null])
          else
            let? (vals, cursor) := filling_value d cursor vals in
            deserialize_loop (S i) deserializers' bytes cursor vals
      end
  end.

Definition deserialize_from_into (self : Tuple) (deserializers : list TupleValueSerializableImpl)
    (bytes : list Z) (total_len : nat) : res Tuple :=
  let bits_len := ((total_len + BITS_MAX_INDEX) / BITS_MAX_INDEX)%nat in
  if (length bytes <? bits_len)%nat then Err Panic
  else
    let? vals := deserialize_loop 0 deserializers bytes (drop bits_len bytes) [] in
    Ok (mk_tuple (pk self) vals).

(** The loop over [values.zip(serializers)]; [bytes] holds the bitmap and the
    data written so far. *)
Fixpoint serialize_loop (i : nat) (vals : list DataValue)
    (serializers : list TupleValueSerializableImpl) (bytes : list Z) : res (list Z) :=
  match vals, serializers with
  | value :: vals', serializer :: serializers' =>
      let? bytes :=
        if is_null value then
          match bytes !! (i / BITS_MAX_INDEX)%nat with
          | None => Err Panic
          | Some b => Ok (<[(i / BITS_MAX_INDEX)%nat := flip_bit b (i mod BITS_MAX_INDEX)%nat]> bytes)
          end
        else let? raw := to_raw serializer value in Ok (bytes ++ raw) in
      serialize_loop (S i) vals' serializers' bytes
  | _, _ => Ok bytes
  end.

Definition serialize_to (self : Tuple) (serializers : list TupleValueSerializableImpl) : res (list Z) :=
  let values_len := length (values self) in
  let bits_len := ((values_len + BITS_MAX_INDEX) / BITS_MAX_INDEX)%nat in
  serialize_loop 0 (values self) serializers (replicate bits_len 0).

(** [values[i]], out of range panics. *)
Definition value_at (vals : list DataValue) (index : nat) : res DataValue :=
  match vals !! index with Some v => Ok v | None => Err Panic end.

Definition primary_projection (pk_indices : list nat) (vals : list DataValue) : res DataValue :=
  if (1 <? length pk_indices)%nat then
    let? vs := rmap (value_at vals) pk_indices in Ok (DataValue.Tuple vs)
  else
    match pk_indices with
    | i :: _ => value_at vals i
    | [] => Err Panic
    end.

(** * Trailing spaces *)

Lemma write_spaces_loop_replicate (fuel len : nat) :
  (len < fuel)%nat -> write_spaces_loop fuel len = replicate len SPACE.
Proof.
  revert len. induction fuel as [|fuel IH]; intros len H; [lia|]. cbn [write_spaces_loop].
  destruct (Nat.leb_spec 64 len); [|done]. rewrite IH by lia.
  rewrite <- replicate_add. f_equal. lia.
Qed.

Lemma write_spaces_replicate (len : nat) : write_spaces len = replicate len SPACE.
Proof. apply write_spaces_loop_replicate. lia. Qed.

Lemma trim_spaces_replicate (n : nat) : trim_spaces (replicate n SPACE) = [].
Proof. induction n as [|n IH]; [done|]. simpl. by rewrite IH. Qed.

Lemma trim_spaces_app (s : list Z) (n : nat) :
  trim_spaces (s ++ replicate n SPACE) = trim_spaces s.
Proof.
  induction s as [|b s IH]; [apply trim_spaces_replicate|]. simpl. by rewrite IH.
Qed.

Lemma trim_spaces_split (s : list Z) : exists n, s = trim_spaces s ++ replicate n SPACE.
Proof.
  induction s as [|b s (n & IH)]; [by exists 0%nat|]. simpl.
  destruct (trim_spaces s) as [|t ts] eqn:E.
  - simpl in IH. destruct (Z.eqb_spec b SPACE) as [->|].
    + exists (S n). simpl. by rewrite IH at 1.
    + exists n. simpl. by rewrite IH at 1.
  - exists n. simpl. by rewrite IH at 1.
Qed.

(** The bytes after the first character, if it is well formed. *)
Definition next_char (bs : list Z) : option (list Z) :=
  let guard (c : bool) (r : list Z) := if c then Some r else None in
  match bs with
  | [] => None
  | b :: r1 =>
      if Utf8.between 0 b 0x7F then Some r1
      else
        match r1 with
        | [] => None
        | c1 :: r2 =>
            if Utf8.between 0xC2 b 0xDF then guard (is_cont c1) r2
            else
              match r2 with
              | [] => None
              | c2 :: r3 =>
                  if Utf8.between 0xE0 b 0xE0 then guard (Utf8.between 0xA0 c1 0xBF && is_cont c2) r3
                  else if Utf8.between 0xE1 b 0xEC then guard (is_cont c1 && is_cont c2) r3
                  else if Utf8.between 0xED b 0xED then guard (Utf8.between 0x80 c1 0x9F && is_cont c2) r3
                  else if Utf8.between 0xEE b 0xEF then guard (is_cont c1 && is_cont c2) r3
                  else
                    match r3 with
                    | [] => None
                    | c3 :: r4 =>
                        if Utf8.between 0xF0 b 0xF0 then
                          guard (Utf8.between 0x90 c1 0xBF && is_cont c2 && is_cont c3) r4
                        else if Utf8.between 0xF1 b 0xF3 then
                          guard (is_cont c1 && is_cont c2 && is_cont c3) r4
                        else if Utf8.between 0xF4 b 0xF4 then
                          guard (Utf8.between 0x80 c1 0x8F && is_cont c2 && is_cont c3) r4
                        else None
                    end
              end
        end
  end.

Ltac split_cond :=
  match goal with |- context [if ?c then _ else _] => destruct c end.

Lemma utf8_valid_next (b : Z) (bs : list Z) :
  utf8_valid (b :: bs) = match next_char (b :: bs) with Some r => utf8_valid r | None => false end.
Proof.
  cbn [utf8_valid next_char].
  destruct (Utf8.between 0 b 0x7F); [done|]. destruct bs as [|c1 r2]; [done|].
  destruct (Utf8.between 0xC2 b 0xDF); [by destruct (is_cont c1)|]. destruct r2 as [|c2 r3]; [done|].
  do 4 (destruct (Utf8.between _ b _); [by split_cond|]). destruct r3 as [|c3 r4]; [done|].
  do 3 (destruct (Utf8.between _ b _); [by split_cond|]). done.
Qed.

Lemma next_char_shorter (a r : list Z) : next_char a = Some r -> (length r < length a)%nat.
Proof.
  unfold next_char. intros H. repeat (case_match; try done); simplify_eq; simpl; lia.
Qed.

Lemma next_char_app (a s r : list Z) : next_char a = Some r -> next_char (a ++ s) = Some (r ++ s).
Proof.
  destruct a as [|b [|c1 [|c2 [|c3 a]]]]; cbn [next_char app]; try done;
    repeat match goal with
    | |- context [if ?c then _ else _] => destruct c
    end; try done; by intros [= <-].
Qed.

(** A space is never the middle of a character. *)
Lemma next_char_snoc_space (b : Z) (a : list Z) :
  next_char (b :: a) = None -> next_char (b :: a ++ [SPACE]) = None \/
    exists c, a = [] /\ next_char (b :: a ++ [SPACE]) = Some c /\ utf8_valid c = false.
Proof.
  destruct a as [|c1 [|c2 [|c3 a]]]; cbn [next_char app];
    repeat match goal with
    | |- context [if ?c then _ else _] => destruct c eqn:?
    end; try done; try (by left); simpl in *; rewrite ?andb_false_r in *; try done.
Qed.

Lemma utf8_valid_snoc_space (a : list Z) : utf8_valid (a ++ [SPACE]) = utf8_valid a.
Proof.
  remember (length a) as n eqn:Hn. revert a Hn. induction n as [n IH] using lt_wf_ind.
  intros [|b a] ->; [done|]. cbn [app]. rewrite !utf8_valid_next.
  destruct (next_char (b :: a)) as [r|] eqn:E.
  - pose proof (next_char_app (b :: a) [SPACE] r E) as E'. cbn [app] in E'. rewrite E'.
    apply (IH (length r)); [|done]. by apply next_char_shorter.
  - by destruct (next_char_snoc_space b a E) as [->|(c & _ & -> & ->)].
Qed.

Lemma utf8_valid_trim (s : list Z) : utf8_valid s = true -> utf8_valid (trim_spaces s) = true.
Proof.
  intros H. destruct (trim_spaces_split s) as [n E]. rewrite E in H. clear E.
  induction n as [|n IH]; [by rewrite app_nil_r in H|]. apply IH.
  rewrite replicate_S_end, (assoc_L app), utf8_valid_snoc_space in H. done.
Qed.

(** * Columns *)

(** The value fits the length fields and the declared width. *)
Definition row_fits (v : DataValue) : Prop :=
  match v with
  | DataValue.Utf8 s (Fixed len) Characters =>
      byte_len s + saturating_sub len (chars_count s) < 2 ^ 32
  | DataValue.Utf8 s (Fixed len) Octets => byte_len s <= len
  | DataValue.Utf8 s (Variable_ _) _ => byte_len s < 2 ^ 32
  | _ => True
  end.

(** A value a column of type [ty] stores. *)
Definition row_value (v : DataValue) (ty : LogicalType) : Prop :=
  dv_ok v /\ has_type v ty /\ row_fits v.

(** What is read back: a [CHAR] value loses its trailing spaces. *)
Definition trim (v : DataValue) : DataValue :=
  match v with
  | DataValue.Utf8 s (Fixed len) unit => DataValue.Utf8 (trim_spaces s) (Fixed len) unit
  | v => v
  end.

Lemma filling_num (s : TupleValueSerializableImpl) (n : nat) (b r : list Z) (acc : list DataValue) (v : DataValue) :
  is_skip s = false -> from_raw s (b ++ r) = Ok (v, r) -> filling_value s (b ++ r) acc = Ok (acc ++ [v], r).
Proof. intros Hs H. unfold filling_value. rewrite H. cbn [rbind]. by rewrite Hs. Qed.

Lemma skip_fixed (n : Z) (b r : list Z) (acc : list DataValue) :
  Z.of_nat (length b) = n -> filling_value (Impl.SkipFixed n) (b ++ r) acc = Ok (acc, r).
Proof.
  intros <-. unfold filling_value. cbn [from_raw rbind is_skip]. unfold seek.
  by rewrite Nat2Z.id, drop_app_length.
Qed.

Lemma skip_variable (n : Z) (b r : list Z) (acc : list DataValue) :
  in_u 32 n -> Z.of_nat (length b) = n ->
  filling_value Impl.SkipVariable (write_u32_le n ++ b ++ r) acc = Ok (acc, r).
Proof.
  intros Hn Hl. unfold filling_value, write_u32_le. cbn [from_raw is_skip].
  rewrite as_u_id, (read_le_u_app 4 32) by done. cbn [rbind]. unfold seek.
  by rewrite <- Hl, Nat2Z.id, drop_app_length.
Qed.

Lemma from_raw_varchar (s r : list Z) (len : option Z) (unit : CharLengthUnits) :
  utf8_valid s = true -> byte_len s < 2 ^ 32 ->
  from_raw (Impl.Varchar len unit) ((write_u32_le (byte_len s) ++ s) ++ r) =
  Ok (DataValue.Utf8 s (Variable_ len) unit, r).
Proof.
  intros Hu Hl. assert (in_u 32 (byte_len s)) by (unfold in_u, byte_len in *; lia).
  unfold write_u32_le. cbn [from_raw].
  rewrite as_u_id, <- (assoc_L app), (read_le_u_app 4 32) by done.
  cbn [rbind]. rewrite read_exact_app by (unfold byte_len; lia). cbn [rbind].
  unfold from_utf8. by rewrite Hu.
Qed.

(** The padded bytes of a [CHAR] value. *)
Lemma from_utf8_padded (s : list Z) (n : nat) :
  utf8_valid s = true -> from_utf8 (trim_spaces (s ++ write_spaces n)) = Ok (trim_spaces s).
Proof.
  intros Hu. unfold from_utf8. rewrite write_spaces_replicate, trim_spaces_app.
  by rewrite utf8_valid_trim.
Qed.

Lemma length_write_spaces (n : nat) : length (write_spaces n) = n.
Proof. by rewrite write_spaces_replicate, length_replicate. Qed.

(** A non-null column: written, read back, or skipped. *)
Definition column_ok (s k : TupleValueSerializableImpl) (v : DataValue) : Prop :=
  exists b, to_raw s v = Ok b /\
    (forall r acc, filling_value s (b ++ r) acc = Ok (acc ++ [trim v], r)) /\
    (forall r acc, filling_value k (b ++ r) acc = Ok (acc, r)).

Lemma column_fixed (s : TupleValueSerializableImpl) (n : Z) (v : DataValue) (b : list Z) :
  to_raw s v = Ok b -> is_skip s = false -> trim v = v -> Z.of_nat (length b) = n ->
  (forall r, from_raw s (b ++ r) = Ok (v, r)) -> column_ok s (Impl.SkipFixed n) v.
Proof.
  intros Hb Hs Ht Hl H. exists b. split; [done|]. split; intros r acc.
  - rewrite Ht. by apply (filling_num s 0).
  - by apply skip_fixed.
Qed.

Lemma column_char (s : list Z) (len : Z) (unit : CharLengthUnits) (k : TupleValueSerializableImpl) :
  dv_ok (DataValue.Utf8 s (Fixed len) unit) -> row_fits (DataValue.Utf8 s (Fixed len) unit) ->
  skip_serializable (LogicalType.Char len unit) = Ok k ->
  column_ok (Impl.Char len unit) k (DataValue.Utf8 s (Fixed len) unit).
Proof.
  intros (Hb & Hu & Hlen) Hf Hk. simpl in Hf. unfold column_ok. destruct unit; injection Hk as <-.
  - set (n := saturating_sub len (chars_count s)) in *.
    assert (0 <= n) by (unfold n, saturating_sub; lia).
    assert (in_u 32 (byte_len s + n)) as Hi by (unfold in_u, byte_len in *; lia).
    assert (Z.of_nat (length (s ++ write_spaces (Z.to_nat n))) = byte_len s + n) as Hl
      by (rewrite length_app, length_write_spaces; unfold byte_len; lia).
    eexists. split; [reflexivity|]. fold n. split; intros r acc.
    + apply (filling_num _ 0); [done|]. cbn [from_raw trim]. unfold write_u32_le.
      rewrite as_u_id, <- (assoc_L app), (read_le_u_app 4 32) by done. cbn [rbind].
      rewrite read_exact_app by lia. cbn [rbind]. by rewrite from_utf8_padded.
    + rewrite <- (assoc_L app). by apply skip_variable.
  - cbn [to_raw]. rewrite (proj2 (Z.ltb_ge _ _)) by done.
    assert (Z.of_nat (length (s ++ write_spaces (Z.to_nat (len - byte_len s)))) = len) as Hl
      by (rewrite length_app, length_write_spaces; unfold byte_len in *; lia).
    eexists. split; [reflexivity|]. split; intros r acc.
    + apply (filling_num _ 0); [done|]. cbn [from_raw trim rbind].
      rewrite read_exact_app by lia. cbn [rbind]. by rewrite from_utf8_padded.
    + by apply skip_fixed.
Qed.

Lemma column_varchar (s : list Z) (len : option Z) (unit : CharLengthUnits) :
  utf8_valid s = true -> byte_len s < 2 ^ 32 ->
  column_ok (Impl.Varchar len unit) Impl.SkipVariable (DataValue.Utf8 s (Variable_ len) unit).
Proof.
  intros Hu Hl. eexists. split; [reflexivity|]. split; intros r acc.
  - apply (filling_num _ 0); [done|]. by apply from_raw_varchar.
  - rewrite <- (assoc_L app). apply skip_variable; [unfold in_u, byte_len in *; lia|done].
Qed.

Lemma columns_ok (v : DataValue) (ty : LogicalType) (s k : TupleValueSerializableImpl) :
  row_value v ty -> is_null v = false -> serializable ty = Ok s -> skip_serializable ty = Ok k ->
  column_ok s k v.
Proof.
  intros (Ho & Ht & Hf) Hn Hs Hk.
  destruct v; try done; destruct ty; try done;
    try (destruct Ht as [-> ->]; injection Hs as <-;
      first [by apply column_char|injection Hk as <-; apply column_varchar; [apply Ho|done]]);
    injection Hs as <-; injection Hk as <-;
    (eapply column_fixed; [reflexivity|reflexivity|reflexivity| |intros r; cbn [from_raw]]);
    rewrite ?length_app, ?length_to_le_bytes; try reflexivity.
  all: simpl in Ho; read_nums; try done.
  - by destruct b.
  - by rewrite Ht.
  - by destruct Ht as [-> ->].
Qed.

Lemma filling_is_serializable (ty : LogicalType) (s : TupleValueSerializableImpl) :
  serializable ty = Ok s -> is_skip s = false.
Proof. by destruct ty; intros [= <-]. Qed.

(** * The null bitmap *)

Definition bit_at (bytes : list Z) (i : nat) : bool :=
  match bytes !! (i / BITS_MAX_INDEX)%nat with
  | Some b => is_null_bit b (i mod BITS_MAX_INDEX)
  | None => false
  end.

Lemma is_null_bit_testbit (b : Z) (i : nat) :
  0 <= b -> (i < 8)%nat -> is_null_bit b i = Z.testbit b (7 - Z.of_nat i).
Proof.
  intros Hb Hi. unfold is_null_bit. set (k := 7 - Z.of_nat i). assert (0 <= k) by lia.
  rewrite Z.shiftl_1_l. destruct (Z.testbit b k) eqn:E.
  - apply Z.ltb_lt. assert (Z.land b (2 ^ k) <> 0) as Hne.
    { intros H0. apply (f_equal (fun x => Z.testbit x k)) in H0.
      by rewrite Z.land_spec, E, Z.pow2_bits_true, Z.bits_0 in H0. }
    assert (0 <= Z.land b (2 ^ k)) by (apply Z.land_nonneg; lia). lia.
  - apply Z.ltb_ge. apply Z.eq_le_incl. apply Z.bits_inj'. intros n Hn.
    rewrite Z.land_spec, Z.pow2_bits_eqb, Z.bits_0 by lia.
    destruct (Z.eqb_spec k n) as [<-|]; [by rewrite E|by rewrite andb_false_r].
Qed.

Lemma flip_bit_nonneg (b : Z) (i : nat) : 0 <= b -> 0 <= flip_bit b i.
Proof. intros. unfold flip_bit. apply Z.lor_nonneg. split; [done|]. apply Z.shiftl_nonneg. lia. Qed.

Lemma is_null_flip (b : Z) (i j : nat) :
  0 <= b -> (i < 8)%nat -> (j < 8)%nat ->
  is_null_bit (flip_bit b i) j = (i =? j)%nat || is_null_bit b j.
Proof.
  intros Hb Hi Hj. rewrite !is_null_bit_testbit by (done || by apply flip_bit_nonneg).
  unfold flip_bit. rewrite Z.shiftl_1_l, Z.lor_spec, Z.pow2_bits_eqb by lia.
  rewrite orb_comm. f_equal. destruct (Nat.eqb_spec i j) as [->|]; [apply Z.eqb_refl|].
  apply Z.eqb_neq. lia.
Qed.

Lemma div_mod_8 (i j : nat) : (i / 8 = j / 8 -> i mod 8 = j mod 8 -> i = j)%nat.
Proof. intros H1 H2. rewrite (Nat.div_mod_eq i 8), (Nat.div_mod_eq j 8). lia. Qed.

(** Setting bit [i] changes bit [i] only. *)
Lemma bit_at_flip (bits : list Z) (b : Z) (i j : nat) :
  bits !! (i / 8)%nat = Some b -> 0 <= b ->
  bit_at (<[(i / 8)%nat := flip_bit b (i mod 8)%nat]> bits) j = (i =? j)%nat || bit_at bits j.
Proof.
  intros Hb Hn. unfold bit_at, BITS_MAX_INDEX.
  pose proof (Nat.mod_upper_bound i 8 ltac:(lia)). pose proof (Nat.mod_upper_bound j 8 ltac:(lia)).
  destruct (decide (i / 8 = j / 8)%nat) as [E|E].
  - rewrite <- E, list_lookup_insert_eq, Hb by (by eapply lookup_lt_Some).
    rewrite is_null_flip by done. f_equal.
    destruct (Nat.eqb_spec (i mod 8) (j mod 8)), (Nat.eqb_spec i j); try done; subst; try done.
    exfalso. eauto using div_mod_8.
  - rewrite list_lookup_insert_ne by done. destruct (Nat.eqb_spec i j); [by subst|done].
Qed.

Definition column : Type := DataValue * LogicalType * bool.
Definition col_value (c : column) : DataValue := fst (fst c).
Definition col_type (c : column) : LogicalType := snd (fst c).
Definition col_keep (c : column) : bool := snd c.

(** The deserializer [create_deserializers] picks for a column. *)
Definition col_deserializer (c : column) : res TupleValueSerializableImpl :=
  if col_keep c then serializable (col_type c) else skip_serializable (col_type c).

(** What a scan pushes for a column. *)
Definition read_column (c : column) : list DataValue :=
  if is_null (col_value c) then [DataValue.Null]
  else if col_keep c then [trim (col_value c)] else [].

(** [b] is what a row holds for the column. *)
Definition raw_of (c : column) (b : list Z) : Prop :=
  if is_null (col_value c) then b = []
  else forall d, col_deserializer c = Ok d -> forall r acc,
    filling_value d (b ++ r) acc = Ok (acc ++ read_column c, r).

Lemma skip_serializable_ok (ty : LogicalType) (s : TupleValueSerializableImpl) :
  serializable ty = Ok s -> exists k, skip_serializable ty = Ok k.
Proof. destruct ty; intros [= <-]; eauto. by destruct unit; eauto. Qed.

Lemma column_raw (c : column) (s : TupleValueSerializableImpl) :
  row_value (col_value c) (col_type c) -> serializable (col_type c) = Ok s ->
  is_null (col_value c) = false -> exists b, to_raw s (col_value c) = Ok b /\ raw_of c b.
Proof.
  intros Hv Hs Hn. destruct (skip_serializable_ok _ _ Hs) as [k Hk].
  destruct (columns_ok _ _ _ _ Hv Hn Hs Hk) as (b & Hb & Hread & Hskip).
  exists b. split; [done|]. unfold raw_of, read_column, col_deserializer. rewrite Hn.
  intros d Hd r acc. destruct (col_keep c).
  - rewrite Hs in Hd. injection Hd as <-. apply Hread.
  - rewrite Hk in Hd. injection Hd as <-. rewrite app_nil_r. apply Hskip.
Qed.

(** Bit [j] belongs to a null column, when the columns start at bit [i]. *)
Definition null_from (cols : list column) (i j : nat) : bool :=
  match cols !! (j - i)%nat with
  | Some c => (i <=? j)%nat && is_null (col_value c)
  | None => false
  end.

Lemma null_from_cons (c : column) (cols : list column) (i j : nat) :
  null_from (c :: cols) i j = (i =? j)%nat && is_null (col_value c) || null_from cols (S i) j.
Proof.
  unfold null_from. destruct (Nat.lt_trichotomy j i) as [H|[->|H]].
  - replace (j - i)%nat with 0%nat by lia. cbn [lookup list_lookup].
    rewrite (proj2 (Nat.leb_gt i j)), (proj2 (Nat.eqb_neq i j)) by lia. cbn [andb orb].
    destruct (cols !! _); [|done]. by rewrite (proj2 (Nat.leb_gt (S i) j)) by lia.
  - rewrite Nat.sub_diag, Nat.leb_refl, Nat.eqb_refl. cbn [lookup list_lookup].
    replace (i - S i)%nat with 0%nat by lia. rewrite (proj2 (Nat.leb_gt (S i) i)) by lia.
    destruct (cols !! 0%nat); by rewrite orb_false_r.
  - replace (j - i)%nat with (S (j - S i)) by lia. cbn [lookup list_lookup].
    rewrite (proj2 (Nat.eqb_neq i j)) by lia. cbn [andb orb].
    change (list_lookup (j - S i)%nat cols) with (cols !! (j - S i)%nat).
    destruct (cols !! (j - S i)%nat); [|done].
    by rewrite (proj2 (Nat.leb_le i j)), (proj2 (Nat.leb_le (S i) j)) by lia.
Qed.

Lemma serialize_loop_spec (cols : list column) (ss : list TupleValueSerializableImpl) :
  Forall2 (fun c s => row_value (col_value c) (col_type c) /\ serializable (col_type c) = Ok s) cols ss ->
  forall i bits data, (i + length cols <= 8 * length bits)%nat -> Forall (fun b => 0 <= b) bits ->
  exists bits' raws,
    serialize_loop i (map col_value cols) ss (bits ++ data) = Ok (bits' ++ data ++ concat raws) /\
    Forall2 raw_of cols raws /\ length bits' = length bits /\
    (forall j, bit_at bits' j = bit_at bits j || null_from cols i j).
Proof.
  induction 1 as [|c s cols ss [Hv Hs] _ IH]; intros i bits data Hlen Hpos.
  - exists bits, []. cbn [map serialize_loop concat]. rewrite app_nil_r.
    split; [done|]. split; [constructor|]. split; [done|]. intros j. unfold null_from.
    by rewrite lookup_nil, orb_false_r.
  - cbn [map serialize_loop length] in *. destruct (is_null (col_value c)) eqn:Hn.
    + assert (i / 8 < length bits)%nat as Hi by (apply Nat.Div0.div_lt_upper_bound; lia).
      destruct (lookup_lt_is_Some_2 bits (i / 8)%nat Hi) as [b Hb].
      rewrite lookup_app_l by done. unfold BITS_MAX_INDEX. rewrite Hb. cbn [rbind].
      rewrite insert_app_l by done.
      assert (0 <= b) as Hb0 by (by eapply (Forall_lookup_1 _ _ _ _ Hpos)).
      destruct (IH (S i) (<[(i / 8)%nat := flip_bit b (i mod 8)%nat]> bits) data) as (bits' & raws & E & Hr & Hl & Hj).
      * rewrite length_insert. lia.
      * apply Forall_insert; [done|by apply flip_bit_nonneg].
      * exists bits', ([] :: raws). rewrite E. split; [done|].
        split; [constructor; [unfold raw_of; by rewrite Hn|done]|].
        split; [by rewrite Hl, length_insert|]. intros j. rewrite Hj, (bit_at_flip _ b) by done.
        rewrite null_from_cons, Hn, andb_true_r. by rewrite (orb_comm (i =? j)%nat), orb_assoc.
    + destruct (column_raw c s Hv Hs Hn) as (b & Hb & Hr). rewrite Hb. cbn [rbind].
      rewrite <- (assoc_L app bits).
      destruct (IH (S i) bits (data ++ b)) as (bits' & raws & E & Hrs & Hl & Hj); [lia|done|].
      exists bits', (b :: raws). rewrite E. cbn [concat]. rewrite <- !(assoc_L app).
      split; [done|]. split; [by constructor|]. split; [done|]. intros j.
      by rewrite Hj, null_from_cons, Hn, andb_false_r.
Qed.

Lemma deserialize_loop_spec (cols : list column) (raws : list (list Z))
    (ds : list TupleValueSerializableImpl) (bytes r : list Z) :
  Forall2 raw_of cols raws -> Forall2 (fun c d => col_deserializer c = Ok d) cols ds ->
  forall i acc,
  (forall k c, cols !! k = Some c -> bit_at bytes (i + k) = is_null (col_value c)) ->
  (forall k, (k < length cols)%nat -> is_Some (bytes !! ((i + k) / 8)%nat)) ->
  deserialize_loop i ds bytes (concat raws ++ r) acc = Ok (acc ++ flat_map read_column cols).
Proof.
  intros Hr. revert ds. induction Hr as [|c b cols raws Hc _ IH]; intros ds Hd i acc Hbit Hin;
    inversion Hd as [|? d ? ds' Hcd Hds]; subst; cbn [deserialize_loop flat_map].
  - by rewrite app_nil_r.
  - assert (bit_at bytes i = is_null (col_value c)) as Hi
      by (rewrite <- (Nat.add_0_r i); by apply (Hbit 0%nat)).
    destruct (Hin 0%nat) as [x Hx]; [simpl; lia|]. rewrite Nat.add_0_r in Hx.
    unfold bit_at, BITS_MAX_INDEX in *. rewrite Hx in *. rewrite Hi. cbn [concat].
    assert (forall acc', deserialize_loop (S i) ds' bytes (concat raws ++ r) acc' =
      Ok (acc' ++ flat_map read_column cols)) as Hrec.
    { intros acc'. apply IH; [done| |].
      - intros k c' Hk. rewrite Nat.add_succ_comm. by apply (Hbit (S k)).
      - intros k Hk. rewrite Nat.add_succ_comm. apply Hin. simpl. lia. }
    unfold raw_of in Hc. unfold read_column at 1.
    destruct (is_null (col_value c)) eqn:Hn.
    + subst b. rewrite app_nil_l, Hrec. by rewrite <- (assoc_L app).
    + rewrite <- (assoc_L app), (Hc d Hcd). cbn [rbind]. rewrite Hrec.
      unfold read_column. rewrite Hn. by rewrite <- (assoc_L app).
Qed.

Lemma bit_at_app (a b : list Z) (j : nat) : (j < 8 * length a)%nat -> bit_at (a ++ b) j = bit_at a j.
Proof.
  intros H. unfold bit_at, BITS_MAX_INDEX. rewrite lookup_app_l; [done|].
  apply Nat.Div0.div_lt_upper_bound. lia.
Qed.

Lemma bit_at_zeros (n j : nat) : bit_at (replicate n 0) j = false.
Proof.
  unfold bit_at. destruct (replicate n 0 !! _) as [b|] eqn:E; [|done].
  apply lookup_replicate in E as [-> _]. unfold is_null_bit. by rewrite Z.land_0_l.
Qed.

Lemma bitmap_size (n : nat) : (n < 8 * ((n + 8) / 8))%nat.
Proof. pose proof (Nat.div_mod_eq (n + 8) 8). pose proof (Nat.mod_upper_bound (n + 8) 8). lia. Qed.

(** The columns of a row with the serializers of their types. *)
Definition row_columns (cols : list column) (ss : list TupleValueSerializableImpl) : Prop :=
  Forall2 (fun c s => row_value (col_value c) (col_type c) /\ serializable (col_type c) = Ok s) cols ss.

Lemma row_scan (cols : list column) (n : nat) (ss ds : list TupleValueSerializableImpl)
    (pk0 : option DataValue) (t : Tuple) :
  row_columns cols ss -> Forall2 (fun c d => col_deserializer c = Ok d) (take n cols) ds ->
  exists bytes, serialize_to (mk_tuple pk0 (map col_value cols)) ss = Ok bytes /\
    deserialize_from_into t ds bytes (length cols) =
      Ok (mk_tuple (pk t) (flat_map read_column (take n cols))).
Proof.
  intros Hrow Hd. set (len := ((length cols + 8) / 8)%nat).
  pose proof (bitmap_size (length cols)) as Hsize. fold len in Hsize.
  destruct (serialize_loop_spec cols ss Hrow 0 (replicate len 0) []) as (bits & raws & E & Hr & Hl & Hj).
  { rewrite length_replicate. lia. } { by apply Forall_replicate. }
  rewrite length_replicate in Hl. rewrite app_nil_r in E. simpl in E.
  exists (bits ++ concat raws). unfold serialize_to, deserialize_from_into, BITS_MAX_INDEX.
  cbn [values pk]. rewrite length_map. fold len. split; [exact E|].
  rewrite length_app, (proj2 (Nat.ltb_ge _ _)), drop_app_length' by lia.
  rewrite <- (take_drop n raws) at 2. rewrite concat_app.
  rewrite (deserialize_loop_spec (take n cols) (take n raws)); [done|by apply Forall2_take|done|..].
  - intros k c Hk. apply lookup_take_Some in Hk as [Hk Hkn]. rewrite Nat.add_0_l.
    rewrite bit_at_app by (apply lookup_lt_Some in Hk; lia).
    rewrite Hj, bit_at_zeros. unfold null_from. by rewrite Nat.sub_0_r, Hk.
  - intros k Hk. rewrite length_take in Hk. apply lookup_lt_is_Some_2. rewrite length_app.
    rewrite Nat.add_0_l.
    apply Nat.lt_le_trans with (length bits); [|lia]. apply Nat.Div0.div_lt_upper_bound. lia.
Qed.

Lemma trim_null (v : DataValue) : is_null v = true -> trim v = DataValue.Null.
Proof. by destruct v. Qed.

(** C5: a row reads back. A row whose values fit their column types serializes,
    and reading all its columns gives the values, [CHAR] columns without their
    trailing spaces; floats and nulls are kept bit for bit. *)
Theorem row_roundtrip (vs : list DataValue) (ts : list LogicalType)
    (ss : list TupleValueSerializableImpl) (pk0 : option DataValue) (t : Tuple) :
  Forall2 row_value vs ts -> Forall2 (fun ty s => serializable ty = Ok s) ts ss ->
  exists bytes, serialize_to (mk_tuple pk0 vs) ss = Ok bytes /\
    deserialize_from_into t ss bytes (length vs) = Ok (mk_tuple (pk t) (map trim vs)).
Proof.
  intros Hv Hs. set (cols := zip_with (fun v ty => (v, ty, true) : column) vs ts).
  assert (map col_value cols = vs /\ length cols = length vs /\
    flat_map read_column cols = map trim vs /\ row_columns cols ss /\
    Forall2 (fun c d => col_deserializer c = Ok d) cols ss) as (E1 & E2 & E3 & E4 & E5).
  { unfold cols, row_columns. revert ss Hs.
    induction Hv as [|v ty vs ts Hv _ IH]; intros ss Hs; inversion Hs as [|? s ? ss' H1 H2]; subst.
    - by repeat split; constructor.
    - destruct (IH ss' H2) as (E1 & E2 & E3 & E4 & E5). cbn. rewrite E1, E2, E3.
      split; [done|]. split; [done|]. split; [|by split; constructor].
      unfold read_column. cbn. destruct (is_null v) eqn:Hn; [by rewrite trim_null|done]. }
  destruct (row_scan cols (length cols) ss ss pk0 t E4) as (bytes & S & D); [by rewrite take_ge|].
  rewrite E1 in S. rewrite take_ge, E3, E2 in D by reflexivity. by exists bytes.
Qed.

Lemma row_roundtrip_witness :
  exists bytes, serialize_to (mk_tuple None [DataValue.Int32 (-1); DataValue.Null;
      DataValue.Utf8 [97; 32] (Fixed 4) Characters])
      [Impl.Int32; Impl.Float64; Impl.Char 4 Characters] = Ok bytes /\
    deserialize_from_into (mk_tuple None []) [Impl.Int32; Impl.Float64; Impl.Char 4 Characters] bytes 3 =
      Ok (mk_tuple None [DataValue.Int32 (-1); DataValue.Null;
        DataValue.Utf8 [97] (Fixed 4) Characters]).
Proof.
  apply (row_roundtrip [DataValue.Int32 (-1); DataValue.Null; DataValue.Utf8 [97; 32] (Fixed 4) Characters]
    [LogicalType.Integer; LogicalType.Double; LogicalType.Char 4 Characters]
    [Impl.Int32; Impl.Float64; Impl.Char 4 Characters] None (mk_tuple None [])).
  - repeat constructor; unfold in_s, in_u, byte_ok; simpl; try lia.
  - repeat constructor.
Defined.

(** A projected scan reads the columns it keeps. When the columns it skips
    hold no nulls, the values read are exactly those of the kept columns, in
    order, whether or not trailing columns are left unread. *)
Theorem row_projection (cols : list column) (n : nat) (ss ds : list TupleValueSerializableImpl)
    (pk0 : option DataValue) (t : Tuple) :
  row_columns cols ss -> Forall2 (fun c d => col_deserializer c = Ok d) (take n cols) ds ->
  Forall (fun c => col_keep c = false -> is_null (col_value c) = false) (take n cols) ->
  exists bytes, serialize_to (mk_tuple pk0 (map col_value cols)) ss = Ok bytes /\
    deserialize_from_into t ds bytes (length cols) =
      Ok (mk_tuple (pk t) (map (fun c => trim (col_value c)) (List.filter col_keep (take n cols)))).
Proof.
  intros Hrow Hd Hn. destruct (row_scan cols n ss ds pk0 t Hrow Hd) as (bytes & S & D).
  exists bytes. split; [done|]. rewrite D. do 2 f_equal. clear -Hn.
  induction Hn as [|c cs Hc _ IH]; [done|]. cbn [flat_map List.filter]. rewrite IH.
  unfold read_column. destruct (col_keep c); [|by rewrite Hc].
  destruct (is_null (col_value c)) eqn:E; simpl; [by rewrite trim_null|done].
Qed.

Definition wit_cols : list column :=
  [(DataValue.Int32 1, LogicalType.Integer, true);
   (DataValue.Utf8 [97] (Variable_ None) Octets, LogicalType.Varchar None Octets, false);
   (DataValue.Null, LogicalType.Date, true)].

Lemma row_projection_witness :
  exists bytes, serialize_to (mk_tuple None (map col_value wit_cols))
      [Impl.Int32; Impl.Varchar None Octets; Impl.Date] = Ok bytes /\
    deserialize_from_into (mk_tuple None []) [Impl.Int32; Impl.SkipVariable; Impl.Date] bytes 3 =
      Ok (mk_tuple None [DataValue.Int32 1; DataValue.Null]).
Proof.
  apply (row_projection wit_cols 3 [Impl.Int32; Impl.Varchar None Octets; Impl.Date] [Impl.Int32; Impl.SkipVariable; Impl.Date] None (mk_tuple None [])).
  - repeat constructor; unfold in_s, byte_ok; simpl; lia.
  - by repeat constructor.
  - by repeat constructor.
Defined.

(** A null in a skipped column shifts the row. The scan pushes a null for
    it although the column is not projected: reading only the second column of
    [(NULL, 7)] yields two values, the first of which is the null of the first
    column. *)
Theorem row_projection_skipped_null :
  let ss := [Impl.Int32; Impl.Int32] in
  let ds := [Impl.SkipFixed 4; Impl.Int32] in
  skip_serializable LogicalType.Integer = Ok (Impl.SkipFixed 4) /\
  exists bytes, serialize_to (mk_tuple None [DataValue.Null; DataValue.Int32 7]) ss = Ok bytes /\
    deserialize_from_into (mk_tuple None []) ds bytes 2 =
      Ok (mk_tuple None [DataValue.Null; DataValue.Int32 7]).
Proof.
  split; [reflexivity|]. exists [128; 7; 0; 0; 0]. split; vm_compute; reflexivity.
Qed.

(** The tuple id of a row is its primary-key columns in key order: one
    column by itself, several as a tuple; an index outside the row panics. *)
Theorem primary_projection_spec (pk_indices : list nat) (vals : list DataValue) (id : DataValue) :
  primary_projection pk_indices vals = Ok id <->
  match pk_indices with
  | [] => False
  | [i] => vals !! i = Some id
  | _ => exists ids, id = DataValue.Tuple ids /\
      Forall2 (fun i v => vals !! i = Some v) pk_indices ids
  end.
Proof.
  assert (forall i v, value_at vals i = Ok v <-> vals !! i = Some v) as Hat.
  { intros i v. unfold value_at. destruct (vals !! i); split; congruence. }
  unfold primary_projection. destruct pk_indices as [|i [|j js]]; [done|apply Hat|].
  set (idx := i :: j :: js). change (1 <? length idx)%nat with true. cbv iota. split.
  - destruct (rmap (value_at vals) idx) as [ids|] eqn:E; [|done]. intros [= <-]. exists ids.
    split; [done|]. apply rmap_Ok in E. eapply Forall2_impl; [|exact E]. intros. by apply Hat.
  - intros (ids & -> & H). assert (rmap (value_at vals) idx = Ok ids) as ->; [|done].
    apply rmap_Ok. eapply Forall2_impl; [|exact H]. intros. by apply Hat.
Qed.
