(* ===== verification/Collections.v ===== *)
(** [HashMap] as the executors use it: keys compared by [PartialEq], so the
    map is an association list whose keys are distinct up to that equality.
    Where the code iterates over a map, the order is a parameter of the
    definition that does so. The keys of the executors are values, rows of
    values and tuples, whose equality is an equivalence. *)

From S2P Require Import Prelude MachineInt Types Value Row.
From stdpp Require Import base tactics list list_numbers numbers option.
From Stdlib Require Import ZArith Lia.
Local Open Scope Z_scope.

(** * Keys: [Eq] *)

Class KeyEq (K : Type) := key_eq : K -> K -> bool.

Class LawfulEq (K : Type) `{KeyEq K} : Prop := {
  key_eq_refl : forall k, key_eq k k = true;
  key_eq_sym : forall a b, key_eq a b = key_eq b a;
  key_eq_trans : forall a b c, key_eq a b = true -> key_eq b c = true -> key_eq a c = true;
}.

Section Keys.
Context {K : Type} `{LawfulEq K}.

(** Equal keys are interchangeable in a comparison. *)
Lemma key_eq_cong (a b c : K) : key_eq a b = true -> key_eq c a = key_eq c b.
Proof.
  intros E. destruct (key_eq c a) eqn:E1, (key_eq c b) eqn:E2; try done; exfalso.
  - rewrite (key_eq_trans c a b E1 E) in E2. done.
  - rewrite (key_eq_sym a b) in E. rewrite (key_eq_trans c b a E2 E) in E1. done.
Qed.

Lemma key_eq_cong_l (a b c : K) : key_eq a b = true -> key_eq a c = key_eq b c.
Proof. intros E. by rewrite (key_eq_sym a), (key_eq_sym b), (key_eq_cong a b c E). Qed.

(** The number of elements of a list equal to a key. *)
Definition occurrences (k : K) (l : list K) : nat := length (List.filter (key_eq k) l).

Lemma occurrences_nil (k : K) : occurrences k [] = 0%nat.
Proof. done. Qed.

Lemma occurrences_cons (k x : K) (l : list K) :
  occurrences k (x :: l) = ((if key_eq k x then 1 else 0) + occurrences k l)%nat.
Proof. unfold occurrences. simpl. by destruct (key_eq k x). Qed.

Lemma occurrences_app (k : K) (l1 l2 : list K) :
  occurrences k (l1 ++ l2) = (occurrences k l1 + occurrences k l2)%nat.
Proof. unfold occurrences. by rewrite List.filter_app, length_app. Qed.

Lemma occurrences_cong (a b : K) (l : list K) :
  key_eq a b = true -> occurrences a l = occurrences b l.
Proof.
  intros E. induction l as [|x l IH]; [done|]. rewrite !occurrences_cons, IH. f_equal.
  by rewrite (key_eq_sym a x), (key_eq_sym b x), (key_eq_cong a b x E).
Qed.

(** Equal elements are adjacent, as in a sorted list. *)
Fixpoint grouped (l : list K) : Prop :=
  match l with
  | [] => True
  | x :: l' =>
      (match l' with
       | y :: _ => key_eq x y = true \/ occurrences x l' = 0%nat
       | [] => True
       end) /\ grouped l'
  end.
End Keys.

(** * The map *)

Module HashMap.
Section Map.
Context {K V : Type} `{LawfulEq K}.

Definition HashMap : Type := list (K * V).

(** [HashMap::get] and [HashMap::get_mut]. *)
Fixpoint get (m : HashMap) (k : K) : option V :=
  match m with
  | [] => None
  | (k', v) :: m' => if key_eq k k' then Some v else get m' k
  end.

(** [*map.entry(k).or_insert(default)] updated by [f]: a key that is
    present is kept, a new one goes to the end. *)
Fixpoint upsert (m : HashMap) (k : K) (default : V) (f : V -> V) : HashMap :=
  match m with
  | [] => [(k, f default)]
  | (k', v) :: m' => if key_eq k k' then (k', f v) :: m' else (k', v) :: upsert m' k default f
  end.

(** [HashMap::insert] of a key that is present or not: the old key stays. *)
Definition insert (m : HashMap) (k : K) (v : V) : HashMap := upsert m k v (fun _ => v).

Definition keys (m : HashMap) : list K := map fst m.

(** No two keys are equal. *)
Definition distinct (l : list K) : Prop := forall k, (occurrences k l <= 1)%nat.

Lemma get_cong (m : HashMap) (a b : K) : key_eq a b = true -> get m a = get m b.
Proof.
  intros E. induction m as [|[k v] m IH]; [done|]. simpl.
  by rewrite (key_eq_sym a k), (key_eq_sym b k), (key_eq_cong a b k E), IH.
Qed.

Lemma get_upsert (m : HashMap) (k k' : K) (d : V) (f : V -> V) :
  get (upsert m k d f) k' = if key_eq k' k then Some (f (default d (get m k))) else get m k'.
Proof.
  induction m as [|[k0 v] m IH]; simpl.
  - by destruct (key_eq k' k).
  - destruct (key_eq k k0) eqn:E0; simpl.
    + rewrite (key_eq_cong k k0 k' E0). by destruct (key_eq k' k0).
    + rewrite IH. destruct (key_eq k' k0) eqn:E1; [|done].
      destruct (key_eq k' k) eqn:E2; [|done]. exfalso.
      rewrite key_eq_sym in E2. rewrite (key_eq_trans k k' k0 E2 E1) in E0. done.
Qed.

Lemma keys_upsert (m : HashMap) (k : K) (d : V) (f : V -> V) :
  keys (upsert m k d f) = keys m ++ (if get m k then [] else [k]).
Proof.
  induction m as [|[k' v] m IH]; [done|]. simpl. destruct (key_eq k k') eqn:E; simpl.
  - by rewrite app_nil_r.
  - by rewrite IH.
Qed.

Lemma get_occurrences (m : HashMap) (k : K) : get m k = None <-> occurrences k (keys m) = 0%nat.
Proof.
  induction m as [|[k' v] m IH]; simpl; [done|]. rewrite occurrences_cons.
  by destruct (key_eq k k').
Qed.

Lemma distinct_upsert (m : HashMap) (k : K) (d : V) (f : V -> V) :
  distinct (keys m) -> distinct (keys (upsert m k d f)).
Proof.
  intros Hd x. rewrite keys_upsert, occurrences_app. specialize (Hd x).
  destruct (get m k) eqn:E; simpl; [unfold occurrences at 2; simpl; lia|].
  apply get_occurrences in E. rewrite occurrences_cons.
  destruct (key_eq x k) eqn:Ex; [|unfold occurrences at 2; simpl; lia].
  rewrite (occurrences_cong x k _ Ex), E. unfold occurrences; simpl; lia.
Qed.
End Map.
Arguments HashMap : clear implicits.
End HashMap.
Notation HashMap := HashMap.HashMap.

(** * [Eq] of sequences, options, values and tuples *)

Section Derived.
Context {K : Type} `{LawfulEq K}.

(** [Eq for Vec<K>] and [Eq for Option<K>]. *)
Fixpoint seq_eq (l1 l2 : list K) : bool :=
  match l1, l2 with
  | [], [] => true
  | x :: l1', y :: l2' => key_eq x y && seq_eq l1' l2'
  | _, _ => false
  end.

Definition option_eq (o1 o2 : option K) : bool :=
  match o1, o2 with
  | None, None => true
  | Some x, Some y => key_eq x y
  | _, _ => false
  end.

#[global] Instance seq_key_eq : KeyEq (list K) := seq_eq.
#[global] Instance option_key_eq : KeyEq (option K) := option_eq.

#[global] Instance seq_lawful : LawfulEq (list K).
Proof.
  split; change (@key_eq (list K) seq_key_eq) with seq_eq.
  - induction k as [|x k IH]; [done|]. simpl. by rewrite key_eq_refl, IH.
  - induction a as [|x a IH]; intros [|y b]; try done. simpl. by rewrite key_eq_sym, IH.
  - induction a as [|x a IH]; intros [|y b] [|z c]; try done. simpl.
    rewrite !andb_true_iff. intros [??] [??]. eauto using key_eq_trans.
Qed.

#[global] Instance option_lawful : LawfulEq (option K).
Proof.
  split; change (@key_eq (option K) option_key_eq) with option_eq.
  - intros [x|]; simpl; [apply (key_eq_refl x)|done].
  - intros [x|] [y|]; try done. apply (key_eq_sym x y).
  - intros [x|] [y|] [z|]; try done. apply (key_eq_trans x y z).
Qed.

Lemma seq_eq_forall (l1 l2 : list K) :
  seq_eq l1 l2 = true <-> Forall2 (fun x y => key_eq x y = true) l1 l2.
Proof.
  revert l2. induction l1 as [|x l1 IH]; intros [|y l2]; simpl.
  - split; [constructor|done].
  - split; [done|inversion 1].
  - split; [done|inversion 1].
  - rewrite andb_true_iff, IH. split; [intros [??]; by constructor|by inversion 1].
Qed.
End Derived.

Section ValueKeys.
Context {OF : OrderedFloat}.

#[global] Instance value_key_eq : KeyEq DataValue := dv_eq.

Lemma of_eqb_trans (w inf a b c : Z) :
  of_eqb w inf a b = true -> of_eqb w inf b c = true -> of_eqb w inf a c = true.
Proof.
  rewrite !of_eqb_iff. intros H1 H2.
  by rewrite (of_cmp_trans w inf a b c Eq Eq H1 H2 (or_introl eq_refl)).
Qed.

Lemma of_eqb_sym (w inf a b : Z) : of_eqb w inf a b = of_eqb w inf b a.
Proof. unfold of_eqb. rewrite (of_cmp_antisym w inf a b). by destruct (of_cmp w inf a b). Qed.

Lemma dv_eq_refl (v : DataValue) : dv_eq v v = true.
Proof.
  induction v as [v Hv|vs IH] using DataValue_ind'.
  - destruct v; try (exfalso; exact (Hv _ eq_refl)); simpl; try done;
      rewrite ?Z.eqb_refl, ?of_cmp_refl, ?bool_decide_eq_true_2; try done.
    all: try (by apply eqb_reflx). all: try (unfold of_eqb; by rewrite of_cmp_refl).
  - simpl. induction IH as [|v vs Hv _ IHl]; [done|]. by rewrite Hv, IHl.
Qed.

Lemma dv_eq_sym (a b : DataValue) : dv_eq a b = dv_eq b a.
Proof.
  revert b. induction a as [v Hv|vs IH] using DataValue_ind'; intros b.
  - destruct v; try (exfalso; exact (Hv _ eq_refl)); destruct b; simpl; try done;
      rewrite ?(Z.eqb_sym z0 z), ?(of_eqb_sym _ _ z0 z); try apply Z.eqb_sym; try apply of_eqb_sym.
    + f_equal; [apply Z.eqb_sym|apply bool_decide_ext; split; congruence].
    + by destruct b0, b.
    + apply bool_decide_ext. split; congruence.
  - destruct b as [ | | | | | | | | | | | | | | | | | |ws]; try done. simpl. revert ws.
    induction IH as [|v vs Hv _ IHl]; intros [|w ws]; try done. by rewrite Hv, IHl.
Qed.

Lemma dv_eq_trans (a b c : DataValue) : dv_eq a b = true -> dv_eq b c = true -> dv_eq a c = true.
Proof.
  revert b c. induction a as [v Hv|vs IH] using DataValue_ind'; intros b c.
  - destruct v; try (exfalso; exact (Hv _ eq_refl)); destruct b; try discriminate;
      destruct c; try discriminate; simpl; try done;
      rewrite ?andb_true_iff, ?Z.eqb_eq, ?bool_decide_eq_true; try congruence;
      try apply of_eqb_trans.
    + by intros [-> ->].
    + rewrite !eqb_true_iff. congruence.
  - destruct b as [ | | | | | | | | | | | | | | | | | |ws]; try done.
    destruct c as [ | | | | | | | | | | | | | | | | | |us]; try done. simpl. revert ws us.
    induction IH as [|v vs Hv _ IHl]; intros [|w ws] [|u us]; try done. rewrite !andb_true_iff.
    intros [??] [??]. eauto.
Qed.

#[global] Instance value_lawful : LawfulEq DataValue.
Proof. split; [apply dv_eq_refl|apply dv_eq_sym|apply dv_eq_trans]. Qed.

(** [#[derive(PartialEq, Eq)] struct Tuple]. *)
Definition tuple_eq (t1 t2 : Tuple) : bool := key_eq (pk t1) (pk t2) && key_eq (values t1) (values t2).

#[global] Instance tuple_key_eq : KeyEq Tuple := tuple_eq.

#[global] Instance tuple_lawful : LawfulEq Tuple.
Proof.
  split; change (@key_eq Tuple tuple_key_eq) with tuple_eq; unfold tuple_eq.
  - intros t. by rewrite !key_eq_refl.
  - intros a b. by rewrite (key_eq_sym (pk a)), (key_eq_sym (values a)).
  - intros a b c. rewrite !andb_true_iff. intros [??] [??].
    split; [by apply (key_eq_trans _ (pk b))|by apply (key_eq_trans _ (values b))].
Qed.
End ValueKeys.
