(* ===== verification/Exec.v ===== *)
(** The pull-based executors (src/src/execution/mod.rs and
    src/src/execution/dql): each node answers [next_tuple] with a row
    ([Continue]), the end of its rows ([End]) or an error. An input is seen
    through the rows it produces: a [Stream] holds the rows still to come and
    how they end. [runs] relates a node to the stream it produces when polled
    until it ends or fails; it is a function of the node's state, so a theorem
    [runs next s o] says that polling terminates and what it yields. *)

From S2P Require Import Prelude MachineInt Types Operators Reader Value Chrono Evaluators Casts Expr Row Collections.
From stdpp Require Import base tactics list list_numbers numbers option.
From Stdlib Require Import ZArith Lia.
Local Open Scope Z_scope.

(** * The protocol *)

(** The rows an input still has, and the error it ends with if any. *)
Record Stream := mk_stream { rows : list Tuple; failure : option DatabaseError }.

(** One poll of an executor: the row it leaves in the arena, or the end. *)
Definition poll (S : Type) : Type := res (option Tuple * S).

(** [arena.next_tuple(self.input, ..)?] on an input with the given stream. *)
Definition pull (s : Stream) : poll Stream :=
  match rows s with
  | t :: rows' => Ok (Some t, mk_stream rows' (failure s))
  | [] => match failure s with
          | Some e => Err e
          | None => Ok (None, s)
          end
  end.

Inductive runs {S : Type} (next : S -> poll S) : S -> Stream -> Prop :=
| runs_end s s' : next s = Ok (None, s') -> runs next s (mk_stream [] None)
| runs_fail s e : next s = Err e -> runs next s (mk_stream [] (Some e))
| runs_row s t s' rows fail :
    next s = Ok (Some t, s') -> runs next s' (mk_stream rows fail) ->
    runs next s (mk_stream (t :: rows) fail).

(** An executor: its poll, and the protocol's promise that polling a finished
    node again still reports the end. *)
Class Executor (S : Type) := {
  next_tuple : S -> poll S;
  next_fused : forall s s', next_tuple s = Ok (None, s') ->
    exists s'', next_tuple s' = Ok (None, s'');
}.

#[global] Program Instance stream_executor : Executor Stream := {| next_tuple := pull |}.
Next Obligation.
  intros [[|t ts] [e|]] s' H; try discriminate H. apply Ok_inj in H. simplify_eq. by eexists.
Qed.

Section Protocol.
Context {S : Type} (next : S -> poll S).

Lemma runs_functional s o1 o2 : runs next s o1 -> runs next s o2 -> o1 = o2.
Proof.
  intros H. revert o2. induction H as [s s' H|s e H|s t s' rows fail H _ IH];
    intros o2 H2; inversion H2 as [? ? H'|? ? H'|? ? ? ? ? H' Hr]; subst; rewrite H in H'; simplify_eq; try done.
  specialize (IH _ Hr). by simplify_eq.
Qed.

(** The next poll determines the rest. *)
Lemma runs_same s s' o : next s = next s' -> runs next s' o -> runs next s o.
Proof.
  intros E H. destruct H as [? ? H|? ? H|? ? ? ? ? H Hr]; rewrite <- E in H;
    [by eapply runs_end|by apply runs_fail|by eapply runs_row].
Qed.
End Protocol.

Lemma pull_runs (s : Stream) : runs pull s s.
Proof.
  destruct s as [ts fail]. induction ts as [|t ts IH].
  - destruct fail; [by apply runs_fail|by eapply runs_end].
  - by eapply runs_row.
Qed.

(** * What the row-wise operators compute: a partial map over a stream

    [flow f s] applies [f] to each row in turn: the row is dropped, replaced,
    or ends the stream with an error. *)

Fixpoint flow_rows (f : Tuple -> res (option Tuple)) (ts : list Tuple) (fail : option DatabaseError) : Stream :=
  match ts with
  | [] => mk_stream [] fail
  | t :: ts' =>
      match f t with
      | Err e => mk_stream [] (Some e)
      | Ok None => flow_rows f ts' fail
      | Ok (Some t') => let s := flow_rows f ts' fail in mk_stream (t' :: rows s) (failure s)
      end
  end.

Definition flow (f : Tuple -> res (option Tuple)) (s : Stream) : Stream := flow_rows f (rows s) (failure s).

(** Two row functions in sequence. *)
Definition flow_then (f g : Tuple -> res (option Tuple)) (t : Tuple) : res (option Tuple) :=
  match f t with
  | Err e => Err e
  | Ok None => Ok None
  | Ok (Some t') => g t'
  end.

Lemma stream_eta (s : Stream) : mk_stream (rows s) (failure s) = s.
Proof. by destruct s. Qed.

Lemma flow_flow f g s : flow g (flow f s) = flow (flow_then f g) s.
Proof.
  destruct s as [ts fail]. unfold flow, flow_then. simpl.
  induction ts as [|t ts IH]; simpl; [done|]. destruct (f t) as [[t'|]|e]; simpl; [|done..].
  destruct (g t') as [[t''|]|e]; simpl; rewrite ?IH; done.
Qed.

(** A row function that never fails. *)
Lemma flow_total f ts fail ts' :
  Forall2 (fun t o => f t = Ok o) ts ts' -> flow f (mk_stream ts fail) = mk_stream (omap id ts') fail.
Proof.
  intros H. unfold flow. simpl. induction H as [|t o ts ts' Ht _ IH]; [done|]. simpl. rewrite Ht.
  by destruct o; rewrite IH.
Qed.

Section Operators.
Context {OF : OrderedFloat} {CH : Chrono} {SF : ScalarFunctions}.

(** [ExecArena::rewrite]: the values of the expressions are pushed behind the
    row's own values, on which each is evaluated, and the row's own values are
    then rotated out. *)
Fixpoint rewrite_push (exprs : list ScalarExpression) (base : nat) (values : list DataValue)
    (input : tuple_values) : res (list DataValue) :=
  match exprs with
  | [] => Ok values
  | expr :: exprs' =>
      let current := match input with Some vs => vs | None => take base values end in
      let? value := eval expr (Some current) in
      rewrite_push exprs' base (values ++ [value]) input
  end.

Definition rotate_left {A : Type} (n : nat) (l : list A) : list A := drop n l ++ take n l.

Definition rewrite_tuple (exprs : list ScalarExpression) (t : Tuple) (input : tuple_values) : res Tuple :=
  let base := length (values t) in
  let? vs := rewrite_push exprs base (values t) input in
  Ok (mk_tuple (pk t) (take (length exprs) (rotate_left base vs))).

(** ** Filter *)

Record Filter := mk_filter { predicate : ScalarExpression; filter_input : Stream }.

Definition keeps (predicate : ScalarExpression) (t : Tuple) : res bool :=
  let? value := eval predicate (Some (values t)) in
  is_true value.

Fixpoint filter_loop (predicate : ScalarExpression) (ts : list Tuple) (fail : option DatabaseError)
    : poll Filter :=
  match ts with
  | [] => match fail with
          | Some e => Err e
          | None => Ok (None, mk_filter predicate (mk_stream [] None))
          end
  | t :: ts' =>
      let? keep := keeps predicate t in
      if keep then Ok (Some t, mk_filter predicate (mk_stream ts' fail))
      else filter_loop predicate ts' fail
  end.

Definition filter_next (self : Filter) : poll Filter :=
  filter_loop (predicate self) (rows (filter_input self)) (failure (filter_input self)).

(** ** Projection *)

Record Projection := mk_projection { exprs : list ScalarExpression; projection_input : Stream }.

Definition projection_next (self : Projection) : poll Projection :=
  let? (o, input) := pull (projection_input self) in
  match o with
  | None => Ok (None, mk_projection (exprs self) input)
  | Some t =>
      let? t' := rewrite_tuple (exprs self) t None in
      Ok (Some t', mk_projection (exprs self) input)
  end.

(** ** Limit *)

Record Limit := mk_limit {
  offset : option Z; limit : option Z; limit_input : Stream; skipped : Z; emitted : Z;
}.

Definition usize_max : Z := 2 ^ 64 - 1.

Fixpoint limit_loop (offset limit : option Z) (emitted : Z) (ts : list Tuple) (fail : option DatabaseError)
    (skipped : Z) : poll Limit :=
  match ts with
  | [] => match fail with
          | Some e => Err e
          | None => Ok (None, mk_limit offset limit (mk_stream [] None) skipped emitted)
          end
  | t :: ts' =>
      if skipped <? default 0 offset then limit_loop offset limit emitted ts' fail (skipped + 1)
      else Ok (Some t, mk_limit offset limit (mk_stream ts' fail) skipped (emitted + 1))
  end.

Definition limit_next (self : Limit) : poll Limit :=
  let most := default usize_max (limit self) in
  if (most =? 0) || (most <=? emitted self) then Ok (None, self)
  else limit_loop (offset self) (limit self) (emitted self) (rows (limit_input self)) (failure (limit_input self)) (skipped self).

(** ** Union *)

Record Union_ := mk_union { left_input : Stream; right_input : Stream; reading_left : bool }.

Definition union_right (self : Union_) : poll Union_ :=
  let? (o, input) := pull (right_input self) in
  Ok (o, mk_union (left_input self) input (reading_left self)).

Definition union_next (self : Union_) : poll Union_ :=
  if reading_left self then
    let? (o, input) := pull (left_input self) in
    match o with
    | Some t => Ok (Some t, mk_union input (right_input self) true)
    | None => union_right (mk_union input (right_input self) false)
    end
  else union_right self.

(** ** EXCEPT and INTERSECT *)

Inductive SetMembershipKind := Except | Intersect.

Record SetMembership := mk_set_membership {
  kind : SetMembershipKind; set_left : Stream; set_right : Stream;
  right_counts : HashMap Tuple nat; built : bool;
}.

(** [while arena.next_tuple(self.right_input)? { *entry(..).or_insert(0) += 1 }]. *)
Fixpoint build_counts (ts : list Tuple) (fail : option DatabaseError) (counts : HashMap Tuple nat)
    : res (HashMap Tuple nat) :=
  match ts with
  | [] => match fail with
          | Some e => Err e
          | None => Ok counts
          end
  | t :: ts' => build_counts ts' fail (HashMap.upsert counts t 0%nat Datatypes.S)
  end.

Definition consume_right_match (counts : HashMap Tuple nat) (t : Tuple) : bool * HashMap Tuple nat :=
  match HashMap.get counts t with
  | Some (Datatypes.S n) => (true, HashMap.insert counts t n)
  | _ => (false, counts)
  end.

Definition should_emit (kind : SetMembershipKind) (matched : bool) : bool :=
  match kind with
  | Except => negb matched
  | Intersect => matched
  end.

Fixpoint membership_loop (kind : SetMembershipKind) (counts : HashMap Tuple nat) (built_from : Stream)
    (ts : list Tuple) (fail : option DatabaseError) : poll SetMembership :=
  match ts with
  | [] => match fail with
          | Some e => Err e
          | None => Ok (None, mk_set_membership kind (mk_stream [] None) built_from counts true)
          end
  | t :: ts' =>
      let '(matched, counts') := consume_right_match counts t in
      if should_emit kind matched then
        Ok (Some t, mk_set_membership kind (mk_stream ts' fail) built_from counts' true)
      else membership_loop kind counts' built_from ts' fail
  end.

Definition membership_next (self : SetMembership) : poll SetMembership :=
  let? (counts, built_from) :=
    (if built self then Ok (right_counts self, set_right self)
     else let? counts := build_counts (rows (set_right self)) (failure (set_right self)) (right_counts self) in
          Ok (counts, mk_stream [] None)) in
  membership_loop (kind self) counts built_from (rows (set_left self)) (failure (set_left self)).

(** ** Values and the single empty row *)

Record Values := mk_values {
  value_rows : list ScalarExpression; remaining_rows : Z; schema_types : list LogicalType;
}.

(** The row's values, and the expressions left in the iterator. *)
Fixpoint values_row (types : list LogicalType) (exprs : list ScalarExpression)
    : res (list DataValue * list ScalarExpression) :=
  match types, exprs with
  | ty :: types', expr :: exprs' =>
      let? value := eval expr None in
      let? value := cast value ty in
      let? (vs, rest) := values_row types' exprs' in
      Ok (value :: vs, rest)
  | _, _ => Ok ([], exprs)
  end.

Definition values_next (self : Values) : poll Values :=
  if remaining_rows self =? 0 then Ok (None, self)
  else
    let? (vs, rest) := values_row (schema_types self) (value_rows self) in
    Ok (Some (mk_tuple None vs), mk_values rest (remaining_rows self - 1) (schema_types self)).

Definition Dummy : Type := option Tuple.
Definition dummy_default : Dummy := Some (mk_tuple None []).
Definition dummy_next (self : Dummy) : poll Dummy := Ok (self, None).

(** ** DISTINCT over grouped input *)

Record StreamDistinct := mk_stream_distinct {
  groupby_exprs : list ScalarExpression; distinct_input : Stream; last_keys : option Tuple;
}.

Fixpoint distinct_loop (groupby_exprs : list ScalarExpression) (last_keys : option Tuple)
    (ts : list Tuple) (fail : option DatabaseError) : poll StreamDistinct :=
  match ts with
  | [] => match fail with
          | Some e => Err e
          | None => Ok (last_keys, mk_stream_distinct groupby_exprs (mk_stream [] None) None)
          end
  | t :: ts' =>
      let? keys := rewrite_tuple groupby_exprs t None in
      match last_keys with
      | Some last =>
          if key_eq (values last) (values keys) then distinct_loop groupby_exprs last_keys ts' fail
          else Ok (Some last, mk_stream_distinct groupby_exprs (mk_stream ts' fail) (Some keys))
      | None => distinct_loop groupby_exprs (Some keys) ts' fail
      end
  end.

Definition distinct_next (self : StreamDistinct) : poll StreamDistinct :=
  distinct_loop (groupby_exprs self) (last_keys self) (rows (distinct_input self)) (failure (distinct_input self)).
End Operators.

(** * What each node produces *)

Section Results.
Context {OF : OrderedFloat} {CH : Chrono} {SF : ScalarFunctions}.

Lemma rewrite_push_eval exprs base vs acc :
  length vs = base ->
  rewrite_push exprs base (vs ++ acc) None =
  (let? ws := rmap (fun e => eval e (Some vs)) exprs in Ok (vs ++ acc ++ ws)).
Proof.
  intros Hb. revert acc. induction exprs as [|e exprs IH]; intros acc; simpl; [by rewrite app_nil_r|].
  rewrite take_app_length' by done. destruct (eval e (Some vs)) as [v|]; simpl; [|done].
  rewrite <- app_assoc, IH. destruct (rmap _ exprs); simpl; [|done]. by rewrite <- app_assoc.
Qed.

Lemma rmap_total {A B : Type} (f : A -> res B) l :
  Forall (fun x => exists y, f x = Ok y) l -> exists ys, rmap f l = Ok ys.
Proof.
  induction 1 as [|x l [y Hy] _ [ys IH]]; [by eexists|]. simpl. rewrite Hy, IH. by eexists.
Qed.

Lemma rmap_length {A B : Type} (f : A -> res B) l l' : rmap f l = Ok l' -> length l' = length l.
Proof. intros H. apply rmap_Ok in H. symmetry. by eapply Forall2_length. Qed.

(** The rewrite of a row evaluates every expression on the row as it came in,
    and keeps its primary key. *)
Lemma rewrite_tuple_eval exprs t :
  rewrite_tuple exprs t None =
  (let? vs := rmap (fun e => eval e (Some (values t))) exprs in Ok (mk_tuple (pk t) vs)).
Proof.
  unfold rewrite_tuple. pose proof (rewrite_push_eval exprs (length (values t)) (values t) [] eq_refl) as H.
  rewrite app_nil_r in H. rewrite H. destruct (rmap _ exprs) as [ws|] eqn:E; simpl; [|done].
  apply rmap_length in E. unfold rotate_left. rewrite drop_app_length, take_app_length.
  by rewrite take_app_length' by done.
Qed.

(** ** Row-wise operators *)

Definition filter_row (predicate : ScalarExpression) (t : Tuple) : res (option Tuple) :=
  let? keep := keeps predicate t in Ok (if keep then Some t else None).

Definition project_row (exprs : list ScalarExpression) (t : Tuple) : res (option Tuple) :=
  let? vs := rmap (fun e => eval e (Some (values t))) exprs in Ok (Some (mk_tuple (pk t) vs)).

Lemma filter_produces p s : runs filter_next (mk_filter p s) (flow (filter_row p) s).
Proof.
  destruct s as [ts fail]. unfold flow. simpl. induction ts as [|t ts IH]; simpl.
  - destruct fail; [by apply runs_fail|by eapply runs_end].
  - unfold filter_row at 1. destruct (keeps p t) as [[]|e] eqn:E; simpl.
    + eapply runs_row; [unfold filter_next; simpl; by rewrite E|]. by rewrite stream_eta.
    + eapply runs_same; [|exact IH]. unfold filter_next. simpl. by rewrite E.
    + apply runs_fail. unfold filter_next. simpl. by rewrite E.
Qed.

Lemma projection_produces es s : runs projection_next (mk_projection es s) (flow (project_row es) s).
Proof.
  destruct s as [ts fail]. unfold flow. simpl. induction ts as [|t ts IH]; simpl.
  - destruct fail; [by apply runs_fail|by eapply runs_end].
  - unfold project_row at 1. destruct (rmap _ es) as [vs|e] eqn:E; simpl.
    + eapply runs_row; [|by rewrite stream_eta; exact IH].
      unfold projection_next. simpl. by rewrite rewrite_tuple_eval, E.
    + apply runs_fail. unfold projection_next. simpl. by rewrite rewrite_tuple_eval, E.
Qed.

(** ** Limit *)

(** The rows left to a limit of which [n] rows may still be skipped and [m]
    emitted; the input's error is seen only when the limit is not reached. *)
Definition limited (n m : Z) (s : Stream) : Stream :=
  let ts := take (Z.to_nat m) (drop (Z.to_nat n) (rows s)) in
  mk_stream ts (if Z.of_nat (length ts) <? m then failure s else None).

Lemma limit_step_skip self t ts fail :
  0 <= emitted self < default usize_max (limit self) -> skipped self < default 0 (offset self) ->
  limit_next (mk_limit (offset self) (limit self) (mk_stream (t :: ts) fail) (skipped self) (emitted self)) =
  limit_next (mk_limit (offset self) (limit self) (mk_stream ts fail) (skipped self + 1) (emitted self)).
Proof.
  intros [H0 H1] H2. unfold limit_next. simpl.
  by rewrite (proj2 (Z.ltb_lt _ _) H2), (proj2 (Z.leb_gt _ _) H1), (proj2 (Z.eqb_neq _ _)) by lia.
Qed.

Lemma limit_produces self :
  0 <= skipped self -> 0 <= emitted self ->
  runs limit_next self
    (limited (default 0 (offset self) - skipped self) (default usize_max (limit self) - emitted self)
       (limit_input self)).
Proof.
  destruct self as [off lim [ts fail] sk em]. simpl. revert sk em.
  induction ts as [|t ts IH]; intros sk em Hs He.
  all: destruct (Z.le_gt_cases (default usize_max lim) em) as [Hle|Hgt].
  1,3: unfold limited; replace (Z.to_nat (default usize_max lim - em)) with 0%nat by lia; simpl;
    rewrite (proj2 (Z.ltb_ge _ _)) by lia; eapply runs_end; unfold limit_next; simpl;
    rewrite (proj2 (Z.leb_le _ _) Hle), orb_true_r; reflexivity.
  - unfold limited. simpl. rewrite drop_nil, take_nil, (proj2 (Z.ltb_lt _ _)) by (simpl; lia).
    destruct fail; [apply runs_fail|eapply runs_end]; unfold limit_next; simpl;
      rewrite (proj2 (Z.eqb_neq _ _)), (proj2 (Z.leb_gt _ _) Hgt) by lia; reflexivity.
  - destruct (Z.lt_ge_cases sk (default 0 off)) as [Hlt|Hge].
    + eapply runs_same; [apply (limit_step_skip (mk_limit off lim (mk_stream ts fail) sk em)); done|].
      simpl. specialize (IH (sk + 1) em ltac:(lia) He). unfold limited in *. simpl in *.
      replace (Z.to_nat (default 0 off - sk)) with (Datatypes.S (Z.to_nat (default 0 off - (sk + 1)))) by lia.
      exact IH.
    + specialize (IH sk (em + 1) Hs ltac:(lia)). unfold limited in *. simpl in *.
      replace (Z.to_nat (default 0 off - sk)) with 0%nat in * by lia.
      replace (Z.to_nat (default usize_max lim - em)) with (Datatypes.S (Z.to_nat (default usize_max lim - (em + 1)))) by lia.
      simpl. eapply runs_row.
      * unfold limit_next. simpl. rewrite (proj2 (Z.eqb_neq _ _)), (proj2 (Z.leb_gt _ _) Hgt) by lia. simpl.
        by rewrite (proj2 (Z.ltb_ge _ _) Hge).
      * rewrite drop_0 in *. match goal with |- runs _ _ (mk_stream _ (if ?c then _ else _)) =>
          replace c with (Z.of_nat (length (take (Z.to_nat (default usize_max lim - (em + 1))) ts)) <?
                          default usize_max lim - (em + 1)); [exact IH|] end.
        apply eq_iff_eq_true. rewrite !Z.ltb_lt. lia.
Qed.

(** ** Union *)

(** All rows of the left, then those of the right unless the left fails. *)
Definition chain (l r : Stream) : Stream :=
  match failure l with
  | Some e => mk_stream (rows l) (Some e)
  | None => mk_stream (rows l ++ rows r) (failure r)
  end.

Lemma union_right_produces l r : runs union_next (mk_union l r false) r.
Proof.
  destruct r as [ts fail]. induction ts as [|t ts IH].
  - destruct fail; [by apply runs_fail|by eapply runs_end].
  - by eapply runs_row.
Qed.

Lemma union_produces l r : runs union_next (mk_union l r true) (chain l r).
Proof.
  destruct l as [ts fail]. unfold chain. simpl. induction ts as [|t ts IH].
  - destruct fail; [by apply runs_fail|]. simpl. rewrite stream_eta.
    eapply runs_same; [|apply (union_right_produces (mk_stream [] None) r)]. done.
  - destruct fail; eapply runs_row; done.
Qed.

(** ** EXCEPT and INTERSECT *)

Fixpoint members (kind : SetMembershipKind) (counts : HashMap Tuple nat) (ts : list Tuple) : list Tuple :=
  match ts with
  | [] => []
  | t :: ts' =>
      let '(matched, counts') := consume_right_match counts t in
      (if should_emit kind matched then [t] else []) ++ members kind counts' ts'
  end.

Definition count_of (counts : HashMap Tuple nat) (t : Tuple) : nat := default 0%nat (HashMap.get counts t).

Lemma build_counts_ok ts counts :
  exists counts', build_counts ts None counts = Ok counts' /\
    forall t, count_of counts' t = (count_of counts t + occurrences t ts)%nat.
Proof.
  revert counts. induction ts as [|x ts IH]; intros counts; simpl.
  - eexists. split; [done|]. intros t. unfold occurrences; simpl; lia.
  - destruct (IH (HashMap.upsert counts x 0%nat Datatypes.S)) as (c & Hc & Hn). exists c. split; [done|].
    intros t. rewrite Hn, occurrences_cons. unfold count_of. rewrite HashMap.get_upsert.
    destruct (key_eq t x) eqn:E; simpl; [rewrite (HashMap.get_cong _ _ _ E)|]; lia.
Qed.

Lemma consume_count counts t x :
  count_of (consume_right_match counts t).2 x =
  (count_of counts x - (if key_eq x t then 1 else 0))%nat /\
  (consume_right_match counts t).1 = negb (count_of counts t =? 0)%nat.
Proof.
  unfold consume_right_match, count_of. destruct (HashMap.get counts t) as [[|n]|] eqn:E; simpl.
  - split; [|done]. destruct (key_eq x t) eqn:Ex; [|lia]. by rewrite (HashMap.get_cong _ _ _ Ex), E.
  - split; [|done]. unfold HashMap.insert. rewrite HashMap.get_upsert.
    destruct (key_eq x t) eqn:Ex; simpl; [|lia]. rewrite (HashMap.get_cong _ _ _ Ex), E. simpl. lia.
  - split; [|done]. destruct (key_eq x t) eqn:Ex; [|lia]. by rewrite (HashMap.get_cong _ _ _ Ex), E.
Qed.

Definition member_count (kind : SetMembershipKind) (l r : nat) : nat :=
  match kind with
  | Except => (l - r)%nat
  | Intersect => Nat.min l r
  end.

Lemma members_count kind counts ts x :
  occurrences x (members kind counts ts) = member_count kind (occurrences x ts) (count_of counts x).
Proof.
  revert counts. induction ts as [|t ts IH]; intros counts; simpl.
  - unfold occurrences; simpl. destruct kind; simpl; lia.
  - pose proof (consume_count counts t x) as [Hc Hm]. destruct (consume_right_match counts t) as [m c].
    simpl in *. rewrite occurrences_app, IH, Hc, occurrences_cons.
    destruct (key_eq x t) eqn:E.
    + unfold count_of in Hm. rewrite <- (HashMap.get_cong _ _ _ E) in Hm. fold (count_of counts x) in Hm.
      clear Hc. subst m. destruct (count_of counts x) as [|n], kind; simpl;
        rewrite ?occurrences_cons, ?occurrences_nil, ?E; simpl; lia.
    + destruct (should_emit kind m); rewrite ?occurrences_cons, ?occurrences_nil, ?E; simpl;
        destruct kind; simpl; lia.
Qed.

Lemma members_sublist kind counts ts : members kind counts ts `sublist_of` ts.
Proof.
  revert counts. induction ts as [|t ts IH]; intros counts; simpl; [constructor|].
  destruct (consume_right_match counts t) as [m c]. destruct (should_emit kind m); simpl; by constructor.
Qed.

Lemma membership_loop_produces kind counts r ts fail :
  runs membership_next (mk_set_membership kind (mk_stream ts fail) r counts true)
    (mk_stream (members kind counts ts) fail).
Proof.
  revert counts. induction ts as [|t ts IH]; intros counts; simpl.
  - destruct fail; [by apply runs_fail|by eapply runs_end].
  - destruct (consume_right_match counts t) as [m c] eqn:E. destruct (should_emit kind m) eqn:Em; simpl.
    + eapply runs_row; [|apply IH]. unfold membership_next. simpl. by rewrite E, Em.
    + eapply runs_same; [|apply IH]. unfold membership_next. simpl. by rewrite E, Em.
Qed.

Lemma membership_produces kind l ts counts :
  build_counts ts None [] = Ok counts ->
  runs membership_next (mk_set_membership kind l (mk_stream ts None) [] false)
    (mk_stream (members kind counts (rows l)) (failure l)).
Proof.
  intros Hb. destruct l as [ls fail]. simpl.
  eapply runs_same; [|apply (membership_loop_produces kind counts (mk_stream [] None))].
  unfold membership_next. simpl. by rewrite Hb.
Qed.

(** ** DISTINCT *)

(** Drop the rows whose values equal those of the row before. *)
Fixpoint dedup_from (last : Tuple) (ts : list Tuple) : list Tuple :=
  match ts with
  | [] => [last]
  | t :: ts' => if key_eq (values last) (values t) then dedup_from last ts' else last :: dedup_from t ts'
  end.

Definition dedup (ts : list Tuple) : list Tuple :=
  match ts with
  | [] => []
  | t :: ts' => dedup_from t ts'
  end.

Lemma distinct_from_produces gs last ts keys :
  rmap (fun t => rewrite_tuple gs t None) ts = Ok keys ->
  runs distinct_next (mk_stream_distinct gs (mk_stream ts None) (Some last)) (mk_stream (dedup_from last keys) None).
Proof.
  revert last keys. induction ts as [|t ts IH]; intros last keys H; simpl in H.
  - inv_ok. subst. eapply runs_row; [done|]. by eapply runs_end.
  - inv_ok. subst. simpl. destruct (key_eq (values last) (values a)) eqn:E.
    + eapply runs_same; [|by apply (IH last)]. unfold distinct_next. simpl. by rewrite Ha; simpl; rewrite E.
    + eapply runs_row; [|by apply IH]. unfold distinct_next. simpl. by rewrite Ha; simpl; rewrite E.
Qed.

Lemma distinct_produces gs ts keys :
  rmap (fun t => rewrite_tuple gs t None) ts = Ok keys ->
  runs distinct_next (mk_stream_distinct gs (mk_stream ts None) None) (mk_stream (dedup keys) None).
Proof.
  destruct ts as [|t ts]; simpl; intros H; inv_ok; subst; simpl; [by eapply runs_end|].
  eapply runs_same; [|by apply distinct_from_produces]. unfold distinct_next. simpl. by rewrite Ha.
Qed.

Lemma dedup_from_once last ts k :
  grouped (map values (last :: ts)) ->
  occurrences k (map values (dedup_from last ts)) = Nat.min 1 (occurrences k (map values (last :: ts))).
Proof.
  revert last. induction ts as [|t ts IH]; intros last Hg.
  - simpl. rewrite occurrences_cons. unfold occurrences. simpl. by destruct (key_eq k (values last)).
  - cbn [map dedup_from]. destruct Hg as [Hh Hg]. simpl in Hh. destruct (key_eq (values last) (values t)) eqn:E.
    + rewrite IH.
      * simpl. rewrite !occurrences_cons, (key_eq_cong _ _ k E). by destruct (key_eq k (values t)).
      * destruct Hg as [Hg' Hg'']. split; [|done]. destruct ts as [|t' ts]; simpl in *.
        -- done.
        -- destruct Hg' as [Hg'|Hg']; [left; by eapply key_eq_trans|right].
           by rewrite (occurrences_cong _ _ _ E).
    + destruct Hh as [Hh|Hh]; [by rewrite Hh in E|]. cbn [map]. rewrite !occurrences_cons, IH by done.
      cbn [map]. rewrite occurrences_cons in Hh |- *. destruct (key_eq k (values last)) eqn:Ek; [|lia].
      rewrite (key_eq_cong_l _ _ _ Ek), (occurrences_cong _ _ _ Ek), Hh. done.
Qed.
End Results.

(** * Every node keeps the protocol's promise *)

Section Fused.
Context {OF : OrderedFloat} {CH : Chrono} {SF : ScalarFunctions}.

Lemma filter_loop_end p ts fail s' :
  filter_loop p ts fail = Ok (None, s') -> s' = mk_filter p (mk_stream [] None).
Proof.
  induction ts as [|t ts IH]; simpl; [by destruct fail; intros [=]|].
  destruct (keeps p t) as [[]|]; simpl; [by intros [=]|done|done].
Qed.

Lemma limit_loop_end off lim em ts fail sk s' :
  limit_loop off lim em ts fail sk = Ok (None, s') ->
  exists sk', s' = mk_limit off lim (mk_stream [] None) sk' em.
Proof.
  revert sk. induction ts as [|t ts IH]; intros sk; simpl; [destruct fail; intros [=]; by eexists|].
  destruct (sk <? default 0 off); [apply IH|by intros [=]].
Qed.

Lemma membership_loop_end k c r ts fail s' :
  membership_loop k c r ts fail = Ok (None, s') ->
  exists c', s' = mk_set_membership k (mk_stream [] None) r c' true.
Proof.
  revert c. induction ts as [|t ts IH]; intros c; simpl; [destruct fail; intros [=]; by eexists|].
  destruct (consume_right_match c t) as [m c']. destruct (should_emit k m); [by intros [=]|apply IH].
Qed.

Lemma distinct_loop_end gs last ts fail s' :
  distinct_loop gs last ts fail = Ok (None, s') -> s' = mk_stream_distinct gs (mk_stream [] None) None.
Proof.
  revert last. induction ts as [|t ts IH]; intros last; simpl; [by destruct fail; intros [=]|].
  destruct (rewrite_tuple gs t None) as [k|]; simpl; [|done].
  destruct last as [l|]; [destruct (key_eq (values l) (values k)); [apply IH|by intros [=]]|apply IH].
Qed.

#[global] Program Instance filter_executor : Executor Filter := {| next_tuple := filter_next |}.
Next Obligation. intros s s' H. rewrite (filter_loop_end _ _ _ _ H). by eexists. Qed.

#[global] Program Instance projection_executor : Executor Projection := {| next_tuple := projection_next |}.
Next Obligation.
  intros [es [[|t ts] [e|]]] s' H; unfold projection_next in H; simpl in H; try discriminate H.
  - apply Ok_inj in H. simplify_eq. by eexists.
  - by destruct (rewrite_tuple es t None).
  - by destruct (rewrite_tuple es t None).
Qed.

#[global] Program Instance limit_executor : Executor Limit := {| next_tuple := limit_next |}.
Next Obligation.
  intros s s' H. unfold limit_next in H. destruct (_ || _) eqn:E.
  - apply Ok_inj in H. simplify_eq. exists s'. unfold limit_next. by rewrite E.
  - apply limit_loop_end in H as [sk ->]. unfold limit_next. simpl. rewrite E. by eexists.
Qed.

#[global] Program Instance union_executor : Executor Union_ := {| next_tuple := union_next |}.
Next Obligation.
  intros [[[|t ts] [e|]] [[|t' ts'] [e'|]] []] s' H; unfold union_next, union_right in H; simpl in H;
    try discriminate H; apply Ok_inj in H; simplify_eq; by eexists.
Qed.

#[global] Program Instance membership_executor : Executor SetMembership := {| next_tuple := membership_next |}.
Next Obligation.
  intros s s' H. unfold membership_next in H. apply rbind_ok in H as ([c r] & _ & H).
  apply membership_loop_end in H as [c' ->]. by eexists.
Qed.

#[global] Program Instance distinct_executor : Executor StreamDistinct := {| next_tuple := distinct_next |}.
Next Obligation. intros s s' H. rewrite (distinct_loop_end _ _ _ _ _ H). by eexists. Qed.

#[global] Program Instance values_executor : Executor Values := {| next_tuple := values_next |}.
Next Obligation.
  intros s s' H. unfold values_next in H. destruct (remaining_rows s =? 0) eqn:E.
  - apply Ok_inj in H. simplify_eq. exists s'. unfold values_next. by rewrite E.
  - by destruct (values_row (schema_types s) (value_rows s)) as [[? ?]|].
Qed.

#[global] Program Instance dummy_executor : Executor Dummy := {| next_tuple := dummy_next |}.
Next Obligation. intros s s' H. unfold dummy_next in *. apply Ok_inj in H. simplify_eq. by eexists. Qed.
End Fused.

(** * The claims *)

Section Claims.
Context {OF : OrderedFloat} {CH : Chrono} {SF : ScalarFunctions}.

(** EXCEPT and INTERSECT count rows. Polled to the end, the node emits a
    subsequence of its left input in which a row that occurs l times on the
    left and r times on the right occurs l - r times (EXCEPT) or min(l, r)
    times (INTERSECT), rows being compared with [Eq for Tuple]; the left
    input's error, if any, follows those rows. *)
Theorem set_membership_counts kind l ts :
  exists out,
    runs membership_next (mk_set_membership kind l (mk_stream ts None) [] false) (mk_stream out (failure l)) /\
    out `sublist_of` rows l /\
    forall x, occurrences x out = member_count kind (occurrences x (rows l)) (occurrences x ts).
Proof.
  destruct (build_counts_ok ts []) as (counts & Hb & Hc).
  exists (members kind counts (rows l)). split; [by apply membership_produces|].
  split; [apply members_sublist|]. intros x. by rewrite members_count, Hc.
Qed.

(** LIMIT and OFFSET: a fresh limit node emits rows [offset, offset +
    limit) of its input, all of them when no limit is given, and reports the
    input's error only when it had to read up to it. *)
Theorem limit_window off lim s :
  runs limit_next (mk_limit off lim s 0 0) (limited (default 0 off) (default usize_max lim) s).
Proof.
  pose proof (limit_produces (mk_limit off lim s 0 0)) as H. simpl in H.
  rewrite !Z.sub_0_r in H. by apply H.
Qed.

(** DISTINCT over sorted input: when the key expressions evaluate on every
    row and rows with equal keys are adjacent, the streaming node emits every
    key that occurs exactly once. *)
Theorem stream_distinct_once gs ts keys :
  rmap (fun t => rewrite_tuple gs t None) ts = Ok keys ->
  grouped (map values keys) ->
  exists out, runs distinct_next (mk_stream_distinct gs (mk_stream ts None) None) (mk_stream out None) /\
    forall k, occurrences k (map values out) = Nat.min 1 (occurrences k (map values keys)).
Proof.
  intros Hk Hg. exists (dedup keys). split; [by apply distinct_produces|].
  intros k. destruct keys as [|t keys]; [done|]. by apply dedup_from_once.
Qed.

(** The row-wise nodes compose: a projection that pulls from a filter (or
    any two such nodes) yields what one pass over the filter's input yields,
    keeping the rows on which the predicate is true and evaluating every
    expression on the row as it entered, up to the first error. *)
Theorem filter_project_pipeline p es s :
  exists mid, runs filter_next (mk_filter p s) mid /\
    runs projection_next (mk_projection es mid) (flow (flow_then (filter_row p) (project_row es)) s).
Proof.
  exists (flow (filter_row p) s). split; [apply filter_produces|].
  rewrite <- flow_flow. apply projection_produces.
Qed.
End Claims.

Definition wit_key (n : Z) : Tuple := mk_tuple None [DataValue.Int32 n].

Lemma stream_distinct_once_witness :
  rmap (fun t => rewrite_tuple [ScalarExpression.ColumnRef LogicalType.Integer 0] t None)
    [wit_key 1; wit_key 1; wit_key 2] = Ok [wit_key 1; wit_key 1; wit_key 2] /\
  exists out,
    runs distinct_next
      (mk_stream_distinct [ScalarExpression.ColumnRef LogicalType.Integer 0]
         (mk_stream [wit_key 1; wit_key 1; wit_key 2] None) None) (mk_stream out None) /\
    forall k, occurrences k (map values out) =
      Nat.min 1 (occurrences k (map values [wit_key 1; wit_key 1; wit_key 2])).
Proof.
  split; [reflexivity|]. apply stream_distinct_once; [reflexivity|].
  repeat split; try (by left); by right.
Defined.
