(* ===== verification/Sorting.v ===== *)
(** Stable sorting by a comparison, as [slice::sort_by] does it, and a bounded
    ordered set that keeps the first rows of the sorted sequence. [sort_by]
    is the insertion sort from the left; on a total preorder every stable sort
    gives the same list. *)

From S2P Require Import Prelude.
From Stdlib Require Import ZArith Lia.
From stdpp Require Import base tactics list list_numbers numbers option sorting.
Local Open Scope Z_scope.

Section Insertion.
Context {A : Type} (cmp : A -> A -> comparison).

(** [x] behind every element that is not greater. *)
Fixpoint insert_by (x : A) (l : list A) : list A :=
  match l with
  | [] => [x]
  | y :: l' => match cmp x y with
               | Lt => x :: l
               | _ => y :: insert_by x l'
               end
  end.

Definition sort_by (l : list A) : list A := fold_left (fun acc x => insert_by x acc) l [].

Lemma insert_by_perm x l : Permutation (insert_by x l) (x :: l).
Proof.
  induction l as [|y l IH]; simpl; [done|]. destruct (cmp x y); try done;
    (etransitivity; [apply perm_skip, IH|apply perm_swap]).
Qed.

Lemma sort_by_snoc l x : sort_by (l ++ [x]) = insert_by x (sort_by l).
Proof. unfold sort_by. by rewrite fold_left_app. Qed.

Lemma sort_by_perm l : Permutation (sort_by l) l.
Proof.
  induction l as [|x l IH] using rev_ind; [done|].
  rewrite sort_by_snoc, insert_by_perm, IH. by rewrite Permutation_app_comm.
Qed.

(** A set of at most [keep] elements: a new element enters while there is room,
    or in place of the last element when it precedes it. *)
Definition bounded_insert (keep : nat) (x : A) (h : list A) : list A :=
  if (length h <? keep)%nat then insert_by x h
  else match last h with
       | Some y => match cmp x y with
                   | Lt => insert_by x (removelast h)
                   | _ => h
                   end
       | None => h
       end.

Lemma insert_take_before x y k l :
  l !! k = Some y -> cmp x y = Lt -> insert_by x (take k l) = take (S k) (insert_by x l).
Proof.
  revert l. induction k as [|k IH]; intros [|a l] Hy Hc; try discriminate Hy.
  - simpl in Hy. simplify_eq. simpl. by rewrite Hc.
  - simpl. destruct (cmp x a); simpl; [|done|]; by rewrite (IH l).
Qed.
End Insertion.

Section Map.
Context {A B : Type} (f : A -> B) (cmp1 : A -> A -> comparison) (cmp2 : B -> B -> comparison).

Lemma insert_by_map (P : A -> Prop) x l :
  (forall a b, P a -> P b -> cmp2 (f a) (f b) = cmp1 a b) -> P x -> Forall P l ->
  insert_by cmp2 (f x) (map f l) = map f (insert_by cmp1 x l).
Proof.
  intros Hc Hx. induction 1 as [|y l Hy Hl IH]; [done|]. simpl. rewrite (Hc x y Hx Hy).
  by destruct (cmp1 x y); simpl; rewrite ?IH.
Qed.

(** A map under which the comparisons agree commutes with the sort. *)
Lemma sort_by_map (P : A -> Prop) l :
  (forall a b, P a -> P b -> cmp2 (f a) (f b) = cmp1 a b) -> Forall P l ->
  sort_by cmp2 (map f l) = map f (sort_by cmp1 l).
Proof.
  intros Hc. induction l as [|x l IH] using rev_ind; intros Hl; [done|].
  apply Forall_app in Hl as [Hl Hx]. apply Forall_cons_1 in Hx as [Hx _].
  rewrite map_app. simpl. rewrite !sort_by_snoc, (IH Hl). apply (insert_by_map P); [done|done|].
  by rewrite sort_by_perm.
Qed.
End Map.

Section Ordered.
Context {A : Type} (cmp : A -> A -> comparison).
Context (cmp_antisym : forall a b, cmp b a = CompOpp (cmp a b)) (cmp_trans : cmp_transitive cmp).

Definition not_after (a b : A) : Prop := cmp a b <> Gt.

Lemma not_after_trans a b c : not_after a b -> not_after b c -> not_after a c.
Proof.
  unfold not_after. intros H1 H2.
  destruct (cmp a b) eqn:E1, (cmp b c) eqn:E2; try done;
    rewrite (cmp_trans _ _ _ _ _ E1 E2) by (unfold cmp_compat; auto); done.
Qed.

Lemma not_lt_not_after a b : cmp a b <> Lt -> not_after b a.
Proof. unfold not_after. rewrite (cmp_antisym a b). by destruct (cmp a b). Qed.

Lemma insert_by_sorted x l : StronglySorted not_after l -> StronglySorted not_after (insert_by cmp x l).
Proof.
  induction 1 as [|y l Hs IH Hy]; simpl; [by repeat constructor|].
  destruct (cmp x y) eqn:E.
  - constructor; [done|]. rewrite insert_by_perm. constructor; [|done]. apply not_lt_not_after. by rewrite E.
  - constructor; [by constructor|]. constructor; [by unfold not_after; rewrite E|].
    eapply Forall_impl; [exact Hy|]. intros z Hz. apply (not_after_trans _ y); [by unfold not_after; rewrite E|done].
  - constructor; [done|]. rewrite insert_by_perm. constructor; [|done]. apply not_lt_not_after. by rewrite E.
Qed.

Lemma sort_by_sorted l : StronglySorted not_after (sort_by cmp l).
Proof.
  induction l as [|x l IH] using rev_ind; [constructor|]. rewrite sort_by_snoc. by apply insert_by_sorted.
Qed.

(** Elements that compare equal keep their order. *)
Definition tied (k y : A) : bool := match cmp k y with Eq => true | _ => false end.

Lemma insert_by_ties k x l :
  StronglySorted not_after l ->
  List.filter (tied k) (insert_by cmp x l) = List.filter (tied k) l ++ (if tied k x then [x] else []).
Proof.
  induction 1 as [|y l Hs IH Hy]; simpl; [by destruct (tied k x)|]. destruct (cmp x y) eqn:E.
  - simpl. rewrite IH. by destruct (tied k y).
  - simpl. destruct (tied k x) eqn:Ex; [|by rewrite app_nil_r].
    assert (Forall (fun z => tied k z = false) (y :: l)) as Hn.
    { assert (forall z, not_after y z -> tied k z = false) as Hz.
      { intros z Hz. unfold tied in *. destruct (cmp k x) eqn:Ek; try done.
        assert (cmp k y = Lt) as Eky by (by rewrite (cmp_trans k x y Eq Lt Ek E) by (by left)).
        destruct (cmp y z) eqn:Ez; [| |done];
          by rewrite (cmp_trans k y z _ _ Eky Ez) by (unfold cmp_compat; auto). }
      constructor; [|eapply Forall_impl; [exact Hy|exact Hz]].
      apply Hz. unfold not_after. pose proof (cmp_antisym y y). by destruct (cmp y y). }
    change (if tied k y then y :: List.filter (tied k) l else List.filter (tied k) l)
      with (List.filter (tied k) (y :: l)).
    assert (List.filter (tied k) (y :: l) = []) as ->; [|done].
    clear -Hn. induction Hn as [|z l' Hz _ IHn]; [done|]. simpl. by rewrite Hz.
  - simpl. rewrite IH. by destruct (tied k y).
Qed.

Lemma sort_by_stable k l : List.filter (tied k) (sort_by cmp l) = List.filter (tied k) l.
Proof.
  induction l as [|x l IH] using rev_ind; [done|].
  rewrite sort_by_snoc, insert_by_ties by apply sort_by_sorted. rewrite IH, List.filter_app. simpl.
  by destruct (tied k x).
Qed.

Lemma insert_take_after x y k l :
  StronglySorted not_after l -> l !! k = Some y -> cmp x y <> Lt ->
  take (S k) (insert_by cmp x l) = take (S k) l.
Proof.
  intros Hs. revert k. induction Hs as [|a l Hs IH Ha]; intros k Hy Hc; [done|].
  destruct k as [|k]; simpl in Hy.
  - simplify_eq. simpl. by destruct (cmp x y).
  - assert (cmp x a <> Lt) as Hxa.
    { assert (not_after a x) as H.
      { apply (not_after_trans _ y); [|by apply not_lt_not_after].
        rewrite Forall_forall in Ha. apply Ha. by eapply list_elem_of_lookup_2. }
      unfold not_after in H. rewrite (cmp_antisym x a) in H. by destruct (cmp x a). }
    specialize (IH k Hy Hc). cbn [insert_by]. destruct (cmp x a); [|done|];
      cbn [take]; f_equal; exact IH.
Qed.

(** The bounded set holds the first elements of the sorted sequence. *)
Lemma bounded_insert_take keep x l :
  StronglySorted not_after l ->
  bounded_insert cmp keep x (take keep l) = take keep (insert_by cmp x l).
Proof.
  intros Hs. unfold bounded_insert. rewrite length_take.
  destruct (Nat.ltb_spec (Nat.min keep (length l)) keep) as [Hlt|Hge].
  - rewrite !take_ge; [done| |lia]. rewrite insert_by_perm. simpl. lia.
  - destruct keep as [|k]; [done|]. assert (k < length l)%nat as Hk by lia.
    destruct (lookup_lt_is_Some_2 l k Hk) as [y Hy].
    assert (last (take (S k) l) = Some y) as ->.
    { rewrite last_lookup, length_take. replace (Nat.pred (Nat.min (S k) (length l))) with k by lia.
      by rewrite lookup_take_lt by lia. }
    rewrite removelast_firstn by done.
    destruct (cmp x y) eqn:E.
    + symmetry. apply (insert_take_after x y); [done|done|by rewrite E].
    + by eapply insert_take_before.
    + symmetry. apply (insert_take_after x y); [done|done|by rewrite E].
Qed.

Lemma bounded_sort keep l :
  fold_left (fun h x => bounded_insert cmp keep x h) l [] = take keep (sort_by cmp l).
Proof.
  induction l as [|x l IH] using rev_ind; [by destruct keep|].
  rewrite fold_left_app. simpl. rewrite IH, sort_by_snoc. apply bounded_insert_take, sort_by_sorted.
Qed.

(** ** Merging *)

Lemma tied_refl x : tied x x = true.
Proof. unfold tied. pose proof (cmp_antisym x x). by destruct (cmp x x). Qed.

Lemma not_after_antisym x y : not_after x y -> not_after y x -> cmp x y = Eq.
Proof. unfold not_after. rewrite (cmp_antisym x y). by destruct (cmp x y). Qed.

(** A stable sort has one result. *)
Lemma stable_unique l1 l2 :
  StronglySorted not_after l1 -> StronglySorted not_after l2 ->
  (forall k, List.filter (tied k) l1 = List.filter (tied k) l2) -> l1 = l2.
Proof.
  intros H1. revert l2. induction H1 as [|x l1 H1 IH Hx]; intros l2 H2 Ht.
  - destruct l2 as [|y l2]; [done|]. specialize (Ht y). cbn in Ht. by rewrite tied_refl in Ht.
  - destruct H2 as [|y l2 H2 Hy]; [specialize (Ht x); cbn in Ht; by rewrite tied_refl in Ht|].
    assert (forall a l b l', List.filter (tied a) (a :: l) = List.filter (tied a) (b :: l') ->
      Forall (not_after b) l' -> not_after b a) as Hle.
    { intros a l b l' E Hb. cbn in E. rewrite tied_refl in E.
      assert (In a (b :: l')) as [->|Hin].
      { assert (In a (List.filter (tied a) (b :: l'))) as Hi by (cbn; rewrite <- E; by left). by apply filter_In in Hi as [Hi _]. }
      - unfold not_after. pose proof (tied_refl a) as Hr. unfold tied in Hr. by destruct (cmp a a).
      - rewrite List.Forall_forall in Hb. by apply Hb. }
    assert (cmp x y = Eq) as E.
    { apply not_after_antisym; [apply (Hle y l2 x l1); [symmetry; apply Ht|done]|apply (Hle x l1 y l2); [apply Ht|done]]. }
    assert (x = y) as ->.
    { specialize (Ht x). cbn in Ht. rewrite tied_refl in Ht. unfold tied in Ht at 2. rewrite E in Ht. by simplify_eq. }
    f_equal. apply IH; [done|]. intros k. specialize (Ht k). cbn in Ht. destruct (tied k y); by simplify_eq.
Qed.

Lemma sort_by_unique l l0 :
  StronglySorted not_after l -> (forall k, List.filter (tied k) l = List.filter (tied k) l0) -> l = sort_by cmp l0.
Proof.
  intros Hs Ht. apply stable_unique; [done|apply sort_by_sorted|]. intros k. by rewrite sort_by_stable.
Qed.

Lemma filter_concat {B : Type} (f : B -> bool) (ls : list (list B)) :
  List.filter f (concat ls) = concat (map (List.filter f) ls).
Proof. induction ls as [|l ls IH]; [done|]. cbn. by rewrite List.filter_app, IH. Qed.

(** Sorting parts first changes nothing. *)
Lemma sort_by_parts ls : sort_by cmp (concat (map (sort_by cmp) ls)) = sort_by cmp (concat ls).
Proof.
  apply sort_by_unique; [apply sort_by_sorted|]. intros k. rewrite sort_by_stable, !filter_concat, map_map. f_equal.
  apply map_ext. intros l. apply sort_by_stable.
Qed.

(** The head [x] of the [i]-th list precedes the heads of the others, and
    comes strictly before those of the lists in front. *)
Definition least (rss : list (list A)) (i : nat) (x : A) : Prop :=
  forall j y rs, rss !! j = Some (y :: rs) -> not_after x y /\ ((j < i)%nat -> cmp x y = Lt).

(** Taking the least head again and again. *)
Inductive merges : list (list A) -> list A -> Prop :=
| merges_done rss : Forall (fun rs => rs = []) rss -> merges rss []
| merges_step rss i x rs out :
    rss !! i = Some (x :: rs) -> least rss i x -> merges (<[i := rs]> rss) out -> merges rss (x :: out).

Lemma lt_not_after x y z : cmp x y = Lt -> not_after y z -> cmp x z = Lt.
Proof.
  unfold not_after. intros H1 H2. destruct (cmp y z) eqn:E; [| |done];
    by rewrite (cmp_trans _ _ _ _ _ H1 E) by (unfold cmp_compat; auto).
Qed.

Lemma concat_split (rss : list (list A)) i rs :
  rss !! i = Some rs ->
  concat rss = concat (take i rss) ++ rs ++ concat (drop (S i) rss) /\
  forall rs', concat (<[i := rs']> rss) = concat (take i rss) ++ rs' ++ concat (drop (S i) rss).
Proof.
  intros H. pose proof (take_drop_middle rss i rs H) as E. split; [by rewrite <- E at 1; rewrite concat_app|].
  intros rs'. rewrite insert_take_drop by (by eapply lookup_lt_Some). by rewrite concat_app.
Qed.

Lemma sorted_head x rs y : StronglySorted not_after (x :: rs) -> y ∈ x :: rs -> not_after x y.
Proof.
  inversion 1 as [|? ? ? Hx]; subst. rewrite elem_of_cons. intros [->|Hy].
  - unfold not_after. pose proof (tied_refl x) as Hr. unfold tied in Hr. by destruct (cmp x x).
  - rewrite Forall_forall in Hx. by apply Hx.
Qed.

Lemma merges_perm rss out : merges rss out -> Permutation out (concat rss).
Proof.
  induction 1 as [rss H|rss i x rs out Hi _ _ IH].
  - induction H as [|? ? -> _ IH]; [done|exact IH].
  - destruct (concat_split rss i (x :: rs) Hi) as [-> Hc]. rewrite (Hc rs) in IH. rewrite IH. cbn. by rewrite Permutation_middle.
Qed.

Lemma merges_sort rss out :
  Forall (StronglySorted not_after) rss -> merges rss out -> out = sort_by cmp (concat rss).
Proof.
  intros Hs H.
  assert (StronglySorted not_after out /\ forall k, List.filter (tied k) out = List.filter (tied k) (concat rss)) as [H1 H2];
    [|by apply sort_by_unique].
  induction H as [rss H|rss i x rs out Hi Hleast Hm IH].
  { split; [constructor|]. intros k. assert (concat rss = []) as ->; [|done]. induction H as [|? ? -> H IH]; [done|].
    apply IH. by apply Forall_cons_1 in Hs as [_ ?]. }
  pose proof (Forall_lookup_1 _ _ _ _ Hs Hi) as Hxrs. destruct IH as [IH1 IH2].
  { apply Forall_insert; [done|]. by inversion Hxrs. }
  destruct (concat_split rss i (x :: rs) Hi) as [Hc Hc']. rewrite (Hc' rs) in IH2.
  assert (forall j y rs', rss !! j = Some rs' -> y ∈ rs' -> not_after x y /\ ((j < i)%nat -> cmp x y = Lt)) as Hx.
  { intros j y rs' Hj Hy. destruct rs' as [|h rs']; [by apply not_elem_of_nil in Hy|].
    pose proof (Forall_lookup_1 _ _ _ _ Hs Hj) as Hh. pose proof (sorted_head h rs' y Hh Hy) as Hhy.
    destruct (Hleast j h rs' Hj) as [Ha Hb]. split; [by eapply not_after_trans|]. intros Hji. eapply lt_not_after; eauto. }
  split.
  - constructor; [done|]. apply Forall_forall. intros y Hy. rewrite (merges_perm _ _ Hm) in Hy.
    rewrite (Hc' rs) in Hy. assert (y ∈ concat rss) as Hy'.
    { rewrite Hc. rewrite !elem_of_app, elem_of_cons in *. tauto. }
    apply list_elem_of_In, in_concat in Hy' as (rs' & Hr & Hyr). apply list_elem_of_In, list_elem_of_lookup in Hr as [j Hj].
    apply (Hx j y rs' Hj). by apply list_elem_of_In.
  - intros k. rewrite Hc, !List.filter_app. cbn [List.filter]. rewrite IH2, !List.filter_app.
    destruct (tied k x) eqn:Ek; [|done].
    assert (List.filter (tied k) (concat (take i rss)) = []) as ->; [|done].
    assert (forall y, In y (concat (take i rss)) -> tied k y = false) as Hn.
    { intros y Hy. apply in_concat in Hy as (rs' & Hr & Hy). apply list_elem_of_In, list_elem_of_lookup in Hr as [j Hj].
      assert (j < i)%nat as Hji by (apply lookup_lt_Some in Hj; rewrite length_take in Hj; lia).
      rewrite lookup_take_lt in Hj by done. destruct (Hx j y rs' Hj) as [_ Hlt]; [by apply list_elem_of_In|].
      specialize (Hlt Hji). unfold tied in *. destruct (cmp k x) eqn:Ekx; try done.
      by rewrite (cmp_trans k x y Eq Lt Ekx Hlt) by (by left). }
    clear -Hn. induction (concat (take i rss)) as [|y l IH]; [done|]. cbn. rewrite (Hn y) by (by left).
    apply IH. intros z Hz. apply Hn. by right.
Qed.
End Ordered.
