(* ===== verification/SortExec.v ===== *)
(** Sorting (src/src/execution/dql/sort.rs) and the bounded sort
    (src/src/execution/dql/top_k.rs): the first compares the values of the sort
    fields, the second compares byte keys built from them, complemented where
    the field is descending. The theorems show that the sort is stable and
    ordered, and that the bounded sort is the sort followed by the limit. *)

From S2P Require Import Prelude MachineInt Types Operators Reader Value Chrono MemComparable Evaluators Casts Expr.
From S2P Require Import Row Collections Exec Sorting.
From Stdlib Require Import ZArith Lia.
From stdpp Require Import base tactics list list_numbers numbers option sorting.
Local Open Scope Z_scope.

Section SortFields.
Context {SF : ScalarFunctions}.

Record SortField := mk_sort_field { expr : ScalarExpression; asc : bool; nulls_first : bool }.
End SortFields.

Section Sort.
Context {OF : OrderedFloat} {CH : Chrono} {SF : ScalarFunctions}.

(** * Sort *)

Definition field_ordering (field : SortField) (value_1 value_2 : DataValue) : comparison :=
  let null_ordering := if nulls_first field then Gt else Lt in
  match is_null value_1, is_null value_2 with
  | false, true => null_ordering
  | true, false => CompOpp null_ordering
  | _, _ =>
      let ordering := default Eq (partial_cmp value_1 value_2) in
      if asc field then ordering else CompOpp ordering
  end.

Fixpoint compare_sort_keys (sort_fields : list SortField) (l r : list DataValue) : comparison :=
  match sort_fields, l, r with
  | field :: fields, v1 :: l', v2 :: r' =>
      match field_ordering field v1 v2 with
      | Eq => compare_sort_keys fields l' r'
      | ordering => ordering
      end
  | _, _, _ => Eq
  end.

(** [eval_values[x][i]] for every field [x]. *)
Definition key_at (eval_values : list (list DataValue)) (i : nat) : list DataValue :=
  map (fun column => default DataValue.Null (column !! i)) eval_values.

Definition sort_tuples (sort_fields : list SortField) (tuples : list (nat * Tuple)) : res (list (nat * Tuple)) :=
  let? eval_values :=
    rmap (fun field => rmap (fun row : nat * Tuple => eval (expr field) (Some (values row.2))) tuples) sort_fields in
  Ok (sort_by (fun a b : nat * Tuple =>
        compare_sort_keys sort_fields (key_at eval_values a.1) (key_at eval_values b.1)) tuples).

Record Sort := mk_sort { sort_rows : list (nat * Tuple); sort_fields : list SortField; sort_input : Stream }.

(** [Vec::pop]. *)
Definition vec_pop {A : Type} (l : list A) : option (A * list A) :=
  match last l with
  | Some x => Some (x, removelast l)
  | None => None
  end.

Fixpoint load (ts : list Tuple) (fail : option DatabaseError) (rows : list (nat * Tuple)) : res (list (nat * Tuple)) :=
  match ts with
  | [] => match fail with
          | Some e => Err e
          | None => Ok rows
          end
  | t :: ts' => load ts' fail (rows ++ [(length rows, t)])
  end.

Definition sort_next (self : Sort) : poll Sort :=
  match vec_pop (sort_rows self) with
  | Some ((_, t), rest) => Ok (Some t, mk_sort rest (sort_fields self) (sort_input self))
  | None =>
      let? loaded := load (rows (sort_input self)) (failure (sort_input self)) (sort_rows self) in
      match loaded with
      | [] => Ok (None, mk_sort [] (sort_fields self) (mk_stream [] None))
      | _ =>
          let? sorted := sort_tuples (sort_fields self) loaded in
          match vec_pop (reverse sorted) with
          | Some ((_, t), rest) => Ok (Some t, mk_sort rest (sort_fields self) (mk_stream [] None))
          | None => Ok (None, mk_sort [] (sort_fields self) (mk_stream [] None))
          end
      end
  end.

(** * Top k *)

Record CmpItem := mk_item { key : list Z; tuple : Tuple }.

(** [Ord for CmpItem]: never [Equal], so equal keys are kept, the newer one
    behind the older. *)
Definition item_cmp (self other : CmpItem) : comparison := cmp_then (lex_cmp (key self) (key other)) Gt.

(** [for byte in key.iter_mut().skip(1) { *byte ^= 0xFF }]. *)
Definition complement_tail (key : list Z) : list Z :=
  match key with
  | [] => []
  | tag :: payload => tag :: map (fun b => Z.lxor b 0xFF) payload
  end.

Definition field_key (field : SortField) (value : DataValue) : res (list Z) :=
  let? key := memcomparable_encode_with_null_order value (nulls_first field) in
  Ok (if negb (asc field) && (1 <? length key)%nat then complement_tail key else key).

Fixpoint full_key (sort_fields : list SortField) (t : Tuple) : res (list Z) :=
  match sort_fields with
  | [] => Ok []
  | field :: fields =>
      let? value := eval (expr field) (Some (values t)) in
      let? key := field_key field value in
      let? rest := full_key fields t in
      Ok (key ++ rest)
  end.

Definition top_sort (sort_fields : list SortField) (heap : list CmpItem) (t : Tuple) (keep_count : Z)
    : res (list CmpItem) :=
  let? k := full_key sort_fields t in
  Ok (if Z.of_nat (length heap) <? keep_count then insert_by item_cmp (mk_item k t) heap
      else match last heap with
           | Some cmp_item =>
               match lex_cmp k (key cmp_item) with
               | Lt => insert_by item_cmp (mk_item k t) (removelast heap)
               | _ => heap
               end
           | None => heap
           end).

Record TopK := mk_top_k {
  output : option (list CmpItem); top_fields : list SortField; top_limit : Z; top_offset : option Z; top_input : Stream;
}.

Fixpoint top_loop (sort_fields : list SortField) (keep_count : Z) (ts : list Tuple) (fail : option DatabaseError)
    (heap : list CmpItem) : res (list CmpItem) :=
  match ts with
  | [] => match fail with
          | Some e => Err e
          | None => Ok heap
          end
  | t :: ts' =>
      let? heap' := top_sort sort_fields heap t keep_count in
      top_loop sort_fields keep_count ts' fail heap'
  end.

Definition top_emit (self : TopK) (items : list CmpItem) (input : Stream) : poll TopK :=
  match items with
  | item :: rest =>
      Ok (Some (tuple item), mk_top_k (Some rest) (top_fields self) (top_limit self) (top_offset self) input)
  | [] => Ok (None, mk_top_k (Some []) (top_fields self) (top_limit self) (top_offset self) input)
  end.

(** [offset + limit] wraps at the width of [usize]. *)
Definition top_k_next (self : TopK) : poll TopK :=
  match output self with
  | Some items => top_emit self items (top_input self)
  | None =>
      let offset := default 0 (top_offset self) in
      let keep_count := (offset + top_limit self) mod 2 ^ 64 in
      let? heap := top_loop (top_fields self) keep_count (rows (top_input self)) (failure (top_input self)) [] in
      top_emit self (drop (Z.to_nat offset) heap) (mk_stream [] None)
  end.

(** * The two orders agree *)

(** The values the fields order a row by. *)
Definition sort_values (fields : list SortField) (t : Tuple) : res (list DataValue) :=
  rmap (fun field => eval (expr field) (Some (values t))) fields.

Lemma complement_byte (b : Z) : byte_ok b -> Z.lxor b 255 = 255 - b.
Proof.
  intros Hb. assert (forallb (fun n => Z.lxor (Z.of_nat n) 255 =? 255 - Z.of_nat n) (seq 0 256) = true) as H
    by (vm_compute; reflexivity).
  rewrite forallb_forall in H. specialize (H (Z.to_nat b)). unfold byte_ok in Hb.
  rewrite Z2Nat.id in H by lia. apply Z.eqb_eq, H. apply in_seq. lia.
Qed.

(** Complementing the bytes of encodings that decide a comparison reverses it. *)
Lemma lex_embed_complement e1 e2 c :
  bytes_ok e1 -> bytes_ok e2 -> lex_embed e1 e2 c ->
  lex_embed (map (fun b => Z.lxor b 255) e1) (map (fun b => Z.lxor b 255) e2) (CompOpp c).
Proof.
  intros H1. revert e2. induction H1 as [|x e1 Hx H1 IH]; intros e2 H2 H.
  - destruct H2 as [|y e2 Hy H2]; [by rewrite <- (lex_embed_cmp _ _ _ H)|]. exfalso.
    pose proof (H [y + 1] []) as Ha. pose proof (H [y - 1] []) as Hb. simpl in Ha, Hb.
    rewrite (proj2 (Z.compare_gt_iff _ _)) in Ha by lia. rewrite (proj2 (Z.compare_lt_iff _ _)) in Hb by lia.
    by destruct c.
  - destruct H2 as [|y e2 Hy H2].
    + exfalso. pose proof (H [] [x + 1]) as Ha. pose proof (H [] [x - 1]) as Hb. simpl in Ha, Hb.
      rewrite (proj2 (Z.compare_lt_iff _ _)) in Ha by lia. rewrite (proj2 (Z.compare_gt_iff _ _)) in Hb by lia.
      by destruct c.
    + intros s t. simpl. rewrite !complement_byte by done.
      destruct (Z.compare_spec x y) as [->|Hlt|Hgt].
      * rewrite Z.compare_refl. simpl. apply IH; [done|]. intros r1 r2. specialize (H r1 r2). simpl in H.
        by rewrite Z.compare_refl in H.
      * specialize (H [] []). simpl in H. rewrite (proj2 (Z.compare_lt_iff x y)) in H by lia.
        rewrite (proj2 (Z.compare_gt_iff _ _)) by lia. by destruct c.
      * specialize (H [] []). simpl in H. rewrite (proj2 (Z.compare_gt_iff x y)) in H by lia.
        rewrite (proj2 (Z.compare_lt_iff _ _)) by lia. by destruct c.
Qed.

Lemma encode_string_bytes (a : list Z) : bytes_ok a -> bytes_ok (encode_string a).
Proof.
  remember (length a) as n eqn:Hn. revert a Hn.
  induction (lt_wf n) as [n _ IH]; intros a -> Ha. destruct (Nat.lt_ge_cases (length a) 8) as [Hs|Hl].
  - rewrite encode_string_short by done. apply Forall_app. split; [done|]. apply Forall_app.
    split; [by apply Forall_replicate|]. constructor; [|constructor]. unfold byte_ok, ENCODE_MARKER. lia.
  - rewrite encode_string_long by done. destruct (drop8_bytes_ok a 8 Ha) as [Hd Ht].
    apply Forall_app. split; [done|]. constructor; [by unfold byte_ok, ENCODE_MARKER|].
    eapply IH; [|reflexivity|done]. rewrite length_drop. lia.
Qed.

Lemma payload_bytes (v : DataValue) p : dv_ok v -> encode_payload v = Ok p -> bytes_ok p.
Proof.
  revert p. induction v as [v Hv|vs IH] using DataValue_ind'; intros p Ho Hp.
  - destruct v; try (exfalso; exact (Hv _ eq_refl)); cbn [encode_payload] in Hp; try discriminate Hp;
      apply Ok_inj in Hp; subst; try apply to_be_bytes_ok; try (by constructor).
    + constructor; [|constructor]. by destruct b.
    + apply encode_string_bytes. apply Ho.
  - simpl in Hp, Ho. revert p Ho Hp. induction IH as [|v vs IHv _ IHl]; intros p Ho Hp; simpl in Hp.
    + apply Ok_inj in Hp. subst. constructor.
    + destruct Ho as [Hv Ho]. inv_ok. subst. apply Forall_app. split; [|by apply (IHl a0)].
      unfold memcomparable_encode in Ha. rewrite encode_tagged in Ha. destruct (is_null v).
      * inv_ok. subst. constructor; [by unfold byte_ok|constructor].
      * inv_ok. subst. constructor; [by unfold byte_ok|]. by apply IHv.
Qed.

(** The length guard changes nothing: a key of one byte has no payload. *)
Lemma field_key_plain field v :
  field_key field v =
  (let? k := memcomparable_encode_with_null_order v (nulls_first field) in
   Ok (if asc field then k else complement_tail k)).
Proof.
  unfold field_key. destruct (memcomparable_encode_with_null_order v (nulls_first field)) as [k|]; simpl; [|done].
  destruct (asc field); [done|]. by destruct k as [|x [|y k]].
Qed.

(** One field: its keys embed the order of its values. *)
Lemma field_key_ordered field v w ty :
  key_value v ty -> key_value w ty ->
  exists kv kw, field_key field v = Ok kv /\ field_key field w = Ok kw /\
    lex_embed kv kw (field_ordering field v w).
Proof.
  intros Kv Kw. destruct field as [e [] nf]; rewrite !field_key_plain; unfold field_ordering; simpl.
  - destruct (encodings_ordered nf v w ty Kv Kw) as (kv & kw & c & E1 & E2 & Hc & He).
    rewrite E1, E2. simpl. eexists _, _. split; [done|]. split; [done|].
    unfold null_order_cmp in Hc. destruct v, w; simpl in *; simplify_eq; try done; try (by destruct nf);
      (by rewrite Hc).
  - rewrite !encode_tagged.
    destruct (encode_payload_ok v ty Kv) as [pv Ev], (encode_payload_ok w ty Kw) as [pw Ew].
    rewrite Ev, Ew. simpl.
    destruct (is_null v) eqn:Nv, (is_null w) eqn:Nw; simpl rbind.
    + eexists _, _. split; [done|]. split; [done|]. simpl.
      destruct v; try discriminate Nv. destruct w; try discriminate Nw. apply lex_embed_same.
    + eexists _, _. split; [done|]. split; [done|]. simpl.
      rewrite <- (app_nil_r [null_tag nf]). apply (lex_embed_app_ne [_] [_]); [|by destruct nf].
      by destruct nf; apply lex_embed_byte.
    + eexists _, _. split; [done|]. split; [done|]. simpl.
      rewrite <- (app_nil_r [null_tag nf]). apply (lex_embed_app_ne [_] [_]); [|by destruct nf].
      by destruct nf; apply lex_embed_byte.
    + destruct (payloads_ordered v w ty Kv Kw Nv Nw) as (pv' & pw' & c & E1 & E2 & Hc & He).
      rewrite Ev in E1. rewrite Ew in E2. apply Ok_inj in E1. apply Ok_inj in E2. subst pv' pw'.
      eexists _, _. split; [done|]. split; [done|]. rewrite Hc. simpl.
      apply (lex_embed_app [_] [_] _ _ Eq (CompOpp c)); [apply lex_embed_same|].
      apply lex_embed_complement; [eapply payload_bytes; [apply Kv|done]|eapply payload_bytes; [apply Kw|done]|done].
Qed.

Lemma full_key_ordered fields tys a b va vb :
  sort_values fields a = Ok va -> sort_values fields b = Ok vb ->
  Forall2 key_value va tys -> Forall2 key_value vb tys ->
  exists ka kb, full_key fields a = Ok ka /\ full_key fields b = Ok kb /\
    lex_embed ka kb (compare_sort_keys fields va vb).
Proof.
  revert tys va vb. induction fields as [|f fields IH]; intros tys va vb Ha Hb Ka Kb; simpl in Ha, Hb.
  - inv_ok. subst. eexists [], []. repeat split.
  - unfold sort_values in Ha, Hb. simpl in Ha, Hb.
    apply rbind_ok in Ha as (x & Ex & Ha). apply rbind_ok in Ha as (xs & Exs & Ha). apply Ok_inj in Ha. subst va.
    apply rbind_ok in Hb as (y & Ey & Hb). apply rbind_ok in Hb as (ys & Eys & Hb). apply Ok_inj in Hb. subst vb.
    inversion Ka as [|? ty ? tys' Kx Kxs]; subst. inversion Kb as [|? ? ? ? Ky Kys]; subst.
    destruct (field_key_ordered f x y ty Kx Ky) as (kx & ky & E1 & E2 & He).
    destruct (IH tys' xs ys Exs Eys Kxs Kys) as (kxs & kys & E3 & E4 & Hes).
    eexists _, _. simpl. rewrite Ex, Ey. cbn [rbind]. rewrite E1, E2, E3, E4. cbn [rbind].
    split; [done|]. split; [done|]. pose proof (lex_embed_app _ _ _ _ _ _ He Hes) as H.
    by destruct (field_ordering f x y).
Qed.

(** * What the two nodes produce *)

(** The sort fields evaluate on the row to values of the given types. *)
Definition typed_keys (fields : list SortField) (tys : list LogicalType) (t : Tuple) : Prop :=
  exists vs, sort_values fields t = Ok vs /\ Forall2 key_value vs tys.

Definition item_of (fields : list SortField) (t : Tuple) : CmpItem :=
  mk_item (match full_key fields t with Ok k => k | Err _ => [] end) t.

Definition key_cmp (a b : CmpItem) : comparison := lex_cmp (key a) (key b).

(** The rows in the order of their keys, stably. *)
Definition ordered_items (fields : list SortField) (ts : list Tuple) : list CmpItem :=
  sort_by key_cmp (map (item_of fields) ts).

Lemma key_cmp_antisym a b : key_cmp b a = CompOpp (key_cmp a b).
Proof. apply lex_cmp_antisym. Qed.

Lemma key_cmp_trans : cmp_transitive key_cmp.
Proof. intros a b c o1 o2. apply lex_cmp_transitive. Qed.

Lemma compare_item fields tys a b va vb :
  sort_values fields a = Ok va -> sort_values fields b = Ok vb ->
  Forall2 key_value va tys -> Forall2 key_value vb tys ->
  key_cmp (item_of fields a) (item_of fields b) = compare_sort_keys fields va vb.
Proof.
  intros Ha Hb Ka Kb. destruct (full_key_ordered fields tys a b va vb Ha Hb Ka Kb) as (ka & kb & E1 & E2 & He).
  unfold key_cmp, item_of. rewrite E1, E2. by apply lex_embed_cmp.
Qed.

Lemma rmap_indexed {B : Type} (h : Tuple -> res B) ts (k : nat -> nat) :
  rmap (fun row : nat * Tuple => h row.2) (imap (fun i t => (k i, t)) ts) = rmap h ts.
Proof.
  revert k. induction ts as [|t ts IH]; intros k; [done|]. simpl. f_equal.
  by rewrite <- (IH (fun i => k (S i))).
Qed.

(** The columns of evaluated keys hold each row's values at its index. *)
Lemma eval_columns fields ts :
  Forall (fun t => exists vs, sort_values fields t = Ok vs) ts ->
  exists cols,
    rmap (fun field => rmap (fun row : nat * Tuple => eval (expr field) (Some (values row.2))) (imap pair ts)) fields
      = Ok cols /\
    forall i t, ts !! i = Some t -> sort_values fields t = Ok (key_at cols i).
Proof.
  intros H. induction fields as [|f fields IH]; [by eexists []|].
  destruct IH as (cols & Hc & Hk).
  { eapply Forall_impl; [exact H|]. intros t [vs Hvs]. unfold sort_values in *. simpl in Hvs. inv_ok. eauto. }
  assert (exists col, rmap (fun row : nat * Tuple => eval (expr f) (Some (values row.2))) (imap pair ts) = Ok col /\
    forall i t, ts !! i = Some t -> exists v, col !! i = Some v /\ eval (expr f) (Some (values t)) = Ok v)
    as (col & Hcol & Hl).
  { clear -H. assert (Forall (fun t => exists v, eval (expr f) (Some (values t)) = Ok v) ts) as H'.
    { eapply Forall_impl; [exact H|]. intros t [vs Hvs]. unfold sort_values in *. simpl in Hvs. inv_ok. eauto. }
    destruct (rmap_total _ ts H') as [col Hcol]. exists col.
    split; [by rewrite (rmap_indexed (fun t => eval (expr f) (Some (values t))) ts (fun i => i))|].
    intros i t Ht. apply rmap_Ok in Hcol. eapply Forall2_lookup_l in Hcol as (v & Hv & Ev); [|done]. eauto. }
  exists (col :: cols). simpl. rewrite Hcol, Hc. split; [done|]. intros i t Ht.
  destruct (Hl i t Ht) as (v & Hv & Ev). unfold sort_values in *. simpl. rewrite Ev. simpl.
  rewrite (Hk i t Ht). simpl. by rewrite Hv.
Qed.

Lemma sort_tuples_ok fields tys ts :
  Forall (typed_keys fields tys) ts ->
  exists l, sort_tuples fields (imap pair ts) = Ok l /\
    map snd l = map tuple (ordered_items fields ts).
Proof.
  intros H. destruct (eval_columns fields ts) as (cols & Hc & Hk).
  { eapply Forall_impl; [exact H|]. intros t (vs & Hvs & _). eauto. }
  unfold sort_tuples. rewrite Hc. cbn [rbind]. eexists. split; [done|].
  set (P := fun row : nat * Tuple => ts !! row.1 = Some row.2).
  assert (Forall P (imap pair ts)) as HP.
  { apply Forall_lookup. intros i [j t] Hi. apply list_lookup_imap_Some in Hi as (t' & Ht' & Ht).
    unfold P. by simplify_eq. }
  assert (map (fun row : nat * Tuple => item_of fields row.2) (imap pair ts) = map (item_of fields) ts) as Hm.
  { clear. change (imap pair ts) with (imap (fun i t => (id i, t)) ts). generalize (@id nat) as k.
    induction ts as [|t ts IH]; intros k; [done|]. simpl. f_equal. apply (IH (fun i => k (S i))). }
  unfold ordered_items. rewrite <- Hm. erewrite (sort_by_map _ _ _ P).
  - rewrite map_map. done.
  - intros [i a] [j b] Ha Hb. unfold P in Ha, Hb. simpl in *.
    assert (typed_keys fields tys a) as (va & Eva & Kva) by (eapply Forall_lookup_1; done).
    assert (typed_keys fields tys b) as (vb & Evb & Kvb) by (eapply Forall_lookup_1; done).
    rewrite (compare_item fields tys a b va vb Eva Evb Kva Kvb).
    pose proof (Hk i a Ha) as E1. pose proof (Hk j b Hb) as E2.
    rewrite Eva in E1. rewrite Evb in E2. apply Ok_inj in E1. apply Ok_inj in E2. by subst.
  - done.
Qed.

Lemma load_ok ts acc : load ts None acc = Ok (acc ++ imap (fun i t => ((length acc + i)%nat, t)) ts).
Proof.
  revert acc. induction ts as [|t ts IH]; intros acc; simpl; [by rewrite app_nil_r|].
  rewrite IH, <- app_assoc. simpl. rewrite Nat.add_0_r. do 3 f_equal.
  apply imap_ext. intros i x _. simpl. rewrite length_app. simpl. f_equal. lia.
Qed.

Lemma vec_pop_snoc {A : Type} (l : list A) (x : A) : vec_pop (l ++ [x]) = Some (x, l).
Proof. unfold vec_pop. rewrite last_snoc. by rewrite removelast_last. Qed.

Lemma sort_rows_produce fields l :
  runs sort_next (mk_sort (reverse l) fields (mk_stream [] None)) (mk_stream (map snd l) None).
Proof.
  induction l as [|[i t] l IH]; simpl; [by eapply runs_end|].
  eapply runs_row; [|exact IH]. unfold sort_next. simpl. by rewrite reverse_cons, vec_pop_snoc.
Qed.

Lemma sort_produces fields tys ts :
  Forall (typed_keys fields tys) ts ->
  runs sort_next (mk_sort [] fields (mk_stream ts None)) (mk_stream (map tuple (ordered_items fields ts)) None).
Proof.
  intros H. destruct (sort_tuples_ok fields tys ts H) as (l & Hl & Hm). rewrite <- Hm.
  eapply runs_same; [|apply sort_rows_produce]. unfold sort_next. simpl.
  rewrite load_ok. simpl. destruct ts as [|t ts].
  - simpl in *. unfold sort_tuples in Hl. simpl in Hl. apply rbind_ok in Hl as (cols & _ & Hl).
    apply Ok_inj in Hl. by subst l.
  - change (imap (fun i t => ((0 + i)%nat, t)) (t :: ts)) with (imap pair (t :: ts)).
    destruct (imap pair (t :: ts)) as [|r rs] eqn:E; [done|]. rewrite Hl. cbn [rbind].
    destruct l as [|[i x] l]; [done|]. rewrite reverse_cons, vec_pop_snoc. done.
Qed.

(** ** Top k *)

Lemma insert_item x l : insert_by item_cmp x l = insert_by key_cmp x l.
Proof.
  induction l as [|y l IH]; [done|]. simpl. rewrite IH. unfold item_cmp, key_cmp. by destruct (lex_cmp (key x) (key y)).
Qed.

Lemma typed_full_key fields tys t :
  typed_keys fields tys t -> exists k, full_key fields t = Ok k /\ item_of fields t = mk_item k t.
Proof.
  intros (vs & E & K). destruct (full_key_ordered fields tys t t vs vs E E K K) as (k & _ & Hk & _).
  exists k. split; [done|]. unfold item_of. by rewrite Hk.
Qed.

Lemma top_sort_bounded fields tys heap t keep :
  0 <= keep -> typed_keys fields tys t ->
  top_sort fields heap t keep = Ok (bounded_insert key_cmp (Z.to_nat keep) (item_of fields t) heap).
Proof.
  intros Hk Ht. destruct (typed_full_key fields tys t Ht) as (k & E & ->). unfold top_sort, bounded_insert.
  rewrite E. cbn [rbind]. rewrite !insert_item.
  replace (Z.of_nat (length heap) <? keep) with (length heap <? Z.to_nat keep)%nat; [done|].
  apply eq_iff_eq_true. rewrite Nat.ltb_lt, Z.ltb_lt. lia.
Qed.

Lemma top_loop_ok fields tys keep ts :
  0 <= keep -> Forall (typed_keys fields tys) ts ->
  top_loop fields keep ts None [] = Ok (take (Z.to_nat keep) (ordered_items fields ts)).
Proof.
  intros Hk H. unfold ordered_items. rewrite <- (bounded_sort key_cmp key_cmp_antisym key_cmp_trans).
  generalize (@nil CmpItem) as heap. induction H as [|t ts Ht _ IH]; intros heap; [done|]. simpl.
  rewrite (top_sort_bounded fields tys heap t keep Hk Ht). cbn [rbind]. apply IH.
Qed.

Lemma top_items_produce items fields lim off s :
  runs top_k_next (mk_top_k (Some items) fields lim off s) (mk_stream (map tuple items) None).
Proof. induction items as [|x items IH]; [by eapply runs_end|]. by eapply runs_row. Qed.

Lemma top_k_produces fields tys lim off ts :
  0 <= lim -> 0 <= default 0 off -> default 0 off + lim < 2 ^ 64 ->
  Forall (typed_keys fields tys) ts ->
  runs top_k_next (mk_top_k None fields lim off (mk_stream ts None))
    (limited (default 0 off) lim (mk_stream (map tuple (ordered_items fields ts)) None)).
Proof.
  intros Hl Ho Hw H. set (items := take (Z.to_nat lim) (drop (Z.to_nat (default 0 off)) (ordered_items fields ts))).
  replace (limited _ _ _) with (mk_stream (map tuple items) None).
  - eapply runs_same; [|apply (top_items_produce items fields lim off (mk_stream [] None))].
    unfold top_k_next. simpl. rewrite (top_loop_ok fields tys) by (done || (apply Z.mod_pos_bound; lia)). cbn [rbind].
    rewrite Z.mod_small by lia. rewrite Z2Nat.inj_add by done. rewrite <- take_drop_commute. done.
  - unfold limited. simpl. f_equal; [|by case_match].
    unfold items. change (@map) with (@fmap list _). by rewrite fmap_take, fmap_drop.
Qed.
End Sort.

(** * The claims *)

Section Claims.
Context {OF : OrderedFloat} {CH : Chrono} {SF : ScalarFunctions}.

(** The order ORDER BY asks for: nulls at the end the field names whatever its
    direction, other values ascending or descending, the fields in turn. *)
Definition field_order (field : SortField) (v w : DataValue) : comparison :=
  match is_null v, is_null w with
  | true, true => Eq
  | true, false => if nulls_first field then Lt else Gt
  | false, true => if nulls_first field then Gt else Lt
  | false, false => if asc field then default Eq (partial_cmp v w) else CompOpp (default Eq (partial_cmp v w))
  end.

Fixpoint values_order (fields : list SortField) (va vb : list DataValue) : comparison :=
  match fields, va, vb with
  | field :: fields', v :: va', w :: vb' => cmp_then (field_order field v w) (values_order fields' va' vb')
  | _, _, _ => Eq
  end.

Definition row_ordering (fields : list SortField) (a b : Tuple) : comparison :=
  match sort_values fields a, sort_values fields b with
  | Ok va, Ok vb => values_order fields va vb
  | _, _ => Eq
  end.

Lemma field_ordering_order field v w : field_ordering field v w = field_order field v w.
Proof.
  unfold field_ordering, field_order. destruct (is_null v) eqn:Ev, (is_null w) eqn:Ew; [|by destruct (nulls_first field)..|done].
  destruct v; try discriminate Ev. destruct w; try discriminate Ew. by destruct (asc field).
Qed.

Lemma compare_sort_keys_order fields va vb : compare_sort_keys fields va vb = values_order fields va vb.
Proof.
  revert va vb. induction fields as [|field fields IH]; intros va vb; [done|].
  destruct va as [|v va], vb as [|w vb]; try done. simpl. rewrite field_ordering_order, IH.
  by destruct (field_order field v w).
Qed.

Definition ties_with (fields : list SortField) (a b : Tuple) : bool :=
  match row_ordering fields a b with Eq => true | _ => false end.

Lemma row_ordering_key fields tys a b :
  typed_keys fields tys a -> typed_keys fields tys b ->
  row_ordering fields a b = key_cmp (item_of fields a) (item_of fields b).
Proof.
  intros (va & Ea & Ka) (vb & Eb & Kb). unfold row_ordering. rewrite Ea, Eb.
  rewrite <- compare_sort_keys_order. symmetry. by eapply compare_item.
Qed.

Lemma ordered_items_rows fields ts :
  ordered_items fields ts = map (item_of fields) (map tuple (ordered_items fields ts)).
Proof.
  assert (Forall (fun x => x = item_of fields (tuple x)) (ordered_items fields ts)) as H.
  { unfold ordered_items. rewrite sort_by_perm. apply List.Forall_map, List.Forall_forall. done. }
  rewrite map_map. induction H as [|x l Hx _ IH]; [done|]. simpl. by rewrite <- Hx, <- IH.
Qed.

Lemma sorted_rows_typed fields tys ts :
  Forall (typed_keys fields tys) ts -> Forall (typed_keys fields tys) (map tuple (ordered_items fields ts)).
Proof.
  intros H. apply List.Forall_map. unfold ordered_items. rewrite sort_by_perm. by apply List.Forall_map.
Qed.

Lemma sorted_items_ordered fields tys out :
  StronglySorted (not_after key_cmp) (map (item_of fields) out) -> Forall (typed_keys fields tys) out ->
  StronglySorted (fun a b => row_ordering fields a b <> Gt) out.
Proof.
  induction out as [|a out IH]; intros Hs Ht; [constructor|].
  apply Forall_cons_1 in Ht as [Ha Ht]. inversion Hs as [|? ? Hs' Hall]; subst.
  constructor; [by apply IH|]. apply List.Forall_forall. intros b Hb.
  rewrite (row_ordering_key fields tys a b Ha); [|by eapply List.Forall_forall].
  exact (proj1 (List.Forall_forall _ _) Hall _ (in_map _ _ _ Hb)).
Qed.

Lemma filter_ties fields tys t l :
  typed_keys fields tys t -> Forall (typed_keys fields tys) l ->
  map tuple (List.filter (tied key_cmp (item_of fields t)) (map (item_of fields) l)) =
  List.filter (ties_with fields t) l.
Proof.
  intros Ht. induction 1 as [|x l Hx _ IH]; [done|]. simpl. unfold ties_with at 1.
  rewrite (row_ordering_key fields tys t x Ht Hx). unfold tied at 1.
  destruct (key_cmp _ _); simpl; by rewrite IH.
Qed.

(** C22: ORDER BY: when the sort fields evaluate on every row to values of
    their types, the sort node emits a permutation of its input in which no
    row precedes one that orders strictly before it, and rows that tie keep
    the order of the input. *)
Theorem sort_stable_order fields tys ts :
  Forall (typed_keys fields tys) ts ->
  exists out,
    runs sort_next (mk_sort [] fields (mk_stream ts None)) (mk_stream out None) /\
    Permutation out ts /\
    StronglySorted (fun a b => row_ordering fields a b <> Gt) out /\
    forall t, typed_keys fields tys t ->
      List.filter (ties_with fields t) out = List.filter (ties_with fields t) ts.
Proof.
  intros H. exists (map tuple (ordered_items fields ts)).
  split; [by eapply sort_produces|]. split; [|split].
  - unfold ordered_items. rewrite sort_by_perm, map_map. simpl. by rewrite map_id.
  - apply (sorted_items_ordered fields tys); [|by apply sorted_rows_typed].
    rewrite <- ordered_items_rows. apply sort_by_sorted; [apply key_cmp_antisym|apply key_cmp_trans].
  - intros t Ht. rewrite <- (filter_ties fields tys t _ Ht (sorted_rows_typed fields tys ts H)).
    rewrite <- ordered_items_rows. unfold ordered_items.
    rewrite sort_by_stable by (apply key_cmp_antisym || apply key_cmp_trans).
    by apply (filter_ties fields tys).
Qed.

End Claims.

Definition wit_field : SortField := mk_sort_field (ScalarExpression.ColumnRef LogicalType.Integer 0) false true.
Definition wit_rows : list Tuple :=
  [wit_key 3; mk_tuple None [DataValue.Null]; wit_key (-1); wit_key 7].

Lemma wit_typed : Forall (typed_keys [wit_field] [LogicalType.Integer]) wit_rows.
Proof.
  repeat constructor; (eexists; split; [reflexivity|]); repeat constructor; simpl; unfold in_s; lia.
Qed.

Lemma sort_stable_order_witness :
  exists out,
    runs sort_next (mk_sort [] [wit_field] (mk_stream wit_rows None)) (mk_stream out None) /\
    Permutation out wit_rows /\
    StronglySorted (fun a b => row_ordering [wit_field] a b <> Gt) out /\
    forall t, typed_keys [wit_field] [LogicalType.Integer] t ->
      List.filter (ties_with [wit_field] t) out = List.filter (ties_with [wit_field] t) wit_rows.
Proof. apply (sort_stable_order [wit_field] [LogicalType.Integer] wit_rows wit_typed). Defined.


(** Descending with nulls first, from the second row on. *)
Example top_k_runs :
  runs top_k_next (mk_top_k None [wit_field] 2 (Some 1) (mk_stream wit_rows None))
    (mk_stream [wit_key 7; wit_key 3] None).
Proof. repeat (eapply runs_row; [reflexivity|]). eapply runs_end. reflexivity. Qed.
