(* ===== verification/Aggregate.v ===== *)
(** Aggregation (src/src/execution/dql/aggregate): the accumulators, and the
    three nodes that drive them: one group ([SimpleAgg]), groups in a hash map
    ([HashAgg]) and groups that arrive contiguously ([StreamAgg]). The theorems
    say what each accumulator computes, that the hash node aggregates every
    group over exactly its rows, and that the streaming node is the hash node
    on grouped input. *)

From S2P Require Import Prelude MachineInt Types Operators Reader Value Chrono FloatArith Evaluators Casts Expr.
From S2P Require Import Row Collections Exec.
From Stdlib Require Import ZArith Lia.
From stdpp Require Import base tactics list list_numbers numbers option sorting.
Local Open Scope Z_scope.

(** The order in which [HashMap::into_iter] yields the entries: arbitrary. *)
Class HashOrder := {
  into_iter : forall {K V : Type}, list (K * V) -> list (K * V);
  into_iter_perm : forall {K V : Type} (m : list (K * V)), Permutation (into_iter m) m;
}.

#[global] Program Instance insertion_order : HashOrder := {| into_iter := fun _ _ m => m |}.
Next Obligation. done. Qed.

Module AggKind.
Inductive AggKind := Avg | Max | Min | Sum | Count.
End AggKind.
Notation AggKind := AggKind.AggKind.

Section Accumulators.
Context {OF : OrderedFloat} {CH : Chrono} {SF : ScalarFunctions}.

(** [ScalarExpression::AggCall]. *)
Record AggCall := mk_agg_call {
  agg_distinct : bool; agg_kind : AggKind; agg_args : list ScalarExpression; agg_ty : LogicalType;
}.

(** * The accumulators *)

Record SumAccumulator := mk_sum { sum_result : DataValue; sum_evaluator : BinaryEvaluatorRef }.

Inductive Accumulator :=
| CountAccumulator (result : Z)
| DistinctCountAccumulator (distinct_values : list DataValue) (result : Z)
| SumAcc (inner : SumAccumulator)
| DistinctSumAccumulator (distinct_values : list DataValue) (inner : SumAccumulator)
| MinMaxAccumulator (result : DataValue) (op : BinaryOperator)
| AvgAccumulator (inner : option SumAccumulator) (count : Z) (result : DataValue).

Definition sum_new (ty : LogicalType) : res SumAccumulator :=
  let? evaluator := binary_create ty BinaryOperator.Plus in
  Ok (mk_sum DataValue.Null evaluator).

Definition min_max_new (is_max : bool) : Accumulator :=
  MinMaxAccumulator DataValue.Null (if is_max then BinaryOperator.Lt else BinaryOperator.Gt).

Definition create_accumulator (kind : AggKind) (ty : LogicalType) (distinct : bool) : res Accumulator :=
  match kind, distinct with
  | AggKind.Count, false => Ok (CountAccumulator 0)
  | AggKind.Count, true => Ok (DistinctCountAccumulator [] 0)
  | AggKind.Sum, false => let? inner := sum_new ty in Ok (SumAcc inner)
  | AggKind.Sum, true => let? inner := sum_new ty in Ok (DistinctSumAccumulator [] inner)
  | AggKind.Min, _ => Ok (min_max_new false)
  | AggKind.Max, _ => Ok (min_max_new true)
  | AggKind.Avg, _ => Ok (AvgAccumulator None 0 DataValue.Null)
  end.

Definition sum_update (self : SumAccumulator) (value : DataValue) : res SumAccumulator :=
  if is_null value then Ok self
  else if is_null (sum_result self) then Ok (mk_sum value (sum_evaluator self))
  else let? r := binary_eval (sum_evaluator self) (sum_result self) value in
       Ok (mk_sum r (sum_evaluator self)).

(** [HashSet::contains]. *)
Definition seen (values : list DataValue) (value : DataValue) : bool := existsb (key_eq value) values.

(** [x as i32] of a non-negative machine integer. *)
Definition to_i32 (n : Z) : Z := as_s 32 n.

Definition min_max_update (result : DataValue) (op : BinaryOperator) (value : DataValue) : res DataValue :=
  if is_null value then Ok result
  else if is_null result then Ok value
  else
    let? evaluator := binary_create (logical_type value) op in
    let? r := binary_eval evaluator result value in
    match r with
    | DataValue.Boolean replace => Ok (if replace then value else result)
    | _ => Err InvalidType
    end.

Definition avg_update (inner : option SumAccumulator) (count : Z) (result value : DataValue) : res Accumulator :=
  if is_null value then Ok (AvgAccumulator inner count result)
  else
    let? acc := match inner with
                | Some acc => Ok acc
                | None => sum_new (logical_type value)
                end in
    let? acc' := sum_update acc value in
    Ok (AvgAccumulator (Some acc') (count + 1) DataValue.Null).

Definition update_value (self : Accumulator) (value : DataValue) : res Accumulator :=
  match self with
  | CountAccumulator result =>
      Ok (CountAccumulator (if is_null value then result else as_s 32 (result + 1)))
  | DistinctCountAccumulator distinct_values result =>
      if negb (is_null value) && negb (seen distinct_values value) then
        let values' := distinct_values ++ [value] in
        Ok (DistinctCountAccumulator values' (to_i32 (Z.of_nat (length values'))))
      else Ok self
  | SumAcc inner => let? inner' := sum_update inner value in Ok (SumAcc inner')
  | DistinctSumAccumulator distinct_values inner =>
      if seen distinct_values value then Ok self
      else let? inner' := sum_update inner value in
           Ok (DistinctSumAccumulator (distinct_values ++ [value]) inner')
  | MinMaxAccumulator result op =>
      let? result' := min_max_update result op value in Ok (MinMaxAccumulator result' op)
  | AvgAccumulator inner count result => avg_update inner count result value
  end.

Definition avg_evaluate (inner : option SumAccumulator) (count : Z) (result : DataValue) : res DataValue :=
  if negb (is_null result) then Ok result
  else match inner with
       | None => Ok result
       | Some acc =>
           let value := sum_result acc in
           let value_ty := logical_type value in
           if count =? 0 then Ok result
           else
             let quantity := if is_signed_numeric value_ty then DataValue.Int64 (as_s 64 count)
                             else DataValue.UInt32 (count mod 2 ^ 32) in
             let quantity_ty := logical_type quantity in
             let? value := (if decide (value_ty = quantity_ty) then Ok value else cast value quantity_ty) in
             let? evaluator := binary_create quantity_ty BinaryOperator.Divide in
             binary_eval evaluator value quantity
       end.

(** [evaluate] followed by [result_owned]. *)
Definition evaluate (self : Accumulator) : res DataValue :=
  match self with
  | CountAccumulator result | DistinctCountAccumulator _ result => Ok (DataValue.Int32 result)
  | SumAcc inner | DistinctSumAccumulator _ inner => Ok (sum_result inner)
  | MinMaxAccumulator result _ => Ok result
  | AvgAccumulator inner count result => avg_evaluate inner count result
  end.

Definition create_accumulators (agg_calls : list AggCall) : res (list Accumulator) :=
  rmap (fun call => create_accumulator (agg_kind call) (agg_ty call) (agg_distinct call)) agg_calls.

Fixpoint update_accumulators (accs : list Accumulator) (agg_calls : list AggCall) (vs : list DataValue)
    : res (list Accumulator) :=
  match accs, agg_calls with
  | acc :: accs', call :: calls' =>
      match agg_args call with
      | [] => Err Panic
      | [arg] =>
          let? value := eval arg (Some vs) in
          let? acc' := update_value acc value in
          let? rest := update_accumulators accs' calls' vs in
          Ok (acc' :: rest)
      | _ => Err UnsupportedStmt
      end
  | _, _ => Ok accs
  end.

Definition write_aggregate_output (accs : list Accumulator) (group_keys : list DataValue) : res Tuple :=
  let? results := rmap evaluate accs in
  Ok (mk_tuple None (results ++ group_keys)).

(** * The nodes *)

Record SimpleAgg := mk_simple_agg { simple_calls : list AggCall; simple_input : Stream; returned : bool }.

Fixpoint simple_loop (agg_calls : list AggCall) (ts : list Tuple) (fail : option DatabaseError)
    (accs : list Accumulator) : res (list Accumulator) :=
  match ts with
  | [] => match fail with
          | Some e => Err e
          | None => Ok accs
          end
  | t :: ts' =>
      let? accs' := update_accumulators accs agg_calls (values t) in
      simple_loop agg_calls ts' fail accs'
  end.

Definition simple_agg_next (self : SimpleAgg) : poll SimpleAgg :=
  if returned self then Ok (None, self)
  else
    let? accs := create_accumulators (simple_calls self) in
    let? accs := simple_loop (simple_calls self) (rows (simple_input self)) (failure (simple_input self)) accs in
    let? t := write_aggregate_output accs [] in
    Ok (Some t, mk_simple_agg (simple_calls self) (mk_stream [] None) true).

Definition group_keys_of (groupby_exprs : list ScalarExpression) (t : Tuple) : res (list DataValue) :=
  rmap (fun e => eval e (Some (values t))) groupby_exprs.

Notation Groups := (HashMap (list DataValue) (list Accumulator)).

Record HashAgg := mk_hash_agg {
  hash_calls : list AggCall; hash_groupby : list ScalarExpression; hash_input : Stream;
  hash_output : option (list (list DataValue * list Accumulator));
}.

Fixpoint hash_loop (agg_calls : list AggCall) (groupby_exprs : list ScalarExpression) (ts : list Tuple)
    (fail : option DatabaseError) (groups : Groups) : res Groups :=
  match ts with
  | [] => match fail with
          | Some e => Err e
          | None => Ok groups
          end
  | t :: ts' =>
      let? group_keys := group_keys_of groupby_exprs t in
      let? groups' :=
        match HashMap.get groups group_keys with
        | Some accs =>
            let? accs' := update_accumulators accs agg_calls (values t) in
            Ok (HashMap.insert groups group_keys accs')
        | None =>
            let? accs := create_accumulators agg_calls in
            let? accs' := update_accumulators accs agg_calls (values t) in
            Ok (HashMap.insert groups group_keys accs')
        end in
      hash_loop agg_calls groupby_exprs ts' fail groups'
  end.

Definition hash_emit {HO : HashOrder} (self : HashAgg) (input : Stream)
    (entries : list (list DataValue * list Accumulator)) : poll HashAgg :=
  match entries with
  | [] => Ok (None, mk_hash_agg (hash_calls self) (hash_groupby self) input (Some []))
  | (group_keys, accs) :: rest =>
      let? t := write_aggregate_output accs group_keys in
      Ok (Some t, mk_hash_agg (hash_calls self) (hash_groupby self) input (Some rest))
  end.

Definition hash_agg_next {HO : HashOrder} (self : HashAgg) : poll HashAgg :=
  match hash_output self with
  | Some entries => hash_emit self (hash_input self) entries
  | None =>
      let? groups := hash_loop (hash_calls self) (hash_groupby self) (rows (hash_input self))
                       (failure (hash_input self)) [] in
      hash_emit self (mk_stream [] None) (into_iter groups)
  end.

Record StreamAgg := mk_stream_agg {
  stream_calls : list AggCall; stream_groupby : list ScalarExpression;
  current_keys : option (list DataValue); current_accs : list Accumulator; stream_input : Stream;
}.

Fixpoint stream_loop (agg_calls : list AggCall) (groupby_exprs : list ScalarExpression)
    (current : option (list DataValue)) (accs : list Accumulator) (ts : list Tuple) (fail : option DatabaseError)
    : poll StreamAgg :=
  match ts with
  | [] =>
      match fail with
      | Some e => Err e
      | None =>
          match current with
          | None => Ok (None, mk_stream_agg agg_calls groupby_exprs None accs (mk_stream [] None))
          | Some group_keys =>
              let? t := write_aggregate_output accs group_keys in
              Ok (Some t, mk_stream_agg agg_calls groupby_exprs None [] (mk_stream [] None))
          end
      end
  | t :: ts' =>
      let? group_keys := group_keys_of groupby_exprs t in
      match current with
      | None =>
          let? accs := create_accumulators agg_calls in
          let? accs := update_accumulators accs agg_calls (values t) in
          stream_loop agg_calls groupby_exprs (Some group_keys) accs ts' fail
      | Some keys =>
          if key_eq keys group_keys then
            let? accs := update_accumulators accs agg_calls (values t) in
            stream_loop agg_calls groupby_exprs current accs ts' fail
          else
            let? next_accs := create_accumulators agg_calls in
            let? next_accs := update_accumulators next_accs agg_calls (values t) in
            let? out := write_aggregate_output accs keys in
            Ok (Some out, mk_stream_agg agg_calls groupby_exprs (Some group_keys) next_accs (mk_stream ts' fail))
      end
  end.

Definition stream_agg_next (self : StreamAgg) : poll StreamAgg :=
  stream_loop (stream_calls self) (stream_groupby self) (current_keys self) (current_accs self)
    (rows (stream_input self)) (failure (stream_input self)).
End Accumulators.
Notation Groups := (HashMap (list DataValue) (list Accumulator)).

(** * Groups *)

Section Groups.
Context {OF : OrderedFloat} {CH : Chrono} {SF : ScalarFunctions} {HO : HashOrder}.
Context (calls : list AggCall) (gs : list ScalarExpression).

(** The rows of a group, in input order. *)
Definition in_group (k : list DataValue) (t : Tuple) : bool :=
  match group_keys_of gs t with
  | Ok ks => key_eq k ks
  | Err _ => false
  end.
Definition rows_of (k : list DataValue) (ts : list Tuple) : list Tuple := List.filter (in_group k) ts.

Lemma rows_of_cons k ks t ts :
  group_keys_of gs t = Ok ks -> rows_of k (t :: ts) = if key_eq k ks then t :: rows_of k ts else rows_of k ts.
Proof. intros E. unfold rows_of. simpl. unfold in_group at 1. by rewrite E. Qed.

(** The accumulators after a sequence of rows. *)
Definition accumulate (accs : list Accumulator) (ts : list Tuple) : res (list Accumulator) :=
  rfold (fun accs t => update_accumulators accs calls (values t)) accs ts.

Definition start (m : Groups) (k : list DataValue) : res (list Accumulator) :=
  match HashMap.get m k with
  | Some accs => Ok accs
  | None => create_accumulators calls
  end.

Lemma hash_step t ts fail m :
  hash_loop calls gs (t :: ts) fail m =
  (let? ks := group_keys_of gs t in
   let? accs := start m ks in
   let? accs' := update_accumulators accs calls (values t) in
   hash_loop calls gs ts fail (HashMap.insert m ks accs')).
Proof.
  simpl. destruct (group_keys_of gs t) as [ks|]; simpl; [|done]. unfold start.
  destruct (HashMap.get m ks) as [accs|]; simpl.
  - by destruct (update_accumulators accs calls (values t)).
  - destruct (create_accumulators calls) as [accs|]; simpl; [|done].
    by destruct (update_accumulators accs calls (values t)).
Qed.

Lemma start_cong m a b : key_eq a b = true -> start m a = start m b.
Proof. intros E. unfold start. by rewrite (HashMap.get_cong m a b E). Qed.

(** Every group is accumulated over its rows. *)
Lemma hash_loop_groups ts m m' k :
  hash_loop calls gs ts None m = Ok m' ->
  (rows_of k ts = [] /\ HashMap.get m' k = HashMap.get m k) \/
  (rows_of k ts <> [] /\ exists accs accs', start m k = Ok accs /\
     accumulate accs (rows_of k ts) = Ok accs' /\ HashMap.get m' k = Some accs').
Proof.
  revert m. induction ts as [|t ts IH]; intros m H.
  - left. simpl in H. apply Ok_inj in H. by subst.
  - rewrite hash_step in H. apply rbind_ok in H as (ks & Eks & H). apply rbind_ok in H as (accs & Es & H).
    apply rbind_ok in H as (accs' & Eu & H). specialize (IH _ H).
    rewrite (rows_of_cons k ks t ts Eks).
    destruct (key_eq k ks) eqn:E; cycle 1.
    { unfold start, HashMap.insert in IH. rewrite HashMap.get_upsert, E in IH. exact IH. }
    right. split; [done|]. rewrite (start_cong m k ks E). exists accs.
    unfold start, HashMap.insert in IH. rewrite HashMap.get_upsert, E in IH.
    destruct IH as [[Hn Hg]|(Hn & a & a' & Ha & Hf & Hg)].
    + exists accs'. split; [done|]. rewrite Hn. unfold accumulate. simpl. by rewrite Eu.
    + apply Ok_inj in Ha. subst a. exists a'. split; [done|]. unfold accumulate. simpl. by rewrite Eu.
Qed.

(** The loop fails only where the accumulators of some group do. *)
Lemma hash_loop_total ts m kss :
  rmap (group_keys_of gs) ts = Ok kss ->
  (forall k, rows_of k ts <> [] -> exists accs accs', start m k = Ok accs /\ accumulate accs (rows_of k ts) = Ok accs') ->
  exists m', hash_loop calls gs ts None m = Ok m'.
Proof.
  revert m kss. induction ts as [|t ts IH]; intros m kss Hk H; [by eexists|].
  simpl in Hk. apply rbind_ok in Hk as (ks & Eks & Hk). apply rbind_ok in Hk as (kss' & Hk & _).
  rewrite hash_step, Eks. cbn [rbind].
  destruct (H ks) as (accs & accs' & Hs & Ha).
  { by rewrite (rows_of_cons ks ks t ts Eks), key_eq_refl. }
  rewrite Hs. cbn [rbind]. rewrite (rows_of_cons ks ks t ts Eks), key_eq_refl in Ha.
  unfold accumulate in Ha. simpl in Ha. apply rbind_ok in Ha as (accs1 & Hu & Ha). rewrite Hu. cbn [rbind].
  eapply IH; [exact Hk|]. intros k Hn. unfold start, HashMap.insert. rewrite HashMap.get_upsert.
  specialize (H k). rewrite (rows_of_cons k ks t ts Eks) in H. destruct (key_eq k ks) eqn:E; [|by apply H].
  exists accs1. destruct H as (b & b' & Hs' & Hb); [done|]. rewrite (start_cong m k ks E), Hs in Hs'. simplify_eq.
  unfold accumulate in Hb. simpl in Hb. rewrite Hu in Hb. by exists b'.
Qed.

Lemma hash_loop_distinct ts m m' :
  HashMap.distinct (HashMap.keys m) -> hash_loop calls gs ts None m = Ok m' -> HashMap.distinct (HashMap.keys m').
Proof.
  revert m. induction ts as [|t ts IH]; intros m Hd H; [simpl in H; apply Ok_inj in H; by subst|].
  rewrite hash_step in H. inv_ok. eapply IH; [|exact H]. by apply HashMap.distinct_upsert.
Qed.

Lemma hash_emit_runs entries s out :
  runs hash_agg_next (mk_hash_agg calls gs s (Some entries)) (mk_stream out None) <->
  rmap (fun e : list DataValue * list Accumulator => write_aggregate_output e.2 e.1) entries = Ok out.
Proof.
  revert out. induction entries as [|[ks accs] entries IH]; intros out; simpl.
  - split; intros H.
    + inversion H as [? ? H'|? ? H'|? ? ? ? ? H']; subst; [done|discriminate H'].
    + apply Ok_inj in H. subst. by eapply runs_end.
  - destruct (write_aggregate_output accs ks) as [t|e] eqn:E; simpl; split; intros H.
    + inversion H as [? ? H'|? ? H'|? t' ? rows' ? H' Hr]; subst;
        unfold hash_agg_next in H'; simpl in H'; rewrite E in H'; simpl in H'; try discriminate H'.
      apply Ok_inj in H'. simplify_eq. apply IH in Hr. by rewrite Hr.
    + apply rbind_ok in H as (ts & Hts & H). apply Ok_inj in H. subst.
      eapply runs_row; [unfold hash_agg_next; simpl; by rewrite E|]. by apply IH.
    + exfalso. inversion H as [? ? H'|? ? H'|? t' ? rows' ? H' Hr]; subst;
        unfold hash_agg_next in H'; simpl in H'; rewrite E in H'; simpl in H'; discriminate H'.
    + done.
Qed.

Lemma hash_agg_runs ts out :
  runs hash_agg_next (mk_hash_agg calls gs (mk_stream ts None) None) (mk_stream out None) <->
  exists m, hash_loop calls gs ts None [] = Ok m /\
    rmap (fun e : list DataValue * list Accumulator => write_aggregate_output e.2 e.1) (into_iter m) = Ok out.
Proof.
  destruct (hash_loop calls gs ts None []) as [m|e] eqn:E.
  - split.
    + intros H. exists m. split; [done|]. apply (hash_emit_runs _ (mk_stream [] None)).
      eapply runs_same; [|exact H]. unfold hash_agg_next. simpl. by rewrite E.
    + intros (m' & Hm & H). apply Ok_inj in Hm. subst m'.
      eapply runs_same; [|by apply (hash_emit_runs (into_iter m) (mk_stream [] None))]. unfold hash_agg_next. simpl. by rewrite E.
  - split; [|by intros (? & ? & _)]. intros H. exfalso.
    inversion H as [? ? H'|? ? H'|? t' ? rows' ? H' Hr]; subst;
      unfold hash_agg_next in H'; simpl in H'; rewrite E in H'; discriminate H'.
Qed.

(** The groups the streaming node forms, from the one it holds. *)
Fixpoint stream_groups (keys : list DataValue) (accs : list Accumulator) (ts : list Tuple)
    : res (list (list DataValue * list Accumulator)) :=
  match ts with
  | [] => Ok [(keys, accs)]
  | t :: ts' =>
      let? ks := group_keys_of gs t in
      if key_eq keys ks then
        let? accs' := update_accumulators accs calls (values t) in
        stream_groups keys accs' ts'
      else
        let? accs0 := create_accumulators calls in
        let? accs' := update_accumulators accs0 calls (values t) in
        let? rest := stream_groups ks accs' ts' in
        Ok ((keys, accs) :: rest)
  end.

Lemma get_app_last (done_ : Groups) k ks accs :
  occurrences k (HashMap.keys done_) = 0%nat ->
  HashMap.get (done_ ++ [(ks, accs)]) k = if key_eq k ks then Some accs else None.
Proof.
  induction done_ as [|[k' a] l IH]; simpl; intros H; [done|].
  rewrite occurrences_cons in H. destruct (key_eq k k'); [done|]. by apply IH.
Qed.

Lemma upsert_app_last (done_ : Groups) k ks accs accs' :
  occurrences k (HashMap.keys done_) = 0%nat ->
  HashMap.insert (done_ ++ [(ks, accs)]) k accs' =
  done_ ++ (if key_eq k ks then [(ks, accs')] else [(ks, accs); (k, accs')]).
Proof.
  unfold HashMap.insert. induction done_ as [|[k' a] l IH]; simpl; intros H; [by destruct (key_eq k ks)|].
  rewrite occurrences_cons in H. destruct (key_eq k k'); [done|]. by rewrite IH.
Qed.

(** On grouped rows the hash map is the sequence of the streaming groups. *)
Lemma hash_loop_stream ts kss done_ keys accs :
  rmap (group_keys_of gs) ts = Ok kss -> grouped (keys :: kss) ->
  Forall (fun k => occurrences k (keys :: kss) = 0%nat) (HashMap.keys done_) ->
  hash_loop calls gs ts None (done_ ++ [(keys, accs)]) =
  (let? l := stream_groups keys accs ts in Ok (done_ ++ l)).
Proof.
  revert kss done_ keys accs. induction ts as [|t ts IH]; intros kss done_ keys accs Hk Hg Hd; [done|].
  simpl in Hk. apply rbind_ok in Hk as (ks & Eks & Hk). apply rbind_ok in Hk as (kss' & Ekss & Hk).
  apply Ok_inj in Hk. subst kss. rewrite hash_step. cbn [stream_groups]. rewrite Eks. cbn [rbind].
  assert (occurrences ks (HashMap.keys done_) = 0%nat) as Hks.
  { clear -Hd. induction Hd as [|k l Hk _ IHl]; [done|]. rewrite occurrences_cons, IHl.
    rewrite !occurrences_cons in Hk. rewrite (key_eq_sym ks k).
    destruct (key_eq k ks); [|done]. destruct (key_eq k keys); simpl in Hk; lia. }
  unfold start. rewrite (get_app_last done_ ks keys accs Hks), (key_eq_sym ks keys).
  destruct Hg as [Hh Hg]. destruct (key_eq keys ks) eqn:E; cbn [rbind].
  - destruct (update_accumulators accs calls (values t)) as [accs'|]; cbn [rbind]; [|done].
    rewrite upsert_app_last by done. rewrite (key_eq_sym ks keys), E.
    apply (IH kss'); [done| |].
    + destruct Hg as [Hg1 Hg2]. split; [|done]. destruct kss' as [|k2 kss']; [done|].
      destruct Hg1 as [Hg1|Hg1]; [left; by eapply key_eq_trans|right; by rewrite (occurrences_cong _ _ _ E)].
    + eapply Forall_impl; [exact Hd|]. intros k Hz. simpl in Hz. rewrite !occurrences_cons in *. lia.
  - destruct (create_accumulators calls) as [accs0|]; cbn [rbind]; [|done].
    destruct (update_accumulators accs0 calls (values t)) as [accs'|]; cbn [rbind]; [|done].
    rewrite upsert_app_last by done. rewrite (key_eq_sym ks keys), E.
    change [(keys, accs); (ks, accs')] with ([(keys, accs)] ++ [(ks, accs')]). rewrite (assoc_L (++)).
    rewrite (IH kss'); [|done|done|].
    + destruct (stream_groups ks accs' ts); simpl; [|done]. by rewrite <- (assoc_L (++)).
    + unfold HashMap.keys. rewrite map_app. apply Forall_app. split.
      * eapply Forall_impl; [exact Hd|]. intros k Hz. simpl in Hz. rewrite !occurrences_cons in *. lia.
      * constructor; [|constructor]. simpl. destruct Hh as [Hh|Hh]; [by rewrite Hh in E|done].
Qed.

Lemma stream_groups_run ts keys accs l out :
  stream_groups keys accs ts = Ok l ->
  rmap (fun e : list DataValue * list Accumulator => write_aggregate_output e.2 e.1) l = Ok out ->
  runs stream_agg_next (mk_stream_agg calls gs (Some keys) accs (mk_stream ts None)) (mk_stream out None).
Proof.
  revert keys accs l out. induction ts as [|t ts IH]; intros keys accs l out Hl Hw; simpl in Hl.
  - apply Ok_inj in Hl. subst l. simpl in Hw. inv_ok. subst.
    eapply runs_row; [unfold stream_agg_next; simpl; by rewrite Ha|]. by eapply runs_end.
  - apply rbind_ok in Hl as (ks & Eks & Hl). destruct (key_eq keys ks) eqn:E.
    + apply rbind_ok in Hl as (accs' & Eu & Hl).
      eapply runs_same; [|by eapply IH]. unfold stream_agg_next. simpl. rewrite Eks. simpl. rewrite E, Eu. done.
    + apply rbind_ok in Hl as (accs0 & Ec & Hl). apply rbind_ok in Hl as (accs' & Eu & Hl).
      apply rbind_ok in Hl as (rest & Er & Hl). apply Ok_inj in Hl. subst l. simpl in Hw.
      apply rbind_ok in Hw as (o & Eo & Hw). apply rbind_ok in Hw as (os & Eos & Hw). apply Ok_inj in Hw. subst out.
      eapply runs_row; [|by eapply IH]. unfold stream_agg_next. simpl. rewrite Eks. simpl.
      rewrite E, Ec. simpl. rewrite Eu. simpl. by rewrite Eo.
Qed.

Lemma rmap_perm {A B : Type} (f : A -> res B) l1 l2 out :
  Permutation l1 l2 -> rmap f l1 = Ok out -> exists out', rmap f l2 = Ok out' /\ Permutation out' out.
Proof.
  intros Hp. revert out. induction Hp as [|x l1 l2 Hp IH|x y l|l1 l2 l3 H1 IH1 H2 IH2]; intros out H.
  - eauto.
  - simpl in *. inv_ok. subst. destruct (IH _ Ha0) as (o & Eo & Ho). exists (a :: o). rewrite Ha, Eo. split; [done|by constructor].
  - simpl in *. apply rbind_ok in H as (b & Hb & H). apply rbind_ok in H as (l' & Hl' & H).
    apply rbind_ok in Hl' as (a & Ha & Hl'). apply rbind_ok in Hl' as (o & Ho & Hl').
    apply Ok_inj in Hl'. apply Ok_inj in H. subst. rewrite Ha. simpl. rewrite Hb. simpl. rewrite Ho. simpl.
    eexists. split; [done|]. constructor.
  - destruct (IH1 _ H) as (o & Eo & Ho). destruct (IH2 _ Eo) as (o' & Eo' & Ho'). exists o'. split; [done|by etransitivity].
Qed.

Lemma stream_of_hash ts kss out :
  rmap (group_keys_of gs) ts = Ok kss -> grouped kss ->
  runs hash_agg_next (mk_hash_agg calls gs (mk_stream ts None) None) (mk_stream out None) ->
  exists out', runs stream_agg_next (mk_stream_agg calls gs None [] (mk_stream ts None)) (mk_stream out' None) /\
    Permutation out' out.
Proof.
  intros Hk Hg H. apply hash_agg_runs in H as (m & Hm & Hw).
  destruct (rmap_perm _ _ _ _ (into_iter_perm m) Hw) as (out' & Hw' & Hp). exists out'. split; [|done].
  destruct ts as [|t ts]; [simpl in Hm; apply Ok_inj in Hm; subst; apply Ok_inj in Hw'; subst; by eapply runs_end|].
  simpl in Hk. apply rbind_ok in Hk as (ks & Eks & Hk). apply rbind_ok in Hk as (kss' & Ekss & Hk).
  apply Ok_inj in Hk. subst kss. rewrite hash_step, Eks in Hm. cbn [rbind] in Hm.
  apply rbind_ok in Hm as (accs & Ec & Hm). apply rbind_ok in Hm as (accs' & Eu & Hm).
  change (HashMap.insert [] ks accs') with ([] ++ [(ks, accs')]) in Hm.
  rewrite (hash_loop_stream ts kss' [] ks accs' Ekss Hg) in Hm by constructor.
  apply rbind_ok in Hm as (l & Hl & Hm). apply Ok_inj in Hm. simpl in Hm. subst m.
  eapply runs_same; [|eapply stream_groups_run; done].
  unfold stream_agg_next. simpl. rewrite Eks. simpl. change (create_accumulators calls = Ok accs) in Ec.
  rewrite Ec. simpl. by rewrite Eu.
Qed.
End Groups.

(** * What the accumulators compute *)

Section Accumulated.
Context {OF : OrderedFloat} {CH : Chrono} {SF : ScalarFunctions}.

Definition non_nulls (vs : list DataValue) : list DataValue := List.filter (fun v => negb (is_null v)) vs.

Lemma non_nulls_cons v vs : non_nulls (v :: vs) = if is_null v then non_nulls vs else v :: non_nulls vs.
Proof. unfold non_nulls. simpl. by destruct (is_null v). Qed.

(** ** COUNT *)

Lemma as_s32_small n : 0 <= n < 2 ^ 31 -> as_s 32 n = n.
Proof. intros H. unfold as_s. rewrite Z.mod_small by lia. by rewrite (proj2 (Z.ltb_lt _ _)) by lia. Qed.

Lemma count_run vs r :
  0 <= r -> r + Z.of_nat (length (non_nulls vs)) < 2 ^ 31 ->
  rfold update_value (CountAccumulator r) vs = Ok (CountAccumulator (r + Z.of_nat (length (non_nulls vs)))).
Proof.
  revert r. induction vs as [|v vs IH]; intros r H0 H; simpl; [by rewrite Z.add_0_r|].
  rewrite non_nulls_cons in *. destruct (is_null v); [by apply IH|].
  simpl length in H. rewrite as_s32_small by lia. rewrite IH by lia. do 2 f_equal. simpl length. lia.
Qed.

Lemma seen_occurrences vs v : seen vs v = negb (occurrences v vs =? 0)%nat.
Proof.
  induction vs as [|w vs IH]; [done|]. simpl. rewrite occurrences_cons, IH.
  by destruct (key_eq v w).
Qed.

Lemma key_eq_null v w : key_eq v w = true -> is_null v = is_null w.
Proof. by destruct v, w. Qed.

Definition counted (set : list DataValue) : Z := to_i32 (Z.of_nat (length set)).

Lemma distinct_count_run vs set :
  Forall (fun v => is_null v = false) set ->
  exists set', rfold update_value (DistinctCountAccumulator set (counted set)) vs =
      Ok (DistinctCountAccumulator set' (counted set')) /\
    Forall (fun v => is_null v = false) set' /\
    ((forall v, occurrences v set <= 1)%nat -> forall v, occurrences v set' <= 1)%nat /\
    forall v, is_null v = false ->
      (occurrences v set' = 0 <-> occurrences v set = 0 /\ occurrences v vs = 0)%nat.
Proof.
  revert set. induction vs as [|x vs IH]; intros set Hn.
  - exists set. repeat split; auto; tauto.
  - simpl. destruct (is_null x) eqn:Ex; simpl.
    + destruct (IH set Hn) as (set' & Hr & Hn' & Hd & Hi). exists set'. split; [done|]. split; [done|].
      split; [done|]. intros v Hv. rewrite (Hi v Hv), occurrences_cons.
      destruct (key_eq v x) eqn:E; [by rewrite (key_eq_null _ _ E), Ex in Hv|done].
    + rewrite seen_occurrences, negb_involutive. destruct (Nat.eqb_spec (occurrences x set) 0) as [E0|E0].
      * destruct (IH (set ++ [x])) as (set' & Hr & Hn' & Hd & Hi); [apply Forall_app; by repeat constructor|].
        exists set'. split; [done|]. split; [done|]. split.
        -- intros H. apply Hd. intros v. rewrite occurrences_app, occurrences_cons, occurrences_nil.
           destruct (key_eq v x) eqn:E; [rewrite (occurrences_cong _ _ _ E), E0; simpl; lia|specialize (H v); simpl; lia].
        -- intros v Hv. rewrite (Hi v Hv), occurrences_app, !occurrences_cons, occurrences_nil. lia.
      * destruct (IH set Hn) as (set' & Hr & Hn' & Hd & Hi). exists set'. split; [done|]. split; [done|].
        split; [done|]. intros v Hv. rewrite (Hi v Hv), occurrences_cons.
        destruct (key_eq v x) eqn:E; [rewrite (occurrences_cong v x set E)|]; lia.
Qed.

(** ** SUM *)

Definition sum_of (xs : list Z) : Z := foldr Z.add 0 xs.

Definition int_value (N : Numeric) (o : option Z) : DataValue :=
  match o with
  | Some x => num_make N x
  | None => DataValue.Null
  end.

Lemma num_make_not_null ty N x : numeric_ok ty N -> is_null (num_make N x) = false.
Proof.
  intros H. destruct (num_make N x) eqn:E; try done. pose proof (no_get _ _ H x) as Hg.
  rewrite E, (no_null _ _ H) in Hg. done.
Qed.

Lemma sum_run ty N ev os s :
  numeric_of ty = Some N -> binary_create ty BinaryOperator.Plus = Ok ev ->
  match rfold update_value (SumAcc (mk_sum (num_make N s) ev)) (map (int_value N) os) with
  | Ok acc => acc = SumAcc (mk_sum (num_make N (s + sum_of (omap id os))) ev) /\
      (omap id os <> [] -> num_range N (s + sum_of (omap id os)))
  | Err e => e = OverFlow /\ exists p, p `prefix_of` omap id os /\ ~ num_range N (s + sum_of p)
  end.
Proof.
  intros HN Hev. pose proof (numeric_of_ok ty N HN) as Hok. revert s.
  induction os as [|[x|] os IH]; intros s; simpl; [by rewrite Z.add_0_r| |apply IH].
  unfold sum_update. simpl. rewrite !(num_make_not_null ty N) by done. simpl.
  rewrite (numeric_dispatch ty N _ ev _ _ HN Hev). cbn [numeric_evaluator].
  unfold numeric_plus_binary_eval, with_operands, num_result. rewrite !(no_get _ _ Hok).
  destruct (num_checked N (s + x)) as [r|] eqn:E; simpl.
  - apply num_checked_range in E as [-> Hr]. specialize (IH (s + x)). rewrite Z.add_assoc.
    destruct (rfold _ _ _) as [acc|e].
    + destruct IH as [-> IH]. split; [done|]. intros _.
      change (list_omap (option Z) Z id os) with (omap id os) in *.
      destruct (omap id os) as [|y ys]; [unfold sum_of; simpl; by rewrite Z.add_0_r|by apply IH].
    + destruct IH as [-> (p & Hp & Hn)]. split; [done|]. exists (x :: p). split; [by apply prefix_cons|].
      simpl. by rewrite Z.add_assoc.
  - split; [done|]. exists [x]. split; [by exists (omap id os)|]. simpl. rewrite Z.add_0_r. intros Hr.
    assert (num_checked N (s + x) = Some (s + x)) as H by (by apply num_checked_range). by rewrite H in E.
Qed.

(** ** MIN and MAX *)

(** The types whose comparison operators test [PartialOrd]. *)
Definition extremal_type (ty : LogicalType) : bool :=
  match ty with
  | LogicalType.Tinyint | LogicalType.Smallint | LogicalType.Integer | LogicalType.Bigint
  | LogicalType.UTinyint | LogicalType.USmallint | LogicalType.UInteger | LogicalType.UBigint
  | LogicalType.Float | LogicalType.Double | LogicalType.Date | LogicalType.DateTime
  | LogicalType.Varchar _ _ | LogicalType.Char _ _ => true
  | _ => false
  end.

Definition extremal_op (is_max : bool) : BinaryOperator :=
  if is_max then BinaryOperator.Lt else BinaryOperator.Gt.

Definition beats (is_max : bool) (r v : DataValue) : Prop :=
  exists c, partial_cmp r v = Some c /\ c <> (if is_max then Lt else Gt).

Lemma extremal_eval is_max ty l r :
  extremal_type ty = true -> operand ty l -> operand ty r -> is_null l = false -> is_null r = false ->
  exists ev c, binary_create (logical_type r) (extremal_op is_max) = Ok ev /\ partial_cmp l r = Some c /\
    binary_eval ev l r = Ok (DataValue.Boolean (if is_max then c_lt c else c_gt c)).
Proof.
  intros Ht Hl Hr Nl Nr.
  assert (extremal_type (logical_type r) = true /\ operand (logical_type r) l /\ operand (logical_type r) r)
    as (Ht' & Hl' & Hr').
  { destruct Hl as [Ol Hl], Hr as [Or Hr].
    destruct ty; try discriminate Ht; destruct r; try done; destruct l; try done;
      (split; [|split; (split; [assumption|])]); try done; simpl;
      by match goal with |- context [match ?u with Variable_ _ => _ | Fixed _ => _ end] => destruct u end. }
  assert (exists ev, binary_create (logical_type r) (extremal_op is_max) = Ok ev) as [ev Hev].
  { destruct (logical_type r); try discriminate Ht'; destruct is_max; by eexists. }
  assert (comparison_test (extremal_op is_max) = Some (if is_max then c_lt else c_gt)) as Hct by (by destruct is_max).
  destruct (comparison_eval _ _ _ ev l r Hct Hev Hl' Hr' Nl Nr) as (c & Hc & He).
  { by destruct (logical_type r). }
  exists ev, c. split; [done|]. split; [done|]. rewrite He. by destruct is_max.
Qed.

Lemma beats_trans is_max a b c : beats is_max a b -> beats is_max b c -> beats is_max a c.
Proof.
  intros (o1 & H1 & N1) (o2 & H2 & N2). exists (cmp_then o1 o2).
  assert (cmp_compat o1 o2) as Hc by (unfold cmp_compat; destruct is_max, o1, o2; auto; done).
  split; [by eapply partial_cmp_transitive|]. by destruct o1.
Qed.

Lemma beats_refl is_max ty v : extremal_type ty = true -> operand ty v -> is_null v = false -> beats is_max v v.
Proof.
  intros Ht [_ Hv] Hn. exists Eq. split; [|by destruct is_max]. apply partial_cmp_refl.
  destruct ty; try discriminate Ht; by destruct v.
Qed.

Lemma min_max_run is_max ty vs r :
  extremal_type ty = true -> Forall (operand ty) vs -> operand ty r ->
  exists r', rfold update_value (MinMaxAccumulator r (extremal_op is_max)) vs =
      Ok (MinMaxAccumulator r' (extremal_op is_max)) /\
    operand ty r' /\ (r' = r \/ r' ∈ non_nulls vs) /\
    (is_null r = false -> beats is_max r' r) /\ Forall (beats is_max r') (non_nulls vs) /\
    (is_null r = false \/ non_nulls vs <> [] -> is_null r' = false).
Proof.
  intros Ht Hvs. revert r. induction Hvs as [|v vs Hv Hvs IH]; intros r Hr.
  - exists r. split_and!; [done|done|by left|by eapply beats_refl|constructor|by intros [?|?]].
  - rewrite non_nulls_cons. cbn [rfold update_value]. unfold min_max_update at 1. destruct (is_null v) eqn:Nv; [by apply IH|].
    destruct (is_null r) eqn:Nr; simpl.
    + destruct (IH v Hv) as (r' & Hrun & Ho & Hin & Hb & Hall & Hnn). exists r'. rewrite Nv in *.
      split_and!; [done|done| |done| |].
      * right. destruct Hin as [->|Hin]; [apply list_elem_of_here|by apply list_elem_of_further].
      * constructor; [by apply Hb|done].
      * intros _. apply Hnn. by left.
    + destruct (extremal_eval is_max ty r v Ht Hr Hv Nr Nv) as (ev & c & E1 & Hc & E2).
      rewrite E1. simpl. rewrite E2. simpl.
      assert (exists r1, (if (if is_max then c_lt c else c_gt c) then v else r) = r1 /\ operand ty r1 /\ is_null r1 = false /\
        beats is_max r1 v /\ beats is_max r1 r /\ (r1 = r \/ r1 = v)) as (r1 & -> & Ho1 & Nn1 & Bv & Br & Hr1).
      { pose proof (beats_refl is_max ty v Ht Hv Nv). pose proof (beats_refl is_max ty r Ht Hr Nr).
        pose proof (partial_cmp_flip r v) as Hf. rewrite Hc in Hf. simpl in Hf.
        destruct is_max, c; simpl; (eexists; split; [reflexivity|]); split_and!; auto;
          (eexists; split; [eassumption|done]). }
      destruct (IH r1 Ho1) as (r' & Hrun & Ho & Hin & Hb & Hall & Hnn). exists r'.
      split_and!; [done|done| | | |].
      * destruct Hin as [->|Hin]; [|right; by apply list_elem_of_further].
        destruct Hr1 as [-> | ->]; [by left|right; apply list_elem_of_here].
      * intros _. eapply beats_trans; [by apply Hb|done].
      * constructor; [|done]. eapply beats_trans; [by apply Hb|done].
      * intros _. apply Hnn. by left.
Qed.
End Accumulated.

Lemma filter_perm {A : Type} (f : A -> bool) (l1 l2 : list A) :
  Permutation l1 l2 -> Permutation (List.filter f l1) (List.filter f l2).
Proof.
  induction 1 as [|x l1 l2 _ IH|x y l|l1 l2 l3 _ IH1 _ IH2]; simpl; [done| | |by etransitivity].
  - destruct (f x); [by constructor|done].
  - destruct (f x), (f y); try done. constructor.
Qed.

Lemma distinct_get {K V : Type} `{LawfulEq K} (m : HashMap K V) k v :
  HashMap.distinct (HashMap.keys m) -> In (k, v) m -> HashMap.get m k = Some v.
Proof.
  induction m as [|[k' v'] m IH]; intros Hd Hin; [done|]. simpl in Hd |- *.
  destruct Hin as [Hin|Hin]; [simplify_eq; by rewrite key_eq_refl|].
  destruct (key_eq k k') eqn:E.
  - exfalso. specialize (Hd k). rewrite occurrences_cons, E in Hd.
    assert (occurrences k (HashMap.keys m) <> 0%nat) as Hz; [|lia].
    clear -Hin H0. induction m as [|[k2 v2] m IH]; [done|]. simpl. rewrite occurrences_cons.
    destruct Hin as [Hin|Hin]; [simplify_eq; rewrite key_eq_refl; lia|]. specialize (IH Hin). lia.
  - apply IH; [|done]. intros x. specialize (Hd x). rewrite occurrences_cons in Hd. lia.
Qed.

(** * The claims *)

Section Claims.
Context {OF : OrderedFloat} {CH : Chrono} {SF : ScalarFunctions} {HO : HashOrder}.

Lemma hash_agg_entries calls gs ts m :
  hash_loop calls gs ts None [] = Ok m ->
  (forall k, occurrences k (map fst (into_iter m)) = Nat.min 1 (length (rows_of gs k ts))) /\
  Forall (fun e : list DataValue * list Accumulator => rows_of gs e.1 ts <> [] /\
    exists accs, create_accumulators calls = Ok accs /\ accumulate calls accs (rows_of gs e.1 ts) = Ok e.2) (into_iter m).
Proof.
  intros Hm.
  assert (HashMap.distinct (HashMap.keys m)) as Hd.
  { eapply hash_loop_distinct; [|exact Hm]. intros k. unfold occurrences. simpl. lia. }
  assert (forall k, occurrences k (map fst (into_iter m)) = occurrences k (HashMap.keys m)) as Hocc.
  { intros k. unfold occurrences, HashMap.keys. apply Permutation_length, (filter_perm (key_eq k)).
    by apply Permutation_map, into_iter_perm. }
  split.
  - intros k. rewrite Hocc. specialize (Hd k).
    destruct (hash_loop_groups calls gs ts [] m k Hm) as [[Hn Hg]|(Hn & a & a' & _ & _ & Hg)].
    + rewrite Hn. apply HashMap.get_occurrences in Hg. by rewrite Hg.
    + assert (occurrences k (HashMap.keys m) <> 0%nat) as Hz.
      { intros Hz. apply HashMap.get_occurrences in Hz. by rewrite Hz in Hg. }
      destruct (rows_of gs k ts); [done|]. cbn [length]. lia.
  - rewrite into_iter_perm. apply List.Forall_forall. intros [k accs] Hin. cbn [fst snd].
    assert (HashMap.get m k = Some accs) as Hget by (by apply distinct_get).
    destruct (hash_loop_groups calls gs ts [] m k Hm) as [[Hn Hg]|(Hn & a & a' & Hs & Hf & Hg)].
    + by rewrite Hget in Hg.
    + split; [done|]. exists a. rewrite Hget in Hg. simplify_eq. done.
Qed.

(** The aggregates of a group evaluate. *)
Definition group_evaluates (calls : list AggCall) (ts : list Tuple) : Prop :=
  exists accs accs' results,
    create_accumulators calls = Ok accs /\ accumulate calls accs ts = Ok accs' /\ rmap evaluate accs' = Ok results.

(** C19: GROUP BY by hashing: where the keys evaluate on every row and the
    aggregates on every group, the node runs to its end and emits one row per
    group, the groups being the key values that occur up to [Eq]: the outputs
    of fresh accumulators updated with exactly the rows of the group, in input
    order. *)
Theorem hash_agg_groups calls gs ts kss :
  rmap (group_keys_of gs) ts = Ok kss ->
  (forall k, rows_of gs k ts <> [] -> group_evaluates calls (rows_of gs k ts)) ->
  exists entries out,
    runs hash_agg_next (mk_hash_agg calls gs (mk_stream ts None) None) (mk_stream out None) /\
    Forall2 (fun (e : list DataValue * list Accumulator) t => write_aggregate_output e.2 e.1 = Ok t) entries out /\
    (forall k, occurrences k (map fst entries) = Nat.min 1 (length (rows_of gs k ts))) /\
    Forall (fun e : list DataValue * list Accumulator => exists accs, create_accumulators calls = Ok accs /\
      accumulate calls accs (rows_of gs e.1 ts) = Ok e.2) entries.
Proof.
  intros Hk Hg. destruct (hash_loop_total calls gs ts [] kss Hk) as [m Hm].
  { intros k Hn. destruct (Hg k Hn) as (accs & accs' & os & Hc & Ha & _). by exists accs, accs'. }
  destruct (hash_agg_entries calls gs ts m Hm) as [Hocc Hacc].
  destruct (rmap_total (fun e : list DataValue * list Accumulator => write_aggregate_output e.2 e.1) (into_iter m))
    as [out Hout].
  { eapply Forall_impl; [exact Hacc|]. intros [k accs'] (Hn & accs & Hc & Ha).
    destruct (Hg k Hn) as (b & b' & os & Hc' & Hb & He). cbn [fst snd] in *. rewrite Hc in Hc'. apply Ok_inj in Hc'. subst b.
    rewrite Ha in Hb. apply Ok_inj in Hb. subst b'. unfold write_aggregate_output. rewrite He. by eexists. }
  exists (into_iter m), out. split; [apply hash_agg_runs; by exists m|]. split; [by apply rmap_Ok|]. split; [done|].
  eapply Forall_impl; [exact Hacc|]. by intros e [_ H].
Qed.

(** C30: streaming and hashing agree: on rows whose group keys evaluate and
    whose equal keys are contiguous, whenever the hash node runs to its end the
    streaming node does too and emits the same rows up to order. *)
Theorem stream_agg_is_hash_agg calls gs ts kss out :
  rmap (group_keys_of gs) ts = Ok kss -> grouped kss ->
  runs hash_agg_next (mk_hash_agg calls gs (mk_stream ts None) None) (mk_stream out None) ->
  exists out', runs stream_agg_next (mk_stream_agg calls gs None [] (mk_stream ts None)) (mk_stream out' None) /\
    Permutation out' out.
Proof. apply stream_of_hash. Qed.

(** COUNT and COUNT(DISTINCT): fed with any values, the first ends at the
    number of values that are not null; the second at the size of a set of
    pairwise different values that holds every value that is not null exactly
    once, as long as these numbers fit an [i32]. *)
Theorem count_counts vs :
  Z.of_nat (length (non_nulls vs)) < 2 ^ 31 ->
  (exists acc, rfold update_value (CountAccumulator 0) vs = Ok acc /\
    evaluate acc = Ok (DataValue.Int32 (Z.of_nat (length (non_nulls vs))))) /\
  exists set acc, rfold update_value (DistinctCountAccumulator [] 0) vs = Ok acc /\
    evaluate acc = Ok (DataValue.Int32 (to_i32 (Z.of_nat (length set)))) /\
    forall v, is_null v = false -> occurrences v set = Nat.min 1 (occurrences v vs).
Proof.
  intros Hn. split.
  - eexists. rewrite count_run by lia. split; [done|]. simpl. by rewrite Z.add_0_l.
  - destruct (distinct_count_run vs []) as (set & Hr & _ & Hd & Hi); [constructor|].
    change (counted []) with 0 in Hr. exists set. eexists. split; [exact Hr|]. split; [done|]. intros v Hv.
    specialize (Hi v Hv). assert (occurrences v set <= 1)%nat by (apply Hd; intros; rewrite occurrences_nil; lia).
    rewrite occurrences_nil in Hi. lia.
Qed.

(** C40: SUM over an integer type is exact or fails: over nulls and integers of
    the type, the accumulator ends at null when there is no integer, else at
    their sum, which then fits the type; the only error is the overflow, and it
    occurs only when the sum of some initial part does not fit. *)
Theorem sum_exact ty N os :
  numeric_of ty = Some N -> Forall (fun x => num_range N x) (omap id os) ->
  match (let? acc := create_accumulator AggKind.Sum ty false in rfold update_value acc (map (int_value N) os)) with
  | Ok acc =>
      evaluate acc = Ok (match omap id os with [] => DataValue.Null | xs => num_make N (sum_of xs) end) /\
      (omap id os <> [] -> num_range N (sum_of (omap id os)))
  | Err e => e = OverFlow /\ exists p, p `prefix_of` omap id os /\ ~ num_range N (sum_of p)
  end.
Proof.
  intros HN Hr. pose proof (numeric_of_ok ty N HN) as Hok.
  assert (exists ev, binary_create ty BinaryOperator.Plus = Ok ev) as [ev Hev]
    by (destruct ty; try discriminate HN; by eexists).
  unfold create_accumulator, sum_new. rewrite Hev. cbn [rbind].
  induction os as [|[x|] os IH]; [done| |exact (IH Hr)].
  change (omap id (Some x :: os)) with (x :: omap id os) in *.
  apply Forall_cons_1 in Hr as [Hx _]. pose proof (sum_run ty N ev os x HN Hev) as H.
  cbn [map rfold int_value update_value]. unfold sum_update at 1.
  rewrite (num_make_not_null ty N x Hok). cbn [sum_result is_null sum_evaluator rbind].
  clear IH. destruct (rfold _ _ _) as [acc|e].
  - destruct H as [-> H]. split; [done|]. intros _. destruct (omap id os); [simpl; by rewrite Z.add_0_r|by apply H].
  - destruct H as [-> (p & Hp & Hn)]. split; [done|]. exists (x :: p). split; [by apply prefix_cons|done].
Qed.

(** MIN and MAX over a number, date or string type: the accumulator never
    fails, ends at null when every value is null, and otherwise at one of the
    values that no other value is less (greater) than. *)
Theorem min_max_extreme is_max ty vs :
  extremal_type ty = true -> Forall (operand ty) vs ->
  exists acc r, rfold update_value (min_max_new is_max) vs = Ok acc /\ evaluate acc = Ok r /\
    (non_nulls vs = [] -> r = DataValue.Null) /\
    (non_nulls vs <> [] -> r ∈ non_nulls vs /\ Forall (beats is_max r) (non_nulls vs)).
Proof.
  intros Ht Hvs. destruct (min_max_run is_max ty vs DataValue.Null Ht Hvs) as (r & Hr & _ & Hin & _ & Hall & Hnn).
  { by split. }
  eexists _, r. split; [exact Hr|]. split; [done|]. split.
  - intros H. destruct Hin as [->|Hin]; [done|]. rewrite H in Hin. by apply not_elem_of_nil in Hin.
  - intros H. split; [|done]. destruct Hin as [->|Hin]; [|done]. specialize (Hnn (or_intror H)). done.
Qed.
End Claims.

(** AVG of doubles goes through an unsigned integer: the average of 0.5 and
    1.0 is 0.5, and the average of -1.0 alone is an overflow. *)
Theorem avg_double_truncates {OF : OrderedFloat} {CH : Chrono} {SF : ScalarFunctions} :
  let half := DataValue.Float64 0x3FE0000000000000 in
  let one := DataValue.Float64 0x3FF0000000000000 in
  let minus_one := DataValue.Float64 0xBFF0000000000000 in
  let avg vs := (let? acc := create_accumulator AggKind.Avg LogicalType.Double false in
                 let? acc := rfold update_value acc vs in evaluate acc) in
  avg [half; one] = Ok half /\ avg [minus_one] = Err OverFlow.
Proof. split; vm_compute; reflexivity. Qed.

(** ** Witnesses *)

Definition wit_calls : list AggCall :=
  [mk_agg_call false AggKind.Count [ScalarExpression.ColumnRef LogicalType.Integer 0] LogicalType.Integer;
   mk_agg_call false AggKind.Sum [ScalarExpression.ColumnRef LogicalType.Integer 0] LogicalType.Integer].
Definition wit_groupby : list ScalarExpression := [ScalarExpression.ColumnRef LogicalType.Integer 0].
Definition wit_group_rows : list Tuple := [wit_key 1; wit_key 1; wit_key 2].
Definition wit_group_out : list Tuple :=
  [mk_tuple None [DataValue.Int32 2; DataValue.Int32 2; DataValue.Int32 1];
   mk_tuple None [DataValue.Int32 1; DataValue.Int32 2; DataValue.Int32 2]].

Lemma wit_hash_runs :
  runs hash_agg_next (mk_hash_agg wit_calls wit_groupby (mk_stream wit_group_rows None) None)
    (mk_stream wit_group_out None).
Proof. repeat (eapply runs_row; [reflexivity|]). eapply runs_end. reflexivity. Qed.

Lemma hash_agg_groups_witness :
  exists entries out,
    runs hash_agg_next (mk_hash_agg wit_calls wit_groupby (mk_stream wit_group_rows None) None) (mk_stream out None) /\
    Forall2 (fun (e : list DataValue * list Accumulator) t => write_aggregate_output e.2 e.1 = Ok t) entries out /\
    (forall k, occurrences k (map fst entries) = Nat.min 1 (length (rows_of wit_groupby k wit_group_rows))) /\
    Forall (fun e : list DataValue * list Accumulator => exists accs, create_accumulators wit_calls = Ok accs /\
      accumulate wit_calls accs (rows_of wit_groupby e.1 wit_group_rows) = Ok e.2) entries.
Proof.
  apply (hash_agg_groups wit_calls wit_groupby wit_group_rows
    [[DataValue.Int32 1]; [DataValue.Int32 1]; [DataValue.Int32 2]]); [reflexivity|].
  intros k _. unfold rows_of, wit_group_rows. simpl. unfold in_group. simpl.
  destruct (key_eq k [DataValue.Int32 1]), (key_eq k [DataValue.Int32 2]); do 3 eexists; repeat split; reflexivity.
Defined.

Lemma stream_agg_is_hash_agg_witness :
  exists out', runs stream_agg_next (mk_stream_agg wit_calls wit_groupby None [] (mk_stream wit_group_rows None))
      (mk_stream out' None) /\ Permutation out' wit_group_out.
Proof.
  apply (stream_agg_is_hash_agg wit_calls wit_groupby wit_group_rows
    [[DataValue.Int32 1]; [DataValue.Int32 1]; [DataValue.Int32 2]] wit_group_out); [reflexivity| |exact wit_hash_runs].
  repeat split; try (by left); by right.
Defined.

Lemma count_counts_witness :
  exists acc, rfold update_value (CountAccumulator 0) [DataValue.Int8 1; DataValue.Null; DataValue.Int8 1] = Ok acc /\
    evaluate acc = Ok (DataValue.Int32 2).
Proof. apply (count_counts [DataValue.Int8 1; DataValue.Null; DataValue.Int8 1]). reflexivity. Defined.

Lemma sum_exact_witness :
  match (let? acc := create_accumulator AggKind.Sum LogicalType.Tinyint false in
         rfold update_value acc (map (int_value Int8_num) [Some 100; None; Some 27; Some 1])) with
  | Ok _ => False
  | Err e => e = OverFlow /\ exists p, p `prefix_of` [100; 27; 1] /\ ~ num_range Int8_num (sum_of p)
  end.
Proof.
  apply (sum_exact LogicalType.Tinyint Int8_num [Some 100; None; Some 27; Some 1]); [reflexivity|].
  repeat constructor; unfold num_range, in_s; simpl; lia.
Defined.

Lemma min_max_extreme_witness :
  exists acc r, rfold update_value (min_max_new true) [DataValue.Int8 3; DataValue.Null; DataValue.Int8 5] = Ok acc /\
    evaluate acc = Ok r /\ (non_nulls [DataValue.Int8 3; DataValue.Null; DataValue.Int8 5] = [] -> r = DataValue.Null) /\
    (non_nulls [DataValue.Int8 3; DataValue.Null; DataValue.Int8 5] <> [] ->
      r ∈ non_nulls [DataValue.Int8 3; DataValue.Null; DataValue.Int8 5] /\
      Forall (beats true r) (non_nulls [DataValue.Int8 3; DataValue.Null; DataValue.Int8 5])).
Proof.
  apply (min_max_extreme true LogicalType.Tinyint); [reflexivity|]. repeat constructor; unfold in_s; simpl; lia.
Defined.
