(* ===== verification/HashJoin.v ===== *)
(** The hash join (src/src/execution/dql/join): the left input is loaded into a
    hash map on its join keys, the right input probes it row by row, and an
    outer join finally walks the map for left rows that found no partner. The
    theorems relate the node to the nested-loop definition of the join. *)

From S2P Require Import Prelude MachineInt Types Operators Reader Value Chrono Evaluators Casts Expr.
From S2P Require Import Row Collections Exec Aggregate.
From Stdlib Require Import ZArith Lia.
From stdpp Require Import base tactics list list_numbers numbers option sorting.
Local Open Scope Z_scope.

(** * [RowBitmap] *)

Record RowBitmap := mk_bitmap { blocks : list Z; bitmap_len : Z }.

Definition usize_bits : Z := 64.

Definition bitmap_with_capacity (len : Z) : RowBitmap :=
  mk_bitmap (replicate (Z.to_nat ((len + usize_bits - 1) / usize_bits)) 0) len.

(** The assertion panics past the capacity. *)
Definition bitmap_insert (self : RowBitmap) (index : Z) : res RowBitmap :=
  if index <? bitmap_len self then
    let b := Z.to_nat (index / usize_bits) in
    match blocks self !! b with
    | Some block =>
        Ok (mk_bitmap (<[b := Z.lor block (Z.shiftl 1 (index mod usize_bits))]> (blocks self)) (bitmap_len self))
    | None => Err Panic
    end
  else Err Panic.

Definition bitmap_contains (self : RowBitmap) (index : Z) : res bool :=
  if bitmap_len self <=? index then Ok false
  else match blocks self !! Z.to_nat (index / usize_bits) with
       | Some block => Ok (negb (Z.land block (Z.shiftl 1 (index mod usize_bits)) =? 0))
       | None => Err Panic
       end.

Definition bitmap_ok (b : RowBitmap) : Prop :=
  0 <= bitmap_len b /\ Z.of_nat (length (blocks b)) = (bitmap_len b + usize_bits - 1) / usize_bits /\
  Forall (fun block => 0 <= block) (blocks b).

Lemma block_in_range b i : bitmap_ok b -> 0 <= i < bitmap_len b -> exists block, blocks b !! Z.to_nat (i / usize_bits) = Some block /\ 0 <= block.
Proof.
  intros (H0 & Hl & Hf) Hi. assert (Z.to_nat (i / usize_bits) < length (blocks b))%nat as Hlt.
  { unfold usize_bits in *. pose proof (Z.div_pos i 64 ltac:(lia) ltac:(lia)).
    assert (i / 64 < (bitmap_len b + 64 - 1) / 64); [|lia].
    apply Z.div_lt_upper_bound; [lia|]. pose proof (Z.div_mod (bitmap_len b + 64 - 1) 64 ltac:(lia)).
    pose proof (Z.mod_pos_bound (bitmap_len b + 64 - 1) 64 ltac:(lia)). lia. }
  apply lookup_lt_is_Some_2 in Hlt as [block Hb]. exists block. split; [done|]. by eapply Forall_lookup_1 in Hf.
Qed.

Lemma land_bit block k : 0 <= k -> negb (Z.land block (Z.shiftl 1 k) =? 0) = Z.testbit block k.
Proof.
  intros Hk. rewrite Z.shiftl_1_l. destruct (Z.testbit block k) eqn:E.
  - apply negb_true_iff, Z.eqb_neq. intros H. assert (Z.testbit (Z.land block (2 ^ k)) k = true) as Hb.
    { by rewrite Z.land_spec, E, Z.pow2_bits_true. }
    by rewrite H, Z.testbit_0_l in Hb.
  - apply negb_false_iff, Z.eqb_eq. apply Z.bits_inj'. intros j Hj. rewrite Z.land_spec, Z.testbit_0_l.
    destruct (Z.eq_dec j k) as [->|Hne]; [by rewrite E|]. by rewrite Z.pow2_bits_false, andb_false_r.
Qed.

Lemma bitmap_contains_bit b i :
  bitmap_ok b -> 0 <= i < bitmap_len b ->
  exists block, blocks b !! Z.to_nat (i / usize_bits) = Some block /\
    bitmap_contains b i = Ok (Z.testbit block (i mod usize_bits)).
Proof.
  intros Hok Hi. destruct (block_in_range b i Hok Hi) as (block & Hb & _). exists block. split; [done|].
  unfold bitmap_contains. rewrite (proj2 (Z.leb_gt _ _)) by lia. rewrite Hb.
  by rewrite land_bit by (apply Z.mod_pos_bound; done).
Qed.

Lemma bitmap_new_ok n : 0 <= n -> bitmap_ok (bitmap_with_capacity n).
Proof.
  intros Hn. split; [done|]. split; [|by apply Forall_replicate]. simpl. rewrite length_replicate.
  rewrite Z2Nat.id; [done|]. apply Z.div_pos; unfold usize_bits; lia.
Qed.

Lemma bitmap_new_empty n j : 0 <= n -> 0 <= j -> bitmap_contains (bitmap_with_capacity n) j = Ok false.
Proof.
  intros Hn Hj. destruct (Z.lt_ge_cases j n) as [Hlt|Hge].
  - destruct (bitmap_contains_bit _ j (bitmap_new_ok n Hn) ltac:(simpl; lia)) as (block & Hb & ->).
    apply lookup_replicate in Hb as [-> _]. by rewrite Z.testbit_0_l.
  - unfold bitmap_contains. simpl. by rewrite (proj2 (Z.leb_le _ _) Hge).
Qed.

(** Insertion adds the row and nothing else. *)
Lemma bitmap_insert_spec b i j :
  bitmap_ok b -> 0 <= i < bitmap_len b -> 0 <= j ->
  bitmap_contains (bitmap_with_capacity (bitmap_len b)) j = Ok false /\
  exists b', bitmap_insert b i = Ok b' /\ bitmap_ok b' /\ bitmap_len b' = bitmap_len b /\
    (exists c, bitmap_contains b j = Ok c /\ bitmap_contains b' j = Ok ((i =? j) || c)).
Proof.
  intros Hok Hi Hj. split; [apply bitmap_new_empty; [apply Hok|done]|].
  destruct (block_in_range b i Hok Hi) as (block & Hb & Hpos).
  pose proof (Z.mod_pos_bound i 64 ltac:(lia)) as Hm.
  unfold bitmap_insert. rewrite (proj2 (Z.ltb_lt _ _)) by lia. rewrite Hb. eexists. split; [reflexivity|].
  assert (bitmap_ok (mk_bitmap (<[Z.to_nat (i / usize_bits) := Z.lor block (Z.shiftl 1 (i mod usize_bits))]> (blocks b)) (bitmap_len b))) as Hok'.
  { destruct Hok as (H0 & Hl & Hf). repeat split; [done|simpl; by rewrite length_insert|].
    simpl. apply Forall_insert; [done|]. apply Z.lor_nonneg. split; [done|]. apply Z.shiftl_nonneg. lia. }
  split; [done|]. split; [done|].
  destruct (Z.lt_ge_cases j (bitmap_len b)) as [Hlt|Hge]; cycle 1.
  { exists false. unfold bitmap_contains. simpl. rewrite (proj2 (Z.leb_le _ _) Hge).
    by rewrite (proj2 (Z.eqb_neq i j)) by lia. }
  destruct (bitmap_contains_bit b j Hok ltac:(lia)) as (bj & Hbj & ->). eexists. split; [reflexivity|].
  destruct (bitmap_contains_bit _ j Hok' ltac:(simpl; lia)) as (bj' & Hbj' & ->). f_equal. simpl in Hbj'.
  pose proof (Z.mod_pos_bound j 64 ltac:(lia)) as Hmj. unfold usize_bits in *.
  pose proof (Z.div_mod i 64 ltac:(lia)). pose proof (Z.div_mod j 64 ltac:(lia)).
  pose proof (Z.div_pos i 64 ltac:(lia) ltac:(lia)). pose proof (Z.div_pos j 64 ltac:(lia) ltac:(lia)).
  destruct (Z.eq_dec (i / 64) (j / 64)) as [Hd|Hd].
  - rewrite Hd in Hbj', Hb. rewrite Hb in Hbj. simplify_eq.
    rewrite list_lookup_insert_eq in Hbj' by (by eapply lookup_lt_Some). simplify_eq.
    rewrite Z.lor_spec, Z.shiftl_1_l. destruct (Z.eqb_spec i j) as [->|Hne].
    + by rewrite Z.pow2_bits_true, orb_true_r by lia.
    + rewrite Z.pow2_bits_false by lia. by rewrite orb_false_r.
  - rewrite list_lookup_insert_ne in Hbj' by lia. rewrite Hbj in Hbj'. simplify_eq.
    by rewrite (proj2 (Z.eqb_neq i j)) by congruence.
Qed.

(** The row bitmap is a set of row numbers below its capacity: empty when
    made, it contains after an insertion exactly the inserted row and what it
    contained before, and numbers beyond the capacity are never members. *)
Theorem row_bitmap_set b i j :
  bitmap_ok b -> 0 <= i < bitmap_len b -> 0 <= j ->
  bitmap_contains (bitmap_with_capacity (bitmap_len b)) j = Ok false /\
  exists b', bitmap_insert b i = Ok b' /\ bitmap_ok b' /\ bitmap_len b' = bitmap_len b /\
    (exists c, bitmap_contains b j = Ok c /\ bitmap_contains b' j = Ok ((i =? j) || c)).
Proof. apply bitmap_insert_spec. Qed.

Lemma row_bitmap_set_witness :
  exists b', bitmap_insert (bitmap_with_capacity 70) 64 = Ok b' /\ bitmap_ok b' /\ bitmap_len b' = 70 /\
    (exists c, bitmap_contains (bitmap_with_capacity 70) 64 = Ok c /\ bitmap_contains b' 64 = Ok ((64 =? 64) || c)).
Proof.
  apply (row_bitmap_set (bitmap_with_capacity 70) 64 64); [|done..].
  by apply bitmap_new_ok.
Defined.

(** * The node *)

Module JoinType.
Inductive JoinType := Inner | LeftOuter | RightOuter | Full | Cross.
End JoinType.
Notation JoinType := JoinType.JoinType.

Record BuildState := mk_build { build_tuples : list (Z * Tuple); is_used : bool; has_filted : bool }.

Record ProbeState := mk_probe {
  is_keys_has_null : bool; probe_tuple : Tuple; index : nat; has_filtered : bool; produced : bool;
  finished : bool; emitted_unmatched : bool;
}.

Inductive JoinImpl :=
| InnerJoinState
| LeftJoinState (left_schema_len right_schema_len : nat) (bits : RowBitmap)
| RightJoinState (left_schema_len : nat)
| FullJoinState (left_schema_len right_schema_len : nat) (bits : RowBitmap).

Notation BuildMap := (HashMap (list DataValue) BuildState).

Inductive HashJoinState :=
| Build
| Probe (build_map : BuildMap) (join_impl : JoinImpl) (probe_buf : list DataValue) (probe_state : option ProbeState)
| LeftDrop (join_impl : JoinImpl) (states : list (list DataValue * BuildState))
    (current : option (list (Z * Tuple) * bool))
| End_.

Section Join.
Context {OF : OrderedFloat} {CH : Chrono} {SF : ScalarFunctions} {HO : HashOrder}.

Record HashJoin := mk_hash_join {
  join_state : HashJoinState; join_ty : JoinType; on_left_keys : list ScalarExpression;
  on_right_keys : list ScalarExpression; join_filter : option ScalarExpression;
  left_schema_len : nat; right_schema_len : nat; join_left : Stream; join_right : Stream;
}.

Definition eval_keys (on_keys : list ScalarExpression) (t : Tuple) : res (list DataValue) :=
  rmap (fun e => eval e (Some (values t))) on_keys.

(** [filter] of hash/mod.rs. *)
Definition filter_values (vs : list DataValue) (filter_expr : ScalarExpression) : res bool :=
  let? v := eval filter_expr (Some vs) in
  match v with
  | DataValue.Boolean b => Ok b
  | DataValue.Null => Ok false
  | _ => Err InvalidType
  end.

Definition passes (filter_expr : option ScalarExpression) (l r : Tuple) : res bool :=
  match filter_expr with
  | Some f => filter_values (values l ++ values r) f
  | None => Ok true
  end.

Definition joined (l r : Tuple) : Tuple :=
  mk_tuple (match pk l with Some p => Some p | None => pk r end) (values l ++ values r).

Definition full_right_row (left_schema_len : nat) (r : Tuple) : Tuple :=
  mk_tuple (pk r) (replicate left_schema_len DataValue.Null ++ values r).

(** [left_tuple.values.resize(full_schema_len, Null)]. *)
Definition padded (full_schema_len : nat) (l : Tuple) : Tuple :=
  mk_tuple (pk l) (resize full_schema_len DataValue.Null (values l)).

(** The build phase. *)
Fixpoint build_loop (keys : list ScalarExpression) (ts : list Tuple) (fail : option DatabaseError)
    (m : BuildMap) (build_count : Z) : res (BuildMap * Z) :=
  match ts with
  | [] => match fail with
          | Some e => Err e
          | None => Ok (m, build_count)
          end
  | t :: ts' =>
      let? ks := eval_keys keys t in
      build_loop keys ts' fail
        (HashMap.upsert m ks (mk_build [] false false)
           (fun b => mk_build (build_tuples b ++ [(build_count, t)]) (is_used b) (has_filted b)))
        (build_count + 1)
  end.

Definition create_join_impl (ty : JoinType) (left_len right_len : nat) (build_count : Z) : res JoinImpl :=
  match ty with
  | JoinType.Inner => Ok InnerJoinState
  | JoinType.LeftOuter => Ok (LeftJoinState left_len right_len (bitmap_with_capacity build_count))
  | JoinType.RightOuter => Ok (RightJoinState left_len)
  | JoinType.Full => Ok (FullJoinState left_len right_len (bitmap_with_capacity build_count))
  | JoinType.Cross => Err Panic
  end.

(** The [while] loop over the tuples of an entry: the next one the filter
    passes, how many were read, and the numbers of those it rejected. *)
Fixpoint scan (filter_expr : option ScalarExpression) (r : Tuple) (rest : list (Z * Tuple))
    (read : nat) (rejected : list Z) : res (option Tuple * nat * list Z) :=
  match rest with
  | [] => Ok (None, read, rejected)
  | (i, l) :: rest' =>
      let? pass := passes filter_expr l r in
      if pass then Ok (Some l, S read, rejected) else scan filter_expr r rest' (S read) (rejected ++ [i])
  end.

Definition insert_all (bits : RowBitmap) (rejected : list Z) : res RowBitmap := rfold bitmap_insert bits rejected.

(** The probe state after a row was read and possibly finished. *)
Definition probe_at (p : ProbeState) (read : nat) (filtered produced_ finished_ emitted : bool) : ProbeState :=
  mk_probe (is_keys_has_null p) (probe_tuple p) (index p + read) filtered produced_ finished_ emitted.

(** What one probe gives: the row, and the states after it. *)
Definition probed : Type := option Tuple * ProbeState * option BuildState * JoinImpl.

Definition unmatched (impl : JoinImpl) (p : ProbeState) (b : option BuildState) : probed :=
  match impl with
  | InnerJoinState | LeftJoinState _ _ _ =>
      (None, probe_at p 0 (has_filtered p) (produced p) true (emitted_unmatched p), b, impl)
  | RightJoinState left_len | FullJoinState left_len _ _ =>
      if emitted_unmatched p then (None, probe_at p 0 (has_filtered p) (produced p) true true, b, impl)
      else (Some (full_right_row left_len (probe_tuple p)), probe_at p 0 (has_filtered p) (produced p) true true, b, impl)
  end.

Definition inner_probe (filter_expr : option ScalarExpression) (p : ProbeState) (b : BuildState) : res probed :=
  let b := mk_build (build_tuples b) true (has_filted b) in
  let? (o, read, _) := scan filter_expr (probe_tuple p) (drop (index p) (build_tuples b)) 0 [] in
  match o with
  | Some l => Ok (Some (joined l (probe_tuple p)), probe_at p read (has_filtered p) (produced p) (finished p)
                    (emitted_unmatched p), Some b, InnerJoinState)
  | None => Ok (None, probe_at p read (has_filtered p) (produced p) true (emitted_unmatched p), Some b, InnerJoinState)
  end.

Definition left_probe (left_len right_len : nat) (bits : RowBitmap) (filter_expr : option ScalarExpression)
    (p : ProbeState) (b : BuildState) : res probed :=
  let? (o, read, rejected) := scan filter_expr (probe_tuple p) (drop (index p) (build_tuples b)) 0 [] in
  let? bits := insert_all bits rejected in
  let filtered := has_filtered p || negb (match rejected with [] => true | _ => false end) in
  match o with
  | Some l =>
      Ok (Some (joined l (probe_tuple p)), probe_at p read filtered (produced p) (finished p) (emitted_unmatched p),
          Some (mk_build (build_tuples b) true (has_filted b)), LeftJoinState left_len right_len bits)
  | None =>
      Ok (None, probe_at p read filtered (produced p) true (emitted_unmatched p),
          Some (mk_build (build_tuples b) (negb filtered) filtered), LeftJoinState left_len right_len bits)
  end.

Definition right_probe (left_len : nat) (filter_expr : option ScalarExpression) (p : ProbeState) (b : BuildState)
    : res probed :=
  let? (o, read, rejected) := scan filter_expr (probe_tuple p) (drop (index p) (build_tuples b)) 0 [] in
  let filtered := has_filtered p || negb (match rejected with [] => true | _ => false end) in
  match o with
  | Some l =>
      Ok (Some (joined l (probe_tuple p)), probe_at p read filtered true (finished p) (emitted_unmatched p),
          Some (mk_build (build_tuples b) true filtered), RightJoinState left_len)
  | None =>
      let b := mk_build (build_tuples b) (produced p) filtered in
      if negb (produced p) && negb (emitted_unmatched p) then
        Ok (Some (full_right_row left_len (probe_tuple p)), probe_at p read filtered (produced p) true true,
            Some b, RightJoinState left_len)
      else Ok (None, probe_at p read filtered (produced p) true (emitted_unmatched p), Some b, RightJoinState left_len)
  end.

(** A full join answers a rejected pair with the right row alone. *)
Definition full_probe (left_len right_len : nat) (bits : RowBitmap) (filter_expr : option ScalarExpression)
    (p : ProbeState) (b : BuildState) : res probed :=
  match build_tuples b !! index p with
  | Some (i, l) =>
      let? pass := passes filter_expr l (probe_tuple p) in
      if pass then
        Ok (Some (joined l (probe_tuple p)), probe_at p 1 (has_filtered p) (produced p) (finished p) (emitted_unmatched p),
            Some (mk_build (build_tuples b) true (has_filtered p)), FullJoinState left_len right_len bits)
      else
        let? bits := bitmap_insert bits i in
        Ok (Some (full_right_row left_len (probe_tuple p)), probe_at p 1 true (produced p) (finished p) (emitted_unmatched p),
            Some b, FullJoinState left_len right_len bits)
  | None =>
      Ok (None, probe_at p 0 (has_filtered p) (produced p) true (emitted_unmatched p),
          Some (mk_build (build_tuples b) (negb (has_filtered p)) (has_filtered p)), FullJoinState left_len right_len bits)
  end.

Definition probe_next (impl : JoinImpl) (filter_expr : option ScalarExpression) (p : ProbeState)
    (b : option BuildState) : res probed :=
  if is_keys_has_null p then Ok (unmatched impl p b)
  else match b with
       | None => Ok (unmatched impl p b)
       | Some b =>
           match impl with
           | InnerJoinState => inner_probe filter_expr p b
           | LeftJoinState ll rl bits => left_probe ll rl bits filter_expr p b
           | RightJoinState ll => right_probe ll filter_expr p b
           | FullJoinState ll rl bits => full_probe ll rl bits filter_expr p b
           end
       end.

(** One probe of the node: the entry of the keys is read and written back. *)
Definition probe_once (self : HashJoin) (m : BuildMap) (impl : JoinImpl) (buf : list DataValue) (p : ProbeState)
    : res (option Tuple * BuildMap * JoinImpl * ProbeState) :=
  let entry := if is_keys_has_null p then None else HashMap.get m buf in
  let? (o, p', b', impl') := probe_next impl (join_filter self) p entry in
  Ok (o, match b' with Some b => HashMap.insert m buf b | None => m end, impl', p').

Definition start_probe (buf : list DataValue) (t : Tuple) : ProbeState :=
  mk_probe (existsb is_null buf) t 0 false false false false.

Definition with_state (self : HashJoin) (s : HashJoinState) (l r : Stream) : HashJoin :=
  mk_hash_join s (join_ty self) (on_left_keys self) (on_right_keys self) (join_filter self)
    (left_schema_len self) (right_schema_len self) l r.

(** [left_drop_next]. *)
Fixpoint drop_tuples (bits : RowBitmap) (full_len : nat) (filted : bool) (ts : list (Z * Tuple))
    : res (option Tuple * list (Z * Tuple)) :=
  match ts with
  | [] => Ok (None, [])
  | (i, l) :: ts' =>
      let? c := bitmap_contains bits i in
      if negb c && filted then drop_tuples bits full_len filted ts' else Ok (Some (padded full_len l), ts')
  end.

Fixpoint drop_states (bits : RowBitmap) (full_len : nat) (states : list (list DataValue * BuildState))
    : res (option Tuple * list (list DataValue * BuildState) * option (list (Z * Tuple) * bool)) :=
  match states with
  | [] => Ok (None, [], None)
  | (_, b) :: states' =>
      if is_used b then drop_states bits full_len states'
      else
        let? (o, rest) := drop_tuples bits full_len (has_filted b) (build_tuples b) in
        match o with
        | Some t => Ok (Some t, states', Some (rest, has_filted b))
        | None => drop_states bits full_len states'
        end
  end.

Definition left_drop_next (impl : JoinImpl) (states : list (list DataValue * BuildState))
    (current : option (list (Z * Tuple) * bool))
    : res (option Tuple * list (list DataValue * BuildState) * option (list (Z * Tuple) * bool)) :=
  match impl with
  | InnerJoinState | RightJoinState _ => Ok (None, states, current)
  | LeftJoinState ll rl bits | FullJoinState ll rl bits =>
      let full_len := (rl + ll)%nat in
      match current with
      | Some (ts, filted) =>
          let? (o, rest) := drop_tuples bits full_len filted ts in
          match o with
          | Some t => Ok (Some t, states, Some (rest, filted))
          | None => drop_states bits full_len states
          end
      | None => drop_states bits full_len states
      end
  end.

Definition drop_next (self : HashJoin) (impl : JoinImpl) (states : list (list DataValue * BuildState))
    (current : option (list (Z * Tuple) * bool)) : poll HashJoin :=
  let? (o, states', current') := left_drop_next impl states current in
  match o with
  | Some t => Ok (Some t, with_state self (LeftDrop impl states' current') (mk_stream [] None) (mk_stream [] None))
  | None => Ok (None, with_state self End_ (mk_stream [] None) (mk_stream [] None))
  end.

(** The probe loop, from the next right row on. Every probe that gives no row
    has finished its right row. *)
Fixpoint probe_loop (self : HashJoin) (m : BuildMap) (impl : JoinImpl) (ts : list Tuple)
    (fail : option DatabaseError) : poll HashJoin :=
  match ts with
  | [] => match fail with
          | Some e => Err e
          | None => drop_next self impl (into_iter m) None
          end
  | t :: ts' =>
      let? buf := eval_keys (on_right_keys self) t in
      let? (o, m', impl', p) := probe_once self m impl buf (start_probe buf t) in
      match o with
      | Some t =>
          Ok (Some t, with_state self (Probe m' impl' buf (if finished p then None else Some p))
                        (mk_stream [] None) (mk_stream ts' fail))
      | None => if finished p then probe_loop self m' impl' ts' fail else Err Panic
      end
  end.

Definition probe_phase (self : HashJoin) (m : BuildMap) (impl : JoinImpl) (buf : list DataValue)
    (probe_state : option ProbeState) : poll HashJoin :=
  let r := join_right self in
  match probe_state with
  | None => probe_loop self m impl (rows r) (failure r)
  | Some p =>
      let? (o, m', impl', p') := probe_once self m impl buf p in
      match o with
      | Some t =>
          Ok (Some t, with_state self (Probe m' impl' buf (if finished p' then None else Some p')) (mk_stream [] None) r)
      | None => if finished p' then probe_loop self m' impl' (rows r) (failure r) else Err Panic
      end
  end.

(** The checks of [From for HashJoin], reported by the first poll. *)
Definition init_error (self : HashJoin) : option DatabaseError :=
  match join_ty self, on_left_keys self, on_right_keys self with
  | JoinType.Cross, _, _ | _, [], _ | _, _, [] => Some UnsupportedStmt
  | _, _, _ => None
  end.

Definition hash_join_next (self : HashJoin) : poll HashJoin :=
  match join_state self with
  | Build =>
      match init_error self with
      | Some e => Err e
      | None =>
          let? (m, build_count) :=
            build_loop (on_left_keys self) (rows (join_left self)) (failure (join_left self)) [] 0 in
          let? impl := create_join_impl (join_ty self) (left_schema_len self) (right_schema_len self) build_count in
          probe_phase self m impl [] None
      end
  | Probe m impl buf probe_state => probe_phase self m impl buf probe_state
  | LeftDrop impl states current => drop_next self impl states current
  | End_ => Ok (None, self)
  end.
End Join.

(** * The joins by definition *)

Section Spec.
Context {OF : OrderedFloat} {CH : Chrono} {SF : ScalarFunctions} {HO : HashOrder}.
Context (lk rk : list ScalarExpression) (f : option ScalarExpression).

Definition keys_of (ks : list ScalarExpression) (t : Tuple) : list DataValue :=
  match eval_keys ks t with Ok vs => vs | Err _ => [] end.

(** Equal keys, none of them null. *)
Definition same_keys (l r : Tuple) : bool :=
  negb (existsb is_null (keys_of rk r)) && key_eq (keys_of rk r) (keys_of lk l).

Definition pass (l r : Tuple) : bool :=
  match passes f l r with Ok b => b | Err _ => false end.

Definition partners (ls : list Tuple) (r : Tuple) : list Tuple :=
  List.filter (fun l => same_keys l r && pass l r) ls.

Definition inner_rows (ls : list Tuple) (r : Tuple) : list Tuple := map (fun l => joined l r) (partners ls r).

Definition right_rows (left_len : nat) (ls : list Tuple) (r : Tuple) : list Tuple :=
  match partners ls r with
  | [] => [full_right_row left_len r]
  | ps => map (fun l => joined l r) ps
  end.

(** The keys evaluate, and the condition does on rows with equal keys. *)
Definition evaluates (ls rs : list Tuple) : Prop :=
  Forall (fun l => exists ks, eval_keys lk l = Ok ks) ls /\
  Forall (fun r => exists ks, eval_keys rk r = Ok ks) rs /\
  Forall (fun r => Forall (fun l => same_keys l r = true -> exists b, passes f l r = Ok b) ls) rs.

(** ** The build map *)

Definition with_keys (ls : list Tuple) (k : list DataValue) : list Tuple :=
  List.filter (fun l => key_eq k (keys_of lk l)) ls.

(** Each entry holds the left rows with its key, in order. *)
Definition holds (m : BuildMap) (ls : list Tuple) : Prop :=
  forall k, match HashMap.get m k with
            | Some b => map snd (build_tuples b) = with_keys ls k
            | None => with_keys ls k = []
            end.

Definition all_tuples (m : BuildMap) : list Tuple := flat_map (fun e => map snd (build_tuples e.2)) m.

Lemma upsert_tuples (m : BuildMap) k t n :
  Permutation (all_tuples (HashMap.upsert m k (mk_build [] false false)
    (fun b => mk_build (build_tuples b ++ [(n, t)]) (is_used b) (has_filted b)))) (all_tuples m ++ [t]).
Proof.
  induction m as [|[k' b] m IH]; simpl; [done|]. destruct (key_eq k k'); simpl.
  - rewrite map_app. simpl. rewrite <- !app_assoc. apply Permutation_app_head. apply Permutation_app_comm.
  - rewrite <- app_assoc. by apply Permutation_app_head.
Qed.

(** An entry as the build phase leaves it. *)
Definition entry_fresh (b : BuildState) : Prop :=
  has_filted b = false /\ Forall (fun e : Z * Tuple => 0 <= e.1) (build_tuples b).

Lemma build_loop_ok ts ls m n :
  0 <= n ->
  Forall (fun l => exists ks, eval_keys lk l = Ok ks) ts ->
  holds m ls -> Permutation (all_tuples m) ls -> Forall (fun e => is_used e.2 = false /\ entry_fresh e.2) m ->
  HashMap.distinct (HashMap.keys m) ->
  exists m', build_loop lk ts None m n = Ok (m', n + Z.of_nat (length ts)) /\ holds m' (ls ++ ts) /\
    Permutation (all_tuples m') (ls ++ ts) /\ Forall (fun e => is_used e.2 = false /\ entry_fresh e.2) m' /\
    HashMap.distinct (HashMap.keys m').
Proof.
  intros Hn0 H. revert ls m n Hn0. induction H as [|t ts [ks Hk] _ IH]; intros ls m n Hn0 Hm Hp Hu Hd.
  - exists m. rewrite app_nil_r. simpl. by rewrite Z.add_0_r.
  - simpl. rewrite Hk. cbn [rbind].
    destruct (IH (ls ++ [t]) (HashMap.upsert m ks (mk_build [] false false)
      (fun b => mk_build (build_tuples b ++ [(n, t)]) (is_used b) (has_filted b))) (n + 1)) as (m' & -> & H').
    + lia.
    + intros k. rewrite HashMap.get_upsert. unfold with_keys. rewrite List.filter_app. simpl.
      unfold keys_of at 2 4. rewrite Hk. specialize (Hm k). unfold with_keys in Hm.
      destruct (key_eq k ks) eqn:E.
      * rewrite (HashMap.get_cong m k ks E) in Hm. simpl. rewrite map_app. simpl.
        destruct (HashMap.get m ks) as [b|]; simpl; by rewrite Hm.
      * rewrite app_nil_r. exact Hm.
    + by rewrite upsert_tuples, Hp.
    + clear -Hu Hn0. induction Hu as [|[k b] m (Hb & Hf & Hi) Hu IHu]; simpl; [by repeat constructor|].
      destruct (key_eq ks k); constructor; try done. repeat split; try done. simpl.
      apply Forall_app. by repeat constructor.
    + by apply HashMap.distinct_upsert.
    + exists m'. rewrite <- app_assoc in H'. simpl in H'. split; [|exact H'].
      do 2 f_equal. simpl length. lia.
Qed.

(** Writing an entry back with the same tuples keeps the map's contents. *)
Lemma holds_insert m ls k b b' :
  holds m ls -> HashMap.get m k = Some b -> build_tuples b' = build_tuples b -> holds (HashMap.insert m k b') ls.
Proof.
  intros Hm Hg Ht k'. unfold HashMap.insert. rewrite HashMap.get_upsert. specialize (Hm k').
  destruct (key_eq k' k) eqn:E; [|done]. rewrite (HashMap.get_cong m k' k E), Hg in Hm. by rewrite Ht.
Qed.

(** ** One right row *)

(** The rows of an entry the condition passes. *)
Lemma partners_entry m ls r :
  holds m ls -> existsb is_null (keys_of rk r) = false ->
  partners ls r = match HashMap.get m (keys_of rk r) with
                  | Some b => List.filter (fun l => pass l r) (map snd (build_tuples b))
                  | None => []
                  end.
Proof.
  intros Hm Hn. specialize (Hm (keys_of rk r)). unfold partners, same_keys. rewrite Hn. simpl.
  assert (List.filter (fun l => key_eq (keys_of rk r) (keys_of lk l) && pass l r) ls =
    List.filter (fun l => pass l r) (with_keys ls (keys_of rk r))) as ->.
  { clear. unfold with_keys. induction ls as [|l ls IH]; [done|]. simpl.
    destruct (key_eq _ _); simpl; [destruct (pass l r)|]; by rewrite IH. }
  destruct (HashMap.get m (keys_of rk r)) as [b|]; [by rewrite Hm|by rewrite Hm].
Qed.

Lemma partners_null ls r : existsb is_null (keys_of rk r) = true -> partners ls r = [].
Proof. intros H. unfold partners, same_keys. rewrite H. simpl. by induction ls. Qed.

(** The condition evaluates on every tuple of an entry. *)
Definition entry_ok (r : Tuple) (ts : list (Z * Tuple)) : Prop :=
  Forall (fun e : Z * Tuple => exists b, passes f e.2 r = Ok b) ts.

Lemma scan_ok r rest read rejected :
  entry_ok r rest ->
  exists read' rejected', (f = None -> rejected' = rejected) /\
    match List.filter (fun l => pass l r) (map snd rest) with
    | [] => scan f r rest read rejected = Ok (None, (read + length rest)%nat, rejected') 
    | l :: ls => scan f r rest read rejected = Ok (Some l, (read + S read')%nat, rejected') /\
        List.filter (fun l => pass l r) (map snd (drop (S read') rest)) = ls /\ (S read' <= length rest)%nat
    end.
Proof.
  intros H. revert read rejected. induction H as [|[i l] rest [b Hb] H IH]; intros read rejected.
  - exists 0%nat, rejected. simpl. by rewrite Nat.add_0_r.
  - simpl. simpl in Hb. pose proof Hb as Hb0. unfold pass at 1. rewrite Hb. cbn [rbind]. destruct b.
    + exists 0%nat, rejected. rewrite Nat.add_1_r. simpl. rewrite drop_0. repeat split. lia.
    + assert (f <> None) as Hf0 by (intros Hn; unfold passes in Hb0; by rewrite Hn in Hb0).
      destruct (IH (S read) (rejected ++ [i])) as (read' & rej & _ & Hr).
      destruct (List.filter (fun l => pass l r) (map snd rest)) as [|l' ls].
      * exists 0%nat, rej. split; [done|]. rewrite Hr. do 3 f_equal. lia.
      * destruct Hr as (Hr & Hf & Hle). exists (S read'), rej. split; [done|]. split; [rewrite Hr; do 3 f_equal; lia|].
        split; [done|lia].
Qed.

(** ** The probe phase *)

Context (ll rl : nat) (ty : JoinType).

(** The joins without a bitmap to maintain: inner, right, and left without a
    residual condition. *)
Definition simple (impl : JoinImpl) : Prop :=
  match impl with
  | InnerJoinState => True
  | RightJoinState n => n = ll
  | LeftJoinState n k _ => n = ll /\ k = rl /\ f = None
  | FullJoinState _ _ _ => False
  end.

Definition is_left (impl : JoinImpl) : bool := match impl with LeftJoinState _ _ _ => true | _ => false end.

(** What a right row gives once its entry is read. *)
Definition last_rows (impl : JoinImpl) (produced_ : bool) (r : Tuple) : list Tuple :=
  match impl with
  | RightJoinState n => if produced_ then [] else [full_right_row n r]
  | _ => []
  end.

Definition produced_after (impl : JoinImpl) (p : ProbeState) : bool :=
  match impl with RightJoinState _ => true | _ => produced p end.

(** An open probe of a right row. *)
Record probing (impl : JoinImpl) (r : Tuple) (p : ProbeState) : Prop := {
  pr_null : is_keys_has_null p = false;
  pr_tuple : probe_tuple p = r;
  pr_open : finished p = false;
  pr_unmatched : emitted_unmatched p = false;
  pr_filtered : is_left impl = true -> has_filtered p = false;
}.

(** An entry after a probe. *)
Definition entry_kept (impl : JoinImpl) (b b' : BuildState) : Prop :=
  build_tuples b' = build_tuples b /\ (is_left impl = true -> entry_fresh b -> entry_fresh b').

Definition passing (r : Tuple) (p : ProbeState) (b : BuildState) : list Tuple :=
  List.filter (fun l => pass l r) (map snd (drop (index p) (build_tuples b))).

Lemma probe_row impl r p b l ls :
  simple impl -> probing impl r p -> entry_ok r (drop (index p) (build_tuples b)) -> passing r p b = l :: ls ->
  exists p' b', probe_next impl f p (Some b) = Ok (Some (joined l r), p', Some b', impl) /\
    probing impl r p' /\ produced p' = produced_after impl p /\ entry_kept impl b b' /\
    passing r p' b' = ls /\ (index p < index p' <= length (build_tuples b))%nat.
Proof.
  intros Hs [Hn Ht Ho Hu Hf] He Hp. unfold passing in Hp. unfold probe_next. rewrite Hn.
  destruct (scan_ok r (drop (index p) (build_tuples b)) 0 [] He) as (read & rej & Hr0 & Hr). rewrite Hp in Hr.
  destruct Hr as (Hr & Hls & Hle). rewrite length_drop in Hle.
  rewrite drop_drop in Hls. rewrite Nat.add_0_l in Hr.
  destruct impl as [|n k bits|n|]; [| | |done]; unfold inner_probe, left_probe, right_probe; simpl build_tuples;
    rewrite Ht, Hr; cbn [rbind].
  - eexists _, _. split; [reflexivity|]. split; [by constructor|]. split; [done|]. split; [by split|].
    unfold passing. simpl. split; [done|lia].
  - destruct Hs as (-> & -> & Hfn). rewrite (Hr0 Hfn). cbn [insert_all rfold rbind]. rewrite (Hf eq_refl).
    eexists _, _. split; [reflexivity|]. split; [by constructor|]. split; [done|]. split; [by split|].
    unfold passing. simpl. split; [done|lia].
  - eexists _, _. split; [reflexivity|]. split; [by constructor|]. split; [done|]. split; [by split|].
    unfold passing. simpl. split; [done|lia].
Qed.

Lemma probe_last impl r p b :
  simple impl -> probing impl r p -> entry_ok r (drop (index p) (build_tuples b)) -> passing r p b = [] ->
  exists o p' b', probe_next impl f p (Some b) = Ok (o, p', Some b', impl) /\ finished p' = true /\
    option_list o = last_rows impl (produced p) r /\ entry_kept impl b b' /\
    (is_left impl = true -> is_used b' = true).
Proof.
  intros Hs [Hn Ht Ho Hu Hf] He Hp. unfold passing in Hp. unfold probe_next. rewrite Hn.
  destruct (scan_ok r (drop (index p) (build_tuples b)) 0 [] He) as (read & rej & Hr0 & Hr). rewrite Hp in Hr.
  destruct impl as [|n k bits|n|]; [| | |done]; unfold inner_probe, left_probe, right_probe; simpl build_tuples;
    rewrite Ht, Hr; cbn [rbind].
  - eexists _, _, _. split; [reflexivity|]. by repeat split.
  - destruct Hs as (-> & -> & Hfn). rewrite (Hr0 Hfn). cbn [insert_all rfold rbind]. rewrite (Hf eq_refl).
    eexists _, _, _. split; [reflexivity|]. repeat split; try done. by destruct H0 as [_ H0].
  - rewrite Hu. destruct (produced p) eqn:Epr; simpl; eexists _, _, _; (split; [reflexivity|]); simpl; rewrite ?Epr;
      by repeat split.
Qed.

Definition node (st : HashJoinState) (rs : list Tuple) (fail : option DatabaseError) : HashJoin :=
  mk_hash_join st ty lk rk f ll rl (mk_stream [] None) (mk_stream rs fail).

(** The probe loop reads only what a poll does not change. *)
Lemma probe_loop_config st st' L L' R R' m impl ts fail :
  probe_loop (mk_hash_join st ty lk rk f ll rl L R) m impl ts fail =
  probe_loop (mk_hash_join st' ty lk rk f ll rl L' R') m impl ts fail.
Proof.
  revert m impl. induction ts as [|t ts IH]; intros m impl; simpl; [done|].
  destruct (eval_keys rk t) as [buf|]; simpl; [|done].
  change (probe_once (mk_hash_join st ty lk rk f ll rl L R) m impl buf (start_probe buf t))
    with (probe_once (mk_hash_join st' ty lk rk f ll rl L' R') m impl buf (start_probe buf t)).
  destruct (probe_once _ _ _ _ _) as [[[[[x|] m'] impl'] p]|]; simpl; [done| |done].
  destruct (finished p); [apply IH|done].
Qed.

Lemma probe_loop_node st st' q q' fq fq' m impl ts fail :
  probe_loop (node st q fq) m impl ts fail = probe_loop (node st' q' fq') m impl ts fail.
Proof. apply probe_loop_config. Qed.

(** The map after the entry of [k] was probed. *)
Record reprobed (impl : JoinImpl) (m : BuildMap) (k : list DataValue) (m' : BuildMap) : Prop := {
  rp_other : forall k', key_eq k' k = false -> HashMap.get m' k' = HashMap.get m k';
  rp_entry : exists b b', HashMap.get m k = Some b /\ HashMap.get m' k = Some b' /\ entry_kept impl b b' /\
    (is_left impl = true -> is_used b' = true);
  rp_keys : HashMap.keys m' = HashMap.keys m;
  rp_tuples : all_tuples m' = all_tuples m;
}.

Lemma insert_keeps (m : BuildMap) k b b' :
  HashMap.get m k = Some b -> build_tuples b' = build_tuples b ->
  HashMap.keys (HashMap.insert m k b') = HashMap.keys m /\ all_tuples (HashMap.insert m k b') = all_tuples m.
Proof.
  intros Hg Ht. unfold HashMap.insert. rewrite HashMap.keys_upsert, Hg, app_nil_r. split; [done|].
  induction m as [|[k' b0] m IH]; simpl in *; [done|]. destruct (key_eq k k').
  - simplify_eq. simpl. by rewrite Ht.
  - simpl. by rewrite IH.
Qed.

Lemma get_insert_same (m : BuildMap) k (b : BuildState) : HashMap.get (HashMap.insert m k b) k = Some b.
Proof. unfold HashMap.insert. by rewrite HashMap.get_upsert, key_eq_refl. Qed.

Lemma get_insert_other (m : BuildMap) k k' (b : BuildState) :
  key_eq k' k = false -> HashMap.get (HashMap.insert m k b) k' = HashMap.get m k'.
Proof. intros E. unfold HashMap.insert. by rewrite HashMap.get_upsert, E. Qed.

(** Polling an open probe yields the pairs left in its entry, then what the
    join gives at the end of the row, then the rest of the join. *)
Lemma probe_runs impl m buf r p b n :
  simple impl -> probing impl r p -> HashMap.get m buf = Some b ->
  (length (build_tuples b) - index p <= n)%nat -> entry_ok r (drop (index p) (build_tuples b)) ->
  exists m', reprobed impl m buf m' /\
    forall rs fail out fail', runs hash_join_next (node (Probe m' impl buf None) rs fail) (mk_stream out fail') ->
      runs hash_join_next (node (Probe m impl buf (Some p)) rs fail)
        (mk_stream (map (fun l => joined l r) (passing r p b) ++
           last_rows impl (match passing r p b with [] => produced p | _ => produced_after impl p end) r ++ out) fail').
Proof.
  intros Hs. revert m p b. induction n as [|n IH]; intros m p b Hp Hg Hn He;
    destruct (passing r p b) as [|l ls] eqn:Epass.
  1,3: destruct (probe_last impl r p b Hs Hp He Epass) as (o & p' & b' & Hnext & Hfin & Ho & Hk & Hu);
    exists (HashMap.insert m buf b'); destruct (insert_keeps m buf b b' Hg (proj1 Hk)) as [Hkeys Htup];
    (split; [constructor; [intros k' E; by apply get_insert_other|exists b, b'; by rewrite get_insert_same|done|done]|]);
    intros rs fail out fail' Hrest; simpl map; rewrite app_nil_l, <- Ho;
    (assert (probe_once (node (Probe m impl buf (Some p)) rs fail) m impl buf p =
       Ok (o, HashMap.insert m buf b', impl, p')) as Hone
       by (unfold probe_once; rewrite (pr_null _ _ _ Hp), Hg; simpl; by rewrite Hnext));
    destruct o as [t|]; simpl;
    [eapply runs_row; [|exact Hrest]|eapply runs_same; [|exact Hrest]];
    unfold hash_join_next; simpl; unfold probe_phase; rewrite Hone; simpl; rewrite Hfin; first [reflexivity|apply probe_loop_node].
  all: destruct (probe_row impl r p b l ls Hs Hp He Epass) as (p' & b' & Hnext & Hp' & Hpr & Hk & Hls & Hi);
    destruct (insert_keeps m buf b b' Hg (proj1 Hk)) as [Hkeys Htup].
  { lia. }
  destruct (IH (HashMap.insert m buf b') p' b') as (m' & Hm' & Hrun);
    [done|apply get_insert_same|destruct Hk as [-> _]; lia| |].
  { destruct Hk as [-> _]. replace (index p') with (index p + (index p' - index p))%nat by lia.
    rewrite <- drop_drop. by apply Forall_drop. }
  exists m'. split.
  - destruct Hm' as [R1 (b1 & b2 & Hb1 & Hb2 & Hk2 & Hu2) R3 R4]. rewrite get_insert_same in Hb1. simplify_eq.
    constructor.
    + intros k' E. rewrite R1 by done. by apply get_insert_other.
    + exists b, b2. split; [done|]. split; [done|]. split; [|done]. destruct Hk as [Hk Hkf], Hk2 as [Hk2 Hkf2].
      split; [congruence|]. auto.
    + congruence.
    + congruence.
  - intros rs fail out fail' Hrest. specialize (Hrun rs fail out fail' Hrest). rewrite Hls in Hrun. simpl.
    eapply runs_row.
    + unfold hash_join_next. simpl. unfold probe_phase, probe_once. simpl.
      rewrite (pr_null _ _ _ Hp), Hg, Hnext. simpl. rewrite (pr_open _ _ _ Hp'). reflexivity.
    + rewrite Hpr in Hrun. unfold node in Hrun. unfold with_state. simpl.
      assert (produced_after impl p' = produced_after impl p) as Hpa by (destruct impl; simpl; done).
      rewrite Hpa in Hrun. by destruct ls.
Qed.

Lemma probe_none_buf m impl b1 b2 rs fail :
  hash_join_next (node (Probe m impl b1 None) rs fail) = hash_join_next (node (Probe m impl b2 None) rs fail).
Proof. unfold hash_join_next. simpl. unfold probe_phase. apply probe_loop_node. Qed.

(** What a right row contributes. *)
Definition row_out (impl : JoinImpl) (ls : list Tuple) (r : Tuple) : list Tuple :=
  map (fun l => joined l r) (partners ls r) ++
  last_rows impl (match partners ls r with [] => false | _ => true end) r.

Definition hits (k : list DataValue) (r : Tuple) : bool :=
  negb (existsb is_null (keys_of rk r)) && key_eq k (keys_of rk r).

(** The map after right rows [rs] were probed. *)
Record probed_map (impl : JoinImpl) (ls : list Tuple) (rs : list Tuple) (m m' : BuildMap) : Prop := {
  pm_holds : holds m' ls;
  pm_keys : HashMap.keys m' = HashMap.keys m;
  pm_tuples : all_tuples m' = all_tuples m;
  pm_used : is_left impl = true -> forall k b', HashMap.get m' k = Some b' ->
    exists b, HashMap.get m k = Some b /\ (entry_fresh b -> entry_fresh b') /\
      is_used b' = is_used b || existsb (hits k) rs;
}.

Lemma start_step m impl buf r ks rs fail :
  eval_keys rk r = Ok ks ->
  hash_join_next (node (Probe m impl buf None) (r :: rs) fail) =
  hash_join_next (node (Probe m impl ks (Some (start_probe ks r))) rs fail).
Proof.
  intros E. unfold hash_join_next. simpl. unfold probe_phase. simpl. rewrite E. cbn [rbind].
  change (probe_once (node (Probe m impl buf None) (r :: rs) fail)) with
    (probe_once (node (Probe m impl ks (Some (start_probe ks r))) rs fail)).
  destruct (probe_once _ _ _ _ _) as [[[[[x|] m'] impl'] p]|]; simpl; [done| |done].
  destruct (finished p); [apply probe_loop_node|done].
Qed.

(** A right row without an entry. *)
Lemma row_without_entry impl ls m buf r ks rs fail out fail' :
  simple impl -> eval_keys rk r = Ok ks -> partners ls r = [] ->
  (existsb is_null ks = true \/ HashMap.get m ks = None) ->
  runs hash_join_next (node (Probe m impl [] None) rs fail) (mk_stream out fail') ->
  runs hash_join_next (node (Probe m impl buf None) (r :: rs) fail) (mk_stream (row_out impl ls r ++ out) fail').
Proof.
  intros Hs Hk Hp Hno Hrest. unfold row_out. rewrite Hp. simpl.
  assert (probe_once (node (Probe m impl ks (Some (start_probe ks r))) rs fail) m impl ks (start_probe ks r) =
    Ok (match last_rows impl false r with [] => None | x :: _ => Some x end, m, impl,
        probe_at (start_probe ks r) 0 false false true (match last_rows impl false r with [] => false | _ => true end)))
    as Hone.
  { unfold probe_once. simpl. destruct (existsb is_null ks) eqn:En.
    - unfold probe_next. simpl. rewrite En. by destruct impl.
    - destruct Hno as [?|Hg]; [done|]. rewrite Hg. unfold probe_next. simpl. rewrite En. by destruct impl. }
  eapply runs_same; [by apply start_step|].
  destruct (last_rows impl false r) as [|x xs] eqn:El.
  - eapply runs_same; [|exact Hrest]. unfold hash_join_next. simpl. unfold probe_phase. rewrite Hone. simpl.
    apply probe_loop_node.
  - assert (xs = []) as -> by (destruct impl; simpl in El; by simplify_eq). simpl.
    eapply runs_row; [unfold hash_join_next; simpl; unfold probe_phase; rewrite Hone; reflexivity|].
    eapply runs_same; [|exact Hrest]. apply probe_none_buf.
Qed.

Lemma right_row_runs impl ls m r :
  simple impl -> holds m ls -> (exists ks, eval_keys rk r = Ok ks) ->
  Forall (fun l => same_keys l r = true -> exists b, passes f l r = Ok b) ls ->
  exists m', probed_map impl ls [r] m m' /\
    forall buf rs fail out fail', runs hash_join_next (node (Probe m' impl [] None) rs fail) (mk_stream out fail') ->
      runs hash_join_next (node (Probe m impl buf None) (r :: rs) fail) (mk_stream (row_out impl ls r ++ out) fail').
Proof.
  intros Hs Hm [ks Hk] He. assert (keys_of rk r = ks) as Hks by (unfold keys_of; by rewrite Hk).
  destruct (existsb is_null ks) eqn:En.
  { exists m. split.
    - constructor; try done. intros _ k b' Hb. exists b'. split; [done|]. split; [done|]. simpl.
      unfold hits. rewrite Hks, En. simpl. by rewrite orb_false_r.
    - intros buf rs fail out fail'. apply row_without_entry with (ks := ks); try done; [|by left].
      apply partners_null. by rewrite Hks. }
  pose proof (partners_entry m ls r Hm) as Hpart. rewrite Hks in Hpart. specialize (Hpart En).
  destruct (HashMap.get m ks) as [b|] eqn:Eg.
  - assert (probing impl r (start_probe ks r)) as Hpr by (constructor; try done; by destruct impl).
    assert (entry_ok r (drop (index (start_probe ks r)) (build_tuples b))) as Hok.
    { simpl. rewrite drop_0. pose proof (Hm ks) as Hmk. rewrite Eg in Hmk. apply List.Forall_forall. intros e Hin.
      assert (In e.2 (with_keys ls ks)) as Hin2 by (rewrite <- Hmk; by apply in_map).
      apply filter_In in Hin2 as [Hin2 Hkey]. eapply List.Forall_forall in He; [|exact Hin2].
      apply He. unfold same_keys. rewrite Hks, En. done. }
    destruct (probe_runs impl m ks r _ b (length (build_tuples b)) Hs Hpr Eg ltac:(simpl; lia) Hok)
      as (m' & [R1 (b1 & b2 & Hb1 & Hb2 & Hkeep & Hu) R3 R4] & Hrun).
    rewrite Eg in Hb1. apply (inj Some) in Hb1. subst b1. exists m'. split.
    + constructor; [|done|done|].
      * intros k. specialize (Hm k). destruct (key_eq k ks) eqn:E.
        -- rewrite (HashMap.get_cong m' k _ E), Hb2. rewrite (HashMap.get_cong m k _ E), Eg in Hm.
           by rewrite (proj1 Hkeep).
        -- by rewrite R1.
      * intros Hl k b' Hb'. cbn [existsb]. unfold hits. rewrite Hks, En, orb_false_r. simpl.
        destruct (key_eq k ks) eqn:E.
        -- rewrite (HashMap.get_cong m' k _ E), Hb2 in Hb'. apply (inj Some) in Hb'. subst b'. exists b.
           rewrite (HashMap.get_cong m k _ E). split; [done|]. split; [by apply Hkeep|].
           by rewrite orb_true_r, Hu.
        -- rewrite R1 in Hb' by done. exists b'. split; [done|]. split; [done|]. by rewrite orb_false_r.
    + intros buf rs fail out fail' Hrest. eapply runs_same; [by apply start_step|].
      assert (runs hash_join_next (node (Probe m' impl ks None) rs fail) (mk_stream out fail')) as Hrest'
        by (eapply runs_same; [apply probe_none_buf|exact Hrest]).
      specialize (Hrun rs fail out fail' Hrest').
      unfold passing in Hrun. simpl index in Hrun. rewrite drop_0, <- Hpart in Hrun.
      unfold row_out. rewrite <- app_assoc. destruct (partners ls r); [exact Hrun|]. by destruct impl.
  - exists m. split.
    + constructor; try done. intros _ k b' Hb. exists b'. split; [done|]. split; [done|]. simpl. unfold hits.
      rewrite Hks, En. simpl. destruct (key_eq k ks) eqn:E; [|by rewrite orb_false_r].
      by rewrite (HashMap.get_cong m k _ E), Eg in Hb.
    + intros buf rs fail out fail'. apply row_without_entry with (ks := ks); try done. by right.
Qed.

Lemma right_rows_run impl ls rs m :
  simple impl -> holds m ls ->
  Forall (fun r => exists ks, eval_keys rk r = Ok ks) rs ->
  Forall (fun r => Forall (fun l => same_keys l r = true -> exists b, passes f l r = Ok b) ls) rs ->
  exists m', probed_map impl ls rs m m' /\
    forall buf out fail', runs hash_join_next (node (Probe m' impl [] None) [] None) (mk_stream out fail') ->
      runs hash_join_next (node (Probe m impl buf None) rs None)
        (mk_stream (flat_map (row_out impl ls) rs ++ out) fail').
Proof.
  intros Hs Hm Hk. revert m Hm. induction Hk as [|r rs Hr Hk IH]; intros m Hm He.
  - exists m. split.
    + constructor; try done. intros _ k b Hb. exists b. simpl. by rewrite orb_false_r.
    + intros buf out fail' H. eapply runs_same; [apply probe_none_buf|exact H].
  - apply Forall_cons_1 in He as [Her He].
    destruct (right_row_runs impl ls m r Hs Hm Hr Her) as (m1 & [H1 K1 T1 U1] & Hrun1).
    destruct (IH m1 H1 He) as (m2 & [H2 K2 T2 U2] & Hrun2). exists m2. split.
    + constructor; [done|congruence|congruence|]. intros Hl k b' Hb'.
      destruct (U2 Hl k b' Hb') as (b1 & Hb1 & Hf1 & Hu1). destruct (U1 Hl k b1 Hb1) as (b & Hb & Hf & Hu).
      exists b. split; [done|]. split; [auto|]. rewrite Hu1, Hu. simpl. by rewrite orb_false_r, orb_assoc.
    + intros buf out fail' H. simpl. rewrite <- app_assoc. apply Hrun1, Hrun2. done.
Qed.

(** ** The whole join *)

Definition hash_join (ls rs : list Tuple) : HashJoin :=
  mk_hash_join Build ty lk rk f ll rl (mk_stream ls None) (mk_stream rs None).

Lemma join_runs impl ls rs :
  ty <> JoinType.Cross -> lk <> [] -> rk <> [] -> evaluates ls rs ->
  create_join_impl ty ll rl (Z.of_nat (length ls)) = Ok impl -> simple impl ->
  exists m, holds m ls /\ Permutation (all_tuples m) ls /\ HashMap.distinct (HashMap.keys m) /\
    (is_left impl = true -> Forall (fun e => entry_fresh e.2 /\ is_used e.2 = existsb (hits e.1) rs) m) /\
    forall out fail, runs hash_join_next (node (LeftDrop impl (into_iter m) None) [] None) (mk_stream out fail) ->
      runs hash_join_next (hash_join ls rs) (mk_stream (flat_map (row_out impl ls) rs ++ out) fail).
Proof.
  intros Hc Hl Hr (El & Er & Ef) Hi Hs.
  destruct (build_loop_ok ls [] [] 0) as (m & Hb & Hm & Ht & Hu & Hd); try done.
  { intros k. unfold occurrences. simpl. lia. }
  rewrite app_nil_l, Z.add_0_l in *.
  destruct (right_rows_run impl ls rs m Hs Hm Er Ef) as (m' & [H1 K1 T1 U1] & Hrun).
  exists m'. split; [done|]. split; [by rewrite T1|]. split; [by rewrite K1|]. split.
  - intros Hleft. apply List.Forall_forall. intros [k b'] Hin. simpl.
    assert (HashMap.get m' k = Some b') as Hget by (apply distinct_get; [by rewrite K1|done]).
    destruct (U1 Hleft k b' Hget) as (b & Hgb & Hf & Hus).
    assert (exists k0, In (k0, b) m) as [k0 Hin0].
    { clear -Hgb. induction m as [|[k0 b0] m IH]; [done|]. simpl in Hgb. destruct (key_eq k k0).
      - simplify_eq. exists k0. by left.
      - destruct (IH Hgb) as [k1 H1]. exists k1. by right. }
    eapply List.Forall_forall in Hu as [Hub Hfb]; [|exact Hin0]. simpl in *. rewrite Hub in Hus. split; [auto|done].
  - intros out fail Hdrop.
    assert (runs hash_join_next (node (Probe m' impl [] None) [] None) (mk_stream out fail)) as Hend
      by (eapply runs_same; [|exact Hdrop]; done).
    eapply runs_same; [|apply (Hrun [] out fail Hend)].
    assert (init_error (hash_join ls rs) = None) as Hinit.
    { unfold init_error. simpl. destruct ty; try done; destruct lk; try done; by destruct rk. }
    unfold hash_join_next. cbn [join_state hash_join node]. rewrite Hinit. cbn [on_left_keys join_left hash_join rows failure].
    rewrite Hb. cbn [rbind join_ty left_schema_len right_schema_len hash_join]. rewrite Hi. cbn [rbind].
    unfold probe_phase. apply probe_loop_config.
Qed.

(** ** The left rows that found no partner *)

Definition unused_rows (m : list (list DataValue * BuildState)) : list Tuple :=
  flat_map (fun e => if is_used e.2 then [] else map snd (build_tuples e.2)) m.

Lemma drop_tuples_fresh n full i l ts :
  0 <= n -> 0 <= i ->
  drop_tuples (bitmap_with_capacity n) full false ((i, l) :: ts) = Ok (Some (padded full l), ts).
Proof. intros Hn Hi. simpl. by rewrite bitmap_new_empty. Qed.

Lemma left_drop_current n states ts :
  0 <= n -> Forall (fun e => entry_fresh e.2) states -> Forall (fun e : Z * Tuple => 0 <= e.1) ts ->
  runs hash_join_next
    (node (LeftDrop (LeftJoinState ll rl (bitmap_with_capacity n)) states (Some (ts, false))) [] None)
    (mk_stream (map (padded (rl + ll)) (map snd ts ++ unused_rows states)) None).
Proof.
  intros Hn Hs. revert ts. induction Hs as [|[k b] states [Hf Hb] Hs IH]; intros ts Ht.
  - simpl. rewrite app_nil_r. induction Ht as [|[i l] ts Hi Ht IHt]; [by eapply runs_end|].
    eapply runs_row; [|exact IHt]. unfold hash_join_next. simpl. unfold drop_next, left_drop_next.
    rewrite drop_tuples_fresh by done. done.
  - induction Ht as [|[i l] ts Hi Ht IHt].
    + simpl. rewrite map_app. destruct (is_used b) eqn:Eu.
      * simpl. eapply runs_same; [|apply (IH [])]; [|constructor].
        unfold hash_join_next. simpl. unfold drop_next, left_drop_next. simpl. by rewrite Eu.
      * simpl in Hf, Hb. remember (build_tuples b) as bt eqn:Ebt. destruct Hb as [|[i l] ts Hi Hb].
        -- simpl. eapply runs_same; [|apply (IH [])]; [|constructor].
           unfold hash_join_next. simpl. unfold drop_next, left_drop_next. simpl. by rewrite Eu, <- Ebt.
        -- rewrite <- map_app. simpl. eapply runs_row; [|apply (IH ts Hb)].
           unfold hash_join_next. simpl. unfold drop_next, left_drop_next. cbn [drop_tuples rbind drop_states].
           rewrite Eu, <- Ebt, Hf, drop_tuples_fresh by done. done.
    + eapply runs_row; [|exact IHt]. unfold hash_join_next. simpl. unfold drop_next, left_drop_next.
      rewrite drop_tuples_fresh by done. done.
Qed.

Lemma left_drop_runs n states :
  0 <= n -> Forall (fun e => entry_fresh e.2) states ->
  runs hash_join_next (node (LeftDrop (LeftJoinState ll rl (bitmap_with_capacity n)) states None) [] None)
    (mk_stream (map (padded (rl + ll)) (unused_rows states)) None).
Proof.
  intros Hn Hs. eapply runs_same; [|apply (left_drop_current n states []); [done|done|constructor]]. done.
Qed.

(** The unused entries hold the rows no right row has the keys of. *)
Lemma unused_rows_partners m ls rs :
  holds m ls -> HashMap.distinct (HashMap.keys m) ->
  Forall (fun e => is_used e.2 = existsb (hits e.1) rs) m ->
  unused_rows m = List.filter (fun l => negb (existsb (same_keys l) rs)) (all_tuples m).
Proof.
  intros Hm Hd Hu. assert (Forall (fun e => map snd (build_tuples e.2) = with_keys ls e.1 /\
    is_used e.2 = existsb (hits e.1) rs) m) as H.
  { apply List.Forall_forall. intros [k b] Hin. simpl. split.
    - specialize (Hm k). by rewrite (distinct_get m k b Hd Hin) in Hm.
    - eapply List.Forall_forall in Hu; [|exact Hin]. exact Hu. }
  clear Hm Hd Hu. induction H as [|[k b] m [Ht Hu] _ IH]; [done|]. simpl in *.
  rewrite List.filter_app, <- IH. f_equal. rewrite Hu, Ht. unfold with_keys. clear.
  induction ls as [|l ls IH]; simpl; [by destruct (existsb _ _)|]. destruct (key_eq k (keys_of lk l)) eqn:E; [|exact IH].
  simpl. assert (existsb (same_keys l) rs = existsb (hits k) rs) as ->.
  { clear -E. induction rs as [|r rs IH]; [done|]. simpl. rewrite IH. f_equal. unfold same_keys, hits. f_equal.
    rewrite (key_eq_sym _ (keys_of lk l)). by rewrite (key_eq_cong_l _ _ _ E). }
  destruct (existsb (hits k) rs); simpl; [exact IH|by f_equal].
Qed.
End Spec.

(** * The claims *)

Section Claims.
Context {OF : OrderedFloat} {CH : Chrono} {SF : ScalarFunctions} {HO : HashOrder}.

Lemma inner_join_runs lk rk f ll rl ls rs :
  lk <> [] -> rk <> [] -> evaluates lk rk f ls rs ->
  runs hash_join_next (hash_join lk rk f ll rl JoinType.Inner ls rs)
    (mk_stream (flat_map (inner_rows lk rk f ls) rs) None).
Proof.
  intros Hl Hr He.
  destruct (join_runs lk rk f ll rl JoinType.Inner InnerJoinState ls rs) as (m & _ & _ & _ & _ & Hrun); try done.
  assert (flat_map (inner_rows lk rk f ls) rs = flat_map (row_out lk rk f InnerJoinState ls) rs ++ []) as ->.
  { rewrite app_nil_r. apply flat_map_ext. intros r. unfold row_out. simpl. by rewrite app_nil_r. }
  apply Hrun. by eapply runs_end.
Qed.

(** C6: the inner hash join is the nested-loop join: for key lists that are not
    empty, when the keys evaluate on every row and the residual condition on
    every pair with equal keys, the node emits for each right row, in order,
    the left rows whose keys equal it (no key null) and which satisfy the
    condition, in the order of the left input. *)
Theorem hash_inner_join lk rk f ll rl ls rs :
  lk <> [] -> rk <> [] -> evaluates lk rk f ls rs ->
  runs hash_join_next (hash_join lk rk f ll rl JoinType.Inner ls rs)
    (mk_stream (flat_map (inner_rows lk rk f ls) rs) None).
Proof. apply inner_join_runs. Qed.

Lemma right_join_runs lk rk f ll rl ls rs :
  lk <> [] -> rk <> [] -> evaluates lk rk f ls rs ->
  runs hash_join_next (hash_join lk rk f ll rl JoinType.RightOuter ls rs)
    (mk_stream (flat_map (right_rows lk rk f ll ls) rs) None).
Proof.
  intros Hl Hr He.
  destruct (join_runs lk rk f ll rl JoinType.RightOuter (RightJoinState ll) ls rs) as (m & _ & _ & _ & _ & Hrun); try done.
  assert (flat_map (right_rows lk rk f ll ls) rs = flat_map (row_out lk rk f (RightJoinState ll) ls) rs ++ []) as ->.
  { rewrite app_nil_r. apply flat_map_ext. intros r. unfold row_out, right_rows.
    destruct (partners lk rk f ls r); simpl; [done|by rewrite app_nil_r]. }
  apply Hrun. by eapply runs_end.
Qed.

(** The right outer hash join is its definition, under the same
    conditions: each right row is joined with its partners, or with nulls when
    it has none. *)
Theorem hash_right_join lk rk f ll rl ls rs :
  lk <> [] -> rk <> [] -> evaluates lk rk f ls rs ->
  runs hash_join_next (hash_join lk rk f ll rl JoinType.RightOuter ls rs)
    (mk_stream (flat_map (right_rows lk rk f ll ls) rs) None).
Proof. apply right_join_runs. Qed.

Lemma left_join_runs lk rk ll rl ls rs :
  lk <> [] -> rk <> [] -> evaluates lk rk None ls rs ->
  exists lonely,
    runs hash_join_next (hash_join lk rk None ll rl JoinType.LeftOuter ls rs)
      (mk_stream (flat_map (inner_rows lk rk None ls) rs ++ map (padded (rl + ll)) lonely) None) /\
    Permutation lonely (List.filter (fun l => negb (existsb (same_keys lk rk l) rs)) ls).
Proof.
  intros Hl Hr He. set (impl := LeftJoinState ll rl (bitmap_with_capacity (Z.of_nat (length ls)))).
  destruct (join_runs lk rk None ll rl JoinType.LeftOuter impl ls rs) as (m & Hm & Ht & Hd & Hf & Hrun); try done.
  specialize (Hf eq_refl). exists (unused_rows (into_iter m)). split.
  - assert (flat_map (inner_rows lk rk None ls) rs = flat_map (row_out lk rk None impl ls) rs) as ->.
    { apply flat_map_ext. intros r. unfold row_out. simpl. by rewrite app_nil_r. }
    apply Hrun. apply left_drop_runs; [lia|]. rewrite into_iter_perm.
    eapply Forall_impl; [exact Hf|]. by intros e [? _].
  - assert (Permutation (unused_rows (into_iter m)) (unused_rows m)) as -> by (by apply Permutation_flat_map, into_iter_perm).
    rewrite (unused_rows_partners lk rk m ls rs Hm Hd).
    + by apply filter_perm.
    + eapply Forall_impl; [exact Hf|]. by intros e [_ ?].
Qed.

(** The left outer hash join without a residual condition is its
    definition: the pairs of the inner join, then, in some order, the left rows
    without a partner, padded with nulls to the width of both sides. *)
Theorem hash_left_join lk rk ll rl ls rs :
  lk <> [] -> rk <> [] -> evaluates lk rk None ls rs ->
  exists lonely,
    runs hash_join_next (hash_join lk rk None ll rl JoinType.LeftOuter ls rs)
      (mk_stream (flat_map (inner_rows lk rk None ls) rs ++ map (padded (rl + ll)) lonely) None) /\
    Permutation lonely (List.filter (fun l => negb (existsb (same_keys lk rk l) rs)) ls).
Proof. apply left_join_runs. Qed.
End Claims.
(** * Outer joins with a residual condition *)

Section Deviation.
Context {SF : ScalarFunctions}.

Definition int_col (position : nat) : ScalarExpression := ScalarExpression.ColumnRef LogicalType.Integer position.
Definition pair_row (k x : Z) : Tuple := mk_tuple None [DataValue.Int32 k; DataValue.Int32 x].
Definition quad_row (a b c d : DataValue) : Tuple := mk_tuple None [a; b; c; d].

(** [left.x < right.y] over rows of two columns each. *)
Definition less_than : ScalarExpression :=
  match binary_create LogicalType.Integer BinaryOperator.Lt with
  | Ok ev => ScalarExpression.Binary BinaryOperator.Lt (int_col 1) (int_col 3) (Some ev) LogicalType.Boolean
  | Err _ => ScalarExpression.Constant DataValue.Null
  end.
End Deviation.

Lemma into_iter_one {HO : HashOrder} {K V : Type} (e : K * V) : into_iter [e] = [e].
Proof. apply Permutation_singleton_r, into_iter_perm. Qed.

(** Poll a concrete join to its end. *)
Ltac poll_join := cbv -[into_iter]; rewrite ?into_iter_one; cbv -[into_iter]; reflexivity.
Ltac run_join := repeat (eapply runs_row; [poll_join|]); eapply runs_end; poll_join.

(** Outer joins on equal keys and a residual condition emit rows their
    definition does not have. A left row with a partner is emitted again,
    padded with nulls, when a later right row with the same key fails the
    condition; a full join also emits a right row padded with nulls for every
    rejected pair, though it has a partner. *)
Theorem outer_join_spurious_rows {OF : OrderedFloat} {CH : Chrono} {SF : ScalarFunctions} {HO : HashOrder} :
  let one := DataValue.Int32 1 in
  let pair := quad_row one (DataValue.Int32 5) one (DataValue.Int32 9) in
  let lonely := quad_row one (DataValue.Int32 5) DataValue.Null DataValue.Null in
  let right_alone x := quad_row DataValue.Null DataValue.Null one (DataValue.Int32 x) in
  partners [int_col 0] [int_col 0] (Some less_than) [pair_row 1 5] (pair_row 1 9) = [pair_row 1 5] /\
  runs hash_join_next
    (hash_join [int_col 0] [int_col 0] (Some less_than) 2 2 JoinType.LeftOuter [pair_row 1 5] [pair_row 1 9; pair_row 1 3])
    (mk_stream [pair; lonely] None) /\
  runs hash_join_next
    (hash_join [int_col 0] [int_col 0] (Some less_than) 2 2 JoinType.Full [pair_row 1 5; pair_row 1 10] [pair_row 1 9])
    (mk_stream [pair; right_alone 9; quad_row one (DataValue.Int32 10) DataValue.Null DataValue.Null] None).
Proof.
  intros one pair lonely right_alone. split; [reflexivity|]. split; run_join.
Qed.

(** ** Witnesses *)

Definition wit_left : list Tuple := [pair_row 1 5; pair_row 2 6].
Definition wit_right : list Tuple := [pair_row 1 9; mk_tuple None [DataValue.Null; DataValue.Int32 4]].

Lemma wit_evaluates f : f = None \/ f = Some less_than -> evaluates [int_col 0] [int_col 0] f wit_left wit_right.
Proof. intros [-> | ->]; repeat constructor; try (by eexists); intros _; by eexists. Qed.

Lemma hash_inner_join_witness :
  runs hash_join_next (hash_join [int_col 0] [int_col 0] (Some less_than) 2 2 JoinType.Inner wit_left wit_right)
    (mk_stream (flat_map (inner_rows [int_col 0] [int_col 0] (Some less_than) wit_left) wit_right) None) /\
  flat_map (inner_rows [int_col 0] [int_col 0] (Some less_than) wit_left) wit_right =
    [quad_row (DataValue.Int32 1) (DataValue.Int32 5) (DataValue.Int32 1) (DataValue.Int32 9)].
Proof.
  split; [|reflexivity]. apply (hash_inner_join [int_col 0] [int_col 0] (Some less_than) 2 2); [done|done|].
  apply wit_evaluates. by right.
Defined.

Lemma hash_right_join_witness :
  runs hash_join_next (hash_join [int_col 0] [int_col 0] (Some less_than) 2 2 JoinType.RightOuter wit_left wit_right)
    (mk_stream (flat_map (right_rows [int_col 0] [int_col 0] (Some less_than) 2 wit_left) wit_right) None) /\
  length (flat_map (right_rows [int_col 0] [int_col 0] (Some less_than) 2 wit_left) wit_right) = 2%nat.
Proof.
  split; [|reflexivity]. apply (hash_right_join [int_col 0] [int_col 0] (Some less_than) 2 2); [done|done|].
  apply wit_evaluates. by right.
Defined.

Lemma hash_left_join_witness :
  exists lonely,
    runs hash_join_next (hash_join [int_col 0] [int_col 0] None 2 2 JoinType.LeftOuter wit_left wit_right)
      (mk_stream (flat_map (inner_rows [int_col 0] [int_col 0] None wit_left) wit_right ++
        map (padded (2 + 2)) lonely) None) /\
    Permutation lonely (List.filter (fun l => negb (existsb (same_keys [int_col 0] [int_col 0] l) wit_right)) wit_left).
Proof.
  apply (hash_left_join [int_col 0] [int_col 0] 2 2); [done|done|]. apply wit_evaluates. by left.
Defined.
