(* ===== verification/NestedLoop.v ===== *)
(** The nested-loop join (src/src/execution/dql/join/nested_loop_join.rs): for
    every row of the outer input the inner input is built again and read to its
    end; a full join finally reads it once more for the rows no outer row
    matched. The theorems give the rows of each join type, errors included,
    and compare them with those of the hash join. *)

From S2P Require Import Prelude MachineInt Types Operators Reader Value Chrono Evaluators Casts Expr.
From S2P Require Import Row Collections Exec Aggregate HashJoin.
From Stdlib Require Import ZArith Lia.
From stdpp Require Import base tactics list list_numbers numbers option sorting.
Local Open Scope Z_scope.

Section Node.
Context {OF : OrderedFloat} {CH : Chrono} {SF : ScalarFunctions}.

Record EqualCondition := mk_equal {
  eq_left_keys : list ScalarExpression; eq_right_keys : list ScalarExpression; left_len : nat; right_len : nat;
}.

(** The loop over the zipped keys. *)
Fixpoint equals_loop (on_left_keys on_right_keys : list ScalarExpression) (left_tuple right_tuple : Tuple)
    : res bool :=
  match on_left_keys, on_right_keys with
  | left_expr :: lks, right_expr :: rks =>
      let? l := eval left_expr (Some (values left_tuple)) in
      let? r := eval right_expr (Some (values right_tuple)) in
      if dv_eq l r then equals_loop lks rks left_tuple right_tuple else Ok false
  | _, _ => Ok true
  end.

Definition equals (self : EqualCondition) (left_tuple right_tuple : Tuple) : res bool :=
  match eq_left_keys self with
  | [] => Ok true
  | _ => equals_loop (eq_left_keys self) (eq_right_keys self) left_tuple right_tuple
  end.

Record ActiveLeftState := mk_active {
  left_tuple : Tuple; active_right : Stream; right_index : Z; has_matched : bool; first_matches : list Z;
}.

Inductive NestedLoopJoinState :=
| PullLeft (right_bitmap : option RowBitmap)
| ScanRight (active_left : ActiveLeftState) (right_bitmap : option RowBitmap)
| EmitRightUnmatched (right_input : Stream) (right_bitmap : option RowBitmap) (right_emit_index : Z)
| NestedEnd.

(** [right_plan] is what the right-hand plan produces when it is built anew. *)
Record NestedLoopJoin := mk_nested {
  right_plan : Stream; nested_ty : JoinType; nested_filter : option ScalarExpression; eq_cond : EqualCondition;
  nested_left : Stream; nested_state : NestedLoopJoinState;
}.

(** [JoinCondition::On]'s fields, empty for [JoinCondition::None]. *)
Definition nested_loop_join (on : list (ScalarExpression * ScalarExpression)) (filter : option ScalarExpression)
    (join_type : JoinType) (left_input : Stream) (left_schema_len : nat) (right_input : Stream) (right_schema_len : nat)
    : NestedLoopJoin :=
  let on_left_keys := map fst on in
  let on_right_keys := map snd on in
  match join_type with
  | JoinType.RightOuter =>
      mk_nested left_input join_type filter (mk_equal on_right_keys on_left_keys right_schema_len left_schema_len)
        right_input (PullLeft None)
  | _ =>
      mk_nested right_input join_type filter (mk_equal on_left_keys on_right_keys left_schema_len right_schema_len)
        left_input (PullLeft None)
  end.

Definition emit_tuple (left_tuple right_tuple : Tuple) (ty : JoinType) (is_matched : bool) : option Tuple :=
  let left_len := length (values left_tuple) in
  let vs := values left_tuple ++ values right_tuple in
  let vs :=
    match ty with
    | JoinType.Inner | JoinType.Cross => if is_matched then vs else []
    | JoinType.LeftOuter | JoinType.Full =>
        if is_matched then vs else take left_len vs ++ map (fun _ => DataValue.Null) (drop left_len vs)
    | JoinType.RightOuter =>
        if is_matched then vs else map (fun _ => DataValue.Null) (take left_len vs) ++ drop left_len vs
    end in
  match vs with
  | [] => None
  | _ => Some (mk_tuple (match pk left_tuple with Some p => Some p | None => pk right_tuple end) vs)
  end.

Definition is_right (ty : JoinType) : bool := match ty with JoinType.RightOuter => true | _ => false end.
Definition is_full (ty : JoinType) : bool := match ty with JoinType.Full => true | _ => false end.

(** The outer row and an inner row, the columns of the left input first. *)
Definition emit_pair (ty : JoinType) (outer inner : Tuple) (is_matched : bool) : option Tuple :=
  if is_right ty then emit_tuple inner outer ty is_matched else emit_tuple outer inner ty is_matched.

(** The [match] on the condition: the row, and whether the pair matched. *)
Definition match_pair (self : NestedLoopJoin) (outer inner : Tuple) : res (option Tuple * bool) :=
  let? equal := equals (eq_cond self) outer inner in
  match nested_filter self, equal with
  | None, true => Ok (emit_pair (nested_ty self) outer inner true, true)
  | Some filter, true =>
      let vs := if is_right (nested_ty self) then values inner ++ values outer else values outer ++ values inner in
      let? value := eval filter (Some vs) in
      match value with
      | DataValue.Boolean true => Ok (emit_pair (nested_ty self) outer inner true, true)
      | DataValue.Boolean false | DataValue.Null => Ok (None, false)
      | _ => Err InvalidType
      end
  | _, _ => Ok (None, false)
  end.

(** Noting the row number of a match of a full join. *)
Definition note_match (self : NestedLoopJoin) (idx : Z) (first_matches : list Z) (right_bitmap : option RowBitmap)
    : res (list Z * option RowBitmap) :=
  if is_full (nested_ty self) then
    match right_bitmap with
    | Some bits => let? bits := bitmap_insert bits idx in Ok (first_matches, Some bits)
    | None => Ok (first_matches ++ [idx], None)
    end
  else Ok (first_matches, right_bitmap).

(** The [while] loop of [ScanRight], over the inner rows still to come. *)
Fixpoint scan_right (self : NestedLoopJoin) (outer : Tuple) (rs : list Tuple) (fail : option DatabaseError)
    (right_index : Z) (has_matched : bool) (first_matches : list Z) (right_bitmap : option RowBitmap)
    : res (option Tuple * ActiveLeftState * option RowBitmap) :=
  match rs with
  | [] =>
      match fail with
      | Some e => Err e
      | None => Ok (None, mk_active outer (mk_stream [] None) right_index has_matched first_matches, right_bitmap)
      end
  | right_tuple :: rs' =>
      let? (tuple, matched) := match_pair self outer right_tuple in
      match tuple with
      | Some tuple =>
          let? (first_matches, right_bitmap) := note_match self right_index first_matches right_bitmap in
          Ok (Some tuple, mk_active outer (mk_stream rs' fail) (right_index + 1) (has_matched || matched) first_matches,
              right_bitmap)
      | None => scan_right self outer rs' fail (right_index + 1) (has_matched || matched) first_matches right_bitmap
      end
  end.

(** The end of the inner input: the bitmap of a full join is completed, and an
    outer row without a partner is emitted with nulls. *)
Definition finish_left (self : NestedLoopJoin) (a : ActiveLeftState) (right_bitmap : option RowBitmap)
    : res (option Tuple * option RowBitmap) :=
  let? right_bitmap :=
    (if is_full (nested_ty self) then
       let bits := match right_bitmap with Some bits => bits | None => bitmap_with_capacity (right_index a) end in
       let? bits := insert_all bits (first_matches a) in Ok (Some bits)
     else Ok right_bitmap) in
  let nulls := mk_tuple None (replicate (right_len (eq_cond self)) DataValue.Null) in
  let tuple :=
    match nested_ty self with
    | JoinType.LeftOuter | JoinType.RightOuter | JoinType.Full =>
        if has_matched a then None else emit_pair (nested_ty self) (left_tuple a) nulls false
    | _ => None
    end in
  Ok (tuple, right_bitmap).

Definition with_nested_state (self : NestedLoopJoin) (left_input : Stream) (s : NestedLoopJoinState) : NestedLoopJoin :=
  mk_nested (right_plan self) (nested_ty self) (nested_filter self) (eq_cond self) left_input s.

(** The [while] loop of [EmitRightUnmatched]. *)
Fixpoint emit_unmatched (self : NestedLoopJoin) (rs : list Tuple) (fail : option DatabaseError)
    (right_bitmap : option RowBitmap) (right_emit_index : Z) : poll NestedLoopJoin :=
  match rs with
  | [] =>
      match fail with
      | Some e => Err e
      | None => Ok (None, with_nested_state self (nested_left self) NestedEnd)
      end
  | right_tuple :: rs' =>
      let? is_unmatched :=
        match right_bitmap with
        | Some bits => let? c := bitmap_contains bits right_emit_index in Ok (negb c)
        | None => Ok true
        end in
      if is_unmatched then
        Ok (Some (mk_tuple (pk right_tuple) (replicate (left_len (eq_cond self)) DataValue.Null ++ values right_tuple)),
            with_nested_state self (nested_left self)
              (EmitRightUnmatched (mk_stream rs' fail) right_bitmap (right_emit_index + 1)))
      else emit_unmatched self rs' fail right_bitmap (right_emit_index + 1)
  end.

(** [PullLeft], over the outer rows still to come. *)
Fixpoint pull_left (self : NestedLoopJoin) (ls : list Tuple) (fail : option DatabaseError)
    (right_bitmap : option RowBitmap) : poll NestedLoopJoin :=
  match ls with
  | [] =>
      match fail with
      | Some e => Err e
      | None =>
          let self := with_nested_state self (mk_stream [] None) NestedEnd in
          if is_full (nested_ty self) then
            emit_unmatched self (rows (right_plan self)) (failure (right_plan self)) right_bitmap 0
          else Ok (None, with_nested_state self (mk_stream [] None) NestedEnd)
      end
  | outer :: ls' =>
      let? (o, a, right_bitmap) :=
        scan_right self outer (rows (right_plan self)) (failure (right_plan self)) 0 false [] right_bitmap in
      match o with
      | Some tuple => Ok (Some tuple, with_nested_state self (mk_stream ls' fail) (ScanRight a right_bitmap))
      | None =>
          let? (o, right_bitmap) := finish_left self a right_bitmap in
          match o with
          | Some tuple => Ok (Some tuple, with_nested_state self (mk_stream ls' fail) (PullLeft right_bitmap))
          | None => pull_left self ls' fail right_bitmap
          end
      end
  end.

Definition nested_loop_next (self : NestedLoopJoin) : poll NestedLoopJoin :=
  let l := nested_left self in
  match nested_state self with
  | PullLeft right_bitmap => pull_left self (rows l) (failure l) right_bitmap
  | ScanRight a right_bitmap =>
      let? (o, a, right_bitmap) :=
        scan_right self (left_tuple a) (rows (active_right a)) (failure (active_right a)) (right_index a)
          (has_matched a) (first_matches a) right_bitmap in
      match o with
      | Some tuple => Ok (Some tuple, with_nested_state self l (ScanRight a right_bitmap))
      | None =>
          let? (o, right_bitmap) := finish_left self a right_bitmap in
          match o with
          | Some tuple => Ok (Some tuple, with_nested_state self l (PullLeft right_bitmap))
          | None => pull_left self (rows l) (failure l) right_bitmap
          end
      end
  | EmitRightUnmatched right_input right_bitmap right_emit_index =>
      emit_unmatched self (rows right_input) (failure right_input) right_bitmap right_emit_index
  | NestedEnd => Ok (None, self)
  end.
End Node.

(** * The joins by definition *)

Section Spec.
Context {OF : OrderedFloat} {CH : Chrono} {SF : ScalarFunctions}.

(** The key pairs are equal, null being equal to null. *)
Fixpoint all_equal (on : list (ScalarExpression * ScalarExpression)) (l r : Tuple) : res bool :=
  match on with
  | [] => Ok true
  | (a, b) :: on' =>
      let? v := eval a (Some (values l)) in
      let? w := eval b (Some (values r)) in
      if dv_eq v w then all_equal on' l r else Ok false
  end.

Definition swap_pair {A B : Type} (p : A * B) : B * A := (p.2, p.1).

(** Whether two rows are joined; the outer row's keys are evaluated first. *)
Definition verdict (ty : JoinType) (on : list (ScalarExpression * ScalarExpression)) (f : option ScalarExpression)
    (outer inner : Tuple) : res bool :=
  let? equal := (if is_right ty then all_equal (map swap_pair on) outer inner else all_equal on outer inner) in
  if equal then if is_right ty then passes f inner outer else passes f outer inner else Ok false.

Definition paired (ty : JoinType) (outer inner : Tuple) : Tuple :=
  if is_right ty then joined inner outer else joined outer inner.

(** The outer row padded with nulls to the width of both inputs. *)
Definition alone (ty : JoinType) (inner_len : nat) (outer : Tuple) : Tuple :=
  if is_right ty then full_right_row inner_len outer
  else mk_tuple (pk outer) (values outer ++ replicate inner_len DataValue.Null).

Definition preserves_outer (ty : JoinType) : bool :=
  match ty with JoinType.LeftOuter | JoinType.RightOuter | JoinType.Full => true | _ => false end.

Context (ty : JoinType) (on : list (ScalarExpression * ScalarExpression)) (f : option ScalarExpression).
Context (outer_len inner_len : nat) (R : Stream).

(** The joined rows of one outer row, read from the rows [rs] of the inner input. *)
Definition pairs_of (outer : Tuple) (rs : list Tuple) : Stream :=
  flow (fun r => let? b := verdict ty on f outer r in Ok (if b then Some (paired ty outer r) else None))
    (mk_stream rs (failure R)).

Definition outer_rows (outer : Tuple) (has_matched : bool) (rs : list Tuple) : Stream :=
  let s := pairs_of outer rs in
  match rows s, failure s with
  | [], None => mk_stream (if preserves_outer ty && negb has_matched then [alone ty inner_len outer] else []) None
  | _, _ => s
  end.

(** The inner rows no outer row is joined with. *)
Definition hit (outer r : Tuple) : bool := match verdict ty on f outer r with Ok b => b | Err _ => false end.

Definition rest_rows (seen : list Tuple) (rs : list Tuple) : Stream :=
  flow (fun r => Ok (if existsb (fun l => hit l r) seen then None else Some (full_right_row outer_len r)))
    (mk_stream rs (failure R)).

Fixpoint join_rows (seen ls : list Tuple) (fail : option DatabaseError) : Stream :=
  match ls with
  | [] => match fail with
          | Some e => mk_stream [] (Some e)
          | None => if is_full ty then rest_rows seen (rows R) else mk_stream [] None
          end
  | l :: ls' => chain (outer_rows l false (rows R)) (join_rows (seen ++ [l]) ls' fail)
  end.
End Spec.

(** * The node *)

Lemma insert_all_spec b idx :
  bitmap_ok b -> Forall (fun i => 0 <= i < bitmap_len b) idx ->
  exists b', insert_all b idx = Ok b' /\ bitmap_ok b' /\ bitmap_len b' = bitmap_len b /\
    forall j, 0 <= j -> exists c, bitmap_contains b j = Ok c /\ bitmap_contains b' j = Ok (c || existsb (Z.eqb j) idx).
Proof.
  intros Hok Hi. revert b Hok Hi. induction idx as [|i idx IH]; intros b Hok Hi.
  - exists b. split; [done|]. split; [done|]. split; [done|]. intros j Hj. cbn.
    destruct (Z.lt_ge_cases j (bitmap_len b)).
    + destruct (bitmap_contains_bit b j Hok ltac:(lia)) as (block & _ & ->). eexists. by rewrite orb_false_r.
    + exists false. unfold bitmap_contains. by rewrite (proj2 (Z.leb_le _ _)).
  - apply Forall_cons in Hi as [Hi Hr].
    destruct (bitmap_insert_spec b i 0 Hok Hi ltac:(lia)) as (_ & b1 & E1 & Hok1 & L1 & _).
    destruct (IH b1 Hok1) as (b' & E' & Hok' & L' & Hb'); [by rewrite L1|].
    exists b'. split; [cbn; by rewrite E1|]. split; [done|]. split; [congruence|]. intros j Hj.
    destruct (bitmap_insert_spec b i j Hok Hi Hj) as (_ & b2 & E2 & _ & _ & c & Hc & Hc2).
    rewrite E1 in E2. apply Ok_inj in E2. subst b2. exists c. split; [done|].
    destruct (Hb' j Hj) as (c' & Hc' & ->). rewrite Hc2 in Hc'. apply Ok_inj in Hc'. subst c'.
    f_equal. cbn. rewrite (Z.eqb_sym j i). destruct (i =? j), c, (existsb _ idx); done.
Qed.

Section Runs.
Context {OF : OrderedFloat} {CH : Chrono} {SF : ScalarFunctions}.
Context (ty : JoinType) (on : list (ScalarExpression * ScalarExpression)) (f : option ScalarExpression).
Context (outer_len inner_len : nat) (R : Stream).

Definition condition : EqualCondition :=
  if is_right ty then mk_equal (map snd on) (map fst on) outer_len inner_len
  else mk_equal (map fst on) (map snd on) outer_len inner_len.

Definition node_at (left_input : Stream) (s : NestedLoopJoinState) : NestedLoopJoin :=
  mk_nested R ty f condition left_input s.

Notation judge := (verdict ty on f).
Notation hits := (hit ty on f).

Lemma condition_left_len : left_len condition = outer_len.
Proof. unfold condition. by destruct (is_right ty). Qed.
Lemma condition_right_len : right_len condition = inner_len.
Proof. unfold condition. by destruct (is_right ty). Qed.

Lemma equals_loop_pairs (ps : list (ScalarExpression * ScalarExpression)) l r :
  equals_loop (map fst ps) (map snd ps) l r = all_equal ps l r.
Proof. induction ps as [|[a b] ps IH]; [done|]. cbn. by rewrite IH. Qed.

Lemma equals_on l r :
  equals condition l r = if is_right ty then all_equal (map swap_pair on) l r else all_equal on l r.
Proof.
  unfold equals, condition. destruct (is_right ty); cbn [eq_left_keys eq_right_keys].
  - rewrite <- equals_loop_pairs, !map_map. cbn. destruct on; done.
  - rewrite <- equals_loop_pairs. destruct on; done.
Qed.

Lemma emit_joined l r : values l ++ values r <> [] -> emit_tuple l r ty true = Some (joined l r).
Proof.
  intros H. unfold emit_tuple, joined.
  replace (match ty with JoinType.Inner | JoinType.Cross => values l ++ values r | _ => values l ++ values r end)
    with (values l ++ values r) by (by destruct ty).
  destruct ty; destruct (values l ++ values r) eqn:E; done.
Qed.

Lemma match_pair_spec left_input s l r :
  values l <> [] ->
  match_pair (node_at left_input s) l r =
    let? b := judge l r in Ok (if b then Some (paired ty l r) else None, b).
Proof.
  intros Hl. assert (emit_pair ty l r true = Some (paired ty l r)) as He.
  { unfold emit_pair, paired. destruct (is_right ty); apply emit_joined; intros E;
      apply app_eq_nil in E; tauto. }
  unfold match_pair, verdict. cbn [node_at eq_cond nested_filter nested_ty]. rewrite equals_on.
  destruct (if is_right ty then _ else _) as [b|e]; cbn [rbind]; [|done].
  destruct b; [|by destruct f]. rewrite He. destruct f as [e|]; [|by destruct (is_right ty)].
  unfold passes, filter_values. destruct (is_right ty); destruct (eval e _) as [v|]; cbn [rbind]; try done;
    destruct v as [|?|[]|?|?|?|?|?|?|?|?|?|?|?|?|?|?|?|?]; done.
Qed.

Lemma emit_alone l :
  values l <> [] -> preserves_outer ty = true ->
  emit_pair ty l (mk_tuple None (replicate inner_len DataValue.Null)) false = Some (alone ty inner_len l).
Proof.
  intros Hl Hp.
  assert (forall n, map (fun _ => DataValue.Null) (replicate n DataValue.Null) = replicate n DataValue.Null) as Hm.
  { intros n. induction n as [|n IH]; [done|]. cbn. by rewrite IH. }
  destruct l as [p vs]. cbn in Hl. unfold emit_pair, emit_tuple, alone, full_right_row. cbn [values pk].
  destruct ty; try done; cbn [is_right values pk]; rewrite ?take_app_length, ?drop_app_length, ?Hm.
  - destruct vs; [done|]. by destruct p.
  - by destruct inner_len, vs.
  - destruct vs; [done|]. by destruct p.
Qed.

(** Only the configuration matters to the loops. *)
Lemma scan_right_config L s L' s' l rs fail k hm fm bm :
  scan_right (node_at L s) l rs fail k hm fm bm = scan_right (node_at L' s') l rs fail k hm fm bm.
Proof. revert k hm fm bm. induction rs as [|r rs IH]; intros k hm fm bm; [done|]. cbn [scan_right].
  change (match_pair (node_at L' s')) with (match_pair (node_at L s)).
  destruct (match_pair _ l r) as [[[t|] b]|]; cbn [rbind]; [done|apply IH|done]. Qed.

Lemma emit_unmatched_config L s s' rs fail bm k :
  emit_unmatched (node_at L s) rs fail bm k = emit_unmatched (node_at L s') rs fail bm k.
Proof.
  revert k. induction rs as [|r rs IH]; intros k; [done|]. cbn [emit_unmatched].
  destruct (match bm with Some _ => _ | None => _ end) as [[]|]; cbn [rbind]; [done|apply IH|done].
Qed.

Lemma pull_left_config L s L' s' ls fail bm :
  pull_left (node_at L s) ls fail bm = pull_left (node_at L' s') ls fail bm.
Proof.
  revert bm. induction ls as [|l ls IH]; intros bm; [done|]. cbn [pull_left].
  rewrite (scan_right_config L s L' s').
  change (right_plan (node_at L s)) with (right_plan (node_at L' s')).
  destruct (scan_right _ _ _ _ _ _ _ _) as [[[[t|] a] b]|]; cbn [rbind]; [done| |done].
  change (finish_left (node_at L s)) with (finish_left (node_at L' s')).
  destruct (finish_left _ _ _) as [[[t|] b']|]; cbn [rbind]; [done|apply IH|done].
Qed.

(** The next outer row is scanned from the start. *)
Lemma pull_is_scan l ls fail bm :
  nested_loop_next (node_at (mk_stream (l :: ls) fail) (PullLeft bm)) =
  nested_loop_next (node_at (mk_stream ls fail) (ScanRight (mk_active l R 0 false []) bm)).
Proof.
  cbn [nested_loop_next node_at nested_state nested_left rows failure pull_left left_tuple active_right right_index
       has_matched first_matches].
  rewrite (scan_right_config _ _ (mk_stream ls fail) (ScanRight (mk_active l R 0 false []) bm)).
  cbn [right_plan node_at].
  destruct (scan_right _ _ _ _ _ _ _ _) as [[[[t|] a] b]|]; cbn [rbind]; [done| |done].
  match goal with |- context [finish_left ?n] => change (finish_left n) with
    (finish_left (node_at (mk_stream ls fail) (ScanRight (mk_active l R 0 false []) bm))) end.
  destruct (finish_left _ _ _) as [[[t|] b']|]; cbn [rbind]; [done|apply pull_left_config|done].
Qed.

(** ** The bitmap of a full join *)

Definition seen_by (ls : list Tuple) (r : Tuple) : bool := existsb (fun l => hits l r) ls.

Definition set_in (bm : option RowBitmap) (i : nat) : Prop :=
  exists b, bm = Some b /\ bitmap_contains b (Z.of_nat i) = Ok true.

Definition bitmap_fits (bm : option RowBitmap) : Prop :=
  forall b, bm = Some b -> bitmap_ok b /\ bitmap_len b = Z.of_nat (length (rows R)).

(** Between outer rows: the rows joined with those before. *)
Record marks (seen : list Tuple) (bm : option RowBitmap) : Prop := {
  marks_none : bm = None -> seen = [];
  marks_fits : bitmap_fits bm;
  marks_set : forall i r, rows R !! i = Some r -> set_in bm i <-> seen_by seen r = true;
}.

(** While [outer] is scanned, its [k] first inner rows read. *)
Record scanned (seen : list Tuple) (outer : Tuple) (k : nat) (fm : list Z) (bm : option RowBitmap) : Prop := {
  scanned_none : bm = None -> seen = [];
  scanned_fits : bitmap_fits bm;
  scanned_range : Forall (fun i => 0 <= i < Z.of_nat (length (rows R))) fm;
  scanned_set : forall i r, rows R !! i = Some r ->
    set_in bm i \/ Z.of_nat i ∈ fm <-> seen_by seen r = true \/ ((i < k)%nat /\ hits outer r = true);
}.

Lemma marks_scanned seen outer bm : marks seen bm -> scanned seen outer 0 [] bm.
Proof.
  intros [H1 H2 H3]. split; try done. intros i r Hi. rewrite (H3 i r Hi), elem_of_nil. intuition lia.
Qed.

Lemma scanned_miss seen outer k fm bm r :
  rows R !! k = Some r -> hits outer r = false -> scanned seen outer k fm bm -> scanned seen outer (S k) fm bm.
Proof.
  intros Hk Hh [H1 H2 H3 H4]. split; try done. intros i r' Hi. rewrite (H4 i r' Hi).
  destruct (decide (i = k)) as [->|Hne].
  - rewrite Hk in Hi. injection Hi as <-. rewrite Hh. intuition (try done; try lia).
  - assert ((i < k)%nat <-> (i < S k)%nat) as -> by lia. done.
Qed.

Lemma scanned_hit L s seen outer k fm bm r :
  is_full ty = true -> rows R !! k = Some r -> hits outer r = true -> scanned seen outer k fm bm ->
  exists fm' bm', note_match (node_at L s) (Z.of_nat k) fm bm = Ok (fm', bm') /\ scanned seen outer (S k) fm' bm'.
Proof.
  intros Hf Hk Hh [H1 H2 H3 H4]. unfold note_match. cbn [node_at nested_ty]. rewrite Hf.
  pose proof (lookup_lt_Some _ _ _ Hk) as Hlt. destruct bm as [b|].
  - destruct (H2 b eq_refl) as [Hok Hlen].
    destruct (bitmap_insert_spec b (Z.of_nat k) 0 Hok ltac:(lia) ltac:(lia)) as (_ & b' & Eb & Hok' & Hlen' & _).
    exists fm, (Some b'). rewrite Eb. split; [done|]. split; [done| |done|].
    + intros b0 [= <-]. split; [done|congruence].
    + intros i r' Hi.
      destruct (bitmap_insert_spec b (Z.of_nat k) (Z.of_nat i) Hok ltac:(lia) ltac:(lia)) as (_ & b2 & E2 & _ & _ & c & Hc & Hc').
      rewrite Eb in E2. apply Ok_inj in E2. subst b2.
      assert (set_in (Some b') i <-> i = k \/ set_in (Some b) i) as ->.
      { unfold set_in. split.
        - intros (b0 & [= <-] & H). rewrite Hc' in H. apply Ok_inj, orb_true_iff in H as [H | ->]; [left; lia|right; eauto].
        - intros [-> | (b0 & [= <-] & H)]; exists b'; (split; [done|]); rewrite Hc'; [by rewrite Z.eqb_refl|].
          rewrite H in Hc. apply Ok_inj in Hc. subst c. by rewrite orb_true_r. }
      pose proof (H4 i r' Hi) as H4i. destruct (decide (i = k)) as [->|Hne].
      * rewrite Hk in Hi. injection Hi as <-. intuition lia.
      * assert ((i < S k)%nat <-> (i < k)%nat) as -> by lia. tauto.
  - exists (fm ++ [Z.of_nat k]), None. split; [done|]. split; [done|done| |].
    + apply Forall_app. split; [done|]. apply Forall_singleton. lia.
    + intros i r' Hi. rewrite elem_of_app, list_elem_of_singleton.
      assert (set_in None i \/ Z.of_nat i ∈ fm \/ Z.of_nat i = Z.of_nat k <->
        i = k \/ (set_in None i \/ Z.of_nat i ∈ fm)) as ->.
      { assert (Z.of_nat i = Z.of_nat k <-> i = k) as -> by lia. tauto. }
      rewrite (H4 i r' Hi). destruct (decide (i = k)) as [->|Hne].
      * rewrite Hk in Hi. injection Hi as <-. intuition lia.
      * assert ((i < k)%nat <-> (i < S k)%nat) as -> by lia. tauto.
Qed.

Lemma scanned_finish seen outer fm bm :
  scanned seen outer (length (rows R)) fm bm ->
  exists b', insert_all (match bm with Some b => b | None => bitmap_with_capacity (Z.of_nat (length (rows R))) end) fm = Ok b' /\
    marks (seen ++ [outer]) (Some b').
Proof.
  intros [H1 H2 H3 H4].
  set (b := match bm with Some b => b | None => _ end).
  assert (bitmap_ok b /\ bitmap_len b = Z.of_nat (length (rows R))) as [Hok Hlen].
  { subst b. destruct bm as [b|]; [by apply H2|]. split; [apply bitmap_new_ok; lia|done]. }
  destruct (insert_all_spec b fm Hok) as (b' & E & Hok' & Hlen' & Hc); [by rewrite Hlen|].
  exists b'. split; [done|]. split; [done| |].
  - intros b0 [= <-]. split; [done|congruence].
  - intros i r Hi. pose proof (lookup_lt_Some _ _ _ Hi) as Hlt. destruct (Hc (Z.of_nat i) ltac:(lia)) as (c & Hb & Hb').
    unfold seen_by. rewrite existsb_app. cbn [existsb]. rewrite orb_false_r, orb_true_iff.
    assert (set_in (Some b') i <-> set_in bm i \/ Z.of_nat i ∈ fm) as ->.
    { assert (set_in bm i <-> c = true) as ->.
      { unfold set_in. subst b. destruct bm as [b|].
        - split; [intros (b0 & [= <-] & H); rewrite H in Hb; by apply Ok_inj in Hb|intros ->; eauto].
        - rewrite bitmap_new_empty in Hb by lia. apply Ok_inj in Hb. subst c. split; [by intros (b0 & [=] & _)|done]. }
      assert (existsb (Z.eqb (Z.of_nat i)) fm = true <-> Z.of_nat i ∈ fm) as <-.
      { rewrite existsb_exists. split; [intros (j & Hj & Ej); apply Z.eqb_eq in Ej; subst j; by apply list_elem_of_In|].
        intros Hj. exists (Z.of_nat i). split; [by apply list_elem_of_In|apply Z.eqb_refl]. }
      rewrite <- orb_true_iff. unfold set_in. split; [intros (b0 & [= <-] & H)|intros H; exists b'; split; [done|]].
      - rewrite H in Hb'. by apply Ok_inj in Hb'.
      - by rewrite Hb', H. }
    rewrite (H4 i r Hi). unfold seen_by. tauto.
Qed.

Lemma unmatched_runs L seen bm rs done :
  marks seen bm -> rows R = done ++ rs ->
  runs nested_loop_next (node_at L (EmitRightUnmatched (mk_stream rs (failure R)) bm (Z.of_nat (length done))))
    (rest_rows ty on f outer_len R seen rs).
Proof.
  intros Hm. revert done. induction rs as [|r rs IH]; intros done HR.
  - unfold rest_rows, flow. cbn. destruct (failure R) eqn:E; [by apply runs_fail; cbn; rewrite ?E|].
    eapply runs_end. cbn. reflexivity.
  - assert (rows R !! length done = Some r) as Hr by (rewrite HR; apply list_lookup_middle; done).
    specialize (IH (done ++ [r])). rewrite length_app in IH. cbn in IH.
    replace (Z.of_nat (length done + 1)) with (Z.of_nat (length done) + 1) in IH by lia.
    specialize (IH ltac:(by rewrite HR, <- app_assoc)).
    unfold rest_rows, flow in *. cbn [flow_rows rows failure].
    change (existsb (fun l => hits l r) seen) with (seen_by seen r).
    assert (exists b, (match bm with Some bits => let? c := bitmap_contains bits (Z.of_nat (length done)) in Ok (negb c)
      | None => Ok true end) = Ok (E := DatabaseError) b /\ b = negb (seen_by seen r)) as (b & Eb & ->).
    { pose proof (marks_set _ _ Hm _ _ Hr) as Hs. destruct bm as [b|].
      - destruct (marks_fits _ _ Hm b eq_refl) as [Hok Hlen]. pose proof (lookup_lt_Some _ _ _ Hr).
        destruct (bitmap_contains_bit b (Z.of_nat (length done)) Hok ltac:(lia)) as (blk & _ & E). rewrite E.
        eexists. split; [done|]. f_equal. destruct (Z.testbit _ _), (seen_by seen r); try done.
        + symmetry. apply Hs. by exists b.
        + destruct (proj2 Hs eq_refl) as (b0 & [= <-] & Hb). rewrite E in Hb. by apply Ok_inj in Hb.
      - eexists. split; [done|]. by rewrite (marks_none _ _ Hm eq_refl). }
    destruct (seen_by seen r) eqn:Es; cbn [negb] in Eb.
    + eapply runs_same; [|exact IH]. cbn [nested_loop_next node_at nested_state emit_unmatched rows failure].
      rewrite Eb. apply emit_unmatched_config.
    + eapply runs_row; [|rewrite stream_eta; exact IH].
      cbn [nested_loop_next node_at nested_state emit_unmatched rows failure]. rewrite Eb. cbn [rbind].
      unfold full_right_row. rewrite <- condition_left_len. done.
Qed.

(** ** Scanning the inner input *)

(** What the bitmap has to satisfy only matters to a full join. *)
Notation full_marks seen bm := (is_full ty = true -> marks seen bm).
Notation full_scanned seen outer k fm bm := (is_full ty = true -> scanned seen outer k fm bm).

Lemma finish_runs L a seen bm after :
  values (left_tuple a) <> [] -> right_index a = Z.of_nat (length (rows R)) ->
  active_right a = mk_stream [] None ->
  full_scanned seen (left_tuple a) (length (rows R)) (first_matches a) bm ->
  (forall bm', full_marks (seen ++ [left_tuple a]) bm' -> runs nested_loop_next (node_at L (PullLeft bm')) after) ->
  runs nested_loop_next (node_at L (ScanRight a bm))
    (chain (mk_stream (if preserves_outer ty && negb (has_matched a) then [alone ty inner_len (left_tuple a)] else []) None) after).
Proof.
  intros Hv Hri Hr Hs Hafter.
  assert (exists bm', finish_left (node_at L (ScanRight a bm)) a bm =
    Ok (if preserves_outer ty && negb (has_matched a) then Some (alone ty inner_len (left_tuple a)) else None, bm') /\
    full_marks (seen ++ [left_tuple a]) bm') as (bm' & Ef & Hm).
  { assert (exists bm', (if is_full ty then
       let bits := match bm with Some bits => bits | None => bitmap_with_capacity (right_index a) end in
       let? bits := insert_all bits (first_matches a) in Ok (Some bits)
     else Ok bm) = Ok bm' /\ full_marks (seen ++ [left_tuple a]) bm') as (bm' & Eb & Hm).
    { destruct (is_full ty) eqn:Ef; [|by exists bm].
      destruct (scanned_finish seen (left_tuple a) (first_matches a) bm (Hs eq_refl)) as (b' & Eb & Hm).
      exists (Some b'). rewrite Hri. cbn zeta. rewrite Eb. done. }
    exists bm'. split; [|done]. unfold finish_left. cbn [node_at nested_ty]. cbv zeta in Eb |- *. rewrite Eb. cbn [rbind].
    pose proof (emit_alone (left_tuple a) Hv) as He.
    assert (right_len (eq_cond (node_at L (ScanRight a bm))) = inner_len) as ->.
    { apply condition_right_len. }
    destruct (preserves_outer ty) eqn:Ep; [specialize (He eq_refl)|];
      destruct (has_matched a); cbn [andb negb]; rewrite <- ?He; destruct ty; done. }
  specialize (Hafter bm' Hm). destruct after as [rs' fail'].
  assert (nested_loop_next (node_at L (ScanRight a bm)) =
    if preserves_outer ty && negb (has_matched a)
    then Ok (Some (alone ty inner_len (left_tuple a)), node_at L (PullLeft bm'))
    else nested_loop_next (node_at L (PullLeft bm'))) as E.
  { cbn [nested_loop_next node_at nested_state nested_left]. rewrite Hr. cbn [scan_right rows failure rbind].
    destruct a as [l ar k hm fm]. cbn [left_tuple right_index has_matched first_matches active_right] in *. subst ar.
    change (mk_nested R ty f condition) with node_at. rewrite Ef. cbn [rbind].
    destruct (preserves_outer ty && negb hm); [done|]. apply pull_left_config. }
  destruct (preserves_outer ty && negb (has_matched a)).
  - cbn. by eapply runs_row.
  - cbn. eapply runs_same; [exact E|]. done.
Qed.

Lemma scan_runs L outer seen after rs done hm fm bm :
  values outer <> [] -> rows R = done ++ rs ->
  full_scanned seen outer (length done) fm bm ->
  (forall bm', full_marks (seen ++ [outer]) bm' -> runs nested_loop_next (node_at L (PullLeft bm')) after) ->
  runs nested_loop_next
    (node_at L (ScanRight (mk_active outer (mk_stream rs (failure R)) (Z.of_nat (length done)) hm fm) bm))
    (chain (let s := pairs_of ty on f R outer rs in
            match rows s, failure s with
            | [], None => mk_stream (if preserves_outer ty && negb hm then [alone ty inner_len outer] else []) None
            | _, _ => s
            end) after).
Proof.
  intros Hv. revert done hm fm bm. induction rs as [|r rs IH]; intros done hm fm bm HR Hs Hafter.
  - rewrite app_nil_r in HR. unfold pairs_of, flow. cbn [flow_rows rows failure].
    destruct (failure R) as [e|] eqn:Ef.
    + cbn. apply runs_fail. done.
    + apply (finish_runs L (mk_active outer (mk_stream [] None) (Z.of_nat (length done)) hm fm) seen bm after); try done;
        cbn; by rewrite HR.
  - assert (rows R !! length done = Some r) as Hr by (rewrite HR; by apply list_lookup_middle).
    assert (rows R = (done ++ [r]) ++ rs) as HR' by (by rewrite HR, <- app_assoc).
    assert (Z.of_nat (length (done ++ [r])) = Z.of_nat (length done) + 1) as Hlen by (rewrite length_app; cbn; lia).
    assert (length (done ++ [r]) = S (length done)) as Hlen' by (rewrite length_app; cbn; lia).
    set (a := mk_active outer (mk_stream (r :: rs) (failure R)) (Z.of_nat (length done)) hm fm).
    pose proof (match_pair_spec L (ScanRight a bm) outer r Hv) as Hmp.
    unfold pairs_of, flow in *. cbn [rows failure] in IH |- *.
    set (g := fun r0 : Tuple => let? b := judge outer r0 in Ok (if b then Some (paired ty outer r0) else None)) in *.
    cbn [flow_rows].
    assert (g r = let? b := judge outer r in Ok (if b then Some (paired ty outer r) else None)) as -> by done.
    clearbody g. destruct (judge outer r) as [[]|e] eqn:Ej; cbn [rbind] in Hmp |- *.
    + assert (exists fm' bm', note_match (node_at L (ScanRight a bm)) (Z.of_nat (length done)) fm bm = Ok (fm', bm') /\
        full_scanned seen outer (S (length done)) fm' bm') as (fm' & bm' & En & Hs').
      { destruct (is_full ty) eqn:Ef.
        - destruct (scanned_hit L (ScanRight a bm) seen outer (length done) fm bm r) as (fm' & bm' & En & H'); try done.
          + unfold hit. by rewrite Ej.
          + by apply Hs.
          + by exists fm', bm'.
        - exists fm, bm. split; [|done]. unfold note_match. cbn [node_at nested_ty]. by rewrite Ef. }
      specialize (IH (done ++ [r]) true fm' bm' HR'). rewrite Hlen, Hlen' in IH. specialize (IH Hs' Hafter).
      rewrite andb_false_r in IH.
      assert (forall s : Stream, match rows s, failure s with [], None => mk_stream [] None | _, _ => s end = s) as Hnone
        by (by intros [[] []]).
      rewrite Hnone in IH.
      unfold chain in IH |- *. cbn [rows failure].
      destruct (flow_rows g rs (failure R)) as [ts ft]. cbn [rows failure] in IH |- *.
      assert (nested_loop_next (node_at L (ScanRight a bm)) = Ok (Some (paired ty outer r),
        node_at L (ScanRight (mk_active outer (mk_stream rs (failure R)) (Z.of_nat (length done) + 1) true fm') bm'))) as En'.
      { cbn [nested_loop_next node_at nested_state nested_left]. subst a.
        cbn [left_tuple active_right right_index has_matched first_matches rows failure scan_right].
        change (mk_nested R ty f condition) with node_at. rewrite Hmp. cbn [rbind]. rewrite En. cbn [rbind].
        by rewrite orb_true_r. }
      destruct ft as [e|]; cbn [app] in IH |- *; (eapply runs_row; [exact En'|exact IH]).
    + assert (full_scanned seen outer (S (length done)) fm bm) as Hs'.
      { intros Ef. eapply scanned_miss; [done| |by apply Hs]. unfold hit. by rewrite Ej. }
      specialize (IH (done ++ [r]) hm fm bm HR'). rewrite Hlen, Hlen' in IH. specialize (IH Hs' Hafter).
      eapply runs_same; [|exact IH]. cbn [nested_loop_next node_at nested_state nested_left]. subst a.
      cbn [left_tuple active_right right_index has_matched first_matches rows failure scan_right].
      change (mk_nested R ty f condition) with node_at. rewrite Hmp. cbn [rbind]. rewrite orb_false_r.
      rewrite (scan_right_config _ _ L (ScanRight (mk_active outer (mk_stream rs (failure R)) (Z.of_nat (length done) + 1) hm fm) bm)).
      destruct (scan_right _ _ _ _ _ _ _ _) as [[[[t|] a'] b']|]; cbn [rbind]; [done| |done].
      match goal with |- context [finish_left ?n] => change (finish_left n) with (finish_left (node_at L NestedEnd)) end.
      match goal with |- context [finish_left ?n _ _ = _] => idtac | |- _ => idtac end.
      change (finish_left (node_at L (ScanRight (mk_active outer (mk_stream rs (failure R)) (Z.of_nat (length done) + 1) hm fm) bm)))
        with (finish_left (node_at L NestedEnd)).
      destruct (finish_left _ _ _) as [[[t|] b'']|]; cbn [rbind]; [done|apply pull_left_config|done].
    + cbn. apply runs_fail. cbn [nested_loop_next node_at nested_state nested_left]. subst a.
      cbn [left_tuple active_right right_index has_matched first_matches rows failure scan_right].
      change (mk_nested R ty f condition) with node_at. by rewrite Hmp.
Qed.

(** The whole join, from the next outer row on. *)
Lemma nested_runs ls fail seen bm :
  Forall (fun l => values l <> []) ls -> full_marks seen bm ->
  runs nested_loop_next (node_at (mk_stream ls fail) (PullLeft bm)) (join_rows ty on f outer_len inner_len R seen ls fail).
Proof.
  intros Hv. revert seen bm. induction Hv as [|l ls Hl Hv IH]; intros seen bm Hm.
  - cbn. destruct fail as [e|]; [by apply runs_fail|]. destruct (is_full ty) eqn:Ef.
    + eapply runs_same; [|apply (unmatched_runs (mk_stream [] None) seen bm (rows R) [] (Hm eq_refl) eq_refl)].
      transitivity (if is_full ty then emit_unmatched (node_at (mk_stream [] None) NestedEnd) (rows R) (failure R) bm 0
        else Ok (None, node_at (mk_stream [] None) NestedEnd)); [done|]. rewrite Ef. apply emit_unmatched_config.
    + eapply runs_end. transitivity (if is_full ty then
        emit_unmatched (node_at (mk_stream [] None) NestedEnd) (rows R) (failure R) bm 0
        else Ok (None, node_at (mk_stream [] None) NestedEnd)); [done|]. by rewrite Ef.
  - cbn [join_rows]. eapply runs_same; [apply pull_is_scan|].
    pose proof (scan_runs (mk_stream ls fail) l seen (join_rows ty on f outer_len inner_len R (seen ++ [l]) ls fail)
      (rows R) [] false [] bm Hl eq_refl) as H.
    rewrite stream_eta in H. apply H; [|intros bm'; apply IH].
    intros Ef. by apply marks_scanned, Hm.
Qed.
End Runs.

(** * Without errors *)

Section Total.
Context {OF : OrderedFloat} {CH : Chrono} {SF : ScalarFunctions}.
Context (ty : JoinType) (on : list (ScalarExpression * ScalarExpression)) (f : option ScalarExpression).
Context (outer_len inner_len : nat) (outs ins : list Tuple) (ok : Tuple -> Tuple -> bool).
Context (Hok : Forall (fun o => Forall (fun i => verdict ty on f o i = Ok (ok o i)) ins) outs).
Context (Hfull : is_full ty = false).

(** The rows of one outer row. *)
Definition rows_for (o : Tuple) : list Tuple :=
  match List.filter (ok o) ins with
  | [] => if preserves_outer ty then [alone ty inner_len o] else []
  | ps => map (paired ty o) ps
  end.

Lemma pairs_total o :
  Forall (fun i => verdict ty on f o i = Ok (ok o i)) ins ->
  pairs_of ty on f (mk_stream ins None) o ins = mk_stream (map (paired ty o) (List.filter (ok o) ins)) None.
Proof.
  intros Hi. unfold pairs_of, flow. cbn [rows failure].
  set (g := fun r => let? b := verdict ty on f o r in Ok (if b then Some (paired ty o r) else None)).
  assert (Forall (fun i => g i = Ok (if ok o i then Some (paired ty o i) else None)) ins) as Hg
    by (eapply Forall_impl; [exact Hi|]; intros i Ei; subst g; cbn; by rewrite Ei).
  clearbody g. clear Hi Hok. induction Hg as [|i ins' Ei _ IH]; [done|].
  cbn [flow_rows List.filter]. rewrite Ei. destruct (ok o i); by rewrite IH.
Qed.

Lemma join_rows_total seen :
  join_rows ty on f outer_len inner_len (mk_stream ins None) seen outs None = mk_stream (flat_map rows_for outs) None.
Proof.
  revert seen. pose proof Hok as H. clear Hok. induction H as [|o outs' Ho _ IH]; intros seen; cbn [join_rows flat_map]; [by rewrite Hfull|].
  rewrite IH. unfold outer_rows. cbn [rows]. rewrite (pairs_total o Ho). cbn [rows failure]. unfold rows_for.
  destruct (List.filter (ok o) ins); cbn; [|done]. rewrite andb_true_r. by destruct (preserves_outer ty).
Qed.
End Total.

(** ** Keys *)

Section Keys.
Context {OF : OrderedFloat} {CH : Chrono} {SF : ScalarFunctions}.

Lemma all_equal_keys on l r ks ks' :
  eval_keys (map fst on) l = Ok ks -> eval_keys (map snd on) r = Ok ks' -> all_equal on l r = Ok (key_eq ks ks').
Proof.
  revert ks ks'. induction on as [|[a b] on IH]; intros ks ks' El Er; cbn in El, Er.
  - apply Ok_inj in El, Er. by subst.
  - apply rbind_ok in El as (v & Ev & El). apply rbind_ok in El as (vs & Evs & El). apply Ok_inj in El. subst ks.
    apply rbind_ok in Er as (w & Ew & Er). apply rbind_ok in Er as (ws & Ews & Er). apply Ok_inj in Er. subst ks'.
    cbn. rewrite Ev, Ew. cbn [rbind]. rewrite (IH vs ws Evs Ews). cbn.
    unfold key_eq at 2. unfold value_key_eq. by destruct (dv_eq v w).
Qed.

Context (on : list (ScalarExpression * ScalarExpression)) (f : option ScalarExpression) (ls rs : list Tuple).
Notation lk := (map fst on).
Notation rk := (map snd on).
Context (He : evaluates lk rk f ls rs) (Hn : Forall (fun r => existsb is_null (keys_of rk r) = false) rs).

(** With no null key on the right, both joins join the same pairs. *)
Lemma verdict_keys ty l r :
  l ∈ ls -> r ∈ rs ->
  (if is_right ty then verdict ty on f r l else verdict ty on f l r) = Ok (same_keys lk rk l r && pass f l r).
Proof.
  intros Hl Hr. destruct He as (Hel & Her & Hep).
  pose proof (proj1 (Forall_forall _ _) Hel l Hl) as [ks El]. pose proof (proj1 (Forall_forall _ _) Her r Hr) as [ks' Er].
  pose proof (proj1 (Forall_forall _ _) Hn r Hr) as Hnr.
  pose proof (proj1 (Forall_forall _ _) (proj1 (Forall_forall _ _) Hep r Hr) l Hl) as Hp. cbn in Hp.
  assert (same_keys lk rk l r = key_eq ks' ks) as Hs.
  { unfold same_keys. rewrite Hnr. cbn. unfold keys_of. by rewrite El, Er. }
  assert ((if is_right ty then all_equal (map swap_pair on) r l else all_equal on l r) = Ok (same_keys lk rk l r)) as Ha.
  { rewrite Hs. destruct (is_right ty); [|by rewrite (all_equal_keys on l r ks ks' El Er), key_eq_sym].
    apply all_equal_keys; by rewrite map_map. }
  unfold verdict, pass. destruct (is_right ty); rewrite Ha; cbn [rbind];
    (destruct (same_keys lk rk l r); [|done]); destruct (Hp eq_refl) as [b ->]; done.
Qed.
End Keys.

Lemma flat_map_exchange {A B C : Type} (g : A -> B -> list C) (xs : list A) (ys : list B) :
  Permutation (flat_map (fun x => flat_map (g x) ys) xs) (flat_map (fun y => flat_map (fun x => g x y) xs) ys).
Proof.
  induction xs as [|x xs IH]; cbn; [by induction ys|]. rewrite IH. clear IH.
  induction ys as [|y ys IH]; cbn; [done|]. rewrite <- IH, !app_assoc. apply Permutation_app_tail.
  rewrite <- !app_assoc. apply Permutation_app_head, Permutation_app_comm.
Qed.

Lemma map_filter_flat {A B : Type} (p : A -> bool) (g : A -> B) (xs : list A) :
  map g (List.filter p xs) = flat_map (fun x => if p x then [g x] else []) xs.
Proof. induction xs as [|x xs IH]; [done|]. cbn. destruct (p x); cbn; by rewrite IH. Qed.

(** * The claims *)

Section Claims.
Context {OF : OrderedFloat} {CH : Chrono} {SF : ScalarFunctions} {HO : HashOrder}.

(** The rows of a join of two inputs. *)
Definition join_spec (on : list (ScalarExpression * ScalarExpression)) (f : option ScalarExpression) (ty : JoinType)
    (L : Stream) (ll : nat) (R : Stream) (rl : nat) : Stream :=
  if is_right ty then join_rows ty on f rl ll L [] (rows R) (failure R)
  else join_rows ty on f ll rl R [] (rows L) (failure L).

Lemma nested_loop_runs on f ty L ll R rl :
  Forall (fun t => values t <> []) (rows (if is_right ty then R else L)) ->
  runs nested_loop_next (nested_loop_join on f ty L ll R rl) (join_spec on f ty L ll R rl).
Proof.
  intros Hv.
  assert (nested_loop_join on f ty L ll R rl =
    if is_right ty then node_at ty on f rl ll L (mk_stream (rows R) (failure R)) (PullLeft None)
    else node_at ty on f ll rl R (mk_stream (rows L) (failure L)) (PullLeft None)) as ->.
  { rewrite !stream_eta. by destruct ty. }
  unfold join_spec. destruct (is_right ty); (apply nested_runs; [done|]); intros _; split; try done;
    intros i r _; (split; [by intros (b & [=] & _)|done]).
Qed.

(** C8: the nested-loop join node, polled until it ends, produces the rows of
    the join by definition, for every join type, whatever the inputs produce
    and whether evaluation fails: for each outer row the pairs the condition
    accepts, in the order of the inner input; the row alone, padded with nulls,
    when there is none and the join preserves it; for a full join then the
    inner rows no outer row was joined with; and the stream ends with the first
    error of the inputs or of the condition. *)
Theorem nested_loop_join_spec on f ty L ll R rl :
  Forall (fun t => values t <> []) (rows (if is_right ty then R else L)) ->
  runs nested_loop_next (nested_loop_join on f ty L ll R rl) (join_spec on f ty L ll R rl).
Proof. apply nested_loop_runs. Qed.

Lemma inner_agree on f ls rs :
  evaluates (map fst on) (map snd on) f ls rs -> Forall (fun r => existsb is_null (keys_of (map snd on) r) = false) rs ->
  Forall (fun o => Forall (fun i => verdict JoinType.Inner on f o i =
    Ok (same_keys (map fst on) (map snd on) o i && pass f o i)) rs) ls.
Proof.
  intros He Hn. apply Forall_forall. intros l Hl. apply Forall_forall. intros r Hr.
  by apply (verdict_keys on f ls rs He Hn JoinType.Inner).
Qed.

(** The rows of the hash join, by left rows. *)
Lemma inner_rows_exchange lk rk f ls rs :
  Permutation (flat_map (inner_rows lk rk f ls) rs)
    (flat_map (fun l => map (joined l) (List.filter (fun r => same_keys lk rk l r && pass f l r) rs)) ls).
Proof.
  set (g := fun l r => if same_keys lk rk l r && pass f l r then [joined l r] else []).
  assert (flat_map (inner_rows lk rk f ls) rs = flat_map (fun r => flat_map (fun l => g l r) ls) rs) as ->
    by (apply flat_map_ext; intros r; apply (map_filter_flat _ (fun l => joined l r))).
  assert (flat_map (fun l => map (joined l) (List.filter (fun r => same_keys lk rk l r && pass f l r) rs)) ls =
    flat_map (fun l => flat_map (g l) rs) ls) as -> by (apply flat_map_ext; intros l; apply map_filter_flat).
  by rewrite flat_map_exchange.
Qed.

(** Rows with partners first, then the others. *)
Lemma lonely_last {A B : Type} (g : A -> list B) (h : A -> B) (xs : list A) :
  Permutation (flat_map (fun x => match g x with [] => [h x] | ys => ys end) xs)
    (flat_map g xs ++ map h (List.filter (fun x => match g x with [] => true | _ => false end) xs)).
Proof.
  induction xs as [|x xs IH]; cbn; [done|]. rewrite IH. destruct (g x); cbn; [|by rewrite <- app_assoc].
  apply Permutation_middle.
Qed.

Lemma filter_nonempty {A : Type} (p : A -> bool) (xs : list A) :
  match List.filter p xs with [] => true | _ => false end = negb (existsb p xs).
Proof. induction xs as [|x xs IH]; [done|]. cbn. by destruct (p x). Qed.


(** A null key joins a null key in a nested-loop join and not in a hash join,
    so a query hint that chooses the algorithm changes the answer. *)
Theorem nested_loop_joins_null_keys :
  let t := mk_tuple None [DataValue.Null; DataValue.Int32 1] in
  let k := int_col 0 in
  runs nested_loop_next
    (nested_loop_join [(k, k)] None JoinType.Inner (mk_stream [t] None) 2 (mk_stream [t] None) 2)
    (mk_stream [joined t t] None) /\
  runs hash_join_next (hash_join [k] [k] None 2 2 JoinType.Inner [t] [t]) (mk_stream [] None).
Proof.
  intros t k. split.
  - apply (nested_loop_runs [(k, k)] None JoinType.Inner (mk_stream [t] None) 2 (mk_stream [t] None) 2).
    by repeat constructor.
  - apply (inner_join_runs [k] [k] None 2 2 [t] [t]); [done|done|]. repeat constructor; by eexists.
Qed.
End Claims.

(** A full join of two rows with two, one pair joined. *)
Lemma nested_loop_join_spec_witness :
  let on := [(int_col 0, int_col 0)] in
  let ls := [pair_row 1 5; pair_row 2 6] in
  let rs := [pair_row 1 9; pair_row 3 4] in
  let null := DataValue.Null in
  runs nested_loop_next
    (nested_loop_join on (Some less_than) JoinType.Full (mk_stream ls None) 2 (mk_stream rs None) 2)
    (mk_stream [quad_row (DataValue.Int32 1) (DataValue.Int32 5) (DataValue.Int32 1) (DataValue.Int32 9);
                quad_row (DataValue.Int32 2) (DataValue.Int32 6) null null;
                quad_row null null (DataValue.Int32 3) (DataValue.Int32 4)] None).
Proof.
  intros on ls rs null.
  apply (nested_loop_join_spec on (Some less_than) JoinType.Full (mk_stream ls None) 2 (mk_stream rs None) 2).
  by repeat constructor.
Defined.

