(* ===== verification/Apply.v ===== *)
(** Subqueries (src/src/execution/dql/mark_apply.rs, scalar_apply.rs,
    scalar_subquery.rs): for each row of the left input the right plan is built
    again, perhaps with an index probe computed from the row, and its rows give
    a marker ([EXISTS], [ANY], [ALL]), joined rows, or one scalar.

    [right_plan probe] is the stream of the right plan built under that probe;
    a pair of rows is evaluated on the values of both ([SplitTupleRef]). *)

From S2P Require Import Prelude MachineInt Types Operators Reader Value Chrono Evaluators Casts Expr Serdes Row Collections Exec HashJoin.
From stdpp Require Import base tactics list numbers option sets.
From Stdlib Require Import ZArith Lia.
Local Open Scope Z_scope.

(** [RuntimeIndexProbe] of src/src/types/index.rs. *)
Inductive RuntimeIndexProbe :=
| ProbeEq (value : DataValue)
| ProbeScope (min max : Bound DataValue).

Inductive MarkApplyQuantifier := Any | All.

Module MarkApplyKind.
Inductive MarkApplyKind := Exists | Quantified (quantifier : MarkApplyQuantifier) | InnerJoin.
End MarkApplyKind.
Notation MarkApplyKind := MarkApplyKind.MarkApplyKind.

Inductive QuantifiedPredicateOutcome := OutTrue | OutFalse | OutNull | OutSkip.

#[global] Instance QuantifiedPredicateOutcome_eq_dec : EqDecision QuantifiedPredicateOutcome.
Proof. solve_decision. Defined.

Section Nodes.
Context {OF : OrderedFloat} {CH : Chrono} {SF : ScalarFunctions}.

Record MarkApplyOperator := mk_mark_operator {
  kind : MarkApplyKind; predicates : list ScalarExpression; parameterized_probe : option ScalarExpression;
}.

Record MarkApply := mk_mark_apply {
  apply_op : MarkApplyOperator; right_plan : option RuntimeIndexProbe -> Stream;
  apply_left : Stream; join_input : option (Stream * Tuple);
}.

(** ** Predicates *)

Fixpoint predicates_matched (ps : list ScalarExpression) (l r : Tuple) : res bool :=
  match ps with
  | [] => Ok true
  | p :: ps' =>
      let? v := eval p (Some (values l ++ values r)) in
      match v with
      | DataValue.Boolean true => predicates_matched ps' l r
      | DataValue.Boolean false | DataValue.Null => Ok false
      | _ => Err InvalidType
      end
  end.

(** The first predicate is the compared one, the others correlate the rows. *)
Definition eval_predicates (ps : list ScalarExpression) (l r : Tuple) : res (option DataValue) :=
  match ps with
  | [] => Err InvalidType
  | probe_predicate :: correlated_predicates =>
      let? matched := predicates_matched correlated_predicates l r in
      if matched : bool then let? v := eval probe_predicate (Some (values l ++ values r)) in Ok (Some v) else Ok None
  end.

Definition quantified_predicate_outcome (ps : list ScalarExpression) (l r : Tuple) : res QuantifiedPredicateOutcome :=
  let? o := eval_predicates ps l r in
  match o with
  | Some (DataValue.Boolean true) => Ok OutTrue
  | Some (DataValue.Boolean false) => Ok OutFalse
  | Some DataValue.Null => Ok OutNull
  | None => Ok OutSkip
  | Some _ => Err InvalidType
  end.

(** ** Markers *)

Definition at_end {A : Type} (fail : option DatabaseError) (a : A) : res A :=
  match fail with Some e => Err e | None => Ok a end.

Fixpoint scan_quantified (ps : list ScalarExpression) (quantifier : MarkApplyQuantifier) (l : Tuple) (rs : list Tuple)
    (fail : option DatabaseError) (saw_null : bool) : res DataValue :=
  match rs with
  | [] =>
      at_end fail (if saw_null then DataValue.Null
                   else DataValue.Boolean match quantifier with All => true | Any => false end)
  | r :: rs' =>
      let? o := quantified_predicate_outcome ps l r in
      match o, quantifier with
      | OutTrue, Any => Ok (DataValue.Boolean true)
      | OutFalse, All => Ok (DataValue.Boolean false)
      | OutNull, _ => scan_quantified ps quantifier l rs' fail true
      | _, _ => scan_quantified ps quantifier l rs' fail saw_null
      end
  end.

Fixpoint scan_exists (ps : list ScalarExpression) (l : Tuple) (rs : list Tuple) (fail : option DatabaseError) : res bool :=
  match rs with
  | [] => at_end fail false
  | r :: rs' => let? b := predicates_matched ps l r in if b : bool then Ok true else scan_exists ps l rs' fail
  end.

(** The two loops of a probed [ANY]: is there a row with the outcome? *)
Fixpoint scan_outcome (ps : list ScalarExpression) (wanted : QuantifiedPredicateOutcome) (l : Tuple) (rs : list Tuple)
    (fail : option DatabaseError) : res bool :=
  match rs with
  | [] => at_end fail false
  | r :: rs' =>
      let? o := quantified_predicate_outcome ps l r in
      if decide (o = wanted) then Ok true else scan_outcome ps wanted l rs' fail
  end.

Definition runtime_probe_for (op : MarkApplyOperator) (param_value : option DataValue) : option RuntimeIndexProbe :=
  match parameterized_probe op with
  | None => None
  | Some _ =>
      match param_value with
      | Some value => Some (ProbeEq value)
      | None =>
          match kind op with
          | MarkApplyKind.Quantified Any => Some (ProbeScope Unbounded Unbounded)
          | _ => None
          end
      end
  end.

Definition build_right_input (self : MarkApply) (param_value : option DataValue) : Stream :=
  right_plan self (runtime_probe_for (apply_op self) param_value).

Definition parameterized_probe_value (op : MarkApplyOperator) (l : Tuple) : res (option DataValue) :=
  match parameterized_probe op with
  | None => Ok None
  | Some probe => let? v := eval probe (Some (values l)) in Ok (Some v)
  end.

Definition mark_value (self : MarkApply) (l : Tuple) : res DataValue :=
  let op := apply_op self in
  let ps := predicates op in
  let? probe := parameterized_probe_value op l in
  match kind op with
  | MarkApplyKind.InnerJoin => Err Panic
  | MarkApplyKind.Exists =>
      let inner := build_right_input self probe in
      let? b := scan_exists ps l (rows inner) (failure inner) in Ok (DataValue.Boolean b)
  | MarkApplyKind.Quantified Any =>
      let? probe_value := parameterized_probe_value op l in
      match probe_value with
      | Some probe_value =>
          if is_null probe_value then
            let inner := build_right_input self None in
            scan_quantified ps Any l (rows inner) (failure inner) false
          else
            let inner := build_right_input self (Some probe_value) in
            let? hit := scan_outcome ps OutTrue l (rows inner) (failure inner) in
            if hit : bool then Ok (DataValue.Boolean true)
            else
              let inner := build_right_input self (Some DataValue.Null) in
              let? null := scan_outcome ps OutNull l (rows inner) (failure inner) in
              if null : bool then Ok DataValue.Null else Ok (DataValue.Boolean false)
      | None =>
          let inner := build_right_input self None in
          scan_quantified ps Any l (rows inner) (failure inner) false
      end
  | MarkApplyKind.Quantified All =>
      let inner := build_right_input self None in
      scan_quantified ps All l (rows inner) (failure inner) false
  end.

(** ** Joining *)

(** The inner loop: the next joined row, with the rows after it. *)
Fixpoint join_right (ps : list ScalarExpression) (l : Tuple) (rs : list Tuple) (fail : option DatabaseError)
    : res (option (Tuple * list Tuple)) :=
  match rs with
  | [] => at_end fail None
  | r :: rs' =>
      let? b := predicates_matched ps l r in
      if b : bool then Ok (Some (joined l r, rs')) else join_right ps l rs' fail
  end.

(** The outer loop, when the current right input is exhausted. *)
Fixpoint join_left (self : MarkApply) (ls : list Tuple) (fail : option DatabaseError) : poll MarkApply :=
  let op := apply_op self in
  match ls with
  | [] => at_end fail (None, mk_mark_apply op (right_plan self) (mk_stream [] fail) None)
  | l :: ls' =>
      let? value := parameterized_probe_value op l in
      let inner := build_right_input self value in
      let? o := join_right (predicates op) l (rows inner) (failure inner) in
      match o with
      | Some (t, rs) =>
          Ok (Some t, mk_mark_apply op (right_plan self) (mk_stream ls' fail) (Some (mk_stream rs (failure inner), l)))
      | None => join_left self ls' fail
      end
  end.

Definition next_join_tuple (self : MarkApply) : poll MarkApply :=
  let op := apply_op self in
  let outer := apply_left self in
  match join_input self with
  | Some (inner, l) =>
      let? o := join_right (predicates op) l (rows inner) (failure inner) in
      match o with
      | Some (t, rs) => Ok (Some t, mk_mark_apply op (right_plan self) outer (Some (mk_stream rs (failure inner), l)))
      | None => join_left self (rows outer) (failure outer)
      end
  | None => join_left self (rows outer) (failure outer)
  end.

Definition mark_apply_next (self : MarkApply) : poll MarkApply :=
  match kind (apply_op self) with
  | MarkApplyKind.InnerJoin => next_join_tuple self
  | _ =>
      let? (o, left_rows) := pull (apply_left self) in
      let self' := mk_mark_apply (apply_op self) (right_plan self) left_rows (join_input self) in
      match o with
      | None => Ok (None, self')
      | Some l => let? marker := mark_value self l in Ok (Some (mk_tuple (pk l) (values l ++ [marker])), self')
      end
  end.

(** ** Scalar subqueries *)

Record ScalarApply := mk_scalar_apply { scalar_left : Stream; scalar_right : Stream; cached_right : option Tuple }.

Definition load_right_once (self : ScalarApply) : res (Tuple * Stream) :=
  match cached_right self with
  | Some t => Ok (t, scalar_right self)
  | None =>
      let? (o, input) := pull (scalar_right self) in
      match o with Some t => Ok (t, input) | None => Err InvalidValue end
  end.

Definition scalar_apply_next (self : ScalarApply) : poll ScalarApply :=
  let? (right_tuple, input) := load_right_once self in
  let? (o, left_rows) := pull (scalar_left self) in
  let self' := mk_scalar_apply left_rows input (Some right_tuple) in
  match o with
  | None => Ok (None, self')
  | Some l => Ok (Some (mk_tuple (pk l) (values l ++ values right_tuple)), self')
  end.
End Nodes.

(** * Three-valued quantifiers *)

Definition is_Ok {E A : Type} (m : result E A) : Prop := exists a, m = Ok a.

Section Spec.
Context {OF : OrderedFloat} {CH : Chrono} {SF : ScalarFunctions}.

(** [x op ANY (os)] and [x op ALL (os)]: the verdicts of SQL. *)
Definition any3 (os : list QuantifiedPredicateOutcome) : DataValue :=
  if decide (OutTrue ∈ os) then DataValue.Boolean true
  else if decide (OutNull ∈ os) then DataValue.Null else DataValue.Boolean false.

Definition all3 (os : list QuantifiedPredicateOutcome) : DataValue :=
  if decide (OutFalse ∈ os) then DataValue.Boolean false
  else if decide (OutNull ∈ os) then DataValue.Null else DataValue.Boolean true.

Definition outcome (ps : list ScalarExpression) (l r : Tuple) : QuantifiedPredicateOutcome :=
  match quantified_predicate_outcome ps l r with Ok o => o | Err _ => OutSkip end.

Definition matched (ps : list ScalarExpression) (l r : Tuple) : bool :=
  match predicates_matched ps l r with Ok b => b | Err _ => false end.

(** The predicates of the kind evaluate on the pair. *)
Definition decided (k : MarkApplyKind) (ps : list ScalarExpression) (l r : Tuple) : Prop :=
  match k with
  | MarkApplyKind.Quantified _ => is_Ok (quantified_predicate_outcome ps l r)
  | _ => is_Ok (predicates_matched ps l r)
  end.

Definition verdict (q : MarkApplyQuantifier) (os : list QuantifiedPredicateOutcome) : DataValue :=
  match q with Any => any3 os | All => all3 os end.

Lemma scan_quantified_verdict ps q l rs saw_null :
  Forall (fun r => is_Ok (quantified_predicate_outcome ps l r)) rs ->
  scan_quantified ps q l rs None saw_null =
    Ok (verdict q ((if saw_null then [OutNull] else []) ++ map (outcome ps l) rs)).
Proof.
  intros Hr. revert saw_null. induction Hr as [|r rs [o Ho] _ IH]; intros saw_null.
  - by destruct saw_null, q.
  - cbn [scan_quantified map]. unfold outcome at 1. rewrite Ho. cbn [rbind].
    destruct o, q; try rewrite IH; f_equal; unfold verdict, any3, all3;
      repeat case_decide; try done; exfalso; destruct saw_null; set_solver.
Qed.

Lemma scan_exists_verdict ps l rs :
  Forall (fun r => is_Ok (predicates_matched ps l r)) rs -> scan_exists ps l rs None = Ok (existsb (matched ps l) rs).
Proof.
  induction 1 as [|r rs [b Hb] _ IH]; [done|]. cbn [scan_exists existsb]. unfold matched at 1. rewrite Hb. cbn [rbind].
  by destruct b; [|rewrite IH].
Qed.

Lemma scan_outcome_verdict ps w l rs :
  Forall (fun r => is_Ok (quantified_predicate_outcome ps l r)) rs ->
  scan_outcome ps w l rs None = Ok (bool_decide (w ∈ map (outcome ps l) rs)).
Proof.
  induction 1 as [|r rs [o Ho] _ IH]; [by rewrite bool_decide_false by (cbn; apply not_elem_of_nil)|].
  cbn [scan_outcome map]. rewrite Ho. cbn [rbind]. assert (outcome ps l r = o) as -> by (unfold outcome; by rewrite Ho).
  destruct (decide (o = w)) as [->|Hne].
  - by rewrite bool_decide_true by left.
  - rewrite IH. f_equal. apply bool_decide_ext. rewrite elem_of_cons. split; [by right|]. by intros [->|?].
Qed.

(** ** The right side *)

(** What the plan under a probe gives, against all the rows it would give
    without one: no row that satisfies the predicates is missed, and under
    the probe for null no row that makes the comparison null. *)
Record probe_exact (self : MarkApply) (full : list Tuple) (l : Tuple) : Prop := {
  px_ends : forall p, failure (right_plan self p) = None;
  px_decided : forall p, Forall (decided (kind (apply_op self)) (predicates (apply_op self)) l) (rows (right_plan self p));
  px_value : is_Ok (parameterized_probe_value (apply_op self) l);
  px_none : rows (right_plan self None) = full;
  px_scope : rows (right_plan self (Some (ProbeScope Unbounded Unbounded))) = full;
  px_eq : forall v, parameterized_probe_value (apply_op self) l = Ok (Some v) ->
    existsb (matched (predicates (apply_op self)) l) (rows (right_plan self (Some (ProbeEq v)))) =
      existsb (matched (predicates (apply_op self)) l) full /\
    (is_null v = false ->
      OutTrue ∈ map (outcome (predicates (apply_op self)) l) (rows (right_plan self (Some (ProbeEq v)))) <->
      OutTrue ∈ map (outcome (predicates (apply_op self)) l) full) /\
    (is_null v = false ->
      OutNull ∈ map (outcome (predicates (apply_op self)) l) (rows (right_plan self (Some (ProbeEq DataValue.Null)))) <->
      OutNull ∈ map (outcome (predicates (apply_op self)) l) full);
}.

Definition marker (op : MarkApplyOperator) (full : list Tuple) (l : Tuple) : DataValue :=
  match kind op with
  | MarkApplyKind.Quantified q => verdict q (map (outcome (predicates op) l) full)
  | _ => DataValue.Boolean (existsb (matched (predicates op) l) full)
  end.

Lemma mark_value_marker self full l :
  kind (apply_op self) <> MarkApplyKind.InnerJoin -> probe_exact self full l ->
  mark_value self l = Ok (marker (apply_op self) full l).
Proof.
  intros Hk [He Hd [v Hv] Hn Hs Hx]. unfold mark_value, marker, build_right_input, runtime_probe_for. rewrite Hv. cbn [rbind].
  assert (parameterized_probe (apply_op self) = None <-> v = None) as Hp.
  { unfold parameterized_probe_value in Hv. destruct (parameterized_probe (apply_op self)).
    - split; [done|]. intros ->. by apply rbind_ok in Hv as (w & _ & [= ?]%Ok_inj).
    - by apply Ok_inj in Hv as <-. }
  destruct (kind (apply_op self)) as [|[]|] eqn:Ek; [| | |done].
  - destruct (parameterized_probe (apply_op self)), v as [v|]; try (by destruct Hp as [Hp1 Hp2]; first [discriminate (Hp1 eq_refl)|discriminate (Hp2 eq_refl)]).
    + rewrite He, scan_exists_verdict by apply Hd. cbn [rbind]. by rewrite (proj1 (Hx v Hv)).
    + rewrite He, Hn, scan_exists_verdict by (rewrite <- Hn; apply Hd). done.
  - destruct (parameterized_probe (apply_op self)), v as [v|]; try (by destruct Hp as [Hp1 Hp2]; first [discriminate (Hp1 eq_refl)|discriminate (Hp2 eq_refl)]).
    + destruct (is_null v) eqn:Enull.
      * rewrite He, Hs. apply (scan_quantified_verdict _ _ _ _ false). rewrite <- Hs. apply Hd.
      * rewrite !He, !scan_outcome_verdict by apply Hd. destruct (Hx v Hv) as (_ & Ht & Hnl). specialize (Ht Enull). specialize (Hnl Enull).
        cbn [rbind]. unfold verdict, any3. repeat case_bool_decide; repeat case_decide; try done; naive_solver.
    + rewrite He, Hn. apply (scan_quantified_verdict _ _ _ _ false). rewrite <- Hn. apply Hd.
  - assert (match parameterized_probe (apply_op self) with Some _ => None | None => None (A := RuntimeIndexProbe) end = None) as ->
      by (by destruct (parameterized_probe (apply_op self))).
    rewrite He, Hn. apply (scan_quantified_verdict _ _ _ _ false). rewrite <- Hn. apply Hd.
Qed.

(** C11: EXISTS, IN, ANY and ALL. Whatever index probe the plan uses, every row of
    the left input comes out once, in order, extended with the value of its
    predicate over the whole right side in three-valued logic: true when some
    (all) pairs satisfy it, null when that depends on an unknown comparison,
    false otherwise. The left input's error, if any, ends the rows. *)
Theorem mark_apply_markers op right_plan full ls fail inner :
  let node := mk_mark_apply op right_plan (mk_stream ls fail) inner in
  kind op <> MarkApplyKind.InnerJoin -> Forall (probe_exact node full) ls ->
  runs mark_apply_next node (mk_stream (map (fun l => mk_tuple (pk l) (values l ++ [marker op full l])) ls) fail).
Proof.
  intros node Hk Hx.
  assert (Forall (fun l => mark_value node l = Ok (marker op full l)) ls) as Hm.
  { eapply Forall_impl; [exact Hx|]. intros l Hl. by apply (mark_value_marker node). }
  clear Hx. subst node. revert Hm. generalize (mk_stream ls fail) at 1. intros s0 Hm.
  assert (forall s1 l, mark_value (mk_mark_apply op right_plan s1 inner) l = mark_value (mk_mark_apply op right_plan s0 inner) l) as Hsame by done.
  induction Hm as [|l ls Hl _ IH].
  - cbn [map]. destruct fail as [e|]; [apply runs_fail|eapply runs_end]; unfold mark_apply_next; cbn; by destruct (kind op).
  - cbn [map]. eapply runs_row; [|exact IH]. unfold mark_apply_next. cbn [apply_op apply_left pull rows rbind].
    rewrite (Hsame _ l), Hl. by destruct (kind op).
Qed.

(** ** Joining with an index *)

(** The joined rows of a left row, given the rows that satisfy the predicates. *)
Definition join_rows_of (ps : list ScalarExpression) (l : Tuple) (rs : list Tuple) : list Tuple :=
  map (joined l) (List.filter (matched ps l) rs).

Lemma join_right_some ps l rs fail :
  Forall (fun r => is_Ok (predicates_matched ps l r)) rs -> fail = None ->
  match join_rows_of ps l rs with
  | [] => join_right ps l rs fail = Ok None
  | t :: ts => exists rs', join_right ps l rs fail = Ok (Some (t, rs')) /\ join_rows_of ps l rs' = ts /\ rs' `suffix_of` rs
  end.
Proof.
  intros Hr ->. induction Hr as [|r rs [b Hb] _ IH]; [done|]. unfold join_rows_of in *. cbn [List.filter join_right].
  rewrite Hb. unfold matched at 1. rewrite Hb. cbn [rbind]. destruct b.
  - exists rs. split; [done|]. split; [done|]. by apply suffix_cons_r.
  - destruct (map (joined l) (List.filter (matched ps l) rs)); [done|]. destruct IH as (rs' & E & Hm & Hs).
    exists rs'. split; [done|]. split; [done|]. by apply suffix_cons_r.
Qed.

Definition probe_of (op : MarkApplyOperator) (l : Tuple) : option RuntimeIndexProbe :=
  match parameterized_probe_value op l with Ok v => runtime_probe_for op v | Err _ => None end.

(** The plan under the row's probe: it evaluates, ends, and has every row of
    the right side that joins, in order. *)
Definition join_probe (op : MarkApplyOperator) (plan : option RuntimeIndexProbe -> Stream) (full : list Tuple) (l : Tuple) : Prop :=
  is_Ok (parameterized_probe_value op l) /\ failure (plan (probe_of op l)) = None /\
  Forall (fun r => is_Ok (predicates_matched (predicates op) l r)) (rows (plan (probe_of op l))) /\
  List.filter (matched (predicates op) l) (rows (plan (probe_of op l))) = List.filter (matched (predicates op) l) full.

Lemma join_left_same op plan o1 i1 o2 i2 ls fail :
  join_left (mk_mark_apply op plan o1 i1) ls fail = join_left (mk_mark_apply op plan o2 i2) ls fail.
Proof.
  induction ls as [|l ls IH]; [done|]. cbn [join_left apply_op right_plan]. unfold build_right_input. cbn [apply_op right_plan].
  destruct (parameterized_probe_value op l) as [v|]; [|done]. cbn [rbind]. destruct (join_right _ _ _ _) as [[[t rs]|]|]; done.
Qed.

Lemma drain_inner op plan outer l rs o :
  kind op = MarkApplyKind.InnerJoin -> Forall (fun r => is_Ok (predicates_matched (predicates op) l r)) rs ->
  runs mark_apply_next (mk_mark_apply op plan outer None) o ->
  runs mark_apply_next (mk_mark_apply op plan outer (Some (mk_stream rs None, l)))
    (mk_stream (join_rows_of (predicates op) l rs ++ rows o) (failure o)).
Proof.
  intros Hk Hrs Ho. remember (join_rows_of (predicates op) l rs) as ts eqn:Ets. revert rs Hrs Ets.
  induction ts as [|t ts IH]; intros rs Hrs Ets; pose proof (join_right_some (predicates op) l rs None Hrs eq_refl) as Hj; rewrite <- Ets in Hj.
  - cbn [app]. rewrite stream_eta. eapply runs_same; [|exact Ho]. unfold mark_apply_next, next_join_tuple. cbn [apply_op join_input rows failure apply_left].
    rewrite Hk, Hj. cbn [rbind]. apply join_left_same.
  - destruct Hj as (rs' & Ej & Hts & [pre ->]). eapply runs_row.
    + unfold mark_apply_next, next_join_tuple. cbn [apply_op join_input rows failure]. rewrite Hk, Ej. reflexivity.
    + apply IH; [by apply Forall_app in Hrs as [_ ?]|done].
Qed.

Lemma join_apply_runs op plan full ls fail :
  kind op = MarkApplyKind.InnerJoin -> Forall (join_probe op plan full) ls ->
  runs mark_apply_next (mk_mark_apply op plan (mk_stream ls fail) None)
    (mk_stream (flat_map (fun l => join_rows_of (predicates op) l full) ls) fail).
Proof.
  intros Hk Hls. induction Hls as [|l ls ([v Hv] & He & Hd & Hfull) Hls IH].
  - destruct fail as [e|]; [apply runs_fail|eapply runs_end]; unfold mark_apply_next, next_join_tuple; cbn; by rewrite Hk.
  - unfold probe_of in He, Hd, Hfull. rewrite Hv in He, Hd, Hfull. set (inner := plan (runtime_probe_for op v)) in *.
    pose proof (drain_inner op plan (mk_stream ls fail) l (rows inner) _ Hk Hd IH) as Hdr. cbn [rows failure] in Hdr.
    assert (join_rows_of (predicates op) l (rows inner) = join_rows_of (predicates op) l full) as Hj by (unfold join_rows_of; by rewrite Hfull).
    rewrite Hj in Hdr. cbn [flat_map]. eapply runs_same; [|exact Hdr].
    unfold mark_apply_next, next_join_tuple. cbn [apply_op join_input rows failure apply_left join_left right_plan]. rewrite Hk, Hv. cbn [rbind].
    unfold build_right_input. cbn [right_plan apply_op]. fold inner. rewrite He.
    destruct (join_right _ _ _ _) as [[[t rs]|]|]; try done. cbn [rbind]. apply join_left_same.
Qed.

(** The join through an index probe emits, for each left row in order, its
    pairs with the rows of the right side that satisfy the predicates. *)
Theorem apply_join_spec op plan full ls fail :
  kind op = MarkApplyKind.InnerJoin -> Forall (join_probe op plan full) ls ->
  runs mark_apply_next (mk_mark_apply op plan (mk_stream ls fail) None)
    (mk_stream (flat_map (fun l => join_rows_of (predicates op) l full) ls) fail).
Proof. apply join_apply_runs. Qed.

(** ** Scalars *)

(** A scalar apply extends every left row with the one right row. *)
Theorem scalar_apply_spec ls fail t rest rfail :
  runs scalar_apply_next (mk_scalar_apply (mk_stream ls fail) (mk_stream (t :: rest) rfail) None)
    (mk_stream (map (fun l => mk_tuple (pk l) (values l ++ values t)) ls) fail).
Proof.
  assert (forall ls, runs scalar_apply_next (mk_scalar_apply (mk_stream ls fail) (mk_stream rest rfail) (Some t))
    (mk_stream (map (fun l => mk_tuple (pk l) (values l ++ values t)) ls) fail)) as H.
  { clear ls. induction ls as [|l ls IH]; cbn [map]; [|by eapply runs_row].
    destruct fail; [by apply runs_fail|by eapply runs_end]. }
  by eapply runs_same; [|exact (H ls)].
Qed.
End Spec.

(** * The row in the arena

    A poll leaves its row in the arena, and a poll that finds the end leaves
    there whatever the nodes below it wrote while looking for one. A scalar
    subquery reads the arena after such a poll, so here a node is a function
    of the row in the arena as well. *)

Section Arena.
Context {OF : OrderedFloat} {CH : Chrono} {SF : ScalarFunctions}.

(** The answer of [arena.next_tuple], the row in the arena, the node. *)
Definition arena_poll (S : Type) : Type := S -> Tuple -> res (bool * Tuple * S).

(** A scan writes its row into the arena and leaves it alone at the end. *)
Definition scan_poll : arena_poll Stream := fun s tuple =>
  match rows s with
  | t :: ts => Ok (true, t, mk_stream ts (failure s))
  | [] => at_end (failure s) (false, tuple, s)
  end.

(** [Filter::next_tuple] on a scan. *)
Fixpoint filter_poll_loop (predicate : ScalarExpression) (ts : list Tuple) (fail : option DatabaseError) (tuple : Tuple)
    : res (bool * Tuple * Stream) :=
  match ts with
  | [] => at_end fail (false, tuple, mk_stream [] fail)
  | t :: ts' =>
      let? b := (let? v := eval predicate (Some (values t)) in is_true v) in
      if b : bool then Ok (true, t, mk_stream ts' fail) else filter_poll_loop predicate ts' fail t
  end.
Definition filter_poll (predicate : ScalarExpression) : arena_poll Stream := fun s tuple =>
  filter_poll_loop predicate (rows s) (failure s) tuple.

Record ScalarSubquery {S : Type} := mk_scalar_subquery { subquery_input : S; value_count : nat; returned : bool }.
Arguments ScalarSubquery : clear implicits.

Definition scalar_subquery_next {S : Type} (input : arena_poll S) : arena_poll (ScalarSubquery S) := fun self tuple =>
  if returned self then Ok (false, tuple, self)
  else
    let? (r, s) := input (subquery_input self) tuple in
    let (has_first, tuple) := r : bool * Tuple in
    if has_first then
      let? (r, s) := input s tuple in
      let (has_second, tuple) := r : bool * Tuple in
      if has_second then Err InvalidValue else Ok (true, tuple, mk_scalar_subquery S s (value_count self) true)
    else Ok (true, mk_tuple None (replicate (value_count self) DataValue.Null), mk_scalar_subquery S s (value_count self) true).

(** A scalar subquery over a scan produces exactly one row: the only row of
    its input, nulls when there is none, and an error when there are more. *)
Theorem scalar_subquery_over_scan ts n tuple :
  scalar_subquery_next scan_poll (mk_scalar_subquery Stream (mk_stream ts None) n false) tuple =
    match ts with
    | [] => Ok (true, mk_tuple None (replicate n DataValue.Null), mk_scalar_subquery Stream (mk_stream [] None) n true)
    | [t] => Ok (true, t, mk_scalar_subquery Stream (mk_stream [] None) n true)
    | _ => Err InvalidValue
    end.
Proof. by destruct ts as [|t [|t' ts]]. Qed.

(** Over a filter it does not: looking for a second row, the filter leaves the
    last row it rejected in the arena, and that row is the result. *)
Theorem scalar_subquery_returns_rejected p t t' n tuple :
  eval p (Some (values t)) = Ok (DataValue.Boolean true) -> eval p (Some (values t')) = Ok (DataValue.Boolean false) ->
  exists s, scalar_subquery_next (filter_poll p) (mk_scalar_subquery Stream (mk_stream [t; t'] None) n false) tuple = Ok (true, t', s).
Proof.
  intros Ht Ht'. unfold scalar_subquery_next, filter_poll. cbn [returned subquery_input rows failure filter_poll_loop value_count].
  rewrite Ht. cbn. rewrite Ht'. cbn. by eexists.
Qed.
End Arena.

(** ** Witnesses *)

(** [EXISTS] and [= ANY] of an integer column, probed by the left value. *)
Definition eq_columns : ScalarExpression :=
  match binary_create LogicalType.Integer BinaryOperator.Eq with
  | Ok ev => ScalarExpression.Binary BinaryOperator.Eq (int_col 0) (int_col 1) (Some ev) LogicalType.Boolean
  | Err _ => ScalarExpression.Empty
  end.

Definition one (v : DataValue) : Tuple := mk_tuple None [v].
Definition apply_full : list Tuple := [one (DataValue.Int32 1); one DataValue.Null].

Definition apply_plan (p : option RuntimeIndexProbe) : Stream :=
  mk_stream match p with
  | Some (ProbeEq v) => List.filter (fun t => bool_decide (values t = [v])) apply_full
  | _ => apply_full
  end None.

Definition any_op : MarkApplyOperator := mk_mark_operator (MarkApplyKind.Quantified Any) [eq_columns] (Some (int_col 0)).

Lemma any_probe_exact v inner ls : v = DataValue.Int32 1 \/ v = DataValue.Int32 2 ->
  probe_exact (mk_mark_apply any_op apply_plan ls inner) apply_full (one v).
Proof.
  intros Hv.
  assert (Forall (decided (MarkApplyKind.Quantified Any) [eq_columns] (one v)) apply_full) as Hd
    by (destruct Hv; subst v; repeat constructor; eexists; vm_compute; reflexivity).
  split; cbn [apply_op any_op kind predicates right_plan].
  - done.
  - intros [[]|]; try exact Hd. rewrite Forall_forall in *. intros r Hr. cbn [apply_plan rows] in Hr. apply Hd. apply list_elem_of_In, filter_In in Hr as [Hr _].
    by apply list_elem_of_In.
  - by eexists.
  - done.
  - done.
  - intros w Hw. apply Ok_inj in Hw. cbn in Hw. injection Hw as <-.
    destruct Hv; subst v; (split; [vm_compute; reflexivity|]); split; intros _; split; intros H; vm_compute in H |- *; set_solver.
Qed.

(** [1 = ANY (1, NULL)] is true, [2 = ANY (1, NULL)] is null. *)
Lemma mark_apply_markers_witness :
  runs mark_apply_next (mk_mark_apply any_op apply_plan (mk_stream [one (DataValue.Int32 1); one (DataValue.Int32 2)] None) None)
    (mk_stream [mk_tuple None [DataValue.Int32 1; DataValue.Boolean true]; mk_tuple None [DataValue.Int32 2; DataValue.Null]] None).
Proof.
  apply (mark_apply_markers any_op apply_plan apply_full [one (DataValue.Int32 1); one (DataValue.Int32 2)] None None); [done|].
  constructor; [|constructor; [|constructor]]; apply any_probe_exact; auto.
Defined.

Definition join_op : MarkApplyOperator := mk_mark_operator MarkApplyKind.InnerJoin [eq_columns] (Some (int_col 0)).

Lemma apply_join_spec_witness :
  runs mark_apply_next (mk_mark_apply join_op apply_plan (mk_stream [one (DataValue.Int32 1); one (DataValue.Int32 2)] None) None)
    (mk_stream [mk_tuple None [DataValue.Int32 1; DataValue.Int32 1]] None).
Proof.
  apply (apply_join_spec join_op apply_plan apply_full [one (DataValue.Int32 1); one (DataValue.Int32 2)] None); [done|].
  constructor; [|constructor; [|constructor]]; (split; [by eexists|]); (split; [done|]); (split; [|vm_compute; reflexivity]);
    repeat constructor; eexists; vm_compute; reflexivity.
Defined.

Lemma scalar_subquery_returns_rejected_witness :
  exists s, scalar_subquery_next (filter_poll (int_col 0))
    (mk_scalar_subquery Stream (mk_stream [one (DataValue.Boolean true); one (DataValue.Boolean false)] None) 1 false) (one DataValue.Null) =
    Ok (true, one (DataValue.Boolean false), s).
Proof. by apply scalar_subquery_returns_rejected. Defined.
