(* ===== verification/Recursive.v ===== *)
(** Recursive queries (src/src/execution/dql/recursive_cte.rs): the rows of the
    anchor, then the rows the recursive plan makes of them, then of those, and
    so on, until a generation is empty.

    [recursive_plan rows] is the stream of the recursive plan built over the
    rows of a generation, which its [RecursiveScan] reads. The two kinds of row
    buffer ([spill] on or off) hold the same rows; the one in memory is
    modelled. *)

From S2P Require Import Prelude MachineInt Types Reader Value Row Exec.
From stdpp Require Import base tactics list numbers option.
From Stdlib Require Import ZArith Lia.
Local Open Scope Z_scope.

(** * The buffer of a generation *)

Inductive RecursiveInput :=
| InputOne (tuple : option Tuple)
| InputMany (rows : list Tuple).

Definition recursive_input_next (self : RecursiveInput) : option Tuple * RecursiveInput :=
  match self with
  | InputOne tuple => (tuple, InputOne None)
  | InputMany [] => (None, InputMany [])
  | InputMany (t :: ts) => (Some t, InputMany ts)
  end.

Inductive RecursiveRows :=
| EmptyRows
| OneRow (tuple : Tuple) (output_done : bool)
| Writing (rows : list Tuple)
| Reading (rows : list Tuple) (output_index : nat).

(** Appending to a finished generation is unreachable. *)
Definition rows_push (self : RecursiveRows) (tuple : Tuple) : res RecursiveRows :=
  match self with
  | EmptyRows => Ok (OneRow tuple false)
  | OneRow first false => Ok (Writing [first; tuple])
  | Writing rows => Ok (Writing (rows ++ [tuple]))
  | OneRow _ true | Reading _ _ => Err Panic
  end.

Definition rows_finish (self : RecursiveRows) : RecursiveRows :=
  match self with Writing rows => Reading rows 0 | rows => rows end.

Definition next_output (self : RecursiveRows) : res (option Tuple * RecursiveRows) :=
  match self with
  | EmptyRows => Ok (None, self)
  | OneRow tuple output_done => if output_done then Ok (None, self) else Ok (Some tuple, OneRow tuple true)
  | Reading rows output_index =>
      match rows !! output_index with
      | Some tuple => Ok (Some tuple, Reading rows (S output_index))
      | None => Ok (None, self)
      end
  | Writing _ => Err Panic
  end.

Definition into_input (self : RecursiveRows) : res (option RecursiveInput) :=
  match self with
  | EmptyRows => Ok None
  | OneRow tuple _ => Ok (Some (InputOne (Some tuple)))
  | Reading rows _ => Ok (Some (InputMany rows))
  | Writing _ => Err Panic
  end.

(** ** The scan of a generation *)

Record RecursiveScan := mk_recursive_scan { scan_input : RecursiveInput }.

Definition recursive_scan_next (self : RecursiveScan) : poll RecursiveScan :=
  let (o, input) := recursive_input_next (scan_input self) in Ok (o, mk_recursive_scan input).

Definition input_rows (self : RecursiveInput) : list Tuple :=
  match self with InputOne tuple => option_list tuple | InputMany rows => rows end.

(** * The node *)

Inductive RecursivePhase := Anchor | Output | Recursive.

Record RecursiveCte := mk_recursive_cte {
  recursive_plan : list Tuple -> Stream; anchor_input : Stream; recursive_root : Stream;
  working : RecursiveRows; next_rows : RecursiveRows; phase : RecursivePhase;
}.

(** [while arena.next_tuple(..)? { self.next.push(..)? }]. *)
Fixpoint collect_rows (ts : list Tuple) (fail : option DatabaseError) (acc : RecursiveRows) : res RecursiveRows :=
  match ts with
  | [] => match fail with Some e => Err e | None => Ok acc end
  | t :: ts' => let? acc := rows_push acc t in collect_rows ts' fail acc
  end.

Definition start_recursive (self : RecursiveCte) : res (option RecursiveCte) :=
  let? input := into_input (working self) in
  match input with
  | None => Ok None
  | Some input =>
      Ok (Some (mk_recursive_cte (recursive_plan self) (anchor_input self) (recursive_plan self (input_rows input))
        EmptyRows (next_rows self) Recursive))
  end.

(** The loop over the phases. A poll passes at most three of them before it
    produces a row or ends ([first_generation],
    [next_generation]). *)
Fixpoint cte_loop (fuel : nat) (self : RecursiveCte) : poll RecursiveCte :=
  match fuel with
  | O => Err Panic
  | S fuel' =>
      let plan := recursive_plan self in
      match phase self with
      | Anchor =>
          let? rows := collect_rows (rows (anchor_input self)) (failure (anchor_input self)) (next_rows self) in
          cte_loop fuel' (mk_recursive_cte plan (mk_stream [] None) (recursive_root self) (rows_finish rows) EmptyRows Output)
      | Output =>
          let? (o, w) := next_output (working self) in
          let self := mk_recursive_cte plan (anchor_input self) (recursive_root self) w (next_rows self) Output in
          match o with
          | Some tuple => Ok (Some tuple, self)
          | None =>
              let? started := start_recursive self in
              match started with
              | None => Ok (None, mk_recursive_cte plan (anchor_input self) (recursive_root self) EmptyRows (next_rows self) Output)
              | Some self => cte_loop fuel' self
              end
          end
      | Recursive =>
          let? rows := collect_rows (rows (recursive_root self)) (failure (recursive_root self)) (next_rows self) in
          cte_loop fuel' (mk_recursive_cte plan (anchor_input self) (mk_stream [] None) (rows_finish rows) EmptyRows Output)
      end
  end.

Definition recursive_cte_next (self : RecursiveCte) : poll RecursiveCte := cte_loop 3 self.

Definition recursive_cte (plan : list Tuple -> Stream) (anchor : Stream) : RecursiveCte :=
  mk_recursive_cte plan anchor (mk_stream [] None) EmptyRows EmptyRows Anchor.

(** * Generations *)

(** The buffer holds [all] rows, of which [rest] are still to be output. *)
Definition holding (w : RecursiveRows) (all rest : list Tuple) : Prop :=
  match w with
  | EmptyRows => all = [] /\ rest = []
  | OneRow t done => all = [t] /\ rest = if done then [] else [t]
  | Reading ts i => all = ts /\ rest = drop i ts /\ ts <> []
  | Writing _ => False
  end.

Lemma collect_rows_more ts fail pre :
  pre <> [] -> collect_rows ts fail (Writing pre) =
    match fail with Some e => Err e | None => Ok (Writing (pre ++ ts)) end.
Proof.
  revert pre. induction ts as [|t ts IH]; intros pre Hp; cbn; [by rewrite app_nil_r|]. rewrite IH by (by destruct pre).
  by rewrite <- app_assoc.
Qed.

Lemma collect_rows_spec ts fail :
  match fail with
  | Some e => collect_rows ts fail EmptyRows = Err e
  | None => exists w, collect_rows ts fail EmptyRows = Ok w /\ holding (rows_finish w) ts ts
  end.
Proof.
  destruct ts as [|t [|t' ts]]; cbn [collect_rows rows_push rbind].
  - destruct fail; [done|]. by exists EmptyRows.
  - destruct fail; [done|]. by exists (OneRow t false).
  - rewrite collect_rows_more by done. destruct fail; [done|]. eexists. by split_and!.
Qed.

Lemma next_output_spec w all rest :
  holding w all rest ->
  match rest with
  | [] => exists w', next_output w = Ok (None, w') /\ holding w' all []
  | t :: rest' => exists w', next_output w = Ok (Some t, w') /\ holding w' all rest'
  end.
Proof.
  destruct w as [|t []|ts|ts i]; cbn; try done.
  - intros [-> ->]. by exists EmptyRows.
  - intros [-> ->]. by exists (OneRow t true).
  - intros [-> ->]. by exists (OneRow t true).
  - intros (-> & -> & Hne). destruct (ts !! i) as [t|] eqn:Ei.
    + rewrite (drop_S ts t i Ei). by exists (Reading ts (S i)).
    + rewrite drop_ge by (by apply lookup_ge_None). exists (Reading ts i). split; [done|]. cbn. split; [done|].
      split; [|done]. symmetry. apply drop_ge. by apply lookup_ge_None.
Qed.

Lemma into_input_spec w all rest :
  holding w all rest ->
  match all with
  | [] => into_input w = Ok None
  | _ => exists input, into_input w = Ok (Some input) /\ input_rows input = all
  end.
Proof.
  destruct w as [|t done|ts|ts i]; cbn; try done.
  - by intros [-> _].
  - intros [-> _]. by exists (InputOne (Some t)).
  - by intros [].
  - intros (-> & _ & Hne). destruct ts; [done|]. by eexists.
Qed.

(** The scan of a generation yields its rows. *)
Lemma recursive_scan_runs input : runs recursive_scan_next (mk_recursive_scan input) (mk_stream (input_rows input) None).
Proof.
  destruct input as [[t|]|ts]; cbn [input_rows option_list].
  - eapply runs_row; [done|]. by eapply runs_end.
  - by eapply runs_end.
  - induction ts as [|t ts IH]; [by eapply runs_end|]. by eapply runs_row.
Qed.

(** The generations of a query. *)
Fixpoint generation (plan : list Tuple -> Stream) (anchor : Stream) (n : nat) : Stream :=
  match n with O => anchor | S n' => plan (rows (generation plan anchor n')) end.

(** Polling a node that many times gives these rows. *)
Inductive produces {S : Type} (next : S -> poll S) : S -> list Tuple -> S -> Prop :=
| produces_nil s : produces next s [] s
| produces_row s t s' ts s'' : next s = Ok (Some t, s') -> produces next s' ts s'' -> produces next s (t :: ts) s''.

Lemma produces_app {S : Type} (next : S -> poll S) s1 ts1 s2 ts2 s3 :
  produces next s1 ts1 s2 -> produces next s2 ts2 s3 -> produces next s1 (ts1 ++ ts2) s3.
Proof. induction 1; [done|]. intros. econstructor; eauto. Qed.

Lemma produces_runs {S : Type} (next : S -> poll S) s ts s' o :
  produces next s ts s' -> runs next s' o -> runs next s (mk_stream (ts ++ rows o) (failure o)).
Proof. induction 1; cbn; [by rewrite stream_eta|]. intros. eapply runs_row; eauto. Qed.

Section Run.
Context (plan : list Tuple -> Stream).

(** The node is outputting a generation. *)
Definition outputs (self : RecursiveCte) (all rest : list Tuple) : Prop :=
  recursive_plan self = plan /\ phase self = Output /\ next_rows self = EmptyRows /\ holding (working self) all rest.

Lemma output_row self all t rest fuel :
  outputs self all (t :: rest) -> exists self', cte_loop (S fuel) self = Ok (Some t, self') /\ outputs self' all rest.
Proof.
  intros (Hp & Hph & Hn & Hw). cbn [cte_loop]. rewrite Hph. destruct (next_output_spec _ _ _ Hw) as (w' & -> & Hw'). cbn [rbind].
  eexists. split; [reflexivity|]. by split_and!.
Qed.

Lemma output_rows self all rest :
  outputs self all rest -> exists self', produces recursive_cte_next self rest self' /\ outputs self' all [].
Proof.
  revert self. induction rest as [|t rest IH]; intros self Ho; [exists self; split; [constructor|done]|].
  destruct (output_row self all t rest 2 Ho) as (self1 & E & Ho1). destruct (IH self1 Ho1) as (self2 & Hp & Ho2).
  exists self2. split; [by econstructor|done].
Qed.

(** The next poll after a generation: the first row of the next one, its
    error, or the end. *)
Lemma next_generation self all :
  outputs self all [] ->
  match all with
  | [] => exists self', recursive_cte_next self = Ok (None, self')
  | _ =>
      match failure (plan all), rows (plan all) with
      | Some e, _ => recursive_cte_next self = Err e
      | None, [] => exists self', recursive_cte_next self = Ok (None, self')
      | None, t :: rest => exists self', recursive_cte_next self = Ok (Some t, self') /\ outputs self' (t :: rest) rest
      end
  end.
Proof.
  intros (Hp & Hph & Hn & Hw). unfold recursive_cte_next. cbn [cte_loop]. rewrite Hph.
  destruct (next_output_spec _ _ _ Hw) as (w' & -> & Hw'). cbn [rbind]. unfold start_recursive. cbn [working].
  pose proof (into_input_spec _ _ _ Hw') as Hi. destruct all as [|a all]; [rewrite Hi; cbn; by eexists|].
  destruct Hi as (input & -> & Hin). cbn [rbind cte_loop phase recursive_root recursive_plan next_rows]. rewrite Hin, Hp, Hn.
  pose proof (collect_rows_spec (rows (plan (a :: all))) (failure (plan (a :: all)))) as Hc.
  destruct (failure (plan (a :: all))) as [e|]; [by rewrite Hc|]. destruct Hc as (w & -> & Hh). cbn [rbind].
  cbn [cte_loop phase working]. pose proof (next_output_spec _ _ _ Hh) as Ho. destruct (rows (plan (a :: all))) as [|t rest].
  - destruct Ho as (w2 & -> & Hh2). cbn [rbind]. unfold start_recursive. cbn [working]. rewrite (into_input_spec _ _ _ Hh2). cbn. by eexists.
  - destruct Ho as (w2 & -> & Hh2). cbn [rbind]. eexists. split; [reflexivity|]. by split_and!.
Qed.

(** The first poll. *)
Lemma first_generation anchor :
  match failure anchor, rows anchor with
  | Some e, _ => recursive_cte_next (recursive_cte plan anchor) = Err e
  | None, [] => exists self', recursive_cte_next (recursive_cte plan anchor) = Ok (None, self')
  | None, t :: rest => exists self', recursive_cte_next (recursive_cte plan anchor) = Ok (Some t, self') /\ outputs self' (t :: rest) rest
  end.
Proof.
  unfold recursive_cte_next. cbn [cte_loop recursive_cte phase anchor_input next_rows recursive_plan].
  pose proof (collect_rows_spec (rows anchor) (failure anchor)) as Hc. destruct (failure anchor) as [e|]; [by rewrite Hc|].
  destruct Hc as (w & -> & Hh). cbn [rbind cte_loop phase working]. pose proof (next_output_spec _ _ _ Hh) as Ho. destruct (rows anchor) as [|t rest].
  - destruct Ho as (w2 & -> & Hh2). cbn [rbind]. unfold start_recursive. cbn [working]. rewrite (into_input_spec _ _ _ Hh2). cbn. by eexists.
  - destruct Ho as (w2 & -> & Hh2). cbn [rbind]. eexists. split; [reflexivity|]. by split_and!.
Qed.

Definition generations (anchor : Stream) (n : nat) : list Tuple :=
  concat (map (fun k => rows (generation plan anchor k)) (seq 0 n)).

Definition full_generation (anchor : Stream) (k : nat) : Prop :=
  rows (generation plan anchor k) <> [] /\ failure (generation plan anchor k) = None.

Lemma generations_S anchor n : generations anchor (S n) = generations anchor n ++ rows (generation plan anchor n).
Proof. unfold generations. rewrite seq_S, map_app, concat_app. cbn. by rewrite app_nil_r. Qed.

Lemma reach_generation anchor n :
  (forall k, (k <= n)%nat -> full_generation anchor k) ->
  exists self', produces recursive_cte_next (recursive_cte plan anchor) (generations anchor (S n)) self' /\
    outputs self' (rows (generation plan anchor n)) [].
Proof.
  induction n as [|n IH]; intros Hfull; rewrite generations_S.
  - destruct (Hfull 0%nat ltac:(lia)) as [Hne Hf]. cbn [generation] in *. pose proof (first_generation anchor) as H1. rewrite Hf in H1.
    destruct (rows anchor) as [|t rest]; [done|]. destruct H1 as (s1 & E1 & Ho1). destruct (output_rows s1 _ _ Ho1) as (s2 & Hp & Ho2).
    exists s2. split; [|done]. by econstructor.
  - destruct IH as (s1 & Hp1 & Ho1); [intros k Hk; apply Hfull; lia|]. destruct (Hfull n ltac:(lia)) as [Hne' _].
    destruct (Hfull (S n) ltac:(lia)) as [Hne Hf]. cbn [generation] in *. pose proof (next_generation s1 _ Ho1) as H2.
    destruct (rows (generation plan anchor n)) as [|a all] eqn:Eg; [done|]. rewrite Hf in H2.
    destruct (rows (plan (a :: all))) as [|t rest]; [done|]. destruct H2 as (s2 & E2 & Ho2). destruct (output_rows s2 _ _ Ho2) as (s3 & Hp & Ho3).
    exists s3. split; [|done]. eapply produces_app; [exact Hp1|]. by econstructor.
Qed.

(** C32: every generation is reached. As long as no generation is empty or fails,
    the node goes on: for every [n], a number of polls produces exactly the
    rows of the generations up to [n], in order, even if there is no end to
    them; no poll stalls or panics. *)
Theorem recursive_cte_live anchor n :
  (forall k, (k <= n)%nat -> full_generation anchor k) ->
  exists self', produces recursive_cte_next (recursive_cte plan anchor) (generations anchor (S n)) self'.
Proof. intros Hfull. destruct (reach_generation anchor n Hfull) as (self' & Hp & _). by exists self'. Qed.

(** C17: a recursive query that reaches an empty generation ends there, with the
    rows of all the generations before it, and one whose generation fails ends
    with that error after the rows of those before it. *)
Theorem recursive_cte_spec anchor n :
  (forall k, (k < n)%nat -> full_generation anchor k) ->
  rows (generation plan anchor n) = [] \/ failure (generation plan anchor n) <> None ->
  runs recursive_cte_next (recursive_cte plan anchor) (mk_stream (generations anchor n) (failure (generation plan anchor n))).
Proof.
  intros Hfull Hend. destruct n as [|n].
  - cbn [generation] in *. pose proof (first_generation anchor) as H1.
    destruct (failure anchor) as [e|]; [by apply runs_fail|]. destruct Hend as [Hr|]; [|done]. rewrite Hr in H1.
    destruct H1 as (s1 & E1). by eapply runs_end.
  - destruct (reach_generation anchor n) as (s1 & Hp & Ho); [intros k Hk; apply Hfull; lia|].
    destruct (Hfull n ltac:(lia)) as [Hne _]. cbn [generation] in *. pose proof (next_generation s1 _ Ho) as H2.
    destruct (rows (generation plan anchor n)) as [|a all] eqn:Eg; [done|].
    assert (runs recursive_cte_next s1 (mk_stream [] (failure (plan (a :: all))))) as Hr.
    { destruct (failure (plan (a :: all))) as [e|]; [by apply runs_fail|]. destruct Hend as [Hr|]; [|done]. rewrite Hr in H2.
      destruct H2 as (s2 & E2). by eapply runs_end. }
    pose proof (produces_runs _ _ _ _ _ Hp Hr) as Hall. cbn [rows failure] in Hall. by rewrite app_nil_r in Hall.
Qed.
End Run.

(** ** Witnesses *)

(** [n + 1 WHERE n < 3] from 1: the generations 1, 2, 3. *)
Definition count_row (n : Z) : Tuple := mk_tuple None [DataValue.Int32 n].
Definition count_plan (ts : list Tuple) : Stream :=
  mk_stream (omap (fun t => match values t with
    | [DataValue.Int32 n] => if n <? 3 then Some (count_row (n + 1)) else None
    | _ => None
    end) ts) None.

Lemma recursive_cte_spec_witness :
  runs recursive_cte_next (recursive_cte count_plan (mk_stream [count_row 1] None))
    (mk_stream [count_row 1; count_row 2; count_row 3] None).
Proof.
  apply (recursive_cte_spec count_plan (mk_stream [count_row 1] None) 3); [|by left].
  intros k Hk. destruct k as [|[|[|k]]]; [by split..|lia].
Defined.

(** [n + 1] from 1, without end. *)
Definition endless_plan (ts : list Tuple) : Stream := mk_stream (match ts with [] => [] | _ => [count_row 7] end) None.

Lemma recursive_cte_live_witness :
  exists self', produces recursive_cte_next (recursive_cte endless_plan (mk_stream [count_row 1] None))
    [count_row 1; count_row 7; count_row 7; count_row 7] self'.
Proof.
  apply (recursive_cte_live endless_plan (mk_stream [count_row 1] None) 3).
  intros k Hk. destruct k as [|[|[|[|k]]]]; [by split..|lia].
Defined.
