(* ===== verification/Window.v ===== *)
(** Window functions (src/src/execution/dql/window.rs and window/function.rs):
    over rows sorted by the partition and order keys, the node numbers and
    ranks the rows of each partition and accumulates aggregates up to the end
    of each group of peers. Rows are kept back until their functions can be
    computed: one row, a peer group or a partition ([Retention]). *)

From S2P Require Import Prelude MachineInt Types Operators Reader Value Chrono Evaluators Casts Expr Row Collections Exec SortExec Aggregate.
From stdpp Require Import base tactics list list_numbers numbers option.
From Stdlib Require Import ZArith Lia.
Local Open Scope Z_scope.

Module Retention.
Inductive Retention := Row | Peer | Partition.
#[global] Instance Retention_eq_dec : EqDecision Retention.
Proof. solve_decision. Defined.
End Retention.
Notation Retention := Retention.Retention.

Module Boundary.
Inductive Boundary := Partition | Peer.
#[global] Instance Boundary_eq_dec : EqDecision Boundary.
Proof. solve_decision. Defined.
End Boundary.
Notation Boundary := Boundary.Boundary.

Module WindowFunctionKind.
Inductive WindowFunctionKind := RowNumber | Rank | DenseRank | Aggregate (kind : AggKind).
End WindowFunctionKind.
Notation WindowFunctionKind := WindowFunctionKind.WindowFunctionKind.

Section Functions.
Context {OF : OrderedFloat} {CH : Chrono} {SF : ScalarFunctions}.

(** [WindowFunction] of src/src/expression/window.rs: what the plan asks for. *)
Record WindowCall := mk_window_call {
  call_kind : WindowFunctionKind; call_args : list ScalarExpression; call_ty : LogicalType;
}.

(** The implementations of the trait [WindowFunction]. *)
Inductive WindowFunction :=
| RowNumber
| Rank (dense : bool)
| Aggregate (kind : AggKind) (ty : LogicalType) (arg : ScalarExpression) (accumulator : option Accumulator).

Definition function_new (call : WindowCall) : res WindowFunction :=
  match call_kind call with
  | WindowFunctionKind.RowNumber => Ok RowNumber
  | WindowFunctionKind.Rank => Ok (Rank false)
  | WindowFunctionKind.DenseRank => Ok (Rank true)
  | WindowFunctionKind.Aggregate kind =>
      match call_args call with
      | arg :: _ => Ok (Aggregate kind (call_ty call) arg None)
      | [] => Err Panic
      end
  end.

Definition function_reset (self : WindowFunction) : res WindowFunction :=
  match self with
  | Aggregate kind ty arg _ => let? acc := create_accumulator kind ty false in Ok (Aggregate kind ty arg (Some acc))
  | _ => Ok self
  end.

(** [row.values[output_position] = value]. *)
Definition set_output (output_position : nat) (value : DataValue) (row : Tuple) : res Tuple :=
  match values row !! output_position with
  | Some _ => Ok (mk_tuple (pk row) (<[output_position := value]> (values row)))
  | None => Err Panic
  end.

Definition write_rows (output_position : nat) (value : nat -> DataValue) (rows : list (nat * Tuple))
    : res (list (nat * Tuple)) :=
  rmap (fun r : nat * Tuple => let? row := set_output output_position (value r.1) r.2 in Ok (r.1, row)) rows.

Definition update_rows (arg : ScalarExpression) (acc : Accumulator) (rows : list Tuple) : res Accumulator :=
  rfold (fun acc row => let? v := eval arg (Some (values row)) in update_value acc v) acc rows.

(** [x as i64] of a [usize]. *)
Definition as_i64 (n : nat) : DataValue := DataValue.Int64 (as_s 64 (Z.of_nat n)).

(** [WindowFunction::evaluate]; the range of peers is always all of the rows. *)
Definition function_evaluate (self : WindowFunction) (rows : list (nat * Tuple)) (peer_start peer_index output_position : nat)
    : res (WindowFunction * list (nat * Tuple)) :=
  match self with
  | RowNumber =>
      let? rows := write_rows output_position (fun row_index => as_i64 (row_index + 1)) rows in Ok (self, rows)
  | Rank dense =>
      let rank := if dense then (peer_index + 1)%nat else (peer_start + 1)%nat in
      let? rows := write_rows output_position (fun _ => as_i64 rank) rows in Ok (self, rows)
  | Aggregate _ _ _ None => Err Panic
  | Aggregate kind ty arg (Some accumulator) =>
      let? accumulator := update_rows arg accumulator rows.*2 in
      let? result := evaluate accumulator in
      let? rows := write_rows output_position (fun _ => result) rows in
      Ok (Aggregate kind ty arg (Some accumulator), rows)
  end.

(** * The node *)

Record WindowState := mk_window_state {
  buffered : list (nat * Tuple); pending : option (Tuple * Boundary); sort_values : list DataValue; started : bool;
  partition_rows : nat; peer_start : nat; peer_index : nat;
}.

Record Window := mk_window {
  state : WindowState; retention : Retention; window_fields : list SortField; partition_by_len : nat;
  functions : list WindowFunction; input_exhausted : bool; window_input : Stream;
}.

Definition with_state (self : Window) (s : WindowState) : Window :=
  mk_window s (retention self) (window_fields self) (partition_by_len self) (functions self) (input_exhausted self) (window_input self).

Definition with_functions (self : Window) (fs : list WindowFunction) : Window :=
  mk_window (state self) (retention self) (window_fields self) (partition_by_len self) fs (input_exhausted self) (window_input self).

Definition with_buffered (s : WindowState) (b : list (nat * Tuple)) : WindowState :=
  mk_window_state b (pending s) (sort_values s) (started s) (partition_rows s) (peer_start s) (peer_index s).

Definition with_pending (s : WindowState) (p : option (Tuple * Boundary)) : WindowState :=
  mk_window_state (buffered s) p (sort_values s) (started s) (partition_rows s) (peer_start s) (peer_index s).

Definition with_keys (s : WindowState) (ks : list DataValue) : WindowState :=
  mk_window_state (buffered s) (pending s) ks true (partition_rows s) (peer_start s) (peer_index s).

Definition begin_partition (s : WindowState) : WindowState :=
  mk_window_state (buffered s) (pending s) (sort_values s) (started s) 0 0 0.

Definition begin_peer (s : WindowState) : WindowState :=
  mk_window_state (buffered s) (pending s) (sort_values s) (started s) (partition_rows s) (partition_rows s) (S (peer_index s)).

Definition is_aggregate (call : WindowCall) : bool :=
  match call_kind call with WindowFunctionKind.Aggregate _ => true | _ => false end.

Definition retention_for (sort_fields : list SortField) (partition_by_len : nat) (calls : list WindowCall) : Retention :=
  if negb (existsb is_aggregate calls) then Retention.Row
  else if decide (length sort_fields = partition_by_len) then Retention.Partition
  else Retention.Peer.

Definition window_new (sort_fields : list SortField) (partition_by_len : nat) (calls : list WindowCall) (input : Stream)
    : res Window :=
  let? functions := rmap function_new calls in
  Ok (mk_window (mk_window_state [] None [] false 0 0 0) (retention_for sort_fields partition_by_len calls)
        sort_fields partition_by_len functions false input).

(** [Window::update_keys]: what kind of group the row starts, if any. *)
Fixpoint update_keys_loop (fields : list SortField) (partition_by_len : nat) (started : bool) (t : Tuple) (index : nat)
    (sort_values : list DataValue) (boundary : option Boundary) : res (list DataValue * option Boundary) :=
  match fields with
  | [] => Ok (sort_values, boundary)
  | field :: fields' =>
      let? value := eval (expr field) (Some (values t)) in
      if started then
        match sort_values !! index with
        | None => Err Panic
        | Some old =>
            if dv_eq old value then update_keys_loop fields' partition_by_len started t (S index) sort_values boundary
            else
              let boundary :=
                if (index <? partition_by_len)%nat then Some Boundary.Partition
                else match boundary with None => Some Boundary.Peer | _ => boundary end in
              update_keys_loop fields' partition_by_len started t (S index) (<[index := value]> sort_values) boundary
        end
      else update_keys_loop fields' partition_by_len started t (S index) (sort_values ++ [value]) boundary
  end.

Definition update_keys (self : Window) (t : Tuple) : res (option Boundary * Window) :=
  let s := state self in
  let? (ks, boundary) := update_keys_loop (window_fields self) (partition_by_len self) (started s) t 0 (sort_values s)
                           (if started s then None else Some Boundary.Partition) in
  Ok (boundary, with_state self (with_keys s ks)).

Definition reset_functions (self : Window) : res Window :=
  let? fs := rmap function_reset (functions self) in Ok (with_functions self fs).

Fixpoint evaluate_functions (fs : list WindowFunction) (rows : list (nat * Tuple)) (peer_start peer_index output_position : nat)
    : res (list WindowFunction * list (nat * Tuple)) :=
  match fs with
  | [] => Ok ([], rows)
  | f :: fs' =>
      let? (f, rows) := function_evaluate f rows peer_start peer_index output_position in
      let? (fs', rows) := evaluate_functions fs' rows peer_start peer_index (S output_position) in
      Ok (f :: fs', rows)
  end.

Definition resized (n : nat) (row : Tuple) : Tuple := mk_tuple (pk row) (resize n DataValue.Null (values row)).

Definition eval_functions (self : Window) : res Window :=
  let s := state self in
  match buffered s with
  | [] => Ok self
  | (_, first) :: _ =>
      let output_offset := length (values first) in
      let rows := map (prod_map id (resized (output_offset + length (functions self)))) (buffered s) in
      let? (fs, rows) := evaluate_functions (functions self) rows (peer_start s) (peer_index s) output_offset in
      Ok (with_functions (with_state self (with_buffered s (reverse rows))) fs)
  end.

(** The boundary at which the rows kept back are complete. *)
Definition reached_boundary (r : Retention) (b : list (nat * Tuple)) (boundary : option Boundary) : option Boundary :=
  match boundary with
  | Some x =>
      if (bool_decide (x = Boundary.Partition) || bool_decide (x = Boundary.Peer) && bool_decide (r = Retention.Peer))
         && negb (bool_decide (length b = 0%nat))
      then Some x else None
  | None => None
  end.

(** [Window::eval]: is output ready? *)
Definition window_eval (self : Window) (t : Tuple) (boundary : option Boundary) : res (bool * Window) :=
  let? (boundary, self) := match boundary with Some _ => Ok (boundary, self) | None => update_keys self t end in
  match reached_boundary (retention self) (buffered (state self)) boundary with
  | Some b =>
      let? self := eval_functions (with_state self (with_pending (state self) (Some (t, b)))) in Ok (true, self)
  | None =>
      let? self := match boundary with
                   | Some Boundary.Partition => reset_functions (with_state self (begin_partition (state self)))
                   | Some Boundary.Peer => Ok (with_state self (begin_peer (state self)))
                   | None => Ok self
                   end in
      let s := state self in
      let self := with_state self (mk_window_state (buffered s ++ [(partition_rows s, t)]) (pending s) (sort_values s) (started s)
                                     (S (partition_rows s)) (peer_start s) (peer_index s)) in
      if decide (retention self = Retention.Row) then let? self := eval_functions self in Ok (true, self)
      else Ok (false, self)
  end.

(** [Vec::pop]. *)
Definition pop_row (b : list (nat * Tuple)) : option (Tuple * list (nat * Tuple)) :=
  match reverse b with
  | [] => None
  | (_, t) :: r => Some (t, reverse r)
  end.

Definition with_input (self : Window) (exhausted : bool) (input : Stream) : Window :=
  mk_window (state self) (retention self) (window_fields self) (partition_by_len self) (functions self) exhausted input.

(** The loop of [next_tuple]. An iteration takes the pending row, a row of the
    input or the end of the input. *)
Fixpoint window_loop (fuel : nat) (output_ready : bool) (self : Window) : poll Window :=
  match fuel with
  | O => Err Panic
  | S fuel' =>
      let s := state self in
      match (if output_ready then pop_row (buffered s) else None) with
      | Some (t, b) => Ok (Some t, with_state self (with_buffered s b))
      | None =>
          if input_exhausted self then Ok (None, self)
          else match pending s with
          | Some (t, boundary) =>
              let? (ready, self) := window_eval (with_state self (with_pending s None)) t (Some boundary) in
              window_loop fuel' ready self
          | None =>
              let? (o, input) := pull (window_input self) in
              let self := with_input self false input in
              match o with
              | Some t => let? (ready, self) := window_eval self t None in window_loop fuel' ready self
              | None =>
                  let? self := eval_functions self in window_loop fuel' true (with_input self true (window_input self))
              end
          end
      end
  end.

(** The pending row, the rows of the input, its end and the last answer. *)
Definition window_next (self : Window) : poll Window := window_loop (length (rows (window_input self)) + 4) true self.
End Functions.

(** * What the node computes *)

(** Maximal runs of adjacent related elements. *)
Section Runs.
Context {A : Type} (same : A -> A -> bool).

(** The rest of the run of [l], and the runs after it. *)
Fixpoint span_runs (l : A) (ts : list A) : list A * list (list A) :=
  match ts with
  | [] => ([], [])
  | t :: ts' => let (g, gs) := span_runs t ts' in if same l t then (t :: g, gs) else ([], (t :: g) :: gs)
  end.

Definition runs_of (ts : list A) : list (list A) :=
  match ts with
  | [] => []
  | t :: ts' => let (g, gs) := span_runs t ts' in (t :: g) :: gs
  end.

Lemma runs_of_concat ts : concat (runs_of ts) = ts.
Proof.
  destruct ts as [|t ts]; [done|]. cbn [runs_of].
  assert (forall l, let (g, gs) := span_runs l ts in g ++ concat gs = ts) as H.
  { clear t. induction ts as [|t ts IH]; intros l; [done|]. cbn [span_runs]. specialize (IH t).
    destruct (span_runs t ts) as [g gs]. destruct (same l t); cbn; by rewrite IH. }
  specialize (H t). destruct (span_runs t ts) as [g gs]. cbn. by rewrite H.
Qed.
End Runs.

Section Spec.
Context {OF : OrderedFloat} {CH : Chrono} {SF : ScalarFunctions}.
Context (fields : list SortField) (plen : nat) (calls : list WindowCall).

Definition keys_of (t : Tuple) : res (list DataValue) := rmap (fun f => eval (expr f) (Some (values t))) fields.

Definition same_keys (cut : list DataValue -> list DataValue) (t u : Tuple) : bool :=
  match keys_of t, keys_of u with
  | Ok a, Ok b => key_eq (cut a) (cut b)
  | _, _ => false
  end.

(** Equal partition keys; equal partition and order keys. *)
Definition same_partition : Tuple -> Tuple -> bool := same_keys (take plen).
Definition same_peers : Tuple -> Tuple -> bool := same_keys id.

(** An aggregate over rows. *)
Definition aggregate_over (kind : AggKind) (ty : LogicalType) (arg : ScalarExpression) (ts : list Tuple) : res Accumulator :=
  let? acc := create_accumulator kind ty false in update_rows arg acc ts.

(** The column of a call on the peer group [G], the [j]-th of its partition
    and behind the rows [D] of it: its value on the row at each index of the
    partition. *)
Definition column (D G : list Tuple) (j : nat) (call : WindowCall) : res (nat -> DataValue) :=
  match call_kind call with
  | WindowFunctionKind.RowNumber => Ok (fun i => as_i64 (i + 1))
  | WindowFunctionKind.Rank => Ok (fun _ => as_i64 (length D + 1))
  | WindowFunctionKind.DenseRank => Ok (fun _ => as_i64 (j + 1))
  | WindowFunctionKind.Aggregate kind =>
      match call_args call with
      | [] => Err Panic
      | arg :: _ =>
          let? acc := aggregate_over kind (call_ty call) arg (D ++ G) in
          let? v := evaluate acc in Ok (fun _ => v)
      end
  end.

(** The accumulators of a partition can be created. *)
Definition created (call : WindowCall) : res unit :=
  match call_kind call with
  | WindowFunctionKind.Aggregate kind => let? _ := create_accumulator kind (call_ty call) false in Ok tt
  | _ => Ok tt
  end.

(** The rows of a group, the first at index [k] of its partition, with columns. *)
Fixpoint extend_rows (k : nat) (cols : list (nat -> DataValue)) (G : list Tuple) : list Tuple :=
  match G with
  | [] => []
  | t :: G' => mk_tuple (pk t) (values t ++ map (fun c => c k) cols) :: extend_rows (S k) cols G'
  end.

Definition group_out (D G : list Tuple) (j : nat) : res (list Tuple) :=
  let? _ := rmap created calls in
  let? cols := rmap (column D G j) calls in
  Ok (extend_rows (length D) cols G).

Fixpoint peers_out (D : list Tuple) (j : nat) (Gs : list (list Tuple)) : list (res (list Tuple)) :=
  match Gs with
  | [] => []
  | G :: Gs' => group_out D G j :: peers_out (D ++ G) (S j) Gs'
  end.

Definition partition_out (P : list Tuple) : list (res (list Tuple)) := peers_out [] 0 (runs_of same_peers P).

Definition window_out (ts : list Tuple) : list (res (list Tuple)) := concat (map partition_out (runs_of same_partition ts)).

(** The groups in order, up to the first that fails. *)
Fixpoint emit (gs : list (res (list Tuple))) : Stream :=
  match gs with
  | [] => mk_stream [] None
  | Err e :: _ => mk_stream [] (Some e)
  | Ok ts :: gs' => mk_stream (ts ++ rows (emit gs')) (failure (emit gs'))
  end.

(** The groups still to come, in the group [B] that has [l] as its last row. *)
Fixpoint rest (D B : list Tuple) (j : nat) (l : Tuple) (ts : list Tuple) : list (res (list Tuple)) :=
  match ts with
  | [] => [group_out D B j]
  | t :: ts' =>
      if same_partition l t then
        if same_peers l t then rest D (B ++ [t]) j t ts'
        else group_out D B j :: rest (D ++ B) [t] (S j) t ts'
      else group_out D B j :: rest [] [t] 0 t ts'
  end.

Lemma rest_runs D B j l ts :
  rest D B j l ts =
    let (q, Ps) := span_runs same_partition l ts in
    peers_out D j (let (g, Gs) := span_runs same_peers l q in (B ++ g) :: Gs) ++ concat (map partition_out Ps).
Proof.
  revert D B j l. induction ts as [|t ts IH]; intros D B j l; cbn [rest span_runs]; [cbn; by rewrite app_nil_r|].
  rewrite !IH. destruct (span_runs same_partition t ts) as [q Ps]. destruct (same_partition l t).
  - cbn [span_runs]. destruct (span_runs same_peers t q) as [g Gs]. destruct (same_peers l t).
    + by rewrite <- app_assoc.
    + cbn. by rewrite app_nil_r.
  - cbn. rewrite app_nil_r. unfold partition_out. cbn [runs_of]. by destruct (span_runs same_peers t q).
Qed.

Lemma window_out_rest t ts : window_out (t :: ts) = rest [] [t] 0 t ts.
Proof.
  rewrite rest_runs. unfold window_out. cbn [runs_of]. destruct (span_runs same_partition t ts) as [q Ps].
  done.
Qed.

(** ** The functions on a group *)

(** An argument reads only the values of its input row. *)
Definition reads (n : nat) (e : ScalarExpression) : Prop :=
  forall vs extra, length vs = n -> eval e (Some (vs ++ extra)) = eval e (Some vs).

Definition call_reads (n : nat) (call : WindowCall) : Prop := Forall (reads n) (call_args call).

(** A function of a call, and its state behind the rows [D] of a partition. *)
Definition function_for (call : WindowCall) (f : WindowFunction) : Prop :=
  match f with
  | RowNumber => call_kind call = WindowFunctionKind.RowNumber
  | Rank dense => call_kind call = if dense then WindowFunctionKind.DenseRank else WindowFunctionKind.Rank
  | Aggregate kind ty arg _ =>
      call_kind call = WindowFunctionKind.Aggregate kind /\ call_ty call = ty /\ exists args, call_args call = arg :: args
  end.

Definition function_at (D : list Tuple) (call : WindowCall) (f : WindowFunction) : Prop :=
  function_for call f /\
  match f with
  | Aggregate kind ty arg a => exists acc, a = Some acc /\ aggregate_over kind ty arg D = Ok acc
  | _ => True
  end.

Lemma function_new_for call f : function_new call = Ok f -> function_for call f.
Proof.
  unfold function_new. destruct (call_kind call) eqn:Ek; try (intros [= <-]; done).
  destruct (call_args call) eqn:Ea; intros [= <-]. cbn. eauto.
Qed.

Lemma function_reset_at call f :
  function_for call f ->
  match created call with
  | Ok _ => exists f', function_reset f = Ok f' /\ function_at [] call f'
  | Err e => function_reset f = Err e
  end.
Proof.
  unfold created, function_at. destruct f as [|[]|kind ty arg a]; cbn; try (intros Hf; pose proof Hf as Hf'; rewrite Hf; by eauto).
  intros (Hk & <- & args & Ha). rewrite Hk. unfold aggregate_over.
  destruct (create_accumulator kind (call_ty call) false) as [acc|e] eqn:Ec; cbn; [|done].
  eexists. split; [done|]. split; [split_and!; [done..|by eexists]|]. exists acc. unfold aggregate_over. by rewrite Ec.
Qed.

Lemma function_reset_all cs fs :
  Forall2 function_for cs fs ->
  match rmap created cs with
  | Ok _ => exists fs', rmap function_reset fs = Ok fs' /\ Forall2 (function_at []) cs fs'
  | Err e => rmap function_reset fs = Err e
  end.
Proof.
  induction 1 as [|call f cs fs Hf _ IH]; cbn; [exists []; by split|]. apply function_reset_at in Hf.
  destruct (created call) as [u|e]; cbn; [|by rewrite Hf]. destruct Hf as (f' & -> & Hf). cbn.
  destruct (rmap created cs) as [us|e]; cbn; [|by rewrite IH]. destruct IH as (fs' & -> & IH). cbn. eexists. by split; [|constructor].
Qed.

(** Rows with their indices, some columns, and place for [m] more. *)
Fixpoint painted (k : nat) (cols : list (nat -> DataValue)) (m : nat) (G : list Tuple) : list (nat * Tuple) :=
  match G with
  | [] => []
  | t :: G' =>
      (k, mk_tuple (pk t) (values t ++ map (fun c => c k) cols ++ replicate m DataValue.Null)) :: painted (S k) cols m G'
  end.

Fixpoint indexed (k : nat) (G : list Tuple) : list (nat * Tuple) :=
  match G with [] => [] | t :: G' => (k, t) :: indexed (S k) G' end.

Definition wide (n : nat) (t : Tuple) : Prop := length (values t) = n.

Lemma indexed_snoc k G t : indexed k (G ++ [t]) = indexed k G ++ [((k + length G)%nat, t)].
Proof.
  revert k. induction G as [|u G IH]; intros k; cbn; [by rewrite Nat.add_0_r|]. rewrite IH. by rewrite Nat.add_succ_r.
Qed.

Lemma indexed_resized n m k G :
  Forall (wide n) G -> map (prod_map id (resized (n + m))) (indexed k G) = painted k [] m G.
Proof.
  intros H. revert k. induction H as [|t G Ht _ IH]; intros k; cbn; [done|]. rewrite IH. unfold resized, prod_map. cbn.
  unfold wide in Ht. rewrite resize_ge by lia. by rewrite Ht, Nat.add_comm, Nat.add_sub.
Qed.

Lemma painted_extend k cols G : (painted k cols 0 G).*2 = extend_rows k cols G.
Proof. revert k. induction G as [|t G IH]; intros k; cbn; [done|]. by rewrite IH, app_nil_r. Qed.

Lemma write_painted n k cols m c G :
  Forall (wide n) G ->
  write_rows (n + length cols) c (painted k cols (S m) G) = Ok (painted k (cols ++ [c]) m G).
Proof.
  intros H. unfold write_rows. revert k. induction H as [|t G Ht _ IH]; intros k; [done|].
  cbn [painted rmap fst snd]. rewrite IH. unfold set_output. cbn [values pk replicate]. rewrite app_assoc.
  assert (n + length cols = length (values t ++ map (fun c => c k) cols) + 0)%nat as ->.
  { unfold wide in Ht. rewrite length_app, length_map, Ht. lia. }
  rewrite lookup_app_r, insert_app_r by lia. rewrite Nat.add_0_r, Nat.sub_diag. cbn.
  by rewrite map_app, <- !app_assoc.
Qed.

Lemma update_painted n arg acc k cols m G :
  reads n arg -> Forall (wide n) G -> update_rows arg acc (painted k cols m G).*2 = update_rows arg acc G.
Proof.
  intros Hr H. unfold update_rows. revert acc k. induction H as [|t G Ht _ IH]; intros acc k; [done|].
  cbn [painted fmap list_fmap rfold snd values]. rewrite Hr by done.
  destruct (eval arg (Some (values t))) as [v|]; cbn; [|done]. destruct (update_value acc v); cbn; [|done]. apply IH.
Qed.

Lemma update_rows_app arg acc D G :
  update_rows arg acc (D ++ G) = (let? acc := update_rows arg acc D in update_rows arg acc G).
Proof. unfold update_rows. apply rfold_app. Qed.

Lemma function_evaluate_at n D G j k call f cols m :
  function_at D call f -> call_reads n call -> Forall (wide n) G ->
  match column D G j call with
  | Ok c => exists f', function_evaluate f (painted k cols (S m) G) (length D) j (n + length cols) =
      Ok (f', painted k (cols ++ [c]) m G) /\ function_at (D ++ G) call f'
  | Err e => function_evaluate f (painted k cols (S m) G) (length D) j (n + length cols) = Err e
  end.
Proof.
  intros [Hf Ha] Hr Hw. unfold column. destruct f as [|dense|kind ty arg a]; cbn in Hf.
  - rewrite Hf. cbn. rewrite (write_painted n) by done. cbn. eexists. by split.
  - rewrite Hf. destruct dense; cbn; rewrite (write_painted n) by done; cbn; eexists; by split.
  - destruct Hf as (Hk & <- & args & Hargs). destruct Ha as (acc & -> & Hacc). rewrite Hk, Hargs. cbn.
    unfold call_reads in Hr. rewrite Hargs in Hr. apply Forall_cons_1 in Hr as [Hr _].
    rewrite (update_painted n) by done. unfold aggregate_over in *.
    destruct (create_accumulator kind (call_ty call) false) as [acc0|] eqn:Ec; cbn in Hacc; [|done]. cbn.
    rewrite update_rows_app, Hacc. cbn. destruct (update_rows arg acc G) as [acc'|] eqn:Eu; cbn; [|done].
    destruct (evaluate acc') as [v|]; cbn; [|done]. rewrite (write_painted n) by done. cbn.
    eexists. split; [done|]. split; [split_and!; [done..|by eexists]|]. exists acc'. unfold aggregate_over. rewrite Ec. cbn.
    by rewrite update_rows_app, Hacc.
Qed.

Lemma evaluate_functions_at n D G j k cs fs cols :
  Forall2 (function_at D) cs fs -> Forall (call_reads n) cs -> Forall (wide n) G ->
  match rmap (column D G j) cs with
  | Ok cols' => exists fs', evaluate_functions fs (painted k cols (length fs) G) (length D) j (n + length cols) =
      Ok (fs', painted k (cols ++ cols') 0 G) /\ Forall2 (function_at (D ++ G)) cs fs'
  | Err e => evaluate_functions fs (painted k cols (length fs) G) (length D) j (n + length cols) = Err e
  end.
Proof.
  intros H Hr Hw. revert cols. induction H as [|call f cs fs Hf _ IH]; intros cols; cbn.
  - exists []. rewrite app_nil_r. by split.
  - apply Forall_cons_1 in Hr as [Hr Hrs]. specialize (IH Hrs).
    pose proof (function_evaluate_at n D G j k call f cols (length fs) Hf Hr Hw) as H1.
    destruct (column D G j call) as [c|e]; cbn; [|by rewrite H1]. destruct H1 as (f' & -> & Hf'). cbn.
    specialize (IH (cols ++ [c])). rewrite length_app, Nat.add_1_r, Nat.add_succ_r in IH.
    destruct (rmap (column D G j) cs) as [cols'|e]; cbn; [|by rewrite IH].
    destruct IH as (fs' & -> & Hfs'). cbn. rewrite <- app_assoc. eexists. by split; [|constructor].
Qed.

(** ** The boundaries *)

Lemma update_keys_first fs t ks i sv b :
  rmap (fun f => eval (expr f) (Some (values t))) fs = Ok ks ->
  update_keys_loop fs plen false t i sv b = Ok (sv ++ ks, b).
Proof.
  revert ks i sv. induction fs as [|f fs IH]; intros ks i sv H; cbn in H |- *.
  - apply Ok_inj in H. subst. by rewrite app_nil_r.
  - destruct (eval (expr f) (Some (values t))) as [v|]; cbn in *; [|done]. inv_ok. subst.
    erewrite IH by done. by rewrite <- app_assoc.
Qed.

(** What the keys of a row say about its place. *)
Definition boundary_at (i : nat) (old ks : list DataValue) (b : option Boundary) : option Boundary :=
  if key_eq (take (plen - i) old) (take (plen - i) ks) then
    match b with None => if key_eq old ks then None else Some Boundary.Peer | _ => b end
  else Some Boundary.Partition.

Lemma keys_cons (o v : DataValue) (old vs : list DataValue) :
  key_eq (o :: old) (v :: vs) = dv_eq o v && key_eq old vs.
Proof. done. Qed.

(** One key more in front. *)
Lemma boundary_cons i o v old vs b :
  boundary_at i (o :: old) (v :: vs) b =
    boundary_at (S i) old vs
      (if dv_eq o v then b
       else if (i <? plen)%nat then Some Boundary.Partition else match b with None => Some Boundary.Peer | _ => b end).
Proof.
  unfold boundary_at. rewrite keys_cons. destruct (Nat.ltb_spec i plen).
  - replace (plen - i)%nat with (S (plen - S i)) by lia. cbn [take]. rewrite keys_cons.
    destruct (dv_eq o v); cbn [andb]; [done|]. by destruct (key_eq (take _ old) _).
  - replace (plen - i)%nat with 0%nat by lia. replace (plen - S i)%nat with 0%nat by lia. cbn [take].
    destruct (dv_eq o v), b; done.
Qed.

Lemma update_keys_again fs t ks pre old b :
  rmap (fun f => eval (expr f) (Some (values t))) fs = Ok ks -> length old = length ks ->
  exists new, update_keys_loop fs plen true t (length pre) (pre ++ old) b = Ok (pre ++ new, boundary_at (length pre) old ks b) /\
    key_eq new ks = true.
Proof.
  revert ks pre old b. induction fs as [|f fs IH]; intros ks pre old b H Hl; cbn in H.
  - apply Ok_inj in H. subst ks. destruct old; [|done]. exists []. unfold boundary_at. rewrite take_nil. by destruct b.
  - destruct (eval (expr f) (Some (values t))) as [v|] eqn:Ev; cbn in H; [|done]. apply rbind_ok in H as (vs & Hvs & H).
    apply Ok_inj in H. subst ks. destruct old as [|o old]; [done|]. cbn in Hl. injection Hl as Hl. cbn [update_keys_loop].
    rewrite Ev. cbn [rbind]. rewrite list_lookup_middle by done. rewrite boundary_cons. destruct (dv_eq o v) eqn:E.
    + destruct (IH vs (pre ++ [o]) old b Hvs Hl) as (new & Hn & Hk). exists (o :: new).
      rewrite length_app, Nat.add_1_r, <- !app_assoc in Hn. split; [done|]. by rewrite keys_cons, E.
    + cbn zeta. match goal with |- context [update_keys_loop fs plen true t _ _ ?x] =>
        destruct (IH vs (pre ++ [v]) old x Hvs Hl) as (new & Hn & Hk) end.
      exists (v :: new). rewrite length_app, Nat.add_1_r, <- !app_assoc in Hn.
      replace (<[length pre := v]> (pre ++ o :: old)) with (pre ++ [v] ++ old).
      * split; [done|]. by rewrite keys_cons, dv_eq_refl.
      * replace (length pre) with (length pre + 0)%nat by lia. by rewrite insert_app_r.
Qed.

(** ** Emitting a group *)

Context (n : nat) (r : Retention) (us : list unit).
Context (Hreads : Forall (call_reads n) calls) (Hcreated : rmap created calls = Ok us).

(** The node with the given parts. *)
Definition node (b : list (nat * Tuple)) (p : option (Tuple * Boundary)) (sv : list DataValue) (pr ps j : nat)
    (fs : list WindowFunction) (ex : bool) (ts : list Tuple) : Window :=
  mk_window (mk_window_state b p sv true pr ps j) r fields plen fs ex (mk_stream ts None).

Definition next_is (q : poll Window) (o : Stream) : Prop := forall s, window_next s = q -> runs window_next s o.

Lemma next_is_run s o : next_is (window_next s) o -> runs window_next s o.
Proof. intros H. by apply H. Qed.

Lemma group_evaluated D G j k p sv pr fs ex ts :
  Forall2 (function_at D) calls fs -> Forall (wide n) G -> G <> [] ->
  match rmap (column D G j) calls with
  | Ok cols => exists R fs', eval_functions (node (indexed k G) p sv pr (length D) j fs ex ts) =
      Ok (node (reverse R) p sv pr (length D) j fs' ex ts) /\ R.*2 = extend_rows k cols G /\ R <> [] /\
      Forall2 (function_at (D ++ G)) calls fs'
  | Err e => eval_functions (node (indexed k G) p sv pr (length D) j fs ex ts) = Err e
  end.
Proof.
  intros Hf Hw Hne. unfold eval_functions, node. cbn [state buffered functions peer_start peer_index].
  pose proof (evaluate_functions_at n D G j k calls fs [] Hf Hreads Hw) as H. rewrite Nat.add_0_r in H.
  destruct (indexed k G) as [|[i t] b] eqn:Ei; [by destruct G|].
  assert (length (values t) = n) as ->.
  { destruct G as [|t' G]; [done|]. cbn in Ei. simplify_eq. by apply Forall_cons_1 in Hw as [Hw _]. }
  rewrite <- Ei, (indexed_resized n) by done.
  destruct (rmap (column D G j) calls) as [cols|e]; cbn [rbind]; [|by rewrite H].
  destruct H as (fs' & -> & Hf'). cbn [rbind]. exists (painted k cols 0 G), fs'. split_and!; [done| |by destruct G|done].
  apply painted_extend.
Qed.

Lemma loop_pops k t R p sv pr ps j fs ex ts fuel :
  window_loop (S fuel) true (node (reverse ((k, t) :: R)) p sv pr ps j fs ex ts) = Ok (Some t, node (reverse R) p sv pr ps j fs ex ts).
Proof. unfold node. cbn [window_loop state buffered]. unfold pop_row. by rewrite reverse_involutive. Qed.

Lemma drained R p sv pr ps j fs ex ts o :
  runs window_next (node [] p sv pr ps j fs ex ts) o ->
  runs window_next (node (reverse R) p sv pr ps j fs ex ts) (mk_stream (R.*2 ++ rows o) (failure o)).
Proof.
  intros H. induction R as [|[k t] R IH]; [cbn; by rewrite stream_eta|]. cbn [fmap list_fmap app snd].
  eapply runs_row; [|exact IH]. unfold window_next. rewrite Nat.add_succ_r. apply loop_pops.
Qed.

Lemma flushed R p sv pr ps j fs ex ts fuel o :
  R <> [] -> runs window_next (node [] p sv pr ps j fs ex ts) o ->
  next_is (window_loop (S fuel) true (node (reverse R) p sv pr ps j fs ex ts)) (mk_stream (R.*2 ++ rows o) (failure o)).
Proof.
  intros Hne H s Hs. destruct R as [|[k t] R]; [done|]. rewrite loop_pops in Hs.
  cbn [fmap list_fmap app snd]. eapply runs_row; [exact Hs|]. by apply drained.
Qed.

(** ** Steps *)

Lemma keys_stored t ks sv b p pr ps j fs ex ts lk l :
  keys_of l = Ok lk -> keys_of t = Ok ks -> key_eq sv lk = true ->
  exists sv', update_keys (node b p sv pr ps j fs ex ts) t =
    Ok (if same_partition l t then if same_peers l t then None else Some Boundary.Peer else Some Boundary.Partition,
        node b p sv' pr ps j fs ex ts) /\ key_eq sv' ks = true.
Proof.
  intros Hl Ht Hs. pose proof (proj1 (seq_eq_forall sv lk) Hs) as Hs2.
  assert (length sv = length ks) as Hlen.
  { apply Forall2_length in Hs2. unfold keys_of in Hl, Ht. apply rmap_Ok, Forall2_length in Hl.
    apply rmap_Ok, Forall2_length in Ht. congruence. }
  destruct (update_keys_again fields t ks [] sv None Ht Hlen) as (new & Hn & Hk). exists new. split; [|done].
  unfold update_keys, node. cbn [state started sort_values window_fields partition_by_len]. cbn [app length] in Hn.
  rewrite Hn. cbn [rbind]. do 3 f_equal. unfold boundary_at. rewrite Nat.sub_0_r.
  unfold same_partition, same_peers, same_keys. rewrite Hl, Ht.
  rewrite (key_eq_cong_l (take plen sv) (take plen lk) (take plen ks)).
  - by rewrite (key_eq_cong_l sv lk ks Hs).
  - apply seq_eq_forall. by apply Forall2_take.
Qed.

(** A row of the width, on which the keys evaluate. *)
Definition good_row (t : Tuple) : Prop := wide n t /\ exists ks, keys_of t = Ok ks.

Lemma reset_created fs :
  Forall2 function_for calls fs -> exists fs', rmap function_reset fs = Ok fs' /\ Forall2 (function_at []) calls fs'.
Proof. intros Hfs. pose proof (function_reset_all calls fs Hfs) as H. by rewrite Hcreated in H. Qed.

Lemma next_pull sv pr ps j fs t ts :
  window_next (node [] None sv pr ps j fs false (t :: ts)) =
    (let? (ready, w) := window_eval (node [] None sv pr ps j fs false ts) t None in window_loop (length ts + 4) ready w).
Proof. done. Qed.

Lemma nothing_held x : reached_boundary r [] x = None.
Proof. destruct x as [x|]; [|done]. cbn. by rewrite andb_false_r. Qed.

Section Held.
Context (Hr : r <> Retention.Row).

Lemma eval_same b pr ps j sv sv' t fs ts :
  update_keys (node b None sv pr ps j fs false ts) t = Ok (None, node b None sv' pr ps j fs false ts) ->
  window_eval (node b None sv pr ps j fs false ts) t None = Ok (false, node (b ++ [(pr, t)]) None sv' (S pr) ps j fs false ts).
Proof. intros H. unfold window_eval. rewrite H. unfold node. cbn. by rewrite decide_False. Qed.

Lemma eval_boundary b pr ps j sv sv' t x fs ts :
  update_keys (node b None sv pr ps j fs false ts) t = Ok (Some x, node b None sv' pr ps j fs false ts) ->
  b <> [] -> x = Boundary.Partition \/ r = Retention.Peer ->
  window_eval (node b None sv pr ps j fs false ts) t None =
    (let? w := eval_functions (node b (Some (t, x)) sv' pr ps j fs false ts) in Ok (true, w)).
Proof.
  intros H Hb Hx. unfold window_eval. rewrite H. unfold node. cbn [rbind retention state buffered].
  assert (reached_boundary r b (Some x) = Some x) as ->; [|done].
  unfold reached_boundary. rewrite (bool_decide_false (length b = 0%nat)) by (by destruct b).
  destruct Hx as [->| ->]; [done|]. by destruct x.
Qed.

Lemma eval_pending_peer pr ps j sv t fs ts :
  window_eval (node [] None sv pr ps j fs false ts) t (Some Boundary.Peer) =
    Ok (false, node [(pr, t)] None sv (S pr) pr (S j) fs false ts).
Proof.
  unfold window_eval, node. cbn [rbind retention state buffered]. rewrite nothing_held. cbn. by rewrite decide_False.
Qed.

Lemma eval_pending_partition pr ps j sv t fs ts :
  window_eval (node [] None sv pr ps j fs false ts) t (Some Boundary.Partition) =
    (let? fs' := rmap function_reset fs in Ok (false, node [(0%nat, t)] None sv 1 0 0 fs' false ts)).
Proof.
  unfold window_eval, node. cbn [rbind retention state buffered]. rewrite nothing_held. cbn.
  unfold reset_functions. cbn [functions with_state]. destruct (rmap function_reset fs) as [fs'|e]; cbn; [|done].
  by rewrite decide_False.
Qed.

(** A complete group is emitted, and then what follows. *)
Lemma group_emitted D B j p sv pr fs ex ts fuel more :
  Forall2 (function_at D) calls fs -> Forall (wide n) B -> B <> [] ->
  (forall fs', Forall2 (function_at (D ++ B)) calls fs' ->
    runs window_next (node [] p sv pr (length D) j fs' ex ts) (emit more)) ->
  next_is (let? w := eval_functions (node (indexed (length D) B) p sv pr (length D) j fs ex ts) in window_loop (S fuel) true w)
    (emit (group_out D B j :: more)).
Proof.
  intros Hfs HB Hne Hmore. pose proof (group_evaluated D B j (length D) p sv pr fs ex ts Hfs HB Hne) as Hg.
  unfold group_out. rewrite Hcreated. cbn [rbind].
  destruct (rmap (column D B j) calls) as [cols|e]; cbn [rbind emit].
  - destruct Hg as (R & fs' & -> & <- & HR & Hfs'). cbn [rbind]. apply flushed; [done|]. by apply Hmore.
  - rewrite Hg. intros s Hs. by apply runs_fail.
Qed.

Lemma loop_pull fuel b sv pr ps j fs t ts :
  window_loop (S fuel) false (node b None sv pr ps j fs false (t :: ts)) =
    (let? (ready, w) := window_eval (node b None sv pr ps j fs false ts) t None in window_loop fuel ready w).
Proof. done. Qed.

Lemma loop_end fuel b sv pr ps j fs :
  window_loop (S fuel) false (node b None sv pr ps j fs false []) =
    (let? w := eval_functions (node b None sv pr ps j fs false []) in window_loop fuel true (with_input w true (window_input w))).
Proof. done. Qed.

Lemma eval_functions_exhausted b p sv pr ps j fs ts ts' :
  (let? w := eval_functions (node b p sv pr ps j fs false ts) in Ok (with_input w true (mk_stream ts' None))) =
    eval_functions (node b p sv pr ps j fs true ts').
Proof.
  unfold eval_functions, node. cbn [state buffered functions peer_start peer_index]. destruct b as [|[k t] b]; [done|].
  by destruct (evaluate_functions _ _ _ _ _) as [[]|].
Qed.

Lemma next_pending sv pr ps j fs t x ts :
  window_next (node [] (Some (t, x)) sv pr ps j fs false ts) =
    (let? (ready, w) := window_eval (node [] None sv pr ps j fs false ts) t (Some x) in window_loop (length ts + 3) ready w).
Proof. unfold window_next. rewrite (Nat.add_succ_r _ 3). done. Qed.

Lemma eval_functions_input b p sv pr ps j fs ex ts w :
  eval_functions (node b p sv pr ps j fs ex ts) = Ok w -> window_input w = mk_stream ts None.
Proof.
  unfold eval_functions, node. cbn [state buffered functions peer_start peer_index].
  destruct b as [|[k t] b]; [by intros [= <-]|]. destruct (evaluate_functions _ _ _ _ _) as [[]|]; [|done]. by intros [= <-].
Qed.

Lemma functions_for D cs fs : Forall2 (function_at D) cs fs -> Forall2 function_for cs fs.
Proof. apply Forall2_impl. by intros ? ? []. Qed.

(** Without order keys a partition is one group. *)
Lemma peer_retention l t lk ks :
  r = Retention.Peer \/ length fields = plen -> keys_of l = Ok lk -> keys_of t = Ok ks ->
  same_partition l t = true -> same_peers l t = false -> r = Retention.Peer.
Proof.
  intros [?|Hlen] Hl Ht; [done|]. unfold same_partition, same_peers, same_keys. rewrite Hl, Ht. unfold keys_of in Hl, Ht.
  apply rmap_Ok, Forall2_length in Hl. apply rmap_Ok, Forall2_length in Ht. rewrite !take_ge by lia.
  intros H1 H2. unfold id in H2. congruence.
Qed.

(** From the middle of a group: the groups still to come. *)
Lemma held_rest ts : forall D B j l lk sv fs fuel,
  r = Retention.Peer \/ length fields = plen ->
  Forall good_row ts -> Forall (wide n) B -> B <> [] -> keys_of l = Ok lk -> key_eq sv lk = true ->
  Forall2 (function_at D) calls fs -> (length ts + 2 <= fuel)%nat ->
  next_is (window_loop fuel false (node (indexed (length D) B) None sv (length D + length B) (length D) j fs false ts))
    (emit (rest D B j l ts)).
Proof.
  intros D B j l lk sv fs fuel Hret Hts HB Hne Hl Hsv Hfs Hfuel. revert D B j l lk sv fs fuel HB Hne Hl Hsv Hfs Hfuel.
  induction Hts as [|t ts [Hwt [ks Ht]] _ IH]; intros; (destruct fuel as [|[|fuel]]; [cbn in Hfuel; lia..|]).
  - rewrite loop_end. cbn [rest].
    pose proof (group_emitted D B j None sv (length D + length B) fs true [] fuel [] Hfs HB Hne) as Hg.
    rewrite <- (eval_functions_exhausted _ _ _ _ _ _ _ [] []) in Hg.
    destruct (eval_functions (node (indexed (length D) B) None sv (length D + length B) (length D) j fs false [])) as [w|e] eqn:Ew;
      cbn [rbind] in Hg |- *; [|apply Hg; intros; by eapply runs_end].
    rewrite (eval_functions_input _ _ _ _ _ _ _ _ _ _ Ew). apply Hg. intros. by eapply runs_end.
  - rewrite loop_pull. cbn [length] in Hfuel.
    destruct (keys_stored t ks sv (indexed (length D) B) None (length D + length B) (length D) j fs false ts lk l Hl Ht Hsv)
      as (sv' & Hu & Hsv').
    assert (indexed (length D) B <> []) as HiB by (by destruct B).
    cbn [rest]. destruct (same_partition l t) eqn:Ep; [destruct (same_peers l t) eqn:Eq|].
    + rewrite (eval_same _ _ _ _ _ _ _ _ _ Hu). cbn [rbind]. rewrite <- indexed_snoc.
      replace (S (length D + length B)) with (length D + length (B ++ [t]))%nat by (rewrite length_app; cbn; lia).
      apply (IH D (B ++ [t]) j t ks); try done; [|by destruct B|lia]. apply Forall_app. by split; [|constructor].
    + rewrite (eval_boundary _ _ _ _ _ _ _ _ _ _ Hu HiB), rbind_assoc by (right; by apply (peer_retention l t lk ks)).
      apply group_emitted; [done..|]. intros fs' Hfs'. apply next_is_run. rewrite next_pending, eval_pending_peer. cbn [rbind].
      rewrite <- length_app. replace (S (length (D ++ B))) with (length (D ++ B) + length [t])%nat by (cbn; lia).
      apply (IH (D ++ B) [t] (S j) t ks); try done; [by constructor|lia].
    + rewrite (eval_boundary _ _ _ _ _ _ _ _ _ _ Hu HiB), rbind_assoc by (by left).
      apply group_emitted; [done..|]. intros fs' Hfs'. apply next_is_run. rewrite next_pending, eval_pending_partition.
      destruct (reset_created fs' (functions_for _ _ _ Hfs')) as (fs'' & -> & Hfs''). cbn [rbind].
      apply (IH [] [t] 0%nat t ks); try done; [by constructor|lia].
Qed.
End Held.

(** ** Without aggregates every row is emitted at once *)

Section Streamed.
Context (Hr : r = Retention.Row) (Hplain : existsb is_aggregate calls = false).

Definition columns (D : list Tuple) (j : nat) : list (nat -> DataValue) :=
  match rmap (column D [] j) calls with Ok cols => cols | Err _ => [] end.

Lemma plain_calls : Forall (fun call => is_aggregate call = false) calls.
Proof.
  clear -Hplain. induction calls as [|c cs IH]; [done|]. cbn in Hplain. apply orb_false_iff in Hplain as [? ?]. constructor; [done|by apply IH].
Qed.

Lemma plain_columns D G j : rmap (column D G j) calls = Ok (columns D j).
Proof.
  assert (exists cols, forall G, rmap (column D G j) calls = Ok cols) as [cols H]; [|unfold columns; by rewrite !H].
  pose proof plain_calls as H. clear -H. induction H as [|c cs Hc _ [cols IH]]; [by exists []|].
  assert (exists f, forall G, column D G j c = Ok f) as [f Hf].
  { unfold column, is_aggregate in *. destruct (call_kind c); try done; eexists; intros; reflexivity. }
  exists (f :: cols). intros G. cbn. by rewrite Hf, IH.
Qed.

Lemma plain_at D fs : Forall2 function_for calls fs -> Forall2 (function_at D) calls fs.
Proof.
  pose proof plain_calls as Hp. intros H. revert Hp. clear -H. induction H as [|c f cs fs Hf _ IH]; intros Hp; [done|].
  apply Forall_cons_1 in Hp as [Hc Hp]. constructor; [|by apply IH]. split; [done|].
  destruct f; [done..|]. destruct Hf as [Hk _]. unfold is_aggregate in Hc. by rewrite Hk in Hc.
Qed.

(** The rows behind the rows [B] of the current group. *)
Fixpoint row_rest (D B : list Tuple) (j : nat) (l : Tuple) (ts : list Tuple) : list Tuple :=
  match ts with
  | [] => []
  | t :: ts' =>
      if same_partition l t then
        if same_peers l t then extend_rows (length D + length B) (columns D j) [t] ++ row_rest D (B ++ [t]) j t ts'
        else extend_rows (length D + length B) (columns (D ++ B) (S j)) [t] ++ row_rest (D ++ B) [t] (S j) t ts'
      else extend_rows 0 (columns [] 0) [t] ++ row_rest [] [t] 0 t ts'
  end.

Lemma extend_rows_app k cols G H : extend_rows k cols (G ++ H) = extend_rows k cols G ++ extend_rows (k + length G) cols H.
Proof.
  revert k. induction G as [|t G IH]; intros k; cbn [extend_rows app length]; [by rewrite Nat.add_0_r|].
  rewrite IH. by rewrite Nat.add_succ_r.
Qed.

Lemma emit_rest_rows D B j l ts :
  emit (rest D B j l ts) = mk_stream (extend_rows (length D) (columns D j) B ++ row_rest D B j l ts) None.
Proof.
  assert (forall D B j, group_out D B j = Ok (extend_rows (length D) (columns D j) B)) as Hg.
  { intros. unfold group_out. rewrite Hcreated, plain_columns. done. }
  revert D B j l. induction ts as [|t ts IH]; intros D B j l; cbn [rest row_rest]; [by cbn; rewrite Hg|].
  destruct (same_partition l t); [destruct (same_peers l t)|].
  - rewrite IH, extend_rows_app. by rewrite <- app_assoc.
  - cbn [emit]. rewrite Hg, IH. cbn [rows failure]. by rewrite length_app.
  - cbn [emit]. by rewrite Hg, IH.
Qed.

(** A row, evaluated alone and emitted. *)
Lemma row_emitted D j k t sv fs ts fuel out :
  Forall2 function_for calls fs -> wide n t ->
  (forall fs', Forall2 function_for calls fs' -> runs window_next (node [] None sv (S k) (length D) j fs' false ts) (mk_stream out None)) ->
  next_is (let? (ready, w) := (let? w := eval_functions (node [(k, t)] None sv (S k) (length D) j fs false ts) in Ok (true, w)) in
           window_loop (S fuel) ready w)
    (mk_stream (extend_rows k (columns D j) [t] ++ out) None).
Proof.
  intros Hfs Ht Hout.
  pose proof (group_evaluated D [t] j k None sv (S k) fs false ts (plain_at D fs Hfs)) as Hg. rewrite plain_columns in Hg.
  destruct Hg as (R & fs' & He & <- & HR & Hfs'); [by constructor|done|]. cbn [indexed] in He. rewrite He. cbn [rbind].
  apply (flushed R None sv (S k) (length D) j fs' false ts fuel (mk_stream out None) HR). apply Hout. by eapply functions_for.
Qed.

Lemma row_eval pr ps j sv t b fs ts w :
  (match b with Some _ => Ok (b, node [] None sv pr ps j fs false ts)
   | None => update_keys (node [] None sv pr ps j fs false ts) t end) = Ok w ->
  window_eval (node [] None sv pr ps j fs false ts) t b =
    let sv' := sort_values (state w.2) in
    match w.1 with
    | None => let? w := eval_functions (node [(pr, t)] None sv' (S pr) ps j fs false ts) in Ok (true, w)
    | Some Boundary.Peer => let? w := eval_functions (node [(pr, t)] None sv' (S pr) pr (S j) fs false ts) in Ok (true, w)
    | Some Boundary.Partition =>
        let? fs' := rmap function_reset fs in
        let? w := eval_functions (node [(0%nat, t)] None sv' 1 0 0 fs' false ts) in Ok (true, w)
    end.
Proof.
  intros H. unfold window_eval. rewrite H. destruct w as [x w].
  assert (exists sv', w = node [] None sv' pr ps j fs false ts) as [sv' ->].
  { destruct b; [simplify_eq; by eexists|]. unfold update_keys in H. apply rbind_ok in H as ([ks bb] & _ & H).
    apply Ok_inj in H. simplify_eq. by eexists. }
  unfold node. cbn [rbind retention state buffered fst snd sort_values]. rewrite nothing_held.
  destruct x as [[]|]; cbn [rbind]; unfold reset_functions; cbn [functions with_state];
    [destruct (rmap function_reset fs) as [fs'|]; cbn [rbind]; [|done]|..]; cbn; by rewrite decide_True.
Qed.

Lemma row_runs ts : forall D B j l lk sv fs,
  Forall good_row ts -> keys_of l = Ok lk -> key_eq sv lk = true -> Forall2 function_for calls fs ->
  runs window_next (node [] None sv (length D + length B) (length D) j fs false ts) (mk_stream (row_rest D B j l ts) None).
Proof.
  induction ts as [|t ts IH]; intros D B j l lk sv fs Hts Hl Hsv Hfs; [by eapply runs_end|].
  apply Forall_cons_1 in Hts as [[Hwt [ks Ht]] Hts]. apply next_is_run.
  destruct (keys_stored t ks sv [] None (length D + length B) (length D) j fs false ts lk l Hl Ht Hsv) as (sv' & Hu & Hsv').
  rewrite next_pull, (row_eval _ _ _ _ _ None _ _ _ Hu). cbn [fst snd state sort_values node row_rest]. cbn zeta.
  rewrite (Nat.add_succ_r (length ts) 3).
  destruct (same_partition l t); [destruct (same_peers l t)|].
  - apply row_emitted; [done..|]. intros fs' Hfs'.
    replace (S (length D + length B)) with (length D + length (B ++ [t]))%nat by (rewrite length_app; cbn; lia).
    by apply (IH D (B ++ [t]) j t ks).
  - rewrite <- length_app. apply row_emitted; [done..|]. intros fs' Hfs'.
    replace (S (length (D ++ B))) with (length (D ++ B) + length [t])%nat by (cbn; lia). by apply (IH (D ++ B) [t] (S j) t ks).
  - destruct (reset_created fs Hfs) as (fs1 & -> & Hfs1). cbn [rbind].
    apply (row_emitted [] 0 0); [by eapply functions_for|done|]. intros fs' Hfs'. by apply (IH [] [t] 0%nat t ks).
Qed.
End Streamed.
End Spec.

Section Theorems.
Context {OF : OrderedFloat} {CH : Chrono} {SF : ScalarFunctions}.

Lemma first_row fields plen r fs t ks ts :
  keys_of fields t = Ok ks ->
  window_next (mk_window (mk_window_state [] None [] false 0 0 0) r fields plen fs false (mk_stream (t :: ts) None)) =
    (let? (ready, w) := window_eval (node fields plen r [] None ks 0 0 0 fs false ts) t (Some Boundary.Partition) in
     window_loop (length ts + 4) ready w).
Proof.
  intros Ht. unfold window_next. cbn [window_input rows length Nat.add].
  cbn [window_loop state buffered pop_row input_exhausted pending window_input pull rows failure rbind].
  change (reverse []) with (@nil (nat * Tuple)). cbn [rbind]. f_equal. unfold window_eval, update_keys, with_input.
  cbn [state window_fields partition_by_len started sort_values]. by rewrite (update_keys_first plen fields t ks 0 [] _ Ht).
Qed.

Lemma emit_uncreated fields plen calls e D B j l ts :
  rmap created calls = Err e -> emit (rest fields plen calls D B j l ts) = mk_stream [] (Some e).
Proof.
  intros He. revert D B j l. induction ts as [|t ts IH]; intros D B j l; cbn [rest].
  - cbn. unfold group_out. by rewrite He.
  - destruct (same_partition _ _ l t); [destruct (same_peers _ l t); [apply IH|]|]; cbn; unfold group_out; by rewrite He.
Qed.

Lemma new_functions calls fs : rmap function_new calls = Ok fs -> Forall2 function_for calls fs.
Proof. rewrite rmap_Ok. apply Forall2_impl. apply function_new_for. Qed.

(** C10: The window node ends, and emits each row of its input once, in order,
    with one column per call appended: its number in the partition, the number
    of rows of the partition before its peer group plus one, the number of peer
    groups before plus one, or the aggregate over the rows of the partition up
    to the end of its peer group, whichever way the node keeps rows back.
    Partitions and peer groups are the maximal runs of adjacent rows with equal
    partition keys and, within a partition, equal keys. The first group whose
    aggregates fail ends the rows with that error. *)
Theorem window_spec fields plen calls n ts w :
  window_new fields plen calls (mk_stream ts None) = Ok w ->
  Forall (call_reads n) calls -> Forall (good_row fields n) ts ->
  runs window_next w (emit (window_out fields plen calls ts)).
Proof.
  intros Hnew Hreads Hts. unfold window_new in Hnew. apply rbind_ok in Hnew as (fs & Hfs & [= <-]). apply new_functions in Hfs.
  destruct Hts as [|t ts [Hwt [ks Ht]] Hts]; [by eapply runs_end|]. rewrite window_out_rest.
  apply next_is_run. rewrite (first_row _ _ _ _ t ks) by done. unfold retention_for.
  pose proof (function_reset_all calls fs Hfs) as Hreset.
  destruct (existsb is_aggregate calls) eqn:Ea; cbn [negb].
  - set (r := if decide (length fields = plen) then Retention.Partition else Retention.Peer).
    assert (r <> Retention.Row) as Hr by (unfold r; by case_decide).
    assert (r = Retention.Peer \/ length fields = plen) as Hret by (unfold r; case_decide; auto).
    rewrite eval_pending_partition by done. destruct (rmap created calls) as [us|e] eqn:Ec.
    + destruct Hreset as (fs' & -> & Hfs'). cbn [rbind].
      apply (held_rest fields plen calls n r us Hreads Ec Hr ts [] [t] 0 t ks); try done; [by constructor|by apply key_eq_refl|lia].
    + rewrite Hreset, (emit_uncreated _ _ _ e) by done. intros s Hs. by apply runs_fail.
  - rewrite (row_eval fields plen Retention.Row eq_refl _ _ _ _ _ (Some Boundary.Partition) _ _ _ eq_refl). cbn [fst snd].
    destruct (rmap created calls) as [us|e] eqn:Ec.
    + destruct Hreset as (fs' & -> & Hfs'). cbn [rbind]. rewrite (emit_rest_rows fields plen calls us Ec Ea).
      rewrite (Nat.add_succ_r (length ts) 3).
      apply (row_emitted fields plen calls n Retention.Row Hreads Ea [] 0 0 t ks); [by eapply functions_for|done|].
      intros fs1 Hfs1. apply (row_runs fields plen calls n Retention.Row us Hreads Ec eq_refl Ea ts [] [t] 0 t ks); try done.
      by apply key_eq_refl.
    + rewrite Hreset, (emit_uncreated _ _ _ e) by done. intros s Hs. by apply runs_fail.
Qed.
End Theorems.

(** Sales by shop and day: numbers, ranks and the running total. *)
Definition sale (shop day amount : Z) : Tuple :=
  mk_tuple None [DataValue.Int32 shop; DataValue.Int32 day; DataValue.Int32 amount].
Definition sale_field (i : nat) : SortField := mk_sort_field (ScalarExpression.ColumnRef LogicalType.Integer i) true true.
Definition sale_calls : list WindowCall :=
  [mk_window_call WindowFunctionKind.RowNumber [] LogicalType.Bigint; mk_window_call WindowFunctionKind.Rank [] LogicalType.Bigint;
   mk_window_call WindowFunctionKind.DenseRank [] LogicalType.Bigint;
   mk_window_call (WindowFunctionKind.Aggregate AggKind.Sum) [ScalarExpression.ColumnRef LogicalType.Integer 2] LogicalType.Integer].
Definition sales : list Tuple := [sale 1 1 10; sale 1 1 5; sale 1 2 7; sale 2 1 3].
Definition sale_out (shop day amount number rank dense total : Z) : Tuple :=
  mk_tuple None [DataValue.Int32 shop; DataValue.Int32 day; DataValue.Int32 amount; DataValue.Int64 number; DataValue.Int64 rank;
                 DataValue.Int64 dense; DataValue.Int32 total].

Lemma window_spec_witness : exists w,
  window_new [sale_field 0; sale_field 1] 1 sale_calls (mk_stream sales None) = Ok w /\
  runs window_next w
    (mk_stream [sale_out 1 1 10 1 1 1 15; sale_out 1 1 5 2 1 1 15; sale_out 1 2 7 3 3 2 22; sale_out 2 1 3 1 1 1 3] None).
Proof.
  destruct (window_new [sale_field 0; sale_field 1] 1 sale_calls (mk_stream sales None)) as [w|e] eqn:Hw; [|vm_compute in Hw; discriminate].
  exists w. split; [reflexivity|]. change (mk_stream _ None) with (emit (window_out [sale_field 0; sale_field 1] 1 sale_calls sales)).
  apply (window_spec _ _ _ 3 _ _ Hw).
  - repeat (constructor; [|]); try constructor; try (repeat constructor; fail).
    all: intros vs extra Hl; cbn; rewrite lookup_app_l by lia; reflexivity.
  - constructor; [|constructor; [|constructor; [|constructor; [|constructor]]]]; (split; [reflexivity|eexists; vm_compute; reflexivity]).
Defined.
