(* ===== verification/Spill.v ===== *)
(** Row buffers that spill to disk (src/src/execution/spill): rows are kept in
    memory up to a limit, then written to a file in segments, each a row count
    followed by the encoded rows; a reader yields the rows of the file and then
    those still in memory.

    A file is the byte string written to it; an offset is a position in it, and
    the operating system's errors are not modelled. The estimate of a row's
    size depends on the layout of the types and on capacities, so it is a
    parameter: the theorems hold for every estimate. *)

From S2P Require Import Prelude MachineInt Types Reader Value Serdes Row.
From stdpp Require Import base tactics list numbers option.
From Stdlib Require Import ZArith Lia.
Local Open Scope Z_scope.

(** * Codecs (codec.rs): the trait [SpillCodec] with its round trip is [Serializer] *)

Section Codecs.
Context {A : Type} (SA : Serializer A).

Definition spill_vec_encode (xs : list A) : res (list Z) :=
  let? len := write_len (length xs) in
  let? bs := encode_all SA xs in
  Ok (len ++ bs).

Definition spill_vec_decode (reader : list Z) : res (list A * list Z) :=
  let? (len, reader) := read_len reader in decode_all SA len reader.

Program Definition spill_vec : Serializer (list A) :=
  {| encode := spill_vec_encode; decode := spill_vec_decode;
     valid := fun xs => Z.of_nat (length xs) < 2 ^ 32 /\ Forall (valid SA) xs |}.
Next Obligation.
  intros xs [Hl Hxs]. destruct (decode_all_app SA xs Hxs) as (bs & E & D). unfold spill_vec_encode, spill_vec_decode.
  rewrite write_len_ok, E by done. eexists. split; [done|]. intros r.
  rewrite <- (assoc_L app), read_len_app by done. cbn [rbind]. by rewrite D.
Qed.

Definition spill_option_encode (x : option A) : res (list Z) :=
  match x with
  | Some v => let? bs := encode SA v in Ok (1 :: bs)
  | None => Ok [0]
  end.

Definition spill_option_decode (reader : list Z) : res (option A * list Z) :=
  let? (tag, reader) := read_u8 reader in
  match tag with
  | 0 => Ok (None, reader)
  | 1 => let? (v, reader) := decode SA reader in Ok (Some v, reader)
  | _ => Err InvalidValue
  end.

Program Definition spill_option : Serializer (option A) :=
  {| encode := spill_option_encode; decode := spill_option_decode; valid := option_valid SA |}.
Next Obligation.
  intros [v|] Hv; [|by eexists]. destruct (round_trip SA v Hv) as (bs & E & D). cbn. rewrite E. eexists. split; [done|].
  intros r. unfold spill_option_decode. cbn. by rewrite D.
Qed.
End Codecs.

Definition spill_tuple_encode (t : Tuple) : res (list Z) :=
  let? b1 := encode (spill_option data_value) (pk t) in
  let? b2 := encode (spill_vec data_value) (values t) in
  Ok (b1 ++ b2).

Definition spill_tuple_decode (reader : list Z) : res (Tuple * list Z) :=
  let? (p, reader) := decode (spill_option data_value) reader in
  let? (vs, reader) := decode (spill_vec data_value) reader in
  Ok (mk_tuple p vs, reader).

Program Definition spill_tuple : Serializer Tuple :=
  {| encode := spill_tuple_encode; decode := spill_tuple_decode;
     valid := fun t => valid (spill_option data_value) (pk t) /\ valid (spill_vec data_value) (values t) |}.
Next Obligation.
  intros t [H1 H2]. destruct (round_trip (spill_option data_value) _ H1) as (b1 & E1 & D1).
  destruct (round_trip (spill_vec data_value) _ H2) as (b2 & E2 & D2). unfold spill_tuple_encode, spill_tuple_decode.
  rewrite E1, E2. eexists. split; [done|]. intros r. rewrite <- (assoc_L app), D1. cbn [rbind]. rewrite D2. by destruct t.
Qed.

Record SortRow := mk_sort_row { row_keys : list DataValue; row_tuple : Tuple }.

Definition sort_row_encode (r : SortRow) : res (list Z) :=
  let? b1 := encode (spill_vec data_value) (row_keys r) in
  let? b2 := encode spill_tuple (row_tuple r) in
  Ok (b1 ++ b2).

Definition sort_row_decode (reader : list Z) : res (SortRow * list Z) :=
  let? (ks, reader) := decode (spill_vec data_value) reader in
  let? (t, reader) := decode spill_tuple reader in
  Ok (mk_sort_row ks t, reader).

Program Definition sort_row : Serializer SortRow :=
  {| encode := sort_row_encode; decode := sort_row_decode;
     valid := fun r => valid (spill_vec data_value) (row_keys r) /\ valid spill_tuple (row_tuple r) |}.
Next Obligation.
  intros t [H1 H2]. destruct (round_trip (spill_vec data_value) _ H1) as (b1 & E1 & D1).
  destruct (round_trip spill_tuple _ H2) as (b2 & E2 & D2). unfold sort_row_encode, sort_row_decode.
  rewrite E1, E2. eexists. split; [done|]. intros r. rewrite <- (assoc_L app), D1. cbn [rbind]. rewrite D2. by destruct t.
Qed.

(** * Buffers and readers (mod.rs) *)

Definition DEFAULT_MAX_ROWS : Z := 1024.
Definition DEFAULT_MAX_BYTES : Z := 1024 * 1024.

Definition saturating_add (a b : Z) : Z := Z.min (a + b) (2 ^ 64 - 1).

Section Spill.
Context {T : Type} (C : Serializer T) (estimated_size : T -> Z).

Record WriteState := mk_write_state {
  buffer : list T; buffer_bytes : Z; file : option (list Z); on_flush : option (list T -> res (list T));
  max_rows : Z; max_bytes : Z;
}.

(** [SpillVec::writer]: a failed [From] keeps its error. *)
Definition SpillVec : Type := res WriteState.

Record SegmentReader := mk_segment_reader { seg_reader : list Z; remaining_rows : nat }.

(** [guard] is the content of the file the guard keeps. *)
Inductive ReadState :=
| Memory (rows : list T)
| Spilled (reader : SegmentReader) (tail : list T) (guard : list Z)
| Exhausted (error : option DatabaseError).

Definition spill_new : SpillVec := Ok (mk_write_state [] 0 None None DEFAULT_MAX_ROWS DEFAULT_MAX_BYTES).

Definition with_on_flush (self : SpillVec) (f : list T -> res (list T)) : SpillVec :=
  match self with
  | Ok s => Ok (mk_write_state (buffer s) (buffer_bytes s) (file s) (Some f) (max_rows s) (max_bytes s))
  | Err e => Err e
  end.

(** ** Writing *)

Definition append_segment (f : list Z) (rows : list T) : res (nat * list Z) :=
  let? bs := encode_all C rows in
  Ok (length f, f ++ to_le_bytes 8 (Z.of_nat (length rows)) ++ bs).

Definition start_spilling (self : WriteState) : WriteState :=
  match file self with
  | Some _ => self
  | None => mk_write_state (buffer self) (buffer_bytes self) (Some []) (on_flush self) (max_rows self) (max_bytes self)
  end.

(** [on_flush(&mut self.buffer)?]. *)
Definition run_on_flush (self : WriteState) : res (list T) :=
  match on_flush self with Some f => f (buffer self) | None => Ok (buffer self) end.

Definition state_flush (self : WriteState) : res (option nat * WriteState) :=
  if bool_decide (length (buffer self) = 0%nat) then Ok (None, self)
  else
    let? rows := run_on_flush self in
    match file self with
    | None => Err InvalidValue
    | Some f =>
        let? (segment, f) := append_segment f rows in
        Ok (Some segment, mk_write_state [] 0 (Some f) (on_flush self) (max_rows self) (max_bytes self))
    end.

Definition state_push (self : WriteState) (value : T) : res (option nat * WriteState) :=
  let self := mk_write_state (buffer self ++ [value]) (saturating_add (buffer_bytes self) (estimated_size value)) (file self)
                (on_flush self) (max_rows self) (max_bytes self) in
  if (max_rows self <=? Z.of_nat (length (buffer self))) || (max_bytes self <=? buffer_bytes self)
  then state_flush (start_spilling self)
  else Ok (None, self).

Definition spill_push (self : SpillVec) (value : T) : res (option nat * SpillVec) :=
  match self with
  | Err _ => Err InvalidValue
  | Ok s => let? (o, s) := state_push s value in Ok (o, Ok s)
  end.

Definition is_spilled (self : SpillVec) : bool :=
  match self with Ok s => match file s with Some _ => true | None => false end | Err _ => false end.

Definition spill_flush (self : SpillVec) : res (option nat * SpillVec) :=
  match self with
  | Err _ => Err InvalidValue
  | Ok s =>
      if bool_decide (length (buffer s) = 0%nat) then Ok (None, self)
      else let? (o, s) := state_flush (start_spilling s) in Ok (o, Ok s)
  end.

(** [From<Vec<T>>]. *)
Fixpoint spill_from_loop (acc : SpillVec) (vs : list T) : SpillVec :=
  match vs with
  | [] => acc
  | v :: vs' => match spill_push acc v with Ok (_, acc') => spill_from_loop acc' vs' | Err e => Err e end
  end.

Definition spill_from (vs : list T) : SpillVec := spill_from_loop spill_new vs.

(** ** Reading *)

Definition into_read (self : WriteState) : res ReadState :=
  let? rows := run_on_flush self in
  match file self with
  | None => Ok (Memory rows)
  | Some f => Ok (Spilled (mk_segment_reader f 0) rows f)
  end.

Definition into_iter (self : SpillVec) : ReadState :=
  match self with
  | Ok s => match into_read s with Ok r => r | Err e => Exhausted (Some e) end
  | Err e => Exhausted (Some e)
  end.

Definition start_next_segment (self : SegmentReader) : res (bool * SegmentReader) :=
  match seg_reader self with
  | [] => Ok (false, self)
  | _ =>
      let? (n, reader) := read_le_u 8 (seg_reader self) in
      if n =? 0 then Err InvalidValue else Ok (true, mk_segment_reader reader (Z.to_nat n))
  end.

(** [SegmentReader::reset] on the file. *)
Definition segment_reset (f : list Z) (offset : nat) : res SegmentReader :=
  let? (more, r) := start_next_segment (mk_segment_reader (drop offset f) 0) in
  if more : bool then Ok r else Err InvalidValue.

Definition segment_next (self : SegmentReader) : option (res T) * SegmentReader :=
  match remaining_rows self with
  | O => (None, self)
  | S n =>
      match decode C (seg_reader self) with
      | Ok (v, reader) => (Some (Ok v), mk_segment_reader reader n)
      | Err e => (Some (Err e), mk_segment_reader (seg_reader self) 0)
      end
  end.

(** The loop of [SpillReader::next]: a segment that starts has a row, so there
    are at most two iterations. *)
Fixpoint spilled_next (fuel : nat) (reader : SegmentReader) (tail : list T) : res (option T * SegmentReader * list T) :=
  match fuel with
  | O => Err Panic
  | S fuel' =>
      match segment_next reader with
      | (Some (Ok v), reader) => Ok (Some v, reader, tail)
      | (Some (Err e), _) => Err e
      | (None, reader) =>
          let? (more, reader) := start_next_segment reader in
          if more : bool then spilled_next fuel' reader tail
          else match tail with
               | [] => Ok (None, reader, [])
               | v :: tail' => Ok (Some v, reader, tail')
               end
      end
  end.

(** [SpillReader::next] with [transpose()?]. *)
Definition reader_next (self : ReadState) : res (option T * ReadState) :=
  match self with
  | Memory [] => Ok (None, Memory [])
  | Memory (v :: vs) => Ok (Some v, Memory vs)
  | Spilled reader tail guard =>
      let? (o, reader, tail) := spilled_next 2 reader tail in Ok (o, Spilled reader tail guard)
  | Exhausted (Some e) => Err e
  | Exhausted None => Ok (None, self)
  end.

Definition reader_reset (self : ReadState) : res ReadState :=
  match self with
  | Spilled _ tail guard =>
      match tail with
      | [] => let? r := segment_reset guard 0 in Ok (Spilled r [] guard)
      | _ => Err InvalidValue
      end
  | _ => Err InvalidValue
  end.

(** [open_segment_reader]: the file, opened again. *)
Definition open_segment_reader (self : ReadState) : res (list Z) :=
  match self with
  | Spilled _ _ guard => Ok guard
  | _ => Err InvalidValue
  end.

(** * Files of segments *)

Definition rows_bytes (rows : list T) : list Z := match encode_all C rows with Ok bs => bs | Err _ => [] end.
Definition seg_bytes (rows : list T) : list Z := to_le_bytes 8 (Z.of_nat (length rows)) ++ rows_bytes rows.
Definition file_bytes (segs : list (list T)) : list Z := concat (map seg_bytes segs).

(** A segment the format can hold. *)
Definition seg_ok (rows : list T) : Prop := rows <> [] /\ Forall (valid C) rows /\ Z.of_nat (length rows) < 2 ^ 64.

Lemma file_bytes_app segs1 segs2 : file_bytes (segs1 ++ segs2) = file_bytes segs1 ++ file_bytes segs2.
Proof. unfold file_bytes. by rewrite map_app, concat_app. Qed.

Lemma encode_rows rows : Forall (valid C) rows -> encode_all C rows = Ok (rows_bytes rows).
Proof. intros H. unfold rows_bytes. by destruct (decode_all_app C rows H) as (bs & -> & _). Qed.

Lemma segment_row v vs rest :
  Forall (valid C) (v :: vs) ->
  segment_next (mk_segment_reader (rows_bytes (v :: vs) ++ rest) (length (v :: vs))) =
    (Some (Ok v), mk_segment_reader (rows_bytes vs ++ rest) (length vs)).
Proof.
  intros H. apply Forall_cons_1 in H as [Hv Hvs]. destruct (round_trip C v Hv) as (b & E & D).
  unfold rows_bytes at 1. cbn [encode_all]. rewrite E, (encode_rows vs Hvs). cbn [rbind]. unfold segment_next. cbn.
  by rewrite <- app_assoc, D.
Qed.

Lemma segment_starts seg segs :
  seg_ok seg ->
  start_next_segment (mk_segment_reader (file_bytes (seg :: segs)) 0) =
    Ok (true, mk_segment_reader (rows_bytes seg ++ file_bytes segs) (length seg)).
Proof.
  intros (Hne & _ & Hl). unfold start_next_segment. cbn [seg_reader].
  change (file_bytes (seg :: segs)) with (seg_bytes seg ++ file_bytes segs). unfold seg_bytes.
  rewrite <- app_assoc. destruct (to_le_bytes 8 (Z.of_nat (length seg)) ++ rows_bytes seg ++ file_bytes segs) eqn:E; [done|].
  rewrite <- E, (read_le_u_app 8 64) by (done || (unfold in_u; lia)). cbn [rbind].
  destruct seg as [|v seg]; [done|]. rewrite (proj2 (Z.eqb_neq _ _)) by (cbn [length]; lia). by rewrite Nat2Z.id.
Qed.

Lemma segment_at segs1 seg segs2 :
  seg_ok seg ->
  segment_reset (file_bytes (segs1 ++ seg :: segs2)) (length (file_bytes segs1)) =
    Ok (mk_segment_reader (rows_bytes seg ++ file_bytes segs2) (length seg)).
Proof.
  intros H. unfold segment_reset. rewrite file_bytes_app, drop_app_length. by rewrite segment_starts.
Qed.

(** ** Reading it all *)

(** The reader yields these rows and then the end. *)
Inductive yields : ReadState -> list T -> Prop :=
| yields_end r r' : reader_next r = Ok (None, r') -> yields r []
| yields_row r v r' vs : reader_next r = Ok (Some v, r') -> yields r' vs -> yields r (v :: vs).

Lemma memory_yields rows : yields (Memory rows) rows.
Proof. induction rows as [|v rows IH]; [by eapply yields_end|]. by eapply yields_row. Qed.

Lemma tail_yields tail guard : yields (Spilled (mk_segment_reader [] 0) tail guard) tail.
Proof. induction tail as [|v tail IH]; [by eapply yields_end|]. by eapply yields_row. Qed.

Lemma segments_yield segs tail guard : forall cur,
  Forall (valid C) cur -> Forall seg_ok segs ->
  yields (Spilled (mk_segment_reader (rows_bytes cur ++ file_bytes segs) (length cur)) tail guard) (cur ++ concat segs ++ tail).
Proof.
  induction segs as [|seg segs IH]; intros cur Hcur Hsegs.
  - induction Hcur as [|v cur Hv Hcur IHc]; [apply tail_yields|].
    eapply yields_row; [|exact IHc]. cbn [reader_next spilled_next]. rewrite segment_row by (by constructor). done.
  - apply Forall_cons_1 in Hsegs as [Hseg Hsegs]. induction Hcur as [|v cur Hv Hcur IHc].
    + destruct seg as [|w seg]; [by destruct Hseg|]. pose proof Hseg as (_ & Hrows & _).
      cbn [app concat]. rewrite <- app_assoc. cbn [app].
      eapply yields_row; [|apply (IH seg); [by apply Forall_cons_1 in Hrows as [_ ?]|done]].
      cbn [reader_next spilled_next]. unfold segment_next at 1. cbn [remaining_rows length].
      change (rows_bytes [] ++ file_bytes ((w :: seg) :: segs)) with (file_bytes ((w :: seg) :: segs)).
      rewrite segment_starts by done. cbn [rbind]. by rewrite segment_row.
    + eapply yields_row; [|exact IHc]. cbn [reader_next spilled_next]. rewrite segment_row by (by constructor). done.
Qed.

(** ** Writing *)

Context (g : list T -> list T).

(** The rows of [segs] are in the file, [buf] in memory, and a segment is
    rewritten by [g] when it is flushed. *)
Record holds (s : WriteState) (segs : list (list T)) (buf : list T) : Prop := {
  holds_buffer : buffer s = buf;
  holds_file : file s = Some (file_bytes segs) \/ file s = None /\ segs = [];
  holds_flush : forall rows, match on_flush s with Some f => f rows | None => Ok rows end = Ok (g rows);
}.

Lemma flush_holds s segs buf :
  holds s segs buf -> buf <> [] -> Forall (valid C) (g buf) ->
  exists s', state_flush (start_spilling s) = Ok (Some (length (file_bytes segs)), s') /\ holds s' (segs ++ [g buf]) [].
Proof.
  intros [Hb Hf Hg] Hne Hv. unfold state_flush, run_on_flush, start_spilling.
  assert (buffer s <> []) as Hne' by (by rewrite Hb).
  destruct Hf as [Hf|[Hf ->]]; rewrite Hf; cbn [buffer on_flush file];
    rewrite bool_decide_false by (by destruct (buffer s)); rewrite Hg, Hb; cbn [rbind]; rewrite ?Hf; unfold append_segment;
    rewrite encode_rows by done; cbn [rbind]; (eexists; split; [done|]); split; cbn [buffer file on_flush]; try done; left.
  - rewrite file_bytes_app. unfold file_bytes at 3. cbn [map concat]. by rewrite (app_nil_r (seg_bytes (g buf))).
  - unfold file_bytes. cbn [app map concat]. by rewrite (app_nil_r (seg_bytes (g buf))).
Qed.

Lemma push_holds s segs buf v :
  holds s segs buf -> Forall (valid C) (g (buf ++ [v])) ->
  (exists s', state_push s v = Ok (None, s') /\ holds s' segs (buf ++ [v])) \/
  (exists s', state_push s v = Ok (Some (length (file_bytes segs)), s') /\ holds s' (segs ++ [g (buf ++ [v])]) []).
Proof.
  intros H Hv. pose proof H as [Hb Hf Hg]. unfold state_push.
  match goal with |- context [state_flush (start_spilling ?x)] => assert (holds x segs (buf ++ [v])) as Hx end.
  { split; [cbn; by rewrite Hb|done|done]. }
  match goal with |- context [if ?b then _ else _] => destruct b end.
  - right. apply flush_holds; [done| |done]. by destruct buf.
  - left. eauto.
Qed.

Lemma into_iter_holds s segs buf :
  holds s segs buf -> Forall seg_ok segs ->
  yields (into_iter (Ok s)) (concat segs ++ g buf).
Proof.
  intros [Hb Hf Hg] Hs. unfold into_iter, into_read, run_on_flush. rewrite Hg, Hb. cbn [rbind].
  destruct Hf as [->|[-> ->]]; [|apply memory_yields].
  apply (segments_yield segs (g buf) (file_bytes segs) [] (List.Forall_nil _) Hs).
Qed.
End Spill.
Arguments WriteState : clear implicits.
Arguments SpillVec : clear implicits.
Arguments ReadState : clear implicits.

Section Roundtrip.
Context {T : Type} (C : Serializer T) (estimated_size : T -> Z).

Definition fits (vs : list T) : Prop := Forall (valid C) vs /\ Z.of_nat (length vs) < 2 ^ 64.

Lemma spill_from_holds vs : forall s segs buf,
  holds C id s segs buf -> Forall (seg_ok C) segs -> fits (concat segs ++ buf ++ vs) ->
  exists s' segs' buf', spill_from_loop C estimated_size (Ok s) vs = Ok s' /\ holds C id s' segs' buf' /\
    Forall (seg_ok C) segs' /\ concat segs' ++ buf' = concat segs ++ buf ++ vs.
Proof.
  induction vs as [|v vs IH]; intros s segs buf Hs Hsegs Hfit; [exists s, segs, buf; by rewrite app_nil_r|].
  replace (buf ++ v :: vs) with ((buf ++ [v]) ++ vs) in Hfit |- * by (by rewrite <- app_assoc).
  destruct Hfit as [Hv Hl]. pose proof Hv as Hv2. apply Forall_app in Hv2 as [Hv1 Hv2]. apply Forall_app in Hv2 as [Hv2 Hv3].
  cbn [spill_from_loop spill_push].
  destruct (push_holds C estimated_size id s segs buf v Hs Hv2) as [(s' & -> & Hs')|(s' & -> & Hs')]; cbn [rbind].
  - by apply (IH s' segs (buf ++ [v])).
  - destruct (IH s' (segs ++ [buf ++ [v]]) [] Hs') as (s'' & segs'' & buf'' & E & Hh & Hok & Hc).
    + apply Forall_app. split; [done|]. constructor; [|constructor]. split_and!; [by destruct buf|done|].
      rewrite !length_app in Hl. rewrite length_app. lia.
    + split; [|rewrite concat_app; cbn; rewrite ?app_nil_r, <- app_assoc; done].
      rewrite concat_app. cbn. rewrite app_nil_r, <- app_assoc. done.
    + exists s'', segs'', buf''. split_and!; [done..|]. rewrite Hc, concat_app. cbn. by rewrite app_nil_r, <- app_assoc.
Qed.

Lemma new_holds : exists s, spill_new = Ok s /\ holds C id s [] [].
Proof. eexists. split; [done|]. split; [done|by right|done]. Qed.

(** Rows pushed into a spilling buffer are read back in order, whatever
    part of them went to the file and wherever its segments end; and a buffer
    whose rows have all been flushed can be rewound and read again. *)
Theorem spill_roundtrip vs :
  fits vs ->
  yields C (into_iter (spill_from C estimated_size vs)) vs /\
  (vs <> [] -> exists o s reader guard,
    spill_flush C (spill_from C estimated_size vs) = Ok (o, s) /\ into_iter s = Spilled reader [] guard /\
    yields C (into_iter s) vs /\
    forall reader', exists r, reader_reset (Spilled reader' [] guard) = Ok r /\ yields C r vs).
Proof.
  intros Hfit. destruct new_holds as (s0 & E0 & H0).
  destruct (spill_from_holds vs s0 [] [] H0 (List.Forall_nil _) Hfit) as (s & segs & buf & E & Hs & Hok & Hc).
  unfold spill_from. rewrite E0, E. cbn [concat app] in Hc. split.
  { rewrite <- Hc. by apply (into_iter_holds C id). }
  intros Hne.
  assert (exists o s' segs', spill_flush C (Ok s) = Ok (o, Ok s') /\ holds C id s' segs' [] /\ Forall (seg_ok C) segs' /\
    concat segs' = vs) as (o & s' & segs' & Ef & Hs' & Hok' & Hc').
  { unfold spill_flush. rewrite (holds_buffer _ _ _ _ _ Hs). destruct buf as [|v buf].
    - rewrite bool_decide_true by done. exists None, s, segs. by rewrite app_nil_r in Hc.
    - rewrite bool_decide_false by done. destruct Hfit as [Hv Hl]. rewrite <- Hc in Hv, Hl.
      apply Forall_app in Hv as [_ Hv]. rewrite length_app in Hl.
      destruct (flush_holds C id s segs (v :: buf) Hs) as (s' & -> & Hs'); [done|done|]. cbn [rbind].
      eexists _, s', _. split_and!; [done|done| |].
      + apply Forall_app. split; [done|]. constructor; [|constructor]. split_and!; [done|done|unfold id; lia].
      + rewrite concat_app. cbn. by rewrite app_nil_r. }
  assert (segs' <> []) as Hne' by (intros ->; by subst vs).
  exists o, (Ok s'), (mk_segment_reader (file_bytes C segs') 0), (file_bytes C segs'). split_and!; [done| | |].
  - destruct Hs' as [Hb Hf Hg]. unfold into_iter, into_read, run_on_flush. rewrite Hg, Hb. cbn [rbind].
    destruct Hf as [->|[_ ?]]; [done|done].
  - pose proof (into_iter_holds C id s' segs' [] Hs' Hok') as H. unfold id in H. by rewrite app_nil_r, Hc' in H.
  - intros reader'. destruct segs' as [|seg segs']; [done|]. apply Forall_cons_1 in Hok' as [Hseg Hsegs].
    unfold reader_reset. pose proof (segment_at C [] seg segs' Hseg) as Hr. cbn [app] in Hr.
    change (length (file_bytes C [])) with 0%nat in Hr. rewrite Hr. cbn [rbind]. eexists. split; [done|].
    pose proof Hseg as (_ & Hv & _). pose proof (segments_yield C segs' [] (file_bytes C (seg :: segs')) seg Hv Hsegs) as H.
    rewrite app_nil_r in H. cbn [concat] in Hc'. by rewrite Hc' in H.
Qed.
End Roundtrip.

Lemma spill_roundtrip_witness :
  fits (spill_vec data_value) [[DataValue.Int32 1]; [DataValue.Null; DataValue.Boolean true]] /\
  yields (spill_vec data_value)
    (into_iter (spill_from (spill_vec data_value) (fun _ => 1048576) [[DataValue.Int32 1]; [DataValue.Null; DataValue.Boolean true]]))
    [[DataValue.Int32 1]; [DataValue.Null; DataValue.Boolean true]].
Proof.
  assert (fits (spill_vec data_value) [[DataValue.Int32 1]; [DataValue.Null; DataValue.Boolean true]]) as H.
  { split; [|cbn; lia]. constructor; [|constructor; [|constructor]]; (split; [cbn; lia|]).
    - constructor; [|constructor]. split_and!; [cbn; unfold in_s; lia|reflexivity|exact I].
    - constructor; [|constructor; [|constructor]]; (split_and!; [exact I|reflexivity|exact I]). }
  split; [exact H|]. apply (spill_roundtrip (spill_vec data_value) (fun _ => 1048576) _ H).
Defined.
