(* ===== verification/ExternalSort.v ===== *)
(** The external sort (src/src/execution/dql/external_sort.rs): rows are
    collected into a spilling buffer whose segments are sorted as they are
    flushed; the sorted runs are merged, sixteen at a time, until one is left.
    The theorem is that the node is the in-memory sort, ties included, wherever
    the buffer happens to spill. *)

From S2P Require Import Prelude MachineInt Types Operators Reader Value Chrono MemComparable Evaluators Casts Expr Serdes.
From S2P Require Import Row Collections Exec Sorting SortExec Spill.
From Stdlib Require Import ZArith Lia.
From stdpp Require Import base tactics list list_numbers numbers option sorting.
Local Open Scope Z_scope.

Definition MERGE_FAN_IN : nat := 16.

Record Run := mk_run { first_segment : nat; segment_count : nat }.

Definition run_new (first_segment segment_count : nat) : res Run :=
  if (0 <? segment_count)%nat then Ok (mk_run first_segment segment_count) else Err Panic.

Section External.
Context {OF : OrderedFloat} {CH : Chrono} {SF : ScalarFunctions}.
Context (estimated_size : SortRow -> Z).

Definition sort_row_new (fields : list SortField) (t : Tuple) : res SortRow :=
  let? ks := sort_values fields t in Ok (mk_sort_row ks t).

Definition row_cmp (fields : list SortField) (l r : SortRow) : comparison :=
  compare_sort_keys fields (row_keys l) (row_keys r).

Definition sort_segment (fields : list SortField) (rows : list SortRow) : res (list SortRow) :=
  Ok (sort_by (row_cmp fields) rows).

(** ** Cursors *)

Record RunCursor := mk_cursor { remaining_segments : nat; cursor_reader : SegmentReader; head : option SortRow }.

(** The loop of [RunCursor::next]: the next row of the run, if any. *)
Fixpoint cursor_fill (remaining : nat) (reader : SegmentReader) : res (option SortRow * nat * SegmentReader) :=
  match segment_next sort_row reader with
  | (Some (Ok row), reader) => Ok (Some row, remaining, reader)
  | (Some (Err e), _) => Err e
  | (None, reader) =>
      match remaining with
      | O => Ok (None, O, reader)
      | S remaining' =>
          let? (more, reader) := start_next_segment reader in
          if more : bool then cursor_fill remaining' reader else Err InvalidValue
      end
  end.

Definition cursor_next (self : RunCursor) : res (option SortRow * RunCursor) :=
  let? (row, remaining, reader) := cursor_fill (remaining_segments self) (cursor_reader self) in
  Ok (head self, mk_cursor remaining reader row).

Definition cursor_new (source : ReadState SortRow) (run : Run) : res RunCursor :=
  let? f := open_segment_reader source in
  let? reader := segment_reset f (first_segment run) in
  let? (_, cursor) := cursor_next (mk_cursor (segment_count run - 1) reader None) in
  Ok cursor.

(** ** Merging *)

(** The scan over the heads for the least one. *)
Fixpoint select_loop (fields : list SortField) (all heads : list (option SortRow)) (index : nat) (selected : option nat)
    : option nat :=
  match heads with
  | [] => selected
  | None :: heads' => select_loop fields all heads' (S index) selected
  | Some row :: heads' =>
      let selected :=
        match selected with
        | None => Some index
        | Some current =>
            match all !! current with
            | Some (Some current_row) =>
                match row_cmp fields row current_row with Lt => Some index | _ => selected end
            | _ => Some index
            end
        end in
      select_loop fields all heads' (S index) selected
  end.

Definition select (fields : list SortField) (cursors : list RunCursor) : option nat :=
  select_loop fields (map head cursors) (map head cursors) 0 None.

(** [first_segment.get_or_insert(segment)]. *)
Definition get_or_insert (o : option nat) (segment : nat) : option nat :=
  match o with Some _ => o | None => Some segment end.

Definition note_segment (o : option nat) (first : option nat) (count : nat) : option nat * nat :=
  match o with Some segment => (get_or_insert first segment, S count) | None => (first, count) end.

(** The loop over the rows of a group of runs. *)
Fixpoint merge_loop (fuel : nat) (fields : list SortField) (cursors : list RunCursor) (target : SpillVec SortRow)
    (first : option nat) (count : nat) : res (SpillVec SortRow * option nat * nat) :=
  match fuel with
  | O => Err Panic
  | S fuel' =>
      match select fields cursors with
      | None => Ok (target, first, count)
      | Some selected =>
          match cursors !! selected with
          | None => Err Panic
          | Some cursor =>
              let? (o, cursor) := cursor_next cursor in
              match o with
              | None => Err InvalidValue
              | Some row =>
                  let? (segment, target) := spill_push sort_row estimated_size target row in
                  let (first, count) := note_segment segment first count in
                  merge_loop fuel' fields (<[selected := cursor]> cursors) target first count
              end
          end
      end
  end.

(** Every row of a file is at least one byte. *)
Definition merge_fuel (source : ReadState SortRow) : nat :=
  match source with Spilled _ _ guard => S (length guard) | _ => 1 end.

Definition merge_group (source : ReadState SortRow) (fields : list SortField) (group : list Run) (target : SpillVec SortRow)
    : res (SpillVec SortRow * Run) :=
  let? cursors := rmap (cursor_new source) group in
  let? (target, first, count) := merge_loop (merge_fuel source) fields cursors target None 0 in
  let? (segment, target) := spill_flush sort_row target in
  let (first, count) := note_segment segment first count in
  match first with
  | None => Err InvalidValue
  | Some first => let? run := run_new first count in Ok (target, run)
  end.

(** [slice::chunks]. *)
Fixpoint chunks_loop {A : Type} (fuel n : nat) (l : list A) : list (list A) :=
  match fuel, l with
  | O, _ | _, [] => []
  | S fuel', _ => take n l :: chunks_loop fuel' n (drop n l)
  end.

Definition chunks {A : Type} (n : nat) (l : list A) : list (list A) := chunks_loop (length l) n l.

Fixpoint merge_groups (source : ReadState SortRow) (fields : list SortField) (groups : list (list Run)) (target : SpillVec SortRow)
    (target_runs : list Run) : res (SpillVec SortRow * list Run) :=
  match groups with
  | [] => Ok (target, target_runs)
  | group :: groups' =>
      let? (target, run) := merge_group source fields group target in
      merge_groups source fields groups' target (target_runs ++ [run])
  end.

Definition merge_pass (source : ReadState SortRow) (source_runs : list Run) (fields : list SortField) (fan_in : nat)
    : res (SpillVec SortRow * list Run) :=
  merge_groups source fields (chunks fan_in source_runs) spill_new [].

(** [while source_runs.len() > 1]: a pass leaves fewer runs. *)
Fixpoint merge_passes (fuel : nat) (spill : SpillVec SortRow) (runs : list Run) (fields : list SortField) (fan_in : nat)
    : res (SpillVec SortRow) :=
  if (1 <? length runs)%nat then
    match fuel with
    | O => Err Panic
    | S fuel' =>
        let? (spill, runs) := merge_pass (into_iter spill) runs fields fan_in in
        merge_passes fuel' spill runs fields fan_in
    end
  else Ok spill.

Definition finish_sort (spill : SpillVec SortRow) (runs : list Run) (fields : list SortField) (fan_in : nat) : res (ReadState SortRow) :=
  if (1 <? fan_in)%nat then
    if is_spilled spill then
      let? (segment, spill) := spill_flush sort_row spill in
      let? runs := match segment with
                   | Some segment => let? run := run_new segment 1 in Ok (runs ++ [run])
                   | None => Ok runs
                   end in
      let? spill := merge_passes (length runs) spill runs fields fan_in in
      Ok (into_iter spill)
    else Ok (into_iter spill)
  else Err Panic.

(** ** The node *)

Record ExternalSort := mk_external_sort {
  external_rows : option (ReadState SortRow); external_fields : list SortField; external_input : Stream;
}.

Fixpoint collect_runs (fields : list SortField) (ts : list Tuple) (fail : option DatabaseError) (spill : SpillVec SortRow)
    (runs : list Run) : res (SpillVec SortRow * list Run) :=
  match ts with
  | [] => match fail with Some e => Err e | None => Ok (spill, runs) end
  | t :: ts' =>
      let? row := sort_row_new fields t in
      let? (segment, spill) := spill_push sort_row estimated_size spill row in
      let? runs := match segment with
                   | Some segment => let? run := run_new segment 1 in Ok (runs ++ [run])
                   | None => Ok runs
                   end in
      collect_runs fields ts' fail spill runs
  end.

Definition external_emit (rows : ReadState SortRow) (fields : list SortField) (input : Stream) : poll ExternalSort :=
  let? (o, rows) := reader_next sort_row rows in
  Ok (option_map row_tuple o, mk_external_sort (Some rows) fields input).

Definition external_next (self : ExternalSort) : poll ExternalSort :=
  let fields := external_fields self in
  match external_rows self with
  | Some rows => external_emit rows fields (external_input self)
  | None =>
      let? (spill, runs) := collect_runs fields (rows (external_input self)) (failure (external_input self))
                              (with_on_flush spill_new (sort_segment fields)) [] in
      let? rows := finish_sort spill runs fields MERGE_FAN_IN in
      external_emit rows fields (mk_stream [] None)
  end.
End External.

(** * The order of rows *)

Section Merge.
Context {OF : OrderedFloat} {CH : Chrono} {SF : ScalarFunctions}.
Context (estimated_size : SortRow -> Z) (fields : list SortField) (tys : list LogicalType).

(** A row with the keys of its tuple, of the given types, that the codec can
    hold. *)
Record good (r : SortRow) : Prop := {
  good_keys : sort_values fields (row_tuple r) = Ok (row_keys r);
  good_types : Forall2 key_value (row_keys r) tys;
  good_valid : valid sort_row r;
}.

Definition rcmp (a b : SortRow) : comparison := key_cmp (item_of fields (row_tuple a)) (item_of fields (row_tuple b)).

Lemma rcmp_antisym a b : rcmp b a = CompOpp (rcmp a b).
Proof. apply key_cmp_antisym. Qed.

Lemma rcmp_trans : cmp_transitive rcmp.
Proof. intros a b c o1 o2. apply key_cmp_trans. Qed.

Lemma row_cmp_good a b : good a -> good b -> row_cmp fields a b = rcmp a b.
Proof. intros [Ha Ta _] [Hb Tb _]. symmetry. by apply (compare_item fields tys). Qed.

Lemma sort_good rows : Forall good rows -> sort_by (row_cmp fields) rows = sort_by rcmp rows.
Proof.
  intros H. pose proof (sort_by_map id rcmp (row_cmp fields) good rows row_cmp_good H) as E. by rewrite !map_id in E.
Qed.

Lemma good_valids rows : Forall good rows -> Forall (valid sort_row) rows.
Proof. intros H. eapply Forall_impl; [exact H|]. by intros ? []. Qed.

Lemma sorted_good rows : Forall good rows -> Forall good (sort_by rcmp rows).
Proof. by rewrite sort_by_perm. Qed.

(** ** Cursors *)

(** The cursor stands before these rows of its run. *)
Inductive cursor_at : RunCursor -> list SortRow -> Prop :=
| cursor_on x cur segs after rows :
    Forall good cur -> Forall (seg_ok sort_row) (segs ++ after) -> Forall (Forall good) segs -> rows = cur ++ concat segs ->
    cursor_at (mk_cursor (length segs)
      (mk_segment_reader (rows_bytes sort_row cur ++ file_bytes sort_row (segs ++ after)) (length cur)) (Some x)) (x :: rows)
| cursor_off n r : cursor_at (mk_cursor n r None) [].

Lemma cursor_fill_row n v cur rest :
  Forall good (v :: cur) ->
  cursor_fill n (mk_segment_reader (rows_bytes sort_row (v :: cur) ++ rest) (length (v :: cur))) =
    Ok (Some v, n, mk_segment_reader (rows_bytes sort_row cur ++ rest) (length cur)).
Proof. intros H. apply good_valids in H. destruct n; cbn [cursor_fill]; by rewrite segment_row. Qed.

(** Filling the head from what is left of the run. *)
Lemma cursor_filled cur segs after :
  Forall good cur -> Forall (seg_ok sort_row) (segs ++ after) -> Forall (Forall good) segs ->
  exists o n r, cursor_fill (length segs)
      (mk_segment_reader (rows_bytes sort_row cur ++ file_bytes sort_row (segs ++ after)) (length cur)) = Ok (o, n, r) /\
    cursor_at (mk_cursor n r o) (cur ++ concat segs).
Proof.
  intros Hc Hs Hg. destruct cur as [|v cur].
  - destruct segs as [|seg segs]; [eexists _, _, _; split; [done|constructor]|].
    cbn [app] in Hs. apply Forall_cons_1 in Hs as [Hseg Hs]. apply Forall_cons_1 in Hg as [Hgs Hg].
    change (rows_bytes sort_row [] ++ file_bytes sort_row ((seg :: segs) ++ after)) with (file_bytes sort_row (seg :: segs ++ after)).
    cbn [length cursor_fill]. unfold segment_next at 1. cbn [remaining_rows].
    rewrite segment_starts by done. cbn [rbind]. destruct seg as [|v seg]; [by destruct Hseg|].
    rewrite cursor_fill_row by done. eexists _, _, _. split; [done|]. cbn [app concat].
    apply Forall_cons_1 in Hgs as [_ Hgs]. by econstructor.
  - rewrite cursor_fill_row by done. eexists _, _, _. split; [done|]. apply Forall_cons_1 in Hc as [_ Hc]. by econstructor.
Qed.

Lemma cursor_next_at c x rs : cursor_at c (x :: rs) -> exists c', cursor_next c = Ok (Some x, c') /\ cursor_at c' rs.
Proof.
  inversion 1 as [? cur segs after rows Hc Hs Hg ->|]; subst. unfold cursor_next. cbn [remaining_segments cursor_reader head].
  destruct (cursor_filled cur segs after Hc Hs Hg) as (o & n & r & -> & Hat). cbn [rbind]. eauto.
Qed.

Lemma cursor_head c rs : cursor_at c rs -> head c = hd_error rs.
Proof. by inversion 1. Qed.

(** A run of consecutive segments of the file. *)
Definition run_in (segs : list (list SortRow)) (run : Run) (rs : list SortRow) : Prop :=
  exists pre mid post, segs = pre ++ mid ++ post /\ mid <> [] /\
    run = mk_run (length (file_bytes sort_row pre)) (length mid) /\ concat mid = rs.

Lemma cursor_new_at segs run rs r tail :
  run_in segs run rs -> Forall (seg_ok sort_row) segs -> Forall (Forall good) segs ->
  exists c, cursor_new (Spilled r tail (file_bytes sort_row segs)) run = Ok c /\ cursor_at c rs.
Proof.
  intros (pre & mid & post & -> & Hne & -> & <-) Hs Hg. destruct mid as [|seg mid]; [done|].
  apply Forall_app in Hs as [_ Hs]. cbn [app] in Hs. apply Forall_cons_1 in Hs as [Hseg Hs].
  apply Forall_app in Hg as [_ Hg]. cbn [app] in Hg. apply Forall_cons_1 in Hg as [Hgs Hg]. apply Forall_app in Hg as [Hg _].
  unfold cursor_new. cbn [open_segment_reader rbind first_segment segment_count length]. cbn [app].
  rewrite segment_at by done. cbn [rbind]. unfold cursor_next. cbn [remaining_segments cursor_reader head].
  rewrite Nat.sub_succ, Nat.sub_0_r.
  destruct (cursor_filled seg mid post Hgs Hs Hg) as (o & n & r' & -> & Hat). cbn [rbind]. eauto.
Qed.

(** ** Selection *)

(** The choice among the heads seen so far. *)
Definition chosen (hs : list (option SortRow)) (sel : option nat) : Prop :=
  match sel with
  | None => Forall (fun h => h = None) hs
  | Some i => exists x, hs !! i = Some (Some x) /\
      forall j y, hs !! j = Some (Some y) -> not_after rcmp x y /\ ((j < i)%nat -> rcmp x y = Lt)
  end.

Definition good_head (h : option SortRow) : Prop := match h with Some r => good r | None => True end.

Lemma chosen_none hs sel : chosen hs sel -> chosen (hs ++ [None]) sel.
Proof.
  destruct sel as [i|]; cbn; [|intros H; apply Forall_app; by split; [|constructor]].
  intros (x & Hx & Hl). exists x. split; [by apply lookup_app_l_Some|]. intros j y Hy.
  apply lookup_app_Some in Hy as [Hy|[_ Hy]]; [by apply Hl|]. by destruct (j - length hs)%nat.
Qed.

Lemma chosen_some hs sel x :
  Forall good_head hs -> good x -> chosen hs sel ->
  chosen (hs ++ [Some x])
    (match sel with
     | None => Some (length hs)
     | Some i => match hs !! i with
                 | Some (Some y) => match row_cmp fields x y with Lt => Some (length hs) | _ => sel end
                 | _ => Some (length hs)
                 end
     end).
Proof.
  intros Hg Hx. assert (not_after rcmp x x) as Hxx.
  { unfold not_after. pose proof (rcmp_antisym x x). by destruct (rcmp x x). }
  assert ((hs ++ [Some x]) !! length hs = Some (Some x)) as Hlast by (by rewrite lookup_app_r, Nat.sub_diag by lia).
  destruct sel as [i|]; cbn [chosen].
  - intros (y & Hi & Hl). rewrite Hi.
    assert (good y) as Hy by (apply (Forall_lookup_1 _ _ _ _ Hg Hi)). rewrite row_cmp_good by done.
    assert (rcmp x y = Lt -> chosen (hs ++ [Some x]) (Some (length hs))) as Hnew.
    { intros E. exists x. split; [done|]. intros j z Hz. apply lookup_app_Some in Hz as [Hz|[Hj Hz]].
      - destruct (Hl j z Hz) as [Hyz _]. pose proof (lt_not_after rcmp rcmp_trans x y z E Hyz) as Hxz.
        split; [unfold not_after; by rewrite Hxz|done].
      - destruct (j - length hs)%nat as [|k] eqn:Ek; [|done]. cbn in Hz. simplify_eq. split; [done|lia]. }
    assert (rcmp x y <> Lt -> chosen (hs ++ [Some x]) (Some i)) as Hold.
    { intros E. exists y. split; [by apply lookup_app_l_Some|]. intros j z Hz. apply lookup_app_Some in Hz as [Hz|[Hj Hz]]; [by apply Hl|].
      destruct (j - length hs)%nat as [|k] eqn:Ek; [|done]. cbn in Hz. simplify_eq.
      split; [by apply (not_lt_not_after rcmp rcmp_antisym)|]. intros Hji. apply lookup_lt_Some in Hi. lia. }
    destruct (rcmp x y); [by apply Hold|by apply Hnew|by apply Hold].
  - intros Hn. exists x. split; [done|]. intros j z Hz. apply lookup_app_Some in Hz as [Hz|[Hj Hz]].
    + pose proof (Forall_lookup_1 _ _ _ _ Hn Hz) as H. done.
    + destruct (j - length hs)%nat as [|k] eqn:Ek; [|done]. cbn in Hz. simplify_eq. split; [done|lia].
Qed.

Lemma select_loop_chosen hs : forall pre sel,
  Forall good_head (pre ++ hs) -> chosen pre sel ->
  chosen (pre ++ hs) (select_loop fields (pre ++ hs) hs (length pre) sel).
Proof.
  induction hs as [|h hs IH]; intros pre sel Hg Hsel; cbn [select_loop]; [by rewrite app_nil_r|].
  specialize (IH (pre ++ [h])). rewrite length_app, Nat.add_1_r, <- app_assoc in IH. cbn [app] in IH.
  destruct h as [x|]; [|by apply IH; [|apply chosen_none]].
  apply IH; [done|]. apply Forall_app in Hg as [Hp Hg]. apply Forall_cons_1 in Hg as [Hx Hg].
  pose proof (chosen_some pre sel x Hp Hx Hsel) as H. destruct sel as [i|]; [|done].
  destruct Hsel as (y & Hi & _). rewrite Hi in H. by rewrite (lookup_app_l_Some _ _ _ _ Hi).
Qed.

Lemma select_least cs rss :
  Forall2 cursor_at cs rss -> Forall (Forall good) rss ->
  match select fields cs with
  | None => Forall (fun rs => rs = []) rss
  | Some i => exists x rs, rss !! i = Some (x :: rs) /\ least rcmp rss i x
  end.
Proof.
  intros Hc Hg. unfold select.
  assert (map head cs = map hd_error rss) as ->.
  { clear Hg. induction Hc as [|c rs cs rss H _ IH]; [done|]. cbn. by rewrite (cursor_head _ _ H), IH. }
  pose proof (select_loop_chosen (map hd_error rss) [] None) as H. cbn [app length] in H.
  assert (Forall good_head (map hd_error rss)) as Hh.
  { clear -Hg. induction Hg as [|rs rss Hrs _ IH]; [done|]. cbn. constructor; [|done]. by destruct Hrs. }
  specialize (H Hh (List.Forall_nil _)). destruct (select_loop _ _ _ _ _) as [i|].
  - destruct H as (x & Hx & Hl). apply list_lookup_fmap_Some in Hx as (rs & Hrs & Hi). destruct rs as [|y rs]; [done|].
    cbn in Hrs. simplify_eq. exists y, rs. split; [done|]. intros j z rs' Hj. apply Hl.
    apply list_lookup_fmap_Some. exists (z :: rs'). done.
  - apply Forall_forall. intros rs Hrs. apply list_elem_of_lookup in Hrs as [i Hi]. cbn in H. rewrite Forall_forall in H.
    assert (hd_error rs = None) as E; [|by destruct rs]. apply H. apply list_elem_of_lookup. exists i.
    apply list_lookup_fmap_Some. eauto.
Qed.

(** ** One group of runs *)

(** The segments [G] of the run being written, behind [before]. *)
Definition first_of (before G : list (list SortRow)) : option nat :=
  match G with [] => None | _ => Some (length (file_bytes sort_row before)) end.

Record writing (s : WriteState SortRow) (before G : list (list SortRow)) (buf : list SortRow) : Prop := {
  writing_holds : holds sort_row id s (before ++ G) buf;
  writing_segs : Forall (seg_ok sort_row) G;
  writing_good : Forall (Forall good) G;
  writing_buf : Forall good buf;
}.

Lemma note_first before G rows :
  note_segment (Some (length (file_bytes sort_row (before ++ G)))) (first_of before G) (length G) =
    (first_of before (G ++ [rows]), length (G ++ [rows])).
Proof.
  unfold note_segment. rewrite length_app, Nat.add_1_r. destruct G; cbn; [by rewrite app_nil_r|done].
Qed.

(** A segment written behind the others of the run. *)
Lemma writing_flushed s s' before G b buf :
  writing s before G b -> Forall good buf -> buf <> [] -> Z.of_nat (length buf) < 2 ^ 64 ->
  holds sort_row id s' ((before ++ G) ++ [buf]) [] -> writing s' before (G ++ [buf]) [].
Proof.
  intros [_ Hs Hg _] Hb Hne Hl H. split; [by rewrite app_assoc| | |done].
  - apply Forall_app. split; [done|]. constructor; [|constructor]. split_and!; [done|by apply good_valids|done].
  - apply Forall_app. by split; [|constructor].
Qed.

Lemma writing_push s before G buf x :
  writing s before G buf -> good x -> Z.of_nat (length (buf ++ [x])) < 2 ^ 64 ->
  exists o s' G' buf', state_push sort_row estimated_size s x = Ok (o, s') /\ writing s' before G' buf' /\
    note_segment o (first_of before G) (length G) = (first_of before G', length G') /\
    concat G' ++ buf' = concat G ++ buf ++ [x] /\ (length buf' <= S (length buf))%nat.
Proof.
  intros Hw Hx Hl. pose proof Hw as [Hh Hs Hg Hb]. assert (Forall good (buf ++ [x])) as Hbx by (apply Forall_app; by split; [|constructor]).
  destruct (push_holds sort_row estimated_size id s (before ++ G) buf x Hh (good_valids _ Hbx)) as [(s' & Hp & Hh')|(s' & Hp & Hh')].
  - exists None, s', G, (buf ++ [x]). split_and!; [done|by split|done|done|rewrite length_app; cbn; lia].
  - exists (Some (length (file_bytes sort_row (before ++ G)))), s', (G ++ [buf ++ [x]]), []. split_and!; [done| |apply note_first| |cbn; lia].
    + by apply (writing_flushed s s' before G buf); [..|by destruct buf|done|].
    + rewrite concat_app. cbn. by rewrite !app_nil_r.
Qed.

Lemma merge_loop_spec fuel : forall cs rss s before G buf,
  Forall2 cursor_at cs rss -> Forall (Forall good) rss -> writing s before G buf ->
  Z.of_nat (length (buf ++ concat rss)) < 2 ^ 64 -> (length (concat rss) < fuel)%nat ->
  exists out s' G' buf', merges rcmp rss out /\
    merge_loop estimated_size fuel fields cs (Ok s) (first_of before G) (length G) = Ok (Ok s', first_of before G', length G') /\
    writing s' before G' buf' /\ Z.of_nat (length buf') < 2 ^ 64 /\ concat G' ++ buf' = concat G ++ buf ++ out.
Proof.
  induction fuel as [|fuel IH]; intros cs rss s before G buf Hc Hg Hw Hl Hf; [lia|]. cbn [merge_loop].
  pose proof (select_least cs rss Hc Hg) as Hsel. destruct (select fields cs) as [i|].
  - destruct Hsel as (x & rs & Hi & Hleast). destruct (Forall2_lookup_r _ _ _ _ _ Hc Hi) as (c & Hci & Hcx).
    rewrite Hci. destruct (cursor_next_at c x rs Hcx) as (c' & -> & Hc'). cbn [rbind spill_push].
    pose proof (Forall_lookup_1 _ _ _ _ Hg Hi) as Hxrs. apply Forall_cons_1 in Hxrs as [Hx Hrs].
    destruct (concat_split rss i (x :: rs) Hi) as [Hcat Hcat']. specialize (Hcat' rs).
    assert (length (concat rss) = S (length (concat (<[i := rs]> rss)))) as Hlen.
    { rewrite Hcat, Hcat', !length_app. cbn. lia. }
    rewrite length_app in Hl.
    destruct (writing_push s before G buf x Hw Hx) as (o & s' & G' & buf' & -> & Hw' & Hn & Hcc & Hb'); [rewrite length_app; cbn; lia|].
    cbn [rbind]. rewrite Hn.
    destruct (IH (<[i := c']> cs) (<[i := rs]> rss) s' before G' buf') as (out & s'' & G'' & buf'' & Hm & -> & Hw'' & Hl'' & Hcc'').
    + by apply Forall2_insert.
    + by apply Forall_insert.
    + done.
    + rewrite length_app. lia.
    + lia.
    + exists (x :: out), s'', G'', buf''. split_and!; [by econstructor|done|done|done|].
      rewrite Hcc'', app_assoc, Hcc, <- !app_assoc. done.
  - exists [], s, G, buf. split_and!; [by constructor|done|done| |by rewrite app_nil_r]. rewrite length_app in Hl. lia.
Qed.

Lemma row_bytes_nonempty r : valid sort_row r -> exists bs, encode sort_row r = Ok bs /\ (0 < length bs)%nat.
Proof.
  intros Hv. pose proof Hv as [[Hl Hk] _]. destruct (round_trip sort_row r Hv) as (bs & E & _). exists bs. split; [done|].
  change (encode sort_row r) with (sort_row_encode r) in E. unfold sort_row_encode in E.
  change (encode (spill_vec data_value)) with (spill_vec_encode data_value) in E. unfold spill_vec_encode in E.
  rewrite write_len_ok in E by done. apply rbind_ok in E as (b1 & E1 & E). apply rbind_ok in E as (b2 & _ & E).
  apply rbind_ok in E1 as (len & [= <-] & E1). apply rbind_ok in E1 as (b3 & _ & [= <-]). apply Ok_inj in E. subst bs.
  cbn. lia.
Qed.

Lemma rows_bytes_length rows : Forall good rows -> (length rows <= length (rows_bytes sort_row rows))%nat.
Proof.
  intros H. pose proof (encode_rows sort_row rows (good_valids _ H)) as E. generalize dependent (rows_bytes sort_row rows).
  induction H as [|r rows Hr _ IH]; intros bs E; [cbn; lia|]. cbn [encode_all] in E.
  destruct (row_bytes_nonempty r (good_valid r Hr)) as (b & Eb & Hb). rewrite Eb in E. cbn [rbind] in E.
  apply rbind_ok in E as (bs' & E' & [= <-]). specialize (IH bs' E'). rewrite length_app. cbn. lia.
Qed.

(** The file is at least as long as its rows are many. *)
Lemma file_bytes_length segs : Forall (Forall good) segs -> (length (concat segs) <= length (file_bytes sort_row segs))%nat.
Proof.
  induction 1 as [|seg segs Hs _ IH]; [done|]. cbn [concat]. change (file_bytes sort_row (seg :: segs)) with (seg_bytes sort_row seg ++ file_bytes sort_row segs).
  unfold seg_bytes. rewrite !length_app. pose proof (rows_bytes_length seg Hs). lia.
Qed.

Lemma cursors_at segs group rss r tail :
  Forall2 (run_in segs) group rss -> Forall (seg_ok sort_row) segs -> Forall (Forall good) segs ->
  exists cs, rmap (cursor_new (Spilled r tail (file_bytes sort_row segs))) group = Ok cs /\ Forall2 cursor_at cs rss.
Proof.
  intros H Hs Hg. induction H as [|run rs group rss Hrun _ (cs & E & Hcs)]; [by exists []|].
  destruct (cursor_new_at segs run rs r tail Hrun Hs Hg) as (c & Ec & Hc). cbn [rmap]. rewrite Ec. cbn [rbind]. rewrite E. cbn [rbind]. eauto.
Qed.

Lemma run_in_good segs run rs : run_in segs run rs -> Forall (Forall good) segs -> Forall good rs.
Proof.
  intros (pre & mid & post & -> & _ & _ & <-) H. apply Forall_app in H as [_ H]. apply Forall_app in H as [H _].
  clear -H. induction H as [|x l Hx _ IH]; [constructor|]. cbn. apply Forall_app. by split.
Qed.

Lemma run_in_nonempty segs run rs : run_in segs run rs -> Forall (seg_ok sort_row) segs -> rs <> [].
Proof.
  intros (pre & mid & post & -> & Hne & _ & <-) H. destruct mid as [|seg mid]; [done|]. apply Forall_app in H as [_ H].
  cbn [app] in H. apply Forall_cons_1 in H as [(Hs & _) _]. by destruct seg.
Qed.

Lemma merge_group_spec segs group rss r tail s before :
  Forall2 (run_in segs) group rss -> Forall (seg_ok sort_row) segs -> Forall (Forall good) segs ->
  Forall (StronglySorted (not_after rcmp)) rss -> group <> [] -> writing s before [] [] ->
  (length (concat rss) <= length (concat segs))%nat -> Z.of_nat (length (concat segs)) < 2 ^ 64 ->
  exists s' G, merge_group estimated_size (Spilled r tail (file_bytes sort_row segs)) fields group (Ok s) =
      Ok (Ok s', mk_run (length (file_bytes sort_row before)) (length G)) /\
    writing s' before G [] /\ G <> [] /\ concat G = sort_by rcmp (concat rss).
Proof.
  intros Hruns Hs Hg Hsorted Hne Hw Hle Hl. unfold merge_group.
  destruct (cursors_at segs group rss r tail Hruns Hs Hg) as (cs & -> & Hcs). cbn [rbind merge_fuel].
  assert (Forall (Forall good) rss) as Hgr.
  { clear -Hruns Hg. induction Hruns; constructor; [by eapply run_in_good|done]. }
  pose proof (file_bytes_length segs Hg).
  destruct (merge_loop_spec (S (length (file_bytes sort_row segs))) cs rss s before [] [] Hcs Hgr Hw) as (out & s1 & G & buf & Hm & E & Hw1 & Hlb & Hc);
    [cbn; lia|lia|].
  change (first_of before []) with (@None nat) in E. change (length (@nil (list SortRow))) with 0%nat in E. rewrite E. cbn [rbind]. cbn in Hc.
  assert (out = sort_by rcmp (concat rss)) as Hout.
  { by apply (merges_sort rcmp rcmp_antisym rcmp_trans). }
  assert (out <> []) as Hno.
  { destruct Hruns as [|run rs group rss Hrun _]; [done|]. pose proof (run_in_nonempty _ _ _ Hrun Hs) as Hrs.
    intros ->. pose proof (merges_perm _ _ _ Hm) as Hp. apply Permutation_nil in Hp. cbn in Hp. by destruct rs. }
  pose proof Hw1 as [Hh Hsg Hgg Hgb]. unfold spill_flush. rewrite (holds_buffer _ _ _ _ _ Hh). destruct buf as [|v buf].
  - rewrite bool_decide_true by done. cbn [rbind note_segment]. rewrite app_nil_r in Hc.
    destruct G as [|seg G]; [by subst out|]. cbn [first_of length]. unfold run_new. cbn. exists s1, (seg :: G).
    split_and!; [done|done|done|congruence].
  - rewrite bool_decide_false by done.
    destruct (flush_holds sort_row id s1 (before ++ G) (v :: buf) Hh) as (s2 & -> & Hh2); [done|by apply good_valids|]. cbn [rbind].
    rewrite (note_first before G (v :: buf)). exists s2, (G ++ [v :: buf]).
    assert (first_of before (G ++ [v :: buf]) = Some (length (file_bytes sort_row before))) as -> by (by destruct G).
    unfold run_new. rewrite length_app, Nat.add_1_r. cbn [Nat.ltb rbind]. split_and!; [done| |by destruct G|].
    + by apply (writing_flushed s1 s2 before G (v :: buf)).
    + rewrite concat_app. cbn. by rewrite app_nil_r, Hc.
Qed.

(** ** Passes *)

(** The runs of consecutive groups of segments. *)
Fixpoint layout (off : nat) (Gs : list (list (list SortRow))) : list Run :=
  match Gs with
  | [] => []
  | G :: Gs' => mk_run off (length G) :: layout (off + length (file_bytes sort_row G)) Gs'
  end.

Lemma layout_length off Gs : length (layout off Gs) = length Gs.
Proof. revert off. induction Gs as [|G Gs IH]; intros off; [done|]. cbn. by rewrite IH. Qed.

Lemma layout_snoc off Gs G :
  layout off (Gs ++ [G]) = layout off Gs ++ [mk_run (off + length (file_bytes sort_row (concat Gs))) (length G)].
Proof.
  revert off. induction Gs as [|H Gs IH]; intros off; cbn [layout app concat]; [by rewrite Nat.add_0_r|].
  rewrite IH, file_bytes_app, length_app. by rewrite Nat.add_assoc.
Qed.

Lemma layout_runs Gs : forall pre,
  Forall (fun G => G <> []) Gs ->
  Forall2 (run_in (pre ++ concat Gs)) (layout (length (file_bytes sort_row pre)) Gs) (map (@concat SortRow) Gs).
Proof.
  induction Gs as [|G Gs IH]; intros pre H; [constructor|]. apply Forall_cons_1 in H as [HG H]. cbn [layout map concat].
  constructor; [by exists pre, G, (concat Gs)|].
  specialize (IH (pre ++ G) H). by rewrite <- app_assoc, file_bytes_app, length_app in IH.
Qed.

Lemma chunks_Forall2 {A B : Type} (R : A -> B -> Prop) n l1 l2 :
  Forall2 R l1 l2 -> Forall2 (Forall2 R) (chunks n l1) (chunks n l2).
Proof.
  intros H. unfold chunks. rewrite <- (Forall2_length _ _ _ H). generalize (length l1) as fuel. intros fuel.
  revert l1 l2 H. induction fuel as [|fuel IH]; intros l1 l2 H; [constructor|]. cbn. destruct H as [|x y l1 l2 Hx H]; [constructor|].
  constructor; [by apply Forall2_take; constructor|]. apply IH. by apply Forall2_drop; constructor.
Qed.

Lemma chunks_spec {A : Type} n (l : list A) :
  (0 < n)%nat -> concat (chunks n l) = l /\ Forall (fun c => c <> []) (chunks n l).
Proof.
  intros Hn. unfold chunks. assert (length l <= length l)%nat as Hle by lia. revert Hle. generalize (length l) at 2 3 4 as fuel.
  intros fuel. revert l. induction fuel as [|fuel IH]; intros l Hle; [destruct l; [done|cbn in Hle; lia]|].
  cbn. destruct l as [|x l]; [done|]. destruct (IH (drop n (x :: l))) as [E H].
  { rewrite length_drop. cbn in *. lia. }
  cbn [concat]. rewrite E, take_drop. split; [done|]. constructor; [|done]. by destruct n; [lia|].
Qed.

Lemma concat_length_le {A : Type} (ls : list (list A)) : Forall (fun c => c <> []) ls -> (length ls <= length (concat ls))%nat.
Proof. induction 1 as [|c ls Hc _ IH]; [done|]. cbn. rewrite length_app. destruct c; [done|]. cbn. lia. Qed.

Lemma chunks_fewer {A : Type} n (l : list A) : (1 < n)%nat -> (1 < length l)%nat -> (length (chunks n l) < length l)%nat.
Proof.
  intros Hn Hl. destruct (chunks_spec n l) as [E H]; [lia|]. unfold chunks in *. destruct l as [|x [|y l]]; cbn [length] in *; [lia..|].
  cbn [chunks_loop] in *. apply Forall_cons_1 in H as [_ H]. apply concat_length_le in H.
  apply (f_equal length) in E. cbn [concat] in E. rewrite length_app, length_take in E. cbn [length] in *. lia.
Qed.

(** The groups of segments of a file of sorted runs. *)
Record sorted_runs (Gs : list (list (list SortRow))) : Prop := {
  runs_nonempty : Forall (fun G => G <> []) Gs;
  runs_segs : Forall (seg_ok sort_row) (concat Gs);
  runs_good : Forall (Forall good) (concat Gs);
  runs_sorted : Forall (fun G => StronglySorted (not_after rcmp) (concat G)) Gs;
}.

Lemma sorted_runs_snoc Gs G :
  sorted_runs Gs -> G <> [] -> Forall (seg_ok sort_row) G -> Forall (Forall good) G ->
  StronglySorted (not_after rcmp) (concat G) -> sorted_runs (Gs ++ [G]).
Proof.
  intros [H1 H2 H3 H4] Hne Hs Hg Hso. split; rewrite ?concat_app; cbn [concat]; rewrite ?app_nil_r; apply Forall_app; split; auto.
Qed.

Lemma merge_groups_spec segs r tail groups rsss : forall s Gs,
  Forall2 (Forall2 (run_in segs)) groups rsss -> Forall (fun g => g <> []) groups ->
  Forall (seg_ok sort_row) segs -> Forall (Forall good) segs -> Forall (Forall (StronglySorted (not_after rcmp))) rsss ->
  Forall (fun rss => (length (concat rss) <= length (concat segs))%nat) rsss -> Z.of_nat (length (concat segs)) < 2 ^ 64 ->
  holds sort_row id s (concat Gs) [] -> sorted_runs Gs ->
  exists s' Gs', merge_groups estimated_size (Spilled r tail (file_bytes sort_row segs)) fields groups (Ok s) (layout 0 Gs) =
      Ok (Ok s', layout 0 (Gs ++ Gs')) /\
    holds sort_row id s' (concat (Gs ++ Gs')) [] /\ sorted_runs (Gs ++ Gs') /\
    map (@concat SortRow) Gs' = map (fun rss => sort_by rcmp (concat rss)) rsss.
Proof.
  intros s Gs Hruns Hne Hs Hg Hsorted Hle Hl. revert s Gs Hne Hsorted Hle.
  induction Hruns as [|group rss groups rsss Hgr _ IH]; intros s Gs Hne Hsorted Hle Hh HGs.
  { exists s, []. by rewrite app_nil_r. }
  apply Forall_cons_1 in Hne as [Hng Hne]. apply Forall_cons_1 in Hsorted as [Hso Hsorted]. apply Forall_cons_1 in Hle as [Hlg Hle].
  destruct (merge_group_spec segs group rss r tail s (concat Gs)) as (s' & G & E & Hw & HG & Hc); [done..| |done|done|].
  { split; [by rewrite app_nil_r|done..]. }
  cbn [merge_groups]. rewrite E. cbn [rbind]. destruct Hw as [Hh' Hs' Hg' _].
  assert (sorted_runs (Gs ++ [G])) as HGs'.
  { apply sorted_runs_snoc; [done..|]. rewrite Hc. apply (sort_by_sorted rcmp rcmp_antisym rcmp_trans). }
  destruct (IH s' (Gs ++ [G]) Hne Hsorted Hle) as (s'' & Gs' & E' & Hh'' & HGs'' & Hm); [|done|].
  { rewrite concat_app. cbn [concat]. by rewrite app_nil_r. }
  rewrite layout_snoc, Nat.add_0_l in E'. exists s'', (G :: Gs'). rewrite <- app_assoc in E', Hh'', HGs''.
  split_and!; [done..|]. cbn [map]. by rewrite Hc, Hm.
Qed.

Lemma concat_twice {A : Type} (l : list (list (list A))) : concat (concat l) = concat (map (@concat A) l).
Proof. induction l as [|x l IH]; [done|]. cbn. by rewrite concat_app, IH. Qed.

Lemma Forall_parts {A : Type} (P : A -> Prop) ls : Forall P (concat ls) -> Forall (Forall P) ls.
Proof. induction ls as [|l ls IH]; [done|]. cbn. rewrite Forall_app. intros [? ?]. constructor; auto. Qed.

Lemma parts_shorter {A : Type} (ls : list (list (list A))) :
  Forall (fun l => (length (concat l) <= length (concat (concat ls)))%nat) ls.
Proof.
  induction ls as [|l ls IH]; [done|]. cbn [concat]. rewrite concat_app, length_app. constructor; [lia|].
  eapply Forall_impl; [exact IH|]. cbn. lia.
Qed.

Lemma sorted_id l : StronglySorted (not_after rcmp) l -> l = sort_by rcmp l.
Proof. intros H. by apply (sort_by_unique rcmp rcmp_antisym rcmp_trans). Qed.

Lemma merge_pass_spec n r tail Gs :
  (0 < n)%nat -> sorted_runs Gs -> Z.of_nat (length (concat (concat Gs))) < 2 ^ 64 ->
  exists s' Gs', merge_pass estimated_size (Spilled r tail (file_bytes sort_row (concat Gs))) (layout 0 Gs) fields n =
      Ok (Ok s', layout 0 Gs') /\
    holds sort_row id s' (concat Gs') [] /\ sorted_runs Gs' /\ length Gs' = length (chunks n (layout 0 Gs)) /\
    sort_by rcmp (concat (concat Gs')) = sort_by rcmp (concat (concat Gs)).
Proof.
  intros Hn [H1 H2 H3 H4] Hl. pose proof (layout_runs Gs [] H1) as Hruns. cbn [app] in Hruns.
  change (length (file_bytes sort_row [])) with 0%nat in Hruns. set (rss := map (@concat SortRow) Gs) in *.
  destruct (chunks_spec n rss Hn) as [Ec _]. destruct (chunks_spec n (layout 0 Gs) Hn) as [_ Hne].
  pose proof (chunks_Forall2 _ n _ _ Hruns) as Hchunks.
  assert (exists s0, spill_new = Ok s0 /\ holds sort_row id s0 (concat []) []) as (s0 & E0 & H0) by apply new_holds.
  destruct (merge_groups_spec (concat Gs) r tail _ _ s0 [] Hchunks Hne H2 H3) as (s' & Gs' & E & Hh & HGs & Hm).
  - apply Forall_parts. rewrite Ec. unfold rss. by apply Forall_map.
  - pose proof (parts_shorter (chunks n rss)) as Hp. rewrite Ec in Hp. unfold rss in Hp at 1. by rewrite <- concat_twice in Hp.
  - done.
  - done.
  - split; constructor.
  - exists s', Gs'. unfold merge_pass. rewrite E0. cbn [app] in *. split_and!; [done..| |].
    + rewrite (Forall2_length _ _ _ Hchunks). apply (f_equal length) in Hm. by rewrite !length_map in Hm.
    + rewrite !concat_twice, Hm. fold rss. rewrite <- (map_map (@concat SortRow) (sort_by rcmp)).
      rewrite (sort_by_parts rcmp rcmp_antisym rcmp_trans). by rewrite <- concat_twice, Ec.
Qed.

Lemma merge_passes_spec n fuel : forall g s Gs,
  (1 < n)%nat -> holds sort_row g s (concat Gs) [] -> g [] = [] -> sorted_runs Gs ->
  Z.of_nat (length (concat (concat Gs))) < 2 ^ 64 -> (length Gs <= fuel)%nat ->
  exists s', merge_passes estimated_size fuel (Ok s) (layout 0 Gs) fields n = Ok (Ok s') /\
    yields sort_row (into_iter (Ok s')) (sort_by rcmp (concat (concat Gs))).
Proof.
  induction fuel as [|fuel IH]; intros g s Gs Hn Hh Hgn HGs Hl Hf; cbn [merge_passes]; rewrite layout_length.
  all: destruct (Nat.ltb_spec 1 (length Gs)) as [Hlen|Hlen]; [|exists s; split; [done|]].
  all: try (pose proof (into_iter_holds sort_row g s (concat Gs) [] Hh (runs_segs _ HGs)) as Hy; rewrite Hgn, app_nil_r in Hy;
    rewrite <- sorted_id; [done|]; destruct HGs as [_ _ _ Hso]; destruct Gs as [|G [|]]; [constructor| |cbn in Hlen; lia];
    apply Forall_cons_1 in Hso as [Hso _]; cbn [concat]; by rewrite app_nil_r).
  - lia.
  - assert (into_iter (Ok s) = Spilled (mk_segment_reader (file_bytes sort_row (concat Gs)) 0) [] (file_bytes sort_row (concat Gs))) as ->.
    { destruct Hh as [Hb Hfile Hflush]. unfold into_iter, into_read, run_on_flush. rewrite Hflush, Hb, Hgn. cbn [rbind].
      destruct Hfile as [->|[_ E]]; [done|]. destruct Gs as [|G Gs]; [cbn in Hlen; lia|]. destruct HGs as [HG _ _ _].
      apply Forall_cons_1 in HG as [HG _]. cbn in E. by destruct G. }
    destruct (merge_pass_spec n (mk_segment_reader (file_bytes sort_row (concat Gs)) 0) [] Gs) as (s' & Gs' & -> & Hh' & HGs' & Hlen' & Es);
      [lia|done|done|]. cbn [rbind]. rewrite <- Es. apply (IH id); [done|done|done|done| |].
    + rewrite <- (Permutation_length (sort_by_perm rcmp (concat (concat Gs')))), Es, (Permutation_length (sort_by_perm _ _)). done.
    + rewrite Hlen'. pose proof (chunks_fewer n (layout 0 Gs) Hn). rewrite layout_length in *. lia.
Qed.

(** ** Collecting the runs *)

Definition sorted_segment (rows : list SortRow) : list SortRow := sort_by (row_cmp fields) rows.

(** One run per segment. *)
Definition singles (segs : list (list SortRow)) : list (list (list SortRow)) := map (fun seg => [seg]) segs.

Lemma concat_singles segs : concat (singles segs) = segs.
Proof. induction segs as [|seg segs IH]; [done|]. cbn. f_equal. exact IH. Qed.

(** The rows [concat raws] are in sorted segments of the file, [buf] in memory. *)
Record collected (s : WriteState SortRow) (raws : list (list SortRow)) (buf : list SortRow) : Prop := {
  col_holds : holds sort_row sorted_segment s (map sorted_segment raws) buf;
  col_nonempty : Forall (fun raw => raw <> []) raws;
  col_good : Forall (Forall good) raws;
  col_buf : Forall good buf;
}.

Lemma sorted_segment_good rows : Forall good rows -> Forall good (sorted_segment rows).
Proof. unfold sorted_segment. by rewrite sort_by_perm. Qed.

Lemma collected_flushed s s' raws b buf :
  collected s raws b -> Forall good buf -> buf <> [] ->
  holds sort_row sorted_segment s' (map sorted_segment raws ++ [sorted_segment buf]) [] -> collected s' (raws ++ [buf]) [].
Proof.
  intros [_ H1 H2 _] Hb Hne Hh. split; [by rewrite map_app| | |done]; apply Forall_app; (split; [done|]); by constructor.
Qed.

Lemma collected_runs s raws buf :
  collected s raws buf -> Z.of_nat (length (concat raws)) < 2 ^ 64 -> sorted_runs (singles (map sorted_segment raws)).
Proof.
  intros [_ H1 H2 _] Hl. split; rewrite ?concat_singles.
  - apply Forall_map, Forall_map, Forall_forall. done.
  - clear -H1 H2 Hl. induction raws as [|raw raws IH]; [constructor|]. apply Forall_cons_1 in H1 as [Hraw H1].
    apply Forall_cons_1 in H2 as [Hgood H2]. cbn [concat] in Hl. rewrite length_app in Hl. cbn [map]. constructor; [|apply IH; [done|done|lia]].
    unfold sorted_segment. split_and!; [|by apply good_valids, sorted_segment_good|].
    + intros E. pose proof (sort_by_perm (row_cmp fields) raw) as Hp. rewrite E in Hp. by apply Permutation_nil in Hp.
    + rewrite (Permutation_length (sort_by_perm _ _)). lia.
  - apply Forall_map. eapply Forall_impl; [exact H2|]. apply sorted_segment_good.
  - apply Forall_map, Forall_map. eapply Forall_impl; [exact H2|]. intros raw Hraw. cbn. rewrite app_nil_r.
    unfold sorted_segment. rewrite sort_good by done. apply (sort_by_sorted rcmp rcmp_antisym rcmp_trans).
Qed.

Lemma segments_sorted raws :
  Forall (Forall good) raws ->
  sort_by rcmp (concat (map (sort_by (row_cmp fields)) raws)) = sort_by rcmp (concat raws).
Proof.
  intros H. rewrite <- (sort_by_parts rcmp rcmp_antisym rcmp_trans raws). do 2 f_equal.
  induction H as [|raw raws Hraw _ IH]; [done|]. cbn. by rewrite sort_good, IH.
Qed.

Definition segment_runs (raws : list (list SortRow)) : list Run := layout 0 (singles (map sorted_segment raws)).

Lemma segment_runs_snoc raws buf :
  segment_runs (raws ++ [buf]) = segment_runs raws ++ [mk_run (length (file_bytes sort_row (map sorted_segment raws))) 1].
Proof. unfold segment_runs, singles. rewrite !map_app. cbn [map]. rewrite layout_snoc. by rewrite concat_singles. Qed.

Lemma collect_spec ts rows : forall s raws buf,
  Forall2 (fun t row => sort_row_new fields t = Ok row /\ good row) ts rows -> collected s raws buf ->
  exists s' raws' buf', collect_runs estimated_size fields ts None (Ok s) (segment_runs raws) = Ok (Ok s', segment_runs raws') /\
    collected s' raws' buf' /\ concat raws' ++ buf' = concat raws ++ buf ++ rows.
Proof.
  intros s raws buf H. revert s raws buf. induction H as [|t row ts rows [Hrow Hgood] _ IH]; intros s raws buf Hc.
  { exists s, raws, buf. by rewrite app_nil_r. }
  cbn [collect_runs]. rewrite Hrow. cbn [rbind spill_push]. pose proof Hc as [Hh H1 H2 Hb].
  assert (Forall good (buf ++ [row])) as Hbr by (apply Forall_app; by split; [|constructor]).
  destruct (push_holds sort_row estimated_size sorted_segment s _ buf row Hh) as [(s' & -> & Hh')|(s' & -> & Hh')];
    [by apply good_valids, sorted_segment_good|..]; cbn [rbind].
  - destruct (IH s' raws (buf ++ [row])) as (s'' & raws' & buf' & -> & Hc' & E); [by split|].
    exists s'', raws', buf'. by rewrite E, <- app_assoc.
  - unfold run_new. cbn [Nat.ltb Nat.leb rbind]. rewrite <- (segment_runs_snoc raws (buf ++ [row])).
    destruct (IH s' (raws ++ [buf ++ [row]]) []) as (s'' & raws' & buf' & -> & Hc' & E).
    { apply (collected_flushed s s' raws buf); [done|done|by destruct buf|done]. }
    exists s'', raws', buf'. split_and!; [done..|]. rewrite E, concat_app. cbn. by rewrite app_nil_r, <- !app_assoc.
Qed.

Lemma finish_spec n s raws buf :
  (1 < n)%nat -> collected s raws buf -> Z.of_nat (length (concat raws ++ buf)) < 2 ^ 64 ->
  exists r, finish_sort estimated_size (Ok s) (segment_runs raws) fields n = Ok r /\
    yields sort_row r (sort_by rcmp (concat raws ++ buf)).
Proof.
  intros Hn Hc Hl. unfold finish_sort. rewrite (proj2 (Nat.ltb_lt 1 n)) by done. pose proof Hc as [Hh H1 H2 Hb].
  destruct (is_spilled (Ok s)) eqn:Es.
  - assert (forall s' raws', collected s' raws' [] -> concat raws' = concat raws ++ buf ->
      exists r, (let? spill := merge_passes estimated_size (length (segment_runs raws')) (Ok s') (segment_runs raws') fields n in
                 Ok (into_iter spill)) = Ok r /\ yields sort_row r (sort_by rcmp (concat raws ++ buf))) as Hmerge.
    { intros s' raws' Hc' E. rewrite <- E in Hl |- *.
      destruct (merge_passes_spec n (length (segment_runs raws')) sorted_segment s' (singles (map sorted_segment raws'))) as (s'' & Em & Hy).
      - done.
      - rewrite concat_singles. by destruct Hc'.
      - done.
      - by apply (collected_runs s' raws' []).
      - rewrite concat_singles. rewrite <- (Permutation_length (sort_by_perm rcmp _)). unfold sorted_segment.
        rewrite segments_sorted by (by destruct Hc'). by rewrite (Permutation_length (sort_by_perm _ _)).
      - unfold segment_runs. by rewrite layout_length.
      - unfold segment_runs at 2. rewrite Em. cbn [rbind]. eexists. split; [done|]. rewrite concat_singles in Hy.
        unfold sorted_segment in Hy. by rewrite segments_sorted in Hy by (by destruct Hc'). }
    unfold spill_flush. rewrite (holds_buffer _ _ _ _ _ Hh). destruct buf as [|v buf].
    + rewrite bool_decide_true by done. cbn [rbind]. apply (Hmerge s raws Hc). by rewrite app_nil_r.
    + rewrite bool_decide_false by done.
      destruct (flush_holds sort_row sorted_segment s _ (v :: buf) Hh) as (s' & -> & Hh'); [done|by apply good_valids, sorted_segment_good|].
      cbn [rbind]. unfold run_new. cbn [Nat.ltb Nat.leb rbind]. rewrite <- (segment_runs_snoc raws (v :: buf)).
      apply (Hmerge s' (raws ++ [v :: buf])); [by apply (collected_flushed s s' raws (v :: buf))|]. rewrite concat_app. cbn. by rewrite app_nil_r.
  - eexists. split; [done|]. pose proof (holds_file _ _ _ _ _ Hh) as [Hf|[Hf Hm]]; [cbn in Es; by rewrite Hf in Es|].
    apply map_eq_nil in Hm as ->. cbn [concat app]. rewrite <- sort_good by done.
    apply (into_iter_holds sort_row sorted_segment s [] buf Hh). constructor.
Qed.
End Merge.

Section Theorems.
Context {OF : OrderedFloat} {CH : Chrono} {SF : ScalarFunctions}.

(** The codec can hold the row and its keys. *)
Definition spillable (fields : list SortField) (t : Tuple) : Prop :=
  exists ks, sort_values fields t = Ok ks /\ valid sort_row (mk_sort_row ks t).

Lemma external_emits estimated_size fields input r rows :
  yields sort_row r rows ->
  runs (external_next estimated_size) (mk_external_sort (Some r) fields input) (mk_stream (map row_tuple rows) None).
Proof.
  induction 1 as [r r' E|r v r' vs E _ IH].
  - eapply runs_end. unfold external_next. cbn. unfold external_emit. by rewrite E.
  - eapply runs_row; [|exact IH]. unfold external_next. cbn. unfold external_emit. by rewrite E.
Qed.

Lemma sort_rows_good fields tys ts :
  Forall (typed_keys fields tys) ts -> Forall (spillable fields) ts ->
  exists rows, Forall2 (fun t row => sort_row_new fields t = Ok row /\ good fields tys row) ts rows /\ map row_tuple rows = ts.
Proof.
  intros H1 H2. induction ts as [|t ts IH]; [by exists []|]. apply Forall_cons_1 in H1 as [(ks & Ek & Ht) H1].
  apply Forall_cons_1 in H2 as [(ks' & Ek' & Hv) H2]. rewrite Ek in Ek'. apply Ok_inj in Ek'. subst ks'.
  destruct (IH H1 H2) as (rows & Hr & Hm). exists (mk_sort_row ks t :: rows). cbn. rewrite Hm. split; [|done].
  constructor; [|done]. unfold sort_row_new. by rewrite Ek.
Qed.

(** C9: The external sort emits exactly the rows of the in-memory sort, ties
    in input order, for any number of rows, any estimate of their sizes and so
    wherever the buffer spills and however many merge passes that takes. *)
Theorem external_sort_is_sort estimated_size fields tys ts o :
  Forall (typed_keys fields tys) ts -> Forall (spillable fields) ts -> Z.of_nat (length ts) < 2 ^ 64 ->
  runs sort_next (mk_sort [] fields (mk_stream ts None)) o ->
  runs (external_next estimated_size) (mk_external_sort None fields (mk_stream ts None)) o.
Proof.
  intros Ht Hs Hl Ho. rewrite (runs_functional _ _ _ _ Ho (sort_produces fields tys ts Ht)).
  destruct (sort_rows_good fields tys ts Ht Hs) as (rows & Hrows & Hm).
  destruct (collect_spec estimated_size fields tys ts rows
    (mk_write_state [] 0 None (Some (sort_segment fields)) DEFAULT_MAX_ROWS DEFAULT_MAX_BYTES) [] [] Hrows)
    as (s & raws & buf & Ec & Hc & E).
  { split; [split; [done|by right|done]|done..]. }
  cbn [concat app] in E.
  destruct (finish_spec estimated_size fields tys MERGE_FAN_IN s raws buf) as (r & Ef & Hy); [unfold MERGE_FAN_IN; lia|done| |].
  { rewrite E, <- (Forall2_length _ _ _ Hrows). done. }
  rewrite E in Hy.
  assert (map tuple (ordered_items fields ts) = map row_tuple (sort_by (rcmp fields) rows)) as ->.
  { unfold ordered_items. rewrite <- Hm, map_map.
    rewrite (sort_by_map (fun r => item_of fields (row_tuple r)) (rcmp fields) key_cmp (fun _ => True)); [|done|by apply Forall_true].
    by rewrite map_map. }
  eapply runs_same; [|apply (external_emits estimated_size fields (mk_stream [] None) r _ Hy)].
  unfold external_next. cbn [external_rows external_fields external_input Exec.rows failure].
  change (with_on_flush spill_new (sort_segment fields))
    with (@Ok DatabaseError _ (mk_write_state [] 0 None (Some (sort_segment fields)) DEFAULT_MAX_ROWS DEFAULT_MAX_BYTES)).
  unfold segment_runs in Ec at 1. cbn [map singles layout] in Ec. rewrite Ec. cbn [rbind]. by rewrite Ef.
Qed.
End Theorems.

Lemma one_value_spillable v : valid data_value v -> spillable [wit_field] (mk_tuple None [v]).
Proof.
  intros Hv. exists [v]. split; [reflexivity|]. assert (valid (spill_vec data_value) [v]) as H.
  { split; [cbn; lia|]. by constructor. }
  split; [exact H|]. split; [exact I|exact H].
Qed.

(** Every row is as large as the buffer: each is a run of its own. *)
Lemma external_sort_is_sort_witness :
  runs (external_next (fun _ => DEFAULT_MAX_BYTES)) (mk_external_sort None [wit_field] (mk_stream wit_rows None))
    (mk_stream [mk_tuple None [DataValue.Null]; wit_key 7; wit_key 3; wit_key (-1)] None).
Proof.
  apply (external_sort_is_sort _ [wit_field] [LogicalType.Integer] wit_rows).
  - exact wit_typed.
  - constructor; [|constructor; [|constructor; [|constructor; [|apply List.Forall_nil]]]]; apply one_value_spillable;
      (split_and!; [cbn; unfold in_s; try lia; exact I|reflexivity|exact I]).
  - cbn. lia.
  - do 4 (eapply runs_row; [reflexivity|]). eapply runs_end. reflexivity.
Defined.
