(* ===== verification/Optimizer.v ===== *)
(** Normalization rules of the optimizer (src/src/optimizer/rule/normalization)
    that move limits and orders, as functions on logical plans, against the
    meaning of a plan: the stream its executors produce. A subtree no rule
    looks into is a [Source] with the rows it produces. *)

From S2P Require Import Prelude MachineInt Types Operators Reader Value Chrono MemComparable Evaluators Casts Expr.
From S2P Require Import Row Collections Exec Sorting SortExec Aggregate HashJoin.
From Stdlib Require Import ZArith Lia.
From stdpp Require Import base tactics list list_numbers numbers option sorting.
Local Open Scope Z_scope.

Module Operator.
Section Operators.
Context {SF : ScalarFunctions}.
Inductive Operator :=
| Dummy
| Source (rows : Stream)
| Project (exprs : list ScalarExpression)
| Filter (predicate : ScalarExpression)
| Limit (offset limit : option Z)
| Sort (sort_fields : list SortField)
| TopK (sort_fields : list SortField) (limit : Z) (offset : option Z)
| Aggregate (agg_calls : list AggCall) (groupby_exprs : list ScalarExpression)
| Join (join_type : JoinType) (on_left on_right : list ScalarExpression) (filter : option ScalarExpression)
    (left_len right_len : nat).
End Operators.
End Operator.
Notation Operator := Operator.Operator.

Section Plans.
Context {SF : ScalarFunctions}.

Inductive LogicalPlan :=
| Plan (operator : Operator) (childrens : Childrens)
with Childrens :=
| NoChild
| Only (child : LogicalPlan)
| Twins (left_child right_child : LogicalPlan).

Definition operator (p : LogicalPlan) : Operator := let '(Plan op _) := p in op.
Definition childrens (p : LogicalPlan) : Childrens := let '(Plan _ ch) := p in ch.

(** * plan_utils.rs *)

Definition only_child (p : LogicalPlan) : option LogicalPlan :=
  match childrens p with Only child => Some child | _ => None end.

(** [child_mut(plan, idx)] replaced through [f]. *)
Definition map_child (p : LogicalPlan) (idx : nat) (f : LogicalPlan -> LogicalPlan) : option LogicalPlan :=
  match p, idx with
  | Plan op (Only child), 0%nat => Some (Plan op (Only (f child)))
  | Plan op (Twins l r), 0%nat => Some (Plan op (Twins (f l) r))
  | Plan op (Twins l r), 1%nat => Some (Plan op (Twins l (f r)))
  | _, _ => None
  end.

Definition wrap_child_with (p : LogicalPlan) (child_idx : nat) (op : Operator) : LogicalPlan * bool :=
  match map_child p child_idx (fun previous => Plan op (Only previous)) with
  | Some p' => (p', true)
  | None => (p, false)
  end.

(** A plan with other children is left without them. *)
Definition replace_with_only_child (p : LogicalPlan) : LogicalPlan * bool :=
  match p with
  | Plan _ (Only child) => (child, true)
  | Plan op _ => (Plan op NoChild, false)
  end.

(** * The rules: the new plan, and whether it changed *)

Definition LimitProjectTranspose (p : LogicalPlan) : LogicalPlan * bool :=
  match p with
  | Plan (Operator.Limit off lim) (Only (Plan (Operator.Project es) ch)) =>
      (Plan (Operator.Project es) (Only (Plan (Operator.Limit off lim) ch)), true)
  | _ => (p, false)
  end.

Definition PushLimitThroughJoin (p : LogicalPlan) : LogicalPlan * bool :=
  match p with
  | Plan (Operator.Limit off lim) (Only child) =>
      match operator child with
      | Operator.Join ty _ _ _ _ _ =>
          let '(child', applied) :=
            match ty with
            | JoinType.LeftOuter => wrap_child_with child 0 (Operator.Limit off lim)
            | JoinType.RightOuter => wrap_child_with child 1 (Operator.Limit off lim)
            | _ => (child, false)
            end in
          (Plan (Operator.Limit off lim) (Only child'), applied)
      | _ => (p, false)
      end
  | _ => (p, false)
  end.

Definition TopKRule (p : LogicalPlan) : LogicalPlan * bool :=
  match p with
  | Plan (Operator.Limit off (Some lim)) (Only child) =>
      match operator child with
      | Operator.Sort fields =>
          (Plan (Operator.TopK fields lim off) (Only (fst (replace_with_only_child child))), true)
      | _ => (p, false)
      end
  | _ => (p, false)
  end.

(** [asc] of the extremes. *)
Definition extreme_asc (kind : AggKind) : option bool :=
  match kind with
  | AggKind.Min => Some true
  | AggKind.Max => Some false
  | _ => None
  end.

(** Expressions are compared by reference, an argument here. *)
Definition MinMaxToTopK (expr_eq : ScalarExpression -> ScalarExpression -> bool) (p : LogicalPlan)
    : LogicalPlan * bool :=
  match operator p with
  | Operator.Aggregate [call] [] =>
      match agg_args call, extreme_asc (agg_kind call), only_child p with
      | [arg], Some asc_, Some child =>
          let already_top_k :=
            match operator child with
            | Operator.TopK [field] lim None =>
                (lim =? 1) && expr_eq (expr field) arg && eqb (asc field) asc_ && eqb (nulls_first field) false
            | _ => false
            end in
          if already_top_k then (p, false)
          else wrap_child_with p 0 (Operator.TopK [mk_sort_field arg asc_ false] 1 None)
      | _, _, _ => (p, false)
      end
  | _ => (p, false)
  end.
End Plans.

(** * The meaning of a plan *)

Section Meaning.
Context {OF : OrderedFloat} {CH : Chrono} {SF : ScalarFunctions} {HO : HashOrder}.

Inductive denotes : LogicalPlan -> Stream -> Prop :=
| denotes_source s : denotes (Plan (Operator.Source s) NoChild) s
| denotes_project es c s o :
    denotes c s -> runs projection_next (mk_projection es s) o -> denotes (Plan (Operator.Project es) (Only c)) o
| denotes_filter e c s o :
    denotes c s -> runs filter_next (mk_filter e s) o -> denotes (Plan (Operator.Filter e) (Only c)) o
| denotes_limit off lim c s o :
    denotes c s -> runs limit_next (mk_limit off lim s 0 0) o -> denotes (Plan (Operator.Limit off lim) (Only c)) o
| denotes_sort fields c s o :
    denotes c s -> runs sort_next (mk_sort [] fields s) o -> denotes (Plan (Operator.Sort fields) (Only c)) o
| denotes_top_k fields lim off c s o :
    denotes c s -> runs top_k_next (mk_top_k None fields lim off s) o ->
    denotes (Plan (Operator.TopK fields lim off) (Only c)) o
| denotes_simple_agg calls c s o :
    denotes c s -> runs simple_agg_next (mk_simple_agg calls s false) o ->
    denotes (Plan (Operator.Aggregate calls []) (Only c)) o
| denotes_hash_join ty lk rk f ll rl l r sl sr o :
    denotes l sl -> denotes r sr ->
    runs hash_join_next (mk_hash_join Build ty lk rk f ll rl sl sr) o ->
    denotes (Plan (Operator.Join ty lk rk f ll rl) (Twins l r)) o.

(** ** Limits and projections commute *)

Lemma project_total es ts ts' :
  Forall2 (fun t t' => project_row es t = Ok (Some t')) ts ts' ->
  runs projection_next (mk_projection es (mk_stream ts None)) (mk_stream ts' None).
Proof.
  intros H. replace (mk_stream ts' None) with (flow (project_row es) (mk_stream ts None)); [apply projection_produces|].
  rewrite (flow_total _ ts None (map Some ts')).
  - f_equal. clear. induction ts' as [|t' ts' IH]; [done|]. cbn [map].
    change (omap id (Some t' :: map Some ts')) with (t' :: omap id (map Some ts')). by rewrite IH.
  - induction H; constructor; done.
Qed.

Lemma limit_total off lim ts :
  runs limit_next (mk_limit off lim (mk_stream ts None) 0 0)
    (mk_stream (take (Z.to_nat (default usize_max lim)) (drop (Z.to_nat (default 0 off)) ts)) None).
Proof.
  pose proof (limit_produces (mk_limit off lim (mk_stream ts None) 0 0) ltac:(done) ltac:(done)) as H.
  simpl in H. rewrite !Z.sub_0_r in H. unfold limited in H. simpl in H. by destruct (_ <? _).
Qed.

(** [LimitProjectTranspose] keeps the meaning of the plan: where the
    projection evaluates on every row of its input, a limit over a projection
    and the projection over the limit produce the same rows. *)
Theorem limit_project_transpose_sound off lim es c ts ts' :
  denotes c (mk_stream ts None) -> Forall2 (fun t t' => project_row es t = Ok (Some t')) ts ts' ->
  let p := Plan (Operator.Limit off lim) (Only (Plan (Operator.Project es) (Only c))) in
  exists p' o, LimitProjectTranspose p = (p', true) /\ denotes p o /\ denotes p' o.
Proof.
  intros Hc Hp p. eexists _, (mk_stream (take (Z.to_nat (default usize_max lim)) (drop (Z.to_nat (default 0 off)) ts')) None).
  split; [reflexivity|]. split.
  - eapply denotes_limit; [|apply limit_total]. eapply denotes_project; [exact Hc|]. by apply project_total.
  - eapply denotes_project; [eapply denotes_limit; [exact Hc|apply limit_total]|].
    apply project_total. by apply Forall2_take, Forall2_drop.
Qed.

(** The rule [TopK] keeps the meaning of the plan: where the sort keys have
    fixed types without NaN and the limit and offset add up within a [usize],
    a limit over a sort and the top-k node that replaces both produce the same
    rows. *)
Theorem top_k_rule_sound off lim fields tys c ts :
  0 <= lim -> 0 <= default 0 off -> default 0 off + lim < 2 ^ 64 ->
  denotes c (mk_stream ts None) -> Forall (typed_keys fields tys) ts ->
  let p := Plan (Operator.Limit off (Some lim)) (Only (Plan (Operator.Sort fields) (Only c))) in
  exists p' o, TopKRule p = (p', true) /\ denotes p o /\ denotes p' o.
Proof.
  intros Hl Ho Hw Hc Ht p. eexists _, _. split; [reflexivity|]. split.
  - eapply denotes_limit; [eapply denotes_sort; [exact Hc|by eapply sort_produces]|].
    pose proof (limit_produces (mk_limit off (Some lim)
      (mk_stream (map tuple (ordered_items fields ts)) None) 0 0) ltac:(done) ltac:(done)) as H.
    simpl in H. rewrite !Z.sub_0_r in H. exact H.
  - simpl. eapply denotes_top_k; [exact Hc|]. by eapply top_k_produces.
Qed.

(** ** MIN and MAX through a sort *)

Lemma simple_single call arg ts vs acc :
  agg_args call = [arg] -> Forall2 (fun t v => eval arg (Some (values t)) = Ok v) ts vs ->
  simple_loop [call] ts None [acc] = (let? acc' := rfold update_value acc vs in Ok [acc']).
Proof.
  intros Ha H. revert acc. induction H as [|t v ts vs Hv _ IH]; intros acc; [done|]. simpl. rewrite Ha, Hv. simpl.
  destruct (update_value acc v) as [acc'|]; simpl; [apply IH|done].
Qed.

Definition extreme_kind (kind : AggKind) (is_max : bool) : Prop := extreme_asc kind = Some (negb is_max).

Lemma extreme_agg kind is_max call arg ty ts vs :
  extreme_kind kind is_max -> agg_kind call = kind -> agg_args call = [arg] -> extremal_type ty = true ->
  Forall2 (fun t v => eval arg (Some (values t)) = Ok v) ts vs -> Forall (operand ty) vs ->
  exists r, runs simple_agg_next (mk_simple_agg [call] (mk_stream ts None) false) (mk_stream [mk_tuple None [r]] None) /\
    (r = DataValue.Null \/ r ∈ non_nulls vs) /\ Forall (beats is_max r) (non_nulls vs) /\
    (non_nulls vs <> [] -> is_null r = false).
Proof.
  intros Hk Hc Ha Ht Hv Ho.
  destruct (min_max_run is_max ty vs DataValue.Null Ht Ho) as (r & Hr & _ & Hin & _ & Hall & Hnn); [by split|].
  exists r. split; [|by auto].
  apply (runs_row _ _ _ (mk_simple_agg [call] (mk_stream [] None) true)); [|by eapply runs_end].
  unfold simple_agg_next, create_accumulators. cbn [returned simple_calls rmap rbind simple_input rows failure].
  rewrite Hc.
  assert (create_accumulator kind (agg_ty call) (agg_distinct call) = Ok (min_max_new is_max)) as ->.
  { unfold extreme_kind in Hk. destruct kind, is_max; simpl in Hk; done. }
  cbn [rbind]. rewrite (simple_single call arg ts vs _ Ha Hv). unfold min_max_new.
  change (if is_max then BinaryOperator.Lt else BinaryOperator.Gt) with (extremal_op is_max). rewrite Hr. done.
Qed.

(** A row that sorts first has the extreme value. *)
Lemma first_is_extreme is_max arg t0 v0 t v :
  eval arg (Some (values t0)) = Ok v0 -> eval arg (Some (values t)) = Ok v ->
  row_ordering [mk_sort_field arg (negb is_max) false] t0 t <> Gt ->
  is_null v = false -> (is_null v0 = false -> exists c, partial_cmp v0 v = Some c) ->
  is_null v0 = false /\ beats is_max v0 v.
Proof.
  intros E0 E Hr Hn Hex. unfold row_ordering, sort_values in Hr. simpl in Hr. rewrite E0, E in Hr. simpl in Hr.
  unfold field_order in Hr. simpl in Hr. rewrite Hn in Hr.
  destruct (is_null v0) eqn:N0; [by simpl in Hr|]. destruct (Hex eq_refl) as [c Hc]. rewrite Hc in Hr. simpl in Hr.
  split; [done|]. exists c. split; [done|]. destruct is_max; simpl in Hr; destruct c; done.
Qed.

Lemma extremal_operand ty v : extremal_type ty = true -> key_value v ty -> operand ty v.
Proof. intros Ht (Ho & Hty & _). split; [done|]. destruct ty; try discriminate Ht; by destruct v. Qed.

Lemma beats_both is_max ty r v :
  extremal_type ty = true -> operand ty r -> is_null r = false ->
  beats is_max r v -> beats is_max v r -> key_eq r v = true.
Proof.
  intros Ht [_ Hr] Hn (c1 & H1 & N1) (c2 & H2 & N2). rewrite partial_cmp_flip, H1 in H2. simpl in H2.
  apply (inj Some) in H2. subst c2. apply dv_eq_partial_cmp.
  - destruct ty; try discriminate Ht; by destruct r.
  - rewrite H1. destruct is_max, c1; done.
Qed.

Lemma first_sorted is_max arg ty ts vs :
  extremal_type ty = true -> let fields := [mk_sort_field arg (negb is_max) false] in
  Forall (typed_keys fields [ty]) ts ->
  Forall2 (fun t v => eval arg (Some (values t)) = Ok v) ts vs -> Forall (operand ty) vs ->
  exists vs', Forall2 (fun t v => eval arg (Some (values t)) = Ok v) (take 1 (map tuple (ordered_items fields ts))) vs' /\
    Forall (operand ty) vs' /\
    ((non_nulls vs = [] /\ non_nulls vs' = []) \/ exists v0, vs' = [v0] /\ is_null v0 = false /\ v0 ∈ vs /\
      Forall (beats is_max v0) (non_nulls vs)).
Proof.
  intros Ht fields Htyped Hv Hop. set (out := map tuple (ordered_items fields ts)).
  assert (Permutation out ts) as Hperm by (unfold out, ordered_items; rewrite sort_by_perm, map_map; simpl; by rewrite map_id).
  assert (StronglySorted (fun a b => row_ordering fields a b <> Gt) out) as Hsort.
  { apply (sorted_items_ordered fields [ty]); [|by apply sorted_rows_typed]. unfold out.
    rewrite <- ordered_items_rows. apply sort_by_sorted; [apply key_cmp_antisym|apply key_cmp_trans]. }
  destruct out as [|t0 out].
  - apply Permutation_nil_l in Hperm. subst ts. inversion Hv; subst. exists []. split; [constructor|].
    split; [constructor|by left].
  - assert (t0 ∈ ts) as Hin0 by (rewrite <- Hperm; left).
    apply list_elem_of_lookup in Hin0 as [i Hi].
    destruct (Forall2_lookup_l _ _ _ _ _ Hv Hi) as (v0 & Hv0 & E0).
    assert (operand ty v0) as Ho0 by (by eapply Forall_lookup_1).
    exists [v0]. split; [simpl; rewrite take_0; by repeat constructor|]. split; [constructor; [done|constructor]|].
    assert (forall v, v ∈ vs -> is_null v = false -> is_null v0 = false /\ beats is_max v0 v) as Hbest.
    { intros v Hin Hn. apply list_elem_of_lookup in Hin as [j Hj].
      destruct (Forall2_lookup_r _ _ _ _ _ Hv Hj) as (t & Htj & E).
      apply (first_is_extreme is_max arg t0 v0 t v E0 E); [|done|].
      - fold fields. assert (t ∈ t0 :: out) as Hin by (rewrite Hperm; by eapply list_elem_of_lookup_2).
        apply elem_of_cons in Hin as [->|Hin].
        + assert (typed_keys fields [ty] t0) as Hty by (by eapply Forall_lookup_1).
          rewrite (row_ordering_key fields [ty] t0 t0 Hty Hty). unfold key_cmp. by rewrite lex_cmp_refl.
        + inversion Hsort as [|? ? _ Hall]; subst. rewrite Forall_forall in Hall. by apply Hall.
      - intros N0. destruct (extremal_eval is_max ty v0 v Ht Ho0) as (ev & c & _ & Hc & _); eauto.
        by eapply Forall_lookup_1. }
    destruct (non_nulls vs) as [|v1 nn] eqn:En.
    + destruct (is_null v0) eqn:N0; [left; unfold non_nulls; simpl; by rewrite N0|].
      exfalso. assert (In v0 (non_nulls vs)) as H.
      { apply filter_In. split; [|by rewrite N0]. apply list_elem_of_In. by eapply list_elem_of_lookup_2. }
      rewrite En in H. done.
    + right. exists v0. split; [done|].
      assert (forall v, v ∈ v1 :: nn -> is_null v0 = false /\ beats is_max v0 v) as H.
      { intros v Hin. rewrite <- En in Hin. apply list_elem_of_In, filter_In in Hin as [Hin Hn].
        apply Hbest; [by apply list_elem_of_In|]. by destruct (is_null v). }
      split; [by apply (H v1); left|]. split; [by eapply list_elem_of_lookup_2|].
      apply Forall_forall. intros v Hin. by apply H.
Qed.

(** The rule [MinMaxToTopK] keeps the answer of MIN and MAX: over an
    argument of a number, date or string type without NaN, the aggregate over
    the first row in the argument's order, nulls last, is null exactly when the
    aggregate over all rows is, and otherwise an equal value. *)
Theorem min_max_to_top_k_sound expr_eq kind is_max call arg ty c ts vs :
  extreme_kind kind is_max -> agg_kind call = kind -> agg_args call = [arg] -> extremal_type ty = true ->
  denotes c (mk_stream ts None) -> (forall fields lim off, operator c <> Operator.TopK fields lim off) ->
  Forall2 (fun t v => eval arg (Some (values t)) = Ok v) ts vs -> Forall (fun v => key_value v ty) vs ->
  let p := Plan (Operator.Aggregate [call] []) (Only c) in
  exists p' r r', MinMaxToTopK expr_eq p = (p', true) /\
    denotes p (mk_stream [mk_tuple None [r]] None) /\ denotes p' (mk_stream [mk_tuple None [r']] None) /\
    key_eq r r' = true.
Proof.
  intros Hk Hc Ha Ht Hden Hnot Hv Hkv p. set (fields := [mk_sort_field arg (negb is_max) false]).
  assert (Forall (operand ty) vs) as Hop by (eapply Forall_impl; [exact Hkv|]; intros v; by apply extremal_operand).
  assert (Forall (typed_keys fields [ty]) ts) as Htyped.
  { clear -Hv Hkv. induction Hv as [|t v ts vs Ev _ IH]; [constructor|]. apply Forall_cons_1 in Hkv as [Kv Hkv].
    constructor; [|by apply IH]. exists [v]. unfold sort_values. simpl. rewrite Ev. split; [done|].
    constructor; [done|constructor]. }
  destruct (extreme_agg kind is_max call arg ty ts vs Hk Hc Ha Ht Hv Hop) as (r & Hr & Hin & Hall & Hnn).
  set (out := map tuple (ordered_items fields ts)).
  pose proof (top_k_produces fields [ty] 1 None ts ltac:(done) ltac:(done) ltac:(done) Htyped) as Htop.
  unfold limited in Htop. cbn [rows] in Htop. fold out in Htop. simpl drop in Htop. rewrite drop_0 in Htop.
  change (Z.to_nat 1) with 1%nat in Htop.
  destruct (first_sorted is_max arg ty ts vs Ht Htyped Hv Hop) as (vs' & Hv' & Hop' & Hcase).
  destruct (extreme_agg kind is_max call arg ty (take 1 out) vs' Hk Hc Ha Ht Hv' Hop') as (r' & Hr' & Hin' & Hall' & Hnn').
  eexists _, r, r'. split.
  { unfold MinMaxToTopK. simpl. rewrite Ha, Hc, Hk.
    destruct (operator c) eqn:Eop; try reflexivity. by destruct (Hnot sort_fields limit offset). }
  split; [eapply denotes_simple_agg; [exact Hden|exact Hr]|]. split.
  { eapply denotes_simple_agg; [eapply denotes_top_k; [exact Hden|exact Htop]|]. cbn [failure]. by destruct (_ <? _). }
  destruct Hcase as [[N1 N2]|(v0 & -> & N0 & Hin0 & Hb0)].
  - rewrite N1 in Hin. rewrite N2 in Hin'.
    destruct Hin as [->|Hin]; [|by apply not_elem_of_nil in Hin].
    destruct Hin' as [->|Hin']; [done|by apply not_elem_of_nil in Hin'].
  - unfold non_nulls in Hin', Hall', Hnn'. simpl in *. rewrite N0 in *. simpl in *.
    specialize (Hnn' ltac:(done)). destruct Hin' as [->|Hin']; [done|]. apply list_elem_of_singleton in Hin'. subst r'.
    assert (v0 ∈ non_nulls vs) as Hin1.
    { apply list_elem_of_In, filter_In. split; [by apply list_elem_of_In|by rewrite N0]. }
    assert (non_nulls vs <> []) as Hne by (intros Hz; rewrite Hz in Hin1; by apply not_elem_of_nil in Hin1).
    specialize (Hnn Hne). destruct Hin as [->|Hin]; [done|].
    rewrite Forall_forall in Hall, Hb0.
    assert (operand ty r) as Hor.
    { apply list_elem_of_In, filter_In in Hin as [Hin _]. by eapply List.Forall_forall in Hop. }
    apply (beats_both is_max ty); auto.
Qed.
End Meaning.

(** * Pushing a limit with an offset below an outer join *)

Section OffsetTwice.
Context {SF : ScalarFunctions}.

Definition left_rows : list Tuple := [pair_row 1 5; pair_row 1 6].
Definition right_side : list Tuple := [pair_row 1 9].
Definition source (ts : list Tuple) : LogicalPlan := Plan (Operator.Source (mk_stream ts None)) NoChild.
Definition left_join (l r : LogicalPlan) : LogicalPlan :=
  Plan (Operator.Join JoinType.LeftOuter [int_col 0] [int_col 0] None 2 2) (Twins l r).
Definition limit_1_offset_1 (c : LogicalPlan) : LogicalPlan := Plan (Operator.Limit (Some 1) (Some 1)) (Only c).
End OffsetTwice.

(** [PushLimitThroughJoin] copies the offset to the outer side and keeps it
    above the join, so it is skipped twice: [LIMIT 1 OFFSET 1] over a left join
    of two rows that both match one row produces the second row, and nothing after
    the rule. *)
Theorem push_limit_offset_twice {OF : OrderedFloat} {CH : Chrono} {SF : ScalarFunctions} {HO : HashOrder} :
  let p := limit_1_offset_1 (left_join (source left_rows) (source right_side)) in
  let p' := limit_1_offset_1 (left_join (limit_1_offset_1 (source left_rows)) (source right_side)) in
  PushLimitThroughJoin p = (p', true) /\
  denotes p (mk_stream [quad_row (DataValue.Int32 1) (DataValue.Int32 6) (DataValue.Int32 1) (DataValue.Int32 9)] None) /\
  denotes p' (mk_stream [] None).
Proof.
  split; [reflexivity|]. split.
  - eapply (denotes_limit _ _ _ (mk_stream [joined (pair_row 1 5) (pair_row 1 9); joined (pair_row 1 6) (pair_row 1 9)] None)).
    + eapply denotes_hash_join; [apply denotes_source|apply denotes_source|run_join].
    + eapply runs_row; [reflexivity|]. by eapply runs_end.
  - eapply (denotes_limit _ _ _ (mk_stream [joined (pair_row 1 6) (pair_row 1 9)] None)).
    + eapply (denotes_hash_join _ _ _ _ _ _ _ _ (mk_stream [pair_row 1 6] None)); [|apply denotes_source|run_join].
      eapply denotes_limit; [apply denotes_source|]. eapply runs_row; [reflexivity|]. by eapply runs_end.
    + by eapply runs_end.
Qed.

(** ** Witnesses *)

Lemma limit_project_transpose_sound_witness :
  exists p' o,
    LimitProjectTranspose (Plan (Operator.Limit (Some 1) (Some 1))
      (Only (Plan (Operator.Project [int_col 1]) (Only (source left_rows))))) = (p', true) /\
    denotes (Plan (Operator.Limit (Some 1) (Some 1))
      (Only (Plan (Operator.Project [int_col 1]) (Only (source left_rows))))) o /\ denotes p' o.
Proof.
  apply (limit_project_transpose_sound (Some 1) (Some 1) [int_col 1] (source left_rows) left_rows
    [mk_tuple None [DataValue.Int32 5]; mk_tuple None [DataValue.Int32 6]]); [apply denotes_source|].
  repeat constructor.
Defined.

Lemma top_k_rule_sound_witness :
  exists p' o,
    TopKRule (Plan (Operator.Limit None (Some 2)) (Only (Plan (Operator.Sort [wit_field]) (Only (source wit_rows))))) =
      (p', true) /\
    denotes (Plan (Operator.Limit None (Some 2)) (Only (Plan (Operator.Sort [wit_field]) (Only (source wit_rows))))) o /\
    denotes p' o.
Proof.
  apply (top_k_rule_sound None 2 [wit_field] [LogicalType.Integer] (source wit_rows) wit_rows);
    [done..|apply denotes_source|exact wit_typed].
Defined.

Definition wit_max : AggCall := mk_agg_call false AggKind.Max [int_col 0] LogicalType.Integer.

Lemma min_max_to_top_k_sound_witness :
  exists p' r r',
    MinMaxToTopK (fun _ _ => false) (Plan (Operator.Aggregate [wit_max] []) (Only (source wit_rows))) = (p', true) /\
    denotes (Plan (Operator.Aggregate [wit_max] []) (Only (source wit_rows))) (mk_stream [mk_tuple None [r]] None) /\
    denotes p' (mk_stream [mk_tuple None [r']] None) /\ key_eq r r' = true.
Proof.
  apply (min_max_to_top_k_sound (fun _ _ => false) AggKind.Max true wit_max (int_col 0) LogicalType.Integer
    (source wit_rows) wit_rows [DataValue.Int32 3; DataValue.Null; DataValue.Int32 (-1); DataValue.Int32 7]);
    [done..|apply denotes_source|done|repeat constructor|].
  repeat (apply Forall_cons; split; [split; [simpl; unfold in_s; lia || done|done]|]). constructor.
Defined.
