(* ===== verification/Transaction.v ===== *)
(** The key-value interface under the engine (the required methods of
    [trait Transaction] in src/src/storage/mod.rs, [InnerIter]), with
    [Transaction::remove_range], the one provided method that is a loop over
    the interface.

    [TransactionOps] has the operations, [Transaction] what clients rely on:
    the store is a finite map from byte keys to bytes, and a range scan lists
    the entries between two bounds in byte order. The clients' theorems are
    proved against [Transaction]; [memory_transaction] of Memory.v discharges
    it for src/src/storage/memory.rs. RocksDB and LMDB, the other
    implementations, are third-party code behind the same interface. *)

From S2P Require Import Prelude MachineInt Types Reader Value Serdes.
From stdpp Require Import base list numbers option sorting.
From Stdlib Require Import ZArith Lia.
Local Open Scope Z_scope.

Notation bytes := (list Z).

(** * Bounds on keys *)

Definition above (lo : Bound bytes) (k : bytes) : Prop :=
  match lo with
  | Included b => lex_le b k
  | Excluded b => lex_lt b k
  | Unbounded => True
  end.

Definition below (hi : Bound bytes) (k : bytes) : Prop :=
  match hi with
  | Included b => lex_le k b
  | Excluded b => lex_lt k b
  | Unbounded => True
  end.

Definition in_range (lo hi : Bound bytes) (k : bytes) : Prop := above lo k /\ below hi k.

#[global] Instance in_range_dec (lo hi : Bound bytes) (k : bytes) : Decision (in_range lo hi k).
Proof. unfold in_range, above, below. destruct lo, hi; apply _. Defined.

(** A range a [BTreeMap] accepts: the start is not after the end, and not at
    an excluded end it excludes too. *)
Definition valid_range (lo hi : Bound bytes) : Prop :=
  match lo, hi with
  | Unbounded, _ | _, Unbounded => True
  | Excluded a, Excluded b => lex_lt a b
  | Included a, Included b | Included a, Excluded b | Excluded a, Included b => lex_le a b
  end.

#[global] Instance valid_range_dec (lo hi : Bound bytes) : Decision (valid_range lo hi).
Proof. unfold valid_range. destruct lo, hi; apply _. Defined.

(** * The interface *)

Class TransactionOps (T : Type) := {
  get_borrowed : T -> bytes -> res (option bytes);
  set_ : T -> bytes -> bytes -> res T;
  remove_ : T -> bytes -> res T;
  (** the entries the iterator will yield *)
  range : T -> Bound bytes -> Bound bytes -> res (list (bytes * bytes));
}.

Class Transaction (T : Type) `{Ops : TransactionOps T} := {
  tx_ok : T -> Prop;
  lookup_kv : T -> bytes -> option bytes;
  get_spec : forall t k, tx_ok t -> get_borrowed t k = Ok (lookup_kv t k);
  set_spec : forall t k v, tx_ok t ->
    exists t', set_ t k v = Ok t' /\ tx_ok t' /\
      forall k', lookup_kv t' k' = if decide (k = k') then Some v else lookup_kv t k';
  remove_spec : forall t k, tx_ok t ->
    exists t', remove_ t k = Ok t' /\ tx_ok t' /\
      forall k', lookup_kv t' k' = if decide (k = k') then None else lookup_kv t k';
  range_spec : forall t lo hi, tx_ok t -> valid_range lo hi ->
    exists es, range t lo hi = Ok es /\ StronglySorted lex_lt (map fst es) /\
      forall k v, (k, v) ∈ es <-> lookup_kv t k = Some v /\ in_range lo hi k;
}.

Definition exists_key {T : Type} `{TransactionOps T} (t : T) (key : bytes) : res bool :=
  let? v := get_borrowed t key in
  Ok (match v with Some _ => true | None => false end).

(** * [remove_range] *)

Section RemoveRange.
Context {T : Type} `{TransactionOps T}.

Definition DELETE_BATCH_SIZE : nat := 1024.

(** [Vec::pop]. *)
Definition pop {A : Type} (l : list A) : option (list A * A) :=
  match last l with
  | Some x => Some (removelast l, x)
  | None => None
  end.

(** One iteration per batch; [fuel] bounds the batches. *)
Fixpoint remove_range_loop (fuel : nat) (t : T) (lower upper : Bound bytes) : res T :=
  match fuel with
  | O => Err Panic
  | S fuel' =>
      let? iter := range t lower upper in
      let data_keys := take DELETE_BATCH_SIZE (map fst iter) in
      match pop data_keys with
      | None => Ok t
      | Some (data_keys, last_key) =>
          let batch_full := (length data_keys + 1 =? DELETE_BATCH_SIZE)%nat in
          let? t := rfold remove_ t data_keys in
          let? t := remove_ t last_key in
          if negb batch_full then Ok t
          else remove_range_loop fuel' t (Excluded last_key) upper
      end
  end.

(** Every full batch removes an entry, so one more than the entries in range
    is enough fuel ([remove_range_loop_spec]). *)
Definition remove_range (t : T) (min max : Bound bytes) : res T :=
  let? es := range t min max in
  remove_range_loop (S (length es)) t min max.
End RemoveRange.

Section RemoveRangeSpec.
Context {T : Type} `{Transaction T}.

(** [t'] is [t] without the keys satisfying [P]. *)
Definition erased (P : bytes -> Prop) `{!forall k, Decision (P k)} (t t' : T) : Prop :=
  tx_ok t' /\ forall k, lookup_kv t' k = if decide (P k) then None else lookup_kv t k.

Lemma rfold_remove (t : T) (ks : list bytes) :
  tx_ok t -> exists t', rfold remove_ t ks = Ok t' /\ erased (fun k => k ∈ ks) t t'.
Proof.
  revert t. induction ks as [|k ks IH]; intros t Ht; cbn [rfold].
  - exists t. split; [done|]. split; [done|]. intros k. rewrite decide_False; [done|apply not_elem_of_nil].
  - destruct (remove_spec t k Ht) as (t1 & -> & Ht1 & L1). cbn [rbind].
    destruct (IH t1 Ht1) as (t2 & -> & Ht2 & L2). exists t2. split; [done|]. split; [done|].
    intros k'. rewrite L2, L1. destruct (decide (k' ∈ ks)) as [Hin|Hin].
    + by rewrite decide_True by (by apply list_elem_of_further).
    + destruct (decide (k = k')) as [->|Hne].
      * by rewrite decide_True by apply list_elem_of_here.
      * rewrite decide_False; [done|]. apply not_elem_of_cons. split; congruence.
Qed.

Lemma pop_spec {A : Type} (l : list A) :
  match pop l with
  | Some (l', x) => l = l' ++ [x]
  | None => l = []
  end.
Proof.
  unfold pop. destruct l as [|y l] using rev_ind; [done|].
  by rewrite last_snoc, removelast_last.
Qed.

(** The keys of a batch, in order, are removed. *)
Lemma remove_batch (t : T) (ks : list bytes) (k : bytes) :
  tx_ok t -> exists t', (let? t1 := rfold remove_ t ks in remove_ t1 k) = Ok t' /\
    erased (fun k' => k' ∈ ks ++ [k]) t t'.
Proof.
  intros Ht. destruct (rfold_remove t (ks ++ [k]) Ht) as (t' & E & He).
  exists t'. split; [|done]. rewrite rfold_app in E. destruct (rfold remove_ t ks); [|done].
  cbn [rbind rfold] in *. by destruct (remove_ _ k).
Qed.

Lemma sorted_keys_NoDup (ks : list bytes) : StronglySorted lex_lt ks -> NoDup ks.
Proof.
  induction 1 as [|k ks _ IH Hk]; constructor; [|done]. intros Hin.
  rewrite list.Forall_forall in Hk. specialize (Hk k Hin). unfold lex_lt in Hk.
  by rewrite lex_cmp_refl in Hk.
Qed.

Lemma above_lt (lo : Bound bytes) (a b : bytes) : above lo a -> lex_lt a b -> above lo b.
Proof.
  destruct lo as [x|x|]; simpl; intros H1 H2; [|by eapply lex_lt_trans|done].
  eapply lex_le_trans; [done|]. apply lex_le_lt_or_eq. by left.
Qed.

Lemma valid_after (k : bytes) (hi : Bound bytes) : below hi k -> valid_range (Excluded k) hi.
Proof. by destruct hi. Qed.

(** Everything in range is in the batch or after its last key. *)
Lemma batch_covers (t : T) (lo hi : Bound bytes) (es : list (bytes * bytes)) (ks rest : list bytes)
    (k x v : bytes) :
  StronglySorted lex_lt (map fst es) ->
  (forall k v, (k, v) ∈ es <-> lookup_kv t k = Some v /\ in_range lo hi k) ->
  map fst es = (ks ++ [k]) ++ rest ->
  lookup_kv t x = Some v -> in_range lo hi x ->
  x ∈ ks ++ [k] \/ (x ∈ rest /\ lex_lt k x).
Proof.
  intros Hs He Hk Hx Hr. assert (x ∈ map fst es) as Hin.
  { apply list_elem_of_fmap. exists (x, v). split; [done|]. by apply He. }
  rewrite Hk in Hin, Hs. apply elem_of_app in Hin as [Hin|Hin]; [by left|]. right. split; [done|].
  eapply StronglySorted_app_1_elem_of; [exact Hs| |exact Hin].
  apply elem_of_app. right. apply list_elem_of_here.
Qed.

Lemma batch_inside (t : T) (lo hi : Bound bytes) (es : list (bytes * bytes)) (x : bytes) :
  (forall k v, (k, v) ∈ es <-> lookup_kv t k = Some v /\ in_range lo hi k) ->
  x ∈ map fst es -> in_range lo hi x.
Proof.
  intros He Hx. apply list_elem_of_fmap in Hx as ([k v] & -> & Hin). by apply He in Hin as [_ ?].
Qed.

(** A batch and what is left after it erase the whole range. *)
Lemma erased_batch_rest (t t1 t2 : T) (lo hi : Bound bytes) (es : list (bytes * bytes))
    (ks rest : list bytes) (k : bytes) :
  StronglySorted lex_lt (map fst es) ->
  (forall k v, (k, v) ∈ es <-> lookup_kv t k = Some v /\ in_range lo hi k) ->
  map fst es = (ks ++ [k]) ++ rest ->
  erased (fun x => x ∈ ks ++ [k]) t t1 -> erased (in_range (Excluded k) hi) t1 t2 ->
  erased (in_range lo hi) t t2.
Proof.
  intros Hs He Hk [_ L1] [Ht2 L2]. split; [done|]. intros x. rewrite L2, L1.
  assert (forall y, y ∈ ks ++ [k] -> in_range lo hi y) as Hin.
  { intros y Hy. apply (batch_inside t lo hi es y He). rewrite Hk. apply elem_of_app. by left. }
  destruct (decide (in_range lo hi x)) as [Hr|Hr].
  - destruct (decide (in_range (Excluded k) hi x)) as [|Hn]; [done|].
    destruct (decide (x ∈ ks ++ [k])) as [|Hb]; [done|].
    destruct (lookup_kv t x) as [v|] eqn:E; [|done]. exfalso.
    destruct (batch_covers t lo hi es ks rest k x v Hs He Hk E Hr) as [?|[_ ?]]; [done|].
    apply Hn. split; [done|apply Hr].
  - rewrite decide_False, decide_False; [done| |].
    + intros Hb. by apply Hr, Hin.
    + intros [Ha Hb]. apply Hr. split; [|done]. eapply above_lt; [|exact Ha].
      apply Hin. apply elem_of_app. right. apply list_elem_of_here.
Qed.

Lemma rest_shorter (t t1 : T) (lo hi : Bound bytes) (es es' : list (bytes * bytes))
    (ks rest : list bytes) (k : bytes) :
  StronglySorted lex_lt (map fst es) -> StronglySorted lex_lt (map fst es') ->
  (forall k v, (k, v) ∈ es <-> lookup_kv t k = Some v /\ in_range lo hi k) ->
  (forall x v, (x, v) ∈ es' <-> lookup_kv t1 x = Some v /\ in_range (Excluded k) hi x) ->
  map fst es = (ks ++ [k]) ++ rest -> erased (fun x => x ∈ ks ++ [k]) t t1 ->
  (length es' < length es)%nat.
Proof.
  intros Hs Hs' He He' Hk [_ L1].
  assert (map fst es' ⊆+ rest) as Hsub.
  { apply NoDup_submseteq; [by apply sorted_keys_NoDup|]. intros x Hx.
    apply list_elem_of_fmap in Hx as ([x' v] & -> & Hx). apply He' in Hx as [Lx [Ha Hb]]. simpl in *.
    rewrite L1 in Lx. destruct (decide (x' ∈ ks ++ [k])) as [|Hn]; [done|].
    assert (in_range lo hi x') as Hr.
    { split; [|done]. eapply above_lt; [|exact Ha].
      apply (batch_inside t lo hi es k He). rewrite Hk. apply elem_of_app. left.
      apply elem_of_app. right. apply list_elem_of_here. }
    destruct (batch_covers t lo hi es ks rest k x' v Hs He Hk Lx Hr) as [?|[? _]]; done. }
  apply submseteq_length in Hsub. apply (f_equal length) in Hk.
  rewrite !length_app, length_map in Hk. rewrite length_map in Hsub. simpl in Hk. lia.
Qed.

Lemma remove_range_loop_spec (fuel : nat) (t : T) (lo hi : Bound bytes) (es : list (bytes * bytes)) :
  tx_ok t -> valid_range lo hi -> range t lo hi = Ok es -> (length es < fuel)%nat ->
  exists t', remove_range_loop fuel t lo hi = Ok t' /\ erased (in_range lo hi) t t'.
Proof.
  revert t lo es. induction fuel as [|fuel IH]; intros t lo es Ht Hv Hr Hf; [lia|].
  destruct (range_spec t lo hi Ht Hv) as (es' & Hr' & Hs & He).
  rewrite Hr in Hr'. injection Hr' as <-. cbn [remove_range_loop]. rewrite Hr. cbn [rbind].
  pose proof (pop_spec (take DELETE_BATCH_SIZE (map fst es))) as Hp.
  destruct (pop (take DELETE_BATCH_SIZE (map fst es))) as [[ks k]|].
  - assert (map fst es = (ks ++ [k]) ++ drop DELETE_BATCH_SIZE (map fst es)) as Hk
      by (by rewrite <- Hp, take_drop).
    destruct (remove_batch t ks k Ht) as (t1 & E1 & Her).
    destruct (rfold remove_ t ks) as [t0|]; [|done]. cbn [rbind] in *. rewrite E1. cbn [rbind].
    assert (below hi k) as Hb.
    { apply (batch_inside t lo hi es k He). rewrite Hk. apply elem_of_app. left.
      apply elem_of_app. right. apply list_elem_of_here. }
    destruct (range_spec t1 (Excluded k) hi (proj1 Her) (valid_after k hi Hb)) as (es1 & Hr1 & Hs1 & He1).
    pose proof (rest_shorter t t1 lo hi es es1 ks _ k Hs Hs1 He He1 Hk Her) as Hlt.
    destruct (Nat.eqb_spec (length ks + 1) DELETE_BATCH_SIZE) as [Hfull|Hnot]; cbn [negb].
    + destruct (IH t1 (Excluded k) es1 (proj1 Her) (valid_after k hi Hb) Hr1) as (t2 & E2 & Her2); [lia|].
      exists t2. split; [done|]. eapply erased_batch_rest; [exact Hs|exact He|exact Hk|exact Her|exact Her2].
    + exists t1. split; [done|]. split; [apply Her|]. intros x. rewrite (proj2 Her).
      assert (drop DELETE_BATCH_SIZE (map fst es) = []) as Hd.
      { apply drop_ge. assert (length (ks ++ [k]) <> DELETE_BATCH_SIZE) as Hne
          by (rewrite length_app; simpl; lia).
        rewrite <- Hp, length_take in Hne. lia. }
      rewrite Hd, app_nil_r in Hk.
      destruct (decide (in_range lo hi x)) as [Hx|Hx], (decide (x ∈ ks ++ [k])) as [Hi|Hi]; try done.
      * destruct (lookup_kv t x) as [v|] eqn:E; [|done]. exfalso. apply Hi. rewrite <- Hk.
        apply list_elem_of_fmap. exists (x, v). split; [done|]. by apply He.
      * exfalso. apply Hx. apply (batch_inside t lo hi es x He). by rewrite Hk.
  - assert (es = []) as ->.
    { destruct es as [|e es]; [done|]. by apply (f_equal length) in Hp. }
    exists t. split; [done|]. split; [done|]. intros x.
    destruct (decide (in_range lo hi x)) as [Hx|]; [|done].
    destruct (lookup_kv t x) as [v|] eqn:E; [|done]. exfalso.
    apply (not_elem_of_nil (x, v)). by apply He.
Qed.

Lemma remove_range_erases (t : T) (lo hi : Bound bytes) :
  tx_ok t -> valid_range lo hi ->
  exists t', remove_range t lo hi = Ok t' /\ erased (in_range lo hi) t t'.
Proof.
  intros Ht Hv. destruct (range_spec t lo hi Ht Hv) as (es & Hr & _).
  unfold remove_range. rewrite Hr. cbn [rbind]. by eapply remove_range_loop_spec; [..|apply Nat.lt_succ_diag_r].
Qed.

(** [remove_range] removes the range and nothing else, however many batches
    of 1024 keys it takes: afterwards no key inside the bounds is stored and
    every other key has its old value; it terminates without error. *)
Theorem remove_range_spec (t : T) (lo hi : Bound bytes) :
  tx_ok t -> valid_range lo hi ->
  exists t', remove_range t lo hi = Ok t' /\ tx_ok t' /\
    forall k, lookup_kv t' k = if decide (in_range lo hi k) then None else lookup_kv t k.
Proof. apply remove_range_erases. Qed.
End RemoveRangeSpec.
