(* ===== verification/Memory.v ===== *)
(** The in-memory storage (src/src/storage/memory.rs): a [BTreeMap] behind a
    shared cell. The map is its entries in key order; [range] panics on the
    ranges [BTreeMap::range] panics on. The instance [memory_transaction]
    shows that it meets the interface the engine is proved against. *)

From S2P Require Import Prelude MachineInt Types Reader Value Serdes Transaction.
From stdpp Require Import base gmap list numbers option sorting.
From Stdlib Require Import ZArith Lia.
Local Open Scope Z_scope.

Definition BTreeMap : Type := list (bytes * bytes).

Fixpoint bt_get (m : BTreeMap) (key : bytes) : option bytes :=
  match m with
  | [] => None
  | (k, v) :: m' =>
      match lex_cmp key k with
      | Lt => None
      | Eq => Some v
      | Gt => bt_get m' key
      end
  end.

Fixpoint bt_insert (m : BTreeMap) (key value : bytes) : BTreeMap :=
  match m with
  | [] => [(key, value)]
  | (k, v) :: m' =>
      match lex_cmp key k with
      | Lt => (key, value) :: m
      | Eq => (key, value) :: m'
      | Gt => (k, v) :: bt_insert m' key value
      end
  end.

Fixpoint bt_remove (m : BTreeMap) (key : bytes) : BTreeMap :=
  match m with
  | [] => []
  | (k, v) :: m' =>
      match lex_cmp key k with
      | Lt => m
      | Eq => m'
      | Gt => (k, v) :: bt_remove m' key
      end
  end.

(** [BTreeMap::range], collected. *)
Definition bt_range (m : BTreeMap) (start end_ : Bound bytes) : res (list (bytes * bytes)) :=
  if decide (valid_range start end_) then
    Ok (List.filter (fun e => bool_decide (in_range start end_ (fst e))) m)
  else Err Panic.

#[global] Instance memory_ops : TransactionOps BTreeMap := {|
  get_borrowed := fun m key => Ok (bt_get m key);
  set_ := fun m key value => Ok (bt_insert m key value);
  remove_ := fun m key => Ok (bt_remove m key);
  range := bt_range;
|}.

(** ** Storage and transactions share one map *)

Inductive TransactionIsolationLevel := ReadCommitted | RepeatableRead.

#[global] Instance TransactionIsolationLevel_eq_dec : EqDecision TransactionIsolationLevel.
Proof. solve_decision. Defined.

(** The cell behind the [Rc]: every handle reads and writes it. *)
Record MemoryTransaction := memory_handle {}.

Definition default_transaction_isolation : TransactionIsolationLevel := ReadCommitted.

Definition validate_transaction_isolation (isolation : TransactionIsolationLevel) : res unit :=
  if decide (isolation = default_transaction_isolation) then Ok tt else Err UnsupportedStmt.

Definition transaction_with_isolation (isolation : TransactionIsolationLevel) : res MemoryTransaction :=
  let? _ := validate_transaction_isolation isolation in
  Ok memory_handle.

Definition mt_get (cell : BTreeMap) (t : MemoryTransaction) (key : bytes) : res (option bytes) :=
  get_borrowed cell key.
Definition mt_set (cell : BTreeMap) (t : MemoryTransaction) (key value : bytes) : res BTreeMap :=
  set_ cell key value.
(** A transaction that goes out of scope without [commit]: the [Rc] is released. *)
Definition mt_drop (cell : BTreeMap) (t : MemoryTransaction) : BTreeMap := cell.
Definition mt_commit (cell : BTreeMap) (t : MemoryTransaction) : res BTreeMap := Ok cell.

(** * The map *)

(** Strictly increasing keys. *)
Definition bt_ok (m : BTreeMap) : Prop := StronglySorted lex_lt (map fst m).

Lemma bt_ok_cons (k v : bytes) (m : BTreeMap) :
  bt_ok ((k, v) :: m) <-> Forall (fun e => lex_lt k (fst e)) m /\ bt_ok m.
Proof. unfold bt_ok. simpl. rewrite StronglySorted_cons, Forall_fmap. done. Qed.

Lemma lex_cmp_Gt_lt (a b : bytes) : lex_cmp a b = Gt -> lex_lt b a.
Proof. intros H. unfold lex_lt. rewrite lex_cmp_antisym, H. done. Qed.

Lemma bt_get_not_below (m : BTreeMap) (key : bytes) :
  Forall (fun e => lex_lt key (fst e)) m -> bt_get m key = None.
Proof.
  destruct m as [|[k v] m]; [done|]. intros H. apply Forall_cons_1 in H as [Hk _]. simpl in *.
  unfold lex_lt in Hk. by rewrite Hk.
Qed.

Lemma all_above_trans (a b : bytes) (m : BTreeMap) :
  lex_lt a b -> Forall (fun e => lex_lt b (fst e)) m -> Forall (fun e => lex_lt a (fst e)) m.
Proof. intros Hab H. eapply Forall_impl; [exact H|]. intros e He. by eapply lex_lt_trans. Qed.

Lemma lex_lt_ne (a b : bytes) : lex_lt a b -> a <> b.
Proof. intros H ->. unfold lex_lt in H. by rewrite lex_cmp_refl in H. Qed.

Lemma bt_get_elem (m : BTreeMap) (key value : bytes) :
  bt_ok m -> bt_get m key = Some value <-> (key, value) ∈ m.
Proof.
  induction m as [|[k v] m IH]; intros Hm; simpl.
  - split; [done|]. by intros ?%not_elem_of_nil.
  - apply bt_ok_cons in Hm as [Hall Hm]. rewrite elem_of_cons, <- (IH Hm).
    destruct (lex_cmp key k) eqn:E.
    + apply lex_cmp_eq in E as ->. rewrite (bt_get_not_below m k Hall). naive_solver.
    + rewrite (bt_get_not_below m key) by (by eapply all_above_trans).
      split; [done|]. intros [[= -> ->]|?]; [by rewrite lex_cmp_refl in E|done].
    + split; [by right|]. intros [[= -> ->]|?]; [by rewrite lex_cmp_refl in E|done].
Qed.

Lemma bt_insert_above (m : BTreeMap) (key value b : bytes) :
  lex_lt b key -> Forall (fun e => lex_lt b (fst e)) m ->
  Forall (fun e => lex_lt b (fst e)) (bt_insert m key value).
Proof.
  intros Hb. induction m as [|[k v] m IH]; intros H; simpl; [by constructor|].
  apply Forall_cons_1 in H as [Hk H]. destruct (lex_cmp key k); repeat constructor; auto.
Qed.

Lemma bt_insert_ok (m : BTreeMap) (key value : bytes) : bt_ok m -> bt_ok (bt_insert m key value).
Proof.
  induction m as [|[k v] m IH]; intros Hm; simpl.
  - apply bt_ok_cons. split; [constructor|done].
  - pose proof Hm as Hm0. apply bt_ok_cons in Hm as [Hall Hm]. destruct (lex_cmp key k) eqn:E.
    + apply lex_cmp_eq in E as ->. by apply bt_ok_cons.
    + apply bt_ok_cons. split; [|done]. constructor; [done|]. by eapply all_above_trans.
    + apply bt_ok_cons. split; [|by apply IH]. apply bt_insert_above; [by apply lex_cmp_Gt_lt|done].
Qed.

Lemma bt_get_insert (m : BTreeMap) (key value k' : bytes) :
  bt_ok m -> bt_get (bt_insert m key value) k' = if decide (key = k') then Some value else bt_get m k'.
Proof.
  intros Hm. induction m as [|[k v] m IH]; cbn [bt_insert bt_get].
  - destruct (decide (key = k')) as [->|Hne]; [by rewrite lex_cmp_refl|].
    destruct (lex_cmp k' key) eqn:E; try done. apply lex_cmp_eq in E. congruence.
  - apply bt_ok_cons in Hm as [Hall Hm]. destruct (lex_cmp key k) eqn:E; cbn [bt_get].
    + apply lex_cmp_eq in E as ->. destruct (decide (k = k')) as [->|Hne]; [by rewrite lex_cmp_refl|].
      destruct (lex_cmp k' k) eqn:E'; try done. apply lex_cmp_eq in E'. congruence.
    + destruct (decide (key = k')) as [->|Hne]; [by rewrite lex_cmp_refl|].
      destruct (lex_cmp k' key) eqn:E'; [apply lex_cmp_eq in E'; congruence| |done].
      rewrite (lex_lt_trans k' key k E' E). done.
    + rewrite (IH Hm). destruct (lex_cmp k' k) eqn:E'; try done;
        rewrite decide_False; try done; intros ->; congruence.
Qed.

Lemma bt_remove_above (m : BTreeMap) (key b : bytes) :
  Forall (fun e => lex_lt b (fst e)) m -> Forall (fun e => lex_lt b (fst e)) (bt_remove m key).
Proof.
  induction m as [|[k v] m IH]; intros H; simpl; [done|].
  apply Forall_cons_1 in H as [Hk H]. destruct (lex_cmp key k); [done|by constructor|].
  constructor; auto.
Qed.

Lemma bt_remove_ok (m : BTreeMap) (key : bytes) : bt_ok m -> bt_ok (bt_remove m key).
Proof.
  induction m as [|[k v] m IH]; intros Hm; simpl; [done|].
  pose proof Hm as Hm0. apply bt_ok_cons in Hm as [Hall Hm]. destruct (lex_cmp key k); [done..|].
  apply bt_ok_cons. split; [by apply bt_remove_above|by apply IH].
Qed.

Lemma bt_get_remove (m : BTreeMap) (key k' : bytes) :
  bt_ok m -> bt_get (bt_remove m key) k' = if decide (key = k') then None else bt_get m k'.
Proof.
  intros Hm. induction m as [|[k v] m IH]; cbn [bt_remove bt_get]; [by case_decide|].
  pose proof Hm as Hm0. apply bt_ok_cons in Hm as [Hall Hm].
  destruct (lex_cmp key k) eqn:E; cbn [bt_get].
  - apply lex_cmp_eq in E as ->. destruct (decide (k = k')) as [->|Hne]; [by apply bt_get_not_below|].
    destruct (lex_cmp k' k) eqn:E'; [apply lex_cmp_eq in E'; congruence| |done].
    apply bt_get_not_below. by eapply all_above_trans.
  - destruct (decide (key = k')) as [<-|]; [|done]. by rewrite E.
  - rewrite (IH Hm). destruct (lex_cmp k' k) eqn:E'; try done;
      rewrite decide_False; try done; intros ->; congruence.
Qed.

Lemma bt_filter_ok (m : BTreeMap) (f : bytes * bytes -> bool) : bt_ok m -> bt_ok (List.filter f m).
Proof.
  induction m as [|[k v] m IH]; intros Hm; simpl; [done|]. apply bt_ok_cons in Hm as [Hall Hm].
  destruct (f (k, v)); [|by apply IH]. apply bt_ok_cons. split; [|by apply IH].
  apply Forall_forall. intros e He. apply list_elem_of_In, filter_In in He as [He _].
  apply list_elem_of_In in He. by eapply (proj1 (Forall_forall _ _) Hall).
Qed.

#[global] Program Instance memory_transaction : Transaction BTreeMap := {|
  tx_ok := bt_ok;
  lookup_kv := bt_get;
|}.
Next Obligation. done. Qed.
Next Obligation.
  intros m k v Hm. eexists. split; [done|]. split; [by apply bt_insert_ok|].
  intros k'. by apply bt_get_insert.
Qed.
Next Obligation.
  intros m k Hm. eexists. split; [done|]. split; [by apply bt_remove_ok|].
  intros k'. by apply bt_get_remove.
Qed.
Next Obligation.
  intros m lo hi Hm Hv. simpl. unfold bt_range. rewrite decide_True by done.
  eexists. split; [done|]. split; [by apply bt_filter_ok|]. intros k v.
  rewrite bt_get_elem by done. rewrite !list_elem_of_In, filter_In. simpl.
  by rewrite bool_decide_eq_true.
Qed.

(** * Refinement of a finite map *)

Inductive kv_op :=
| OpSet (key value : bytes)
| OpRemove (key : bytes).

Definition run_op (m : BTreeMap) (op : kv_op) : res BTreeMap :=
  match op with
  | OpSet k v => set_ m k v
  | OpRemove k => remove_ m k
  end.

(** The specification: a finite map. *)
Definition spec_op (g : gmap bytes bytes) (op : kv_op) : gmap bytes bytes :=
  match op with
  | OpSet k v => <[k := v]> g
  | OpRemove k => delete k g
  end.

(** The store holds the map [g]. *)
Definition refines (m : BTreeMap) (g : gmap bytes bytes) : Prop :=
  bt_ok m /\ forall k, bt_get m k = g !! k.

Lemma run_op_refines (m : BTreeMap) (g : gmap bytes bytes) (op : kv_op) :
  refines m g -> exists m', run_op m op = Ok m' /\ refines m' (spec_op g op).
Proof.
  intros [Hm Hg]. destruct op as [k v|k]; eexists; (split; [reflexivity|]); split.
  - by apply bt_insert_ok.
  - intros k'. simpl. rewrite bt_get_insert, Hg by done. case_decide as E.
    + by rewrite E, lookup_insert_eq.
    + by rewrite lookup_insert_ne.
  - by apply bt_remove_ok.
  - intros k'. simpl. rewrite bt_get_remove, Hg by done. case_decide as E.
    + by rewrite E, lookup_delete_eq.
    + by rewrite lookup_delete_ne.
Qed.

(** The in-memory store is a finite map. After any sequence of writes and
    removals of any transactions, every key reads as in the finite map the
    sequence describes, and a range scan yields the entries of that map
    between the bounds, in strictly increasing key order. *)
Theorem memory_refines_map (ops : list kv_op) :
  exists m, rfold run_op [] ops = Ok m /\
    let g := foldl spec_op ∅ ops in
    (forall k, get_borrowed m k = Ok (g !! k)) /\
    (forall lo hi, valid_range lo hi -> exists es, range m lo hi = Ok es /\
      StronglySorted lex_lt (map fst es) /\
      forall k v, (k, v) ∈ es <-> g !! k = Some v /\ in_range lo hi k).
Proof.
  assert (forall m g, refines m g -> exists m', rfold run_op m ops = Ok m' /\
    refines m' (foldl spec_op g ops)) as H.
  { induction ops as [|op ops IH]; intros m g R; [by exists m|]. cbn [rfold foldl].
    destruct (run_op_refines m g op R) as (m' & -> & R'). by apply IH. }
  destruct (H [] ∅) as (m & E & Hm & Hg); [split; [constructor|done]|].
  exists m. split; [done|]. split; [intros k; simpl; by rewrite Hg|].
  intros lo hi Hv. destruct (@range_spec BTreeMap memory_ops memory_transaction m lo hi Hm Hv) as (es & Er & Es & He).
  exists es. split; [done|]. split; [done|]. intros k v. rewrite He. simpl. by rewrite Hg.
Qed.

(** The in-memory transactions do not isolate. With the only level the
    storage accepts, [ReadCommitted], a write is read by another transaction
    before any commit, and it stays when the writer is dropped without one. *)
Theorem memory_dirty_read (cell : BTreeMap) (t1 t2 : MemoryTransaction) (key value : bytes) :
  bt_ok cell ->
  transaction_with_isolation ReadCommitted = Ok t1 ->
  transaction_with_isolation ReadCommitted = Ok t2 ->
  exists cell', mt_set cell t1 key value = Ok cell' /\
    mt_get cell' t2 key = Ok (Some value) /\
    mt_get (mt_drop cell' t1) t2 key = Ok (Some value).
Proof.
  intros Hm _ _. eexists. split; [reflexivity|]. unfold mt_drop, mt_get. simpl.
  by rewrite bt_get_insert, decide_True.
Qed.

Lemma memory_dirty_read_witness :
  exists cell', mt_set [] memory_handle [1] [2] = Ok cell' /\
    mt_get cell' memory_handle [1] = Ok (Some [2]) /\
    mt_get (mt_drop cell' memory_handle) memory_handle [1] = Ok (Some [2]).
Proof. apply (memory_dirty_read [] memory_handle memory_handle [1] [2]); [constructor|reflexivity..]. Defined.

Lemma remove_range_spec_witness :
  exists t', remove_range ([([1], []); ([2], []); ([3], [])] : BTreeMap) (Included [2]) (Included [9]) = Ok t' /\
    tx_ok t' /\
    forall k, lookup_kv t' k = if decide (in_range (Included [2]) (Included [9]) k) then None
      else lookup_kv ([([1], []); ([2], []); ([3], [])] : BTreeMap) k.
Proof.
  apply (remove_range_spec ([([1], []); ([2], []); ([3], [])] : BTreeMap)).
  - repeat constructor.
  - done.
Defined.
