(* ===== verification/Storage.v ===== *)
(** The storage operations built on the key codec and the key-value interface
    (the provided methods of [trait Transaction] in src/src/storage/mod.rs):
    rows, index entries, name reservations, views, dropping tables.

    A closure that updates the transaction returns its new state. The catalog
    objects the operations write ([View], [TableMeta]) are their encodings. *)

From S2P Require Import Prelude MachineInt Types Reader Value MemComparable StableHash Serdes.
From S2P Require Import TableCodec Row Transaction Memory.
From stdpp Require Import base list numbers option sets sorting.
From Stdlib Require Import ZArith Lia.
Local Open Scope Z_scope.

Section Operations.
Context {T : Type} `{TransactionOps T}.
Implicit Types (t : T) (table_name view_name : bytes).

Definition is_primary (ty : IndexType) : bool :=
  match ty with PrimaryKey _ => true | _ => false end.
Definition is_unique (ty : IndexType) : bool :=
  match ty with Unique => true | _ => false end.

Definition add_index t table_name (index : Index) (tuple_id : DataValue) : res T :=
  if is_primary (idx_ty index) then Ok t
  else
    with_index table_name index (Some tuple_id) (fun key value =>
      let? existing := if is_unique (idx_ty index) then get_borrowed t key else Ok None in
      match existing with
      | Some bytes => if decide (bytes = value) then Ok t else Err DuplicateUniqueValue
      | None => set_ t key value
      end).

Definition del_index t table_name (index : Index) (tuple_id : DataValue) : res T :=
  if is_primary (idx_ty index) then Ok t
  else with_index table_name index (Some tuple_id) (fun key _ => remove_ t key).

Definition append_tuple t table_name (tuple : Tuple) (serializers : list TupleValueSerializableImpl)
    (is_overwrite : bool) : res T :=
  match pk tuple with
  | None => Err PrimaryKeyNotFound
  | Some tuple_id =>
      with_tuple table_name tuple_id (Some (serialize_to tuple serializers)) (fun key value =>
        let? taken := if is_overwrite then Ok false else exists_key t key in
        if taken then Err DuplicatePrimaryKey else set_ t key value)
  end.

Definition remove_tuple t table_name (tuple_id : DataValue) : res T :=
  with_tuple table_name tuple_id None (fun key _ => remove_ t key).

(** [IndexImplParams::get_tuple_by_id_into]: the tuple read, or none. *)
Definition get_tuple_by_id t table_name (tuple_id : DataValue)
    (deserializers : list TupleValueSerializableImpl) (total_len : nat) : res (option Tuple) :=
  with_tuple_unchecked table_name tuple_id None (fun key _ =>
    let? bytes := get_borrowed t key in
    match bytes with
    | None => Ok None
    | Some bytes =>
        let? tuple := deserialize_from_into (mk_tuple (Some tuple_id) []) deserializers bytes total_len in
        Ok (Some tuple)
    end).

Definition check_name_hash t table_name : res T :=
  let? taken := with_table_hash table_name (fun key _ => exists_key t key) in
  if taken then Err DuplicateSourceHash
  else with_table_hash table_name (fun key _ => set_ t key []).

Definition drop_name_hash t table_name : res T :=
  with_table_hash table_name (fun key _ => remove_ t key).

Definition create_view t view_name (encoded : res bytes) (or_replace : bool) : res T :=
  let? already_exists := with_view view_name (fun key _ => exists_key t key) in
  if negb or_replace && already_exists then Err ViewExists
  else
    let? t := if already_exists then Ok t else check_name_hash t view_name in
    with_view_value view_name encoded (fun key value => set_ t key value).

Definition drop_view t view_name (if_exists : bool) : res (T * bool) :=
  let? t := drop_name_hash t view_name in
  let? present := with_view view_name (fun key _ => exists_key t key) in
  if negb present then
    if if_exists then Ok (t, false) else Err ViewNotFound
  else
    let? t := with_view view_name (fun key _ => remove_ t key) in
    Ok (t, true).

(** [self.remove_range(Bound::Included(min), Bound::Included(max))]. *)
Definition remove_between t (min max : bytes) : res T :=
  remove_range t (Included min) (Included max).

Definition drop_data t table_name : res T :=
  let? t := with_tuple_bound table_name (remove_between t) in
  let? t := with_all_index_bound table_name (remove_between t) in
  with_statistics_bound table_name (remove_between t).

Definition remove_statistics_meta t table_name (index_id : Z) : res T :=
  with_statistics_index_bound table_name index_id (remove_between t).

Definition drop_table t table_name (if_exists : bool) : res (T * bool) :=
  let? present := with_root_table table_name None (fun key _ => exists_key t key) in
  if negb present then
    if if_exists then Ok (t, false) else Err TableNotFound
  else
    let? t := drop_name_hash t table_name in
    let? t := drop_data t table_name in
    let? t := with_columns_bound table_name (remove_between t) in
    let? t := with_index_meta_bound table_name (remove_between t) in
    let? t := with_root_table table_name None (fun key _ => remove_ t key) in
    Ok (t, true).
End Operations.

(** * Rows and entries *)

Section Specs.
Context {T : Type} `{Transaction T}.
Implicit Types (t : T) (name : bytes).

Lemma exists_key_spec t (k : bytes) :
  tx_ok t -> exists_key t k = Ok (bool_decide (is_Some (lookup_kv t k))).
Proof.
  intros Ht. unfold exists_key. rewrite get_spec by done. cbn [rbind].
  destruct (lookup_kv t k); [by rewrite bool_decide_true|]. rewrite bool_decide_false; [done|].
  by intros [? ?].
Qed.

(** [t'] is [t] with [k] bound to [v] (or unbound). *)
Definition updated (t t' : T) (k : bytes) (v : option bytes) : Prop :=
  tx_ok t' /\ forall k', lookup_kv t' k' = if decide (k = k') then v else lookup_kv t k'.

Lemma with_tuple_checked {R : Type} name (id : DataValue) (encoded : option (res bytes))
    (f : bytes -> bytes -> res R) (e : bytes) :
  check_primary_key id 0 = Ok tt -> memcomparable_encode id = Ok e ->
  with_tuple name id encoded f = let? value := encode_opt encoded in f (tuple_prefix name ++ e) value.
Proof. intros Hc He. unfold with_tuple, with_tuple_unchecked. rewrite Hc, He. done. Qed.

Lemma with_tuple_read {R : Type} name (id : DataValue) (f : bytes -> bytes -> res R) (e : bytes) :
  memcomparable_encode id = Ok e ->
  with_tuple_unchecked name id None f = f (tuple_prefix name ++ e) [].
Proof. intros He. unfold with_tuple_unchecked. by rewrite He. Qed.

(** Insert, then look up. Appending a row under a valid primary key (new,
    or with overwrite) succeeds and changes the one key of that row; looking
    the id up reads the columns asked for, and an append of the same key
    without overwrite is refused as a duplicate. *)
Theorem append_then_get t name (id : DataValue) (pk_ty : LogicalType) (cols : list column)
    (n : nat) (ss ds : list TupleValueSerializableImpl) (is_overwrite : bool) :
  tx_ok t -> check_primary_key id 0 = Ok tt -> key_value id pk_ty ->
  row_columns cols ss -> Forall2 (fun c d => col_deserializer c = Ok d) (take n cols) ds ->
  let row := mk_tuple (Some id) (map col_value cols) in
  exists key bytes,
    with_tuple_unchecked name id None capture = Ok (key, []) /\ serialize_to row ss = Ok bytes /\
    (is_Some (lookup_kv t key) -> append_tuple t name row ss false = Err DuplicatePrimaryKey) /\
    (is_overwrite = true \/ lookup_kv t key = None ->
      exists t', append_tuple t name row ss is_overwrite = Ok t' /\ updated t t' key (Some bytes) /\
        get_tuple_by_id t' name id ds (length cols) =
          Ok (Some (mk_tuple (Some id) (flat_map read_column (take n cols))))).
Proof.
  intros Ht Hc Hk Hrow Hd row. destruct (key_value_decodes id pk_ty Hk) as (e & He & _).
  destruct (row_scan cols n ss ds (Some id) (mk_tuple (Some id) []) Hrow Hd) as (bytes & Hs & Hr).
  fold row in Hs. exists (tuple_prefix name ++ e), bytes. split; [by rewrite (with_tuple_read name id capture e He)|]. split; [done|].
  unfold append_tuple, get_tuple_by_id. cbn [pk row].
  assert (forall f : _ -> _ -> res T, with_tuple name id (Some (serialize_to row ss)) f =
    f (tuple_prefix name ++ e) bytes) as Hw.
  { intros f. rewrite (with_tuple_checked name id _ f e Hc He). cbn [encode_opt]. by rewrite Hs. }
  rewrite !Hw. split.
  - intros Hin. rewrite exists_key_spec by done. cbn [rbind]. by rewrite bool_decide_true.
  - intros Ho. destruct (set_spec t (tuple_prefix name ++ e) bytes Ht) as (t' & E & Ht' & L).
    exists t'. split; [|split; [done|]].
    + destruct Ho as [->|Hn]; [done|]. destruct is_overwrite; [done|].
      rewrite exists_key_spec, Hn by done. cbn [rbind]. done.
    + rewrite (with_tuple_read name id _ e He), get_spec by done. cbn [rbind].
      rewrite L, decide_True by done. by rewrite Hr.
Qed.

(** Removing a row. The row's key is gone, every other key is untouched,
    and the id is no longer found. *)
Theorem remove_then_get t name (id : DataValue) (pk_ty : LogicalType)
    (ds : list TupleValueSerializableImpl) (total_len : nat) :
  tx_ok t -> check_primary_key id 0 = Ok tt -> key_value id pk_ty ->
  exists key t', with_tuple_unchecked name id None capture = Ok (key, []) /\
    remove_tuple t name id = Ok t' /\ updated t t' key None /\
    get_tuple_by_id t' name id ds total_len = Ok None.
Proof.
  intros Ht Hc Hk. destruct (key_value_decodes id pk_ty Hk) as (e & He & _).
  destruct (remove_spec t (tuple_prefix name ++ e) Ht) as (t' & E & Ht' & L).
  exists (tuple_prefix name ++ e), t'. split; [by rewrite (with_tuple_read name id capture e He)|].
  split; [unfold remove_tuple; by rewrite (with_tuple_checked name id None _ e Hc He)|].
  split; [done|]. unfold get_tuple_by_id.
  rewrite (with_tuple_read name id _ e He), get_spec by done. cbn [rbind].
  by rewrite L, decide_True.
Qed.

Lemma with_index_read {R : Type} name (index : Index) (id : DataValue) (f : bytes -> bytes -> res R)
    (key value : bytes) :
  with_index name index (Some id) capture = Ok (key, value) -> with_index name index (Some id) f = f key value.
Proof.
  unfold with_index, capture. destruct (encode_values (idx_values index)); [|done]. cbn [rbind].
  destruct (appends_tuple_id (idx_ty index)).
  - destruct (memcomparable_encode id); [|done]. cbn [rbind].
    destruct (encode_reference_value id); [|done]. cbn [rbind]. by intros [= <- <-].
  - cbn [rbind]. destruct (encode_reference_value id); [|done]. cbn [rbind]. by intros [= <- <-].
Qed.

(** The cases of [add_index], by what is stored under the key; in terms of the
    rows of a table they are [add_index_rows] of DmlNodes.v. *)
Lemma add_index_spec t name (index : Index) (id : DataValue) (key value : bytes) :
  tx_ok t -> with_index name index (Some id) capture = Ok (key, value) ->
  match idx_ty index with
  | PrimaryKey _ => add_index t name index id = Ok t
  | Unique =>
      match lookup_kv t key with
      | None => exists t', add_index t name index id = Ok t' /\ updated t t' key (Some value)
      | Some v => add_index t name index id = if decide (v = value) then Ok t else Err DuplicateUniqueValue
      end
  | Normal | Composite => exists t', add_index t name index id = Ok t' /\ updated t t' key (Some value)
  end.
Proof.
  intros Ht Hw. destruct (set_spec t key value Ht) as (t' & E & Ht' & L).
  unfold add_index. destruct (idx_ty index) eqn:Ety; cbn [is_primary is_unique]; [done|..];
    rewrite (with_index_read name index id _ key value Hw).
  - rewrite get_spec by done. cbn [rbind]. destruct (lookup_kv t key); [done|].
    by exists t'.
  - cbn [rbind]. by exists t'.
  - cbn [rbind]. by exists t'.
Qed.

(** Deleting an index entry removes the entry of that value and row only. *)
Theorem del_index_spec t name (index : Index) (id : DataValue) (key value : bytes) :
  tx_ok t -> is_primary (idx_ty index) = false ->
  with_index name index (Some id) capture = Ok (key, value) ->
  exists t', del_index t name index id = Ok t' /\ updated t t' key None.
Proof.
  intros Ht Hp Hw. destruct (remove_spec t key Ht) as (t' & E & Ht' & L).
  exists t'. split; [|done]. unfold del_index. rewrite Hp.
  by rewrite (with_index_read name index id _ key value Hw).
Qed.

(** * Names and views *)

Definition hash_key name : bytes := write_key_prefix [] CodecType.Hash (hash_bytes name).
Definition view_key name : bytes := write_key_prefix [] CodecType.View (hash_bytes name).
Definition root_key name : bytes := write_key_prefix [] CodecType.Root (hash_bytes name).

Lemma check_name_hash_cases t name :
  tx_ok t ->
  match lookup_kv t (hash_key name) with
  | Some _ => check_name_hash t name = Err DuplicateSourceHash
  | None => exists t', check_name_hash t name = Ok t' /\ updated t t' (hash_key name) (Some [])
  end.
Proof.
  intros Ht. unfold check_name_hash, with_table_hash. fold (hash_key name).
  rewrite exists_key_spec by done. cbn [rbind]. destruct (lookup_kv t (hash_key name)).
  - by rewrite bool_decide_true.
  - rewrite bool_decide_false by (by intros [? ?]).
    destruct (set_spec t (hash_key name) [] Ht) as (t' & E & ?). by exists t'.
Qed.

(** A name is reserved once. Reserving a name records its hash, and as long
    as it is recorded no second table or view with that hash can be reserved;
    releasing it makes it available again. *)
Theorem check_name_hash_spec t name :
  tx_ok t -> lookup_kv t (hash_key name) = None ->
  exists t', check_name_hash t name = Ok t' /\ updated t t' (hash_key name) (Some []) /\
    (forall name', hash_bytes name' = hash_bytes name -> check_name_hash t' name' = Err DuplicateSourceHash) /\
    exists t'', drop_name_hash t' name = Ok t'' /\ updated t t'' (hash_key name) None.
Proof.
  intros Ht Hn. pose proof (check_name_hash_cases t name Ht) as Hc. rewrite Hn in Hc.
  destruct Hc as (t' & E & Ht' & L). exists t'. split; [done|]. split; [done|]. split.
  - intros name' Hh. pose proof (check_name_hash_cases t' name' Ht') as Hc'.
    assert (hash_key name' = hash_key name) as Hk by (unfold hash_key; by rewrite Hh).
    by rewrite Hk, L, decide_True in Hc'.
  - destruct (remove_spec t' (hash_key name) Ht') as (t'' & E'' & Ht'' & L'').
    exists t''. split; [done|]. split; [done|]. intros k'. rewrite L'', L. by case_decide.
Qed.

Lemma hash_view_ne name name' : hash_key name <> view_key name'.
Proof. done. Qed.

(** Creating and dropping a view. A new view needs a free name and reserves
    it; an existing one is replaced only on request; dropping it removes the
    view and its reservation, and nothing else. *)
Theorem view_lifecycle t name (bs : bytes) (or_replace if_exists : bool) :
  tx_ok t ->
  match lookup_kv t (view_key name), lookup_kv t (hash_key name) with
  | Some _, _ =>
      (or_replace = false -> create_view t name (Ok bs) or_replace = Err ViewExists) /\
      (or_replace = true -> exists t', create_view t name (Ok bs) or_replace = Ok t' /\
        updated t t' (view_key name) (Some bs)) /\
      exists t', drop_view t name if_exists = Ok (t', true) /\ tx_ok t' /\
        forall k, lookup_kv t' k =
          if decide (k = view_key name \/ k = hash_key name) then None else lookup_kv t k
  | None, Some _ => create_view t name (Ok bs) or_replace = Err DuplicateSourceHash
  | None, None => exists t', create_view t name (Ok bs) or_replace = Ok t' /\ tx_ok t' /\
      lookup_kv t' (view_key name) = Some bs /\ lookup_kv t' (hash_key name) = Some []
  end.
Proof.
  intros Ht. unfold create_view, with_view, with_view_value. fold (view_key name).
  rewrite exists_key_spec by done. pose proof (check_name_hash_cases t name Ht) as Hc. cbn [rbind].
  destruct (lookup_kv t (view_key name)) eqn:Ev.
  - rewrite bool_decide_true by done. split; [by intros ->|]. split.
    + intros ->. cbn [negb andb rbind]. destruct (set_spec t (view_key name) bs Ht) as (t' & E & ?).
      by exists t'.
    + unfold drop_view, drop_name_hash, with_view, with_table_hash. fold (hash_key name) (view_key name).
      destruct (remove_spec t (hash_key name) Ht) as (t1 & -> & Ht1 & L1). cbn [rbind].
      rewrite exists_key_spec, L1, decide_False, Ev, bool_decide_true by done. cbn [rbind negb].
      destruct (remove_spec t1 (view_key name) Ht1) as (t2 & -> & Ht2 & L2). cbn [rbind].
      exists t2. split; [done|]. split; [done|]. intros k. rewrite L2, L1.
      repeat case_decide; naive_solver.
  - rewrite bool_decide_false by (by intros [? ?]). rewrite andb_false_r.
    destruct (lookup_kv t (hash_key name)); [by rewrite Hc|].
    destruct Hc as (t1 & -> & Ht1 & L1). cbn [rbind].
    destruct (set_spec t1 (view_key name) bs Ht1) as (t2 & -> & Ht2 & L2).
    exists t2. split; [done|]. split; [done|]. rewrite !L2, decide_True by done.
    by rewrite decide_False, L1, decide_True.
Qed.

(** Dropping a view that does not exist releases the name of a table. For a
    name reserved by a table, [DROP VIEW IF EXISTS] reports that there was no
    view, and yet removes the reservation: the name can then be reserved a
    second time while the table exists. *)
Theorem drop_view_releases_table_name t name :
  tx_ok t -> is_Some (lookup_kv t (hash_key name)) -> lookup_kv t (view_key name) = None ->
  exists t', drop_view t name true = Ok (t', false) /\ updated t t' (hash_key name) None /\
    exists t'', check_name_hash t' name = Ok t''.
Proof.
  intros Ht _ Hv. unfold drop_view, drop_name_hash, with_view, with_table_hash.
  fold (hash_key name) (view_key name).
  destruct (remove_spec t (hash_key name) Ht) as (t1 & -> & Ht1 & L1). cbn [rbind].
  rewrite exists_key_spec, L1, decide_False, Hv by done. cbn [rbind].
  rewrite bool_decide_false by (by intros [? ?]). cbn [negb].
  exists t1. split; [done|]. split; [done|].
  pose proof (check_name_hash_cases t1 name Ht1) as Hc. rewrite L1, decide_True in Hc by done.
  destruct Hc as (t2 & E & _). by exists t2.
Qed.

(** * Dropping a table *)

(** The range of one key type of a table. *)
Definition type_range name (ty : CodecType) (k : bytes) : Prop :=
  in_range (Included (write_key_prefix [] ty (hash_bytes name) ++ [BOUND_MIN_TAG]))
           (Included (write_key_prefix [] ty (hash_bytes name) ++ [BOUND_MAX_TAG])) k.

#[local] Instance type_range_dec name ty k : Decision (type_range name ty k).
Proof. apply _. Defined.

Lemma remove_type t name (ty : CodecType) :
  tx_ok t -> exists t', type_bound ty ty name (remove_between t) = Ok t' /\ erased (type_range name ty) t t'.
Proof.
  intros Ht. unfold type_bound, remove_between. apply remove_range_erases; [done|].
  simpl. unfold lex_le. rewrite lex_cmp_app_l. done.
Qed.

Lemma remove_types t name (tys : list CodecType) :
  tx_ok t -> exists t', rfold (fun t ty => type_bound ty ty name (remove_between t)) t tys = Ok t' /\
    erased (fun k => Exists (fun ty => type_range name ty k) tys) t t'.
Proof.
  revert t. induction tys as [|ty tys IH]; intros t Ht; cbn [rfold].
  - exists t. split; [done|]. split; [done|]. intros k. by rewrite decide_False by inversion 1.
  - destruct (remove_type t name ty Ht) as (t1 & -> & Ht1 & L1). cbn [rbind].
    destruct (IH t1 Ht1) as (t2 & -> & Ht2 & L2). exists t2. split; [done|]. split; [done|].
    intros k. rewrite L2, L1. destruct (decide (Exists _ tys)) as [Hex|Hex].
    + by rewrite decide_True by (by constructor).
    + destruct (decide (type_range name ty k)) as [Hr|Hr].
      * by rewrite decide_True by (by constructor).
      * rewrite decide_False; [done|]. by inversion 1.
Qed.

(** The key types under a table's hash, in the order [drop_table] clears them. *)
Definition table_types : list CodecType :=
  [CodecType.Tuple; CodecType.Index; CodecType.Statistics; CodecType.Column; CodecType.IndexMeta].

(** The hash does not look like the start of a global key. *)
Definition global_prefix (g : bytes) : Prop := g = ROOT_BYTES \/ g = VIEW_BYTES \/ g = HASH_BYTES.
Definition plain_hash name : Prop :=
  forall g, global_prefix g -> take 5 (hash_bytes name) <> g ++ [BOUND_MIN_TAG].

Lemma take5_table_key (ty : CodecType) name (x : bytes) :
  table_type ty = true ->
  take 5 (write_key_prefix [] ty (hash_bytes name) ++ x) = take 5 (hash_bytes name).
Proof.
  intros Ht. pose proof (length_hash_bytes name).
  destruct ty; try discriminate; cbn [write_key_prefix app]; rewrite <- (assoc_L app);
    apply take_app_le; lia.
Qed.

(** A key with a global prefix is in no range of a table with a plain hash. *)
Lemma global_not_in_range (g : bytes) name name' (ty : CodecType) :
  table_type ty = true -> plain_hash name -> global_prefix g -> ~ type_range name ty (g ++ [BOUND_MIN_TAG] ++ hash_bytes name').
Proof.
  intros Ht Hp Hg [Ha Hb]. pose proof (length_hash_bytes name').
  assert (length g = 4%nat) as Hl by (by destruct Hg as [->|[->| ->]]).
  assert (g ++ [BOUND_MIN_TAG] ++ hash_bytes name' =
    (g ++ [BOUND_MIN_TAG] ++ take 4 (hash_bytes name')) ++ drop 4 (hash_bytes name')) as E
    by (rewrite <- !(assoc_L app), take_drop; done).
  rewrite E in Ha, Hb. apply (conj Ha) in Hb. apply bounds_prefix in Hb.
  - apply (Hp g Hg). rewrite <- (take5_table_key ty name []), app_nil_r, <- Hb by done.
    rewrite (assoc_L app), take_app_length' by (rewrite length_app; simpl; lia). done.
  - rewrite !length_app, length_take, length_table_prefix by (done || apply length_hash_bytes).
    simpl. lia.
Qed.

Lemma not_in_types (k : bytes) name (tys : list CodecType) :
  (forall ty, ty ∈ tys -> ~ type_range name ty k) -> ~ Exists (fun ty => type_range name ty k) tys.
Proof. intros Hn Hex. apply Exists_exists in Hex as (ty & Hin & Hr). by apply (Hn ty). Qed.

Lemma table_types_table (ty : CodecType) : ty ∈ table_types <-> table_type ty = true.
Proof. unfold table_types. destruct ty; split; intros; try done; try (by repeat constructor); set_solver. Qed.

Lemma drop_table_keys t name (if_exists : bool) :
  tx_ok t -> is_Some (lookup_kv t (root_key name)) ->
  exists t', drop_table t name if_exists = Ok (t', true) /\ tx_ok t' /\
    forall k, lookup_kv t' k =
      if decide (k = root_key name \/ k = hash_key name \/
                 Exists (fun ty => type_range name ty k) table_types)
      then None else lookup_kv t k.
Proof.
  intros Ht Hroot. unfold drop_table, with_root_table. fold (root_key name). cbn [encode_opt rbind].
  rewrite exists_key_spec, bool_decide_true by done. cbn [rbind negb].
  unfold drop_name_hash, with_table_hash. fold (hash_key name).
  destruct (remove_spec t (hash_key name) Ht) as (t1 & -> & Ht1 & L1). cbn [rbind].
  destruct (remove_types t1 name table_types Ht1) as (t2 & E2 & Ht2 & L2).
  unfold drop_data, with_tuple_bound, with_all_index_bound, with_statistics_bound,
    with_columns_bound, with_index_meta_bound.
  cbn [rfold table_types] in E2.
  destruct (type_bound CodecType.Tuple _ _ _) as [a1|]; [|done]. cbn [rbind] in *.
  destruct (type_bound CodecType.Index _ _ _) as [a2|]; [|done]. cbn [rbind] in *.
  destruct (type_bound CodecType.Statistics _ _ _) as [a3|]; [|done]. cbn [rbind] in *.
  destruct (type_bound CodecType.Column _ _ _) as [a4|]; [|done]. cbn [rbind] in *.
  destruct (type_bound CodecType.IndexMeta _ _ _) as [a5|]; [|done]. cbn [rbind] in *.
  injection E2 as ->. destruct (remove_spec t2 (root_key name) Ht2) as (t3 & -> & Ht3 & L3).
  exists t3. split; [done|]. split; [done|]. intros k. rewrite L3, L2, L1.
  repeat case_decide; naive_solver.
Qed.

Lemma table_key_not_global (ty : CodecType) (g : bytes) name name' (x : bytes) :
  table_type ty = true -> plain_hash name' -> global_prefix g ->
  write_key_prefix [] ty (hash_bytes name') ++ x <> g ++ [BOUND_MIN_TAG] ++ hash_bytes name.
Proof.
  intros Ht Hp Hg E. assert (length g = 4%nat) as Hl by (by destruct Hg as [->|[->| ->]]).
  apply (f_equal (take 5)) in E. rewrite take5_table_key in E by done.
  rewrite (assoc_L app), take_app_length' in E by (rewrite length_app; simpl; lia).
  by apply (Hp g Hg).
Qed.

(** Dropping a table. An absent table is an error, or nothing with [IF
    EXISTS]. Otherwise its catalog entry, its name, its columns, index
    metadata, statistics, index entries and rows are all gone, and every table
    and view whose name hashes differently keeps all of its keys (provided
    neither hash starts like one of the three global prefixes). *)
Theorem drop_table_spec t name (if_exists : bool) :
  tx_ok t ->
  (lookup_kv t (root_key name) = None ->
    drop_table t name if_exists = if if_exists then Ok (t, false) else Err TableNotFound) /\
  (is_Some (lookup_kv t (root_key name)) ->
    exists t', drop_table t name if_exists = Ok (t', true) /\ tx_ok t' /\
      lookup_kv t' (root_key name) = None /\ lookup_kv t' (hash_key name) = None /\
      (forall ty x, table_type ty = true ->
        lookup_kv t' (write_key_prefix [] ty (hash_bytes name) ++ [BOUND_MIN_TAG] ++ x) = None) /\
      (forall name', hash_bytes name <> hash_bytes name' -> plain_hash name -> plain_hash name' ->
        (forall ty x, table_type ty = true ->
          let k := write_key_prefix [] ty (hash_bytes name') ++ [BOUND_MIN_TAG] ++ x in
          lookup_kv t' k = lookup_kv t k) /\
        lookup_kv t' (root_key name') = lookup_kv t (root_key name') /\
        lookup_kv t' (hash_key name') = lookup_kv t (hash_key name') /\
        lookup_kv t' (view_key name') = lookup_kv t (view_key name'))).
Proof.
  intros Ht. split.
  { intros Hn. unfold drop_table, with_root_table. fold (root_key name). cbn [encode_opt rbind].
    rewrite exists_key_spec, Hn by done. cbn [rbind]. by rewrite bool_decide_false by (by intros [? ?]). }
  intros Hr. destruct (drop_table_keys t name if_exists Ht Hr) as (t' & E & Ht' & L).
  exists t'. split; [done|]. split; [done|]. rewrite !L, !decide_True by auto.
  split; [done|]. split; [done|]. split.
  - intros ty x Hty. rewrite L, decide_True; [done|]. right. right. apply Exists_exists.
    exists ty. split; [by apply table_types_table|]. by apply bounds_inside.
  - intros name' Hne Hp Hp'.
    assert (forall k, k <> root_key name -> k <> hash_key name ->
      (forall ty, table_type ty = true -> ~ type_range name ty k) -> lookup_kv t' k = lookup_kv t k) as Hkeep.
    { intros k H1 H2 H3. rewrite L, decide_False; [done|]. intros [?|[?|Hex]]; [done|done|].
      revert Hex. apply not_in_types. intros ty Hin. by apply H3, table_types_table. }
    split; [|split; [|split]].
    + intros ty x Hty k. apply Hkeep.
      * apply (table_key_not_global ty ROOT_BYTES); unfold global_prefix; auto.
      * apply (table_key_not_global ty HASH_BYTES); unfold global_prefix; auto.
      * intros ty' Hty' Hrange. apply type_range_exact in Hrange as [_ ?]; done.
    + apply Hkeep; [|done|].
      * intros Hh%(app_inv_head (ROOT_BYTES ++ [BOUND_MIN_TAG])). by apply Hne.
      * intros ty Hty. apply (global_not_in_range ROOT_BYTES); unfold global_prefix; auto.
    + apply Hkeep; [done| |].
      * intros Hh%(app_inv_head (HASH_BYTES ++ [BOUND_MIN_TAG])). by apply Hne.
      * intros ty Hty. apply (global_not_in_range HASH_BYTES); unfold global_prefix; auto.
    + apply Hkeep; [done|done|].
      intros ty Hty. apply (global_not_in_range VIEW_BYTES); unfold global_prefix; auto.
Qed.
End Specs.

(** * Witnesses, on the in-memory store *)

Definition wit_store : BTreeMap := [].
Lemma wit_store_ok : tx_ok wit_store.
Proof. constructor. Qed.

Lemma wit_id_key (n : Z) : in_s 64 n -> key_value (DataValue.Int64 n) LogicalType.Bigint.
Proof. intros Hn. split; [exact Hn|done]. Qed.

Lemma wit_columns : row_columns wit_cols [Impl.Int32; Impl.Varchar None Octets; Impl.Date].
Proof. repeat constructor; unfold in_s, byte_ok; simpl; lia. Qed.

Lemma append_then_get_witness :
  exists key t', with_tuple_unchecked [116] (DataValue.Int64 9) None capture = Ok (key, []) /\
    append_tuple wit_store [116] (mk_tuple (Some (DataValue.Int64 9)) (map col_value wit_cols))
      [Impl.Int32; Impl.Varchar None Octets; Impl.Date] false = Ok t' /\
    get_tuple_by_id t' [116] (DataValue.Int64 9) [Impl.Int32; Impl.SkipVariable; Impl.Date] 3 =
      Ok (Some (mk_tuple (Some (DataValue.Int64 9)) [DataValue.Int32 1; DataValue.Null])).
Proof.
  destruct (append_then_get wit_store [116] (DataValue.Int64 9) LogicalType.Bigint wit_cols 3
    [Impl.Int32; Impl.Varchar None Octets; Impl.Date] [Impl.Int32; Impl.SkipVariable; Impl.Date] false)
    as (key & bs & E & _ & _ & H).
  - apply wit_store_ok.
  - reflexivity.
  - apply wit_id_key. by unfold in_s.
  - apply wit_columns.
  - by repeat constructor.
  - destruct H as (t' & A & _ & G); [by right|]. exists key, t'. split; [exact E|]. split; [exact A|exact G].
Defined.

Lemma remove_then_get_witness :
  exists key t', with_tuple_unchecked [116] (DataValue.Int64 9) None capture = Ok (key, []) /\
    remove_tuple wit_store [116] (DataValue.Int64 9) = Ok t' /\ updated wit_store t' key None /\
    get_tuple_by_id t' [116] (DataValue.Int64 9) [] 0 = Ok None.
Proof.
  apply (remove_then_get wit_store [116] (DataValue.Int64 9) LogicalType.Bigint).
  - apply wit_store_ok.
  - reflexivity.
  - apply wit_id_key. by unfold in_s.
Defined.

Definition wit_index : Index := mk_index 1 [DataValue.Int32 5] Unique.

Lemma del_index_spec_witness :
  exists key value t', with_index [116] wit_index (Some (DataValue.Int64 9)) capture = Ok (key, value) /\
    del_index wit_store [116] wit_index (DataValue.Int64 9) = Ok t' /\ updated wit_store t' key None.
Proof.
  eexists _, _. destruct (del_index_spec wit_store [116] wit_index (DataValue.Int64 9) _ _
    wit_store_ok eq_refl eq_refl) as (t' & E & U).
  exists t'. split; [reflexivity|]. split; [exact E|exact U].
Defined.

Lemma check_name_hash_spec_witness :
  exists t', check_name_hash wit_store [116] = Ok t' /\ updated wit_store t' (hash_key [116]) (Some []) /\
    (forall name', hash_bytes name' = hash_bytes [116] -> check_name_hash t' name' = Err DuplicateSourceHash) /\
    exists t'', drop_name_hash t' [116] = Ok t'' /\ updated wit_store t'' (hash_key [116]) None.
Proof. apply (check_name_hash_spec wit_store [116]); [apply wit_store_ok|reflexivity]. Defined.

Lemma view_lifecycle_witness :
  exists t', create_view wit_store [118] (Ok [1; 2]) false = Ok t' /\ tx_ok t' /\
    lookup_kv t' (view_key [118]) = Some [1; 2] /\ lookup_kv t' (hash_key [118]) = Some [].
Proof. apply (view_lifecycle wit_store [118] [1; 2] false false wit_store_ok). Defined.

Definition wit_table : BTreeMap := [(hash_key [116], [])].

Lemma drop_view_releases_table_name_witness :
  exists t', drop_view wit_table [116] true = Ok (t', false) /\
    updated wit_table t' (hash_key [116]) None /\ exists t'', check_name_hash t' [116] = Ok t''.
Proof.
  apply (drop_view_releases_table_name wit_table [116]).
  - repeat constructor.
  - eexists. vm_compute. reflexivity.
  - vm_compute. reflexivity.
Defined.

Lemma drop_table_spec_witness :
  drop_table wit_store [116] true = Ok (wit_store, false).
Proof. apply (drop_table_spec wit_store [116] true wit_store_ok). reflexivity. Defined.
