(* ===== verification/Catalog.v ===== *)
(** The catalog of a table (src/src/catalog): columns, their identifiers, the
    primary key and the index descriptors.

    A [ColumnRef] or [IndexMetaRef] of the code is a position of the arena,
    which holds equal columns and indexes once (src/src/planner/arena.rs,
    [alloc_column], [alloc_index]); here it is the column or index it denotes.
    An [ExprRef] stays a number, and [expression] is the arena. *)

From S2P Require Import Prelude MachineInt Types Operators Reader Value Chrono Evaluators Casts Expr.
From S2P Require Import TableCodec Sorting.
From stdpp Require Import base tactics list numbers option gmap fin_maps sorting.
From Stdlib Require Import ZArith Lia.
Local Open Scope Z_scope.

(** * Columns *)

Record ColumnSummary := { cs_name : list Z; cs_relation : ColumnRelation }.

#[global] Instance ColumnRelation_eq_dec : EqDecision ColumnRelation.
Proof. solve_decision. Defined.
#[global] Instance ColumnSummary_eq_dec : EqDecision ColumnSummary.
Proof. solve_decision. Defined.

Definition ExprRef : Type := nat.

Record ColumnDesc := mk_desc {
  column_datatype : LogicalType; primary : option nat; desc_unique : bool; default_expr : option ExprRef;
}.

Record ColumnCatalog := mk_column {
  cc_summary : ColumnSummary; cc_nullable : bool; cc_desc : ColumnDesc; cc_in_join : bool;
}.

#[global] Instance ColumnDesc_eq_dec : EqDecision ColumnDesc.
Proof. solve_decision. Defined.
#[global] Instance ColumnCatalog_eq_dec : EqDecision ColumnCatalog.
Proof. solve_decision. Defined.

(** [ColumnCatalog::new]. *)
Definition column_new (column_name : list Z) (nullable : bool) (column_desc : ColumnDesc) : ColumnCatalog :=
  mk_column {| cs_name := column_name; cs_relation := NoRelation |} nullable column_desc false.

Definition column_id (self : ColumnCatalog) : option Z :=
  match cs_relation (cc_summary self) with
  | NoRelation => None
  | TableRelation column_id _ _ => Some column_id
  end.

Definition column_name (self : ColumnCatalog) : list Z := cs_name (cc_summary self).
Definition cc_datatype (self : ColumnCatalog) : LogicalType := column_datatype (cc_desc self).
Definition cc_primary (self : ColumnCatalog) : option nat := primary (cc_desc self).

Definition set_relation (self : ColumnCatalog) (relation : ColumnRelation) : ColumnCatalog :=
  mk_column {| cs_name := cs_name (cc_summary self); cs_relation := relation |}
    (cc_nullable self) (cc_desc self) (cc_in_join self).

Definition same_column (left right : ColumnSummary) : bool := bool_decide (left = right).

(** * Tables *)

Record IndexMeta := mk_index_meta {
  im_id : Z; im_column_ids : list Z; im_table_name : list Z; im_pk_ty : LogicalType; im_value_ty : LogicalType;
  im_name : list Z; im_ty : IndexType;
}.

(** The two [BTreeMap]s are finite maps; [tc_columns] is [column_refs]. *)
Record TableCatalog := mk_table {
  tc_name : list Z;
  column_idxs : gmap (list Z) (Z * nat);
  columns_by_id : gmap Z nat;
  tc_columns : list ColumnCatalog;
  tc_indexes : list IndexMeta;
  tc_primary_keys : list (nat * ColumnCatalog);
  primary_key_indices : list nat;
  tc_primary_keys_type : LogicalType;
}.

Definition tc_primary_keys_len (self : TableCatalog) : nat := length (tc_primary_keys self).
Definition columns_len (self : TableCatalog) : nat := size (columns_by_id self).

(** [self.column_refs[*i]] panics out of range. *)
Definition get_column_by_id (self : TableCatalog) (id : Z) : res (option ColumnCatalog) :=
  match columns_by_id self !! id with
  | None => Ok None
  | Some i => match tc_columns self !! i with Some c => Ok (Some c) | None => Err Panic end
  end.

Definition get_column_by_name (self : TableCatalog) (name : list Z) : res (option ColumnCatalog) :=
  match column_idxs self !! name with
  | None => Ok None
  | Some (_, i) => match tc_columns self !! i with Some c => Ok (Some c) | None => Err Panic end
  end.

Definition contains_column (self : TableCatalog) (name : list Z) : bool :=
  bool_decide (is_Some (column_idxs self !! name)).

(** [meta.column_ids[0]] panics on an index without columns. *)
Definition get_unique_index (self : TableCatalog) (col_id : Z) : res (option IndexMeta) :=
  (fix go (ms : list IndexMeta) : res (option IndexMeta) :=
     match ms with
     | [] => Ok None
     | meta :: ms' =>
         match im_ty meta with
         | Unique =>
             match im_column_ids meta with
             | [] => Err Panic
             | id :: _ => if id =? col_id then Ok (Some meta) else go ms'
             end
         | _ => go ms'
         end
     end) (tc_indexes self).

Definition u64_max : Z := 2 ^ 64 - 1.

(** [self.columns.keys().max()]. *)
Definition max_key (m : gmap Z nat) : option Z :=
  foldr (fun k acc => Some (match acc with Some a => Z.max k a | None => k end)) None (map fst (map_to_list m)).

Definition add_column (self : TableCatalog) (col : ColumnCatalog) : res (Z * TableCatalog) :=
  if contains_column self (column_name col) then Err DuplicateColumn
  else
    let max_existing_id := max_key (columns_by_id self) in
    let base := default 0 max_existing_id in
    if u64_max <? base + 1 then Err OverFlow
    else
      let col_id := base + 1 in
      let col := set_relation col (TableRelation col_id (tc_name self) false) in
      let len := length (tc_columns self) in
      Ok (col_id, mk_table (tc_name self) (<[column_name col := (col_id, len)]> (column_idxs self))
        (<[col_id := len]> (columns_by_id self)) (tc_columns self ++ [col]) (tc_indexes self)
        (tc_primary_keys self) (primary_key_indices self) (tc_primary_keys_type self)).

(** [index_id + 1] overflows with a panic. *)
Definition next_index_id (self : TableCatalog) : res Z :=
  match last (tc_indexes self) with
  | None => Ok 0
  | Some index => if im_id index =? 2 ^ 32 - 1 then Err Panic else Ok (im_id index + 1)
  end.

Definition value_type (val_tys : list LogicalType) : LogicalType :=
  match val_tys with [ty] => ty | tys => LogicalType.Tuple tys end.

Definition column_types (self : TableCatalog) (column_ids : list Z) : res (list LogicalType) :=
  rmap (fun column_id =>
    let? o := get_column_by_id self column_id in
    match o with Some column => Ok (cc_datatype column) | None => Err ColumnNotFound end) column_ids.

Definition with_indexes (self : TableCatalog) (indexes : list IndexMeta) : TableCatalog :=
  mk_table (tc_name self) (column_idxs self) (columns_by_id self) (tc_columns self) indexes
    (tc_primary_keys self) (primary_key_indices self) (tc_primary_keys_type self).

Definition add_index_meta (self : TableCatalog) (name : list Z) (column_ids : list Z) (ty : IndexType)
    : res (IndexMeta * TableCatalog) :=
  if existsb (fun index => bool_decide (im_name index = name)) (tc_indexes self) then Err DuplicateIndex
  else
    let? index_id := next_index_id self in
    let? val_tys := column_types self column_ids in
    let index := mk_index_meta index_id column_ids (tc_name self) (tc_primary_keys_type self) (value_type val_tys) name ty in
    Ok (index, with_indexes self (tc_indexes self ++ [index])).

(** ** The primary key *)

(** The primary columns with their position, in column order. *)
Fixpoint primaries (i : nat) (columns : list ColumnCatalog) : list (nat * nat) :=
  match columns with
  | [] => []
  | c :: columns' =>
      match cc_primary c with
      | Some primary_index => (primary_index, i) :: primaries (S i) columns'
      | None => primaries (S i) columns'
      end
  end.

Definition by_first (a b : nat * nat) : comparison := Nat.compare a.1 b.1.

Definition build_primary_keys (columns : list ColumnCatalog) : res (list (nat * ColumnCatalog) * list nat) :=
  let indices := map snd (sort_by by_first (primaries 0 columns)) in
  let? keys := rmap (fun i => match columns !! i with Some c => Ok (i, c) | None => Err Panic end) indices in
  Ok (keys, indices).

Definition build_primary_key_type (primary_keys : list (nat * ColumnCatalog)) : LogicalType :=
  match primary_keys with
  | [(_, c)] => cc_datatype c
  | _ => LogicalType.Tuple (map (fun k => cc_datatype k.2) primary_keys)
  end.

Definition empty_table (name : list Z) : TableCatalog := mk_table name ∅ ∅ [] [] [] [] LogicalType.SqlNull.

(** [add_column(..).unwrap()]. *)
Definition add_columns (self : TableCatalog) (columns : list ColumnCatalog) : res TableCatalog :=
  rfold (fun t col => match add_column t col with Ok (_, t) => Ok t | Err _ => Err Panic end) self columns.

Definition with_primary_keys (self : TableCatalog) (keys : list (nat * ColumnCatalog)) (indices : list nat) : TableCatalog :=
  mk_table (tc_name self) (column_idxs self) (columns_by_id self) (tc_columns self) (tc_indexes self)
    keys indices (build_primary_key_type keys).

Definition table_new (name : list Z) (columns : list ColumnCatalog) : res TableCatalog :=
  match columns with
  | [] => Err ColumnsEmpty
  | _ =>
      let? table := add_columns (empty_table name) columns in
      let? (keys, indices) := build_primary_keys (tc_columns table) in
      Ok (with_primary_keys table keys indices)
  end.

(** The loop of [reload] over the enumerated columns. *)
Fixpoint reload_maps (i : nat) (columns : list ColumnCatalog) (idxs : gmap (list Z) (Z * nat)) (ids : gmap Z nat)
    : res (gmap (list Z) (Z * nat) * gmap Z nat) :=
  match columns with
  | [] => Ok (idxs, ids)
  | c :: columns' =>
      match column_id c with
      | None => Err InvalidColumn
      | Some id => reload_maps (S i) columns' (<[column_name c := (id, i)]> idxs) (<[id := i]> ids)
      end
  end.

Definition reload (name : list Z) (columns : list ColumnCatalog) (indexes : list IndexMeta) : res TableCatalog :=
  let? (idxs, ids) := reload_maps 0 columns ∅ ∅ in
  let? (keys, indices) := build_primary_keys columns in
  Ok (mk_table name idxs ids columns indexes keys indices (build_primary_key_type keys)).

(** ** Access for writing *)

Section Snapshot.
Context {SF : ScalarFunctions}.

(** [position] finds the first column that is the same. *)
Fixpoint position_of (column : ColumnCatalog) (columns : list ColumnCatalog) : option nat :=
  match columns with
  | [] => None
  | c :: columns' => if decide (c = column) then Some 0%nat else S <$> position_of column columns'
  end.

(** [IndexMeta::column_exprs], collected. *)
Definition column_exprs (self : IndexMeta) (table : TableCatalog) : res (list ScalarExpression) :=
  rmap (fun column_id =>
    let? o := get_column_by_id table column_id in
    match o with
    | None => Err ColumnNotFound
    | Some column =>
        match position_of column (tc_columns table) with
        | None => Err ColumnNotFound
        | Some position => Ok (ScalarExpression.ColumnRef (cc_datatype column) position)
        end
    end) (im_column_ids self).

Record DmlTableSnapshot := mk_snapshot {
  snap_columns : list ColumnCatalog; snap_primary_key_indices : list nat; snap_columns_len : nat;
  index_metas : list (IndexMeta * list ScalarExpression);
}.

Definition dml_snapshot (self : TableCatalog) : res DmlTableSnapshot :=
  let? metas := rmap (fun index_meta => let? exprs := column_exprs index_meta self in Ok (index_meta, exprs))
    (tc_indexes self) in
  Ok (mk_snapshot (tc_columns self) (primary_key_indices self) (columns_len self) metas).
End Snapshot.

(** * Well-formed catalogs *)

Lemma max_key_spec (m : gmap Z nat) :
  match max_key m with
  | None => m = ∅
  | Some x => is_Some (m !! x) /\ forall k, is_Some (m !! k) -> k <= x
  end.
Proof.
  unfold max_key.
  assert (forall ks : list Z,
    match foldr (fun k acc => Some (match acc with Some a => Z.max k a | None => k end)) None ks with
    | None => ks = []
    | Some x => x ∈ ks /\ Forall (fun k => k <= x) ks
    end) as H.
  { induction ks as [|k ks IH]; [done|]. cbn [foldr]. destruct (foldr _ None ks) as [a|].
    - destruct IH as [Ha Hf]. split.
      + destruct (Z.max_spec k a) as [[_ ->]|[_ ->]]; [by right|left].
      + constructor; [lia|]. eapply Forall_impl; [exact Hf|]. intros; cbn in *. lia.
    - subst ks. split; [left|]. by repeat constructor. }
  specialize (H (map fst (map_to_list m))).
  assert (forall k, k ∈ map fst (map_to_list m) <-> is_Some (m !! k)) as Hk.
  { intros k. rewrite list_elem_of_fmap. split.
    - intros ([k' v] & -> & Hin). apply elem_of_map_to_list in Hin. by exists v.
    - intros [v Hv]. exists (k, v). split; [done|]. by apply elem_of_map_to_list. }
  destruct (foldr _ None _) as [x|].
  - destruct H as [Hx Hf]. split; [by apply Hk|]. intros k Hin. apply Hk in Hin. rewrite Forall_forall in Hf. by apply Hf.
  - apply map_to_list_empty_iff. by apply fmap_nil_inv in H.
Qed.

(** Columns with increasing identifiers and distinct names, the two maps
    saying where each is, the primary key in its declared order, and index
    descriptors of existing columns with increasing numbers. *)
Record table_wf (t : TableCatalog) : Prop := {
  wf_relation : Forall (fun c => exists id, cs_relation (cc_summary c) = TableRelation id (tc_name t) false) (tc_columns t);
  wf_ids : forall i j ci cj x y, (i < j)%nat -> tc_columns t !! i = Some ci -> tc_columns t !! j = Some cj ->
    column_id ci = Some x -> column_id cj = Some y -> x < y;
  wf_names : NoDup (map column_name (tc_columns t));
  wf_by_name : forall name id i, column_idxs t !! name = Some (id, i) <->
    exists c, tc_columns t !! i = Some c /\ column_name c = name /\ column_id c = Some id;
  wf_by_id : forall id i, columns_by_id t !! id = Some i <->
    exists c, tc_columns t !! i = Some c /\ column_id c = Some id;
  wf_primary : build_primary_keys (tc_columns t) = Ok (tc_primary_keys t, primary_key_indices t);
  wf_primary_type : tc_primary_keys_type t = build_primary_key_type (tc_primary_keys t);
  wf_index_ids : StronglySorted Z.lt (map im_id (tc_indexes t));
  wf_index_range : Forall (fun m => 0 <= im_id m < 2 ^ 32) (tc_indexes t);
  wf_index_names : NoDup (map im_name (tc_indexes t));
  wf_indexes : Forall (fun m => im_table_name m = tc_name t /\ im_pk_ty m = tc_primary_keys_type t /\
    exists tys, column_types t (im_column_ids m) = Ok tys /\ im_value_ty m = value_type tys) (tc_indexes t);
}.

(** ** Reloading *)

Lemma reload_maps_spec k columns idxs ids :
  Forall (fun c => is_Some (column_id c)) columns -> NoDup (map column_name columns) -> NoDup (map column_id columns) ->
  exists idxs' ids', reload_maps k columns idxs ids = Ok (idxs', ids') /\
    (forall name, idxs' !! name = match list_find (fun c => column_name c = name) columns with
       | Some (i, c) => (fun id => (id, (k + i)%nat)) <$> column_id c
       | None => idxs !! name
       end) /\
    (forall id, ids' !! id = match list_find (fun c => column_id c = Some id) columns with
       | Some (i, _) => Some (k + i)%nat
       | None => ids !! id
       end).
Proof.
  revert k idxs ids. induction columns as [|c columns IH]; intros k idxs ids Hid Hn Hi.
  { by exists idxs, ids. }
  apply Forall_cons in Hid as [[id Hc] Hid]. cbn [map] in Hn, Hi.
  apply NoDup_cons in Hn as [Hn1 Hn], Hi as [Hi1 Hi].
  cbn [reload_maps]. rewrite Hc.
  destruct (IH (S k) (<[column_name c:=(id, k)]> idxs) (<[id:=k]> ids) Hid Hn Hi) as (idxs' & ids' & E & H1 & H2).
  exists idxs', ids'. split; [done|]. split.
  - intros name. rewrite H1. cbn [list_find]. destruct (decide (column_name c = name)) as [<-|Hne].
    + assert (list_find (fun c0 => column_name c0 = column_name c) columns = None) as ->.
      { apply list_find_None, Forall_forall. intros c' Hin Heq. apply Hn1. rewrite <- Heq. by apply list_elem_of_fmap_2. }
      rewrite lookup_insert_eq, Hc. cbn. by rewrite Nat.add_0_r.
    + destruct (list_find _ columns) as [[i c']|]; cbn.
      * by replace (k + S i)%nat with (S k + i)%nat by lia.
      * by rewrite lookup_insert_ne.
  - intros id'. rewrite H2. cbn [list_find]. destruct (decide (column_id c = Some id')) as [Heq|Hne].
    + assert (list_find (fun c0 => column_id c0 = Some id') columns = None) as ->.
      { apply list_find_None, Forall_forall. intros c' Hin Heq'. apply Hi1. rewrite Heq, <- Heq'. by apply list_elem_of_fmap_2. }
      rewrite Hc in Heq. injection Heq as ->. rewrite lookup_insert_eq. cbn. by rewrite Nat.add_0_r.
    + destruct (list_find _ columns) as [[i c']|]; cbn.
      * by replace (k + S i)%nat with (S k + i)%nat by lia.
      * rewrite lookup_insert_ne; [done|]. intros ->. done.
Qed.

Section WellFormed.
Context (t : TableCatalog) (Ht : table_wf t).

Lemma wf_has_id c : c ∈ tc_columns t -> exists id, column_id c = Some id.
Proof.
  intros Hc. pose proof (wf_relation t Ht) as H. rewrite Forall_forall in H. destruct (H c Hc) as [id E].
  exists id. unfold column_id. by rewrite E.
Qed.

Lemma wf_id_inj i j ci cj :
  tc_columns t !! i = Some ci -> tc_columns t !! j = Some cj -> column_id ci = column_id cj -> i = j.
Proof.
  intros Hi Hj E. destruct (wf_has_id ci) as [x Ex]; [by eapply list_elem_of_lookup_2|].
  destruct (decide (i < j)%nat) as [Hl|]; [|destruct (decide (j < i)%nat) as [Hl|]; [|lia]].
  - pose proof (wf_ids t Ht i j ci cj x x Hl Hi Hj Ex ltac:(congruence)). lia.
  - pose proof (wf_ids t Ht j i cj ci x x Hl Hj Hi ltac:(congruence) Ex). lia.
Qed.

Lemma wf_ids_nodup : NoDup (map column_id (tc_columns t)).
Proof.
  apply NoDup_alt. intros i j x Hi Hj. rewrite list_lookup_fmap in Hi, Hj.
  destruct (tc_columns t !! i) as [ci|] eqn:Ei; [|done]. destruct (tc_columns t !! j) as [cj|] eqn:Ej; [|done].
  cbn in Hi, Hj. eapply wf_id_inj; [exact Ei|exact Ej|congruence].
Qed.

Lemma wf_name_inj i j ci cj :
  tc_columns t !! i = Some ci -> tc_columns t !! j = Some cj -> column_name ci = column_name cj -> i = j.
Proof.
  intros Hi Hj E. pose proof (wf_names t Ht) as Hn. rewrite NoDup_alt in Hn. eapply (Hn i j (column_name ci));
    rewrite list_lookup_fmap, ?Hi, ?Hj; cbn; congruence.
Qed.

Lemma reload_same : reload (tc_name t) (tc_columns t) (tc_indexes t) = Ok t.
Proof.
  unfold reload.
  destruct (reload_maps_spec 0 (tc_columns t) ∅ ∅) as (idxs & ids & E & H1 & H2);
    [|apply wf_names, Ht|apply wf_ids_nodup|].
  { apply Forall_forall. intros c Hc. by apply wf_has_id. }
  rewrite E. cbn [rbind]. rewrite (wf_primary t Ht). cbn [rbind].
  assert (idxs = column_idxs t) as ->.
  { apply map_eq. intros name. rewrite H1, lookup_empty. apply option_eq. intros [id i]. rewrite (wf_by_name t Ht).
    destruct (list_find _ _) as [[j c]|] eqn:Ef.
    - apply list_find_Some in Ef as (Hj & Hn & _). cbn. destruct (wf_has_id c) as [x Ex]; [by eapply list_elem_of_lookup_2|].
      rewrite Ex. cbn. split.
      + intros [= <- <-]. by exists c.
      + intros (c' & Hi & Hn' & Hid). assert (i = j) as -> by (eapply wf_name_inj; [done|done|congruence]). congruence.
    - apply list_find_None in Ef. rewrite Forall_forall in Ef. split; [done|]. intros (c & Hi & Hn & _).
      destruct (Ef c); [by eapply list_elem_of_lookup_2|done]. }
  assert (ids = columns_by_id t) as ->.
  { apply map_eq. intros id. rewrite H2, lookup_empty. apply option_eq. intros i. rewrite (wf_by_id t Ht).
    destruct (list_find _ _) as [[j c]|] eqn:Ef.
    - apply list_find_Some in Ef as (Hj & Hn & _). cbn. split.
      + intros [= <-]. by exists c.
      + intros (c' & Hi & Hid). f_equal. eapply wf_id_inj; [done|done|congruence].
    - apply list_find_None in Ef. rewrite Forall_forall in Ef. split; [done|]. intros (c & Hi & Hid).
      destruct (Ef c); [by eapply list_elem_of_lookup_2|done]. }
  rewrite <- (wf_primary_type t Ht). by destruct t.
Qed.

Lemma by_id_column id i : columns_by_id t !! id = Some i -> exists c, get_column_by_id t id = Ok (Some c) /\
  tc_columns t !! i = Some c /\ column_id c = Some id.
Proof.
  intros Hi. pose proof (proj1 (wf_by_id t Ht id i) Hi) as (c & Hc & Hid). exists c. split; [|done].
  unfold get_column_by_id. by rewrite Hi, Hc.
Qed.
End WellFormed.

(** ** Adding columns *)

Lemma contains_column_spec t name :
  table_wf t -> contains_column t name = true <-> name ∈ map column_name (tc_columns t).
Proof.
  intros Ht. unfold contains_column. rewrite bool_decide_eq_true. rewrite list_elem_of_fmap. split.
  - intros [[id i] Hi]. apply (wf_by_name t Ht) in Hi as (c & Hc & Hn & _). exists c. split; [done|].
    by eapply list_elem_of_lookup_2.
  - intros (c & -> & Hc). apply list_elem_of_lookup in Hc as Hi. destruct Hi as [i Hi].
    destruct (wf_has_id t Ht c Hc) as [id Hid]. exists (id, i). apply (wf_by_name t Ht). by exists c.
Qed.

(** Only the maps and the columns: what [add_column] keeps. *)
Record columns_wf (t : TableCatalog) : Prop := {
  cwf_relation : Forall (fun c => exists id, cs_relation (cc_summary c) = TableRelation id (tc_name t) false) (tc_columns t);
  cwf_ids : forall i j ci cj x y, (i < j)%nat -> tc_columns t !! i = Some ci -> tc_columns t !! j = Some cj ->
    column_id ci = Some x -> column_id cj = Some y -> x < y;
  cwf_names : NoDup (map column_name (tc_columns t));
  cwf_by_name : forall name id i, column_idxs t !! name = Some (id, i) <->
    exists c, tc_columns t !! i = Some c /\ column_name c = name /\ column_id c = Some id;
  cwf_by_id : forall id i, columns_by_id t !! id = Some i <->
    exists c, tc_columns t !! i = Some c /\ column_id c = Some id;
}.

Lemma table_columns_wf t : table_wf t -> columns_wf t.
Proof. by intros []. Qed.

(** The identifiers in use lie below the next one. *)
Definition next_id (t : TableCatalog) : Z := default 0 (max_key (columns_by_id t)) + 1.

Lemma next_id_above t c id : columns_wf t -> c ∈ tc_columns t -> column_id c = Some id -> id < next_id t.
Proof.
  intros Ht Hc Hid. apply list_elem_of_lookup in Hc as [i Hi].
  assert (columns_by_id t !! id = Some i) as Hm by (apply (cwf_by_id t Ht); by exists c).
  unfold next_id. pose proof (max_key_spec (columns_by_id t)) as Hk. destruct (max_key _) as [x|].
  - destruct Hk as [_ Hk]. cbn. pose proof (Hk id ltac:(by exists i)). lia.
  - rewrite Hk, lookup_empty in Hm. done.
Qed.

Lemma snoc_lookup {A : Type} (l : list A) x i y :
  (l ++ [x]) !! i = Some y <-> l !! i = Some y \/ i = length l /\ y = x.
Proof.
  rewrite lookup_app_Some. split.
  - intros [H|[H1 H2]]; [by left|]. right. apply list_lookup_singleton_Some in H2 as [H2 <-]. split; [lia|done].
  - intros [H|[-> ->]]; [by left|]. right. split; [lia|]. by rewrite Nat.sub_diag.
Qed.

Definition related (t : TableCatalog) (id : Z) (col : ColumnCatalog) : ColumnCatalog :=
  set_relation col (TableRelation id (tc_name t) false).

Lemma add_column_ok t col :
  columns_wf t -> column_name col ∉ map column_name (tc_columns t) -> next_id t <= u64_max ->
  exists t', add_column t col = Ok (next_id t, t') /\ columns_wf t' /\
    tc_columns t' = tc_columns t ++ [related t (next_id t) col] /\ tc_name t' = tc_name t /\
    tc_indexes t' = tc_indexes t /\ tc_primary_keys t' = tc_primary_keys t /\
    primary_key_indices t' = primary_key_indices t /\ tc_primary_keys_type t' = tc_primary_keys_type t /\
    columns_by_id t' = <[next_id t := length (tc_columns t)]> (columns_by_id t).
Proof.
  intros Ht Hfresh Hmax. unfold add_column.
  assert (contains_column t (column_name col) = false) as ->.
  { unfold contains_column. apply bool_decide_eq_false. intros [[id i] Hi].
    apply (cwf_by_name t Ht) in Hi as (c & Hc & Hn & _). apply Hfresh. rewrite <- Hn. apply list_elem_of_fmap_2.
    by eapply list_elem_of_lookup_2. }
  fold (next_id t). rewrite (proj2 (Z.ltb_ge _ _)) by (unfold next_id in *; lia).
  eexists. split; [reflexivity|]. cbn [tc_columns tc_name tc_indexes tc_primary_keys primary_key_indices tc_primary_keys_type columns_by_id].
  fold (related t (next_id t) col).
  assert (column_id (related t (next_id t) col) = Some (next_id t)) as Hid by done.
  assert (column_name (related t (next_id t) col) = column_name col) as Hname by done.
  split; [|done].
  destruct Ht as [H1 H2 H3 H4 H5]. split; cbn [tc_columns tc_name column_idxs columns_by_id].
  - apply Forall_app. split; [done|]. apply Forall_singleton. by eexists.
  - intros i j ci cj x y Hij Hi Hj Ex Ey. apply snoc_lookup in Hi as [Hi|[-> ->]], Hj as [Hj|[-> ->]].
    + by eapply H2.
    + rewrite Hid in Ey. injection Ey as <-. eapply next_id_above; [by split|by eapply list_elem_of_lookup_2|done].
    + apply lookup_lt_Some in Hj. lia.
    + lia.
  - rewrite map_app. cbn [map]. rewrite Hname. apply NoDup_app. split; [done|]. split; [|apply NoDup_singleton].
    intros x Hx Hx'. apply list_elem_of_singleton in Hx'. by subst.
  - intros name id i. rewrite Hname. destruct (decide (name = column_name col)) as [->|Hne].
    + rewrite lookup_insert_eq. split.
      * intros [= <- <-]. exists (related t (next_id t) col). split; [apply snoc_lookup; by right|done].
      * intros (c & Hc & Hn & Hi). apply snoc_lookup in Hc as [Hc|[-> ->]]; [|congruence].
        exfalso. apply Hfresh. rewrite <- Hn. apply list_elem_of_fmap_2. by eapply list_elem_of_lookup_2.
    + rewrite lookup_insert_ne by done. rewrite H4. split.
      * intros (c & Hc & Hn & Hi). exists c. split; [apply snoc_lookup; by left|done].
      * intros (c & Hc & Hn & Hi). apply snoc_lookup in Hc as [Hc|[-> ->]]; [by exists c|congruence].
  - intros id i. destruct (decide (id = next_id t)) as [->|Hne].
    + rewrite lookup_insert_eq. split.
      * intros [= <-]. exists (related t (next_id t) col). split; [apply snoc_lookup; by right|done].
      * intros (c & Hc & Hi). apply snoc_lookup in Hc as [Hc|[-> ->]]; [|done].
        pose proof (next_id_above t c (next_id t) ltac:(by split) ltac:(by eapply list_elem_of_lookup_2) Hi). lia.
    + rewrite lookup_insert_ne by done. rewrite H5. split.
      * intros (c & Hc & Hi). exists c. split; [apply snoc_lookup; by left|done].
      * intros (c & Hc & Hi). apply snoc_lookup in Hc as [Hc|[-> ->]]; [by exists c|congruence].
Qed.

(** A column that is not part of the primary key leaves it alone. *)
Lemma primaries_snoc k columns c :
  cc_primary c = None -> primaries k (columns ++ [c]) = primaries k columns.
Proof.
  intros Hc. revert k. induction columns as [|c' columns IH]; intros k; cbn; [by rewrite Hc|].
  destruct (cc_primary c'); by rewrite IH.
Qed.

Lemma rmap_weaken {A B : Type} (f g : A -> res B) xs ys :
  rmap f xs = Ok ys -> (forall x y, x ∈ xs -> f x = Ok y -> g x = Ok y) -> rmap g xs = Ok ys.
Proof.
  intros H Hfg. apply rmap_Ok. apply rmap_Ok in H. induction H as [|x y xs ys Hx H IH]; [done|].
  constructor; [apply Hfg; [left|done]|]. apply IH. intros x' y' Hin. apply Hfg. by right.
Qed.

Lemma build_primary_snoc columns c ks :
  cc_primary c = None -> build_primary_keys columns = Ok ks -> build_primary_keys (columns ++ [c]) = Ok ks.
Proof.
  intros Hc. unfold build_primary_keys. rewrite primaries_snoc by done.
  destruct (rmap _ _) as [keys|] eqn:E; [|done]. cbn [rbind]. intros [= <-].
  rewrite (rmap_weaken _ _ _ _ E); [done|]. intros i y _ Hi. destruct (columns !! i) eqn:El; [|done].
  by rewrite (lookup_app_l_Some _ _ _ _ El).
Qed.

Lemma column_types_grow t t' ids tys :
  columns_wf t -> columns_wf t' -> (forall i c, tc_columns t !! i = Some c -> tc_columns t' !! i = Some c) ->
  column_types t ids = Ok tys -> column_types t' ids = Ok tys.
Proof.
  intros Ht Ht' Hsub H. eapply rmap_weaken; [exact H|]. intros id ty _. cbn. unfold get_column_by_id.
  destruct (columns_by_id t !! id) as [i|] eqn:Ei; [|done].
  apply (cwf_by_id t Ht) in Ei as (c & Hc & Hid). rewrite Hc. cbn.
  assert (columns_by_id t' !! id = Some i) as -> by (apply (cwf_by_id t' Ht'); exists c; eauto).
  by rewrite (Hsub i c Hc).
Qed.

Lemma add_column_wf t col :
  table_wf t -> column_name col ∉ map column_name (tc_columns t) -> cc_primary col = None -> next_id t <= u64_max ->
  exists t', add_column t col = Ok (next_id t, t') /\ table_wf t' /\ tc_indexes t' = tc_indexes t /\
    tc_columns t' = tc_columns t ++ [related t (next_id t) col].
Proof.
  intros Ht Hf Hp Hm.
  destruct (add_column_ok t col (table_columns_wf t Ht) Hf Hm) as (t' & E & Hw & Hc & Hn & Hi & Hk & Hki & Hkt & _).
  exists t'. split; [done|]. split; [|done].
  destruct Hw as [W1 W2 W3 W4 W5]. split; try done; rewrite ?Hc, ?Hi, ?Hk, ?Hki, ?Hkt, ?Hn; try apply Ht.
  - apply build_primary_snoc; [done|apply Ht].
  - pose proof (wf_indexes t Ht) as HI. eapply Forall_impl; [exact HI|]. intros m (M1 & M2 & tys & M3 & M4).
    split; [done|]. split; [done|]. exists tys. split; [|done].
    eapply column_types_grow; [by apply table_columns_wf|by split| |done].
    intros i c Hl. rewrite Hc. by apply lookup_app_l_Some.
Qed.

Lemma next_id_insert t t' i :
  columns_by_id t' = <[next_id t := i]> (columns_by_id t) -> next_id t' = next_id t + 1.
Proof.
  intros E. unfold next_id at 1. pose proof (max_key_spec (columns_by_id t')) as H'.
  pose proof (max_key_spec (columns_by_id t)) as H. rewrite E in H'.
  assert (forall k, is_Some (columns_by_id t !! k) -> k < next_id t) as Hb.
  { intros k Hk. unfold next_id. destruct (max_key (columns_by_id t)) as [x|]; cbn.
    - destruct H as [_ H]. specialize (H k Hk). lia.
    - rewrite H, lookup_empty in Hk. by destruct Hk. }
  rewrite <- E in H'. destruct (max_key (columns_by_id t')) as [x|]; cbn.
  - rewrite E in H'. destruct H' as [[j Hj] Hmax].
    pose proof (Hmax (next_id t) ltac:(by rewrite lookup_insert_eq)).
    destruct (decide (x = next_id t)) as [->|Hne]; [done|]. rewrite lookup_insert_ne in Hj by done.
    pose proof (Hb x ltac:(by eexists)). lia.
  - rewrite E in H'. assert ((<[next_id t:=i]> (columns_by_id t)) !! next_id t = Some i) as Hl by apply lookup_insert_eq.
    rewrite H', lookup_empty in Hl. done.
Qed.

(** The columns with the identifiers they get, from [id] on. *)
Fixpoint numbered (name : list Z) (id : Z) (columns : list ColumnCatalog) : list ColumnCatalog :=
  match columns with
  | [] => []
  | c :: columns' => set_relation c (TableRelation id name false) :: numbered name (id + 1) columns'
  end.

Lemma add_columns_ok t columns :
  columns_wf t -> NoDup (map column_name columns) ->
  (forall c, c ∈ columns -> column_name c ∉ map column_name (tc_columns t)) ->
  next_id t + Z.of_nat (length columns) <= u64_max + 1 ->
  exists t', add_columns t columns = Ok t' /\ columns_wf t' /\
    tc_columns t' = tc_columns t ++ numbered (tc_name t) (next_id t) columns /\ tc_name t' = tc_name t /\
    tc_indexes t' = tc_indexes t.
Proof.
  revert t. induction columns as [|c columns IH]; intros t Ht Hn Hd Hm.
  - exists t. cbn. by rewrite app_nil_r.
  - cbn [map length] in Hn, Hm. apply NoDup_cons in Hn as [Hc Hn].
    destruct (add_column_ok t c Ht) as (t1 & E & Ht1 & Hc1 & Hn1 & Hi1 & _ & _ & _ & Hb1); [apply Hd; left|lia|].
    pose proof (next_id_insert t t1 _ Hb1) as Hid.
    destruct (IH t1 Ht1 Hn) as (t' & E' & Ht' & Hc' & Hn' & Hi').
    { intros c' Hin Hin'. rewrite Hc1, map_app in Hin'. apply elem_of_app in Hin' as [Hin'|Hin'].
      - eapply Hd; [by right|done].
      - cbn in Hin'. apply list_elem_of_singleton in Hin'. apply Hc.
        assert (column_name c' = column_name c) as <- by done. by apply list_elem_of_fmap_2. }
    { rewrite Hid. lia. }
    exists t'. unfold add_columns in *. cbn [rfold]. rewrite E. cbn [rbind]. split; [done|]. split; [done|].
    split; [|split; congruence]. rewrite Hc', Hc1, Hn1, Hid, <- app_assoc. done.
Qed.

Lemma primaries_valid k columns p i : (p, i) ∈ primaries k columns ->
  (k <= i)%nat /\ exists c, columns !! (i - k)%nat = Some c /\ cc_primary c = Some p.
Proof.
  revert k. induction columns as [|c columns IH]; intros k Hin; cbn in Hin; [by apply elem_of_nil in Hin|].
  assert ((p, i) ∈ primaries (S k) columns -> (k <= i)%nat /\ exists c', (c :: columns) !! (i - k)%nat = Some c' /\ cc_primary c' = Some p) as Hrest.
  { intros H. destruct (IH (S k) H) as (Hle & c' & Hc' & Hp). split; [lia|]. exists c'. split; [|done].
    replace (i - k)%nat with (S (i - S k)) by lia. done. }
  destruct (cc_primary c) eqn:Hc; [|by apply Hrest].
  apply elem_of_cons in Hin as [[= -> ->]|Hin]; [|by apply Hrest]. split; [lia|]. exists c. by rewrite Nat.sub_diag.
Qed.

Lemma build_primary_ok columns : exists ks, build_primary_keys columns = Ok ks.
Proof.
  unfold build_primary_keys.
  assert (exists keys, rmap (fun i => match columns !! i with Some c => Ok (i, c) | None => Err Panic end)
    (map snd (sort_by by_first (primaries 0 columns))) = Ok keys) as [keys ->].
  { assert (Forall (fun p : nat * nat => is_Some (columns !! p.2)) (sort_by by_first (primaries 0 columns))) as H.
    { rewrite sort_by_perm. apply Forall_forall. intros [p i] Hin. apply primaries_valid in Hin as (_ & c & Hc & _).
      rewrite Nat.sub_0_r in Hc. by exists c. }
    induction H as [|[p i] ps [c Hc] _ [keys IH]]; [by exists []|]. cbn in *. rewrite Hc. cbn. rewrite IH. by eexists. }
  by eexists.
Qed.

Lemma empty_table_wf name : columns_wf (empty_table name).
Proof.
  split; cbn [empty_table tc_columns column_idxs columns_by_id map].
  - done.
  - intros i j ci cj x y _ Hi. by rewrite lookup_nil in Hi.
  - apply NoDup_nil_2.
  - intros n id i. rewrite lookup_empty. split; [done|]. intros (c & Hc & _). by rewrite lookup_nil in Hc.
  - intros id i. rewrite lookup_empty. split; [done|]. intros (c & Hc & _). by rewrite lookup_nil in Hc.
Qed.

Lemma table_new_ok name columns :
  columns <> [] -> NoDup (map column_name columns) -> Z.of_nat (length columns) <= u64_max ->
  exists t, table_new name columns = Ok t /\ table_wf t /\ tc_name t = name /\ tc_indexes t = [] /\
    tc_columns t = numbered name 1 columns.
Proof.
  intros Hne Hn Hlen. unfold table_new.
  destruct (add_columns_ok (empty_table name) columns) as (t1 & E & Hw & Hc & Hname & Hi); try done.
  { apply empty_table_wf. }
  { intros c _. cbn. apply not_elem_of_nil. }
  { change (next_id (empty_table name)) with 1. lia. }
  destruct (build_primary_ok (tc_columns t1)) as [[keys indices] Ek].
  exists (with_primary_keys t1 keys indices). destruct columns as [|c0 columns]; [done|]. rewrite E. cbn [rbind]. rewrite Ek.
  split; [done|]. split; [|done]. destruct Hw as [W1 W2 W3 W4 W5].
  split; try done; cbn [with_primary_keys tc_indexes tc_columns tc_name]; rewrite ?Hi; try constructor.
Qed.

(** ** Adding indexes *)

Lemma add_index_meta_ok t name ids ty tys :
  table_wf t -> name ∉ map im_name (tc_indexes t) -> column_types t ids = Ok tys ->
  (forall m, last (tc_indexes t) = Some m -> im_id m <> 2 ^ 32 - 1) ->
  exists meta t', add_index_meta t name ids ty = Ok (meta, t') /\ table_wf t' /\
    tc_columns t' = tc_columns t /\ tc_indexes t' = tc_indexes t ++ [meta] /\
    im_name meta = name /\ im_column_ids meta = ids /\ im_ty meta = ty /\
    Forall (fun m => im_id m < im_id meta) (tc_indexes t).
Proof.
  intros Ht Hn Hty Hmax. unfold add_index_meta.
  assert (existsb (fun index => bool_decide (im_name index = name)) (tc_indexes t) = false) as ->.
  { apply not_true_iff_false. intros H. apply existsb_exists in H as (m & Hin & Hm). apply bool_decide_eq_true in Hm.
    apply Hn. rewrite <- Hm. apply list_elem_of_fmap_2. by apply list_elem_of_In. }
  assert (exists id, next_index_id t = Ok id /\ 0 <= id < 2 ^ 32 /\ Forall (fun m => im_id m < id) (tc_indexes t))
    as (id & Eid & Hidr & Hid).
  { unfold next_index_id. pose proof (wf_index_ids t Ht) as Hs. pose proof (wf_index_range t Ht) as Hr. destruct (tc_indexes t) as [|m ms] using rev_ind; [by exists 0|].
    rewrite last_snoc in *. clear IHms. apply Forall_app in Hr as [_ Hm]. apply Forall_cons in Hm as [Hm _].
    specialize (Hmax m eq_refl).
    rewrite (proj2 (Z.eqb_neq _ _)) by done. exists (im_id m + 1). split; [done|]. split; [lia|].
    apply Forall_app. split; [|apply Forall_singleton; lia].
    rewrite map_app in Hs. cbn in Hs. clear -Hs. induction ms as [|m' ms IH]; [done|].
    cbn in Hs. apply StronglySorted_inv in Hs as [Hs Hf]. constructor; [|by apply IH].
    apply Forall_app in Hf as [_ Hf]. apply Forall_cons in Hf as [Hf _]. lia. }
  rewrite Eid, Hty. cbn [rbind]. eexists _, _. split; [reflexivity|]. cbn [im_id im_name im_column_ids im_ty].
  split; [|by repeat split]. destruct Ht as [W1 W2 W3 W4 W5 W6 W7 W8 WR W9 W10].
  split; try done; cbn [with_indexes tc_indexes]; rewrite ?map_app; cbn [map im_id im_name].
  - clear -W8 Hid. induction Hid as [|m ms Hm _ IH]; cbn; [by repeat constructor|]. cbn in W8.
    apply StronglySorted_inv in W8 as [Hs Hf]. constructor; [by apply IH|]. apply Forall_app. split; [done|]. by apply Forall_singleton.
  - apply Forall_app. split; [done|]. by apply Forall_singleton.
  - apply NoDup_app. split; [done|]. split; [|apply NoDup_singleton]. intros x Hx Hx'. apply list_elem_of_singleton in Hx'. by subst.
  - apply Forall_app. split; [done|]. apply Forall_singleton. cbn. split; [done|]. split; [done|]. by exists tys.
Qed.

(** * Every catalog the operations build *)

Inductive built : TableCatalog -> Prop :=
| built_new name columns t : Z.of_nat (length columns) <= u64_max -> table_new name columns = Ok t -> built t
| built_column t col id t' : built t -> cc_primary col = None -> add_column t col = Ok (id, t') -> built t'
| built_index t name ids ty meta t' : built t -> add_index_meta t name ids ty = Ok (meta, t') -> built t'.

(** What a successful operation has checked. *)
Lemma add_column_checked t col id t' :
  columns_wf t -> add_column t col = Ok (id, t') ->
  column_name col ∉ map column_name (tc_columns t) /\ next_id t <= u64_max.
Proof.
  intros Ht. unfold add_column. destruct (contains_column t (column_name col)) eqn:Ec; [done|].
  fold (next_id t). destruct (Z.ltb_spec u64_max (next_id t)); [done|]. intros _. split; [|done].
  intros Hin. apply not_true_iff_false in Ec. apply Ec. unfold contains_column. apply bool_decide_eq_true.
  apply list_elem_of_fmap in Hin as (c & -> & Hin). apply list_elem_of_lookup in Hin as [i Hi].
  pose proof (cwf_relation t Ht) as Hr. rewrite Forall_lookup in Hr. destruct (Hr i c Hi) as [cid Hc].
  exists (cid, i). apply (cwf_by_name t Ht). exists c. split; [done|]. split; [done|]. unfold column_id. by rewrite Hc.
Qed.

Lemma add_columns_checked t columns t' :
  columns_wf t -> add_columns t columns = Ok t' ->
  NoDup (map column_name columns) /\ forall c, c ∈ columns -> column_name c ∉ map column_name (tc_columns t).
Proof.
  revert t. induction columns as [|c columns IH]; intros t Ht E.
  - split; [apply NoDup_nil_2|]. intros c Hc. by apply elem_of_nil in Hc.
  - unfold add_columns in E. cbn [rfold] in E. destruct (add_column t c) as [[id t1]|] eqn:E1; [|done]. cbn [rbind] in E.
    destruct (add_column_checked t c id t1 Ht E1) as [Hf Hm].
    destruct (add_column_ok t c Ht Hf Hm) as (t1' & E1' & Ht1 & Hc1 & _). rewrite E1 in E1'. injection E1' as _ <-.
    destruct (IH t1 Ht1 E) as [Hn Hd]. rewrite Hc1, map_app in Hd. split.
    + cbn. apply NoDup_cons. split; [|done]. intros Hin. apply list_elem_of_fmap in Hin as (c' & Heq & Hin).
      apply (Hd c' Hin). apply elem_of_app. right. rewrite <- Heq. left.
    + intros c' Hin. apply elem_of_cons in Hin as [->|Hin]; [done|]. intros Hin'. apply (Hd c' Hin). apply elem_of_app. by left.
Qed.

Lemma built_wf t : built t -> table_wf t.
Proof.
  induction 1 as [name columns t Hlen E|t col id t' _ IH Hp E|t name ids ty meta t' _ IH E].
  - assert (columns <> []) as Hne by (by intros ->). unfold table_new in E.
    destruct (add_columns (empty_table name) columns) as [t1|] eqn:Ea; [|by destruct columns].
    destruct (add_columns_checked _ columns t1 (empty_table_wf name) Ea) as [Hn _].
    destruct (table_new_ok name columns Hne Hn Hlen) as (t2 & E2 & Hw & _).
    assert (t = t2) as -> by (unfold table_new in E2; rewrite Ea in E2; congruence). done.
  - pose proof (table_columns_wf t IH) as Hw. destruct (add_column_checked t col id t' Hw E) as [Hf Hm].
    destruct (add_column_wf t col IH Hf Hp Hm) as (t2 & E2 & Hw2 & _). rewrite E in E2. injection E2 as _ <-. done.
  - unfold add_index_meta in E. destruct (existsb _ _) eqn:Ex; [done|].
    destruct (next_index_id t) as [nid|] eqn:En; [|done]. cbn [rbind] in E.
    destruct (column_types t ids) as [tys|] eqn:Et; [|done].
    destruct (add_index_meta_ok t name ids ty tys IH) as (m2 & t2 & E2 & Hw2 & _); [|done| |].
    + intros Hin. apply list_elem_of_fmap in Hin as (m & -> & Hin). apply not_true_iff_false in Ex. apply Ex.
      apply existsb_exists. exists m. split; [by apply list_elem_of_In|]. by apply bool_decide_eq_true.
    + intros m Hl. unfold next_index_id in En. rewrite Hl in En. destruct (Z.eqb_spec (im_id m) (2 ^ 32 - 1)); done.
    + unfold add_index_meta in E2. rewrite Ex, En in E2. cbn [rbind] in E2. rewrite Et in E2. rewrite E2 in E.
      injection E as _ <-. done.
Qed.

(** C16: every catalog built by creating a table and adding columns and indexes
    is well formed: identifiers increase and are never reused while their
    column exists, names are unique, both lookup maps agree with the column
    list, and every index refers to existing columns, with its value type. *)
Theorem catalog_invariant t : built t -> table_wf t.
Proof. apply built_wf. Qed.

(** A catalog rebuilt from its columns and indexes - as it is when it is
    loaded from storage or moved to another arena - is the same catalog, with
    the same lookup maps, primary key and key type. *)
Theorem catalog_reload_roundtrip t : built t -> reload (tc_name t) (tc_columns t) (tc_indexes t) = Ok t.
Proof. intros H. by apply reload_same, built_wf. Qed.

(** ** Snapshots *)

Section SnapshotSpec.
Context {OF : OrderedFloat} {CH : Chrono} {SF : ScalarFunctions}.

(** The positions of the columns of an index. *)
Definition positions (t : TableCatalog) (ids : list Z) (ps : list nat) : Prop :=
  Forall2 (fun id p => columns_by_id t !! id = Some p) ids ps.

Lemma position_of_spec columns i c :
  columns !! i = Some c -> (forall j, columns !! j = Some c -> j = i) -> position_of c columns = Some i.
Proof.
  revert i. induction columns as [|c' columns IH]; intros i Hi Hu; [done|]. cbn.
  destruct (decide (c' = c)) as [->|Hne]; [by rewrite (Hu 0%nat eq_refl)|].
  destruct i as [|i]; cbn in Hi; [congruence|]. rewrite (IH i Hi); [done|].
  intros j Hj. pose proof (Hu (S j) Hj). lia.
Qed.

Lemma column_exprs_spec t m tys :
  table_wf t -> column_types t (im_column_ids m) = Ok tys ->
  exists ps, positions t (im_column_ids m) ps /\
    column_exprs m t = Ok (zip_with ScalarExpression.ColumnRef tys ps).
Proof.
  intros Ht. unfold column_exprs, column_types, positions. revert tys.
  induction (im_column_ids m) as [|id ids IH]; intros tys E; cbn in E.
  - apply Ok_inj in E. subst tys. by exists [].
  - apply rbind_ok in E as (ty & Ec & E). apply rbind_ok in E as (tys' & Er & E). apply Ok_inj in E. subst tys.
    destruct (IH tys' Er) as (ps & Hps & Eps). unfold get_column_by_id in Ec.
    destruct (columns_by_id t !! id) as [p|] eqn:Ep; [|done].
    destruct (by_id_column t Ht id p Ep) as (c & Eg & Hc & Hid). rewrite Hc in Ec. apply Ok_inj in Ec. subst ty.
    exists (p :: ps). split; [by constructor|]. cbn. rewrite Eg. cbn [rbind].
    rewrite (position_of_spec (tc_columns t) p c Hc).
    + cbn [rbind]. by rewrite Eps.
    + intros j Hj. by eapply (wf_id_inj t Ht).
Qed.

(** The snapshot lists every index with the expressions of its columns. *)
Lemma dml_snapshot_ok t :
  table_wf t ->
  exists s, dml_snapshot t = Ok s /\ snap_columns s = tc_columns t /\
    snap_primary_key_indices s = primary_key_indices t /\
    Forall2 (fun m me => me.1 = m /\ exists tys ps, positions t (im_column_ids m) ps /\ length tys = length ps /\
      me.2 = zip_with ScalarExpression.ColumnRef tys ps) (tc_indexes t) (index_metas s).
Proof.
  intros Ht. unfold dml_snapshot. pose proof (wf_indexes t Ht) as Hi.
  assert (exists metas, rmap (fun m => let? exprs := column_exprs m t in Ok (m, exprs)) (tc_indexes t) = Ok metas /\
    Forall2 (fun m me => me.1 = m /\ exists tys ps, positions t (im_column_ids m) ps /\ length tys = length ps /\
      me.2 = zip_with ScalarExpression.ColumnRef tys ps) (tc_indexes t) metas) as (metas & E & H).
  { induction Hi as [|m ms (_ & _ & tys & Et & _) _ (metas & E & H)]; [by exists []|].
    destruct (column_exprs_spec t m tys Ht Et) as (ps & Hps & Ee).
    exists ((m, zip_with ScalarExpression.ColumnRef tys ps) :: metas). cbn. rewrite Ee. cbn [rbind]. rewrite E.
    split; [done|]. constructor; [|done]. split; [done|]. exists tys, ps. split; [done|]. split; [|done].
    rewrite <- (Forall2_length _ _ _ Hps). unfold column_types in Et. apply rmap_Ok, Forall2_length in Et. done. }
  rewrite E. cbn [rbind]. eexists. split; [reflexivity|]. by repeat split.
Qed.
End SnapshotSpec.

(** ** Witnesses *)

Definition wit_catalog_column (name : list Z) (ty : LogicalType) (primary : option nat) : ColumnCatalog :=
  column_new name true (mk_desc ty primary false None).

Definition ok_or_empty {A : Type} (m : res (A * TableCatalog)) : TableCatalog :=
  match m with Ok (_, t) => t | Err _ => empty_table [] end.

(** Two columns, an index on the second, and a third column. *)
Definition wit_catalog_new : TableCatalog :=
  match table_new [116] [wit_catalog_column [97] LogicalType.Integer (Some 0%nat);
                         wit_catalog_column [98] LogicalType.Bigint None] with Ok t => t | Err _ => empty_table [] end.
Definition wit_catalog_index : TableCatalog := ok_or_empty (add_index_meta wit_catalog_new [105] [2] Normal).
Definition wit_catalog : TableCatalog :=
  ok_or_empty (add_column wit_catalog_index (wit_catalog_column [99] LogicalType.Boolean None)).

Lemma ok_or_empty_eq {A : Type} (m : res (A * TableCatalog)) :
  (match m with Ok _ => true | Err _ => false end) = true -> exists a, m = Ok (a, ok_or_empty m).
Proof. destruct m as [[a t]|]; [|done]. by exists a. Qed.

Lemma wit_catalog_new_built : built wit_catalog_new.
Proof.
  apply (built_new [116] [wit_catalog_column [97] LogicalType.Integer (Some 0%nat);
    wit_catalog_column [98] LogicalType.Bigint None]); [done|].
  unfold wit_catalog_new. destruct (table_new _ _) eqn:Et; [done|]. exfalso.
  assert (match table_new [116] [wit_catalog_column [97] LogicalType.Integer (Some 0%nat);
    wit_catalog_column [98] LogicalType.Bigint None] with Ok _ => true | Err _ => false end = true) as H
    by (vm_compute; reflexivity).
  by rewrite Et in H.
Qed.

Lemma wit_catalog_built : built wit_catalog.
Proof.
  destruct (ok_or_empty_eq (add_column wit_catalog_index (wit_catalog_column [99] LogicalType.Boolean None))) as [id E];
    [vm_compute; reflexivity|].
  refine (built_column _ (wit_catalog_column [99] LogicalType.Boolean None) _ _ _ eq_refl E).
  destruct (ok_or_empty_eq (add_index_meta wit_catalog_new [105] [2] Normal)) as [m Em]; [vm_compute; reflexivity|].
  refine (built_index _ _ _ _ _ _ _ Em). apply wit_catalog_new_built.
Qed.

Lemma catalog_invariant_witness : table_wf wit_catalog /\ map column_id (tc_columns wit_catalog) = [Some 1; Some 2; Some 3].
Proof. split; [apply (catalog_invariant wit_catalog wit_catalog_built)|vm_compute; reflexivity]. Defined.

Lemma catalog_reload_roundtrip_witness :
  length (tc_columns wit_catalog) = 3%nat /\
  reload (tc_name wit_catalog) (tc_columns wit_catalog) (tc_indexes wit_catalog) = Ok wit_catalog.
Proof. split; [vm_compute; reflexivity|]. apply (catalog_reload_roundtrip wit_catalog wit_catalog_built). Defined.
