(* ===== verification/IndexScan.v ===== *)
(** Table and index scans (src/src/storage/mod.rs: [TupleMapping],
    [IndexImplParams], [IndexImpl], [TupleIter], [IndexRanges], [IterBounds],
    [IndexIter]).

    An iterator is the list of the entries it will still yield. The tuple a
    call fills in is part of its result: [Some tuple] for [Ok(true)], [None]
    for [Ok(false)]. The key buffers of [IndexIter] are local to a call. *)

From S2P Require Import Prelude MachineInt Types Reader Value MemComparable StableHash Serdes.
From S2P Require Import Ranges TableCodec Row Transaction Memory Storage Catalog.
From stdpp Require Import base list numbers option sorting.
From Stdlib Require Import ZArith Lia.
Local Open Scope Z_scope.

(** * Ranges *)

Definition entries : Type := list (bytes * bytes).

(** [IndexRangesInner::Many]; [One] is the list of one range. *)
Record IndexRanges := { ranges_inner : list Range; next_idx : nat }.

Definition ranges_next (self : IndexRanges) : option (Range * IndexRanges) :=
  match ranges_inner self !! next_idx self with
  | Some r => Some (r, {| ranges_inner := ranges_inner self; next_idx := S (next_idx self) |})
  | None => None
  end.

Definition ranges_of (rs : list Range) : IndexRanges := {| ranges_inner := rs; next_idx := 0 |}.

(** * Offset and limit *)

Record IterBounds := { offset : Z; limit : option Z }.

Definition consume_offset (self : IterBounds) : bool * IterBounds :=
  if 0 <? offset self then (true, {| offset := offset self - 1; limit := limit self |})
  else (false, self).

Definition limit_reached (self : IterBounds) : bool :=
  match limit self with Some n => n =? 0 | None => false end.

(** [num.sub_assign(1)]: not reached with a limit of zero. *)
Definition consume_limit (self : IterBounds) : IterBounds :=
  match limit self with
  | Some n => {| offset := offset self; limit := Some (n - 1) |}
  | None => self
  end.

(** * Table scans *)

Record TupleIter := {
  ti_bounds : IterBounds;
  ti_pk_ty : option LogicalType;
  ti_deserializers : list TupleValueSerializableImpl;
  ti_total_len : nat;
  ti_iter : entries;
}.

(** [while self.bounds.consume_offset() { if self.iter.try_next()?.is_none() { return Ok(false) } }]:
    the bounds and the entries left, and whether the entries ran out. *)
Fixpoint skip_offset (b : IterBounds) (iter : entries) : IterBounds * entries * bool :=
  match consume_offset b with
  | (false, b) => (b, iter, false)
  | (true, b') =>
      match iter with
      | [] => (b', [], true)
      | _ :: iter' => skip_offset b' iter'
      end
  end.

Definition decode_tuple_into (deserializers : list TupleValueSerializableImpl)
    (tuple_id : option DataValue) (bs : bytes) (total_len : nat) : res Tuple :=
  deserialize_from_into (mk_tuple tuple_id []) deserializers bs total_len.

Definition ti_with (self : TupleIter) (b : IterBounds) (iter : entries) : TupleIter :=
  {| ti_bounds := b; ti_pk_ty := ti_pk_ty self; ti_deserializers := ti_deserializers self;
     ti_total_len := ti_total_len self; ti_iter := iter |}.

(** What the scan makes of an entry. *)
Definition ti_decode (self : TupleIter) (entry : bytes * bytes) : res Tuple :=
  let? tuple_id :=
    match ti_pk_ty self with
    | Some pk_ty => let? id := decode_tuple_key (fst entry) pk_ty in Ok (Some id)
    | None => Ok None
    end in
  decode_tuple_into (ti_deserializers self) tuple_id (snd entry) (ti_total_len self).

Definition ti_next_tuple (self : TupleIter) : res (TupleIter * option Tuple) :=
  match skip_offset (ti_bounds self) (ti_iter self) with
  | (b, iter, true) => Ok (ti_with self b iter, None)
  | (b, iter, false) =>
      match iter with
      | [] => Ok (ti_with self b [], None)
      | entry :: iter' =>
          if limit_reached b then Ok (ti_with self b iter', None)
          else
            let b := consume_limit b in
            let? tuple := ti_decode self entry in
            Ok (ti_with self b iter', Some tuple)
      end
  end.

(** ** Opening a table scan *)

(** The [for] loop of [create_deserializers]; [pk_len -= 1] panics at zero. *)
Fixpoint create_deserializers_loop (table_columns : list ColumnCatalog) (columns : list ColumnSummary)
    (pk_len : nat) (with_pk : bool) : res (list TupleValueSerializableImpl) :=
  match table_columns with
  | [] => Ok []
  | table_column :: rest =>
      if (match columns with [] => true | _ => false end) && (pk_len =? 0)%nat then Ok []
      else
        let is_primary_key := with_pk && bool_decide (is_Some (cc_primary table_column)) in
        let push (d : res TupleValueSerializableImpl) (columns : list ColumnSummary) (is_pk : bool) :=
          let? d := d in
          if is_pk && (pk_len =? 0)%nat then Err Panic
          else
            let? ds := create_deserializers_loop rest columns (if is_pk then Nat.pred pk_len else pk_len) with_pk in
            Ok (d :: ds) in
        let datatype := cc_datatype table_column in
        match columns with
        | column :: columns' =>
            if same_column column (cc_summary table_column) then push (serializable datatype) columns' is_primary_key
            else if is_primary_key then push (serializable datatype) columns true
            else push (skip_serializable datatype) columns false
        | [] =>
            if is_primary_key then push (serializable datatype) columns true
            else push (skip_serializable datatype) columns false
        end
  end.

Definition create_deserializers (columns : list ColumnSummary) (table : TableCatalog) (with_pk : bool)
    : res (list TupleValueSerializableImpl) :=
  let pk_len := if with_pk then tc_primary_keys_len table else 0%nat in
  create_deserializers_loop (tc_columns table) columns pk_len with_pk.

(** [Transaction::read]; [table] is what the table cache or the catalog has for the name. *)
Definition read {T : Type} `{TransactionOps T} (t : T) (table : option TableCatalog) (table_name : bytes)
    (bounds : option Z * option Z) (columns : list ColumnSummary) (with_pk : bool) : res TupleIter :=
  match table with
  | None => Err TableNotFound
  | Some table =>
      let? deserializers := create_deserializers columns table with_pk in
      let pk_ty := if with_pk then Some (tc_primary_keys_type table) else None in
      let offset := default 0 (fst bounds) in
      with_tuple_bound table_name (fun min max =>
        let? iter := range t (Included min) (Included max) in
        Ok {| ti_bounds := {| offset := offset; limit := snd bounds |}; ti_pk_ty := pk_ty;
              ti_deserializers := deserializers; ti_total_len := length (tc_columns table);
              ti_iter := iter |})
  end.

(** * Index scans *)

Record TupleMapping := { index_to_scan : list Z; tm_target_len : nat }.

(** [TupleMapping::new]; an index outside the tuple panics. *)
Fixpoint tuple_mapping_loop (scan_idx : nat) (scan_to_index : list nat) (acc : list Z) : res (list Z) :=
  match scan_to_index with
  | [] => Ok acc
  | i :: rest =>
      if (i <? length acc)%nat then tuple_mapping_loop (S scan_idx) rest (<[i := Z.of_nat scan_idx]> acc)
      else Err Panic
  end.

Definition tuple_mapping_new (scan_to_index : list nat) (tuple_len : nat) : res TupleMapping :=
  let? its := tuple_mapping_loop 0 scan_to_index (replicate tuple_len USIZE_MAX) in
  Ok {| index_to_scan := its; tm_target_len := length scan_to_index |}.

Definition tuple_mapping_ref (self : TupleMapping) : IndexKeyMapping :=
  TupleMappingRef (index_to_scan self) (tm_target_len self).

Inductive IndexImplEnum :=
| PrimaryKeyIndexImpl
| UniqueIndexImpl
| NormalIndexImpl
| CompositeIndexImpl
| CoveredIndexImpl.

Definition index_impl_instance (ty : IndexType) : IndexImplEnum :=
  match ty with
  | PrimaryKey _ => PrimaryKeyIndexImpl
  | Unique => UniqueIndexImpl
  | Normal => NormalIndexImpl
  | Composite => CompositeIndexImpl
  end.

Definition encode_bound_key (key : bytes) (is_upper : bool) : bytes :=
  if is_upper then key ++ [BOUND_MAX_TAG] else key.

Definition index_values (value : DataValue) : list DataValue :=
  match value with
  | DataValue.Tuple values => values
  | value => [value]
  end.

Definition fill_default_bound (bound : Bound bytes) (default : bytes) : Bound bytes :=
  match bound with
  | Included b => Included b
  | Excluded b => Excluded b
  | Unbounded => Included default
  end.

Section Scan.
Context {T : Type} `{TransactionOps T}.

Record IndexImplParams := {
  p_index_meta : IndexMeta;
  p_table_name : bytes;
  p_deserializers : list TupleValueSerializableImpl;
  p_total_len : nat;
  p_tx : T;
  p_cover_mapping : option TupleMapping;
  p_with_pk : bool;
}.

Inductive IndexResult :=
| Hit (tuple : Tuple)
| Miss
| ScopeOf (iter : entries).

(** *** [bound_key] of each index kind *)

Definition primary_bound_key (params : IndexImplParams) (value : DataValue) (is_upper : bool) : res bytes :=
  with_tuple_unchecked (p_table_name params) value None
    (fun key _ => Ok (encode_bound_key key is_upper)).

Definition unique_bound_key (params : IndexImplParams) (value : DataValue) : res bytes :=
  let index := mk_index (im_id (p_index_meta params)) (index_values value) Unique in
  with_index (p_table_name params) index None (fun key _ => Ok key).

Definition normal_bound_key (params : IndexImplParams) (value : DataValue) (is_upper : bool) : res bytes :=
  let index := mk_index (im_id (p_index_meta params)) (index_values value) Normal in
  with_index (p_table_name params) index None (fun key _ => Ok (encode_bound_key key is_upper)).

Definition composite_bound_key (params : IndexImplParams) (value : DataValue) (is_upper : bool) : res bytes :=
  let index := mk_index (im_id (p_index_meta params)) (index_values value) Composite in
  with_index (p_table_name params) index None (fun key _ => Ok (encode_bound_key key is_upper)).

Definition covered_bound_key (params : IndexImplParams) (value : DataValue) (is_upper : bool) : res bytes :=
  let index := mk_index (im_id (p_index_meta params)) (index_values value) (im_ty (p_index_meta params)) in
  with_index (p_table_name params) index None (fun key _ => Ok (encode_bound_key key is_upper)).

Definition bound_key (inner : IndexImplEnum) (params : IndexImplParams) (value : DataValue)
    (is_upper : bool) : res bytes :=
  match inner with
  | PrimaryKeyIndexImpl => primary_bound_key params value is_upper
  | UniqueIndexImpl => unique_bound_key params value
  | NormalIndexImpl => normal_bound_key params value is_upper
  | CompositeIndexImpl => composite_bound_key params value is_upper
  | CoveredIndexImpl => covered_bound_key params value is_upper
  end.

Definition encode_bound (inner : IndexImplEnum) (params : IndexImplParams) (bound : Bound DataValue)
    (is_upper : bool) : res (Bound bytes) :=
  match bound with
  | Included val => let? k := bound_key inner params val is_upper in Ok (Included k)
  | Excluded val => let? k := bound_key inner params val (negb is_upper) in Ok (Excluded k)
  | Unbounded => Ok Unbounded
  end.

(** *** Looking an entry up *)

(** [IndexImplParams::get_tuple_by_id_into]. *)
Definition get_tuple_by_id_into (params : IndexImplParams) (tuple_id : DataValue) : res (option Tuple) :=
  with_tuple_unchecked (p_table_name params) tuple_id None (fun key _ =>
    let? found := get_borrowed (p_tx params) key in
    match found with
    | None => Ok None
    | Some bs =>
        let? tuple := decode_tuple_into (p_deserializers params) (Some tuple_id) bs (p_total_len params) in
        Ok (Some tuple)
    end).

Definition secondary_index_lookup (params : IndexImplParams) (bs : bytes) : res Tuple :=
  let? tuple_id := decode_index bs in
  let? tuple := get_tuple_by_id_into params tuple_id in
  match tuple with
  | Some tuple => Ok tuple
  | None => Err (TupleIdNotFound tuple_id)
  end.

Definition primary_index_lookup_into (params : IndexImplParams) (key value : bytes) : res Tuple :=
  let? tuple_id := decode_tuple_key key (im_pk_ty (p_index_meta params)) in
  decode_tuple_into (p_deserializers params) (Some tuple_id) value (p_total_len params).

Definition covered_index_lookup_into (params : IndexImplParams) (key value : bytes) : res Tuple :=
  let? vals :=
    match p_cover_mapping params with
    | Some mapping => decode_index_key key (im_value_ty (p_index_meta params)) (tuple_mapping_ref mapping)
    | None => decode_index_key key (im_value_ty (p_index_meta params)) OrderedMapping
    end in
  let? tuple_id :=
    if p_with_pk params then let? id := decode_index value in Ok (Some id) else Ok None in
  Ok (mk_tuple tuple_id vals).

Definition index_lookup_into (inner : IndexImplEnum) (params : IndexImplParams)
    (entry : bytes * bytes) : res Tuple :=
  match inner with
  | PrimaryKeyIndexImpl => primary_index_lookup_into params (fst entry) (snd entry)
  | UniqueIndexImpl | NormalIndexImpl | CompositeIndexImpl => secondary_index_lookup params (snd entry)
  | CoveredIndexImpl => covered_index_lookup_into params (fst entry) (snd entry)
  end.

(** *** Equalities *)

Definition eq_to_res_scope (inner : IndexImplEnum) (params : IndexImplParams) (value : DataValue)
    : res IndexResult :=
  let? encode_min := bound_key inner params value false in
  let? encode_max := bound_key inner params value true in
  let? iter := range (p_tx params) (Included encode_min) (Included encode_max) in
  Ok (ScopeOf iter).

Definition primary_eq_to_res (params : IndexImplParams) (value : DataValue) : res IndexResult :=
  let? found :=
    with_tuple_unchecked (p_table_name params) value None (fun key _ =>
      let? found := get_borrowed (p_tx params) key in
      match found with
      | None => Ok None
      | Some bs =>
          let? tuple := decode_tuple_into (p_deserializers params) (Some value) bs (p_total_len params) in
          Ok (Some tuple)
      end) in
  Ok (match found with Some tuple => Hit tuple | None => Miss end).

Definition unique_eq_to_res (params : IndexImplParams) (value : DataValue) : res IndexResult :=
  let index := mk_index (im_id (p_index_meta params)) (index_values value) Unique in
  let? found := with_index (p_table_name params) index None (fun key _ => get_borrowed (p_tx params) key) in
  match found with
  | None => Ok Miss
  | Some bs =>
      let? tuple_id := decode_index bs in
      let? tuple := get_tuple_by_id_into params tuple_id in
      match tuple with
      | Some tuple => Ok (Hit tuple)
      | None => Err (TupleIdNotFound tuple_id)
      end
  end.

Definition eq_to_res (inner : IndexImplEnum) (params : IndexImplParams) (value : DataValue)
    : res IndexResult :=
  match inner with
  | PrimaryKeyIndexImpl => primary_eq_to_res params value
  | UniqueIndexImpl => unique_eq_to_res params value
  | NormalIndexImpl | CompositeIndexImpl | CoveredIndexImpl => eq_to_res_scope inner params value
  end.

(** The iterator opened for [Range::Scope]. *)
Definition open_scope (inner : IndexImplEnum) (params : IndexImplParams) (min max : Bound DataValue)
    : res entries :=
  let? encode_min := encode_bound inner params min false in
  let? encode_max := encode_bound inner params max true in
  let open_iter (bound_min bound_max : bytes) :=
    range (p_tx params) (fill_default_bound encode_min bound_min)
      (fill_default_bound encode_max bound_max) in
  if is_primary (im_ty (p_index_meta params)) then with_tuple_bound (p_table_name params) open_iter
  else with_index_bound (p_table_name params) (im_id (p_index_meta params)) open_iter.

Inductive IndexIterState :=
| Init
| RangeOf (iter : entries)
| Over.

Record IndexIter := {
  ii_bounds : IterBounds;
  ii_params : IndexImplParams;
  ii_inner : IndexImplEnum;
  ii_ranges : IndexRanges;
  ii_state : IndexIterState;
}.

Definition ii_with (self : IndexIter) (b : IterBounds) (rs : IndexRanges) (st : IndexIterState) : IndexIter :=
  {| ii_bounds := b; ii_params := ii_params self; ii_inner := ii_inner self;
     ii_ranges := rs; ii_state := st |}.

(** [while let Some(..) = iter.try_next()? { if self.bounds.consume_offset() { continue; } .. }]:
    the first entry past the offset, with the entries after it. *)
Fixpoint range_next (b : IterBounds) (iter : entries)
    : IterBounds * option ((bytes * bytes) * entries) :=
  match iter with
  | [] => (b, None)
  | entry :: iter' =>
      match consume_offset b with
      | (true, b') => range_next b' iter'
      | (false, b') => (b', Some (entry, iter'))
      end
  end.

(** The [loop] of [next_tuple_into]; [fuel] bounds its iterations. *)
Fixpoint ii_loop (fuel : nat) (self : IndexIter) : res (IndexIter * option Tuple) :=
  match fuel with
  | O => Err Panic
  | S fuel' =>
      match ii_state self with
      | Init =>
          match ranges_next (ii_ranges self) with
          | None => ii_loop fuel' (ii_with self (ii_bounds self) (ii_ranges self) Over)
          | Some (binary, rs) =>
              match binary with
              | Range.Scope min max =>
                  let? iter := open_scope (ii_inner self) (ii_params self) min max in
                  ii_loop fuel' (ii_with self (ii_bounds self) rs (RangeOf iter))
              | Range.Eq val =>
                  let? result := eq_to_res (ii_inner self) (ii_params self) val in
                  match result with
                  | Hit tuple =>
                      match consume_offset (ii_bounds self) with
                      | (true, b) => ii_loop fuel' (ii_with self b rs Init)
                      | (false, b) => Ok (ii_with self (consume_limit b) rs Init, Some tuple)
                      end
                  | Miss => Ok (ii_with self (ii_bounds self) rs Init, None)
                  | ScopeOf iter => ii_loop fuel' (ii_with self (ii_bounds self) rs (RangeOf iter))
                  end
              | _ => ii_loop fuel' (ii_with self (ii_bounds self) rs Init)
              end
          end
      | RangeOf iter =>
          match range_next (ii_bounds self) iter with
          | (b, Some (entry, iter')) =>
              let? tuple := index_lookup_into (ii_inner self) (ii_params self) entry in
              Ok (ii_with self (consume_limit b) (ii_ranges self) (RangeOf iter'), Some tuple)
          | (b, None) => ii_loop fuel' (ii_with self b (ii_ranges self) Init)
          end
      | Over => Ok (self, None)
      end
  end.

(** Each range takes at most two iterations. *)
Definition ii_fuel (self : IndexIter) : nat :=
  2 * (length (ranges_inner (ii_ranges self)) - next_idx (ii_ranges self)) + 4.

Definition ii_next_tuple (self : IndexIter) : res (IndexIter * option Tuple) :=
  if limit_reached (ii_bounds self) then
    Ok (ii_with self (ii_bounds self) (ii_ranges self) Over, None)
  else ii_loop (ii_fuel self) self.

(** [Transaction::read_by_index]. *)
Definition read_by_index (t : T) (table : option TableCatalog) (table_name : bytes)
    (bounds : option Z * option Z) (columns : list ColumnSummary) (index_meta : IndexMeta)
    (ranges : list Range) (with_pk : bool)
    (covered_deserializers : option (list TupleValueSerializableImpl))
    (cover_mapping_indices : option (list nat)) : res IndexIter :=
  match table with
  | None => Err TableNotFound
  | Some table =>
      let offset := default 0 (fst bounds) in
      let is_primary_index := is_primary (im_ty index_meta) in
      let? (inner, deserializers, cover_mapping) :=
        match covered_deserializers, is_primary_index with
        | Some deserializers, false =>
            let tuple_len := length (index_types (im_value_ty index_meta)) in
            let? cover_mapping :=
              match cover_mapping_indices with
              | Some slots => let? m := tuple_mapping_new slots tuple_len in Ok (Some m)
              | None => Ok None
              end in
            Ok (CoveredIndexImpl, deserializers, cover_mapping)
        | _, _ =>
            let? deserializers := create_deserializers columns table with_pk in
            Ok (index_impl_instance (im_ty index_meta), deserializers, None)
        end in
      Ok {| ii_bounds := {| offset := offset; limit := snd bounds |};
            ii_params :=
              {| p_index_meta := index_meta; p_table_name := table_name;
                 p_deserializers := deserializers; p_total_len := length (tc_columns table);
                 p_tx := t; p_cover_mapping := cover_mapping; p_with_pk := with_pk |};
            ii_inner := inner; ii_ranges := ranges_of ranges; ii_state := Init |}
  end.
End Scan.

(** * What a scan reads *)

(** The part of a list an offset and a limit keep. *)
Definition window {A : Type} (b : IterBounds) (l : list A) : list A :=
  let l := drop (Z.to_nat (offset b)) l in
  match limit b with Some n => take (Z.to_nat n) l | None => l end.

Definition bounds_ok (b : IterBounds) : Prop :=
  0 <= offset b /\ match limit b with Some n => 0 <= n | None => True end.

(** Call [next] until it has no tuple, as every executor does. *)
Fixpoint drain {S : Type} (fuel : nat) (next : S -> res (S * option Tuple)) (s : S) : res (list Tuple) :=
  match fuel with
  | O => Err Panic
  | S fuel' =>
      let? (s', t) := next s in
      match t with
      | None => Ok []
      | Some t => let? ts := drain fuel' next s' in Ok (t :: ts)
      end
  end.

Lemma bounds_start (b : IterBounds) :
  bounds_ok b -> offset b <= 0 -> b = {| offset := 0; limit := limit b |}.
Proof. intros [Hb _] H. destruct b as [o l]; simpl in *. f_equal. lia. Qed.

Lemma window_skip {A : Type} (b : IterBounds) (x : A) (l : list A) :
  bounds_ok b -> 0 < offset b -> window b (x :: l) = window {| offset := offset b - 1; limit := limit b |} l.
Proof.
  intros _ Ho. unfold window. simpl.
  by replace (Z.to_nat (offset b)) with (S (Z.to_nat (offset b - 1))) by lia.
Qed.

Lemma window_nil {A : Type} (b : IterBounds) : window b (@nil A) = [].
Proof. unfold window. rewrite drop_nil. destruct (limit b); by rewrite ?take_nil. Qed.

Lemma window_take {A : Type} (b : IterBounds) (x : A) (l : list A) :
  bounds_ok b -> offset b = 0 -> limit_reached b = false ->
  window b (x :: l) = x :: window (consume_limit b) l /\ bounds_ok (consume_limit b).
Proof.
  unfold window, consume_limit, bounds_ok, limit_reached.
  destruct b as [o [n|]]; simpl; intros [H1 H2] -> Hl; simpl; [|by auto].
  z_bool. replace (Z.to_nat n) with (S (Z.to_nat (n - 1))) by lia. simpl. repeat split; lia || done.
Qed.

Lemma window_reached {A : Type} (b : IterBounds) (l : list A) :
  limit_reached b = true -> window b l = [].
Proof.
  unfold window, limit_reached. destruct (limit b) as [n|]; [|done]. intros E. z_bool. by subst.
Qed.

(** ** Table scans *)

Lemma skip_offset_spec (b : IterBounds) (iter : entries) :
  bounds_ok b ->
  match skip_offset b iter with
  | (_, _, true) => window b iter = []
  | (b', iter', false) =>
      offset b' = 0 /\ bounds_ok b' /\ window b iter = window b' iter' /\ (length iter' <= length iter)%nat
  end.
Proof.
  revert b. induction iter as [|e iter IH]; intros b Hb; simpl; unfold consume_offset;
    destruct (Z.ltb_spec 0 (offset b)).
  - apply window_nil.
  - destruct Hb. repeat split; lia || done.
  - rewrite window_skip by done.
    assert (bounds_ok {| offset := offset b - 1; limit := limit b |}) as Hb'
      by (destruct Hb; split; simpl; [lia|done]).
    specialize (IH _ Hb'). destruct (skip_offset _ iter) as [[b' iter'] []]; [done|].
    destruct IH as (? & ? & ? & ?). split; [done|]. split; [done|]. split; [done|lia].
  - destruct Hb. repeat split; lia || done.
Qed.

Lemma drain_tuple_iter (fuel : nat) (self : TupleIter) :
  bounds_ok (ti_bounds self) -> (length (ti_iter self) < fuel)%nat ->
  drain fuel ti_next_tuple self = rmap (ti_decode self) (window (ti_bounds self) (ti_iter self)).
Proof.
  revert self. induction fuel as [|fuel IH]; intros self Hb Hf; [lia|]. cbn [drain].
  unfold ti_next_tuple at 1. pose proof (skip_offset_spec (ti_bounds self) (ti_iter self) Hb) as Hs.
  destruct (skip_offset _ _) as [[b iter] []]; [by rewrite Hs|].
  destruct Hs as (Ho & Hb' & -> & Hl). destruct iter as [|entry iter]; [by rewrite window_nil|].
  destruct (limit_reached b) eqn:El; [by rewrite window_reached|].
  destruct (window_take b entry iter Hb' Ho El) as [-> Hb'']. cbn [rmap].
  destruct (ti_decode self entry); [|done]. cbn [rbind].
  by rewrite (IH (ti_with self (consume_limit b) iter)) by (simpl in *; done || lia).
Qed.

(** The columns a scan materialises. *)
Definition wanted (columns : list ColumnSummary) (with_pk : bool) (c : ColumnCatalog) : Prop :=
  cc_summary c ∈ columns \/ with_pk = true /\ is_Some (cc_primary c).

#[global] Instance wanted_dec (columns : list ColumnSummary) (with_pk : bool) (c : ColumnCatalog) :
  Decision (wanted columns with_pk c).
Proof. unfold wanted. apply _. Defined.

Definition deserializer_of (columns : list ColumnSummary) (with_pk : bool) (c : ColumnCatalog) :=
  if decide (wanted columns with_pk c) then serializable (cc_datatype c) else skip_serializable (cc_datatype c).

Definition pk_count (cols : list ColumnCatalog) : nat :=
  length (filter (fun c => is_Some (cc_primary c)) cols).

Lemma wanted_nil (with_pk : bool) (c : ColumnCatalog) :
  wanted [] with_pk c <-> with_pk = true /\ is_Some (cc_primary c).
Proof. unfold wanted. split; [intros [H|H]; [by apply not_elem_of_nil in H|done]|auto]. Qed.

Lemma pk_count_zero (cols : list ColumnCatalog) :
  pk_count cols = 0%nat -> Forall (fun c => ~ is_Some (cc_primary c)) cols.
Proof.
  unfold pk_count. intros H. apply nil_length_inv in H. apply Forall_forall. intros c Hc Hp.
  assert (c ∈ filter (fun c => is_Some (cc_primary c)) cols) as Hf by (by apply list_elem_of_filter).
  rewrite H in Hf. by apply not_elem_of_nil in Hf.
Qed.

Lemma rmap_ext {E A B : Type} (f g : A -> result E B) (l : list A) :
  Forall (fun x => f x = g x) l -> rmap f l = rmap g l.
Proof. induction 1 as [|x l Hx _ IH]; [done|]. cbn [rmap]. by rewrite Hx, IH. Qed.

(** A requested column is not requested again further on. *)
Lemma wanted_rest (s : ColumnSummary) (columns : list ColumnSummary) (with_pk : bool)
    (rest : list ColumnCatalog) :
  s ∉ map cc_summary rest ->
  Forall (fun c => wanted (s :: columns) with_pk c <-> wanted columns with_pk c) rest.
Proof.
  intros Hs. apply Forall_forall. intros c Hc. unfold wanted. rewrite elem_of_cons.
  assert (cc_summary c <> s) by (intros <-; apply Hs; by apply list_elem_of_fmap_2). naive_solver.
Qed.

Lemma deserializers_rest (s : ColumnSummary) (columns : list ColumnSummary) (with_pk : bool)
    (rest : list ColumnCatalog) (n : nat) :
  s ∉ map cc_summary rest ->
  rmap (deserializer_of (s :: columns) with_pk) (take n rest) =
    rmap (deserializer_of columns with_pk) (take n rest) /\
  (Forall (fun c => ~ wanted columns with_pk c) (drop n rest) ->
   Forall (fun c => ~ wanted (s :: columns) with_pk c) (drop n rest)).
Proof.
  intros Hs. pose proof (wanted_rest s columns with_pk rest Hs) as H. rewrite <- (take_drop n rest) in H.
  apply Forall_app in H as [H1 H2]. split.
  - apply rmap_ext. eapply Forall_impl; [exact H1|]. intros c Hc. unfold deserializer_of. by apply decide_ext.
  - intros H3. rewrite Forall_forall in *. intros c Hc. rewrite H2 by done. by apply H3.
Qed.

Lemma create_deserializers_loop_spec (cols : list ColumnCatalog) (columns : list ColumnSummary)
    (pk_len : nat) (with_pk : bool) :
  NoDup (map cc_summary cols) -> columns `sublist_of` map cc_summary cols ->
  pk_len = (if with_pk then pk_count cols else 0%nat) ->
  exists n, create_deserializers_loop cols columns pk_len with_pk =
      rmap (deserializer_of columns with_pk) (take n cols) /\
    Forall (fun c => ~ wanted columns with_pk c) (drop n cols).
Proof.
  revert columns pk_len. induction cols as [|c cols IH]; intros columns pk_len Hnd Hsub Hpk.
  { by exists 0%nat. }
  cbn [map] in *. apply NoDup_cons in Hnd as [Hc Hnd].
  cbn [create_deserializers_loop].
  set (is_pk := with_pk && bool_decide (is_Some (cc_primary c))).
  assert (pk_len = (if is_pk then 1 else 0) + (if with_pk then pk_count cols else 0))%nat as Hlen.
  { rewrite Hpk. unfold is_pk, pk_count. destruct with_pk; [|done]. cbn [andb]. rewrite filter_cons.
    case_bool_decide; [by rewrite decide_True|by rewrite decide_False]. }
  assert (forall s, s = cc_summary c -> ~ s ∈ map cc_summary cols) as Hfresh by (by intros s ->).
  assert (forall columns, columns `sublist_of` map cc_summary cols ->
    exists n, create_deserializers_loop cols columns (if is_pk then Nat.pred pk_len else pk_len) with_pk =
      rmap (deserializer_of columns with_pk) (take n cols) /\
      Forall (fun c => ~ wanted columns with_pk c) (drop n cols)) as IH'.
  { intros l Hl. apply IH; [done|done|]. rewrite Hlen. by destruct is_pk. }
  assert (is_pk && (pk_len =? 0)%nat = false) as Hnz by (rewrite Hlen; by destruct is_pk).
  assert (is_pk = true <-> with_pk = true /\ is_Some (cc_primary c)) as Hisp.
  { unfold is_pk. rewrite andb_true_iff, bool_decide_eq_true. done. }
  assert (forall d next, d = deserializer_of columns with_pk c -> next `sublist_of` map cc_summary cols ->
    columns = next \/ columns = cc_summary c :: next ->
    exists n, (let? d := d in
        let? ds := create_deserializers_loop cols next (if is_pk then Nat.pred pk_len else pk_len) with_pk in
        Ok (d :: ds)) = rmap (deserializer_of columns with_pk) (take n (c :: cols)) /\
      Forall (fun c => ~ wanted columns with_pk c) (drop n (c :: cols))) as Hpush.
  { intros d next -> Hn Hcol. destruct (IH' next Hn) as (n & -> & Hd). exists (S n). cbn [take drop rmap].
    destruct Hcol as [->| ->]; [done|].
    destruct (deserializers_rest (cc_summary c) next with_pk cols n Hc) as [-> Hw]. by auto. }
  destruct columns as [|s columns].
  - destruct (Nat.eqb_spec pk_len 0) as [Hz|Hz]; cbn [andb].
    + exists 0%nat. split; [done|]. cbn [drop]. apply Forall_forall. intros x Hx. rewrite wanted_nil.
      intros [-> Hp]. assert (pk_count (c :: cols) = 0%nat) as Hcnt by lia.
      pose proof (pk_count_zero _ Hcnt) as Hf. rewrite Forall_forall in Hf. by apply (Hf x).
    + destruct is_pk eqn:Eis; cbn [andb] in *; rewrite ?Hnz; apply Hpush; try done; try (by left); try apply sublist_nil_l;
        unfold deserializer_of; [rewrite decide_True|rewrite decide_False]; try done;
        rewrite wanted_nil, <- Hisp; done.
  - cbn [andb]. unfold same_column. case_bool_decide as Hs; [rewrite Hnz|].
    + subst s. assert (columns `sublist_of` map cc_summary cols) as Hsub'.
      { apply sublist_cons_r in Hsub as [H|(l & [= <-] & H)]; [|done].
        etransitivity; [|exact H]. by apply sublist_cons. }
      apply Hpush; [|done|by right].
      unfold deserializer_of. rewrite decide_True; [done|]. left. apply list_elem_of_here.
    + assert (s :: columns `sublist_of` map cc_summary cols) as Hsub'.
      { apply sublist_cons_r in Hsub as [H|(l & [= ->] & _)]; done. }
      assert (cc_summary c ∉ s :: columns) as Hn by (intros H; apply Hc; by eapply elem_of_sublist).
      destruct is_pk eqn:Eis; cbn [andb] in *; rewrite ?Hnz; apply Hpush; try done; try (by left);
        unfold deserializer_of; [rewrite decide_True|rewrite decide_False]; try done.
      * right. by apply Hisp.
      * intros [H|H]; [done|]. by apply Hisp in H.
Qed.

(** Which columns a scan materialises. For a projection in table order,
    the deserializers cover a prefix of the table's columns: a requested
    column, and with [with_pk] a primary key column, is read, every other
    column of the prefix is skipped, and no wanted column is left after it. *)
Theorem create_deserializers_spec (columns : list ColumnSummary) (table : TableCatalog) (with_pk : bool) :
  NoDup (map cc_summary (tc_columns table)) -> columns `sublist_of` map cc_summary (tc_columns table) ->
  tc_primary_keys_len table = pk_count (tc_columns table) ->
  exists n, create_deserializers columns table with_pk =
      rmap (deserializer_of columns with_pk) (take n (tc_columns table)) /\
    Forall (fun c => ~ wanted columns with_pk c) (drop n (tc_columns table)).
Proof.
  intros Hnd Hsub Hpk. apply create_deserializers_loop_spec; [done|done|by rewrite Hpk].
Qed.
(** ** Index scans *)

Section IndexIterSpec.
Context {T : Type} `{TransactionOps T}.
Implicit Types self : IndexIter (T := T).

(** What a range contributes: an entry still to be looked up, or the row an
    equality found at once. *)
Definition item : Type := (bytes * bytes) + Tuple.

Definition item_tuple self (i : item) : res Tuple :=
  match i with
  | inl entry => index_lookup_into (ii_inner self) (ii_params self) entry
  | inr tuple => Ok tuple
  end.

(** What opening a range gives: its items, nothing under a primary or unique
    key that is looked up, or an error. *)
Inductive opened :=
| Items (its : list item)
| NotFound
| Failed (e : DatabaseError).

Definition open_range (inner : IndexImplEnum) (params : IndexImplParams (T := T)) (r : Range) : opened :=
  match r with
  | Range.Scope min max =>
      match open_scope inner params min max with Ok es => Items (map inl es) | Err e => Failed e end
  | Range.Eq v =>
      match eq_to_res inner params v with
      | Ok (Hit t) => Items [inr t]
      | Ok Miss => NotFound
      | Ok (ScopeOf es) => Items (map inl es)
      | Err e => Failed e
      end
  | _ => Items []
  end.

(** The items of the ranges in order, and the error that ends them if any. A
    key that is not found ends the scan: the ranges after it are not read
    ([index_scan_stops_at_miss]). *)
Fixpoint scanned_items (inner : IndexImplEnum) (params : IndexImplParams (T := T)) (rs : list Range)
    : list item * option DatabaseError :=
  match rs with
  | [] => ([], None)
  | r :: rs =>
      match open_range inner params r with
      | Items its => let '(rest, failed) := scanned_items inner params rs in (its ++ rest, failed)
      | NotFound => ([], None)
      | Failed e => ([], Some e)
      end
  end.

(** The rows of a scan: those of the window of its items, in order, up to the
    first lookup that fails; a range that cannot be opened is an error unless
    the limit is reached before it. *)
Definition scan_result self (b : IterBounds) (its : list item) (failed : option DatabaseError) : res (list Tuple) :=
  let? ts := rmap (item_tuple self) (window b its) in
  match failed with
  | Some e => if match limit b with Some n => n <=? Z.of_nat (length ts) | None => false end then Ok ts else Err e
  | None => Ok ts
  end.

Definition state_items (st : IndexIterState) : list item :=
  match st with RangeOf es => map inl es | _ => [] end.

(** The ranges not opened yet. *)
Definition ranges_left (rs : IndexRanges) : list Range := drop (next_idx rs) (ranges_inner rs).

Lemma ranges_next_cons (rs : IndexRanges) (r : Range) (rest : list Range) :
  ranges_left rs = r :: rest ->
  exists rs', ranges_next rs = Some (r, rs') /\ ranges_left rs' = rest /\
    ranges_inner rs' = ranges_inner rs /\ next_idx rs' = S (next_idx rs).
Proof.
  unfold ranges_left, ranges_next. intros E.
  assert (ranges_inner rs !! next_idx rs = Some r) as ->.
  { rewrite <- (Nat.add_0_r (next_idx rs)), <- lookup_drop, E. done. }
  eexists. split; [reflexivity|]. simpl. split; [|done].
  by rewrite <- (Nat.add_1_r (next_idx rs)), <- drop_drop, E.
Qed.

Lemma ranges_next_nil (rs : IndexRanges) : ranges_left rs = [] -> ranges_next rs = None.
Proof.
  unfold ranges_left, ranges_next. intros E.
  replace (ranges_inner rs !! next_idx rs) with (@None Range); [done|].
  symmetry. by rewrite <- (Nat.add_0_r (next_idx rs)), <- lookup_drop, E.
Qed.

Lemma ranges_left_length (rs : IndexRanges) :
  (length (ranges_inner rs) - next_idx rs)%nat = length (ranges_left rs).
Proof. unfold ranges_left. by rewrite length_drop. Qed.

(** The first item past the offset, with the items after it. *)
Fixpoint items_next (b : IterBounds) (its : list item) : IterBounds * option (item * list item) :=
  match its with
  | [] => (b, None)
  | i :: its' =>
      match consume_offset b with
      | (true, b') => items_next b' its'
      | (false, b') => (b', Some (i, its'))
      end
  end.

Lemma range_next_items (b : IterBounds) (es : entries) (rest : list item) :
  items_next b (map inl es ++ rest) =
  match range_next b es with
  | (b', Some (e, es')) => (b', Some (inl e, map inl es' ++ rest))
  | (b', None) => items_next b' rest
  end.
Proof.
  revert b. induction es as [|e es IH]; intros b; cbn [map app items_next range_next]; [done|].
  destruct (consume_offset b) as [[] b']; [apply IH|done].
Qed.

(** What the iterator still has to yield, the offset and limit apart. *)
Definition pending self : list item * option DatabaseError :=
  match ii_state self with
  | Over => ([], None)
  | st =>
      let '(rest, failed) := scanned_items (ii_inner self) (ii_params self) (ranges_left (ii_ranges self)) in
      (state_items st ++ rest, failed)
  end.

Definition loop_measure self : nat :=
  match ii_state self with
  | Over => 1
  | Init => 2 * length (ranges_left (ii_ranges self)) + 2
  | RangeOf _ => 2 * length (ranges_left (ii_ranges self)) + 3
  end.

(** What a call returns when [its] are pending. *)
Definition yields self (its : list item) (failed : option DatabaseError) (r : res (IndexIter * option Tuple)) : Prop :=
  match items_next (ii_bounds self) its with
  | (_, None) => match failed with Some e => r = Err e | None => exists self', r = Ok (self', None) end
  | (b, Some (i, its')) =>
      match item_tuple self i with
      | Err e => r = Err e
      | Ok t => exists self', r = Ok (self', Some t) /\ pending self' = (its', failed) /\
          ii_bounds self' = consume_limit b /\ ii_inner self' = ii_inner self /\
          ii_params self' = ii_params self
      end
  end.

Lemma ii_loop_spec (fuel : nat) self (its : list item) (failed : option DatabaseError) :
  pending self = (its, failed) -> (loop_measure self <= fuel)%nat -> yields self its failed (ii_loop fuel self).
Proof.
  revert self its failed. induction fuel as [|fuel IH]; intros self its failed Hp Hf.
  { unfold loop_measure in Hf. destruct (ii_state self); lia. }
  unfold pending, loop_measure in Hp, Hf. cbn [ii_loop]. destruct (ii_state self) as [|es|] eqn:Est.
  - destruct (ranges_left (ii_ranges self)) as [|r rest] eqn:El.
    + rewrite (ranges_next_nil _ El). injection Hp as <- <-.
      apply (IH (ii_with self (ii_bounds self) (ii_ranges self) Over) [] None); [done|unfold loop_measure; simpl in *; lia].
    + destruct (ranges_next_cons _ _ _ El) as (rs & -> & Hrs & _). cbn [scanned_items state_items length] in Hp, Hf.
      destruct (scanned_items (ii_inner self) (ii_params self) rest) as [rest' failed'] eqn:Erest.
      assert (forall b, pending (ii_with self b rs Init) = (rest', failed')) as Hinit
        by (intros b; unfold pending; simpl; by rewrite Hrs, Erest).
      assert (forall es, (map inl es ++ rest', failed') = (its, failed) ->
        yields self its failed (ii_loop fuel (ii_with self (ii_bounds self) rs (RangeOf es)))) as Hscope.
      { intros es E. apply (IH (ii_with self (ii_bounds self) rs (RangeOf es))); [|unfold loop_measure; simpl; rewrite Hrs; lia].
        unfold pending. simpl. by rewrite Hrs, Erest. }
      assert (([] ++ rest', failed') = (its, failed) ->
        yields self its failed (ii_loop fuel (ii_with self (ii_bounds self) rs Init))) as Hnone.
      { intros E. apply (IH (ii_with self (ii_bounds self) rs Init)); [by rewrite Hinit|unfold loop_measure; simpl; rewrite Hrs; lia]. }
      destruct r as [min max|v| |]; cbn [open_range] in Hp; [..|by apply Hnone|by apply Hnone].
      * destruct (open_scope _ _ min max) as [es|e]; [by apply Hscope|]. injection Hp as <- <-. done.
      * destruct (eq_to_res _ _ v) as [[t| |es]|e]; cbn [rbind];
          [|injection Hp as <- <-; by eexists|by apply Hscope|injection Hp as <- <-; done].
        injection Hp as <- <-. unfold yields. cbn [app items_next].
        destruct (consume_offset (ii_bounds self)) as [[] b].
        -- apply (IH (ii_with self b rs Init)); [apply Hinit|unfold loop_measure; simpl; rewrite Hrs; lia].
        -- cbn [item_tuple]. eexists. split; [reflexivity|]. split; [apply Hinit|done].
  - destruct (scanned_items (ii_inner self) (ii_params self) (ranges_left (ii_ranges self))) as [rest failed'] eqn:Erest.
    injection Hp as <- <-. unfold yields. cbn [state_items]. rewrite range_next_items.
    destruct (range_next (ii_bounds self) es) as [b [[e es']|]].
    + cbn [item_tuple]. destruct (index_lookup_into _ _ e); [|done]. cbn [rbind].
      eexists. split; [reflexivity|]. split; [|done]. unfold pending. simpl. by rewrite Erest.
    + apply (IH (ii_with self b (ii_ranges self) Init)); unfold pending, loop_measure; simpl; [by rewrite Erest|lia].
  - injection Hp as <- <-. by exists self.
Qed.

Lemma items_next_spec (b : IterBounds) (its : list item) :
  bounds_ok b ->
  match items_next b its with
  | (_, None) => window b its = []
  | (b', Some (i, its')) =>
      offset b' = 0 /\ bounds_ok b' /\ limit b' = limit b /\ window b its = window b' (i :: its') /\
      (length its' < length its)%nat
  end.
Proof.
  revert b. induction its as [|i its IH]; intros b Hb; cbn [items_next]; [apply window_nil|].
  unfold consume_offset. destruct (Z.ltb_spec 0 (offset b)).
  - rewrite window_skip by done.
    assert (bounds_ok {| offset := offset b - 1; limit := limit b |}) as Hb'
      by (destruct Hb; split; simpl; [lia|done]).
    specialize (IH _ Hb'). destruct (items_next _ its) as [b' [[j its']|]]; [|done].
    destruct IH as (? & ? & ? & ? & ?). do 4 (split; [done|]). simpl. lia.
  - split; [destruct Hb; lia|]. do 3 (split; [done|]). simpl. lia.
Qed.

Lemma item_tuple_with self self' :
  ii_inner self' = ii_inner self -> ii_params self' = ii_params self ->
  item_tuple self' = item_tuple self.
Proof. unfold item_tuple. by intros -> ->. Qed.

Lemma drain_index_iter (fuel : nat) self (its : list item) (failed : option DatabaseError) :
  bounds_ok (ii_bounds self) -> pending self = (its, failed) -> (length its < fuel)%nat ->
  drain fuel ii_next_tuple self = scan_result self (ii_bounds self) its failed.
Proof.
  revert self its. induction fuel as [|fuel IH]; intros self its Hb Hp Hf; [lia|]. cbn [drain].
  unfold ii_next_tuple at 1, scan_result. destruct (limit_reached (ii_bounds self)) eqn:El.
  { rewrite window_reached by done. unfold limit_reached in El. cbn [rmap rbind].
    destruct (limit (ii_bounds self)) as [n|]; [|done]. z_bool. subst n. by destruct failed. }
  assert (loop_measure self <= ii_fuel self)%nat as Hm.
  { unfold loop_measure, ii_fuel. rewrite ranges_left_length. destruct (ii_state self); lia. }
  pose proof (ii_loop_spec (ii_fuel self) self its failed Hp Hm) as Hy. unfold yields in Hy.
  pose proof (items_next_spec (ii_bounds self) its Hb) as Hi.
  destruct (items_next (ii_bounds self) its) as [b [[i its']|]].
  - destruct Hi as (Ho & Hb' & Hl & -> & Hlen).
    assert (limit_reached b = false) as El' by (unfold limit_reached in *; by rewrite Hl).
    destruct (window_take b i its' Hb' Ho El') as [-> Hb'']. cbn [rmap].
    destruct (item_tuple self i) as [t|e] eqn:Ei; [|by rewrite Hy].
    destruct Hy as (self' & -> & Hp' & Ebs & Ein & Epa). cbn [rbind].
    rewrite (IH self' its'), Ebs by (rewrite ?Ebs; done || lia). unfold scan_result. rewrite (item_tuple_with self self') by done.
    destruct (rmap (item_tuple self) (window (consume_limit b) its')) as [ts|]; cbn [rbind]; [|done].
    destruct failed as [e|]; [|done]. rewrite <- Hl. unfold consume_limit. cbn [limit length].
    destruct (limit b) as [n|] eqn:Elb; [|by rewrite Elb]. simpl.
    destruct (Z.leb_spec (n - 1) (Z.of_nat (length ts))), (Z.leb_spec n (Z.of_nat (S (length ts)))); done || lia.
  - rewrite Hi. cbn [rmap rbind length]. destruct failed as [e|]; [|by destruct Hy as [? ->]]. rewrite Hy. cbn [rbind].
    unfold limit_reached in El. destruct Hb as [_ Hb]. destruct (limit (ii_bounds self)) as [n|]; [|done]. z_bool.
    by rewrite (proj2 (Z.leb_gt _ _)) by (simpl; lia).
Qed.

(** C7: an index scan. Called until it is done, the iterator goes through its
    ranges in order and yields the rows of the entries they select, concatenated,
    of which the offset and the limit keep a window; a lookup that fails, or a
    range that cannot be opened before the limit is reached, ends the scan with
    its error. An equality on a primary or unique key that finds nothing ends
    the scan there: the ranges after it are not read. Each call stays within
    its fuel. *)
Theorem index_scan_spec (fuel : nat) (bounds : IterBounds) (params : IndexImplParams) (inner : IndexImplEnum)
    (ranges : list Range) :
  let self := {| ii_bounds := bounds; ii_params := params; ii_inner := inner;
                 ii_ranges := ranges_of ranges; ii_state := Init |} in
  let items := scanned_items inner params ranges in
  bounds_ok bounds -> (length items.1 < fuel)%nat ->
  drain fuel ii_next_tuple self = scan_result self bounds items.1 items.2.
Proof.
  intros self items Hb Hf. apply (drain_index_iter fuel self items.1 items.2); [done| |done].
  unfold pending. simpl. change (ranges_left (ranges_of ranges)) with (drop 0 ranges).
  rewrite drop_0. fold items. by destruct items.
Qed.

(** An equality on a unique or primary key that finds nothing ends the
    call with [Ok(false)], whatever ranges follow; executors take that as the
    end of the scan, so the rows of the later ranges are not returned. *)
Theorem index_scan_stops_at_miss (fuel : nat) (bounds : IterBounds) (params : IndexImplParams)
    (inner : IndexImplEnum) (v : DataValue) (later : list Range) :
  eq_to_res inner params v = Ok Miss -> limit_reached bounds = false ->
  drain (S fuel) ii_next_tuple
    {| ii_bounds := bounds; ii_params := params; ii_inner := inner;
       ii_ranges := ranges_of (Range.Eq v :: later); ii_state := Init |} = Ok [].
Proof.
  intros Hm Hl. cbn [drain]. unfold ii_next_tuple at 1. cbn [ii_bounds]. rewrite Hl.
  unfold ii_fuel. rewrite Nat.add_comm. cbn [Nat.add ii_loop ii_state ii_ranges ii_inner ii_params].
  cbn [ranges_next ranges_of ranges_inner next_idx lookup list_lookup]. by rewrite Hm.
Qed.
End IndexIterSpec.

(** ** The keys a scope selects *)

Section Scope.
Context {OF : OrderedFloat}.

(** An entry with fields [fs] against the value of a bound, on as many fields
    as the bound has. *)
Definition fields_cmp (fs : list DataValue) (v : DataValue) : option comparison :=
  tuple_partial_cmp (take (length (index_values v)) fs) (index_values v) false false.

Definition lower_holds (min : Bound DataValue) (fs : list DataValue) : Prop :=
  match min with
  | Included v => fields_cmp fs v = Some Eq \/ fields_cmp fs v = Some Gt
  | Excluded v => fields_cmp fs v = Some Gt
  | Unbounded => True
  end.

Definition upper_holds (max : Bound DataValue) (fs : list DataValue) : Prop :=
  match max with
  | Included v => fields_cmp fs v = Some Eq \/ fields_cmp fs v = Some Lt
  | Excluded v => fields_cmp fs v = Some Lt
  | Unbounded => True
  end.

Lemma encode_values_app (vs ws : list DataValue) :
  encode_values (vs ++ ws) =
  let? p := encode_values vs in let? q := encode_values ws in Ok (p ++ q).
Proof.
  induction vs as [|v vs IH]; cbn [app encode_values rbind].
  - by destruct (encode_values ws).
  - rewrite IH. destruct (memcomparable_encode v); [|done]. cbn [rbind].
    destruct (encode_values vs); [|done]. cbn [rbind]. destruct (encode_values ws); [|done].
    cbn [rbind]. by rewrite (assoc_L app).
Qed.

(** An encoding starts with a tag below [BOUND_MAX_TAG]. *)
Lemma encode_values_tag (vs : list DataValue) (p : bytes) :
  encode_values vs = Ok p ->
  lex_cmp p [BOUND_MAX_TAG] = Lt /\ lex_cmp p [] = match vs with [] => Eq | _ => Gt end.
Proof.
  destruct vs as [|v vs]; cbn [encode_values]; [by intros [= <-]|].
  unfold memcomparable_encode. rewrite encode_tagged. intros E.
  apply rbind_ok in E as (b & E & E'). apply rbind_ok in E' as (bs & _ & [= <-]).
  destruct (is_null v); [by injection E as <-|].
  by apply rbind_ok in E as (q & _ & [= <-]).
Qed.

(** The fields of a bound: a prefix of the entry's columns; all of them when
    the bound's key has no upper tag ([UniqueIndexImpl]). *)
Definition bound_fields (inner : IndexImplEnum) (ts : list LogicalType) (v : DataValue) : Prop :=
  let ws := index_values v in
  Forall2 key_value ws (take (length ws) ts) /\ (inner = UniqueIndexImpl -> length ws = length ts).

Lemma fields_encoding_cmp (inner : IndexImplEnum) (fs : list DataValue) (ts : list LogicalType)
    (v : DataValue) (pf : bytes) :
  Forall2 key_value fs ts -> encode_values fs = Ok pf -> bound_fields inner ts v ->
  exists pw c, encode_values (index_values v) = Ok pw /\ fields_cmp fs v = Some c /\
    lex_cmp pf (pw ++ [BOUND_MAX_TAG]) = cmp_then c Lt /\
    (lex_cmp pf pw = c \/ c = Eq /\ lex_cmp pf pw = Gt /\ inner <> UniqueIndexImpl).
Proof.
  intros Hf Ef [Hw Hu]. unfold fields_cmp. set (ws := index_values v) in *. set (m := length ws) in *.
  assert (Forall2 key_value (take m fs) (take m ts)) as Hm by (by apply Forall2_take).
  destruct (encoded_values_ordered _ _ _ Hm Hw) as (p1 & pw & c & E1 & E2 & Hc & He).
  rewrite <- (take_drop m fs), encode_values_app, E1 in Ef. cbn [rbind] in Ef.
  destruct (encode_values (drop m fs)) as [p2|] eqn:E3; [|done]. injection Ef as <-.
  destruct (encode_values_tag _ _ E3) as [Ht Hn].
  exists pw, c. split; [done|]. split; [done|]. split; [by rewrite He, Ht|].
  pose proof (He p2 []) as E. rewrite app_nil_r in E. rewrite E, Hn. destruct (drop m fs) eqn:Ed; [left; apply cmp_then_Eq_r|].
  destruct c; [right|by left|by left]. do 2 (split; [done|]). intros Hi.
  apply Hu in Hi. apply Forall2_length in Hf. apply (f_equal length) in Ed.
  rewrite length_drop in Ed. simpl in Ed. lia.
Qed.
End Scope.

Section ScopeSpec.
Context {OF : OrderedFloat} {T : Type} `{TransactionOps T}.
Implicit Types (params : IndexImplParams (T := T)) (inner : IndexImplEnum).

Definition bound_tag inner (is_upper : bool) : bytes :=
  match inner with
  | UniqueIndexImpl => []
  | _ => if is_upper then [BOUND_MAX_TAG] else []
  end.

Lemma bound_key_secondary inner params (v : DataValue) (is_upper : bool) (pw : bytes) :
  inner <> PrimaryKeyIndexImpl -> encode_values (index_values v) = Ok pw ->
  bound_key inner params v is_upper =
  Ok (index_prefix (p_table_name params) (im_id (p_index_meta params)) ++ pw ++ bound_tag inner is_upper).
Proof.
  intros Hi E. unfold bound_key, unique_bound_key, normal_bound_key, composite_bound_key, covered_bound_key.
  unfold with_index, index_prefix, encode_bound_key, bound_tag.
  destruct inner; [done|..]; cbn [idx_values idx_id]; rewrite E; cbn [rbind];
    destruct is_upper; rewrite ?app_nil_r, <- ?(assoc_L app); done.
Qed.

Definition bound_ok inner (ts : list LogicalType) (b : Bound DataValue) : Prop :=
  match b with
  | Included v | Excluded v => bound_fields inner ts v
  | Unbounded => True
  end.

Lemma lower_exact inner params (ts : list LogicalType) (fs : list DataValue) (pf : bytes)
    (min : Bound DataValue) (lo : Bound bytes) (default : bytes) :
  let key := index_prefix (p_table_name params) (im_id (p_index_meta params)) ++ pf in
  inner <> PrimaryKeyIndexImpl -> Forall2 key_value fs ts -> encode_values fs = Ok pf ->
  bound_ok inner ts min -> encode_bound inner params min false = Ok lo -> lex_le default key ->
  above (fill_default_bound lo default) key <-> lower_holds min fs.
Proof.
  intros key Hi Hf Ef Hb E Hd. destruct min as [v|v|]; cbn [encode_bound negb] in E;
    [..|by injection E as <-];
    destruct (fields_encoding_cmp inner fs ts v pf Hf Ef Hb) as (pw & c & Ew & Ec & Hmax & Hmin);
    rewrite (bound_key_secondary _ _ _ _ _ Hi Ew) in E; cbn [rbind] in E; apply Ok_inj in E as <-;
    cbn [fill_default_bound above lower_holds]; rewrite Ec; unfold lex_le, lex_lt, key;
    rewrite lex_cmp_antisym, lex_cmp_app_l.
  - assert (bound_tag inner false = []) as -> by (by destruct inner). rewrite app_nil_r.
    destruct Hmin as [Hm|(-> & Hm & _)]; rewrite Hm; try destruct c; naive_solver.
  - assert (c = Gt <-> CompOpp (lex_cmp pf (pw ++ bound_tag inner true)) = Lt) as <-; [|naive_solver].
    unfold bound_tag. destruct inner; try (rewrite Hmax; by destruct c).
    rewrite app_nil_r. destruct Hmin as [Hm|(_ & _ & [])]; [|done]. rewrite Hm. by destruct c.
Qed.

Lemma upper_exact inner params (ts : list LogicalType) (fs : list DataValue) (pf : bytes)
    (max : Bound DataValue) (hi : Bound bytes) (default : bytes) :
  let key := index_prefix (p_table_name params) (im_id (p_index_meta params)) ++ pf in
  inner <> PrimaryKeyIndexImpl -> Forall2 key_value fs ts -> encode_values fs = Ok pf ->
  bound_ok inner ts max -> encode_bound inner params max true = Ok hi -> lex_le key default ->
  below (fill_default_bound hi default) key <-> upper_holds max fs.
Proof.
  intros key Hi Hf Ef Hb E Hd. destruct max as [v|v|]; cbn [encode_bound negb] in E;
    [..|by injection E as <-];
    destruct (fields_encoding_cmp inner fs ts v pf Hf Ef Hb) as (pw & c & Ew & Ec & Hmax & Hmin);
    rewrite (bound_key_secondary _ _ _ _ _ Hi Ew) in E; cbn [rbind] in E; apply Ok_inj in E as <-;
    cbn [fill_default_bound below upper_holds]; rewrite Ec; unfold lex_le, lex_lt, key;
    rewrite lex_cmp_app_l.
  - assert (c <> Gt <-> lex_cmp pf (pw ++ bound_tag inner true) <> Gt) as <-; [|destruct c; naive_solver].
    unfold bound_tag. destruct inner; try (rewrite Hmax; by destruct c).
    rewrite app_nil_r. destruct Hmin as [Hm|(_ & _ & [])]; [by rewrite Hm|done].
  - assert (bound_tag inner false = []) as -> by (by destruct inner). rewrite app_nil_r.
    destruct Hmin as [Hm|(-> & Hm & _)]; rewrite Hm; try destruct c; naive_solver.
Qed.
End ScopeSpec.

Section ScanSpec.
Context {OF : OrderedFloat} {T : Type} `{Transaction T}.
Implicit Types (params : IndexImplParams (T := T)) (inner : IndexImplEnum).

Definition entry_key params (pf : bytes) : bytes :=
  index_prefix (p_table_name params) (im_id (p_index_meta params)) ++ pf.

(** The stored entries of the index whose fields satisfy [P], in key order. *)
Definition selects params (ts : list LogicalType) (P : list DataValue -> Prop) (es : entries) : Prop :=
  StronglySorted lex_lt (map fst es) /\
  forall fs pf v, Forall2 key_value fs ts -> encode_values fs = Ok pf ->
    (entry_key params pf, v) ∈ es <-> lookup_kv (p_tx params) (entry_key params pf) = Some v /\ P fs.

Lemma index_bounds_around params (lower upper pf : bytes) :
  with_index_bound (p_table_name params) (im_id (p_index_meta params)) capture = Ok (lower, upper) ->
  lex_le lower (entry_key params pf) /\ lex_le (entry_key params pf) upper.
Proof.
  intros E. destruct (index_prefix_bounds (p_table_name params) pf (im_id (p_index_meta params)))
    as (lo & hi & _ & _ & B & _ & I & _).
  apply captured in E as [<- <-]. apply captured in B as [<- <-]. exact I.
Qed.


(** An equality on a non-unique or covering index. The iterator that
    [Range::Eq] opens lists exactly the entries whose leading fields compare
    equal to the value. *)
Theorem index_eq_exact inner params (ts : list LogicalType) (w : DataValue) :
  inner <> PrimaryKeyIndexImpl -> inner <> UniqueIndexImpl -> tx_ok (p_tx params) ->
  bound_fields inner ts w ->
  exists es, eq_to_res inner params w = Ok (ScopeOf es) /\
    selects params ts (fun fs => fields_cmp fs w = Some Eq) es.
Proof.
  intros Hi Hu Ht Hw.
  assert (exists pw, encode_values (index_values w) = Ok pw) as [pw Ew].
  { destruct Hw as [Hw _]. destruct (encoded_values_ordered _ _ _ Hw Hw) as (pw & _ & _ & E & _). by exists pw. }
  pose proof (bound_key_secondary inner params w false pw Hi Ew) as E1.
  pose proof (bound_key_secondary inner params w true pw Hi Ew) as E2.
  assert (bound_tag inner false = []) as Et by (by destruct inner). rewrite Et, app_nil_r in E1.
  assert (eq_to_res inner params w = eq_to_res_scope inner params w) as -> by (by destruct inner).
  unfold eq_to_res_scope. rewrite E1, E2. cbn [rbind].
  edestruct (range_spec (p_tx params)) as (es & -> & Hs & Hes); [done| |].
  { cbn [valid_range]. rewrite (assoc_L app). apply lex_le_prefix. }
  exists es. split; [done|]. split; [done|]. intros fs pf v Hf Ef. rewrite Hes. unfold in_range.
  pose proof (lower_exact inner params ts fs pf (Included w)
    (Included (index_prefix (p_table_name params) (im_id (p_index_meta params)) ++ pw)) []) as L.
  pose proof (upper_exact inner params ts fs pf (Included w) (Included
    (index_prefix (p_table_name params) (im_id (p_index_meta params)) ++ pw ++ bound_tag inner true)) (entry_key params pf)) as U.
  assert (lex_le (entry_key params pf) (entry_key params pf)) as Hr by (unfold lex_le; by rewrite lex_cmp_refl).
  cbn [encode_bound fill_default_bound lower_holds upper_holds] in L, U. rewrite E1 in L. rewrite E2 in U.
  unfold entry_key. rewrite (L Hi Hf Ef Hw eq_refl (lex_le_nil _)).
  rewrite (U Hi Hf Ef Hw eq_refl Hr). naive_solver.
Qed.
End ScanSpec.

(** ** A table scan end to end *)

Section TableScan.
Context {T : Type} `{Transaction T}.

Lemma type_bounds_valid (ty : CodecType) (name lower upper : bytes) :
  type_bound ty ty name capture = Ok (lower, upper) -> lex_le lower upper.
Proof.
  intros E. apply captured in E as [<- <-]. unfold lex_le. rewrite lex_cmp_app_l. done.
Qed.

(** C25: a table scan. Opened on a consistent store, the scan lists the rows
    stored under the table (among all keys of the table layout, exactly the row
    keys with the table's hash) in key order. Called until it is done, it
    yields those that the offset and the limit keep, decoded in that order, and
    stops at the first that does not decode. *)
Theorem table_scan_spec (t : T) (table : TableCatalog) (name : bytes) (off : option Z) (lim : option Z)
    (columns : list ColumnSummary) (with_pk : bool) (ds : list TupleValueSerializableImpl) :
  let bounds := {| offset := default 0 off; limit := lim |} in
  tx_ok t -> bounds_ok bounds -> create_deserializers columns table with_pk = Ok ds ->
  exists self es,
    read t (Some table) name (off, lim) columns with_pk = Ok self /\
    StronglySorted lex_lt (map fst es) /\
    (forall ty name' x v, table_type ty = true ->
      let key := write_key_prefix [] ty (hash_bytes name') ++ [BOUND_MIN_TAG] ++ x in
      (key, v) ∈ es <->
      lookup_kv t key = Some v /\ ty = CodecType.Tuple /\ hash_bytes name' = hash_bytes name) /\
    forall fuel, (length es < fuel)%nat ->
      drain fuel ti_next_tuple self = rmap (ti_decode self) (window bounds es).
Proof.
  intros bounds Ht Hb Ed.
  destruct (type_bound CodecType.Tuple CodecType.Tuple name capture) as [[lower upper]|] eqn:E; [|done].
  pose proof (type_bounds_valid _ _ _ _ E) as Hv. pose proof E as E'. apply captured in E' as [El Eu].
  destruct (range_spec t (Included lower) (Included upper) Ht Hv) as (es & Er & Hs & Hes).
  eexists _, es. split; [|split; [done|split]].
  - unfold read. rewrite Ed. cbn [rbind]. unfold with_tuple_bound, type_bound.
    rewrite El, Eu, Er. reflexivity.
  - intros ty name' x v Hty. cbv zeta. rewrite Hes. unfold in_range. cbn [above below].
    rewrite <- El, <- Eu. pose proof (type_range_exact CodecType.Tuple ty name name' x eq_refl Hty) as X.
    unfold in_bounds in X. rewrite X.
    split; [intros (? & <- & ?); split; [done|split; [reflexivity|by symmetry]]
           |intros (? & -> & ?); split; [done|split; [reflexivity|by symmetry]]].
  - intros fuel Hf. rewrite drain_tuple_iter by done. done.
Qed.
End TableScan.

(** ** Covering scans *)

Lemma tuple_mapping_loop_spec (s : nat) (l : list nat) (acc : list Z) :
  NoDup l -> Forall (fun i => i < length acc)%nat l ->
  exists m, tuple_mapping_loop s l acc = Ok m /\ length m = length acc /\
    forall i, m !! i = match list_find (eq i) l with
                       | Some (k, _) => Some (Z.of_nat (s + k))
                       | None => acc !! i
                       end.
Proof.
  revert s acc. induction l as [|j l IH]; intros s acc Hnd Hlt; cbn [tuple_mapping_loop].
  - by exists acc.
  - apply NoDup_cons in Hnd as [Hj Hnd]. apply Forall_cons_1 in Hlt as [Hlj Hlt].
    rewrite (proj2 (Nat.ltb_lt _ _) Hlj).
    destruct (IH (S s) (<[j:=Z.of_nat s]> acc)) as (m & -> & Hlen & Hm); [done| |].
    { by rewrite length_insert. }
    exists m. split; [done|]. split; [by rewrite Hlen, length_insert|].
    intros i. rewrite Hm. cbn [list_find]. destruct (decide (i = j)) as [->|Hne].
    + destruct (list_find (eq j) l) as [[k x]|] eqn:Ef.
      * apply list_find_Some in Ef as (Hk & -> & _). destruct Hj. by eapply list_elem_of_lookup_2.
      * rewrite list_lookup_insert_eq by done. by rewrite Nat.add_0_r.
    + destruct (list_find (eq i) l) as [[k x]|]; simpl.
      * do 2 f_equal. lia.
      * by apply list_lookup_insert_ne.
Qed.

(** The slots a mapping names are the inverse of the indices it was built from. *)
Lemma tuple_mapping_inverse (slots : list nat) (len : nat) :
  NoDup slots -> Forall (fun i => i < len)%nat slots -> Z.of_nat (length slots) < USIZE_MAX ->
  exists m, tuple_mapping_new slots len = Ok m /\ tm_target_len m = length slots /\
    forall i p, scan_index (tuple_mapping_ref m) i = Some p <-> slots !! p = Some i.
Proof.
  intros Hnd Hlt Hlen. unfold tuple_mapping_new.
  destruct (tuple_mapping_loop_spec 0 slots (replicate len USIZE_MAX)) as (m & -> & Hm & Hl); [done| |].
  { by rewrite length_replicate. }
  eexists. split; [reflexivity|]. split; [done|]. intros i p.
  cbn [scan_index tuple_mapping_ref TupleMappingRef index_to_scan]. rewrite Hl.
  destruct (list_find (eq i) slots) as [[k x]|] eqn:Ef.
  - apply list_find_Some in Ef as (Hk & <- & _). apply lookup_lt_Some in Hk as Hk'.
    rewrite (proj2 (Z.eqb_neq _ _)) by lia. rewrite Nat2Z.id. split; [by intros [= <-]|].
    intros Hp. f_equal. by eapply (NoDup_lookup slots).
  - apply list_find_None in Ef. split.
    + destruct (replicate len USIZE_MAX !! i) eqn:Er; [|done].
      apply lookup_replicate in Er as [-> _]. by rewrite Z.eqb_refl.
    + intros Hp. rewrite Forall_forall in Ef. apply list_elem_of_lookup_2 in Hp. by destruct (Ef _ Hp).
Qed.

Section Covered.
Context {OF : OrderedFloat} {T : Type} `{TransactionOps T}.

(** A covering lookup. Looking up an entry of a covering index returns,
    without reading the row, the requested columns: the scan's column [s] is the
    indexed value at [slots[s]] (up to the sign of a float zero), and the
    primary key when it is asked for. *)
Theorem covered_lookup_spec (params : IndexImplParams (T := T)) (vs : list DataValue)
    (tuple_id : DataValue) (pk_ty : LogicalType) (slots : list nat) (m : TupleMapping) (key b : bytes) :
  Forall2 key_value vs (index_types (im_value_ty (p_index_meta params))) ->
  tuple_id_value tuple_id pk_ty -> NoDup slots -> Forall (fun i => i < length vs)%nat slots ->
  Z.of_nat (length slots) < USIZE_MAX ->
  tuple_mapping_new slots (length vs) = Ok m -> p_cover_mapping params = Some m ->
  with_index (p_table_name params)
    (mk_index (im_id (p_index_meta params)) vs (im_ty (p_index_meta params))) (Some tuple_id) capture
    = Ok (key, b) ->
  exists row, index_lookup_into CoveredIndexImpl params (key, b) =
      Ok (mk_tuple (if p_with_pk params then Some tuple_id else None) row) /\
    Forall2 (fun i x => exists v, vs !! i = Some v /\ x = canon v) slots row.
Proof.
  intros Hv Ht Hnd Hlt Hlen Em Hc Ek.
  destruct (tuple_mapping_inverse slots (length vs) Hnd Hlt Hlen) as (m' & Em' & Hlm & Hm).
  rewrite Em in Em'. apply Ok_inj in Em' as <-.
  destruct (tuple_id_encodes tuple_id pk_ty Ht) as (b' & Eb & Db).
  destruct (index_key_decodes (p_table_name params) (im_id (p_index_meta params))
    (im_ty (p_index_meta params)) vs tuple_id (im_value_ty (p_index_meta params)) pk_ty (tuple_mapping_ref m))
    as (key' & b0 & row & Ek' & Ed & Hrl & Hrow & _); [done|done| | |].
  { intros i j p Hi Hj. rewrite Hm in Hi, Hj. congruence. }
  { intros i p _ Hp. apply Hm, lookup_lt_Some in Hp. cbn [target_len tuple_mapping_ref TupleMappingRef]. lia. }
  rewrite Ek in Ek'. apply Ok_inj in Ek' as Ekb. injection Ekb as <- <-.
  exists row. split.
  - cbn [index_lookup_into fst snd]. unfold covered_index_lookup_into. rewrite Hc, Ed. cbn [rbind].
    destruct (p_with_pk params); [|done].
    assert (b = b') as ->; [|by rewrite Db].
    unfold with_index in Ek. rewrite Eb in Ek. apply rbind_ok in Ek as (? & _ & Ek).
    apply rbind_ok in Ek as (? & _ & Ek). cbn [rbind] in Ek. by apply captured in Ek as [_ <-].
  - apply Forall2_same_length_lookup. split.
    { rewrite Hrl. cbn [target_len tuple_mapping_ref TupleMappingRef]. by rewrite Hlm. }
    intros p i x Hi Hx. rewrite Forall_forall in Hlt.
    destruct (lookup_lt_is_Some_2 vs i) as [v Ev]; [apply Hlt; by eapply list_elem_of_lookup_2|].
    exists v. split; [done|]. apply Hm in Hi. specialize (Hrow i p v Ev Hi). congruence.
Qed.
End Covered.

(** ** Unique indexes over several columns *)

Section UniquePrefix.
Context {OF : OrderedFloat} {T : Type} `{Transaction T}.

(** A longer list of fields never has the encoding of its first fields. *)
Lemma longer_encoding_ne (fs ws : list DataValue) (ts : list LogicalType) (p : bytes) :
  Forall2 key_value fs ts -> Forall2 key_value ws (take (length ws) ts) ->
  (length ws < length fs)%nat -> encode_values fs = Ok p -> encode_values ws <> Ok p.
Proof.
  intros Hf Hw Hl Ef Ew. set (m := length ws) in *.
  destruct (encoded_values_ordered _ _ _ (Forall2_take _ _ _ m Hf) Hw) as (p1 & pw & c & E1 & E2 & _ & He).
  rewrite Ew in E2. injection E2 as <-.
  rewrite <- (take_drop m fs), encode_values_app, E1 in Ef. cbn [rbind] in Ef.
  apply rbind_ok in Ef as (p2 & E3 & [= <-]).
  destruct (encode_values_tag _ _ E3) as [_ Hn]. specialize (He p2 []). rewrite app_nil_r, Hn, lex_cmp_refl in He.
  destruct (drop m fs) eqn:Ed; [|by destruct c].
  apply (f_equal length) in Ed. rewrite length_drop in Ed. simpl in Ed. lia.
Qed.

(** An equality on the first column of a unique index over several columns
    never finds anything. The optimizer builds such a lookup ([Unique] is
    handled with the single-column indexes), the key it reads has the encoding
    of one value, and every stored entry has the encoding of all of them. *)
Theorem unique_prefix_lookup_misses (params : IndexImplParams (T := T)) (v : DataValue)
    (t1 t2 : LogicalType) (ts : list LogicalType) :
  tx_ok (p_tx params) -> index_values v = [v] -> key_value v t1 ->
  (forall k x, lookup_kv (p_tx params) (entry_key params k) = Some x ->
    exists fs, Forall2 key_value fs (t1 :: t2 :: ts) /\ encode_values fs = Ok k) ->
  eq_to_res UniqueIndexImpl params v = Ok Miss.
Proof.
  intros Ht Hv Kv Hst. cbn [eq_to_res]. unfold unique_eq_to_res. rewrite Hv.
  assert (Forall2 key_value [v] [t1]) as Hw by (by constructor).
  destruct (encoded_values_ordered _ _ _ Hw Hw) as (pw & _ & _ & Ew & _).
  unfold with_index. cbn [idx_values idx_id idx_ty]. rewrite Ew. cbn [rbind].
  rewrite get_spec by done.
  destruct (lookup_kv (p_tx params) _) as [x|] eqn:El; [|done]. exfalso.
  destruct (Hst pw x) as (fs & Hf & Ef).
  { unfold entry_key, index_prefix. by rewrite <- !(assoc_L app) in *. }
  apply (longer_encoding_ne fs [v] (t1 :: t2 :: ts) pw Hf); [done| |done|done].
  apply Forall2_length in Hf. simpl in *. lia.
Qed.
End UniquePrefix.

(** * Witnesses: table [t] with two rows and an index on its [int] column *)


Definition put_entry (m : BTreeMap) (vs : list DataValue) (id : DataValue) (ty : IndexType) : BTreeMap :=
  match with_index [116] (mk_index 3 vs ty) (Some id) capture with
  | Ok (k, v) => bt_insert m k v
  | Err _ => m
  end.

Definition put_row (m : BTreeMap) (id : DataValue) (vs : list DataValue) : BTreeMap :=
  match append_tuple m [116] (mk_tuple (Some id) vs) [Impl.Int64; Impl.Int32] true with
  | Ok m => m
  | Err _ => m
  end.

Definition scan_store : BTreeMap :=
  Eval vm_compute in
  put_row (put_row (put_entry (put_entry [] [DataValue.Int32 5] (DataValue.Int64 1) Normal)
      [DataValue.Int32 7] (DataValue.Int64 2) Normal)
    (DataValue.Int64 1) [DataValue.Int64 1; DataValue.Int32 5])
    (DataValue.Int64 2) [DataValue.Int64 2; DataValue.Int32 7].

Definition scan_column (n : Z) : ColumnSummary :=
  {| cs_name := [99; n]; cs_relation := TableRelation n [116] false |}.

Definition scan_table : TableCatalog :=
  let pk := mk_column (scan_column 1) false (mk_desc LogicalType.Bigint (Some 0%nat) false None) false in
  mk_table [116] ∅ ∅ [pk; mk_column (scan_column 2) true (mk_desc LogicalType.Integer None false None) false] []
    [(0%nat, pk)] [0%nat] LogicalType.Bigint.

Definition scan_params (store : BTreeMap) (ty : IndexType) (value_ty : LogicalType)
    (cover : option TupleMapping) : IndexImplParams :=
  {| p_index_meta := mk_index_meta 3 [2] [116] LogicalType.Bigint value_ty [105] ty;
     p_table_name := [116]; p_deserializers := [Impl.Int64; Impl.Int32]; p_total_len := 2;
     p_tx := store; p_cover_mapping := cover; p_with_pk := true |}.

Lemma scan_store_ok : tx_ok scan_store.
Proof.
  repeat (apply SSorted_cons; [|repeat (apply Forall_cons_2; [reflexivity|]); apply Forall_nil_2]).
  apply SSorted_nil.
Defined.

Example scan_store_rows :
  match read scan_store (Some scan_table) [116] (Some 1, None) [scan_column 2] true with
  | Ok self => drain 5 ti_next_tuple self
  | Err e => Err e
  end = Ok [mk_tuple (Some (DataValue.Int64 2)) [DataValue.Int64 2; DataValue.Int32 7]].
Proof. vm_compute. reflexivity. Qed.

Lemma create_deserializers_spec_witness :
  exists n, create_deserializers [scan_column 2] scan_table true =
    rmap (deserializer_of [scan_column 2] true) (take n (tc_columns scan_table)) /\
    Forall (fun c => ~ wanted [scan_column 2] true c) (drop n (tc_columns scan_table)).
Proof.
  apply (create_deserializers_spec [scan_column 2] scan_table true).
  - apply (bool_decide_unpack _). vm_compute. exact I.
  - apply sublist_cons, sublist_skip, sublist_nil.
  - reflexivity.
Defined.

Lemma table_scan_spec_witness :
  exists self es, read scan_store (Some scan_table) [116] (Some 1, None) [scan_column 2] true = Ok self /\
    StronglySorted lex_lt (map fst es) /\
    forall fuel, (length es < fuel)%nat ->
      drain fuel ti_next_tuple self = rmap (ti_decode self) (window {| offset := 1; limit := None |} es).
Proof.
  destruct (table_scan_spec scan_store scan_table [116] (Some 1) None [scan_column 2] true
    [Impl.Int64; Impl.Int32] scan_store_ok) as (self & es & E & S & _ & D).
  - split; [simpl; lia|exact I].
  - reflexivity.
  - exists self, es. split; [exact E|]. split; [exact S|exact D].
Defined.

Definition normal_params : IndexImplParams := scan_params scan_store Normal LogicalType.Integer None.

Definition scan_entries (w : DataValue) : entries :=
  match eq_to_res NormalIndexImpl normal_params w with Ok (ScopeOf es) => es | _ => [] end.

(** Three ranges over a non-unique index, and a list of keys of which the second
    does not exist. *)
Lemma index_scan_spec_witness :
  let iter params inner ranges :=
    {| ii_bounds := {| offset := 0; limit := Some 5 |}; ii_params := params; ii_inner := inner;
       ii_ranges := ranges_of ranges; ii_state := Init |} in
  let row k x := mk_tuple (Some (DataValue.Int64 k)) [DataValue.Int64 k; DataValue.Int32 x] in
  drain 5 ii_next_tuple (iter normal_params NormalIndexImpl
    [Range.Eq (DataValue.Int32 7); Range.Dummy; Range.Eq (DataValue.Int32 5)]) = Ok [row 2 7; row 1 5] /\
  drain 5 ii_next_tuple (iter (scan_params scan_store (PrimaryKey false) LogicalType.Bigint None) PrimaryKeyIndexImpl
    [Range.Eq (DataValue.Int64 2); Range.Eq (DataValue.Int64 0); Range.Eq (DataValue.Int64 1)]) = Ok [row 2 7].
Proof.
  intros iter row. unfold iter. split.
  - etransitivity; [apply (index_scan_spec 5 {| offset := 0; limit := Some 5 |} normal_params NormalIndexImpl
        [Range.Eq (DataValue.Int32 7); Range.Dummy; Range.Eq (DataValue.Int32 5)]);
      [split; simpl; lia|vm_compute; lia]|]. vm_compute. reflexivity.
  - etransitivity; [apply (index_scan_spec 5 {| offset := 0; limit := Some 5 |}
      (scan_params scan_store (PrimaryKey false) LogicalType.Bigint None) PrimaryKeyIndexImpl
        [Range.Eq (DataValue.Int64 2); Range.Eq (DataValue.Int64 0); Range.Eq (DataValue.Int64 1)]);
      [split; simpl; lia|vm_compute; lia]|]. vm_compute. reflexivity.
Defined.

Lemma index_scan_stops_at_miss_witness :
  drain 9 ii_next_tuple
    {| ii_bounds := {| offset := 0; limit := None |};
       ii_params := scan_params scan_store (PrimaryKey false) LogicalType.Bigint None;
       ii_inner := PrimaryKeyIndexImpl;
       ii_ranges := ranges_of [Range.Eq (DataValue.Int64 0); Range.Eq (DataValue.Int64 2)];
       ii_state := Init |} = Ok [].
Proof.
  apply (index_scan_stops_at_miss 8 {| offset := 0; limit := None |}
    (scan_params scan_store (PrimaryKey false) LogicalType.Bigint None) PrimaryKeyIndexImpl
    (DataValue.Int64 0) [Range.Eq (DataValue.Int64 2)]); [vm_compute; reflexivity|reflexivity].
Defined.

(** The row the lost range selects is there. *)
Example row_of_the_later_range :
  eq_to_res PrimaryKeyIndexImpl (scan_params scan_store (PrimaryKey false) LogicalType.Bigint None)
    (DataValue.Int64 2) =
  Ok (Hit (mk_tuple (Some (DataValue.Int64 2)) [DataValue.Int64 2; DataValue.Int32 7])).
Proof. vm_compute. reflexivity. Qed.

Lemma int_bound (n : Z) (ts : list LogicalType) :
  in_s 32 n -> bound_fields NormalIndexImpl (LogicalType.Integer :: ts) (DataValue.Int32 n).
Proof. intros Hn. split; [|done]. apply Forall2_cons_2; [|apply Forall2_nil_2]. by split. Qed.

Lemma index_eq_exact_witness :
  exists es, eq_to_res NormalIndexImpl normal_params (DataValue.Int32 7) = Ok (ScopeOf es) /\
    selects normal_params [LogicalType.Integer; LogicalType.Bigint]
      (fun fs => fields_cmp fs (DataValue.Int32 7) = Some Eq) es.
Proof.
  apply (index_eq_exact NormalIndexImpl normal_params [LogicalType.Integer; LogicalType.Bigint]
    (DataValue.Int32 7)); [discriminate|discriminate|apply scan_store_ok|].
  apply int_bound. unfold in_s. lia.
Defined.


Definition unique_store : BTreeMap :=
  Eval vm_compute in put_entry [] [DataValue.Int32 5; DataValue.Int32 6] (DataValue.Int64 1) Unique.

Definition unique_params : IndexImplParams :=
  scan_params unique_store Unique (LogicalType.Tuple [LogicalType.Integer; LogicalType.Integer]) None.

Lemma unique_prefix_lookup_misses_witness :
  eq_to_res UniqueIndexImpl unique_params (DataValue.Int32 5) = Ok Miss.
Proof.
  apply (unique_prefix_lookup_misses unique_params (DataValue.Int32 5) LogicalType.Integer
    LogicalType.Integer []).
  - apply SSorted_cons; [apply SSorted_nil|apply Forall_nil_2].
  - reflexivity.
  - split; [unfold dv_ok, in_s; lia|split; exact I].
  - intros k x E. exists [DataValue.Int32 5; DataValue.Int32 6]. split.
    + repeat (apply Forall2_cons_2; [split; [unfold dv_ok, in_s; lia|split; exact I]|]). apply Forall2_nil_2.
    + assert (entry_key unique_params k = fst (hd ([], []) unique_store)) as Hk.
      { cbn [lookup_kv memory_transaction p_tx unique_params scan_params unique_store bt_get] in E.
        destruct (lex_cmp _ _) eqn:El in E; try discriminate E. apply lex_cmp_eq in El. by symmetry. }
      assert (k = drop 15 (fst (hd ([], []) unique_store))) as ->; [|vm_compute; reflexivity].
      apply (app_inv_head (index_prefix [116] 3)). change (index_prefix [116] 3 ++ k) with (entry_key unique_params k).
      rewrite Hk. vm_compute. reflexivity.
Defined.

Lemma covered_lookup_spec_witness :
  exists key b row, with_index [116] (mk_index 3 [DataValue.Int32 5; DataValue.Int32 6] Unique)
      (Some (DataValue.Int64 1)) capture = Ok (key, b) /\
    index_lookup_into CoveredIndexImpl
      (scan_params unique_store Unique (LogicalType.Tuple [LogicalType.Integer; LogicalType.Integer])
        (Some {| index_to_scan := [1; 0]; tm_target_len := 2 |})) (key, b) =
      Ok (mk_tuple (Some (DataValue.Int64 1)) row) /\
    Forall2 (fun i x => exists v, [DataValue.Int32 5; DataValue.Int32 6] !! i = Some v /\ x = canon v)
      [1%nat; 0%nat] row.
Proof.
  eexists _, _.
  edestruct (covered_lookup_spec
    (scan_params unique_store Unique (LogicalType.Tuple [LogicalType.Integer; LogicalType.Integer])
        (Some {| index_to_scan := [1; 0]; tm_target_len := 2 |}))
    [DataValue.Int32 5; DataValue.Int32 6] (DataValue.Int64 1) LogicalType.Bigint [1%nat; 0%nat])
    as (row & E & H).
  - repeat (apply Forall2_cons_2; [split; [unfold dv_ok, in_s; lia|split; exact I]|]). apply Forall2_nil_2.
  - repeat constructor; unfold in_s; simpl; lia.
  - apply (bool_decide_unpack _). vm_compute. exact I.
  - repeat constructor.
  - unfold USIZE_MAX. simpl. lia.
  - reflexivity.
  - reflexivity.
  - vm_compute. reflexivity.
  - exists row. split; [vm_compute; reflexivity|]. split; [exact E|exact H].
Defined.
