(* ===== verification/CompositeRanges.v ===== *)
(** Ranges on several columns of an index: [Range::combining_eqs]
    (src/src/expression/range_detacher.rs) turns equalities on the leading
    columns and a range on the next one into ranges of tuples, which the index
    scan compares with the leading fields of its entries. *)

From S2P Require Import Prelude MachineInt Types Reader Value MemComparable Serdes Ranges IndexScan.
From stdpp Require Import base list numbers option.
From Stdlib Require Import ZArith Lia.
Local Open Scope Z_scope.

Lemma Range_nested_ind (P : Range -> Prop) :
  (forall min max, P (Range.Scope min max)) -> (forall v, P (Range.Eq v)) -> P Range.Dummy ->
  (forall rs, Forall P rs -> P (Range.SortedRanges rs)) -> forall range, P range.
Proof.
  intros H1 H2 H3 H4. fix IH 1. intros [min max|v| |rs]; [apply H1|apply H2|apply H3|]. apply H4.
  induction rs as [|r rs IHl]; constructor; [apply IH|exact IHl].
Qed.

Section Composite.
Context {OF : OrderedFloat}.

(** The entries a range selects, by their fields ([index_scope_exact],
    [index_eq_exact]). *)
Fixpoint fields_sat (range : Range) (fs : list DataValue) : Prop :=
  match range with
  | Range.Scope min max => lower_holds min fs /\ upper_holds max fs
  | Range.Eq v => fields_cmp fs v = Some Eq
  | Range.Dummy => False
  | Range.SortedRanges rs =>
      (fix any (rs : list Range) : Prop :=
         match rs with [] => False | r :: rs' => fields_sat r fs \/ any rs' end) rs
  end.

Definition any_fields (rs : list Range) (fs : list DataValue) : Prop := Exists (fun r => fields_sat r fs) rs.

Lemma fields_sat_sorted (rs : list Range) (fs : list DataValue) :
  fields_sat (Range.SortedRanges rs) fs <-> any_fields rs fs.
Proof.
  unfold any_fields. cbn [fields_sat]. induction rs as [|r rs IH].
  - by rewrite Exists_nil.
  - by rewrite Exists_cons, IH.
Qed.

Lemma ranges2range_fields (rs : list Range) (fs : list DataValue) :
  fields_sat (ranges2range rs) fs <-> any_fields rs fs.
Proof.
  destruct rs as [|r [|r' rs]]; cbn [ranges2range].
  - unfold any_fields. by rewrite Exists_nil.
  - unfold any_fields. rewrite Exists_cons, Exists_nil. naive_solver.
  - apply fields_sat_sorted.
Qed.

(** * Comparing a prefix and one more field *)

Lemma tuple_cmp_snoc (ps cs : list DataValue) (x v : DataValue) :
  length ps = length cs ->
  tuple_partial_cmp (ps ++ [x]) (cs ++ [v]) false false =
  match tuple_partial_cmp ps cs false false with
  | Some Eq =>
      match tuple_element_partial_cmp x v with
      | Some Eq => Some Eq
      | o => o
      end
  | o => o
  end.
Proof.
  unfold tuple_partial_cmp. revert cs. induction ps as [|p ps IH]; intros [|c cs] Hl; simpl in Hl; try lia.
  - simpl. by destruct (tuple_element_partial_cmp x v) as [[]|].
  - simpl. destruct (tuple_element_partial_cmp p c) as [[]|]; try done. apply IH. lia.
Qed.

Lemma tuple_cmp_eq (ps cs : list DataValue) :
  length ps = length cs ->
  tuple_partial_cmp ps cs false false = Some Eq <->
  Forall2 (fun p c => tuple_element_partial_cmp p c = Some Eq) ps cs.
Proof.
  unfold tuple_partial_cmp. revert cs. induction ps as [|p ps IH]; intros [|c cs] Hl; simpl in Hl; try lia.
  - by split.
  - simpl. rewrite list.Forall2_cons. specialize (IH cs ltac:(lia)).
    destruct (tuple_element_partial_cmp p c) as [[]|]; intuition discriminate.
Qed.

(** * One combination *)

Section Combination.
Context (fs cs : list DataValue) (x : DataValue) (o : comparison).
Context (Hx : fs !! length cs = Some x).
Context (Ho : tuple_partial_cmp (take (length cs) fs) cs false false = Some o).

Lemma prefix_length : length (take (length cs) fs) = length cs.
Proof. apply lookup_lt_Some in Hx. rewrite length_take. lia. Qed.

Lemma fields_cmp_prefix : fields_cmp fs (DataValue.Tuple cs) = Some o.
Proof. exact Ho. Qed.

Lemma fields_cmp_next (v : DataValue) (c : comparison) :
  tuple_element_partial_cmp x v = Some c -> fields_cmp fs (merge_value cs v) = Some (cmp_then o c).
Proof.
  intros Hc. unfold fields_cmp, merge_value. cbn [index_values]. rewrite length_app. cbn [length].
  rewrite Nat.add_1_r, (take_S_r _ _ x Hx), tuple_cmp_snoc by apply prefix_length.
  rewrite Ho, Hc. by destruct o, c.
Qed.

(** The range of the next column, at [x]. *)
Definition comparable (b : Bound DataValue) : Prop :=
  match b with
  | Included v | Excluded v => (forall vs, v <> DataValue.Tuple vs) /\ exists c, tuple_element_partial_cmp x v = Some c
  | Unbounded => True
  end.

Lemma value_cmp_element (v : DataValue) :
  (forall vs, v <> DataValue.Tuple vs) -> value_cmp x v = tuple_element_partial_cmp x v.
Proof.
  intros Hv. unfold value_cmp, range_value_cmp, tuple_element_partial_cmp, partial_cmp_with_bounds.
  destruct x; try done; destruct v; done.
Qed.

Lemma unbounded_combines :
  merge_value_on_bound cs Unbounded = Unbounded /\ o = Eq \/
  merge_value_on_bound cs Unbounded = Included (DataValue.Tuple cs).
Proof.
  pose proof Ho as Hp. destruct cs as [|c rest]; [|by right]. left. split; [done|].
  change (take (length []) fs) with (@nil DataValue) in Hp. by injection Hp as <-.
Qed.

Lemma lower_combines (b : Bound DataValue) :
  comparable b ->
  lower_holds (merge_value_on_bound cs b) fs <-> o = Gt \/ o = Eq /\ above_bound b x.
Proof.
  destruct b as [v|v|]; cbn [merge_value_on_bound lower_holds above_bound comparable].
  - intros [Hs [c Hc]]. rewrite value_cmp_element, (fields_cmp_next v c Hc), Hc by done.
    destruct o, c; cbn [cmp_then]; intuition (discriminate || auto).
  - intros [Hs [c Hc]]. rewrite value_cmp_element, (fields_cmp_next v c Hc), Hc by done.
    destruct o, c; cbn [cmp_then]; intuition (discriminate || auto).
  - intros _. destruct unbounded_combines as [[E Eo]|E]; cbn [merge_value_on_bound] in E.
    + rewrite E, Eo. cbn [lower_holds]. tauto.
    + rewrite E. cbn [lower_holds]. rewrite fields_cmp_prefix. destruct o; intuition (discriminate || auto).
Qed.

Lemma upper_combines (b : Bound DataValue) :
  comparable b ->
  upper_holds (merge_value_on_bound cs b) fs <-> o = Lt \/ o = Eq /\ below_bound b x.
Proof.
  destruct b as [v|v|]; cbn [merge_value_on_bound upper_holds below_bound comparable].
  - intros [Hs [c Hc]]. rewrite value_cmp_element, (fields_cmp_next v c Hc), Hc by done.
    destruct o, c; cbn [cmp_then]; intuition (discriminate || auto).
  - intros [Hs [c Hc]]. rewrite value_cmp_element, (fields_cmp_next v c Hc), Hc by done.
    destruct o, c; cbn [cmp_then]; intuition (discriminate || auto).
  - intros _. destruct unbounded_combines as [[E Eo]|E]; cbn [merge_value_on_bound] in E.
    + rewrite E, Eo. cbn [upper_holds]. tauto.
    + rewrite E. cbn [upper_holds]. rewrite fields_cmp_prefix. destruct o; intuition (discriminate || auto).
Qed.

(** A range of the next column all of whose values compare with [x]. *)
Fixpoint range_comparable (range : Range) : Prop :=
  match range with
  | Range.Scope min max => comparable min /\ comparable max
  | Range.Eq v => comparable (Included v)
  | Range.Dummy => True
  | Range.SortedRanges rs => all_of range_comparable rs
  end.

Lemma collect_fields (range : Range) :
  range_comparable range -> any_fields (collect_tuple_range cs range) fs <-> o = Eq /\ range_sat range x.
Proof.
  unfold any_fields. induction range as [min max|v| |rs IH] using Range_nested_ind; intros Hc;
    cbn [collect_tuple_range range_comparable range_sat] in *.
  - rewrite Exists_cons, Exists_nil. cbn [fields_sat]. destruct Hc as [H1 H2].
    rewrite lower_combines, upper_combines by done. intuition congruence.
  - rewrite Exists_cons, Exists_nil. cbn [fields_sat]. destruct Hc as [Hs [c Hc]].
    rewrite (fields_cmp_next v c Hc), value_cmp_element, Hc by done.
    destruct o, c; cbn [cmp_then]; intuition (discriminate || auto).
  - rewrite Exists_cons, Exists_nil. cbn [fields_sat]. tauto.
  - induction IH as [|r rs Hr _ IHl]; cbn [map concat].
    + rewrite Exists_nil. tauto.
    + destruct Hc as [H1 H2]. rewrite Exists_app, (Hr H1), (IHl H2). tauto.
Qed.
End Combination.

(** * All combinations *)

Lemma elem_of_concat_ {A : Type} (x : A) (ls : list (list A)) :
  x ∈ concat ls <-> exists l, l ∈ ls /\ x ∈ l.
Proof.
  induction ls as [|l ls IH]; cbn [concat].
  - split; [by intros ?%not_elem_of_nil|by intros (? & ?%not_elem_of_nil & _)].
  - rewrite elem_of_app, IH. setoid_rewrite elem_of_cons. naive_solver.
Qed.

Lemma elem_of_product (choices : list (list DataValue)) (cs : list DataValue) :
  cs ∈ product choices <-> Forall2 (fun v c => v ∈ c) cs choices.
Proof.
  revert cs. induction choices as [|c choices IH]; intros cs; cbn [product].
  - rewrite list_elem_of_singleton. split; [by intros ->|by inversion 1].
  - rewrite elem_of_concat_. setoid_rewrite list_elem_of_fmap. split.
    + intros (l & (v & -> & Hv) & Hcs). apply list_elem_of_fmap in Hcs as (cs' & -> & Hcs').
      apply IH in Hcs'. by constructor.
    + inversion 1 as [|v ? cs' ? Hv Hcs]; subst. exists (map (cons v) (product choices)). split.
      * by exists v.
      * apply list_elem_of_fmap. exists cs'. split; [done|]. by apply IH.
Qed.

Definition comparable_with (p v : DataValue) : Prop := exists o, tuple_element_partial_cmp p v = Some o.

Lemma tuple_cmp_total (ps cs : list DataValue) :
  Forall2 comparable_with ps cs -> exists o, tuple_partial_cmp ps cs false false = Some o.
Proof.
  unfold tuple_partial_cmp. induction 1 as [|p c ps cs [o E] _ IH]; [by exists Eq|].
  simpl. rewrite E. destruct o; [done|by eexists|by eexists].
Qed.

Lemma prefix_choices (ps : list DataValue) (choices : list (list DataValue)) :
  Forall2 (fun f c => Exists (fun v => tuple_element_partial_cmp f v = Some Eq) c) ps choices <->
  exists cs, cs ∈ product choices /\ Forall2 (fun p c => tuple_element_partial_cmp p c = Some Eq) ps cs.
Proof.
  setoid_rewrite elem_of_product. split.
  - induction 1 as [|p c ps choices Hex _ (cs & H1 & H2)]; [by exists []|].
    apply list.Exists_exists in Hex as (v & Hv & E). exists (v :: cs).
    split; by apply list.Forall2_cons.
  - intros (cs & H1 & H2). revert choices H1.
    induction H2 as [|p v ps cs E _ IH]; intros choices H1; inversion H1; subst; constructor; [|by apply IH].
    apply list.Exists_exists. by exists v.
Qed.

(** C31: combining equalities on the leading columns with a range on the next.
    The combined range selects exactly the entries whose leading fields each
    equal one of the values chosen for their column and whose next field is in
    the range, for every combination of the values. *)
Theorem combining_eqs_exact (self : Range) (eqs : list Range) (choices : list (list DataValue))
    (fs : list DataValue) (x : DataValue) :
  mapM eq_item eqs = Some choices -> Forall (fun c => c <> []) choices ->
  fs !! length eqs = Some x -> range_comparable x self ->
  Forall2 (fun f c => Forall (comparable_with f) c) (take (length eqs) fs) choices ->
  exists m, combining_eqs self eqs = Some m /\
    (fields_sat m fs <->
     Forall2 (fun f c => Exists (fun v => tuple_element_partial_cmp f v = Some Eq) c)
       (take (length eqs) fs) choices /\ range_sat self x).
Proof.
  intros Em Hne Hx Hself Hcmp. set (ps := take (length eqs) fs) in *.
  destruct (build_tree_product eqs choices Em Hne) as (children & Eb & _ & Hen).
  unfold combining_eqs. rewrite Eb, Hen. eexists. split; [reflexivity|]. rewrite ranges2range_fields.
  assert (length choices = length eqs) as Hlen by (symmetry; by eapply length_mapM).
  assert (forall cs, cs ∈ product choices ->
    any_fields (collect_tuple_range cs self) fs <->
    Forall2 (fun p c => tuple_element_partial_cmp p c = Some Eq) ps cs /\ range_sat self x) as Hone.
  { intros cs Hcs. apply elem_of_product in Hcs. pose proof (list.Forall2_length _ _ _ Hcs) as Hl.
    assert (Forall2 comparable_with ps cs) as Hpc.
    { apply Forall2_same_length_lookup. split; [apply list.Forall2_length in Hcmp; lia|].
      intros i p v Hp Hv. destruct (Forall2_lookup_l _ _ _ i v Hcs Hv) as (c & Hc & Hvc).
      pose proof (Forall2_lookup_lr _ _ _ i p c Hcmp Hp Hc) as Hall. cbn in Hall.
      rewrite list.Forall_forall in Hall. by apply Hall. }
    destruct (tuple_cmp_total ps cs Hpc) as [o Ho].
    rewrite <- tuple_cmp_eq by (by eapply list.Forall2_length). rewrite Ho.
    assert (length cs = length eqs) as Hlc by lia. unfold ps in Ho. rewrite <- Hlc in Ho, Hx.
    rewrite (collect_fields fs cs x o Hx Ho self Hself). intuition congruence. }
  transitivity (exists cs, cs ∈ product choices /\
    Forall2 (fun p c => tuple_element_partial_cmp p c = Some Eq) ps cs /\ range_sat self x).
  - unfold any_fields. rewrite List.Exists_concat, list.Exists_exists. split.
    + intros (l & Hl & He). apply list_elem_of_fmap in Hl as (p & -> & Hp).
      apply list_elem_of_fmap in Hp as (cs & -> & Hcs). exists cs. split; [done|]. by apply Hone.
    + intros (cs & Hcs & Hsat). eexists. split; [|by apply (Hone cs Hcs)].
      apply list_elem_of_fmap. exists cs. split; [done|]. apply list_elem_of_fmap. by exists cs.
  - rewrite prefix_choices. naive_solver.
Qed.
End Composite.

(** [c1 = 1 AND (c2 = 2 OR c2 = 3) AND c3 > 5], at the entry [(1, 3, 7)]. *)
Lemma combining_eqs_exact_witness :
  exists m, combining_eqs (Range.Scope (Excluded (DataValue.Int32 5)) Unbounded)
      [Range.Eq (DataValue.Int32 1);
       Range.SortedRanges [Range.Eq (DataValue.Int32 2); Range.Eq (DataValue.Int32 3)]] = Some m /\
    fields_sat m [DataValue.Int32 1; DataValue.Int32 3; DataValue.Int32 7].
Proof.
  destruct (combining_eqs_exact (Range.Scope (Excluded (DataValue.Int32 5)) Unbounded)
    [Range.Eq (DataValue.Int32 1);
     Range.SortedRanges [Range.Eq (DataValue.Int32 2); Range.Eq (DataValue.Int32 3)]]
    [[DataValue.Int32 1]; [DataValue.Int32 2; DataValue.Int32 3]]
    [DataValue.Int32 1; DataValue.Int32 3; DataValue.Int32 7] (DataValue.Int32 7)) as (m & E & S).
  - reflexivity.
  - repeat (apply Forall_cons_2; [discriminate|]). apply Forall_nil_2.
  - reflexivity.
  - split; [|exact I]. split; [discriminate|]. exists Gt. reflexivity.
  - repeat (apply Forall2_cons_2; [repeat (apply Forall_cons_2; [eexists; reflexivity|]); apply Forall_nil_2|]).
    apply Forall2_nil_2.
  - exists m. split; [exact E|]. apply S. split.
    + apply Forall2_cons_2; [left; reflexivity|]. apply Forall2_cons_2; [right; left; reflexivity|].
      apply Forall2_nil_2.
    + split; [reflexivity|exact I].
Defined.
