(* ===== verification/Dml.v ===== *)
(** INSERT, UPDATE and DELETE (src/src/execution/dml): the executor nodes that
    write rows and keep the entries of every index with them.

    A node is polled once: it reads its whole input, writes, and produces the
    number of rows as text. The input is its [Stream]. The catalog of the
    table is what the table cache has for the name. [expression] is the arena
    of default expressions, and [result] below is the tuple the arena holds,
    in which [ExecArena::rewrite] leaves the values of an index. *)

From S2P Require Import Prelude MachineInt Types Operators Reader Value Chrono Text MemComparable Evaluators Casts Expr.
From S2P Require Import Serdes TableCodec Row Collections Exec Transaction Memory Storage Catalog.
From stdpp Require Import base tactics list numbers option gmap fin_maps sorting.
From Stdlib Require Import ZArith Lia.
Local Open Scope Z_scope.

Section Nodes.
Context {T : Type} `{TransactionOps T}.
Context {OF : OrderedFloat} {CH : Chrono} {SF : ScalarFunctions}.
Context (expression : ExprRef -> ScalarExpression).

(** [TupleBuilder::build_result]. *)
Definition build_result (message : list Z) : Tuple :=
  mk_tuple None [DataValue.Utf8 message (Variable_ None) Characters].

Definition default_value (self : ColumnCatalog) : res (option DataValue) :=
  match default_expr (cc_desc self) with
  | None => Ok None
  | Some expr => let? v := eval (expression expr) None in Ok (Some v)
  end.

(** [arena.rewrite(exprs, plan_arena, Some(&tuple))?]. *)
Definition rewrite_index (exprs : list ScalarExpression) (result tuple : Tuple) : res Tuple :=
  rewrite_tuple exprs result (Some (values tuple)).

(** ** Insert *)

Inductive MappingKey :=
| Name (name : list Z)
| Id (id : option Z).

#[global] Instance MappingKey_eq_dec : EqDecision MappingKey.
Proof. solve_decision. Defined.
#[global] Instance mapping_key_eq : KeyEq MappingKey := fun a b => bool_decide (a = b).

Definition column_key (column : ColumnCatalog) (is_mapping_by_name : bool) : MappingKey :=
  if is_mapping_by_name then Name (column_name column) else Id (column_id column).

Definition remove_key (m : HashMap MappingKey DataValue) (k : MappingKey)
    : option DataValue * HashMap MappingKey DataValue :=
  (HashMap.get m k, List.filter (fun e => negb (key_eq k e.1)) m).

(** The values of an input row by column; [self.input_schema[i]] panics. *)
Fixpoint tuple_map (by_name : bool) (schema : list ColumnCatalog) (vs : list DataValue)
    (m : HashMap MappingKey DataValue) : res (HashMap MappingKey DataValue) :=
  match vs, schema with
  | [], _ => Ok m
  | value :: vs', column :: schema' =>
      tuple_map by_name schema' vs' (HashMap.insert m (column_key column by_name) value)
  | _ :: _, [] => Err Panic
  end.

(** One column of the row to insert. *)
Definition insert_value (column : ColumnCatalog) (value : option DataValue) : res DataValue :=
  let? value := match value with Some v => Ok (Some v) | None => default_value column end in
  let? value := cast (default DataValue.Null value) (cc_datatype column) in
  let? _ := check_len value (cc_datatype column) in
  if is_null value && negb (cc_nullable column) then Err NotNull else Ok value.

Fixpoint insert_values (by_name : bool) (columns : list ColumnCatalog) (m : HashMap MappingKey DataValue)
    : res (list DataValue) :=
  match columns with
  | [] => Ok []
  | column :: columns' =>
      let '(value, m) := remove_key m (column_key column by_name) in
      let? value := insert_value column value in
      let? vs := insert_values by_name columns' m in
      Ok (value :: vs)
  end.

(** The loop over the indexes of a new row. *)
Fixpoint add_indexes (t : T) (table_name : bytes) (tuple : Tuple) (result : Tuple)
    (metas : list (IndexMeta * list ScalarExpression)) : res T :=
  match metas with
  | [] => Ok t
  | (index_meta, exprs) :: metas' =>
      match pk tuple with
      | None => Err PrimaryKeyNotFound
      | Some tuple_id =>
          let? result := rewrite_index exprs result tuple in
          let index := mk_index (im_id index_meta) (values result) (im_ty index_meta) in
          let? t := add_index t table_name index tuple_id in
          add_indexes t table_name tuple result metas'
      end
  end.

(** One row of the input. *)
Definition insert_row (t : T) (table_name : bytes) (snapshot : DmlTableSnapshot)
    (serializers : list TupleValueSerializableImpl) (schema : list ColumnCatalog) (is_overwrite by_name : bool)
    (row : Tuple) : res T :=
  let? m := tuple_map by_name schema (values row) [] in
  let? vs := insert_values by_name (snap_columns snapshot) m in
  let? id := primary_projection (snap_primary_key_indices snapshot) vs in
  let tuple := mk_tuple (Some id) vs in
  let? t := add_indexes t table_name tuple (mk_tuple None []) (index_metas snapshot) in
  append_tuple t table_name tuple serializers is_overwrite.

Fixpoint insert_loop (t : T) (table_name : bytes) (snapshot : DmlTableSnapshot)
    (serializers : list TupleValueSerializableImpl) (schema : list ColumnCatalog) (is_overwrite by_name : bool)
    (ts : list Tuple) (fail : option DatabaseError) (inserted_count : Z) : res (T * Z) :=
  match ts with
  | [] => match fail with Some e => Err e | None => Ok (t, inserted_count) end
  | row :: ts' =>
      let? t := insert_row t table_name snapshot serializers schema is_overwrite by_name row in
      insert_loop t table_name snapshot serializers schema is_overwrite by_name ts' fail (inserted_count + 1)
  end.

Record Insert := mk_insert {
  insert_table : bytes; insert_schema : list ColumnCatalog; insert_input : option Stream;
  insert_overwrite : bool; insert_by_name : bool;
}.

Definition serializers_of (columns : list ColumnCatalog) : res (list TupleValueSerializableImpl) :=
  rmap (fun column => serializable (cc_datatype column)) columns.

(** The poll of a writing node: the row it produces, and the states after it. *)
Definition write_poll (S : Type) : Type := res (option Tuple * S * T).

Definition insert_next (table : option TableCatalog) (self : Insert) (t : T) : write_poll Insert :=
  match insert_input self with
  | None => Ok (None, self, t)
  | Some input =>
      let done := mk_insert (insert_table self) (insert_schema self) None (insert_overwrite self) (insert_by_name self) in
      match table with
      | None => Ok (Some (build_result [48]), done, t)
      | Some table =>
          let? snapshot := dml_snapshot table in
          match snap_primary_key_indices snapshot with
          | [] => Err NotNull
          | _ =>
              let? serializers := serializers_of (snap_columns snapshot) in
              let? (t, inserted_count) :=
                insert_loop t (insert_table self) snapshot serializers (insert_schema self) (insert_overwrite self)
                  (insert_by_name self) (rows input) (failure input) 0 in
              Ok (Some (build_result (int_to_string inserted_count)), done, t)
          end
      end
  end.

(** ** Delete *)

Fixpoint del_indexes (t : T) (table_name : bytes) (tuple : Tuple) (tuple_id : DataValue) (result : Tuple)
    (templates : list (IndexMeta * list ScalarExpression)) : res T :=
  match templates with
  | [] => Ok t
  | (index_meta, exprs) :: templates' =>
      let? result := rewrite_index exprs result tuple in
      let index := mk_index (im_id index_meta) (values result) (im_ty index_meta) in
      let? t := del_index t table_name index tuple_id in
      del_indexes t table_name tuple tuple_id result templates'
  end.

Definition delete_row (t : T) (table_name : bytes) (templates : list (IndexMeta * list ScalarExpression))
    (tuple : Tuple) (tuple_id : DataValue) : res T :=
  let? t := del_indexes t table_name tuple tuple_id (mk_tuple None []) templates in
  remove_tuple t table_name tuple_id.

Fixpoint delete_loop (t : T) (table_name : bytes) (templates : list (IndexMeta * list ScalarExpression))
    (ts : list Tuple) (fail : option DatabaseError) (deleted_count : Z) : res (T * Z) :=
  match ts with
  | [] => match fail with Some e => Err e | None => Ok (t, deleted_count) end
  | tuple :: ts' =>
      match pk tuple with
      | None => delete_loop t table_name templates ts' fail deleted_count
      | Some tuple_id =>
          let? t := delete_row t table_name templates tuple tuple_id in
          delete_loop t table_name templates ts' fail (deleted_count + 1)
      end
  end.

Record Delete := mk_delete { delete_table : bytes; delete_input : option Stream }.

Definition index_templates (table : TableCatalog) : res (list (IndexMeta * list ScalarExpression)) :=
  rmap (fun index_meta => let? exprs := column_exprs index_meta table in Ok (index_meta, exprs)) (tc_indexes table).

Definition delete_next (table : option TableCatalog) (self : Delete) (t : T) : write_poll Delete :=
  match delete_input self with
  | None => Ok (None, self, t)
  | Some input =>
      match table with
      | None => Err TableNotFound
      | Some table =>
          let? templates := index_templates table in
          let? (t, deleted_count) := delete_loop t (delete_table self) templates (rows input) (failure input) 0 in
          Ok (Some (build_result (int_to_string deleted_count)), mk_delete (delete_table self) None, t)
      end
  end.

(** ** Update *)

Definition index_needs_update (index_meta : IndexMeta) (updated_column_ids : list Z) (updates_primary_key : bool) : bool :=
  if is_primary (im_ty index_meta) then false
  else updates_primary_key || existsb (fun id => bool_decide (id ∈ updated_column_ids)) (im_column_ids index_meta).

(** The assignments by column id, a later one of the same column winning. *)
Fixpoint exprs_map (value_exprs : list (ColumnCatalog * ScalarExpression)) (m : list (Z * ScalarExpression))
    : res (list (Z * ScalarExpression)) :=
  match value_exprs with
  | [] => Ok m
  | (column, expr) :: rest =>
      match column_id column with
      | None => Err ColumnNotFound
      | Some id => exprs_map rest ((id, expr) :: m)
      end
  end.

Fixpoint assigned (m : list (Z * ScalarExpression)) (id : Z) : option ScalarExpression :=
  match m with
  | [] => None
  | (id', e) :: m' => if id =? id' then Some e else assigned m' id
  end.

(** The loop over the columns: each assignment is evaluated on the row as the
    earlier ones left it; [tuple.values[i]] panics out of range. *)
Fixpoint assign (m : list (Z * ScalarExpression)) (schema : list ColumnCatalog) (i : nat) (vs : list DataValue)
    : res (list DataValue) :=
  match schema with
  | [] => Ok vs
  | column :: schema' =>
      match column_id column with
      | None => assign m schema' (S i) vs
      | Some id =>
          match assigned m id with
          | None => assign m schema' (S i) vs
          | Some expr =>
              let? value := eval expr (Some vs) in
              if (i <? length vs)%nat then assign m schema' (S i) (<[i := value]> vs) else Err Panic
          end
      end
  end.

(** The values of the indexes an update may change, before it. *)
Fixpoint old_index_values (updated_column_ids : list Z) (updates_primary_key : bool) (tuple result : Tuple)
    (metas : list (IndexMeta * list ScalarExpression))
    : res (list ((IndexMeta * list ScalarExpression) * list DataValue) * Tuple) :=
  match metas with
  | [] => Ok ([], result)
  | (index_meta, exprs) :: metas' =>
      if negb (index_needs_update index_meta updated_column_ids updates_primary_key)
      then old_index_values updated_column_ids updates_primary_key tuple result metas'
      else
        let? result := rewrite_index exprs result tuple in
        let? (rest, result') :=
          old_index_values updated_column_ids updates_primary_key tuple (mk_tuple None []) metas' in
        Ok (((index_meta, exprs), values result) :: rest, result')
  end.

(** The loop that moves the entries of those indexes. *)
Fixpoint move_indexes (t : T) (table_name : bytes) (tuple result : Tuple) (old_pk new_pk : DataValue)
    (primary_key_changed : bool) (olds : list ((IndexMeta * list ScalarExpression) * list DataValue)) : res T :=
  match olds with
  | [] => Ok t
  | ((index_meta, exprs), old_value) :: olds' =>
      let? result := rewrite_index exprs result tuple in
      if negb primary_key_changed && key_eq old_value (values result) then
        move_indexes t table_name tuple result old_pk new_pk primary_key_changed olds'
      else
        let old_index := mk_index (im_id index_meta) old_value (im_ty index_meta) in
        let new_index := mk_index (im_id index_meta) (values result) (im_ty index_meta) in
        let? t := del_index t table_name old_index old_pk in
        let? t := add_index t table_name new_index new_pk in
        move_indexes t table_name tuple result old_pk new_pk primary_key_changed olds'
  end.

Definition update_row (t : T) (table_name : bytes) (snapshot : DmlTableSnapshot)
    (serializers : list TupleValueSerializableImpl) (schema : list ColumnCatalog) (m : list (Z * ScalarExpression))
    (updates_primary_key : bool) (tuple : Tuple) (old_pk : DataValue) : res T :=
  let? (olds, result) := old_index_values (map fst m) updates_primary_key tuple (mk_tuple None []) (index_metas snapshot) in
  let? vs := assign m schema 0 (values tuple) in
  let? new_pk := primary_projection (snap_primary_key_indices snapshot) vs in
  let primary_key_changed := negb (dv_eq new_pk old_pk) in
  let? t := if primary_key_changed then remove_tuple t table_name old_pk else Ok t in
  let? t := move_indexes t table_name (mk_tuple (pk tuple) vs) result old_pk new_pk primary_key_changed olds in
  append_tuple t table_name (mk_tuple (Some new_pk) vs) serializers (negb primary_key_changed).

Fixpoint update_loop (t : T) (table_name : bytes) (snapshot : DmlTableSnapshot)
    (serializers : list TupleValueSerializableImpl) (schema : list ColumnCatalog) (m : list (Z * ScalarExpression))
    (updates_primary_key : bool) (ts : list Tuple) (fail : option DatabaseError) (updated_count : Z) : res (T * Z) :=
  match ts with
  | [] => match fail with Some e => Err e | None => Ok (t, updated_count) end
  | tuple :: ts' =>
      match pk tuple with
      | None => update_loop t table_name snapshot serializers schema m updates_primary_key ts' fail updated_count
      | Some old_pk =>
          let? t := update_row t table_name snapshot serializers schema m updates_primary_key tuple old_pk in
          update_loop t table_name snapshot serializers schema m updates_primary_key ts' fail (updated_count + 1)
      end
  end.

Record Update := mk_update {
  update_table : bytes; value_exprs : list (ColumnCatalog * ScalarExpression); update_schema : list ColumnCatalog;
  update_input : option Stream;
}.

(** Whether an assigned column is part of the primary key. *)
Definition touches_primary_key (snapshot : DmlTableSnapshot) (updated_column_ids : list Z) : bool :=
  existsb (fun index =>
    match snap_columns snapshot !! index with
    | Some column => match column_id column with Some id => bool_decide (id ∈ updated_column_ids) | None => false end
    | None => false
    end) (snap_primary_key_indices snapshot).

Definition update_next (table : option TableCatalog) (self : Update) (t : T) : write_poll Update :=
  match update_input self with
  | None => Ok (None, self, t)
  | Some input =>
      let? m := exprs_map (value_exprs self) [] in
      let done := mk_update (update_table self) [] (update_schema self) None in
      match table with
      | None => Ok (Some (build_result [48]), done, t)
      | Some table =>
          let? snapshot := dml_snapshot table in
          let? serializers := serializers_of (update_schema self) in
          let? (t, updated_count) :=
            update_loop t (update_table self) snapshot serializers (update_schema self) m
              (touches_primary_key snapshot (map fst m)) (rows input) (failure input) 0 in
          Ok (Some (build_result (int_to_string updated_count)), done, t)
      end
  end.
End Nodes.
