(* ===== verification/DmlSpec.v ===== *)
(** Rows and index entries stay together: what INSERT, UPDATE and DELETE do to
    a table, as operations on its list of rows.

    [consistent t rows] relates a store to the rows of a table: under the keys
    of the table it holds one entry per row and one per row and secondary
    index, and nothing else. [place_row] is the operation on rows that a write
    implements, with the two ways it is refused. *)

From S2P Require Import Prelude MachineInt Types Operators Reader Value Chrono Text MemComparable Evaluators Casts Expr.
From S2P Require Import Serdes TableCodec Row Collections Exec Transaction Memory Storage Catalog Dml.
From stdpp Require Import base tactics list numbers option gmap fin_maps sorting.
From Stdlib Require Import ZArith Lia.
Local Open Scope Z_scope.

Notation entry := (bytes * bytes)%type.

(** * Keys *)

Lemma tuple_prefix_index name id x y : tuple_prefix name ++ x <> index_prefix name id ++ y.
Proof.
  unfold tuple_prefix, index_prefix. rewrite <- !app_assoc. intros E.
  apply app_inj_1 in E as [E _].
  - by apply table_prefix_inj in E as [? _].
  - rewrite !length_table_prefix; try done; apply length_hash_bytes.
Qed.

Lemma index_prefix_inj name id id' x y :
  in_u 32 id -> in_u 32 id' -> index_prefix name id ++ x = index_prefix name id' ++ y -> id = id' /\ x = y.
Proof.
  intros Hi Hi' E. unfold index_prefix in E. rewrite <- !app_assoc in E.
  apply app_inv_head in E. apply (app_inj_1 [_] [_]) in E as [_ E]; [|done].
  apply app_inj_1 in E as [E1 E2]; [|by rewrite !length_to_le_bytes]. apply (app_inj_1 [_] [_]) in E2 as [_ E2]; [|done]. split; [by apply (to_le_bytes_inj 4)|done].
Qed.

Lemma pk_field_canon v : pk_field v -> canon v = v.
Proof. intros (_ & Hv & Ht). by destruct v. Qed.

(** Primary keys have no floats, so their encoding keeps them exactly. *)
Lemma check_primary_key_canon v : check_primary_key v 0 = Ok tt -> canon v = v.
Proof.
  intros H. apply check_primary_key_spec in H as [H|(vs & -> & H)]; [by apply pk_field_canon|].
  cbn. f_equal. induction H as [|v vs Hv _ IH]; [done|]. cbn. rewrite IH. f_equal.
  destruct Hv as [Hv| ->]; [by apply pk_field_canon|done].
Qed.

Lemma dv_eq_tuple {OF : OrderedFloat} vs ws : dv_eq (DataValue.Tuple vs) (DataValue.Tuple ws) = key_eq vs ws.
Proof. done. Qed.

(** Two keys are the same bytes exactly when their values are equal in the
    sense of [PartialEq]. *)
Lemma encode_values_eq {OF : OrderedFloat} vs ws ts :
  Forall2 key_value vs ts -> Forall2 key_value ws ts ->
  key_eq vs ws = true <-> encode_values vs = encode_values ws.
Proof.
  intros Hv Hw. destruct (encoded_values_ordered vs ws ts Hv Hw) as (pv & pw & c & -> & -> & Hc & He).
  rewrite <- dv_eq_tuple, dv_eq_partial_cmp, partial_cmp_tuple, Hc, some_eq_iff.
  - apply lex_embed_cmp in He. split; [|by intros [= ->]; rewrite <- He; apply lex_cmp_refl].
    intros ->. apply lex_cmp_eq in He. by f_equal.
  - clear -Hv. cbn. induction Hv as [|v t vs ts Hv _ IH]; [done|]. cbn.
    by rewrite (key_value_no_parameter v t Hv), IH.
Qed.

Lemma primary_key_encode_inj v w ty e :
  check_primary_key v 0 = Ok tt -> check_primary_key w 0 = Ok tt -> key_value v ty -> key_value w ty ->
  memcomparable_encode v = Ok e -> memcomparable_encode w = Ok e -> v = w.
Proof.
  intros Cv Cw Kv Kw Ev Ew. destruct (key_value_decodes v ty Kv) as (e1 & E1 & D1).
  destruct (key_value_decodes w ty Kw) as (e2 & E2 & D2).
  rewrite E1 in Ev. rewrite E2 in Ew. apply Ok_inj in Ev, Ew. subst e1 e2.
  specialize (D1 []). rewrite (D2 []) in D1. rewrite !check_primary_key_canon in D1 by done. by injection D1.
Qed.

Lemma primary_key_eq {OF : OrderedFloat} v w ty :
  check_primary_key v 0 = Ok tt -> check_primary_key w 0 = Ok tt -> key_value v ty -> key_value w ty ->
  dv_eq v w = true <-> v = w.
Proof.
  intros Cv Cw Kv Kw. split; [|intros ->; apply dv_eq_refl]. intros Hq.
  assert (key_eq [v] [w] = true) as Hk by (change (dv_eq v w && true = true); by rewrite Hq).
  apply (encode_values_eq [v] [w] [ty]) in Hk; [|by constructor..].
  destruct (key_value_decodes v ty Kv) as (e & Ee & _), (key_value_decodes w ty Kw) as (e' & Ee' & _).
  cbn [encode_values] in Hk. rewrite Ee, Ee' in Hk. cbn [rbind] in Hk. rewrite !app_nil_r in Hk. apply Ok_inj in Hk. subst e'.
  by eapply primary_key_encode_inj.
Qed.

Lemma key_eq_snoc {OF : OrderedFloat} (l l' : list DataValue) x y :
  length l = length l' -> key_eq (l ++ [x]) (l' ++ [y]) = key_eq l l' && dv_eq x y.
Proof.
  revert l'. induction l as [|v l IH]; intros [|v' l'] Hl; try done.
  - change (dv_eq x y && true = true && dv_eq x y). by rewrite andb_true_r.
  - change (dv_eq v v' && key_eq (l ++ [x]) (l' ++ [y]) = dv_eq v v' && key_eq l l' && dv_eq x y).
    rewrite <- andb_assoc. f_equal. apply IH. by injection Hl.
Qed.

Section Entries.
Context {T : Type} `{Transaction T}.
Context {OF : OrderedFloat} {CH : Chrono} {SF : ScalarFunctions}.
Context (name : bytes) (metas : list (IndexMeta * list ScalarExpression)).
Context (ss : list TupleValueSerializableImpl) (pk_ty : LogicalType).
Implicit Types (t : T) (E : list entry) (me : IndexMeta * list ScalarExpression).

Definition is_secondary me : bool := negb (is_primary (im_ty me.1)).

(** The keys of the table's rows and of its secondary indexes. *)
Definition own (k : bytes) : Prop :=
  (exists x, k = tuple_prefix name ++ x) \/
  exists me x, me ∈ metas /\ is_secondary me = true /\ k = index_prefix name (im_id me.1) ++ x.

(** Under the table's own keys the store holds exactly the entries [E]. *)
Record stores t E : Prop := {
  st_ok : tx_ok t;
  st_own : Forall (fun e => own e.1) E;
  st_lookup : forall k v, own k -> lookup_kv t k = Some v <-> (k, v) ∈ E;
}.

(** Nothing else changed. *)
Definition frame t t' : Prop := forall k, ~ own k -> lookup_kv t' k = lookup_kv t k.

Lemma frame_refl t : frame t t.
Proof. done. Qed.

Lemma frame_trans t1 t2 t3 : frame t1 t2 -> frame t2 t3 -> frame t1 t3.
Proof. intros H1 H2 k Hk. by rewrite H2, H1. Qed.

Lemma updated_frame t t' k v : own k -> updated t t' k v -> frame t t'.
Proof. intros Hk [_ L] k' Hk'. rewrite L. case_decide; [by subst|done]. Qed.

Lemma stores_ext t E E' : (forall e, e ∈ E <-> e ∈ E') -> stores t E -> stores t E'.
Proof.
  intros He [H1 H2 H3]. split; [done| |].
  - rewrite Forall_forall in *. intros e Hin. by apply H2, He.
  - intros k v Hk. by rewrite (H3 k v Hk), He.
Qed.

Lemma stores_functional t E k v v' : stores t E -> (k, v) ∈ E -> (k, v') ∈ E -> v = v'.
Proof.
  intros Hs Hv Hv'. pose proof (st_own t E Hs) as Ho. rewrite Forall_forall in Ho. specialize (Ho _ Hv). cbn in Ho.
  apply (st_lookup t E Hs k v Ho) in Hv. apply (st_lookup t E Hs k v' Ho) in Hv'. congruence.
Qed.

(** The entry agrees with what is stored under its key. *)
Definition agrees E (e : entry) : Prop := forall v, (e.1, v) ∈ E -> v = e.2.

#[global] Instance agrees_dec E e : Decision (agrees E e).
Proof.
  destruct (decide (Forall (fun e' => e'.1 = e.1 -> e'.2 = e.2) E)) as [Hf|Hf]; [left|right].
  - intros v Hin. rewrite Forall_forall in Hf. by apply (Hf (e.1, v)).
  - intros Ha. apply Hf, Forall_forall. intros [k v] Hin Hk. cbn in *. subst k. by apply Ha.
Defined.

Lemma stores_set t t' E k v :
  stores t E -> own k -> agrees E (k, v) -> updated t t' k (Some v) -> stores t' ((k, v) :: E).
Proof.
  intros Hs Hk Hn [Ht' L]. split; [done|by constructor; [|apply Hs]|].
  intros k' v' Hk'. rewrite L, elem_of_cons. case_decide as Hd.
  - subst k'. split; [intros Hv; apply (inj Some) in Hv; subst; by left|].
    intros [Hin|Hin]; [injection Hin as ->; done|]. f_equal. symmetry. by apply Hn.
  - rewrite (st_lookup t E Hs k' v' Hk'). split; [by right|]. intros [[= ? ?]|?]; [congruence|done].
Qed.

(** Without the entry of a key. *)
Definition without (k : bytes) E : list entry := filter (fun e => e.1 <> k) E.

Lemma elem_of_without k E e : e ∈ without k E <-> e.1 <> k /\ e ∈ E.
Proof. unfold without. by rewrite list_elem_of_filter. Qed.

Lemma stores_remove t t' E k : stores t E -> updated t t' k None -> stores t' (without k E).
Proof.
  intros Hs [Ht' L]. split; [done| |].
  - apply Forall_forall. intros e He. apply elem_of_without in He as [_ He].
    pose proof (st_own t E Hs) as Ho. rewrite Forall_forall in Ho. by apply Ho.
  - intros k' v' Hk'. rewrite L, elem_of_without. cbn. case_decide as Hd.
    + subst k'. split; [done|]. by intros [? _].
    + rewrite (st_lookup t E Hs k' v' Hk'). split; [|by intros [_ ?]]. by split; [congruence|].
Qed.

Lemma stores_lookup_none t E k : stores t E -> own k -> (forall v, (k, v) ∉ E) -> lookup_kv t k = None.
Proof.
  intros Hs Hk Hn. destruct (lookup_kv t k) as [v|] eqn:El; [|done]. exfalso. apply (Hn v).
  by apply (st_lookup t E Hs k v Hk).
Qed.

(** ** The entries of a row *)

Definition row : Type := DataValue * list DataValue.
Implicit Types (r : row).

Definition index_values_of (exprs : list ScalarExpression) (vs : list DataValue) : res (list DataValue) :=
  rmap (fun e => eval e (Some vs)) exprs.

Definition index_entry me r : res entry :=
  let? ws := index_values_of me.2 r.2 in
  with_index name (mk_index (im_id me.1) ws (im_ty me.1)) (Some r.1) capture.

Definition tuple_entry r : res entry :=
  let? e := memcomparable_encode r.1 in
  let? b := serialize_to (mk_tuple (Some r.1) r.2) ss in
  Ok (tuple_prefix name ++ e, b).

Definition index_entries ms r : res (list entry) := rmap (fun me => index_entry me r) (List.filter is_secondary ms).

Lemma rewrite_index_eval exprs result tuple :
  rewrite_index exprs result tuple = let? ws := index_values_of exprs (values tuple) in Ok (mk_tuple (pk result) ws).
Proof.
  unfold rewrite_index, rewrite_tuple, index_values_of.
  assert (forall acc, rewrite_push exprs (length (values result)) (values result ++ acc) (Some (values tuple)) =
    let? ws := rmap (fun e => eval e (Some (values tuple))) exprs in Ok (values result ++ acc ++ ws)) as Hp.
  { induction exprs as [|e exprs IH]; intros acc; cbn; [by rewrite app_nil_r|].
    destruct (eval e _) as [v|]; cbn [rbind]; [|done]. rewrite <- app_assoc, IH.
    destruct (rmap _ exprs); cbn [rbind]; [|done]. by rewrite <- !app_assoc. }
  specialize (Hp []). rewrite app_nil_r in Hp. rewrite Hp.
  destruct (rmap _ exprs) as [ws|] eqn:E; cbn [rbind]; [|done]. apply rmap_length in E.
  unfold rotate_left. rewrite drop_app_length, take_app_length. cbn [app]. by rewrite take_app_length'.
Qed.

(** The types of the values of an index. *)
Definition field_type (e : ScalarExpression) : LogicalType :=
  match e with ScalarExpression.ColumnRef ty _ => ty | _ => LogicalType.SqlNull end.

(** A row of the table: its primary key and its values can be stored, and the
    values of its indexes have the types of the index. *)
Record row_ok r : Prop := {
  ro_key : check_primary_key r.1 0 = Ok tt;
  ro_id : tuple_id_value r.1 pk_ty;
  ro_index : Forall (fun me => exists ws, index_values_of me.2 r.2 = Ok ws /\
    Forall2 key_value ws (map field_type me.2)) metas;
  ro_row : exists b, serialize_to (mk_tuple (Some r.1) r.2) ss = Ok b;
}.

Definition metas_ok : Prop :=
  NoDup (map (fun me => im_id me.1) metas) /\ Forall (fun me => in_u 32 (im_id me.1)) metas.

Definition entry_of r (e : entry) : Prop :=
  tuple_entry r = Ok e \/ exists me, me ∈ metas /\ is_secondary me = true /\ index_entry me r = Ok e.

(** The store has the rows: under the keys of the table it holds the entry of
    every row and of every row and secondary index, and nothing else. *)
Record consistent t (rows : list row) : Prop := {
  co_tx : tx_ok t;
  co_rows : Forall row_ok rows;
  co_ids : NoDup (map fst rows);
  co_lookup : forall k v, own k -> lookup_kv t k = Some v <-> exists r, r ∈ rows /\ entry_of r (k, v);
}.

(** ** Keys of rows *)

Context (Hmetas : metas_ok).

Lemma secondary_elem me ms : me ∈ List.filter is_secondary ms <-> me ∈ ms /\ is_secondary me = true.
Proof. rewrite !list_elem_of_In. apply filter_In. Qed.

Lemma metas_same me me' : me ∈ metas -> me' ∈ metas -> im_id me.1 = im_id me'.1 -> me = me'.
Proof.
  intros Hm Hm' Hid. destruct Hmetas as [Hn _]. apply list_elem_of_lookup in Hm as [i Hi], Hm' as [j Hj].
  assert (i = j) as ->; [|congruence]. eapply (NoDup_lookup _ i j (im_id me.1) Hn); rewrite list_lookup_fmap.
  - by rewrite Hi.
  - rewrite Hj. cbn. by rewrite Hid.
Qed.

Lemma row_index me r : row_ok r -> me ∈ metas ->
  exists ws, index_values_of me.2 r.2 = Ok ws /\ Forall2 key_value ws (map field_type me.2).
Proof. intros Hr Hm. pose proof (ro_index r Hr) as Hi. rewrite Forall_forall in Hi. by apply Hi. Qed.

Lemma index_entry_ok me r :
  row_ok r -> me ∈ metas ->
  exists ws p v, index_values_of me.2 r.2 = Ok ws /\ Forall2 key_value ws (map field_type me.2) /\
    encode_values (entry_fields (im_ty me.1) ws r.1) = Ok p /\ encode_reference_value r.1 = Ok v /\
    with_index name (mk_index (im_id me.1) ws (im_ty me.1)) (Some r.1) capture =
      Ok (index_prefix name (im_id me.1) ++ p, v) /\
    index_entry me r = Ok (index_prefix name (im_id me.1) ++ p, v).
Proof.
  intros Hr Hm. destruct (row_index me r Hr Hm) as (ws & Ew & Hw). pose proof (ro_id r Hr) as Hid.
  destruct (tuple_id_encodes r.1 pk_ty Hid) as (v & Ev & _).
  pose proof (entry_fields_key_values (im_ty me.1) ws r.1 _ pk_ty Hw (proj1 Hid)) as Hf.
  destruct (encoded_values_ordered _ _ _ Hf Hf) as (p & _ & _ & Ep & _).
  exists ws, p, v. do 4 (split; [done|]).
  pose proof (with_index_key name p v (mk_index (im_id me.1) ws (im_ty me.1)) r.1 Ep Ev) as Ek.
  split; [exact Ek|]. unfold index_entry. rewrite Ew. exact Ek.
Qed.

Lemma index_entry_value me r e v : row_ok r -> me ∈ metas -> index_entry me r = Ok e -> encode_reference_value r.1 = Ok v -> e.2 = v.
Proof.
  intros Hr Hm E Ev. destruct (index_entry_ok me r Hr Hm) as (ws & p & v' & _ & _ & _ & Ev' & _ & E'). rewrite E in E'. apply Ok_inj in E'. subst e.
  cbn. rewrite Ev in Ev'. by apply Ok_inj in Ev'.
Qed.

Lemma index_entry_own me r e : row_ok r -> me ∈ metas -> is_secondary me = true -> index_entry me r = Ok e -> own e.1.
Proof.
  intros Hr Hm Hs E. destruct (index_entry_ok me r Hr Hm) as (ws & p & v & _ & _ & _ & _ & _ & E').
  rewrite E in E'. apply Ok_inj in E'. subst e. right. by exists me, p.
Qed.

Lemma row_value_inj r r' v : row_ok r -> row_ok r' -> encode_reference_value r.1 = Ok v -> encode_reference_value r'.1 = Ok v -> r.1 = r'.1.
Proof.
  intros Hr Hr' E E'. destruct (tuple_id_encodes r.1 pk_ty (ro_id r Hr)) as (b & Eb & D).
  destruct (tuple_id_encodes r'.1 pk_ty (ro_id r' Hr')) as (b' & Eb' & D'). simplify_eq. congruence.
Qed.

(** The values of two rows in a unique index are the same. *)
Definition clash me r r' : bool :=
  is_unique (im_ty me.1) &&
  match index_values_of me.2 r.2, index_values_of me.2 r'.2 with
  | Ok ws, Ok ws' => key_eq ws ws'
  | _, _ => false
  end.

(** Two rows share a key of an index only in a unique index in which they clash. *)
Lemma index_key_shared me me' r r' e e' :
  row_ok r -> row_ok r' -> me ∈ metas -> me' ∈ metas -> is_secondary me = true -> r.1 <> r'.1 ->
  index_entry me r = Ok e -> index_entry me' r' = Ok e' ->
  e.1 = e'.1 <-> me = me' /\ clash me r r' = true.
Proof.
  intros Hr Hr' Hm Hm' Hsec Hne E E'.
  destruct (index_entry_ok me r Hr Hm) as (ws & p & v & Ew & Hw & Ep & Ev & _ & Ee).
  destruct (index_entry_ok me' r' Hr' Hm') as (ws' & p' & v' & Ew' & Hw' & Ep' & Ev' & _ & Ee').
  rewrite E in Ee. rewrite E' in Ee'. apply Ok_inj in Ee, Ee'. subst e e'. cbn [fst]. unfold clash.
  destruct Hmetas as [_ Hrange]. rewrite Forall_forall in Hrange.
  assert (me = me' -> (p = p' <-> is_unique (im_ty me.1) = true /\ key_eq ws ws' = true)) as Hpp.
  { intros <-. assert (encode_values (entry_fields (im_ty me.1) ws r.1) = encode_values (entry_fields (im_ty me.1) ws' r'.1) <-> p = p') as <-.
    { rewrite Ep, Ep'. split; [by intros [= ->]|by intros ->]. }
    rewrite <- (encode_values_eq _ _ _ (entry_fields_key_values (im_ty me.1) ws r.1 _ pk_ty Hw (proj1 (ro_id r Hr)))
      (entry_fields_key_values (im_ty me.1) ws' r'.1 _ pk_ty Hw' (proj1 (ro_id r' Hr')))).
    unfold entry_fields. destruct (im_ty me.1) eqn:Ety; unfold is_secondary in Hsec; rewrite Ety in Hsec; try done; cbn [appends_tuple_id is_unique];
      [naive_solver|..].
    all: rewrite key_eq_snoc, andb_true_iff by (by rewrite (Forall2_length _ _ _ Hw), (Forall2_length _ _ _ Hw')).
    all: rewrite (primary_key_eq r.1 r'.1 pk_ty (ro_key r Hr) (ro_key r' Hr') (proj1 (ro_id r Hr)) (proj1 (ro_id r' Hr'))).
    all: naive_solver. }
  split.
  - intros Hk. apply index_prefix_inj in Hk as [Hid ->]; [|by apply Hrange|by apply Hrange].
    pose proof (metas_same me me' Hm Hm' Hid) as <-. split; [done|]. rewrite Ew, Ew'. apply andb_true_iff. by apply Hpp.
  - intros [<- Hc]. rewrite Ew, Ew' in Hc. apply andb_true_iff in Hc. apply Hpp in Hc as ->; done.
Qed.

Lemma tuple_entry_ok r : row_ok r ->
  exists e b, memcomparable_encode r.1 = Ok e /\ serialize_to (mk_tuple (Some r.1) r.2) ss = Ok b /\
    tuple_entry r = Ok (tuple_prefix name ++ e, b).
Proof.
  intros Hr. destruct (key_value_decodes r.1 pk_ty (proj1 (ro_id r Hr))) as (e & Ee & _), (ro_row r Hr) as [b Eb].
  exists e, b. unfold tuple_entry. by rewrite Ee, Eb.
Qed.

Lemma tuple_entry_own r e : row_ok r -> tuple_entry r = Ok e -> own e.1.
Proof. intros Hr Et. destruct (tuple_entry_ok r Hr) as (x & b & _ & _ & E). rewrite Et in E. simplify_eq. left. by exists x. Qed.

Lemma tuple_key_shared r r' e e' :
  row_ok r -> row_ok r' -> tuple_entry r = Ok e -> tuple_entry r' = Ok e' -> e.1 = e'.1 <-> r.1 = r'.1.
Proof.
  intros Hr Hr' Et Et'. destruct (tuple_entry_ok r Hr) as (x & b & Ex & _ & E), (tuple_entry_ok r' Hr') as (x' & b' & Ex' & _ & E').
  rewrite Et in E. rewrite Et' in E'. apply Ok_inj in E, E'. subst e e'. cbn [fst]. split.
  - intros Hk. apply app_inv_head in Hk. subst x'.
    by eapply primary_key_encode_inj; [apply Hr|apply Hr'|apply (ro_id r Hr)|apply (ro_id r' Hr')|..].
  - intros Hk. rewrite Hk, Ex' in Ex. apply Ok_inj in Ex. by subst x'.
Qed.

Lemma tuple_index_keys me r r' e e' :
  row_ok r -> row_ok r' -> me ∈ metas -> tuple_entry r = Ok e -> index_entry me r' = Ok e' -> e.1 <> e'.1.
Proof.
  intros Hr Hr' Hm Et Ei. destruct (tuple_entry_ok r Hr) as (x & b & _ & _ & E).
  destruct (index_entry_ok me r' Hr' Hm) as (ws & p & v & _ & _ & _ & _ & _ & E').
  rewrite Et in E. rewrite Ei in E'. apply Ok_inj in E, E'. subst e e'. apply tuple_prefix_index.
Qed.

Lemma index_entries_ok ms r : row_ok r -> ms ⊆ metas -> exists es, index_entries ms r = Ok es.
Proof.
  intros Hr. unfold index_entries. induction ms as [|me ms IH]; intros Hs; [by exists []|]. cbn.
  destruct IH as [es Ees]; [set_solver|]. destruct (is_secondary me); [|by exists es]. cbn.
  destruct (index_entry_ok me r Hr) as (ws & p & v & _ & _ & _ & _ & _ & Ei); [set_solver|]. rewrite Ei. cbn. rewrite Ees. by eexists.
Qed.

Lemma index_entries_elem ms r es e :
  index_entries ms r = Ok es -> e ∈ es <-> exists me, me ∈ ms /\ is_secondary me = true /\ index_entry me r = Ok e.
Proof.
  unfold index_entries. intros Ei. apply rmap_Ok in Ei. split.
  - intros Hin. apply list_elem_of_lookup in Hin as [i Hi]. destruct (Forall2_lookup_r _ _ _ _ _ Ei Hi) as (me & Hm & E).
    exists me. apply list_elem_of_lookup_2, secondary_elem in Hm as [? ?]. done.
  - intros (me & Hm & Hs & E). assert (me ∈ List.filter is_secondary ms) as Hf by (by apply secondary_elem).
    apply list_elem_of_lookup in Hf as [i Hi]. destruct (Forall2_lookup_l _ _ _ _ _ Ei Hi) as (e' & He' & E').
    rewrite E in E'. apply Ok_inj in E'. subst e'. by eapply list_elem_of_lookup_2.
Qed.

(** The entries come from rows. *)
Definition known E : Prop := forall e, e ∈ E -> exists r, row_ok r /\ entry_of r e.

Lemma known_without k E : known E -> known (without k E).
Proof. intros Hk e He. apply elem_of_without in He as [_ He]. by apply Hk. Qed.

Lemma known_cons r me e E :
  row_ok r -> me ∈ metas -> is_secondary me = true -> index_entry me r = Ok e -> known E -> known (e :: E).
Proof. intros Hr Hm Hs Ei Hk e' He. apply elem_of_cons in He as [->|He]; [|by apply Hk]. exists r. split; [done|]. right. by exists me. Qed.

Lemma not_agrees E (e : entry) : (exists v, (e.1, v) ∈ E /\ v <> e.2) -> ~ agrees E e.
Proof. intros (v & Hin & Hne) Ha. by apply Hne, Ha. Qed.

(** A row can be missing from the store only through a unique index. *)
Lemma known_agrees E me r e :
  known E -> row_ok r -> me ∈ metas -> is_secondary me = true -> index_entry me r = Ok e ->
  is_unique (im_ty me.1) = false -> agrees E e.
Proof.
  intros Hk Hr Hm Hs Ei Hu v Hin. destruct (Hk _ Hin) as (r' & Hr' & [Et|(me' & Hm' & Hs' & Ei')]).
  - exfalso. by apply (tuple_index_keys me r' r (e.1, v) e Hr' Hr Hm Et Ei).
  - destruct (decide (r.1 = r'.1)) as [Hid|Hne].
    + destruct (tuple_id_encodes r.1 pk_ty (ro_id r Hr)) as (b & Eb & _).
      rewrite (index_entry_value me r e b Hr Hm Ei Eb). rewrite Hid in Eb.
      exact (index_entry_value me' r' (e.1, v) b Hr' Hm' Ei' Eb).
    + exfalso. apply (index_key_shared me me' r r' e (e.1, v)) in Hne; try done.
      destruct Hne as [Hne _]. destruct (Hne eq_refl) as [_ Hc]. unfold clash in Hc. by rewrite Hu in Hc.
Qed.

Lemma add_entry t E me r e ws :
  stores t E -> known E -> row_ok r -> me ∈ metas -> is_secondary me = true -> index_entry me r = Ok e ->
  index_values_of me.2 r.2 = Ok ws ->
  let index := mk_index (im_id me.1) ws (im_ty me.1) in
  (agrees E e -> exists t', add_index t name index r.1 = Ok t' /\ stores t' (e :: E) /\ frame t t') /\
  (~ agrees E e -> add_index t name index r.1 = Err DuplicateUniqueValue).
Proof.
  intros Hst Hk Hr Hm Hs Ei Ew index. pose proof (index_entry_own me r e Hr Hm Hs Ei) as Ho.
  destruct e as [k v]. unfold index_entry in Ei. rewrite Ew in Ei. cbn [rbind] in Ei. fold index in Ei.
  pose proof (st_ok t E Hst) as Ht. destruct (set_spec t k v Ht) as (t' & Eset & Hu).
  unfold add_index. cbn [idx_ty index]. unfold is_secondary in Hs. apply negb_true_iff in Hs as Hp. rewrite Hp.
  rewrite (with_index_read name index r.1 _ k v Ei), get_spec by done. destruct (is_unique (im_ty me.1)) eqn:Eu; cbn [rbind].
  - destruct (lookup_kv t k) as [v'|] eqn:El.
    + apply (st_lookup t E Hst k v' Ho) in El as Hin. destruct (decide (v' = v)) as [->|Hne].
      * split; [|intros Hn; exfalso; apply Hn; intros v' Hv'; by apply (stores_functional t E k v' v Hst)].
        intros _. exists t. split; [done|]. split; [|apply frame_refl].
        eapply stores_ext; [|done]. intros e. rewrite elem_of_cons. split; [by right|]. by intros [->|?].
      * split; [|done]. intros Ha. exfalso. by apply Hne, Ha.
    + assert (agrees E (k, v)) as Ha by (intros v' Hin; apply (st_lookup t E Hst k v' Ho) in Hin; congruence).
      split; [|by intros Hn]. intros _. exists t'. split; [done|]. split; [by eapply stores_set|by eapply updated_frame].
  - assert (agrees E (k, v)) as Ha.
    { eapply known_agrees; try done. unfold index_entry. rewrite Ew. exact Ei. }
    split; [|by intros Hn]. intros _. exists t'. split; [done|]. split; [by eapply stores_set|by eapply updated_frame].
Qed.

Lemma del_entry t E me r e ws :
  stores t E -> row_ok r -> me ∈ metas -> is_secondary me = true -> index_entry me r = Ok e ->
  index_values_of me.2 r.2 = Ok ws ->
  exists t', del_index t name (mk_index (im_id me.1) ws (im_ty me.1)) r.1 = Ok t' /\ stores t' (without e.1 E) /\ frame t t'.
Proof.
  intros Hst Hr Hm Hs Ei Ew. pose proof (index_entry_own me r e Hr Hm Hs Ei) as Ho. destruct e as [k v].
  unfold index_entry in Ei. rewrite Ew in Ei. cbn [rbind] in Ei. unfold del_index. cbn [idx_ty].
  unfold is_secondary in Hs. apply negb_true_iff in Hs as ->. rewrite (with_index_read name _ r.1 _ k v Ei).
  destruct (remove_spec t k (st_ok t E Hst)) as (t' & Er & Hu). exists t'.
  split; [done|]. split; [by eapply stores_remove|by eapply updated_frame].
Qed.

Lemma agrees_cons e1 e2 E : e1.2 = e2.2 -> agrees (e1 :: E) e2 <-> agrees E e2.
Proof.
  intros Hv. split; intros Ha v Hin; [apply Ha; by right|].
  apply elem_of_cons in Hin as [<-|Hin]; [done|by apply Ha].
Qed.

(** ** Adding and removing the entries of a row *)

Lemma primary_skips t me ws r :
  is_secondary me = false -> add_index t name (mk_index (im_id me.1) ws (im_ty me.1)) r.1 = Ok t /\
    del_index t name (mk_index (im_id me.1) ws (im_ty me.1)) r.1 = Ok t.
Proof. unfold is_secondary, add_index, del_index. cbn [idx_ty]. by destruct (is_primary (im_ty me.1)). Qed.

Lemma index_entries_cons me ms r es :
  row_ok r -> me ∈ metas -> index_entries (me :: ms) r = Ok es ->
  if is_secondary me then exists e es', index_entry me r = Ok e /\ index_entries ms r = Ok es' /\ es = e :: es'
  else index_entries ms r = Ok es.
Proof.
  intros Hr Hm. unfold index_entries. cbn. destruct (is_secondary me); [|done]. cbn. intros Ei.
  apply rbind_ok in Ei as (e & Ee & Ei). apply rbind_ok in Ei as (es' & Ees & Ei). apply Ok_inj in Ei. by exists e, es'.
Qed.

Lemma add_indexes_spec ms result t E r es :
  stores t E -> known E -> row_ok r -> ms ⊆ metas -> index_entries ms r = Ok es ->
  let tuple := mk_tuple (Some r.1) r.2 in
  (Forall (agrees E) es -> exists t', add_indexes t name tuple result ms = Ok t' /\ stores t' (es ++ E) /\ frame t t') /\
  (~ Forall (agrees E) es -> add_indexes t name tuple result ms = Err DuplicateUniqueValue).
Proof.
  intros Hst Hk Hr Hs Ei tuple. revert t E result es Hst Hk Ei. induction ms as [|me ms IH]; intros t E result es Hst Hk Ei.
  { apply Ok_inj in Ei. subst es. split; [|by intros []; constructor]. intros _. by exists t. }
  assert (me ∈ metas) as Hm by set_solver. assert (ms ⊆ metas) as Hms by set_solver.
  destruct (row_index me r Hr Hm) as (ws & Ew & _). apply index_entries_cons in Ei; [|done|done].
  destruct me as [meta exprs]. cbn [add_indexes pk tuple]. rewrite rewrite_index_eval. cbn [values tuple snd] in *. rewrite Ew.
  cbn [rbind values]. destruct (is_secondary (meta, exprs)) eqn:Esec.
  - destruct Ei as (e & es' & Ee & Ees & ->). destruct (add_entry t E _ r e ws Hst Hk Hr Hm Esec Ee Ew) as [Hadd Hconf].
    cbn [fst] in Hadd, Hconf. assert (forall e', e' ∈ es' -> agrees (e :: E) e' <-> agrees E e') as Hag.
    { intros e' He'. apply agrees_cons. apply (index_entries_elem ms r es' e' Ees) in He' as (me' & Hm' & _ & Ee').
      destruct (tuple_id_encodes r.1 pk_ty (ro_id r Hr)) as (b & Eb & _).
      rewrite (index_entry_value _ r e b Hr Hm Ee Eb). symmetry. eapply (index_entry_value me' r); try done. set_solver. }
    assert (Forall (agrees (e :: E)) es' <-> Forall (agrees E) es') as Hfa.
    { rewrite !Forall_forall. split; intros Hf e' He'; by apply Hag, Hf. }
    split.
    + intros Hf. apply Forall_cons in Hf as [Ha Hf]. destruct (Hadd Ha) as (t1 & -> & Hst1 & Hf1). cbn [rbind].
      destruct (IH Hms t1 (e :: E) (mk_tuple (pk result) ws) es' Hst1) as [Hok _]; [by eapply known_cons|done|].
      destruct Hok as (t2 & E2 & Hst2 & Hf2); [by apply Hfa|]. exists t2. split; [done|]. split; [|by eapply frame_trans].
      eapply stores_ext; [|done]. intros e'. set_solver.
    + intros Hn. destruct (decide (agrees E e)) as [Ha|Ha]; [|by rewrite Hconf].
      destruct (Hadd Ha) as (t1 & -> & Hst1 & Hf1). cbn [rbind].
      destruct (IH Hms t1 (e :: E) (mk_tuple (pk result) ws) es' Hst1) as [_ Herr]; [by eapply known_cons|done|].
      apply Herr. rewrite Hfa. intros Hf. by apply Hn; constructor.
  - destruct (primary_skips t (meta, exprs) ws r Esec) as [Hp _]. cbn [fst] in Hp. rewrite Hp. cbn [rbind]. by apply IH.
Qed.

(** Without the entries of a list of keys. *)
Definition without_all (ks : list bytes) E : list entry := filter (fun e => e.1 ∉ ks) E.

Lemma elem_of_without_all ks E e : e ∈ without_all ks E <-> e.1 ∉ ks /\ e ∈ E.
Proof. unfold without_all. by rewrite list_elem_of_filter. Qed.

Lemma del_indexes_spec ms result t E r es :
  stores t E -> row_ok r -> ms ⊆ metas -> index_entries ms r = Ok es ->
  exists t', del_indexes t name (mk_tuple (Some r.1) r.2) r.1 result ms = Ok t' /\
    stores t' (without_all (map fst es) E) /\ frame t t'.
Proof.
  intros Hst Hr Hs Ei. revert t E result es Hst Ei. induction ms as [|me ms IH]; intros t E result es Hst Ei.
  { apply Ok_inj in Ei. subst es. exists t. split; [done|]. split; [|apply frame_refl].
    eapply stores_ext; [|done]. intros e. rewrite elem_of_without_all. set_solver. }
  assert (me ∈ metas) as Hm by set_solver. assert (ms ⊆ metas) as Hms by set_solver.
  destruct (row_index me r Hr Hm) as (ws & Ew & _). apply index_entries_cons in Ei; [|done|done].
  destruct me as [meta exprs]. cbn [del_indexes]. rewrite rewrite_index_eval. cbn [values snd] in *. rewrite Ew.
  cbn [rbind values]. destruct (is_secondary (meta, exprs)) eqn:Esec.
  - destruct Ei as (e & es' & Ee & Ees & ->). destruct (del_entry t E _ r e ws Hst Hr Hm Esec Ee Ew) as (t1 & Hd & Hst1 & Hf1).
    cbn [fst] in Hd. rewrite Hd. cbn [rbind].
    destruct (IH Hms t1 _ (mk_tuple (pk result) ws) es' Hst1 Ees) as (t2 & E2 & Hst2 & Hf2). exists t2. split; [done|].
    split; [|by eapply frame_trans]. eapply stores_ext; [|done]. intros e'. rewrite !elem_of_without_all, elem_of_without.
    cbn [map]. rewrite not_elem_of_cons. naive_solver.
  - destruct (primary_skips t (meta, exprs) ws r Esec) as [_ Hp]. cbn [fst] in Hp. rewrite Hp. cbn [rbind]. by apply IH.
Qed.

Lemma remove_tuple_spec t E r te :
  stores t E -> row_ok r -> tuple_entry r = Ok te ->
  exists t', remove_tuple t name r.1 = Ok t' /\ stores t' (without te.1 E) /\ frame t t'.
Proof.
  intros Hst Hr Et. pose proof (tuple_entry_own r te Hr Et) as Ho. destruct (tuple_entry_ok r Hr) as (x & b & Ex & _ & E').
  rewrite Et in E'. apply Ok_inj in E'. subst te. unfold remove_tuple. rewrite (with_tuple_checked name r.1 None _ x (ro_key r Hr) Ex).
  cbn [encode_opt rbind]. destruct (remove_spec t (tuple_prefix name ++ x) (st_ok t E Hst)) as (t' & Er & Hu). exists t'.
  split; [done|]. split; [by eapply stores_remove|by eapply updated_frame].
Qed.

(** Writing the row itself, when the key is free. *)
Lemma append_tuple_spec t E r te overwrite :
  stores t E -> row_ok r -> tuple_entry r = Ok te ->
  let tuple := mk_tuple (Some r.1) r.2 in
  ((forall v, (te.1, v) ∉ E) -> exists t', append_tuple t name tuple ss overwrite = Ok t' /\ stores t' (te :: E) /\ frame t t') /\
  (overwrite = true -> exists t', append_tuple t name tuple ss overwrite = Ok t' /\ stores t' (te :: without te.1 E) /\ frame t t') /\
  (overwrite = false -> (exists v, (te.1, v) ∈ E) -> append_tuple t name tuple ss overwrite = Err DuplicatePrimaryKey).
Proof.
  intros Hst Hr Et tuple. pose proof (tuple_entry_own r te Hr Et) as Ho. destruct (tuple_entry_ok r Hr) as (x & b & Ex & Eb & E').
  rewrite Et in E'. apply Ok_inj in E'. subst te. cbn [fst] in *. unfold append_tuple. cbn [pk tuple].
  rewrite (with_tuple_checked name r.1 _ _ x (ro_key r Hr) Ex). cbn [encode_opt]. fold tuple in Eb. rewrite Eb. cbn [rbind].
  set (k := tuple_prefix name ++ x) in *. destruct (set_spec t k b (st_ok t E Hst)) as (t' & Es & Hu).
  rewrite exists_key_spec by apply Hst. split; [|split].
  - intros Hn. rewrite (stores_lookup_none t E k Hst Ho Hn). rewrite bool_decide_false by (by intros [? ?]).
    exists t'. split; [by destruct overwrite|]. split; [|by eapply updated_frame].
    eapply stores_set; try done. intros v Hv. by destruct (Hn v).
  - intros ->. cbn [rbind]. exists t'. split; [done|]. split; [|by eapply updated_frame].
    destruct (remove_spec t k (st_ok t E Hst)) as (t1 & _ & Hu1). eapply stores_set; [by eapply stores_remove|done| |].
    + intros v Hv. by apply elem_of_without in Hv as [? _].
    + split; [apply Hu|]. intros k'. destruct Hu as [_ L], Hu1 as [_ L1]. rewrite L, L1. by case_decide.
  - intros -> [v Hv]. apply (st_lookup t E Hst k v Ho) in Hv. rewrite Hv. cbn [rbind]. by rewrite bool_decide_true.
Qed.

(** ** Stores and rows *)

(** The entries of rows. *)
Definition entries_of (rows : list row) E : Prop := forall e, e ∈ E <-> exists r, r ∈ rows /\ entry_of r e.

Lemma entry_of_own r e : row_ok r -> entry_of r e -> own e.1.
Proof. intros Hr [Et|(me & Hm & Hs & Ei)]; [by eapply tuple_entry_own|by eapply index_entry_own]. Qed.

Lemma entries_exist rows : Forall row_ok rows -> exists E, entries_of rows E.
Proof.
  induction 1 as [|r rows Hr _ [E HE]].
  - exists []. intros e. split; [by intros ?%elem_of_nil|]. by intros (r & ?%elem_of_nil & _).
  - destruct (tuple_entry_ok r Hr) as (x & b & _ & _ & Et). destruct (index_entries_ok metas r Hr) as [es Ees]; [done|].
    exists ((tuple_prefix name ++ x, b) :: es ++ E). intros e. rewrite elem_of_cons, elem_of_app, (HE e), (index_entries_elem metas r es e Ees).
    split.
    + intros [->|[Hi|(r' & Hr' & He)]]; [exists r; split; [left|by left]|exists r; split; [left|by right]|]. exists r'. split; [by right|done].
    + intros (r' & Hr' & He). apply elem_of_cons in Hr' as [->|Hr']; [|right; right; by exists r'].
      destruct He as [Et'|He]; [left; congruence|right; by left].
Qed.

Lemma consistent_stores t rows : consistent t rows -> exists E, stores t E /\ entries_of rows E.
Proof.
  intros [H1 H2 H3 H4]. destruct (entries_exist rows H2) as [E HE]. exists E. split; [|done]. split; [done| |].
  - apply Forall_forall. intros e He. apply HE in He as (r & Hr & He). eapply entry_of_own; [|done].
    rewrite Forall_forall in H2. by apply H2.
  - intros k v Hk. rewrite (H4 k v Hk). symmetry. apply HE.
Qed.

Lemma stores_consistent t rows E :
  stores t E -> entries_of rows E -> Forall row_ok rows -> NoDup (map fst rows) -> consistent t rows.
Proof. intros Hst HE Hr Hn. split; [apply Hst|done|done|]. intros k v Hk. rewrite (st_lookup t E Hst k v Hk). apply HE. Qed.

Lemma entries_known rows E : Forall row_ok rows -> entries_of rows E -> known E.
Proof. intros Hr HE e He. apply HE in He as (r & Hin & He). rewrite Forall_forall in Hr. exists r. split; [by apply Hr|done]. Qed.

(** An index entry of a row conflicts with the entries of other rows exactly
    when the row clashes with one of them. *)
Lemma agrees_rows rows E me r e :
  Forall row_ok rows -> entries_of rows E -> row_ok r -> me ∈ metas -> is_secondary me = true -> index_entry me r = Ok e ->
  ~ agrees E e <-> exists r', r' ∈ rows /\ r'.1 <> r.1 /\ clash me r r' = true.
Proof.
  intros Hrows HE Hr Hm Hs Ei. rewrite Forall_forall in Hrows.
  destruct (tuple_id_encodes r.1 pk_ty (ro_id r Hr)) as (b & Eb & _). split.
  - intros Hn. destruct (decide (Exists (fun r' => r'.1 <> r.1 /\ clash me r r' = true) rows)) as [Hex|Hex];
      [apply Exists_exists in Hex as (r' & ? & ? & ?); by exists r'|].
    exfalso. apply Hn. intros v Hin. apply HE in Hin as (r' & Hin & He). pose proof (Hrows r' Hin) as Hr'.
    destruct He as [Et|(me' & Hm' & Hs' & Ei')].
    + exfalso. by apply (tuple_index_keys me r' r (e.1, v) e Hr' Hr Hm Et Ei).
    + destruct (decide (r.1 = r'.1)) as [Hid|Hne].
      * rewrite (index_entry_value me r e b Hr Hm Ei Eb). rewrite Hid in Eb. exact (index_entry_value me' r' (e.1, v) b Hr' Hm' Ei' Eb).
      * exfalso. apply Hex, Exists_exists. exists r'. split; [done|]. split; [congruence|].
        by apply (index_key_shared me me' r r' e (e.1, v) Hr Hr' Hm Hm' Hs Hne Ei Ei').
  - intros (r' & Hin & Hne & Hc) Ha. pose proof (Hrows r' Hin) as Hr'.
    destruct (index_entry_ok me r' Hr' Hm) as (ws & p & v & _ & _ & _ & Ev & _ & Ei'). set (k' := index_prefix name (im_id me.1) ++ p) in *.
    assert (e.1 = k') as Hk. { change k' with (k', v).1. by apply (index_key_shared me me r r' e (k', v)). }
    assert (v = e.2) as Hv. { apply Ha. rewrite Hk. apply HE. exists r'. split; [done|]. right. by exists me. }
    apply Hne. eapply (row_value_inj r' r v); try done. rewrite Hv. rewrite (index_entry_value me r e b Hr Hm Ei Eb). done.
Qed.

(** ** Placing a row *)

Definition unique_conflict (rows : list row) r : bool :=
  existsb (fun r' => negb (bool_decide (r'.1 = r.1)) && existsb (fun me => clash me r r') metas) rows.

(** Writing a row beside others: refused when another row has its values in a
    unique index, or its primary key. *)
Definition place_row (rows : list row) r : res (list row) :=
  if unique_conflict rows r then Err DuplicateUniqueValue
  else if existsb (fun r' => bool_decide (r'.1 = r.1)) rows then Err DuplicatePrimaryKey
  else Ok (r :: rows).

Lemma unique_conflict_spec rows E r es :
  Forall row_ok rows -> entries_of rows E -> row_ok r -> index_entries metas r = Ok es ->
  unique_conflict rows r = true <-> ~ Forall (agrees E) es.
Proof.
  intros Hrows HE Hr Ees. unfold unique_conflict. split.
  - intros Hc Hf. apply existsb_exists in Hc as (r' & Hin & Hc). apply andb_true_iff in Hc as [Hne Hc].
    apply negb_true_iff, bool_decide_eq_false in Hne. apply existsb_exists in Hc as (me & Hm & Hc).
    apply list_elem_of_In in Hin, Hm. assert (is_secondary me = true) as Hs.
    { unfold clash in Hc. apply andb_true_iff in Hc as [Hc _]. unfold is_secondary. by destruct (im_ty me.1). }
    destruct (index_entry_ok me r Hr Hm) as (_ & p & v & _ & _ & _ & _ & _ & Ei). rewrite Forall_forall in Hf.
    eapply (agrees_rows rows E me r _ Hrows HE Hr Hm Hs Ei); [by exists r'|]. apply Hf.
    apply (index_entries_elem metas r es _ Ees). by exists me.
  - intros Hn. apply not_false_iff_true. intros Hc. apply Hn, Forall_forall. intros e He.
    apply (index_entries_elem metas r es e Ees) in He as (me & Hm & Hs & Ei).
    destruct (decide (agrees E e)) as [|Ha]; [done|]. exfalso.
    apply (agrees_rows rows E me r e Hrows HE Hr Hm Hs Ei) in Ha as (r' & Hin & Hne & Hcl).
    apply not_true_iff_false in Hc. apply Hc, existsb_exists. exists r'. split; [by apply list_elem_of_In|].
    apply andb_true_iff. split; [by apply negb_true_iff, bool_decide_eq_false|]. apply existsb_exists. exists me.
    split; [by apply list_elem_of_In|done].
Qed.

Lemma tuple_key_taken rows E r te :
  Forall row_ok rows -> entries_of rows E -> row_ok r -> tuple_entry r = Ok te ->
  (exists v, (te.1, v) ∈ E) <-> existsb (fun r' => bool_decide (r'.1 = r.1)) rows = true.
Proof.
  intros Hrows HE Hr Et. rewrite Forall_forall in Hrows. rewrite existsb_exists. split.
  - intros [v Hin]. apply HE in Hin as (r' & Hin & [Et'|(me & Hm & Hs & Ei)]).
    + exists r'. split; [by apply list_elem_of_In|]. apply bool_decide_eq_true. symmetry.
      eapply (tuple_key_shared r r' te (te.1, v)); try done. by apply Hrows.
    + exfalso. eapply (tuple_index_keys me r r' te (te.1, v)); try done. by apply Hrows.
  - intros (r' & Hin & Hid). apply list_elem_of_In in Hin. apply bool_decide_eq_true in Hid.
    destruct (tuple_entry_ok r' (Hrows r' Hin)) as (x & b & _ & _ & Et'). exists b. apply HE. exists r'. split; [done|]. left.
    rewrite Et'. do 2 f_equal. by apply (tuple_key_shared r' r _ te (Hrows r' Hin) Hr Et' Et).
Qed.

Definition as_tuple r : Tuple := mk_tuple (Some r.1) r.2.

Lemma taken_ids rows r : existsb (fun r' : row => bool_decide (r'.1 = r.1)) rows = false <-> r.1 ∉ map fst rows.
Proof.
  rewrite <- not_true_iff_false, existsb_exists. split; intros Hn Hin; apply Hn.
  - apply list_elem_of_fmap in Hin as (r' & Hid & Hin). exists r'. split; [by apply list_elem_of_In|]. by apply bool_decide_eq_true.
  - destruct Hin as (r' & Hin & Hid). apply bool_decide_eq_true in Hid. rewrite <- Hid. apply list_elem_of_fmap_2. by apply list_elem_of_In.
Qed.

(** What a write does to the store, for the outcome [out] on the rows. *)
Definition implements t (m : res T) (out : res (list row)) : Prop :=
  match out with
  | Ok rows => exists t', m = Ok t' /\ consistent t' rows /\ frame t t'
  | Err e => m = Err e
  end.

(** A store with the entries of a new row beside those of the others. *)
Lemma placed_consistent t rows r te E0 E :
  Forall row_ok rows -> NoDup (map fst rows) -> entries_of rows E0 -> row_ok r -> tuple_entry r = Ok te -> r.1 ∉ map fst rows ->
  (forall e, e ∈ E <-> (exists me, me ∈ metas /\ is_secondary me = true /\ index_entry me r = Ok e) \/ e ∈ E0) ->
  stores t (te :: E) -> consistent t (r :: rows).
Proof.
  intros Hrows Hn HE0 Hr Et Hnew HE Hst. eapply stores_consistent; [exact Hst| |by constructor|].
  - intros e. rewrite elem_of_cons, (HE e), (HE0 e). split.
    + intros [->|[Hi|(y & Hy & He)]]; [exists r; split; [left|by left]|exists r; split; [left|by right]|exists y; split; [by right|done]].
    + intros (y & Hy & He). apply elem_of_cons in Hy as [->|Hy]; [|right; right; by exists y].
      destruct He as [Ey|?]; [left; congruence|right; by left].
  - cbn [map]. by apply NoDup_cons.
Qed.

Lemma insert_writes t rows r :
  consistent t rows -> row_ok r ->
  implements t (let? t := add_indexes t name (as_tuple r) (mk_tuple None []) metas in
    append_tuple t name (as_tuple r) ss false) (place_row rows r).
Proof.
  intros Hc Hr. destruct (consistent_stores t rows Hc) as (E & Hst & HE). pose proof (co_rows t rows Hc) as Hrows.
  destruct (index_entries_ok metas r Hr) as [es Ees]; [done|]. destruct (tuple_entry_ok r Hr) as (x & b & _ & _ & Et).
  destruct (add_indexes_spec metas (mk_tuple None []) t E r es Hst (entries_known rows E Hrows HE) Hr ltac:(done) Ees) as [Hok Herr].
  unfold implements, place_row, as_tuple. destruct (unique_conflict rows r) eqn:Eu.
  { apply (unique_conflict_spec rows E r es Hrows HE Hr Ees) in Eu. by rewrite Herr. }
  assert (Forall (agrees E) es) as Hf.
  { destruct (decide (Forall (agrees E) es)) as [|Hn]; [done|]. apply (unique_conflict_spec rows E r es Hrows HE Hr Ees) in Hn. congruence. }
  destruct (Hok Hf) as (t1 & Ea & Hst1 & Hf1). rewrite Ea. cbn [rbind].
  destruct (append_tuple_spec t1 (es ++ E) r _ false Hst1 Hr Et) as (Hfree & _ & Htaken).
  pose proof (tuple_key_taken rows E r _ Hrows HE Hr Et) as Hk. destruct (existsb _ rows) eqn:Ex.
  - apply Htaken; [done|]. destruct Hk as [_ Hk]. destruct (Hk eq_refl) as [v Hv]. exists v. apply elem_of_app. by right.
  - destruct Hfree as (t2 & E2 & Hst2 & Hf2).
    { intros v Hin. apply elem_of_app in Hin as [Hin|Hin]; [|destruct Hk as [Hk _]; assert (false = true) by (apply Hk; by exists v); done].
      apply (index_entries_elem metas r es _ Ees) in Hin as (me & Hm & _ & Ei). by apply (tuple_index_keys me r r _ _ Hr Hr Hm Et Ei). }
    exists t2. split; [done|]. split; [|by eapply frame_trans].
    eapply (placed_consistent t2 rows r _ E (es ++ E)); try done; [apply Hc|by apply taken_ids|].
    intros e. by rewrite elem_of_app, (index_entries_elem metas r es e Ees).
Qed.

(** Entries of two stored rows have different keys. *)
Lemma rows_disjoint t rows E r r' e e' :
  stores t E -> entries_of rows E -> row_ok r -> row_ok r' -> r ∈ rows -> r' ∈ rows -> r.1 <> r'.1 ->
  entry_of r e -> entry_of r' e' -> e.1 <> e'.1.
Proof.
  intros Hst HE Hr Hr' Hin Hin' Hne He He' Hk.
  assert (e = e') as <-.
  { destruct e as [k v], e' as [k' v']. cbn in Hk. subst k'. f_equal.
    eapply (stores_functional t E k); [done|..]; apply HE; eauto. }
  destruct He as [Et|(me & Hm & Hs & Ei)], He' as [Et'|(me' & Hm' & Hs' & Ei')].
  - by apply Hne, (tuple_key_shared r r' e e Hr Hr' Et Et').
  - by apply (tuple_index_keys me' r r' e e Hr Hr' Hm' Et Ei').
  - by apply (tuple_index_keys me r' r e e Hr' Hr Hm Et' Ei).
  - destruct (tuple_id_encodes r.1 pk_ty (ro_id r Hr)) as (b & Eb & _), (tuple_id_encodes r'.1 pk_ty (ro_id r' Hr')) as (b' & Eb' & _).
    pose proof (index_entry_value me r e b Hr Hm Ei Eb) as Hv. rewrite (index_entry_value me' r' e b' Hr' Hm' Ei' Eb') in Hv. subst b'.
    by apply Hne, (row_value_inj r r' b).
Qed.

Lemma head_row_ne r rows r' : NoDup (map fst (r :: rows)) -> r' ∈ rows -> r.1 <> r'.1.
Proof. cbn [map]. intros Hn Hin Hid. apply NoDup_cons in Hn as [Hn _]. apply Hn. rewrite Hid. by apply list_elem_of_fmap_2. Qed.

Lemma delete_row_spec t rows r :
  consistent t (r :: rows) -> implements t (delete_row t name metas (as_tuple r) r.1) (Ok rows).
Proof.
  intros Hc. destruct (consistent_stores t _ Hc) as (E & Hst & HE). pose proof (co_rows t _ Hc) as Hrows.
  apply Forall_cons in Hrows as [Hr Hrows]. pose proof (co_ids t _ Hc) as Hids.
  destruct (index_entries_ok metas r Hr) as [es Ees]; [done|]. destruct (tuple_entry_ok r Hr) as (x & b & _ & _ & Et).
  destruct (del_indexes_spec metas (mk_tuple None []) t E r es Hst Hr ltac:(done) Ees) as (t1 & E1 & Hst1 & Hf1).
  destruct (remove_tuple_spec t1 _ r _ Hst1 Hr Et) as (t2 & E2 & Hst2 & Hf2). unfold implements, delete_row, as_tuple.
  rewrite E1. cbn [rbind]. exists t2. split; [done|]. split; [|by eapply frame_trans].
  eapply stores_consistent; [done| |done|by apply NoDup_cons in Hids as [_ ?]].
  assert (forall e, entry_of r e -> e ∈ E) as HrE by (intros e He; apply HE; exists r; split; [left|done]).
  intros e. rewrite elem_of_without, elem_of_without_all, (HE e). split.
  - intros (Hk1 & Hk2 & r' & Hin & He). apply elem_of_cons in Hin as [->|Hin]; [|by exists r']. exfalso.
    destruct He as [Et'|He]; [rewrite Et in Et'; apply Ok_inj in Et'; by subst e|].
    apply Hk2, list_elem_of_fmap_2. by apply (index_entries_elem metas r es e Ees).
  - intros (r' & Hin & He). rewrite Forall_forall in Hrows.
    assert (forall e', entry_of r e' -> e.1 <> e'.1) as Hd.
    { intros e' He' Hk. eapply (rows_disjoint t (r :: rows) E r r' e' e); try done; [by apply Hrows|left|by right|by eapply head_row_ne]. }
    split; [by apply (Hd (tuple_prefix name ++ x, b)); left|]. split; [|exists r'; split; [by right|done]].
    intros Hin'. apply list_elem_of_fmap in Hin' as (e' & Hk & He'). apply (Hd e'); [|done]. right.
    by apply (index_entries_elem metas r es e' Ees).
Qed.

#[global] Instance consistent_proper t : Proper (Permutation ==> iff) (consistent t).
Proof.
  assert (forall rows rows', rows ≡ₚ rows' -> consistent t rows -> consistent t rows') as Hp.
  { intros rows rows' Hp [H1 H2 H3 H4]. split; [done|by rewrite <- Hp|by rewrite <- Hp|].
    intros k v Hk. rewrite (H4 k v Hk). by setoid_rewrite Hp. }
  intros rows rows' Hpp. split; by apply Hp.
Qed.

(** ** Updating a row *)

Lemma index_keys_by_index me me' r r' e e' :
  row_ok r -> row_ok r' -> me ∈ metas -> me' ∈ metas -> index_entry me r = Ok e -> index_entry me' r' = Ok e' ->
  e.1 = e'.1 -> me = me'.
Proof.
  intros Hr Hr' Hm Hm' Ei Ei' Hk.
  destruct (index_entry_ok me r Hr Hm) as (_ & p & v & _ & _ & _ & _ & _ & E).
  destruct (index_entry_ok me' r' Hr' Hm') as (_ & p' & v' & _ & _ & _ & _ & _ & E').
  rewrite Ei in E. rewrite Ei' in E'. apply Ok_inj in E, E'. subst e e'. cbn in Hk. destruct Hmetas as [_ Hrange].
  rewrite Forall_forall in Hrange. apply index_prefix_inj in Hk as [Hid _]; [|by apply Hrange|by apply Hrange]. by apply metas_same.
Qed.

Section UpdateRow.
Context (r r' : row) (Hr : row_ok r) (Hr' : row_ok r').
Context (ids : list Z) (updates_pk : bool).

Definition needs me : bool := index_needs_update me.1 ids updates_pk.

Lemma needs_secondary me : needs me = true -> is_secondary me = true.
Proof. unfold needs, index_needs_update, is_secondary. by destruct (is_primary (im_ty me.1)). Qed.

Definition old_of me (o : (IndexMeta * list ScalarExpression) * list DataValue) : Prop :=
  o.1 = me /\ index_values_of me.2 r.2 = Ok o.2.

Lemma old_index_values_spec ms result :
  ms ⊆ metas -> exists olds result', old_index_values ids updates_pk (as_tuple r) result ms = Ok (olds, result') /\
    Forall2 old_of (List.filter needs ms) olds.
Proof.
  revert result. induction ms as [|me ms IH]; intros result Hs; [by exists [], result|].
  assert (me ∈ metas) as Hm by set_solver. assert (ms ⊆ metas) as Hms by set_solver.
  destruct me as [meta exprs]. cbn [old_index_values List.filter]. unfold needs at 1. cbn [fst].
  destruct (index_needs_update meta ids updates_pk); cbn [negb].
  - destruct (row_index _ r Hr Hm) as (ws & Ew & _). cbn [snd] in Ew. rewrite rewrite_index_eval. cbn [values as_tuple]. rewrite Ew. cbn [rbind].
    destruct (IH (mk_tuple None []) Hms) as (olds & result' & -> & Ho). cbn [rbind]. eexists _, _. split; [reflexivity|]. by constructor.
  - by apply IH.
Qed.

(** While the indexes are moved: the entries of the new row where that is
    done, of the old row where it is not, and the rest. *)
Definition moving (R : list entry) (dn td : list (IndexMeta * list ScalarExpression)) E : Prop :=
  forall e, e ∈ E <-> (exists me, me ∈ dn /\ index_entry me r' = Ok e) \/ (exists me, me ∈ td /\ index_entry me r = Ok e) \/ e ∈ R.

Lemma moving_known R dn td E :
  moving R dn td E -> dn ⊆ metas -> td ⊆ metas -> Forall (fun me => is_secondary me = true) dn ->
  Forall (fun me => is_secondary me = true) td -> known R -> known E.
Proof.
  intros HE Hdn Htd Sdn Std HR e He. rewrite Forall_forall in Sdn, Std. apply HE in He as [(me & Hm & Ei)|[(me & Hm & Ei)|He]]; [..|by apply HR].
  - exists r'. split; [done|]. right. exists me. split; [by apply Hdn|]. split; [by apply Sdn|done].
  - exists r. split; [done|]. right. exists me. split; [by apply Htd|]. split; [by apply Std|done].
Qed.

Lemma moving_stay R dn me td E e :
  index_entry me r = Ok e -> index_entry me r' = Ok e -> moving R dn (me :: td) E -> moving R (me :: dn) td E.
Proof.
  intros Ee Ee' HE e1. rewrite (HE e1). split; intros [(x & Hx & Ex)|[(x & Hx & Ex)|?]]; try (by right; right).
  - left. exists x. split; [by right|done].
  - apply elem_of_cons in Hx as [->|Hx]; [left; exists me; split; [left|congruence]|right; left; by exists x].
  - apply elem_of_cons in Hx as [->|Hx]; [right; left; exists me; split; [left|congruence]|left; by exists x].
  - right; left. exists x. split; [by right|done].
Qed.

Lemma move_indexes_spec pk_changed R dn td olds tuple result t E es :
  values tuple = r'.2 ->
  stores t E -> moving R dn td E -> known R -> dn ⊆ metas -> td ⊆ metas -> NoDup td -> (forall me, me ∈ dn -> me ∉ td) ->
  Forall (fun me => is_secondary me = true) dn -> Forall (fun me => is_secondary me = true) td ->
  (forall e me e', e ∈ R -> me ∈ td -> index_entry me r = Ok e' -> e.1 <> e'.1) ->
  (pk_changed = false -> r.1 = r'.1) ->
  Forall2 old_of td olds -> rmap (fun me => index_entry me r') td = Ok es ->
  let m := move_indexes t name tuple result r.1 r'.1 pk_changed olds in
  (Forall (agrees R) es -> exists t' E', m = Ok t' /\ stores t' E' /\ moving R (td ++ dn) [] E' /\ frame t t') /\
  (~ Forall (agrees R) es -> m = Err DuplicateUniqueValue).
Proof.
  intros Hval Hst HE HR Hdn Htd Hn Hdis Sdn Std Hold Hpk Ho Ees. revert t E dn result olds es Hst HE Hdn Hdis Sdn Ho Ees.
  induction td as [|me td IH]; intros t E dn result olds es Hst HE Hdn Hdis Sdn Ho Ees m.
  { inversion Ho; subst olds. apply Ok_inj in Ees. subst es. split; [|by intros []]. intros _. exists t, E. by split. }
  apply Forall2_cons_inv_l in Ho as ([me0 ws] & olds' & [Eme Ew] & Ho & Eolds). cbn in Eme, Ew. subst me0 olds.
  cbn in Ees. apply rbind_ok in Ees as (e' & Ee' & Ees). apply rbind_ok in Ees as (es' & Ees & Hes). apply Ok_inj in Hes. subst es.
  assert (me ∈ metas) as Hm by (apply Htd; left). assert (td ⊆ metas) as Htd' by (intros x Hx; apply Htd; by right).
  assert (forall e me e', e ∈ R -> me ∈ td -> index_entry me r = Ok e' -> e.1 <> e'.1) as Hold'
    by (intros e me1 e1 He Hm1; apply Hold; [done|by right]). apply Forall_cons in Std as [Hsec Std]. apply NoDup_cons in Hn as [Hme Hn].
  destruct (row_index me r' Hr' Hm) as (ws' & Ew' & Hw'). destruct (row_index me r Hr Hm) as (ws0 & Ew0 & Hw). rewrite Ew in Ew0. apply Ok_inj in Ew0. subst ws0.
  assert (forall t1 E1, stores t1 E1 -> moving R (me :: dn) td E1 ->
    let m := move_indexes t1 name tuple (mk_tuple (pk result) ws') r.1 r'.1 pk_changed olds' in
    (Forall (agrees R) es' -> exists t' E', m = Ok t' /\ stores t' E' /\ moving R (td ++ me :: dn) [] E' /\ frame t1 t') /\
    (~ Forall (agrees R) es' -> m = Err DuplicateUniqueValue)) as IH'.
  { intros t1 E1 Hst1 HE1. apply (IH Htd' Hn Std Hold' t1 E1 (me :: dn)); try done; [| |by constructor].
    - intros x Hx. apply elem_of_cons in Hx as [->|Hx]; [done|by apply Hdn].
    - intros x Hx Hx'. apply elem_of_cons in Hx as [->|Hx]; [done|]. apply (Hdis x Hx). by right. }
  assert (forall E', moving R (td ++ me :: dn) [] E' -> moving R ((me :: td) ++ dn) [] E') as Hperm by (intros E' HE' e; rewrite (HE' e); clear; set_solver).
  subst m. destruct me as [meta exprs]. cbn [move_indexes]. rewrite rewrite_index_eval. cbn [snd fst] in *. rewrite Hval, Ew'. cbn [rbind values pk].
  destruct (negb pk_changed && key_eq ws ws') eqn:Esame.
  - (* the entry stays *)
    apply andb_true_iff in Esame as [Hp Hq]. apply negb_true_iff in Hp. specialize (Hpk Hp).
    assert (index_entry (meta, exprs) r = Ok e') as Ee.
    { apply (encode_values_eq ws ws' _ Hw Hw') in Hq. unfold index_entry, with_index in Ee' |- *. cbn [snd fst idx_values] in *.
      rewrite Ew. rewrite Ew' in Ee'. cbn [rbind] in *. by rewrite Hpk, Hq. }
    assert (agrees R e') as Ha.
    { intros v Hv. exfalso. by apply (Hold (e'.1, v) (meta, exprs) e' Hv ltac:(left) Ee). }
    destruct (IH' t E Hst) as [Hok Herr]. { by eapply moving_stay. }
    split.
    + intros Hf. apply Forall_cons in Hf as [_ Hf]. destruct (Hok Hf) as (t' & E' & ? & ? & ? & ?). exists t', E'. auto.
    + intros Hf. apply Herr. intros Hf'. by apply Hf; constructor.
  - (* the entry moves *)
    destruct (index_entry_ok _ r Hr Hm) as (_ & p & v & _ & _ & _ & _ & _ & Ee). set (k := index_prefix name (im_id meta) ++ p) in *.
    destruct (del_entry t E _ r _ ws Hst Hr Hm Hsec Ee Ew) as (t1 & Ed & Hst1 & Hf1). cbn [fst] in Ed, Hst1. rewrite Ed. cbn [rbind].
    assert (moving R dn td (without k E)) as HE1.
    { intros e. rewrite elem_of_without, (HE e). split.
      - intros [Hk [?|[(me1 & Hm1 & E1)|?]]]; [by left| |by right; right]. apply elem_of_cons in Hm1 as [->|Hm1]; [|right; left; by exists me1].
        rewrite Ee in E1. apply Ok_inj in E1. subst e. done.
      - intros He. split.
        + change k with (k, v).1. destruct He as [(me1 & Hm1 & E1)|[(me1 & Hm1 & E1)|He]]; [intros Hk..|apply (Hold e (meta, exprs)); [done|left|done]].
          * apply (index_keys_by_index me1 (meta, exprs) r' r e (k, v)) in Hk; try done; [|by apply Hdn]. subst me1. by apply (Hdis _ Hm1); left.
          * apply (index_keys_by_index me1 (meta, exprs) r r e (k, v)) in Hk; try done; [|by apply Htd']. by subst me1.
        + destruct He as [?|[(x & ? & ?)|?]]; [by left|right; left; exists x; split; [by right|done]|by right; right]. }
    assert (known (without k E)) as Hkn by (eapply (moving_known R dn td); try done).
    destruct (add_entry t1 _ _ r' e' ws' Hst1 Hkn Hr' Hm Hsec Ee' Ew') as [Hadd Hconf]. cbn [fst] in Hadd, Hconf.
    assert (agrees (without k E) e' <-> agrees R e') as Hag.
    { split; intros Ha v1 Hin; [apply Ha, HE1; by right; right|]. apply HE1 in Hin as [(me1 & Hm1 & E1)|[(me1 & Hm1 & E1)|Hin]]; [..|by apply Ha].
      - destruct (tuple_id_encodes r'.1 pk_ty (ro_id r' Hr')) as (b & Eb & _). rewrite (index_entry_value _ r' e' b Hr' Hm Ee' Eb).
        exact (index_entry_value me1 r' (e'.1, v1) b Hr' (Hdn _ Hm1) E1 Eb).
      - exfalso. assert (me1 = (meta, exprs)) as ->; [|done].
        by apply (index_keys_by_index me1 (meta, exprs) r r' (e'.1, v1) e' Hr Hr' (Htd' _ Hm1) Hm E1 Ee'). }
    destruct (decide (agrees R e')) as [Ha|Ha].
    + destruct (Hadd (proj2 Hag Ha)) as (t2 & Ea & Hst2 & Hf2). rewrite Ea. cbn [rbind].
      destruct (IH' t2 (e' :: without k E) Hst2) as [Hok Herr].
      { intros e. rewrite elem_of_cons, (HE1 e). split.
        - intros [->|[(x & ? & ?)|?]]; [left; eexists; split; [left|done]|left; exists x; split; [by right|done]|by right].
        - intros [(x & Hx & Ex)|?]; [|by right; right]. apply elem_of_cons in Hx as [->|Hx]; [left; congruence|right; left; by exists x]. }
      split.
      * intros Hf. apply Forall_cons in Hf as [_ Hf]. destruct (Hok Hf) as (t' & E' & ? & ? & ? & ?). exists t', E'.
        split; [done|]. split; [done|]. split; [by apply Hperm|]. by eapply frame_trans; [|eapply frame_trans].
      * intros Hf. apply Herr. intros Hf'. by apply Hf; constructor.
    + rewrite Hconf by (intros Hx; by apply Ha, Hag). cbn [rbind]. split; [|done]. intros Hf. by apply Forall_cons in Hf as [? _].
Qed.

(** The secondary indexes an update leaves alone. *)
Definition kept : list (IndexMeta * list ScalarExpression) := List.filter (fun me => is_secondary me && negb (needs me)) metas.
Definition moved : list (IndexMeta * list ScalarExpression) := List.filter needs metas.

Lemma kept_elem me : me ∈ kept <-> me ∈ metas /\ is_secondary me = true /\ needs me = false.
Proof. unfold kept. rewrite !list_elem_of_In, filter_In, andb_true_iff, negb_true_iff. done. Qed.

Lemma moved_elem me : me ∈ moved <-> me ∈ metas /\ needs me = true.
Proof. unfold moved. rewrite !list_elem_of_In. apply filter_In. Qed.

Lemma kept_or_moved me : (me ∈ moved ++ kept) <-> me ∈ metas /\ is_secondary me = true.
Proof.
  rewrite elem_of_app, kept_elem, moved_elem. pose proof (needs_secondary me). destruct (needs me) eqn:En; naive_solver.
Qed.

Context (Hkeep : forall me, me ∈ kept -> index_entry me r' = index_entry me r).

(** The entries of a table that has the row and [rows]. *)
Definition split_entries (te : entry) (E0 E : list entry) : Prop :=
  forall e, e ∈ E <-> e = te \/ (exists me, me ∈ metas /\ is_secondary me = true /\ index_entry me r = Ok e) \/ e ∈ E0.

Lemma entries_split rows E0 E te :
  tuple_entry r = Ok te -> entries_of rows E0 -> entries_of (r :: rows) E -> split_entries te E0 E.
Proof.
  intros Et HE0 HE e. rewrite (HE e), (HE0 e). split.
  - intros (x & Hx & He). apply elem_of_cons in Hx as [->|Hx]; [|right; right; by exists x].
    destruct He as [Et'|?]; [left; congruence|right; by left].
  - intros [->|[Hi|(x & Hx & He)]]; [exists r; split; [left|by left]|exists r; split; [left|by right]|exists x; split; [by right|done]].
Qed.

Lemma split_moving te E0 E :
  split_entries te E0 E -> moving (te :: E0) kept moved E.
Proof.
  intros HE e. rewrite (HE e), elem_of_cons. split.
  - intros [->|[(me & Hm & Hs & Ei)|?]]; [by right; right; left| |by right; right; right].
    destruct (needs me) eqn:En; [right; left|left]; exists me.
    + split; [by apply moved_elem|done].
    + assert (me ∈ kept) as Hkm by (by apply kept_elem). split; [done|]. by rewrite Hkeep.
  - intros [(me & Hm & Ei)|[(me & Hm & Ei)|[->|?]]]; [right; left..|by left|by right; right]; exists me.
    + rewrite Hkeep in Ei by done. by apply kept_elem in Hm as (? & ? & _).
    + apply moved_elem in Hm as [? ?]. by split_and!; [|apply needs_secondary|].
Qed.

Lemma moving_remove te E0 E :
  tuple_entry r = Ok te -> (forall v, (te.1, v) ∉ E0) -> moving (te :: E0) kept moved E -> moving E0 kept moved (without te.1 E).
Proof.
  intros Et Hn HE e. rewrite elem_of_without, (HE e), elem_of_cons. split.
  - intros [Hk [?|[?|[->|?]]]]; [by left|by right; left|done|by right; right].
  - intros He. split; [|destruct He as [?|[?|?]]; [by left|by right; left|by right; right; right]].
    intros Hk. destruct He as [(me & Hm & Ei)|[(me & Hm & Ei)|He]].
    + apply kept_elem in Hm as (Hm & _ & _). by apply (tuple_index_keys me r r' te e Hr Hr' Hm Et Ei).
    + apply moved_elem in Hm as [Hm _]. by apply (tuple_index_keys me r r te e Hr Hr Hm Et Ei).
    + apply (Hn e.2). rewrite <- Hk. by destruct e.
Qed.

Lemma moved_all R E :
  moving R (moved ++ kept) [] E ->
  forall e, e ∈ E <-> (exists me, me ∈ metas /\ is_secondary me = true /\ index_entry me r' = Ok e) \/ e ∈ R.
Proof.
  intros HE e. rewrite (HE e). split.
  - intros [(me & Hm & Ei)|[(me & Hm & _)|?]]; [left|by apply elem_of_nil in Hm|by right].
    apply kept_or_moved in Hm as [? ?]. by exists me.
  - intros [(me & Hm & Hs & Ei)|?]; [left; exists me; split; [by apply kept_or_moved|done]|by right; right].
Qed.

(** Moving the entries fails exactly when the new row conflicts with another. *)
Lemma moved_conflict rows E0 R te es :
  Forall row_ok rows -> entries_of rows E0 -> tuple_entry r = Ok te -> R = E0 \/ R = te :: E0 ->
  (forall e me e', e ∈ E0 -> me ∈ metas -> is_secondary me = true -> index_entry me r = Ok e' -> e.1 <> e'.1) ->
  rmap (fun me => index_entry me r') moved = Ok es ->
  Forall (agrees R) es <-> unique_conflict rows r' = false.
Proof.
  intros Hrows HE0 Et HR Hd Ees. destruct (index_entries_ok metas r' Hr') as [es0 Ees0]; [done|].
  assert (Forall (agrees R) es <-> Forall (agrees E0) es0) as ->.
  { apply rmap_Ok in Ees. rewrite !Forall_forall. split.
    - intros Hf e He. apply (index_entries_elem metas r' es0 e Ees0) in He as (me & Hm & Hs & Ei). destruct (needs me) eqn:En.
      + assert (me ∈ moved) as Hmm by (by apply moved_elem). apply list_elem_of_lookup in Hmm as [j Hj].
        destruct (Forall2_lookup_l _ _ _ _ _ Ees Hj) as (e1 & He1 & E1). rewrite Ei in E1. apply Ok_inj in E1. subst e1.
        intros v Hv. apply (Hf e); [by eapply list_elem_of_lookup_2|]. destruct HR as [->| ->]; [done|by right].
      + intros v Hv. exfalso. rewrite Hkeep in Ei by (by apply kept_elem). by apply (Hd _ _ _ Hv Hm Hs Ei).
    - intros Hf e He. apply list_elem_of_lookup in He as [j Hj]. destruct (Forall2_lookup_r _ _ _ _ _ Ees Hj) as (me & Hme & Ei).
      apply list_elem_of_lookup_2, moved_elem in Hme as [Hm Hn]. intros v Hv.
      assert ((e.1, v) ∈ E0) as Hv0.
      { destruct HR as [->| ->]; [done|]. apply elem_of_cons in Hv as [Hv|Hv]; [|done]. exfalso. rewrite <- Hv in Et.
        by apply (tuple_index_keys me r r' (e.1, v) e Hr Hr' Hm Et Ei). }
      apply (Hf e); [|done]. apply (index_entries_elem metas r' es0 e Ees0). exists me. split_and!; [done|by apply needs_secondary|done]. }
  pose proof (unique_conflict_spec rows E0 r' es0 Hrows HE0 Hr' Ees0) as Hu. destruct (unique_conflict rows r'); [|].
  - split; [|done]. intros Hf. by apply Hu in Hf.
  - split; [done|]. intros _. destruct (decide (Forall (agrees E0) es0)) as [|Hn]; [done|]. by apply Hu in Hn.
Qed.

Lemma moved_entries_ok : exists es, rmap (fun me => index_entry me r') moved = Ok es.
Proof.
  assert (forall ms, ms ⊆ metas -> exists es, rmap (fun me => index_entry me r') ms = Ok es) as Hall.
  { induction ms as [|me ms IH]; intros Hs; [by exists []|]. cbn.
    destruct (index_entry_ok me r' Hr') as (_ & p & v & _ & _ & _ & _ & _ & ->); [set_solver|].
    destruct IH as [es ->]; [set_solver|]. by eexists. }
  apply Hall. intros me Hm. by apply moved_elem in Hm as [? _].
Qed.

Lemma moved_NoDup : NoDup moved.
Proof.
  unfold moved. destruct Hmetas as [Hn _]. apply NoDup_fmap_1 in Hn. clear -Hn. induction metas as [|me ms IH]; cbn; [constructor|].
  apply NoDup_cons in Hn as [Hm Hn]. destruct (needs me); [|by apply IH]. apply NoDup_cons. split; [|by apply IH].
  intros Hin. apply Hm. apply list_elem_of_In, filter_In in Hin as [Hin _]. by apply list_elem_of_In.
Qed.

(** Moving the entries of all the indexes. *)
Lemma move_all t E R te rows E0 olds tuple result pk_changed :
  values tuple = r'.2 ->
  stores t E -> moving R kept moved E -> known R -> Forall row_ok rows -> entries_of rows E0 -> tuple_entry r = Ok te ->
  R = E0 \/ R = te :: E0 ->
  (forall e me e', e ∈ E0 -> me ∈ metas -> is_secondary me = true -> index_entry me r = Ok e' -> e.1 <> e'.1) ->
  (pk_changed = false -> r.1 = r'.1) -> Forall2 old_of moved olds ->
  let m := move_indexes t name tuple result r.1 r'.1 pk_changed olds in
  if unique_conflict rows r' then m = Err DuplicateUniqueValue
  else exists t' E', m = Ok t' /\ stores t' E' /\ frame t t' /\
    forall e, e ∈ E' <-> (exists me, me ∈ metas /\ is_secondary me = true /\ index_entry me r' = Ok e) \/ e ∈ R.
Proof.
  intros Hval Hst HE HR Hrows HE0 Et HRE Hd Hpk Ho m. destruct moved_entries_ok as [es Ees].
  pose proof (moved_conflict rows E0 R te es Hrows HE0 Et HRE Hd Ees) as Hc.
  assert (kept ⊆ metas) as Hk1 by (by intros me (? & _ & _)%kept_elem). assert (moved ⊆ metas) as Hm1 by (by intros me (? & _)%moved_elem).
  destruct (move_indexes_spec pk_changed R kept moved olds tuple result t E es) as [Hok Herr]; try done.
  - apply moved_NoDup.
  - intros me (_ & _ & Hn)%kept_elem (_ & Hn')%moved_elem. congruence.
  - apply Forall_forall. by intros me (_ & ? & _)%kept_elem.
  - apply Forall_forall. intros me (_ & ?)%moved_elem. by apply needs_secondary.
  - intros e me e' He (Hm & Hn)%moved_elem Ei. destruct HRE as [->| ->]; [eapply Hd; try done; by apply needs_secondary|].
    apply elem_of_cons in He as [->|He]; [by apply (tuple_index_keys me r r te e')|eapply Hd; try done; by apply needs_secondary].
  - destruct (unique_conflict rows r').
    + apply Herr. intros Hf. by apply Hc in Hf.
    + destruct Hok as (t' & E' & Em & Hst' & HE' & Hf); [by apply Hc|]. exists t', E'. split_and!; try done. by apply moved_all.
Qed.

Lemma update_row_spec t rows snapshot schema m :
  consistent t (r :: rows) -> index_metas snapshot = metas -> map fst m = ids ->
  assign m schema 0 r.2 = Ok r'.2 -> primary_projection (snap_primary_key_indices snapshot) r'.2 = Ok r'.1 ->
  implements t (update_row t name snapshot ss schema m updates_pk (as_tuple r) r.1) (place_row rows r').
Proof.
  intros Hc Hsm Hids Ha Hp. destruct (consistent_stores t _ Hc) as (E & Hst & HE). pose proof (co_rows t _ Hc) as Hrows.
  apply Forall_cons in Hrows as [_ Hrows]. pose proof (co_ids t _ Hc) as Hn. destruct (entries_exist rows Hrows) as [E0 HE0].
  destruct (tuple_entry_ok r Hr) as (x & b & _ & _ & Et), (tuple_entry_ok r' Hr') as (x' & b' & _ & _ & Et').
  set (te := (tuple_prefix name ++ x, b)) in *. set (te' := (tuple_prefix name ++ x', b')) in *.
  assert (forall e e', e ∈ E0 -> entry_of r e' -> e.1 <> e'.1) as Hd.
  { intros e e' (y & Hy & He)%HE0 He' Hk. rewrite Forall_forall in Hrows.
    eapply (rows_disjoint t (r :: rows) E r y e' e); try done; [by apply Hrows|left|by right|by eapply head_row_ne]. }
  assert (forall e me e', e ∈ E0 -> me ∈ metas -> is_secondary me = true -> index_entry me r = Ok e' -> e.1 <> e'.1) as Hd'
    by (intros e me e' He Hm Hs Ei; apply Hd; [done|right; by exists me]).
  assert (forall v, (te.1, v) ∉ E0) as Hte by (intros v Hv; by apply (Hd (te.1, v) te Hv); [left|]).
  pose proof (split_moving te E0 E (entries_split rows E0 E te Et HE0 HE)) as Hmv.
  destruct (old_index_values_spec metas (mk_tuple None [])) as (olds & result & Eo & Ho); [done|]. fold moved in Ho.
  unfold update_row. rewrite Hsm, Hids. change (values (as_tuple r)) with r.2. rewrite Eo. cbn [rbind]. rewrite Ha. cbn [rbind]. rewrite Hp. cbn [rbind].
  fold (as_tuple r'). pose proof (primary_key_eq r'.1 r.1 pk_ty (ro_key _ Hr') (ro_key _ Hr) (proj1 (ro_id _ Hr')) (proj1 (ro_id _ Hr))) as Hpk.
  pose proof (tuple_key_taken rows E0 r' te' Hrows HE0 Hr' Et') as Htaken.
  assert (forall me e, me ∈ metas -> index_entry me r' = Ok e -> te'.1 <> e.1) as Hti
    by (intros me e Hm Ei; exact (tuple_index_keys me r' r' te' e Hr' Hr' Hm Et' Ei)).
  assert (NoDup (map fst rows)) as Hn0 by (by apply NoDup_cons in Hn as [_ ?]).
  unfold implements, place_row. destruct (dv_eq r'.1 r.1) eqn:Edv; cbn [negb].
  - (* the primary key stays *)
    assert (r'.1 = r.1) as Hid by (by apply Hpk). cbn [rbind].
    pose proof (move_all t E (te :: E0) te rows E0 olds (mk_tuple (pk (as_tuple r)) r'.2) result false eq_refl Hst Hmv) as Hmove. cbn zeta in Hmove.
    assert (known (te :: E0)) as Hkn.
    { intros e He. apply elem_of_cons in He as [->|He]; [exists r; split; [done|by left]|by eapply entries_known]. }
    specialize (Hmove Hkn Hrows HE0 Et (or_intror eq_refl) Hd' (fun _ => eq_sym Hid) Ho).
    destruct (unique_conflict rows r'); [by rewrite Hmove|]. destruct Hmove as (t1 & E1 & -> & Hst1 & Hf1 & HE1). cbn [rbind].
    assert (r'.1 ∉ map fst rows) as Hnew by (rewrite Hid; by apply NoDup_cons in Hn as [? _]).
    rewrite (proj2 (taken_ids rows r') Hnew).
    destruct (append_tuple_spec t1 E1 r' te' true Hst1 Hr' Et') as (_ & Hov & _). destruct (Hov eq_refl) as (t2 & E2 & Hst2 & Hf2).
    exists t2. split; [exact E2|]. split; [|by eapply frame_trans]. eapply (placed_consistent t2 rows r' te' E0 _ Hrows Hn0 HE0 Hr' Et' Hnew); [|exact Hst2].
    assert (te.1 = te'.1) as Hkk by (by apply (tuple_key_shared r r' te te' Hr Hr' Et Et')).
    intros e. rewrite elem_of_without, (HE1 e), elem_of_cons. split.
    + intros [Hk [?|[->|?]]]; [by left|by rewrite Hkk in Hk|by right].
    + intros [(me & Hm & Hs & Ei)|He].
      * split; [intros Hk; by apply (Hti me e Hm Ei)|left; by exists me].
      * split; [|by right; right]. rewrite <- Hkk. apply Hd; [done|by left].
  - (* the primary key changes *)
    destruct (remove_tuple_spec t E r te Hst Hr Et) as (t1 & E1 & Hst1 & Hf1). rewrite E1. cbn [rbind].
    pose proof (move_all t1 _ E0 te rows E0 olds (mk_tuple (pk (as_tuple r)) r'.2) result true eq_refl Hst1 (moving_remove te E0 E Et Hte Hmv)
      (entries_known rows E0 Hrows HE0) Hrows HE0 Et (or_introl eq_refl) Hd' ltac:(done) Ho) as Hmove. cbn zeta in Hmove.
    destruct (unique_conflict rows r'); [by rewrite Hmove|]. destruct Hmove as (t2 & E2 & -> & Hst2 & Hf2 & HE2). cbn [rbind].
    destruct (append_tuple_spec t2 E2 r' te' false Hst2 Hr' Et') as (Hfree & _ & Hdup).
    destruct (existsb _ rows) eqn:Ex.
    + apply Hdup; [done|]. destruct Htaken as [_ Htaken]. destruct (Htaken eq_refl) as [v Hv]. exists v. apply HE2. by right.
    + destruct Hfree as (t3 & E3 & Hst3 & Hf3).
      { intros v Hv. apply HE2 in Hv as [(me & Hm & Hs & Ei)|Hv]; [by apply (Hti me (te'.1, v) Hm Ei)|].
        destruct Htaken as [Htaken _]. assert (false = true) by (apply Htaken; by exists v). done. }
      exists t3. split; [exact E3|]. split; [|by eapply frame_trans; [|eapply frame_trans]].
      by apply (placed_consistent t3 rows r' te' E0 E2 Hrows Hn0 HE0 Hr' Et' (proj1 (taken_ids rows r') Ex)).
Qed.
End UpdateRow.
End Entries.
