(* ===== verification/DmlNodes.v ===== *)
(** INSERT, UPDATE and DELETE as statements: the executor nodes on a table
    whose catalog is well formed.

    [insert_all], [update_all] and the list itself for DELETE are the
    statements on rows; the theorems say that the nodes implement them, keep
    rows and index entries together, touch no key outside the table, and
    report the number of rows. *)

From S2P Require Import Prelude MachineInt Types Operators Reader Value Chrono Text MemComparable Evaluators Casts Expr.
From S2P Require Import Serdes TableCodec Row Collections Exec Transaction Memory Storage Catalog Dml DmlSpec.
From stdpp Require Import base tactics list numbers option gmap fin_maps sorting.
From Stdlib Require Import ZArith Lia.
Local Open Scope Z_scope.

Section Statements.
Context {T : Type} `{Transaction T}.
Context {OF : OrderedFloat} {CH : Chrono} {SF : ScalarFunctions}.
Context (expression : ExprRef -> ScalarExpression).
Context (table : TableCatalog) (snapshot : DmlTableSnapshot) (ss : list TupleValueSerializableImpl).
Context (Hwf : table_wf table) (Hsnap : dml_snapshot table = Ok snapshot).
Context (Hss : serializers_of (tc_columns table) = Ok ss).
Implicit Types (t : T) (r : row).

Notation name := (tc_name table).
Notation metas := (index_metas snapshot).
Notation pk_ty := (tc_primary_keys_type table).
Notation row_ok := (row_ok metas ss pk_ty).
Notation consistent := (consistent name metas ss pk_ty).
Notation frame := (frame name metas).
Notation place_row := (place_row metas).

Lemma snapshot_parts :
  snap_columns snapshot = tc_columns table /\ snap_primary_key_indices snapshot = primary_key_indices table /\
  Forall2 (fun m me => me.1 = m /\ exists tys ps, positions table (im_column_ids m) ps /\ length tys = length ps /\
    me.2 = zip_with ScalarExpression.ColumnRef tys ps) (tc_indexes table) metas.
Proof. destruct (dml_snapshot_ok table Hwf) as (s & E & ?). rewrite Hsnap in E. apply Ok_inj in E. by subst s. Qed.

Lemma snapshot_metas_ok : metas_ok metas.
Proof.
  destruct snapshot_parts as (_ & _ & Hm).
  assert (map (fun me : IndexMeta * list ScalarExpression => im_id me.1) metas = map im_id (tc_indexes table)) as Hids.
  { clear -Hm. induction Hm as [|m me ms mes [<- _] _ IH]; [done|]. cbn. by rewrite IH. }
  split.
  - rewrite Hids. pose proof (wf_index_ids table Hwf) as Hs. clear -Hs. induction Hs as [|x xs _ IH Hf]; [constructor|].
    apply NoDup_cons. split; [|done]. intros Hin. rewrite Forall_forall in Hf. specialize (Hf x Hin). lia.
  - pose proof (wf_index_range table Hwf) as Hr. clear -Hm Hr. induction Hm as [|m me ms mes [<- _] _ IH]; [done|].
    apply Forall_cons in Hr as [Hr Hrs]. constructor; [done|by apply IH].
Qed.

(** ** INSERT *)

(** The row that an input row becomes. *)
Definition prepared (schema : list ColumnCatalog) (by_name : bool) (input : Tuple) r : Prop :=
  row_ok r /\ exists m, tuple_map by_name schema (values input) [] = Ok m /\
    insert_values expression by_name (tc_columns table) m = Ok r.2 /\
    primary_projection (primary_key_indices table) r.2 = Ok r.1.

Definition insert_all (rows rs : list row) : res (list row) := rfold place_row rows rs.

Lemma insert_loop_spec schema by_name ts rs t rows n :
  consistent t rows -> Forall2 (prepared schema by_name) ts rs ->
  match insert_all rows rs with
  | Ok rows' => exists t', insert_loop expression t name snapshot ss schema false by_name ts None n =
      Ok (t', n + Z.of_nat (length rs)) /\ consistent t' rows' /\ frame t t'
  | Err e => insert_loop expression t name snapshot ss schema false by_name ts None n = Err e
  end.
Proof.
  intros Hc Hp. destruct snapshot_parts as (Hcols & Hpk & _). revert t rows n Hc.
  induction Hp as [|input r ts rs (Hr & m & Em & Ev & Ep) _ IH]; intros t rows n Hc.
  { exists t. cbn. rewrite Z.add_0_r. split; [done|]. by split. }
  cbn [insert_all rfold insert_loop]. unfold insert_row. rewrite Em. cbn [rbind]. rewrite Hcols, Ev. cbn [rbind]. rewrite Hpk, Ep. cbn [rbind].
  pose proof (insert_writes name metas ss pk_ty snapshot_metas_ok t rows r Hc Hr) as Hw. unfold implements, as_tuple in Hw.
  destruct (place_row rows r) as [rows1|e]; cbn [rbind]; [|by rewrite Hw].
  destruct Hw as (t1 & -> & Hc1 & Hf1). cbn [rbind]. specialize (IH t1 rows1 (n + 1) Hc1). fold (insert_all rows1 rs).
  destruct (insert_all rows1 rs) as [rows2|e]; [|done]. destruct IH as (t2 & E2 & Hc2 & Hf2). exists t2. rewrite E2.
  split; [do 2 f_equal; cbn [length]; lia|]. split; [done|]. by eapply frame_trans.
Qed.

(** ** DELETE *)

Lemma delete_loop_spec rs t rest n :
  consistent t (rs ++ rest) ->
  exists t', delete_loop t name metas (map as_tuple rs) None n = Ok (t', n + Z.of_nat (length rs)) /\
    consistent t' rest /\ frame t t'.
Proof.
  revert t n. induction rs as [|r rs IH]; intros t n Hc.
  { exists t. cbn. rewrite Z.add_0_r. split; [done|]. by split. }
  destruct (delete_row_spec name metas ss pk_ty snapshot_metas_ok t (rs ++ rest) r Hc) as (t1 & E1 & Hc1 & Hf1).
  destruct (IH t1 (n + 1) Hc1) as (t2 & E2 & Hc2 & Hf2). exists t2. cbn [map delete_loop as_tuple pk]. fold (as_tuple r).
  rewrite E1. cbn [rbind]. rewrite E2. split; [do 2 f_equal; cbn [length]; lia|]. split; [done|]. by eapply frame_trans.
Qed.

Lemma templates_snapshot : index_templates table = Ok metas.
Proof.
  unfold dml_snapshot in Hsnap. unfold index_templates. destruct (rmap _ (tc_indexes table)) as [ms|]; [|done]. cbn [rbind] in Hsnap.
  apply Ok_inj in Hsnap. by rewrite <- Hsnap.
Qed.

(** ** UPDATE *)

Lemma assign_keeps m schema i vs vs' :
  assign m schema i vs = Ok vs' ->
  length vs' = length vs /\
  forall p, (p < i)%nat \/ (exists c id, schema !! (p - i)%nat = Some c /\ column_id c = Some id /\ id ∉ map fst m) -> vs' !! p = vs !! p.
Proof.
  revert i vs. induction schema as [|c schema IH]; intros i vs E; cbn [assign] in E.
  { apply Ok_inj in E. by subst vs'. }
  assert (forall id, assigned m id = None <-> id ∉ map fst m) as Hm.
  { clear. intros id. induction m as [|[id' e] m IH]; cbn; [split; [intros _; apply not_elem_of_nil|done]|].
    rewrite not_elem_of_cons, <- IH. destruct (Z.eqb_spec id id'); naive_solver. }
  assert (forall vs1, assign m schema (S i) vs1 = Ok vs' -> length vs1 = length vs ->
    (forall p, (p <> i \/ exists c0 id, (c :: schema) !! (p - i)%nat = Some c0 /\ column_id c0 = Some id /\ id ∉ map fst m) -> vs1 !! p = vs !! p) ->
    length vs' = length vs /\ forall p, (p < i)%nat \/ (exists c0 id, (c :: schema) !! (p - i)%nat = Some c0 /\ column_id c0 = Some id /\ id ∉ map fst m) ->
      vs' !! p = vs !! p) as Hstep.
  { intros vs1 E1 Hl Hsame. destruct (IH (S i) vs1 E1) as [Hl' H']. split; [congruence|]. intros p Hp.
    assert (vs1 !! p = vs !! p) as <- by (apply Hsame; destruct Hp as [Hp|Hp]; [left; lia|by right]).
    apply H'. destruct Hp as [Hp|(c0 & id & Hc & Hid & Hn)]; [left; lia|].
    destruct (Nat.lt_ge_cases p (S i)) as [|Hge]; [by left|]. right. exists c0, id. split; [|done].
    by replace (p - i)%nat with (S (p - S i)) in Hc by lia. }
  destruct (column_id c) as [id|] eqn:Eid; [|by apply (Hstep vs)].
  destruct (assigned m id) as [e|] eqn:Ea; [|by apply (Hstep vs)].
  apply rbind_ok in E as (v & _ & E). destruct (Nat.ltb_spec i (length vs)) as [Hi|]; [|done].
  apply (Hstep _ E); [by rewrite length_insert|]. intros p Hp. rewrite list_lookup_insert_ne; [done|]. intros <-.
  destruct Hp as [Hp|(c0 & id0 & Hc & Hid & Hn)]; [done|]. rewrite Nat.sub_diag in Hc. cbn in Hc. injection Hc as <-.
  rewrite Eid in Hid. injection Hid as <-. apply Hm in Hn. congruence.
Qed.

(** An update leaves the values of the columns it does not assign. *)
Lemma assign_column m vs vs' id p :
  assign m (tc_columns table) 0 vs = Ok vs' -> columns_by_id table !! id = Some p -> id ∉ map fst m -> vs' !! p = vs !! p.
Proof.
  intros E Hp Hn. apply (wf_by_id table Hwf) in Hp as (c & Hc & Hid). apply (assign_keeps _ _ _ _ _ E). right.
  exists c, id. by rewrite Nat.sub_0_r.
Qed.

Lemma kept_values m me vs vs' :
  assign m (tc_columns table) 0 vs = Ok vs' -> me ∈ metas ->
  existsb (fun id => bool_decide (id ∈ map fst m)) (im_column_ids me.1) = false ->
  index_values_of me.2 vs' = index_values_of me.2 vs.
Proof.
  intros E Hm Hn. destruct snapshot_parts as (_ & _ & Hms). apply list_elem_of_lookup in Hm as [j Hj].
  destruct (Forall2_lookup_r _ _ _ _ _ Hms Hj) as (m0 & _ & Hme & tys & ps & Hps & _ & Ee). rewrite Ee. rewrite Hme in Hn. clear -E Hn Hps Hwf.
  unfold positions in Hps. revert tys. induction Hps as [|id p ids ps Hp _ IH]; intros [|ty tys]; try done.
  cbn [existsb] in Hn. apply orb_false_iff in Hn as [Hid Hn]. apply bool_decide_eq_false in Hid.
  unfold index_values_of in *. cbn [zip_with rmap eval]. rewrite (assign_column m vs vs' id p E Hp Hid).
  destruct (vs !! p); cbn [rbind]; [|done]. by rewrite (IH Hn).
Qed.

Lemma kept_primary_key m vs vs' :
  assign m (tc_columns table) 0 vs = Ok vs' -> touches_primary_key snapshot (map fst m) = false ->
  primary_projection (primary_key_indices table) vs' = primary_projection (primary_key_indices table) vs.
Proof.
  intros E Ht. unfold touches_primary_key in Ht. destruct snapshot_parts as (Hc & Hpk & _). rewrite Hc, Hpk in Ht.
  assert (Forall (fun i => value_at vs' i = value_at vs i) (primary_key_indices table)) as Hf.
  { pose proof (wf_relation table Hwf) as Hrel. rewrite Forall_lookup in Hrel. pose proof (wf_primary table Hwf) as Hp.
    apply Forall_forall. intros i Hi. unfold value_at.
    assert (exists c, tc_columns table !! i = Some c) as [c Hci].
    { unfold build_primary_keys in Hp. apply rbind_ok in Hp as (keys & Hk & Hp). apply Ok_inj in Hp. injection Hp as _ Hp. rewrite Hp in Hk.
      apply rmap_Ok in Hk. apply list_elem_of_lookup in Hi as [j Hj]. destruct (Forall2_lookup_l _ _ _ _ _ Hk Hj) as (y & _ & Hy).
      destruct (tc_columns table !! i) as [c|]; [by exists c|done]. }
    destruct (Hrel i c Hci) as [id Hid]. assert (column_id c = Some id) as Hcid by (unfold column_id; by rewrite Hid).
    assert (id ∉ map fst m) as Hn.
    { intros Hin. apply not_true_iff_false in Ht. apply Ht, existsb_exists. exists i. split; [by apply list_elem_of_In|].
      rewrite Hci, Hcid. by apply bool_decide_eq_true. }
    rewrite (assign_column m vs vs' id i E); [done| |done]. apply (wf_by_id table Hwf). by exists c. }
  unfold primary_projection. destruct (1 <? length (primary_key_indices table))%nat.
  - assert (rmap (value_at vs') (primary_key_indices table) = rmap (value_at vs) (primary_key_indices table)) as ->; [|done].
    clear -Hf. induction Hf as [|i is_ Hi _ IH]; [done|]. cbn. by rewrite Hi, IH.
  - destruct (primary_key_indices table) as [|i is_]; [done|]. by apply Forall_cons in Hf as [? _].
Qed.

(** A row and what the assignments make of it. *)
Definition assigns (m : list (Z * ScalarExpression)) (p : row * row) : Prop :=
  row_ok p.2 /\ primary_projection (primary_key_indices table) p.1.2 = Ok p.1.1 /\
  assign m (tc_columns table) 0 p.1.2 = Ok p.2.2 /\ primary_projection (primary_key_indices table) p.2.2 = Ok p.2.1.

Lemma assigns_keep m p me :
  assigns m p -> me ∈ kept metas (map fst m) (touches_primary_key snapshot (map fst m)) ->
  index_entry name me p.2 = index_entry name me p.1.
Proof.
  intros (_ & Hp & Ha & Hp') Hm. apply kept_elem in Hm as (Hm & Hs & Hn). unfold needs, index_needs_update in Hn.
  unfold is_secondary in Hs. apply negb_true_iff in Hs. rewrite Hs in Hn. apply orb_false_iff in Hn as [Ht Hn].
  rewrite (kept_primary_key m _ _ Ha Ht), Hp in Hp'. apply Ok_inj in Hp'.
  unfold index_entry. by rewrite (kept_values m me _ _ Ha Hm Hn), Hp'.
Qed.

(** Each row is taken out and put back changed, one after the other. *)
Fixpoint update_all (ps : list (row * row)) (others : list row) : res (list row) :=
  match ps with
  | [] => Ok others
  | (r, r') :: ps' => let? _ := place_row (map fst ps' ++ others) r' in update_all ps' (r' :: others)
  end.

Lemma update_loop_spec m ps t others n :
  consistent t (map fst ps ++ others) -> Forall (assigns m) ps ->
  let run := update_loop t name snapshot ss (tc_columns table) m (touches_primary_key snapshot (map fst m))
    (map (fun p => as_tuple p.1) ps) None n in
  match update_all ps others with
  | Ok rows' => exists t', run = Ok (t', n + Z.of_nat (length ps)) /\ consistent t' rows' /\ frame t t'
  | Err e => run = Err e
  end.
Proof.
  intros Hc Hp. destruct snapshot_parts as (_ & Hpk & _). revert t others n Hc.
  induction Hp as [|[r r'] ps Hp Hps IH]; intros t others n Hc run.
  { exists t. subst run. cbn. rewrite Z.add_0_r. split; [done|]. by split. }
  pose proof (fun me => assigns_keep m _ me Hp) as Hkeep. destruct Hp as (Hr' & Hp & Ha & Hp'). cbn [fst snd map app] in *.
  pose proof (co_rows _ _ _ _ _ _ Hc) as Hrows. apply Forall_cons in Hrows as [Hr _].
  pose proof (update_row_spec name metas ss pk_ty snapshot_metas_ok r r' Hr Hr' (map fst m) _ Hkeep t (map fst ps ++ others) snapshot
    (tc_columns table) m Hc eq_refl eq_refl Ha ltac:(by rewrite Hpk)) as Hw.
  subst run. cbn [update_all update_loop as_tuple pk fst]. fold (as_tuple r). unfold implements in Hw.
  destruct (place_row (map fst ps ++ others) r') as [rows1|e] eqn:Ep; cbn [rbind]; [|by rewrite Hw].
  destruct Hw as (t1 & -> & Hc1 & Hf1). cbn [rbind].
  assert (rows1 = r' :: map fst ps ++ others) as ->.
  { unfold DmlSpec.place_row in Ep. destruct (unique_conflict _ _ _); [done|]. destruct (existsb _ _); [done|]. by apply Ok_inj in Ep. }
  rewrite Permutation_middle in Hc1. specialize (IH t1 (r' :: others) (n + 1) Hc1). cbn zeta in IH.
  destruct (update_all ps (r' :: others)) as [rows2|e]; [|done]. destruct IH as (t2 & E2 & Hc2 & Hf2). exists t2. rewrite E2.
  split; [do 2 f_equal; cbn [length]; lia|]. split; [done|]. by eapply frame_trans.
Qed.

(** ** The nodes *)

(** C3: INSERT. On a table whose rows and index entries belong together, the
    node writes the rows one after the other: a row whose values another row
    has in a unique index, or whose primary key is taken, makes the statement
    fail with that error; otherwise the table has exactly the old rows and the
    new ones, every index has exactly their entries, no key outside the table
    changes, and the node reports the number of rows. *)
Theorem insert_refines schema by_name ts rs t rows :
  primary_key_indices table <> [] -> consistent t rows -> Forall2 (prepared schema by_name) ts rs ->
  let node input := mk_insert name schema input false by_name in
  let run := insert_next expression (Some table) (node (Some (mk_stream ts None))) t in
  match insert_all rows rs with
  | Ok rows' => exists t', run = Ok (Some (build_result (int_to_string (Z.of_nat (length rs)))), node None, t') /\
      consistent t' rows' /\ frame t t'
  | Err e => run = Err e
  end.
Proof.
  intros Hpk Hc Hp node run. destruct snapshot_parts as (Hcols & Hk & _). pose proof (insert_loop_spec schema by_name ts rs t rows 0 Hc Hp) as Hl.
  subst run node. unfold insert_next. cbn [insert_input insert_table insert_schema insert_overwrite insert_by_name Exec.rows failure].
  rewrite Hsnap. cbn [rbind]. rewrite Hk, Hcols. destruct (primary_key_indices table); [done|]. rewrite Hss. cbn [rbind].
  destruct (insert_all rows rs) as [rows'|e]; [|by rewrite Hl]. destruct Hl as (t' & -> & Hc' & Hf). exists t'. by split.
Qed.

(** C15: DELETE. Deleting rows of such a table removes these rows and the entries
    of exactly these rows from every index, leaves the other rows and every
    key outside the table as they were, and reports the number of rows. *)
Theorem delete_refines rs rest t :
  consistent t (rs ++ rest) ->
  exists t', delete_next (Some table) (mk_delete name (Some (mk_stream (map as_tuple rs) None))) t =
      Ok (Some (build_result (int_to_string (Z.of_nat (length rs)))), mk_delete name None, t') /\
    consistent t' rest /\ frame t t'.
Proof.
  intros Hc. destruct (delete_loop_spec rs t rest 0 Hc) as (t' & El & Hc' & Hf). exists t'. split; [|done].
  unfold delete_next. cbn [delete_input delete_table Exec.rows failure]. rewrite templates_snapshot. cbn [rbind]. by rewrite El.
Qed.

(** C4: UPDATE. Every row is replaced by what the assignments make of it, with its
    index entries, even when its primary key changes; the entries of indexes
    the statement does not touch stay. A row that would take another row's
    values in a unique index or its primary key makes the statement fail with
    that error. *)
Theorem update_refines exprs m ps others t :
  exprs_map exprs [] = Ok m -> consistent t (map fst ps ++ others) -> Forall (assigns m) ps ->
  let node es input := mk_update name es (tc_columns table) input in
  let run := update_next (Some table) (node exprs (Some (mk_stream (map (fun p => as_tuple p.1) ps) None))) t in
  match update_all ps others with
  | Ok rows' => exists t', run = Ok (Some (build_result (int_to_string (Z.of_nat (length ps)))), node [] None, t') /\
      consistent t' rows' /\ frame t t'
  | Err e => run = Err e
  end.
Proof.
  intros Hm Hc Hp node run. pose proof (update_loop_spec m ps t others 0 Hc Hp) as Hl. cbn zeta in Hl.
  subst run node. unfold update_next. cbn [update_input update_table value_exprs update_schema Exec.rows failure]. rewrite Hm. cbn [rbind].
  rewrite Hsnap. cbn [rbind]. rewrite Hss. cbn [rbind].
  destruct (update_all ps others) as [rows'|e]; [|by rewrite Hl]. destruct Hl as (t' & -> & Hc' & Hf). exists t'. by split.
Qed.
End Statements.

(** ** The entries of one index *)

Section IndexRows.
Context {T : Type} `{Transaction T}.
Context {OF : OrderedFloat} {CH : Chrono} {SF : ScalarFunctions}.
Context (name : bytes) (metas : list (IndexMeta * list ScalarExpression)).
Context (ss : list TupleValueSerializableImpl) (pk_ty : LogicalType) (Hmetas : metas_ok metas).
Implicit Types (t : T) (rows : list row) (r : row).

(** Under the keys of the index the store holds exactly the entries of the rows. *)
Definition holds_index me t rows : Prop :=
  forall k v, (exists x, k = index_prefix name (im_id me.1) ++ x) ->
    lookup_kv t k = Some v <-> exists r, r ∈ rows /\ index_entry name me r = Ok (k, v).

(** Another row has the same values in a unique index. *)
Definition taken me r rows : bool := existsb (fun r' => bool_decide (r'.1 <> r.1) && clash me r r') rows.

Context (me : IndexMeta * list ScalarExpression) (Hme : me ∈ metas) (Hsec : is_secondary me = true).

Lemma holds_updated t t' rows r k v :
  index_entry name me r = Ok (k, v) -> holds_index me t rows -> updated t t' k (Some v) ->
  (forall r' v', r' ∈ rows -> index_entry name me r' = Ok (k, v') -> v' = v) -> holds_index me t' (r :: rows).
Proof.
  intros Er Hh [_ L] Hsame k' v' Hk'. rewrite L. case_decide as Hd.
  - subst k'. split; [intros [= <-]; exists r; split; [by left|done]|].
    intros (r' & [->|Hin]%elem_of_cons & E); [rewrite Er in E; by injection E as <-|]. by rewrite (Hsame r' v').
  - rewrite (Hh k' v' Hk'). split; intros (r' & Hin & E); exists r'; (split; [|done]); [by right|].
    apply elem_of_cons in Hin as [->|]; [|done]. rewrite Er in E. congruence.
Qed.

(** An entry carries its row's primary key: rows with entries under one key
    are the same row exactly when the entries are the same. *)
Lemma entry_names_row r r' k k' v v' :
  row_ok metas ss pk_ty r -> row_ok metas ss pk_ty r' ->
  index_entry name me r = Ok (k, v) -> index_entry name me r' = Ok (k', v') -> r'.1 = r.1 <-> v' = v.
Proof.
  intros Hr Hr' E E'.
  destruct (index_entry_ok name metas ss pk_ty me r Hr Hme) as (ws & p & v1 & _ & _ & _ & Ev & _ & E1).
  destruct (index_entry_ok name metas ss pk_ty me r' Hr' Hme) as (ws' & p' & v2 & _ & _ & _ & Ev' & _ & E2).
  rewrite E in E1. rewrite E' in E2. apply Ok_inj in E1, E2. injection E1 as _ <-. injection E2 as _ <-. split.
  - intros Hid. rewrite Hid, Ev in Ev'. by apply Ok_inj in Ev'.
  - intros ->. symmetry. by apply (row_value_inj metas ss pk_ty r r' v Hr Hr').
Qed.

Lemma taken_unique r rows : is_unique (im_ty me.1) = false -> taken me r rows = false.
Proof.
  intros Hu. apply not_true_iff_false. unfold taken. rewrite existsb_exists. intros (r' & _ & [_ Hc]%andb_true_iff).
  unfold clash in Hc. by rewrite Hu in Hc.
Qed.

(** A unique value is taken exactly when its key holds another row's entry. *)
Lemma taken_entry t rows r x v :
  Forall (row_ok metas ss pk_ty) rows -> row_ok metas ss pk_ty r -> holds_index me t rows ->
  index_entry name me r = Ok (index_prefix name (im_id me.1) ++ x, v) ->
  taken me r rows = true <-> exists v', lookup_kv t (index_prefix name (im_id me.1) ++ x) = Some v' /\ v' <> v.
Proof.
  intros Hrows Hr Hh E. rewrite Forall_forall in Hrows. unfold taken. rewrite existsb_exists. split.
  - intros (r' & Hin & [Hne Hc]%andb_true_iff). apply list_elem_of_In in Hin. apply bool_decide_eq_true_1 in Hne.
    destruct (index_entry_ok name metas ss pk_ty me r' (Hrows _ Hin) Hme) as (ws' & p' & v' & _ & _ & _ & _ & _ & E').
    pose proof (proj2 (index_key_shared name metas ss pk_ty Hmetas me me r r' _ _ Hr (Hrows _ Hin) Hme Hme Hsec
      (not_eq_sym Hne) E E') (conj eq_refl Hc)) as Hk. cbn [fst] in Hk. rewrite <- Hk in E'.
    exists v'. split; [apply Hh; [by exists x|by exists r']|].
    intros Hv. by apply Hne, (entry_names_row r r' _ _ _ _ Hr (Hrows _ Hin) E E').
  - intros (v' & Hl & Hv). apply Hh in Hl as (r' & Hin & E'); [|by exists x].
    assert (r'.1 <> r.1) as Hne by (intros Hid; by apply Hv, (entry_names_row r r' _ _ _ _ Hr (Hrows _ Hin) E E')).
    exists r'. split; [by apply list_elem_of_In|]. rewrite bool_decide_true by done.
    apply (index_key_shared name metas ss pk_ty Hmetas me me r r' _ _ Hr (Hrows _ Hin) Hme Hme Hsec (not_eq_sym Hne) E E'). done.
Qed.

(** C33: The entries of an index, in terms of rows. When the store holds the
    entries of some rows of the table in an index, adding the entry of a row is
    refused with [DuplicateUniqueValue] exactly when the index is unique and a
    row with another primary key has equal values in it. Otherwise the store
    then holds the entries of those rows and of the new one, and nothing else
    has changed. *)
Theorem add_index_rows t rows r ws :
  tx_ok t -> Forall (row_ok metas ss pk_ty) rows -> row_ok metas ss pk_ty r -> index_values_of me.2 r.2 = Ok ws ->
  holds_index me t rows ->
  let result := add_index t name (mk_index (im_id me.1) ws (im_ty me.1)) r.1 in
  if taken me r rows then result = Err DuplicateUniqueValue
  else exists t', result = Ok t' /\ tx_ok t' /\ holds_index me t' (r :: rows) /\
    forall k, (forall v, index_entry name me r <> Ok (k, v)) -> lookup_kv t' k = lookup_kv t k.
Proof.
  intros Ht Hrows Hr Hws Hh.
  destruct (index_entry_ok name metas ss pk_ty me r Hr Hme) as (ws' & x & v & Ew & _ & _ & Ev & Ekey & Eentry).
  rewrite Hws in Ew. apply Ok_inj in Ew. subst ws'.
  pose proof (taken_entry t rows r x v Hrows Hr Hh Eentry) as Htaken.
  assert (Hnew : forall t', taken me r rows = false -> updated t t' (index_prefix name (im_id me.1) ++ x) (Some v) ->
    tx_ok t' /\ holds_index me t' (r :: rows) /\
    forall k', (forall v', index_entry name me r <> Ok (k', v')) -> lookup_kv t' k' = lookup_kv t k').
  { intros t' Hf Hu. split; [apply Hu|]. split.
    - apply (holds_updated t t' rows r _ v Eentry Hh Hu). intros r' v' Hin E. apply dec_stable. intros Hv.
      rewrite (proj2 Htaken) in Hf; [done|]. exists v'. split; [apply Hh; [by exists x|by exists r']|done].
    - intros k' Hk'. destruct Hu as [_ ->]. rewrite decide_False; [done|]. intros <-. by apply (Hk' v). }
  pose proof (add_index_spec t name (mk_index (im_id me.1) ws (im_ty me.1)) r.1 _ v Ht Ekey) as Hadd. cbn [idx_ty] in Hadd.
  cbn zeta. unfold is_secondary in Hsec. destruct (im_ty me.1) eqn:Ety; try done.
  - destruct (lookup_kv t (index_prefix name (im_id me.1) ++ x)) as [v'|] eqn:El, (taken me r rows) eqn:Etk.
    + destruct (proj1 Htaken eq_refl) as (v2 & [= <-] & Hne). by rewrite decide_False in Hadd.
    + assert (v' = v) as -> by (apply dec_stable; intros Hne; enough (false = true) by done; apply Htaken; eauto).
      rewrite decide_True in Hadd by done. exists t. split; [done|]. apply Hnew; [done|]. split; [done|].
      intros k'. by case_decide; [subst k'|].
    + by destruct (proj1 Htaken eq_refl) as (v2 & ? & _).
    + destruct Hadd as (t' & E & Hu). exists t'. split; [done|]. by apply Hnew.
  - rewrite taken_unique by (by rewrite Ety). destruct Hadd as (t' & E & Hu). exists t'. split; [done|].
    by apply Hnew; [apply taken_unique; rewrite Ety|].
  - rewrite taken_unique by (by rewrite Ety). destruct Hadd as (t' & E & Hu). exists t'. split; [done|].
    by apply Hnew; [apply taken_unique; rewrite Ety|].
Qed.
End IndexRows.

(** ** Witnesses *)

(** A table [(a INTEGER PRIMARY KEY, b BIGINT)] with a unique index on [b]. *)
Definition dml_table : TableCatalog := ok_or_empty (add_index_meta wit_catalog_new [105] [2] Unique).
Definition dml_meta : IndexMeta := mk_index_meta 0 [2] [116] LogicalType.Integer LogicalType.Bigint [105] Unique.
Definition dml_columns : list ColumnCatalog :=
  numbered [116] 1 [wit_catalog_column [97] LogicalType.Integer (Some 0%nat); wit_catalog_column [98] LogicalType.Bigint None].
Definition dml_snap : DmlTableSnapshot :=
  mk_snapshot dml_columns [0%nat] 2 [(dml_meta, [ScalarExpression.ColumnRef LogicalType.Bigint 1])].
Definition dml_ss : list TupleValueSerializableImpl := [Impl.Int32; Impl.Int64].

Lemma dml_table_wf : table_wf dml_table.
Proof.
  apply built_wf. destruct (ok_or_empty_eq (add_index_meta wit_catalog_new [105] [2] Unique)) as [m Em]; [vm_compute; reflexivity|].
  refine (built_index _ _ _ _ _ _ _ Em). apply wit_catalog_new_built.
Qed.

Lemma dml_snap_ok : dml_snapshot dml_table = Ok dml_snap.
Proof. vm_compute. reflexivity. Qed.

Lemma dml_ss_ok : serializers_of (tc_columns dml_table) = Ok dml_ss.
Proof. vm_compute. reflexivity. Qed.

Definition dml_row (a b : Z) : row := (DataValue.Int32 a, [DataValue.Int32 a; DataValue.Int64 b]).

Lemma dml_row_ok a b : in_s 32 a -> in_s 64 b -> row_ok (index_metas dml_snap) dml_ss LogicalType.Integer (dml_row a b).
Proof.
  intros Ha Hb. split; cbn [dml_row fst snd].
  - done.
  - repeat split; try done; apply Ha.
  - repeat constructor. exists [DataValue.Int64 b]. split; [done|]. repeat constructor; apply Hb.
  - eexists. unfold serialize_to. cbn. reflexivity.
Qed.

Lemma dml_empty : consistent (T := BTreeMap) (tc_name dml_table) (index_metas dml_snap) dml_ss (tc_primary_keys_type dml_table) [] [].
Proof.
  split; [exact wit_store_ok|constructor|constructor|]. intros k v _. split; [done|]. by intros (r & Hr%elem_of_nil & _).
Qed.

Notation dml_consistent := (consistent (T := BTreeMap) (tc_name dml_table) (index_metas dml_snap) dml_ss (tc_primary_keys_type dml_table)).
Notation dml_frame := (frame (T := BTreeMap) (tc_name dml_table) (index_metas dml_snap)).

Definition no_default (_ : ExprRef) : ScalarExpression := ScalarExpression.Constant DataValue.Null.

Lemma dml_prepared a b : in_s 32 a -> in_s 64 b ->
  prepared no_default dml_table dml_snap dml_ss dml_columns false (mk_tuple None [DataValue.Int32 a; DataValue.Int64 b]) (dml_row a b).
Proof.
  intros Ha Hb. split; [by apply dml_row_ok|]. eexists. split; [reflexivity|]. split; [reflexivity|]. reflexivity.
Qed.

(** Two rows in an empty table; a third with the [b] of the first is refused. *)
Lemma insert_refines_witness :
  exists t', insert_next no_default (Some dml_table)
      (mk_insert [116] dml_columns (Some (mk_stream [mk_tuple None [DataValue.Int32 1; DataValue.Int64 10];
        mk_tuple None [DataValue.Int32 2; DataValue.Int64 20]] None)) false false) [] =
    Ok (Some (build_result [50]), mk_insert [116] dml_columns None false false, t') /\
    dml_consistent t' [dml_row 2 20; dml_row 1 10] /\ dml_frame [] t'.
Proof.
  apply (insert_refines no_default dml_table dml_snap dml_ss dml_table_wf dml_snap_ok dml_ss_ok dml_columns false
    [mk_tuple None [DataValue.Int32 1; DataValue.Int64 10]; mk_tuple None [DataValue.Int32 2; DataValue.Int64 20]]
    [dml_row 1 10; dml_row 2 20] [] []); [done|exact dml_empty|].
  constructor; [|constructor; [|constructor]]; apply dml_prepared; unfold in_s; lia.
Defined.

Lemma dml_two_rows : exists t, dml_consistent t [dml_row 2 20; dml_row 1 10].
Proof.
  destruct (insert_writes _ _ dml_ss _ (snapshot_metas_ok dml_table dml_snap dml_table_wf dml_snap_ok) [] [] (dml_row 1 10) dml_empty)
    as (t1 & _ & H1 & _); [by apply dml_row_ok; unfold in_s; lia|].
  destruct (insert_writes _ _ dml_ss _ (snapshot_metas_ok dml_table dml_snap dml_table_wf dml_snap_ok) t1 _ (dml_row 2 20) H1)
    as (t2 & _ & H2 & _); [by apply dml_row_ok; unfold in_s; lia|]. by exists t2.
Qed.

Lemma delete_refines_witness :
  exists t t', dml_consistent t [dml_row 2 20; dml_row 1 10] /\
    delete_next (Some dml_table) (mk_delete [116] (Some (mk_stream [as_tuple (dml_row 2 20)] None))) t =
      Ok (Some (build_result [49]), mk_delete [116] None, t') /\
    dml_consistent t' [dml_row 1 10] /\ dml_frame t t'.
Proof.
  destruct dml_two_rows as [t Ht]. exists t.
  destruct (delete_refines dml_table dml_snap dml_ss dml_table_wf dml_snap_ok [dml_row 2 20] [dml_row 1 10] t Ht) as (t' & E).
  exists t'. by split.
Defined.

(** [UPDATE t SET a = 3, b = 20] on the row [(2, 20)]. *)
Lemma update_refines_witness :
  exists t t', dml_consistent t [dml_row 2 20; dml_row 1 10] /\
    update_next (Some dml_table) (mk_update [116] [(nth 0 dml_columns (wit_catalog_column [] LogicalType.SqlNull None),
      ScalarExpression.Constant (DataValue.Int32 3))] (tc_columns dml_table) (Some (mk_stream [as_tuple (dml_row 2 20)] None))) t =
      Ok (Some (build_result [49]), mk_update [116] [] (tc_columns dml_table) None, t') /\
    dml_consistent t' [dml_row 3 20; dml_row 1 10] /\ dml_frame t t'.
Proof.
  destruct dml_two_rows as [t Ht]. exists t.
  destruct (update_refines dml_table dml_snap dml_ss dml_table_wf dml_snap_ok dml_ss_ok
    [(nth 0 dml_columns (wit_catalog_column [] LogicalType.SqlNull None), ScalarExpression.Constant (DataValue.Int32 3))]
    [(1, ScalarExpression.Constant (DataValue.Int32 3))] [(dml_row 2 20, dml_row 3 20)] [dml_row 1 10] t) as (t' & E);
    [reflexivity|exact Ht| |exists t'; by split].
  apply Forall_singleton. split_and!; try reflexivity. apply dml_row_ok; unfold in_s; lia.
Defined.

(** In the unique index on [b]: 20 is free, 10 is taken by the row 1. *)
Lemma add_index_rows_witness :
  exists t t', holds_index (T := BTreeMap) [116] (dml_meta, [ScalarExpression.ColumnRef LogicalType.Bigint 1]) t [dml_row 1 10] /\
    add_index t [116] (mk_index 0 [DataValue.Int64 20] Unique) (DataValue.Int32 2) = Ok t' /\
    add_index t [116] (mk_index 0 [DataValue.Int64 10] Unique) (DataValue.Int32 2) = Err DuplicateUniqueValue.
Proof.
  pose proof (snapshot_metas_ok dml_table dml_snap dml_table_wf dml_snap_ok) as Hm.
  assert (forall a b, in_s 32 a -> in_s 64 b -> row_ok (index_metas dml_snap) dml_ss LogicalType.Integer (dml_row a b)) as Hok by apply dml_row_ok.
  pose proof (fun a t rows => add_index_rows (T := BTreeMap) [116] (index_metas dml_snap) dml_ss LogicalType.Integer Hm
    (dml_meta, [ScalarExpression.ColumnRef LogicalType.Bigint 1]) ltac:(by left) eq_refl t rows (dml_row 2 a) [DataValue.Int64 a]) as Hadd.
  destruct (add_index_rows (T := BTreeMap) [116] (index_metas dml_snap) dml_ss LogicalType.Integer Hm
    (dml_meta, [ScalarExpression.ColumnRef LogicalType.Bigint 1]) ltac:(by left) eq_refl [] [] (dml_row 1 10) [DataValue.Int64 10])
    as (t & _ & Ht & Hh & _); [exact wit_store_ok|constructor|apply Hok; unfold in_s; lia|reflexivity| |].
  { intros k v _. split; [done|]. by intros (r & Hr%elem_of_nil & _). }
  exists t. assert (Forall (row_ok (index_metas dml_snap) dml_ss LogicalType.Integer) [dml_row 1 10]) as Hrows
    by (apply Forall_singleton, Hok; unfold in_s; lia).
  destruct (Hadd 20 t [dml_row 1 10] Ht Hrows (Hok 2 20 ltac:(unfold in_s; lia) ltac:(unfold in_s; lia)) eq_refl Hh) as (t' & E & _).
  exists t'. split; [exact Hh|]. split; [exact E|].
  exact (Hadd 10 t [dml_row 1 10] Ht Hrows (Hok 2 10 ltac:(unfold in_s; lia) ltac:(unfold in_s; lia)) eq_refl Hh).
Defined.

(** * Where the statements differ from the expected ones *)

Definition int_column (p : nat) : ScalarExpression := ScalarExpression.ColumnRef LogicalType.Integer p.

(** [SET a = b, b = a] does not swap: each assignment reads the row as the
    earlier ones left it. *)
Theorem update_assigns_in_sequence (x y : DataValue) :
  assign [(1, int_column 1); (2, int_column 0)] dml_columns 0 [x; y] = Ok [y; y].
Proof. reflexivity. Qed.

Definition ok_store (m : res BTreeMap) : BTreeMap := match m with Ok t => t | Err _ => [] end.

(** [INSERT OVERWRITE] of a row that exists replaces the row and adds its new
    index entries; the entries of the row it replaces stay. *)
Theorem overwrite_leaves_old_entries :
  let put t a b := insert_row no_default t [116] dml_snap dml_ss dml_columns true false (mk_tuple None [DataValue.Int32 a; DataValue.Int64 b]) in
  let t := ok_store (put (ok_store (put [] 1 10)) 1 20) in
  let entry b := with_index [116] (mk_index 0 [DataValue.Int64 b] Unique) (Some (DataValue.Int32 1)) (fun k _ => get_borrowed t k) in
  (exists v, entry 10 = Ok (Some v) /\ entry 20 = Ok (Some v)) /\
  get_tuple_by_id t [116] (DataValue.Int32 1) dml_ss 2 = Ok (Some (as_tuple (dml_row 1 20))).
Proof. split; [eexists; split|]; vm_compute; reflexivity. Qed.

(** A [NOT NULL] column: INSERT refuses a null, UPDATE stores it. *)
Definition not_null_columns : list ColumnCatalog :=
  numbered [116] 1 [wit_catalog_column [97] LogicalType.Integer (Some 0%nat);
    column_new [98] false (mk_desc LogicalType.Bigint None false None)].

Theorem update_stores_null :
  let snap := mk_snapshot not_null_columns [0%nat] 2 [] in
  let put t v := insert_row no_default t [116] snap dml_ss not_null_columns false false (mk_tuple None [DataValue.Int32 1; v]) in
  let t := ok_store (put [] (DataValue.Int64 10)) in
  let t' := ok_store (update_row t [116] snap dml_ss not_null_columns [(2, ScalarExpression.Constant DataValue.Null)] false
    (as_tuple (dml_row 1 10)) (DataValue.Int32 1)) in
  put [] DataValue.Null = Err NotNull /\
  get_tuple_by_id t' [116] (DataValue.Int32 1) dml_ss 2 = Ok (Some (mk_tuple (Some (DataValue.Int32 1)) [DataValue.Int32 1; DataValue.Null])).
Proof. split; vm_compute; reflexivity. Qed.

(** A [CHAR] value that ends in spaces: its index entry keeps the spaces, the
    row is read back without them, so deleting the row that was read leaves
    the entry behind. *)
Definition char_columns : list ColumnCatalog :=
  numbered [116] 1 [wit_catalog_column [97] LogicalType.Integer (Some 0%nat);
    wit_catalog_column [98] (LogicalType.Char 2 Characters) None].

Theorem delete_leaves_padded_entry :
  let ty := LogicalType.Char 2 Characters in
  let metas := [(dml_meta, [ScalarExpression.ColumnRef ty 1])] in
  let ss := [Impl.Int32; Impl.Char 2 Characters] in
  let text s := DataValue.Utf8 s (Fixed 2) Characters in
  let t := ok_store (insert_row no_default [] [116] (mk_snapshot char_columns [0%nat] 2 metas) ss char_columns false false
    (mk_tuple None [DataValue.Int32 1; text [97; 32]])) in
  let read := mk_tuple (Some (DataValue.Int32 1)) [DataValue.Int32 1; text [97]] in
  let t' := ok_store (delete_row t [116] metas read (DataValue.Int32 1)) in
  let entry t := with_index [116] (mk_index 0 [text [97; 32]] Unique) (Some (DataValue.Int32 1)) (fun k _ => get_borrowed t k) in
  get_tuple_by_id t [116] (DataValue.Int32 1) ss 2 = Ok (Some read) /\
  get_tuple_by_id t' [116] (DataValue.Int32 1) ss 2 = Ok None /\
  exists v, entry t = Ok (Some v) /\ entry t' = Ok (Some v).
Proof. split; [|split; [|eexists; split]]; vm_compute; reflexivity. Qed.
