(* ===== verification/Slices.v ===== *)
(** What the statistics use of vectors and of [usize]: indexing, insertion and
    removal that panic out of range, the binary search of the standard
    library, and saturating arithmetic. *)

From S2P Require Import Prelude Types.
From stdpp Require Import base list numbers sorting.
From Stdlib Require Import ZArith Lia.
Local Open Scope Z_scope.

(** * [usize] *)

Definition USIZE_MAX : Z := 2 ^ 64 - 1.

Definition saturating_add (a b : Z) : Z := Z.min (a + b) USIZE_MAX.
Definition saturating_sub (a b : Z) : Z := Z.max (a - b) 0.

(** [+] of [usize] values: an overflow panics. *)
Definition usize_add (a b : Z) : res Z := if a + b <=? USIZE_MAX then Ok (a + b) else Err Panic.

Definition saturating_mul (a b : Z) : Z := Z.min (a * b) USIZE_MAX.

Lemma saturating_add_exact (a b : Z) : a + b <= USIZE_MAX -> saturating_add a b = a + b.
Proof. unfold saturating_add. lia. Qed.

Lemma saturating_add_mono (a a' b b' : Z) :
  a <= a' -> b <= b' -> saturating_add a b <= saturating_add a' b'.
Proof. unfold saturating_add. lia. Qed.

(** * Vectors *)

(** [v[i]]. *)
Definition vec_get {A : Type} (v : list A) (i : nat) : res A :=
  match v !! i with
  | Some x => Ok x
  | None => Err Panic
  end.

(** [v[i] = x]. *)
Definition vec_set {A : Type} (v : list A) (i : nat) (x : A) : res (list A) :=
  if decide (i < length v)%nat then Ok (<[i := x]> v) else Err Panic.

(** [Vec::insert]. *)
Definition vec_insert {A : Type} (v : list A) (i : nat) (x : A) : res (list A) :=
  if decide (i <= length v)%nat then Ok (take i v ++ x :: drop i v) else Err Panic.

(** [Vec::remove]: the element and what is left. *)
Definition vec_remove {A : Type} (v : list A) (i : nat) : res (A * list A) :=
  match v !! i with
  | Some x => Ok (x, take i v ++ drop (S i) v)
  | None => Err Panic
  end.

Lemma vec_get_Some {A : Type} (v : list A) (i : nat) (x : A) : v !! i = Some x -> vec_get v i = Ok x.
Proof. unfold vec_get. by intros ->. Qed.

Lemma vec_set_lt {A : Type} (v : list A) (i : nat) (x : A) :
  (i < length v)%nat -> vec_set v i x = Ok (<[i := x]> v).
Proof. intros H. unfold vec_set. by rewrite decide_True. Qed.

(** * [slice::binary_search_by] *)

Inductive search : Type :=
| Found (index : nat)
| Missing (index : nat).

(** The loop halves the [size] of the window that starts at [base]. *)
Fixpoint search_loop (fuel : nat) (f : nat -> comparison) (base size : nat) : nat :=
  match fuel with
  | O => base
  | S fuel =>
      if decide (size <= 1)%nat then base
      else
        let half := (size / 2)%nat in
        let mid := (base + half)%nat in
        search_loop fuel f (match f mid with Gt => base | _ => mid end) (size - half)
  end.

Definition binary_search_by {A : Type} (cmp : A -> comparison) (v : list A) : search :=
  let f i := match v !! i with Some x => cmp x | None => Gt end in
  match v with
  | [] => Missing 0
  | _ :: _ =>
      let base := search_loop (length v) f 0 (length v) in
      match f base with
      | Eq => Found base
      | Lt => Missing (S base)
      | Gt => Missing base
      end
  end.

Section Search.
Context (f : nat -> comparison) (n : nat).
(** What follows an element above the probe is above it too. *)
Hypothesis above : forall i j, (i <= j < n)%nat -> f i = Gt -> f j = Gt.

Lemma search_loop_spec (fuel base size : nat) :
  (1 <= size <= fuel)%nat -> (base + size <= n)%nat ->
  (base = 0%nat \/ f base <> Gt) ->
  (forall i, (base + size <= i < n)%nat -> f i = Gt) ->
  exists r, search_loop fuel f base size = r /\ (r < n)%nat /\ (r = 0%nat \/ f r <> Gt) /\
    (forall i, (r < i < n)%nat -> f i = Gt).
Proof.
  revert base size. induction fuel as [|fuel IH]; intros base size Hs Hb H0 Hi; [lia|].
  cbn [search_loop]. case_decide as Hle.
  - exists base. split_and!; [done|lia|done|]. intros i Hii. apply Hi. lia.
  - set (half := (size / 2)%nat). assert (1 <= half /\ 2 * half <= size)%nat as Hh.
    { unfold half. split; [apply Nat.div_le_lower_bound; lia|apply Nat.Div0.mul_div_le]. }
    clearbody half. destruct (f (base + half)) eqn:E.
    1,2: apply IH; [lia|lia|right; by rewrite E|intros i Hii; apply Hi; lia].
    apply IH; [lia|lia|done|]. intros i Hii. apply (above (base + half)); [lia|done].
Qed.
End Search.

(** What a search tells of a slice sorted with respect to the probe. *)
Definition search_result {A : Type} (cmp : A -> comparison) (v : list A) (s : search) : Prop :=
  match s with
  | Found i => exists x, v !! i = Some x /\ cmp x = Eq
  | Missing i => (i <= length v)%nat /\ Forall (fun x => cmp x = Lt) (take i v) /\
      Forall (fun x => cmp x = Gt) (drop i v)
  end.

Lemma binary_search_by_spec {A : Type} (cmp : A -> comparison) (v : list A) :
  (forall i j x y, (i <= j)%nat -> v !! i = Some x -> v !! j = Some y ->
    (cmp y = Lt -> cmp x = Lt) /\ (cmp x = Gt -> cmp y = Gt)) ->
  search_result cmp v (binary_search_by cmp v).
Proof.
  intros Hs. unfold binary_search_by. destruct v as [|x0 v0] eqn:Ev; [by simpl; split_and!|].
  rewrite <- Ev in *. set (f := fun i => match v !! i with Some x => cmp x | None => Gt end).
  assert (Hpt : forall i, (i < length v)%nat -> exists x, v !! i = Some x /\ f i = cmp x).
  { intros i Hi. apply lookup_lt_is_Some in Hi as [x Hx]. exists x. unfold f. by rewrite Hx. }
  destruct (search_loop_spec f (length v)) with (fuel := length v) (base := 0%nat) (size := length v)
    as (r & -> & Hr & Hr0 & Hgt); [|lia + (subst; simpl; lia)|lia|by left|intros; lia|].
  { intros i j Hij Hg. destruct (Hpt i) as (x & Hx & Ex); [lia|].
    destruct (Hpt j) as (y & Hy & Ey); [lia|]. rewrite Ex in Hg. rewrite Ey.
    by apply (Hs i j x y); [lia|..]. }
  destruct (Hpt r Hr) as (x & Hx & Ex). rewrite Ex in *.
  assert (Htl : forall i, (r < i)%nat -> Forall (fun y => cmp y = Gt) (drop i v)).
  { intros i Hi. apply Forall_lookup. intros k y. rewrite lookup_drop. intros Hy.
    pose proof (lookup_lt_Some _ _ _ Hy). specialize (Hgt (i + k)%nat). unfold f in Hgt.
    rewrite Hy in Hgt. apply Hgt. lia. }
  cbv zeta. rewrite Hx. destruct (cmp x) eqn:Ec; simpl.
  - by exists x.
  - split_and!; [lia| |by apply Htl; lia]. apply Forall_lookup. intros i y Hy.
    apply lookup_take_Some in Hy as [Hy Hi]. apply (Hs i r y x); [lia|done..].
  - destruct Hr0 as [->|]; [|done]. split_and!; [lia|by rewrite take_0|].
    rewrite (drop_S v x 0 Hx). constructor; [done|by apply Htl; lia].
Qed.

Lemma StronglySorted_lookup_lt {A : Type} (R : relation A) (l : list A) (i j : nat) (x y : A) :
  StronglySorted R l -> (i < j)%nat -> l !! i = Some x -> l !! j = Some y -> R x y.
Proof.
  intros Hs Hij Hx Hy. rewrite <- (take_drop j l) in Hs.
  eapply StronglySorted_app_1_elem_of; [exact Hs|..].
  - apply list_elem_of_lookup. exists i. by rewrite lookup_take_lt.
  - apply list_elem_of_lookup. exists 0%nat. by rewrite lookup_drop, Nat.add_0_r.
Qed.
