(* ===== verification/TopN.v ===== *)
(** The most frequent values of a column (src/src/optimizer/core/top_n.rs): a
    bounded table of counters, kept sorted by value, in which a new value
    takes over the counter of the least frequent one once the table is full.
    The theorem is the guarantee the planner relies on: a counter's interval
    [count - error, count] holds the true frequency, and a value more frequent
    than the average share of a counter is never missing. *)

From S2P Require Import Prelude Types Value Slices.
From stdpp Require Import base sets list numbers option sorting.
From Stdlib Require Import ZArith Lia.
Local Open Scope Z_scope.

Definition ANALYZE_STATISTICS_TOP_N_SIZE : nat := 64.

Record ColumnTopNEntry := mk_top_n_entry {
  entry_value : DataValue;
  entry_count : Z;
  entry_error : Z;
}.

(** [min_index] caches a position; no operation prunes by it. *)
Record ColumnTopN := mk_top_n {
  top_values : list ColumnTopNEntry;
  min_index : option nat;
}.

Definition top_n_default : ColumnTopN := mk_top_n [] None.

Section TopN.
Context {OF : OrderedFloat}.

Definition find (self : ColumnTopN) (value : DataValue) : search :=
  binary_search_by (fun entry => default Eq (partial_cmp (entry_value entry) value)) (top_values self).

Definition get_entry (self : ColumnTopN) (value : DataValue) : option ColumnTopNEntry :=
  if is_null value then None
  else match find self value with
       | Found idx => top_values self !! idx
       | Missing _ => None
       end.

Definition top_n_get (self : ColumnTopN) (value : DataValue) : option Z :=
  entry_count <$> get_entry self value.

Definition update_existing (self : ColumnTopN) (index : nat) (count error : Z) : res ColumnTopN :=
  let was_min := bool_decide (min_index self = Some index) in
  let? entry := vec_get (top_values self) index in
  let entry := mk_top_n_entry (entry_value entry) (saturating_add (entry_count entry) count)
                 (saturating_add (entry_error entry) error) in
  let? values := vec_set (top_values self) index entry in
  Ok (mk_top_n values (if was_min then None else min_index self)).

(** The answer, and the table with an existing counter updated. *)
Definition should_insert (self : ColumnTopN) (value : DataValue) (count error : Z)
  : res (bool * ColumnTopN) :=
  if (count =? 0) || is_null value then Ok (false, self)
  else match find self value with
       | Found index => let? self := update_existing self index count error in Ok (false, self)
       | Missing _ => Ok (true, self)
       end.

Definition on_insert (self : ColumnTopN) (index : nat) : res ColumnTopN :=
  let min_index :=
    match min_index self with
    | Some m => Some (if decide (index <= m)%nat then S m else m)
    | None => None
    end in
  match min_index with
  | None => Ok (mk_top_n (top_values self) (Some index))
  | Some m =>
      let? entry := vec_get (top_values self) index in
      let? min_entry := vec_get (top_values self) m in
      let count := entry_count entry in
      let min_count := entry_count min_entry in
      Ok (mk_top_n (top_values self)
            (if (count <? min_count) || ((count =? min_count) && bool_decide (m < index)%nat)
             then Some index else Some m))
  end.

(** The loop of [find_min_and_next_index] from position [index] on. *)
Fixpoint min_scan (index : nat) (entries : list ColumnTopNEntry) (min_index : nat) (min_count : Z)
  (previous_min_index : option nat) (second_min : option (nat * Z)) : nat * option nat :=
  match entries with
  | [] =>
      (min_index,
       match previous_min_index with
       | Some p => Some p
       | None => fst <$> second_min
       end)
  | entry :: entries =>
      let count := entry_count entry in
      if count <? min_count then
        min_scan (S index) entries index count None (Some (min_index, min_count))
      else if count =? min_count then
        min_scan (S index) entries index min_count (Some min_index) second_min
      else
        let second_min :=
          match second_min with
          | None => Some (index, count)
          | Some (second_index, second_count) =>
              if (count <? second_count) || ((count =? second_count) && bool_decide (second_index < index)%nat)
              then Some (index, count) else second_min
          end in
        min_scan (S index) entries min_index min_count previous_min_index second_min
  end.

Definition find_min_and_next_index (self : ColumnTopN) : option (nat * option nat) :=
  match top_values self with
  | [] => None
  | first :: rest => Some (min_scan 1 rest 0 (entry_count first) None None)
  end.

Definition prune_min (self : ColumnTopN) : res (option ColumnTopNEntry * ColumnTopN) :=
  match find_min_and_next_index self with
  | None => Ok (None, self)
  | Some (m, next_min_index) =>
      let? (entry, values) := vec_remove (top_values self) m in
      Ok (Some entry,
          mk_top_n values
            ((fun index => if decide (m < index)%nat then (index - 1)%nat else index) <$> next_min_index))
  end.

(** Every iteration removes a counter: [fuel] is the length of the table. *)
Fixpoint prune_loop (fuel : nat) (self : ColumnTopN) (capacity : nat) : res ColumnTopN :=
  match fuel with
  | O => Ok self
  | S fuel =>
      if decide (capacity < length (top_values self))%nat then
        let? (pruned, self) := prune_min self in
        match pruned with
        | None => Ok self
        | Some _ => prune_loop fuel self capacity
        end
      else Ok self
  end.

Definition prune_to_capacity (self : ColumnTopN) (capacity : nat) : res ColumnTopN :=
  if decide (length (top_values self) <= capacity)%nat then Ok self
  else prune_loop (length (top_values self)) self capacity.

(** The end of [insert_new_with_options], once there is room. *)
Definition insert_counter (self : ColumnTopN) (capacity : nat) (entry : ColumnTopNEntry)
  : res ColumnTopN :=
  let index := match find self (entry_value entry) with Found index => index | Missing index => index end in
  let? values := vec_insert (top_values self) index entry in
  let? self := on_insert (mk_top_n values (min_index self)) index in
  if decide (capacity < length (top_values self))%nat then prune_to_capacity self capacity
  else Ok self.

Definition insert_new_with_options (self : ColumnTopN) (capacity : nat) (entry : ColumnTopNEntry)
  : res ColumnTopN :=
  if decide (capacity = 0)%nat then Ok self
  else if decide (capacity <= length (top_values self))%nat then
    let? (pruned, self) := prune_min self in
    match pruned with
    | None => Ok self
    | Some min_entry =>
        insert_counter self capacity
          (mk_top_n_entry (entry_value entry)
             (saturating_add (entry_count min_entry) (entry_count entry))
             (saturating_add (entry_count min_entry) (entry_error entry)))
    end
  else insert_counter self capacity entry.

Definition add_with_options (self : ColumnTopN) (capacity : nat) (value : DataValue) (count error : Z)
  : res ColumnTopN :=
  let? (insert, self) := should_insert self value count error in
  if (insert : bool) then insert_new_with_options self capacity (mk_top_n_entry value count error)
  else Ok self.

Definition add_with_size (self : ColumnTopN) (top_n_size : nat) (value : DataValue) (count : Z)
  : res ColumnTopN := add_with_options self top_n_size value count 0.

Definition finish_with_size (self : ColumnTopN) (top_n_size : nat) : res ColumnTopN :=
  prune_to_capacity self top_n_size.

(** * Frequencies *)

(** What [v] was added with, and what every value that is not null was. *)
Definition eqv (a b : DataValue) : bool := bool_decide (partial_cmp a b = Some Eq).

Fixpoint weight (v : DataValue) (adds : list (DataValue * Z)) : Z :=
  match adds with
  | [] => 0
  | (w, c) :: adds => (if eqv w v then c else 0) + weight v adds
  end.

Fixpoint total (adds : list (DataValue * Z)) : Z :=
  match adds with
  | [] => 0
  | (w, c) :: adds => (if is_null w then 0 else c) + total adds
  end.

Fixpoint sum_counts (l : list ColumnTopNEntry) : Z :=
  match l with
  | [] => 0
  | e :: l => entry_count e + sum_counts l
  end.

Lemma eqv_true (a b : DataValue) : eqv a b = true <-> partial_cmp a b = Some Eq.
Proof. apply bool_decide_eq_true. Qed.

Lemma eqv_sym (a b : DataValue) : eqv a b = eqv b a.
Proof.
  apply eq_iff_eq_true. rewrite !eqv_true, (partial_cmp_flip a b).
  destruct (partial_cmp a b) as [[]|]; naive_solver.
Qed.

Lemma eqv_trans (a b c : DataValue) : eqv a b = true -> eqv b c = eqv a c.
Proof.
  intros Hab. assert (Hba := Hab). rewrite eqv_sym in Hba. rewrite eqv_true in Hab, Hba.
  apply eq_iff_eq_true. rewrite !eqv_true. split; intros H.
  - by rewrite (partial_cmp_transitive a b c Eq Eq Hab H (or_introl eq_refl)).
  - by rewrite (partial_cmp_transitive b a c Eq Eq Hba H (or_introl eq_refl)).
Qed.

Lemma weight_eqv (v w : DataValue) (adds : list (DataValue * Z)) :
  eqv v w = true -> weight v adds = weight w adds.
Proof.
  intros H. induction adds as [|[x c] adds IH]; [done|]. simpl. rewrite IH.
  by rewrite (eqv_sym x v), (eqv_sym x w), (eqv_trans v w x H).
Qed.

Lemma weight_snoc (v w : DataValue) (c : Z) (adds : list (DataValue * Z)) :
  weight v (adds ++ [(w, c)]) = weight v adds + (if eqv w v then c else 0).
Proof. induction adds as [|[x d] adds IH]; simpl; [lia|]. rewrite IH. lia. Qed.

Lemma total_snoc (w : DataValue) (c : Z) (adds : list (DataValue * Z)) :
  total (adds ++ [(w, c)]) = total adds + (if is_null w then 0 else c).
Proof. induction adds as [|[x d] adds IH]; simpl; [lia|]. rewrite IH. lia. Qed.

Lemma sum_counts_app (l1 l2 : list ColumnTopNEntry) :
  sum_counts (l1 ++ l2) = sum_counts l1 + sum_counts l2.
Proof. induction l1 as [|e l1 IH]; simpl; [done|]. rewrite IH. lia. Qed.

Lemma sum_counts_lower (l : list ColumnTopNEntry) (c : Z) :
  Forall (fun e => c <= entry_count e) l -> c * Z.of_nat (length l) <= sum_counts l.
Proof. induction 1 as [|e l He _ IH]; simpl; [lia|]. lia. Qed.

(** * The table *)

Definition entry_lt (a b : ColumnTopNEntry) : Prop :=
  partial_cmp (entry_value a) (entry_value b) = Some Lt.

Definition untracked (v : DataValue) (l : list ColumnTopNEntry) : Prop :=
  Forall (fun e => eqv (entry_value e) v = false) l.

Definition index_ok (i : option nat) (l : list ColumnTopNEntry) : Prop :=
  forall m, i = Some m -> (m < length l)%nat.

Lemma partial_cmp_step (a b c : DataValue) :
  partial_cmp a b = Some Lt -> is_Some (partial_cmp a c) -> is_Some (partial_cmp b c) ->
  (default Eq (partial_cmp b c) = Lt -> default Eq (partial_cmp a c) = Lt) /\
  (default Eq (partial_cmp a c) = Gt -> default Eq (partial_cmp b c) = Gt).
Proof.
  intros Hab [oa Ha] [ob Hb]. rewrite Ha, Hb. simpl. split; intros ->.
  - rewrite (partial_cmp_transitive a b c Lt Lt Hab Hb) in Ha by (unfold cmp_compat; auto).
    by simplify_eq.
  - assert (partial_cmp b a = Some Gt) as Hba by (by rewrite partial_cmp_flip, Hab).
    rewrite (partial_cmp_transitive b a c Gt Gt Hba Ha) in Hb by (unfold cmp_compat; auto).
    by simplify_eq.
Qed.

Lemma elem_of_take_in {A : Type} (i : nat) (l : list A) (x : A) : x ∈ take i l -> x ∈ l.
Proof. intros H. rewrite <- (take_drop i l). apply elem_of_app. by left. Qed.

Lemma elem_of_drop_in {A : Type} (i : nat) (l : list A) (x : A) : x ∈ drop i l -> x ∈ l.
Proof. intros H. rewrite <- (take_drop i l). apply elem_of_app. by right. Qed.

(** What a search says of a table sorted by value. *)
Definition find_result (l : list ColumnTopNEntry) (v : DataValue) (s : search) : Prop :=
  match s with
  | Found i => exists e, l !! i = Some e /\ eqv (entry_value e) v = true
  | Missing i => (i <= length l)%nat /\
      Forall (fun e => partial_cmp (entry_value e) v = Some Lt) (take i l) /\
      Forall (fun e => partial_cmp (entry_value e) v = Some Gt) (drop i l)
  end.

Lemma find_spec (self : ColumnTopN) (v : DataValue) :
  StronglySorted entry_lt (top_values self) ->
  Forall (fun e => is_Some (partial_cmp (entry_value e) v)) (top_values self) ->
  find_result (top_values self) v (find self v).
Proof.
  intros Hs Hc. unfold find.
  assert (search_result (fun e => default Eq (partial_cmp (entry_value e) v)) (top_values self)
    (binary_search_by (fun e => default Eq (partial_cmp (entry_value e) v)) (top_values self))) as H.
  { apply binary_search_by_spec. intros i j x y Hij Hx Hy.
    pose proof (Forall_lookup_1 _ _ _ _ Hc Hx) as Cx. pose proof (Forall_lookup_1 _ _ _ _ Hc Hy) as Cy.
    destruct (decide (i = j)) as [->|Hne]; [by simplify_eq|].
    apply partial_cmp_step; [|done..].
    apply (StronglySorted_lookup_lt _ _ i j x y Hs); [lia|done..]. }
  destruct (binary_search_by _ _) as [i|i]; simpl in *.
  - destruct H as (e & He & Ec). exists e. split; [done|]. apply eqv_true.
    destruct (Forall_lookup_1 _ _ _ _ Hc He) as [o Ho]. rewrite Ho in Ec. simpl in Ec. by subst.
  - destruct H as (Hi & Hl & Hg). split_and!; [done|..].
    + apply Forall_forall. intros e He. rewrite Forall_forall in Hl, Hc. specialize (Hl e He) as E.
      destruct (Hc e) as [o Ho]; [by eapply elem_of_take_in|]. rewrite Ho in *. simpl in E. by subst.
    + apply Forall_forall. intros e He. rewrite Forall_forall in Hg, Hc. specialize (Hg e He) as E.
      destruct (Hc e) as [o Ho]; [by eapply elem_of_drop_in|]. rewrite Ho in *. simpl in E. by subst.
Qed.

(** The scan finds a position of the least count, and another position. *)
Lemma min_scan_spec (l : list ColumnTopNEntry) :
  forall entries pre m mc e prev second,
  l = pre ++ entries -> (m < length pre)%nat -> l !! m = Some e -> entry_count e = mc ->
  Forall (fun x => mc <= entry_count x) pre ->
  (forall p, prev = Some p -> (p < length pre)%nat /\ p <> m) ->
  (forall p c, second = Some (p, c) -> (p < length pre)%nat /\ p <> m) ->
  exists m' next e', min_scan (length pre) entries m mc prev second = (m', next) /\
    l !! m' = Some e' /\ Forall (fun x => entry_count e' <= entry_count x) l /\
    (forall p, next = Some p -> (p < length l)%nat /\ p <> m').
Proof.
  induction entries as [|x entries IH]; intros pre m mc e prev second -> Hm He Hc Hle Hp Hs2; simpl.
  - rewrite app_nil_r in *. exists m. eexists. exists e. split_and!; [done|done|by subst|].
    intros p. destruct prev as [q|]; [intros [= <-]; by apply Hp|].
    destruct second as [[q c]|]; [|done]. intros [= <-]. by eapply Hs2.
  - assert (Hx : (pre ++ x :: entries) !! length pre = Some x) by (by apply list_lookup_middle).
    assert (Happ : pre ++ x :: entries = (pre ++ [x]) ++ entries) by (by rewrite <- app_assoc).
    assert (Hlen : S (length pre) = length (pre ++ [x])) by (rewrite length_app; simpl; lia).
    destruct (Z.ltb_spec (entry_count x) mc) as [Hlt|Hge];
      [|destruct (Z.eqb_spec (entry_count x) mc) as [Heq|Hne]];
      rewrite Hlen; (eapply IH; [exact Happ|rewrite <- Hlen; lia| | |apply Forall_app; split; [|repeat constructor; lia]| |]);
      try exact Hx; try exact He; try done;
      try (eapply Forall_impl; [exact Hle|]; simpl; lia); rewrite <- Hlen.
    + intros p c [= <- <-]. lia.
    + intros p [= <-]. lia.
    + intros p c E. specialize (Hs2 p c E). lia.
    + intros p E. specialize (Hp p E). lia.
    + intros p c. destruct second as [[q d]|]; [|intros [= <- <-]; lia].
      specialize (Hs2 q d eq_refl). destruct (_ || _); intros [= <- <-]; lia.
Qed.

(** [prune_min] takes out a counter that no other is below. *)
Lemma prune_min_spec (self : ColumnTopN) :
  top_values self <> [] ->
  exists l1 e l2 mi, top_values self = l1 ++ e :: l2 /\
    Forall (fun x => entry_count e <= entry_count x) (l1 ++ l2) /\
    index_ok mi (l1 ++ l2) /\ prune_min self = Ok (Some e, mk_top_n (l1 ++ l2) mi).
Proof.
  destruct self as [[|x l] mi]; [done|]. intros _. unfold prune_min, find_min_and_next_index. simpl.
  destruct (min_scan_spec (x :: l) l [x] 0 (entry_count x) x None None)
    as (m & next & e & Hscan & He & Hle & Hnext); [done|simpl; lia|done|done|by repeat constructor|done|done|].
  simpl in Hscan. rewrite Hscan. unfold vec_remove. rewrite He. cbn [rbind].
  pose proof (list_elem_of_split_length _ _ _ He) as (l1 & l2 & Hl & Hlen).
  exists l1, e, l2, ((fun index => if decide (m < index)%nat then (index - 1)%nat else index) <$> next).
  split; [done|]. rewrite Hl in *. split_and!.
  - rewrite !Forall_app, Forall_cons in *. naive_solver.
  - intros p. destruct next as [q|]; [|done]. destruct (Hnext q eq_refl) as [Hq Hqm].
    rewrite !length_app in *. simpl in *. case_decide; intros [= <-]; lia.
  - subst m. by rewrite take_app_length, drop_app_ge, (Nat.sub_succ_l _ _ (le_n _)), Nat.sub_diag by lia.
Qed.

Lemma entry_lt_of (a b : ColumnTopNEntry) :
  partial_cmp (entry_value b) (entry_value a) = Some Gt -> entry_lt a b.
Proof. intros H. unfold entry_lt. by rewrite partial_cmp_flip, H. Qed.

Lemma on_insert_spec (l1 l2 : list ColumnTopNEntry) (e : ColumnTopNEntry) (mi : option nat) :
  index_ok mi (l1 ++ l2) ->
  exists mi', on_insert (mk_top_n (l1 ++ e :: l2) mi) (length l1) = Ok (mk_top_n (l1 ++ e :: l2) mi') /\
    index_ok mi' (l1 ++ e :: l2).
Proof.
  intros Hmi. unfold on_insert. cbn [min_index top_values]. unfold index_ok in *.
  assert (length (l1 ++ e :: l2) = S (length (l1 ++ l2))) as Hlen by (rewrite !length_app; simpl; lia).
  destruct mi as [m|].
  - specialize (Hmi m eq_refl). set (m' := if decide _ then S m else m).
    assert (m' < length (l1 ++ e :: l2))%nat as Hm' by (unfold m'; case_decide; lia).
    rewrite (vec_get_Some _ _ e) by (by apply list_lookup_middle).
    destruct (lookup_lt_is_Some_2 _ _ Hm') as [x Hx]. rewrite (vec_get_Some _ _ x Hx). cbn [rbind].
    eexists. split; [done|]. intros k. rewrite Hlen in *. rewrite length_app in *.
    destruct (_ || _); intros [= <-]; lia.
  - eexists. split; [done|]. intros k [= <-]. rewrite Hlen, length_app. lia.
Qed.

Lemma insert_counter_spec (self : ColumnTopN) (capacity : nat) (e : ColumnTopNEntry) :
  StronglySorted entry_lt (top_values self) ->
  Forall (fun x => is_Some (partial_cmp (entry_value x) (entry_value e))) (top_values self) ->
  untracked (entry_value e) (top_values self) ->
  (length (top_values self) < capacity)%nat -> index_ok (min_index self) (top_values self) ->
  exists l1 l2 mi, top_values self = l1 ++ l2 /\ StronglySorted entry_lt (l1 ++ e :: l2) /\
    index_ok mi (l1 ++ e :: l2) /\ insert_counter self capacity e = Ok (mk_top_n (l1 ++ e :: l2) mi).
Proof.
  intros Hs Hc Hu Hlen Hmi. pose proof (find_spec self (entry_value e) Hs Hc) as Hf.
  unfold insert_counter. destruct (find self (entry_value e)) as [i|i]; simpl in Hf.
  { destruct Hf as (x & Hx & Ex). pose proof (Forall_lookup_1 _ _ _ _ Hu Hx). simpl in *. congruence. }
  destruct Hf as (Hi & Hl & Hg). destruct self as [l mi]. simpl in *.
  destruct (on_insert_spec (take i l) (drop i l) e mi) as (mi' & Hon & Hmi'); [by rewrite take_drop|].
  rewrite length_take_le in Hon by done.
  exists (take i l), (drop i l), mi'. split_and!; [by rewrite take_drop| |done|].
  - rewrite <- (take_drop i l) in Hs. apply StronglySorted_app in Hs as (Hcross & Hs1 & Hs2).
    apply StronglySorted_app. split_and!; [|done|].
    + intros x y Hx [->|Hy]%elem_of_cons; [|by apply Hcross].
      rewrite Forall_forall in Hl. by apply Hl.
    + constructor; [done|]. eapply Forall_impl; [exact Hg|]. intros x. apply entry_lt_of.
  - unfold vec_insert. rewrite decide_True by done. cbn [rbind]. rewrite Hon. cbn [rbind top_values].
    rewrite decide_False; [done|]. rewrite length_app, Nat.add_comm. simpl.
    rewrite length_take_le, length_drop by done. lia.
Qed.

(** * What a table knows of the values added to it *)

Definition added (adds : list (DataValue * Z)) (e : ColumnTopNEntry) : Prop :=
  is_null (entry_value e) = false /\ entry_value e ∈ map fst adds.

Record tracks (capacity : nat) (adds : list (DataValue * Z)) (self : ColumnTopN) : Prop := {
  tracks_sorted : StronglySorted entry_lt (top_values self);
  tracks_from : Forall (added adds) (top_values self);
  tracks_length : (length (top_values self) <= capacity)%nat;
  tracks_counts : Forall (fun e => 0 <= entry_error e <= entry_count e /\
                    entry_count e - entry_error e <= weight (entry_value e) adds <= entry_count e)
                    (top_values self);
  tracks_missing : forall v, is_null v = false -> untracked v (top_values self) ->
    Forall (fun e => weight v adds <= entry_count e) (top_values self) /\
    ((length (top_values self) < capacity)%nat -> weight v adds = 0);
  tracks_sum : sum_counts (top_values self) = total adds;
  tracks_index : index_ok (min_index self) (top_values self);
}.

Lemma added_snoc (adds : list (DataValue * Z)) (a : DataValue * Z) (l : list ColumnTopNEntry) :
  Forall (added adds) l -> Forall (added (adds ++ [a])) l.
Proof.
  intros H. eapply Forall_impl; [exact H|]. intros e [Hn He]. split; [done|]. rewrite map_app. apply elem_of_app. by left.
Qed.

Lemma tracks_default (capacity : nat) : tracks capacity [] top_n_default.
Proof. split; simpl; try constructor; try done; try lia. Qed.

Lemma eqv_null (v w : DataValue) : is_null v = true -> is_null w = false -> eqv v w = false.
Proof. intros. unfold eqv. apply bool_decide_eq_false. destruct v; try discriminate. by destruct w. Qed.

(** A null, or a count of zero, changes nothing. *)
Lemma tracks_skip (capacity : nat) (adds : list (DataValue * Z)) (self : ColumnTopN)
    (value : DataValue) (count : Z) :
  count = 0 \/ is_null value = true -> tracks capacity adds self ->
  tracks capacity (adds ++ [(value, count)]) self.
Proof.
  intros Hskip [Hs Hf Hl Hc Hm Ht Hi].
  assert (Hw : forall v, is_null v = false -> weight v (adds ++ [(value, count)]) = weight v adds).
  { intros v Hv. rewrite weight_snoc. destruct Hskip as [->|Hn]; [by case_match; lia|].
    rewrite (eqv_null value v) by done. lia. }
  split; [done| |done| | | |done].
  - by apply added_snoc.
  - rewrite Forall_forall in *. intros e He. rewrite Hw; [by apply Hc|]. by apply Hf.
  - intros v Hv Hu. rewrite Hw by done. by apply Hm.
  - rewrite total_snoc, Ht. destruct Hskip as [->| ->]; [case_match|]; lia.
Qed.

Lemma weight_nonneg (v : DataValue) (adds : list (DataValue * Z)) :
  Forall (fun a => 0 <= a.2) adds -> 0 <= weight v adds.
Proof. induction 1 as [|[w c] adds Hc _ IH]; simpl in *; [lia|]. case_match; lia. Qed.

Lemma count_le_sum (l : list ColumnTopNEntry) (e : ColumnTopNEntry) :
  Forall (fun x => 0 <= entry_count x) l -> e ∈ l -> entry_count e <= sum_counts l.
Proof.
  intros H He. apply list_elem_of_split in He as (l1 & l2 & ->).
  apply Forall_app in H as [H1 H2]. inversion H2 as [|? ? He H3]; subst.
  rewrite sum_counts_app. simpl. apply (sum_counts_lower _ 0) in H1, H3. lia.
Qed.

Lemma tracks_count_nonneg (capacity : nat) (adds : list (DataValue * Z)) (self : ColumnTopN) :
  tracks capacity adds self -> Forall (fun x => 0 <= entry_count x) (top_values self).
Proof. intros H. eapply Forall_impl; [exact (tracks_counts _ _ _ H)|]. simpl. lia. Qed.

(** The value has a counter: it and only it grows. *)
Lemma tracks_update (capacity : nat) (adds : list (DataValue * Z)) (self : ColumnTopN)
    (value : DataValue) (count : Z) (i : nat) (e : ColumnTopNEntry) :
  0 <= count -> is_null value = false -> total adds + count <= USIZE_MAX ->
  top_values self !! i = Some e -> eqv (entry_value e) value = true ->
  tracks capacity adds self ->
  exists self', update_existing self i count 0 = Ok self' /\
    tracks capacity (adds ++ [(value, count)]) self'.
Proof.
  intros Hcount Hnull Hmax He Heq T. pose proof (tracks_count_nonneg _ _ _ T) as Hpos.
  pose proof (count_le_sum _ e Hpos (list_elem_of_lookup_2 _ _ _ He)) as Hsum.
  destruct T as [Hs Hf Hl Hc Hm Ht Hi]. destruct self as [l mi]. simpl in *.
  unfold update_existing. cbn [top_values min_index]. rewrite (vec_get_Some _ _ _ He). cbn [rbind].
  rewrite vec_set_lt by (by eapply lookup_lt_Some). cbn [rbind]. eexists. split; [done|].
  destruct (list_elem_of_split_length _ _ _ He) as (l1 & l2 & -> & ->).
  rewrite Forall_app, Forall_cons in Hf, Hc, Hpos. rewrite sum_counts_app in Ht, Hsum.
  apply StronglySorted_app in Hs as (Hcross & Hs1 & [Hlt Hs2]%StronglySorted_cons).
  assert (Hoth : forall x, x ∈ l1 ++ l2 -> eqv value (entry_value x) = false).
  { intros x Hx. rewrite <- (eqv_trans _ _ _ (eq_trans (eqv_sym _ _) Heq)).
    apply bool_decide_eq_false. apply elem_of_app in Hx as [Hx|Hx].
    - specialize (Hcross x e Hx ltac:(set_solver)) as E. unfold entry_lt in E.
      rewrite partial_cmp_flip, E. done.
    - rewrite Forall_forall in Hlt. specialize (Hlt x Hx) as E. unfold entry_lt in E. by rewrite E. }
  destruct Hc as (Hc1 & Hce & Hc2). destruct Hf as (Hf1 & Hfe & Hf2).
  set (e' := mk_top_n_entry _ _ _).
  assert (Ee' : e' = mk_top_n_entry (entry_value e) (entry_count e + count) (entry_error e)).
  { unfold e'. f_equal; apply saturating_add_exact || (rewrite saturating_add_exact by lia; lia). lia. }
  rewrite Ee'. clear Ee' e'. rewrite insert_app_r_alt, Nat.sub_diag by done. simpl.
  split; cbn [top_values min_index].
  - apply StronglySorted_app. split_and!; [|done|by apply StronglySorted_cons].
    intros x y Hx [->|Hy]%elem_of_cons; [|apply Hcross; set_solver].
    apply (Hcross x e Hx). set_solver.
  - apply added_snoc. rewrite Forall_app, Forall_cons. split_and!; [done|exact Hfe|done].
  - rewrite length_app in *. done.
  - rewrite Forall_app, Forall_cons. simpl. rewrite weight_snoc, (eqv_sym value), Heq.
    rewrite !Forall_forall in *. split_and!; [|lia..|];
      intros x Hx; rewrite weight_snoc, Hoth by set_solver; rewrite Z.add_0_r; auto.
  - intros v Hv Hu. unfold untracked in *. rewrite Forall_app, Forall_cons in Hu. simpl in Hu.
    destruct (Hm v Hv) as [Hm1 Hm2]; [by rewrite Forall_app, Forall_cons|].
    rewrite weight_snoc, (eqv_trans _ _ v Heq), (proj1 (proj2 Hu)), Z.add_0_r.
    rewrite length_app in *. split; [|done]. rewrite Forall_app, Forall_cons in Hm1.
    rewrite Forall_app, Forall_cons. simpl. destruct Hm1 as (? & ? & ?). split_and!; [done|lia|done].
  - rewrite total_snoc, Hnull, sum_counts_app. simpl in *. lia.
  - intros k Hk. case_bool_decide; [done|]. specialize (Hi k Hk). by rewrite length_app in *.
Qed.

(** The value has no counter: it gets one that starts at [b], a bound of what
    any untracked value can have been added with. *)
Lemma tracks_insert (capacity : nat) (adds : list (DataValue * Z)) (l1 l2 : list ColumnTopNEntry)
    (value : DataValue) (count b : Z) (mi : option nat) :
  0 <= count -> 0 <= b -> is_null value = false -> eqv value value = true -> Forall (fun a => 0 <= a.2) adds ->
  let e := mk_top_n_entry value (b + count) b in
  StronglySorted entry_lt (l1 ++ e :: l2) -> index_ok mi (l1 ++ e :: l2) ->
  Forall (added adds) (l1 ++ l2) -> (length (l1 ++ l2) < capacity)%nat ->
  Forall (fun e => 0 <= entry_error e <= entry_count e /\
    entry_count e - entry_error e <= weight (entry_value e) adds <= entry_count e) (l1 ++ l2) ->
  Forall (fun x => b <= entry_count x) (l1 ++ l2) ->
  untracked value (l1 ++ l2) ->
  (forall v, is_null v = false -> untracked v (l1 ++ l2) -> weight v adds <= b) ->
  ((S (length (l1 ++ l2)) < capacity)%nat -> b = 0) ->
  sum_counts (l1 ++ l2) + b = total adds ->
  tracks capacity (adds ++ [(value, count)]) (mk_top_n (l1 ++ e :: l2) mi).
Proof.
  intros Hcount Hb Hnull Hself Hadds e Hs Hi Hf Hlen Hc Hge Hu Hm Hroom Hsum.
  pose proof (weight_nonneg value adds Hadds) as Hw0. pose proof (Hm value Hnull Hu) as Hwb.
  apply Forall_app in Hf as [Hf1 Hf2], Hc as [Hc1 Hc2], Hge as [Hg1 Hg2], Hu as [Hu1 Hu2].
  assert (Hlen' : length (l1 ++ e :: l2) = S (length (l1 ++ l2))) by (rewrite !length_app; simpl; lia).
  split; cbn [top_values min_index]; [done| |lia| | | |done].
  - rewrite Forall_app, Forall_cons. split_and!; [by apply added_snoc| |by apply added_snoc].
    split; [done|]. rewrite map_app. apply elem_of_app. right. simpl. by left.
  - rewrite Forall_app, Forall_cons. simpl. rewrite weight_snoc, Hself, !Forall_forall in *.
    split_and!; [|lia..|]; intros x Hx; rewrite weight_snoc, (eqv_sym value);
      [rewrite (Hu1 x Hx)|rewrite (Hu2 x Hx)]; rewrite Z.add_0_r; [by apply Hc1|by apply Hc2].
  - intros v Hv. unfold untracked. rewrite Forall_app, Forall_cons. simpl. intros (Hv1 & Hve & Hv2).
    assert (weight v adds <= b) as Hvb by (apply Hm; [done|]; by apply Forall_app).
    pose proof (weight_nonneg v adds Hadds). rewrite weight_snoc, Hve, Hlen', Z.add_0_r. split.
    + rewrite Forall_app, Forall_cons. simpl. split_and!; [|lia|].
      * eapply Forall_impl; [exact Hg1|]. simpl. lia.
      * eapply Forall_impl; [exact Hg2|]. simpl. lia.
    + intros Hr. specialize (Hroom Hr). lia.
  - rewrite total_snoc, Hnull. rewrite sum_counts_app in *. simpl. lia.
Qed.

Lemma untracked_sublist (v : DataValue) (l1 l2 : list ColumnTopNEntry) (e : ColumnTopNEntry) :
  untracked v (l1 ++ e :: l2) <-> eqv (entry_value e) v = false /\ untracked v (l1 ++ l2).
Proof. unfold untracked. rewrite !Forall_app, Forall_cons. naive_solver. Qed.

Lemma find_missing (self : ColumnTopN) (v : DataValue) (i : nat) :
  find_result (top_values self) v (Missing i) -> untracked v (top_values self).
Proof.
  intros (_ & Hl & Hg). unfold untracked. rewrite <- (take_drop i (top_values self)).
  apply Forall_app. split; (eapply Forall_impl; [eassumption|]); intros e He; apply bool_decide_eq_false;
    simpl in He; by rewrite He.
Qed.

(** Adding a value that has no counter. *)
Lemma tracks_new (capacity : nat) (adds : list (DataValue * Z)) (self : ColumnTopN)
    (value : DataValue) (count : Z) :
  (1 <= capacity)%nat -> 0 <= count -> is_null value = false -> eqv value value = true ->
  Forall (fun a => 0 <= a.2) adds -> total adds + count <= USIZE_MAX ->
  Forall (fun e => is_Some (partial_cmp (entry_value e) value)) (top_values self) ->
  untracked value (top_values self) -> tracks capacity adds self ->
  exists self', insert_new_with_options self capacity (mk_top_n_entry value count 0) = Ok self' /\
    tracks capacity (adds ++ [(value, count)]) self'.
Proof.
  intros Hcap Hcount Hnull Hself Hadds Hmax Hcmp Hu T.
  pose proof (tracks_count_nonneg _ _ _ T) as Hpos. destruct T as [Hs Hf Hl Hc Hm Ht Hi].
  unfold insert_new_with_options. rewrite decide_False by lia. case_decide as Hfull.
  - destruct (prune_min_spec self) as (l1 & m & l2 & mi & El & Hmin & Hmi & Hprune).
    { intros E. rewrite E in Hfull. simpl in Hfull. lia. }
    rewrite Hprune. cbn [rbind entry_value entry_count entry_error]. rewrite El in *.
    apply untracked_sublist in Hu as [Hue Hu].
    assert (entry_count m <= total adds) as Hmt.
    { rewrite <- Ht. apply count_le_sum; [done|]. set_solver. }
    rewrite !Forall_app, !Forall_cons in Hcmp, Hf, Hc, Hpos.
    rewrite !saturating_add_exact, Z.add_0_r by lia.
    set (e := mk_top_n_entry value (entry_count m + count) (entry_count m)).
    destruct (insert_counter_spec (mk_top_n (l1 ++ l2) mi) capacity e) as (k1 & k2 & mi' & Ek & Hs' & Hi' & ->).
    + apply StronglySorted_app in Hs as (H1 & H2 & [_ H3]%StronglySorted_cons).
      apply StronglySorted_app. split_and!; [set_solver|done..].
    + simpl. apply Forall_app. naive_solver.
    + done.
    + simpl. rewrite length_app in *. simpl in *. lia.
    + done.
    + simpl in Ek. eexists. split; [done|].
      apply (tracks_insert capacity adds k1 k2 value count (entry_count m)); rewrite <- ?Ek;
        try done; try (by apply Forall_app; naive_solver); try tauto.
      * rewrite length_app in *. simpl in *. lia.
      * intros v Hv Hvu. destruct (eqv (entry_value m) v) eqn:Ev.
        { rewrite <- (weight_eqv _ _ _ Ev). naive_solver lia. }
        destruct (Hm v Hv) as [Hw _]; [by apply untracked_sublist|].
        rewrite Forall_app, Forall_cons in Hw. naive_solver.
      * rewrite !length_app in *. simpl in *. lia.
      * rewrite <- Ht, !sum_counts_app. simpl. lia.
  - set (e := mk_top_n_entry value count 0).
    destruct (insert_counter_spec self capacity e) as (k1 & k2 & mi' & Ek & Hs' & Hi' & ->);
      [done|done|done|lia|done|].
    eexists. split; [done|]. rewrite Ek in *.
    apply (tracks_insert capacity adds k1 k2 value count 0); try done; try lia.
    intros v Hv Hvu. destruct (Hm v Hv Hvu) as [_ Hz]. rewrite Hz; lia.
Qed.

Definition comparable_values (adds : list (DataValue * Z)) : Prop :=
  forall v w, v ∈ map fst adds -> w ∈ map fst adds -> is_null v = false -> is_null w = false ->
    is_Some (partial_cmp v w).

Lemma tracks_step (capacity : nat) (adds : list (DataValue * Z)) (self : ColumnTopN)
    (value : DataValue) (count : Z) :
  (1 <= capacity)%nat -> Forall (fun a => 0 <= a.2) adds -> 0 <= count ->
  comparable_values (adds ++ [(value, count)]) ->
  total (adds ++ [(value, count)]) <= USIZE_MAX -> tracks capacity adds self ->
  exists self', add_with_size self capacity value count = Ok self' /\
    tracks capacity (adds ++ [(value, count)]) self'.
Proof.
  intros Hcap Hadds Hcount Hcmp Hmax T. unfold add_with_size, add_with_options, should_insert.
  destruct ((count =? 0) || is_null value) eqn:Eskip.
  { exists self. split; [done|]. apply tracks_skip; [|done].
    apply orb_true_iff in Eskip as [?%Z.eqb_eq|?]; auto. }
  apply orb_false_iff in Eskip as [_ Hnull]. rewrite total_snoc, Hnull in Hmax.
  assert (Hin : value ∈ map fst (adds ++ [(value, count)])) by (rewrite map_app; set_solver).
  assert (Hc : Forall (fun e => is_Some (partial_cmp (entry_value e) value)) (top_values self)).
  { eapply Forall_impl; [exact (tracks_from _ _ _ T)|]. intros e [Hn He].
    apply Hcmp; [rewrite map_app; set_solver|done..]. }
  assert (Hself : eqv value value = true).
  { apply eqv_true. destruct (Hcmp value value Hin Hin Hnull Hnull) as [o Ho].
    pose proof (partial_cmp_flip value value) as F. rewrite Ho in *. by destruct o. }
  pose proof (find_spec self value (tracks_sorted _ _ _ T) Hc) as Hfind.
  destruct (find self value) as [i|i].
  - destruct Hfind as (e & He & Ee).
    destruct (tracks_update capacity adds self value count i e) as (self' & -> & T'); try done.
    by exists self'.
  - simpl. apply tracks_new; try done. by eapply find_missing.
Qed.

(** The table after a sequence of additions to the empty one. *)
Definition top_n_of (capacity : nat) (adds : list (DataValue * Z)) : res ColumnTopN :=
  rfold (fun self a => add_with_size self capacity a.1 a.2) top_n_default adds.

Lemma total_prefix (l1 l2 : list (DataValue * Z)) :
  Forall (fun a => 0 <= a.2) l2 -> total l1 <= total (l1 ++ l2).
Proof.
  intros H. induction l1 as [|[v c] l1 IH]; simpl; [|lia].
  induction H as [|[v c] l2 Hc _ IH]; simpl in *; [lia|]. case_match; lia.
Qed.

Lemma top_n_of_tracks (capacity : nat) (adds : list (DataValue * Z)) :
  (1 <= capacity)%nat -> Forall (fun a => 0 <= a.2) adds -> comparable_values adds ->
  total adds <= USIZE_MAX ->
  exists self, top_n_of capacity adds = Ok self /\ tracks capacity adds self.
Proof.
  intros Hcap. induction adds as [|[v c] adds IH] using rev_ind; intros Hadds Hcmp Hmax.
  { exists top_n_default. split; [done|]. apply tracks_default. }
  apply Forall_app in Hadds as [Hadds Hlast]. inversion Hlast as [|? ? Hc]; subst. simpl in Hc.
  destruct IH as (self & Hrun & T); [done| | |].
  - intros x y Hx Hy. apply Hcmp; rewrite map_app; set_solver.
  - pose proof (total_prefix adds [(v, c)] Hlast). lia.
  - unfold top_n_of in *. rewrite rfold_app, Hrun. cbn [rbind rfold fst snd].
    destruct (tracks_step capacity adds self v c) as (self' & -> & T'); try done.
    by exists self'.
Qed.

Lemma get_entry_spec (self : ColumnTopN) (v : DataValue) :
  StronglySorted entry_lt (top_values self) -> is_null v = false ->
  Forall (fun e => is_Some (partial_cmp (entry_value e) v)) (top_values self) ->
  match get_entry self v with
  | Some e => e ∈ top_values self /\ eqv (entry_value e) v = true
  | None => untracked v (top_values self)
  end.
Proof.
  intros Hs Hn Hc. unfold get_entry. rewrite Hn. pose proof (find_spec self v Hs Hc) as Hf.
  destruct (find self v) as [i|i]; [|by eapply find_missing].
  destruct Hf as (e & He & Ee). rewrite He. split; [by eapply list_elem_of_lookup_2|done].
Qed.

(** C36: The top-N table of any sequence of additions whose values compare with
    each other never panics; it holds at most [capacity] counters, strictly
    sorted by value; the counter found for a value brackets the value's true
    frequency between [count - error] and [count]; a value more frequent than
    the total divided by the capacity always has a counter; and
    [finish_with_size] drops nothing. *)
Theorem top_n_guarantee (capacity : nat) (adds : list (DataValue * Z)) :
  (1 <= capacity)%nat -> Forall (fun a => 0 <= a.2) adds -> comparable_values adds ->
  total adds <= USIZE_MAX ->
  exists self, top_n_of capacity adds = Ok self /\ finish_with_size self capacity = Ok self /\
    (length (top_values self) <= capacity)%nat /\ StronglySorted entry_lt (top_values self) /\
    forall v, is_null v = false ->
      (forall w, w ∈ map fst adds -> is_null w = false -> is_Some (partial_cmp w v)) ->
      (forall e, get_entry self v = Some e ->
        entry_count e - entry_error e <= weight v adds <= entry_count e) /\
      (total adds < weight v adds * Z.of_nat capacity -> is_Some (get_entry self v)).
Proof.
  intros Hcap Hadds Hcmp Hmax.
  destruct (top_n_of_tracks capacity adds Hcap Hadds Hcmp Hmax) as (self & Hrun & [Hs Hf Hl Hc Hm Ht Hi]).
  exists self. split_and!; [done| |done|done|].
  { unfold finish_with_size, prune_to_capacity. by rewrite decide_True. }
  intros v Hv Hvc. pose proof (get_entry_spec self v Hs Hv) as Hget.
  assert (Forall (fun e => is_Some (partial_cmp (entry_value e) v)) (top_values self)) as Hcv.
  { eapply Forall_impl; [exact Hf|]. intros e [Hn He]. by apply Hvc. }
  specialize (Hget Hcv). split.
  - intros e He. rewrite He in Hget. destruct Hget as [Hin Heq]. rewrite Forall_forall in Hc.
    rewrite <- (weight_eqv _ _ _ Heq). by apply Hc.
  - intros Hheavy. destruct (get_entry self v) as [e|]; [eauto|]. exfalso.
    destruct (Hm v Hv Hget) as [Hlow Hroom]. apply sum_counts_lower in Hlow.
    pose proof (weight_nonneg v adds Hadds). pose proof (total_prefix [] adds Hadds). simpl in *.
    destruct (decide (length (top_values self) < capacity)%nat) as [Hlt|Hge].
    + rewrite Hroom in Hheavy by done. lia.
    + replace capacity with (length (top_values self)) in Hheavy by lia. lia.
Qed.

End TopN.

(** The repository's own example: the third value takes over a counter. *)
Lemma top_n_guarantee_witness :
  let adds := [(DataValue.Int32 1, 5); (DataValue.Int32 2, 3); (DataValue.Int32 3, 1)] in
  top_n_of 2 adds = Ok (mk_top_n [mk_top_n_entry (DataValue.Int32 1) 5 0;
                                  mk_top_n_entry (DataValue.Int32 3) 4 3] (Some 1%nat)) /\
  exists self, top_n_of 2 adds = Ok self /\
    is_Some (get_entry self (DataValue.Int32 1)).
Proof.
  intros adds. split; [vm_compute; reflexivity|].
  assert (Hc : forall v, v ∈ map fst adds -> exists z, v = DataValue.Int32 z).
  { intros v Hv. simpl in Hv. rewrite !elem_of_cons, elem_of_nil in Hv. naive_solver. }
  destruct (top_n_guarantee 2 adds) as (self & Hrun & _ & _ & _ & Hv).
  - lia.
  - repeat constructor; simpl; lia.
  - intros v w [a ->]%Hc [b ->]%Hc _ _. by eexists.
  - vm_compute; discriminate.
  - exists self. split; [exact Hrun|]. destruct (Hv (DataValue.Int32 1)) as [_ Hheavy].
    + reflexivity.
    + intros w [a ->]%Hc _. by eexists.
    + apply Hheavy. vm_compute. reflexivity.
Defined.
