(* ===== verification/ValueHash.v ===== *)
(** The hash of a value ([Hash for DataValue], src/src/types/value.rs) and the
    derived hash of its type, over the stable hasher. Hash maps and the
    sketches rely on its contract: equal values hash alike. *)

From S2P Require Import Prelude MachineInt Types Value StableHash.
From stdpp Require Import base list numbers option.
From Stdlib Require Import ZArith Lia.
Local Open Scope Z_scope.

(** The bytes [ordered_float::OrderedFloat] feeds to a hasher for a bit
    pattern of width [w]: its documentation promises that equal floats hash
    alike. *)
Class OrderedFloatHash {OF : OrderedFloat} := {
  of_bytes : Z -> Z -> Z -> list Z;
  of_bytes_eq : forall w inf a b, of_cmp w inf a b = Eq -> of_bytes w inf a = of_bytes w inf b;
}.

(** * The derived hash of a type *)

(** A variant hashes its position as an [isize], then its fields. *)
Definition hash_option (state : StableHasher) (write_some : StableHasher -> Z -> StableHasher)
  (o : option Z) : StableHasher :=
  match o with
  | None => write_isize state 0
  | Some v => write_some (write_isize state 1) v
  end.

Definition hash_bool (state : StableHasher) (b : bool) : StableHasher :=
  write_u8 state (if b then 1 else 0).

Definition hash_units (state : StableHasher) (unit : CharLengthUnits) : StableHasher :=
  write_isize state (match unit with Characters => 0 | Octets => 1 end).

Fixpoint hash_type (state : StableHasher) (ty : LogicalType) : StableHasher :=
  match ty with
  | LogicalType.SqlNull => write_isize state 0
  | LogicalType.Boolean => write_isize state 1
  | LogicalType.Tinyint => write_isize state 2
  | LogicalType.UTinyint => write_isize state 3
  | LogicalType.Smallint => write_isize state 4
  | LogicalType.USmallint => write_isize state 5
  | LogicalType.Integer => write_isize state 6
  | LogicalType.UInteger => write_isize state 7
  | LogicalType.Bigint => write_isize state 8
  | LogicalType.UBigint => write_isize state 9
  | LogicalType.Float => write_isize state 10
  | LogicalType.Double => write_isize state 11
  | LogicalType.Char len unit => hash_units (write_u32 (write_isize state 12) len) unit
  | LogicalType.Varchar len unit => hash_units (hash_option (write_isize state 13) write_u32 len) unit
  | LogicalType.Date => write_isize state 14
  | LogicalType.DateTime => write_isize state 15
  | LogicalType.Time precision => hash_option (write_isize state 16) write_u64 precision
  | LogicalType.TimeStamp precision zone =>
      hash_bool (hash_option (write_isize state 17) write_u64 precision) zone
  | LogicalType.Decimal precision scale =>
      hash_option (hash_option (write_isize state 18) write_u8 precision) write_u8 scale
  | LogicalType.Tuple types =>
      (fix go (state : StableHasher) (types : list LogicalType) : StableHasher :=
         match types with
         | [] => state
         | ty :: types => go (hash_type state ty) types
         end) (write_usize (write_isize state 19) (Z.of_nat (length types))) types
  end.

(** * The hash of a value *)

Section ValueHash.
Context {OF : OrderedFloat} {FH : OrderedFloatHash}.

Fixpoint hash_value (state : StableHasher) (v : DataValue) : StableHasher :=
  match v with
  | DataValue.Parameter_ id ty => hash_type (write_usize (write_u8 state 19) id) ty
  | DataValue.Null => write_u8 state 0
  | DataValue.Boolean b => hash_bool (write_u8 state 1) b
  | DataValue.Float32 bits => write (write_u8 state 2) (of_bytes 32 f32_inf bits)
  | DataValue.Float64 bits => write (write_u8 state 3) (of_bytes 64 f64_inf bits)
  | DataValue.Int8 v => write_i8 (write_u8 state 4) v
  | DataValue.Int16 v => write_i16 (write_u8 state 5) v
  | DataValue.Int32 v => write_i32 (write_u8 state 6) v
  | DataValue.Int64 v => write_i64 (write_u8 state 7) v
  | DataValue.UInt8 v => write_u8 (write_u8 state 8) v
  | DataValue.UInt16 v => write_u16 (write_u8 state 9) v
  | DataValue.UInt32 v => write_u32 (write_u8 state 10) v
  | DataValue.UInt64 v => write_u64 (write_u8 state 11) v
  | DataValue.Utf8 s _ _ => hash_str (write_u8 state 12) s
  | DataValue.Date32 v => write_i32 (write_u8 state 13) v
  | DataValue.Date64 v => write_i64 (write_u8 state 14) v
  | DataValue.Time32 v _ => write_u32 (write_u8 state 15) v
  | DataValue.Time64 v _ _ => write_i64 (write_u8 state 16) v
  | DataValue.Tuple values =>
      (fix go (state : StableHasher) (values : list DataValue) : StableHasher :=
         match values with
         | [] => state
         | v :: values => go (hash_value state v) values
         end) (write_usize (write_u8 state 18) (Z.of_nat (length values))) values
  end.

Lemma hash_value_tuple (state : StableHasher) (values : list DataValue) :
  hash_value state (DataValue.Tuple values) =
  foldl hash_value (write_usize (write_u8 state 18) (Z.of_nat (length values))) values.
Proof.
  simpl. generalize (write_usize (write_u8 state 18) (Z.of_nat (length values))).
  induction values as [|v values IH]; intros s; [done|]. simpl. apply IH.
Qed.

Lemma dv_eq_tuple_cons (x y : DataValue) (l1 l2 : list DataValue) :
  dv_eq (DataValue.Tuple (x :: l1)) (DataValue.Tuple (y :: l2)) =
  dv_eq x y && dv_eq (DataValue.Tuple l1) (DataValue.Tuple l2).
Proof. done. Qed.

Lemma dv_eq_tuple_length (l1 l2 : list DataValue) :
  dv_eq (DataValue.Tuple l1) (DataValue.Tuple l2) = true -> length l1 = length l2.
Proof.
  revert l2. induction l1 as [|x l1 IH]; intros [|y l2]; try done.
  rewrite dv_eq_tuple_cons. intros [_ H]%andb_true_iff. simpl. f_equal. by apply IH.
Qed.

(** [Eq] and [Hash] agree on values: two values that are equal (floats by
    value, strings without their declared type, times without their precision,
    tuples element by element) leave the hasher in the same state. *)
Theorem hash_value_eq (v w : DataValue) (state : StableHasher) :
  dv_eq v w = true -> hash_value state v = hash_value state w.
Proof.
  revert w state. induction v as [v Hv|vs IH] using DataValue_ind'; intros w state H.
  - destruct v; try (exfalso; by eapply Hv); destruct w; try discriminate H; simpl in H;
      try (apply Z.eqb_eq in H; by subst); try done.
    + apply andb_true_iff in H as [->%Z.eqb_eq ->%bool_decide_eq_true]. done.
    + apply eqb_prop in H. by subst.
    + simpl. f_equal. apply of_bytes_eq. unfold of_eqb in H. by destruct (of_cmp _ _ _ _).
    + simpl. f_equal. apply of_bytes_eq. unfold of_eqb in H. by destruct (of_cmp _ _ _ _).
    + apply bool_decide_eq_true in H. by subst.
  - destruct w as [ | | | | | | | | | | | | | | | | | |ws]; try discriminate H.
    rewrite !hash_value_tuple, (dv_eq_tuple_length _ _ H).
    generalize (write_usize (write_u8 state 18) (Z.of_nat (length ws))). clear state.
    revert ws H. induction IH as [|v vs Hv _ IHvs]; intros [|w ws] H state; try discriminate H; [done|].
    rewrite dv_eq_tuple_cons in H. apply andb_true_iff in H as [H1 H2]. simpl.
    rewrite (Hv w state H1). by apply IHvs.
Qed.

(** ** The hasher stays in range *)

Lemma hash_option_ok (state : StableHasher) (f : StableHasher -> Z -> StableHasher) (o : option Z) :
  (forall s v, hasher_ok s -> hasher_ok (f s v)) -> hasher_ok state -> hasher_ok (hash_option state f o).
Proof. intros Hf Hs. destruct o; simpl; [apply Hf|]; by apply write_ok. Qed.

Lemma hash_type_ok (ty : LogicalType) : forall state, hasher_ok state -> hasher_ok (hash_type state ty).
Proof.
  revert ty. fix go 1. intros ty state Hs. destruct ty; simpl;
    repeat first [apply write_ok|apply hash_option_ok; [intros; by apply write_ok|]]; try done.
  assert (hasher_ok (write_usize (write_isize state 19) (Z.of_nat (length types)))) as H by (by repeat apply write_ok).
  revert H. generalize (write_usize (write_isize state 19) (Z.of_nat (length types))).
  induction types as [|ty types IH]; intros s H; [done|]. apply IH. by apply go.
Qed.

Lemma hash_value_ok (v : DataValue) (state : StableHasher) : hasher_ok state -> hasher_ok (hash_value state v).
Proof.
  revert state. induction v as [v Hv|vs IH] using DataValue_ind'; intros state Hs.
  - destruct v; try (exfalso; by eapply Hv); simpl; try apply hash_type_ok; by repeat apply write_ok.
  - rewrite hash_value_tuple.
    assert (hasher_ok (write_usize (write_u8 state 18) (Z.of_nat (length vs)))) as H by (by repeat apply write_ok).
    revert H. generalize (write_usize (write_u8 state 18) (Z.of_nat (length vs))).
    induction IH as [|v vs Hv _ IHvs]; intros s H; [done|]. simpl. by apply IHvs, Hv.
Qed.
End ValueHash.

(** * An instance *)

(** A float is hashed by its order key, every NaN as one number. *)
Definition key_bytes (w inf bits : Z) : list Z :=
  to_le_bytes 8 (as_u 64 (if is_nan_bits w inf bits then 2 ^ 62 else float_key w bits)).

#[global] Program Instance ieee_float_hash : OrderedFloatHash (OF := ieee_ordered_float) :=
  {| of_bytes := key_bytes |}.
Next Obligation.
  unfold key_bytes. intros w inf a b H. simpl in H.
  destruct (is_nan_bits w inf a), (is_nan_bits w inf b); try discriminate H; [done|].
  apply Z.compare_eq in H. by rewrite H.
Qed.

Lemma hash_value_eq_witness :
  hash_value (new_with_keys 1 2) (DataValue.Tuple [DataValue.Time32 5 0; DataValue.Null]) =
  hash_value (new_with_keys 1 2) (DataValue.Tuple [DataValue.Time32 5 3; DataValue.Null]).
Proof. apply hash_value_eq. vm_compute. reflexivity. Defined.
