(* ===== verification/CmSketch.v ===== *)
(** The count-min sketch (src/src/optimizer/core/cm_sketch.rs): rows of
    counters indexed by hashes of the key, raised conservatively. A sketch never
    answers less than the number of times a key was added, its true count when
    [increment] adds it, and a row answers at most what was added under the
    key's own offset; the pages a sketch is
    stored as give the sketch back, and what the pages are checked for is
    enough for every later lookup. *)

From S2P Require Import Prelude MachineInt Types Value StableHash ValueHash Slices Ranges.
From stdpp Require Import base sets list numbers option.
From Stdlib Require Import ZArith Lia.
Local Open Scope Z_scope.

Definition COUNT_MIN_SKETCH_STORAGE_PAGE_LEN : Z := 16 * 1024.
Definition CM_SKETCH_HASH_KEYS : (Z * Z) * (Z * Z) :=
  ((0x94d049bb133111eb, 0xd6e8feb86659fd93), (0xa0761d6478bd642f, 0xe7037ed1a0b428db)).

Record CountMinSketchMeta := mk_cms_meta {
  width : Z;
  meta_k_num : nat;
  page_len : nat;
  hasher_0 : StableHasher;
  hasher_1 : StableHasher;
}.

Record CountMinSketchPage := mk_cms_page {
  row_idx : nat;
  page_idx : nat;
  page_counters : list Z;
}.

Record CountMinSketch := mk_cms {
  counters : list (list Z);
  offsets : list nat;
  hashers : StableHasher * StableHasher;
  mask : Z;
  k_num : nat;
}.

Definition new_hashers : StableHasher * StableHasher :=
  let '((key0, key1), (key2, key3)) := CM_SKETCH_HASH_KEYS in
  (new_with_keys key0 key1, new_with_keys key2 key3).

(** [with_relative_error] once the floating-point estimates have chosen the
    width, a power of two, and the number of rows. *)
Definition with_shape (width k_num : nat) : CountMinSketch :=
  mk_cms (replicate k_num (replicate width 0)) (replicate k_num 0%nat) new_hashers
    (Z.of_nat width - 1) k_num.

Definition div_ceil (a b : Z) : Z := (a + b - 1) / b.

Definition error_bound (self : CountMinSketch) (total_count : Z) : Z :=
  div_ceil (saturating_mul total_count 2) (mask self + 1).

(** * Storage *)

Definition div_ceil_nat (a b : nat) : nat := ((a + b - 1) / b)%nat.

Definition storage_page_count (self : CountMinSketch) (page_len : nat) : nat :=
  list_sum (map (fun row => div_ceil_nat (length row) page_len) (counters self)).

(** [counters[start..end]] of page [page_idx]. *)
Definition page_slice (page_len : nat) (row : list Z) (page_idx : nat) : list Z :=
  let start := (page_idx * page_len)%nat in
  let stop := Nat.min ((page_idx + 1) * page_len) (length row) in
  take (stop - start) (drop start row).

Definition row_pages (page_len : nat) (row_idx : nat) (row : list Z) : list CountMinSketchPage :=
  map (fun page_idx => mk_cms_page row_idx page_idx (page_slice page_len row page_idx))
    (seq 0 (div_ceil_nat (length row) page_len)).

Definition into_storage_parts (self : CountMinSketch) (page_len : nat)
  : CountMinSketchMeta * list CountMinSketchPage :=
  (mk_cms_meta (mask self + 1) (k_num self) page_len (fst (hashers self)) (snd (hashers self)),
   concat (imap (row_pages page_len) (counters self))).

Definition is_power_of_two (w : Z) : bool := (0 <? w) && (Z.land w (w - 1) =? 0).

(** One page of the loading loop. *)
Definition load_page (k_num page_len : nat) (state : list (list Z) * list nat) (page : CountMinSketchPage)
  : res (list (list Z) * list nat) :=
  let '(counters, expected_page_idx) := state in
  if decide (k_num <= row_idx page)%nat then Err InvalidValue
  else
    let? expected := vec_get expected_page_idx (row_idx page) in
    if negb (bool_decide (page_idx page = expected)) then Err InvalidValue
    else if decide (page_len < length (page_counters page))%nat then Err InvalidValue
    else
      let? row := vec_get counters (row_idx page) in
      let? counters := vec_set counters (row_idx page) (row ++ page_counters page) in
      let? expected_page_idx := vec_set expected_page_idx (row_idx page) (S expected) in
      Ok (counters, expected_page_idx).

Definition from_storage_parts (meta : CountMinSketchMeta) (pages : list CountMinSketchPage)
  : res CountMinSketch :=
  if (width meta =? 0) || bool_decide (meta_k_num meta = 0)%nat || bool_decide (page_len meta = 0)%nat
  then Err InvalidValue
  else if negb (is_power_of_two (width meta)) then Err InvalidValue
  else
    let? (counters, _) :=
      rfold (load_page (meta_k_num meta) (page_len meta))
        (replicate (meta_k_num meta) [], replicate (meta_k_num meta) 0%nat) pages in
    if forallb (fun row => Z.of_nat (length row) =? width meta) counters then
      Ok (mk_cms counters (replicate (meta_k_num meta) 0%nat) (hasher_0 meta, hasher_1 meta)
            (width meta - 1) (meta_k_num meta))
    else Err InvalidValue.

(** * Adding and estimating *)

Section Sketch.
Context {K : Type} (key_hash : StableHasher -> K -> StableHasher).

Definition offset (self : CountMinSketch) (hashes : Z * Z) (key : K) (k_i : nat) : (Z * Z) * nat :=
  match k_i with
  | O =>
      let hash := finish (key_hash (fst (hashers self)) key) in
      ((hash, snd hashes), Z.to_nat (Z.land hash (mask self)))
  | 1%nat =>
      let hash := finish (key_hash (snd (hashers self)) key) in
      ((fst hashes, hash), Z.to_nat (Z.land hash (mask self)))
  | _ =>
      (hashes,
       Z.to_nat (Z.land
         (wrapping_add_u 64 (fst hashes)
            (wrapping_mul_u 64 (Z.of_nat k_i) (snd hashes) mod 0xffffffffffffffc5))
         (mask self)))
  end.

Definition min_option (lowest : option Z) (x : Z) : option Z :=
  Some (match lowest with None => x | Some l => Z.min l x end).

(** The first loop of [add]: the offset of every row, and the least counter. *)
Fixpoint add_probe (self : CountMinSketch) (key : K) (ks : list nat) (hashes : Z * Z)
  (offsets : list nat) (lowest : option Z) : res (option Z * list nat) :=
  match ks with
  | [] => Ok (lowest, offsets)
  | k_i :: ks =>
      let '(hashes, offset) := offset self hashes key k_i in
      let? offsets := vec_set offsets k_i offset in
      let? row := vec_get (counters self) k_i in
      let? counter := vec_get row offset in
      add_probe self key ks hashes offsets (min_option lowest counter)
  end.

(** The second loop: raise the counters that hold the least. *)
Fixpoint add_bump (counters : list (list Z)) (offsets : list nat) (lowest value : Z) (ks : list nat)
  : res (list (list Z)) :=
  match ks with
  | [] => Ok counters
  | k_i :: ks =>
      let? offset := vec_get offsets k_i in
      let? row := vec_get counters k_i in
      let? counter := vec_get row offset in
      if counter =? lowest then
        let? row := vec_set row offset (saturating_add counter value) in
        let? counters := vec_set counters k_i row in
        add_bump counters offsets lowest value ks
      else add_bump counters offsets lowest value ks
  end.

Definition add (self : CountMinSketch) (key : K) (value : Z) : res CountMinSketch :=
  let? (lowest, offs) := add_probe self key (seq 0 (k_num self)) (0, 0) (offsets self) None in
  match lowest with
  | None => Err Panic
  | Some lowest =>
      let? cs := add_bump (counters self) offs lowest value (seq 0 (k_num self)) in
      Ok (mk_cms cs offs (hashers self) (mask self) (k_num self))
  end.

Definition increment (self : CountMinSketch) (key : K) : res CountMinSketch := add self key 1.

Fixpoint estimate_probe (self : CountMinSketch) (key : K) (ks : list nat) (hashes : Z * Z)
  (lowest : option Z) : res (option Z) :=
  match ks with
  | [] => Ok lowest
  | k_i :: ks =>
      let '(hashes, offset) := offset self hashes key k_i in
      let? row := vec_get (counters self) k_i in
      let? counter := vec_get row offset in
      estimate_probe self key ks hashes (min_option lowest counter)
  end.

Definition estimate (self : CountMinSketch) (key : K) : res Z :=
  let? lowest := estimate_probe self key (seq 0 (k_num self)) (0, 0) None in
  match lowest with
  | None => Err Panic
  | Some lowest => Ok lowest
  end.

Fixpoint clear_rows (counters : list (list Z)) (ks : list nat) : res (list (list Z)) :=
  match ks with
  | [] => Ok counters
  | k_i :: ks =>
      let? row := vec_get counters k_i in
      let? counters := vec_set counters k_i (map (fun _ => 0) row) in
      clear_rows counters ks
  end.

Definition clear (self : CountMinSketch) : res CountMinSketch :=
  let? cs := clear_rows (counters self) (seq 0 (k_num self)) in
  Ok (mk_cms cs (offsets self) new_hashers (mask self) (k_num self)).

(** * Rows and cells *)

Record sketch_ok (self : CountMinSketch) : Prop := {
  ok_rows : length (counters self) = k_num self;
  ok_offsets : length (offsets self) = k_num self;
  ok_some : (1 <= k_num self)%nat;
  ok_mask : 0 <= mask self;
  ok_width : Forall (fun row => length row = Z.to_nat (mask self + 1)) (counters self);
}.

(** The offset of a key in a row, with no state. *)
Definition off (hs : StableHasher * StableHasher) (mask : Z) (key : K) (k_i : nat) : nat :=
  let h0 := finish (key_hash (fst hs) key) in
  let h1 := finish (key_hash (snd hs) key) in
  Z.to_nat (Z.land
    (match k_i with
     | O => h0
     | 1%nat => h1
     | _ => wrapping_add_u 64 h0 (wrapping_mul_u 64 (Z.of_nat k_i) h1 mod 0xffffffffffffffc5)
     end) mask).

Definition row_of (self : CountMinSketch) (k_i : nat) : list Z := default [] (counters self !! k_i).
Definition cell (self : CountMinSketch) (key : K) (k_i : nat) : Z :=
  default 0 (row_of self k_i !! off (hashers self) (mask self) key k_i).

(** The hashes known when row [k_i] is reached. *)
Definition known (self : CountMinSketch) (key : K) (k_i : nat) (hashes : Z * Z) : Prop :=
  ((1 <= k_i)%nat -> fst hashes = finish (key_hash (fst (hashers self)) key)) /\
  ((2 <= k_i)%nat -> snd hashes = finish (key_hash (snd (hashers self)) key)).

Lemma offset_known (self : CountMinSketch) (key : K) (k_i : nat) (hashes : Z * Z) :
  known self key k_i hashes ->
  exists hashes', offset self hashes key k_i = (hashes', off (hashers self) (mask self) key k_i) /\
    known self key (S k_i) hashes'.
Proof.
  intros [H0 H1]. unfold offset, off. destruct k_i as [|[|k]].
  - eexists. split; [reflexivity|]. split; [done|lia].
  - eexists. split; [reflexivity|]. split; [|done]. intros _. simpl. by apply H0.
  - exists hashes. rewrite H0, H1 by lia. split; [done|].
    split; [by intros _; apply H0; lia|by intros _; apply H1; lia].
Qed.

Lemma land_le (a m : Z) : 0 <= m -> 0 <= Z.land a m <= m.
Proof.
  intros Hm. split; [by apply Z.land_nonneg; right|]. rewrite Z.land_comm.
  assert (m - Z.land m a = Z.ldiff m (Z.land m a)) as E.
  { apply Z.sub_nocarry_ldiff. apply Z.bits_inj'. intros n Hn.
    rewrite Z.ldiff_spec, Z.land_spec, Z.bits_0. by destruct (Z.testbit m n), (Z.testbit a n). }
  assert (0 <= Z.ldiff m (Z.land m a)) by (apply Z.ldiff_nonneg; by left). lia.
Qed.

Lemma off_lt (hs : StableHasher * StableHasher) (m : Z) (key : K) (k_i : nat) :
  0 <= m -> (off hs m key k_i < Z.to_nat (m + 1))%nat.
Proof.
  intros Hm. unfold off. set (h := match k_i with O => _ | _ => _ end).
  pose proof (land_le h m Hm). lia.
Qed.

Lemma cell_lookup (self : CountMinSketch) (key : K) (k_i : nat) :
  sketch_ok self -> (k_i < k_num self)%nat ->
  exists row, counters self !! k_i = Some row /\
    row !! off (hashers self) (mask self) key k_i = Some (cell self key k_i).
Proof.
  intros [Hr _ _ Hm Hw] Hk. rewrite <- Hr in Hk. destruct (lookup_lt_is_Some_2 _ _ Hk) as [row Hrow].
  exists row. split; [done|]. pose proof (Forall_lookup_1 _ _ _ _ Hw Hrow) as Hlen. simpl in Hlen.
  pose proof (off_lt (hashers self) (mask self) key k_i Hm) as Ho. rewrite <- Hlen in Ho.
  destruct (lookup_lt_is_Some_2 _ _ Ho) as [c Hc]. unfold cell, row_of. rewrite Hrow. simpl. by rewrite Hc.
Qed.

(** * The loops *)

Definition is_min (m : Z) (f : nat -> Z) (n : nat) : Prop :=
  (forall k, (k < n)%nat -> m <= f k) /\ exists k, (k < n)%nat /\ m = f k.

Lemma fold_min (f : nat -> Z) (n : nat) :
  (1 <= n)%nat -> exists m, fold_left min_option (map f (seq 0 n)) None = Some m /\ is_min m f n.
Proof.
  intros Hn. destruct n as [|n]; [lia|]. clear Hn. induction n as [|n (m & Hm & Hle & k & Hk & Ek)].
  { exists (f 0%nat). split; [done|]. split; [|exists 0%nat; split; [lia|done]].
    intros k Hk. by replace k with 0%nat by lia. }
  rewrite seq_S, map_app, fold_left_app, Hm. simpl. eexists. split; [done|]. split.
  - intros j Hj. destruct (decide (j = S n)) as [->|]; [lia|]. specialize (Hle j). lia.
  - destruct (Z.min_spec m (f (S n))) as [[_ ->]|[_ ->]]; [exists k|exists (S n)]; split; lia || done.
Qed.

Lemma estimate_probe_spec (self : CountMinSketch) (key : K) (n k : nat) (hashes : Z * Z) (lowest : option Z) :
  sketch_ok self -> (k + n = k_num self)%nat -> known self key k hashes ->
  estimate_probe self key (seq k n) hashes lowest =
  Ok (fold_left min_option (map (cell self key) (seq k n)) lowest).
Proof.
  intros Hok. revert k hashes lowest. induction n as [|n IH]; intros k hashes lowest Hk Hh; [done|].
  simpl. destruct (offset_known self key k hashes Hh) as (hashes' & -> & Hh').
  destruct (cell_lookup self key k Hok) as (row & Hrow & Hc); [lia|].
  rewrite (vec_get_Some _ _ _ Hrow). simpl. rewrite (vec_get_Some _ _ _ Hc). simpl.
  apply IH; [lia|done].
Qed.

(** The estimate is the least cell of the key. *)
Lemma estimate_spec (self : CountMinSketch) (key : K) :
  sketch_ok self -> exists m, estimate self key = Ok m /\ is_min m (cell self key) (k_num self).
Proof.
  intros Hok. unfold estimate. rewrite estimate_probe_spec by (done || (split; lia)).
  destruct (fold_min (cell self key) (k_num self) (ok_some _ Hok)) as (m & -> & Hm). by exists m.
Qed.

Lemma add_probe_spec (self : CountMinSketch) (key : K) (n k : nat) (hashes : Z * Z)
    (offs : list nat) (lowest : option Z) :
  sketch_ok self -> (k + n = k_num self)%nat -> known self key k hashes -> length offs = k_num self ->
  exists offs', add_probe self key (seq k n) hashes offs lowest =
      Ok (fold_left min_option (map (cell self key) (seq k n)) lowest, offs') /\
    length offs' = k_num self /\
    (forall j, (j < k)%nat -> offs' !! j = offs !! j) /\
    (forall j, (k <= j < k + n)%nat -> offs' !! j = Some (off (hashers self) (mask self) key j)).
Proof.
  intros Hok. revert k hashes offs lowest.
  induction n as [|n IH]; intros k hashes offs lowest Hk Hh Hl.
  { exists offs. split_and!; [done..|lia]. }
  simpl. destruct (offset_known self key k hashes Hh) as (hashes' & -> & Hh').
  destruct (cell_lookup self key k Hok) as (row & Hrow & Hc); [lia|].
  rewrite vec_set_lt by lia. cbn [rbind].
  rewrite (vec_get_Some _ _ _ Hrow). cbn [rbind]. rewrite (vec_get_Some _ _ _ Hc). cbn [rbind].
  set (o := off (hashers self) (mask self) key k).
  destruct (IH (S k) hashes' (<[k:=o]> offs) (min_option lowest (cell self key k)))
    as (offs' & Hrun & Hl' & Hlow & Hhigh); [lia|done|by rewrite length_insert|].
  exists offs'. split_and!; [done|done| |].
  - intros j Hj. rewrite Hlow by lia. by rewrite list_lookup_insert_ne by lia.
  - intros j Hj. destruct (decide (j = k)) as [->|]; [|apply Hhigh; lia].
    rewrite Hlow by lia. rewrite list_lookup_insert_eq by lia. done.
Qed.

(** One row of the second loop. *)
Definition bump_row (lowest value : Z) (o : nat) (row : list Z) : list Z :=
  if decide (row !! o = Some lowest) then <[o := saturating_add lowest value]> row else row.

Lemma add_bump_spec (offs : list nat) (lowest value : Z) (os : nat -> nat) (n k : nat) (cs : list (list Z)) :
  (forall j, (k <= j < k + n)%nat -> offs !! j = Some (os j) /\
    exists row, cs !! j = Some row /\ (os j < length row)%nat) ->
  exists cs', add_bump cs offs lowest value (seq k n) = Ok cs' /\ length cs' = length cs /\
    forall j, cs' !! j = if decide (k <= j < k + n)%nat then bump_row lowest value (os j) <$> cs !! j
                         else cs !! j.
Proof.
  revert k cs. induction n as [|n IH]; intros k cs H.
  { exists cs. split_and!; [done|done|]. intros j. by rewrite decide_False by lia. }
  destruct (H k) as (Ho & row & Hrow & Hlt); [lia|]. destruct (lookup_lt_is_Some_2 _ _ Hlt) as [c Hc].
  pose proof (lookup_lt_Some _ _ _ Hrow) as Hk.
  simpl. rewrite (vec_get_Some _ _ _ Ho). cbn [rbind]. rewrite (vec_get_Some _ _ _ Hrow). cbn [rbind].
  rewrite (vec_get_Some _ _ _ Hc). cbn [rbind].
  assert (Hrun : exists cs1, length cs1 = length cs /\ cs1 = <[k := bump_row lowest value (os k) row]> cs /\
    (if c =? lowest
     then rbind (vec_set row (os k) (saturating_add c value))
            (fun row => rbind (vec_set cs k row) (fun cs => add_bump cs offs lowest value (seq (S k) n)))
     else add_bump cs offs lowest value (seq (S k) n)) = add_bump cs1 offs lowest value (seq (S k) n)).
  { eexists. split; [|split; [reflexivity|]]; [by rewrite length_insert|]. unfold bump_row. rewrite Hc.
    destruct (Z.eqb_spec c lowest) as [->|Hne].
    - rewrite decide_True by done. rewrite vec_set_lt by done. cbn [rbind].
      rewrite vec_set_lt by done. done.
    - rewrite decide_False by congruence. by rewrite list_insert_id. }
  destruct Hrun as (cs1 & Hlen1 & Ecs1 & ->).
  destruct (IH (S k) cs1) as (cs' & Hadd & Hlen & Hlook).
  { intros j Hj. destruct (H j) as (Hoj & r & Hr & Hlr); [lia|]. split; [done|].
    exists r. split; [|done]. by rewrite Ecs1, list_lookup_insert_ne by lia. }
  exists cs'. split_and!; [done|lia|]. intros j. rewrite Hlook, Ecs1.
  destruct (decide (j = k)) as [->|Hne].
  - rewrite decide_False, decide_True by lia. by rewrite list_lookup_insert_eq, Hrow by lia.
  - rewrite list_lookup_insert_ne by lia.
    destruct (decide (k <= j < k + S n)%nat), (decide (S k <= j < S k + n)%nat); done || lia.
Qed.

(** A sketch of the same shape: what [add] keeps. *)
Definition same_shape (a b : CountMinSketch) : Prop :=
  hashers a = hashers b /\ mask a = mask b /\ k_num a = k_num b.

(** [add] raises, in the rows where the key's cell is least, that cell. *)
Lemma add_spec (self : CountMinSketch) (key : K) (value : Z) :
  sketch_ok self ->
  exists self' lowest, add self key value = Ok self' /\ sketch_ok self' /\ same_shape self' self /\
    is_min lowest (cell self key) (k_num self) /\
    forall key' k, (k < k_num self)%nat ->
      cell self' key' k =
      if decide (off (hashers self) (mask self) key' k = off (hashers self) (mask self) key k /\
                 cell self key k = lowest)
      then saturating_add lowest value else cell self key' k.
Proof.
  intros Hok. unfold add.
  destruct (add_probe_spec self key (k_num self) 0 (0, 0) (offsets self) None) as
    (offs & -> & Hlo & _ & Hoffs); [done|done|split; lia|apply Hok|]. cbn [rbind].
  destruct (fold_min (cell self key) (k_num self) (ok_some _ Hok)) as (lowest & -> & Hmin).
  set (os := off (hashers self) (mask self) key) in *.
  destruct (add_bump_spec offs lowest value os (k_num self) 0 (counters self)) as (cs & -> & Hlen & Hlook).
  { intros j Hj. split; [by apply Hoffs|]. destruct (cell_lookup self key j Hok) as (row & Hrow & Hc); [lia|].
    exists row. split; [done|]. by eapply lookup_lt_Some. }
  cbn [rbind]. eexists _, lowest. split; [done|]. split; [|split; [done|split; [done|]]].
  - destruct Hok as [Hr _ Hs Hm Hw]. split; simpl; [lia|done|done|done|].
    apply Forall_lookup. intros j row Hj. rewrite Hlook in Hj. rewrite Forall_lookup in Hw. case_decide.
    + destruct (counters self !! j) as [r|] eqn:E; [|done]. simplify_eq/=. unfold bump_row.
      case_decide; rewrite ?length_insert; by eapply Hw.
    + by eapply Hw.
  - intros key' k Hk. destruct (cell_lookup self key k Hok Hk) as (row & Hrow & Hc).
    destruct (cell_lookup self key' k Hok Hk) as (row' & Hrow' & Hc'). simplify_eq. fold (os k) in Hc.
    assert (cell (mk_cms cs offs (hashers self) (mask self) (k_num self)) key' k =
            default 0 (bump_row lowest value (os k) row !! off (hashers self) (mask self) key' k)) as ->.
    { unfold cell at 1, row_of. cbn [counters hashers mask]. rewrite Hlook, decide_True by lia.
      by rewrite Hrow. }
    unfold bump_row. rewrite Hc. case_decide as E1.
    + simplify_eq. destruct (decide (off (hashers self) (mask self) key' k = os k)) as [E2|E2].
      * rewrite E2, list_lookup_insert_eq by (by eapply lookup_lt_Some). by rewrite decide_True.
      * rewrite list_lookup_insert_ne, Hc', decide_False by naive_solver. done.
    + rewrite Hc', decide_False by naive_solver. done.
Qed.

(** * What a sketch knows of the keys added to it *)

Context (eqb : K -> K -> bool).

(** How often a key was added: its count, when every addition is of one. *)
Fixpoint times_added (key : K) (adds : list (K * Z)) : Z :=
  match adds with
  | [] => 0
  | (k, c) :: adds => (if eqb k key && (1 <=? c) then 1 else 0) + times_added key adds
  end.

(** What was added under the offset [o] of row [k_i]. *)
Fixpoint row_total (hs : StableHasher * StableHasher) (m : Z) (k_i o : nat) (adds : list (K * Z)) : Z :=
  match adds with
  | [] => 0
  | (k, c) :: adds => (if decide (off hs m k k_i = o) then c else 0) + row_total hs m k_i o adds
  end.

Definition add_all (self : CountMinSketch) (adds : list (K * Z)) : res CountMinSketch :=
  rfold (fun self a => add self (fst a) (snd a)) self adds.

(** The keys a sketch counts are told apart by an equality that the hash respects. *)
Hypothesis eqb_hash : forall k k' state, eqb k k' = true -> key_hash state k = key_hash state k'.

Lemma off_eqb (hs : StableHasher * StableHasher) (m : Z) (k k' : K) (k_i : nat) :
  eqb k k' = true -> off hs m k k_i = off hs m k' k_i.
Proof. intros H. unfold off. by rewrite !(eqb_hash _ _ _ H). Qed.

Lemma times_added_snoc (key k : K) (c : Z) (adds : list (K * Z)) :
  times_added key (adds ++ [(k, c)]) = times_added key adds + (if eqb k key && (1 <=? c) then 1 else 0).
Proof. induction adds as [|[x d] adds IH]; simpl; [lia|]. rewrite IH. lia. Qed.

Lemma cell_offset (self : CountMinSketch) (k k' : K) (k_i : nat) :
  off (hashers self) (mask self) k k_i = off (hashers self) (mask self) k' k_i ->
  cell self k k_i = cell self k' k_i.
Proof. intros H. unfold cell. by rewrite H. Qed.

(** Every cell of a key is at least the times it was added, up to saturation. *)
Definition covers (adds : list (K * Z)) (self : CountMinSketch) : Prop :=
  forall key k, (k < k_num self)%nat -> Z.min (times_added key adds) USIZE_MAX <= cell self key k.

(** Raising the least cells raises every cell of the key that was least, and
    the others were above it. *)
Lemma add_covers (adds : list (K * Z)) (self self' : CountMinSketch) (key : K) (c lowest : Z) :
  0 <= c -> covers adds self -> k_num self' = k_num self -> is_min lowest (cell self key) (k_num self) ->
  (forall key' k, (k < k_num self)%nat ->
    cell self' key' k =
    if decide (off (hashers self) (mask self) key' k = off (hashers self) (mask self) key k /\ cell self key k = lowest)
    then saturating_add lowest c else cell self key' k) ->
  covers (adds ++ [(key, c)]) self'.
Proof.
  intros Hc Hcov Hkn [Hle (k0 & Hk0 & Hlow)] Hcell key' k Hk. rewrite Hkn in Hk. rewrite Hcell, times_added_snoc by done.
  pose proof (Hcov key' k Hk) as Hold. pose proof (Hle k Hk) as Hlk. unfold saturating_add.
  destruct (eqb key key') eqn:Ee; cbn [andb].
  - assert (Hsame : forall j, cell self key' j = cell self key j).
    { intros j. symmetry. apply cell_offset. by apply off_eqb. }
    pose proof (Hcov key' k0 Hk0) as H0. rewrite Hsame in H0, Hold.
    destruct (Z.leb_spec 1 c); case_decide as Hd; try lia; rewrite Hsame; try lia.
    assert (cell self key k <> lowest) by (intros E; apply Hd; split; [by symmetry; apply off_eqb|done]).
    lia.
  - rewrite Z.add_0_r. case_decide as Hd; [|done]. destruct Hd as [Ho El].
    rewrite (cell_offset self key' key k Ho) in Hold. lia.
Qed.

(** Every cell is at most what was added under its offset. *)
Definition capped (adds : list (K * Z)) (self : CountMinSketch) : Prop :=
  forall key k, (k < k_num self)%nat ->
    cell self key k <= row_total (hashers self) (mask self) k (off (hashers self) (mask self) key k) adds.

Lemma row_total_snoc (hs : StableHasher * StableHasher) (m : Z) (k_i o : nat) (adds : list (K * Z)) (k : K) (c : Z) :
  row_total hs m k_i o (adds ++ [(k, c)]) =
  row_total hs m k_i o adds + (if decide (off hs m k k_i = o) then c else 0).
Proof. induction adds as [|[x d] adds IH]; simpl; [lia|]. rewrite IH. lia. Qed.

Lemma add_capped (adds : list (K * Z)) (self self' : CountMinSketch) (key : K) (c lowest : Z) :
  0 <= c -> capped adds self -> same_shape self' self ->
  (forall key' k, (k < k_num self)%nat ->
    cell self' key' k =
    if decide (off (hashers self) (mask self) key' k = off (hashers self) (mask self) key k /\ cell self key k = lowest)
    then saturating_add lowest c else cell self key' k) ->
  capped (adds ++ [(key, c)]) self'.
Proof.
  intros Hc Hcap (Eh & Em & Ek) Hcell key' k Hk. rewrite Ek in Hk. rewrite Eh, Em, Hcell by done.
  specialize (Hcap key' k Hk). rewrite row_total_snoc. unfold saturating_add. case_decide as Hd.
  - destruct Hd as [Ho El]. rewrite decide_True by done. rewrite (cell_offset self key' key k Ho) in Hcap. lia.
  - case_match; lia.
Qed.

Lemma add_all_brackets (self : CountMinSketch) (adds : list (K * Z)) :
  sketch_ok self -> covers [] self -> capped [] self -> Forall (fun a => 0 <= snd a) adds ->
  exists self', add_all self adds = Ok self' /\ sketch_ok self' /\ same_shape self' self /\
    covers adds self' /\ capped adds self'.
Proof.
  intros Hok H0 H1. induction adds as [|[key c] adds IH] using rev_ind; intros Hpos.
  { exists self. by split_and!. }
  apply Forall_app in Hpos as [Hpos Hc]. inversion Hc as [|? ? Hc0]; subst. simpl in Hc0.
  destruct (IH Hpos) as (s1 & Hrun & Hok1 & Hsh1 & Hcov & Hcap).
  destruct (add_spec s1 key c Hok1) as (s2 & lowest & Hadd & Hok2 & Hsh2 & Hmin & Hcell).
  exists s2. unfold add_all in *. rewrite rfold_app, Hrun. simpl. rewrite Hadd.
  split_and!; [done|done|unfold same_shape in *; intuition congruence| |].
  - eapply add_covers; try done. by destruct Hsh2 as (_ & _ & ?).
  - by eapply add_capped.
Qed.

(** * Fresh sketches *)

Lemma with_shape_ok (width k_num : nat) :
  (1 <= width)%nat -> (1 <= k_num)%nat -> sketch_ok (with_shape width k_num).
Proof.
  intros Hw Hk. split; simpl; rewrite ?length_replicate; try lia.
  apply Forall_replicate. rewrite length_replicate. lia.
Qed.

Lemma with_shape_cell (width k_num : nat) (key : K) (k : nat) : cell (with_shape width k_num) key k = 0.
Proof.
  unfold cell, row_of. simpl. destruct (replicate k_num _ !! k) as [row|] eqn:E; simpl; [|done].
  apply lookup_replicate in E as [-> _].
  destruct (replicate width 0 !! _) as [c|] eqn:E; [|done]. by apply lookup_replicate in E as [-> _].
Qed.

(** C37: Any sequence of additions to a fresh sketch, of any width and number of
    rows and of any amounts, runs without a panic, and so does every later
    estimate: it is at least the number of times the key was added with an
    amount of one or more (up to the saturation of a counter), and in every row
    at most the amounts added under the key's offset. An [increment] is an
    addition of one, so a sketch that is only incremented never answers less
    than a key's count; larger amounts can fall short of their sum
    ([add_falls_short]). *)
Theorem sketch_brackets (width rows : nat) (adds : list (K * Z)) :
  (1 <= width)%nat -> (1 <= rows)%nat -> Forall (fun a => 0 <= snd a) adds ->
  exists self, add_all (with_shape width rows) adds = Ok self /\
    forall key, exists m, estimate self key = Ok m /\ Z.min (times_added key adds) USIZE_MAX <= m /\
      forall k, (k < rows)%nat ->
        m <= row_total new_hashers (Z.of_nat width - 1) k (off new_hashers (Z.of_nat width - 1) key k) adds.
Proof.
  intros Hw Hr Hpos. pose proof (with_shape_ok width rows Hw Hr) as Hok.
  destruct (add_all_brackets (with_shape width rows) adds) as (self & Hrun & Hok' & (Eh & Em & Ekn) & Hcov & Hcap);
    [done|intros key k _; by rewrite with_shape_cell|intros key k _; by rewrite with_shape_cell|done|].
  exists self. split; [done|]. intros key. destruct (estimate_spec self key Hok') as (m & Hm & Hle & k & Hk & Ek).
  exists m. split; [done|]. simpl in Eh, Em, Ekn. split.
  - rewrite Ek. by apply Hcov.
  - intros j Hj. specialize (Hcap key j). rewrite Eh, Em, Ekn in *. specialize (Hle j Hj). specialize (Hcap Hj). lia.
Qed.
End Sketch.

(** [Range::Eq] by the sketch, the other ranges as nothing. *)
Definition collect_count {OF : OrderedFloat} {FH : OrderedFloatHash} (self : CountMinSketch)
  (ranges : list Range) : res Z :=
  rfold (fun count range =>
           match range with
           | Range.Eq value => let? n := estimate hash_value self value in usize_add count n
           | _ => usize_add count 0
           end) 0 ranges.

(** Three values counted by [increment], and nulls added at once. *)
Lemma sketch_brackets_witness :
  exists self, (let? self := increment hash_value (with_shape 4 3) (DataValue.Int32 1) in
      let? self := increment hash_value self (DataValue.Int32 2) in
      let? self := increment hash_value self (DataValue.Int32 1) in
      add hash_value self DataValue.Null 7) = Ok self /\
    exists m, estimate hash_value self (DataValue.Int32 1) = Ok m /\ 2 <= m.
Proof.
  destruct (sketch_brackets hash_value dv_eq (fun k k' st => hash_value_eq k k' st) 4 3
    [(DataValue.Int32 1, 1); (DataValue.Int32 2, 1); (DataValue.Int32 1, 1); (DataValue.Null, 7)]) as (self & Hrun & Hest);
    [lia|lia|repeat constructor; done|].
  exists self. split; [exact Hrun|]. destruct (Hest (DataValue.Int32 1)) as (m & Hm & Hle & _).
  exists m. split; [exact Hm|]. exact Hle.
Defined.

(** Adding more than one at once can fall short: the histogram builder adds
    the nulls of a column in one step, after its other values, in a sketch of
    2048 columns and 5 rows (a relative error of 0.001 at a confidence of
    0.95). The value 15 shares one cell with the null; that cell is then not
    the least, so it is not raised, and a hundred nulls are estimated as one. *)
Theorem add_falls_short :
  (let? self := increment hash_value (with_shape 2048 5) (DataValue.Int32 15) in
   let? self := add hash_value self DataValue.Null 100 in
   estimate hash_value self DataValue.Null) = Ok 1.
Proof. vm_compute. reflexivity. Qed.

(** * The pages of a sketch *)

Lemma div_ceil_nat_spec (a b : nat) : (1 <= b)%nat -> (a <= div_ceil_nat a b * b)%nat.
Proof.
  intros Hb. unfold div_ceil_nat.
  pose proof (Nat.div_mod_eq (a + b - 1) b). pose proof (Nat.mod_upper_bound (a + b - 1) b). lia.
Qed.

Lemma page_slice_take (L : nat) (row : list Z) (p : nat) :
  take (p * L) row ++ page_slice L row p = take (S p * L) row.
Proof.
  unfold page_slice. rewrite take_take_drop.
  destruct (decide ((p + 1) * L <= length row)%nat) as [Hle|Hgt].
  - f_equal. lia.
  - rewrite !take_ge by lia. done.
Qed.

Lemma page_slice_length (L : nat) (row : list Z) (p : nat) : (length (page_slice L row p) <= L)%nat.
Proof. unfold page_slice. rewrite length_take. lia. Qed.

(** Loading the pages of one row from page [p] on. *)
Lemma load_row (k L i : nat) (row : list Z) (n p : nat) (cs : list (list Z)) (ex : list nat) :
  (i < k)%nat -> length cs = k -> length ex = k ->
  cs !! i = Some (take (p * L) row) -> ex !! i = Some p ->
  rfold (load_page k L) (cs, ex) (map (fun q => mk_cms_page i q (page_slice L row q)) (seq p n)) =
  Ok (<[i := take ((p + n) * L) row]> cs, <[i := (p + n)%nat]> ex).
Proof.
  intros Hi. revert p cs ex. induction n as [|n IH]; intros p cs ex Hcs Hex Hrow Hp.
  { simpl. rewrite Nat.add_0_r. by rewrite !list_insert_id. }
  simpl. rewrite decide_False by lia. rewrite (vec_get_Some _ _ _ Hp). cbn [rbind].
  rewrite bool_decide_true by done. simpl. pose proof (page_slice_length L row p).
  rewrite decide_False by lia. rewrite (vec_get_Some _ _ _ Hrow). cbn [rbind].
  rewrite !vec_set_lt by lia. cbn [rbind]. rewrite page_slice_take.
  rewrite IH; rewrite ?length_insert; try done.
  - rewrite !list_insert_insert_eq. by replace (p + S n)%nat with (S p + n)%nat by lia.
  - by rewrite list_lookup_insert_eq by lia.
  - by rewrite list_lookup_insert_eq by lia.
Qed.

(** Loading the rows that are left. *)
Lemma load_rows (k L : nat) (rows : list (list Z)) (pre : list (list Z)) (ex : list nat) :
  (1 <= L)%nat -> length ex = length pre -> (length pre + length rows = k)%nat ->
  exists ex', rfold (load_page k L)
    (pre ++ replicate (length rows) [], ex ++ replicate (length rows) 0%nat)
    (concat (imap (fun j => row_pages L (length pre + j)) rows)) = Ok (pre ++ rows, ex').
Proof.
  intros HL. revert pre ex. induction rows as [|row rows IH]; intros pre ex Hex Hk.
  { simpl. exists (ex ++ []). by rewrite app_nil_r. }
  simpl in Hk. cbn [imap concat length replicate]. rewrite rfold_app. unfold row_pages at 1.
  rewrite (load_row _ _ _ row) with (p := 0%nat); simpl; rewrite ?length_app; simpl;
    rewrite ?length_replicate; try lia.
  2: { rewrite Nat.add_0_r. by apply list_lookup_middle. }
  2: { rewrite Nat.add_0_r, <- Hex. by apply list_lookup_middle. }
  rewrite Nat.add_0_r. rewrite insert_app_r_alt, Nat.sub_diag by lia. simpl.
  rewrite <- Hex, insert_app_r_alt, Nat.sub_diag by lia. simpl.
  rewrite take_ge by (by apply div_ceil_nat_spec).
  set (c := div_ceil_nat (length row) L).
  destruct (IH (pre ++ [row]) (ex ++ [c])) as [ex' Hload].
  { rewrite !length_app. simpl. lia. }
  { rewrite length_app. simpl. lia. }
  exists ex'. rewrite <- !app_assoc in Hload. simpl in Hload. rewrite <- Hload. f_equal. f_equal.
  apply imap_ext. intros j r _. simpl. rewrite length_app. simpl. f_equal. lia.
Qed.

Lemma length_concat_imap {A B : Type} (f : nat -> A -> list B) (c : A -> nat) (l : list A) :
  (forall i x, length (f i x) = c x) -> length (concat (imap f l)) = list_sum (map c l).
Proof.
  revert f. induction l as [|x l IH]; intros f Hf; [done|].
  rewrite imap_cons. simpl. rewrite length_app, Hf, (IH (f ∘ S)); [done|]. intros i y. apply Hf.
Qed.

(** C39: A sketch stored as pages of any length and loaded again is the same
    sketch, with its scratch offsets reset; the number of pages is the one
    announced by [storage_page_count]. *)
Theorem sketch_storage_roundtrip (self : CountMinSketch) (L : nat) :
  sketch_ok self -> is_power_of_two (mask self + 1) = true -> (1 <= L)%nat ->
  let '(meta, pages) := into_storage_parts self L in
  from_storage_parts meta pages =
    Ok (mk_cms (counters self) (replicate (k_num self) 0%nat) (hashers self) (mask self) (k_num self)) /\
  length pages = storage_page_count self L.
Proof.
  intros [Hr _ Hs Hm Hw] Hp HL. simpl. split.
  - unfold from_storage_parts. cbn [width meta_k_num page_len hasher_0 hasher_1].
    rewrite (proj2 (Z.eqb_neq _ _)) by lia. rewrite !bool_decide_false by lia. rewrite Hp. simpl.
    destruct (load_rows (k_num self) L (counters self) [] []) as [ex Hload]; [done|done|done|].
    rewrite Hr in Hload. change (imap (row_pages L) (counters self)) with (imap (fun j => row_pages L j) (counters self)).
    simpl in Hload. rewrite Hload. cbn [rbind].
    replace (forallb _ _) with true.
    + destruct self as [cs os [h0 h1] m k]. simpl. by rewrite Z.add_simpl_r.
    + symmetry. apply forallb_forall. intros row Hrow.
      rewrite List.Forall_forall in Hw. apply Z.eqb_eq. rewrite (Hw row Hrow). lia.
  - unfold storage_page_count. apply length_concat_imap. intros i row.
    unfold row_pages. by rewrite length_map, length_seq.
Qed.

Lemma sketch_storage_roundtrip_witness :
  let '(meta, pages) := into_storage_parts (with_shape 4 2) 3 in
  from_storage_parts meta pages = Ok (with_shape 4 2) /\ length pages = 4%nat.
Proof.
  apply (sketch_storage_roundtrip (with_shape 4 2) 3); [|reflexivity|lia].
  split; simpl; [reflexivity|reflexivity|lia|lia|repeat constructor].
Defined.

(** ** What loading accepts *)

Lemma load_page_shape (k L : nat) (st st' : list (list Z) * list nat) (page : CountMinSketchPage) :
  load_page k L st page = Ok st' -> length (fst st') = length (fst st).
Proof.
  destruct st as [cs ex]. unfold load_page. case_decide; [done|].
  intros Hl. apply rbind_ok in Hl as (e & _ & Hl). destruct (negb _); [done|]. case_decide; [done|].
  apply rbind_ok in Hl as (row & _ & Hl). apply rbind_ok in Hl as (cs' & Hcs & Hl).
  apply rbind_ok in Hl as (ex' & _ & [= <-]). unfold vec_set in Hcs. case_decide; [|done].
  simplify_eq/=. by rewrite length_insert.
Qed.

Lemma load_pages_shape (k L : nat) (pages : list CountMinSketchPage) (st st' : list (list Z) * list nat) :
  rfold (load_page k L) st pages = Ok st' -> length (fst st') = length (fst st).
Proof.
  revert st. induction pages as [|page pages IH]; intros st; simpl; [by intros [= ->]|].
  intros (st1 & H1 & H2)%rbind_ok. rewrite (IH _ H2). by eapply load_page_shape.
Qed.

(** Whatever pages are accepted, the sketch has the shape its metadata says:
    every later [estimate] and [add] stays inside the counters. *)
Lemma from_storage_parts_ok (meta : CountMinSketchMeta) (pages : list CountMinSketchPage) (self : CountMinSketch) :
  from_storage_parts meta pages = Ok self ->
  sketch_ok self /\ mask self = width meta - 1 /\ k_num self = meta_k_num meta.
Proof.
  unfold from_storage_parts. destruct (_ || _ || _) eqn:E; [done|].
  apply orb_false_iff in E as [[E1 E2%bool_decide_eq_false]%orb_false_iff _].
  destruct (is_power_of_two (width meta)) eqn:E4; [|done]. simpl.
  apply andb_true_iff in E4 as [E4%Z.ltb_lt _].
  intros ([cs ex] & Hload & H)%rbind_ok. destruct (forallb _ cs) eqn:E5; [|done]. simplify_eq/=.
  apply load_pages_shape in Hload. simpl in Hload. rewrite length_replicate in Hload.
  split; [|done]. split; simpl; [done|by rewrite length_replicate|lia|lia|].
  apply Forall_forall. intros row Hrow. rewrite forallb_forall in E5.
  specialize (E5 row). rewrite Z.eqb_eq in E5. specialize (E5 Hrow). lia.
Qed.
