(* ===== verification/Kll.v ===== *)
(** The quantile sketch (src/src/optimizer/core/kll_sketch.rs): levels of
    bounded buffers; a full buffer is sorted and every second item moves one
    level up, where an item stands for twice as many values. The theorems
    bound the rank of the value returned for a rank, and say that the sketch
    is exact until a buffer overflows. *)

From S2P Require Import Prelude Types Value Slices Sorting.
From stdpp Require Import base sets list list_numbers numbers option sorting.
From Stdlib Require Import ZArith Lia.
Local Open Scope Z_scope.

Record KllSketchItem := mk_kll_item {
  item_value : DataValue;
  item_ordinal : Z;
}.

Record KllWeightedItem := mk_kll_weighted {
  weighted_value : DataValue;
  weighted_ordinal : Z;
  weighted_weight : Z;
}.

Record KllSketchBuilder := mk_kll_builder {
  level_capacity : nat;
  kll_len : Z;
  levels : list (list KllSketchItem);
  min_value : option DataValue;
  max_value : option DataValue;
  compact_next_odd : bool;
}.

Record KllSketch := mk_kll {
  sketch_len : Z;
  sketch_items : list KllWeightedItem;
  sketch_min : option DataValue;
  sketch_max : option DataValue;
}.

(** [new]. *)
Definition kll_new (level_capacity : nat) : res KllSketchBuilder :=
  if decide (level_capacity < 2)%nat then Err InvalidValue
  else Ok (mk_kll_builder level_capacity 0 [[]] None None false).

(** [level.drain(..).enumerate()] filtered by the parity of the position. *)
Fixpoint every_second {A : Type} (keep : bool) (l : list A) : list A :=
  match l with
  | [] => []
  | x :: l => if keep then x :: every_second false l else every_second true l
  end.

Section Kll.
Context {OF : OrderedFloat}.

Definition compare_values (left right : DataValue) : res comparison :=
  match partial_cmp left right with
  | Some o => Ok o
  | None => Err Panic
  end.

(** [sort_by] with [compare_values]: any two elements may be compared. *)
Definition sort_values {I : Type} (val : I -> DataValue) (l : list I) : res (list I) :=
  if forallb (fun a => forallb (fun b => bool_decide (is_Some (partial_cmp (val a) (val b)))) l) l
  then Ok (sort_by (fun a b => default Eq (partial_cmp (val a) (val b))) l)
  else Err Panic.

Definition update_bounds (self : KllSketchBuilder) (value : DataValue) : res KllSketchBuilder :=
  let? new_min :=
    match min_value self with
    | Some m =>
        let? o := compare_values value m in
        Ok (match o with Lt => Some value | _ => min_value self end)
    | None => Ok (Some value)
    end in
  let? new_max :=
    match max_value self with
    | Some m =>
        let? o := compare_values value m in
        Ok (match o with Gt => Some value | _ => max_value self end)
    | None => Ok (Some value)
    end in
  Ok (mk_kll_builder (level_capacity self) (kll_len self) (levels self) new_min new_max
        (compact_next_odd self)).

Definition compact (self : KllSketchBuilder) (level_idx : nat) : res KllSketchBuilder :=
  let? level := vec_get (levels self) level_idx in
  let? level := sort_values item_value level in
  let keep_odd := compact_next_odd self in
  let '(level, retained) :=
    if decide (length level mod 2 = 1)%nat
    then (removelast level, match last level with Some item => [item] | None => [] end)
    else (level, []) in
  let promoted := every_second (negb keep_odd) level in
  let? levels := vec_set (levels self) level_idx retained in
  let levels := if decide (length levels = level_idx + 1)%nat then levels ++ [[]] else levels in
  let? next := vec_get levels (level_idx + 1) in
  let? levels := vec_set levels (level_idx + 1) (next ++ promoted) in
  Ok (mk_kll_builder (level_capacity self) (kll_len self) levels (min_value self) (max_value self)
        (negb keep_odd)).

(** The recursion moves one level up, at most one level past the last. *)
Fixpoint compact_if_needed (fuel : nat) (self : KllSketchBuilder) (level_idx : nat)
  : res KllSketchBuilder :=
  let? level := vec_get (levels self) level_idx in
  if decide (length level <= level_capacity self)%nat then Ok self
  else
    match fuel with
    | O => Err Panic
    | S fuel =>
        let? self := compact self level_idx in
        compact_if_needed fuel self (level_idx + 1)
    end.

Definition kll_insert (self : KllSketchBuilder) (value : DataValue) : res KllSketchBuilder :=
  let? self := update_bounds self value in
  let? level := vec_get (levels self) 0 in
  let? levels := vec_set (levels self) 0 (level ++ [mk_kll_item value (kll_len self)]) in
  let self := mk_kll_builder (level_capacity self) (kll_len self + 1) levels (min_value self)
                (max_value self) (compact_next_odd self) in
  compact_if_needed (length levels) self 0.

(** The items of the levels from [level_idx] on, with their weights. *)
Fixpoint weigh (level_idx : nat) (levels : list (list KllSketchItem)) : list KllWeightedItem :=
  match levels with
  | [] => []
  | level :: levels =>
      map (fun item => mk_kll_weighted (item_value item) (item_ordinal item) (2 ^ Z.of_nat level_idx)) level
      ++ weigh (S level_idx) levels
  end.

Definition kll_build (self : KllSketchBuilder) : res KllSketch :=
  let? items := sort_values weighted_value (weigh 0 (levels self)) in
  Ok (mk_kll (kll_len self) items (min_value self) (max_value self)).

(** ** [values_at_ranks] *)

Record KllValuesAtRanks := mk_kll_ranks {
  rank_items : list KllWeightedItem;
  current : option KllWeightedItem;
  accumulated : Z;
  rank_min : option DataValue;
  rank_max : option DataValue;
}.

(** The value, and what is left in its place: a value that no later rank asks
    for is moved out. *)
Definition emit_value (value : option DataValue) (next_ordinal : option Z) (upper_ordinal : Z)
  : option DataValue * option DataValue :=
  match next_ordinal with
  | Some next => if next <=? upper_ordinal then (value, value) else (value, None)
  | None => (value, None)
  end.

Definition emit_current (cur : option KllWeightedItem) (next_ordinal : option Z) (upper_ordinal : Z)
  : option DataValue * option KllWeightedItem :=
  match next_ordinal with
  | Some next => if next <=? upper_ordinal then (weighted_value <$> cur, cur) else (weighted_value <$> cur, None)
  | None => (weighted_value <$> cur, None)
  end.

(** The [while] loop of [next]. *)
Fixpoint advance (ordinal : Z) (items : list KllWeightedItem) (current : option KllWeightedItem)
  (accumulated : Z) : list KllWeightedItem * option KllWeightedItem * Z :=
  if accumulated <? ordinal then
    match items with
    | item :: items => advance ordinal items (Some item) (accumulated + weighted_weight item)
    | [] => ([], None, accumulated)
    end
  else (items, current, accumulated).

Definition ranks_next (len : Z) (self : KllValuesAtRanks) (rank : Z) (next_rank : option Z)
  : option DataValue * KllValuesAtRanks :=
  if len =? 0 then (None, self)
  else
    let ordinal := saturating_add rank 1 in
    let next_ordinal := (fun r => saturating_add r 1) <$> next_rank in
    if ordinal =? 1 then
      let '(v, m) := emit_value (rank_min self) next_ordinal 1 in
      (v, mk_kll_ranks (rank_items self) (current self) (accumulated self) m (rank_max self))
    else if len <=? ordinal then
      let '(v, m) := emit_value (rank_max self) next_ordinal USIZE_MAX in
      (v, mk_kll_ranks (rank_items self) (current self) (accumulated self) (rank_min self) m)
    else
      let '(items, cur, acc) := advance ordinal (rank_items self) (current self) (accumulated self) in
      if bool_decide (is_Some cur) && (ordinal <=? acc) then
        let '(v, cur) := emit_current cur next_ordinal (Z.min acc (len - 1)) in
        (v, mk_kll_ranks items cur acc (rank_min self) (rank_max self))
      else (None, mk_kll_ranks items cur acc (rank_min self) (rank_max self)).

Fixpoint ranks_loop (len : Z) (self : KllValuesAtRanks) (ranks : list Z) : list (option DataValue) :=
  match ranks with
  | [] => []
  | rank :: ranks =>
      let '(v, self) := ranks_next len self rank (head ranks) in
      v :: ranks_loop len self ranks
  end.

Definition values_at_ranks (self : KllSketch) (ranks : list Z) : list (option DataValue) :=
  ranks_loop (sketch_len self)
    (mk_kll_ranks (sketch_items self) None 0 (sketch_min self) (sketch_max self)) ranks.

(** * Order *)

Definition vle (a b : DataValue) : Prop := partial_cmp a b = Some Lt \/ partial_cmp a b = Some Eq.

Definition pairwise (vs : list DataValue) : Prop :=
  forall a b, a ∈ vs -> b ∈ vs -> is_Some (partial_cmp a b).

Lemma pairwise_sub (vs ws : list DataValue) : pairwise ws -> (forall v, v ∈ vs -> v ∈ ws) -> pairwise vs.
Proof. intros H Hs a b Ha Hb. auto. Qed.

Lemma vle_refl (v : DataValue) : is_Some (partial_cmp v v) -> vle v v.
Proof.
  intros [o Ho]. pose proof (partial_cmp_flip v v) as F. right. rewrite Ho in *. by destruct o.
Qed.

Lemma vle_trans (a b c : DataValue) : vle a b -> vle b c -> vle a c.
Proof.
  unfold vle. intros [Ha|Ha] [Hb|Hb];
    rewrite (partial_cmp_transitive a b c _ _ Ha Hb) by (unfold cmp_compat; auto); simpl; auto.
Qed.

Lemma vle_of (a b : DataValue) :
  is_Some (partial_cmp a b) -> default Eq (partial_cmp a b) <> Gt -> vle a b.
Proof. intros [o Ho]. rewrite Ho. simpl. unfold vle. rewrite Ho. destruct o; auto. done. Qed.

Lemma vle_flip (a b : DataValue) :
  is_Some (partial_cmp a b) -> default Eq (partial_cmp a b) <> Lt -> vle b a.
Proof.
  intros [o Ho] H. unfold vle. rewrite (partial_cmp_flip a b), Ho in *. simpl in *. destruct o; auto. done.
Qed.

(** ** Sorting *)

Section SortValues.
Context {I : Type} (val : I -> DataValue).

Definition item_le (a b : I) : Prop := vle (val a) (val b).

Lemma insert_by_item_le (x : I) (l : list I) :
  (forall y, y ∈ l -> is_Some (partial_cmp (val x) (val y))) -> StronglySorted item_le l ->
  StronglySorted item_le (insert_by (fun a b => default Eq (partial_cmp (val a) (val b))) x l).
Proof.
  induction l as [|y l IH]; intros Hc Hs; simpl; [repeat constructor|].
  apply StronglySorted_cons in Hs as [Hy Hs].
  destruct (default Eq (partial_cmp (val x) (val y))) eqn:E.
  2: { assert (Hxy : item_le x y) by (apply vle_of; [apply Hc; set_solver|by rewrite E]).
       constructor; [by constructor|]. constructor; [done|].
       eapply Forall_impl; [exact Hy|]. intros z. by apply vle_trans. }
  all: assert (Hyx : item_le y x) by (apply vle_flip; [apply Hc; set_solver|by rewrite E]);
    constructor; [apply IH; [intros; apply Hc; set_solver|done]|];
    apply Forall_forall; intros z Hz; rewrite Forall_forall in Hy;
    rewrite insert_by_perm in Hz; apply elem_of_cons in Hz as [->|Hz]; auto.
Qed.

Lemma sort_values_spec (l : list I) :
  pairwise (map val l) ->
  exists l', sort_values val l = Ok l' /\ Permutation l' l /\ StronglySorted item_le l'.
Proof.
  intros Hp. unfold sort_values. replace (forallb _ l) with true.
  - eexists. split; [done|]. split; [apply sort_by_perm|].
    induction l as [|x l IH] using rev_ind; [constructor|]. rewrite sort_by_snoc.
    rewrite map_app in Hp. apply insert_by_item_le.
    + intros y Hy. rewrite sort_by_perm in Hy. apply Hp; apply elem_of_app; [right; simpl; set_solver|].
      left. apply list_elem_of_In, in_map. by apply list_elem_of_In.
    + apply IH. intros a b Ha Hb. apply Hp; apply elem_of_app; by left.
  - symmetry. apply forallb_forall. intros a Ha. apply forallb_forall. intros b Hb.
    apply bool_decide_eq_true. apply Hp; apply list_elem_of_In; by apply in_map.
Qed.
End SortValues.

(** * Counting below a value *)

(** A set of values closed downwards: the values below, or up to, some value. *)
Definition down_closed (P : DataValue -> bool) : Prop :=
  forall a b, vle a b -> P b = true -> P a = true.

Fixpoint cnt (P : DataValue -> bool) (vs : list DataValue) : Z :=
  match vs with
  | [] => 0
  | v :: vs => (if P v then 1 else 0) + cnt P vs
  end.

Abbreviation cnt_items P l := (cnt P (map item_value l)).

Lemma cnt_app (P : DataValue -> bool) (vs ws : list DataValue) : cnt P (vs ++ ws) = cnt P vs + cnt P ws.
Proof. induction vs as [|v vs IH]; simpl; [done|]. rewrite IH. lia. Qed.

Lemma cnt_perm (P : DataValue -> bool) (vs ws : list DataValue) : Permutation vs ws -> cnt P vs = cnt P ws.
Proof. induction 1; simpl; lia. Qed.

Lemma cnt_bound (P : DataValue -> bool) (vs : list DataValue) : 0 <= cnt P vs <= Z.of_nat (length vs).
Proof. induction vs as [|v vs IH]; simpl; [lia|]. case_match; lia. Qed.

Lemma cnt_none (P : DataValue -> bool) (vs : list DataValue) :
  (forall v, v ∈ vs -> P v = false) -> cnt P vs = 0.
Proof.
  induction vs as [|v vs IH]; intros H; [done|]. simpl. rewrite (H v), IH; [done| |set_solver].
  intros w Hw. apply H. set_solver.
Qed.

Lemma cnt_all (P : DataValue -> bool) (vs : list DataValue) :
  (forall v, v ∈ vs -> P v = true) -> cnt P vs = Z.of_nat (length vs).
Proof.
  induction vs as [|v vs IH]; intros H; [done|]. simpl. rewrite (H v), IH; [lia| |set_solver].
  intros w Hw. apply H. set_solver.
Qed.

(** Every second item of a sorted list of even length: half of it, and at most
    half a count away. *)
Lemma every_second_length {A : Type} (n : nat) (keep : bool) (l : list A) :
  length l = (2 * n)%nat -> length (every_second keep l) = n.
Proof.
  revert l. induction n as [|n IH]; intros l Hl; destruct l as [|x [|y l]]; simpl in *; try lia.
  destruct keep; simpl; f_equal; apply IH; lia.
Qed.

Lemma every_second_elem {A : Type} (keep : bool) (l : list A) (x : A) : x ∈ every_second keep l -> x ∈ l.
Proof. revert keep. induction l as [|y l IH]; intros []; simpl; set_solver. Qed.

Lemma every_second_cnt (P : DataValue -> bool) (n : nat) (keep : bool) (l : list KllSketchItem) :
  down_closed P -> length l = (2 * n)%nat -> StronglySorted (item_le item_value) l ->
  Z.abs (2 * cnt_items P (every_second keep l) - cnt_items P l) <= 1.
Proof.
  intros HP. revert l. induction n as [|n IH]; intros l Hl Hs; destruct l as [|x [|y l]]; simpl in Hl; try lia.
  { done. }
  apply StronglySorted_cons in Hs as [Hx Hs]. apply StronglySorted_cons in Hs as [Hy Hs].
  inversion Hx as [|? ? Hxy _]; subst. specialize (IH l ltac:(lia) Hs).
  destruct (P (item_value y)) eqn:Ey.
  - assert (P (item_value x) = true) as Ex by (by eapply HP).
    destruct keep; simpl; rewrite Ex, Ey; lia.
  - assert (forall z, z ∈ l -> P (item_value z) = false) as Hnone.
    { intros z Hz. rewrite Forall_forall in Hy. apply not_true_is_false. intros Ez.
      apply (HP _ _ (Hy z Hz)) in Ez. congruence. }
    assert (cnt_items P l = 0) as E0.
    { apply cnt_none. intros v Hv. apply list_elem_of_fmap in Hv as (z & -> & Hz). by apply Hnone. }
    assert (forall k, cnt_items P (every_second k l) = 0) as E1.
    { intros k. apply cnt_none. intros v Hv. apply list_elem_of_fmap in Hv as (z & -> & Hz).
      apply Hnone. by eapply every_second_elem. }
    destruct keep; simpl; rewrite Ey, E0, E1; case_match; lia.
Qed.

(** * Sums over the levels *)

Fixpoint lsum (g : nat -> list KllSketchItem -> Z) (i : nat) (ls : list (list KllSketchItem)) : Z :=
  match ls with
  | [] => 0
  | l :: ls => g i l + lsum g (S i) ls
  end.

Lemma lsum_app (g : nat -> list KllSketchItem -> Z) (i : nat) (ls ks : list (list KllSketchItem)) :
  lsum g i (ls ++ ks) = lsum g i ls + lsum g (i + length ls) ks.
Proof.
  revert i. induction ls as [|l ls IH]; intros i; simpl; [by rewrite Nat.add_0_r|].
  rewrite IH. replace (S i + length ls)%nat with (i + S (length ls))%nat by lia. lia.
Qed.

Lemma lsum_insert (g : nat -> list KllSketchItem -> Z) (ls : list (list KllSketchItem)) :
  forall i k l l', ls !! k = Some l -> lsum g i (<[k := l']> ls) = lsum g i ls - g (i + k)%nat l + g (i + k)%nat l'.
Proof.
  induction ls as [|x ls IH]; intros i [|k] l l' Hl; simplify_eq/=.
  - rewrite Nat.add_0_r. lia.
  - rewrite (IH (S i) k l l' Hl). replace (S i + k)%nat with (i + S k)%nat by lia. lia.
Qed.

Lemma lsum_nonneg (g : nat -> list KllSketchItem -> Z) (i : nat) (ls : list (list KllSketchItem)) :
  (forall j l, 0 <= g j l) -> 0 <= lsum g i ls.
Proof. intros Hg. revert i. induction ls as [|l ls IH]; intros i; simpl; [lia|]. specialize (Hg i l). specialize (IH (S i)). lia. Qed.

Lemma lsum_single (g : nat -> list KllSketchItem -> Z) (k : nat) (ls : list (list KllSketchItem)) (l : list KllSketchItem) :
  (forall j l, 0 <= g j l) -> ls !! k = Some l -> g k l <= lsum g 0 ls.
Proof.
  intros Hg Hl. apply list_elem_of_split_length in Hl as (l1 & l2 & -> & ->).
  rewrite lsum_app. simpl. pose proof (lsum_nonneg g 0 l1 Hg). pose proof (lsum_nonneg g (S (length l1)) l2 Hg). lia.
Qed.

Lemma lsum_mono (g h : nat -> list KllSketchItem -> Z) (n : nat) (ls : list (list KllSketchItem)) (i : nat) :
  (i + length ls <= n)%nat -> (forall j l, (j < n)%nat -> g j l <= h j l) -> lsum g i ls <= lsum h i ls.
Proof.
  intros Hn Hgh. revert i Hn. induction ls as [|l ls IH]; intros i Hn; simpl in *; [lia|].
  specialize (Hgh i l ltac:(lia)). specialize (IH (S i) ltac:(lia)). lia.
Qed.

Lemma lsum_scale (c : Z) (g : nat -> list KllSketchItem -> Z) (ls : list (list KllSketchItem)) (i : nat) :
  lsum (fun j l => c * g j l) i ls = c * lsum g i ls.
Proof. revert i. induction ls as [|l ls IH]; intros i; simpl; [lia|]. rewrite IH. lia. Qed.

(** The values an item of level [i] stands for; the weighted count below; and
    the potential that pays for the error of every compaction. *)
Definition weight_at (i : nat) (l : list KllSketchItem) : Z := 2 ^ Z.of_nat i * Z.of_nat (length l).
Definition below_at (P : DataValue -> bool) (i : nat) (l : list KllSketchItem) : Z :=
  2 ^ Z.of_nat i * cnt_items P l.
Definition potential_at (i : nat) (l : list KllSketchItem) : Z := Z.of_nat i * weight_at i l.

(** * One compaction *)

Definition with_levels (self : KllSketchBuilder) (ls : list (list KllSketchItem)) (odd : bool) : KllSketchBuilder :=
  mk_kll_builder (level_capacity self) (kll_len self) ls (min_value self) (max_value self) odd.

(** The levels with room for level [k + 1]. *)
Definition extend (ls : list (list KllSketchItem)) (k : nat) : list (list KllSketchItem) :=
  if decide (length ls = k + 1)%nat then ls ++ [[]] else ls.

Lemma split_even (l : list KllSketchItem) :
  exists n init tail,
    (if decide (length l mod 2 = 1)%nat
     then (removelast l, match last l with Some item => [item] | None => [] end) else (l, [])) = (init, tail) /\
    l = init ++ tail /\ length init = (2 * n)%nat /\ (length tail <= 1)%nat.
Proof.
  pose proof (Nat.div_mod_eq (length l) 2). pose proof (Nat.mod_upper_bound (length l) 2).
  exists (length l / 2)%nat. case_decide as E.
  - destruct l as [|x l _] using rev_ind; [done|]. rewrite removelast_last, last_snoc.
    exists l, [x]. rewrite length_app in *. simpl in *. split_and!; [done|done|lia|lia].
  - exists l, []. rewrite app_nil_r. split_and!; [done|done|lia|simpl; lia].
Qed.

Lemma compact_spec (self : KllSketchBuilder) (k : nat) (level : list KllSketchItem) :
  levels self !! k = Some level -> pairwise (map item_value level) ->
  exists n retained promoted next,
    extend (levels self) k !! (k + 1)%nat = Some next /\
    compact self k = Ok (with_levels self
      (<[(k + 1)%nat := next ++ promoted]> (<[k := retained]> (extend (levels self) k)))
      (negb (compact_next_odd self))) /\
    length promoted = n /\ length level = (2 * n + length retained)%nat /\ (length retained <= 1)%nat /\
    (forall x, x ∈ promoted ++ retained -> x ∈ level) /\
    forall P, down_closed P -> Z.abs (2 * cnt_items P promoted + cnt_items P retained - cnt_items P level) <= 1.
Proof.
  intros Hk Hp. pose proof (lookup_lt_Some _ _ _ Hk) as Hlt.
  destruct (sort_values_spec item_value level Hp) as (sorted & Hsort & Hperm & Hs).
  destruct (split_even sorted) as (n & init & retained & Hsplit & El & Hinit & Hret).
  set (promoted := every_second (negb (compact_next_odd self)) init).
  assert (exists next, extend (levels self) k !! (k + 1)%nat = Some next) as [next Hnext].
  { apply lookup_lt_is_Some. unfold extend. destruct (decide (length (levels self) = k + 1)%nat);
      rewrite ?length_app; simpl; lia. }
  assert (Hext : forall r, (if decide (length (<[k := r]> (levels self)) = k + 1)%nat
      then <[k := r]> (levels self) ++ [[]] else <[k := r]> (levels self)) = <[k := r]> (extend (levels self) k)).
  { intros r. unfold extend. rewrite length_insert.
    destruct (decide (length (levels self) = k + 1)%nat); [|done]. by rewrite insert_app_l. }
  exists n, retained, promoted, next. split; [done|]. split_and!.
  - unfold compact. rewrite (vec_get_Some _ _ _ Hk). cbn [rbind]. rewrite Hsort. cbn [rbind]. rewrite Hsplit.
    rewrite vec_set_lt by done. cbn [rbind]. rewrite Hext.
    rewrite (vec_get_Some _ _ next) by (by rewrite list_lookup_insert_ne by lia). cbn [rbind].
    rewrite vec_set_lt by (rewrite length_insert; by eapply lookup_lt_Some). done.
  - unfold promoted. by apply every_second_length.
  - rewrite <- Hperm, El, length_app. lia.
  - done.
  - intros x Hx. rewrite <- Hperm, El. apply elem_of_app. apply elem_of_app in Hx as [Hx|Hx]; [left|by right].
    by eapply every_second_elem.
  - intros P HP. rewrite <- (cnt_perm P _ _ (Permutation_map item_value Hperm)), El, map_app, cnt_app.
    rewrite El in Hs. apply StronglySorted_app_1_l in Hs.
    pose proof (every_second_cnt P n (negb (compact_next_odd self)) init HP Hinit Hs). fold promoted in H. lia.
Qed.

(** * The invariant *)

(** The part a compaction works on: level [k] may be over its capacity. *)
Record kll_mid (vs : list DataValue) (self : KllSketchBuilder) : Prop := {
  mid_cap : (2 <= level_capacity self)%nat;
  mid_len : kll_len self = Z.of_nat (length vs);
  mid_weight : lsum weight_at 0 (levels self) = Z.of_nat (length vs);
  mid_from : forall l x, l ∈ levels self -> x ∈ l -> item_value x ∈ vs;
  mid_error : forall P, down_closed P ->
    Z.abs (lsum (below_at P) 0 (levels self) - cnt P vs) * Z.of_nat (level_capacity self) <=
    lsum potential_at 0 (levels self);
  mid_levels : (1 <= length (levels self))%nat /\
    (length (levels self) = 1%nat \/
     2 ^ (Z.of_nat (length (levels self)) - 2) * Z.of_nat (level_capacity self) <= Z.of_nat (length vs));
}.

Lemma lsum_compact (g : nat -> list KllSketchItem -> Z) (ls : list (list KllSketchItem)) (k : nat)
    (level next retained promoted : list KllSketchItem) :
  (forall i, g i [] = 0) -> (k < length ls)%nat ->
  ls !! k = Some level -> extend ls k !! (k + 1)%nat = Some next ->
  lsum g 0 (<[(k + 1)%nat := next ++ promoted]> (<[k := retained]> (extend ls k))) =
  lsum g 0 ls - g k level + g k retained - g (k + 1)%nat next + g (k + 1)%nat (next ++ promoted).
Proof.
  intros Hg Hlt Hk Hn.
  assert (lsum g 0 (extend ls k) = lsum g 0 ls) as E.
  { unfold extend. case_decide; [|done]. rewrite lsum_app. simpl. rewrite Hg. lia. }
  assert (extend ls k !! k = Some level) as Hk'.
  { unfold extend. case_decide; [|done]. by rewrite lookup_app_l. }
  rewrite (lsum_insert _ _ _ _ next) by (by rewrite list_lookup_insert_ne by lia).
  rewrite (lsum_insert _ _ _ _ level) by done. rewrite E. simpl. lia.
Qed.

(** A compaction of [2n] items of weight [w] costs at most [w] and pays [2nw]. *)
Lemma compact_error (A b phi w cl cr cn cp cap k n r x : Z) :
  Z.abs (A - b) * cap <= phi -> Z.abs (2 * cp + cr - cl) <= 1 -> 0 < w -> 0 <= cap <= 2 * n ->
  Z.abs (A - w * cl + w * cr - 2 * w * cn + 2 * w * (cn + cp) - b) * cap <=
  phi - k * (w * (2 * n + r)) + k * (w * r) - (k + 1) * (2 * w * x) + (k + 1) * (2 * w * (x + n)).
Proof.
  intros Herr Hcnt Hw Hcap.
  assert (Z.abs (A - w * cl + w * cr - 2 * w * cn + 2 * w * (cn + cp) - b) <= Z.abs (A - b) + w) as H1.
  { replace (A - w * cl + w * cr - 2 * w * cn + 2 * w * (cn + cp) - b)
      with ((A - b) + w * (2 * cp + cr - cl)) by ring.
    pose proof (Z.abs_triangle (A - b) (w * (2 * cp + cr - cl))). rewrite Z.abs_mul in H. nia. }
  replace (phi - k * (w * (2 * n + r)) + k * (w * r) - (k + 1) * (2 * w * x) + (k + 1) * (2 * w * (x + n)))
    with (phi + w * (2 * n)) by ring.
  nia.
Qed.

Lemma compact_mid (vs : list DataValue) (self : KllSketchBuilder) (k : nat) (level : list KllSketchItem) :
  kll_mid vs self -> pairwise vs -> levels self !! k = Some level ->
  (level_capacity self < length level)%nat ->
  exists self' next promoted, compact self k = Ok self' /\ kll_mid vs self' /\
    level_capacity self' = level_capacity self /\ min_value self' = min_value self /\ max_value self' = max_value self /\
    length (levels self') = (if decide (length (levels self) = k + 1)%nat then k + 2 else length (levels self))%nat /\
    (2 * length promoted <= length level)%nat /\
    extend (levels self) k !! (k + 1)%nat = Some next /\
    levels self' !! (k + 1)%nat = Some (next ++ promoted) /\
    (exists retained, levels self' !! k = Some retained /\ (length retained <= 1)%nat) /\
    (forall j, j <> k -> j <> (k + 1)%nat -> levels self' !! j = levels self !! j).
Proof.
  intros [Hcap Hlen Hw Hfrom Herr Hlv] Hp Hk Hover. pose proof (lookup_lt_Some _ _ _ Hk) as Hlt.
  destruct (compact_spec self k level Hk) as (n & retained & promoted & next & Hnext & Hrun & Hpl & Hll & Hrl & Hin & Hcnt).
  { eapply pairwise_sub; [exact Hp|]. intros v Hv. apply list_elem_of_fmap in Hv as (x & -> & Hx).
    eapply Hfrom; [by eapply list_elem_of_lookup_2|done]. }
  set (ls' := <[(k + 1)%nat := next ++ promoted]> (<[k := retained]> (extend (levels self) k))) in *.
  assert (Hll' : length ls' = (if decide (length (levels self) = k + 1)%nat then k + 2 else length (levels self))%nat).
  { unfold ls'. rewrite !length_insert. unfold extend. case_decide; [rewrite length_app; simpl|]; lia. }
  assert (H2 : 2 ^ Z.of_nat (k + 1) = 2 * 2 ^ Z.of_nat k).
  { rewrite Nat2Z.inj_add, Z.pow_add_r by lia. lia. }
  pose proof (Z.pow_pos_nonneg 2 (Z.of_nat k)) as Hpos.
  assert (Hweight : lsum weight_at 0 ls' = Z.of_nat (length vs)).
  { unfold ls'. rewrite (lsum_compact weight_at _ _ level) by (done || (intros; unfold weight_at; simpl; lia)).
    rewrite Hw. unfold weight_at. rewrite length_app, H2, Hll. nia. }
  exists (with_levels self ls' (negb (compact_next_odd self))), next, promoted.
  split; [exact Hrun|]. split; [|split_and!; try done; [lia|..]].
  - split; cbn [with_levels level_capacity kll_len levels]; [done|done|done| | |].
    + intros l x Hl Hx. apply list_elem_of_lookup in Hl as [j Hj]. unfold ls' in Hj.
      assert (forall m l, extend (levels self) k !! m = Some l -> x ∈ l -> item_value x ∈ vs) as Hext.
      { intros m l0. unfold extend. case_decide.
        - rewrite lookup_app_Some. intros [Hm|[_ Hm]] Hx0; [eapply Hfrom; [by eapply list_elem_of_lookup_2|done]|].
          destruct (m - length (levels self))%nat; simplify_eq/=. by apply not_elem_of_nil in Hx0.
        - intros Hm Hx0. eapply Hfrom; [by eapply list_elem_of_lookup_2|done]. }
      assert (x ∈ promoted ++ retained -> item_value x ∈ vs) as Hpr.
      { intros Hx0. eapply Hfrom; [by eapply list_elem_of_lookup_2|]. by apply Hin. }
      destruct (decide (j = k + 1)%nat) as [->|Hj1].
      { rewrite list_lookup_insert_eq in Hj by (rewrite length_insert; by eapply lookup_lt_Some). simplify_eq.
        apply elem_of_app in Hx as [Hx|Hx]; [by eapply Hext|]. apply Hpr, elem_of_app. by left. }
      rewrite list_lookup_insert_ne in Hj by done. destruct (decide (j = k)) as [->|Hj2].
      { rewrite list_lookup_insert_eq in Hj; [simplify_eq; apply Hpr, elem_of_app; by right|].
        unfold extend. case_decide; rewrite ?length_app; lia. }
      rewrite list_lookup_insert_ne in Hj by done. by eapply Hext.
    + intros P HP. specialize (Herr P HP). specialize (Hcnt P HP). unfold ls'.
      rewrite (lsum_compact (below_at P) _ _ level) by (done || (intros; unfold below_at; simpl; lia)).
      rewrite (lsum_compact potential_at _ _ level) by (done || (intros; unfold potential_at, weight_at; simpl; lia)).
      unfold below_at at 2 3 4 5, potential_at at 2 3 4 5, weight_at.
      rewrite map_app, cnt_app, length_app, H2, Hll, Hpl, !Nat2Z.inj_add, Nat2Z.inj_mul.
      change (Z.of_nat 2) with 2. change (Z.of_nat 1) with 1.
      apply compact_error; [done|done|by apply Hpos; lia|lia].
    + destruct Hlv as [Hl1 Hl2]. rewrite Hll'. split; [case_decide; lia|]. case_decide as E; [|exact Hl2].
      right. replace (Z.of_nat (k + 2) - 2) with (Z.of_nat k) by lia.
      pose proof (lsum_single weight_at k (levels self) level) as Hone. rewrite Hw in Hone.
      change (weight_at k level) with (2 ^ Z.of_nat k * Z.of_nat (length level)) in Hone. specialize (Hpos ltac:(lia) ltac:(lia)).
      assert (2 ^ Z.of_nat k * Z.of_nat (length level) <= Z.of_nat (length vs)).
      { apply Hone; [|done]. intros j l. unfold weight_at. pose proof (Z.pow_nonneg 2 (Z.of_nat j)). nia. }
      nia.
  - cbn [with_levels levels]. unfold ls'.
    by rewrite list_lookup_insert_eq by (rewrite length_insert; by eapply lookup_lt_Some).
  - exists retained. split; [|done]. cbn [with_levels levels]. unfold ls'.
    rewrite list_lookup_insert_ne by lia. rewrite list_lookup_insert_eq; [done|].
    unfold extend. case_decide; rewrite ?length_app; lia.
  - intros j Hj1 Hj2. cbn [with_levels levels]. unfold ls'. rewrite !list_lookup_insert_ne by lia.
    unfold extend. case_decide; [|done]. rewrite lookup_app. destruct (levels self !! j) eqn:Ej; [done|].
    apply lookup_ge_None in Ej. apply lookup_ge_None. simpl. lia.
Qed.

(** Every level but [k] within its capacity, level [k] within twice. *)
Definition sizes (cap k : nat) (ls : list (list KllSketchItem)) : Prop :=
  forall j l, ls !! j = Some l -> (length l <= (if decide (j = k) then 2 * cap else cap))%nat.

Lemma compact_if_needed_spec (vs : list DataValue) (fuel : nat) :
  pairwise vs -> forall self k level,
  kll_mid vs self -> levels self !! k = Some level -> sizes (level_capacity self) k (levels self) ->
  (length level <= level_capacity self \/ length (levels self) - k <= fuel)%nat ->
  exists self', compact_if_needed fuel self k = Ok self' /\ kll_mid vs self' /\
    level_capacity self' = level_capacity self /\ min_value self' = min_value self /\ max_value self' = max_value self /\
    Forall (fun l => length l <= level_capacity self)%nat (levels self').
Proof.
  intros Hp. induction fuel as [|fuel IH]; intros self k level Hmid Hk Hsz Hfuel;
    pose proof (lookup_lt_Some _ _ _ Hk) as Hlt; simpl; rewrite (vec_get_Some _ _ _ Hk); cbn [rbind];
    (case_decide as Hle; [exists self; split_and!; try done; apply Forall_lookup; intros j l Hj;
       pose proof (Hsz j l Hj); case_decide; [simplify_eq; lia|done]|]); [lia|].
  destruct Hfuel as [|Hfuel]; [lia|].
  destruct (compact_mid vs self k level Hmid Hp Hk ltac:(lia)) as
    (self' & next & promoted & -> & Hmid' & Ec & Emin & Emax & Hll & Hpr & Hnext & Hk1 & (ret & Hret & Hretl) & Hoth).
  cbn [rbind]. pose proof (Hsz k level Hk) as Hsk. rewrite decide_True in Hsk by done.
  assert (Hn : (length next <= level_capacity self)%nat /\
               (length (levels self) = k + 1 -> next = [])%nat).
  { unfold extend in Hnext. case_decide as E.
    - rewrite lookup_app_r, E, Nat.sub_diag in Hnext by lia. simplify_eq/=. split; [lia|done].
    - pose proof (Hsz _ _ Hnext) as Hs. rewrite decide_False in Hs by lia. split; [done|lia]. }
  destruct (IH self' (k + 1)%nat (next ++ promoted)) as (self2 & -> & Hmid2 & Ec2 & Emin2 & Emax2 & Hall); try done.
  - intros j l Hj. rewrite Ec. destruct (decide (j = k + 1)%nat) as [->|Hj1].
    + simplify_eq. rewrite length_app. lia.
    + destruct (decide (j = k)) as [->|Hj2].
      * simplify_eq. pose proof (mid_cap _ _ Hmid). lia.
      * rewrite Hoth in Hj by done. pose proof (Hsz j l Hj) as Hs. by rewrite decide_False in Hs.
  - rewrite length_app, Ec, Hll. destruct Hn as [Hn1 Hn2]. case_decide as E; [left|right; lia].
    rewrite (Hn2 E). simpl. lia.
  - exists self2. split_and!; try congruence; try done. by rewrite <- Ec.
Qed.

(** * The sketch of a sequence of values *)

Definition bound_ok (vs : list DataValue) (o : option DataValue) (R : DataValue -> DataValue -> Prop) : Prop :=
  match o with
  | None => vs = []
  | Some m => m ∈ vs /\ forall v, v ∈ vs -> R m v
  end.

Record kll_inv (vs : list DataValue) (self : KllSketchBuilder) : Prop := {
  inv_mid : kll_mid vs self;
  inv_sizes : Forall (fun l => length l <= level_capacity self)%nat (levels self);
  inv_min : bound_ok vs (min_value self) vle;
  inv_max : bound_ok vs (max_value self) (fun m v => vle v m);
}.

Lemma kll_new_inv (cap : nat) : (2 <= cap)%nat ->
  exists self, kll_new cap = Ok self /\ kll_inv [] self /\ level_capacity self = cap.
Proof.
  intros Hc. unfold kll_new. rewrite decide_False by lia. eexists. split; [done|]. split; [|done].
  split; simpl; [|repeat constructor; simpl; lia|done|done].
  split; simpl; [done|done|done|..].
  - intros l x Hl Hx. apply list_elem_of_singleton in Hl as ->. by apply not_elem_of_nil in Hx.
  - intros P _. done.
  - split; [lia|by left].
Qed.

Lemma update_bounds_spec (vs : list DataValue) (self : KllSketchBuilder) (value : DataValue) :
  pairwise (vs ++ [value]) -> bound_ok vs (min_value self) vle ->
  bound_ok vs (max_value self) (fun m v => vle v m) ->
  exists mn mx, update_bounds self value =
      Ok (mk_kll_builder (level_capacity self) (kll_len self) (levels self) (Some mn) (Some mx) (compact_next_odd self)) /\
    bound_ok (vs ++ [value]) (Some mn) vle /\ bound_ok (vs ++ [value]) (Some mx) (fun m v => vle v m).
Proof.
  intros Hp Hmin Hmax. unfold update_bounds.
  assert (Hvin : value ∈ vs ++ [value]) by set_solver.
  assert (Hvv : vle value value) by (apply vle_refl; by apply Hp).
  assert (exists mn, match min_value self with
    | Some m => let? o := compare_values value m in Ok (match o with Lt => Some value | _ => min_value self end)
    | None => Ok (Some value) end = Ok (Some mn) /\ bound_ok (vs ++ [value]) (Some mn) vle) as (mn & -> & Hmn).
  { destruct (min_value self) as [m|]; simpl in Hmin.
    - destruct Hmin as [Hm Hle]. destruct (Hp value m Hvin) as [o Ho]; [set_solver|].
      unfold compare_values. rewrite Ho. cbn [rbind].
      destruct o; eexists; (split; [reflexivity|]).
      2: { split; [done|]. intros v Hv. apply elem_of_app in Hv as [Hv|Hv]; [|by apply list_elem_of_singleton in Hv as ->].
           apply vle_trans with m; [by left|auto]. }
      all: split; [set_solver|]; intros v Hv; apply elem_of_app in Hv as [Hv|Hv]; [auto|];
        apply list_elem_of_singleton in Hv as ->; apply vle_flip; [by eexists|by rewrite Ho].
    - subst. eexists. split; [done|]. split; [done|]. intros v Hv. by apply list_elem_of_singleton in Hv as ->. }
  assert (exists mx, match max_value self with
    | Some m => let? o := compare_values value m in Ok (match o with Gt => Some value | _ => max_value self end)
    | None => Ok (Some value) end = Ok (Some mx) /\ bound_ok (vs ++ [value]) (Some mx) (fun m v => vle v m)) as (mx & -> & Hmx).
  { destruct (max_value self) as [m|]; simpl in Hmax.
    - destruct Hmax as [Hm Hle]. destruct (Hp value m Hvin) as [o Ho]; [set_solver|].
      unfold compare_values. rewrite Ho. cbn [rbind].
      destruct o; eexists; (split; [reflexivity|]).
      3: { split; [done|]. intros v Hv. apply elem_of_app in Hv as [Hv|Hv]; [|by apply list_elem_of_singleton in Hv as ->].
           apply vle_trans with m; [auto|]. apply vle_flip; [by eexists|by rewrite Ho]. }
      all: split; [set_solver|]; intros v Hv; apply elem_of_app in Hv as [Hv|Hv]; [auto|];
        apply list_elem_of_singleton in Hv as ->; apply vle_of; [by eexists|by rewrite Ho].
    - subst. eexists. split; [done|]. split; [done|]. intros v Hv. by apply list_elem_of_singleton in Hv as ->. }
  exists mn, mx. split; [done|]. by split.
Qed.

Lemma insert_inv (vs : list DataValue) (self : KllSketchBuilder) (value : DataValue) :
  kll_inv vs self -> pairwise (vs ++ [value]) ->
  exists self', kll_insert self value = Ok self' /\ kll_inv (vs ++ [value]) self' /\
    level_capacity self' = level_capacity self.
Proof.
  intros [[Hcap Hlen Hw Hfrom Herr [Hl1 Hl2]] Hsz Hmin Hmax] Hp. unfold kll_insert.
  destruct (update_bounds_spec vs self value Hp Hmin Hmax) as (mn & mx & -> & Hmn & Hmx).
  cbn [rbind levels kll_len level_capacity min_value max_value compact_next_odd].
  destruct (levels self) as [|level ls] eqn:El; [simpl in Hl1; lia|]. cbn [vec_get lookup list_lookup rbind].
  rewrite vec_set_lt by (simpl; lia). cbn [rbind insert list_insert].
  set (item := mk_kll_item value (kll_len self)). set (ls' := (level ++ [item]) :: ls).
  set (b := mk_kll_builder _ _ _ _ _ _). apply Forall_cons in Hsz as [Hs0 Hsz].
  assert (Hmid : kll_mid (vs ++ [value]) b).
  { unfold b. split; cbn [levels kll_len level_capacity]; [done| | | | |].
    - rewrite length_app, Hlen. simpl. lia.
    - unfold ls'. simpl in *. unfold weight_at in *. rewrite !length_app. simpl. lia.
    - intros l x Hl Hx. unfold ls' in Hl. apply elem_of_app.
      apply elem_of_cons in Hl as [->|Hl]; [|left; eapply Hfrom; [|done]; by right].
      apply elem_of_app in Hx as [Hx|Hx]; [left; eapply Hfrom; [|done]; by left|].
      apply list_elem_of_singleton in Hx as ->. right. simpl. by left.
    - intros P HP. specialize (Herr P HP). unfold ls'. simpl in *.
      unfold potential_at, below_at in *. rewrite map_app, !cnt_app. simpl.
      match goal with |- Z.abs ?x * _ <= ?y => match type of Herr with Z.abs ?x' * _ <= ?y' =>
        replace x with x' by (simpl; lia); replace y with y' by (simpl; lia) end end. done.
    - rewrite length_app. unfold ls'. simpl in *. split; [lia|]. destruct Hl2; [by left|right; lia]. }
  destruct (compact_if_needed_spec (vs ++ [value]) (length ls') Hp b 0 (level ++ [item]) Hmid)
    as (self' & -> & Hmid' & Ec & Emin & Emax & Hall); [done| |right; simpl; lia|].
  - intros j l Hj. simpl in Hj. unfold b. cbn [level_capacity]. destruct j as [|j]; simplify_eq/=.
    + rewrite length_app. simpl. lia.
    + by apply (Forall_lookup_1 _ _ _ _ Hsz Hj).
  - exists self'. split; [done|]. split; [|done]. split; [done|by rewrite Ec|by rewrite Emin|by rewrite Emax].
Qed.

Definition kll_of (cap : nat) (vs : list DataValue) : res KllSketchBuilder :=
  let? self := kll_new cap in rfold kll_insert self vs.

Lemma kll_of_inv (cap : nat) (vs : list DataValue) :
  (2 <= cap)%nat -> pairwise vs ->
  exists self, kll_of cap vs = Ok self /\ kll_inv vs self /\ level_capacity self = cap.
Proof.
  intros Hc. unfold kll_of. destruct (kll_new_inv cap Hc) as (s0 & -> & Hinv & Ec). cbn [rbind].
  induction vs as [|v vs IH] using rev_ind; intros Hp; [by exists s0|].
  destruct IH as (s1 & Hrun & Hinv1 & Ec1); [eapply pairwise_sub; [exact Hp|]; set_solver|].
  destruct (insert_inv vs s1 v Hinv1 Hp) as (s2 & Hins & Hinv2 & Ec2).
  exists s2. rewrite rfold_app, Hrun. simpl. rewrite Hins. split_and!; [done|done|congruence].
Qed.

(** * The value at a rank *)

Fixpoint wcnt (P : DataValue -> bool) (items : list KllWeightedItem) : Z :=
  match items with
  | [] => 0
  | it :: items => (if P (weighted_value it) then weighted_weight it else 0) + wcnt P items
  end.

Definition wsum : list KllWeightedItem -> Z := wcnt (fun _ => true).

Lemma wcnt_app (P : DataValue -> bool) (l1 l2 : list KllWeightedItem) : wcnt P (l1 ++ l2) = wcnt P l1 + wcnt P l2.
Proof. induction l1 as [|x l1 IH]; simpl; [done|]. rewrite IH. lia. Qed.

Lemma wcnt_perm (P : DataValue -> bool) (l1 l2 : list KllWeightedItem) : Permutation l1 l2 -> wcnt P l1 = wcnt P l2.
Proof. induction 1; simpl; lia. Qed.

Lemma wcnt_weigh (P : DataValue -> bool) (i : nat) (ls : list (list KllSketchItem)) :
  wcnt P (weigh i ls) = lsum (below_at P) i ls.
Proof.
  revert i. induction ls as [|l ls IH]; intros i; simpl; [done|]. rewrite wcnt_app, IH. f_equal.
  unfold below_at. induction l as [|x l IHl]; simpl; [lia|]. rewrite IHl. simpl. case_match; lia.
Qed.

Lemma lsum_ext (g h : nat -> list KllSketchItem -> Z) (i : nat) (ls : list (list KllSketchItem)) :
  (forall j l, g j l = h j l) -> lsum g i ls = lsum h i ls.
Proof. intros H. revert i. induction ls as [|l ls IH]; intros i; simpl; [done|]. by rewrite H, IH. Qed.

Lemma wsum_weigh (i : nat) (ls : list (list KllSketchItem)) : wsum (weigh i ls) = lsum weight_at i ls.
Proof.
  unfold wsum. rewrite wcnt_weigh. apply lsum_ext. intros j l. unfold below_at, weight_at. f_equal.
  rewrite cnt_all by done. by rewrite length_map.
Qed.

Lemma weigh_elem (i : nat) (ls : list (list KllSketchItem)) (it : KllWeightedItem) :
  it ∈ weigh i ls -> 0 < weighted_weight it /\ exists l x, l ∈ ls /\ x ∈ l /\ weighted_value it = item_value x.
Proof.
  revert i. induction ls as [|l ls IH]; intros i; simpl; [by intros ?%not_elem_of_nil|].
  intros [H|H]%elem_of_app.
  - apply list_elem_of_fmap in H as (x & -> & Hx). simpl. split; [by apply Z.pow_pos_nonneg; lia|].
    exists l, x. split_and!; [by left|done|done].
  - destruct (IH _ H) as (Hw & l' & x & Hl & Hx & Ev). split; [done|]. exists l', x. split_and!; [by right|done|done].
Qed.

(** The item whose interval of weights holds [ordinal]. *)
Definition item_at (items : list KllWeightedItem) (ordinal : Z) (it : KllWeightedItem) : Prop :=
  exists pre post, items = pre ++ it :: post /\ wsum pre < ordinal <= wsum pre + weighted_weight it.

Definition rank_value (n : Z) (items : list KllWeightedItem) (mn mx : DataValue) (rank : Z) (v : DataValue) : Prop :=
  if rank =? 0 then v = mn
  else if n <=? rank + 1 then v = mx
  else exists it, item_at items (rank + 1) it /\ v = weighted_value it.

(** [advance] from the items consumed to the item of the ordinal. *)
Lemma advance_spec (ordinal : Z) (items pre : list KllWeightedItem) (cur : option KllWeightedItem) :
  ordinal <= wsum (pre ++ items) ->
  (ordinal <= wsum pre -> exists pre' it, pre = pre' ++ [it] /\ cur = Some it /\ wsum pre' < ordinal) ->
  exists pre' it rest, advance ordinal items cur (wsum pre) = (rest, Some it, wsum (pre' ++ [it])) /\
    pre ++ items = pre' ++ it :: rest /\ wsum pre' < ordinal <= wsum (pre' ++ [it]).
Proof.
  revert pre cur. induction items as [|x items IH]; intros pre cur Ht Hc; simpl.
  - rewrite app_nil_r in Ht. destruct (Z.ltb_spec (wsum pre) ordinal); [lia|].
    destruct (Hc Ht) as (pre' & it & -> & -> & Hlt). exists pre', it, []. rewrite app_nil_r. done.
  - destruct (Z.ltb_spec (wsum pre) ordinal) as [Hlt|Hge].
    + replace (wsum pre + weighted_weight x) with (wsum (pre ++ [x])) by (unfold wsum; rewrite wcnt_app; simpl; lia).
      destruct (IH (pre ++ [x]) (Some x)) as (pre' & it & rest & -> & E & Hlt').
      * by rewrite <- app_assoc.
      * intros _. by exists pre, x.
      * exists pre', it, rest. by rewrite <- app_assoc in E.
    + destruct (Hc Hge) as (pre' & it & -> & -> & Hlt). exists pre', it, (x :: items).
      split; [done|]. split; [by rewrite <- app_assoc|done].
Qed.

(** What the iterator still holds for the ranks to come. *)
Definition ready (n : Z) (pre : list KllWeightedItem) (mn mx : DataValue) (self : KllValuesAtRanks) (rank : Z) : Prop :=
  (rank = 0 -> rank_min self = Some mn) /\
  (n <= rank + 1 -> rank_max self = Some mx) /\
  (0 < rank -> rank + 1 < n -> rank + 1 <= wsum pre ->
   exists pre' it, pre = pre' ++ [it] /\ current self = Some it /\ wsum pre' < rank + 1).

(** What stays in place of an emitted value. *)
Definition kept {A : Type} (a : A) (next_ordinal : option Z) (upper : Z) : option A :=
  match next_ordinal with
  | Some next => if next <=? upper then Some a else None
  | None => None
  end.

Lemma emit_value_kept (v : DataValue) (next_ordinal : option Z) (upper : Z) :
  emit_value (Some v) next_ordinal upper = (Some v, kept v next_ordinal upper).
Proof. unfold emit_value, kept. by repeat case_match. Qed.

Lemma emit_current_kept (it : KllWeightedItem) (next_ordinal : option Z) (upper : Z) :
  emit_current (Some it) next_ordinal upper = (Some (weighted_value it), kept it next_ordinal upper).
Proof. unfold emit_current, kept. by repeat case_match. Qed.

(** A value that a later rank asks for stays. *)
Lemma kept_for {A : Type} (a : A) (ranks : list Z) (upper r : Z) :
  StronglySorted Z.le ranks -> Forall (fun r => r + 1 <= USIZE_MAX) ranks -> r ∈ ranks -> r + 1 <= upper ->
  kept a ((fun x => saturating_add x 1) <$> head ranks) upper = Some a.
Proof.
  intros Hs Hr Hin Hup. destruct ranks as [|r0 ranks]; [by apply not_elem_of_nil in Hin|].
  apply Forall_cons in Hr as [Hr0 _]. apply StronglySorted_cons in Hs as [Hle _]. simpl.
  rewrite saturating_add_exact by done.
  assert (r0 <= r) by (apply elem_of_cons in Hin as [->|Hin]; [lia|]; rewrite Forall_forall in Hle; by apply Hle).
  by rewrite (proj2 (Z.leb_le _ _)) by lia.
Qed.

Lemma ranks_loop_spec (n : Z) (items : list KllWeightedItem) (mn mx : DataValue) (ranks : list Z) :
  0 < n <= USIZE_MAX -> wsum items = n -> StronglySorted Z.le ranks -> Forall (fun r => 0 <= r < n) ranks ->
  forall self pre, items = pre ++ rank_items self -> accumulated self = wsum pre ->
  Forall (ready n pre mn mx self) ranks ->
  Forall2 (fun r ov => exists v, ov = Some v /\ rank_value n items mn mx r v) ranks (ranks_loop n self ranks).
Proof.
  intros Hn Htot. induction ranks as [|r ranks IH]; intros Hs Hr self pre Hpre Hacc Hready; [constructor|].
  apply StronglySorted_cons in Hs as [Hle Hs]. apply Forall_cons in Hr as [Hr0 Hr].
  apply Forall_cons in Hready as [(Hmin & Hmax & Hcur) Hready]. simpl. unfold ranks_next.
  rewrite (proj2 (Z.eqb_neq n 0)), saturating_add_exact by lia.
  assert (Hk : forall A (a : A) r2 upper, r2 ∈ ranks -> r2 + 1 <= upper ->
    kept a ((fun x => saturating_add x 1) <$> head ranks) upper = Some a).
  { intros A a r2 upper Hin Hup. apply kept_for with r2; try done. eapply Forall_impl; [exact Hr|]. simpl. lia. }
  rewrite Forall_forall in Hready, Hle.
  assert (Hbounds : forall r2, r2 ∈ ranks -> 0 <= r2 < n) by (by apply Forall_forall).
  unfold rank_value. destruct (Z.eqb_spec (r + 1) 1) as [E0|E0].
  { rewrite Hmin, emit_value_kept by lia. constructor; [by rewrite (proj2 (Z.eqb_eq r 0)) by lia; exists mn|].
    apply (IH Hs Hr _ pre); [done|done|]. apply Forall_forall. intros r2 Hr2.
    destruct (Hready r2 Hr2) as (_ & H2 & H3). split; [|by split]. intros ->. by apply (Hk _ _ 0). }
  destruct (Z.leb_spec n (r + 1)) as [E1|E1].
  { rewrite Hmax, emit_value_kept by lia. constructor.
    { rewrite (proj2 (Z.eqb_neq r 0)), (proj2 (Z.leb_le _ _)) by lia. by exists mx. }
    apply (IH Hs Hr _ pre); [done|done|]. apply Forall_forall. intros r2 Hr2. specialize (Hbounds r2 Hr2).
    destruct (Hready r2 Hr2) as (H1 & _ & H3). split; [done|split; [|done]]. intros _. apply (Hk _ _ r2); [done|lia]. }
  rewrite Hacc. destruct (advance_spec (r + 1) (rank_items self) pre (current self)) as
    (pre' & it & rest & -> & Eit & Hlt & Hge); [rewrite <- Hpre; lia|intros; apply Hcur; lia|].
  rewrite bool_decide_true by done. rewrite (proj2 (Z.leb_le _ _)) by lia. cbn [andb].
  rewrite emit_current_kept. constructor.
  { eexists. split; [done|]. rewrite (proj2 (Z.eqb_neq r 0)), (proj2 (Z.leb_gt _ _)) by lia.
    exists it. split; [|done]. exists pre', rest. split; [by rewrite Hpre|].
    unfold wsum in *. rewrite wcnt_app in Hge. simpl in Hge. lia. }
  apply (IH Hs Hr _ (pre' ++ [it])); [by rewrite Hpre, Eit, <- app_assoc|done|].
  apply Forall_forall. intros r2 Hr2. destruct (Hready r2 Hr2) as (H1 & H2 & _). specialize (Hle r2 Hr2).
  split; [done|split; [done|]]. intros _ Hlt2 Hw2. exists pre', it. split; [done|].
  split; [apply (Hk _ _ r2); [done|lia]|lia].
Qed.

(** * Ranks *)

Definition is_lt (v w : DataValue) : bool :=
  match partial_cmp w v with Some Lt => true | _ => false end.
Definition is_le (v w : DataValue) : bool :=
  match partial_cmp w v with Some Lt | Some Eq => true | _ => false end.

(** The values below [v], and those up to [v]. *)
Definition rank_lt (v : DataValue) (vs : list DataValue) : Z := cnt (is_lt v) vs.
Definition rank_le (v : DataValue) (vs : list DataValue) : Z := cnt (is_le v) vs.

Lemma is_le_true (v w : DataValue) : is_le v w = true <-> vle w v.
Proof. unfold is_le, vle. destruct (partial_cmp w v) as [[]|]; naive_solver. Qed.

Lemma is_lt_false (v w : DataValue) : vle v w -> is_lt v w = false.
Proof. unfold is_lt, vle. rewrite (partial_cmp_flip v w). by intros [-> | ->]. Qed.

Lemma is_lt_down (v : DataValue) : down_closed (is_lt v).
Proof.
  intros a b Hab. unfold is_lt. destruct (partial_cmp b v) as [[]|] eqn:E; try done. intros _.
  destruct Hab as [Hab|Hab]; rewrite (partial_cmp_transitive a b v _ _ Hab E); unfold cmp_compat; auto.
Qed.

Lemma is_le_down (v : DataValue) : down_closed (is_le v).
Proof. intros a b Hab. rewrite !is_le_true. by apply vle_trans. Qed.

Lemma wcnt_none (P : DataValue -> bool) (l : list KllWeightedItem) :
  (forall it, it ∈ l -> P (weighted_value it) = false) -> wcnt P l = 0.
Proof.
  induction l as [|x l IH]; intros H; [done|]. simpl. rewrite (H x), IH; [done| |by left].
  intros it Hit. apply H. by right.
Qed.

Lemma wcnt_le_wsum (P : DataValue -> bool) (l : list KllWeightedItem) :
  Forall (fun it => 0 < weighted_weight it) l -> 0 <= wcnt P l <= wsum l.
Proof. unfold wsum. induction 1 as [|x l Hx _ IH]; simpl; [lia|]. case_match; lia. Qed.

Lemma wcnt_all (P : DataValue -> bool) (l : list KllWeightedItem) :
  (forall it, it ∈ l -> P (weighted_value it) = true) -> wcnt P l = wsum l.
Proof.
  unfold wsum. induction l as [|x l IH]; intros H; [done|]. simpl. rewrite (H x), IH; [done| |by left].
  intros it Hit. apply H. by right.
Qed.

(** In the sorted items, the item of an ordinal has the ordinal's weight on
    either side. *)
Lemma item_at_weights (items : list KllWeightedItem) (ordinal : Z) (it : KllWeightedItem) :
  StronglySorted (item_le weighted_value) items -> Forall (fun it => 0 < weighted_weight it) items ->
  is_Some (partial_cmp (weighted_value it) (weighted_value it)) -> item_at items ordinal it ->
  wcnt (is_lt (weighted_value it)) items < ordinal <= wcnt (is_le (weighted_value it)) items.
Proof.
  intros Hs Hpos Hrefl (pre & post & -> & Hlt & Hle).
  apply StronglySorted_app in Hs as (Hcross & _ & [Hpost _]%StronglySorted_cons).
  apply Forall_app in Hpos as [Hp1 Hp2]. rewrite !wcnt_app. split.
  - pose proof (wcnt_le_wsum (is_lt (weighted_value it)) pre Hp1).
    rewrite (wcnt_none _ (it :: post)); [lia|]. intros x Hx. apply is_lt_false.
    apply elem_of_cons in Hx as [->|Hx]; [by apply vle_refl|]. rewrite Forall_forall in Hpost. by apply Hpost.
  - rewrite (wcnt_all _ pre); [|intros x Hx; apply is_le_true; by apply Hcross; [|left]].
    apply Forall_cons in Hp2 as [_ Hp2]. pose proof (wcnt_le_wsum (is_le (weighted_value it)) post Hp2).
    simpl. rewrite (proj2 (is_le_true _ _) (vle_refl _ Hrefl)). lia.
Qed.

Lemma potential_bound (ls : list (list KllSketchItem)) :
  lsum potential_at 0 ls <= (Z.of_nat (length ls) - 1) * lsum weight_at 0 ls.
Proof.
  rewrite <- lsum_scale. apply (lsum_mono _ _ (length ls)); [lia|]. intros j l Hj. unfold potential_at.
  apply Z.mul_le_mono_nonneg_r; [|lia]. unfold weight_at. pose proof (Z.pow_nonneg 2 (Z.of_nat j)). nia.
Qed.

(** What [build] makes of a sketch that has seen [vs]. *)
Lemma kll_build_spec (vs : list DataValue) (self : KllSketchBuilder) :
  kll_inv vs self -> pairwise vs ->
  exists s, kll_build self = Ok s /\ sketch_len s = Z.of_nat (length vs) /\
    sketch_min s = min_value self /\ sketch_max s = max_value self /\
    wsum (sketch_items s) = Z.of_nat (length vs) /\
    StronglySorted (item_le weighted_value) (sketch_items s) /\
    Forall (fun it => 0 < weighted_weight it /\ weighted_value it ∈ vs) (sketch_items s) /\
    forall P, down_closed P ->
      Z.abs (wcnt P (sketch_items s) - cnt P vs) * Z.of_nat (level_capacity self) <=
      (Z.of_nat (length (levels self)) - 1) * Z.of_nat (length vs).
Proof.
  intros [[Hcap Hlen Hw Hfrom Herr _] _ _ _] Hp. unfold kll_build.
  assert (Hval : forall it, it ∈ weigh 0 (levels self) -> 0 < weighted_weight it /\ weighted_value it ∈ vs).
  { intros it Hit. apply weigh_elem in Hit as (H1 & l & x & Hl & Hx & Ev). split; [done|]. rewrite Ev. by eapply Hfrom. }
  destruct (sort_values_spec weighted_value (weigh 0 (levels self))) as (items & -> & Hperm & Hs).
  { eapply pairwise_sub; [exact Hp|]. intros v Hv. apply list_elem_of_fmap in Hv as (it & -> & Hit). by apply Hval. }
  cbn [rbind]. eexists. split; [done|]. cbn [sketch_len sketch_min sketch_max sketch_items].
  split_and!; [done|done|done| |done| |].
  - unfold wsum. rewrite (wcnt_perm _ _ _ Hperm). fold wsum. by rewrite wsum_weigh.
  - apply Forall_forall. intros it Hit. rewrite Hperm in Hit. by apply Hval.
  - intros P HP. rewrite (wcnt_perm _ _ _ Hperm), wcnt_weigh. etransitivity; [by apply Herr|].
    rewrite <- Hw. apply potential_bound.
Qed.

(** The values of a sorted list of ranks. *)
Lemma values_at_ranks_spec (cap : nat) (vs : list DataValue) (ranks : list Z) :
  (2 <= cap)%nat -> vs <> [] -> Z.of_nat (length vs) <= USIZE_MAX -> pairwise vs ->
  StronglySorted Z.le ranks -> Forall (fun r => 0 <= r < Z.of_nat (length vs)) ranks ->
  exists self s mn mx, kll_of cap vs = Ok self /\ kll_inv vs self /\ level_capacity self = cap /\
    kll_build self = Ok s /\ sketch_min s = Some mn /\ sketch_max s = Some mx /\
    bound_ok vs (Some mn) vle /\ bound_ok vs (Some mx) (fun m v => vle v m) /\
    Forall2 (fun r ov => exists v, ov = Some v /\ rank_value (Z.of_nat (length vs)) (sketch_items s) mn mx r v)
      ranks (values_at_ranks s ranks).
Proof.
  intros Hcap Hne Hmax Hp Hs Hr. destruct (kll_of_inv cap vs Hcap Hp) as (self & Hrun & Hinv & Ec).
  destruct (kll_build_spec vs self Hinv Hp) as (s & Hb & Hlen & Emin & Emax & Hw & _ & _ & _).
  destruct Hinv as [Hmid Hsz Hmn Hmx]. pose proof Hmn as Hmn'. pose proof Hmx as Hmx'.
  unfold bound_ok in Hmn, Hmx. destruct (min_value self) as [mn|] eqn:E1; [|done].
  destruct (max_value self) as [mx|] eqn:E2; [|done]. rewrite <- E1 in Hmn'. rewrite <- E2 in Hmx'.
  exists self, s, mn, mx. split_and!; try done. unfold values_at_ranks. rewrite Hlen, Emin, Emax.
  assert (0 < length vs)%nat by (destruct vs; [done|simpl; lia]).
  apply (ranks_loop_spec _ _ _ _ _) with (pre := []); [lia|done|done|done|done|done|].
  eapply Forall_impl; [exact Hr|]. simpl. intros r Hr0. split; [done|split; [done|]].
  intros H1 H2 H3. unfold wsum in H3. simpl in H3. lia.
Qed.

Lemma rank_value_in (vs : list DataValue) (s : list KllWeightedItem) (mn mx : DataValue) (r : Z) (v : DataValue) :
  Forall (fun it => 0 < weighted_weight it /\ weighted_value it ∈ vs) s -> mn ∈ vs -> mx ∈ vs ->
  rank_value (Z.of_nat (length vs)) s mn mx r v -> v ∈ vs.
Proof.
  intros Hs Hmn Hmx. unfold rank_value. case_match; [by intros ->|]. case_match; [by intros ->|].
  intros (it & (pre & post & -> & _) & ->). rewrite Forall_forall in Hs. apply (Hs it). set_solver.
Qed.

Lemma rank_value_error (vs : list DataValue) (s : list KllWeightedItem) (mn mx : DataValue) (r err c : Z) (v : DataValue) :
  pairwise vs -> StronglySorted (item_le weighted_value) s ->
  Forall (fun it => 0 < weighted_weight it /\ weighted_value it ∈ vs) s ->
  bound_ok vs (Some mn) vle -> bound_ok vs (Some mx) (fun m v => vle v m) -> 0 <= r < Z.of_nat (length vs) ->
  0 <= c -> 0 <= err -> (forall P, down_closed P -> Z.abs (wcnt P s - cnt P vs) * c <= err) ->
  rank_value (Z.of_nat (length vs)) s mn mx r v ->
  (rank_lt v vs - r) * c <= err /\ (r + 1 - rank_le v vs) * c <= err.
Proof.
  intros Hp Hs Hf [Hmn Hmnle] [Hmx Hmxle] Hr Hc Herr0 Herr. unfold rank_value, rank_lt, rank_le.
  destruct (Z.eqb_spec r 0) as [->|Hr0]; [|destruct (Z.leb_spec (Z.of_nat (length vs)) (r + 1)) as [Hn|Hn]].
  - intros ->. rewrite (cnt_none (is_lt mn)) by (intros w Hw; apply is_lt_false; auto).
    apply list_elem_of_split in Hmn as (l1 & l2 & ->). rewrite cnt_app. simpl.
    rewrite (proj2 (is_le_true mn mn)) by (apply Hmnle; set_solver).
    pose proof (cnt_bound (is_le mn) l1). pose proof (cnt_bound (is_le mn) l2). nia.
  - intros ->. rewrite (cnt_all (is_le mx)) by (intros w Hw; apply is_le_true; auto).
    apply list_elem_of_split in Hmx as (l1 & l2 & ->). rewrite cnt_app. simpl.
    rewrite (is_lt_false mx mx) by (apply Hmxle; set_solver). rewrite length_app in *. simpl in *.
    pose proof (cnt_bound (is_lt mx) l1). pose proof (cnt_bound (is_lt mx) l2). nia.
  - intros (it & Hit & ->). assert (weighted_value it ∈ vs) as Hin.
    { destruct Hit as (pre & post & -> & _). rewrite Forall_forall in Hf. apply (Hf it). set_solver. }
    destruct (item_at_weights s (r + 1) it Hs) as [H1 H2]; [|by apply Hp|done|].
    { eapply Forall_impl; [exact Hf|]. by intros ? []. }
    pose proof (Herr _ (is_lt_down (weighted_value it))). pose proof (Herr _ (is_le_down (weighted_value it))). nia.
Qed.

(** C35: Fed with any values that compare with each other, the sketch answers
    every sorted list of ranks with values of the input, and the value answered
    for a rank has that rank up to an error of [h / cap] of the number of
    values: no more than [r] values, plus the error, lie below it, and at least
    [r + 1], less the error, are up to it. [h] is the number of compacted
    levels: at most the logarithm of [n / cap], and zero, with an exact
    answer, until [cap] values have been seen. No buffer is over its capacity. *)
Theorem kll_quantiles (cap : nat) (vs : list DataValue) (ranks : list Z) :
  let n := Z.of_nat (length vs) in
  (2 <= cap)%nat -> vs <> [] -> n <= USIZE_MAX -> pairwise vs ->
  StronglySorted Z.le ranks -> Forall (fun r => 0 <= r < n) ranks ->
  exists self s, kll_of cap vs = Ok self /\ kll_build self = Ok s /\
    let h := Z.of_nat (length (levels self)) - 1 in
    (h = 0 \/ 0 < h /\ 2 ^ (h - 1) * Z.of_nat cap <= n) /\
    Forall (fun l => length l <= cap)%nat (levels self) /\
    Forall2 (fun r ov => exists v, ov = Some v /\ v ∈ vs /\
        (rank_lt v vs - r) * Z.of_nat cap <= h * n /\ (r + 1 - rank_le v vs) * Z.of_nat cap <= h * n)
      ranks (values_at_ranks s ranks).
Proof.
  intros n Hcap Hne Hmax Hp Hs Hr.
  destruct (values_at_ranks_spec cap vs ranks Hcap Hne Hmax Hp Hs Hr) as
    (self & s & mn & mx & Hrun & Hinv & Ec & Hb & _ & _ & Hmn & Hmx & Hvals).
  exists self, s. split; [done|]. split; [done|]. cbv zeta.
  destruct (kll_build_spec vs self Hinv Hp) as (s' & Hb' & _ & _ & _ & _ & Hsort & Hfrom & Herr).
  rewrite Hb in Hb'. simplify_eq. destruct (mid_levels _ _ (inv_mid _ _ Hinv)) as [Hl1 Hl2].
  split_and!; [|by apply inv_sizes with vs|].
  - destruct Hl2 as [->|Hl2]; [by left|]. destruct (decide (length (levels self) = 1)%nat) as [->|]; [by left|].
    right. split; [lia|]. replace (Z.of_nat (length (levels self)) - 1 - 1) with (Z.of_nat (length (levels self)) - 2) by lia. done.
  - apply Forall2_same_length_lookup_2; [by eapply Forall2_length|]. intros i r ov Hri Hov.
    destruct (Forall2_lookup_lr _ _ _ _ _ _ Hvals Hri Hov) as (v & -> & Hv). exists v. split; [done|].
    split; [by eapply rank_value_in; [exact Hfrom|apply Hmn|apply Hmx|]|].
    pose proof (Forall_lookup_1 _ _ _ _ Hr Hri) as Hri'.
    apply (rank_value_error vs (sketch_items s') mn mx); try done; [lia|]. unfold n. nia.
Qed.
End Kll.

Lemma kll_quantiles_witness :
  let vs := DataValue.Int32 <$> [5; 3; 9; 1; 7] in
  exists self s, kll_of 4 vs = Ok self /\ kll_build self = Ok s /\
    values_at_ranks s [0; 2; 4] = [Some (DataValue.Int32 1); Some (DataValue.Int32 5); Some (DataValue.Int32 9)] /\
    Forall (fun l => length l <= 4)%nat (levels self).
Proof.
  intros vs. destruct (kll_quantiles 4 vs [0; 2; 4]) as (self & s & Hrun & Hb & _ & Hsz & _).
  - lia.
  - discriminate.
  - vm_compute. discriminate.
  - intros a b Ha Hb. apply list_elem_of_fmap in Ha as (x & -> & _).
    apply list_elem_of_fmap in Hb as (y & -> & _). by eexists.
  - repeat constructor; lia.
  - repeat constructor; simpl; lia.
  - exists self, s. split; [exact Hrun|]. split; [exact Hb|]. split; [|exact Hsz].
    vm_compute in Hrun. injection Hrun as <-. vm_compute in Hb. injection Hb as <-. vm_compute. reflexivity.
Defined.
