(* ===== verification/F64.v ===== *)
(** What the statistics use of [f64]: comparison, [ceil] and [round] followed
    by a cast to [usize], and powers of two. The logarithm and the power are
    the platform's ([f64::ln], [f64::powf]), a parameter. *)

From S2P Require Import Prelude MachineInt Value FloatArith Slices.
From stdpp Require Import base tactics list numbers option.
From Stdlib Require Import ZArith Lia.
From Stdlib Require Import Floats.SpecFloat.
Local Open Scope Z_scope.

Class Libm := {
  f64_ln : Z -> Z;
  f64_powf : Z -> Z -> Z;
}.

Definition f64_nan (a : Z) : bool := is_nan_bits 64 f64_inf a.
Definition f64_lt (a b : Z) : bool := negb (f64_nan a) && negb (f64_nan b) && (float_key 64 a <? float_key 64 b).
Definition f64_le (a b : Z) : bool := negb (f64_nan a) && negb (f64_nan b) && (float_key 64 a <=? float_key 64 b).
Definition f64_eq (a b : Z) : bool := negb (f64_nan a) && negb (f64_nan b) && (float_key 64 a =? float_key 64 b).

Definition f64_0 : Z := 0.
Definition f64_1 : Z := 0x3FF0000000000000.
Definition f64_2 : Z := 0x4000000000000000.
Definition f64_half : Z := 0x3FE0000000000000.
Definition f64_of (v : Z) : Z := float_of_int f64 v.

Definition fadd : Z -> Z -> Z := float_add f64.
Definition fsub : Z -> Z -> Z := float_sub f64.
Definition fmul : Z -> Z -> Z := float_mul f64.
Definition fdiv : Z -> Z -> Z := float_div f64.

(** [x.ceil()] as an integer; nothing for an infinity or a NaN. *)
Definition f64_ceil (a : Z) : option Z :=
  match unpack f64 a with
  | S754_zero _ => Some 0
  | S754_finite s m e =>
      Some (if 0 <=? e then (if s then Zneg m else Zpos m) * 2 ^ e
            else - ((if s then Zpos m else Zneg m) / 2 ^ (- e)))
  | _ => None
  end.

(** [x.round()]: halves away from zero. *)
Definition f64_round (a : Z) : option Z :=
  match unpack f64 a with
  | S754_zero _ => Some 0
  | S754_finite s m e =>
      let n := if 0 <=? e then Zpos m * 2 ^ e else (2 * Zpos m + 2 ^ (- e)) / (2 * 2 ^ (- e)) in
      Some (if s then - n else n)
  | _ => None
  end.

(** [as usize] of the integral float [i] that [a] was rounded to. *)
Definition saturate_usize (a : Z) (i : option Z) : Z :=
  match i with
  | Some v => Z.max 0 (Z.min v USIZE_MAX)
  | None => if f64_nan a then 0 else if float_key 64 a <? 0 then 0 else USIZE_MAX
  end.

Definition ceil_usize (a : Z) : Z := saturate_usize a (f64_ceil a).
Definition round_usize (a : Z) : Z := saturate_usize a (f64_round a).

(** [Ord::min] and [Ord::max] of [OrderedFloat<f64>]. *)
Definition of_min {OF : OrderedFloat} (a b : Z) : Z :=
  match of_cmp 64 f64_inf b a with Lt => b | _ => a end.
Definition of_max {OF : OrderedFloat} (a b : Z) : Z :=
  match of_cmp 64 f64_inf b a with Lt => a | _ => b end.

(** [usize::checked_next_power_of_two]. *)
Definition checked_next_power_of_two (n : Z) : option Z :=
  let p := if n <=? 1 then 1 else 2 ^ Z.log2_up n in
  if p <=? USIZE_MAX then Some p else None.

Lemma saturate_usize_range (a : Z) (i : option Z) : 0 <= saturate_usize a i <= USIZE_MAX.
Proof. unfold saturate_usize, USIZE_MAX. repeat case_match; lia. Qed.

Example ceil_third : ceil_usize (float_div f64 (f64_of 10) (f64_of 3)) = 4.
Proof. vm_compute. reflexivity. Qed.

Example round_half : round_usize (float_div f64 (f64_of 5) f64_2) = 3 /\ ceil_usize (float_neg f64 f64_half) = 0.
Proof. vm_compute. split; reflexivity. Qed.
