(* ===== verification/Hll.v ===== *)
(** The distinct-count sketch (src/src/optimizer/core/hll.rs). Adding a value
    raises one register to the rank of its hash, so a register file depends
    only on the set of values added: order and repetitions are forgotten, as
    an estimate of distinct values must. *)

From S2P Require Import Prelude MachineInt Types Value StableHash Slices FloatArith F64.
From stdpp Require Import base sets list numbers option.
From Stdlib Require Import ZArith Lia.
Local Open Scope Z_scope.

Definition HLL_HASH_KEYS : Z * Z := (0xd1b54a32d192ed03, 0xabc983a9351f3c2d).
Definition MIN_PRECISION : Z := 4.
Definition MAX_PRECISION : Z := 26.

Record HyperLogLog := mk_hll {
  registers : list Z;
  precision : Z;
}.

(** [optimal_register_count]: the square is a product. *)
Definition optimal_register_count (relative_error : Z) : res Z :=
  let ratio := fdiv 0x3ff0a3d70a3d70a4 relative_error in
  match f64_ceil (fmul ratio ratio) with
  | None => Err InvalidValue
  | Some count =>
      if 2 ^ 64 <? count then Err InvalidValue
      else
        match checked_next_power_of_two (Z.max (2 ^ MIN_PRECISION) (saturate_usize 0 (Some count))) with
        | None => Err InvalidValue
        | Some count => if MAX_PRECISION <? Z.log2 count then Err InvalidValue else Ok count
        end
  end.

Definition hll_with_relative_error (relative_error : Z) : res HyperLogLog :=
  if f64_le relative_error f64_0 || f64_nan relative_error then Err InvalidValue
  else
    let? register_count := optimal_register_count relative_error in
    Ok (mk_hll (replicate (Z.to_nat register_count) 0) (Z.log2 register_count)).

Section Hll.
Context {K : Type} (key_hash : StableHasher -> K -> StableHasher).

Definition hll_hash (value : K) : Z :=
  finish (key_hash (new_with_keys (fst HLL_HASH_KEYS) (snd HLL_HASH_KEYS)) value).

(** [u64::leading_zeros] of a number that is not zero. *)
Definition leading_zeros (v : Z) : Z := 63 - Z.log2 v.

Definition hll_index (precision hash : Z) : nat := Z.to_nat (Z.shiftr hash (64 - precision)).

Definition hll_rank (precision hash : Z) : Z :=
  let remaining := as_u 64 (Z.shiftl hash precision) in
  if remaining =? 0 then 64 - precision + 1 else leading_zeros remaining + 1.

Definition hll_add (self : HyperLogLog) (value : K) : res HyperLogLog :=
  let hash := hll_hash value in
  let idx := hll_index (precision self) hash in
  let rank := hll_rank (precision self) hash in
  let? register := vec_get (registers self) idx in
  let? registers := vec_set (registers self) idx (Z.max register rank) in
  Ok (mk_hll registers (precision self)).

(** * The registers *)

Record hll_ok (self : HyperLogLog) : Prop := {
  hll_precision : MIN_PRECISION <= precision self <= MAX_PRECISION;
  hll_length : length (registers self) = Z.to_nat (2 ^ precision self);
  hll_registers : Forall (fun r => 0 <= r <= 64 - precision self + 1) (registers self);
}.

Hypothesis hash_range : forall value, in_u 64 (hll_hash value).

Lemma hll_index_lt (p h : Z) : 0 <= p <= 64 -> in_u 64 h -> (hll_index p h < Z.to_nat (2 ^ p))%nat.
Proof.
  intros Hp [H0 H1]. unfold hll_index. rewrite Z.shiftr_div_pow2 by lia.
  assert (0 < 2 ^ p) by (apply Z.pow_pos_nonneg; lia).
  assert (0 < 2 ^ (64 - p)) by (apply Z.pow_pos_nonneg; lia).
  assert (2 ^ 64 = 2 ^ (64 - p) * 2 ^ p) as E by (rewrite <- Z.pow_add_r by lia; f_equal; lia).
  assert (0 <= h / 2 ^ (64 - p)) by (apply Z.div_pos; lia).
  assert (h / 2 ^ (64 - p) < 2 ^ p) by (apply Z.div_lt_upper_bound; lia). lia.
Qed.

Lemma hll_rank_range (p h : Z) : MIN_PRECISION <= p <= MAX_PRECISION -> 0 <= h -> 1 <= hll_rank p h <= 64 - p + 1.
Proof.
  unfold MIN_PRECISION, MAX_PRECISION. intros Hp Hh. unfold hll_rank, leading_zeros, as_u.
  rewrite Z.shiftl_mul_pow2 by lia. set (r := (h * 2 ^ p) mod 2 ^ 64).
  destruct (Z.eqb_spec r 0) as [_|Hr]; [lia|].
  assert (0 < r < 2 ^ 64) as Hr' by (pose proof (Z.mod_pos_bound (h * 2 ^ p) (2 ^ 64)); lia).
  assert (Z.log2 r < 64) by (apply Z.log2_lt_pow2; lia).
  assert (0 < 2 ^ p) by (apply Z.pow_pos_nonneg; lia).
  assert (0 < 2 ^ (64 - p)) by (apply Z.pow_pos_nonneg; lia).
  assert (2 ^ p <= r) as Hge.
  { assert (exists q, r = q * 2 ^ p) as [q Hq].
    { exists (h mod 2 ^ (64 - p)). unfold r. replace 64 with (p + (64 - p)) at 1 by lia.
      rewrite Z.pow_add_r, (Z.mul_comm h), Z.mul_mod_distr_l by lia. lia. }
    assert (0 < q * 2 ^ p) as Hq0 by lia. apply Z.mul_pos_cancel_r in Hq0; [|done].
    rewrite Hq, Z.mul_comm. apply Z.le_mul_diag_r; lia. }
  apply Z.log2_le_pow2 in Hge; lia.
Qed.

Lemma hll_add_spec (self : HyperLogLog) (value : K) :
  hll_ok self ->
  exists r, registers self !! hll_index (precision self) (hll_hash value) = Some r /\
    hll_add self value = Ok (mk_hll
      (<[hll_index (precision self) (hll_hash value) := Z.max r (hll_rank (precision self) (hll_hash value))]> (registers self))
      (precision self)).
Proof.
  intros [Hp Hl _]. pose proof (hash_range value) as Hh.
  assert (hll_index (precision self) (hll_hash value) < length (registers self))%nat as Hi.
  { rewrite Hl. apply hll_index_lt; [unfold MIN_PRECISION, MAX_PRECISION in Hp; lia|done]. }
  destruct (lookup_lt_is_Some_2 _ _ Hi) as [r Hr]. exists r. split; [done|]. unfold hll_add.
  rewrite (vec_get_Some _ _ _ Hr). cbn [rbind]. by rewrite vec_set_lt.
Qed.

Lemma hll_add_ok (self self' : HyperLogLog) (value : K) :
  hll_ok self -> hll_add self value = Ok self' -> hll_ok self' /\ precision self' = precision self.
Proof.
  intros Hok H. destruct (hll_add_spec self value Hok) as (r & Hr & E). rewrite E in H. simplify_eq.
  destruct Hok as [Hp Hl Hf]. split; [|done]. split; simpl; [done|by rewrite length_insert|].
  apply Forall_insert; [done|]. pose proof (Forall_lookup_1 _ _ _ _ Hf Hr). simpl in *.
  destruct (hash_range value) as [H0 _]. pose proof (hll_rank_range (precision self) _ Hp H0). lia.
Qed.

Lemma hll_add_total (self : HyperLogLog) (value : K) : hll_ok self -> exists self', hll_add self value = Ok self'.
Proof. intros Hok. destruct (hll_add_spec self value Hok) as (r & _ & ->). by eexists. Qed.

(** The register file after a sequence of values, by position. *)
Definition hll_all (self : HyperLogLog) (values : list K) : res HyperLogLog := rfold hll_add self values.

Fixpoint rank_max (p : Z) (i : nat) (values : list K) : Z :=
  match values with
  | [] => 0
  | v :: values =>
      Z.max (if decide (hll_index p (hll_hash v) = i) then hll_rank p (hll_hash v) else 0) (rank_max p i values)
  end.

Lemma hll_all_spec (self : HyperLogLog) (values : list K) :
  hll_ok self ->
  exists self', hll_all self values = Ok self' /\ hll_ok self' /\ precision self' = precision self /\
    forall i, registers self' !! i = (fun r => Z.max r (rank_max (precision self) i values)) <$> registers self !! i.
Proof.
  unfold hll_all. revert self. induction values as [|v values IH]; intros self Hok.
  { exists self. split_and!; [done|done|done|]. intros i. destruct (registers self !! i) as [r|] eqn:E; [|done].
    simpl. pose proof (Forall_lookup_1 _ _ _ _ (hll_registers _ Hok) E). f_equal. simpl in *. lia. }
  destruct (hll_add_spec self v Hok) as (r & Hr & Ea). destruct (hll_add_ok self _ v Hok Ea) as [Hok1 Hp1].
  simpl. rewrite Ea. cbn [rbind]. destruct (IH _ Hok1) as (self' & -> & Hok' & Hp' & Hlook).
  exists self'. split_and!; [done|done|by rewrite Hp'|]. intros i. rewrite Hlook. simpl.
  destruct (decide (hll_index (precision self) (hll_hash v) = i)) as [<-|Hne].
  - rewrite list_lookup_insert_eq by (by eapply lookup_lt_Some). rewrite Hr. simpl. f_equal. lia.
  - rewrite list_lookup_insert_ne by done. destruct (registers self !! i) as [x|] eqn:E; [|done]. simpl. f_equal.
    pose proof (Forall_lookup_1 _ _ _ _ (hll_registers _ Hok) E). simpl in *.
    assert (0 <= rank_max (precision self) i values); [|lia].
    clear. induction values; simpl; lia.
Qed.

Lemma rank_max_le (p : Z) (i : nat) (vs ws : list K) :
  (forall v, v ∈ vs -> v ∈ ws) -> rank_max p i vs <= rank_max p i ws.
Proof.
  assert (Hin : forall v ws, v ∈ ws ->
    (if decide (hll_index p (hll_hash v) = i) then hll_rank p (hll_hash v) else 0) <= rank_max p i ws).
  { intros v ws0. induction ws0 as [|w ws0 IH]; [by intros ?%not_elem_of_nil|].
    intros [->|H]%elem_of_cons; simpl; [lia|]. specialize (IH H). lia. }
  assert (H0 : 0 <= rank_max p i ws) by (clear; induction ws; simpl; lia).
  induction vs as [|v vs IH]; intros Hsub; simpl; [done|].
  pose proof (Hin v ws (Hsub v ltac:(set_solver))). specialize (IH ltac:(set_solver)). lia.
Qed.

(** Two sequences with the same values, in any order and with any repetitions,
    leave the same registers, and no addition panics. *)
Lemma hll_distinct (self : HyperLogLog) (vs ws : list K) :
  hll_ok self -> (forall v, v ∈ vs <-> v ∈ ws) ->
  exists self', hll_all self vs = Ok self' /\ hll_all self ws = Ok self' /\ hll_ok self'.
Proof.
  intros Hok Heq. destruct (hll_all_spec self vs Hok) as (s1 & H1 & Hok1 & Hp1 & L1).
  destruct (hll_all_spec self ws Hok) as (s2 & H2 & Hok2 & Hp2 & L2).
  exists s1. split_and!; [done| |done]. rewrite H2. f_equal.
  assert (registers s2 = registers s1) as E.
  { apply list_eq. intros i. rewrite L1, L2. destruct (registers self !! i) as [r|]; [|done]. simpl. f_equal.
    pose proof (rank_max_le (precision self) i vs ws ltac:(set_solver)).
    pose proof (rank_max_le (precision self) i ws vs ltac:(set_solver)). lia. }
  destruct s1, s2. simpl in *. congruence.
Qed.
End Hll.

(** * The estimate *)

Definition hll_alpha (count : Z) : Z :=
  if count =? 16 then 0x3fe589374bc6a7f0
  else if count =? 32 then 0x3fe64dd2f1a9fbe7
  else if count =? 64 then 0x3fe6b020c49ba5e3
  else fdiv 0x3fe714e3bcd35a86 (fadd f64_1 (fdiv 0x3ff14395810624dd (f64_of count))).

Definition hll_estimate {LM : Libm} (self : HyperLogLog) : Z :=
  let len := Z.of_nat (length (registers self)) in
  let register_count := f64_of len in
  let zero_registers := Z.of_nat (length (List.filter (fun r => r =? 0) (registers self))) in
  let raw_estimate :=
    fdiv (fmul (fmul (hll_alpha len) register_count) register_count)
      (fold_left (fun acc r => fadd acc (fdiv f64_1 (f64_of (2 ^ r)))) (registers self) f64_0) in
  let estimate :=
    if f64_le raw_estimate (fmul 0x4004000000000000 register_count) && (0 <? zero_registers)
    then fmul register_count (f64_ln (fdiv register_count (f64_of zero_registers)))
    else raw_estimate in
  round_usize estimate.
