(* ===== verification/Histogram.v ===== *)
(** Histograms (src/src/optimizer/core/histogram.rs): the builder that feeds
    every value of a column to the four sketches and cuts the quantile sketch
    into buckets of equal depth, and the estimate of how many rows fall into
    ranges, which walks buckets and ranges side by side. *)

From S2P Require Import Prelude MachineInt Types Operators Value Serdes StableHash ValueHash MemComparable TableCodec.
From S2P Require Import FloatArith Chrono Evaluators Ranges Slices F64 TopN CmSketch Kll Hll.
From stdpp Require Import base sets list list_numbers numbers option sorting.
From Stdlib Require Import ZArith Lia.
Local Open Scope Z_scope.

Definition ANALYZE_STATISTICS_CONFIDENCE : Z := 0x3fee666666666666.
Definition ANALYZE_STATISTICS_RELATIVE_ERROR : Z := 0x3f50624dd2f1a9fc.

(** * Sizing the sketches *)

(** [(2.0 / relative_error).ceil()] as the sketches check it. *)
Definition capacity_for_relative_error (relative_error : Z) : res Z :=
  match f64_ceil (fdiv f64_2 relative_error) with
  | None => Err InvalidValue
  | Some capacity => if 2 ^ 64 <? capacity then Err InvalidValue else Ok (saturate_usize 0 (Some capacity))
  end.

Definition kll_with_relative_error (relative_error : Z) : res KllSketchBuilder :=
  if f64_le relative_error f64_0 || f64_nan relative_error then Err InvalidValue
  else
    let? capacity := capacity_for_relative_error relative_error in
    kll_new (Z.to_nat capacity).

Definition optimal_relative_width (relative_error : Z) : res Z :=
  let? width := capacity_for_relative_error relative_error in
  match checked_next_power_of_two (Z.max 2 width) with
  | Some width => Ok width
  | None => Err InvalidValue
  end.

Definition optimal_k_num {LM : Libm} (probability : Z) : Z :=
  Z.max 1 (ceil_usize (fdiv (f64_ln (fsub f64_1 probability)) (f64_ln f64_half))).

Definition cms_with_relative_error {LM : Libm} (probability relative_error : Z) : res CountMinSketch :=
  if negb (f64_le f64_0 probability && f64_lt probability f64_1) then Err InvalidValue
  else if f64_le relative_error f64_0 || f64_nan relative_error then Err InvalidValue
  else
    let? width := optimal_relative_width relative_error in
    Ok (with_shape (Z.to_nat width) (Z.to_nat (optimal_k_num probability))).

(** * Correlation of a quantile sketch *)

Definition calc_correlation (corr_xy_sum values_len : Z) : Z :=
  if values_len =? 1 then f64_1
  else
    let item_count := f64_of values_len in
    let corr_x_sum := fdiv (fmul (fsub item_count f64_1) item_count) f64_2 in
    let corr_x2_sum :=
      fdiv (fmul (fmul (fsub item_count f64_1) item_count) (fsub (fmul f64_2 item_count) f64_1)) (f64_of 6) in
    fdiv (fsub (fmul item_count corr_xy_sum) (fmul corr_x_sum corr_x_sum))
         (fsub (fmul item_count corr_x2_sum) (fmul corr_x_sum corr_x_sum)).

Definition correlation (self : KllSketch) : Z :=
  if sketch_len self =? 0 then f64_0
  else
    let '(corr_xy_sum, _) :=
      fold_left
        (fun '(corr_xy_sum, rank) item =>
           let next_rank := rank + weighted_weight item in
           let rank_sum :=
             fdiv (fmul (f64_of (rank + next_rank - 1)) (f64_of (weighted_weight item))) f64_2 in
           (fadd corr_xy_sum (fmul rank_sum (f64_of (weighted_ordinal item))), next_rank))
        (sketch_items self) (f64_0, 0) in
    calc_correlation corr_xy_sum (sketch_len self).

(** * Building *)

Record HistogramMeta := mk_histogram_meta {
  hm_index_id : Z;
  number_of_distinct_value : Z;
  hm_null_count : Z;
  hm_values_len : Z;
  buckets_len : Z;
  hm_correlation : Z;
}.

Record Bucket := mk_bucket {
  lower : DataValue;
  upper : DataValue;
  bucket_count : Z;
}.

(** The cached comparator is a function of the first bucket. *)
Record Histogram := mk_histogram {
  h_meta : HistogramMeta;
  buckets : list Bucket;
}.

Record HistogramBuilder := mk_histogram_builder {
  index_id : Z;
  null_count : Z;
  values_len : Z;
  quantile : KllSketchBuilder;
  hb_sketch : CountMinSketch;
  hll : HyperLogLog;
  hb_top_n : ColumnTopN;
}.

(** One bucket per index in [idxs], two values each. The products are exact
    while the number of buckets times the number of values fits [usize]. *)
Fixpoint make_buckets (number_of_buckets values_len : Z) (idxs : list nat) (values : list (option DataValue))
  : res (list Bucket) :=
  match idxs with
  | [] => Ok []
  | i :: idxs =>
      let i := Z.of_nat i in
      let lower_rank := i * values_len / number_of_buckets in
      let upper_rank := (i + 1) * values_len / number_of_buckets - 1 in
      match values with
      | Some lower :: Some upper :: values =>
          let? buckets := make_buckets number_of_buckets values_len idxs values in
          Ok (mk_bucket lower upper (upper_rank - lower_rank + 1) :: buckets)
      | _ => Err InvalidValue
      end
  end.

Definition bucket_ranks (number_of_buckets values_len : Z) (idxs : list nat) : list Z :=
  concat (map (fun i =>
    let i := Z.of_nat i in
    [i * values_len / number_of_buckets; (i + 1) * values_len / number_of_buckets - 1]) idxs).

Section Build.
Context {OF : OrderedFloat} {FH : OrderedFloatHash} {LM : Libm}.

Definition histogram_new (index_id : Z) (relative_error : Z) : res HistogramBuilder :=
  let? quantile := kll_with_relative_error relative_error in
  let? sketch := cms_with_relative_error ANALYZE_STATISTICS_CONFIDENCE relative_error in
  let? hll := hll_with_relative_error relative_error in
  Ok (mk_histogram_builder index_id 0 0 quantile sketch hll top_n_default).

Definition histogram_append (self : HistogramBuilder) (value : DataValue) : res HistogramBuilder :=
  if is_null value then
    Ok (mk_histogram_builder (index_id self) (null_count self + 1) (values_len self) (quantile self)
          (hb_sketch self) (hll self) (hb_top_n self))
  else
    let? sketch := increment hash_value (hb_sketch self) value in
    let? hll := hll_add hash_value (hll self) value in
    let? top_n := add_with_size (hb_top_n self) ANALYZE_STATISTICS_TOP_N_SIZE value 1 in
    let? quantile := kll_insert (quantile self) value in
    Ok (mk_histogram_builder (index_id self) (null_count self) (values_len self + 1) quantile sketch hll top_n).

Definition histogram_build (self : HistogramBuilder) (number_of_buckets : nat)
  : res (Histogram * CountMinSketch * ColumnTopN) :=
  let n := Z.of_nat number_of_buckets in
  if n =? 0 then Err InvalidValue
  else if values_len self <? n then Err (TooManyBuckets n (values_len self))
  else
    let? quantile := kll_build (quantile self) in
    let correlation := correlation quantile in
    let idxs := seq 0 number_of_buckets in
    let values := values_at_ranks quantile (bucket_ranks n (values_len self) idxs) in
    let? buckets := make_buckets n (values_len self) idxs values in
    let? sketch := add hash_value (hb_sketch self) DataValue.Null (null_count self) in
    let distinct := Z.max 1 (Z.min (hll_estimate (hll self)) (values_len self)) in
    let? top_n := finish_with_size (hb_top_n self) ANALYZE_STATISTICS_TOP_N_SIZE in
    Ok (mk_histogram
          (mk_histogram_meta (index_id self) distinct (null_count self) (values_len self)
             (Z.of_nat (length buckets)) correlation) buckets,
        sketch, top_n).
End Build.

Definition histogram_from_parts (meta : HistogramMeta) (bs : list Bucket) : res Histogram :=
  if negb (buckets_len meta =? Z.of_nat (length bs)) then Err InvalidValue else Ok (mk_histogram meta bs).

Definition histogram_into_parts (self : Histogram) : HistogramMeta * list Bucket := (h_meta self, buckets self).

(** * The buckets *)

Definition bounds (bs : list Bucket) : list DataValue := concat (map (fun b => [lower b; upper b]) bs).

Definition sum_bucket_counts (bs : list Bucket) : Z := foldr (fun b acc => bucket_count b + acc) 0 bs.

Section Buckets.
Context {OF : OrderedFloat}.

Lemma rank_value_mono (vs : list DataValue) (items : list KllWeightedItem) (mn mx : DataValue) (r1 r2 : Z) (v1 v2 : DataValue) :
  pairwise vs -> StronglySorted (item_le weighted_value) items ->
  Forall (fun it => 0 < weighted_weight it /\ weighted_value it ∈ vs) items ->
  bound_ok vs (Some mn) vle -> bound_ok vs (Some mx) (fun m v => vle v m) -> 0 <= r1 <= r2 ->
  rank_value (Z.of_nat (length vs)) items mn mx r1 v1 -> rank_value (Z.of_nat (length vs)) items mn mx r2 v2 ->
  vle v1 v2.
Proof.
  intros Hp Hs Hf Hmn Hmx Hr H1 H2.
  pose proof (rank_value_in vs items mn mx r1 v1 Hf (proj1 Hmn) (proj1 Hmx) H1) as Hin1.
  pose proof (rank_value_in vs items mn mx r2 v2 Hf (proj1 Hmn) (proj1 Hmx) H2) as Hin2.
  unfold rank_value in *. destruct (Z.eqb_spec r1 0) as [->|]; [subst; by apply Hmn|].
  rewrite (proj2 (Z.eqb_neq r2 0)) in H2 by lia.
  destruct (Z.leb_spec (Z.of_nat (length vs)) (r2 + 1)); [subst; by apply Hmx|].
  rewrite (proj2 (Z.leb_gt _ _)) in H1 by lia.
  destruct H1 as (i1 & (pre1 & post1 & E1 & Hlt1 & Hle1) & ->).
  destruct H2 as (i2 & (pre2 & post2 & E2 & Hlt2 & Hle2) & ->).
  destruct (Nat.lt_trichotomy (length pre1) (length pre2)) as [Hlt|[Heq|Hgt]].
  - apply (StronglySorted_lookup_lt (item_le weighted_value) items (length pre1) (length pre2)); [done|done|..].
    + rewrite E1. by apply list_lookup_middle.
    + rewrite E2. by apply list_lookup_middle.
  - rewrite E1 in E2. apply app_inj_1 in E2 as [_ [= -> _]]; [|done]. apply vle_refl. by apply Hp.
  - exfalso. assert (exists mid, pre1 = pre2 ++ i2 :: mid) as [mid ->].
    { exists (drop (S (length pre2)) pre1).
      assert (pre1 !! length pre2 = Some i2) as Hl.
      { rewrite <- (lookup_app_l pre1 (i1 :: post1)) by done. rewrite <- E1, E2. by apply list_lookup_middle. }
      assert (take (length pre2) pre1 = pre2) as Ht.
      { rewrite <- (take_app_le pre1 (i1 :: post1)) by lia. rewrite <- E1, E2. by apply take_app_length. }
      rewrite <- Ht at 1. symmetry. by apply take_drop_middle. }
    rewrite E1 in Hf. rewrite <- app_assoc in Hf. apply Forall_app in Hf as [_ Hf].
    simpl in Hf. apply Forall_cons in Hf as [_ Hf]. apply Forall_app in Hf as [Hf _].
    assert (0 <= wsum mid).
    { eapply wcnt_le_wsum with (P := fun _ => true). eapply Forall_impl; [exact Hf|]. by intros ? []. }
    unfold wsum in *. rewrite wcnt_app in Hlt1. simpl in Hlt1. lia.
Qed.

Lemma rank_value_last (vs : list DataValue) (items : list KllWeightedItem) (mn mx : DataValue) (v w : DataValue) :
  bound_ok vs (Some mn) vle -> bound_ok vs (Some mx) (fun m v => vle v m) ->
  rank_value (Z.of_nat (length vs)) items mn mx (Z.of_nat (length vs) - 1) v -> w ∈ vs -> vle w v.
Proof.
  intros [Hmn Hle] [Hmx Hge]. unfold rank_value. destruct (Z.eqb_spec (Z.of_nat (length vs) - 1) 0) as [E|E].
  - intros -> Hw. destruct vs as [|x [|y vs]]; simpl in E; try lia.
    apply list_elem_of_singleton in Hw as ->. apply list_elem_of_singleton in Hmn as ->.
    apply Hle. by apply list_elem_of_singleton.
  - rewrite (proj2 (Z.leb_le _ _)) by lia. intros ->. apply Hge.
Qed.

Lemma sorted_by_rank (R : Z -> DataValue -> Prop) (rs : list Z) (vs : list DataValue) :
  (forall r1 r2 v1 v2, r1 ∈ rs -> r2 ∈ rs -> r1 <= r2 -> R r1 v1 -> R r2 v2 -> vle v1 v2) ->
  Forall2 R rs vs -> StronglySorted Z.le rs -> StronglySorted vle vs.
Proof.
  intros Hmono HF. induction HF as [|r v rs vs Hr HF IH]; intros Hs; [constructor|].
  apply StronglySorted_cons in Hs as [Hle Hs]. constructor.
  - apply IH; [|done]. intros r1 r2 v1 v2 H1 H2. apply Hmono; by right.
  - apply Forall_forall. intros w Hw. apply list_elem_of_lookup in Hw as [i Hi].
    destruct (Forall2_lookup_r _ _ _ _ _ HF Hi) as (r2 & Hr2 & HR). rewrite Forall_forall in Hle.
    pose proof (list_elem_of_lookup_2 _ _ _ Hr2) as Hin. apply (Hmono r r2); [by left|by right|by apply Hle|done|done].
Qed.

Lemma make_buckets_spec (R : Z -> DataValue -> Prop) (n len : Z) (idxs : list nat) :
  forall values,
  Forall2 (fun r ov => exists v, ov = Some v /\ R r v) (bucket_ranks n len idxs) values ->
  exists bs, make_buckets n len idxs values = Ok bs /\ Forall2 R (bucket_ranks n len idxs) (bounds bs) /\
    Forall2 (fun i b => bucket_count b = (Z.of_nat i + 1) * len / n - Z.of_nat i * len / n) idxs bs.
Proof.
  unfold bucket_ranks, bounds. induction idxs as [|i idxs IH]; intros values HF; simpl in HF |- *.
  { exists []. split; [done|]. split; constructor. }
  inversion HF as [|? ? ? values1 (v1 & -> & H1) HF1]; subst.
  inversion HF1 as [|? ? ? values2 (v2 & -> & H2) HF2]; subst.
  destruct (IH values2 HF2) as (bs & -> & HF3 & HF4). cbn [rbind]. eexists. split; [done|]. split.
  - simpl. constructor; [done|]. constructor; [done|done].
  - constructor; [simpl; lia|done].
Qed.

(** ** The ranks *)

Lemma rank_step (n len i : Z) : 0 < n <= len -> 0 <= i -> i * len / n + 1 <= (i + 1) * len / n.
Proof.
  intros Hn Hi. rewrite Z.mul_add_distr_r, Z.mul_1_l. rewrite <- (Z.div_add (i * len) 1 n) by lia.
  apply Z.div_le_mono; lia.
Qed.

Lemma bucket_ranks_cons (n len : Z) (k m : nat) :
  bucket_ranks n len (seq k (S m)) =
  (Z.of_nat k * len / n) :: ((Z.of_nat k + 1) * len / n - 1) :: bucket_ranks n len (seq (S k) m).
Proof. done. Qed.

Lemma bucket_ranks_spec (n len : Z) (m k : nat) :
  0 < n <= len ->
  StronglySorted Z.le (bucket_ranks n len (seq k m)) /\
  Forall (fun r => Z.of_nat k * len / n <= r < Z.of_nat (k + m) * len / n) (bucket_ranks n len (seq k m)).
Proof.
  intros Hn. revert k. induction m as [|m IH]; intros k; [split; constructor|].
  destruct (IH (S k)) as [Hs Hf]. rewrite bucket_ranks_cons.
  pose proof (rank_step n len (Z.of_nat k) Hn ltac:(lia)) as Hstep.
  replace (Z.of_nat (S k)) with (Z.of_nat k + 1) in Hf by lia. replace (S k + m)%nat with (k + S m)%nat in Hf by lia.
  assert ((Z.of_nat k + 1) * len / n <= Z.of_nat (k + S m) * len / n) as Hmono.
  { apply Z.div_le_mono; [lia|]. apply Z.mul_le_mono_nonneg_r; lia. }
  split.
  - constructor; [constructor; [done|]|constructor; [lia|]]; (eapply Forall_impl; [exact Hf|]); simpl; lia.
  - constructor; [lia|]. constructor; [lia|]. eapply Forall_impl; [exact Hf|]. simpl. lia.
Qed.

Lemma bucket_counts_sum (n len : Z) (m k : nat) (bs : list Bucket) :
  0 < n <= len ->
  Forall2 (fun i b => bucket_count b = (Z.of_nat i + 1) * len / n - Z.of_nat i * len / n) (seq k m) bs ->
  sum_bucket_counts bs = Z.of_nat (k + m) * len / n - Z.of_nat k * len / n /\ Forall (fun b => 1 <= bucket_count b) bs.
Proof.
  intros Hn. revert k bs. induction m as [|m IH]; intros k bs HF; simpl in HF.
  { inversion HF; subst. rewrite Nat.add_0_r. simpl. split; [lia|constructor]. }
  inversion HF as [|? b ? bs' Hb HF']; subst. destruct (IH _ _ HF') as [E Hf].
  replace (S k + m)%nat with (k + S m)%nat in E by lia. replace (Z.of_nat (S k)) with (Z.of_nat k + 1) in E by lia.
  pose proof (rank_step n len (Z.of_nat k) Hn ltac:(lia)). simpl. split; [lia|]. constructor; [lia|done].
Qed.
End Buckets.

(** * The builder *)

Section Builder.
Context {OF : OrderedFloat} {FH : OrderedFloatHash} {LM : Libm}.

Definition non_null (values : list DataValue) : list DataValue := List.filter (fun v => negb (is_null v)) values.

(** Each sketch has seen the values [vs], and the nulls are counted apart. *)
Record builder_inv (vs : list DataValue) (nulls : Z) (self : HistogramBuilder) : Prop := {
  bi_nulls : null_count self = nulls;
  bi_len : values_len self = Z.of_nat (length vs);
  bi_quantile : kll_inv vs (quantile self);
  bi_sketch : sketch_ok (hb_sketch self);
  bi_covers : covers hash_value dv_eq (map (fun v => (v, 1)) vs) (hb_sketch self);
  bi_hll : hll_ok (hll self);
  bi_top_n : tracks ANALYZE_STATISTICS_TOP_N_SIZE (map (fun v => (v, 1)) vs) (hb_top_n self);
}.

Lemma hll_hash_range (v : DataValue) : in_u 64 (hll_hash hash_value v).
Proof. apply finish_in_u, hash_value_ok, new_with_keys_ok; by unfold in_u. Qed.

Lemma total_ones (vs : list DataValue) : TopN.total (map (fun v => (v, 1)) vs) <= Z.of_nat (length vs).
Proof. induction vs as [|v vs IH]; simpl; [done|]. case_match; lia. Qed.

Lemma map_fst_ones (vs : list DataValue) : map fst (map (fun v => (v, 1)) vs) = vs.
Proof. rewrite map_map. apply map_id. Qed.

Lemma append_inv (vs : list DataValue) (nulls : Z) (self : HistogramBuilder) (value : DataValue) :
  builder_inv vs nulls self -> Z.of_nat (length vs) < USIZE_MAX -> pairwise (vs ++ non_null [value]) ->
  exists self', histogram_append self value = Ok self' /\
    builder_inv (vs ++ non_null [value]) (nulls + (if is_null value then 1 else 0)) self'.
Proof.
  intros [Hn Hl Hq Hs Hc Hh Ht] Hmax Hp. unfold histogram_append, non_null in *. simpl in *.
  destruct (is_null value) eqn:Ev; simpl in *.
  { eexists. split; [done|]. rewrite app_nil_r in *. split; simpl; try done. lia. }
  destruct (add_spec hash_value (hb_sketch self) value 1 Hs) as (sk & lowest & Hsk & Hs' & (_ & _ & Ekn) & Hlow & Hcell).
  pose proof (add_covers hash_value dv_eq (fun k k' st => hash_value_eq k k' st) _ (hb_sketch self) sk value 1 lowest
    ltac:(done) Hc Ekn Hlow Hcell) as Hc'. unfold increment. rewrite Hsk. cbn [rbind].
  destruct (hll_add_total hash_value hll_hash_range (hll self) value Hh) as [hl Hhl]. rewrite Hhl. cbn [rbind].
  destruct (hll_add_ok hash_value hll_hash_range _ _ _ Hh Hhl) as [Hh' _].
  destruct (tracks_step ANALYZE_STATISTICS_TOP_N_SIZE (map (fun v => (v, 1)) vs) (hb_top_n self) value 1)
    as (tn & -> & Ht'); [unfold ANALYZE_STATISTICS_TOP_N_SIZE; lia|by apply Forall_map, Forall_true|lia| | |done|].
  { change [(value, 1)] with (map (fun v => (v, 1)) [value]). rewrite <- map_app.
    intros a b. rewrite map_fst_ones. intros Ha Hb _ _. by apply Hp. }
  { rewrite total_snoc, Ev. pose proof (total_ones vs). lia. }
  cbn [rbind]. destruct (insert_inv vs (quantile self) value Hq Hp) as (q & -> & Hq' & _). cbn [rbind].
  eexists. split; [done|]. split; simpl; try done; [lia|rewrite length_app; simpl; lia|by rewrite map_app|].
  by rewrite map_app.
Qed.

(** ** The empty builder *)

Lemma next_power_spec (n p : Z) : checked_next_power_of_two n = Some p -> exists k, 0 <= k /\ p = 2 ^ k /\ Z.max 1 n <= p.
Proof.
  unfold checked_next_power_of_two. case_match; [|done]. intros [= <-].
  destruct (Z.leb_spec n 1); [exists 0; simpl; lia|]. exists (Z.log2_up n).
  pose proof (Z.log2_up_nonneg n). pose proof (Z.log2_up_spec n). split_and!; [done|done|lia].
Qed.

Lemma register_count_spec (relative_error c : Z) :
  optimal_register_count relative_error = Ok c -> exists k, MIN_PRECISION <= k <= MAX_PRECISION /\ c = 2 ^ k.
Proof.
  unfold optimal_register_count. cbv zeta.
  generalize (f64_ceil (fmul (fdiv 0x3ff0a3d70a3d70a4 relative_error) (fdiv 0x3ff0a3d70a3d70a4 relative_error))).
  intros [x|]; [|discriminate]. destruct (2 ^ 64 <? x); [discriminate|].
  destruct (checked_next_power_of_two _) as [p|] eqn:E; [|discriminate].
  destruct (Z.ltb_spec MAX_PRECISION (Z.log2 p)) as [|Hmax]; [discriminate|]. intros Hc. apply Ok_inj in Hc as <-.
  apply next_power_spec in E as (k & Hk & -> & Hge). rewrite Z.log2_pow2 in Hmax by done.
  exists k. split; [|done]. split; [|done]. apply (Z.pow_le_mono_r_iff 2); unfold MIN_PRECISION in *; lia.
Qed.

Lemma hll_new_ok (relative_error : Z) (h : HyperLogLog) : hll_with_relative_error relative_error = Ok h -> hll_ok h.
Proof.
  unfold hll_with_relative_error. destruct (_ || _); [discriminate|]. intros (c & Hc & Hh)%rbind_ok.
  apply Ok_inj in Hh as <-. apply register_count_spec in Hc as (k & Hk & ->).
  unfold MIN_PRECISION, MAX_PRECISION in *.
  split; cbn [precision registers]; rewrite Z.log2_pow2 by lia.
  - unfold MIN_PRECISION, MAX_PRECISION. lia.
  - apply length_replicate.
  - apply Forall_replicate. lia.
Qed.

Lemma histogram_new_inv (id relative_error : Z) (self : HistogramBuilder) :
  histogram_new id relative_error = Ok self -> builder_inv [] 0 self.
Proof.
  unfold histogram_new. intros (q & Hq & H)%rbind_ok. apply rbind_ok in H as (s & Hs & H).
  apply rbind_ok in H as (h & Hh & [= <-]).
  unfold kll_with_relative_error in Hq. destruct (_ || _); [done|]. apply rbind_ok in Hq as (c & _ & Hq).
  assert (2 <= Z.to_nat c)%nat as Hc2 by (unfold kll_new in Hq; case_decide; [done|lia]).
  destruct (kll_new_inv _ Hc2) as (q' & Hq' & Hinv & _). rewrite Hq in Hq'. simplify_eq.
  unfold cms_with_relative_error in Hs. destruct (negb _); [done|]. destruct (_ || _); [done|].
  apply rbind_ok in Hs as (w & Hw & [= <-]). unfold optimal_relative_width in Hw. apply rbind_ok in Hw as (w0 & _ & Hw).
  destruct (checked_next_power_of_two _) as [p|] eqn:E; [|done]. apply Ok_inj in Hw as <-.
  apply next_power_spec in E as (k & _ & _ & Hge).
  split; simpl; try done.
  - apply with_shape_ok; [lia|]. unfold optimal_k_num. lia.
  - intros key j _. by rewrite with_shape_cell.
  - by apply hll_new_ok in Hh.
  - apply tracks_default.
Qed.

Definition null_total (values : list DataValue) : Z := Z.of_nat (length values) - Z.of_nat (length (non_null values)).

Lemma append_all_inv (id relative_error : Z) (self : HistogramBuilder) (values : list DataValue) :
  histogram_new id relative_error = Ok self -> pairwise (non_null values) -> Z.of_nat (length values) <= USIZE_MAX ->
  exists self', rfold histogram_append self values = Ok self' /\
    builder_inv (non_null values) (null_total values) self'.
Proof.
  intros Hnew. apply histogram_new_inv in Hnew. induction values as [|v values IH] using rev_ind; intros Hp Hl.
  { exists self. done. }
  unfold non_null in *. rewrite List.filter_app in Hp. rewrite length_app in Hl. simpl in Hl.
  destruct IH as (s1 & Hrun & Hinv); [eapply pairwise_sub; [exact Hp|]; set_solver|lia|].
  pose proof (filter_length_le (fun v => negb (is_null v)) values) as Hfl.
  destruct (append_inv _ _ s1 v Hinv) as (s2 & Happ & Hinv2); [lia|done|].
  exists s2. rewrite rfold_app, Hrun. simpl. rewrite Happ. split; [done|]. rewrite List.filter_app.
  replace (null_total (values ++ [v])) with (null_total values + (if is_null v then 1 else 0)); [done|].
  unfold null_total, non_null. rewrite List.filter_app, !length_app. simpl. destruct (is_null v); simpl; lia.
Qed.

(** The values of the buckets' bounds come from the ranks. *)
Lemma build_buckets (vs : list DataValue) (q : KllSketchBuilder) (number_of_buckets : nat) :
  kll_inv vs q -> pairwise vs -> (1 <= number_of_buckets <= length vs)%nat -> Z.of_nat (length vs) <= USIZE_MAX ->
  let n := Z.of_nat number_of_buckets in
  let len := Z.of_nat (length vs) in
  exists s bs, kll_build q = Ok s /\
    make_buckets n len (seq 0 number_of_buckets)
      (values_at_ranks s (bucket_ranks n len (seq 0 number_of_buckets))) = Ok bs /\
    length bs = number_of_buckets /\ sum_bucket_counts bs = len /\ Forall (fun b => 1 <= bucket_count b) bs /\
    Forall (fun v => v ∈ vs) (bounds bs) /\ StronglySorted vle (bounds bs) /\
    forall v, v ∈ vs -> (exists m, head (bounds bs) = Some m /\ vle m v) /\ (exists m, last (bounds bs) = Some m /\ vle v m).
Proof.
  intros Hinv Hp Hn Hmax n len. assert (0 < n <= len) as Hn' by (unfold n, len; lia).
  destruct (kll_build_spec vs q Hinv Hp) as (s & Hb & Hlen & Emin & Emax & Hw & Hs & Hf & _).
  destruct (bucket_ranks_spec n len number_of_buckets 0 Hn') as [Hrs Hrf].
  rewrite Z.mul_0_l, Z.div_0_l, Nat.add_0_l in Hrf by lia. fold n in Hrf. rewrite (Z.mul_comm n), Z.div_mul in Hrf by lia.
  destruct Hinv as [_ _ Hmn Hmx].
  assert (vs <> []) as Hne by (intros ->; simpl in Hn; lia).
  destruct (min_value q) as [mn|] eqn:E1; [|by simpl in Hmn]. destruct (max_value q) as [mx|] eqn:E2; [|by simpl in Hmx].
  set (R := rank_value len (sketch_items s) mn mx).
  destruct (make_buckets_spec R n len (seq 0 number_of_buckets)
    (values_at_ranks s (bucket_ranks n len (seq 0 number_of_buckets)))) as (bs & Hbs & HR & Hcounts).
  { unfold values_at_ranks. rewrite Hlen, Emin, Emax.
    apply (ranks_loop_spec _ _ _ _ _) with (pre := []); [unfold len in *; lia|done|done|done|done|done|].
    eapply Forall_impl; [exact Hrf|]. simpl. intros r Hr0. split; [done|split; [done|]].
    intros H1 H2 H3. unfold wsum in H3. simpl in H3. lia. }
  destruct (bucket_counts_sum n len number_of_buckets 0 bs Hn' Hcounts) as [Hsum Hpos].
  rewrite Z.mul_0_l, Z.div_0_l, Nat.add_0_l in Hsum by lia. fold n in Hsum. rewrite (Z.mul_comm n), Z.div_mul in Hsum by lia.
  exists s, bs. split; [done|]. split; [done|]. split.
  { apply Forall2_length in Hcounts. rewrite length_seq in Hcounts. lia. }
  split; [lia|]. split; [done|]. split; [|split].
  - apply Forall_forall. intros v Hv. apply list_elem_of_lookup in Hv as [i Hi].
    destruct (Forall2_lookup_r _ _ _ _ _ HR Hi) as (r & _ & Hr). eapply rank_value_in; [done|apply Hmn|apply Hmx|exact Hr].
  - apply (sorted_by_rank R (bucket_ranks n len (seq 0 number_of_buckets))); [|done|done].
    intros r1 r2 v1 v2 H1 _ H12. rewrite Forall_forall in Hrf. specialize (Hrf r1 H1).
    apply rank_value_mono; done || lia.
  - intros v Hv. destruct number_of_buckets as [|m]; [lia|]. split.
    + rewrite bucket_ranks_cons in HR. inversion HR as [|? m0 ? ? H0 _]; subst. exists m0. split; [done|].
      unfold R, rank_value in H0. rewrite Z.mul_0_l, Z.div_0_l in H0 by lia. simpl in H0. subst. by apply Hmn.
    + assert (last (bucket_ranks n len (seq 0 (S m))) = Some (len - 1)) as Hlast.
      { rewrite seq_S. unfold bucket_ranks. rewrite map_app, concat_app, last_app. simpl.
        replace ((Z.of_nat m + 1) * len / n) with len; [done|].
        replace (Z.of_nat m + 1) with n by (unfold n; lia). rewrite Z.mul_comm, Z.div_mul; lia. }
      rewrite last_lookup in Hlast. destruct (Forall2_lookup_l _ _ _ _ _ HR Hlast) as (w & Hw' & Hr).
      exists w. split; [by rewrite last_lookup, <- (Forall2_length _ _ _ HR)|].
      eapply rank_value_last; [exact Hmn|exact Hmx|exact Hr|done].
Qed.

(** C34: A histogram built from any sequence of values, nulls among them, whose
    other values compare with each other. Asking for no bucket and for more
    buckets than values are the errors of the code; otherwise building
    succeeds, with the buckets asked for, none of them empty, whose counts add
    up to the number of values; the bounds are values of the column in order,
    from its least to its greatest; nulls are counted apart; and the estimated
    number of distinct values is between one and the number of values. *)
Theorem histogram_build_spec (id relative_error : Z) (fresh : HistogramBuilder) (values : list DataValue)
    (number_of_buckets : nat) :
  histogram_new id relative_error = Ok fresh -> pairwise (non_null values) ->
  Z.of_nat (length values) <= USIZE_MAX ->
  Z.of_nat number_of_buckets * Z.of_nat (length values) <= USIZE_MAX ->
  let vs := non_null values in
  let n := Z.of_nat number_of_buckets in
  let len := Z.of_nat (length vs) in
  exists self, rfold histogram_append fresh values = Ok self /\
    (n = 0 -> histogram_build self number_of_buckets = Err InvalidValue) /\
    (n <> 0 -> len < n -> histogram_build self number_of_buckets = Err (TooManyBuckets n len)) /\
    (0 < n <= len ->
     exists h sketch top_n, histogram_build self number_of_buckets = Ok (h, sketch, top_n) /\
       length (buckets h) = number_of_buckets /\ buckets_len (h_meta h) = n /\
       sum_bucket_counts (buckets h) = len /\ Forall (fun b => 1 <= bucket_count b) (buckets h) /\
       Forall (fun v => v ∈ vs) (bounds (buckets h)) /\ StronglySorted vle (bounds (buckets h)) /\
       (forall v, v ∈ vs -> (exists m, head (bounds (buckets h)) = Some m /\ vle m v) /\
                            (exists m, last (bounds (buckets h)) = Some m /\ vle v m)) /\
       hm_values_len (h_meta h) = len /\ hm_null_count (h_meta h) = null_total values /\
       1 <= number_of_distinct_value (h_meta h) <= len).
Proof.
  intros Hnew Hp Hmax _ vs n len. destruct (append_all_inv id relative_error fresh values Hnew Hp Hmax) as (self & Hrun & Hinv).
  destruct Hinv as [Hn Hl Hq Hs _ _ Ht]. exists self. split; [done|]. unfold histogram_build. rewrite Hl. fold n vs len.
  split; [by intros ->|]. split.
  { intros H0 Hlt. rewrite (proj2 (Z.eqb_neq _ _) H0). by rewrite (proj2 (Z.ltb_lt _ _) Hlt). }
  intros Hb. rewrite (proj2 (Z.eqb_neq _ _)), (proj2 (Z.ltb_ge _ _)) by lia.
  assert (len <= USIZE_MAX) as Hlm.
  { pose proof (filter_length_le (fun v => negb (is_null v)) values). unfold len, vs, non_null. lia. }
  destruct (build_buckets vs (quantile self) number_of_buckets Hq Hp) as
    (q & bs & -> & Hbs & Hlen & Hsum & Hpos & Hin & Hsort & Hends); [unfold n, len in Hb; lia|done|].
  cbn [rbind]. fold n len in Hbs. rewrite Hbs. cbn [rbind].
  destruct (add_spec hash_value (hb_sketch self) DataValue.Null (null_count self) Hs) as (sk & lowest & -> & _). cbn [rbind].
  unfold finish_with_size, prune_to_capacity. rewrite decide_True by apply Ht. cbn [rbind].
  eexists _, _, _. split; [done|]. cbn [h_meta buckets buckets_len hm_values_len hm_null_count number_of_distinct_value].
  split_and!; try done; [by rewrite Hlen|lia|lia].
Qed.
End Builder.

(** A logarithm good enough for a small sketch. *)
Definition tangent_libm : Libm := {| f64_ln := fun x => fsub x f64_1; f64_powf := fun x _ => x |}.

Lemma histogram_build_spec_witness :
  let values := [DataValue.Int32 3; DataValue.Null; DataValue.Int32 1; DataValue.Int32 2; DataValue.Int32 4] in
  exists fresh self h sketch top_n,
    histogram_new (LM := tangent_libm) 7 f64_half = Ok fresh /\
    rfold histogram_append fresh values = Ok self /\
    histogram_build (LM := tangent_libm) self 2 = Ok (h, sketch, top_n) /\
    buckets h = [mk_bucket (DataValue.Int32 1) (DataValue.Int32 2) 2; mk_bucket (DataValue.Int32 3) (DataValue.Int32 4) 2] /\
    sum_bucket_counts (buckets h) = 4 /\ hm_null_count (h_meta h) = 1.
Proof.
  intros values. assert (Hp : pairwise (non_null values)).
  { intros a b Ha Hb. assert (Hi : forall v, v ∈ non_null values -> exists x, v = DataValue.Int32 x).
    { intros v Hv. simpl in Hv. repeat (apply elem_of_cons in Hv as [->|Hv]; [by eexists|]).
      by apply not_elem_of_nil in Hv. }
    destruct (Hi a Ha) as [x ->], (Hi b Hb) as [y ->]. by eexists. }
  destruct (histogram_new (LM := tangent_libm) 7 f64_half) as [fresh|] eqn:Hnew;
    [|vm_compute in Hnew; discriminate Hnew].
  destruct (histogram_build_spec (LM := tangent_libm) 7 f64_half fresh values 2) as (self & Hrun & _ & _ & Hb).
  - exact Hnew.
  - exact Hp.
  - vm_compute. discriminate.
  - vm_compute. discriminate.
  - destruct Hb as (h & sk & tn & Hb & _ & _ & Hsum & _ & _ & _ & _ & _ & Hnulls & _); [vm_compute; split; [reflexivity|discriminate]|].
    exists fresh, self, h, sk, tn. split; [reflexivity|]. split; [exact Hrun|]. split; [exact Hb|].
    split; [|split; [exact Hsum|exact Hnulls]].
    vm_compute in Hnew. injection Hnew as <-. vm_compute in Hrun. injection Hrun as <-.
    vm_compute in Hb. injection Hb as <- _ _. reflexivity.
Defined.
