(* ===== verification/HistogramCount.v ===== *)
(** How many rows fall into ranges ([Histogram::collect_count],
    src/src/optimizer/core/histogram.rs): buckets and sorted ranges are walked
    side by side; a bucket inside a range counts in full, a bucket cut by a
    bound counts by the position of the bound's key between the bucket's keys,
    and a single value counts by the top-N table or the sketch. *)

From S2P Require Import Prelude MachineInt Types Operators Value Serdes StableHash ValueHash MemComparable TableCodec IndexScan.
From S2P Require Import FloatArith Chrono Evaluators Ranges SortExec Slices F64 TopN CmSketch Kll Hll Histogram.
From stdpp Require Import base sets list list_numbers numbers option sorting.
From Stdlib Require Import ZArith Lia.
Local Open Scope Z_scope.

(** * Where a key falls between two keys *)

(** Eight bytes from [prefix] on, missing bytes as zero. *)
Definition coordinate (prefix : nat) (bytes : list Z) : Z :=
  foldl (fun value i => Z.lor (as_u 64 (Z.shiftl value 8)) (default 0 (bytes !! (prefix + i)%nat))) 0 (seq 0 8).

Fixpoint common_prefix (a b : list Z) : nat :=
  match a, b with
  | x :: a, y :: b => if x =? y then S (common_prefix a b) else O
  | _, _ => O
  end.

(** The fraction once the three keys are encoded; a difference below zero
    would be an overflow. *)
Definition fraction_of_keys (lower upper key : list Z) : res Z :=
  if match lex_cmp key lower with Gt => false | _ => true end then Ok f64_0
  else if match lex_cmp key upper with Lt => false | _ => true end then Ok f64_1
  else
    let prefix := common_prefix lower upper in
    let lower := coordinate prefix lower in
    let upper := coordinate prefix upper in
    let key := coordinate prefix key in
    if (key <? lower) || (upper <? lower) then Err Panic
    else Ok (fdiv (f64_of (key - lower)) (f64_of (upper - lower))).

Definition encoded_fraction (start stop value : DataValue) (is_upper : bool) : res Z :=
  let? lower := memcomparable_encode start in
  let? upper := memcomparable_encode stop in
  let? key := memcomparable_encode value in
  let key := if is_upper && (match value with DataValue.Tuple _ => true | _ => false end)
             then key ++ [BOUND_MAX_TAG] else key in
  fraction_of_keys lower upper key.

Definition subtract_endpoint_count (count endpoint_count : Z) : Z :=
  if endpoint_count <? count then saturating_sub count endpoint_count
  else if (endpoint_count =? count) && (1 <? count) then count - 1
  else count.

Definition scope_lower_includes_null (min : Bound DataValue) : bool :=
  match min with
  | Unbounded => true
  | Included value => is_null value
  | Excluded _ => false
  end.

Section Count.
Context {OF : OrderedFloat} {FH : OrderedFloatHash} {LM : Libm} {CH : Chrono}.

(** * Comparing with bounds *)

Record BoundComparator := mk_comparator {
  cmp_lt : BinaryEvaluatorRef;
  cmp_lte : BinaryEvaluatorRef;
  cmp_gt : BinaryEvaluatorRef;
  cmp_gte : BinaryEvaluatorRef;
}.

Definition comparator_new (ty : LogicalType) : res BoundComparator :=
  let? lt := binary_create ty BinaryOperator.Lt in
  let? lte := binary_create ty BinaryOperator.LtEq in
  let? gt := binary_create ty BinaryOperator.Gt in
  let? gte := binary_create ty BinaryOperator.GtEq in
  Ok (mk_comparator lt lte gt gte).

(** [matches!(evaluator.binary_eval(value, target)?, DataValue::Boolean(true))]. *)
Definition holds (evaluator : BinaryEvaluatorRef) (value target : DataValue) : res bool :=
  let? v := binary_eval evaluator value target in
  Ok (match v with DataValue.Boolean true => true | _ => false end).

Definition is_under (comparator : BoundComparator) (value : DataValue) (target : Bound DataValue) (is_min : bool) : res bool :=
  let under (is_min : bool) t := holds (if is_min then cmp_lt comparator else cmp_lte comparator) value t in
  match target with
  | Included t => under is_min t
  | Excluded t => under (negb is_min) t
  | Unbounded => Ok (negb is_min)
  end.

Definition is_above (comparator : BoundComparator) (value : DataValue) (target : Bound DataValue) (is_min : bool) : res bool :=
  let above (is_min : bool) t := holds (if is_min then cmp_gte comparator else cmp_gt comparator) value t in
  match target with
  | Included t => above is_min t
  | Excluded t => above (negb is_min) t
  | Unbounded => Ok is_min
  end.

Definition is_eq (value : DataValue) (target : Bound DataValue) : bool :=
  match target with
  | Included t => dv_eq t value
  | _ => false
  end.

(** * One value *)

Definition average_count (self : Histogram) : Z :=
  let distinct_values := number_of_distinct_value (h_meta self) in
  if (distinct_values =? 0) || (hm_values_len (h_meta self) =? 0) then 0
  else Z.max 1 (ceil_usize (fdiv (f64_of (hm_values_len (h_meta self))) (f64_of distinct_values))).

Definition equal_count (self : Histogram) (value : DataValue) (sketch : CountMinSketch) : res Z :=
  let average_count := average_count self in
  if average_count =? 0 then Ok 0
  else
    let? estimated_count := estimate hash_value sketch value in
    let error_bound := error_bound sketch (hm_values_len (h_meta self)) in
    Ok (if (error_bound <? average_count) || (average_count <? saturating_sub estimated_count error_bound)
        then estimated_count else average_count).

Definition top_n_count_or_fallback (self : Histogram) (value : DataValue) (sketch : CountMinSketch)
  (top_n : ColumnTopN) : res Z :=
  match get_entry top_n value with
  | None => equal_count self value sketch
  | Some entry =>
      if (entry_error entry =? 0) || (entry_error entry <? average_count self) then Ok (entry_count entry)
      else
        let lower := saturating_sub (entry_count entry) (entry_error entry) in
        let? n := equal_count self value sketch in
        Ok (Z.max lower (Z.min n (entry_count entry)))
  end.

Definition endpoint_count (value : DataValue) (bucket : Bucket) (sketch : CountMinSketch) : res (option Z) :=
  if decide (logical_type value = logical_type (lower bucket))
  then let? n := estimate hash_value sketch value in Ok (Some n)
  else Ok None.

(** The match on a bound that each partial arm repeats. *)
Definition bound_ratio (bucket : Bucket) (sketch : CountMinSketch) (bound : Bound DataValue) (is_upper : bool)
  : res (Z * option Z) :=
  match bound with
  | Included val =>
      let? f := encoded_fraction (lower bucket) (upper bucket) val is_upper in Ok (f, None)
  | Excluded val =>
      let? f := encoded_fraction (lower bucket) (upper bucket) val is_upper in
      let? e := endpoint_count val bucket sketch in Ok (f, e)
  | Unbounded => Err Panic
  end.

Definition subtract_option (count : Z) (o : option Z) : Z :=
  match o with Some e => subtract_endpoint_count count e | None => count end.

(** * The walk *)

Section Walk.
(** The addition of the counters: [usize_add] in the code, the exact sum in
    the definition the estimate is compared with. *)
Context (plus : Z -> Z -> res Z).

Record CollectState := mk_collect {
  binary_i : nat;
  bucket_i : nat;
  bucket_idxs : list nat;
  count : Z;
}.

Definition next_bucket (st : CollectState) : CollectState :=
  mk_collect (binary_i st) (S (bucket_i st)) (bucket_idxs st) (count st).
Definition next_range (st : CollectState) : CollectState :=
  mk_collect (S (binary_i st)) (bucket_i st) (bucket_idxs st) (count st).
Definition add_count (st : CollectState) (n : Z) : res CollectState :=
  let? c := plus (count st) n in Ok (mk_collect (binary_i st) (bucket_i st) (bucket_idxs st) c).

(** The arm of a [Range::Scope]: the next position, and [temp_count]. *)
Definition collect_scope (self : Histogram) (sketch : CountMinSketch) (comparator : BoundComparator)
  (min max : Bound DataValue) (st : CollectState) : res (CollectState * Z) :=
  let distinct_1 := fdiv f64_1 (f64_of (number_of_distinct_value (h_meta self))) in
  let? bucket := vec_get (buckets self) (bucket_i st) in
  let? bucket_count :=
    if (bucket_i st =? 0)%nat && scope_lower_includes_null min
    then plus (bucket_count bucket) (hm_null_count (h_meta self)) else Ok (bucket_count bucket) in
  let ratio_of r := of_max distinct_1 (of_min r f64_1) in
  let part r := ceil_usize (fmul (f64_of bucket_count) r) in
  let? lower_above_min := is_above comparator (lower bucket) min true in
  let? inside :=
    if lower_above_min || is_eq (lower bucket) min
    then let? u := is_under comparator (upper bucket) max false in Ok (u || is_eq (upper bucket) max)
    else Ok false in
  if inside : bool then
    Ok (mk_collect (binary_i st) (S (bucket_i st)) (bucket_idxs st ++ [bucket_i st]) (count st), 0)
  else
    let? past := is_above comparator (lower bucket) max false in
    if past : bool then Ok (next_range st, 0)
    else
      let? before := is_under comparator (upper bucket) min true in
      if before : bool then Ok (next_bucket st, 0)
      else if lower_above_min : bool then
        let? (temp_ratio, option) := bound_ratio bucket sketch max true in
        Ok (next_bucket st, subtract_option (part (ratio_of temp_ratio)) option)
      else
        let? upper_under_max := is_under comparator (upper bucket) max false in
        if upper_under_max : bool then
          let? (temp_ratio, option) := bound_ratio bucket sketch min false in
          Ok (next_bucket st, subtract_option (part (fsub f64_1 (ratio_of temp_ratio))) option)
        else
          let? (temp_ratio_max, option_max) := bound_ratio bucket sketch max true in
          let? (temp_ratio_min, option_min) := bound_ratio bucket sketch min false in
          let ratio := ratio_of (fsub temp_ratio_max temp_ratio_min) in
          Ok (next_range st, subtract_option (subtract_option (part ratio) option_max) option_min).

(** [_collect_count]: whether the ranges are empty, and the next state. *)
Definition collect_step (self : Histogram) (ranges : list Range) (sketch : CountMinSketch) (top_n : ColumnTopN)
  (comparator : BoundComparator) (st : CollectState) : res (bool * CollectState) :=
  let? range := vec_get ranges (binary_i st) in
  match range with
  | Range.Scope min max =>
      let? (st, temp_count) := collect_scope self sketch comparator min max st in
      let? st := add_count st (Z.max temp_count 0) in
      Ok (false, st)
  | Range.Eq value =>
      let? n := if is_null value then Ok (hm_null_count (h_meta self))
                else top_n_count_or_fallback self value sketch top_n in
      let? st := add_count st n in
      Ok (false, next_range st)
  | Range.Dummy => Ok (true, st)
  | Range.SortedRanges _ => Err Panic
  end.

(** Every step moves to the next bucket or to the next range. *)
Fixpoint collect_loop (fuel : nat) (self : Histogram) (ranges : list Range) (sketch : CountMinSketch)
  (top_n : ColumnTopN) (comparator : BoundComparator) (st : CollectState) : res (option CollectState) :=
  if decide (bucket_i st < length (buckets self) /\ binary_i st < length ranges)%nat then
    match fuel with
    | O => Err Panic
    | S fuel =>
        let? (is_dummy, st) := collect_step self ranges sketch top_n comparator st in
        if is_dummy : bool then Ok None else collect_loop fuel self ranges sketch top_n comparator st
    end
  else Ok (Some st).
End Walk.

(** * Ranges with parameters *)

(** [DataValue::bound_selectivity]: heuristics from the number of distinct
    values, field by field for a composite key. *)
Fixpoint bound_selectivity (min max : Bound DataValue) (key_type : LogicalType) (distinct : Z) {struct key_type} : Z :=
  let leaf :=
    match min, max with
    | Unbounded, Unbounded => f64_1
    | Unbounded, _ | _, Unbounded => fdiv f64_1 (f64_of 4)
    | Included lower, Included upper =>
        if dv_eq lower upper then fdiv f64_1 distinct else fdiv f64_1 (f64_of 64)
    | _, _ => fdiv f64_1 (f64_of 64)
    end in
  match min, max, key_type with
  | (Included (DataValue.Tuple lower) | Excluded (DataValue.Tuple lower)),
    (Included (DataValue.Tuple upper) | Excluded (DataValue.Tuple upper)),
    LogicalType.Tuple ((_ :: _) as fields) =>
      let excluded (b : Bound DataValue) := match b with Excluded _ => true | _ => false end in
      if dv_eq (DataValue.Tuple lower) (DataValue.Tuple upper)
         && bool_decide (length lower = length fields) && bool_decide (length upper = length fields)
         && (excluded min || excluded max)
      then f64_0
      else
        let distinct := f64_powf distinct (fdiv f64_1 (f64_of (Z.of_nat (length fields)))) in
        (fix go (i : nat) (fields : list LogicalType) (divisor : Z) : Z :=
           match fields with
           | [] => fdiv f64_1 divisor
           | field :: fields =>
               let field_of min max is_range :=
                 let selectivity := bound_selectivity min max field distinct in
                 if f64_eq selectivity f64_0 then f64_0
                 else
                   let divisor := fdiv divisor selectivity in
                   if (is_range : bool) then fdiv f64_1 divisor else go (S i) fields divisor in
               match lower !! i, upper !! i with
               | Some lower, Some upper => field_of (Included lower) (Included upper) (negb (dv_eq lower upper))
               | Some lower, None => field_of (Included lower) Unbounded true
               | None, Some upper => field_of Unbounded (Included upper) true
               | None, None => fdiv f64_1 divisor
               end
           end) 0%nat fields f64_1
  | _, _, _ => leaf
  end.

(** [f64::min]: a NaN gives way. *)
Definition f64_min (a b : Z) : Z := if f64_nan a then b else if f64_lt b a then b else a.

Fixpoint range_selectivity (key_type : LogicalType) (distinct : Z) (range : Range) : Z :=
  match range with
  | Range.Dummy => f64_0
  | Range.Eq value => bound_selectivity (Included value) (Included value) key_type distinct
  | Range.Scope min max => bound_selectivity min max key_type distinct
  | Range.SortedRanges ranges =>
      f64_min
        ((fix sum (ranges : list Range) (acc : Z) : Z :=
            match ranges with
            | [] => acc
            | range :: ranges => sum ranges (fadd acc (range_selectivity key_type distinct range))
            end) ranges f64_0) f64_1
  end.

Definition estimate_range_selectivity (self : Histogram) (range : Range) : Z :=
  match buckets self with
  | [] => f64_0
  | bucket :: _ =>
      range_selectivity (logical_type (upper bucket)) (f64_of (Z.max 1 (number_of_distinct_value (h_meta self)))) range
  end.

(** * [collect_count] *)

Definition collect_count_with (plus : Z -> Z -> res Z) (self : Histogram) (ranges : list Range)
  (sketch : CountMinSketch) (top_n : ColumnTopN) : res Z :=
  match buckets self, ranges with
  | [], _ | _, [] => Ok 0
  | bucket :: _, _ =>
      if existsb range_has_parameter ranges then
        let selectivity :=
          f64_min (fold_left (fun acc r => fadd acc (estimate_range_selectivity self r)) ranges f64_0) f64_1 in
        let values_len := hm_values_len (h_meta self) in
        let n := ceil_usize (fmul (f64_of values_len) selectivity) in
        Ok (if f64_lt f64_0 selectivity && (0 <? values_len) then Z.max n 1 else 0)
      else
        let? comparator := comparator_new (logical_type (upper bucket)) in
        let? st :=
          collect_loop plus (length (buckets self) + length ranges) self ranges sketch top_n comparator
            (mk_collect 0 0 [] 0) in
        match st with
        | None => Ok 0
        | Some st =>
            let? full := rmap (fun idx => let? b := vec_get (buckets self) idx in Ok (bucket_count b)) (bucket_idxs st) in
            let? covered := rfold plus 0 full in
            plus covered (count st)
        end
  end.

Definition collect_count : Histogram -> list Range -> CountMinSketch -> ColumnTopN -> res Z := collect_count_with usize_add.

(** The same walk without a bound on the counters. *)
Definition exact_count : Histogram -> list Range -> CountMinSketch -> ColumnTopN -> res Z :=
  collect_count_with (fun a b => Ok (a + b)).

(** [StatisticMetaLoader::collect_count] on the statistics it has loaded. *)
Definition statistics_collect_count (entry : option (Histogram * CountMinSketch * ColumnTopN)) (range : Range)
  : res (option Z) :=
  match entry with
  | None => Ok None
  | Some (histogram, sketch, top_n) =>
      let ranges := match range with Range.SortedRanges ranges => ranges | _ => [range] end in
      let? n := collect_count histogram ranges sketch top_n in
      Ok (Some n)
  end.

(** * The coordinates are ordered *)

(** [n] bytes of a key as a number, missing bytes as zero. *)
Fixpoint digits (n : nat) (bytes : list Z) : Z :=
  match n with
  | O => 0
  | S n => match bytes with
           | [] => 0
           | b :: bytes => b * 256 ^ Z.of_nat n + digits n bytes
           end
  end.

Lemma digits_range (n : nat) (bytes : list Z) : bytes_ok bytes -> 0 <= digits n bytes < 256 ^ Z.of_nat n.
Proof.
  intros H. revert n. induction H as [|b bytes Hb _ IH]; intros [|n]; simpl digits;
    [by vm_compute|pose proof (pow256_pos (S n)); lia|by vm_compute|].
  specialize (IH n). rewrite pow256_succ. pose proof (pow256_pos n). unfold byte_ok in Hb. nia.
Qed.

Lemma digits_mono (n : nat) (a b : list Z) : bytes_ok a -> bytes_ok b -> lex_cmp a b <> Gt -> digits n a <= digits n b.
Proof.
  intros Ha Hb. revert n b Hb. induction Ha as [|x a Hx Ha IH]; intros n b Hb Hle.
  { destruct (digits_range n b Hb) as [H0 _]. destruct n; [done|exact H0]. }
  destruct Hb as [|y b Hy Hb]; [done|]. destruct n as [|n]; simpl digits; [lia|]. simpl in Hle.
  pose proof (digits_range n a Ha). pose proof (digits_range n b Hb).
  destruct (Z.compare_spec x y) as [->|Hlt|Hgt]; simpl in Hle; [specialize (IH n b Hb Hle); lia|nia|done].
Qed.

Lemma digits_lookup (n : nat) (bytes : list Z) :
  digits (S n) bytes = default 0 (bytes !! 0%nat) * 256 ^ Z.of_nat n + digits n (drop 1 bytes).
Proof. destruct bytes as [|b bytes]; simpl; [|by rewrite drop_0]. destruct n; done. Qed.

Lemma lor_byte (a d : Z) : 0 <= d < 256 -> Z.lor (a * 256) d = a * 256 + d.
Proof.
  intros Hd. assert (Z.land (a * 256) d = 0) as Hland.
  { apply Z.bits_inj'. intros n Hn. rewrite Z.land_spec, Z.bits_0. change 256 with (2 ^ 8).
    destruct (Z.lt_ge_cases n 8) as [Hlt|Hge].
    - by rewrite Z.mul_pow2_bits_low by lia.
    - rewrite (Z.bits_above_log2 d n); [apply andb_false_r|lia|].
      destruct (Z.eq_dec d 0) as [->|]; [simpl; lia|]. apply Z.lt_le_trans with 8; [|lia].
      apply Z.log2_lt_pow2; lia. }
  by rewrite <- Z.lxor_lor, <- Z.add_nocarry_lxor.
Qed.

Lemma coordinate_digits (prefix : nat) (bytes : list Z) :
  bytes_ok bytes -> coordinate prefix bytes = digits 8 (drop prefix bytes).
Proof.
  intros Hb. unfold coordinate.
  assert (Hgen : forall n k acc, (k + n = 8)%nat -> 0 <= acc < 256 ^ Z.of_nat k ->
    foldl (fun value i => Z.lor (as_u 64 (Z.shiftl value 8)) (default 0 (bytes !! (prefix + i)%nat))) acc (seq k n) =
    acc * 256 ^ Z.of_nat n + digits n (drop (prefix + k) bytes)).
  { induction n as [|n IH]; intros k acc Hk Hacc; [simpl; lia|].
    assert (0 <= default 0 (bytes !! (prefix + k)%nat) < 256) as Hd.
    { destruct (bytes !! (prefix + k)%nat) as [d|] eqn:E; simpl; [|lia]. by apply (Forall_lookup_1 _ _ _ _ Hb E). }
    assert (256 ^ Z.of_nat k <= 256 ^ 7) as H7 by (apply Z.pow_le_mono_r; lia).
    assert (as_u 64 (Z.shiftl acc 8) = acc * 256) as Hsh.
    { rewrite Z.shiftl_mul_pow2 by lia. unfold as_u. apply Z.mod_small. change (2 ^ 8) with 256.
      change (2 ^ 64) with (256 ^ 7 * 256). lia. }
    cbn [seq foldl]. rewrite Hsh, lor_byte by done. rewrite IH by (rewrite ?pow256_succ; lia).
    rewrite digits_lookup, lookup_drop, drop_drop, pow256_succ, Nat.add_0_r.
    replace (prefix + k + 1)%nat with (prefix + S k)%nat by lia. ring. }
  rewrite (Hgen 8%nat 0%nat 0) by (simpl; lia). by rewrite Nat.add_0_r.
Qed.

(** A key between two keys shares their common prefix. *)
Lemma common_prefix_between (a b k : list Z) :
  lex_cmp a k = Lt -> lex_cmp k b = Lt ->
  let p := common_prefix a b in
  lex_cmp (drop p a) (drop p k) <> Gt /\ lex_cmp (drop p k) (drop p b) <> Gt /\ lex_cmp (drop p a) (drop p b) <> Gt.
Proof.
  revert b k. induction a as [|x a IH]; intros b k H1 H2.
  { cbn [common_prefix drop]. rewrite !drop_0, H1, H2. by destruct b. }
  destruct k as [|z k]; [done|]. destruct b as [|y b]; [done|]. simpl common_prefix.
  destruct (Z.eqb_spec x y) as [->|Hne].
  - cbn [drop]. simpl in H1, H2. destruct (Z.compare_spec y z) as [->|?|?]; simpl in H1; try done.
    + rewrite Z.compare_refl in H2. by apply IH.
    + by rewrite (proj2 (Z.compare_gt_iff z y)) in H2 by lia.
  - cbn [drop]. cbv zeta. cbn [drop]. rewrite H1, H2.
    by rewrite (lex_cmp_transitive (x :: a) (z :: k) (y :: b) Lt Lt H1 H2) by (unfold cmp_compat; auto).
Qed.

(** The subtractions of two coordinates never go below zero, and the fraction
    is a quotient of a number by one that is not smaller. *)
Lemma fraction_of_keys_spec (lower upper key : list Z) :
  bytes_ok lower -> bytes_ok upper -> bytes_ok key ->
  exists f, fraction_of_keys lower upper key = Ok f /\
    (f = f64_0 \/ f = f64_1 \/
     exists a b, f = fdiv (f64_of a) (f64_of b) /\ 0 <= a <= b /\ b < 2 ^ 64).
Proof.
  intros Hl Hu Hk. unfold fraction_of_keys. destruct (lex_cmp key lower) eqn:E1; [by eexists; eauto..|].
  destruct (lex_cmp key upper) eqn:E2; [by eexists; eauto| |by eexists; eauto].
  assert (lex_cmp lower key = Lt) as E1' by (by rewrite lex_cmp_antisym, E1).
  destruct (common_prefix_between lower upper key E1' E2) as (H1 & H2 & H3).
  set (p := common_prefix lower upper) in *. cbv zeta. rewrite !coordinate_digits by done.
  assert (forall bs, bytes_ok bs -> bytes_ok (drop p bs)) as Hd by (intros bs Hbs; by apply Forall_drop).
  pose proof (digits_mono 8 _ _ (Hd _ Hl) (Hd _ Hk) H1) as M1.
  pose proof (digits_mono 8 _ _ (Hd _ Hk) (Hd _ Hu) H2) as M2.
  pose proof (digits_range 8 _ (Hd _ Hu)) as R1. pose proof (digits_range 8 _ (Hd _ Hl)) as R2.
  change (256 ^ Z.of_nat 8) with (2 ^ 64) in *.
  rewrite (proj2 (Z.ltb_ge _ _)), (proj2 (Z.ltb_ge _ _)) by lia. eexists. split; [done|].
  right. right. eexists _, _. split; [done|]. lia.
Qed.

Lemma encode_total (v : DataValue) (nf : bool) :
  has_parameter v = false -> exists bs, memcomparable_encode_with_null_order v nf = Ok bs.
Proof.
  revert nf. induction v as [v Hv|vs IH] using DataValue_ind'; intros nf Hp.
  - destruct v; try (exfalso; exact (Hv _ eq_refl)); try discriminate Hp; by eexists.
  - rewrite encode_tagged. simpl. simpl in Hp.
    assert (exists bs, encode_values vs = Ok bs) as [bs ->]; [|by eexists].
    revert Hp. induction IH as [|v vs IHv _ IHl]; intros Hp; [by eexists|]. simpl in *.
    apply orb_false_iff in Hp as [H1 H2]. destruct (IHv false H1) as [b Hb]. unfold memcomparable_encode.
    rewrite Hb. destruct (IHl H2) as [bs ->]. by eexists.
Qed.

Lemma encode_bytes (v : DataValue) :
  dv_ok v -> has_parameter v = false -> exists bs, memcomparable_encode v = Ok bs /\ bytes_ok bs.
Proof.
  intros Ho Hp. destruct (encode_total v false Hp) as [bs Hbs]. exists bs. split; [done|].
  rewrite encode_tagged in Hbs. destruct (is_null v); [apply Ok_inj in Hbs; subst; by repeat constructor|].
  apply rbind_ok in Hbs as (b & Hb & E). apply Ok_inj in E. subst. constructor; [by unfold byte_ok|].
  by eapply payload_bytes.
Qed.

Lemma encoded_fraction_total (start stop value : DataValue) (is_upper : bool) :
  dv_ok start -> dv_ok stop -> dv_ok value ->
  has_parameter start = false -> has_parameter stop = false -> has_parameter value = false ->
  exists f, encoded_fraction start stop value is_upper = Ok f.
Proof.
  intros O1 O2 O3 P1 P2 P3. unfold encoded_fraction.
  destruct (encode_bytes start O1 P1) as (b1 & -> & B1). destruct (encode_bytes stop O2 P2) as (b2 & -> & B2).
  destruct (encode_bytes value O3 P3) as (b3 & -> & B3). cbn [rbind].
  destruct (fraction_of_keys_spec b1 b2 (if is_upper && match value with DataValue.Tuple _ => true | _ => false end
    then b3 ++ [BOUND_MAX_TAG] else b3)) as (f & Hf & _); [done|done| |by exists f].
  destruct (_ && _); [|done]. apply Forall_app. split; [done|]. by repeat constructor.
Qed.

(** * No estimate fails *)

(** A value that the evaluators of the key's type accept on either side. *)
Definition bound_value (ty : LogicalType) (v : DataValue) : Prop :=
  operand ty v /\ has_parameter v = false /\
  match ty with LogicalType.Tuple _ => is_null v = false | _ => True end.

Definition bound_ok (ty : LogicalType) (b : Bound DataValue) : Prop :=
  match b with
  | Included v | Excluded v => bound_value ty v
  | Unbounded => True
  end.

Definition bucket_ok (ty : LogicalType) (b : Bucket) : Prop := bound_value ty (lower b) /\ bound_value ty (upper b).

(** What [SortedRanges] holds, or an empty range alone. *)
Definition flat_ok (ty : LogicalType) (r : Range) : Prop :=
  match r with
  | Range.Scope min max => bound_ok ty min /\ bound_ok ty max
  | Range.Eq v => has_parameter v = false
  | Range.Dummy | Range.SortedRanges _ => False
  end.
Definition ranges_ok (ty : LogicalType) (ranges : list Range) : Prop :=
  ranges = [Range.Dummy] \/ Forall (flat_ok ty) ranges.

(** Counters as the code has them: [usize] values, with room for the nulls
    beside the rows of a bucket. *)
Record counters_ok (self : Histogram) (sketch : CountMinSketch) (top_n : ColumnTopN) : Prop := {
  co_buckets : Forall (fun b => 0 <= bucket_count b /\ bucket_count b + hm_null_count (h_meta self) <= USIZE_MAX) (buckets self);
  co_nulls : 0 <= hm_null_count (h_meta self);
  co_sketch : Forall (Forall (fun c => 0 <= c)) (counters sketch);
  co_top_n : Forall (fun e => 0 <= entry_count e) (top_values top_n);
}.

Definition order_operator (op : BinaryOperator) : bool :=
  match op with
  | BinaryOperator.Lt | BinaryOperator.LtEq | BinaryOperator.Gt | BinaryOperator.GtEq => true
  | _ => false
  end.

Lemma holds_total (ty : LogicalType) (op : BinaryOperator) (ev : BinaryEvaluatorRef) (v t : DataValue) :
  binary_create ty op = Ok ev -> order_operator op = true -> bound_value ty v -> bound_value ty t ->
  exists b, holds ev v t = Ok b.
Proof.
  intros Hev Hop (Hv & _ & Nv) (Ht & _ & Nt).
  assert (binary_outcome ty op v t (binary_eval ev v t)) as Ho.
  { apply binary_eval_outcome; try done. by destruct op, ty. }
  unfold binary_outcome in Ho.
  assert (binary_panics ty op v t = false) as Hp.
  { unfold binary_panics. destruct op; try discriminate Hop; destruct ty; try done; by destruct v, t. }
  assert (binary_overflows ty op v t = false) as Hov.
  { unfold binary_overflows. destruct op; try discriminate Hop; simpl; by destruct (numeric_of ty). }
  rewrite Hp, Hov in Ho. destruct Ho as (r & E & _). unfold holds. rewrite E. by eexists.
Qed.

(** The comparator of a type that has the four comparisons. *)
Definition comparator_ok (ty : LogicalType) (c : BoundComparator) : Prop := comparator_new ty = Ok c.

Lemma comparator_parts (ty : LogicalType) (c : BoundComparator) :
  comparator_ok ty c ->
  binary_create ty BinaryOperator.Lt = Ok (cmp_lt c) /\ binary_create ty BinaryOperator.LtEq = Ok (cmp_lte c) /\
  binary_create ty BinaryOperator.Gt = Ok (cmp_gt c) /\ binary_create ty BinaryOperator.GtEq = Ok (cmp_gte c).
Proof.
  unfold comparator_ok, comparator_new. intros H. apply rbind_ok in H as (a & Ha & H).
  apply rbind_ok in H as (b & Hb & H). apply rbind_ok in H as (d & Hd & H). apply rbind_ok in H as (e & He & H).
  apply Ok_inj in H. by subst.
Qed.

Lemma is_under_total (ty : LogicalType) (c : BoundComparator) (v : DataValue) (t : Bound DataValue) (is_min : bool) :
  comparator_ok ty c -> bound_value ty v -> bound_ok ty t -> exists b, is_under c v t is_min = Ok b.
Proof.
  intros Hc Hv Ht. destruct (comparator_parts ty c Hc) as (H1 & H2 & _ & _).
  destruct t as [t|t|]; [..|by eexists]; simpl in Ht |- *; destruct is_min; simpl;
    (eapply holds_total; [eassumption|reflexivity|done|done]).
Qed.

Lemma is_above_total (ty : LogicalType) (c : BoundComparator) (v : DataValue) (t : Bound DataValue) (is_min : bool) :
  comparator_ok ty c -> bound_value ty v -> bound_ok ty t -> exists b, is_above c v t is_min = Ok b.
Proof.
  intros Hc Hv Ht. destruct (comparator_parts ty c Hc) as (_ & _ & H3 & H4).
  destruct t as [t|t|]; [..|by eexists]; simpl in Ht |- *; destruct is_min; simpl;
    (eapply holds_total; [eassumption|reflexivity|done|done]).
Qed.

Lemma bound_ratio_total (ty : LogicalType) (b : Bucket) (sketch : CountMinSketch) (t : Bound DataValue) (is_upper : bool) :
  bucket_ok ty b -> bound_ok ty t -> sketch_ok sketch -> t <> Unbounded -> exists r, bound_ratio b sketch t is_upper = Ok r.
Proof.
  intros [((Hl & _) & Pl & _) ((Hu & _) & Pu & _)] Ht Hs Hne.
  assert (forall v, bound_value ty v -> exists f, encoded_fraction (lower b) (upper b) v is_upper = Ok f) as Hf.
  { intros v ((Hv & _) & Pv & _). by apply encoded_fraction_total. }
  destruct t as [v|v|]; [| |done]; simpl in Ht |- *; destruct (Hf v Ht) as [f ->]; cbn [rbind]; [by eexists|].
  unfold endpoint_count. case_decide; [|by eexists].
  destruct (estimate_spec hash_value sketch v Hs) as (m & -> & _). by eexists.
Qed.

(** One step: one bucket or one range further, the count still to be raised. *)
Record advances (n : nat) (st st' : CollectState) : Prop := {
  adv_step : (binary_i st' + bucket_i st' = S (binary_i st + bucket_i st))%nat;
  adv_range : (binary_i st <= binary_i st')%nat;
  adv_bucket : (bucket_i st <= bucket_i st')%nat;
  adv_idxs : Forall (fun i => i < n)%nat (bucket_idxs st) -> Forall (fun i => i < n)%nat (bucket_idxs st');
  adv_count : count st' = count st;
}.

Lemma next_bucket_advances (n : nat) (st : CollectState) : advances n st (next_bucket st).
Proof. split; simpl; done || lia. Qed.

Lemma next_range_advances (n : nat) (st : CollectState) : advances n st (next_range st).
Proof. split; simpl; done || lia. Qed.

(** An addition that is exact up to the largest [usize]. *)
Definition exact_below (plus : Z -> Z -> res Z) : Prop := forall a b, a + b <= USIZE_MAX -> plus a b = Ok (a + b).

Lemma usize_exact_below : exact_below usize_add.
Proof. intros a b H. unfold usize_add. by rewrite (proj2 (Z.leb_le _ _) H). Qed.

Lemma collect_scope_total (ty : LogicalType) (self : Histogram) (sketch : CountMinSketch) (top_n : ColumnTopN)
    (c : BoundComparator) (min max : Bound DataValue) (st : CollectState) :
  comparator_ok ty c -> Forall (bucket_ok ty) (buckets self) -> counters_ok self sketch top_n -> sketch_ok sketch ->
  bound_ok ty min -> bound_ok ty max -> (bucket_i st < length (buckets self))%nat ->
  exists st' n, advances (length (buckets self)) st st' /\
    forall plus, exact_below plus -> collect_scope plus self sketch c min max st = Ok (st', n).
Proof.
  intros Hc Hb Hco Hs Hmin Hmax Hlt. destruct (lookup_lt_is_Some_2 _ _ Hlt) as [b Hlb].
  pose proof (Forall_lookup_1 _ _ _ _ Hb Hlb) as Hok. pose proof Hok as [Hlo Hup].
  pose proof (Forall_lookup_1 _ _ _ _ (co_buckets _ _ _ Hco) Hlb) as [_ Hroom].
  unfold collect_scope. rewrite (vec_get_Some _ _ _ Hlb). cbn [rbind]. cbv zeta.
  destruct (is_above_total ty c (lower b) min true Hc Hlo Hmin) as [above Habove].
  destruct (is_under_total ty c (upper b) max false Hc Hup Hmax) as [under Hunder].
  destruct (is_above_total ty c (lower b) max false Hc Hlo Hmax) as [past Hpast].
  destruct (is_under_total ty c (upper b) min true Hc Hup Hmin) as [before Hbefore].
  set (nulls := ((bucket_i st =? 0)%nat && scope_lower_includes_null min)).
  assert (forall plus : Z -> Z -> res Z, exact_below plus ->
    (if nulls then plus (bucket_count b) (hm_null_count (h_meta self)) else Ok (bucket_count b)) =
    Ok (bucket_count b + if nulls then hm_null_count (h_meta self) else 0)) as Hnulls.
  { intros plus Hplus. destruct nulls; [by apply Hplus|by rewrite Z.add_0_r]. }
  assert (above = false -> min <> Unbounded) as Hmin' by (intros -> ->; discriminate Habove).
  assert (under = false -> max <> Unbounded) as Hmax' by (intros -> ->; discriminate Hunder).
  assert (exists i, (if above || is_eq (lower b) min
    then let? u := is_under c (upper b) max false in Ok (u || is_eq (upper b) max) else Ok false) = Ok i /\
    (i = false -> above = true -> under = false)) as (i & Hin & Hi).
  { rewrite Hunder. cbn [rbind]. destruct (above || is_eq (lower b) min) eqn:Ea; eexists; (split; [reflexivity|]).
    - by intros [? _]%orb_false_iff.
    - apply orb_false_iff in Ea as [-> _]. done. }
  assert (forall plus : Z -> Z -> res Z, exact_below plus -> forall (body : Z -> bool -> bool -> res (CollectState * Z)) r,
    body (bucket_count b + if nulls then hm_null_count (h_meta self) else 0) above i = r ->
    (let? bucket_count := if nulls then plus (bucket_count b) (hm_null_count (h_meta self)) else Ok (bucket_count b) in
     let? lower_above_min := is_above c (lower b) min true in
     let? inside := if lower_above_min || is_eq (lower b) min
       then let? u := is_under c (upper b) max false in Ok (u || is_eq (upper b) max) else Ok false in
     body bucket_count lower_above_min inside) = r) as Hstart.
  { intros plus Hplus body r <-. rewrite (Hnulls plus Hplus), Habove. cbn [rbind]. by rewrite Hin. }
  destruct i.
  { eexists _, _. split; [|intros plus Hplus; eapply (Hstart plus Hplus); reflexivity].
    split; simpl; try lia; try done. intros Hf. apply Forall_app. by split; [|constructor]. }
  destruct past.
  { eexists _, _. split; [apply next_range_advances|]. intros plus Hplus. eapply (Hstart plus Hplus). cbv beta iota. by rewrite Hpast. }
  destruct before.
  { eexists _, _. split; [apply next_bucket_advances|]. intros plus Hplus. eapply (Hstart plus Hplus). cbv beta iota. by rewrite Hpast, Hbefore. }
  destruct above.
  - destruct (bound_ratio_total ty b sketch max true Hok Hmax Hs (Hmax' (Hi eq_refl eq_refl))) as [[r o] Hr].
    eexists _, _. split; [apply next_bucket_advances|]. intros plus Hplus. eapply (Hstart plus Hplus). cbv beta iota.
    rewrite Hpast, Hbefore, Hr. reflexivity.
  - destruct (bound_ratio_total ty b sketch min false Hok Hmin Hs (Hmin' eq_refl)) as [[r1 o1] Hr1].
    destruct under.
    { eexists _, _. split; [apply next_bucket_advances|]. intros plus Hplus. eapply (Hstart plus Hplus). cbv beta iota.
      rewrite Hpast, Hbefore, Hunder. cbn [rbind]. rewrite Hr1. reflexivity. }
    destruct (bound_ratio_total ty b sketch max true Hok Hmax Hs (Hmax' eq_refl)) as [[r2 o2] Hr2].
    eexists _, _. split; [apply next_range_advances|]. intros plus Hplus. eapply (Hstart plus Hplus). cbv beta iota.
    rewrite Hpast, Hbefore, Hunder. cbn [rbind]. rewrite Hr2. cbn [rbind]. rewrite Hr1. reflexivity.
Qed.

Lemma estimate_nonneg (self : Histogram) (sketch : CountMinSketch) (top_n : ColumnTopN) (v : DataValue) :
  counters_ok self sketch top_n -> sketch_ok sketch -> exists n, estimate hash_value sketch v = Ok n /\ 0 <= n.
Proof.
  intros Hco Hs. destruct (estimate_spec hash_value sketch v Hs) as (m & Hm & _ & k & Hk & ->). eexists. split; [exact Hm|].
  destruct (cell_lookup hash_value sketch v k Hs Hk) as (row & Hrow & Hc).
  exact (Forall_lookup_1 _ _ _ _ (Forall_lookup_1 _ _ _ _ (co_sketch _ _ _ Hco) Hrow) Hc).
Qed.

Lemma top_n_count_total (self : Histogram) (v : DataValue) (sketch : CountMinSketch) (top_n : ColumnTopN) :
  counters_ok self sketch top_n -> sketch_ok sketch ->
  exists n, top_n_count_or_fallback self v sketch top_n = Ok n /\ 0 <= n.
Proof.
  intros Hco Hs. assert (exists n, equal_count self v sketch = Ok n /\ 0 <= n) as (n & Hn & Hpos).
  { unfold equal_count. case_match; [by exists 0|]. destruct (estimate_nonneg self sketch top_n v Hco Hs) as (m & -> & Hm).
    cbn [rbind]. eexists. split; [reflexivity|]. case_match; [done|]. unfold average_count. case_match; lia. }
  unfold top_n_count_or_fallback. destruct (get_entry top_n v) as [e|] eqn:Ee; [|by exists n].
  assert (0 <= entry_count e) as He.
  { unfold get_entry in Ee. case_match; [done|]. case_match; [|done]. exact (Forall_lookup_1 _ _ _ _ (co_top_n _ _ _ Hco) Ee). }
  case_match; [by eexists|]. rewrite Hn. cbn [rbind]. eexists. split; [reflexivity|]. unfold saturating_sub. lia.
Qed.

(** ** Where the counters overflow *)

Notation exact_add := (fun a b : Z => Ok (a + b)).

(** The outcome with [usize] counters of a computation that counts to [n]. *)
Definition capped {A : Type} (n : Z) (a : A) : res A := if n <=? USIZE_MAX then Ok a else Err Panic.

Lemma capped_small {A : Type} (n : Z) (a : A) : n <= USIZE_MAX -> capped n a = Ok a.
Proof. intros H. unfold capped. by rewrite (proj2 (Z.leb_le _ _) H). Qed.

Lemma capped_large {A : Type} (n : Z) (a : A) : USIZE_MAX < n -> capped n a = Err Panic.
Proof. intros H. unfold capped. by rewrite (proj2 (Z.leb_gt _ _) H). Qed.

Lemma rfold_capped (l : list Z) : forall acc, 0 <= acc <= USIZE_MAX -> Forall (fun x => 0 <= x) l ->
  exists n, acc <= n /\ rfold exact_add acc l = Ok (E := DatabaseError) n /\ rfold usize_add acc l = capped n n.
Proof.
  induction l as [|x l IH]; intros acc Hacc Hl.
  { exists acc. split; [lia|]. split; [done|]. by rewrite capped_small by lia. }
  apply Forall_cons_1 in Hl as [Hx Hl]. cbn [rfold rbind]. unfold usize_add at 1.
  destruct (Z.leb_spec (acc + x) USIZE_MAX) as [Hle|Hgt].
  - destruct (IH (acc + x)) as (n & Hn & He & Hu); [lia|done|]. exists n. split; [lia|]. by split.
  - assert (forall l acc, Forall (fun x => 0 <= x) l -> exists n, acc <= n /\ rfold exact_add acc l = Ok (E := DatabaseError) n) as Hex.
    { clear. induction l as [|x l IH]; intros acc Hl; [by exists acc|]. apply Forall_cons_1 in Hl as [Hx Hl].
      destruct (IH (acc + x) Hl) as (n & Hn & E). exists n. split; [lia|exact E]. }
    destruct (Hex l (acc + x) Hl) as (n & Hn & E). exists n. split; [lia|]. split; [exact E|]. by rewrite capped_large by lia.
Qed.

(** One step of the walk, up to the addition. *)
Lemma collect_step_amount (ty : LogicalType) (self : Histogram) (ranges : list Range) (sketch : CountMinSketch)
    (top_n : ColumnTopN) (c : BoundComparator) (st : CollectState) :
  comparator_ok ty c -> Forall (bucket_ok ty) (buckets self) -> counters_ok self sketch top_n -> sketch_ok sketch ->
  Forall (flat_ok ty) ranges -> (bucket_i st < length (buckets self))%nat -> (binary_i st < length ranges)%nat ->
  exists st' n, 0 <= n /\ advances (length (buckets self)) st st' /\
    forall plus, exact_below plus ->
      collect_step plus self ranges sketch top_n c st = let? st'' := add_count plus st' n in Ok (false, st'').
Proof.
  intros Hc Hb Hco Hs Hr Hlt1 Hlt2. destruct (lookup_lt_is_Some_2 _ _ Hlt2) as [range Hrange].
  pose proof (Forall_lookup_1 _ _ _ _ Hr Hrange) as Hflat. unfold collect_step.
  setoid_rewrite (vec_get_Some _ _ _ Hrange). cbn [rbind].
  destruct range as [min max|v| |rs]; simpl in Hflat; [..|done|done].
  - destruct Hflat as [Hmin Hmax].
    destruct (collect_scope_total ty self sketch top_n c min max st Hc Hb Hco Hs Hmin Hmax Hlt1) as (st' & n & Hadv & Hrun).
    exists st', (Z.max n 0). split; [lia|]. split; [done|]. intros plus Hplus. by rewrite (Hrun plus Hplus).
  - assert (exists n, (if is_null v then Ok (hm_null_count (h_meta self)) else top_n_count_or_fallback self v sketch top_n) = Ok n /\ 0 <= n)
      as (n & Hn & Hpos) by (case_match; [eexists; split; [done|apply Hco]|by apply top_n_count_total]).
    exists (next_range st), n. split; [done|]. split; [apply next_range_advances|]. intros plus _. rewrite Hn. cbn [rbind].
    unfold add_count. cbn [next_range count binary_i bucket_i bucket_idxs]. by destruct (plus (count st) n).
Qed.

(** With counters that fit, the walk ends, with the exact count or where that
    count no longer fits. *)
Lemma collect_loop_total (ty : LogicalType) (self : Histogram) (ranges : list Range) (sketch : CountMinSketch)
    (top_n : ColumnTopN) (c : BoundComparator) (fuel : nat) :
  comparator_ok ty c -> Forall (bucket_ok ty) (buckets self) -> counters_ok self sketch top_n -> sketch_ok sketch ->
  Forall (flat_ok ty) ranges ->
  forall st, (length (buckets self) + length ranges <= fuel + bucket_i st + binary_i st)%nat ->
  Forall (fun i => i < length (buckets self))%nat (bucket_idxs st) ->
  (bucket_i st <= length (buckets self))%nat -> (binary_i st <= length ranges)%nat ->
  exists st', collect_loop exact_add fuel self ranges sketch top_n c st = Ok (Some st') /\ count st <= count st' /\
    Forall (fun i => i < length (buckets self))%nat (bucket_idxs st') /\
    (count st <= USIZE_MAX ->
     collect_loop usize_add fuel self ranges sketch top_n c st = capped (count st') (Some st')).
Proof.
  intros Hc Hb Hco Hs Hr. induction fuel as [|fuel IH]; intros st Hfuel Hidx H1 H2; cbn [collect_loop].
  { rewrite !decide_False by lia. exists st. split; [done|]. split; [lia|]. split; [done|]. intros H. by rewrite capped_small. }
  destruct (decide (bucket_i st < length (buckets self) /\ binary_i st < length ranges)%nat) as [Hguard|].
  2:{ exists st. split; [done|]. split; [lia|]. split; [done|]. intros H. by rewrite capped_small. }
  destruct (collect_step_amount ty self ranges sketch top_n c st Hc Hb Hco Hs Hr) as (st' & n & Hn & [A1 A2 A3 A4 A5] & Hstep); [lia|lia|].
  rewrite (Hstep exact_add), (Hstep usize_add) by (done || apply usize_exact_below). unfold add_count. cbn [rbind]. rewrite A5.
  destruct (IH (mk_collect (binary_i st') (bucket_i st') (bucket_idxs st') (count st + n))) as (r & Hrun & Hle & Hri & Hcap);
    [simpl; lia|by apply A4|simpl; lia|simpl; lia|]. cbn [count] in Hle, Hcap.
  exists r. split; [done|]. split; [lia|]. split; [done|]. intros H. unfold usize_add at 1.
  destruct (Z.leb_spec (count st + n) USIZE_MAX) as [Hfit|]; cbn [rbind]; [by apply Hcap|]. by rewrite capped_large by lia.
Qed.

Lemma full_buckets_total (self : Histogram) (sketch : CountMinSketch) (top_n : ColumnTopN) (idxs : list nat) :
  counters_ok self sketch top_n -> Forall (fun i => i < length (buckets self))%nat idxs ->
  exists l, rmap (fun idx => let? b := vec_get (buckets self) idx in Ok (bucket_count b)) idxs = Ok l /\ Forall (fun x => 0 <= x) l.
Proof.
  intros Hco. induction 1 as [|i idxs Hi _ (l & Hl & Hpos)]; simpl; [by eexists|].
  destruct (lookup_lt_is_Some_2 _ _ Hi) as [b Hb]. rewrite (vec_get_Some _ _ _ Hb). cbn [rbind]. rewrite Hl.
  eexists. split; [reflexivity|]. constructor; [|done]. by apply (Forall_lookup_1 _ _ _ _ (co_buckets _ _ _ Hco) Hb).
Qed.

(** The estimate from the heuristics for ranges with parameters fits a [usize]. *)
Lemma parameter_estimate_range (a : Z) (b c : bool) :
  0 <= (if b && c then Z.max (ceil_usize a) 1 else 0) <= USIZE_MAX.
Proof.
  pose proof (saturate_usize_range a (f64_ceil a)) as H. fold (ceil_usize a) in H. destruct (b && c); [|by vm_compute].
  split; [lia|]. apply Z.max_lub; [lia|by vm_compute].
Qed.

(** C38: The estimate of the rows in some ranges, over a histogram whose key type
    has the four ordering operators. The walk stops after at most as many steps
    as there are buckets and ranges; no arm the code calls unreachable is
    reached, no index or subtraction is out of range and no evaluator fails,
    whatever the bounds. The estimate is the one exact counters would give, and
    the one way to fail is that it does not fit a [usize]. Ranges with
    parameters get the number of the selectivity heuristics, whatever they are;
    others are flat ranges or a single empty one. *)
Theorem collect_count_total (self : Histogram) (ranges : list Range) (sketch : CountMinSketch) (top_n : ColumnTopN)
    (first : Bucket) (c : BoundComparator) :
  let ty := logical_type (upper first) in
  head (buckets self) = Some first -> comparator_new ty = Ok c ->
  Forall (bucket_ok ty) (buckets self) -> counters_ok self sketch top_n -> sketch_ok sketch ->
  (existsb range_has_parameter ranges = false -> ranges_ok ty ranges) ->
  exists n, 0 <= n /\ exact_count self ranges sketch top_n = Ok n /\
    collect_count self ranges sketch top_n = if n <=? USIZE_MAX then Ok n else Err Panic.
Proof.
  intros ty Hhd Hc Hb Hco Hs Hr. unfold collect_count, exact_count, collect_count_with.
  destruct (buckets self) as [|b bs] eqn:Eb; [discriminate Hhd|]. simpl in Hhd. injection Hhd as ->. fold ty.
  destruct ranges as [|range ranges'] eqn:Er; [by exists 0|]. rewrite <- Er in *.
  destruct (existsb range_has_parameter ranges).
  { cbv zeta. eexists. split; [|split; [reflexivity|]]; [apply parameter_estimate_range|].
    symmetry. apply capped_small, parameter_estimate_range. }
  rewrite Hc. cbn [rbind]. destruct (Hr eq_refl) as [-> |Hflat].
  { exists 0. cbn [length Nat.add collect_loop bucket_i binary_i]. rewrite !decide_True by (rewrite Eb; simpl; lia). done. }
  rewrite <- Eb in *.
  destruct (collect_loop_total ty self ranges sketch top_n c (length (buckets self) + length ranges) Hc Hb Hco Hs Hflat
    (mk_collect 0 0 [] 0)) as (st & -> & Hle & Hidx & Hcap); [simpl; lia|constructor|simpl; lia|simpl; lia|].
  rewrite (Hcap ltac:(by vm_compute)). cbn [count] in Hle. cbn [rbind].
  destruct (full_buckets_total self sketch top_n (bucket_idxs st) Hco Hidx) as (l & Hl & Hpos). rewrite Hl. cbn [rbind].
  destruct (rfold_capped l 0) as (covered & Hcov & Hex & Hus); [split; [lia|by vm_compute]|done|]. rewrite Hex. cbn [rbind].
  exists (covered + count st). split; [lia|]. split; [done|]. change (if ?n <=? USIZE_MAX then Ok ?n else Err Panic) with (capped n n).
  destruct (Z.le_gt_cases (count st) USIZE_MAX) as [Hst|Hst].
  - rewrite capped_small by done. cbn [rbind]. rewrite Hl. cbn [rbind]. rewrite Hus.
    destruct (Z.le_gt_cases covered USIZE_MAX) as [Hco'|Hco'].
    + rewrite capped_small by done. done.
    + rewrite !capped_large by lia. done.
  - rewrite !capped_large by lia. done.
Qed.
End Count.

(** * Behaviours worth knowing *)

Definition int_histogram : Histogram :=
  mk_histogram (mk_histogram_meta 0 10 5 10 1 f64_1)
    [mk_bucket (DataValue.Int32 1) (DataValue.Int32 10) 10].

Definition int_order : res BoundComparator := comparator_new LogicalType.Integer.

Lemma collect_count_total_witness :
  let ranges := [Range.Scope (Excluded (DataValue.Int32 1)) (Included (DataValue.Int32 5)); Range.Eq (DataValue.Int32 7)] in
  exists n, 0 <= n /\ exact_count (LM := tangent_libm) int_histogram ranges (with_shape 4 2) top_n_default = Ok n /\
    collect_count (LM := tangent_libm) int_histogram ranges (with_shape 4 2) top_n_default =
      if n <=? USIZE_MAX then Ok n else Err Panic.
Proof.
  intros ranges. destruct int_order as [c|] eqn:Ec; [|vm_compute in Ec; discriminate Ec].
  assert (Hv : forall z, - 2 ^ 31 <= z < 2 ^ 31 -> bound_value LogicalType.Integer (DataValue.Int32 z)).
  { intros z Hz. split; [split; [exact Hz|exact I]|]. split; [reflexivity|exact I]. }
  apply (collect_count_total (LM := tangent_libm) int_histogram ranges (with_shape 4 2) top_n_default
           (mk_bucket (DataValue.Int32 1) (DataValue.Int32 10) 10) c).
  - reflexivity.
  - exact Ec.
  - repeat constructor; apply Hv; lia.
  - split; [|done| |constructor]; repeat constructor; vm_compute; congruence.
  - apply with_shape_ok; lia.
  - intros _. right. constructor; [split; apply Hv; lia|]. constructor; [reflexivity|constructor].
Defined.

(** A first bucket that the range cuts counts the nulls in, a first bucket that
    it covers does not: with ten values from 1 to 10 and five nulls, fewer rows
    are expected up to 10 than up to 9. *)
Theorem cut_bucket_counts_nulls :
  collect_count (LM := tangent_libm) int_histogram
    [Range.Scope Unbounded (Included (DataValue.Int32 10))] (with_shape 4 2) top_n_default = Ok 10 /\
  collect_count (LM := tangent_libm) int_histogram
    [Range.Scope Unbounded (Included (DataValue.Int32 9))] (with_shape 4 2) top_n_default = Ok 14.
Proof. split; vm_compute; reflexivity. Qed.

(** Booleans have no [<]: the estimate of any range over a boolean key is an
    error, even of a single value, which needs no comparison. *)
Theorem boolean_estimate_fails {OF : OrderedFloat} {FH : OrderedFloatHash} {LM : Libm} {CH : Chrono}
    (self : Histogram) (first : Bucket) (ranges : list Range) (sketch : CountMinSketch) (top_n : ColumnTopN) :
  head (buckets self) = Some first -> logical_type (upper first) = LogicalType.Boolean -> ranges <> [] ->
  existsb range_has_parameter ranges = false ->
  collect_count self ranges sketch top_n = Err UnsupportedBinaryOperator.
Proof.
  intros Hhd Hty Hne Hp. unfold collect_count, collect_count_with. destruct (buckets self) as [|b bs]; [discriminate Hhd|].
  injection Hhd as ->. destruct ranges as [|r rs]; [done|]. by rewrite Hp, Hty.
Qed.

Lemma boolean_estimate_fails_witness :
  collect_count (LM := tangent_libm)
    (mk_histogram (mk_histogram_meta 0 2 0 2 1 f64_1) [mk_bucket (DataValue.Boolean false) (DataValue.Boolean true) 2])
    [Range.Eq (DataValue.Boolean true)] (with_shape 4 2) top_n_default = Err UnsupportedBinaryOperator.
Proof.
  apply (boolean_estimate_fails (LM := tangent_libm) _ (mk_bucket (DataValue.Boolean false) (DataValue.Boolean true) 2));
    [reflexivity|reflexivity|discriminate|reflexivity].
Defined.
