(* ===== verification/ConstantFold.v ===== *)
(** Constant folding (src/src/expression/simplify.rs, [ConstantCalculator], and
    the walk of src/src/expression/visitor_mut.rs it rides on).

    The visitor rewrites expressions of the arena in place; here a reference is
    the tree it denotes, so a visit is a function from trees to trees. It runs
    before [BindEvaluator], on expressions whose operators have no evaluator
    yet. *)

From S2P Require Import Prelude MachineInt Types Operators Value Time32 Chrono FloatArith Text Evaluators Casts Expr.
From S2P Require Import Detach.
From stdpp Require Import base tactics list numbers option.
From Stdlib Require Import ZArith Lia.
Local Open Scope Z_scope.

Section Visit.
Context {OF : OrderedFloat} {CH : Chrono} {SF : ScalarFunctions}.

(** The arms of [visit_expression], once the operands have been visited. *)
Definition calculate_unary (op : UnaryOperator) (arg : ScalarExpression) (evaluator : option Z) (ty : LogicalType)
    : res ScalarExpression :=
  match arg with
  | ScalarExpression.Constant unary_val =>
      if has_parameter unary_val then Ok (ScalarExpression.Unary op arg evaluator ty)
      else
        let? evaluator := match evaluator with Some evaluator => Ok evaluator | None => unary_create ty op end in
        let? value := eval_unary evaluator unary_val in
        Ok (ScalarExpression.Constant value)
  | _ => Ok (ScalarExpression.Unary op arg evaluator ty)
  end.

Definition calculate_binary (op : BinaryOperator) (max_ty : LogicalType) (left_expr right_expr : ScalarExpression)
    (evaluator : option BinaryEvaluatorRef) (ty : LogicalType) : res ScalarExpression :=
  match left_expr, right_expr with
  | ScalarExpression.Constant left_val, ScalarExpression.Constant right_val =>
      if has_parameter left_val || has_parameter right_val
      then Ok (ScalarExpression.Binary op left_expr right_expr evaluator ty)
      else
        let? evaluator := binary_create max_ty op in
        let? left_val := cast left_val max_ty in
        let? right_val := cast right_val max_ty in
        let? value := binary_eval evaluator left_val right_val in
        Ok (ScalarExpression.Constant value)
  | _, _ => Ok (ScalarExpression.Binary op left_expr right_expr evaluator ty)
  end.

Definition calculate_cast (arg : ScalarExpression) (ty : LogicalType) (evaluator : option CastEvaluatorRef)
    : res ScalarExpression :=
  match arg with
  | ScalarExpression.Constant value =>
      if has_parameter value then Ok (ScalarExpression.TypeCast arg ty evaluator)
      else let? casted := cast value ty in Ok (ScalarExpression.Constant casted)
  | _ => Ok (ScalarExpression.TypeCast arg ty evaluator)
  end.

(** [ConstantCalculator] visiting a reference: the three arms above, and
    [walk_mut_expr] on every other expression. *)
Fixpoint calculate (self : ScalarExpression) : res ScalarExpression :=
  let all := fix go (exprs : list ScalarExpression) : res (list ScalarExpression) :=
    match exprs with
    | [] => Ok []
    | e :: exprs' => let? e := calculate e in let? es := go exprs' in Ok (e :: es)
    end in
  let opt (o : option ScalarExpression) : res (option ScalarExpression) :=
    match o with
    | Some e => let? e := calculate e in Ok (Some e)
    | None => Ok None
    end in
  match self with
  | ScalarExpression.Unary op expr evaluator ty =>
      let? expr := calculate expr in calculate_unary op expr evaluator ty
  | ScalarExpression.Binary op left_expr right_expr evaluator ty =>
      let? left_ty := return_type left_expr in
      let? right_ty := return_type right_expr in
      let? max_ty := max_logical_type left_ty right_ty in
      let? left_expr := calculate left_expr in
      let? right_expr := calculate right_expr in
      calculate_binary op max_ty left_expr right_expr evaluator ty
  | ScalarExpression.TypeCast expr ty evaluator =>
      let? expr := calculate expr in calculate_cast expr ty evaluator
  | ScalarExpression.Alias expr alias =>
      let? alias := opt alias in
      let? expr := calculate expr in
      Ok (ScalarExpression.Alias expr alias)
  | ScalarExpression.IsNull negated expr =>
      let? expr := calculate expr in Ok (ScalarExpression.IsNull negated expr)
  | ScalarExpression.AggCall args ty => let? args := all args in Ok (ScalarExpression.AggCall args ty)
  | ScalarExpression.In negated expr args =>
      let? expr := calculate expr in
      let? args := all args in
      Ok (ScalarExpression.In negated expr args)
  | ScalarExpression.Between negated expr left_expr right_expr =>
      let? expr := calculate expr in
      let? left_expr := calculate left_expr in
      let? right_expr := calculate right_expr in
      Ok (ScalarExpression.Between negated expr left_expr right_expr)
  | ScalarExpression.SubString expr for_expr from_expr =>
      let? expr := calculate expr in
      let? for_expr := opt for_expr in
      let? from_expr := opt from_expr in
      Ok (ScalarExpression.SubString expr for_expr from_expr)
  | ScalarExpression.Position expr in_expr =>
      let? expr := calculate expr in
      let? in_expr := calculate in_expr in
      Ok (ScalarExpression.Position expr in_expr)
  | ScalarExpression.Trim expr trim_what_expr trim_where =>
      let? expr := calculate expr in
      let? trim_what_expr := opt trim_what_expr in
      Ok (ScalarExpression.Trim expr trim_what_expr trim_where)
  | ScalarExpression.Tuple exprs => let? exprs := all exprs in Ok (ScalarExpression.Tuple exprs)
  | ScalarExpression.ScalaFunction inner args =>
      let? args := all args in Ok (ScalarExpression.ScalaFunction inner args)
  | ScalarExpression.If condition left_expr right_expr ty =>
      let? condition := calculate condition in
      let? left_expr := calculate left_expr in
      let? right_expr := calculate right_expr in
      Ok (ScalarExpression.If condition left_expr right_expr ty)
  | ScalarExpression.IfNull left_expr right_expr ty =>
      let? left_expr := calculate left_expr in
      let? right_expr := calculate right_expr in
      Ok (ScalarExpression.IfNull left_expr right_expr ty)
  | ScalarExpression.NullIf left_expr right_expr ty =>
      let? left_expr := calculate left_expr in
      let? right_expr := calculate right_expr in
      Ok (ScalarExpression.NullIf left_expr right_expr ty)
  | ScalarExpression.Coalesce exprs ty => let? exprs := all exprs in Ok (ScalarExpression.Coalesce exprs ty)
  | ScalarExpression.CaseWhen operand_expr expr_pairs else_expr ty =>
      let? operand_expr := opt operand_expr in
      let? expr_pairs :=
        (fix go (pairs : list (ScalarExpression * ScalarExpression))
            : res (list (ScalarExpression * ScalarExpression)) :=
          match pairs with
          | [] => Ok []
          | (w, t) :: pairs' =>
              let? w := calculate w in
              let? t := calculate t in
              let? ps := go pairs' in
              Ok ((w, t) :: ps)
          end) expr_pairs in
      let? else_expr := opt else_expr in
      Ok (ScalarExpression.CaseWhen operand_expr expr_pairs else_expr ty)
  | e => Ok e
  end.
End Visit.

(** * Types of folded values *)

Section Types.
Context {OF : OrderedFloat} {CH : Chrono} {SF : ScalarFunctions}.

(** The types a value remembers: a time keeps neither the precision nor the zone
    of its type. *)
Definition remembered (ty : LogicalType) : bool :=
  match ty with
  | LogicalType.Tuple _ | LogicalType.Decimal _ _ | LogicalType.Time _ => false
  | LogicalType.TimeStamp None false => true
  | LogicalType.TimeStamp _ _ => false
  | _ => true
  end.

Definition exact (ty : LogicalType) (v : DataValue) : Prop :=
  v = DataValue.Null \/ (logical_type v = ty /\ has_parameter v = false).

Lemma remembered_scalar ty : remembered ty = true -> scalar ty = true.
Proof. by destruct ty. Qed.

Lemma deep_exact ty v : remembered ty = true -> is_utf8_type ty = false -> deep ty v -> exact ty v.
Proof.
  intros Hr Hu Hd%deep_operand_all. destruct Hd as [_ Hd].
  destruct v; try (by left); right; destruct ty; try done; cbn in Hr; by repeat case_match.
Qed.

Lemma string_cast_exact ty code params s w :
  string_target ty = Some params -> cast_type_code ty = Ok code -> string_cast code params s = Ok w -> exact ty w.
Proof.
  intros Ht Hc H. right. destruct ty; try done; apply (inj Some) in Ht; subst params; apply Ok_inj in Hc; subst code;
    unfold string_cast, to_char, to_varchar in H; cbn in H; repeat case_match; try done; by apply Ok_inj in H; subst w.
Qed.

Lemma cast_evaluator_value {A : Type} (get : DataValue -> option A) body v w :
  cast_evaluator get body v = Ok w -> w = DataValue.Null \/ exists a, body a = Ok w.
Proof. unfold cast_evaluator. repeat case_match; try done; [intros <-%Ok_inj; by left|eauto]. Qed.

(** A cast to a string type gives strings of that very type. *)
Lemma string_cast_eval_exact ty f t params v w :
  is_utf8_type ty = true -> string_target ty = Some params -> cast_type_code ty = Ok t ->
  scalar_cast_eval f t params v = Ok w -> exact ty w.
Proof.
  intros Hu Hp Ht H.
  assert (is_string_code t = true /\ code_numeric t = None /\ (t =? CAST_BOOLEAN) = false /\
    (t =? CAST_FLOAT) = false /\ (t =? CAST_DOUBLE) = false) as (E1 & E2 & E3 & E4 & E5)
    by (destruct ty; try done; apply Ok_inj in Ht; by subst t).
  assert (forall m, (let? text := m in string_cast t params text) = Ok w -> exact ty w) as Hm
    by (intros m (s & _ & Hs)%rbind_ok; by eapply string_cast_exact).
  unfold scalar_cast_eval in H. repeat case_match; try done;
    apply cast_evaluator_value in H as [->|[a H]]; try (by left);
    rewrite ?E1, ?E2, ?E3, ?E4, ?E5 in H; try (by eapply string_cast_exact); try (by eapply Hm).
  all: repeat match type of a with (_ * _)%type => destruct a as [a ?] end;
    apply rbind_ok in H as (m & _ & H); by eapply Hm.
Qed.

Lemma utf8_target ty : is_utf8_type ty = true -> exists params, string_target ty = Some params.
Proof. destruct ty; try done; cbn; eauto. Qed.

Lemma scalar_params_utf8 from ty params :
  is_utf8_type ty = true -> from <> LogicalType.SqlNull -> scalar_params from ty = Some params ->
  string_target ty = Some params.
Proof. intros Hu Hf H. by destruct ty, from. Qed.

(** ** Casts *)

Lemma cast_create_shape from to_ ev :
  cast_create from to_ = Ok ev -> scalar from = true ->
  (from = to_ /\ exists pos, ev = mk_cast_ref pos Identity) \/
  (exists params, from <> to_ /\ scalar_params from to_ = Some params).
Proof.
  intros H Hs. destruct (decide (from = to_)) as [<-|Hne].
  - left. split; [done|]. destruct from; cbn [cast_create] in H; rewrite decide_True in H by done;
      apply rbind_ok in H as (pos & _ & E); apply Ok_inj in E; subst ev; eauto.
  - right. destruct from; try done; cbn [cast_create] in H; rewrite decide_False in H by done;
      destruct (scalar_params _ to_) eqn:E; try done; eauto.
Qed.

(** Null stays null under every cast of a scalar. *)
Lemma cast_null from to_ ev : cast_create from to_ = Ok ev -> scalar from = true -> cast_eval ev DataValue.Null = Ok DataValue.Null.
Proof.
  intros H Hs. destruct (cast_create_shape from to_ ev H Hs) as [[_ [pos ->]]|(params & Hne & Hp)]; [done|].
  destruct (cast_create_scalar from to_ params ev Hne Hp H) as (f & t & Hf & Ht & E).
  destruct (decide (to_ = LogicalType.SqlNull \/ from = LogicalType.SqlNull)) as [Hn|Hn].
  - subst ev. apply cast_eval_null; [by eapply cast_type_code_range|by eapply scalar_params_not_identity|].
    destruct Hn as [-> | ->]; [left; by apply Ok_inj in Ht|right; by apply Ok_inj in Hf].
  - destruct (cast_eval_create from to_ params ev DataValue.Null) as (f' & t' & Hf' & _ & ->); try done; try (by intros E'; apply Hn; auto).
    destruct from; try done; try (by destruct Hn; auto); apply Ok_inj in Hf'; by subst f'.
Qed.

(** A value of the type casts as the evaluator the binder would insert does. *)
Lemma cast_agrees from to_ ev v :
  exact from v -> scalar from = true -> from <> to_ -> cast_create from to_ = Ok ev ->
  cast v to_ = cast_eval ev v.
Proof.
  intros [->|[Hv Hp]] Hs Hne H.
  { rewrite (cast_null from to_ ev H Hs). unfold cast. case_decide; [done|]. by destruct to_. }
  unfold cast. rewrite decide_False by congruence. rewrite Hv, H. cbn [rbind].
  destruct v; try done; [by rewrite (cast_null from to_ ev H Hs)|]. destruct (is_utf8_type to_) eqn:Hu; [|by destruct to_].
  destruct (utf8_target to_ Hu) as [params Ht].
  assert (scalar_params from to_ = Some params) as Hp' by (cbn in Hv; destruct ty; subst from; by destruct to_).
  destruct (cast_eval_create from to_ params ev (DataValue.Utf8 value ty unit)) as (f & t & Hf & Htc & ->); try done.
  - cbn in Hv. by destruct ty; subst from.
  - by destruct to_.
  - assert (scalar_cast_eval f t params (DataValue.Utf8 value ty unit) = string_cast t params value) as ->.
    { assert (f = CAST_CHAR \/ f = CAST_VARCHAR) as Hf' by (cbn in Hv; destruct ty; subst from; apply Ok_inj in Hf; auto).
      assert (t = CAST_CHAR \/ t = CAST_VARCHAR) as Ht' by (destruct to_; try done; apply Ok_inj in Htc; auto).
      destruct Hf' as [-> | ->], Ht' as [-> | ->]; done. }
    destruct to_; try done; apply (inj Some) in Ht; subst params; apply Ok_inj in Htc; by subst t.
Qed.

Lemma cast_exact v ty w :
  (exists from, deep from v) -> remembered ty = true -> target_ok ty -> cast v ty = Ok w -> exact ty w.
Proof.
  intros [from Hd] Hr Ht H. pose proof (remembered_scalar ty Hr) as Hs.
  destruct (decide (logical_type v = ty)) as [E|E].
  { unfold cast in H. rewrite decide_True in H by done. apply Ok_inj in H. subst w.
    apply deep_operand_all in Hd as [_ Hd]. destruct (decide (v = DataValue.Null)); [by left|right].
    split; [done|]. destruct v; try done. subst ty. done. }
  destruct (is_utf8_type ty) eqn:Hu.
  - destruct (utf8_target ty Hu) as [params Hp].
    assert (forall u, logical_type v = u -> u <> LogicalType.SqlNull ->
      (let? ev := cast_create u ty in cast_eval ev v) = Ok w -> exact ty w) as Hgen.
    { intros u Eu Hu0 (ev & He & Hw)%rbind_ok. destruct (scalar u) eqn:Es.
      - destruct (cast_create_shape u ty ev He Es) as [[-> _]|(params' & Hne & Hp')]; [done|].
        rewrite (scalar_params_utf8 u ty params' Hu Hu0 Hp') in Hp. apply (inj Some) in Hp. subst params'.
        destruct (cast_eval_create u ty params ev v) as (f & t & _ & Htc & E2); try done; [by destruct ty|].
        rewrite E2 in Hw. apply (string_cast_eval_exact ty f t params v w); try done.
        by apply (scalar_params_utf8 u).
      - destruct u; try done. by destruct ty. }
    destruct (decide (v = DataValue.Null)) as [->|Hn].
    { unfold cast in H. rewrite decide_False in H by done. by destruct ty; apply Ok_inj in H; subst w; left. }
    unfold cast in H. rewrite decide_False in H by done.
    destruct v; try (eapply Hgen; [reflexivity|done|by destruct ty]); try done.
    { apply deep_operand_all in Hd as [_ Hd]. done. }
    destruct ty; try done; right; unfold to_char, to_varchar in H; repeat case_match; try done; by apply Ok_inj in H; subst w.
  - apply deep_exact; try done. apply (cast_cow_deep from ty v w Hd Hs Ht). unfold cast_cow. by rewrite decide_False.
Qed.

(** ** Operators *)

(** Every operator but AND and OR is unknown on a null. *)
Lemma binary_null ty op ev l r :
  binary_create ty op = Ok ev -> scalar ty = true -> operand ty l -> operand ty r -> is_null l || is_null r = true ->
  op <> BinaryOperator.And -> op <> BinaryOperator.Or -> binary_eval ev l r = Ok DataValue.Null.
Proof.
  intros Hc Hs [_ Hl] [_ Hr] Hn Ha Ho.
  destruct ty; try done; destruct op; try done; cbn in Hc; try done; apply Ok_inj in Hc; subst ev;
    destruct l; try done; destruct r; done.
Qed.

Lemma concat_exact ty ev l r v :
  binary_create ty BinaryOperator.StringConcat = Ok ev -> binary_eval ev l r = Ok v -> exact varchar v.
Proof.
  intros Hc H. destruct ty; try done; cbn in Hc; try done; apply Ok_inj in Hc; subst ev.
  1: apply Ok_inj in H; subst v; by left.
  all: change (utf8_string_concat_binary_eval l r = Ok v) in H; unfold utf8_string_concat_binary_eval, with_operands in H;
    repeat case_match; try done; apply Ok_inj in H; subst v; first [by left|by right].
Qed.

Lemma binary_exact op lt rt m ty ev l r v :
  max_logical_type lt rt = Ok m -> bind_binary_type op lt rt = Ok ty -> binary_create m op = Ok ev ->
  operand m l -> operand m r -> time_arithmetic m op = false -> scalar m = true ->
  binary_eval ev l r = Ok v -> exact ty v.
Proof.
  intros Hm Hb Hc Hl Hr Hta Hs H.
  destruct (decide (op = BinaryOperator.StringConcat)) as [->|Hop].
  { apply Ok_inj in Hb. subst ty. by eapply concat_exact. }
  destruct (decide (m = LogicalType.SqlNull)) as [->|Hm0].
  { cbn in Hc. apply Ok_inj in Hc. subst ev. apply Ok_inj in H. subst v. by left. }
  assert (binary_create m op <> Err UnsupportedBinaryOperator) as Hne by (by rewrite Hc).
  pose proof (bind_binary_result op lt rt m ty Hm Hb Hne Hm0) as Ety.
  pose proof (binary_eval_outcome m op ev l r Hc Hl Hr Hta) as Ho. rewrite H in Ho. unfold binary_outcome in Ho.
  destruct (binary_panics m op l r); [done|]. destruct (binary_overflows m op l r); [done|].
  destruct Ho as (v' & E & Ho). apply Ok_inj in E. subst v' ty.
  apply deep_exact.
  - destruct m; try done; destruct op; try done; cbn in Hc; done.
  - destruct m; try done; destruct op; try done; cbn in Hc; done.
  - apply operand_deep; [|done]. destruct m; try done; destruct op; done.
Qed.

Lemma unary_exact op ty pos v w :
  unary_create ty op = Ok pos -> operand ty v -> eval_unary pos v = Ok w -> exact ty w.
Proof.
  intros Hc Hv H. pose proof (unary_eval_outcome ty op pos v Hc Hv) as Ho. rewrite H in Ho.
  destruct (unary_panics ty op v); [done|]. destruct Ho as (w' & E & Ho). apply Ok_inj in E. subst w'.
  apply deep_exact; [by destruct ty..|]. apply operand_deep; [by destruct ty|done].
Qed.
End Types.

(** * The folded expression *)

Section Sound.
Context {OF : OrderedFloat} {CH : Chrono} {SF : ScalarFunctions}.

(** Wherever the first expression has a value, the second has it. *)
Definition res_le {A : Type} (m m' : res A) : Prop := forall a, m = Ok a -> m' = Ok a.

Definition improves (row : tuple_values) (b b' : ScalarExpression) : Prop := res_le (eval b row) (eval b' row).

(** The type of an expression survives folding, or the folded expression is
    null and has lost it. *)
Definition keeps_type (row : tuple_values) (e e' b' : ScalarExpression) : Prop :=
  forall ty, return_type e = Ok ty -> scalar ty = true ->
    return_type e' = Ok ty \/
    (return_type e' = Ok LogicalType.SqlNull /\ forall v, eval b' row = Ok v -> v = DataValue.Null).

(** An expression folded to a constant has that value. *)
Definition constant_value (row : tuple_values) (b e' : ScalarExpression) : Prop :=
  forall v, e' = ScalarExpression.Constant v -> has_parameter v = false -> eval b row = Ok v.

(** Both expressions being bound, the second can stand for the first. *)
Definition folds_to (row : tuple_values) (e e' : ScalarExpression) : Prop :=
  forall b b', bind_evaluator e = Ok b -> bind_evaluator e' = Ok b' ->
    improves row b b' /\ keeps_type row e e' b' /\ constant_value row b e'.

(** What the binder builds that the fold and the binding of evaluators type
    alike: operators without evaluators on scalars, casts to types a value
    remembers, aliases that are names. *)
Definition node_foldable (e : ScalarExpression) : Prop :=
  match e with
  | ScalarExpression.Unary _ _ evaluator _ => evaluator = None
  | ScalarExpression.Binary _ l r _ _ =>
      forall lt rt m, return_type l = Ok lt -> return_type r = Ok rt -> max_logical_type lt rt = Ok m ->
        scalar lt = true /\ scalar rt = true /\ scalar m = true
  | ScalarExpression.TypeCast expr ty _ =>
      remembered ty = true /\ target_ok ty /\ forall from, return_type expr = Ok from -> scalar from = true
  | ScalarExpression.Alias _ alias => alias = None
  | _ => True
  end.

Inductive foldable : ScalarExpression -> Prop :=
| foldable_node e : Forall foldable (children e) -> node_foldable e -> foldable e.

(** A user function sees its arguments through their values. *)
Definition functions_respect (row : tuple_values) : Prop :=
  forall inner args args', Forall2 (improves row) args args' ->
    res_le (function_eval inner (map (fun e => eval e) args) row)
      (function_eval inner (map (fun e => eval e) args') row).

#[export] Instance res_le_preorder {A : Type} : PreOrder (@res_le A).
Proof. split; [by intros m a|intros m1 m2 m3 H1 H2 a Ha; by apply H2, H1]. Qed.

Lemma rbind_le {A B : Type} (m m' : res A) (k k' : A -> res B) :
  res_le m m' -> (forall a, m = Ok a -> res_le (k a) (k' a)) -> res_le (rbind m k) (rbind m' k').
Proof. intros Hm Hk b (a & Ha & Hb)%rbind_ok. rewrite (Hm a Ha). by apply Hk. Qed.

(** ** The parts of a node *)

Fixpoint calculate_all (exprs : list ScalarExpression) : res (list ScalarExpression) :=
  match exprs with
  | [] => Ok []
  | e :: exprs' => let? e := calculate e in let? es := calculate_all exprs' in Ok (e :: es)
  end.

Fixpoint calculate_pairs (pairs : list (ScalarExpression * ScalarExpression))
    : res (list (ScalarExpression * ScalarExpression)) :=
  match pairs with
  | [] => Ok []
  | (w, t) :: pairs' =>
      let? w := calculate w in
      let? t := calculate t in
      let? ps := calculate_pairs pairs' in
      Ok ((w, t) :: ps)
  end.

Definition calculate_opt (o : option ScalarExpression) : res (option ScalarExpression) :=
  match o with Some e => let? e := calculate e in Ok (Some e) | None => Ok None end.

(** An expression that folds well. *)
Definition folds_well (row : tuple_values) (e : ScalarExpression) : Prop :=
  forall e', calculate e = Ok e' -> folds_to row e e'.

Lemma all_improves row es es' bs bs' :
  Forall (folds_well row) es -> calculate_all es = Ok es' -> bind_all es = Ok bs -> bind_all es' = Ok bs' ->
  Forall2 (improves row) bs bs'.
Proof.
  intros H. revert es' bs bs'. induction H as [|e es He _ IH]; intros es' bs bs' Ec Eb Eb'; cbn in Ec, Eb.
  - apply Ok_inj in Ec, Eb. subst. apply Ok_inj in Eb'. subst. constructor.
  - apply rbind_ok in Ec as (e' & Ee & Ec). apply rbind_ok in Ec as (es1 & Ees & Ec). apply Ok_inj in Ec. subst es'.
    apply rbind_ok in Eb as (b & B & Eb). apply rbind_ok in Eb as (bs1 & Bs & Eb). apply Ok_inj in Eb. subst bs.
    cbn in Eb'. apply rbind_ok in Eb' as (b' & B' & Eb'). apply rbind_ok in Eb' as (bs1' & Bs' & Eb'). apply Ok_inj in Eb'. subst bs'.
    constructor; [by apply (He e' Ee b b')|by apply (IH es1)].
Qed.

Lemma opt_improves row o o' p p' :
  Forall (folds_well row) (option_list o) -> calculate_opt o = Ok o' -> bind_opt o = Ok p -> bind_opt o' = Ok p' ->
  option_Forall2 (improves row) p p'.
Proof.
  intros H Ec Eb Eb'. destruct o as [e|]; cbn in Ec, Eb.
  - apply rbind_ok in Ec as (e' & Ee & Ec). apply Ok_inj in Ec. subst o'.
    apply rbind_ok in Eb as (b & B & Eb). apply Ok_inj in Eb. subst p.
    cbn in Eb'. apply rbind_ok in Eb' as (b' & B' & Eb'). apply Ok_inj in Eb'. subst p'.
    constructor. apply Forall_cons_1 in H as [H _]. by apply (H e' Ee b b').
  - apply Ok_inj in Ec, Eb. subst. apply Ok_inj in Eb'. subst. constructor.
Qed.

Lemma pairs_improve row ps ps' bs bs' :
  Forall (folds_well row) (concat (map (fun '(w, t) => [w; t]) ps)) ->
  calculate_pairs ps = Ok ps' -> bind_pairs ps = Ok bs -> bind_pairs ps' = Ok bs' ->
  Forall2 (fun b b' => improves row b.1 b'.1 /\ improves row b.2 b'.2) bs bs'.
Proof.
  revert ps' bs bs'. induction ps as [|[w t] ps IH]; intros ps' bs bs' H Ec Eb Eb'; cbn in Ec, Eb.
  - apply Ok_inj in Ec, Eb. subst. apply Ok_inj in Eb'. subst. constructor.
  - apply rbind_ok in Ec as (w' & Ew & Ec). apply rbind_ok in Ec as (t' & Et & Ec).
    apply rbind_ok in Ec as (ps1 & Eps & Ec). apply Ok_inj in Ec. subst ps'.
    apply rbind_ok in Eb as (bw & Bw & Eb). apply rbind_ok in Eb as (bt & Bt & Eb).
    apply rbind_ok in Eb as (bs1 & Bs & Eb). apply Ok_inj in Eb. subst bs.
    cbn in Eb'. apply rbind_ok in Eb' as (bw' & Bw' & Eb'). apply rbind_ok in Eb' as (bt' & Bt' & Eb').
    apply rbind_ok in Eb' as (bs1' & Bs' & Eb'). apply Ok_inj in Eb'. subst bs'.
    cbn in H. apply Forall_cons_1 in H as [Hw H]. apply Forall_cons_1 in H as [Ht H].
    constructor; [split; [by apply (Hw w' Ew bw bw')|by apply (Ht t' Et bt bt')]|by apply (IH ps1)].
Qed.

(** ** Evaluation respects improved parts *)

Definition in_args (row : tuple_values) (negated : bool) (value : DataValue)
    : list ScalarExpression -> bool -> res DataValue :=
  fix go args saw_null :=
    match args with
    | [] => Ok (in_verdict negated false saw_null)
    | arg :: args' =>
        let? arg_value := eval arg row in
        if is_null arg_value then go args' true
        else if dv_eq arg_value value then Ok (in_verdict negated true saw_null)
        else go args' saw_null
    end.

Definition first_value (row : tuple_values) : list ScalarExpression -> res DataValue :=
  fix go exprs :=
    match exprs with
    | [] => Ok DataValue.Null
    | e :: exprs' => let? temp := eval e row in if is_null temp then go exprs' else Ok temp
    end.

Definition values_of (row : tuple_values) : list ScalarExpression -> res (list DataValue) :=
  fix go exprs :=
    match exprs with
    | [] => Ok []
    | e :: exprs' => let? v := eval e row in let? vs := go exprs' in Ok (v :: vs)
    end.

Definition case_value (row : tuple_values) (operand_value : option DataValue) (else_ : option ScalarExpression)
    : list (ScalarExpression * ScalarExpression) -> res DataValue :=
  fix go pairs :=
    match pairs with
    | [] => match else_ with Some expr => eval expr row | None => Ok DataValue.Null end
    | (when_expr, result_expr) :: pairs' =>
        let? when_value := eval when_expr row in
        let? hit := when_matches operand_value when_value in
        if hit : bool then eval result_expr row else go pairs'
    end.

(** One step of a comparison of two evaluations. *)
Ltac le_step := repeat first
  [ reflexivity
  | assumption
  | match goal with H : option_Forall2 (improves _) _ _ |- _ => destruct H end
  | apply rbind_le; [|intros ? _]
  | case_match ].

Lemma in_args_improves row negated value args args' saw_null :
  Forall2 (improves row) args args' ->
  res_le (in_args row negated value args saw_null) (in_args row negated value args' saw_null).
Proof. intros H. revert saw_null. induction H; intros saw; cbn [in_args]; fold (in_args row negated value); le_step; auto. Qed.

Lemma first_value_improves row exprs exprs' :
  Forall2 (improves row) exprs exprs' -> res_le (first_value row exprs) (first_value row exprs').
Proof. intros H. induction H; cbn [first_value]; fold (first_value row); le_step. Qed.

Lemma values_of_improves row exprs exprs' :
  Forall2 (improves row) exprs exprs' -> res_le (values_of row exprs) (values_of row exprs').
Proof. intros H. induction H; cbn [values_of]; fold (values_of row); le_step. Qed.

Lemma case_value_improves row operand_value else_ else_' pairs pairs' :
  option_Forall2 (improves row) else_ else_' ->
  Forall2 (fun b b' => improves row b.1 b'.1 /\ improves row b.2 b'.2) pairs pairs' ->
  res_le (case_value row operand_value else_ pairs) (case_value row operand_value else_' pairs').
Proof.
  intros He H. induction H as [|[w t] [w' t'] ps ps' [Hw Ht] _ IH]; cbn [case_value]; [by le_step|].
  fold (case_value row operand_value else_) (case_value row operand_value else_'). cbn in Hw, Ht. by le_step.
Qed.

(** ** The nodes the walk rebuilds *)

Definition node_folds_well (row : tuple_values) (e : ScalarExpression) : Prop :=
  Forall (folds_well row) (children e) -> node_foldable e -> folds_well row e.

Lemma fixed_type row e e' b' : return_type e' = return_type e -> keeps_type row e e' b'.
Proof. intros H ty Hty _. left. by rewrite H. Qed.

(** Take the children of a node one by one. *)
Ltac each_child H :=
  repeat match type of H with
  | Forall _ (_ :: _) => let H1 := fresh "Hx" in apply Forall_cons_1 in H as [H1 H]
  end.

(** Invert what built the folded and the bound node. *)
Ltac invert_node Ec Eb Eb' :=
  repeat match type of Ec with rbind _ _ = Ok _ => apply rbind_ok in Ec as (? & ? & Ec) end; apply Ok_inj in Ec; subst;
  cbn [bind_evaluator] in Eb';
  repeat match type of Eb with rbind _ _ = Ok _ => apply rbind_ok in Eb as (? & ? & Eb) end; apply Ok_inj in Eb; subst;
  repeat match type of Eb' with rbind _ _ = Ok _ => apply rbind_ok in Eb' as (? & ? & Eb') end; apply Ok_inj in Eb'; subst.

(** A folded and bound child improves on the bound one. *)
Ltac child_improves :=
  repeat match goal with
  | H : folds_well ?row ?e, Hc : calculate ?e = Ok ?e', Hb : bind_evaluator ?e = Ok ?b, Hb' : bind_evaluator ?e' = Ok ?b' |- _ =>
      let Hi := fresh "Hi" in
      assert (res_le (eval b row) (eval b' row)) as Hi by (by apply (H e' Hc b b'));
      clear H
  end.

Ltac rebuilt_node Hch Ec Eb Eb' :=
  cbn [children] in Hch; each_child Hch; cbn [calculate] in Ec; cbn [bind_evaluator] in Eb; invert_node Ec Eb Eb';
  child_improves; (split; [intros v; cbn [eval]; revert v|split; [by apply fixed_type|by intros v]]).

Lemma is_null_folds row negated e : node_folds_well row (ScalarExpression.IsNull negated e).
Proof. intros Hch _ e' Ec b b' Eb Eb'. rebuilt_node Hch Ec Eb Eb'. by le_step. Qed.

Lemma between_folds row negated e1 e2 e3 : node_folds_well row (ScalarExpression.Between negated e1 e2 e3).
Proof. intros Hch _ e' Ec b b' Eb Eb'. rebuilt_node Hch Ec Eb Eb'. by le_step. Qed.

Lemma position_folds row e1 e2 : node_folds_well row (ScalarExpression.Position e1 e2).
Proof. intros Hch _ e' Ec b b' Eb Eb'. rebuilt_node Hch Ec Eb Eb'. by le_step. Qed.

Lemma if_folds row e1 e2 e3 ty : node_folds_well row (ScalarExpression.If e1 e2 e3 ty).
Proof. intros Hch _ e' Ec b b' Eb Eb'. rebuilt_node Hch Ec Eb Eb'. by le_step. Qed.

Lemma if_null_folds row e1 e2 ty : node_folds_well row (ScalarExpression.IfNull e1 e2 ty).
Proof. intros Hch _ e' Ec b b' Eb Eb'. rebuilt_node Hch Ec Eb Eb'. by le_step. Qed.

Lemma null_if_folds row e1 e2 ty : node_folds_well row (ScalarExpression.NullIf e1 e2 ty).
Proof. intros Hch _ e' Ec b b' Eb Eb'. rebuilt_node Hch Ec Eb Eb'. by le_step. Qed.

(** The nodes with lists and options, through the named versions of their loops. *)
Ltac invert_binds H := repeat match type of H with rbind _ _ = Ok _ => apply rbind_ok in H as (? & ? & H) end; apply Ok_inj in H; subst.

Lemma agg_call_folds row args ty : node_folds_well row (ScalarExpression.AggCall args ty).
Proof.
  intros _ _ e' Ec b b' Eb Eb'. cbn [calculate] in Ec. invert_binds Ec. cbn [bind_evaluator] in Eb, Eb'.
  invert_binds Eb. invert_binds Eb'. split; [by intros v|]. split; [by apply fixed_type|by intros v].
Qed.

Lemma in_folds row negated e args : node_folds_well row (ScalarExpression.In negated e args).
Proof.
  intros Hch _ e' Ec b b' Eb Eb'. cbn [children] in Hch. each_child Hch.
  change (calculate (ScalarExpression.In negated e args)) with
    (let? expr := calculate e in let? args := calculate_all args in Ok (ScalarExpression.In negated expr args)) in Ec.
  apply rbind_ok in Ec as (x & Ex & Ec). apply rbind_ok in Ec as (args1 & Eargs & Ec). apply Ok_inj in Ec. subst e'.
  assert (forall e args b, bind_evaluator (ScalarExpression.In negated e args) = Ok b ->
    exists x xs, bind_evaluator e = Ok x /\ bind_all args = Ok xs /\ b = ScalarExpression.In negated x xs) as Hinv
    by (intros ? ? ? (x' & ? & (xs & ? & <-%Ok_inj)%rbind_ok)%rbind_ok; by exists x', xs).
  apply Hinv in Eb as (y & ys & Ey & Eys & ->). apply Hinv in Eb' as (y' & ys' & Ey' & Eys' & ->).
  split; [|split; [by apply fixed_type|by intros v]]. pose proof (all_improves row _ _ _ _ Hch Eargs Eys Eys') as Hargs. child_improves.
  change (res_le (let? value := eval y row in if is_null value then Ok DataValue.Null else in_args row negated value ys false)
    (let? value := eval y' row in if is_null value then Ok DataValue.Null else in_args row negated value ys' false)).
  le_step. by apply in_args_improves.
Qed.

Lemma tuple_folds row exprs : node_folds_well row (ScalarExpression.Tuple exprs).
Proof.
  intros Hch _ e' Ec b b' Eb Eb'. cbn [children] in Hch.
  apply rbind_ok in Ec as (es1 & Ees & Ec). apply Ok_inj in Ec. subst e'.
  assert (forall es b, bind_evaluator (ScalarExpression.Tuple es) = Ok b ->
    exists xs, bind_all es = Ok xs /\ b = ScalarExpression.Tuple xs) as Hinv
    by (intros ? ? (xs & ? & <-%Ok_inj)%rbind_ok; by exists xs).
  apply Hinv in Eb as (ys & Eys & ->). apply Hinv in Eb' as (ys' & Eys' & ->).
  pose proof (all_improves row _ _ _ _ Hch Ees Eys Eys') as Hes. split.
  - change (res_le (let? vs := values_of row ys in Ok (DataValue.Tuple vs)) (let? vs := values_of row ys' in Ok (DataValue.Tuple vs))).
    le_step. by apply values_of_improves.
  - split; [|by intros v]. intros ty Hty Hs. apply rbind_ok in Hty as (tys & _ & <-%Ok_inj). done.
Qed.

Lemma coalesce_folds row exprs ty : node_folds_well row (ScalarExpression.Coalesce exprs ty).
Proof.
  intros Hch _ e' Ec b b' Eb Eb'. cbn [children] in Hch.
  apply rbind_ok in Ec as (es1 & Ees & Ec). apply Ok_inj in Ec. subst e'.
  assert (forall es b, bind_evaluator (ScalarExpression.Coalesce es ty) = Ok b ->
    exists xs, bind_all es = Ok xs /\ b = ScalarExpression.Coalesce xs ty) as Hinv
    by (intros ? ? (xs & ? & <-%Ok_inj)%rbind_ok; by exists xs).
  apply Hinv in Eb as (ys & Eys & ->). apply Hinv in Eb' as (ys' & Eys' & ->).
  split; [|split; [by apply fixed_type|by intros v]].
  change (res_le (let? v := first_value row ys in cast_cow v ty) (let? v := first_value row ys' in cast_cow v ty)).
  le_step. apply first_value_improves. by apply (all_improves row _ _ _ _ Hch Ees Eys Eys').
Qed.

Lemma function_folds row inner args :
  functions_respect row -> node_folds_well row (ScalarExpression.ScalaFunction inner args).
Proof.
  intros Hf Hch _ e' Ec b b' Eb Eb'. cbn [children] in Hch.
  apply rbind_ok in Ec as (es1 & Ees & Ec). apply Ok_inj in Ec. subst e'.
  assert (forall es b, bind_evaluator (ScalarExpression.ScalaFunction inner es) = Ok b ->
    exists xs, bind_all es = Ok xs /\ b = ScalarExpression.ScalaFunction inner xs) as Hinv
    by (intros ? ? (xs & ? & <-%Ok_inj)%rbind_ok; by exists xs).
  apply Hinv in Eb as (ys & Eys & ->). apply Hinv in Eb' as (ys' & Eys' & ->).
  split; [|split; [by apply fixed_type|by intros v]]. unfold improves. cbn [eval]. apply rbind_le; [|by intros; reflexivity].
  apply Hf. by apply (all_improves row _ _ _ _ Hch Ees Eys Eys').
Qed.

Lemma substring_folds row e for_expr from_expr : node_folds_well row (ScalarExpression.SubString e for_expr from_expr).
Proof.
  intros Hch _ e' Ec b b' Eb Eb'. cbn [children] in Hch. each_child Hch. apply Forall_app in Hch as [Hfor Hfrom].
  change (calculate (ScalarExpression.SubString e for_expr from_expr)) with
    (let? x := calculate e in let? f := calculate_opt for_expr in let? g := calculate_opt from_expr in
     Ok (ScalarExpression.SubString x f g)) in Ec.
  apply rbind_ok in Ec as (x & Ex & Ec). apply rbind_ok in Ec as (f & Ef & Ec). apply rbind_ok in Ec as (g & Eg & Ec).
  apply Ok_inj in Ec. subst e'.
  assert (forall e o p b, bind_evaluator (ScalarExpression.SubString e o p) = Ok b ->
    exists x y z, bind_evaluator e = Ok x /\ bind_opt o = Ok y /\ bind_opt p = Ok z /\ b = ScalarExpression.SubString x y z) as Hinv
    by (intros ? ? ? ? (x' & ? & (y & ? & (z & ? & <-%Ok_inj)%rbind_ok)%rbind_ok)%rbind_ok; by exists x', y, z).
  apply Hinv in Eb as (y & yf & yg & Ey & Eyf & Eyg & ->). apply Hinv in Eb' as (y' & yf' & yg' & Ey' & Eyf' & Eyg' & ->).
  split; [|split; [by apply fixed_type|by intros v]]. pose proof (opt_improves row _ _ _ _ Hfor Ef Eyf Eyf') as Hf.
  pose proof (opt_improves row _ _ _ _ Hfrom Eg Eyg Eyg') as Hg. child_improves. unfold improves. cbn [eval]. by le_step.
Qed.

Lemma trim_folds row e what where_ : node_folds_well row (ScalarExpression.Trim e what where_).
Proof.
  intros Hch _ e' Ec b b' Eb Eb'. cbn [children] in Hch. each_child Hch.
  change (calculate (ScalarExpression.Trim e what where_)) with
    (let? x := calculate e in let? f := calculate_opt what in Ok (ScalarExpression.Trim x f where_)) in Ec.
  apply rbind_ok in Ec as (x & Ex & Ec). apply rbind_ok in Ec as (f & Ef & Ec). apply Ok_inj in Ec. subst e'.
  assert (forall e o b, bind_evaluator (ScalarExpression.Trim e o where_) = Ok b ->
    exists x y, bind_evaluator e = Ok x /\ bind_opt o = Ok y /\ b = ScalarExpression.Trim x y where_) as Hinv
    by (intros ? ? ? (x' & ? & (y & ? & <-%Ok_inj)%rbind_ok)%rbind_ok; by exists x', y).
  apply Hinv in Eb as (y & yf & Ey & Eyf & ->). apply Hinv in Eb' as (y' & yf' & Ey' & Eyf' & ->).
  split; [|split; [by apply fixed_type|by intros v]]. pose proof (opt_improves row _ _ _ _ Hch Ef Eyf Eyf') as Hf.
  child_improves. unfold improves. cbn [eval]. by le_step.
Qed.

Lemma case_when_folds row operand_ pairs else_ ty : node_folds_well row (ScalarExpression.CaseWhen operand_ pairs else_ ty).
Proof.
  intros Hch _ e' Ec b b' Eb Eb'. cbn [children] in Hch. apply Forall_app in Hch as [Ho Hch]. apply Forall_app in Hch as [Hp He].
  change (calculate (ScalarExpression.CaseWhen operand_ pairs else_ ty)) with
    (let? o := calculate_opt operand_ in let? ps := calculate_pairs pairs in let? el := calculate_opt else_ in
     Ok (ScalarExpression.CaseWhen o ps el ty)) in Ec.
  apply rbind_ok in Ec as (o & Eo & Ec). apply rbind_ok in Ec as (ps & Eps & Ec). apply rbind_ok in Ec as (el & Eel & Ec).
  apply Ok_inj in Ec. subst e'.
  assert (forall o ps el b, bind_evaluator (ScalarExpression.CaseWhen o ps el ty) = Ok b ->
    exists x y z, bind_opt o = Ok x /\ bind_pairs ps = Ok y /\ bind_opt el = Ok z /\ b = ScalarExpression.CaseWhen x y z ty) as Hinv
    by (intros ? ? ? ? (x' & ? & (y & ? & (z & ? & <-%Ok_inj)%rbind_ok)%rbind_ok)%rbind_ok; by exists x', y, z).
  apply Hinv in Eb as (bo & bs & be & Bo & Bs & Be & ->). apply Hinv in Eb' as (bo' & bs' & be' & Bo' & Bs' & Be' & ->).
  split; [|split; [by apply fixed_type|by intros v]]. pose proof (opt_improves row _ _ _ _ Ho Eo Bo Bo') as Hio.
  pose proof (opt_improves row _ _ _ _ He Eel Be Be') as Hie. pose proof (pairs_improve row _ _ _ _ Hp Eps Bs Bs') as Hip.
  change (res_le
    (let? ov := match bo with Some expr => let? v := eval expr row in Ok (Some v) | None => Ok None end in
     let? r := case_value row ov be bs in cast_cow r ty)
    (let? ov := match bo' with Some expr => let? v := eval expr row in Ok (Some v) | None => Ok None end in
     let? r := case_value row ov be' bs' in cast_cow r ty)).
  apply rbind_le; [by le_step|]. intros ov _. apply rbind_le; [|by intros; reflexivity]. by apply case_value_improves.
Qed.

(** ** The nodes that fold *)

Lemma constant_typed row e cv ty :
  keeps_type row e (ScalarExpression.Constant cv) (ScalarExpression.Constant cv) -> has_parameter cv = false ->
  return_type e = Ok ty -> scalar ty = true -> exact ty cv.
Proof.
  intros Hk Hp Ht Hs. destruct (Hk ty Ht Hs) as [E|[E _]]; cbn in E; apply Ok_inj in E; [by right|].
  left. destruct cv; try done. cbn in E. by case_match.
Qed.

Lemma exact_type row ty e v b' : exact ty v -> return_type e = Ok ty -> b' = ScalarExpression.Constant v ->
  keeps_type row e (ScalarExpression.Constant v) b'.
Proof.
  intros [->|[Hv _]] Ht -> ty' Hty' _; rewrite Ht in Hty'; apply Ok_inj in Hty'; subst ty'.
  - right. split; [done|]. intros v Hv. by apply Ok_inj in Hv.
  - left. cbn. by rewrite Hv.
Qed.

Lemma eval_constant row v : has_parameter v = false -> eval (ScalarExpression.Constant v) row = Ok v.
Proof. by destruct v. Qed.

Lemma exact_parameter ty v : exact ty v -> has_parameter v = false.
Proof. by intros [->|[_ ?]]. Qed.

(** What is left to show of a node folded to a constant. *)
Lemma folds_to_constant row e ty v b :
  exact ty v -> return_type e = Ok ty -> eval b row = Ok v ->
  improves row b (ScalarExpression.Constant v) /\
  keeps_type row e (ScalarExpression.Constant v) (ScalarExpression.Constant v) /\
  constant_value row b (ScalarExpression.Constant v).
Proof.
  intros He Ht Hv. split; [|split].
  - intros w Hw. rewrite eval_constant by (by eapply exact_parameter). congruence.
  - by eapply exact_type.
  - by intros w [= <-].
Qed.

Lemma alias_folds row e alias : node_folds_well row (ScalarExpression.Alias e alias).
Proof.
  intros Hch -> e' Ec b b' Eb Eb'. cbn [children] in Hch. each_child Hch.
  cbn [calculate rbind] in Ec. apply rbind_ok in Ec as (x & Ex & Ec). apply Ok_inj in Ec. subst e'.
  cbn [bind_evaluator rbind] in Eb, Eb'. apply rbind_ok in Eb as (y & Ey & Eb). apply Ok_inj in Eb. subst b.
  apply rbind_ok in Eb' as (y' & Ey' & Eb'). apply Ok_inj in Eb'. subst b'.
  destruct (Hx x Ex y y' Ey Ey') as (Hi & Hk & _). split; [|split; [|by intros v]].
  - intros v. cbn [eval]. by destruct row; [apply Hi|].
  - intros ty Hty Hs. destruct (Hk ty Hty Hs) as [E|[E Hn]]; [by left|right]. split; [done|].
    intros v. cbn [eval]. destruct row; [apply Hn|by intros <-%Ok_inj].
Qed.

Lemma unary_folds row op e evaluator ty :
  Forall (binds_well row) [e] -> node_ok row (ScalarExpression.Unary op e evaluator ty) ->
  node_folds_well row (ScalarExpression.Unary op e evaluator ty).
Proof.
  intros Hb (from & Hf & Hu & Hty) Hch Hev e' Ec b b' Eb Eb'. cbn in Hev. subst evaluator.
  cbn [children] in Hch. each_child Hch. apply Forall_cons_1 in Hb as [Hb _].
  cbn [calculate] in Ec. apply rbind_ok in Ec as (x & Ex & Ec).
  cbn [bind_evaluator] in Eb. apply rbind_ok in Eb as (y & Ey & Eb). destruct (Hb y Ey) as [Hty' Hvt].
  unfold bind_unary in Eb. rewrite Hty', Hf in Eb. cbn [rbind] in Eb. rewrite Hu in Eb. cbn [rbind] in Eb.
  rewrite Hty', Hf in Eb. cbn [rbind] in Eb. apply rbind_ok in Eb as (pos & Hpos & Eb). apply Ok_inj in Eb. subst b.
  assert (scalar from = true) as Hs by (by destruct from).
  destruct (calculate_unary op x None ty) as [r|] eqn:Er; [|done]. apply Ok_inj in Ec. subst r.
  assert ((exists cv w pos', x = ScalarExpression.Constant cv /\ has_parameter cv = false /\
      unary_create ty op = Ok pos' /\ eval_unary pos' cv = Ok w /\ e' = ScalarExpression.Constant w) \/
    e' = ScalarExpression.Unary op x None ty) as [(cv & w & pos' & -> & Hp & Hpos' & Hw & ->)| ->].
  { unfold calculate_unary in Er. destruct x; try (apply Ok_inj in Er; subst; by right).
    destruct (has_parameter value) eqn:Hp; [apply Ok_inj in Er; subst; by right|].
    apply rbind_ok in Er as (pos' & Hpos' & Er). apply rbind_ok in Er as (w & Hw & Er). apply Ok_inj in Er. subst e'.
    left. by exists value, w, pos'. }
  - cbn in Eb'. apply Ok_inj in Eb'. subst b'.
    destruct (Hx _ Ex y (ScalarExpression.Constant cv) Ey eq_refl) as (_ & Hk & Hc).
    specialize (Hc cv eq_refl Hp). destruct (Hvt cv Hc) as (t & Et & Hd).
    assert (t = from) as -> by congruence. pose proof (deep_operand_all _ _ Hd) as Ho.
    assert (ty = from) as -> by (destruct op; try done; by destruct from).
    assert (pos' = pos) as -> by congruence.
    eapply folds_to_constant; [by eapply unary_exact|done|]. cbn [eval]. by rewrite Hc.
  - cbn [bind_evaluator] in Eb'. apply rbind_ok in Eb' as (y' & Ey' & Eb').
    destruct (Hx x Ex y y' Ey Ey') as (Hi & Hk & _). split; [|split; [by apply fixed_type|by intros v]].
    unfold bind_unary in Eb'. rewrite (bind_return_type x y' Ey') in Eb'.
    destruct (Hk from Hf Hs) as [E|[E _]]; rewrite E in Eb'; cbn [rbind] in Eb'.
    2: { cbn [is_unsigned_numeric rbind] in Eb'. rewrite (bind_return_type x y' Ey'), E in Eb'. by destruct op. }
    rewrite Hu in Eb'. cbn [rbind] in Eb'. rewrite (bind_return_type x y' Ey'), E in Eb'. cbn [rbind] in Eb'.
    rewrite Hpos in Eb'. apply Ok_inj in Eb'. subst b'. unfold improves. cbn [eval]. by le_step.
Qed.

(** ** Casts *)

(** Evaluation of a bound cast, with or without an evaluator. *)
Lemma bind_type_cast_eval row y from ty b :
  return_type y = Ok from -> bind_type_cast y ty = Ok b ->
  (from = ty /\ eval b row = eval y row) \/
  (from <> ty /\ exists ev, cast_create from ty = Ok ev /\ eval b row = (let? v := eval y row in cast_eval ev v)).
Proof.
  intros Hf E. unfold bind_type_cast in E. rewrite Hf in E. cbn [rbind] in E. destruct (decide (from = ty)).
  - left. split; [done|]. apply Ok_inj in E. subst b. cbn [eval]. by destruct (eval y row).
  - right. split; [done|]. apply rbind_ok in E as (ev & Hev & E). apply Ok_inj in E. subst b. by exists ev.
Qed.

Lemma type_cast_eval row y from ty b :
  return_type y = Ok from -> type_cast y ty = Ok b ->
  (from = ty /\ eval b row = eval y row) \/
  (from <> ty /\ exists ev, cast_create from ty = Ok ev /\ eval b row = (let? v := eval y row in cast_eval ev v)).
Proof.
  intros Hf E. unfold type_cast in E. rewrite Hf in E. cbn [rbind] in E. destruct (decide (from = ty)).
  - left. split; [done|]. apply Ok_inj in E. by subst b.
  - right. split; [done|]. apply rbind_ok in E as (ev & Hev & E). apply Ok_inj in E. subst b. by exists ev.
Qed.

Lemma cast_null_value to_ : cast DataValue.Null to_ = Ok DataValue.Null.
Proof. unfold cast. case_decide; [done|]. by destruct to_. Qed.

(** Casting the constant does what the bound cast does. *)
Lemma cast_constant row y from ty b cv w :
  (from = ty /\ eval b row = eval y row) \/
  (from <> ty /\ exists ev, cast_create from ty = Ok ev /\ eval b row = (let? v := eval y row in cast_eval ev v)) ->
  exact from cv -> scalar from = true -> eval y row = Ok cv -> cast cv ty = Ok w -> eval b row = Ok w.
Proof.
  intros [[-> Hb]|[Hne (ev & Hev & Hb)]] He Hs Hcv Hw.
  - rewrite Hb, Hcv. destruct He as [->|[Ht _]]; [by rewrite cast_null_value in Hw|].
    unfold cast in Hw. by rewrite decide_True in Hw.
  - rewrite Hb, Hcv. cbn [rbind]. by rewrite <- (cast_agrees from ty ev cv He Hs Hne Hev).
Qed.

(** The cast of a part that lost its type to null: still null. *)
Lemma cast_lost row y y' from ty ty' b b' v :
  (from = ty /\ eval b row = eval y row) \/
  (from <> ty /\ exists ev, cast_create from ty = Ok ev /\ eval b row = (let? v := eval y row in cast_eval ev v)) ->
  (LogicalType.SqlNull = ty' /\ eval b' row = eval y' row) \/
  (LogicalType.SqlNull <> ty' /\ exists ev, cast_create LogicalType.SqlNull ty' = Ok ev /\
     eval b' row = (let? v := eval y' row in cast_eval ev v)) ->
  improves row y y' -> (forall w, eval y row = Ok w -> w = DataValue.Null) -> scalar from = true ->
  eval b row = Ok v -> v = DataValue.Null /\ eval b' row = Ok DataValue.Null.
Proof.
  intros Hb Hb' Hi Hn Hs Hv.
  assert (eval y row = Ok DataValue.Null) as Hy.
  { destruct Hb as [[_ Hb]|[_ (ev & _ & Hb)]]; rewrite Hb in Hv.
    - by rewrite <- (Hn v Hv).
    - apply rbind_ok in Hv as (a & Ha & _). by rewrite <- (Hn a Ha). }
  pose proof (Hi _ Hy) as Hy'. split.
  - destruct Hb as [[_ Hb]|[_ (ev & Hev & Hb)]]; rewrite Hb, Hy in Hv; cbn [rbind] in Hv; [by apply Ok_inj in Hv|].
    rewrite (cast_null from ty ev Hev Hs) in Hv. by apply Ok_inj in Hv.
  - destruct Hb' as [[_ ->]|[_ (ev & Hev & ->)]]; [done|]. rewrite Hy'. cbn [rbind]. by eapply cast_null.
Qed.

Lemma type_cast_folds row e ty evaluator :
  Forall (binds_well row) [e] -> node_ok row (ScalarExpression.TypeCast e ty evaluator) ->
  node_folds_well row (ScalarExpression.TypeCast e ty evaluator).
Proof.
  intros Hb Hn Hch (Hr & Ht & Hsc) e' Ec b b' Eb Eb'. cbn [children] in Hch. each_child Hch.
  apply Forall_cons_1 in Hb as [Hb _]. cbn [calculate] in Ec. apply rbind_ok in Ec as (x & Ex & Ec).
  cbn [bind_evaluator] in Eb. apply rbind_ok in Eb as (y & Ey & Eb). destruct (Hb y Ey) as [Hty' Hvt].
  pose proof Eb as Eb0. unfold bind_type_cast in Eb0. apply rbind_ok in Eb0 as (from & Hf & _).
  pose proof (bind_type_cast_eval row y from ty b Hf Eb) as Hbe.
  rewrite Hty' in Hf. pose proof (Hsc from Hf) as Hs.
  assert ((exists cv w, x = ScalarExpression.Constant cv /\ has_parameter cv = false /\
      cast cv ty = Ok w /\ e' = ScalarExpression.Constant w) \/
    e' = ScalarExpression.TypeCast x ty evaluator) as [(cv & w & -> & Hp & Hw & ->)| ->].
  { unfold calculate_cast in Ec. destruct x; try (apply Ok_inj in Ec; subst; by right).
    destruct (has_parameter value) eqn:Hp; [apply Ok_inj in Ec; subst; by right|].
    apply rbind_ok in Ec as (w & Hw & Ec). apply Ok_inj in Ec. subst e'. left. by exists value, w. }
  - cbn in Eb'. apply Ok_inj in Eb'. subst b'.
    destruct (Hx _ Ex y (ScalarExpression.Constant cv) Ey eq_refl) as (_ & Hk & Hc).
    specialize (Hc cv eq_refl Hp). pose proof (constant_typed row e cv from Hk Hp Hf Hs) as He.
    destruct (Hvt cv Hc) as (t & _ & Hd).
    eapply folds_to_constant; [eapply cast_exact; [by exists t|done..]|done|]. by eapply cast_constant.
  - cbn [bind_evaluator] in Eb'. apply rbind_ok in Eb' as (y' & Ey' & Eb').
    destruct (Hx x Ex y y' Ey Ey') as (Hi & Hk & _). split; [|split; [by apply fixed_type|by intros v]].
    pose proof (bind_return_type x y' Ey') as Hrt.
    destruct (Hk from Hf Hs) as [E|[E Hn']].
    + destruct (bind_type_cast_eval row y' from ty b') as [[-> Hb']|[Hne (ev & Hev & Hb')]]; [congruence|done|..].
      * destruct Hbe as [[_ Hbe]|[? _]]; [|done]. unfold improves. by rewrite Hbe, Hb'.
      * destruct Hbe as [[? _]|[_ (ev' & Hev' & Hbe)]]; [done|]. assert (ev' = ev) as -> by congruence.
        unfold improves. rewrite Hbe, Hb'. by le_step.
    + intros v Hv. destruct (cast_lost row y y' from ty ty b b' v Hbe) as [-> ->]; try done; [|intros w Hw; apply Hn', Hi, Hw].
      apply bind_type_cast_eval; [congruence|done].
Qed.

(** ** Binary operators *)

Lemma max_sql_null t : max_logical_type LogicalType.SqlNull t = Ok t /\ max_logical_type t LogicalType.SqlNull = Ok t.
Proof. unfold max_logical_type. split; case_decide as E; try done; [by rewrite <- E|]. by destruct t. Qed.

(** A bound side of an operator: its value is one of the common type. *)
Lemma side_operand row y from m b v :
  (from = m /\ eval b row = eval y row) \/
  (from <> m /\ exists ev, cast_create from m = Ok ev /\ eval b row = (let? v := eval y row in cast_eval ev v)) ->
  cast_or_same from m -> (forall w, eval y row = Ok w -> deep from w) -> eval b row = Ok v -> operand m v.
Proof.
  intros Hb Hc Hd Hv. apply deep_operand_all. destruct Hb as [[-> Hb]|[Hne (ev & Hev & Hb)]]; rewrite Hb in Hv.
  - by apply Hd.
  - apply rbind_ok in Hv as (a & Ha & Hv). destruct Hc as [?|Hc]; [done|].
    pose proof (cast_eval_outcome from m ev a Hc Hev (Hd a Ha)) as Ho. by rewrite Hv in Ho.
Qed.

(** AND and OR with a null whose type is lost: still the boolean evaluator. *)
Lemma connective_type op m ev :
  op = BinaryOperator.And \/ op = BinaryOperator.Or -> binary_create m op = Ok ev ->
  m = LogicalType.Boolean \/ m = LogicalType.SqlNull.
Proof. intros [-> | ->] H; destruct m; try done; by auto. Qed.

Lemma max_boolean lt rt :
  max_logical_type lt rt = Ok LogicalType.Boolean ->
  (lt = LogicalType.Boolean \/ lt = LogicalType.SqlNull) /\ (rt = LogicalType.Boolean \/ rt = LogicalType.SqlNull).
Proof.
  unfold max_logical_type. case_decide as E; [intros [= ->]%Ok_inj; subst; auto|].
  destruct lt, rt; try done; intros H; try (by apply Ok_inj in H; subst; auto);
    try (by vm_compute in H).
  all: cbn -[decide combine_numeric_types] in H; unfold combine_numeric_types in H; cbn -[decide can_implicit_cast] in H;
    repeat case_match; by simplify_eq.
Qed.

Lemma nulls_eval op m ev : binary_create m op = Ok ev -> scalar m = true -> binary_eval ev DataValue.Null DataValue.Null = Ok DataValue.Null.
Proof. intros Hc Hs. destruct m; try done; destruct op; try done; cbn in Hc; try done; apply Ok_inj in Hc; by subst ev. Qed.

(** An operator with a null on one side, at the common type and at the type
    the other side has alone. *)
Lemma null_side op m m' ev ev' l r l' r' v :
  binary_create m op = Ok ev -> binary_create m' op = Ok ev' -> scalar m = true -> scalar m' = true ->
  operand m l -> operand m r -> operand m' l' -> operand m' r' ->
  is_null l || is_null r = true -> is_null l' || is_null r' = true ->
  (op = BinaryOperator.And \/ op = BinaryOperator.Or ->
    (m = m' /\ l = l' /\ r = r') \/ (is_null l && is_null r && is_null l' && is_null r' = true)) ->
  binary_eval ev l r = Ok v -> binary_eval ev' l' r' = Ok v.
Proof.
  intros Hc Hc' Hs Hs' Hl Hr Hl' Hr' Hn Hn' Hop Hv.
  destruct (decide (op = BinaryOperator.And \/ op = BinaryOperator.Or)) as [Ho|Ho].
  - destruct (Hop Ho) as [(-> & -> & ->)|Hall]; [congruence|].
    assert (forall x, is_null x = true -> x = DataValue.Null) as Hnull by (by intros []).
    rewrite !andb_true_iff in Hall. destruct Hall as [[[Nl Nr] Nl'] Nr']. rewrite (Hnull l), (Hnull r), (nulls_eval op m ev Hc Hs) in Hv by done.
    rewrite (Hnull l'), (Hnull r') by done. rewrite <- Hv. by rewrite (nulls_eval op m' ev' Hc' Hs').
  - assert (op <> BinaryOperator.And /\ op <> BinaryOperator.Or) as [Ha Hb] by tauto.
    rewrite (binary_null m op ev l r) in Hv by done. by rewrite (binary_null m' op ev' l' r').
Qed.

(** The two sides of an operator, unfolded and folded, with their types. *)
Record side (row : tuple_values) (y y' : ScalarExpression) (t t' : LogicalType) : Prop := {
  side_type : return_type y = Ok t;
  side_type' : return_type y' = Ok t';
  side_scalar : scalar t = true;
  side_improves : improves row y y';
  side_deep : forall w, eval y row = Ok w -> deep t w;
  side_kept : t' = t \/ (t' = LogicalType.SqlNull /\ forall w, eval y' row = Ok w -> w = DataValue.Null);
}.

Lemma side_null row y y' t : side row y y' t LogicalType.SqlNull -> forall w, eval y row = Ok w -> w = DataValue.Null.
Proof.
  intros [_ _ _ Hi Hd [Hk|[_ Hk]]] w Hw; [|by apply Hk, Hi].
  specialize (Hd w Hw). rewrite <- Hk in Hd. apply deep_operand_all in Hd as [_ Hd]. by destruct w.
Qed.

(** A side whose folded type is null, cast to the two common types. *)
Lemma side_lost row y y' t m m' b b' v :
  side row y y' t LogicalType.SqlNull -> type_cast y m = Ok b -> type_cast y' m' = Ok b' -> eval b row = Ok v ->
  v = DataValue.Null /\ eval b' row = Ok DataValue.Null.
Proof.
  intros Hs Hb Hb' Hv. pose proof (side_null row y y' t Hs) as Hn. destruct Hs as [Ht Ht' Hsc Hi _ _].
  eapply (cast_lost row y y' t m m' b b' v); try done; by apply type_cast_eval.
Qed.

(** A side whose type is kept and is the common type of the folded operator. *)
Lemma side_own row y y' t b' w : side row y y' t t -> type_cast y' t = Ok b' -> eval y row = Ok w -> eval b' row = Ok w.
Proof.
  intros [Ht Ht' _ Hi _ _] Hb' Hw. rewrite type_cast_same in Hb' by done. apply Ok_inj in Hb'. subst b'. by apply Hi.
Qed.

(** A side of which both common types are the same. *)
Lemma side_same row y y' t m b b' : side row y y' t t -> type_cast y m = Ok b -> type_cast y' m = Ok b' -> improves row b b'.
Proof.
  intros [Ht Ht' _ Hi _ _] Hb Hb'.
  destruct (type_cast_eval row y t m b Ht Hb) as [[E0 E]|[Hne (ev & Hev & E)]],
    (type_cast_eval row y' t m b' Ht' Hb') as [[E1 E']|[Hne' (ev' & Hev' & E')]]; try done; unfold improves; rewrite E, E'; [done|].
  assert (ev' = ev) as -> by congruence. by le_step.
Qed.

(** The operator on a folded left side that lost its type. *)
Lemma lost_left row op yl yl' yr yr' lt rt rt' m m' tl tl' tr tr' ev ev' v :
  side row yl yl' lt LogicalType.SqlNull -> side row yr yr' rt rt' ->
  max_logical_type lt rt = Ok m -> max_logical_type LogicalType.SqlNull rt' = Ok m' -> scalar m = true ->
  cast_or_same lt m -> cast_or_same rt m ->
  type_cast yl m = Ok tl -> type_cast yr m = Ok tr -> type_cast yl' m' = Ok tl' -> type_cast yr' m' = Ok tr' ->
  binary_create m op = Ok ev -> binary_create m' op = Ok ev' ->
  (let? a := eval tl row in let? c := eval tr row in binary_eval ev a c) = Ok v ->
  (let? a := eval tl' row in let? c := eval tr' row in binary_eval ev' a c) = Ok v.
Proof.
  intros Sl Sr Hm Hm' Hs Cl Cr Bl Br Bl' Br' Hev Hev' (a & Ha & (c & Hc & Hv)%rbind_ok)%rbind_ok.
  destruct (side_lost row yl yl' lt m m' tl tl' a Sl Bl Bl' Ha) as [-> ->]. cbn [rbind].
  rewrite (proj1 (max_sql_null rt')) in Hm'. apply Ok_inj in Hm'. subst m'.
  pose proof (side_operand row yr rt m tr c (type_cast_eval row yr rt m tr (side_type _ _ _ _ _ Sr) Br) Cr (side_deep _ _ _ _ _ Sr) Hc) as Oc.
  destruct (decide (rt' = LogicalType.SqlNull)) as [->|Hne].
  { destruct (side_lost row yr yr' rt m LogicalType.SqlNull tr tr' c Sr Br Br' Hc) as [-> ->]. cbn [rbind].
    refine (null_side op m LogicalType.SqlNull ev ev' DataValue.Null DataValue.Null DataValue.Null DataValue.Null v
      Hev Hev' Hs eq_refl (null_operand _) (null_operand _) (null_operand _) (null_operand _) eq_refl eq_refl _ Hv).
    intros _. by right. }
  destruct (side_kept _ _ _ _ _ Sr) as [->|[? _]]; [|done].
  pose proof (type_cast_eval row yr rt m tr (side_type _ _ _ _ _ Sr) Br) as Et.
  assert (exists c0, eval yr row = Ok c0 /\ (rt = m -> c = c0)) as (c0 & Hc0 & Eq).
  { destruct Et as [[-> E]|[Hrm (e & _ & E)]]; rewrite E in Hc; [by exists c|].
    apply rbind_ok in Hc as (c0 & Hc0 & _). by exists c0. }
  rewrite (side_own row yr yr' rt tr' c0 Sr Br' Hc0). cbn [rbind].
  refine (null_side op m rt ev ev' DataValue.Null c DataValue.Null c0 v
    Hev Hev' Hs (side_scalar _ _ _ _ _ Sr) (null_operand _) Oc (null_operand _) _ eq_refl eq_refl _ Hv).
  - by apply deep_operand_all, (side_deep _ _ _ _ _ Sr).
  - intros Ho. left. destruct (connective_type op rt ev' Ho Hev') as [-> | ->]; [|done].
    assert (m = LogicalType.Boolean) as -> by (destruct (connective_type op m ev Ho Hev) as [-> | ->]; [done|];
      destruct lt; try done; by vm_compute in Hm).
    rewrite Eq; done.
Qed.

(** The same for the right side, the left one having kept its type. *)
Lemma lost_right row op yl yl' yr yr' lt rt m m' tl tl' tr tr' ev ev' v :
  side row yl yl' lt lt -> side row yr yr' rt LogicalType.SqlNull -> lt <> LogicalType.SqlNull ->
  max_logical_type lt rt = Ok m -> max_logical_type lt LogicalType.SqlNull = Ok m' -> scalar m = true ->
  cast_or_same lt m -> cast_or_same rt m ->
  type_cast yl m = Ok tl -> type_cast yr m = Ok tr -> type_cast yl' m' = Ok tl' -> type_cast yr' m' = Ok tr' ->
  binary_create m op = Ok ev -> binary_create m' op = Ok ev' ->
  (let? a := eval tl row in let? c := eval tr row in binary_eval ev a c) = Ok v ->
  (let? a := eval tl' row in let? c := eval tr' row in binary_eval ev' a c) = Ok v.
Proof.
  intros Sl Sr Hne Hm Hm' Hs Cl Cr Bl Br Bl' Br' Hev Hev' (a & Ha & (c & Hc & Hv)%rbind_ok)%rbind_ok.
  destruct (side_lost row yr yr' rt m m' tr tr' c Sr Br Br' Hc) as [-> ->].
  rewrite (proj2 (max_sql_null lt)) in Hm'. apply Ok_inj in Hm'. subst m'.
  pose proof (type_cast_eval row yl lt m tl (side_type _ _ _ _ _ Sl) Bl) as Et.
  pose proof (side_operand row yl lt m tl a Et Cl (side_deep _ _ _ _ _ Sl) Ha) as Oa.
  assert (exists a0, eval yl row = Ok a0 /\ (lt = m -> a = a0)) as (a0 & Ha0 & Eq).
  { destruct Et as [[-> E]|[Hlm (e & _ & E)]]; rewrite E in Ha; [by exists a|].
    apply rbind_ok in Ha as (a0 & Ha0 & _). by exists a0. }
  rewrite (side_own row yl yl' lt tl' a0 Sl Bl' Ha0). cbn [rbind].
  refine (null_side op m lt ev ev' a DataValue.Null a0 DataValue.Null v
    Hev Hev' Hs (side_scalar _ _ _ _ _ Sl) Oa (null_operand _) _ (null_operand _) _ _ _ Hv).
  - by apply deep_operand_all, (side_deep _ _ _ _ _ Sl).
  - by rewrite orb_true_r.
  - by rewrite orb_true_r.
  - intros Ho. left. destruct (connective_type op lt ev' Ho Hev') as [-> | ->]; [|done].
    assert (m = LogicalType.Boolean) as -> by (destruct (connective_type op m ev Ho Hev) as [-> | ->]; [done|];
      destruct rt; try done; by vm_compute in Hm).
    rewrite Eq; done.
Qed.

Lemma binary_folds row op l r evaluator ty :
  Forall (binds_well row) [l; r] -> node_ok row (ScalarExpression.Binary op l r evaluator ty) ->
  node_folds_well row (ScalarExpression.Binary op l r evaluator ty).
Proof.
  intros Hb (lt & rt & m & Hl & Hr & Hm & Hty & Cl & Cr & Hta) Hch Hfold e' Ec b b' Eb Eb'.
  cbn [children] in Hch. each_child Hch. apply Forall_cons_1 in Hb as [Hbl Hb]. apply Forall_cons_1 in Hb as [Hbr _].
  destruct (Hfold lt rt m Hl Hr Hm) as (Sl & Sr & Sm).
  cbn [calculate] in Ec. rewrite Hl, Hr in Ec. cbn [rbind] in Ec. rewrite Hm in Ec. cbn [rbind] in Ec.
  apply rbind_ok in Ec as (xl & Exl & Ec). apply rbind_ok in Ec as (xr & Exr & Ec).
  cbn [bind_evaluator] in Eb. apply rbind_ok in Eb as (yl & Eyl & Eb). apply rbind_ok in Eb as (yr & Eyr & Eb).
  destruct (Hbl yl Eyl) as [Htl Hvl], (Hbr yr Eyr) as [Htr Hvr].
  unfold bind_binary in Eb. rewrite Htl, Htr, Hl, Hr in Eb. cbn [rbind] in Eb. rewrite Hm in Eb. cbn [rbind] in Eb.
  apply rbind_ok in Eb as (tl & Etl & Eb). apply rbind_ok in Eb as (tr & Etr & Eb).
  apply rbind_ok in Eb as (ev & Hev & Eb). apply Ok_inj in Eb. subst b.
  assert (forall w, eval yl row = Ok w -> deep lt w) as Dl by (intros w Hw; destruct (Hvl w Hw) as (t & ? & ?); congruence).
  assert (forall w, eval yr row = Ok w -> deep rt w) as Dr by (intros w Hw; destruct (Hvr w Hw) as (t & ? & ?); congruence).
  assert (return_type yl = Ok lt /\ return_type yr = Ok rt) as [Tl Tr] by (split; congruence).
  assert ((exists c1 c2 ev' w1 w2 w, xl = ScalarExpression.Constant c1 /\ xr = ScalarExpression.Constant c2 /\
      has_parameter c1 = false /\ has_parameter c2 = false /\ binary_create m op = Ok ev' /\
      cast c1 m = Ok w1 /\ cast c2 m = Ok w2 /\ binary_eval ev' w1 w2 = Ok w /\ e' = ScalarExpression.Constant w) \/
    e' = ScalarExpression.Binary op xl xr evaluator ty)
    as [(c1 & c2 & ev' & w1 & w2 & w & -> & -> & P1 & P2 & Hev' & W1 & W2 & Hw & ->)| ->].
  { unfold calculate_binary in Ec. destruct xl; try (apply Ok_inj in Ec; subst; by right).
    destruct xr; try (apply Ok_inj in Ec; subst; by right).
    destruct (has_parameter value) eqn:P1; [apply Ok_inj in Ec; subst; by right|].
    destruct (has_parameter value0) eqn:P2; [apply Ok_inj in Ec; subst; by right|].
    cbn [orb] in Ec. apply rbind_ok in Ec as (ev' & Hev' & Ec). apply rbind_ok in Ec as (w1 & W1 & Ec).
    apply rbind_ok in Ec as (w2 & W2 & Ec). apply rbind_ok in Ec as (w & Hw & Ec). apply Ok_inj in Ec. subst e'.
    left. by exists value, value0, ev', w1, w2, w. }
  - cbn in Eb'. apply Ok_inj in Eb'. subst b'. assert (ev' = ev) as -> by congruence.
    destruct (Hx _ Exl yl (ScalarExpression.Constant c1) Eyl eq_refl) as (_ & K1 & V1).
    destruct (Hx0 _ Exr yr (ScalarExpression.Constant c2) Eyr eq_refl) as (_ & K2 & V2).
    specialize (V1 c1 eq_refl P1). specialize (V2 c2 eq_refl P2).
    pose proof (constant_typed row l c1 lt K1 P1 Hl Sl) as X1. pose proof (constant_typed row r c2 rt K2 P2 Hr Sr) as X2.
    pose proof (type_cast_eval row yl lt m tl Tl Etl) as El. pose proof (type_cast_eval row yr rt m tr Tr Etr) as Er.
    pose proof (cast_constant row yl lt m tl c1 w1 El X1 Sl V1 W1) as E1.
    pose proof (cast_constant row yr rt m tr c2 w2 Er X2 Sr V2 W2) as E2.
    eapply folds_to_constant; [|done|cbn [eval]; rewrite E1, E2; exact Hw].
    eapply (binary_exact op lt rt m ty ev w1 w2); try eassumption;
      [exact (side_operand row yl lt m tl w1 El Cl Dl E1)|exact (side_operand row yr rt m tr w2 Er Cr Dr E2)].
  - cbn [bind_evaluator] in Eb'. apply rbind_ok in Eb' as (yl' & Eyl' & Eb'). apply rbind_ok in Eb' as (yr' & Eyr' & Eb').
    destruct (Hx xl Exl yl yl' Eyl Eyl') as (I1 & K1 & _), (Hx0 xr Exr yr yr' Eyr Eyr') as (I2 & K2 & _).
    split; [|split; [by apply fixed_type|by intros v]].
    unfold bind_binary in Eb'. apply rbind_ok in Eb' as (lt' & Tl' & Eb'). apply rbind_ok in Eb' as (rt' & Tr' & Eb').
    apply rbind_ok in Eb' as (m' & Hm' & Eb'). apply rbind_ok in Eb' as (tl' & Etl' & Eb').
    apply rbind_ok in Eb' as (tr' & Etr' & Eb'). apply rbind_ok in Eb' as (ev' & Hev' & Eb'). apply Ok_inj in Eb'. subst b'.
    assert (side row yl yl' lt lt') as SL.
    { constructor; try done. specialize (K1 lt Hl Sl). rewrite <- (bind_return_type xl yl' Eyl'), Tl' in K1.
      destruct K1 as [K|[K Kn]]; apply Ok_inj in K; auto. }
    assert (side row yr yr' rt rt') as SR.
    { constructor; try done. specialize (K2 rt Hr Sr). rewrite <- (bind_return_type xr yr' Eyr'), Tr' in K2.
      destruct K2 as [K|[K Kn]]; apply Ok_inj in K; auto. }
    intros v. cbn [eval]. destruct (decide (lt' = LogicalType.SqlNull)) as [->|Nl]; [by eapply lost_left|].
    destruct (side_kept _ _ _ _ _ SL) as [->|[? _]]; [|done].
    destruct (decide (rt' = LogicalType.SqlNull)) as [->|Nr]; [by eapply lost_right|].
    destruct (side_kept _ _ _ _ _ SR) as [->|[? _]]; [|done].
    assert (m' = m) as -> by congruence. assert (ev' = ev) as -> by congruence. revert v.
    pose proof (side_same row yl yl' lt m tl tl' SL Etl Etl') as Jl.
    pose proof (side_same row yr yr' rt m tr tr' SR Etr Etr') as Jr.
    unfold improves in Jl, Jr. by le_step.
Qed.

(** ** Every node *)

Lemma unchanged_folds row e :
  calculate e = Ok e -> (forall v, e = ScalarExpression.Constant v -> bind_evaluator e = Ok e) -> folds_well row e.
Proof.
  intros Hc Hb e' Ec b b' Eb Eb'. assert (e' = e) as -> by congruence. assert (b' = b) as -> by congruence.
  split; [by intros v|]. split; [by apply fixed_type|]. intros v -> Hp.
  specialize (Hb v eq_refl). assert (b = ScalarExpression.Constant v) as -> by congruence. by apply eval_constant.
Qed.

Lemma node_folds row e :
  functions_respect row -> Forall (binds_well row) (children e) -> node_ok row e -> node_folds_well row e.
Proof.
  intros Hf Hb Hn.
  destruct e; try (intros _ _; by apply unchanged_folds);
    first [ by apply alias_folds | by apply type_cast_folds | by apply unary_folds | by apply binary_folds
          | apply is_null_folds | apply between_folds | apply position_folds | apply if_folds | apply if_null_folds
          | apply null_if_folds | apply agg_call_folds | apply in_folds | apply tuple_folds | apply coalesce_folds
          | by apply function_folds | apply substring_folds | apply trim_folds | apply case_when_folds ].
Qed.

End Sound.

(** * Deviations *)

(** A time value does not keep the precision and the zone of its type, so a
    folded cast to TIMESTAMP(3) has the type TIMESTAMP: the comparison the
    query was written with can no longer be bound. *)
Theorem folded_timestamp_incomparable {OF : OrderedFloat} {CH : Chrono} {SF : ScalarFunctions} :
  let ty := LogicalType.TimeStamp (Some 3) false in
  let e := ScalarExpression.Binary BinaryOperator.Eq (ScalarExpression.ColumnRef ty 0)
    (ScalarExpression.TypeCast (ScalarExpression.Constant (DataValue.Date64 0)) ty None) None LogicalType.Boolean in
  (exists b, bind_evaluator e = Ok b) /\
  exists e', calculate e = Ok e' /\ bind_evaluator e' = Err (Incomparable ty (LogicalType.TimeStamp None false)).
Proof. split; [eexists; reflexivity|]. eexists. split; reflexivity. Qed.

(** * Witness *)

(** [c + (2 * 3)] over an INTEGER column. *)
Definition fold_column : ScalarExpression := ScalarExpression.ColumnRef LogicalType.Integer 0.
Definition fold_expr : ScalarExpression :=
  ScalarExpression.Binary BinaryOperator.Plus fold_column
    (ScalarExpression.Binary BinaryOperator.Multiply (ScalarExpression.Constant (DataValue.Int32 2))
       (ScalarExpression.Constant (DataValue.Int32 3)) None LogicalType.Integer) None LogicalType.Integer.
Definition fold_row : tuple_values := Some [DataValue.Int32 7].

Lemma fold_admissible : admissible fold_row fold_expr /\ foldable fold_expr.
Proof.
  assert (forall n, in_s 32 n -> admissible fold_row (ScalarExpression.Constant (DataValue.Int32 n))) as Hc
    by (intros n Hn; apply admissible_node; [constructor|by split]).
  split.
  - apply admissible_node.
    + children_of.
      * apply admissible_node; [constructor|]. intros values v [= <-] [= <-]. split; [vm_compute; intuition congruence|done].
      * apply admissible_node; [children_of; apply Hc; vm_compute; intuition congruence|].
        eexists _, _, _. repeat (split; [reflexivity|]). split; [by left|]. split; [by left|done].
    + eexists _, _, _. repeat (split; [reflexivity|]). split; [by left|]. split; [by left|done].
  - repeat (apply foldable_node; [children_of|]; try done); intros lt rt m [= <-] [= <-] [= <-]; done.
Qed.

