(* ===== verification/Simplify.v ===== *)
(** Simplification of predicates (src/src/expression/simplify.rs, [Simplify],
    and src/src/optimizer/rule/normalization/simplification.rs).

    [Simplify] turns IN and BETWEEN into comparisons, pushes NOT into range
    comparisons, and moves the terms beside a column to the other side of a
    comparison; the terms it has met on the way down are the stack [replaces].
    References are the trees they denote: IN and BETWEEN copy the reference of
    their operand, which the code then visits once per copy, so the trees agree
    with the arena where a visit leaves that operand alone - a column, say. The
    visitor calls itself on the expressions it has built; here it has fuel, and
    running out of it is [Err Panic]. *)

From S2P Require Import Prelude MachineInt Types Operators Value Time32 Chrono FloatArith Text Evaluators Casts Expr.
From S2P Require Import Reader MemComparable Serdes Ranges Detach ConstantFold.
From stdpp Require Import base tactics list numbers option.
From Stdlib Require Import ZArith Lia.
Local Open Scope Z_scope.

Section Simplify.
Context {OF : OrderedFloat} {CH : Chrono} {SF : ScalarFunctions}.

Record ReplaceBinary := mk_replace_binary {
  column_expr : ScalarExpression;
  val_expr : ScalarExpression;
  binary_op : BinaryOperator;
  binary_ty : LogicalType;
  is_column_left : bool;
}.

Record ReplaceUnary := mk_replace_unary {
  child_expr : ScalarExpression;
  unary_op : UnaryOperator;
  unary_ty : LogicalType;
}.

Inductive Replace :=
| Replace_Binary (binary : ReplaceBinary)
| Replace_Unary (unary : ReplaceUnary).

Definition is_arithmetic (op : BinaryOperator) : bool :=
  match op with
  | BinaryOperator.Plus | BinaryOperator.Divide | BinaryOperator.Minus | BinaryOperator.Multiply => true
  | _ => false
  end.

Definition is_rearrangeable_comparison (op : BinaryOperator) : bool :=
  match op with
  | BinaryOperator.Gt | BinaryOperator.Lt | BinaryOperator.GtEq | BinaryOperator.LtEq
  | BinaryOperator.Eq | BinaryOperator.NotEq => true
  | _ => false
  end.

Definition negate_range_comparison (op : BinaryOperator) : option BinaryOperator :=
  match op with
  | BinaryOperator.Gt => Some BinaryOperator.LtEq
  | BinaryOperator.GtEq => Some BinaryOperator.Lt
  | BinaryOperator.Lt => Some BinaryOperator.GtEq
  | BinaryOperator.LtEq => Some BinaryOperator.Gt
  | _ => None
  end.

Definition take_range_comparison (expr : ScalarExpression) : option ScalarExpression :=
  match expr with
  | ScalarExpression.Binary op _ _ _ _ =>
      match negate_range_comparison op with Some _ => Some expr | None => None end
  | _ => None
  end.

Definition take_negated_range_comparison (expr : ScalarExpression) : option ScalarExpression :=
  match expr with
  | ScalarExpression.Binary op left_expr right_expr evaluator ty =>
      match negate_range_comparison op with
      | Some op => Some (ScalarExpression.Binary op left_expr right_expr evaluator ty)
      | None => None
      end
  | _ => None
  end.

Definition boolean_constant (expr : ScalarExpression) : option bool :=
  match expr with
  | ScalarExpression.Constant (DataValue.Boolean value) => Some value
  | _ => None
  end.

Definition take_range_comparison_with_polarity (expr : ScalarExpression) (positive : bool) : option ScalarExpression :=
  if positive then take_range_comparison expr else take_negated_range_comparison expr.

Definition take_bool_normalized_range_comparison (op : BinaryOperator) (left_expr right_expr : ScalarExpression)
    : option ScalarExpression :=
  let is_eq := match op with BinaryOperator.Eq => true | _ => false end in
  match op with
  | BinaryOperator.Eq | BinaryOperator.NotEq =>
      match boolean_constant right_expr with
      | Some value => take_range_comparison_with_polarity left_expr (if is_eq then value else negb value)
      | None =>
          match boolean_constant left_expr with
          | Some value => take_range_comparison_with_polarity right_expr (if is_eq then value else negb value)
          | None => None
          end
      end
  | _ => None
  end.

Definition fix_unary (replace_unary : ReplaceUnary) (col_expr val_expr : ScalarExpression) (op : BinaryOperator)
    : ScalarExpression * ScalarExpression * BinaryOperator :=
  let '(mk_replace_unary child_expr fix_op fix_ty) := replace_unary in
  (child_expr, ScalarExpression.Unary fix_op val_expr None fix_ty,
   match fix_op with
   | UnaryOperator.Plus => op
   | UnaryOperator.Minus =>
       match op with
       | BinaryOperator.Plus => BinaryOperator.Minus
       | BinaryOperator.Minus => BinaryOperator.Plus
       | BinaryOperator.Multiply => BinaryOperator.Divide
       | BinaryOperator.Divide => BinaryOperator.Multiply
       | BinaryOperator.Gt => BinaryOperator.Lt
       | BinaryOperator.Lt => BinaryOperator.Gt
       | BinaryOperator.GtEq => BinaryOperator.LtEq
       | BinaryOperator.LtEq => BinaryOperator.GtEq
       | source_op => source_op
       end
   | UnaryOperator.Not =>
       match op with
       | BinaryOperator.Gt => BinaryOperator.Lt
       | BinaryOperator.Lt => BinaryOperator.Gt
       | BinaryOperator.GtEq => BinaryOperator.LtEq
       | BinaryOperator.LtEq => BinaryOperator.GtEq
       | source_op => source_op
       end
   end).

Definition op_flip (op : BinaryOperator) : res BinaryOperator :=
  match op with
  | BinaryOperator.Plus => Ok BinaryOperator.Minus
  | BinaryOperator.Minus => Ok BinaryOperator.Plus
  | BinaryOperator.Multiply => Ok BinaryOperator.Divide
  | BinaryOperator.Divide => Ok BinaryOperator.Multiply
  | _ => Err Panic
  end.

Definition comparison_flip (op : BinaryOperator) : BinaryOperator :=
  match op with
  | BinaryOperator.Gt => BinaryOperator.Lt
  | BinaryOperator.GtEq => BinaryOperator.LtEq
  | BinaryOperator.Lt => BinaryOperator.Gt
  | BinaryOperator.LtEq => BinaryOperator.GtEq
  | source_op => source_op
  end.

Definition fix_binary (replace_binary : ReplaceBinary) (left_expr right_expr : ScalarExpression) (op : BinaryOperator)
    : res (ScalarExpression * ScalarExpression * BinaryOperator) :=
  let '(mk_replace_binary column_expr val_expr fix_op fix_ty is_column_left) := replace_binary in
  let? (fixed_op, fixed_left_expr, fixed_right_expr, op) :=
    if is_column_left then let? flipped := op_flip fix_op in Ok (flipped, right_expr, val_expr, op)
    else
      let op := match fix_op with
                | BinaryOperator.Minus | BinaryOperator.Multiply => comparison_flip op
                | _ => op
                end in
      Ok (fix_op, val_expr, right_expr, op) in
  Ok (column_expr, ScalarExpression.Binary fixed_op fixed_left_expr fixed_right_expr None fix_ty, op).

(** The terms an arithmetic operator adds to the stack. *)
Definition replace_of (op : BinaryOperator) (left_expr right_expr : ScalarExpression) (ty : LogicalType)
    (column : LogicalType * nat) (is_column_left : bool) : Replace :=
  Replace_Binary (mk_replace_binary (ScalarExpression.ColumnRef column.1 column.2)
    (if is_column_left then right_expr else left_expr) op ty is_column_left).

Definition push_arithmetic (op : BinaryOperator) (left_expr right_expr : ScalarExpression) (ty : LogicalType)
    (replaces : list Replace) : list Replace :=
  match unpack_bound_col left_expr false, unpack_bound_col right_expr false with
  | Some col, None => replace_of op left_expr right_expr ty col true :: replaces
  | None, Some col => replace_of op left_expr right_expr ty col false :: replaces
  | None, None =>
      match replaces with
      | [] => replaces
      | _ =>
          match unpack_bound_col left_expr true, unpack_bound_col right_expr true with
          | Some col, None => replace_of op left_expr right_expr ty col true :: replaces
          | None, Some col => replace_of op left_expr right_expr ty col false :: replaces
          | _, _ => replaces
          end
      end
  | _, _ => replaces
  end.

(** IN and BETWEEN as comparisons. *)
Definition in_comparison (op : BinaryOperator) (expr arg : ScalarExpression) : ScalarExpression :=
  ScalarExpression.Binary op expr arg None LogicalType.Boolean.

Definition in_comparisons (negated : bool) (expr first : ScalarExpression) (args : list ScalarExpression)
    : ScalarExpression :=
  let '(op_1, op_2) :=
    if negated then (BinaryOperator.NotEq, BinaryOperator.And) else (BinaryOperator.Eq, BinaryOperator.Or) in
  fold_left (fun new_expr arg =>
      ScalarExpression.Binary op_2 (in_comparison op_1 expr arg) new_expr None LogicalType.Boolean)
    args (in_comparison op_1 expr first).

Definition between_comparisons (negated : bool) (expr left_expr right_expr : ScalarExpression) : ScalarExpression :=
  let '(op, left_op, right_op) :=
    if negated then (BinaryOperator.Or, BinaryOperator.Lt, BinaryOperator.Gt)
    else (BinaryOperator.And, BinaryOperator.GtEq, BinaryOperator.LtEq) in
  ScalarExpression.Binary op (in_comparison left_op expr left_expr) (in_comparison right_op expr right_expr)
    None LogicalType.Boolean.

(** [visit], [visit_expression], [walk_mut_expr] and [fix_expr]; [fix_loop] is
    the loop of the last. [visit_expression] also says whether to walk on. *)
Fixpoint visit (fuel : nat) (expr : ScalarExpression) (replaces : list Replace) {struct fuel}
    : res (ScalarExpression * list Replace) :=
  match fuel with
  | O => Err Panic
  | S fuel =>
      let? (go, expr, replaces) := visit_expression fuel expr replaces in
      if go : bool then walk fuel expr replaces else Ok (expr, replaces)
  end
with visit_expression (fuel : nat) (expr : ScalarExpression) (replaces : list Replace) {struct fuel}
    : res (bool * ScalarExpression * list Replace) :=
  match fuel with
  | O => Err Panic
  | S fuel =>
      match expr with
      | ScalarExpression.Unary op arg_expr evaluator ty =>
          let? value := unpack_val arg_expr in
          match value with
          | Some value =>
              let? evaluator := match evaluator with Some evaluator => Ok evaluator | None => unary_create ty op end in
              let? value := eval_unary evaluator value in
              Ok (false, ScalarExpression.Constant value, replaces)
          | None =>
              let push := Ok (false, expr, Replace_Unary (mk_replace_unary arg_expr op ty) :: replaces) in
              match op with
              | UnaryOperator.Not =>
                  match take_negated_range_comparison arg_expr with
                  | Some new_expr => visit_expression fuel new_expr replaces
                  | None => push
                  end
              | _ => push
              end
          end
      | ScalarExpression.Binary op left_expr right_expr evaluator ty =>
          let? (left_expr, right_expr, op, replaces) := fix_expr fuel left_expr right_expr op replaces in
          let? (right_expr, left_expr, op, replaces) := fix_expr fuel right_expr left_expr op replaces in
          match take_bool_normalized_range_comparison op left_expr right_expr with
          | Some new_expr => visit_expression fuel new_expr replaces
          | None =>
              let replaces :=
                if is_arithmetic op then push_arithmetic op left_expr right_expr ty replaces else replaces in
              Ok (false, ScalarExpression.Binary op left_expr right_expr evaluator ty, replaces)
          end
      | ScalarExpression.TypeCast arg ty evaluator =>
          let? value := on_some (unpack_val arg) (fun value => ok (cast value ty)) in
          Ok (false, match value with Some value => ScalarExpression.Constant value | None => expr end, replaces)
      | ScalarExpression.IsNull negated arg =>
          let? value := unpack_val arg in
          Ok (false,
              match value with
              | Some value => ScalarExpression.Constant (DataValue.Boolean (xorb (is_null value) negated))
              | None => expr
              end, replaces)
      | ScalarExpression.In negated arg_expr args =>
          match args with
          | [] => Ok (false, expr, replaces)
          | first :: args => Ok (true, in_comparisons negated arg_expr first args, replaces)
          end
      | ScalarExpression.Between negated arg_expr left_expr right_expr =>
          Ok (true, between_comparisons negated arg_expr left_expr right_expr, replaces)
      | _ => Ok (true, expr, replaces)
      end
  end
with walk (fuel : nat) (expr : ScalarExpression) (replaces : list Replace) {struct fuel}
    : res (ScalarExpression * list Replace) :=
  match fuel with
  | O => Err Panic
  | S fuel =>
      let all := fix go (exprs : list ScalarExpression) (replaces : list Replace)
          : res (list ScalarExpression * list Replace) :=
        match exprs with
        | [] => Ok ([], replaces)
        | e :: exprs =>
            let? (e, replaces) := visit fuel e replaces in
            let? (exprs, replaces) := go exprs replaces in
            Ok (e :: exprs, replaces)
        end in
      let opt (o : option ScalarExpression) (replaces : list Replace) :=
        match o with
        | Some e => let? (e, replaces) := visit fuel e replaces in Ok (Some e, replaces)
        | None => Ok (None, replaces)
        end in
      let one (e : ScalarExpression) (k : ScalarExpression -> ScalarExpression) :=
        let? (e, replaces) := visit fuel e replaces in Ok (k e, replaces) in
      let two (e1 e2 : ScalarExpression) (k : ScalarExpression -> ScalarExpression -> ScalarExpression) :=
        let? (e1, replaces) := visit fuel e1 replaces in
        let? (e2, replaces) := visit fuel e2 replaces in
        Ok (k e1 e2, replaces) in
      let three (e1 e2 e3 : ScalarExpression)
          (k : ScalarExpression -> ScalarExpression -> ScalarExpression -> ScalarExpression) :=
        let? (e1, replaces) := visit fuel e1 replaces in
        let? (e2, replaces) := visit fuel e2 replaces in
        let? (e3, replaces) := visit fuel e3 replaces in
        Ok (k e1 e2 e3, replaces) in
      match expr with
      | ScalarExpression.Alias expr alias =>
          let? (alias, replaces) := opt alias replaces in
          let? (expr, replaces) := visit fuel expr replaces in
          Ok (ScalarExpression.Alias expr alias, replaces)
      | ScalarExpression.TypeCast expr ty evaluator => one expr (fun e => ScalarExpression.TypeCast e ty evaluator)
      | ScalarExpression.IsNull negated expr => one expr (ScalarExpression.IsNull negated)
      | ScalarExpression.Unary op expr evaluator ty => one expr (fun e => ScalarExpression.Unary op e evaluator ty)
      | ScalarExpression.Binary op left_expr right_expr evaluator ty =>
          two left_expr right_expr (fun l r => ScalarExpression.Binary op l r evaluator ty)
      | ScalarExpression.AggCall args ty =>
          let? (args, replaces) := all args replaces in Ok (ScalarExpression.AggCall args ty, replaces)
      | ScalarExpression.In negated expr args =>
          let? (expr, replaces) := visit fuel expr replaces in
          let? (args, replaces) := all args replaces in
          Ok (ScalarExpression.In negated expr args, replaces)
      | ScalarExpression.Between negated expr left_expr right_expr =>
          three expr left_expr right_expr (ScalarExpression.Between negated)
      | ScalarExpression.SubString expr for_expr from_expr =>
          let? (expr, replaces) := visit fuel expr replaces in
          let? (for_expr, replaces) := opt for_expr replaces in
          let? (from_expr, replaces) := opt from_expr replaces in
          Ok (ScalarExpression.SubString expr for_expr from_expr, replaces)
      | ScalarExpression.Position expr in_expr => two expr in_expr ScalarExpression.Position
      | ScalarExpression.Trim expr trim_what_expr trim_where =>
          let? (expr, replaces) := visit fuel expr replaces in
          let? (trim_what_expr, replaces) := opt trim_what_expr replaces in
          Ok (ScalarExpression.Trim expr trim_what_expr trim_where, replaces)
      | ScalarExpression.Tuple exprs =>
          let? (exprs, replaces) := all exprs replaces in Ok (ScalarExpression.Tuple exprs, replaces)
      | ScalarExpression.ScalaFunction inner args =>
          let? (args, replaces) := all args replaces in Ok (ScalarExpression.ScalaFunction inner args, replaces)
      | ScalarExpression.If condition left_expr right_expr ty =>
          three condition left_expr right_expr (fun c l r => ScalarExpression.If c l r ty)
      | ScalarExpression.IfNull left_expr right_expr ty =>
          two left_expr right_expr (fun l r => ScalarExpression.IfNull l r ty)
      | ScalarExpression.NullIf left_expr right_expr ty =>
          two left_expr right_expr (fun l r => ScalarExpression.NullIf l r ty)
      | ScalarExpression.Coalesce exprs ty =>
          let? (exprs, replaces) := all exprs replaces in Ok (ScalarExpression.Coalesce exprs ty, replaces)
      | ScalarExpression.CaseWhen operand_expr expr_pairs else_expr ty =>
          let? (operand_expr, replaces) := opt operand_expr replaces in
          let? (expr_pairs, replaces) :=
            (fix go (pairs : list (ScalarExpression * ScalarExpression)) (replaces : list Replace)
                : res (list (ScalarExpression * ScalarExpression) * list Replace) :=
              match pairs with
              | [] => Ok ([], replaces)
              | (w, t) :: pairs =>
                  let? (w, replaces) := visit fuel w replaces in
                  let? (t, replaces) := visit fuel t replaces in
                  let? (pairs, replaces) := go pairs replaces in
                  Ok ((w, t) :: pairs, replaces)
              end) expr_pairs replaces in
          let? (else_expr, replaces) := opt else_expr replaces in
          Ok (ScalarExpression.CaseWhen operand_expr expr_pairs else_expr ty, replaces)
      | _ => Ok (expr, replaces)
      end
  end
with fix_expr (fuel : nat) (left_expr right_expr : ScalarExpression) (op : BinaryOperator) (replaces : list Replace)
    {struct fuel} : res (ScalarExpression * ScalarExpression * BinaryOperator * list Replace) :=
  match fuel with
  | O => Err Panic
  | S fuel =>
      let? (left_expr, replaces) := visit fuel left_expr replaces in
      if is_arithmetic op then Ok (left_expr, right_expr, op, replaces)
      else if negb (is_rearrangeable_comparison op) then Ok (left_expr, right_expr, op, [])
      else fix_loop fuel left_expr right_expr op replaces
  end
with fix_loop (fuel : nat) (left_expr right_expr : ScalarExpression) (op : BinaryOperator) (replaces : list Replace)
    {struct fuel} : res (ScalarExpression * ScalarExpression * BinaryOperator * list Replace) :=
  match fuel with
  | O => Err Panic
  | S fuel =>
      match replaces with
      | [] => Ok (left_expr, right_expr, op, [])
      | Replace_Binary binary :: replaces =>
          let? (left_expr, right_expr, op) := fix_binary binary left_expr right_expr op in
          fix_loop fuel left_expr right_expr op replaces
      | Replace_Unary unary :: replaces =>
          let '(left_expr, right_expr, op) := fix_unary unary left_expr right_expr op in
          let? (left_expr, right_expr, op, replaces) := fix_expr fuel left_expr right_expr op replaces in
          fix_loop fuel left_expr right_expr op replaces
      end
  end.

(** [SimplifyFilter] on the predicate of a filter. *)
Definition simplify_filter (fuel : nat) (predicate : ScalarExpression) : res ScalarExpression :=
  let? predicate := calculate predicate in
  let? (predicate, _) := visit fuel predicate [] in
  Ok predicate.
End Simplify.

(** * Deviations *)

Section Deviations.
Context {OF : OrderedFloat} {CH : Chrono} {SF : ScalarFunctions}.

(** What an expression evaluates to on a row, as bound and after
    [SimplifyFilter]. *)
Definition value_of (row : list DataValue) (e : ScalarExpression) : res DataValue :=
  let? b := bind_evaluator e in eval b (Some row).
Definition filter_value_of (row : list DataValue) (e : ScalarExpression) : res DataValue :=
  let? e := simplify_filter 40 e in value_of row e.

Notation int_column := (ScalarExpression.ColumnRef LogicalType.Integer).
Notation int_constant n := (ScalarExpression.Constant (DataValue.Int32 n)).
Notation int_binary op l r := (ScalarExpression.Binary op l r None LogicalType.Integer).
Notation compare op l r := (ScalarExpression.Binary op l r None LogicalType.Boolean).
Notation int_neg e := (ScalarExpression.Unary UnaryOperator.Minus e None LogicalType.Integer).

(** [fix_binary] keeps the operator of an addition or a product whose constant
    is on the left: [1 + c > 5] becomes [c > 1 + 5]. *)
Theorem constant_on_the_left_is_kept :
  let e := compare BinaryOperator.Gt (int_binary BinaryOperator.Plus (int_constant 1) (int_column 0)) (int_constant 5) in
  value_of [DataValue.Int32 5] e = Ok (DataValue.Boolean true) /\
  filter_value_of [DataValue.Int32 5] e = Ok (DataValue.Boolean false).
Proof. split; reflexivity. Qed.

(** A factor is moved as a divisor without a look at its sign: [c * -1 > 5]
    becomes [c > 5 / -1]. *)
Theorem negative_factor_keeps_the_comparison :
  simplify_filter 40 (compare BinaryOperator.Gt (int_binary BinaryOperator.Multiply (int_column 0) (int_constant (-1)))
    (int_constant 5)) =
  Ok (compare BinaryOperator.Gt (int_column 0) (int_binary BinaryOperator.Divide (int_constant 5) (int_constant (-1)))).
Proof. reflexivity. Qed.

(** The terms met inside the arguments of another expression stay on the stack
    and are moved to the comparison around it, whose left side they replace:
    [COALESCE(-c, 10) > 5] becomes [c < -5]. *)
Theorem terms_leak_out_of_arguments :
  let e := compare BinaryOperator.Gt (ScalarExpression.Coalesce [int_neg (int_column 0); int_constant 10] LogicalType.Integer)
    (int_constant 5) in
  simplify_filter 40 e = Ok (compare BinaryOperator.Lt (int_column 0) (int_constant (-5))) /\
  value_of [DataValue.Null] e = Ok (DataValue.Boolean true) /\
  filter_value_of [DataValue.Null] e = Ok DataValue.Null.
Proof. repeat split; reflexivity. Qed.

(** A sum of two columns with a term beside one of them loses the other:
    [a + (b + 1) > 10] becomes a predicate of b alone, [-a + b > 10] one of a. *)
Theorem a_column_disappears :
  (let e := compare BinaryOperator.Gt (int_binary BinaryOperator.Plus (int_column 0)
      (int_binary BinaryOperator.Plus (int_column 1) (int_constant 1))) (int_constant 10) in
   let row := [DataValue.Int32 20; DataValue.Int32 0] in
   value_of row e = Ok (DataValue.Boolean true) /\ filter_value_of row e = Ok (DataValue.Boolean false)) /\
  (let e := compare BinaryOperator.Gt (int_binary BinaryOperator.Plus (int_neg (int_column 0)) (int_column 1)) (int_constant 10) in
   let row := [DataValue.Int32 0; DataValue.Int32 20] in
   value_of row e = Ok (DataValue.Boolean true) /\ filter_value_of row e = Ok (DataValue.Boolean false)).
Proof. repeat split; reflexivity. Qed.

(** Moving a term can overflow where the original does not:
    [c + -1 > 2147483647] is false on every row and becomes an error. *)
Theorem moved_term_overflows :
  let e := compare BinaryOperator.Gt (int_binary BinaryOperator.Plus (int_column 0) (int_constant (-1))) (int_constant (2 ^ 31 - 1)) in
  value_of [DataValue.Int32 5] e = Ok (DataValue.Boolean false) /\
  filter_value_of [DataValue.Int32 5] e = Err OverFlow.
Proof. split; reflexivity. Qed.

(** BETWEEN of a Boolean can be evaluated, the comparisons it is turned into
    have no evaluator. *)
Theorem boolean_between_unsupported :
  let e := ScalarExpression.Between false (ScalarExpression.ColumnRef LogicalType.Boolean 0)
    (ScalarExpression.Constant (DataValue.Boolean false)) (ScalarExpression.Constant (DataValue.Boolean true)) in
  value_of [DataValue.Boolean true] e = Ok (DataValue.Boolean true) /\
  filter_value_of [DataValue.Boolean true] e = Err UnsupportedBinaryOperator.
Proof. split; reflexivity. Qed.

(** IN and BETWEEN mean one thing where they are evaluated and another in a
    filter, where they have become comparisons: the evaluator does not cast,
    so an INTEGER literal is not in a BIGINT column; and it takes BETWEEN to
    be NULL when one bound is, also when the other decides. *)
Theorem in_and_between_depend_on_the_place :
  (let e := ScalarExpression.In false (ScalarExpression.ColumnRef LogicalType.Bigint 0) [int_constant 5] in
   value_of [DataValue.Int64 5] e = Ok (DataValue.Boolean false) /\
   filter_value_of [DataValue.Int64 5] e = Ok (DataValue.Boolean true)) /\
  (let e := ScalarExpression.Between true (int_column 0) (int_constant 10) (ScalarExpression.Constant DataValue.Null) in
   value_of [DataValue.Int32 5] e = Ok DataValue.Null /\
   filter_value_of [DataValue.Int32 5] e = Ok (DataValue.Boolean true)).
Proof. repeat split; reflexivity. Qed.

(** The Unary and IsNull arms do not ask [has_parameter]: an unbound parameter
    is folded to "not null", and its negation has no evaluator that takes it. *)
Theorem parameter_is_folded :
  let parameter := ScalarExpression.Constant (DataValue.Parameter_ 1 LogicalType.Integer) in
  (exists e', visit 40 (ScalarExpression.IsNull false parameter) [] = Ok (e', []) /\
     e' = ScalarExpression.Constant (DataValue.Boolean false)) /\
  visit 40 (int_neg parameter) [] = Err Panic.
Proof. split; [eexists; split; reflexivity|reflexivity]. Qed.
End Deviations.
