(* ===== verification/SimplifySound.v ===== *)
(** The simplifier keeps the meaning of predicates.

    The predicates are those the simplifier is made for: AND and OR of
    comparisons, of a column with a column or a constant, or of a column with
    constants added and subtracted and a constant; NOT of them; comparisons of
    a range comparison with TRUE or FALSE; IN, BETWEEN and IS NULL of a column.
    The operators that move the other terms do not keep it (Simplify.v,
    Deviations). The visitor of Simplify.v runs on fuel: what is shown of it
    holds with every fuel from some number on. *)

From S2P Require Import Prelude MachineInt Types Operators Value Time32 Chrono FloatArith Text Evaluators Casts Expr.
From S2P Require Import Reader MemComparable Serdes Row TableCodec Ranges Detach ConstantFold Simplify.
From stdpp Require Import base tactics list numbers option.
From Stdlib Require Import ZArith Lia.
Local Open Scope Z_scope.

(** * Enough fuel *)

(** The result with every fuel from some number on. *)
Definition steadily {A : Type} (f : nat -> res A) (a : A) : Prop := exists n, forall m, (n <= m)%nat -> f m = Ok a.

Lemma steadily_ret {A : Type} (a : A) : steadily (fun _ => Ok a) a.
Proof. by exists O. Qed.

Lemma steadily_S {A : Type} (f g : nat -> res A) a : (forall n, f (S n) = g n) -> steadily g a -> steadily f a.
Proof. intros H [n Hn]. exists (S n). intros [|m] Hm; [lia|]. rewrite H. apply Hn. lia. Qed.

Lemma steadily_bind {A B : Type} (f : nat -> res A) (k : nat -> A -> res B) a b :
  steadily f a -> steadily (fun n => k n a) b -> steadily (fun n => rbind (f n) (k n)) b.
Proof. intros [n Hn] [m Hm]. exists (n + m)%nat. intros i Hi. rewrite Hn by lia. apply Hm. lia. Qed.

Section Visit.
Context {OF : OrderedFloat} {CH : Chrono} {SF : ScalarFunctions}.

(** A visit that ends with the expression and the stack. *)
Definition visits (e : ScalarExpression) (rs : list Replace) (e' : ScalarExpression) (rs' : list Replace) : Prop :=
  steadily (fun n => visit n e rs) (e', rs').

Definition fixes (l r : ScalarExpression) (op : BinaryOperator) (rs : list Replace)
    (res : ScalarExpression * ScalarExpression * BinaryOperator * list Replace) : Prop :=
  steadily (fun n => fix_expr n l r op rs) res.

Definition loops (l r : ScalarExpression) (op : BinaryOperator) (rs : list Replace)
    (res : ScalarExpression * ScalarExpression * BinaryOperator * list Replace) : Prop :=
  steadily (fun n => fix_loop n l r op rs) res.

Lemma visits_stop e rs e' rs' : steadily (fun n => visit_expression n e rs) (false, e', rs') -> visits e rs e' rs'.
Proof. intros H. eapply steadily_S; [done|]. eapply steadily_bind; [exact H|apply steadily_ret]. Qed.

Lemma visits_walk e rs e' rs' e'' rs'' :
  steadily (fun n => visit_expression n e rs) (true, e', rs') -> steadily (fun n => walk n e' rs') (e'', rs'') ->
  visits e rs e'' rs''.
Proof. intros H Hw. eapply steadily_S; [done|]. eapply steadily_bind; [exact H|exact Hw]. Qed.

(** Columns and constants are left alone. *)
Definition leaf (e : ScalarExpression) : Prop :=
  match e with ScalarExpression.ColumnRef _ _ | ScalarExpression.Constant _ => True | _ => False end.

Lemma visits_leaf e rs : leaf e -> visits e rs e rs.
Proof.
  intros He. apply (visits_walk e rs e rs); exists 1%nat; intros [|m] Hm; try lia; destruct e; done.
Qed.

Lemma loops_nil l r op : loops l r op [] (l, r, op, []).
Proof. exists 1%nat. intros [|m] Hm; [lia|done]. Qed.

Lemma fixes_comparison l r op rs l' rs' res :
  is_rearrangeable_comparison op = true -> visits l rs l' rs' -> loops l' r op rs' res -> fixes l r op rs res.
Proof.
  intros Hop Hv Hl. eapply steadily_S; [done|]. eapply steadily_bind; [exact Hv|]. cbn.
  destruct op; try done; exact Hl.
Qed.

Lemma fixes_connective l r op rs l' rs' :
  is_arithmetic op = false -> is_rearrangeable_comparison op = false -> visits l rs l' rs' ->
  fixes l r op rs (l', r, op, []).
Proof.
  intros Ha Hop Hv. eapply steadily_S; [done|]. eapply steadily_bind; [exact Hv|]. cbn.
  rewrite Ha, Hop. apply steadily_ret.
Qed.

Lemma fixes_arithmetic l r op rs l' rs' :
  is_arithmetic op = true -> visits l rs l' rs' -> fixes l r op rs (l', r, op, rs').
Proof.
  intros Ha Hv. eapply steadily_S; [done|]. eapply steadily_bind; [exact Hv|]. cbn. rewrite Ha. apply steadily_ret.
Qed.

(** A binary operator whose sides have been fixed. *)
Lemma visit_binary op l r ev ty rs op1 l1 r1 rs1 op2 l2 r2 rs2 :
  fixes l r op rs (l1, r1, op1, rs1) -> fixes r1 l1 op1 rs1 (r2, l2, op2, rs2) ->
  take_bool_normalized_range_comparison op2 l2 r2 = None ->
  steadily (fun n => visit_expression n (ScalarExpression.Binary op l r ev ty) rs)
    (false, ScalarExpression.Binary op2 l2 r2 ev ty,
     if is_arithmetic op2 then push_arithmetic op2 l2 r2 ty rs2 else rs2).
Proof.
  intros H1 H2 Hn. eapply steadily_S; [done|]. eapply steadily_bind; [exact H1|]. cbn.
  eapply steadily_bind; [exact H2|]. cbn. rewrite Hn. apply steadily_ret.
Qed.

Lemma visit_normalized op l r ev ty rs op1 l1 r1 rs1 op2 l2 r2 rs2 new_expr res :
  fixes l r op rs (l1, r1, op1, rs1) -> fixes r1 l1 op1 rs1 (r2, l2, op2, rs2) ->
  take_bool_normalized_range_comparison op2 l2 r2 = Some new_expr ->
  steadily (fun n => visit_expression n new_expr rs2) res ->
  steadily (fun n => visit_expression n (ScalarExpression.Binary op l r ev ty) rs) res.
Proof.
  intros H1 H2 Hn Hr. eapply steadily_S; [done|]. eapply steadily_bind; [exact H1|]. cbn.
  eapply steadily_bind; [exact H2|]. cbn. rewrite Hn. exact Hr.
Qed.

(** AND and OR leave an empty stack. *)
Lemma visits_connective op l r ev ty rs l' rs1 r' rs2 :
  op = BinaryOperator.And \/ op = BinaryOperator.Or -> visits l rs l' rs1 -> visits r [] r' rs2 ->
  visits (ScalarExpression.Binary op l r ev ty) rs (ScalarExpression.Binary op l' r' ev ty) [].
Proof.
  intros Hop Hl Hr. apply visits_stop.
  assert (is_arithmetic op = false /\ is_rearrangeable_comparison op = false) as [Ha Hc] by (by destruct Hop; subst op).
  pose proof (visit_binary op l r ev ty rs op l' r [] op l' r' []) as H. rewrite Ha in H. apply H.
  - by eapply fixes_connective.
  - by eapply fixes_connective.
  - by destruct Hop; subst op.
Qed.

Lemma visits_walk_binary op l r ev ty rs l' rs1 r' rs2 :
  visits l rs l' rs1 -> visits r rs1 r' rs2 ->
  steadily (fun n => walk n (ScalarExpression.Binary op l r ev ty) rs) (ScalarExpression.Binary op l' r' ev ty, rs2).
Proof.
  intros Hl Hr. eapply steadily_S; [done|]. cbn. eapply steadily_bind; [exact Hl|]. cbn.
  eapply steadily_bind; [exact Hr|apply steadily_ret].
Qed.
End Visit.

(** * Comparisons *)

Section Comparisons.
Context {OF : OrderedFloat} {CH : Chrono} {SF : ScalarFunctions}.

(** Expressions a visit does not change, and that are no range comparison. *)
Definition quiet (e : ScalarExpression) : Prop :=
  visits e [] e [] /\ take_range_comparison e = None /\ take_negated_range_comparison e = None.

Lemma quiet_leaf e : leaf e -> quiet e.
Proof. intros He. split; [by apply visits_leaf|]. by destruct e. Qed.

Lemma polarity_none e positive : quiet e -> take_range_comparison_with_polarity e positive = None.
Proof. intros (_ & H1 & H2). by destruct positive. Qed.

Lemma normalized_none op l r : quiet l -> quiet r -> take_bool_normalized_range_comparison op l r = None.
Proof.
  intros Hl Hr. unfold take_bool_normalized_range_comparison.
  destruct op; try done; destruct (boolean_constant r); rewrite ?polarity_none by done; try done;
    destruct (boolean_constant l); by rewrite ?polarity_none by done.
Qed.

Lemma arithmetic_normalized op l r : is_arithmetic op = true -> take_bool_normalized_range_comparison op l r = None.
Proof. by destruct op. Qed.

Lemma rearrangeable_not_arithmetic op : is_rearrangeable_comparison op = true -> is_arithmetic op = false.
Proof. by destruct op. Qed.

(** The simplifier turns every comparison of [l] with [r] into the same
    comparison of [l'] with [r'], and leaves that one alone. *)
Definition turns (l r l' r' : ScalarExpression) : Prop :=
  quiet l' /\ quiet r' /\
  forall op ev ty, is_rearrangeable_comparison op = true ->
    steadily (fun n => visit_expression n (ScalarExpression.Binary op l r ev ty) []) (false, ScalarExpression.Binary op l' r' ev ty, []).

Lemma comparison_fixed op l r ev ty l1 rs1 r1 l2 rs2 r2 :
  is_rearrangeable_comparison op = true ->
  visits l [] l1 rs1 -> loops l1 r op rs1 (l2, r1, op, []) ->
  visits r1 [] r2 rs2 -> forall l3 r3, loops r2 l2 op rs2 (r3, l3, op, []) ->
  take_bool_normalized_range_comparison op l3 r3 = None ->
  steadily (fun n => visit_expression n (ScalarExpression.Binary op l r ev ty) []) (false, ScalarExpression.Binary op l3 r3 ev ty, []).
Proof.
  intros Hop Hl Ll Hr l3 r3 Lr Hn.
  pose proof (visit_binary op l r ev ty [] op l2 r1 [] op l3 r3 []) as H.
  rewrite (rearrangeable_not_arithmetic op Hop) in H.
  apply H; [by eapply fixes_comparison|by eapply fixes_comparison|done].
Qed.

Lemma turns_quiet l r : quiet l -> quiet r -> turns l r l r.
Proof.
  intros Hl Hr. split; [done|]. split; [done|]. intros op ev ty Hop.
  eapply comparison_fixed; [done|apply Hl|apply loops_nil|apply Hr|apply loops_nil|by apply normalized_none].
Qed.

(** ** Terms added to a column *)

Record step := mk_step {
  step_plus : bool;
  step_value : Z;
  step_evaluator : option BinaryEvaluatorRef;
}.

Definition step_op (s : step) : BinaryOperator := if step_plus s then BinaryOperator.Plus else BinaryOperator.Minus.
Definition step_flipped (s : step) : BinaryOperator := if step_plus s then BinaryOperator.Minus else BinaryOperator.Plus.

Section Chain.
Context (N : Numeric) (ty : LogicalType) (position : nat).

Notation column := (ScalarExpression.ColumnRef ty position).
Notation constant := (fun n : Z => ScalarExpression.Constant (num_make N n)).

(** [c + k1 - k2 ...], the outermost term first in the list. *)
Fixpoint chain (steps : list step) : ScalarExpression :=
  match steps with
  | [] => column
  | s :: steps => ScalarExpression.Binary (step_op s) (chain steps) (constant (step_value s)) (step_evaluator s) ty
  end.

(** The other side of the comparison once they are moved there. *)
Fixpoint moved (steps : list step) (r : ScalarExpression) : ScalarExpression :=
  match steps with
  | [] => r
  | s :: steps => moved steps (ScalarExpression.Binary (step_flipped s) r (constant (step_value s)) None ty)
  end.

Definition replaces_of (steps : list step) : list Replace :=
  map (fun s => Replace_Binary (mk_replace_binary column (constant (step_value s)) (step_op s) ty true)) steps.

Lemma step_op_arithmetic s : is_arithmetic (step_op s) = true.
Proof. by destruct s as [[] ? ?]. Qed.

Lemma chain_column steps : unpack_bound_col (chain steps) true = Some (ty, position).
Proof. induction steps as [|s steps IH]; [done|]. cbn. by rewrite IH. Qed.

Lemma push_chain s steps rs :
  push_arithmetic (step_op s) (chain steps) (constant (step_value s)) ty (replaces_of steps ++ rs) =
  replaces_of (s :: steps) ++ rs.
Proof.
  unfold push_arithmetic. destruct steps as [|s' steps]; [done|].
  pose proof (chain_column (s' :: steps)) as Hc. cbn [chain unpack_bound_col negb] in Hc |- *. cbn [replaces_of map app].
  by rewrite Hc.
Qed.

Lemma visits_chain steps rs : visits (chain steps) rs (chain steps) (replaces_of steps ++ rs).
Proof.
  induction steps as [|s steps IH]; [by apply visits_leaf|]. rewrite <- push_chain. cbn [chain].
  apply visits_stop. pose proof (step_op_arithmetic s) as Ha.
  pose proof (visit_binary (step_op s) (chain steps) (constant (step_value s)) (step_evaluator s) ty rs
    (step_op s) (chain steps) (constant (step_value s)) (replaces_of steps ++ rs)
    (step_op s) (chain steps) (constant (step_value s)) (replaces_of steps ++ rs)) as H.
  rewrite Ha in H. apply H.
  - by apply fixes_arithmetic.
  - apply fixes_arithmetic; [done|by apply visits_leaf].
  - by apply arithmetic_normalized.
Qed.

Lemma loops_chain steps l r op :
  loops l r op (replaces_of steps) (match steps with [] => l | _ => column end, moved steps r, op, []).
Proof.
  revert l r. induction steps as [|s steps IH]; intros l r; [apply loops_nil|].
  eapply steadily_S; [done|]. cbn. destruct s as [[] k ev]; cbn; specialize (IH column);
    (destruct steps; [apply IH|apply IH]).
Qed.

Lemma moved_quiet steps r : quiet r -> unpack_bound_col r false = None -> unpack_bound_col r true = None ->
  quiet (moved steps r).
Proof.
  revert r. induction steps as [|s steps IH]; intros r Hr Hf Ht; [done|]. cbn [moved].
  assert (is_arithmetic (step_flipped s) = true) as Ha by (by destruct s as [[] ? ?]).
  apply IH; [|done|cbn; by rewrite Ht].
  split; [|by destruct s as [[] ? ?]]. apply visits_stop.
  pose proof (visit_binary (step_flipped s) r (constant (step_value s)) None ty [] (step_flipped s) r (constant (step_value s)) []
    (step_flipped s) r (constant (step_value s)) []) as H.
  rewrite Ha in H. unfold push_arithmetic in H. rewrite Hf in H. apply H.
  - apply fixes_arithmetic; [done|apply Hr].
  - apply fixes_arithmetic; [done|by apply visits_leaf].
  - by apply arithmetic_normalized.
Qed.

(** The chain on the left of the comparison or on its right. *)
Lemma turns_chain steps v (is_flip : bool) :
  let l := chain steps in let r := ScalarExpression.Constant v in let r' := moved steps r in
  if is_flip then turns r l r' column else turns l r column r'.
Proof.
  intros l r r'.
  assert (quiet column) as Qc by (by apply quiet_leaf).
  assert (quiet r) as Qr by (by apply quiet_leaf).
  assert (quiet r') as Qr' by (by apply moved_quiet).
  assert (visits l [] l (replaces_of steps)) as Vl
    by (pose proof (visits_chain steps []) as H; by rewrite app_nil_r in H).
  assert (forall op, loops l r op (replaces_of steps) (column, r', op, [])) as Ll.
  { intros op. pose proof (loops_chain steps l r op) as H. by destruct steps. }
  destruct is_flip; (split; [done|]); (split; [done|]); intros op ev t Hop.
  - eapply comparison_fixed; [done|apply Qr|apply loops_nil|exact Vl|exact (Ll op)|by apply normalized_none].
  - eapply comparison_fixed; [done|exact Vl|exact (Ll op)|apply Qr'|apply loops_nil|by apply normalized_none].
Qed.
End Chain.

(** ** Predicates around a comparison *)

Lemma negate_rearrangeable op op' : negate_range_comparison op = Some op' ->
  is_rearrangeable_comparison op = true /\ is_rearrangeable_comparison op' = true.
Proof. destruct op; try done; by intros [= <-]. Qed.

Lemma visits_comparison op l r l' r' ev ty : turns l r l' r' -> is_rearrangeable_comparison op = true ->
  visits (ScalarExpression.Binary op l r ev ty) [] (ScalarExpression.Binary op l' r' ev ty) [].
Proof. intros (_ & _ & H) Hop. apply visits_stop. by apply H. Qed.

Lemma visit_not n e u t rs : unpack_val e = Ok None ->
  visit_expression (S n) (ScalarExpression.Unary UnaryOperator.Not e u t) rs =
  match take_negated_range_comparison e with
  | Some new_expr => visit_expression n new_expr rs
  | None => Ok (false, ScalarExpression.Unary UnaryOperator.Not e u t,
      Replace_Unary (mk_replace_unary e UnaryOperator.Not t) :: rs)
  end.
Proof.
  intros H.
  transitivity (let? value := unpack_val e in
    match value with
    | Some value =>
        let? evaluator := match u with Some evaluator => Ok evaluator | None => unary_create t UnaryOperator.Not end in
        let? value := eval_unary evaluator value in
        Ok (false, ScalarExpression.Constant value, rs)
    | None =>
        match take_negated_range_comparison e with
        | Some new_expr => visit_expression n new_expr rs
        | None => Ok (false, ScalarExpression.Unary UnaryOperator.Not e u t,
            Replace_Unary (mk_replace_unary e UnaryOperator.Not t) :: rs)
        end
    end); [reflexivity|by rewrite H].
Qed.

Lemma visits_not op op' l r l' r' ev ty u t : turns l r l' r' -> negate_range_comparison op = Some op' ->
  unpack_val (ScalarExpression.Binary op l r ev ty) = Ok None ->
  visits (ScalarExpression.Unary UnaryOperator.Not (ScalarExpression.Binary op l r ev ty) u t) []
    (ScalarExpression.Binary op' l' r' ev ty) [].
Proof.
  intros (_ & _ & H) Hop Hu. apply visits_stop. eapply steadily_S; [intros n; by apply visit_not|].
  cbn [take_negated_range_comparison]. rewrite Hop. apply H. by eapply negate_rearrangeable.
Qed.

Lemma visits_not_other e u t rs : unpack_val e = Ok None -> take_negated_range_comparison e = None ->
  visits (ScalarExpression.Unary UnaryOperator.Not e u t) rs (ScalarExpression.Unary UnaryOperator.Not e u t)
    (Replace_Unary (mk_replace_unary e UnaryOperator.Not t) :: rs).
Proof.
  intros Hu Ht. apply visits_stop. eapply steadily_S; [intros n; by apply visit_not|]. rewrite Ht.
  apply steadily_ret.
Qed.

(** [(l op r) = b], [(l op r) <> b] and their mirrored forms. *)
Definition polarity (test_op op : BinaryOperator) (b : bool) : option BinaryOperator :=
  match test_op, negate_range_comparison op with
  | BinaryOperator.Eq, Some op' => Some (if b then op else op')
  | BinaryOperator.NotEq, Some op' => Some (if b then op' else op)
  | _, _ => None
  end.

Lemma visits_normalized test_op op op' l r l' r' ev ty b (is_flip : bool) ev' ty' :
  turns l r l' r' -> polarity test_op op b = Some op' ->
  let range := ScalarExpression.Binary op l r ev ty in
  let constant := ScalarExpression.Constant (DataValue.Boolean b) in
  visits (if is_flip then ScalarExpression.Binary test_op constant range ev' ty'
          else ScalarExpression.Binary test_op range constant ev' ty') []
    (ScalarExpression.Binary op' l' r' ev ty) [].
Proof.
  intros Ht Hp range constant. unfold polarity in Hp.
  destruct (negate_range_comparison op) as [neg|] eqn:En; [|by destruct test_op].
  destruct (negate_rearrangeable op neg En) as [Hop Hneg].
  assert (is_rearrangeable_comparison test_op = true /\ is_rearrangeable_comparison op' = true) as [Htop Hop'].
  { destruct test_op; try done; destruct b; injection Hp as <-; done. }
  pose proof (visits_comparison op l r l' r' ev ty Ht Hop) as Hr.
  assert (visits constant [] constant []) as Hc by (by apply visits_leaf).
  assert (steadily (fun n => visit_expression n (ScalarExpression.Binary op' l' r' ev ty) [])
    (false, ScalarExpression.Binary op' l' r' ev ty, [])) as Hs.
  { destruct Ht as (Ql & Qr & _). by apply (turns_quiet l' r'). }
  apply visits_stop. destruct is_flip.
  all: eapply visit_normalized;
    [eapply fixes_comparison; [done|eassumption|apply loops_nil]
    |eapply fixes_comparison; [done|eassumption|apply loops_nil]| |exact Hs].
  all: unfold take_bool_normalized_range_comparison; cbn [boolean_constant constant].
  all: destruct test_op; try done; destruct b; injection Hp as <-; cbn; by rewrite En.
Qed.
End Comparisons.

(** ** IN and BETWEEN *)

Section Lists.
Context {OF : OrderedFloat} {CH : Chrono} {SF : ScalarFunctions}.

Definition walks (e : ScalarExpression) : Prop := steadily (fun n => walk n e []) (e, []).

Lemma walks_comparison op l r ev ty : leaf l -> leaf r -> walks (ScalarExpression.Binary op l r ev ty).
Proof. intros Hl Hr. eapply visits_walk_binary; by apply visits_leaf. Qed.

Lemma in_comparison_quiet op e a : is_rearrangeable_comparison op = true -> leaf e -> leaf a ->
  visits (in_comparison op e a) [] (in_comparison op e a) [].
Proof. intros Hop He Ha. apply visits_comparison; [|done]. by apply turns_quiet; apply quiet_leaf. Qed.

Lemma connective_quiet op l r ev ty : op = BinaryOperator.And \/ op = BinaryOperator.Or ->
  visits l [] l [] -> visits r [] r [] ->
  let e := ScalarExpression.Binary op l r ev ty in visits e [] e [] /\ walks e.
Proof.
  intros Hop Hl Hr e. split; [by eapply visits_connective|by eapply visits_walk_binary].
Qed.

Lemma in_comparisons_quiet negated e first args : leaf e -> leaf first -> Forall leaf args ->
  walks (in_comparisons negated e first args).
Proof.
  intros He Hf Ha.
  set (op_1 := if negated then BinaryOperator.NotEq else BinaryOperator.Eq).
  set (op_2 := if negated then BinaryOperator.And else BinaryOperator.Or).
  assert (is_rearrangeable_comparison op_1 = true) as H1 by (by subst op_1; destruct negated).
  assert (op_2 = BinaryOperator.And \/ op_2 = BinaryOperator.Or) as H2 by (subst op_2; destruct negated; tauto).
  assert (forall new_expr, visits new_expr [] new_expr [] /\ walks new_expr ->
    walks (fold_left (fun new_expr arg =>
      ScalarExpression.Binary op_2 (in_comparison op_1 e arg) new_expr None LogicalType.Boolean) args new_expr)) as H.
  { induction Ha as [|a args Ha _ IH]; intros new_expr [Hv Hw]; [done|]. cbn [fold_left]. apply IH.
    apply connective_quiet; [done| |done]. by apply in_comparison_quiet. }
  replace (in_comparisons negated e first args) with (fold_left (fun new_expr arg =>
      ScalarExpression.Binary op_2 (in_comparison op_1 e arg) new_expr None LogicalType.Boolean) args (in_comparison op_1 e first))
    by (by destruct negated).
  apply H. split; [by apply in_comparison_quiet|by apply walks_comparison].
Qed.

Lemma visits_in negated e first args : leaf e -> leaf first -> Forall leaf args ->
  visits (ScalarExpression.In negated e (first :: args)) [] (in_comparisons negated e first args) [].
Proof.
  intros He Hf Ha. eapply visits_walk; [|by apply in_comparisons_quiet].
  eapply steadily_S; [done|apply steadily_ret].
Qed.

Lemma visits_between negated e l r : leaf e -> leaf l -> leaf r ->
  visits (ScalarExpression.Between negated e l r) [] (between_comparisons negated e l r) [].
Proof.
  intros He Hl Hr.
  apply (visits_walk _ _ (between_comparisons negated e l r) []); [eapply steadily_S; [done|apply steadily_ret]|].
  destruct negated; (apply connective_quiet; [tauto| |]); by apply in_comparison_quiet.
Qed.

Lemma visits_in_nothing negated e rs :
  visits (ScalarExpression.In negated e []) rs (ScalarExpression.In negated e []) rs.
Proof. apply visits_stop. eapply steadily_S; [done|apply steadily_ret]. Qed.

Lemma visits_is_null negated ty position rs :
  let e := ScalarExpression.IsNull negated (ScalarExpression.ColumnRef ty position) in visits e rs e rs.
Proof. apply visits_stop. eapply steadily_S; [done|apply steadily_ret]. Qed.
End Lists.

(** * Evaluation *)

Section Evaluation.
Context {OF : OrderedFloat} {CH : Chrono} {SF : ScalarFunctions}.
Context (row : list DataValue).

Definition evaluates (e : ScalarExpression) (v : DataValue) : Prop := value_of row e = Ok v.

(** The types whose comparisons test [PartialOrd], decimals apart. *)
Definition comparable (ty : LogicalType) : Prop :=
  simple_type ty /\ match ty with LogicalType.Decimal _ _ => False | _ => True end.

(** The type has an evaluator of the operator. *)
Definition supports (ty : LogicalType) (op : BinaryOperator) : bool :=
  match binary_create ty op with Ok _ => true | Err _ => false end.

(** The value of a comparison, three-valued. *)
Definition compare_value (test : comparison -> bool) (x y : DataValue) : DataValue :=
  if is_null x || is_null y then DataValue.Null
  else match partial_cmp x y with Some c => DataValue.Boolean (test c) | None => DataValue.Null end.

(** An expression of the type, or the constant NULL, with its value. *)
Definition yields (ty : LogicalType) (e : ScalarExpression) (x : DataValue) : Prop :=
  evaluates e x /\ operand ty x /\
  (return_type e = Ok ty \/ return_type e = Ok LogicalType.SqlNull /\ x = DataValue.Null).

Lemma value_of_inv e v : value_of row e = Ok v -> exists b, bind_evaluator e = Ok b /\ eval b (Some row) = Ok v.
Proof. intros H. apply rbind_ok in H as (b & Hb & H). by exists b. Qed.

(** A side, cast to the type of the comparison. *)
Lemma cast_side ty e x b : comparable ty -> yields ty e x -> bind_evaluator e = Ok b ->
  exists c, type_cast b ty = Ok c /\ eval c (Some row) = Ok x.
Proof.
  intros Hs (Hv & Ho & Ht) Hb. unfold evaluates, value_of in Hv. rewrite Hb in Hv. cbn [rbind] in Hv.
  destruct Ht as [Ht|[Ht ->]].
  - exists b. split; [|done]. apply type_cast_same. by rewrite (bind_return_type e b Hb).
  - unfold type_cast. rewrite (bind_return_type e b Hb), Ht. cbn [rbind].
    rewrite decide_False by (by intros <-; destruct Hs).
    destruct (cast_create LogicalType.SqlNull ty) as [ev|?] eqn:Ec; [|by destruct Hs, ty].
    eexists. split; [reflexivity|]. cbn [eval]. rewrite Hv. cbn [rbind].
    by eapply cast_null.
Qed.

Lemma max_sides ty tl tr : tl = ty \/ tl = LogicalType.SqlNull -> tr = ty \/ tr = LogicalType.SqlNull ->
  tl = ty \/ tr = ty -> max_logical_type tl tr = Ok ty.
Proof.
  intros [-> | ->] [-> | ->] H; unfold max_logical_type; case_decide as Hd; try done.
  - by destruct ty.
  - by rewrite Hd.
  - by destruct H as [<- | <-].
Qed.

Lemma bind_sides op ty l r ev t x y : comparable ty -> yields ty l x -> yields ty r y ->
  return_type l = Ok ty \/ return_type r = Ok ty ->
  value_of row (ScalarExpression.Binary op l r ev t) =
    (let? evaluator := binary_create ty op in binary_eval evaluator x y).
Proof.
  intros Hs Hl Hr Ht.
  destruct (value_of_inv l x (proj1 Hl)) as (bl & Bl & _). destruct (value_of_inv r y (proj1 Hr)) as (br & Br & _).
  destruct (cast_side ty l x bl Hs Hl Bl) as (cl & Cl & El). destruct (cast_side ty r y br Hs Hr Br) as (cr & Cr & Er).
  unfold value_of. cbn [bind_evaluator]. rewrite Bl, Br. cbn [rbind]. unfold bind_binary.
  rewrite (bind_return_type l bl Bl), (bind_return_type r br Br).
  assert (exists tl tr, return_type l = Ok tl /\ return_type r = Ok tr /\ max_logical_type tl tr = Ok ty) as (tl & tr & -> & -> & Hm).
  { destruct Hl as (_ & _ & Tl), Hr as (_ & _ & Tr).
    destruct Tl as [Tl|[Tl _]], Tr as [Tr|[Tr _]]; rewrite Tl, Tr in Ht |- *; (eexists _, _; split; [done|split; [done|]]);
      (apply max_sides; [tauto..|]); destruct Ht as [Ht|Ht]; apply Ok_inj in Ht; tauto. }
  cbn [rbind]. rewrite Hm. cbn [rbind]. rewrite Cl, Cr. cbn [rbind].
  destruct (binary_create ty op) as [evaluator|]; [|done]. cbn [rbind eval]. by rewrite El, Er.
Qed.

Lemma comparison_value ty op test evaluator x y : comparable ty -> comparison_test op = Some test ->
  binary_create ty op = Ok evaluator -> operand ty x -> operand ty y ->
  binary_eval evaluator x y = Ok (compare_value test x y).
Proof.
  intros [Hs _] Ht Hc Hx Hy. unfold compare_value. destruct (is_null x || is_null y) eqn:Hn.
  - by eapply comparison_null.
  - apply orb_false_iff in Hn as [Nx Ny].
    destruct (comparison_eval ty op test evaluator x y) as (c & -> & H); try done; by destruct ty.
Qed.

(** A comparison of two sides of a type that has the operator. *)
Lemma comparison_evaluates ty op test ev t l r x y : comparable ty -> comparison_test op = Some test ->
  yields ty l x -> yields ty r y -> return_type l = Ok ty \/ return_type r = Ok ty ->
  supports ty op = true ->
  value_of row (ScalarExpression.Binary op l r ev t) = Ok (compare_value test x y).
Proof.
  unfold supports. intros Hs Ht Hl Hr Hty Hok. rewrite (bind_sides op ty l r ev t x y) by done.
  destruct (binary_create ty op) as [evaluator|] eqn:Hc; [|done]. cbn [rbind].
  eapply comparison_value; [done|done|exact Hc|apply Hl|apply Hr].
Qed.
End Evaluation.

(** ** Boolean operators *)

Section Connectives.
Context {OF : OrderedFloat} {CH : Chrono} {SF : ScalarFunctions}.
Context (row : list DataValue).

(** The operands of a binary operator that has a value have one. *)
Lemma type_cast_value b ty c v : type_cast b ty = Ok c -> eval c (Some row) = Ok v -> exists w, eval b (Some row) = Ok w.
Proof.
  unfold type_cast. intros H Hv. apply rbind_ok in H as (from & _ & H). case_decide.
  - apply Ok_inj in H. subst c. by exists v.
  - apply rbind_ok in H as (ev & _ & H). apply Ok_inj in H. subst c. cbn [eval] in Hv.
    apply rbind_ok in Hv as (w & Hw & _). by exists w.
Qed.

Lemma binary_operands op l r ev t v : value_of row (ScalarExpression.Binary op l r ev t) = Ok v ->
  exists a b, value_of row l = Ok a /\ value_of row r = Ok b.
Proof.
  intros H. apply value_of_inv in H as (b & Hb & Hv). cbn [bind_evaluator] in Hb.
  apply rbind_ok in Hb as (bl & Bl & Hb). apply rbind_ok in Hb as (br & Br & Hb). unfold bind_binary in Hb.
  apply rbind_ok in Hb as (t1 & _ & Hb). apply rbind_ok in Hb as (t2 & _ & Hb). apply rbind_ok in Hb as (t3 & _ & Hb).
  apply rbind_ok in Hb as (cl & Cl & Hb). apply rbind_ok in Hb as (cr & Cr & Hb). apply rbind_ok in Hb as (evr & _ & Hb).
  apply Ok_inj in Hb. subst b. cbn [eval] in Hv.
  apply rbind_ok in Hv as (x & Hx & Hv). apply rbind_ok in Hv as (y & Hy & _).
  destruct (type_cast_value bl _ cl x Cl Hx) as (a & Ha). destruct (type_cast_value br _ cr y Cr Hy) as (a' & Ha').
  exists a, a'. unfold value_of. by rewrite Bl, Br.
Qed.

Definition boolean (e : ScalarExpression) : Prop := return_type e = Ok LogicalType.Boolean.

(** A binary operator on Booleans. *)
Lemma boolean_value op l r ev t evaluator v : boolean l -> boolean r -> binary_create LogicalType.Boolean op = Ok evaluator ->
  value_of row (ScalarExpression.Binary op l r ev t) = Ok v <->
  exists a b, value_of row l = Ok a /\ value_of row r = Ok b /\ binary_eval evaluator a b = Ok v.
Proof.
  intros Tl Tr He.
  assert (forall bl br, bind_evaluator l = Ok bl -> bind_evaluator r = Ok br ->
    value_of row (ScalarExpression.Binary op l r ev t) =
    (let? a := eval bl (Some row) in let? b := eval br (Some row) in binary_eval evaluator a b)) as H.
  { intros bl br Bl Br. unfold value_of. cbn [bind_evaluator]. rewrite Bl, Br. cbn [rbind]. unfold bind_binary.
    rewrite (bind_return_type l bl Bl), (bind_return_type r br Br), Tl, Tr. cbn [rbind].
    unfold max_logical_type. rewrite decide_True by done. cbn [rbind].
    rewrite !type_cast_same by (by rewrite ?(bind_return_type l bl Bl), ?(bind_return_type r br Br)).
    cbn [rbind]. by rewrite He. }
  split.
  - intros Hv. destruct (binary_operands op l r ev t v Hv) as (a & b & Ha & Hb). exists a, b. split; [done|]. split; [done|].
    apply value_of_inv in Ha as (bl & Bl & Ha). apply value_of_inv in Hb as (br & Br & Hb).
    by rewrite (H bl br Bl Br), Ha, Hb in Hv.
  - intros (a & b & Ha & Hb & Hv). apply value_of_inv in Ha as (bl & Bl & Ha). apply value_of_inv in Hb as (br & Br & Hb).
    by rewrite (H bl br Bl Br), Ha, Hb.
Qed.

Lemma not_value e u t v : boolean e ->
  value_of row (ScalarExpression.Unary UnaryOperator.Not e u t) = Ok v <->
  exists a, value_of row e = Ok a /\ boolean_not_unary_eval a = Ok v.
Proof.
  intros He. unfold value_of. cbn [bind_evaluator]. split.
  - intros H. apply rbind_ok in H as (b & Hb & H). apply rbind_ok in Hb as (x & Hx & Hb). unfold bind_unary in Hb.
    rewrite Hx. rewrite (bind_return_type e x Hx), He in Hb. cbn [rbind is_unsigned_numeric] in Hb.
    rewrite (bind_return_type e x Hx), He in Hb. cbn [rbind unary_create] in Hb. apply Ok_inj in Hb. subst b.
    cbn [eval] in H. apply rbind_ok in H as (a & Ha & H). by exists a.
  - intros (a & Ha & H). apply rbind_ok in Ha as (x & Hx & Ha). rewrite Hx. cbn [rbind]. unfold bind_unary.
    rewrite (bind_return_type e x Hx), He. cbn [rbind is_unsigned_numeric].
    rewrite (bind_return_type e x Hx), He. cbn [rbind unary_create eval]. rewrite Ha. exact H.
Qed.

(** The negated test gives the negated value. *)
Lemma negated_value op op' test test' x y : negate_range_comparison op = Some op' ->
  comparison_test op = Some test -> comparison_test op' = Some test' ->
  boolean_not_unary_eval (compare_value test x y) = Ok (compare_value test' x y).
Proof.
  intros Hn Ht Ht'. unfold compare_value. destruct (is_null x || is_null y); [done|].
  destruct (partial_cmp x y) as [c|]; [|done].
  destruct op; try done; injection Hn as <-; injection Ht as <-; injection Ht' as <-; by destruct c.
Qed.

Lemma negate_supported ty op op' : negate_range_comparison op = Some op' -> supports ty op = true -> supports ty op' = true.
Proof. destruct op; try done; intros [= <-]; by destruct ty. Qed.

(** [= TRUE], [= FALSE], [<> TRUE] and [<> FALSE] are the value or its
    negation. *)
Lemma polarity_value test_op op op' b evaluator test test' x y v (is_flip : bool) :
  polarity test_op op b = Some op' -> comparison_test op = Some test -> comparison_test op' = Some test' ->
  binary_create LogicalType.Boolean test_op = Ok evaluator ->
  (if is_flip then binary_eval evaluator (DataValue.Boolean b) (compare_value test x y)
   else binary_eval evaluator (compare_value test x y) (DataValue.Boolean b)) = Ok v ->
  v = compare_value test' x y.
Proof.
  unfold polarity. intros Hp Ht Ht' Hc. unfold compare_value. destruct (is_null x || is_null y).
  { destruct test_op; try done; destruct (negate_range_comparison op); try done;
      apply Ok_inj in Hc; subst evaluator; destruct is_flip, b; by intros [= <-]. }
  destruct (partial_cmp x y) as [c|].
  - destruct op; try (by destruct test_op); cbn [negate_range_comparison] in Hp; injection Ht as <-;
      destruct test_op; try done; apply Ok_inj in Hc; subst evaluator;
      destruct b; injection Hp as <-; injection Ht' as <-;
      destruct c, is_flip; intros H; apply Ok_inj in H; by subst v.
  - destruct test_op; try done; apply Ok_inj in Hc; subst evaluator; destruct is_flip, b; by intros [= <-].
Qed.
End Connectives.

(** ** Columns and constants of one type *)

Section Terms.
Context {OF : OrderedFloat} {CH : Chrono} {SF : ScalarFunctions}.
Context (schema : list LogicalType).

Inductive term (ty : LogicalType) : ScalarExpression -> Prop :=
| term_column position : schema !! position = Some ty -> term ty (ScalarExpression.ColumnRef ty position)
| term_constant v : operand ty v -> logical_type v = ty -> term ty (ScalarExpression.Constant v)
| term_null : term ty (ScalarExpression.Constant DataValue.Null).

Definition fits (row : list DataValue) : Prop := Forall2 operand schema row.

Lemma term_leaf ty e : term ty e -> leaf e.
Proof. by destruct 1. Qed.

Lemma operand_parameter ty v : comparable ty -> operand ty v -> has_parameter v = false.
Proof. intros [Hs _] [_ Ht]. by destruct v, ty. Qed.

Lemma term_yields ty e row : comparable ty -> fits row -> term ty e ->
  exists x, bind_evaluator e = Ok e /\ eval e (Some row) = Ok x /\ yields row ty e x.
Proof.
  intros Hs Hf He.
  assert (forall x, bind_evaluator e = Ok e -> eval e (Some row) = Ok x -> operand ty x ->
    return_type e = Ok ty \/ return_type e = Ok LogicalType.SqlNull /\ x = DataValue.Null ->
    exists x, bind_evaluator e = Ok e /\ eval e (Some row) = Ok x /\ yields row ty e x) as H.
  { intros x Hb He' Ho Ht. exists x. split; [done|]. split; [done|]. split; [|done].
    unfold evaluates, value_of. by rewrite Hb. }
  destruct He as [position Hp|v Ho Ht|].
  - destruct (Forall2_lookup_l operand schema row position ty Hf Hp) as (x & Hx & Ho).
    apply (H x); [done|cbn; by rewrite Hx|done|by left].
  - apply (H v); [done| |done|left; cbn; by rewrite Ht].
    pose proof (operand_parameter ty v Hs Ho). by destruct v.
  - apply (H DataValue.Null); [done|done|by split; [|destruct Hs, ty]|by right].
Qed.

Lemma supported_operator ty op (k : BinaryEvaluatorRef -> res DataValue) v : (let? e := binary_create ty op in k e) = Ok v -> supports ty op = true.
Proof. unfold supports. by destruct (binary_create ty op). Qed.

(** ** IN *)

Section In.
Context (ty : LogicalType) (row : list DataValue) (Hty : comparable ty) (Hrow : fits row).
Context (negated : bool) (column : ScalarExpression) (x : DataValue).
Context (Hcolumn : yields row ty column x) (Htype : return_type column = Ok ty).

Notation op_1 := (if negated then BinaryOperator.NotEq else BinaryOperator.Eq).
Notation op_2 := (if negated then BinaryOperator.And else BinaryOperator.Or).

(** One comparison, and the value of all of them. *)
Definition item (y : DataValue) : DataValue :=
  if is_null x || is_null y then DataValue.Null
  else DataValue.Boolean (if dv_eq y x then negb negated else negated).

Definition combined (a b : DataValue) : DataValue :=
  match (if negated then boolean_and_binary_eval a b else boolean_or_binary_eval a b) with Ok v => v | Err _ => a end.

Lemma item_compare y test : operand ty y -> comparison_test op_1 = Some test -> supports ty op_1 = true ->
  compare_value test x y = item y.
Proof.
  intros Hy Ht Hs. unfold compare_value, item. destruct (is_null x || is_null y) eqn:Hn; [done|].
  apply orb_false_iff in Hn as [Nx Ny]. unfold supports in Hs.
  destruct (binary_create ty op_1) as [evaluator|] eqn:Hc; [|done].
  destruct (comparison_eval ty op_1 test evaluator x y) as (c & Hp & _); try done; try apply Hcolumn; [by destruct Hty; destruct ty|].
  rewrite Hp. assert (dv_eq y x = c_eq c) as ->.
  { apply eq_bool_prop_intro. rewrite !Is_true_true, dv_eq_partial_cmp by (by eapply operand_parameter).
    rewrite partial_cmp_flip, Hp. by destruct c. }
  destruct negated; injection Ht as <-; by destruct c.
Qed.

Definition truth_value (v : DataValue) : Prop := v = DataValue.Null \/ exists b, v = DataValue.Boolean b.

Lemma combined_eval a b : truth_value a -> truth_value b ->
  binary_eval {| Evaluators.pos := BINARY_BOOLEAN_BASE + (if negated then 0 else 1); Evaluators.params := Unit |} a b =
    Ok (combined a b) /\ truth_value (combined a b).
Proof.
  intros [-> |[[] ->]] [-> |[[] ->]]; unfold combined; destruct negated; (split; [reflexivity|]);
    first [by left|by right; eexists].
Qed.

Lemma item_shape y : truth_value (item y).
Proof. unfold item. destruct (is_null x || is_null y); [by left|right; by eexists]. Qed.

Lemma in_fold args new_expr a : Forall (term ty) args -> supports ty op_1 = true ->
  boolean new_expr -> value_of row new_expr = Ok a -> truth_value a ->
  exists ys, Forall2 (fun arg y => eval arg (Some row) = Ok y /\ operand ty y) args ys /\
    let e := fold_left (fun new_expr arg =>
      ScalarExpression.Binary op_2 (in_comparison op_1 column arg) new_expr None LogicalType.Boolean) args new_expr in
    value_of row e = Ok (fold_left (fun a y => combined (item y) a) ys a).
Proof.
  intros Ha Hs. revert new_expr a. induction Ha as [|arg args Harg _ IH]; intros new_expr a Hb Hv Hk.
  { exists []. by split; [constructor|]. }
  destruct (term_yields ty arg row Hty Hrow Harg) as (y & _ & Ey & Hy). cbn [fold_left].
  assert (exists test, comparison_test op_1 = Some test) as [test Ht] by (destruct negated; by eexists).
  assert (value_of row (in_comparison op_1 column arg) = Ok (item y)) as Hi.
  { rewrite <- (item_compare y test) by (done || apply Hy). eapply comparison_evaluates; try done. by left. }
  destruct (IH (ScalarExpression.Binary op_2 (in_comparison op_1 column arg) new_expr None LogicalType.Boolean)
    (combined (item y) a)) as (ys & Hys & H).
  - done.
  - apply (boolean_value row op_2 _ _ None LogicalType.Boolean
      {| Evaluators.pos := BINARY_BOOLEAN_BASE + (if negated then 0 else 1); Evaluators.params := Unit |}); [done|done|by destruct negated|].
    exists (item y), a. split; [exact Hi|]. split; [exact Hv|]. apply combined_eval; [apply item_shape|exact Hk].
  - apply combined_eval; [apply item_shape|exact Hk].
  - exists (y :: ys). split; [constructor; [split; [done|apply Hy]|done]|done].
Qed.

(** The value of IN is the value of the comparisons. *)
Lemma in_matched ys : fold_left (fun a y => combined (item y) a) ys (DataValue.Boolean (negb negated)) = DataValue.Boolean (negb negated).
Proof.
  induction ys as [|y ys IH]; [done|]. cbn [fold_left].
  replace (combined (item y) (DataValue.Boolean (negb negated))) with (DataValue.Boolean (negb negated)); [done|].
  unfold combined. destruct (item_shape y) as [-> |[b ->]], negated; try done; by destruct b.
Qed.

(** One step of the evaluator's loop, which remembers a null. *)
Definition so_far (saw_null : bool) : DataValue := if saw_null then DataValue.Null else DataValue.Boolean negated.

Lemma combined_null saw_null : combined DataValue.Null (so_far saw_null) = so_far true.
Proof. unfold combined, so_far. by destruct saw_null, negated. Qed.

Lemma combined_match saw_null : combined (DataValue.Boolean (negb negated)) (so_far saw_null) = DataValue.Boolean (negb negated).
Proof. unfold combined, so_far. by destruct saw_null, negated. Qed.

Lemma combined_miss saw_null : combined (DataValue.Boolean negated) (so_far saw_null) = so_far saw_null.
Proof. unfold combined, so_far. by destruct saw_null, negated. Qed.

Lemma in_args_value args ys (saw_null : bool) : is_null x = false ->
  Forall2 (fun arg y => eval arg (Some row) = Ok y /\ operand ty y) args ys ->
  in_args (Some row) negated x args saw_null =
  Ok (fold_left (fun a y => combined (item y) a) ys (so_far saw_null)).
Proof.
  intros Hx H. revert saw_null. induction H as [|arg y args ys [Ey _] _ IH]; intros saw_null.
  { by destruct saw_null. }
  cbn [in_args fold_left]. rewrite Ey. cbn [rbind]. fold (in_args (Some row) negated x).
  unfold item at 2. rewrite Hx. cbn [orb]. destruct (is_null y) eqn:Ny.
  - by rewrite IH, combined_null.
  - destruct (dv_eq y x); [by rewrite combined_match, in_matched|by rewrite IH, combined_miss].
Qed.
End In.

Lemma bind_terms ty row args : comparable ty -> fits row -> Forall (term ty) args -> bind_all args = Ok args.
Proof.
  intros Hs Hf Ha. induction Ha as [|arg args Harg _ IH]; [done|]. cbn [bind_all].
  destruct (term_yields ty arg row Hs Hf Harg) as (x & -> & _). cbn [rbind]. by rewrite IH.
Qed.

Lemma bind_in negated e args :
  bind_evaluator (ScalarExpression.In negated e args) =
  (let? e := bind_evaluator e in let? args := bind_all args in Ok (ScalarExpression.In negated e args)).
Proof. reflexivity. Qed.

Lemma eval_in negated e args row :
  eval (ScalarExpression.In negated e args) row =
  (let? value := eval e row in if is_null value then Ok DataValue.Null else in_args row negated value args false).
Proof. reflexivity. Qed.

Lemma combined_nulls negated x ys : is_null x = true ->
  fold_left (fun a y => combined negated (item negated x y) a) ys DataValue.Null = DataValue.Null.
Proof.
  intros Hx. induction ys as [|y ys IH]; [done|]. cbn [fold_left]. unfold item at 2. rewrite Hx. cbn [orb].
  replace (combined negated DataValue.Null DataValue.Null) with DataValue.Null by (by destruct negated). exact IH.
Qed.

Lemma in_comparisons_fold (negated : bool) e first args :
  in_comparisons negated e first args =
  fold_left (fun new_expr arg => ScalarExpression.Binary (if negated then BinaryOperator.And else BinaryOperator.Or)
      (in_comparison (if negated then BinaryOperator.NotEq else BinaryOperator.Eq) e arg) new_expr None LogicalType.Boolean)
    args (in_comparison (if negated then BinaryOperator.NotEq else BinaryOperator.Eq) e first).
Proof. by destruct negated. Qed.

Lemma in_value ty position row (negated : bool) first args : comparable ty -> fits row -> schema !! position = Some ty ->
  supports ty (if negated then BinaryOperator.NotEq else BinaryOperator.Eq) = true -> Forall (term ty) (first :: args) ->
  let column := ScalarExpression.ColumnRef ty position in
  value_of row (ScalarExpression.In negated column (first :: args)) = value_of row (in_comparisons negated column first args).
Proof.
  intros Hs Hf Hp Hop Ha column.
  destruct (term_yields ty column row Hs Hf (term_column ty position Hp)) as (x & Bx & Ex & Hx).
  transitivity (if is_null x then Ok DataValue.Null else in_args (Some row) negated x (first :: args) false).
  { unfold value_of. rewrite bind_in, Bx, (bind_terms ty row) by done. cbn [rbind]. by rewrite eval_in, Ex. }
  destruct (Forall_cons_1 _ _ _ Ha) as [Hfirst Hargs].
  destruct (term_yields ty first row Hs Hf Hfirst) as (y & By & Ey & Hy).
  set (op_1 := if negated then BinaryOperator.NotEq else BinaryOperator.Eq) in *.
  assert (exists test, comparison_test op_1 = Some test) as [test Ht] by (subst op_1; destruct negated; by eexists).
  assert (value_of row (in_comparison op_1 column first) = Ok (item negated x y)) as Hi.
  { rewrite <- (item_compare ty row Hs negated column x Hx eq_refl y test) by (done || apply Hy).
    eapply comparison_evaluates; try done. by left. }
  rewrite in_comparisons_fold. fold op_1.
  destruct (in_fold ty row Hs Hf negated column x Hx eq_refl args (in_comparison op_1 column first) (item negated x y))
    as (ys & Hys & Hfold); [done|done|done|exact Hi|apply item_shape|].
  etransitivity; [|symmetry; exact Hfold].
  destruct (is_null x) eqn:Nx.
  - unfold item at 2. rewrite Nx. cbn [orb]. by rewrite combined_nulls.
  - erewrite (in_args_value _ _ _ _ (first :: args) (y :: ys)); [|done|constructor; [split; [done|apply Hy]|exact Hys]].
    cbn [fold_left]. do 2 f_equal. unfold combined, so_far.
    destruct (item_shape negated x y) as [-> |[[] ->]]; by destruct negated.
Qed.

(** ** BETWEEN *)

Definition bound_constant (ty : LogicalType) (v : DataValue) : Prop :=
  operand ty v /\ logical_type v = ty /\ is_null v = false.

Lemma constant_yields ty v row : comparable ty -> operand ty v -> logical_type v = ty ->
  yields row ty (ScalarExpression.Constant v) v.
Proof.
  intros Hs Ho Ht. split; [|split; [done|left; cbn; by rewrite Ht]].
  unfold evaluates, value_of. pose proof (operand_parameter ty v Hs Ho). by destruct v.
Qed.

(** A comparison of the column with a constant, and the comparison itself. *)
Lemma constant_compare ty column x v row op test : comparable ty -> yields row ty column x -> return_type column = Ok ty ->
  bound_constant ty v -> comparison_test op = Some test -> supports ty op = true ->
  value_of row (in_comparison op column (ScalarExpression.Constant v)) = Ok (compare_value test x v) /\
  (is_null x = false -> is_Some (partial_cmp x v)) /\ (is_null x = true -> partial_cmp x v = None).
Proof.
  intros Hs Hx Ht (Ho & Hl & Hn) Htest Hop. split.
  - eapply comparison_evaluates; try done; [by apply constant_yields|by left].
  - split; intros Nx; [|destruct x; try done; by destruct v].
    unfold supports in Hop. destruct (binary_create ty op) as [evaluator|] eqn:Hc; [|done].
    destruct (comparison_eval ty op test evaluator x v) as (c & -> & _); try done; [apply Hx|by destruct Hs; destruct ty].
Qed.

Lemma range_supported ty : supports ty BinaryOperator.Gt = true ->
  supports ty BinaryOperator.Lt = true /\ supports ty BinaryOperator.GtEq = true /\ supports ty BinaryOperator.LtEq = true.
Proof. by destruct ty. Qed.

Lemma eval_between negated e l r row :
  eval (ScalarExpression.Between negated e l r) row =
  (let? value := eval e row in let? l := eval l row in let? r := eval r row in Ok (Expr.between value l r negated)).
Proof. reflexivity. Qed.

Lemma between_value ty position row negated vl vr : comparable ty -> fits row -> schema !! position = Some ty ->
  supports ty BinaryOperator.Gt = true -> bound_constant ty vl -> bound_constant ty vr ->
  let column := ScalarExpression.ColumnRef ty position in
  let l := ScalarExpression.Constant vl in let r := ScalarExpression.Constant vr in
  value_of row (ScalarExpression.Between negated column l r) = value_of row (between_comparisons negated column l r).
Proof.
  intros Hs Hf Hp Hop Hl Hr column l r. destruct (range_supported ty Hop) as (H1 & H2 & H3).
  destruct (term_yields ty column row Hs Hf (term_column ty position Hp)) as (x & Bx & Ex & Hx).
  transitivity (Ok (Expr.between x vl vr negated) : res DataValue).
  { destruct Hl as (Ol & _ & _), Hr as (Or & _ & _).
    unfold value_of. change (bind_evaluator (ScalarExpression.Between negated column l r)) with
      (Ok (E := DatabaseError) (ScalarExpression.Between negated column l r)).
    cbn [rbind]. unfold l, r. by rewrite eval_between, Ex, !eval_constant by (by eapply operand_parameter). }
  destruct (constant_compare ty column x vl row (if negated then BinaryOperator.Lt else BinaryOperator.GtEq)
    (if negated then c_lt else c_ge)) as (El & Sl & Nl); try done; [by destruct negated..|].
  destruct (constant_compare ty column x vr row (if negated then BinaryOperator.Gt else BinaryOperator.LtEq)
    (if negated then c_gt else c_le)) as (Er & Sr & Nr); try done; [by destruct negated..|].
  symmetry.
  assert (between_comparisons negated column l r =
    ScalarExpression.Binary (if negated then BinaryOperator.Or else BinaryOperator.And)
      (in_comparison (if negated then BinaryOperator.Lt else BinaryOperator.GtEq) column l)
      (in_comparison (if negated then BinaryOperator.Gt else BinaryOperator.LtEq) column r) None LogicalType.Boolean) as ->
    by (by destruct negated).
  apply (boolean_value row _ _ _ None LogicalType.Boolean
    {| Evaluators.pos := BINARY_BOOLEAN_BASE + (if negated then 1 else 0); Evaluators.params := Unit |});
    [done|done|by destruct negated|].
  eexists _, _. split; [exact El|]. split; [exact Er|]. unfold compare_value, Expr.between.
  destruct Hl as (_ & _ & ->), Hr as (_ & _ & ->). rewrite orb_false_r.
  destruct (is_null x) eqn:Nx.
  - rewrite Nl, Nr by done. by destruct negated.
  - destruct (Sl eq_refl) as [c ->], (Sr eq_refl) as [c' ->]. cbn [fmap option_fmap option_map].
    destruct negated, c, c'; reflexivity.
Qed.

(** ** Terms beside a column *)

Section Moved.
Context (N : Numeric) (ty : LogicalType) (HN : numeric_of ty = Some N).

Definition signed_value (s : step) : Z := if step_plus s then step_value s else - step_value s.
Definition total (steps : list step) : Z := foldr (fun s t => signed_value s + t) 0 steps.

(** The constants on the other side; each of the differences is in range. *)
Fixpoint moves (steps : list step) (v : Z) : option Z :=
  match steps with
  | [] => Some v
  | s :: steps => match num_checked N (v - signed_value s) with Some v => moves steps v | None => None end
  end.

Lemma moves_total steps v w : moves steps v = Some w -> w = v - total steps.
Proof.
  revert v. induction steps as [|s steps IH]; intros v; cbn [moves]; [intros [= <-]; cbn; lia|].
  destruct (num_checked N (v - signed_value s)) as [v'|] eqn:E; [|done]. apply num_checked_range in E as [-> _].
  intros H. apply IH in H. subst w. cbn. fold (total steps). lia.
Qed.

Lemma numeric_comparable : comparable ty.
Proof. by destruct ty. Qed.

Lemma numeric_supports op : supports ty op = match numeric_binary_pos 0 op with Ok _ => true | Err _ => false end.
Proof. destruct ty; try done; by destruct op. Qed.

Lemma number_type n : logical_type (num_make N n) = ty.
Proof. destruct ty; simplify_eq/=; done. Qed.

Lemma number_cmp a b : partial_cmp (num_make N a) (num_make N b) = Some (a ?= b).
Proof. destruct ty; simplify_eq/=; done. Qed.

Lemma number_yields n row : num_range N n -> yields row ty (ScalarExpression.Constant (num_make N n)) (num_make N n).
Proof.
  intros Hn. apply constant_yields; [apply numeric_comparable| |apply number_type].
  by apply (no_make _ _ (numeric_of_ok ty N HN)).
Qed.

(** A sum or a difference with a constant. *)
Lemma step_evaluates (flipped : bool) s e ev row y : yields row ty e y -> return_type e = Ok ty -> num_range N (step_value s) ->
  value_of row (ScalarExpression.Binary (if flipped then step_flipped s else step_op s) e
    (ScalarExpression.Constant (num_make N (step_value s))) ev ty) =
  match num_get N y with
  | Some n => num_result N (if flipped then n - signed_value s else n + signed_value s)
  | None => Ok DataValue.Null
  end.
Proof.
  intros Hy He Hs. rewrite (bind_sides row _ ty _ _ ev ty y (num_make N (step_value s)) numeric_comparable Hy (number_yields _ _ Hs))
    by (by left).
  destruct (binary_create ty (if flipped then step_flipped s else step_op s)) as [evaluator|] eqn:Hc.
  2:{ pose proof (numeric_supports (if flipped then step_flipped s else step_op s)) as H. unfold supports in H. rewrite Hc in H.
      by destruct flipped, s as [[] ? ?]. }
  cbn [rbind]. rewrite (numeric_dispatch ty N _ evaluator _ _ HN Hc).
  pose proof (numeric_of_ok ty N HN) as Hok. destruct Hy as (_ & Oy & _).
  destruct (no_operand _ _ Hok y Oy) as [-> |(n & -> & Hn)].
  - rewrite (no_null _ _ Hok).
    destruct flipped, s as [[] k sev]; cbn; unfold numeric_plus_binary_eval, numeric_minus_binary_eval, with_operands;
      by rewrite (no_null _ _ Hok), (no_get _ _ Hok).
  - rewrite (no_get _ _ Hok).
    destruct flipped, s as [[] k sev]; cbn; unfold numeric_plus_binary_eval, numeric_minus_binary_eval, with_operands;
      rewrite !(no_get _ _ Hok); unfold signed_value; cbn; do 2 f_equal; lia.
Qed.

Lemma chain_type position steps : return_type (chain N ty position steps) = Ok ty.
Proof. by destruct steps. Qed.

Definition in_range (steps : list step) : Prop := Forall (fun s => num_range N (step_value s)) steps.

(** The value of the chain, where it has one. *)
Lemma chain_value position steps row x y : in_range steps ->
  yields row ty (ScalarExpression.ColumnRef ty position) x -> value_of row (chain N ty position steps) = Ok y ->
  yields row ty (chain N ty position steps) y /\
  (x = DataValue.Null /\ y = DataValue.Null \/ exists c, x = num_make N c /\ y = num_make N (c + total steps)).
Proof.
  intros Hs Hx. pose proof (numeric_of_ok ty N HN) as Hok. revert y. induction Hs as [|s steps Hs _ IH]; intros y Hy.
  - cbn [chain] in Hy |- *. pose proof Hx as (Hv & Ho & _). unfold evaluates in Hv. rewrite Hv in Hy. apply Ok_inj in Hy. subst y.
    split; [done|]. destruct (no_operand _ _ Hok x Ho) as [-> |(c & -> & _)]; [by left|right]. exists c. by rewrite Z.add_0_r.
  - cbn [chain] in Hy |- *. destruct (binary_operands row _ _ _ _ _ _ Hy) as (z & _ & Hz & _).
    destruct (IH z Hz) as [Yz Hk]. pose proof Hy as Hy'.
    rewrite (step_evaluates false s _ _ row z Yz (chain_type position steps) Hs) in Hy'. split.
    + split; [exact Hy|]. split; [|by left].
      destruct (num_get N z); [|apply Ok_inj in Hy'; subst y; apply null_operand].
      unfold num_result in Hy'. destruct (num_checked N _) as [w|] eqn:E; [|done]. apply Ok_inj in Hy'. subst y.
      apply num_checked_range in E as [-> E]. by apply (no_make _ _ Hok).
    + destruct Hk as [[-> ->]|(c & -> & ->)].
      * rewrite (no_null _ _ Hok) in Hy'. apply Ok_inj in Hy'. by left.
      * rewrite (no_get _ _ Hok) in Hy'. unfold num_result in Hy'.
        destruct (num_checked N _) as [w|] eqn:E; [|done]. apply Ok_inj in Hy'. subst y.
        apply num_checked_range in E as [-> _]. right. exists c. split; [done|]. cbn. f_equal. fold (total steps). lia.
Qed.

Lemma moved_value steps r v w row : in_range steps ->
  yields row ty r (num_make N v) -> return_type r = Ok ty -> moves steps v = Some w ->
  yields row ty (moved N ty steps r) (num_make N w) /\ return_type (moved N ty steps r) = Ok ty.
Proof.
  intros Hs. pose proof (numeric_of_ok ty N HN) as Hok. revert r v. induction Hs as [|s steps Hs _ IH]; intros r v Hr Ht Hm.
  - cbn in Hm. injection Hm as <-. done.
  - cbn [moves] in Hm. destruct (num_checked N (v - signed_value s)) as [v'|] eqn:E; [|done]. cbn [moved].
    apply (IH _ v'); [|done|done]. pose proof E as E'. apply num_checked_range in E' as [-> E'].
    split; [|split; [by apply (no_make _ _ Hok)|by left]]. unfold evaluates.
    rewrite (step_evaluates true s r None row _ Hr Ht Hs), (no_get _ _ Hok). unfold num_result. by rewrite E.
Qed.

(** Comparing the sum with a constant is comparing the column with what is
    left of the constant. *)
Lemma compare_moved steps x y v w test : moves steps v = Some w ->
  x = DataValue.Null /\ y = DataValue.Null \/ (exists c, x = num_make N c /\ y = num_make N (c + total steps)) ->
  compare_value test y (num_make N v) = compare_value test x (num_make N w) /\
  compare_value test (num_make N v) y = compare_value test (num_make N w) x.
Proof.
  intros Hm Hk. apply moves_total in Hm. subst w. destruct Hk as [[-> ->]|(c & -> & ->)].
  - unfold compare_value. cbn [is_null orb]. by rewrite !orb_true_r.
  - assert (forall n, is_null (num_make N n) = false) as Hn.
    { intros n. pose proof (no_get _ _ (numeric_of_ok ty N HN) n) as Hg. destruct (num_make N n) eqn:E; try done.
      by rewrite (no_null _ _ (numeric_of_ok ty N HN)) in Hg. }
    unfold compare_value. rewrite !Hn, !number_cmp. cbn [orb].
    replace (c ?= v - total steps) with (c + total steps ?= v)
      by (rewrite <- (Zcompare_add_l c (v - total steps) (total steps)); f_equal; lia).
    replace (v - total steps ?= c) with (v ?= c + total steps)
      by (rewrite <- (Zcompare_add_l (v - total steps) c (total steps)); f_equal; lia).
    done.
Qed.
End Moved.
End Terms.

(** * The rules *)

Section Rules.
Context {OF : OrderedFloat} {CH : Chrono} {SF : ScalarFunctions}.
Context (schema : list LogicalType).

Notation column := ScalarExpression.ColumnRef.
Notation constant := ScalarExpression.Constant.
Notation boolean_binary op l r ev := (ScalarExpression.Binary op l r ev LogicalType.Boolean).

(** The sides of a comparison, and what they become. *)
Inductive compared : ScalarExpression -> ScalarExpression -> ScalarExpression -> ScalarExpression -> Prop :=
| compared_terms ty l r position :
    comparable ty -> term schema ty l -> term schema ty r -> l = column ty position \/ r = column ty position ->
    compared l r l r
| compared_sum N ty position steps v w :
    numeric_of ty = Some N -> schema !! position = Some ty -> in_range N steps -> num_range N v -> moves N steps v = Some w ->
    compared (chain N ty position steps) (constant (num_make N v))
      (column ty position) (moved N ty steps (constant (num_make N v)))
| compared_sum_right N ty position steps v w :
    numeric_of ty = Some N -> schema !! position = Some ty -> in_range N steps -> num_range N v -> moves N steps v = Some w ->
    compared (constant (num_make N v)) (chain N ty position steps)
      (moved N ty steps (constant (num_make N v))) (column ty position).

(** The predicates and what they become. *)
Inductive simplifies : ScalarExpression -> ScalarExpression -> Prop :=
| simplifies_comparison op l r l' r' ev :
    is_rearrangeable_comparison op = true -> compared l r l' r' ->
    simplifies (boolean_binary op l r ev) (boolean_binary op l' r' ev)
| simplifies_not op op' l r l' r' ev u :
    negate_range_comparison op = Some op' -> compared l r l' r' ->
    unpack_val (boolean_binary op l r ev) = Ok None ->
    simplifies (ScalarExpression.Unary UnaryOperator.Not (boolean_binary op l r ev) u LogicalType.Boolean)
      (boolean_binary op' l' r' ev)
| simplifies_not_other e u :
    unpack_val e = Ok None -> take_negated_range_comparison e = None ->
    let e' := ScalarExpression.Unary UnaryOperator.Not e u LogicalType.Boolean in simplifies e' e'
| simplifies_truth test_op op op' l r l' r' ev ev' b (is_flip : bool) :
    polarity test_op op b = Some op' -> compared l r l' r' ->
    simplifies (if is_flip then boolean_binary test_op (constant (DataValue.Boolean b)) (boolean_binary op l r ev) ev'
                else boolean_binary test_op (boolean_binary op l r ev) (constant (DataValue.Boolean b)) ev')
      (boolean_binary op' l' r' ev)
| simplifies_in ty position (negated : bool) first args :
    comparable ty -> schema !! position = Some ty ->
    supports ty (if negated then BinaryOperator.NotEq else BinaryOperator.Eq) = true -> Forall (term schema ty) (first :: args) ->
    simplifies (ScalarExpression.In negated (column ty position) (first :: args))
      (in_comparisons negated (column ty position) first args)
| simplifies_in_nothing negated e :
    let e' := ScalarExpression.In negated e [] in simplifies e' e'
| simplifies_between ty position negated vl vr :
    comparable ty -> schema !! position = Some ty -> supports ty BinaryOperator.Gt = true ->
    bound_constant ty vl -> bound_constant ty vr ->
    simplifies (ScalarExpression.Between negated (column ty position) (constant vl) (constant vr))
      (between_comparisons negated (column ty position) (constant vl) (constant vr))
| simplifies_is_null negated ty position :
    let e := ScalarExpression.IsNull negated (column ty position) in simplifies e e
| simplifies_connective op l r l' r' ev :
    op = BinaryOperator.And \/ op = BinaryOperator.Or -> simplifies l l' -> simplifies r r' ->
    simplifies (boolean_binary op l r ev) (boolean_binary op l' r' ev).

Lemma compared_turns l r l' r' : compared l r l' r' -> turns l r l' r'.
Proof.
  destruct 1 as [ty l r position _ Hl Hr _|N ty position steps v w|N ty position steps v w].
  - by apply turns_quiet; apply quiet_leaf; eapply term_leaf.
  - exact (turns_chain N ty position steps (num_make N v) false).
  - exact (turns_chain N ty position steps (num_make N v) true).
Qed.

Lemma test_of op : is_rearrangeable_comparison op = true -> exists test, comparison_test op = Some test.
Proof. destruct op; try done; by eexists. Qed.

Definition compare_agrees (row : list DataValue) (ty : LogicalType) (l r l' r' : ScalarExpression) (a b : DataValue) : Prop :=
  forall op test, comparison_test op = Some test ->
    (forall ev t, supports ty op = true -> value_of row (ScalarExpression.Binary op l' r' ev t) = Ok (compare_value test a b)) /\
    (forall ev t v, value_of row (ScalarExpression.Binary op l r ev t) = Ok v -> supports ty op = true /\ v = compare_value test a b).

(** A sum beside a column, its value and what is compared in its place. *)
Lemma sum_sides N ty position steps v w row :
  fits schema row -> numeric_of ty = Some N -> schema !! position = Some ty -> in_range N steps -> num_range N v ->
  moves N steps v = Some w ->
  exists x, yields row ty (column ty position) x /\ yields row ty (constant (num_make N v)) (num_make N v) /\
    yields row ty (moved N ty steps (constant (num_make N v))) (num_make N w) /\
    forall y, value_of row (chain N ty position steps) = Ok y -> yields row ty (chain N ty position steps) y /\
      forall test, compare_value test y (num_make N v) = compare_value test x (num_make N w) /\
        compare_value test (num_make N v) y = compare_value test (num_make N w) x.
Proof.
  intros Hf HN Hp Hs Hv Hm. pose proof (numeric_comparable N ty HN) as Hty.
  destruct (term_yields schema ty (column ty position) row Hty Hf (term_column schema ty position Hp)) as (x & _ & _ & Hx).
  pose proof (number_yields N ty HN v row Hv) as Yv.
  destruct (moved_value N ty HN steps (constant (num_make N v)) v w row Hs Yv) as [Yw _];
    [cbn; by rewrite (number_type N ty HN)|done|].
  exists x. split; [done|]. split; [done|]. split; [done|]. intros y Hy.
  destruct (chain_value N ty HN position steps row x y Hs Hx Hy) as [Yy Hk]. split; [done|].
  intros test. by apply (compare_moved N ty HN steps).
Qed.

(** A comparison that has a value has an evaluator, and the value is that of
    its sides. *)
Lemma sides_agree ty op test ev t l r x y v row : comparable ty -> comparison_test op = Some test ->
  yields row ty l x -> yields row ty r y -> return_type l = Ok ty \/ return_type r = Ok ty ->
  value_of row (ScalarExpression.Binary op l r ev t) = Ok v -> supports ty op = true /\ v = compare_value test x y.
Proof.
  intros Hs Ht Hl Hr Hty Hv. pose proof Hv as Hop. rewrite (bind_sides row op ty l r ev t x y) in Hop by done.
  apply supported_operator in Hop. split; [done|].
  rewrite (comparison_evaluates row ty op test ev t l r x y) in Hv by done. by apply Ok_inj in Hv.
Qed.

Lemma compared_value row l r l' r' : fits schema row -> compared l r l' r' -> exists ty a b, compare_agrees row ty l r l' r' a b.
Proof.
  intros Hf Hc. destruct Hc as [ty l r position Hs Hl Hr Hcol|N ty position steps v w HN Hp Hs Hv Hm|N ty position steps v w HN Hp Hs Hv Hm].
  - destruct (term_yields schema ty l row Hs Hf Hl) as (a & _ & _ & Ha).
    destruct (term_yields schema ty r row Hs Hf Hr) as (b & _ & _ & Hb).
    assert (return_type l = Ok ty \/ return_type r = Ok ty) as Ht by (destruct Hcol as [-> | ->]; [by left|by right]).
    exists ty, a, b. intros op test Htest. split; [intros ev t Hop; by eapply comparison_evaluates|].
    intros ev t v. by apply sides_agree.
  - destruct (sum_sides N ty position steps v w row) as (x & Yx & Yv & Yw & Hy); try done.
    pose proof (numeric_comparable N ty HN) as Hty. exists ty, x, (num_make N w). intros op test Htest.
    split; [intros ev t Hop; eapply comparison_evaluates; try done; by left|].
    intros ev t u Hu. destruct (binary_operands row _ _ _ _ _ _ Hu) as (y & _ & Vy & _). destruct (Hy y Vy) as [Yy Hk].
    rewrite <- (proj1 (Hk test)). eapply sides_agree; try done. left. apply chain_type.
  - destruct (sum_sides N ty position steps v w row) as (x & Yx & Yv & Yw & Hy); try done.
    pose proof (numeric_comparable N ty HN) as Hty. exists ty, (num_make N w), x. intros op test Htest.
    split; [intros ev t Hop; eapply comparison_evaluates; try done; by right|].
    intros ev t u Hu. destruct (binary_operands row _ _ _ _ _ _ Hu) as (_ & y & _ & Vy). destruct (Hy y Vy) as [Yy Hk].
    rewrite <- (proj2 (Hk test)). eapply sides_agree; try done. right. apply chain_type.
Qed.

Lemma simplifies_boolean e e' : simplifies e e' -> boolean e /\ boolean e'.
Proof.
  destruct 1; try (split; reflexivity).
  - split; [by destruct is_flip|done].
  - split; [done|]. rewrite in_comparisons_fold.
    assert (forall op1 op2 e new_expr, boolean new_expr -> boolean (fold_left (fun new_expr arg =>
      boolean_binary op2 (in_comparison op1 e arg) new_expr None) args new_expr)) as Hfold; [|by apply Hfold].
    clear. induction args as [|arg args IH]; intros op1 op2 e new_expr Hn; [done|]. cbn [fold_left]. by apply IH.
  - split; [done|]. by destruct negated.
Qed.

(** The visitor applies the rules. *)
Lemma simplifies_visits e e' : simplifies e e' -> exists rs, visits e [] e' rs.
Proof.
  induction 1 as [op l r l' r' ev Hop Hc|op op' l r l' r' ev u Hop Hc Hu|e u Hu Ht e'|test_op op op' l r l' r' ev ev' b is_flip Hp Hc
    |ty position negated first args Hs Hp Hop Ha|negated e e'|ty position negated vl vr Hs Hp Hop Hl Hr|negated ty position e
    |op l r l' r' ev Hop _ [rl IHl] _ [rr IHr]].
  - exists []. apply visits_comparison; [by apply compared_turns|done].
  - exists []. eapply visits_not; [by apply compared_turns|done|done].
  - eexists. by apply visits_not_other.
  - exists []. by apply visits_normalized; [apply compared_turns|].
  - exists []. apply Forall_cons_1 in Ha as [Hf Ha].
    apply visits_in; [done|by eapply term_leaf|]. eapply List.Forall_impl; [|exact Ha]. intros a. by apply term_leaf.
  - exists []. apply visits_in_nothing.
  - exists []. by apply visits_between.
  - exists []. apply visits_is_null.
  - exists []. by eapply visits_connective.
Qed.

Lemma boolean_operator op : op = BinaryOperator.And \/ op = BinaryOperator.Or ->
  exists evaluator, binary_create LogicalType.Boolean op = Ok evaluator.
Proof. intros [-> | ->]; by eexists. Qed.

Lemma rearrangeable_of op op' : negate_range_comparison op = Some op' ->
  exists test test', comparison_test op = Some test /\ comparison_test op' = Some test'.
Proof. destruct op; try done; intros [= <-]; by eexists _, _. Qed.

(** The rules keep the value. *)
Lemma simplifies_value e e' row v : simplifies e e' -> fits schema row -> value_of row e = Ok v -> value_of row e' = Ok v.
Proof.
  intros H Hf. revert v. induction H as [op l r l' r' ev Hop Hc|op op' l r l' r' ev u Hop Hc Hu|e u Hu Ht e'
    |test_op op op' l r l' r' ev ev' b is_flip Hp Hc|ty position negated first args Hs Hp Hop Ha|negated e e'
    |ty position negated vl vr Hs Hp Hop Hl Hr|negated ty position e|op l r l' r' ev Hop Hl IHl Hr IHr]; intros v Hv; try done.
  - destruct (compared_value row l r l' r' Hf Hc) as (ty & a & b & Hagree). destruct (test_of op Hop) as [test Ht].
    destruct (Hagree op test Ht) as [H1 H2]. destruct (H2 ev _ v Hv) as [Hs ->]. by apply H1.
  - destruct (compared_value row l r l' r' Hf Hc) as (ty & a & b & Hagree).
    destruct (rearrangeable_of op op' Hop) as (test & test' & Ht & Ht').
    destruct (Hagree op test Ht) as [_ H2]. destruct (Hagree op' test' Ht') as [H1 _].
    apply not_value in Hv as (w & Hw & Hv); [|done]. destruct (H2 ev _ w Hw) as [Hs ->].
    rewrite (negated_value op op' test test') in Hv by done. apply Ok_inj in Hv. subst v.
    apply H1. by eapply negate_supported.
  - destruct (compared_value row l r l' r' Hf Hc) as (ty & a & b' & Hagree).
    destruct (negate_range_comparison op) as [neg|] eqn:En; [|unfold polarity in Hp; rewrite En in Hp; by destruct test_op].
    destruct (rearrangeable_of op neg En) as (test & test' & Ht & Ht').
    assert (exists test'', comparison_test op' = Some test'' /\ (supports ty op = true -> supports ty op' = true)) as (test'' & Ht'' & Hsup).
    { unfold polarity in Hp. rewrite En in Hp. pose proof (negate_supported ty op neg En).
      destruct test_op; try done; destruct b; injection Hp as <-; eauto. }
    destruct (Hagree op test Ht) as [_ H2]. destruct (Hagree op' test'' Ht'') as [H1 _].
    assert (exists evaluator, binary_create LogicalType.Boolean test_op = Ok evaluator) as [evaluator Hev]
      by (unfold polarity in Hp; destruct test_op; try done; by eexists).
    assert (exists x y w, value_of row (boolean_binary op l r ev) = Ok w /\ binary_eval evaluator x y = Ok v /\
      (if is_flip then x = DataValue.Boolean b /\ y = w else x = w /\ y = DataValue.Boolean b)) as (x & y & w & Hw & Hxy & Hk).
    { destruct is_flip; apply (boolean_value row _ _ _ _ _ evaluator) in Hv as (x & y & Hx & Hy & Hxy); try done.
      - exists x, y, y. split; [done|]. split; [done|]. by apply Ok_inj in Hx.
      - exists x, y, x. split; [done|]. split; [done|]. by apply Ok_inj in Hy. }
    destruct (H2 ev _ w Hw) as [Hs ->].
    assert (v = compare_value test'' a b') as ->; [|by apply H1, Hsup].
    eapply (polarity_value test_op op op' b evaluator test test'' a b' v is_flip); try done.
    destruct is_flip; destruct Hk as [-> ->]; exact Hxy.
  - by rewrite <- (in_value schema).
  - by rewrite <- (between_value schema ty).
  - destruct (boolean_operator op Hop) as [evaluator Hev].
    destruct (simplifies_boolean l l' Hl) as [Bl Bl']. destruct (simplifies_boolean r r' Hr) as [Br Br'].
    destruct (proj1 (boolean_value row op l r ev LogicalType.Boolean evaluator v Bl Br Hev) Hv) as (a & b & Ha & Hb & Hab).
    apply (boolean_value row op l' r' ev LogicalType.Boolean evaluator v Bl' Br' Hev).
    exists a, b. split; [by apply IHl|]. split; [by apply IHr|exact Hab].
Qed.

End Rules.

(** * Witness *)

(** [NOT (c0 + 1 - 3 > 5) AND c1 IN ('a', NULL)], on the schema INTEGER,
    VARCHAR. *)
Definition rule_schema : list LogicalType := [LogicalType.Integer; LogicalType.Varchar None Characters].
Definition rule_text : DataValue := DataValue.Utf8 [97] (Variable_ None) Characters.

Definition rule_steps : list step := [mk_step false 3 None; mk_step true 1 None].

Definition rule_predicate {SF : ScalarFunctions} : ScalarExpression :=
  ScalarExpression.Binary BinaryOperator.And
    (ScalarExpression.Unary UnaryOperator.Not
       (ScalarExpression.Binary BinaryOperator.Gt (chain Int32_num LogicalType.Integer 0 rule_steps)
          (ScalarExpression.Constant (DataValue.Int32 5)) None LogicalType.Boolean) None LogicalType.Boolean)
    (ScalarExpression.In false (ScalarExpression.ColumnRef (LogicalType.Varchar None Characters) 1)
       [ScalarExpression.Constant rule_text; ScalarExpression.Constant DataValue.Null]) None LogicalType.Boolean.

Definition rule_result {SF : ScalarFunctions} : ScalarExpression :=
  ScalarExpression.Binary BinaryOperator.And
    (ScalarExpression.Binary BinaryOperator.LtEq (ScalarExpression.ColumnRef LogicalType.Integer 0)
       (moved Int32_num LogicalType.Integer rule_steps (ScalarExpression.Constant (DataValue.Int32 5))) None LogicalType.Boolean)
    (in_comparisons false (ScalarExpression.ColumnRef (LogicalType.Varchar None Characters) 1)
       (ScalarExpression.Constant rule_text) [ScalarExpression.Constant DataValue.Null]) None LogicalType.Boolean.

Lemma rule_text_ok : dv_ok rule_text.
Proof. split; [repeat constructor; vm_compute; intuition congruence|done]. Qed.

Lemma rule_simplifies {OF : OrderedFloat} {CH : Chrono} {SF : ScalarFunctions} :
  simplifies rule_schema rule_predicate rule_result.
Proof.
  apply simplifies_connective; [by left| |].
  - eapply simplifies_not; [reflexivity| |reflexivity].
    refine (compared_sum rule_schema Int32_num LogicalType.Integer 0 rule_steps 5 7 eq_refl eq_refl _ _ eq_refl);
      [repeat constructor|]; vm_compute; intuition congruence.
  - apply simplifies_in; [done|done|done|]. constructor; [|constructor; [apply term_null|constructor]].
    apply term_constant; [|done]. split; [apply rule_text_ok|done].
Qed.

