(* ===== verification/Columns.v ===== *)
(** The columns an expression refers to (src/src/expression/mod.rs,
    [all_referenced_columns]) and moving their positions
    (src/src/expression/visitor_mut.rs, [PositionShift]), with the walks of the
    two visitors.

    References are the trees they denote. The code moves the positions in
    place: a column two operands share is moved twice, so the trees agree with
    the arena where no reference of the expression is shared. *)

From S2P Require Import Prelude MachineInt Types Operators Value Time32 Chrono FloatArith Text Evaluators Casts Expr.
From S2P Require Import Reader MemComparable Serdes Ranges Detach ConstantFold Simplify.
From stdpp Require Import base tactics list numbers option.
From Stdlib Require Import ZArith Lia.
Local Open Scope Z_scope.

Section Columns.
Context {SF : ScalarFunctions}.

(** The columns are told apart by the test: the code asks for the column's
    identity, which a reference to it carries beside its type and position. *)
Fixpoint all_referenced_columns (predicate : LogicalType -> nat -> bool) (self : ScalarExpression) : bool :=
  let visit := all_referenced_columns predicate in
  let opt (o : option ScalarExpression) := match o with Some e => visit e | None => true end in
  match self with
  | ScalarExpression.ColumnRef ty position => predicate ty position
  | ScalarExpression.Alias expr alias => opt alias && visit expr
  | ScalarExpression.TypeCast expr _ _ | ScalarExpression.IsNull _ expr | ScalarExpression.Unary _ expr _ _ => visit expr
  | ScalarExpression.Binary _ l r _ _ | ScalarExpression.Position l r
  | ScalarExpression.IfNull l r _ | ScalarExpression.NullIf l r _ => visit l && visit r
  | ScalarExpression.AggCall args _ | ScalarExpression.Tuple args | ScalarExpression.ScalaFunction _ args
  | ScalarExpression.Coalesce args _ => forallb visit args
  | ScalarExpression.In _ expr args => visit expr && forallb visit args
  | ScalarExpression.Between _ expr l r | ScalarExpression.If expr l r _ => visit expr && visit l && visit r
  | ScalarExpression.SubString expr for_expr from_expr => visit expr && opt for_expr && opt from_expr
  | ScalarExpression.Trim expr what _ => visit expr && opt what
  | ScalarExpression.CaseWhen operand pairs else_ _ =>
      opt operand && forallb (fun '(w, t) => visit w && visit t) pairs && opt else_
  | _ => true
  end.

(** A visitor that overrides [visit_column_ref] to move the position. *)
Fixpoint map_columns (f : nat -> nat) (self : ScalarExpression) : ScalarExpression :=
  let visit := map_columns f in
  match self with
  | ScalarExpression.ColumnRef ty position => ScalarExpression.ColumnRef ty (f position)
  | ScalarExpression.Alias expr alias => ScalarExpression.Alias (visit expr) (option_map visit alias)
  | ScalarExpression.TypeCast expr ty evaluator => ScalarExpression.TypeCast (visit expr) ty evaluator
  | ScalarExpression.IsNull negated expr => ScalarExpression.IsNull negated (visit expr)
  | ScalarExpression.Unary op expr evaluator ty => ScalarExpression.Unary op (visit expr) evaluator ty
  | ScalarExpression.Binary op l r evaluator ty => ScalarExpression.Binary op (visit l) (visit r) evaluator ty
  | ScalarExpression.AggCall args ty => ScalarExpression.AggCall (map visit args) ty
  | ScalarExpression.In negated expr args => ScalarExpression.In negated (visit expr) (map visit args)
  | ScalarExpression.Between negated expr l r => ScalarExpression.Between negated (visit expr) (visit l) (visit r)
  | ScalarExpression.SubString expr for_expr from_expr =>
      ScalarExpression.SubString (visit expr) (option_map visit for_expr) (option_map visit from_expr)
  | ScalarExpression.Position expr in_expr => ScalarExpression.Position (visit expr) (visit in_expr)
  | ScalarExpression.Trim expr what where_ => ScalarExpression.Trim (visit expr) (option_map visit what) where_
  | ScalarExpression.Tuple exprs => ScalarExpression.Tuple (map visit exprs)
  | ScalarExpression.ScalaFunction inner args => ScalarExpression.ScalaFunction inner (map visit args)
  | ScalarExpression.If condition l r ty => ScalarExpression.If (visit condition) (visit l) (visit r) ty
  | ScalarExpression.IfNull l r ty => ScalarExpression.IfNull (visit l) (visit r) ty
  | ScalarExpression.NullIf l r ty => ScalarExpression.NullIf (visit l) (visit r) ty
  | ScalarExpression.Coalesce exprs ty => ScalarExpression.Coalesce (map visit exprs) ty
  | ScalarExpression.CaseWhen operand pairs else_ ty =>
      ScalarExpression.CaseWhen (option_map visit operand) (map (fun '(w, t) => (visit w, visit t)) pairs)
        (option_map visit else_) ty
  | e => e
  end.

(** [PositionShift::visit_column_ref]. *)
Definition shift_position (delta : Z) (position : nat) : nat :=
  if delta <? 0 then (position - Z.to_nat (- delta))%nat else (position + Z.to_nat delta)%nat.

Definition shift_positions (delta : Z) : ScalarExpression -> ScalarExpression := map_columns (shift_position delta).
End Columns.

Section Mapped.
Context {OF : OrderedFloat} {CH : Chrono} {SF : ScalarFunctions}.

(** A user function sees its arguments through their values. *)
Definition functions_local : Prop :=
  forall inner args args' row row', Forall2 (fun a a' => a row = a' row') args args' ->
    function_eval inner args row = function_eval inner args' row'.

Context (f : nat -> nat).

Lemma return_type_map e : return_type (map_columns f e) = return_type e.
Proof.
  induction e as [e IH] using expression_ind. destruct e; try done; cbn [children] in IH.
  - apply Forall_cons_1 in IH as [IH _]. exact IH.
  - cbn [map_columns return_type]. f_equal.
    induction IH as [|e es He _ IHes]; [done|]. cbn [map]. rewrite He. by rewrite IHes.
Qed.

(** ** Binding *)

Definition bound_map (m : res ScalarExpression) : res ScalarExpression := let? b := m in Ok (map_columns f b).

Lemma type_cast_map b ty : type_cast (map_columns f b) ty = bound_map (type_cast b ty).
Proof.
  unfold type_cast, bound_map. rewrite return_type_map. destruct (return_type b) as [from|]; [|done]. cbn [rbind].
  case_decide; [done|]. by destruct (cast_create from ty).
Qed.

Lemma bind_binary_map op l r ty : bind_binary op (map_columns f l) (map_columns f r) ty = bound_map (bind_binary op l r ty).
Proof.
  unfold bind_binary. rewrite !return_type_map. destruct (return_type l) as [lt|]; [|done]. destruct (return_type r) as [rt|]; [|done].
  cbn [rbind]. destruct (max_logical_type lt rt) as [m|]; [|done]. cbn [rbind]. rewrite !type_cast_map. unfold bound_map.
  destruct (type_cast l m) as [l'|]; [|done]. destruct (type_cast r m) as [r'|]; [|done]. cbn [rbind].
  by destruct (binary_create m op).
Qed.

Lemma bind_unary_map op e ty : bind_unary op (map_columns f e) ty = bound_map (bind_unary op e ty).
Proof.
  unfold bind_unary. rewrite return_type_map. destruct (return_type e) as [t|]; [|done]. cbn [rbind].
  rewrite type_cast_map. unfold bound_map.
  destruct (is_unsigned_numeric t).
  - destruct (type_cast e (signed_of t)) as [e'|]; [|done]. cbn [rbind]. rewrite return_type_map.
    destruct (return_type e') as [t'|]; [|done]. cbn [rbind]. by destruct (unary_create t' op).
  - cbn [rbind]. rewrite return_type_map. destruct (return_type e) as [t'|]; [|done]. cbn [rbind]. by destruct (unary_create t' op).
Qed.

Lemma bind_type_cast_map e ty : bind_type_cast (map_columns f e) ty = bound_map (bind_type_cast e ty).
Proof.
  unfold bind_type_cast. rewrite return_type_map. destruct (return_type e) as [t|]; [|done]. cbn [rbind].
  case_decide; [done|]. by destruct (cast_create t ty).
Qed.

Definition binds_mapped (e : ScalarExpression) : Prop :=
  bind_evaluator (map_columns f e) = bound_map (bind_evaluator e).

Lemma bind_all_map es : Forall binds_mapped es ->
  bind_all (map (map_columns f) es) = (let? bs := bind_all es in Ok (map (map_columns f) bs)).
Proof.
  induction 1 as [|e es He _ IH]; [done|]. cbn [map bind_all]. rewrite He. unfold bound_map.
  destruct (bind_evaluator e) as [b|]; [|done]. cbn [rbind]. rewrite IH. by destruct (bind_all es).
Qed.

Lemma bind_opt_map o : Forall binds_mapped (option_list o) ->
  bind_opt (option_map (map_columns f) o) = (let? b := bind_opt o in Ok (option_map (map_columns f) b)).
Proof.
  destruct o as [e|]; [|done]. intros [He _]%Forall_cons_1. cbn. rewrite He. unfold bound_map.
  by destruct (bind_evaluator e).
Qed.

Definition map_pair (p : ScalarExpression * ScalarExpression) : ScalarExpression * ScalarExpression :=
  let '(w, t) := p in (map_columns f w, map_columns f t).

Lemma bind_pairs_map ps : Forall binds_mapped (concat (map (fun '(w, t) => [w; t]) ps)) ->
  bind_pairs (map map_pair ps) = (let? bs := bind_pairs ps in Ok (map map_pair bs)).
Proof.
  induction ps as [|[w t] ps IH]; [done|]. cbn [map concat app]. intros [Hw [Ht H]%Forall_cons_1]%Forall_cons_1.
  cbn [bind_pairs map_pair]. rewrite Hw, Ht. unfold bound_map.
  destruct (bind_evaluator w) as [bw|]; [|done]. destruct (bind_evaluator t) as [bt|]; [|done]. cbn [rbind].
  rewrite (IH H). by destruct (bind_pairs ps).
Qed.

Lemma bind_opt_eq o : (match o with Some e => let? e := bind_evaluator e in Ok (Some e) | None => Ok None end) = bind_opt o.
Proof. done. Qed.

(** One operand after the other. *)
Ltac bind_next :=
  match goal with
  | H : binds_mapped ?e |- context [bind_evaluator (map_columns f ?e)] => rewrite H; unfold bound_map at 1; destruct (bind_evaluator e); [|done]
  | H : Forall binds_mapped (option_list ?o) |- context [bind_opt (option_map (map_columns f) ?o)] =>
      rewrite (bind_opt_map o H); destruct (bind_opt o); [|done]
  | H : Forall binds_mapped ?es |- context [bind_all (map (map_columns f) ?es)] =>
      rewrite (bind_all_map es H); destruct (bind_all es); [|done]
  | H : Forall binds_mapped (concat (map _ ?ps)) |- context [bind_pairs (map map_pair ?ps)] =>
      rewrite (bind_pairs_map ps H); destruct (bind_pairs ps); [|done]
  end; cbn [rbind].

Ltac bind_children :=
  repeat match goal with
  | H : Forall binds_mapped (_ :: _) |- _ => apply Forall_cons_1 in H as [? H]
  | H : Forall binds_mapped (_ ++ _) |- _ => apply Forall_app in H as [? H]
  end.

Lemma bind_map e : binds_mapped e.
Proof.
  induction e as [e IH] using expression_ind. change (Forall binds_mapped (children e)) in IH.
  destruct e; try done; cbn [children] in IH; unfold binds_mapped; cbn [map_columns bind_evaluator];
    change (fun '(w, t) => (map_columns f w, map_columns f t)) with map_pair; rewrite ?bind_opt_eq;
    repeat match goal with
    | |- context [rbind (?F ?es) _] => is_fix F; first [change (F es) with (bind_all es)|change (F es) with (bind_pairs es)]
    end; bind_children; repeat bind_next; try done.
  all: try apply bind_type_cast_map; try apply bind_unary_map; try apply bind_binary_map.
Qed.
End Mapped.

(** ** Binding keeps the columns *)

Section Bound.
Context {OF : OrderedFloat} {CH : Chrono} {SF : ScalarFunctions}.
Context (predicate : LogicalType -> nat -> bool).

Notation refers := (all_referenced_columns predicate).

Definition refers_opt (o : option ScalarExpression) : bool := match o with Some e => refers e | None => true end.
Definition refers_pair (p : ScalarExpression * ScalarExpression) : bool := let '(w, t) := p in refers w && refers t.

Lemma type_cast_columns e ty c : type_cast e ty = Ok c -> refers c = refers e.
Proof.
  unfold type_cast. intros H. apply rbind_ok in H as (from & _ & H). case_decide; [by apply Ok_inj in H; subst|].
  apply rbind_ok in H as (ev & _ & H). apply Ok_inj in H. by subst.
Qed.

Lemma bind_binary_columns op l r ty b : bind_binary op l r ty = Ok b -> refers b = refers l && refers r.
Proof.
  unfold bind_binary. intros H. apply rbind_ok in H as (lt & _ & H). apply rbind_ok in H as (rt & _ & H).
  apply rbind_ok in H as (m & _ & H). apply rbind_ok in H as (l' & Hl & H). apply rbind_ok in H as (r' & Hr & H).
  apply rbind_ok in H as (ev & _ & H). apply Ok_inj in H. subst b. cbn.
  by rewrite (type_cast_columns l m l' Hl), (type_cast_columns r m r' Hr).
Qed.

Lemma bind_unary_columns op e ty b : bind_unary op e ty = Ok b -> refers b = refers e.
Proof.
  unfold bind_unary. intros H. apply rbind_ok in H as (t & _ & H). apply rbind_ok in H as (e' & He & H).
  apply rbind_ok in H as (t' & _ & H). apply rbind_ok in H as (ev & _ & H). apply Ok_inj in H. subst b. cbn.
  destruct (is_unsigned_numeric t); [by eapply type_cast_columns|]. apply Ok_inj in He. by subst.
Qed.

Lemma bind_type_cast_columns e ty b : bind_type_cast e ty = Ok b -> refers b = refers e.
Proof.
  unfold bind_type_cast. intros H. apply rbind_ok in H as (from & _ & H). case_decide; [by apply Ok_inj in H; subst|].
  apply rbind_ok in H as (ev & _ & H). apply Ok_inj in H. by subst.
Qed.

Definition keeps_columns (e : ScalarExpression) : Prop := forall b, bind_evaluator e = Ok b -> refers b = refers e.

Lemma bind_all_columns es bs : Forall keeps_columns es -> bind_all es = Ok bs -> forallb refers bs = forallb refers es.
Proof.
  intros H. revert bs. induction H as [|e es He _ IH]; intros bs Hb; [by apply Ok_inj in Hb; subst|].
  cbn [bind_all] in Hb. apply rbind_ok in Hb as (b & Eb & Hb). apply rbind_ok in Hb as (bs' & Ebs & Hb).
  apply Ok_inj in Hb. subst bs. cbn [forallb]. by rewrite (He b Eb), (IH bs' Ebs).
Qed.

Lemma bind_opt_columns o p : Forall keeps_columns (option_list o) -> bind_opt o = Ok p -> refers_opt p = refers_opt o.
Proof.
  destruct o as [e|]; intros H Hb; [|by apply Ok_inj in Hb; subst]. apply Forall_cons_1 in H as [He _].
  cbn [bind_opt] in Hb. apply rbind_ok in Hb as (b & Eb & Hb). apply Ok_inj in Hb. subst p. exact (He b Eb).
Qed.

Lemma bind_pairs_columns ps qs : Forall keeps_columns (concat (map (fun '(w, t) => [w; t]) ps)) -> bind_pairs ps = Ok qs ->
  forallb refers_pair qs = forallb refers_pair ps.
Proof.
  revert qs. induction ps as [|[w t] ps IH]; intros qs H Hb; [by apply Ok_inj in Hb; subst|].
  cbn [map concat app] in H. apply Forall_cons_1 in H as [Hw H]. apply Forall_cons_1 in H as [Ht H].
  cbn [bind_pairs] in Hb. apply rbind_ok in Hb as (w' & Ew & Hb). apply rbind_ok in Hb as (t' & Et & Hb).
  apply rbind_ok in Hb as (qs' & Eq & Hb). apply Ok_inj in Hb. subst qs. cbn [forallb refers_pair].
  by rewrite (Hw w' Ew), (Ht t' Et), (IH qs' H Eq).
Qed.

(** The bound parts of a node. *)
Ltac bound_parts :=
  repeat match goal with
  | H : Forall keeps_columns (_ :: _) |- _ => apply Forall_cons_1 in H as [? H]
  | H : Forall keeps_columns (_ ++ _) |- _ => apply Forall_app in H as [? H]
  | H : rbind _ _ = Ok _ |- _ => apply rbind_ok in H as (? & ? & H)
  end.

Ltac use_parts :=
  repeat match goal with
  | H : bind_evaluator ?e = Ok ?b, K : keeps_columns ?e |- _ => apply K in H
  | H : bind_all ?es = Ok ?bs, K : Forall keeps_columns ?es |- _ => apply (bind_all_columns es bs K) in H
  | H : bind_opt ?o = Ok ?p, K : Forall keeps_columns (option_list ?o) |- _ => apply (bind_opt_columns o p K) in H; unfold refers_opt in H
  | H : bind_pairs ?ps = Ok ?qs, K : Forall keeps_columns (concat (map _ ?ps)) |- _ =>
      apply (bind_pairs_columns ps qs K) in H; unfold refers_pair in H
  end.

Lemma bind_columns e : keeps_columns e.
Proof.
  induction e as [e IH] using expression_ind. change (Forall keeps_columns (children e)) in IH. intros b Hb.
  destruct e; try (apply Ok_inj in Hb; by subst); cbn [children] in IH; cbn [bind_evaluator] in Hb;
    rewrite ?bind_opt_eq in Hb;
    repeat match type of Hb with
    | context [rbind (?F ?es) _] => is_fix F; first [change (F es) with (bind_all es) in Hb|change (F es) with (bind_pairs es) in Hb]
    end; bound_parts; use_parts.
  all: try (apply Ok_inj in Hb; subst b; cbn [all_referenced_columns]; congruence).
  - apply bind_type_cast_columns in Hb. cbn. congruence.
  - apply bind_unary_columns in Hb. cbn. congruence.
  - apply bind_binary_columns in Hb. cbn. congruence.
Qed.
End Bound.

(** ** Evaluation *)

Section Evaluated.
Context {OF : OrderedFloat} {CH : Chrono} {SF : ScalarFunctions}.

Lemma refers_children p e : all_referenced_columns p e = true -> Forall (fun c => all_referenced_columns p c = true) (children e).
Proof.
  assert (forall o, refers_opt p o = true -> Forall (fun c => all_referenced_columns p c = true) (option_list o)) as Ho
    by (intros [x|] H; repeat constructor; done).
  assert (forall es, forallb (all_referenced_columns p) es = true -> Forall (fun c => all_referenced_columns p c = true) es) as Hl
    by (intros es H; apply List.Forall_forall; by apply forallb_forall).
  assert (forall ps, forallb (refers_pair p) ps = true ->
    Forall (fun c => all_referenced_columns p c = true) (concat (map (fun '(w, t) => [w; t]) ps))) as Hp.
  { induction ps as [|[w t] ps IH]; intros H; [constructor|]. cbn in H |- *.
    apply andb_true_iff in H as [[Hw Ht]%andb_true_iff H]. repeat constructor; [done|done|by apply IH]. }
  destruct e; cbn [all_referenced_columns children]; intros H;
    repeat match goal with H : _ && _ = true |- _ => apply andb_true_iff in H as [? H] end;
    repeat match goal with
    | |- Forall _ [] => constructor
    | |- Forall _ (_ :: _) => constructor
    | |- Forall _ (_ ++ _) => apply Forall_app; split
    | |- Forall _ (option_list _) => apply Ho
    | |- Forall _ (concat _) => apply Hp
    | |- Forall _ _ => apply Hl
    end; try done.
Qed.

Context (f : nat -> nat) (row row' : list DataValue) (Hlocal : functions_local).

(** The column has the same value in both rows. *)
Definition agrees (_ : LogicalType) (position : nat) : bool := bool_decide (row' !! f position = row !! position).

Definition evaluates_alike (e : ScalarExpression) : Prop := eval (map_columns f e) (Some row') = eval e (Some row).

Lemma in_args_alike negated value args saw_null : Forall evaluates_alike args ->
  in_args (Some row') negated value (map (map_columns f) args) saw_null = in_args (Some row) negated value args saw_null.
Proof.
  intros H. revert saw_null. induction H as [|e es He _ IH]; intros saw_null; [done|]. cbn [map in_args]. rewrite He.
  destruct (eval e (Some row)) as [v|]; [|done]. cbn [rbind]. destruct (is_null v); [apply IH|]. destruct (dv_eq v value); [done|apply IH].
Qed.

Lemma first_value_alike es : Forall evaluates_alike es ->
  first_value (Some row') (map (map_columns f) es) = first_value (Some row) es.
Proof.
  induction 1 as [|e es He _ IH]; [done|]. cbn [map first_value]. rewrite He. destruct (eval e (Some row)) as [v|]; [|done].
  cbn [rbind]. by destruct (is_null v).
Qed.

Lemma values_of_alike es : Forall evaluates_alike es ->
  values_of (Some row') (map (map_columns f) es) = values_of (Some row) es.
Proof.
  induction 1 as [|e es He _ IH]; [done|]. cbn [map values_of]. rewrite He. destruct (eval e (Some row)) as [v|]; [|done].
  cbn [rbind]. exact (f_equal (fun m => let? vs := m in Ok (v :: vs)) IH).
Qed.

Lemma case_value_alike operand_value else_ ps : Forall evaluates_alike (option_list else_) ->
  Forall evaluates_alike (concat (map (fun '(w, t) => [w; t]) ps)) ->
  case_value (Some row') operand_value (option_map (map_columns f) else_) (map (map_pair f) ps) =
  case_value (Some row) operand_value else_ ps.
Proof.
  intros He. induction ps as [|[w t] ps IH]; intros H.
  - destruct else_ as [x|]; [|done]. apply Forall_cons_1 in He as [He _]. exact He.
  - cbn [map concat app] in H. apply Forall_cons_1 in H as [Hw H]. apply Forall_cons_1 in H as [Ht H].
    cbn [map map_pair case_value]. rewrite Hw, Ht. destruct (eval w (Some row)) as [v|]; [|done]. cbn [rbind].
    destruct (when_matches operand_value v) as [[]|]; [done| |done]. cbn [rbind]. by apply IH.
Qed.

Ltac alike_children :=
  repeat match goal with
  | H : Forall evaluates_alike (_ :: _) |- _ => apply Forall_cons_1 in H as [? H]
  | H : Forall evaluates_alike (_ ++ _) |- _ => apply Forall_app in H as [? H]
  | H : Forall evaluates_alike (option_list (Some _)) |- _ => apply Forall_cons_1 in H as [? H]
  | H : Forall evaluates_alike (option_list ?o) |- _ => is_var o; destruct o; cbn [option_map] in *
  end.

Ltac alike := cbn [eval]; repeat match goal with H : evaluates_alike _ |- _ => unfold evaluates_alike in H; rewrite H; clear H end; try done.

Lemma eval_map e : all_referenced_columns agrees e = true -> evaluates_alike e.
Proof.
  induction e as [e IH] using expression_ind. intros H.
  assert (Forall evaluates_alike (children e)) as Hc.
  { apply refers_children in H. rewrite List.Forall_forall in *. auto. }
  clear IH. destruct e; try done; cbn [children] in Hc; unfold evaluates_alike at 1; cbn [map_columns];
    try (alike_children; alike; fail).
  - cbn in H |- *. apply bool_decide_eq_true in H. by rewrite H.
  - apply Forall_cons_1 in Hc as [He Ha]. match goal with |- ?lhs = _ => change (lhs = (let? value := eval e (Some row) in
      if is_null value then Ok DataValue.Null else in_args (Some row) negated value args false)) end.
    transitivity (let? value := eval (map_columns f e) (Some row') in
      if is_null value then Ok DataValue.Null else in_args (Some row') negated value (map (map_columns f) args) false); [reflexivity|].
    rewrite He. destruct (eval e (Some row)) as [v|]; [|done]. cbn [rbind].
    destruct (is_null v); [done|by apply in_args_alike].
  - match goal with |- ?lhs = _ => change (lhs = (let? values := values_of (Some row) exprs in Ok (DataValue.Tuple values))) end.
    by rewrite <- (values_of_alike exprs Hc).
  - cbn [eval]. rewrite !map_map.
    rewrite (Hlocal inner (map (fun e => eval (map_columns f e)) args) (map (fun e => eval e) args) (Some row') (Some row)); [done|].
    clear H. induction Hc as [|a l Ha _ IHl]; constructor; [exact Ha|exact IHl].
  - match goal with |- ?lhs = _ => change (lhs = (let? value := first_value (Some row) exprs in cast_cow value ty)) end. by rewrite <- (first_value_alike exprs Hc).
  - apply Forall_app in Hc as [Ho Hc]. apply Forall_app in Hc as [Hp He].
    change (fun '(w, t) => (map_columns f w, map_columns f t)) with (map_pair f).
    match goal with |- ?lhs = _ => change (lhs =
      (let? operand_value := match operand_expr with Some e => let? v := eval e (Some row) in Ok (Some v) | None => Ok None end in
       let? result := case_value (Some row) operand_value else_expr expr_pairs in cast_cow result ty)) end.
    transitivity (let? operand_value := match option_map (map_columns f) operand_expr with
        Some e => let? v := eval e (Some row') in Ok (Some v) | None => Ok None end in
      let? result := case_value (Some row') operand_value (option_map (map_columns f) else_expr) (map (map_pair f) expr_pairs) in
      cast_cow result ty); [reflexivity|].
    assert (forall operand_value, case_value (Some row') operand_value (option_map (map_columns f) else_expr) (map (map_pair f) expr_pairs) =
      case_value (Some row) operand_value else_expr expr_pairs) as Hcase by (intros; by apply case_value_alike).
    destruct operand_expr as [o|]; cbn [option_map option_list] in *.
    + apply Forall_cons_1 in Ho as [Ho _]. rewrite Ho. destruct (eval o (Some row)) as [v|]; [|done]. cbn [rbind]. by rewrite Hcase.
    + cbn [rbind]. by rewrite Hcase.
Qed.
End Evaluated.

Lemma map_columns_id {SF : ScalarFunctions} e : map_columns (fun position => position) e = e.
Proof.
  assert (forall o, Forall (fun e => map_columns (fun p => p) e = e) (option_list o) ->
    option_map (map_columns (fun p => p)) o = o) as Ho
    by (intros [x|] H; [apply Forall_cons_1 in H as [H _]; cbn; by rewrite H|done]).
  assert (forall es, Forall (fun e => map_columns (fun p => p) e = e) es -> map (map_columns (fun p => p)) es = es) as Hl
    by (intros es H; induction H as [|x l Hx _ IH]; [done|cbn [map]; by rewrite Hx, IH]).
  induction e as [e IH] using expression_ind.
  destruct e; try done; cbn [children] in IH;
    repeat match goal with
    | H : Forall _ (_ :: _) |- _ => apply Forall_cons_1 in H as [? H]
    | H : Forall _ (_ ++ _) |- _ => apply Forall_app in H as [? H]
    end; cbn [map_columns]; rewrite ?Ho, ?Hl by done; try congruence.
  f_equal. match goal with H : Forall _ (concat _) |- _ => revert H end.
  clear. induction expr_pairs as [|[w t] ps IHp]; [done|]. cbn [map concat app]. intros H.
  apply Forall_cons_1 in H as [Hw H]. apply Forall_cons_1 in H as [Ht H]. by rewrite Hw, Ht, (IHp H).
Qed.

Section Values.
Context {OF : OrderedFloat} {CH : Chrono} {SF : ScalarFunctions}.

Lemma refers_of_children p e : (forall ty position, e <> ScalarExpression.ColumnRef ty position) ->
  Forall (fun c => all_referenced_columns p c = true) (children e) -> all_referenced_columns p e = true.
Proof.
  assert (forall o, Forall (fun c => all_referenced_columns p c = true) (option_list o) -> refers_opt p o = true) as Ho
    by (intros [x|] H; [by apply Forall_cons_1 in H as [H _]|done]).
  assert (forall es, Forall (fun c => all_referenced_columns p c = true) es -> forallb (all_referenced_columns p) es = true) as Hl
    by (intros es H; apply forallb_forall; by apply List.Forall_forall).
  assert (forall ps, Forall (fun c => all_referenced_columns p c = true) (concat (map (fun '(w, t) => [w; t]) ps)) ->
    forallb (refers_pair p) ps = true) as Hp.
  { induction ps as [|[w t] ps IH]; intros H; [done|]. cbn in H |- *.
    apply Forall_cons_1 in H as [Hw H]. apply Forall_cons_1 in H as [Ht H]. by rewrite Hw, Ht, IH. }
  intros Hcol H. destruct e; try done; try (by destruct (Hcol datatype position)); cbn [children] in H;
    repeat match goal with
    | H : Forall _ (_ :: _) |- _ => apply Forall_cons_1 in H as [? H]
    | H : Forall _ (_ ++ _) |- _ => apply Forall_app in H as [? H]
    end; cbn [all_referenced_columns];
    repeat match goal with
    | |- context [match ?o with Some e => all_referenced_columns p e | None => true end] => change (match o with Some e => all_referenced_columns p e | None => true end) with (refers_opt p o)
    | H : all_referenced_columns p ?x = true |- _ => rewrite H; clear H
    | H : Forall _ (option_list ?o) |- _ => rewrite (Ho o H); clear H
    | H : Forall _ (concat _) |- _ => apply Hp in H; unfold refers_pair in H; rewrite H; clear H
    | H : Forall _ ?es |- _ => rewrite (Hl es H); clear H
    end; done.
Qed.

Lemma refers_impl p q e : (forall ty position, p ty position = true -> q ty position = true) ->
  all_referenced_columns p e = true -> all_referenced_columns q e = true.
Proof.
  intros Hpq. induction e as [e IH] using expression_ind. intros H.
  assert ((exists ty position, e = ScalarExpression.ColumnRef ty position) \/
    forall ty position, e <> ScalarExpression.ColumnRef ty position) as [(ty & position & ->)|Hn]
    by (destruct e; try (right; discriminate); left; by eexists _, _).
  - by apply Hpq.
  - apply refers_of_children; [done|]. apply refers_children in H. rewrite List.Forall_forall in *. auto.
Qed.

(** The value of a bound expression on a row whose columns have moved. *)
Lemma moved_columns_value (f : nat -> nat) (row row' : list DataValue) e :
  functions_local -> all_referenced_columns (fun _ position => bool_decide (row' !! f position = row !! position)) e = true ->
  value_of row' (map_columns f e) = value_of row e.
Proof.
  intros Hf He. unfold value_of. rewrite (bind_map f e). unfold bound_map.
  destruct (bind_evaluator e) as [b|] eqn:Eb; [|done]. cbn [rbind].
  apply (eval_map f row row' Hf). unfold agrees. by rewrite (bind_columns _ e b Eb).
Qed.
End Values.
