(* ===== verification/FilterRules.v ===== *)
(** Moving filters below joins (src/src/optimizer/rule/normalization/
    pushdown_predicates.rs, [PushPredicateThroughJoin]), and why it keeps the
    rows of the plan. *)

From S2P Require Import Prelude MachineInt Types Operators Reader Value Chrono MemComparable Evaluators Casts Expr.
From S2P Require Import Row Collections Exec Sorting SortExec Aggregate HashJoin Optimizer Detach ConstantFold Simplify SimplifySound Columns.
From Stdlib Require Import ZArith Lia.
From stdpp Require Import base tactics list list_numbers numbers option sorting.
Local Open Scope Z_scope.

Section Rule.
Context {SF : ScalarFunctions}.

(** [output_schema] of the planner: its length, and the columns it contains. *)
Context (schema_len : LogicalPlan -> nat) (schema_contains : LogicalPlan -> LogicalType -> nat -> bool).

Definition and_expr (left_expr right_expr : ScalarExpression) : ScalarExpression :=
  ScalarExpression.Binary BinaryOperator.And left_expr right_expr None LogicalType.Boolean.

(** The predicates the closure is called on, in order. *)
Fixpoint split_conjunctive_predicates (expr : ScalarExpression) : list ScalarExpression :=
  match expr with
  | ScalarExpression.Binary BinaryOperator.And left_expr right_expr _ _ =>
      split_conjunctive_predicates left_expr ++ split_conjunctive_predicates right_expr
  | _ => [expr]
  end.

Definition append_filter (slot : option ScalarExpression) (expr : ScalarExpression) : option ScalarExpression :=
  Some match slot with Some current => and_expr current expr | None => expr end.

Definition classify_filter (left_columns right_columns : LogicalType -> nat -> bool)
    (filters : option ScalarExpression * option ScalarExpression * option ScalarExpression) (expr : ScalarExpression)
    : option ScalarExpression * option ScalarExpression * option ScalarExpression :=
  let '(left_filter, right_filter, common_filter) := filters in
  if all_referenced_columns left_columns expr then (append_filter left_filter expr, right_filter, common_filter)
  else if all_referenced_columns right_columns expr then (left_filter, append_filter right_filter expr, common_filter)
  else (left_filter, right_filter, append_filter common_filter expr).

Definition classify_join_filters (predicate : ScalarExpression) (childrens : Childrens)
    : option ScalarExpression * option ScalarExpression * option ScalarExpression * nat :=
  let '(left_columns, right_columns, left_len) :=
    match childrens with
    | Only l => (schema_contains l, fun _ _ => false, schema_len l)
    | Twins l r => (schema_contains l, schema_contains r, schema_len l)
    | NoChild => (fun _ _ => false, fun _ _ => false, O)
    end in
  (fold_left (classify_filter left_columns right_columns) (split_conjunctive_predicates predicate) (None, None, None),
   left_len).

Definition reduce_filters (filters : list ScalarExpression) : option Operator :=
  match filters with
  | [] => None
  | a :: filters => Some (Operator.Filter (fold_left and_expr filters a))
  end.

(** [wrap_child_with] where there is a filter for the child. *)
Definition wrap_filter (plan : LogicalPlan) (child_idx : nat) (filter : option Operator) : LogicalPlan * bool :=
  match filter with Some op => wrap_child_with plan child_idx op | None => (plan, false) end.

Definition new_operators (join_type : JoinType) (left_filter right_filter common_filter : option ScalarExpression) (left_len : nat)
    : option Operator * option Operator * option Operator :=
  let shifted := option_map (shift_positions (- Z.of_nat left_len)) right_filter in
  match join_type with
  | JoinType.Inner =>
      (reduce_filters (option_list left_filter), reduce_filters (option_list shifted), reduce_filters (option_list common_filter))
  | JoinType.LeftOuter =>
      (reduce_filters (option_list left_filter), None, reduce_filters (option_list common_filter ++ option_list right_filter))
  | JoinType.RightOuter =>
      (None, reduce_filters (option_list shifted), reduce_filters (option_list common_filter ++ option_list left_filter))
  | _ => (None, None, None)
  end.

Definition PushPredicateThroughJoin (plan : LogicalPlan) : LogicalPlan * bool :=
  match plan with
  | Plan (Operator.Filter predicate) (Only join_plan) =>
      match operator join_plan with
      | Operator.Join ((JoinType.Inner | JoinType.LeftOuter | JoinType.RightOuter) as join_type) _ _ _ _ _ =>
          let '(left_filter, right_filter, common_filter, left_len) :=
            classify_join_filters predicate (childrens join_plan) in
          let '(left_op, right_op, common_op) := new_operators join_type left_filter right_filter common_filter left_len in
          let '(join_plan, applied_left) := wrap_filter join_plan 0 left_op in
          let '(join_plan, applied_right) := wrap_filter join_plan 1 right_op in
          let applied := applied_left || applied_right in
          match common_op with
          | Some common_op => (Plan common_op (Only join_plan), true)
          | None =>
              let plan := Plan (Operator.Filter predicate) (Only join_plan) in
              if applied then (fst (replace_with_only_child plan), true) else (plan, false)
          end
      | _ => (plan, false)
      end
  | _ => (plan, false)
  end.
End Rule.

(** * Predicates that have a value *)

Section Decided.
Context {OF : OrderedFloat} {CH : Chrono} {SF : ScalarFunctions}.

(** On a row the predicate is true, false or NULL, and whether it is true. *)
Definition decided (row : list DataValue) (e : ScalarExpression) : Prop :=
  exists v, value_of row e = Ok v /\ truth_value v.
Definition satisfied (row : list DataValue) (e : ScalarExpression) : bool :=
  match value_of row e with Ok (DataValue.Boolean b) => b | _ => false end.
Definition all_satisfied (es : list ScalarExpression) (row : list DataValue) : bool := forallb (satisfied row) es.

(** The operands of the connectives are Booleans, as the binder has it. *)
Fixpoint conjunctive (e : ScalarExpression) : Prop :=
  match e with
  | ScalarExpression.Binary BinaryOperator.And l r _ ty => conjunctive l /\ conjunctive r /\ ty = LogicalType.Boolean
  | e => boolean e
  end.

Lemma conjunction_boolean e : conjunctive e -> boolean e.
Proof. destruct e; try done. destruct op; try done. by intros (_ & _ & ->). Qed.

Definition and_evaluator : BinaryEvaluatorRef := {| Evaluators.pos := BINARY_BOOLEAN_BASE + 0; Evaluators.params := Unit |}.

Lemma and_value a b v : binary_eval and_evaluator a b = Ok v -> truth_value a /\ truth_value b.
Proof.
  change (binary_eval and_evaluator a b) with (boolean_and_binary_eval a b). unfold truth_value.
  destruct a, b; intros H; try discriminate H; repeat match goal with b : bool |- _ => destruct b end;
    try discriminate H; (split; first [by left|by right; eexists]).
Qed.

Lemma and_satisfied row l r ev t : boolean l -> boolean r -> decided row l -> decided row r ->
  let e := ScalarExpression.Binary BinaryOperator.And l r ev t in
  decided row e /\ satisfied row e = satisfied row l && satisfied row r.
Proof.
  intros Bl Br (a & Va & Ta) (b & Vb & Tb) e.
  assert (exists v, binary_eval and_evaluator a b = Ok v /\ truth_value v /\
    (match v with DataValue.Boolean b => b | _ => false end) =
    (match a with DataValue.Boolean b => b | _ => false end) && (match b with DataValue.Boolean b => b | _ => false end))
    as (v & Hv & Tv & Hs).
  { destruct Ta as [-> |[[] ->]], Tb as [-> |[[] ->]]; eexists; (split; [reflexivity|]); (split; [|done]);
      first [by left|by right; eexists]. }
  assert (value_of row e = Ok v) as He.
  { apply (boolean_value row BinaryOperator.And l r ev t and_evaluator v Bl Br eq_refl). by exists a, b. }
  split; [by exists v|]. unfold satisfied. rewrite He, Va, Vb. by destruct v, a, b.
Qed.

Lemma and_decided row l r ev t : boolean l -> boolean r ->
  decided row (ScalarExpression.Binary BinaryOperator.And l r ev t) -> decided row l /\ decided row r.
Proof.
  intros Bl Br (v & Hv & _).
  destruct (proj1 (boolean_value row BinaryOperator.And l r ev t and_evaluator v Bl Br eq_refl) Hv) as (a & b & Ha & Hb & Hab).
  apply and_value in Hab as [Ta Tb]. split; [by exists a|by exists b].
Qed.

(** ** Splitting and rebuilding a conjunction *)

Lemma single_conjunct row e : split_conjunctive_predicates e = [e] -> boolean e -> decided row e ->
  Forall boolean (split_conjunctive_predicates e) /\ Forall (decided row) (split_conjunctive_predicates e) /\
  satisfied row e = forallb (satisfied row) (split_conjunctive_predicates e).
Proof. intros -> Hb Hd. cbn [forallb]. rewrite andb_true_r. by repeat constructor. Qed.

Lemma split_satisfied row e : conjunctive e -> decided row e ->
  Forall boolean (split_conjunctive_predicates e) /\ Forall (decided row) (split_conjunctive_predicates e) /\
  satisfied row e = all_satisfied (split_conjunctive_predicates e) row.
Proof.
  unfold all_satisfied. induction e; intros Hc Hd; try (apply (single_conjunct row); [reflexivity|exact Hc|exact Hd]).
  destruct op; try (apply (single_conjunct row); [reflexivity|exact Hc|exact Hd]).
  cbn in Hc. destruct Hc as (Hl & Hr & ->).
  destruct (and_decided row e1 e2 evaluator LogicalType.Boolean) as [Dl Dr]; [by apply conjunction_boolean..|done|].
  destruct (IHe1 Hl Dl) as (B1 & D1 & S1). destruct (IHe2 Hr Dr) as (B2 & D2 & S2).
  cbn [split_conjunctive_predicates]. rewrite !Forall_app, forallb_app, <- S1, <- S2.
  split; [done|]. split; [done|]. by apply and_satisfied; try apply conjunction_boolean.
Qed.

Lemma and_fold row es a : Forall boolean (a :: es) -> Forall (decided row) (a :: es) ->
  boolean (fold_left and_expr es a) /\ decided row (fold_left and_expr es a) /\
  satisfied row (fold_left and_expr es a) = all_satisfied (a :: es) row.
Proof.
  revert a. induction es as [|e es IH]; intros a Hb Hd; unfold all_satisfied; cbn [fold_left forallb].
  - apply Forall_cons_1 in Hb as [Hb _]. apply Forall_cons_1 in Hd as [Hd _]. by rewrite andb_true_r.
  - apply Forall_cons_1 in Hb as [Ba Hb]. apply Forall_cons_1 in Hb as [Be Hb].
    apply Forall_cons_1 in Hd as [Da Hd]. apply Forall_cons_1 in Hd as [De Hd].
    destruct (and_satisfied row a e None LogicalType.Boolean Ba Be Da De) as [Dae Sae].
    destruct (IH (and_expr a e)) as (B & D & S); [by constructor|by constructor|].
    split; [done|]. split; [done|]. rewrite S. unfold all_satisfied. cbn [forallb].
    change (and_expr a e) with (ScalarExpression.Binary BinaryOperator.And a e None LogicalType.Boolean).
    by rewrite Sae, andb_assoc.
Qed.

(** The conjunction of a list of predicates, as the slots of the rule hold it. *)
Definition slot_of (es : list ScalarExpression) : option ScalarExpression :=
  match es with [] => None | a :: es => Some (fold_left and_expr es a) end.

Lemma append_slot es e : append_filter (slot_of es) e = slot_of (es ++ [e]).
Proof. destruct es as [|a es]; [done|]. cbn. by rewrite fold_left_app. Qed.

Section Classes.
Context (left_columns right_columns : LogicalType -> nat -> bool).

Definition of_left (e : ScalarExpression) : bool := all_referenced_columns left_columns e.
Definition of_right (e : ScalarExpression) : bool := negb (of_left e) && all_referenced_columns right_columns e.
Definition of_both (e : ScalarExpression) : bool := negb (of_left e) && negb (all_referenced_columns right_columns e).

Lemma classify_slots es l r c :
  fold_left (classify_filter left_columns right_columns) es (slot_of l, slot_of r, slot_of c) =
  (slot_of (l ++ List.filter of_left es), slot_of (r ++ List.filter of_right es), slot_of (c ++ List.filter of_both es)).
Proof.
  revert l r c. induction es as [|e es IH]; intros l r c; [cbn; by rewrite !app_nil_r|].
  cbn [fold_left classify_filter List.filter]. unfold of_right, of_both, of_left in *.
  destruct (all_referenced_columns left_columns e); cbn [negb andb]; [|destruct (all_referenced_columns right_columns e); cbn [negb]].
  all: rewrite append_slot, IH; by rewrite <- app_assoc.
Qed.

Lemma classes_satisfied es row :
  all_satisfied es row = all_satisfied (List.filter of_left es) row && all_satisfied (List.filter of_right es) row &&
    all_satisfied (List.filter of_both es) row.
Proof.
  unfold all_satisfied. induction es as [|e es IH]; [done|]. cbn [forallb List.filter]. rewrite IH. unfold of_right, of_both.
  destruct (of_left e); cbn [negb andb]; [|destruct (all_referenced_columns right_columns e); cbn [negb]]; cbn [forallb];
    destruct (satisfied row e); cbn [andb]; rewrite ?andb_false_r; done.
Qed.
End Classes.
End Decided.

(** * The rows of a plan *)

Section Meaning.
Context {OF : OrderedFloat} {CH : Chrono} {SF : ScalarFunctions} {HO : HashOrder}.

(** As [denotes] of Optimizer.v, of plans whose filters are still to be bound
    and whose inputs do not fail. *)
Inductive produces : LogicalPlan -> list Tuple -> Prop :=
| produces_source ts : produces (Plan (Operator.Source (mk_stream ts None)) NoChild) ts
| produces_filter e b c ts ts' :
    produces c ts -> bind_evaluator e = Ok b -> runs filter_next (mk_filter b (mk_stream ts None)) (mk_stream ts' None) ->
    produces (Plan (Operator.Filter e) (Only c)) ts'
| produces_join ty lk rk f ll rl l r ls rs ts :
    produces l ls -> produces r rs -> runs hash_join_next (hash_join lk rk f ll rl ty ls rs) (mk_stream ts None) ->
    produces (Plan (Operator.Join ty lk rk f ll rl) (Twins l r)) ts.

Definition on_row (p : list DataValue -> bool) (t : Tuple) : bool := p (values t).

Lemma filter_rows b ts (p : Tuple -> bool) : Forall (fun t => keeps b t = Ok (p t)) ts ->
  runs filter_next (mk_filter b (mk_stream ts None)) (mk_stream (List.filter p ts) None).
Proof.
  intros H. replace (mk_stream (List.filter p ts) None) with (flow (filter_row b) (mk_stream ts None)); [apply filter_produces|].
  rewrite (flow_total _ ts None (map (fun t => if p t then Some t else None) ts)).
  - f_equal. clear. induction ts as [|t ts IH]; [done|]. cbn [map List.filter].
    destruct (p t); cbn; by rewrite <- IH.
  - induction H as [|t ts Ht _ IH]; constructor; [|exact IH]. unfold filter_row. rewrite Ht. by destruct (p t).
Qed.

Lemma satisfied_keeps row e b v : bind_evaluator e = Ok b -> value_of row e = Ok v -> truth_value v ->
  (let? value := eval b (Some row) in is_true value) = Ok (satisfied row e).
Proof.
  intros Hb Hv Ht. unfold satisfied. rewrite Hv. unfold value_of in Hv. rewrite Hb in Hv. cbn [rbind] in Hv. rewrite Hv.
  by destruct Ht as [-> |[x ->]].
Qed.

(** A filter that has a value on every row keeps the rows it is true on; an
    empty input still needs a row on which it can be bound. *)
Lemma filtered_produces c ts e row0 : produces c ts -> decided row0 e -> Forall (fun t => decided (values t) e) ts ->
  produces (Plan (Operator.Filter e) (Only c)) (List.filter (on_row (fun row => satisfied row e)) ts).
Proof.
  intros Hc (v0 & Hv0 & _) Hd. destruct (value_of_inv row0 e v0 Hv0) as (b & Hb & _).
  eapply produces_filter; [exact Hc|exact Hb|]. apply filter_rows.
  eapply List.Forall_impl; [|exact Hd]. intros t (v & Hv & Ht). exact (satisfied_keeps _ e b v Hb Hv Ht).
Qed.

(** A child below the filter the rule makes of some predicates. *)
Definition below (es : list ScalarExpression) (c : LogicalPlan) : LogicalPlan :=
  match slot_of es with Some e => Plan (Operator.Filter e) (Only c) | None => c end.

Lemma filter_none {A : Type} (l : list A) (p : A -> bool) : (forall a, In a l -> p a = true) -> List.filter p l = l.
Proof.
  induction l as [|a l IH]; intros H; [done|]. cbn [List.filter]. rewrite H by (by left). f_equal. apply IH. intros x Hx. apply H. by right.
Qed.

Lemma below_produces c ts es row0 : produces c ts -> Forall boolean es -> Forall (decided row0) es ->
  Forall (fun t => Forall (decided (values t)) es) ts ->
  produces (below es c) (List.filter (on_row (all_satisfied es)) ts).
Proof.
  intros Hc Hb H0 Hd. unfold below. destruct es as [|a es]; cbn [slot_of]; [by rewrite filter_none|].
  destruct (and_fold row0 es a Hb H0) as (_ & D0 & _).
  replace (List.filter (on_row (all_satisfied (a :: es))) ts) with
    (List.filter (on_row (fun row => satisfied row (fold_left and_expr es a))) ts).
  - eapply filtered_produces; [exact Hc|exact D0|].
    eapply List.Forall_impl; [|exact Hd]. intros t Ht. by apply and_fold.
  - apply List.filter_ext_in. intros t Ht. rewrite List.Forall_forall in Hd. unfold on_row.
    exact (proj2 (proj2 (and_fold (values t) es a Hb (Hd t Ht)))).
Qed.
End Meaning.

(** ** Filters and the rows of a join *)

Section Lists.
Lemma filter_flat_map {A B : Type} (p : B -> bool) (g : A -> list B) l :
  List.filter p (flat_map g l) = flat_map (fun a => List.filter p (g a)) l.
Proof. induction l as [|a l IH]; [done|]. cbn. by rewrite List.filter_app, IH. Qed.

Lemma flat_map_filter {A B : Type} (q : A -> bool) (g : A -> list B) l :
  flat_map g (List.filter q l) = flat_map (fun a => if q a then g a else []) l.
Proof. induction l as [|a l IH]; [done|]. cbn. destruct (q a); cbn; by rewrite IH. Qed.

Lemma filter_map {A B : Type} (p : B -> bool) (h : A -> B) l :
  List.filter p (map h l) = map h (List.filter (fun a => p (h a)) l).
Proof. induction l as [|a l IH]; [done|]. cbn. destruct (p (h a)); cbn; by rewrite IH. Qed.

Lemma flat_map_same {A B : Type} (g h : A -> list B) l : (forall a, In a l -> g a = h a) -> flat_map g l = flat_map h l.
Proof. induction l as [|a l IH]; intros H; [done|]. cbn. rewrite H by (by left). f_equal. apply IH. intros x Hx. apply H. by right. Qed.

#[export] Instance filter_permutation {A : Type} (q : A -> bool) : Proper (Permutation ==> Permutation) (List.filter q).
Proof. intros l l' H. by apply filter_perm. Qed.

Lemma filter_nothing {A : Type} (q : A -> bool) l : (forall a, In a l -> q a = false) -> List.filter q l = [].
Proof. induction l as [|a l IH]; intros H; [done|]. cbn [List.filter]. rewrite H by (by left). apply IH. intros x Hx. apply H. by right. Qed.

Lemma filter_filter {A : Type} (p q : A -> bool) l : List.filter p (List.filter q l) = List.filter (fun a => q a && p a) l.
Proof. induction l as [|a l IH]; [done|]. cbn. destruct (q a); cbn; [destruct (p a)|]; by rewrite IH. Qed.
End Lists.

Section Push.
Context {OF : OrderedFloat} {CH : Chrono} {SF : ScalarFunctions}.
Context (lk rk : list ScalarExpression) (f : option ScalarExpression) (ll rl : nat).
Context (ls rs : list Tuple) (Hls : Forall (fun l => length (values l) = ll) ls) (Hrs : Forall (fun r => length (values r) = rl) rs).
Context (pl pr : list DataValue -> bool) (pc : list DataValue -> bool) (p : list DataValue -> bool).

Definition nulls (n : nat) : list DataValue := replicate n DataValue.Null.

(** The values of the rows of a side, and of an absent row. *)
Definition side_values (n : nat) (ts : list Tuple) (vs : list DataValue) : Prop := In vs (nulls n :: map values ts).

(** The whole predicate is what goes left, what goes right and what stays. *)
Context (Hp : forall lv rv, side_values ll ls lv -> side_values rl rs rv -> p (lv ++ rv) = pl lv && pr rv && pc (lv ++ rv)).

Notation ls' := (List.filter (on_row pl) ls).
Notation rs' := (List.filter (on_row pr) rs).

Lemma row_values n ts t : In t ts -> side_values n ts (values t).
Proof. intros H. right. by apply in_map. Qed.

Lemma null_values n ts : side_values n ts (nulls n).
Proof. by left. Qed.

Lemma inner_push :
  List.filter (on_row p) (flat_map (inner_rows lk rk f ls) rs) =
  List.filter (on_row pc) (flat_map (inner_rows lk rk f ls') rs').
Proof.
  rewrite flat_map_filter, !filter_flat_map. apply flat_map_same. intros r Hr. unfold inner_rows, partners.
  rewrite filter_map, filter_filter. destruct (on_row pr r) eqn:Er.
  - rewrite filter_map, !filter_filter. f_equal. apply List.filter_ext_in. intros l Hl.
    unfold on_row in *. cbn [joined values]. rewrite Hp, Er by (by apply row_values).
    destruct (same_keys lk rk l r && pass f l r), (pl (values l)), (pc (values l ++ values r)); done.
  - rewrite filter_nothing; [done|]. intros l Hl.
    unfold on_row in *. cbn [joined values]. rewrite Hp, Er by (by apply row_values).
    by rewrite !andb_false_r.
Qed.

Lemma right_push : (forall lv, pl lv = true) ->
  List.filter (on_row p) (flat_map (right_rows lk rk f ll ls) rs) =
  List.filter (on_row pc) (flat_map (right_rows lk rk f ll ls) rs').
Proof.
  intros Hl. rewrite flat_map_filter, !filter_flat_map. apply flat_map_same. intros r Hr.
  assert (Forall (fun t => exists lv, side_values ll ls lv /\ values t = lv ++ values r) (right_rows lk rk f ll ls r)) as Ht.
  { unfold right_rows. destruct (partners lk rk f ls r) as [|l0 ps] eqn:Ep.
    - repeat constructor. exists (nulls ll). split; [apply null_values|done].
    - rewrite <- Ep. apply Forall_map, List.Forall_forall. intros l Hin. apply filter_In in Hin as [Hin _].
      exists (values l). split; [by apply row_values|done]. }
  rewrite List.Forall_forall in Ht. pose proof (row_values rl rs r Hr) as Er.
  destruct (on_row pr r) eqn:Epr.
  - apply List.filter_ext_in. intros t Hin. destruct (Ht t Hin) as (lv & El & Ev). unfold on_row in *.
    by rewrite Ev, Hp, Hl, Epr.
  - rewrite filter_nothing; [done|]. intros t Hin. destruct (Ht t Hin) as (lv & El & Ev). unfold on_row in *. rewrite Ev, Hp, Epr by done. by rewrite andb_false_r.
Qed.

Lemma padded_values l : length (values l) = ll -> values (padded (rl + ll) l) = values l ++ nulls rl.
Proof.
  intros H. unfold padded, nulls. cbn [values]. rewrite resize_spec, take_ge by lia. do 2 f_equal. lia.
Qed.

Lemma left_push (lonely lonely' : list Tuple) (alone : Tuple -> bool) : (forall rv, pr rv = true) ->
  Permutation lonely (List.filter alone ls) -> Permutation lonely' (List.filter alone ls') ->
  Permutation
    (List.filter (on_row p) (flat_map (inner_rows lk rk f ls) rs ++ map (padded (rl + ll)) lonely))
    (List.filter (on_row pc) (flat_map (inner_rows lk rk f ls') rs ++ map (padded (rl + ll)) lonely')).
Proof.
  intros Hr Hp1 Hp2. rewrite !List.filter_app. apply Permutation_app.
  - rewrite inner_push, (filter_none rs); [done|]. intros r _. apply Hr.
  - rewrite !filter_map. apply Permutation_map. rewrite Hp1, Hp2, !filter_filter.
    erewrite List.filter_ext_in; [done|]. intros l Hl. cbn beta.
    assert (length (values l) = ll) as El by (rewrite List.Forall_forall in Hls; auto).
    unfold on_row. rewrite padded_values, Hp, Hr by (done || (by apply row_values) || apply null_values).
    by destruct (alone l), (pl (values l)).
Qed.
End Push.

(** ** The join of the rows the pushed filters keep *)

Section Joined.
Context {OF : OrderedFloat} {CH : Chrono} {SF : ScalarFunctions} {HO : HashOrder}.
Context (lk rk : list ScalarExpression) (f : option ScalarExpression) (ll rl : nat) (ls rs : list Tuple).
Context (Hls : Forall (fun l => length (values l) = ll) ls) (Hrs : Forall (fun r => length (values r) = rl) rs).

Lemma side_length n ts vs : Forall (fun t => length (values t) = n) ts -> side_values n ts vs -> length vs = n.
Proof.
  intros H [<-|Hin]; [apply length_replicate|]. apply in_map_iff in Hin as (t & <- & Hin). rewrite List.Forall_forall in H. auto.
Qed.

Lemma evaluates_filter p q : HashJoin.evaluates lk rk f ls rs -> HashJoin.evaluates lk rk f (List.filter p ls) (List.filter q rs).
Proof.
  unfold HashJoin.evaluates. rewrite !List.Forall_forall. intros (Hl & Hr & He).
  split; [|split]; intros t [Ht _]%filter_In; [by apply Hl|by apply Hr|].
  apply He in Ht. rewrite List.Forall_forall in *. intros l [Hin _]%filter_In. by apply Ht.
Qed.

(** The rows of the join are made of a row of each side, or of nulls. *)
Definition side_row (t : Tuple) : Prop :=
  exists lv rv, side_values ll ls lv /\ side_values rl rs rv /\ values t = lv ++ rv.

Lemma joined_side l r : In l ls -> In r rs -> side_row (joined l r).
Proof. intros Hl Hr. exists (values l), (values r). split; [by apply row_values|]. split; [by apply row_values|done]. Qed.

Lemma inner_sides residual ls1 rs1 : incl ls1 ls -> incl rs1 rs -> Forall side_row (flat_map (inner_rows lk rk residual ls1) rs1).
Proof.
  intros Hl Hr. apply List.Forall_forall. intros t (r & Hin & Ht)%in_flat_map.
  apply in_map_iff in Ht as (l & <- & [Hl' _]%filter_In). apply joined_side; auto.
Qed.

Lemma right_sides ls1 rs1 : incl ls1 ls -> incl rs1 rs -> Forall side_row (flat_map (right_rows lk rk f ll ls1) rs1).
Proof.
  intros Hl Hr. apply List.Forall_forall. intros t (r & Hin & Ht)%in_flat_map. unfold right_rows in Ht.
  destruct (partners lk rk f ls1 r) as [|l0 ps] eqn:Ep.
  - destruct Ht as [<-|[]]. exists (nulls ll), (values r). split; [apply null_values|]. split; [apply row_values; auto|done].
  - rewrite <- Ep in Ht. apply in_map_iff in Ht as (l & <- & [Hl' _]%filter_In). apply joined_side; auto.
Qed.

Lemma left_sides lonely : incl lonely ls -> Forall side_row (map (padded (rl + ll)) lonely).
Proof.
  intros H. apply Forall_map, List.Forall_forall. intros l Hl. specialize (H l Hl). exists (values l), (nulls rl).
  split; [by apply row_values|]. split; [apply null_values|]. apply padded_values. rewrite List.Forall_forall in Hls. auto.
Qed.

(** The join types the rule is for, and the side it leaves alone. *)
Inductive pushable : JoinType -> (list DataValue -> bool) -> (list DataValue -> bool) -> Prop :=
| pushable_inner pl pr : pushable JoinType.Inner pl pr
| pushable_right pl pr : (forall lv, pl lv = true) -> pushable JoinType.RightOuter pl pr
| pushable_left pl pr : f = None -> (forall rv, pr rv = true) -> pushable JoinType.LeftOuter pl pr.

Lemma join_pushes ty pl pr pc p : lk <> [] -> rk <> [] -> HashJoin.evaluates lk rk f ls rs -> pushable ty pl pr ->
  (forall lv rv, side_values ll ls lv -> side_values rl rs rv -> p (lv ++ rv) = pl lv && pr rv && pc (lv ++ rv)) ->
  exists ts ts',
    runs hash_join_next (hash_join lk rk f ll rl ty ls rs) (mk_stream ts None) /\
    runs hash_join_next (hash_join lk rk f ll rl ty (List.filter (on_row pl) ls) (List.filter (on_row pr) rs)) (mk_stream ts' None) /\
    Forall side_row ts /\ Forall side_row ts' /\
    Permutation (List.filter (on_row p) ts) (List.filter (on_row pc) ts').
Proof.
  intros Hl Hr He Hty Hp. pose proof (evaluates_filter (on_row pl) (on_row pr) He) as He'.
  pose proof (incl_refl ls) as Rl. pose proof (incl_refl rs) as Rr.
  pose proof (incl_filter (on_row pl) ls) as Il. pose proof (incl_filter (on_row pr) rs) as Ir.
  destruct Hty as [pl pr|pl pr Hpl|pl pr Hf Hpr].
  - do 2 eexists. split; [by apply inner_join_runs|]. split; [by apply inner_join_runs|].
    split; [by apply inner_sides|]. split; [by apply inner_sides|].
    by rewrite (inner_push lk rk f ll rl ls rs pl pr pc p Hp).
  - rewrite (filter_none ls (on_row pl)) in * by (intros; apply Hpl). do 2 eexists.
    split; [by apply right_join_runs|]. split; [by apply right_join_runs|].
    split; [by apply right_sides|]. split; [by apply right_sides|].
    by rewrite (right_push lk rk f ll rl ls rs pl pr pc p Hp Hpl).
  - rewrite Hf in *. rewrite (filter_none rs (on_row pr)) in * by (intros; apply Hpr).
    destruct (left_join_runs lk rk ll rl ls rs Hl Hr He) as (lonely & Hrun & Hlone).
    destruct (left_join_runs lk rk ll rl (List.filter (on_row pl) ls) rs Hl Hr He') as (lonely' & Hrun' & Hlone').
    do 2 eexists. split; [exact Hrun|]. split; [exact Hrun'|].
    assert (incl lonely ls) as Hin by (intros x Hx; rewrite Hlone in Hx; by apply filter_In in Hx as [Hx _]).
    assert (incl lonely' ls) as Hin' by (intros x Hx; rewrite Hlone' in Hx; apply filter_In in Hx as [Hx _]; by apply Il).
    split; [apply Forall_app; split; [by apply inner_sides|by apply left_sides]|].
    split; [apply Forall_app; split; [by apply inner_sides|by apply left_sides]|].
    exact (left_push lk rk None ll rl ls rs Hls pl pr pc p Hp lonely lonely' _ Hpr Hlone Hlone').
Qed.
End Joined.

(** ** What the rule makes of a conjunction *)

Section Shape.
Context {OF : OrderedFloat} {CH : Chrono} {SF : ScalarFunctions}.

Lemma reduce_slot es : reduce_filters es = option_map Operator.Filter (slot_of es).
Proof. by destruct es. Qed.

Lemma slot_slot es : slot_of (option_list (slot_of es)) = slot_of es.
Proof. by destruct es. Qed.

Lemma shift_slot delta es :
  option_map (shift_positions delta) (slot_of es) = slot_of (map (shift_positions delta) es).
Proof.
  destruct es as [|a es]; [done|]. cbn [map slot_of option_map]. f_equal.
  revert a. induction es as [|e es IH]; intros a; [done|]. cbn [map fold_left]. by rewrite IH.
Qed.

Lemma slot_facts row es : Forall boolean es -> Forall (decided row) es ->
  let kept := option_list (slot_of es) in
  Forall boolean kept /\ Forall (decided row) kept /\ all_satisfied kept row = all_satisfied es row.
Proof.
  intros Hb Hd. destruct es as [|a es]; [done|]. destruct (and_fold row es a Hb Hd) as (B & D & S).
  cbn. split; [by repeat constructor|]. split; [by repeat constructor|]. by rewrite S, andb_true_r.
Qed.

(** The conjuncts below each side, and those that stay above. *)
Definition to_left (ty : JoinType) (left_ : list ScalarExpression) : list ScalarExpression :=
  match ty with JoinType.RightOuter => [] | _ => left_ end.
Definition to_right (ty : JoinType) (right_ : list ScalarExpression) : list ScalarExpression :=
  match ty with JoinType.LeftOuter => [] | _ => right_ end.
Definition staying (ty : JoinType) (left_ right_ common : list ScalarExpression) : list ScalarExpression :=
  match ty with
  | JoinType.LeftOuter => option_list (slot_of common) ++ option_list (slot_of right_)
  | JoinType.RightOuter => option_list (slot_of common) ++ option_list (slot_of left_)
  | _ => option_list (slot_of common)
  end.

Lemma new_operators_slots ty L R C n : ty = JoinType.Inner \/ ty = JoinType.LeftOuter \/ ty = JoinType.RightOuter ->
  new_operators ty (slot_of L) (slot_of R) (slot_of C) n =
  (option_map Operator.Filter (slot_of (to_left ty L)),
   option_map Operator.Filter (slot_of (map (shift_positions (- Z.of_nat n)) (to_right ty R))),
   option_map Operator.Filter (slot_of (staying ty L R C))).
Proof.
  intros [-> |[-> | ->]]; cbn [new_operators to_left to_right staying map]; by rewrite ?shift_slot, ?reduce_slot, ?slot_slot.
Qed.

(** Something is pushed where nothing stays. *)
Lemma nothing_stays ty L R C : ty = JoinType.Inner \/ ty = JoinType.LeftOuter \/ ty = JoinType.RightOuter ->
  L ++ R ++ C <> [] -> slot_of (staying ty L R C) = None -> to_left ty L <> [] \/ to_right ty R <> [].
Proof.
  intros Hty Hne Hs. destruct L as [|? L]; destruct R as [|? R]; destruct C as [|? C]; destruct Hty as [-> |[-> | ->]];
    cbn in *; try discriminate Hs; try (by left); try (by right); by destruct Hne.
Qed.

Lemma classes_some lc rc es : es <> [] ->
  List.filter (of_left lc) es ++ List.filter (of_right lc rc) es ++ List.filter (of_both lc rc) es <> [].
Proof.
  destruct es as [|e es]; [done|]. intros _. cbn [List.filter]. unfold of_right, of_both.
  destruct (of_left lc e); cbn [negb andb]; [done|]. destruct (all_referenced_columns rc e); cbn [negb].
  all: intros [_ [H1 H2]%app_eq_nil]%app_eq_nil; discriminate.
Qed.

Lemma split_some e : split_conjunctive_predicates e <> [].
Proof.
  induction e; try discriminate. destruct op; try discriminate. cbn [split_conjunctive_predicates].
  intros [H _]%app_eq_nil. by apply IHe1.
Qed.

(** The rule moves each conjunct of the filter to the side it is about, and
    keeps above the join those of both sides. *)
Lemma push_shape schema_len schema_contains ty lk rk f ll rl l r e :
  let lc := schema_contains l in let rc := schema_contains r in
  let conjuncts := split_conjunctive_predicates e in
  let L := List.filter (of_left lc) conjuncts in
  let R := List.filter (of_right lc rc) conjuncts in
  let C := List.filter (of_both lc rc) conjuncts in
  let shift := shift_positions (- Z.of_nat (schema_len l)) in
  ty = JoinType.Inner \/ ty = JoinType.LeftOuter \/ ty = JoinType.RightOuter ->
  PushPredicateThroughJoin schema_len schema_contains
    (Plan (Operator.Filter e) (Only (Plan (Operator.Join ty lk rk f ll rl) (Twins l r)))) =
  (below (staying ty L R C) (Plan (Operator.Join ty lk rk f ll rl)
     (Twins (below (to_left ty L) l) (below (map shift (to_right ty R)) r))), true).
Proof.
  intros lc rc conjuncts L R C shift Hty.
  pose proof (classify_slots lc rc conjuncts [] [] []) as Hc. cbn [app slot_of] in Hc.
  pose proof (nothing_stays ty L R C Hty (classes_some lc rc conjuncts (split_some e))) as Hnone.
  assert (PushPredicateThroughJoin schema_len schema_contains
    (Plan (Operator.Filter e) (Only (Plan (Operator.Join ty lk rk f ll rl) (Twins l r)))) =
    let '(left_filter, right_filter, common_filter, left_len) :=
      classify_join_filters schema_len schema_contains e (Twins l r) in
    let '(left_op, right_op, common_op) := new_operators ty left_filter right_filter common_filter left_len in
    let '(join_plan, applied_left) := wrap_filter (Plan (Operator.Join ty lk rk f ll rl) (Twins l r)) 0 left_op in
    let '(join_plan, applied_right) := wrap_filter join_plan 1 right_op in
    match common_op with
    | Some common_op => (Plan common_op (Only join_plan), true)
    | None =>
        let plan := Plan (Operator.Filter e) (Only join_plan) in
        if applied_left || applied_right then (fst (replace_with_only_child plan), true) else (plan, false)
    end) as -> by (by destruct Hty as [-> |[-> | ->]]).
  unfold classify_join_filters. fold lc rc conjuncts. rewrite Hc. fold L R C.
  rewrite (new_operators_slots ty L R C _ Hty). fold shift. unfold below.
  destruct (staying ty L R C) as [|s ss]; cbn [slot_of option_map] in *.
  - destruct (Hnone eq_refl) as [Hl|Hr].
    + destruct (to_left ty L) as [|a es]; [done|]. cbn. by destruct (map shift (to_right ty R)).
    + destruct (to_left ty L), (to_right ty R) as [|a es]; done.
  - by destruct (to_left ty L), (map shift (to_right ty R)).
Qed.
End Shape.

(** ** The rule keeps the rows *)

Section Sound.
Context {OF : OrderedFloat} {CH : Chrono} {SF : ScalarFunctions} {HO : HashOrder}.
Context (Hlocal : functions_local).

(** A conjunct over the columns of the left side, on a whole row. *)
Lemma left_conjunct (lc : LogicalType -> nat -> bool) lv rv e :
  (forall ty position, lc ty position = true -> (position < length lv)%nat) -> all_referenced_columns lc e = true ->
  value_of (lv ++ rv) e = value_of lv e.
Proof.
  intros Hlc He. rewrite <- (map_columns_id e) at 1. apply moved_columns_value; [done|].
  eapply refers_impl; [|exact He]. intros ty position H. apply bool_decide_eq_true_2, lookup_app_l. eauto.
Qed.

(** A conjunct over the columns of the right side, shifted. *)
Lemma right_conjunct (rc : LogicalType -> nat -> bool) lv rv e :
  (forall ty position, rc ty position = true -> (length lv <= position)%nat) -> all_referenced_columns rc e = true ->
  value_of rv (shift_positions (- Z.of_nat (length lv)) e) = value_of (lv ++ rv) e.
Proof.
  intros Hrc He. apply moved_columns_value; [done|]. eapply refers_impl; [|exact He].
  intros ty position H. apply bool_decide_eq_true_2. rewrite lookup_app_r by eauto. f_equal. unfold shift_position.
  destruct (Z.ltb_spec (- Z.of_nat (length lv)) 0); lia.
Qed.

Lemma shift_boolean delta e : boolean e -> boolean (shift_positions delta e).
Proof. unfold boolean, shift_positions. by rewrite return_type_map. Qed.

(** Predicates with the same values are satisfied by the same rows. *)
Lemma same_satisfied row row' (g : ScalarExpression -> ScalarExpression) es :
  Forall (fun e => value_of row' (g e) = value_of row e) es ->
  all_satisfied (map g es) row' = all_satisfied es row /\ (Forall (decided row) es -> Forall (decided row') (map g es)).
Proof.
  unfold all_satisfied. induction 1 as [|e es He _ [IH1 IH2]]; [by split|]. cbn [map forallb].
  rewrite IH1. split.
  - f_equal. unfold satisfied. by rewrite He.
  - intros Hd. apply Forall_cons_1 in Hd as [(v & Hv & Ht) Hd]. constructor; [|auto]. exists v. by rewrite He.
Qed.

(** Boolean predicates that have a value on a row. *)
Definition usable (row : list DataValue) (es : list ScalarExpression) : Prop := Forall boolean es /\ Forall (decided row) es.

Lemma usable_nil row : usable row [].
Proof. by split. Qed.

Lemma usable_filter row q es : usable row es -> usable row (List.filter q es).
Proof.
  unfold usable. rewrite !List.Forall_forall. intros [Hb Hd]. split; intros e [He _]%filter_In; auto.
Qed.

Lemma usable_slots row es es' : usable row es -> usable row es' ->
  let kept := option_list (slot_of es) ++ option_list (slot_of es') in
  usable row kept /\ all_satisfied kept row = all_satisfied es row && all_satisfied es' row.
Proof.
  intros [B D] [B' D'] kept. destruct (slot_facts row es B D) as (B1 & D1 & S1). destruct (slot_facts row es' B' D') as (B2 & D2 & S2).
  unfold usable, kept. rewrite !Forall_app. split; [by repeat split|]. unfold all_satisfied in *. by rewrite forallb_app, S1, S2.
Qed.

Section Split.
Context (lc rc : LogicalType -> nat -> bool) (lv rv : list DataValue) (e : ScalarExpression).
Context (Hlc : forall ty position, lc ty position = true -> (position < length lv)%nat).
Context (Hrc : forall ty position, rc ty position = true -> (length lv <= position)%nat).
Context (Hc : conjunctive e) (Hd : decided (lv ++ rv) e).

Notation conjuncts := (split_conjunctive_predicates e).
Notation L := (List.filter (of_left lc) conjuncts).
Notation R := (List.filter (of_right lc rc) conjuncts).
Notation C := (List.filter (of_both lc rc) conjuncts).
Notation shift := (shift_positions (- Z.of_nat (length lv))).

Lemma left_usable : usable (lv ++ rv) L -> usable lv L /\ all_satisfied L lv = all_satisfied L (lv ++ rv).
Proof.
  intros [B D]. destruct (same_satisfied (lv ++ rv) lv (fun e => e) L) as [S T].
  - apply List.Forall_forall. intros x [_ Hx]%filter_In. symmetry. by apply (left_conjunct lc).
  - rewrite map_id in S, T. split; [split; auto|exact S].
Qed.

Lemma right_usable : usable (lv ++ rv) R -> usable rv (map shift R) /\ all_satisfied (map shift R) rv = all_satisfied R (lv ++ rv).
Proof.
  intros [B D]. destruct (same_satisfied (lv ++ rv) rv shift R) as [S T].
  - apply List.Forall_forall. intros x [_ [_ Hx]%andb_true_iff]%filter_In. by apply (right_conjunct rc).
  - split; [split; [|by apply T]|exact S]. apply Forall_map. eapply List.Forall_impl; [|exact B].
    intros x. apply shift_boolean.
Qed.

(** On a row made of both sides, the predicate is what goes left, what goes
    right and what stays. *)
Lemma pushed_split ty : ty = JoinType.Inner \/ ty = JoinType.LeftOuter \/ ty = JoinType.RightOuter ->
  satisfied (lv ++ rv) e =
    all_satisfied (to_left ty L) lv && all_satisfied (map shift (to_right ty R)) rv &&
      all_satisfied (staying ty L R C) (lv ++ rv) /\
  usable lv (to_left ty L) /\ usable rv (map shift (to_right ty R)) /\ usable (lv ++ rv) (staying ty L R C).
Proof.
  intros Hty. destruct (split_satisfied (lv ++ rv) e Hc Hd) as (B & D & S).
  assert (usable (lv ++ rv) conjuncts) as U by by split.
  rewrite S, (classes_satisfied lc rc). set (row := lv ++ rv) in *.
  pose proof (usable_filter row (of_left lc) _ U) as UL. pose proof (usable_filter row (of_right lc rc) _ U) as UR.
  pose proof (usable_filter row (of_both lc rc) _ U) as UC.
  destruct (left_usable UL) as [VL SL]. destruct (right_usable UR) as [VR SR]. fold row in SL, SR.
  destruct (usable_slots row C [] UC (usable_nil row)) as [K0 S0].
  destruct (usable_slots row C R UC UR) as [K1 S1]. destruct (usable_slots row C L UC UL) as [K2 S2].
  cbn [slot_of option_list] in K0, S0. rewrite app_nil_r in K0, S0.
  destruct Hty as [-> |[-> | ->]]; cbn [to_left to_right staying map]; (split; [|split; [|split]]); try done; try apply usable_nil.
  - by rewrite S0, SL, SR, andb_true_r.
  - rewrite S1, SL. cbn. by destruct (all_satisfied L row), (all_satisfied R row), (all_satisfied C row).
  - rewrite S2, SR. cbn. by destruct (all_satisfied L row), (all_satisfied R row), (all_satisfied C row).
Qed.
End Split.

(** PushPredicateThroughJoin keeps the rows of its plan, up to their
    order. A filter above an inner join, a right outer join, or a left outer
    join without a residual condition, is moved: the conjuncts that only
    refer to columns of the left side go below it as they are, those of the
    right side with their column positions shifted by the number of left
    columns, and the others stay above; for an outer join nothing is moved
    below the side whose missing rows are padded with nulls. The filter has
    to be a conjunction of Boolean predicates that have a value (an error
    would be raised for other rows), also on rows padded with nulls. *)
Theorem push_predicate_sound schema_len schema_contains ty lk rk f l r ls rs e :
  let ll := schema_len l in
  let rl := schema_len r in
  ty = JoinType.Inner \/ ty = JoinType.RightOuter \/ ty = JoinType.LeftOuter /\ f = None ->
  lk <> [] -> rk <> [] -> HashJoin.evaluates lk rk f ls rs ->
  produces l ls -> produces r rs ->
  Forall (fun t => length (values t) = ll) ls -> Forall (fun t => length (values t) = rl) rs ->
  (forall ty position, schema_contains l ty position = true -> (position < ll)%nat) ->
  (forall ty position, schema_contains r ty position = true -> (ll <= position)%nat) ->
  conjunctive e -> (forall lv rv, side_values ll ls lv -> side_values rl rs rv -> decided (lv ++ rv) e) ->
  let plan := Plan (Operator.Filter e) (Only (Plan (Operator.Join ty lk rk f ll rl) (Twins l r))) in
  exists plan' ts ts',
    PushPredicateThroughJoin schema_len schema_contains plan = (plan', true) /\
    produces plan ts /\ produces plan' ts' /\ Permutation ts ts'.
Proof.
  intros ll rl Hty Hl Hr He Pl Pr Hls Hrs Hlc Hrc Hc Hd plan.
  assert (ty = JoinType.Inner \/ ty = JoinType.LeftOuter \/ ty = JoinType.RightOuter) as Hty' by naive_solver.
  pose proof (push_shape schema_len schema_contains ty lk rk f ll rl l r e Hty') as Hshape. cbn zeta in Hshape. fold ll in Hshape.
  set (L := List.filter (of_left (schema_contains l)) (split_conjunctive_predicates e)) in *.
  set (R := List.filter (of_right (schema_contains l) (schema_contains r)) (split_conjunctive_predicates e)) in *.
  set (C := List.filter (of_both (schema_contains l) (schema_contains r)) (split_conjunctive_predicates e)) in *.
  set (TL := to_left ty L) in *. set (TR := map (shift_positions (- Z.of_nat ll)) (to_right ty R)) in *.
  set (S := staying ty L R C) in *.
  assert (forall lv rv, side_values ll ls lv -> side_values rl rs rv ->
    satisfied (lv ++ rv) e = all_satisfied TL lv && all_satisfied TR rv && all_satisfied S (lv ++ rv) /\
    usable lv TL /\ usable rv TR /\ usable (lv ++ rv) S) as Hsplit.
  { intros lv rv H1 H2. pose proof (side_length ll ls lv Hls H1) as El. rewrite <- El in Hlc, Hrc.
    pose proof (pushed_split (schema_contains l) (schema_contains r) lv rv e Hlc Hrc Hc (Hd lv rv H1 H2) ty Hty') as H.
    rewrite El in H. exact H. }
  destruct (join_pushes lk rk f ll rl ls rs Hls Hrs ty (all_satisfied TL) (all_satisfied TR) (all_satisfied S)
    (fun row => satisfied row e) Hl Hr He) as (ts & ts' & Hrun & Hrun' & Hs & Hs' & Hperm).
  { destruct Hty as [-> |[-> |[-> Hf]]]; by constructor. }
  { intros lv rv H1 H2. by apply Hsplit. }
  pose proof (Hsplit _ _ (null_values ll ls) (null_values rl rs)) as (_ & UL0 & UR0 & US0).
  eexists _, _, _. split; [exact Hshape|]. split; [|split; [|exact Hperm]].
  - eapply (filtered_produces _ _ _ (nulls ll ++ nulls rl)); [eapply produces_join; [exact Pl|exact Pr|exact Hrun]| |].
    + apply Hd; apply null_values.
    + eapply List.Forall_impl; [|exact Hs]. intros t (lv & rv & H1 & H2 & ->). by apply Hd.
  - eapply (below_produces _ _ _ (nulls ll ++ nulls rl)); [eapply produces_join; [| |exact Hrun']|apply US0|apply US0|].
    + eapply (below_produces _ _ _ (nulls ll)); [exact Pl|apply UL0|apply UL0|].
      apply List.Forall_forall. intros t Ht. apply (Hsplit (values t) (nulls rl)); [by apply row_values|apply null_values].
    + eapply (below_produces _ _ _ (nulls rl)); [exact Pr|apply UR0|apply UR0|].
      apply List.Forall_forall. intros t Ht. apply (Hsplit (nulls ll) (values t)); [apply null_values|by apply row_values].
    + eapply List.Forall_impl; [|exact Hs']. intros t (lv & rv & H1 & H2 & ->). by apply Hsplit.
Qed.
End Sound.

(** ** A filter above an inner join *)

Section Witness.
Local Existing Instance no_functions.

Definition pushed_left : Tuple := mk_tuple None [DataValue.Int32 1; DataValue.Int32 5].
Definition pushed_right : Tuple := mk_tuple None [DataValue.Int32 1; DataValue.Int32 9].
Definition left_rows : list Tuple := [pushed_left; pair_row 2 6].
Definition join_right_rows : list Tuple := [mk_tuple None [DataValue.Null; DataValue.Int32 4]; pushed_right].
Definition left_source : LogicalPlan := Plan (Operator.Source (mk_stream left_rows None)) NoChild.
Definition right_source : LogicalPlan := Plan (Operator.Source (mk_stream join_right_rows None)) NoChild.

(** The left rows have the columns 0 and 1, the right ones 2 and 3. *)
Definition pair_schema_len (_ : LogicalPlan) : nat := 2.
Definition pair_schema_contains (p : LogicalPlan) (_ : LogicalType) (position : nat) : bool :=
  match p with
  | Plan (Operator.Source (mk_stream (mk_tuple _ (DataValue.Null :: _) :: _) _)) _ => (2 <=? position)%nat && (position <? 4)%nat
  | _ => (position <? 2)%nat
  end.

Definition compare_columns (op : BinaryOperator) (left_ right_ : ScalarExpression) : ScalarExpression :=
  ScalarExpression.Binary op left_ right_ None LogicalType.Boolean.
Definition int_constant (x : Z) : ScalarExpression := ScalarExpression.Constant (DataValue.Int32 x).

(** [left.k = 1 and right.x > 5 and left.x < right.x]. *)
Definition on_left : ScalarExpression := compare_columns BinaryOperator.Eq (int_col 0) (int_constant 1).
Definition on_right (position : nat) : ScalarExpression := compare_columns BinaryOperator.Gt (int_col position) (int_constant 5).
Definition on_both : ScalarExpression := compare_columns BinaryOperator.Lt (int_col 1) (int_col 3).
Definition pushed_predicate : ScalarExpression := and_expr (and_expr on_left (on_right 3)) on_both.

Definition pair_join (l r : LogicalPlan) : LogicalPlan :=
  Plan (Operator.Join JoinType.Inner [int_col 0] [int_col 0] None 2 2) (Twins l r).
Definition filter_plan (e : ScalarExpression) (c : LogicalPlan) : LogicalPlan := Plan (Operator.Filter e) (Only c).
Definition unpushed_plan : LogicalPlan := filter_plan pushed_predicate (pair_join left_source right_source).

Example pushed_shape :
  PushPredicateThroughJoin pair_schema_len pair_schema_contains unpushed_plan =
  (filter_plan on_both (pair_join (filter_plan on_left left_source) (filter_plan (on_right 1) right_source)), true).
Proof. reflexivity. Qed.

Lemma no_functions_local : functions_local.
Proof. by intros []. Qed.

Lemma push_predicate_sound_witness :
  exists plan' ts ts',
    PushPredicateThroughJoin pair_schema_len pair_schema_contains unpushed_plan = (plan', true) /\
    produces unpushed_plan ts /\ produces plan' ts' /\ Permutation ts ts'.
Proof.
  apply (push_predicate_sound no_functions_local pair_schema_len pair_schema_contains JoinType.Inner
    [int_col 0] [int_col 0] None left_source right_source left_rows join_right_rows pushed_predicate).
  - by left.
  - done.
  - done.
  - repeat constructor; try (by eexists); intros _; by eexists.
  - constructor.
  - constructor.
  - by repeat constructor.
  - by repeat constructor.
  - intros ty position H. by apply Nat.ltb_lt, H.
  - intros ty position [H%Nat.leb_le _]%andb_true_iff. exact H.
  - repeat split.
  - intros lv rv [<-|[<-|[<-|[]]]] [<-|[<-|[<-|[]]]]; eexists; (split; [vm_compute; reflexivity|]);
      first [by left|by right; eexists].
Defined.
End Witness.
